(* ===== verification/_CoqProject ===== *)
-Q . S2P
Prelude.v
Ordering.v
Text.v
Percentage.v
Externals.v
Scope.v
Errors.v
RateWindow.v
Money.v
Status.v
Credits.v
CostUsage.v
Detail.v
Snapshot.v
Advisor.v
SnapshotStore.v
Scheduler.v
RuntimePolicy.v
Notifications.v
Actor.v
ActorFacts.v
ActorSpec.v
JsonLine.v
Protocol.v
FrontendPresence.v
Endpoint.v
Transport.v
SliceReader.v
LevelDb.v
Snappy.v
LevelDbFacts.v
History.v
HistoryWorker.v
Config.v
Shutdown.v
Program.v
ProviderFiles.v
ProviderFilesFacts.v
ProviderFilesSpec.v
AtomicFile.v
AtomicFileFacts.v
AtomicFileSpec.v
Cookie.v
CookieFacts.v
ManualCapture.v
ManualCaptureFacts.v
MonitorEvents.v
MonitorEventsFacts.v
Credentials.v
CredentialsFacts.v
CredentialsSpec.v
Registry.v
ProviderRefresh.v
ProviderRefreshFacts.v
FixedApi.v
FixedApiFacts.v
Floats.v
RequestSigning.v
RequestSigningFacts.v
Normalize.v
Json.v
Adapter.v
BalanceProviders.v
QuotaProviders.v
Crof.v
ProvidersFacts.v
Settings.v
Environment.v
EnvironmentFacts.v
ConfigCommands.v
ConfigCommandsFacts.v
ConfigCommandsSpec.v
