(* ===== verification/Prelude.v ===== *)
(** * Verification of the Omarchy AI Bar daemon

    Omarchy AI Bar polls AI providers for usage, quota, cost and status, keeps
    the newest picture of every account, and serves it to a desktop bar over a
    local socket.  This library is a shallow embedding of the parts of its Rust
    crates that decide things, with the theorems that make them correct.

    ** How a refresh flows, and where each step is modelled

    - A timer, a popup or the user asks the runtime for a refresh.  The
      scheduler ([Scheduler.v], crates/runtime/src/scheduler.rs) says which
      accounts are due; the actor ([Actor.v], crates/runtime/src/actor.rs,
      command.rs, event.rs) admits, coalesces or queues the request, runs a
      bounded number of workers and turns their results into store operations;
      its limits and back-off are in [RuntimePolicy.v] (the top of actor.rs).
    - A worker asks a provider.  Every request goes through the transport
      ([Transport.v], crates/providers/src/transport.rs, retry.rs), which asks
      the endpoint policy ([Endpoint.v], endpoint.rs) before each one and after
      each redirect.  Which providers exist and what each supports is the table
      of [Registry.v] (descriptor.rs, capability.rs, registry.rs, context.rs);
      an API-key client binds a key to one origin and one account ([FixedApi.v],
      [FixedApiFacts.v], fixed_api.rs, configured_endpoint.rs), and the
      application's refresh sources decide which adapter is asked, when a browser
      may be looked at and when a local history is read again
      ([ProviderRefresh.v], [ProviderRefreshFacts.v], crates/app/src/
      provider_refresh.rs).  Cookies are kept to their host by [Cookie.v],
      [CookieFacts.v] (cookie.rs); a request pasted from a browser is read by
      [ManualCapture.v], [ManualCaptureFacts.v] (manual_capture.rs) under a
      policy of hosts and headers; requests to two clouds are signed by
      [RequestSigning.v], [RequestSigningFacts.v] (cloud_signing.rs, which the
      transport calls).  Some providers read another
      program's browser database ([SliceReader.v], [LevelDb.v],
      chromium_leveldb.rs), or files another program owns, below a directory
      that was opened once ([ProviderFiles.v], [ProviderFilesFacts.v],
      [ProviderFilesSpec.v], provider_files.rs).
    - An adapter turns a service's answers into a usage sample.  What adapters
      share is [Floats.v] (binary64 printing and reading), [Normalize.v]
      (normalize.rs: counts, integers for display, the sample builder),
      [Json.v] (how they look into decoded JSON) and [Adapter.v] (the programs of
      requests they are, and what makes one lawful).  [BalanceProviders.v],
      [QuotaProviders.v] and [Crof.v] are the adapters themselves, one Module for
      each of crates/providers/src/providers/deepseek.rs, moonshot.rs,
      deepinfra.rs, aiand.rs, fireworks.rs, clinepass.rs, ollama.rs,
      elevenlabs.rs, zed.rs, zenmux.rs, groq.rs and crof.rs, proved in
      [ProvidersFacts.v].
    - Credentials ([Credentials.v], [CredentialsFacts.v], [CredentialsSpec.v],
      crates/auth/src) come from the environment, the Secret Service or a
      protected file, by precedence.  What the adapters are given to read is the
      process environment, filled below what it sets with the stored credentials
      and the configured options ([Environment.v], [EnvironmentFacts.v],
      crates/app/src/credentials.rs, provider_config.rs, and parts of
      provider_bootstrap.rs and wiring.rs).
    - The settings a provider offers are a table ([Settings.v], crates/providers/
      src/settings_descriptor.rs); the commands that change the configuration by
      it, as programs over the files below, are [ConfigCommands.v],
      [ConfigCommandsFacts.v] and [ConfigCommandsSpec.v] (crates/app/src/
      wiring.rs, and the enterprise host of providers/copilot.rs).
    - The worker's result is built from the domain types (crates/domain/src):
      texts ([Text.v], text.rs), percentages ([Percentage.v], percentage.rs),
      instants and the outside crates ([Externals.v], timestamp.rs), routing
      ids and scopes ([Scope.v], provider_id.rs, ids.rs), classified errors
      ([Errors.v], error.rs, freshness.rs), quota lanes ([RateWindow.v],
      rate_window.rs), amounts ([Money.v], money.rs), provider status
      ([Status.v], status.rs), credits ([Credits.v], credits.rs), cost history
      ([CostUsage.v], cost_usage.rs), identities, details, spend and reset
      credits ([Detail.v], snapshot.rs, identity.rs), and the usage sample, the
      provider snapshot, the envelope and the privacy policy ([Snapshot.v],
      snapshot.rs, privacy.rs).  [Advisor.v] (advisor.rs) turns samples into
      advice about which account to use.
    - The snapshot store ([SnapshotStore.v], crates/runtime/src/
      snapshot_store.rs) keeps one snapshot per account and publishes
      envelopes.  When the process stops, its tasks are drained by [Shutdown.v]
      (shutdown.rs); what it tells the desktop goes through [Notifications.v]
      (notifications.rs), under the privacy policy.
    - The storage crate keeps the configuration document ([Config.v],
      crates/storage/src/config, migrations.rs), which says which accounts there
      are, and offers a bounded history of samples ([History.v],
      [HistoryWorker.v], history.rs), owned by one thread.  Documents are
      written through locks and atomic replacement ([AtomicFile.v],
      [AtomicFileFacts.v], [AtomicFileSpec.v], lock.rs, atomic_file.rs) over a
      file system of inodes, directory entries and what a crash keeps of them.
    - Envelopes leave the process as JSON lines ([JsonLine.v],
      crates/ipc/src/codec.rs) under the display protocol ([Protocol.v],
      protocol.rs); [FrontendPresence.v] (frontend_presence.rs) decides when
      the fallback tray is shown, and [MonitorEvents.v], [MonitorEventsFacts.v]
      (crates/app/src/hyprland_events.rs) forward the compositor's monitor
      events.

    [Prelude.v] (this file) has Rust's [Result], the state-and-error monad
    [SE], checked machine arithmetic and the list lemmas everyone uses;
    [Ordering.v] has total orders, stable sorting and duplicate checks.

    ** How code becomes definitions

    A method is one definition, with the source's name, its guards in the
    source's order and its early returns as [Err].  [&mut self] is a computation
    in [SE state error]; a panic ([debug_assert!], [expect], an index out of
    range, an overflow of an unchecked operation) is an error value of its own
    ([Panicked]), so that "never panics" is a theorem.  Integers are [Z] with
    the width's bounds written where the code checks, wraps or saturates.
    [f64] is [SpecFloat]'s binary64.  [BTreeMap]s and [HashMap]s are [gmap]s
    where the order of their iteration does not matter and sorted lists where
    it does; [Vec]s are lists.

    Code outside the repository is a parameter: the [time], [rust_decimal],
    SHA-256 and HMAC, [serde_json], [url], [httpdate] and [reqwest] crates are classes of
    operations, with the documented behaviour a theorem needs as a class of
    laws, and [Externals.Reference] and the [...Example] modules hold concrete
    instances of each, which the witnesses use.  The Tokio parts of the actor
    are reduced to what it observes: the join set is a map of tasks, its
    results are inputs of the loop, broadcast events are the list of what was
    sent, and the clock is a sequence of readings that need not be monotone.
    The transport's network, deadline, cancellation and clock are a [World]
    that may answer anything; the cloud signers are an argument of it, which
    [RequestSigning.cloud_signers] instantiates.  The
    history store's SQLite connection is its table of rows, each statement of
    which may fail when an oracle says so; the files of [AtomicFile.v] are a
    disk with a history of what a crash may leave, whose calls may fail in the
    same way.  The refresh sources are programs of calls whose answers are
    arbitrary; so is what reads the files of other programs, over the trees of
    calls of [Program.v] with their weakest precondition.

    ** The theorems

    - The actor: reachable states keep the invariant of [ActorFacts.v]
      ([actor_reachable]), no turn panics ([actor_never_panics]), events follow
      the refresh protocol ([event_protocol]), admission is what
      [admission_spec] says, and a queued refresh starts in time
      ([queued_refresh_starts]).
    - The transport: only approved requests are sent
      ([transport_sends_only_approved]), a send ends within a bounded number of
      exchanges ([send_terminates_bounded]), requests are well formed and
      responses obey the request's contract
      ([built_requests_well_formed], [response_within_contract]), and the endpoint policy approves no URL of the wrong origin,
      class or shape ([validated_endpoint_approved]).
    - The store refines a map of accounts ([store_refines_specification]) and
      keeps its invariant; the scheduler's boundaries fire once and its sleeps
      are exact; the presence policy refines its specification machine.
    - The codec: feeding bytes is line decoding whatever the chunks
      ([feed_is_line_decoder]), it fails closed, and streams round trip; the
      handshake and the replay registry are exact.
    - The database reader: no input makes it panic, diverge or exceed its
      budget ([parse_images_safe]); Snappy streams, write batches and the merge
      are exact against their formats.
    - Other programs' files: only confined calls are made and every operation ends
      ([provider_files_confined]), a scan is the whole tree below the directory
      that was walked to from the root, within its limits
      ([provider_scan_complete]), and a candidate is read, through the one
      descriptor opened for it, as the scan found it
      ([candidate_contents_exact]).
    - The storage crate: a configuration is accepted exactly when it satisfies a
      declarative specification ([load_config_exact]), and its endpoints are safe;
      the history thread refines an archive that keeps every row and shows the
      newest ([worker_refines_archive]), under any interleaving of callers
      and through shutdown.
    - The files: an atomic write is crash safe and durable, leaves no copy of a
      secret ([atomic_write_crash_safe], [secret_write_leaves_no_copy]) and changes
      nothing without the lock; over them the protected credential file refines
      a map ([protected_file_refines_map]), and a configuration command leaves the
      previous document or the edited one, whole ([config_commands_durable]), a
      valid one but for one case ([config_commands_keep_valid]).  That serde_json
      reads back what it wrote is not assumed.
    - Settings: an option command accepts exactly what its page offers and changes
      nothing else ([option_command_exact]), what the adapters read comes from where
      it may ([adapter_environment_provenance]), and a credential stored for the
      ambient account reaches its adapter, one stored for another account none
      ([stored_credential_reaches_adapter]).
    - The adapters: whatever their services answer, they panic nowhere, ask only
      through their own client and publish only for their own provider and
      account ([adapters_keep_contract]).
    - What leaves: a key stays with its client's origin
      ([key_stays_with_origin]), a capture with its host
      ([capture_stays_with_host]), the cookie header has exactly the cookies for
      the request, the most specific first ([header_for_exact]), a browser is asked only after the account's own credentials failed
      ([browser_only_after_auth_failure]), and only whole lines of the one
      monitor are forwarded.  A pasted request
      yields only what its policy grants ([capture_keeps_to_policy]), its
      tokenizer is exact against a grammar ([tokenizer_accepts_grammar]), and a
      copied command reads back ([copied_request_read_back]).  A signature
      identifies the request ([canonical_request_identifies]) and is made over
      what is sent.  Notifications are bounded and
      private ([notifications_private_and_bounded]).
    - Shutting down joins every task and reports how each ended, if the tasks
      yield to the executor ([shutdown_joins_every_task]).
    - The domain: every constructor builds canonical values only, wire forms
      round trip, and public projections reveal nothing private.

    ** Fuel and bounds

    Loops that are not structural take fuel that their entry point computes,
    and running out is an error value that is proved unreachable: the actor's
    refill loop gets the queue's length plus one; the redirect loop
    [max_redirects + 1] and the retry loop [max_retries + 1]; the Snappy, log
    block and prefix-block loops one more than the bytes they have left, each
    round consuming at least one; reading a file two more than its size
    ([read_fuel]), each round but the last adding a byte; a scan one level more than
    its depth limit ([scan_levels]).  [SEARCH_FUEL] (130) bounds the scheduler's
    binary search for the largest instant that can be represented, which halves
    a 128-bit range.

    ** Not modelled

    Input and output itself (sockets, subprocesses, the keyring's own protocol,
    SQLite's pages), process start-up and the commands that only read and print, the other
    provider modules (requests and response decoding around the domain
    constructors and the adapter interface modelled here), cryptography, and the QML front end.  The
    [Debug] formatting of every type is left out.  The history scope of
    a refresh source is a field of it, not a call.  PROJECT.json lists every
    component with its status. *)
From stdpp Require Import prelude.
Local Open Scope Z_scope.

(** ** Fallible computations: Rust's [Result] *)

Inductive Result (E A : Type) : Type :=
| Ok (a : A)
| Err (e : E).
Arguments Ok {_ _} _.
Arguments Err {_ _} _.

#[global] Instance Result_ret {E} : MRet (Result E) := λ A a, Ok a.
#[global] Instance Result_bind {E} : MBind (Result E) :=
  λ A B k m, match m with Ok a => k a | Err e => Err e end.
#[global] Instance Result_fmap {E} : FMap (Result E) :=
  λ A B f m, match m with Ok a => Ok (f a) | Err e => Err e end.

#[global] Instance Result_eq_dec {E A} `{EqDecision E, EqDecision A} :
  EqDecision (Result E A).
Proof. solve_decision. Defined.

(** [if !b { return Err(e) }] *)
Definition ensure {E} (b : bool) (e : E) : Result E unit :=
  if b then Ok tt else Err e.

Definition map_err {E F A} (f : E → F) (m : Result E A) : Result F A :=
  match m with Ok a => Ok a | Err e => Err (f e) end.

Definition ok_or {E A} (o : option A) (e : E) : Result E A :=
  match o with Some a => Ok a | None => Err e end.

Definition result_ok {E A} (m : Result E A) : option A :=
  match m with Ok a => Some a | Err _ => None end.

Definition is_ok {E A} (m : Result E A) : bool :=
  match m with Ok _ => true | Err _ => false end.

(** [Option<Result<_>>::transpose] after [map]. *)
Definition traverse_option {E A B} (f : A → Result E B) (o : option A) :
    Result E (option B) :=
  match o with None => Ok None | Some a => Some <$> f a end.

Fixpoint traverse_list {E A B} (f : A → Result E B) (l : list A) :
    Result E (list B) :=
  match l with
  | [] => Ok []
  | x :: l => y ← f x; ys ← traverse_list f l; Ok (y :: ys)
  end.

Lemma bind_Ok {E A B} (m : Result E A) (k : A → Result E B) b :
  m ≫= k = Ok b ↔ ∃ a, m = Ok a ∧ k a = Ok b.
Proof. destruct m; cbn; naive_solver. Qed.

(** Two runs that agree step by step. *)
Lemma bind_cong {E A B} (m m' : Result E A) (k k' : A → Result E B) :
  m = m' → (∀ a, k a = k' a) → m ≫= k = m' ≫= k'.
Proof. intros <- Hk. destruct m; cbn; auto. Qed.

Lemma bind_Err {E A B} (m : Result E A) (k : A → Result E B) e :
  m ≫= k = Err e ↔ m = Err e ∨ ∃ a, m = Ok a ∧ k a = Err e.
Proof. destruct m; cbn; naive_solver. Qed.

Lemma fmap_Ok {E A B} (f : A → B) (m : Result E A) b :
  f <$> m = Ok b ↔ ∃ a, m = Ok a ∧ f a = b.
Proof. destruct m; cbn; naive_solver. Qed.

Lemma ensure_Ok {E} b (e : E) u : ensure b e = Ok u ↔ b = true.
Proof. destruct b, u; cbn; naive_solver. Qed.

Lemma ensure_Err {E} b (e e' : E) : ensure b e = Err e' ↔ b = false ∧ e = e'.
Proof. destruct b; cbn; naive_solver. Qed.

Lemma map_err_Ok {E F A} (f : E → F) (m : Result E A) a :
  map_err f m = Ok a ↔ m = Ok a.
Proof. destruct m; cbn; naive_solver. Qed.

Lemma ok_or_Ok {E A} (o : option A) (e : E) a : ok_or o e = Ok a ↔ o = Some a.
Proof. destruct o; cbn; naive_solver. Qed.

Lemma traverse_option_Ok {E A B} (f : A → Result E B) o r :
  traverse_option f o = Ok r ↔
  (o = None ∧ r = None) ∨ ∃ a b, o = Some a ∧ f a = Ok b ∧ r = Some b.
Proof.
  destruct o as [a|]; cbn; [rewrite fmap_Ok|]; naive_solver.
Qed.

Lemma traverse_list_Ok {E A B} (f : A → Result E B) l r :
  traverse_list f l = Ok r ↔ Forall2 (λ a b, f a = Ok b) l r.
Proof.
  revert r; induction l as [|x l IH]; intros r; cbn.
  - split; [intros [= <-]; constructor | inversion 1; done].
  - split.
    + intros (y & Hy & H)%bind_Ok. apply bind_Ok in H as (ys & Hys & [= <-]).
      constructor; [done | by apply IH].
    + inversion 1 as [|? y ? ys Hy Hys]; subst.
      rewrite Hy. cbn. apply IH in Hys. rewrite Hys. done.
Qed.

(** Inversion of a successful run of a [Result] computation. *)
Ltac result_step :=
  match goal with
  | H : Ok _ = Ok _ |- _ => injection H as H
  | H : Err _ = Ok _ |- _ => discriminate H
  | H : Ok _ = Err _ |- _ => discriminate H
  | H : mret _ = Ok _ |- _ => injection H as H
  | H : mbind _ _ = Ok _ |- _ =>
      let a := fresh "r" in let H1 := fresh "Hm" in
      apply bind_Ok in H as (a & H1 & H)
  | H : fmap _ _ = Ok _ |- _ =>
      let a := fresh "r" in let H1 := fresh "Hm" in
      apply fmap_Ok in H as (a & H1 & H)
  | H : ensure _ _ = Ok _ |- _ => apply ensure_Ok in H
  | H : map_err _ _ = Ok _ |- _ => apply map_err_Ok in H
  | H : ok_or _ _ = Ok _ |- _ => apply ok_or_Ok in H
  | H : context [if ?b then _ else _] |- _ =>
      match type of H with _ = Ok _ => destruct b eqn:? end
  end.
Ltac result_inv := repeat result_step; subst; simpl in *; try done.

(** ** Machine integers *)

Definition u8_max : Z := 2 ^ 8 - 1.
Definition u16_max : Z := 2 ^ 16 - 1.
Definition u32_max : Z := 2 ^ 32 - 1.
Definition u64_max : Z := 2 ^ 64 - 1.
Definition usize_max : Z := u64_max.
Definition i64_min : Z := - 2 ^ 63.
Definition i64_max : Z := 2 ^ 63 - 1.

(** [checked_add], [checked_mul], [saturating_add], [saturating_sub] of an
    unsigned integer whose greatest value is [top]. *)
Definition checked_add (top a b : Z) : option Z :=
  if a + b <=? top then Some (a + b) else None.
Definition checked_mul (top a b : Z) : option Z :=
  if a * b <=? top then Some (a * b) else None.
Definition saturating_add (top a b : Z) : Z := Z.min (a + b) top.
Definition saturating_mul (top a b : Z) : Z := Z.min (a * b) top.
Definition saturating_sub (a b : Z) : Z := Z.max 0 (a - b).

Lemma checked_add_Some top a b c :
  checked_add top a b = Some c ↔ c = a + b ∧ a + b ≤ top.
Proof. unfold checked_add. destruct (Z.leb_spec (a + b) top); naive_solver lia. Qed.

Lemma checked_add_None top a b : checked_add top a b = None ↔ top < a + b.
Proof. unfold checked_add. destruct (Z.leb_spec (a + b) top); naive_solver lia. Qed.

Lemma checked_mul_Some top a b c :
  checked_mul top a b = Some c ↔ c = a * b ∧ a * b ≤ top.
Proof. unfold checked_mul. destruct (Z.leb_spec (a * b) top); naive_solver lia. Qed.

(** ** State and error monad

    A [&mut self] method that returns [Result]: it threads the state and an
    error keeps the state reached when it was raised. *)

Definition SE (S E A : Type) : Type := S → S * Result E A.

#[global] Instance SE_ret {S E} : MRet (SE S E) := λ A a s, (s, Ok a).
#[global] Instance SE_bind {S E} : MBind (SE S E) :=
  λ A B k m s,
    match m s with
    | (s', Ok a) => k a s'
    | (s', Err e) => (s', Err e)
    end.

Section SE_ops.
Context {S E : Type}.
Definition se_gets {A} (f : S → A) : SE S E A := λ s, (s, Ok (f s)).
Definition se_modify (f : S → S) : SE S E unit := λ s, (f s, Ok tt).
Definition se_fail {A} (e : E) : SE S E A := λ s, (s, Err e).
Definition se_lift {A} (m : Result E A) : SE S E A := λ s, (s, m).
(** [for x in xs { body(x)?; }] *)
Fixpoint se_for {A} (xs : list A) (body : A → SE S E unit) : SE S E unit :=
  match xs with
  | [] => mret tt
  | x :: xs => body x ;; se_for xs body
  end.

Lemma se_bind_Ok {A B} (m : SE S E A) (k : A → SE S E B) s s' b :
  (m ≫= k) s = (s', Ok b) ↔ ∃ s1 a, m s = (s1, Ok a) ∧ k a s1 = (s', Ok b).
Proof.
  unfold mbind, SE_bind. destruct (m s) as [s1 [a|e]]; naive_solver.
Qed.
Lemma se_bind_Err {A B} (m : SE S E A) (k : A → SE S E B) s s' e :
  (m ≫= k) s = (s', Err e) ↔
  m s = (s', Err e) ∨ ∃ s1 a, m s = (s1, Ok a) ∧ k a s1 = (s', Err e).
Proof.
  unfold mbind, SE_bind. destruct (m s) as [s1 [a|e']]; naive_solver.
Qed.

Lemma se_bind_run {A B} (m : SE S E A) (k : A → SE S E B) s s1 a :
  m s = (s1, Ok a) → (m ≫= k) s = k a s1.
Proof. intros E1. unfold mbind, SE_bind. by rewrite E1. Qed.
Lemma se_bind_stop {A B} (m : SE S E A) (k : A → SE S E B) s s1 e :
  m s = (s1, Err e) → (m ≫= k) s = (s1, Err e).
Proof. intros E1. unfold mbind, SE_bind. by rewrite E1. Qed.

(** Partial-correctness triples: [Q] holds of the state whether or not the
    computation fails. *)
Definition se_triple {A} (P : S → Prop) (m : SE S E A)
    (Q : Result E A → S → Prop) : Prop :=
  ∀ s, P s → Q (m s).2 (m s).1.

(** [m] keeps [P] on success and on failure. *)
Definition se_preserves {A} (P : S → Prop) (m : SE S E A) : Prop :=
  ∀ s, P s → P (m s).1.

Lemma se_preserves_ret {A} P (a : A) : se_preserves P (mret a).
Proof. intros s Hs. exact Hs. Qed.
Lemma se_preserves_gets {A} P (f : S → A) : se_preserves P (se_gets f).
Proof. intros s Hs. exact Hs. Qed.
Lemma se_preserves_fail {A} P (e : E) : se_preserves (A:=A) P (se_fail e).
Proof. intros s Hs. exact Hs. Qed.
Lemma se_preserves_lift {A} P (m : Result E A) : se_preserves P (se_lift m).
Proof. intros s Hs. exact Hs. Qed.
Lemma se_preserves_modify P f : (∀ s, P s → P (f s)) → se_preserves P (se_modify f).
Proof. intros Hf s Hs. apply Hf, Hs. Qed.
Lemma se_preserves_bind {A B} P (m : SE S E A) (k : A → SE S E B) :
  se_preserves P m → (∀ a, se_preserves P (k a)) → se_preserves P (m ≫= k).
Proof.
  intros Hm Hk s Hs. specialize (Hm s Hs). unfold mbind, SE_bind.
  destruct (m s) as [s1 [a|e]]; [apply Hk|]; exact Hm.
Qed.
Lemma se_preserves_for {A} P (xs : list A) body :
  (∀ x, se_preserves P (body x)) → se_preserves P (se_for xs body).
Proof.
  intros Hb. induction xs as [|x xs IH]; cbn.
  - apply se_preserves_ret.
  - apply se_preserves_bind; [apply Hb | intros _; exact IH].
Qed.
End SE_ops.

Create HintDb se.
#[export] Hint Resolve se_preserves_ret se_preserves_gets se_preserves_fail
  se_preserves_lift se_preserves_bind se_preserves_for : se.

(** ** Lists and options *)

Lemma option_or_None_r {A} (o : option A) : (match o with Some a => Some a | None => None end) = o.
Proof. by destruct o. Qed.

Lemma NoDup_length_le {A} `{EqDecision A} (l k : list A) :
  NoDup l → (∀ x, x ∈ l → x ∈ k) → (length l ≤ length k)%nat.
Proof.
  intros Hl Hsub. apply submseteq_length. by apply NoDup_submseteq.
Qed.

Lemma forallb_Forall_eq {A} (p : A → bool) l :
  forallb p l = true ↔ Forall (λ x, p x = true) l.
Proof.
  induction l as [|x l IH]; cbn; [by split|]. by rewrite andb_true_iff, Forall_cons, IH.
Qed.

(** A closed decidable fact, by evaluation of its decision procedure. *)
Ltac by_decide := refine (bool_decide_unpack _ _); vm_compute; exact I.
