(* ===== verification/Ordering.v ===== *)
(** * Ordering: total orders, stable sorting and duplicate checks

    Models Rust's [Ord] as a three-way comparison with laws, and the parts of
    the standard library the program builds canonical collections with:
    [sort_by], [sort_by_key], [windows(2).any(..)] and the
    [BTreeSet::insert]-based uniqueness checks.  The lemmas say when sorting is
    the identity and when its result does not depend on the input order. *)
From stdpp Require Import prelude sorting.
From S2P Require Import Prelude.
Local Open Scope Z_scope.

Class Cmp (A : Type) := cmp : A → A → comparison.
#[global] Hint Mode Cmp ! : typeclass_instances.

Class CmpLaws (A : Type) `{Cmp A} : Prop := {
  cmp_eq (x y : A) : cmp x y = Eq ↔ x = y;
  cmp_sym (x y : A) : cmp y x = CompOpp (cmp x y);
  cmp_trans (x y z : A) : cmp x y = Lt → cmp y z = Lt → cmp x z = Lt;
}.

(** [Ordering::then]. *)
Definition then_ (c d : comparison) : comparison :=
  match c with Eq => d | _ => c end.

(** The operators [<] and [<=] of a type that implements [Ord]. *)
Definition cmp_lt {A} `{Cmp A} (x y : A) : bool :=
  match cmp x y with Lt => true | _ => false end.
Definition cmp_le {A} `{Cmp A} (x y : A) : bool :=
  match cmp x y with Gt => false | _ => true end.
(** [Ord::max]: the second argument when the two compare equal. *)
Definition cmp_max {A} `{Cmp A} (x y : A) : A := if cmp_le x y then y else x.
Definition cmp_min {A} `{Cmp A} (x y : A) : A := if cmp_le x y then x else y.

#[global] Instance Z_Cmp : Cmp Z := Z.compare.
#[global] Instance bool_Cmp : Cmp bool := λ x y,
  match x, y with
  | false, true => Lt | true, false => Gt | _, _ => Eq
  end.
(** [None] is the least value of an [Option]. *)
#[global] Instance option_Cmp {A} `{Cmp A} : Cmp (option A) := λ x y,
  match x, y with
  | None, None => Eq | None, Some _ => Lt | Some _, None => Gt
  | Some a, Some b => cmp a b
  end.
#[global] Instance prod_Cmp {A B} `{Cmp A, Cmp B} : Cmp (A * B) := λ x y,
  then_ (cmp x.1 y.1) (cmp x.2 y.2).
Fixpoint list_cmp {A} `{Cmp A} (l k : list A) : comparison :=
  match l, k with
  | [], [] => Eq | [], _ :: _ => Lt | _ :: _, [] => Gt
  | x :: l, y :: k => then_ (cmp x y) (list_cmp l k)
  end.
#[global] Instance list_Cmp {A} `{Cmp A} : Cmp (list A) := list_cmp.

(** [std::cmp::Reverse]. *)
Record Reverse (A : Type) := mk_reverse { unreverse : A }.
Arguments mk_reverse {_} _.
Arguments unreverse {_} _.
#[global] Instance Reverse_Cmp {A} `{Cmp A} : Cmp (Reverse A) := λ x y,
  cmp (unreverse y) (unreverse x).

(** The order a key function induces; a law-abiding order of its own when the
    key is injective. *)
Definition cmp_on {A K} `{Cmp K} (f : A → K) (x y : A) : comparison := cmp (f x) (f y).

Section laws.
#[global] Instance Z_CmpLaws : CmpLaws Z.
Proof.
  split; unfold cmp, Z_Cmp.
  - apply Z.compare_eq_iff.
  - intros x y. apply Z.compare_antisym.
  - intros x y z. rewrite !Z.compare_lt_iff. lia.
Qed.
#[global] Instance bool_CmpLaws : CmpLaws bool.
Proof.
  split; [intros [] [] | intros [] [] | intros [] [] []]; naive_solver.
Qed.
#[global] Instance option_CmpLaws {A} `{CmpLaws A} : CmpLaws (option A).
Proof.
  split; unfold cmp, option_Cmp.
  - intros [x|] [y|]; rewrite ?cmp_eq; naive_solver.
  - intros [x|] [y|]; cbn; try done. apply cmp_sym.
  - intros [x|] [y|] [z|]; try done. apply cmp_trans.
Qed.
Lemma cmp_refl {A} `{CmpLaws A} (x : A) : cmp x x = Eq.
Proof. by apply cmp_eq. Qed.
Lemma then_Eq c d : then_ c d = Eq ↔ c = Eq ∧ d = Eq.
Proof. destruct c, d; naive_solver. Qed.
Lemma then_opp c d : CompOpp (then_ c d) = then_ (CompOpp c) (CompOpp d).
Proof. by destruct c, d. Qed.
Lemma then_Lt c d : then_ c d = Lt ↔ c = Lt ∨ c = Eq ∧ d = Lt.
Proof. destruct c, d; naive_solver. Qed.
#[global] Instance prod_CmpLaws {A B} `{CmpLaws A, CmpLaws B} : CmpLaws (A * B).
Proof.
  split; unfold cmp, prod_Cmp.
  - intros [x1 x2] [y1 y2]; cbn. rewrite then_Eq, !cmp_eq. naive_solver.
  - intros [x1 x2] [y1 y2]; cbn. by rewrite then_opp, !(cmp_sym x1), (cmp_sym x2).
  - intros [x1 x2] [y1 y2] [z1 z2]; cbn. rewrite !then_Lt.
    intros [Hx|[Hx Hx2]] [Hy|[Hy Hy2]]; rewrite ?cmp_eq in *; subst;
      eauto using cmp_trans, cmp_refl.
Qed.
#[global] Instance list_CmpLaws {A} `{CmpLaws A} : CmpLaws (list A).
Proof.
  split; unfold cmp, list_Cmp.
  - induction x as [|x l IH]; intros [|y k]; cbn; try naive_solver.
    rewrite then_Eq, cmp_eq, IH. naive_solver.
  - induction x as [|x l IH]; intros [|y k]; cbn; try done.
    by rewrite then_opp, (cmp_sym x), IH.
  - induction x as [|x l IH]; intros [|y k] [|z m]; cbn; try done.
    rewrite !then_Lt.
    intros [Hx|[Hx Hx2]] [Hy|[Hy Hy2]]; rewrite ?cmp_eq in *; subst;
      eauto using cmp_trans, cmp_refl.
Qed.
#[global] Instance Reverse_CmpLaws {A} `{CmpLaws A} : CmpLaws (Reverse A).
Proof.
  split; unfold cmp, Reverse_Cmp.
  - intros [x] [y]; cbn. rewrite cmp_eq. naive_solver.
  - intros [x] [y]; cbn. apply cmp_sym.
  - intros [x] [y] [z]; cbn. eauto using cmp_trans.
Qed.
(** A type ordered through an injective key. *)
Lemma cmp_on_laws {A K} `{CmpLaws K} (f : A → K) `{!Inj (=) (=) f} :
  @CmpLaws A (cmp_on f).
Proof.
  split; unfold cmp, cmp_on.
  - intros x y. rewrite cmp_eq. split; [apply (inj f) | by intros ->].
  - intros x y. apply cmp_sym.
  - intros x y z. apply cmp_trans.
Qed.

Context {A} `{CmpLaws A}.
Lemma cmp_Gt_Lt (x y : A) : cmp x y = Gt ↔ cmp y x = Lt.
Proof. rewrite (cmp_sym x y). by destruct (cmp x y). Qed.
Lemma cmp_lt_irrefl (x : A) : cmp x x ≠ Lt.
Proof. by rewrite cmp_refl. Qed.
Lemma cmp_le_refl (x : A) : cmp_le x x = true.
Proof. unfold cmp_le. by rewrite cmp_refl. Qed.
Lemma cmp_le_total (x y : A) : cmp_le x y = true ∨ cmp_le y x = true.
Proof. unfold cmp_le. rewrite (cmp_sym x y). destruct (cmp x y); cbn; auto. Qed.
Lemma cmp_le_cases (x y : A) : cmp_le x y = true ↔ cmp x y = Lt ∨ x = y.
Proof.
  rewrite <-(cmp_eq x y). unfold cmp_le. destruct (cmp x y); naive_solver.
Qed.
Lemma cmp_le_antisym (x y : A) : cmp_le x y = true → cmp_le y x = true → x = y.
Proof.
  unfold cmp_le. rewrite (cmp_sym x y). destruct (cmp x y) eqn:E; cbn; try done.
  intros. by apply cmp_eq.
Qed.
Lemma cmp_le_trans (x y z : A) :
  cmp_le x y = true → cmp_le y z = true → cmp_le x z = true.
Proof.
  rewrite !cmp_le_cases. intros [Hx| ->] [Hy| ->]; eauto using cmp_trans.
Qed.
End laws.

Lemma Z_cmp_le (x y : Z) : cmp_le x y = (x <=? y).
Proof. unfold cmp_le, cmp, Z_Cmp, Z.leb. by destruct (x ?= y). Qed.
Lemma Z_cmp_lt (x y : Z) : cmp_lt x y = (x <? y).
Proof. unfold cmp_lt, cmp, Z_Cmp, Z.ltb. by destruct (x ?= y). Qed.

(** ** [slice::sort_by]

    Stable: an element is placed before the first later element that is not
    smaller. *)
Section sort.
Context {A : Type} (c : A → A → comparison).

Definition le_by (x y : A) : bool := match c x y with Gt => false | _ => true end.

Fixpoint insert_by (x : A) (l : list A) : list A :=
  match l with
  | [] => [x]
  | y :: k => if le_by x y then x :: l else y :: insert_by x k
  end.

Fixpoint sort_by (l : list A) : list A :=
  match l with
  | [] => []
  | x :: l => insert_by x (sort_by l)
  end.

Lemma insert_by_perm x l : insert_by x l ≡ₚ x :: l.
Proof.
  induction l as [|y l IH]; cbn; [done|]. destruct (le_by x y); [done|].
  rewrite IH. apply perm_swap.
Qed.
Lemma sort_by_perm l : sort_by l ≡ₚ l.
Proof. induction l as [|x l IH]; cbn; [done|]. by rewrite insert_by_perm, IH. Qed.
Lemma sort_by_length l : length (sort_by l) = length l.
Proof. by rewrite sort_by_perm. Qed.
Lemma elem_of_sort_by x l : x ∈ sort_by l ↔ x ∈ l.
Proof. by rewrite sort_by_perm. Qed.

Lemma sort_by_id l : StronglySorted (λ x y, le_by x y = true) l → sort_by l = l.
Proof.
  induction 1 as [|x l Hl IH Hx]; cbn; [done|]. rewrite IH.
  destruct l as [|y l]; cbn; [done|].
  inversion Hx as [|?? Hy]; subst. by rewrite Hy.
Qed.

Context (le_total : ∀ x y, le_by x y = true ∨ le_by y x = true).
Context (le_trans : ∀ x y z, le_by x y = true → le_by y z = true → le_by x z = true).

Lemma insert_by_sorted x l :
  StronglySorted (λ x y, le_by x y = true) l →
  StronglySorted (λ x y, le_by x y = true) (insert_by x l).
Proof.
  induction 1 as [|y l Hl IH Hy]; cbn; [repeat constructor|].
  destruct (le_by x y) eqn:E.
  - constructor; [by constructor|]. constructor; [done|].
    eapply Forall_impl; [exact Hy|]. eauto.
  - constructor; [done|]. rewrite insert_by_perm. constructor; [|done].
    destruct (le_total x y); congruence.
Qed.
Lemma sort_by_sorted l : StronglySorted (λ x y, le_by x y = true) (sort_by l).
Proof. induction l; cbn; [constructor | by apply insert_by_sorted]. Qed.
End sort.

(** ** Sorting by a key *)
Definition sort_by_key {A K} `{Cmp K} (f : A → K) : list A → list A :=
  sort_by (cmp_on f).

(** [xs.windows(2).any(|w| key(w[0]) == key(w[1]))] *)
Fixpoint adjacent_dup {A K} `{EqDecision K} (f : A → K) (l : list A) : bool :=
  match l with
  | x :: (y :: _) as k => bool_decide (f x = f y) || adjacent_dup f k
  | _ => false
  end.

(** [values.all(|v| seen.insert(v))] from an empty [BTreeSet]. *)
Fixpoint all_fresh {K} `{EqDecision K} (seen : list K) (l : list K) : bool :=
  match l with
  | [] => true
  | x :: l => bool_decide (x ∉ seen) && all_fresh (x :: seen) l
  end.
Definition unique_b {K} `{EqDecision K} (l : list K) : bool := all_fresh [] l.

Lemma all_fresh_spec {K} `{EqDecision K} (seen l : list K) :
  all_fresh seen l = true ↔ NoDup l ∧ ∀ x, x ∈ l → x ∉ seen.
Proof.
  revert seen; induction l as [|x l IH]; intros seen; cbn.
  - split; [split; [constructor | set_solver] | done].
  - rewrite andb_true_iff, bool_decide_eq_true, IH, NoDup_cons. set_solver.
Qed.
Lemma unique_b_spec {K} `{EqDecision K} (l : list K) : unique_b l = true ↔ NoDup l.
Proof. unfold unique_b. rewrite all_fresh_spec. set_solver. Qed.

Section by_key.
Context {A K : Type} `{CmpLaws K} `{!EqDecision K} (f : A → K).

(** Canonical collections: strictly increasing keys. *)
Definition strictly_sorted : list A → Prop :=
  StronglySorted (λ x y, cmp (f x) (f y) = Lt).

Lemma le_by_total x y : le_by (cmp_on f) x y = true ∨ le_by (cmp_on f) y x = true.
Proof. apply (cmp_le_total (f x) (f y)). Qed.
Lemma le_by_trans x y z :
  le_by (cmp_on f) x y = true → le_by (cmp_on f) y z = true → le_by (cmp_on f) x z = true.
Proof. apply (cmp_le_trans (f x) (f y) (f z)). Qed.
Lemma le_by_cases x y : le_by (cmp_on f) x y = true ↔ cmp (f x) (f y) = Lt ∨ f x = f y.
Proof. apply (cmp_le_cases (f x) (f y)). Qed.

Lemma sort_by_key_perm l : sort_by_key f l ≡ₚ l.
Proof. apply sort_by_perm. Qed.
Lemma sort_by_key_length l : length (sort_by_key f l) = length l.
Proof. apply sort_by_length. Qed.
Lemma sort_by_key_sorted l :
  StronglySorted (λ x y, le_by (cmp_on f) x y = true) (sort_by_key f l).
Proof. apply sort_by_sorted; [apply le_by_total | apply le_by_trans]. Qed.

Lemma strictly_sorted_NoDup l : strictly_sorted l → NoDup (f <$> l).
Proof.
  induction 1 as [|x l Hl IH Hx]; cbn; [constructor|].
  constructor; [|done]. intros (y & Hy & Hin)%list_elem_of_fmap.
  rewrite Forall_forall in Hx. apply (cmp_lt_irrefl (f x)).
  rewrite Hy at 2. by apply Hx.
Qed.
Lemma sorted_NoDup_strict l :
  StronglySorted (λ x y, le_by (cmp_on f) x y = true) l → NoDup (f <$> l) →
  strictly_sorted l.
Proof.
  induction 1 as [|x l Hl IH Hx]; cbn; [constructor|].
  intros [Hnin Hnd]%NoDup_cons. constructor; [by apply IH|].
  rewrite Forall_forall in *. intros y Hy.
  destruct (proj1 (le_by_cases x y) (Hx y Hy)) as [|E]; [done|].
  destruct Hnin. rewrite E. by apply list_elem_of_fmap_2.
Qed.
Lemma strictly_sorted_le l :
  strictly_sorted l → StronglySorted (λ x y, le_by (cmp_on f) x y = true) l.
Proof.
  induction 1 as [|x l Hl IH Hx]; constructor; [done|].
  eapply Forall_impl; [exact Hx|]. intros y Hy. apply le_by_cases. by left.
Qed.

Lemma sort_by_key_strict l : NoDup (f <$> l) → strictly_sorted (sort_by_key f l).
Proof.
  intros Hnd. apply sorted_NoDup_strict; [apply sort_by_key_sorted|].
  by rewrite sort_by_key_perm.
Qed.
Lemma sort_by_key_id l : strictly_sorted l → sort_by_key f l = l.
Proof. intros Hs. by apply sort_by_id, strictly_sorted_le. Qed.

(** Two strictly sorted lists with the same elements are the same list. *)
Lemma strictly_sorted_unique l k :
  strictly_sorted l → strictly_sorted k → l ≡ₚ k → l = k.
Proof.
  intros Hl. revert k. induction Hl as [|x l Hl IH Hx]; intros k Hk Hp.
  - by apply Permutation_nil in Hp.
  - destruct Hk as [|y k Hk Hy].
    { symmetry in Hp. by apply Permutation_nil in Hp. }
    rewrite Forall_forall in Hx, Hy.
    assert (x = y) as ->.
    { assert (x ∈ y :: k) as [->|Hxk]%elem_of_cons by (rewrite <-Hp; left); [done|].
      assert (y ∈ x :: l) as [->|Hyl]%elem_of_cons by (rewrite Hp; left); [done|].
      exfalso. apply (cmp_lt_irrefl (f x)). eapply cmp_trans; eauto. }
    f_equal. apply IH; [done|]. by apply (Permutation_cons_inv (a:=y)).
Qed.
Lemma sort_by_key_unique l k :
  NoDup (f <$> l) → l ≡ₚ k → sort_by_key f l = sort_by_key f k.
Proof.
  intros Hnd Hp. apply strictly_sorted_unique.
  - by apply sort_by_key_strict.
  - apply sort_by_key_strict. by rewrite <-Hp.
  - by rewrite !sort_by_key_perm.
Qed.

(** On a sorted list the adjacent test finds every duplicate key. *)
Lemma adjacent_dup_sorted l :
  StronglySorted (λ x y, le_by (cmp_on f) x y = true) l →
  adjacent_dup f l = false ↔ NoDup (f <$> l).
Proof.
  induction 1 as [|x l Hl IH Hx]; [split; [constructor|done]|].
  destruct l as [|y l]; [split; [repeat constructor; set_solver | done]|].
  change (adjacent_dup f (x :: y :: l))
    with (bool_decide (f x = f y) || adjacent_dup f (y :: l)).
  rewrite orb_false_iff, bool_decide_eq_false, IH.
  change (f <$> x :: y :: l) with (f x :: (f <$> y :: l)). rewrite (NoDup_cons (f x)).
  split; [|set_solver].
  intros [Hne Hnd]. split; [|done].
  intros (z & Hz & [->|Hin]%elem_of_cons)%list_elem_of_fmap; [done|].
  inversion Hl as [|? ? _ Hyl]; subst. inversion Hx as [|? ? Hxy Hxl]; subst.
  rewrite Forall_forall in Hyl. specialize (Hyl z Hin).
  apply Hne. apply cmp_le_antisym; [exact Hxy|]. rewrite Hz. exact Hyl.
Qed.
Lemma adjacent_dup_sort l :
  adjacent_dup f (sort_by_key f l) = false ↔ NoDup (f <$> l).
Proof.
  rewrite adjacent_dup_sorted by apply sort_by_key_sorted.
  by rewrite sort_by_key_perm.
Qed.
End by_key.

(** Two comparators that agree on elements with different keys sort a
    duplicate-free list alike. *)
Section sort_ext.
Context {A K : Type} (f : A → K) (c1 c2 : A → A → comparison).
Context (agree : ∀ x y, f x ≠ f y → le_by c1 x y = le_by c2 x y).

Lemma insert_by_ext x l : f x ∉ (f <$> l) → insert_by c1 x l = insert_by c2 x l.
Proof.
  induction l as [|y l IH]; cbn; [done|]. intros [Hne Hnin]%not_elem_of_cons.
  rewrite agree by done. by rewrite IH.
Qed.
Lemma sort_by_ext l : NoDup (f <$> l) → sort_by c1 l = sort_by c2 l.
Proof.
  induction l as [|x l IH]; cbn; [done|]. intros [Hnin Hnd]%NoDup_cons.
  rewrite <-IH by done. apply insert_by_ext. by rewrite sort_by_perm.
Qed.
End sort_ext.

(** ** Checks after sorting *)
Section canonical.
Context {A K S : Type} `{CmpLaws K, EqDecision K, EqDecision S} (f : A → K) (g : A → S).
Context (same_key : ∀ x y, f x = f y ↔ g x = g y).

Lemma NoDup_same_key (l : list A) : NoDup (f <$> l) ↔ NoDup (g <$> l).
Proof.
  induction l as [|x l IH]; [split; intros; constructor|]. rewrite !fmap_cons, !NoDup_cons, IH.
  rewrite !list_elem_of_fmap. setoid_rewrite same_key. done.
Qed.
(** Sorting and then looking for duplicates does not see the input order. *)
Lemma sorted_unique_perm {E B} (e : E) (l l' : list A) (k : list A → Result E B) :
  l ≡ₚ l' →
  (_ ← (if unique_b (g <$> sort_by_key f l) then Ok tt else Err e); k (sort_by_key f l)) =
  (_ ← (if unique_b (g <$> sort_by_key f l') then Ok tt else Err e); k (sort_by_key f l')).
Proof.
  intros E'. destruct (unique_b (g <$> sort_by_key f l)) eqn:Hu.
  - apply unique_b_spec in Hu. rewrite sort_by_key_perm in Hu.
    rewrite (sort_by_key_unique f l l'), (proj2 (unique_b_spec _)); try done.
    + by rewrite sort_by_key_perm, <-E'.
    + by apply NoDup_same_key.
  - destruct (unique_b (g <$> sort_by_key f l')) eqn:Hu'; [|done].
    apply not_true_iff_false in Hu as []. apply unique_b_spec. apply unique_b_spec in Hu'.
    rewrite sort_by_key_perm in *. by rewrite E'.
Qed.
Lemma sorted_adjacent_perm {E B} (l l' : list A) (e : E) (k : list A → Result E B) :
  l ≡ₚ l' →
  (if adjacent_dup f (sort_by_key f l) then Err e else k (sort_by_key f l)) =
  (if adjacent_dup f (sort_by_key f l') then Err e else k (sort_by_key f l')).
Proof.
  intros E'. destruct (adjacent_dup f (sort_by_key f l)) eqn:Hu.
  - destruct (adjacent_dup f (sort_by_key f l')) eqn:Hu'; [done|].
    apply not_false_iff_true in Hu as []. apply adjacent_dup_sort in Hu'.
    apply adjacent_dup_sort. by rewrite E'.
  - apply adjacent_dup_sort in Hu. rewrite (sort_by_key_unique f l l') by done.
    rewrite (proj2 (adjacent_dup_sort f l')); [done|]. by rewrite <-E'.
Qed.
Lemma unique_sorted_strict (l : list A) :
  unique_b (g <$> sort_by_key f l) = true → strictly_sorted f (sort_by_key f l).
Proof.
  intros Hu%unique_b_spec. rewrite sort_by_key_perm in Hu.
  by apply sort_by_key_strict, NoDup_same_key.
Qed.
End canonical.

(** Replace the collection on the left by its permutation [E]. *)
Ltac reorder_adjacent E :=
  lazymatch goal with
  | |- (if adjacent_dup ?f ?l then Err ?e else ?body) = _ =>
      lazymatch eval pattern l in body with
      | ?k _ => etransitivity; [exact (sorted_adjacent_perm f _ _ e k E)|cbv beta]
      end
  end.
Ltac reorder_unique l key same E :=
  lazymatch goal with
  | |- mbind (λ _, ?body) _ = _ =>
      lazymatch eval pattern l in body with
      | ?k _ => etransitivity; [exact (sorted_unique_perm key _ same _ _ _ k E)|cbv beta]
      end
  end.

(** ** [Iterator::min_by] and [Iterator::max_by]

    The first of equal minima, the last of equal maxima. *)
Definition min_by {A} (c : A → A → comparison) (l : list A) : option A :=
  match l with
  | [] => None
  | x :: l => Some (foldl (λ x y, match c x y with Gt => y | _ => x end) x l)
  end.
Definition max_by {A} (c : A → A → comparison) (l : list A) : option A :=
  match l with
  | [] => None
  | x :: l => Some (foldl (λ x y, match c x y with Gt => x | _ => y end) x l)
  end.

Lemma min_by_None {A} (c : A → A → comparison) l : min_by c l = None ↔ l = [].
Proof. by destruct l. Qed.
Lemma max_by_None {A} (c : A → A → comparison) l : max_by c l = None ↔ l = [].
Proof. by destruct l. Qed.

(** A choice between two elements that is below both, iterated. *)
Lemma fold_pick {A} (P : A → Prop) (R : relation A) (pick : A → A → A) x l :
  Reflexive R → Transitive R →
  (∀ x y, P x → P y → (pick x y = x ∨ pick x y = y) ∧ R (pick x y) x ∧ R (pick x y) y) →
  P x → Forall P l →
  let m := foldl pick x l in m ∈ x :: l ∧ ∀ y, y ∈ x :: l → R m y.
Proof.
  intros Hrefl Htrans Hpick Hx Hl. revert x Hx. induction Hl as [|y l Hy _ IH]; intros x Hx; cbn.
  { split; [left|]. intros y ->%list_elem_of_singleton. done. }
  destruct (Hpick x y Hx Hy) as (Hp & Hpx & Hpy).
  destruct (IH (pick x y)) as (Hm & Hall); [by destruct Hp as [->| ->]|].
  assert (R (foldl pick (pick x y) l) (pick x y)) as Hmp by (apply Hall; left).
  split.
  - apply elem_of_cons in Hm as [->|Hm]; [|by right; right].
    destruct Hp as [->| ->]; [left|right; left].
  - intros z [->|[->|Hz]%elem_of_cons]%elem_of_cons; [by etrans|by etrans|].
    apply Hall. by right.
Qed.

(** A comparator that agrees, on the elements of the list, with a key's order. *)
Section extremum.
Context {A K : Type} `{CmpLaws K} (f : A → K) (c : A → A → comparison).

Lemma min_by_spec l m :
  (∀ x y, x ∈ l → y ∈ l → c x y = cmp (f x) (f y)) →
  min_by c l = Some m → m ∈ l ∧ ∀ y, y ∈ l → cmp_le (f m) (f y) = true.
Proof.
  intros Hc. destruct l as [|x l]; [done|]. cbn. intros [= <-].
  apply (fold_pick (λ z, z ∈ x :: l) (λ a b, cmp_le (f a) (f b) = true));
    [intros a; apply cmp_le_refl|intros a b d; apply cmp_le_trans| |left|].
  - intros a b Ha Hb. rewrite (Hc a b) by done.
    destruct (cmp (f a) (f b)) eqn:E; split_and!; auto using cmp_le_refl;
      unfold cmp_le; by rewrite ?(cmp_sym (f a) (f b)), ?E.
  - apply Forall_forall. intros y. by right.
Qed.

Lemma max_by_spec l m :
  (∀ x y, x ∈ l → y ∈ l → c x y = cmp (f x) (f y)) →
  max_by c l = Some m → m ∈ l ∧ ∀ y, y ∈ l → cmp_le (f y) (f m) = true.
Proof.
  intros Hc. destruct l as [|x l]; [done|]. cbn. intros [= <-].
  apply (fold_pick (λ z, z ∈ x :: l) (λ a b, cmp_le (f b) (f a) = true));
    [intros a; apply cmp_le_refl|intros a b d Hab Hbd; by eapply cmp_le_trans| |left|].
  - intros a b Ha Hb. rewrite (Hc a b) by done.
    destruct (cmp (f a) (f b)) eqn:E; split_and!; auto using cmp_le_refl;
      unfold cmp_le; by rewrite ?(cmp_sym (f a) (f b)), ?E.
  - apply Forall_forall. intros y. by right.
Qed.

(** The choice does not depend on the order when the key tells elements apart. *)
Context (l l' : list A) (Hp : l ≡ₚ l').
Context (Hc : ∀ x y, x ∈ l → y ∈ l → c x y = cmp (f x) (f y)).
Context (Hinj : ∀ x y, x ∈ l → y ∈ l → f x = f y → x = y).

Lemma comparator_perm x y : x ∈ l' → y ∈ l' → c x y = cmp (f x) (f y).
Proof using Hp Hc. rewrite <-Hp. apply Hc. Qed.

Lemma min_by_perm : min_by c l = min_by c l'.
Proof using All.
  destruct (min_by c l) as [m|] eqn:E, (min_by c l') as [m'|] eqn:E'; try done.
  - apply min_by_spec in E as [Hm Hl]; [|done].
    apply min_by_spec in E' as [Hm' Hl']; [|exact comparator_perm].
    f_equal. rewrite <-Hp in Hm'. apply Hinj; [done..|].
    apply cmp_le_antisym; [by apply Hl|]. apply Hl'. by rewrite <-Hp.
  - apply min_by_None in E' as ->. by apply Permutation_nil_r in Hp as ->.
  - apply min_by_None in E as ->. by apply Permutation_nil in Hp as ->.
Qed.

Lemma max_by_perm : max_by c l = max_by c l'.
Proof using All.
  destruct (max_by c l) as [m|] eqn:E, (max_by c l') as [m'|] eqn:E'; try done.
  - apply max_by_spec in E as [Hm Hl]; [|done].
    apply max_by_spec in E' as [Hm' Hl']; [|exact comparator_perm].
    f_equal. rewrite <-Hp in Hm'. apply Hinj; [done..|].
    apply cmp_le_antisym; [|by apply Hl]. apply Hl'. by rewrite <-Hp.
  - apply max_by_None in E' as ->. by apply Permutation_nil_r in Hp as ->.
  - apply max_by_None in E as ->. by apply Permutation_nil in Hp as ->.
Qed.
End extremum.

(** Sorting by a key forgets the order of the input as soon as the key
    determines the elements, repeated or not. *)
Lemma sort_by_key_perm_inj {A K} `{CmpLaws K} (f : A → K) (l l' : list A) :
  (∀ x y, x ∈ l → y ∈ l → f x = f y → x = y) → l ≡ₚ l' → sort_by_key f l = sort_by_key f l'.
Proof.
  intros Hinj Hp.
  apply (StronglySorted_unique_strong (λ x y, le_by (cmp_on f) x y = true));
    [|apply sort_by_key_sorted|apply sort_by_key_sorted|by rewrite !sort_by_key_perm].
  intros x y Hx Hy Hxy Hyx. rewrite sort_by_key_perm in Hx, Hy. rewrite <-Hp in Hy.
  apply Hinj; [done..|].
  apply cmp_le_antisym; unfold cmp_le; unfold le_by, cmp_on in Hxy, Hyx;
    by destruct (cmp (f x) (f y)), (cmp (f y) (f x)).
Qed.
