(* ===== verification/Text.v ===== *)
(** * Text: strings and [BoundedText]  (crates/domain/src/text.rs)

    A Rust [str] is the list of its Unicode scalar values; its [len()] is the
    number of UTF-8 bytes.  [BoundedText<MAX>] is the trimmed, non-empty,
    control-free text with at most [MAX] bytes that every label of the domain
    is made of. *)
From stdpp Require Import prelude.
From Stdlib Require Ascii String.
Export String.StringSyntax.
From S2P Require Import Prelude Ordering.
Local Open Scope Z_scope.

Notation str := (list Z).

(** A string literal of the source. *)
Fixpoint lit (s : String.string) : str :=
  match s with
  | String.EmptyString => []
  | String.String c s => Z.of_N (Ascii.N_of_ascii c) :: lit s
  end.
Arguments lit s%_string_scope.

(** [char::is_whitespace]: the Unicode [White_Space] property. *)
Definition is_whitespace (c : Z) : bool :=
  ((9 <=? c) && (c <=? 13)) || (c =? 32) || (c =? 133) || (c =? 160) || (c =? 5760)
  || ((8192 <=? c) && (c <=? 8202)) || (c =? 8232) || (c =? 8233) || (c =? 8239)
  || (c =? 8287) || (c =? 12288).

(** [char::is_control]: the Unicode category [Cc]. *)
Definition is_control (c : Z) : bool :=
  ((0 <=? c) && (c <=? 31)) || ((127 <=? c) && (c <=? 159)).

Definition is_ascii_digit (c : Z) : bool := (48 <=? c) && (c <=? 57).
Definition is_ascii_lower (c : Z) : bool := (97 <=? c) && (c <=? 122).
Definition is_ascii_upper (c : Z) : bool := (65 <=? c) && (c <=? 90).
Definition is_ascii_alphabetic (c : Z) : bool := is_ascii_lower c || is_ascii_upper c.
Definition is_ascii_alphanumeric (c : Z) : bool := is_ascii_alphabetic c || is_ascii_digit c.
Definition to_ascii_uppercase (c : Z) : Z := if is_ascii_lower c then c - 32 else c.

(** [char::len_utf8] and [str::len]. *)
Definition len_utf8 (c : Z) : Z :=
  if c <? 128 then 1 else if c <? 2048 then 2 else if c <? 65536 then 3 else 4.
Fixpoint str_len (s : str) : Z :=
  match s with [] => 0 | c :: s => len_utf8 c + str_len s end.

(** [str::trim_start], [str::trim_end], [str::trim]. *)
Fixpoint trim_start (s : str) : str :=
  match s with
  | c :: s' => if is_whitespace c then trim_start s' else s
  | [] => []
  end.
Definition trim_end (s : str) : str := reverse (trim_start (reverse s)).
Definition trim (s : str) : str := trim_end (trim_start s).

Definition is_empty {A} (l : list A) : bool := match l with [] => true | _ => false end.

(** [chars().find(..)] *)
Fixpoint find_char (p : Z → bool) (s : str) : option Z :=
  match s with
  | [] => None
  | c :: s => if p c then Some c else find_char p s
  end.

(** ** Decimal rendering of an unsigned integer ([format!("{n}")]); 20 digits
    are enough for every [u64]. *)
Fixpoint show_digits (fuel : nat) (n : Z) (acc : str) : str :=
  match fuel with
  | O => acc
  | S fuel =>
      let acc := (48 + n mod 10) :: acc in
      if n <? 10 then acc else show_digits fuel (n / 10) acc
  end.
Definition show_u64 (n : Z) : str := show_digits 20 n [].

(** The value of a digit string. *)
Definition digits_value (s : str) : Z := foldl (λ acc c, 10 * acc + (c - 48)) 0 s.

(** ** [BoundedText] *)
Module BoundedText.
Record t (MAX_BYTES : Z) := mk { as_str : str }.
Arguments mk {_} _.
Arguments as_str {_} _.

Inductive error :=
| ZeroCapacity
| Empty
| ControlCharacter (character : Z)
| TooLong (maximum actual : Z).

(** [BoundedText::new], also its [FromStr] and [Deserialize]. *)
Definition new {MAX_BYTES : Z} (value : str) : Result error (t MAX_BYTES) :=
  if MAX_BYTES =? 0 then Err ZeroCapacity else
  match find_char is_control value with
  | Some character => Err (ControlCharacter character)
  | None =>
      let value := trim value in
      if is_empty value then Err Empty else
      if MAX_BYTES <? str_len value then Err (TooLong MAX_BYTES (str_len value)) else
      Ok (mk value)
  end.

Definition len {M} (b : t M) : Z := str_len (as_str b).

(** The values [new] can produce. *)
Definition wf {M} (b : t M) : Prop :=
  as_str b ≠ [] ∧ trim (as_str b) = as_str b ∧
  find_char is_control (as_str b) = None ∧ str_len (as_str b) ≤ M.

(** [BoundedText::new(s).expect(..)] on text the source fixes or generates.
    Every use comes with the fact that [new] accepts the text, so the branch
    that stands for the panic is never taken. *)
Definition expect {M} (s : str) : t M :=
  match new s with Ok b => b | Err _ => mk [] end.

#[global] Instance error_eq_dec : EqDecision error.
Proof. solve_decision. Defined.
#[global] Instance eq_dec M : EqDecision (t M).
Proof. solve_decision. Defined.
#[global] Instance as_str_inj M : Inj (=) (=) (@as_str M).
Proof. intros [x] [y]; cbn. congruence. Qed.
#[global] Instance t_Cmp M : Cmp (t M) := cmp_on as_str.
#[global] Instance t_CmpLaws M : CmpLaws (t M).
Proof. apply cmp_on_laws, _. Qed.
End BoundedText.
Notation BoundedText := BoundedText.t.
#[global] Arguments BoundedText.new : simpl never.

(** ** Facts about trimming *)

Lemma trim_start_suffix s : ∃ p, s = p ++ trim_start s ∧ Forall (λ c, is_whitespace c = true) p.
Proof.
  induction s as [|c s (p & Hp & Hw)]; cbn; [by exists []|].
  destruct (is_whitespace c) eqn:E; [|by exists []].
  exists (c :: p). cbn. split; [by rewrite <-Hp | by constructor].
Qed.
Lemma trim_start_head s c k : trim_start s = c :: k → is_whitespace c = false.
Proof.
  induction s as [|d s IH]; cbn; [done|].
  destruct (is_whitespace d) eqn:E; [done | congruence].
Qed.
Lemma trim_start_id c k : is_whitespace c = false → trim_start (c :: k) = c :: k.
Proof. intros E. cbn. by rewrite E. Qed.
Lemma trim_end_prefix s : ∃ p, s = trim_end s ++ p ∧ Forall (λ c, is_whitespace c = true) p.
Proof.
  destruct (trim_start_suffix (reverse s)) as (p & Hp & Hw).
  exists (reverse p). split; [|by apply Forall_reverse].
  unfold trim_end. rewrite <-reverse_app, <-Hp. by rewrite reverse_involutive.
Qed.
Lemma trim_start_idemp s : trim_start (trim_start s) = trim_start s.
Proof.
  destruct (trim_start s) as [|c k] eqn:E; [done|].
  apply trim_start_id. by eapply trim_start_head.
Qed.
Lemma trim_end_idemp s : trim_end (trim_end s) = trim_end s.
Proof. unfold trim_end. by rewrite reverse_involutive, trim_start_idemp. Qed.
(** Cutting trailing whitespace does not create leading whitespace. *)
Lemma trim_start_trim_end s : trim_start s = s → trim_start (trim_end s) = trim_end s.
Proof.
  intros Hs. destruct (trim_end_prefix s) as (p & Hp & Hw).
  destruct (trim_end s) as [|c k] eqn:E; [done|].
  apply trim_start_id. rewrite Hp in Hs. cbn in Hs.
  destruct (is_whitespace c) eqn:Ec; [|done].
  exfalso. destruct (trim_start_suffix (k ++ p)) as (q & Hq & _).
  rewrite Hs in Hq. apply (f_equal length) in Hq.
  rewrite !length_app in Hq. cbn in Hq. rewrite length_app in Hq. lia.
Qed.
Lemma trim_idemp s : trim (trim s) = trim s.
Proof.
  unfold trim. rewrite trim_start_trim_end by apply trim_start_idemp.
  apply trim_end_idemp.
Qed.
(** [trim] removes a whitespace prefix and a whitespace suffix and nothing else. *)
Lemma trim_split s :
  ∃ p q, s = p ++ trim s ++ q ∧ Forall (λ c, is_whitespace c = true) p
    ∧ Forall (λ c, is_whitespace c = true) q.
Proof.
  destruct (trim_start_suffix s) as (p & Hp & Hwp).
  destruct (trim_end_prefix (trim_start s)) as (q & Hq & Hwq).
  exists p, q. split; [|done]. unfold trim. by rewrite <-Hq, <-Hp.
Qed.

Lemma find_char_None p s : find_char p s = None ↔ Forall (λ c, p c = false) s.
Proof.
  induction s as [|c s IH]; cbn; [done|]. rewrite Forall_cons, <-IH.
  destruct (p c); naive_solver.
Qed.
Lemma find_char_Some p s c : find_char p s = Some c → c ∈ s ∧ p c = true.
Proof.
  induction s as [|d s IH]; cbn; [done|]. destruct (p d) eqn:E.
  - intros [= ->]. split; [left | done].
  - intros H. destruct (IH H). split; [by right | done].
Qed.

Lemma len_utf8_bounds c : 1 ≤ len_utf8 c ≤ 4.
Proof. unfold len_utf8. repeat case_match; lia. Qed.
Lemma str_len_app s k : str_len (s ++ k) = str_len s + str_len k.
Proof. induction s as [|c s IH]; cbn; [done|]. rewrite IH. lia. Qed.
Lemma str_len_nonneg s : 0 ≤ str_len s.
Proof. induction s as [|c s IH]; cbn; [done|]. pose proof (len_utf8_bounds c). lia. Qed.
Lemma str_len_ascii s : Forall (λ c, c < 128) s → str_len s = Z.of_nat (length s).
Proof.
  induction 1 as [|c s Hc _ IH]; cbn [str_len length]; [done|].
  unfold len_utf8. destruct (Z.ltb_spec c 128); lia.
Qed.

(** ** Facts about [BoundedText] *)
Module BoundedTextFacts.
Import BoundedText.

Lemma new_wf M s (b : t M) : new s = Ok b → wf b ∧ as_str b = trim s.
Proof.
  unfold new, wf. destruct (M =? 0); [done|].
  destruct (find_char is_control s) eqn:Hc; [done|].
  destruct (is_empty (trim s)) eqn:He; [done|].
  destruct (Z.ltb_spec M (str_len (trim s))); [done|].
  intros [= <-]; cbn. split_and!; try done.
  - by destruct (trim s).
  - apply trim_idemp.
  - apply find_char_None. apply find_char_None in Hc.
    destruct (trim_split s) as (p & q & Hs & _). rewrite Hs in Hc.
    apply Forall_app in Hc as [_ Hc]. by apply Forall_app in Hc as [Hc _].
Qed.
Lemma wf_capacity M (b : t M) : wf b → 0 < M.
Proof.
  intros (Hne & _ & _ & Hl). destruct (as_str b) as [|c s]; [done|]. cbn in Hl.
  pose proof (len_utf8_bounds c). pose proof (str_len_nonneg s). lia.
Qed.
Lemma new_as_str M (b : t M) : wf b → new (as_str b) = Ok b.
Proof.
  intros Hwf. pose proof (wf_capacity _ _ Hwf).
  destruct Hwf as (Hne & Ht & Hc & Hl). unfold new.
  rewrite (proj2 (Z.eqb_neq M 0)) by lia. rewrite Hc, Ht.
  replace (is_empty (as_str b)) with false by by destruct (as_str b).
  rewrite (proj2 (Z.ltb_ge _ _)) by lia. by destruct b.
Qed.
Lemma expect_new M s : is_ok (@new M s) = true → new s = Ok (@expect M s).
Proof. unfold expect. by destruct (new s). Qed.
Lemma expect_wf M s : is_ok (@new M s) = true → wf (@expect M s).
Proof. intros H. apply expect_new in H. by apply new_wf in H as [? _]. Qed.
End BoundedTextFacts.

(** ** Facts about decimal rendering *)
Lemma show_digits_app fuel n acc : show_digits fuel n acc = show_digits fuel n [] ++ acc.
Proof.
  revert n acc; induction fuel as [|fuel IH]; intros n acc; cbn; [done|].
  destruct (n <? 10); [done|]. rewrite IH, (IH _ [_]), <-app_assoc. done.
Qed.
Lemma show_digits_length fuel n : (length (show_digits fuel n []) ≤ fuel)%nat.
Proof.
  revert n; induction fuel as [|fuel IH]; intros n; cbn; [lia|].
  destruct (n <? 10); cbn; [lia|]. rewrite show_digits_app, length_app. cbn.
  specialize (IH (n / 10)). lia.
Qed.
Lemma show_digits_digits fuel n :
  Forall (λ c, is_ascii_digit c = true) (show_digits fuel n []).
Proof.
  revert n; induction fuel as [|fuel IH]; intros n; cbn; [constructor|].
  assert (is_ascii_digit (48 + n mod 10) = true).
  { unfold is_ascii_digit. pose proof (Z.mod_pos_bound n 10 ltac:(lia)).
    apply andb_true_iff; rewrite !Z.leb_le; lia. }
  destruct (n <? 10); [by repeat constructor|].
  rewrite show_digits_app. apply Forall_app. by repeat constructor.
Qed.
Lemma digits_value_app s c : digits_value (s ++ [c]) = 10 * digits_value s + (c - 48).
Proof. unfold digits_value. by rewrite foldl_app. Qed.
Lemma show_digits_value fuel n :
  0 ≤ n < 10 ^ Z.of_nat fuel → digits_value (show_digits fuel n []) = n.
Proof.
  revert n; induction fuel as [|fuel IH]; intros n Hn; [cbn in *; lia|].
  cbn [show_digits]. rewrite Nat2Z.inj_succ, Z.pow_succ_r in Hn by lia.
  destruct (Z.ltb_spec n 10).
  - unfold digits_value; cbn. rewrite Z.mod_small by lia. lia.
  - rewrite show_digits_app, digits_value_app, IH.
    + pose proof (Z.div_mod n 10 ltac:(lia)). lia.
    + split; [apply Z.div_pos; lia|]. apply Z.div_lt_upper_bound; lia.
Qed.
(** Rendering a [u64] loses nothing. *)
Lemma show_u64_value n : 0 ≤ n ≤ u64_max → digits_value (show_u64 n) = n.
Proof.
  intros Hn. apply show_digits_value.
  assert (u64_max < 10 ^ Z.of_nat 20) by (vm_compute; done). lia.
Qed.
Lemma show_u64_inj n m :
  0 ≤ n ≤ u64_max → 0 ≤ m ≤ u64_max → show_u64 n = show_u64 m → n = m.
Proof. intros Hn Hm E. by rewrite <-(show_u64_value n), E, show_u64_value. Qed.
Lemma show_u64_digits n : Forall (λ c, is_ascii_digit c = true) (show_u64 n).
Proof. apply show_digits_digits. Qed.
Lemma show_u64_length n : (length (show_u64 n) ≤ 20)%nat.
Proof. apply show_digits_length. Qed.
Lemma show_digits_nonempty fuel n : show_digits (S fuel) n [] ≠ [].
Proof.
  cbn. destruct (n <? 10); [done|]. rewrite show_digits_app.
  by destruct (show_digits fuel _ _).
Qed.
Lemma show_u64_nonempty n : show_u64 n ≠ [].
Proof. apply show_digits_nonempty. Qed.

Lemma is_ascii_digit_range c : is_ascii_digit c = true ↔ 48 ≤ c ≤ 57.
Proof. unfold is_ascii_digit. rewrite andb_true_iff, !Z.leb_le. done. Qed.

(** A printable ASCII text with no space at either end is kept as it is. *)
Definition is_ascii_graphic (c : Z) : bool := (33 <=? c) && (c <=? 126).
Lemma graphic_not_whitespace c : is_ascii_graphic c = true → is_whitespace c = false.
Proof.
  unfold is_ascii_graphic, is_whitespace. rewrite andb_true_iff, !Z.leb_le. intros.
  repeat rewrite orb_false_iff. rewrite !andb_false_iff, !Z.leb_gt, !Z.eqb_neq. lia.
Qed.
Lemma graphic_not_control c : 32 ≤ c ≤ 126 → is_control c = false.
Proof.
  intros. unfold is_control. rewrite orb_false_iff, !andb_false_iff, !Z.leb_gt. lia.
Qed.
Lemma trim_graphic s :
  (∀ c k, s = c :: k → is_whitespace c = false) →
  (∀ c k, s = k ++ [c] → is_whitespace c = false) → trim s = s.
Proof.
  intros Hh Hl. unfold trim.
  assert (trim_start s = s) as Hs.
  { destruct s as [|c k]; [done|]. apply trim_start_id. by eapply Hh. }
  rewrite Hs. unfold trim_end.
  assert (trim_start (reverse s) = reverse s) as ->; [|apply reverse_involutive].
  destruct (reverse s) as [|c k] eqn:E; [done|]. apply trim_start_id.
  apply (Hl c (reverse k)). rewrite <-(reverse_involutive s), E. by rewrite reverse_cons.
Qed.
Lemma new_ascii M s :
  s ≠ [] → Forall (λ c, is_ascii_graphic c = true) s → Z.of_nat (length s) ≤ M →
  BoundedText.new s = Ok (BoundedText.mk (MAX_BYTES:=M) s).
Proof.
  intros Hne Hs Hl.
  assert (0 < M) by (destruct s; [done|cbn in Hl; lia]).
  apply (BoundedTextFacts.new_as_str M (BoundedText.mk s)).
  unfold BoundedText.wf; cbn. split_and!; [done| | |].
  - apply trim_graphic; intros c k ->.
    + apply Forall_cons in Hs as [Hc _]. by apply graphic_not_whitespace.
    + apply Forall_app in Hs as [_ Hs]. apply Forall_cons in Hs as [Hc _].
      by apply graphic_not_whitespace.
  - apply find_char_None. eapply Forall_impl; [exact Hs|]. cbn. intros c Hc.
    apply graphic_not_control. unfold is_ascii_graphic in Hc.
    apply andb_true_iff in Hc. rewrite !Z.leb_le in Hc. lia.
  - rewrite str_len_ascii; [done|]. eapply Forall_impl; [exact Hs|]. cbn. intros c Hc.
    unfold is_ascii_graphic in Hc. apply andb_true_iff in Hc. rewrite !Z.leb_le in Hc. lia.
Qed.

Lemma digit_graphic c : is_ascii_digit c = true → is_ascii_graphic c = true.
Proof.
  rewrite is_ascii_digit_range. intros. unfold is_ascii_graphic.
  rewrite andb_true_iff, !Z.leb_le. lia.
Qed.
Lemma trim_ascii_graphic s : Forall (λ c, is_ascii_graphic c = true) s → trim s = s.
Proof.
  intros Hs. apply trim_graphic; intros c k ->.
  - apply Forall_cons in Hs as [Hc _]. by apply graphic_not_whitespace.
  - apply Forall_app in Hs as [_ Hs]. apply Forall_cons in Hs as [Hc _].
    by apply graphic_not_whitespace.
Qed.
Lemma trim_digits s : Forall (λ c, is_ascii_digit c = true) s → trim s = s.
Proof.
  intros Hs. apply trim_ascii_graphic. eapply Forall_impl; [exact Hs|]. apply digit_graphic.
Qed.

(** Sorting by a text and sorting by its characters. *)
Lemma as_str_same_key {M} (x y : BoundedText M) :
  x = y ↔ BoundedText.as_str x = BoundedText.as_str y.
Proof. split; [by intros ->|apply (inj _)]. Qed.
