(* ===== verification/Percentage.v ===== *)
(** * Percentages and durations  (crates/domain/src/percentage.rs)

    [f64] is IEEE-754 binary64 as specified by [SpecFloat] (53-bit precision,
    maximal exponent 1024), so overflow, signed zeros and NaN are the machine's.
    [WindowDuration] keeps its [u64] bound. *)
From stdpp Require Import prelude.
From Stdlib Require Import Floats.SpecFloat.
From S2P Require Import Prelude Ordering.
Local Open Scope Z_scope.

(** ** [f64] *)
Notation f64 := spec_float.
#[global] Instance f64_eq_dec : EqDecision f64.
Proof. solve_decision. Defined.

Definition f64_prec : Z := 53.
Definition f64_emax : Z := 1024.
(** The float nearest to an integer. *)
Definition f64_of_Z (n : Z) : f64 := binary_normalize f64_prec f64_emax n 0 false.
Definition f64_zero : f64 := S754_zero false.
Definition f64_hundred : f64 := Eval vm_compute in f64_of_Z 100.
Definition f64_MAX : f64 := S754_finite false 9007199254740991 971.
Definition f64_sub : f64 → f64 → f64 := SFsub f64_prec f64_emax.
Definition f64_lt : f64 → f64 → bool := SFltb.
Definition f64_le : f64 → f64 → bool := SFleb.
Definition f64_eq : f64 → f64 → bool := SFeqb.
Definition is_nan (x : f64) : bool := match x with S754_nan => true | _ => false end.
Definition is_finite (x : f64) : bool :=
  match x with S754_zero _ | S754_finite _ _ _ => true | _ => false end.
(** [f64::max] and [f64::min]: the other operand when one is NaN. *)
Definition f64_max (x y : f64) : f64 :=
  if is_nan x then y else if is_nan y then x else if f64_lt x y then y else x.
Definition f64_min (x y : f64) : f64 :=
  if is_nan x then y else if is_nan y then x else if f64_lt y x then y else x.
(** [f64::clamp] for bounds that are not NaN. *)
Definition f64_clamp (x lo hi : f64) : f64 :=
  if f64_lt x lo then lo else if f64_lt hi x then hi else x.
(** [f64::partial_cmp]. *)
Definition f64_partial_cmp (x y : f64) : option comparison := SFcompare x y.

(** [if value == 0.0 { 0.0 } else { value }] *)
Definition canonical_zero (value : f64) : f64 := if f64_eq value f64_zero then f64_zero else value.

(** ** [FiniteNumber] *)
Module FiniteNumber.
Record t := mk { get : f64 }.
Inductive error := NonFinite.
Definition new (value : f64) : Result error t :=
  if is_finite value then Ok (mk (canonical_zero value)) else Err NonFinite.
#[global] Instance eq_dec : EqDecision t.
Proof. solve_decision. Defined.
End FiniteNumber.
Notation FiniteNumber := FiniteNumber.t.

Inductive PercentageError :=
| NonFinite
| OutsideDisplayRange (value : f64).

(** ** [UsagePercent] *)
Module UsagePercent.
Record t := mk { get : f64 }.
Definition new (value : f64) : Result PercentageError t :=
  if is_finite value then Ok (mk (canonical_zero value)) else Err NonFinite.
Definition remaining (self : t) : t :=
  let remaining := f64_max (f64_sub f64_hundred (get self)) f64_zero in
  mk (if is_finite remaining then remaining else f64_MAX).
Definition wf (p : t) : Prop := is_finite (get p) = true ∧ get p ≠ S754_zero true.
#[global] Instance eq_dec : EqDecision t.
Proof. solve_decision. Defined.
End UsagePercent.
Notation UsagePercent := UsagePercent.t.

(** ** [DisplayPercent] *)
Module DisplayPercent.
Record t := mk { get : f64 }.
Definition new (value : f64) : Result PercentageError t :=
  if negb (is_finite value) then Err NonFinite else
  if negb (f64_le f64_zero value && f64_le value f64_hundred)
  then Err (OutsideDisplayRange value)
  else Ok (mk (canonical_zero value)).
Definition clamped (value : UsagePercent) : t :=
  mk (f64_clamp (UsagePercent.get value) f64_zero f64_hundred).
Definition complement (self : t) : t := mk (f64_sub f64_hundred (get self)).
(** Within the display interval. *)
Definition wf (p : t) : Prop :=
  f64_le f64_zero (get p) = true ∧ f64_le (get p) f64_hundred = true.
#[global] Instance eq_dec : EqDecision t.
Proof. solve_decision. Defined.
End DisplayPercent.
Notation DisplayPercent := DisplayPercent.t.

(** ** [WindowDuration] *)
Module WindowDuration.
Record t := mk { seconds : Z }.
Inductive error :=
| Zero
| NonPositiveProviderMinutes (minutes : Z)
| Overflow.
(** [seconds : u64] *)
Definition from_seconds (seconds : Z) : Result error t :=
  if seconds =? 0 then Err Zero else Ok (mk seconds).
(** [minutes : i64] *)
Definition from_provider_minutes (minutes : Z) : Result error t :=
  minutes ← (if (0 <=? minutes) && (0 <? minutes) then Ok minutes
             else Err (NonPositiveProviderMinutes minutes));
  seconds ← ok_or (checked_mul u64_max minutes 60) Overflow;
  from_seconds seconds.
Definition optional_from_provider_minutes (minutes : Z) : Result error (option t) :=
  if minutes =? 0 then Ok None else Some <$> from_provider_minutes minutes.
Definition wf (d : t) : Prop := 1 ≤ seconds d ≤ u64_max.
#[global] Instance eq_dec : EqDecision t.
Proof. solve_decision. Defined.
End WindowDuration.
Notation WindowDuration := WindowDuration.t.

(** ** Rounding never makes a NaN out of finite operands *)

Lemma shr_1_nonneg mrs : 0 ≤ shr_m mrs → 0 ≤ shr_m (shr_1 mrs).
Proof. destruct mrs as [[|[]|[]] r s]; cbn; lia. Qed.
Lemma iter_shr_1_nonneg p mrs : 0 ≤ shr_m mrs → 0 ≤ shr_m (iter_pos shr_1 p mrs).
Proof.
  revert mrs; induction p as [p IH|p IH|]; intros mrs H; cbn; auto using shr_1_nonneg.
Qed.
Lemma shr_nonneg mrs e n : 0 ≤ shr_m mrs → 0 ≤ shr_m (shr mrs e n).1.
Proof. intros H. destruct n; cbn; auto using iter_shr_1_nonneg. Qed.
Lemma shr_fexp_nonneg m e l : 0 ≤ m → 0 ≤ shr_m (shr_fexp f64_prec f64_emax m e l).1.
Proof. intros H. apply shr_nonneg. destruct l as [|[]]; exact H. Qed.

Lemma binary_round_aux_not_nan sx mx ex lx :
  0 ≤ mx → is_nan (binary_round_aux f64_prec f64_emax sx mx ex lx) = false.
Proof.
  intros H. unfold binary_round_aux.
  pose proof (shr_fexp_nonneg mx ex lx H) as H1.
  destruct (shr_fexp _ _ mx ex lx) as [mrs' e'].
  assert (0 ≤ round_nearest_even (shr_m mrs') (loc_of_shr_record mrs')) as H2.
  { cbn in H1. unfold round_nearest_even. repeat case_match; lia. }
  pose proof (shr_fexp_nonneg _ e' loc_Exact H2) as H3.
  destruct (shr_fexp _ _ (round_nearest_even _ _) e' loc_Exact) as [mrs'' e''].
  cbn in H3. destruct (shr_m mrs''); [done| |lia]. by destruct (_ <=? _).
Qed.
Lemma binary_normalize_not_nan m e s :
  is_nan (binary_normalize f64_prec f64_emax m e s) = false.
Proof.
  destruct m as [|p|p]; [done|..]; cbn; unfold binary_round;
    destruct (shl_align p e _); by apply binary_round_aux_not_nan.
Qed.
Lemma f64_sub_not_nan x y :
  is_finite x = true → is_finite y = true → is_nan (f64_sub x y) = false.
Proof.
  destruct x as [[]| | |], y as [[]| | |]; try done; intros _ _;
    apply binary_normalize_not_nan.
Qed.

(** ** Comparison of floats that are not NaN is a total order *)

(** Sign, then exponent, then mantissa; zeros of either sign coincide. *)
Definition f64_key (x : f64) : Z * Z * Z :=
  match x with
  | S754_zero _ | S754_nan => (0, 0, 0)
  | S754_infinity s => (if s then -2 else 2, 0, 0)
  | S754_finite false m e => (1, e, Z.pos m)
  | S754_finite true m e => (-1, -e, Z.neg m)
  end.
Lemma f64_compare_key x y :
  is_nan x = false → is_nan y = false → SFcompare x y = Some (cmp (f64_key x) (f64_key y)).
Proof.
  destruct x as [[]|[]| |[] m e], y as [[]|[]| |[] m' e']; try done; intros _ _;
    cbn -[Z.opp]; unfold cmp, prod_Cmp, cmp, prod_Cmp, cmp, Z_Cmp; cbn -[Z.opp];
    rewrite ?Z.compare_opp, ?(Z.compare_antisym e e'); by destruct (e ?= e').
Qed.
Lemma f64_lt_key x y : is_nan x = false → is_nan y = false →
  f64_lt x y = cmp_lt (f64_key x) (f64_key y).
Proof. intros. unfold f64_lt, SFltb, cmp_lt. by rewrite f64_compare_key. Qed.
Lemma f64_le_key x y : is_nan x = false → is_nan y = false →
  f64_le x y = cmp_le (f64_key x) (f64_key y).
Proof.
  intros. unfold f64_le, SFleb, cmp_le. rewrite f64_compare_key by done. by case_match.
Qed.
Lemma f64_not_lt_le x y : is_nan x = false → is_nan y = false →
  f64_lt x y = false ↔ f64_le y x = true.
Proof.
  intros. rewrite f64_lt_key, f64_le_key by done. unfold cmp_lt, cmp_le.
  rewrite (cmp_sym (f64_key x)). by destruct (cmp (f64_key x) (f64_key y)).
Qed.
Lemma is_finite_not_nan x : is_finite x = true → is_nan x = false.
Proof. by destruct x. Qed.

(** ** Theorems *)

Lemma f64_not_lt_zero x :
  is_nan x = false → f64_lt x f64_zero = false → f64_le f64_zero x = true.
Proof. by destruct x as [[]|[]| |[] m e]. Qed.

(** C52. [UsagePercent::remaining] keeps the newtype's invariant for every finite
    usage, the extreme negative ones whose subtraction overflows included: the
    result is finite and not negative; it is [100 - used] where that is a
    positive finite float, [0] where it is not positive, and the largest float
    where it overflows. *)
Theorem remaining_finite_nonneg (u : UsagePercent) :
  is_finite (UsagePercent.get u) = true →
  let d := f64_sub f64_hundred (UsagePercent.get u) in
  let r := UsagePercent.get (UsagePercent.remaining u) in
  is_finite r = true ∧ f64_le f64_zero r = true ∧
  (f64_lt f64_zero d = true → r = if is_finite d then d else f64_MAX) ∧
  (f64_lt d f64_zero = true → r = f64_zero).
Proof.
  intros Hu d r. subst r. pose proof (f64_sub_not_nan f64_hundred _ eq_refl Hu) as Hn.
  fold d in Hn. unfold UsagePercent.remaining. fold d. cbn [UsagePercent.get].
  clearbody d. unfold f64_max. rewrite Hn. cbn [is_nan].
  destruct d as [[]|[]| |[] m e]; try done; cbn; naive_solver.
Qed.
Lemma remaining_finite_nonneg_witness :
  is_finite (S754_finite true 9007199254740991 971) = true ∧
  f64_le f64_zero (UsagePercent.get
    (UsagePercent.remaining (UsagePercent.mk (S754_finite true 9007199254740991 971)))) = true.
Proof.
  split; [reflexivity|].
  apply (remaining_finite_nonneg (UsagePercent.mk (S754_finite true 9007199254740991 971)) eq_refl).
Defined.

(** [DisplayPercent::clamped] of a finite usage lies in [0, 100], and a usage
    already in that interval is displayed unchanged. *)
Theorem clamped_in_range (u : UsagePercent) :
  is_finite (UsagePercent.get u) = true →
  DisplayPercent.wf (DisplayPercent.clamped u) ∧
  (DisplayPercent.wf (DisplayPercent.mk (UsagePercent.get u)) →
   DisplayPercent.clamped u = DisplayPercent.mk (UsagePercent.get u)).
Proof.
  intros Hu%is_finite_not_nan. unfold DisplayPercent.clamped, DisplayPercent.wf, f64_clamp.
  cbn [DisplayPercent.get]. set (x := UsagePercent.get u) in *.
  destruct (f64_lt x f64_zero) eqn:E0; [|destruct (f64_lt f64_hundred x) eqn:E1].
  - split; [done|]. intros [H _]. apply f64_not_lt_le in H; [congruence | done..].
  - split; [done|]. intros [_ H]. apply f64_not_lt_le in H; [congruence | done..].
  - split; [|done]. split; by apply f64_not_lt_le.
Qed.
Lemma clamped_in_range_witness :
  DisplayPercent.wf (DisplayPercent.clamped (UsagePercent.mk (f64_of_Z 250))).
Proof.
  apply (clamped_in_range (UsagePercent.mk (f64_of_Z 250))). vm_compute. reflexivity.
Defined.

(** A provider minute count becomes a duration exactly when it is positive and
    its seconds fit in 64 bits; otherwise the error says which bound failed, and
    the conversion never wraps. *)
Theorem provider_minutes_spec (minutes : Z) :
  i64_min ≤ minutes ≤ i64_max →
  WindowDuration.from_provider_minutes minutes =
    (if minutes <=? 0 then Err (WindowDuration.NonPositiveProviderMinutes minutes)
     else if u64_max <? minutes * 60 then Err WindowDuration.Overflow
     else Ok (WindowDuration.mk (minutes * 60))) ∧
  (∀ d, WindowDuration.from_provider_minutes minutes = Ok d → WindowDuration.wf d) ∧
  (∀ o, WindowDuration.optional_from_provider_minutes minutes = Ok o →
        (o = None ↔ minutes = 0)).
Proof.
  intros Hm. assert (WindowDuration.from_provider_minutes minutes =
    (if minutes <=? 0 then Err (WindowDuration.NonPositiveProviderMinutes minutes)
     else if u64_max <? minutes * 60 then Err WindowDuration.Overflow
     else Ok (WindowDuration.mk (minutes * 60)))) as E.
  { unfold WindowDuration.from_provider_minutes, checked_mul, WindowDuration.from_seconds.
    destruct (Z.leb_spec 0 minutes), (Z.ltb_spec 0 minutes), (Z.leb_spec minutes 0);
      cbn; try lia; try done.
    destruct (Z.leb_spec (minutes * 60) u64_max), (Z.ltb_spec u64_max (minutes * 60));
      cbn; try lia; try done.
    by destruct (Z.eqb_spec (minutes * 60) 0); [lia|]. }
  split; [exact E|]. split.
  - rewrite E. intros d.
    destruct (Z.leb_spec minutes 0), (Z.ltb_spec u64_max (minutes * 60)); intros [= <-].
    unfold WindowDuration.wf; cbn. lia.
  - intros o. unfold WindowDuration.optional_from_provider_minutes. rewrite E.
    destruct (Z.eqb_spec minutes 0); [naive_solver|]. repeat case_match; naive_solver.
Qed.
Lemma provider_minutes_spec_witness :
  WindowDuration.from_provider_minutes 307445734561825861 = Err WindowDuration.Overflow ∧
  WindowDuration.from_provider_minutes 300 = Ok (WindowDuration.mk 18000).
Proof.
  split.
  - rewrite (proj1 (provider_minutes_spec 307445734561825861 ltac:(unfold i64_min, i64_max; lia))).
    reflexivity.
  - rewrite (proj1 (provider_minutes_spec 300 ltac:(unfold i64_min, i64_max; lia))).
    reflexivity.
Defined.
