(* ===== verification/Externals.v ===== *)
(** * External crates and [Timestamp]  (crates/domain/src/timestamp.rs)

    The code outside the repository that the domain relies on: the calendar of
    the [time] crate, [rust_decimal] and HMAC-SHA256.  Each is a class of
    operations; the documented behaviour some theorems need is a class of laws,
    and [Reference] holds a concrete implementation of each with its laws.
    [Timestamp] is the repository's own wrapper of an instant. *)
From stdpp Require Import prelude.
From S2P Require Import Prelude Ordering Text.
Local Open Scope Z_scope.

Definition NANOS_PER_SECOND : Z := 1000000000.

(** A Unicode scalar value. *)
Definition is_scalar (c : Z) : Prop := 0 ≤ c < 1114112.

(** [time::OffsetDateTime] in UTC is its instant: nanoseconds since the Unix
    epoch, between two bounds the crate fixes. *)
Class TimeCrate := {
  odt_min : Z;
  odt_max : Z;
  rfc3339_format : Z → option str;
  rfc3339_parse : str → option Z;
}.
(** The canonical RFC 3339 text of an instant denotes that instant, carries no
    surrounding whitespace, and only in-range instants have one. *)
Class TimeCrateLaws `{TimeCrate} : Prop := {
  rfc3339_parse_format t s : rfc3339_format t = Some s → rfc3339_parse s = Some t;
  rfc3339_format_trim t s : rfc3339_format t = Some s → trim s = s;
  rfc3339_format_range t s : rfc3339_format t = Some s → odt_min ≤ t ≤ odt_max;
  rfc3339_format_scalar t s : rfc3339_format t = Some s → Forall is_scalar s;
}.

(** [rust_decimal::Decimal]. *)
Class DecimalCrate := {
  Decimal : Type;
  Decimal_eq_dec :: EqDecision Decimal;
  Decimal_Cmp :: Cmp Decimal;
  decimal_zero : Decimal;
  decimal_normalize : Decimal → Decimal;
  decimal_from_str : str → option Decimal;
  decimal_to_string : Decimal → str;
  decimal_is_sign_negative : Decimal → bool;
  decimal_checked_sub : Decimal → Decimal → option Decimal;
}.
(** [normalize] picks one representative of each value, a normalized value
    survives printing and parsing, the order is by value, and a normalized
    value carries a sign bit only below zero. *)
Class DecimalCrateLaws `{DecimalCrate} : Prop := {
  decimal_normalize_idemp d :
    decimal_normalize (decimal_normalize d) = decimal_normalize d;
  decimal_parse_print d :
    decimal_normalize d = d → decimal_from_str (decimal_to_string d) = Some d;
  decimal_print_trim d :
    decimal_to_string d ≠ [] ∧ trim (decimal_to_string d) = decimal_to_string d;
  decimal_print_scalar d : Forall is_scalar (decimal_to_string d);
  decimal_normalize_cmp d e : cmp (decimal_normalize d) e = cmp d e;
  decimal_zero_normal : decimal_normalize decimal_zero = decimal_zero;
  decimal_cmp_sym (d e : Decimal) : cmp e d = CompOpp (cmp d e);
  decimal_sign d :
    decimal_normalize d = d → decimal_is_sign_negative d = cmp_lt d decimal_zero;
}.

(** HMAC-SHA256 of a message under a key, printed with [{:x}]. *)
Class HmacCrate := hmac_sha256_hex : list Z → list Z → str.
Definition is_lower_hex (c : Z) : bool := is_ascii_digit c || ((97 <=? c) && (c <=? 102)).
Class HmacCrateLaws `{HmacCrate} : Prop := {
  hmac_hex_length k m : length (hmac_sha256_hex k m) = 64%nat;
  hmac_hex_digits k m : Forall (λ c, is_lower_hex c = true) (hmac_sha256_hex k m);
}.

(** ** Byte encodings of the standard library *)

(** [str::as_bytes]: UTF-8. *)
Definition utf8_char (c : Z) : list Z :=
  if c <? 128 then [c]
  else if c <? 2048 then [192 + c / 64; 128 + c mod 64]
  else if c <? 65536 then [224 + c / 4096; 128 + c / 64 mod 64; 128 + c mod 64]
  else [240 + c / 262144; 128 + c / 4096 mod 64; 128 + c / 64 mod 64; 128 + c mod 64].
Definition as_bytes (s : str) : list Z := s ≫= utf8_char.

(** [uN::to_be_bytes] with [n] bytes. *)
Fixpoint to_be_bytes (n : nat) (v : Z) : list Z :=
  match n with
  | O => []
  | S n => (v / 256 ^ Z.of_nat n) mod 256 :: to_be_bytes n v
  end.

Lemma to_be_bytes_length n v : length (to_be_bytes n v) = n.
Proof. induction n; cbn; congruence. Qed.
Lemma to_be_bytes_inj n v w :
  0 ≤ v < 256 ^ Z.of_nat n → 0 ≤ w < 256 ^ Z.of_nat n →
  to_be_bytes n v = to_be_bytes n w → v = w.
Proof.
  intros Hv Hw E.
  assert (v mod 256 ^ Z.of_nat n = w mod 256 ^ Z.of_nat n) as Em.
  { clear Hv Hw. induction n as [|n IH]; [by rewrite !Z.mod_1_r|].
    injection E as E1 E2. specialize (IH E2). rewrite Nat2Z.inj_succ, Z.pow_succ_r by lia.
    rewrite (Z.mul_comm 256), !Z.rem_mul_r by lia. congruence. }
  by rewrite !Z.mod_small in Em.
Qed.
Lemma as_bytes_app s k : as_bytes (s ++ k) = as_bytes s ++ as_bytes k.
Proof. apply bind_app. Qed.
Lemma as_bytes_ascii s : Forall (λ c, c < 128) s → as_bytes s = s.
Proof.
  induction 1 as [|c s Hc _ IH]; [done|]. unfold as_bytes in *. rewrite bind_cons, IH.
  unfold utf8_char. by rewrite (proj2 (Z.ltb_lt _ _) Hc).
Qed.

(** UTF-8 is uniquely decodable. *)
Lemma utf8_char_inj c d s k :
  is_scalar c → is_scalar d → utf8_char c ++ s = utf8_char d ++ k → c = d ∧ s = k.
Proof.
  unfold is_scalar, utf8_char. intros Hc Hd.
  destruct (Z.ltb_spec c 128), (Z.ltb_spec d 128), (Z.ltb_spec c 2048), (Z.ltb_spec d 2048),
    (Z.ltb_spec c 65536), (Z.ltb_spec d 65536); try lia; cbn [app]; intros E;
    injection E; intros; (split; [Z.to_euclidean_division_equations; lia | done]) ||
    (exfalso; Z.to_euclidean_division_equations; lia).
Qed.
Lemma utf8_char_cons c : ∃ b l, utf8_char c = b :: l.
Proof. unfold utf8_char. repeat case_match; eauto. Qed.
Lemma as_bytes_inj s k :
  Forall is_scalar s → Forall is_scalar k → as_bytes s = as_bytes k → s = k.
Proof.
  unfold as_bytes. intros Hs. revert k. induction Hs as [|c s Hc _ IH]; intros k Hk.
  - destruct k as [|d k]; [done|]. rewrite bind_cons.
    destruct (utf8_char_cons d) as (b & l & ->). done.
  - destruct Hk as [|d k Hd Hk]; rewrite ?bind_cons.
    + destruct (utf8_char_cons c) as (b & l & ->). done.
    + intros [-> E]%utf8_char_inj; [|done..]. f_equal. by apply IH.
Qed.

(** ** [Timestamp] *)
Module Timestamp.
Record t := mk { nanos : Z }.
Inductive error :=
| SurroundingWhitespace
| InvalidRfc3339
| NotRfc3339Representable
| InvalidUnixTimestamp.

#[global] Instance eq_dec : EqDecision t.
Proof. solve_decision. Defined.
#[global] Instance error_eq_dec : EqDecision error.
Proof. solve_decision. Defined.
#[global] Instance nanos_inj : Inj (=) (=) nanos.
Proof. intros [x] [y]; cbn. congruence. Qed.
#[global] Instance t_Cmp : Cmp t := cmp_on nanos.
#[global] Instance t_CmpLaws : CmpLaws t.
Proof. apply cmp_on_laws, _. Qed.

(** [a < b] and [a <= b] of two timestamps. *)
Definition ltb (a b : t) : bool := nanos a <? nanos b.
Definition leb (a b : t) : bool := nanos a <=? nanos b.
Definition max (a b : t) : t := if leb a b then b else a.
Definition min (a b : t) : t := if leb a b then a else b.

(** Whole seconds, rounded towards the past. *)
Definition unix_timestamp (a : t) : Z := nanos a / NANOS_PER_SECOND.

Section ops.
Context `{TimeCrate}.
Definition new (value : Z) : Result error t :=
  match rfc3339_format value with
  | None => Err NotRfc3339Representable
  | Some _ => Ok (mk value)
  end.
Definition parse (value : str) : Result error t :=
  if negb (bool_decide (value = trim value)) then Err SurroundingWhitespace else
  value ← ok_or (rfc3339_parse value) InvalidRfc3339;
  new value.
Definition from_unix_timestamp (seconds : Z) : Result error t :=
  let value := seconds * NANOS_PER_SECOND in
  if (odt_min <=? value) && (value <=? odt_max) then new value
  else Err InvalidUnixTimestamp.
Definition canonical_string (a : t) : option str := rfc3339_format (nanos a).
(** [to_string] through [Display]; a timestamp without a canonical text, which
    no constructor produces, would panic there. *)
Definition to_string (a : t) : str := default [] (canonical_string a).
(** The values [new] can produce. *)
Definition wf (a : t) : Prop := is_Some (canonical_string a).
End ops.
End Timestamp.
Notation Timestamp := Timestamp.t.

Section timestamp_facts.
Import Timestamp.
Lemma ts_cmp_lt (a b : Timestamp) : cmp a b = Lt ↔ nanos a < nanos b.
Proof. apply Z.compare_lt_iff. Qed.
Lemma ts_max_nanos a b : nanos (max a b) = Z.max (nanos a) (nanos b).
Proof. unfold max, leb. destruct (Z.leb_spec (nanos a) (nanos b)); lia. Qed.
Lemma ts_min_nanos a b : nanos (min a b) = Z.min (nanos a) (nanos b).
Proof. unfold min, leb. destruct (Z.leb_spec (nanos a) (nanos b)); lia. Qed.
End timestamp_facts.

(** ** Reference implementations

    Concrete operations with the laws, for instantiating the parameters. *)
Module Reference.
Definition all_digits (s : str) : bool := forallb is_ascii_digit s && negb (is_empty s).

(** Instants print as the 21-digit offset from the least one. *)
Definition ref_min : Z := -377705116800000000000.
Definition ref_max : Z := 253402300799999999999.
Definition ref_format (v : Z) : option str :=
  if (-62167219200000000000 <=? v) && (v <=? ref_max)
  then Some (show_digits 21 (v - ref_min) []) else None.
Definition ref_parse (s : str) : option Z :=
  if all_digits s then Some (digits_value s + ref_min) else None.
#[export] Instance time : TimeCrate :=
  {| odt_min := ref_min; odt_max := ref_max;
     rfc3339_format := ref_format; rfc3339_parse := ref_parse |}.

(** Integers as decimals: normalization is trivial. *)
Definition ref_digits (d : Z) : str := show_digits (S (Z.to_nat (Z.log2 d))) d [].
Definition ref_show_Z (d : Z) : str :=
  if d <? 0 then 45 :: ref_digits (- d) else ref_digits d.
Definition ref_from_str (s : str) : option Z :=
  match s with
  | c :: k =>
      if c =? 45 then (if all_digits k then Some (- digits_value k) else None)
      else if all_digits s then Some (digits_value s) else None
  | [] => None
  end.
#[export] Instance decimal : DecimalCrate :=
  {| Decimal := Z; decimal_zero := 0; decimal_normalize := λ d, d;
     decimal_from_str := ref_from_str; decimal_to_string := ref_show_Z;
     decimal_is_sign_negative := λ d, d <? 0;
     decimal_checked_sub := λ a b,
       let d := a - b in
       if (- 2 ^ 96 <? d) && (d <? 2 ^ 96) then Some d else None |}.

(** A 64-digit checksum. *)
Definition ref_hmac (k m : list Z) : str :=
  let v := foldl (λ a b, (a * 257 + b) mod (2 ^ 61 - 1)) 7 (k ++ 256 :: m) in
  (λ i, 48 + (v / 10 ^ Z.of_nat i) mod 10) <$> seq 0 64.
#[export] Instance hmac : HmacCrate := ref_hmac.

Lemma digits_parse fuel n : all_digits (show_digits (S fuel) n []) = true.
Proof.
  apply andb_true_iff. split.
  - apply forallb_Forall_eq, show_digits_digits.
  - pose proof (show_digits_nonempty fuel n). by destruct (show_digits (S fuel) n []).
Qed.
Lemma digits_trim fuel n : trim (show_digits fuel n []) = show_digits fuel n [].
Proof.
  apply trim_digits, show_digits_digits.
Qed.

Lemma ref_format_Some v s :
  ref_format v = Some s →
  -62167219200000000000 ≤ v ≤ ref_max ∧ s = show_digits 21 (v - ref_min) [].
Proof.
  unfold ref_format.
  destruct (Z.leb_spec (-62167219200000000000) v), (Z.leb_spec v ref_max);
    cbn [andb]; intros E; try discriminate E.
  apply (inj Some) in E. by rewrite <-E.
Qed.
Lemma digit_scalar c : is_ascii_digit c = true → is_scalar c.
Proof. unfold is_scalar. rewrite is_ascii_digit_range. lia. Qed.
#[export] Instance time_laws : TimeCrateLaws.
Proof.
  split; intros t s [Ht ->]%ref_format_Some.
  - change (ref_parse (show_digits 21 (t - ref_min) []) = Some t).
    unfold ref_parse. rewrite digits_parse, show_digits_value; [f_equal; lia|].
    unfold ref_min, ref_max in *. change (10 ^ Z.of_nat 21) with 1000000000000000000000. lia.
  - apply digits_trim.
  - change (ref_min ≤ t ≤ ref_max). unfold ref_min. lia.
  - eapply Forall_impl; [apply show_digits_digits | apply digit_scalar].
Qed.
Lemma ref_digits_value d : 0 ≤ d → digits_value (ref_digits d) = d.
Proof.
  intros Hd. apply show_digits_value. split; [done|].
  pose proof (Z.log2_nonneg d). rewrite Nat2Z.inj_succ, Z2Nat.id by done.
  destruct (Z.eq_dec d 0) as [->|]; [done|].
  apply Z.lt_le_trans with (2 ^ Z.succ (Z.log2 d)).
  - apply Z.log2_spec. lia.
  - apply Z.pow_le_mono_l. lia.
Qed.
Lemma ref_digits_graphic d : Forall (λ c, is_ascii_graphic c = true) (ref_digits d).
Proof. eapply Forall_impl; [apply show_digits_digits | apply digit_graphic]. Qed.
Lemma ref_from_show d : ref_from_str (ref_show_Z d) = Some d.
Proof.
  unfold ref_show_Z. destruct (Z.ltb_spec d 0).
  - cbn [ref_from_str]. change (45 =? 45) with true. cbn iota.
    unfold ref_digits at 1. rewrite digits_parse, ref_digits_value by lia. f_equal; lia.
  - pose proof (show_digits_nonempty (Z.to_nat (Z.log2 d)) d) as Hne.
    pose proof (show_digits_digits (S (Z.to_nat (Z.log2 d))) d) as Hd.
    pose proof (digits_parse (Z.to_nat (Z.log2 d)) d) as Hp.
    pose proof (ref_digits_value d ltac:(lia)) as Hv.
    fold (ref_digits d) in Hne, Hd, Hp. destruct (ref_digits d) as [|c k]; [done|].
    cbn [ref_from_str]. apply Forall_cons in Hd as [Hc _].
    apply is_ascii_digit_range in Hc. rewrite (proj2 (Z.eqb_neq c 45)) by lia.
    by rewrite Hp, Hv.
Qed.
Lemma ref_show_trim d : trim (ref_show_Z d) = ref_show_Z d.
Proof.
  apply trim_ascii_graphic. unfold ref_show_Z.
  destruct (d <? 0); [constructor; [done|]|]; apply ref_digits_graphic.
Qed.
#[export] Instance decimal_laws : DecimalCrateLaws.
Proof.
  split; try done.
  - intros d _. apply ref_from_show.
  - intros d. split; [|apply ref_show_trim].
    change (ref_show_Z d ≠ []). unfold ref_show_Z.
    destruct (d <? 0); [done|]. apply show_digits_nonempty.
  - intros d. change (Forall is_scalar (ref_show_Z d)).
    assert (∀ n, Forall is_scalar (ref_digits n)) as Hd.
    { intros n. eapply Forall_impl; [apply show_digits_digits | apply digit_scalar]. }
    unfold ref_show_Z. destruct (d <? 0); [constructor; [done|]|]; apply Hd.
  - intros d e. apply Z.compare_antisym.
Qed.
#[export] Instance hmac_laws : HmacCrateLaws.
Proof.
  split; intros k m.
  - apply length_fmap.
  - apply Forall_fmap, Forall_true. intros i. cbn. unfold is_lower_hex.
    rewrite (proj2 (is_ascii_digit_range _)); [done|].
    match goal with |- context [?x mod 10] => pose proof (Z.mod_pos_bound x 10 ltac:(lia)) end.
    lia.
Qed.
End Reference.
