(* ===== verification/Scope.v ===== *)
(** * Routing identity  (crates/domain/src/provider_id.rs, ids.rs)

    The closed registry of providers, the validated routing identifiers, the
    account scope every map of the runtime is keyed by, and the keyed digests
    that stand for private identifiers outside the process. *)
From stdpp Require Import countable prelude.
From S2P Require Import Prelude Ordering Text Externals.
Local Open Scope Z_scope.

Module ProviderId.
Inductive t :=
| Codex
| OpenAi
| AzureOpenAi
| Claude
| ClinePass
| Cursor
| OpenCode
| OpenCodeGo
| Alibaba
| AlibabaTokenPlan
| QwenCloud
| Factory
| Fireworks
| Gemini
| Antigravity
| Copilot
| Devin
| Zai
| MiniMax
| Manus
| Kimi
| Kilo
| Kiro
| VertexAi
| Augment
| JetBrains
| Moonshot
| Amp
| T3Chat
| Ollama
| Synthetic
| OpenRouter
| ElevenLabs
| Warp
| Windsurf
| Zed
| Perplexity
| Mimo
| Doubao
| Sakana
| Abacus
| Mistral
| DeepSeek
| DeepInfra
| Codebuff
| Crof
| Venice
| CommandCode
| Qoder
| StepFun
| Bedrock
| Grok
| Groq
| LlmProxy
| LiteLlm
| Deepgram
| Poe
| Chutes
| Neuralwatt
| ClawRouter
| LongCat
| Sub2Api
| Wayfinder
| ZenMux
| AiAnd
| ZoomMate
| Xai
| Notion
| IbmBob.

(** [ProviderId::ALL], in declaration order. *)
Definition ALL : list t :=
  [Codex; OpenAi; AzureOpenAi; Claude; ClinePass; Cursor; OpenCode; OpenCodeGo;
   Alibaba; AlibabaTokenPlan; QwenCloud; Factory; Fireworks; Gemini; Antigravity;
   Copilot; Devin; Zai; MiniMax; Manus; Kimi; Kilo; Kiro; VertexAi; Augment;
   JetBrains; Moonshot; Amp; T3Chat; Ollama; Synthetic; OpenRouter; ElevenLabs;
   Warp; Windsurf; Zed; Perplexity; Mimo; Doubao; Sakana; Abacus; Mistral;
   DeepSeek; DeepInfra; Codebuff; Crof; Venice; CommandCode; Qoder; StepFun;
   Bedrock; Grok; Groq; LlmProxy; LiteLlm; Deepgram; Poe; Chutes; Neuralwatt;
   ClawRouter; LongCat; Sub2Api; Wayfinder; ZenMux; AiAnd; ZoomMate; Xai; Notion;
   IbmBob].

Definition as_str (p : t) : str :=
  match p with
  | Codex => lit "codex"
  | OpenAi => lit "openai"
  | AzureOpenAi => lit "azureopenai"
  | Claude => lit "claude"
  | ClinePass => lit "clinepass"
  | Cursor => lit "cursor"
  | OpenCode => lit "opencode"
  | OpenCodeGo => lit "opencodego"
  | Alibaba => lit "alibaba"
  | AlibabaTokenPlan => lit "alibabatokenplan"
  | QwenCloud => lit "qwencloud"
  | Factory => lit "factory"
  | Fireworks => lit "fireworks"
  | Gemini => lit "gemini"
  | Antigravity => lit "antigravity"
  | Copilot => lit "copilot"
  | Devin => lit "devin"
  | Zai => lit "zai"
  | MiniMax => lit "minimax"
  | Manus => lit "manus"
  | Kimi => lit "kimi"
  | Kilo => lit "kilo"
  | Kiro => lit "kiro"
  | VertexAi => lit "vertexai"
  | Augment => lit "augment"
  | JetBrains => lit "jetbrains"
  | Moonshot => lit "moonshot"
  | Amp => lit "amp"
  | T3Chat => lit "t3chat"
  | Ollama => lit "ollama"
  | Synthetic => lit "synthetic"
  | OpenRouter => lit "openrouter"
  | ElevenLabs => lit "elevenlabs"
  | Warp => lit "warp"
  | Windsurf => lit "windsurf"
  | Zed => lit "zed"
  | Perplexity => lit "perplexity"
  | Mimo => lit "mimo"
  | Doubao => lit "doubao"
  | Sakana => lit "sakana"
  | Abacus => lit "abacus"
  | Mistral => lit "mistral"
  | DeepSeek => lit "deepseek"
  | DeepInfra => lit "deepinfra"
  | Codebuff => lit "codebuff"
  | Crof => lit "crof"
  | Venice => lit "venice"
  | CommandCode => lit "commandcode"
  | Qoder => lit "qoder"
  | StepFun => lit "stepfun"
  | Bedrock => lit "bedrock"
  | Grok => lit "grok"
  | Groq => lit "groq"
  | LlmProxy => lit "llmproxy"
  | LiteLlm => lit "litellm"
  | Deepgram => lit "deepgram"
  | Poe => lit "poe"
  | Chutes => lit "chutes"
  | Neuralwatt => lit "neuralwatt"
  | ClawRouter => lit "clawrouter"
  | LongCat => lit "longcat"
  | Sub2Api => lit "sub2api"
  | Wayfinder => lit "wayfinder"
  | ZenMux => lit "zenmux"
  | AiAnd => lit "aiand"
  | ZoomMate => lit "zoommate"
  | Xai => lit "xai"
  | Notion => lit "notion"
  | IbmBob => lit "ibmbob"
  end.

(** The declaration index, which the derived [Ord] compares. *)
Definition index (p : t) : Z :=
  match p with
  | Codex => 0
  | OpenAi => 1
  | AzureOpenAi => 2
  | Claude => 3
  | ClinePass => 4
  | Cursor => 5
  | OpenCode => 6
  | OpenCodeGo => 7
  | Alibaba => 8
  | AlibabaTokenPlan => 9
  | QwenCloud => 10
  | Factory => 11
  | Fireworks => 12
  | Gemini => 13
  | Antigravity => 14
  | Copilot => 15
  | Devin => 16
  | Zai => 17
  | MiniMax => 18
  | Manus => 19
  | Kimi => 20
  | Kilo => 21
  | Kiro => 22
  | VertexAi => 23
  | Augment => 24
  | JetBrains => 25
  | Moonshot => 26
  | Amp => 27
  | T3Chat => 28
  | Ollama => 29
  | Synthetic => 30
  | OpenRouter => 31
  | ElevenLabs => 32
  | Warp => 33
  | Windsurf => 34
  | Zed => 35
  | Perplexity => 36
  | Mimo => 37
  | Doubao => 38
  | Sakana => 39
  | Abacus => 40
  | Mistral => 41
  | DeepSeek => 42
  | DeepInfra => 43
  | Codebuff => 44
  | Crof => 45
  | Venice => 46
  | CommandCode => 47
  | Qoder => 48
  | StepFun => 49
  | Bedrock => 50
  | Grok => 51
  | Groq => 52
  | LlmProxy => 53
  | LiteLlm => 54
  | Deepgram => 55
  | Poe => 56
  | Chutes => 57
  | Neuralwatt => 58
  | ClawRouter => 59
  | LongCat => 60
  | Sub2Api => 61
  | Wayfinder => 62
  | ZenMux => 63
  | AiAnd => 64
  | ZoomMate => 65
  | Xai => 66
  | Notion => 67
  | IbmBob => 68
  end.

Inductive parse_error := ParseProviderIdError.

(** [FromStr]: the arms of the [match] in order. *)
Definition from_str (value : str) : Result parse_error t :=
  match list_find (λ p, as_str p = value) ALL with
  | Some (_, p) => Ok p
  | None => Err ParseProviderIdError
  end.

#[global] Instance eq_dec : EqDecision t.
Proof. solve_decision. Defined.
Definition of_index (i : Z) : option t := ALL !! Z.to_nat i.
Lemma of_index_index p : of_index (index p) = Some p.
Proof. by destruct p. Qed.
#[global] Instance index_inj : Inj (=) (=) index.
Proof. intros p q E. apply (inj Some). by rewrite <-!of_index_index, E. Qed.
#[global] Instance t_Cmp : Cmp t := cmp_on index.
#[global] Instance t_CmpLaws : CmpLaws t.
Proof. apply cmp_on_laws, _. Qed.
#[global] Instance t_countable : Countable t.
Proof. refine (inj_countable index of_index of_index_index). Defined.
End ProviderId.
Notation ProviderId := ProviderId.t.

(** ** Routing identifiers *)
Inductive ScopeIdError :=
| ScopeEmpty (description : str)
| ScopeSurroundingWhitespace (description : str)
| ScopeTooLong (description : str) (maximum actual : Z)
| ScopeInvalidCharacter (description : str) (character : Z).

Definition scope_char_ok (allow_at : bool) (c : Z) : bool :=
  is_ascii_alphanumeric c
  || ((c =? 45) || (c =? 95) || (c =? 46) || (c =? 58) || (c =? 43))
  || (allow_at && (c =? 64)).

Definition validate_scope_id (value : str) (maximum : Z) (description : str)
    (allow_at : bool) : Result ScopeIdError unit :=
  if is_empty value then Err (ScopeEmpty description) else
  if negb (bool_decide (value = trim value)) then Err (ScopeSurroundingWhitespace description) else
  if maximum <? str_len value then Err (ScopeTooLong description maximum (str_len value)) else
  match find_char (λ c, negb (scope_char_ok allow_at c)) value with
  | Some character => Err (ScopeInvalidCharacter description character)
  | None => Ok tt
  end.

Definition MAX_PROVIDER_INSTANCE_ID_BYTES : Z := 128.
Definition MAX_ACCOUNT_KEY_BYTES : Z := 160.

Module ProviderInstanceId.
Record t := mk { as_str : str }.
Definition new (value : str) : Result ScopeIdError t :=
  validate_scope_id value MAX_PROVIDER_INSTANCE_ID_BYTES (lit "provider instance ID") true ;;
  Ok (mk value).
Definition wf (i : t) : Prop := new (as_str i) = Ok i.
#[global] Instance eq_dec : EqDecision t.
Proof. solve_decision. Defined.
#[global] Instance as_str_inj : Inj (=) (=) as_str.
Proof. intros [x] [y]; cbn. congruence. Qed.
End ProviderInstanceId.
Notation ProviderInstanceId := ProviderInstanceId.t.

Module AccountKey.
Record t := mk { as_str : str }.
Definition new (value : str) : Result ScopeIdError t :=
  validate_scope_id value MAX_ACCOUNT_KEY_BYTES (lit "account key") false ;;
  Ok (mk value).
Definition wf (i : t) : Prop := new (as_str i) = Ok i.
#[global] Instance eq_dec : EqDecision t.
Proof. solve_decision. Defined.
#[global] Instance as_str_inj : Inj (=) (=) as_str.
Proof. intros [x] [y]; cbn. congruence. Qed.
End AccountKey.
Notation AccountKey := AccountKey.t.

Lemma validate_scope_id_Ok value maximum description allow_at :
  validate_scope_id value maximum description allow_at = Ok tt ↔
  value ≠ [] ∧ Forall (λ c, scope_char_ok allow_at c = true) value
  ∧ Z.of_nat (length value) ≤ maximum.
Proof.
  assert (∀ c, scope_char_ok allow_at c = true → is_ascii_graphic c = true) as Hg.
  { intros c. unfold scope_char_ok, is_ascii_graphic, is_ascii_alphanumeric,
      is_ascii_alphabetic, is_ascii_digit, is_ascii_lower, is_ascii_upper.
    destruct allow_at; cbn [andb];
      rewrite ?orb_true_iff, ?andb_true_iff, ?Z.leb_le, ?Z.eqb_eq; lia. }
  assert (Forall (λ c, scope_char_ok allow_at c = true) value →
          trim value = value ∧ str_len value = Z.of_nat (length value)) as Ht.
  { intros Hv. split.
    - apply trim_ascii_graphic. eapply Forall_impl; [exact Hv | exact Hg].
    - apply str_len_ascii. eapply Forall_impl; [exact Hv|]. intros c Hc.
      apply Hg in Hc. unfold is_ascii_graphic in Hc.
      apply andb_true_iff in Hc. rewrite !Z.leb_le in Hc. lia. }
  assert (find_char (λ c, negb (scope_char_ok allow_at c)) value = None ↔
          Forall (λ c, scope_char_ok allow_at c = true) value) as Hf.
  { rewrite find_char_None. split; intros H; (eapply Forall_impl; [exact H|]);
      intros c; cbn; by destruct (scope_char_ok allow_at c). }
  unfold validate_scope_id. destruct value as [|c s]; [cbn; naive_solver|]. cbn [is_empty].
  split.
  - case_bool_decide as Hb; [|done]. cbn [negb].
    destruct (Z.ltb_spec maximum (str_len (c :: s))); [done|].
    intros E. assert (Forall (λ c, scope_char_ok allow_at c = true) (c :: s)) as Hfc.
    { apply Hf. clear -E. by destruct (find_char _ (c :: s)). }
    destruct (Ht Hfc) as [_ Hl]. split_and!; [done|done|lia].
  - intros (_ & Hv & Hl). destruct (Ht Hv) as [Ht1 Hl1].
    rewrite bool_decide_true by done. cbn [negb].
    rewrite (proj2 (Z.ltb_ge _ _)) by lia. by rewrite (proj2 Hf Hv).
Qed.

(** ** [AccountScope] *)
Module AccountScope.
Record t := mk {
  provider : ProviderId;
  instance : ProviderInstanceId;
  account : AccountKey;
}.
Definition key (s : t) : ProviderId * (str * str) :=
  (provider s, (ProviderInstanceId.as_str (instance s), AccountKey.as_str (account s))).
Definition of_key (k : ProviderId * (str * str)) : t :=
  mk k.1 (ProviderInstanceId.mk k.2.1) (AccountKey.mk k.2.2).
Definition wf (s : t) : Prop :=
  ProviderInstanceId.wf (instance s) ∧ AccountKey.wf (account s).

#[global] Instance eq_dec : EqDecision t.
Proof. solve_decision. Defined.
Lemma of_key_key s : of_key (key s) = s.
Proof. by destruct s as [? [] []]. Qed.
#[global] Instance key_inj : Inj (=) (=) key.
Proof. intros s k E. by rewrite <-(of_key_key s), E, of_key_key. Qed.
#[global] Instance t_countable : Countable t.
Proof. refine (inj_countable' key of_key of_key_key). Defined.
(** The derived [Ord]: fields in declaration order. *)
#[global] Instance t_Cmp : Cmp t := cmp_on key.
#[global] Instance t_CmpLaws : CmpLaws t.
Proof. apply cmp_on_laws, _. Qed.
End AccountScope.
Notation AccountScope := AccountScope.t.

(** ** Keyed digests *)
Definition PrivacyKey := list Z.

(** [update_scope_mac]: the bytes fed to the MAC. *)
Definition scope_mac_bytes (scope : AccountScope) : list Z :=
  as_bytes (ProviderId.as_str (AccountScope.provider scope)) ++ [0]
  ++ as_bytes (ProviderInstanceId.as_str (AccountScope.instance scope)) ++ [0]
  ++ as_bytes (AccountKey.as_str (AccountScope.account scope)).

Inductive OpaqueRecordKind := CreditEventKind | ResetCreditKind.
Definition kind_domain (k : OpaqueRecordKind) : list Z :=
  match k with
  | CreditEventKind => lit "credit-event"
  | ResetCreditKind => lit "reset-credit"
  end.

Definition OPAQUE_RECORD_ID_HEX_BYTES : nat := 32.

Module OpaqueRecordId.
Record t := mk { as_str : str }.
Inductive error := OpaqueRecordIdError.
#[global] Instance eq_dec : EqDecision t.
Proof. solve_decision. Defined.
#[global] Instance as_str_inj : Inj (=) (=) as_str.
Proof. intros [x] [y]; cbn. congruence. Qed.
#[global] Instance t_Cmp : Cmp t := cmp_on as_str.
#[global] Instance t_CmpLaws : CmpLaws t.
Proof. apply cmp_on_laws, _. Qed.

(** Everything [derive] feeds to the MAC, in order. *)
Definition component_bytes (component : list Z) : list Z :=
  to_be_bytes 8 (Z.of_nat (length component)) ++ component.
Definition message (scope : AccountScope) (kind : OpaqueRecordKind)
    (components : list (list Z)) : list Z :=
  lit "omarchy-ai-bar/opaque-record/v1" ++ [0] ++ kind_domain kind ++ [0]
  ++ scope_mac_bytes scope ++ (components ≫= component_bytes).

Definition wf (i : t) : Prop :=
  length (as_str i) = OPAQUE_RECORD_ID_HEX_BYTES ∧
  Forall (λ c, is_lower_hex c = true) (as_str i).

Definition from_wire (value : str) : Result error t :=
  if negb (str_len value =? Z.of_nat OPAQUE_RECORD_ID_HEX_BYTES)
     || negb (forallb is_lower_hex value)
  then Err OpaqueRecordIdError else Ok (mk value).

Section keyed.
Context `{HmacCrate}.
Definition derive (privacy_key : PrivacyKey) (scope : AccountScope)
    (kind : OpaqueRecordKind) (components : list (list Z)) : t :=
  let digest := hmac_sha256_hex privacy_key (message scope kind components) in
  mk (take OPAQUE_RECORD_ID_HEX_BYTES digest).
Definition public_ordinal (kind : OpaqueRecordKind) (ordinal : Z) : t :=
  let digest := hmac_sha256_hex (replicate 32 0)
    (lit "omarchy-ai-bar/public-record-ordinal/v1" ++ [0] ++ kind_domain kind ++ [0]
     ++ to_be_bytes 8 ordinal) in
  mk (take OPAQUE_RECORD_ID_HEX_BYTES digest).
End keyed.
End OpaqueRecordId.
Notation OpaqueRecordId := OpaqueRecordId.t.

Definition public_scope_message (scope : AccountScope) (field : list Z) : list Z :=
  lit "omarchy-ai-bar/public-scope/v1" ++ [0] ++ field ++ [0] ++ scope_mac_bytes scope.

Section public_scope.
Context `{HmacCrate}.
Definition public_scope_id (scope : AccountScope) (field : list Z)
    (privacy_key : PrivacyKey) : str :=
  take 24 (hmac_sha256_hex privacy_key (public_scope_message scope field)).

(** [AccountScope::public_projection]; the [expect]s are the [mk]s, which
    [public_projection_wf] shows to be what [new] accepts. *)
Definition public_projection (self : AccountScope) (privacy_key : PrivacyKey) : AccountScope :=
  let instance := public_scope_id self (lit "instance") privacy_key in
  let account := public_scope_id self (lit "account") privacy_key in
  AccountScope.mk (AccountScope.provider self)
    (ProviderInstanceId.mk (lit "instance-" ++ instance))
    (AccountKey.mk (lit "account-" ++ account)).
End public_scope.

(** ** Theorems *)

Lemma list_find_ALL p : list_find (λ q, ProviderId.as_str q = ProviderId.as_str p) ProviderId.ALL
  = Some (Z.to_nat (ProviderId.index p), p).
Proof. destruct p; vm_compute; reflexivity. Qed.

Lemma from_str_Ok s p : ProviderId.from_str s = Ok p ↔ s = ProviderId.as_str p.
Proof.
  unfold ProviderId.from_str. split.
  - intros E. destruct (list_find _ _) as [[i q]|] eqn:Hl; [|done].
    injection E as ->. by apply list_find_Some in Hl as (_ & Hq & _).
  - intros ->. by rewrite list_find_ALL.
Qed.

(** The provider names form a bijection with the registry: parsing accepts
    exactly the 69 names and gives back the provider that prints so; every
    provider is in [ALL] once, at its declaration index. *)
Theorem provider_id_roundtrip (s : str) (p : ProviderId) :
  (ProviderId.from_str s = Ok p ↔ s = ProviderId.as_str p) ∧
  ProviderId.ALL !! Z.to_nat (ProviderId.index p) = Some p ∧
  length ProviderId.ALL = 69%nat ∧ NoDup ProviderId.ALL.
Proof.
  split_and!.
  - apply from_str_Ok.
  - apply ProviderId.of_index_index.
  - reflexivity.
  - apply (NoDup_fmap_1 ProviderId.index). by_decide.
Qed.

Lemma split_at_zero (a1 a2 r1 r2 : list Z) :
  0 ∉ a1 → 0 ∉ a2 → a1 ++ 0 :: r1 = a2 ++ 0 :: r2 → a1 = a2 ∧ r1 = r2.
Proof.
  revert a2; induction a1 as [|x a1 IH]; intros [|y a2] H1 H2; cbn; intros E.
  - by injection E.
  - injection E as E _. destruct H2. rewrite <-E. left.
  - injection E as E _. destruct H1. rewrite E. left.
  - injection E as -> E. destruct (IH a2) as [-> ->]; [set_solver..|done|done].
Qed.

Lemma scope_chars_no_zero allow_at (s : str) :
  Forall (λ c, scope_char_ok allow_at c = true) s → as_bytes s = s ∧ 0 ∉ s.
Proof.
  intros Hs. assert (Forall (λ c, 0 < c < 128) s) as Hr.
  { eapply Forall_impl; [exact Hs|]. intros c.
    unfold scope_char_ok, is_ascii_alphanumeric, is_ascii_alphabetic, is_ascii_digit,
      is_ascii_lower, is_ascii_upper. destruct allow_at; cbn [andb];
      rewrite ?orb_true_iff, ?andb_true_iff, ?Z.leb_le, ?Z.eqb_eq; lia. }
  split.
  - apply as_bytes_ascii. eapply Forall_impl; [exact Hr|]. cbn. lia.
  - intros H0. rewrite Forall_forall in Hr. specialize (Hr 0 H0). lia.
Qed.
Lemma instance_bytes i : ProviderInstanceId.wf i →
  as_bytes (ProviderInstanceId.as_str i) = ProviderInstanceId.as_str i ∧
  0 ∉ ProviderInstanceId.as_str i.
Proof.
  unfold ProviderInstanceId.wf, ProviderInstanceId.new.
  intros (u & Hu & _)%bind_Ok. destruct u. apply validate_scope_id_Ok in Hu as (_ & Hu & _).
  by eapply scope_chars_no_zero.
Qed.
Lemma account_bytes i : AccountKey.wf i →
  as_bytes (AccountKey.as_str i) = AccountKey.as_str i ∧ 0 ∉ AccountKey.as_str i.
Proof.
  unfold AccountKey.wf, AccountKey.new.
  intros (u & Hu & _)%bind_Ok. destruct u. apply validate_scope_id_Ok in Hu as (_ & Hu & _).
  by eapply scope_chars_no_zero.
Qed.
Lemma provider_bytes p : 0 ∉ as_bytes (ProviderId.as_str p).
Proof. destruct p; by_decide. Qed.
Lemma provider_bytes_inj p q :
  as_bytes (ProviderId.as_str p) = as_bytes (ProviderId.as_str q) → p = q.
Proof.
  assert (∀ r, as_bytes (ProviderId.as_str r) = ProviderId.as_str r) as Hb.
  { intros r. apply as_bytes_ascii. destruct r; by_decide. }
  rewrite !Hb. intros E.
  apply from_str_Ok in E. pose proof (proj2 (from_str_Ok _ p) eq_refl). congruence.
Qed.

(** Length-prefixed components are read back one by one. *)
Lemma component_bytes_inj (l k : list (list Z)) :
  Forall (λ c, Z.of_nat (length c) < 2 ^ 56) l → Forall (λ c, Z.of_nat (length c) < 2 ^ 56) k →
  l ≫= OpaqueRecordId.component_bytes = k ≫= OpaqueRecordId.component_bytes → l = k.
Proof.
  intros Hl. revert k. induction Hl as [|x l Hx Hl IH]; intros k Hk; destruct Hk as [|y k Hy Hk].
  - done.
  - rewrite bind_cons. done.
  - rewrite bind_cons. done.
  - rewrite !bind_cons. unfold OpaqueRecordId.component_bytes at 1 3.
    rewrite <-!app_assoc. intros [E1 E2]%app_inj_1; [|by rewrite !to_be_bytes_length].
    apply to_be_bytes_inj in E1; [|change (256 ^ Z.of_nat 8) with (256 * 2 ^ 56); lia..].
    apply app_inj_1 in E2 as [-> E2]; [|lia]. f_equal. by apply IH.
Qed.
Lemma component_bytes_head (l : list (list Z)) :
  l ≠ [] → Forall (λ c, Z.of_nat (length c) < 2 ^ 56) l →
  ∃ r, l ≫= OpaqueRecordId.component_bytes = 0 :: r.
Proof.
  intros Hne Hl. destruct Hl as [|x l Hx Hl]; [done|]. rewrite bind_cons.
  unfold OpaqueRecordId.component_bytes at 1. cbn [to_be_bytes].
  change (256 ^ Z.of_nat 7) with (2 ^ 56). rewrite Z.div_small by lia. cbn. eauto.
Qed.
Lemma kind_domain_no_zero k : 0 ∉ kind_domain k.
Proof. destruct k; by_decide. Qed.
Lemma kind_domain_inj k k' : kind_domain k = kind_domain k' → k = k'.
Proof. by destruct k, k'. Qed.

Lemma scope_mac_bytes_inj s1 s2 t1 t2 :
  AccountScope.wf s1 → AccountScope.wf s2 →
  scope_mac_bytes s1 ++ 0 :: t1 = scope_mac_bytes s2 ++ 0 :: t2 → s1 = s2 ∧ t1 = t2.
Proof.
  intros [Hi1 Ha1] [Hi2 Ha2]. unfold scope_mac_bytes.
  destruct (instance_bytes _ Hi1) as [-> Hz1], (instance_bytes _ Hi2) as [-> Hz2],
    (account_bytes _ Ha1) as [-> Hy1], (account_bytes _ Ha2) as [-> Hy2].
  rewrite <-!app_assoc. cbn [app].
  intros [Ep E]%split_at_zero; try apply provider_bytes.
  apply split_at_zero in E as [Ei E]; [|done..].
  apply split_at_zero in E as [Ea ->]; [|done..].
  split; [|done]. apply provider_bytes_inj in Ep.
  destruct s1 as [? [] []], s2 as [? [] []]; cbn in *. congruence.
Qed.

Lemma message_inj (s1 s2 : AccountScope) k1 k2 (c1 c2 : list (list Z)) :
  AccountScope.wf s1 → AccountScope.wf s2 → c1 ≠ [] → c2 ≠ [] →
  Forall (λ c, Z.of_nat (length c) < 2 ^ 56) c1 →
  Forall (λ c, Z.of_nat (length c) < 2 ^ 56) c2 →
  OpaqueRecordId.message s1 k1 c1 = OpaqueRecordId.message s2 k2 c2 →
  s1 = s2 ∧ k1 = k2 ∧ c1 = c2.
Proof.
  intros Hs1 Hs2 Hn1 Hn2 Hc1 Hc2. unfold OpaqueRecordId.message.
  intros E%app_inv_head. cbn [app] in E. injection E as E.
  apply split_at_zero in E as [Ek E]; [|apply kind_domain_no_zero..].
  destruct (component_bytes_head c1 Hn1 Hc1) as [r1 Hr1].
  destruct (component_bytes_head c2 Hn2 Hc2) as [r2 Hr2].
  rewrite Hr1, Hr2 in E. apply scope_mac_bytes_inj in E as [-> Er]; [|done..].
  split_and!; [done|by apply kind_domain_inj|].
  apply component_bytes_inj; [done..|]. congruence.
Qed.

(** The bytes an opaque record ID is derived from are an unambiguous encoding:
    two records share the MAC input only if they agree in scope, in purpose and
    in every component, so the IDs of different records differ unless
    HMAC-SHA256 itself collides. *)
Theorem opaque_message_injective (s1 s2 : AccountScope) k1 k2 (c1 c2 : list (list Z)) :
  AccountScope.wf s1 → AccountScope.wf s2 → c1 ≠ [] → c2 ≠ [] →
  Forall (λ c, Z.of_nat (length c) < 2 ^ 56) c1 →
  Forall (λ c, Z.of_nat (length c) < 2 ^ 56) c2 →
  OpaqueRecordId.message s1 k1 c1 = OpaqueRecordId.message s2 k2 c2 →
  s1 = s2 ∧ k1 = k2 ∧ c1 = c2.
Proof. apply message_inj. Qed.

Definition scope_example (account : str) : AccountScope :=
  AccountScope.mk ProviderId.Codex (ProviderInstanceId.mk (lit "default")) (AccountKey.mk account).

Lemma opaque_message_injective_witness :
  OpaqueRecordId.message (scope_example (lit "a")) ResetCreditKind [[1; 2]] ≠
  OpaqueRecordId.message (scope_example (lit "a")) ResetCreditKind [[1]; [2]].
Proof.
  intros E. destruct (opaque_message_injective (scope_example (lit "a")) (scope_example (lit "a"))
    ResetCreditKind ResetCreditKind [[1; 2]] [[1]; [2]]) as (_ & _ & H); [..|discriminate H].
  1,2: by split; vm_compute.
  1,2: done.
  1,2: by repeat constructor.
  exact E.
Defined.

(** The public alias of any scope is itself a valid scope of the same
    provider, so the projection's [expect]s cannot fail; it depends on the
    private labels only through the keyed digests. *)
Theorem public_projection_wf `{HmacCrateLaws} (s : AccountScope) (k : PrivacyKey) :
  AccountScope.wf (public_projection s k) ∧
  AccountScope.provider (public_projection s k) = AccountScope.provider s.
Proof.
  split; [|done].
  assert (∀ f, Forall (λ c, scope_char_ok false c = true) (public_scope_id s f k)
    ∧ length (public_scope_id s f k) = 24%nat) as Hp.
  { intros f. unfold public_scope_id. split.
    - apply Forall_take. eapply Forall_impl; [apply hmac_hex_digits|]. intros c.
      unfold is_lower_hex, scope_char_ok, is_ascii_alphanumeric, is_ascii_alphabetic,
        is_ascii_digit, is_ascii_lower.
      rewrite ?orb_true_iff, ?andb_true_iff, ?Z.leb_le. intros [?|?]; auto 7 with lia.
    - rewrite length_take, hmac_hex_length. lia. }
  assert (∀ c, scope_char_ok false c = true → scope_char_ok true c = true) as Hw.
  { intros c. unfold scope_char_ok. cbn [andb]. rewrite orb_false_r. by intros ->. }
  split; unfold ProviderInstanceId.wf, AccountKey.wf, ProviderInstanceId.new, AccountKey.new,
    public_projection; cbn [AccountScope.instance AccountScope.account
    ProviderInstanceId.as_str AccountKey.as_str].
  - destruct (Hp (lit "instance")) as [Hc Hl].
    rewrite (proj2 (validate_scope_id_Ok _ _ _ _)); [done|]. split_and!; [done| |].
    + apply Forall_app. split; [by repeat constructor|].
      eapply Forall_impl; [exact Hc | exact Hw].
    + rewrite length_app, Hl. done.
  - destruct (Hp (lit "account")) as [Hc Hl].
    rewrite (proj2 (validate_scope_id_Ok _ _ _ _)); [done|]. split_and!; [done| |].
    + apply Forall_app. split; [by repeat constructor | done].
    + rewrite length_app, Hl. done.
Qed.
Lemma public_projection_wf_witness :
  AccountScope.wf (@public_projection Reference.hmac (scope_example (lit "ada")) (replicate 32 7)).
Proof. apply (@public_projection_wf Reference.hmac Reference.hmac_laws). Defined.
