(* ===== verification/Errors.v ===== *)
(** * Classified errors and freshness  (crates/domain/src/error.rs, freshness.rs)

    The actionable failure classes a provider error is reduced to.  Retry and
    authentication semantics are functions of the class, and a decoded error
    must agree with them. *)
From stdpp Require Import prelude.
From S2P Require Import Prelude Ordering Text Percentage Externals.
Local Open Scope Z_scope.

Inductive ErrorKind :=
| MissingCredential
| AuthenticationExpired
| PermissionDenied
| RateLimited
| ProviderUnavailable
| Network
| Parse
| Api.

Inductive RetryEligibility := Automatic | Manual | Never.

Inductive AuthImplication :=
| NoImplication
| ConfigureCredential
| Reauthenticate
| PermissionDeniedImplication.

#[global] Instance ErrorKind_eq_dec : EqDecision ErrorKind.
Proof. solve_decision. Defined.
#[global] Instance RetryEligibility_eq_dec : EqDecision RetryEligibility.
Proof. solve_decision. Defined.
#[global] Instance AuthImplication_eq_dec : EqDecision AuthImplication.
Proof. solve_decision. Defined.

Definition MAX_ERROR_CODE_BYTES : Z := 128.
Definition MAX_ERROR_MESSAGE_BYTES : Z := 512.

Module ClassifiedError.
(** [ClassifiedError] and its wire form [ClassifiedErrorWire] have the same
    fields; only [from_kind] and [decode] build the former. *)
Record t := mk {
  kind : ErrorKind;
  code : BoundedText MAX_ERROR_CODE_BYTES;
  message : BoundedText MAX_ERROR_MESSAGE_BYTES;
  retry : RetryEligibility;
  auth_implication : AuthImplication;
  retry_after : option WindowDuration;
}.
#[global] Instance eq_dec : EqDecision t.
Proof. solve_decision. Defined.

Definition semantics (kind : ErrorKind) : RetryEligibility * AuthImplication :=
  match kind with
  | MissingCredential => (Manual, ConfigureCredential)
  | AuthenticationExpired => (Manual, Reauthenticate)
  | PermissionDenied => (Manual, PermissionDeniedImplication)
  | RateLimited | ProviderUnavailable | Network | Api => (Automatic, NoImplication)
  | Parse => (Never, NoImplication)
  end.

Definition public_message (kind : ErrorKind) : str :=
  match kind with
  | MissingCredential => lit "Configure credentials for this provider."
  | AuthenticationExpired => lit "Sign in again to continue."
  | PermissionDenied => lit "This account does not have permission for this provider."
  | RateLimited => lit "The provider asked us to slow down."
  | ProviderUnavailable => lit "The provider is currently unavailable."
  | Network => lit "The provider could not be reached."
  | Parse => lit "The provider returned an unsupported response."
  | Api => lit "The provider returned an unexpected response."
  end.

Definition public_code (kind : ErrorKind) : str :=
  match kind with
  | MissingCredential => lit "auth.missing"
  | AuthenticationExpired => lit "auth.expired"
  | PermissionDenied => lit "auth.permission_denied"
  | RateLimited => lit "provider.rate_limited"
  | ProviderUnavailable => lit "provider.unavailable"
  | Network => lit "provider.network"
  | Parse => lit "provider.parse"
  | Api => lit "provider.api"
  end.

Definition from_kind (kind : ErrorKind) (retry_after : option WindowDuration) : t :=
  let '(retry, auth_implication) := semantics kind in
  mk kind (BoundedText.expect (public_code kind)) (BoundedText.expect (public_message kind))
    retry auth_implication retry_after.

Definition new (kind : ErrorKind) : t := from_kind kind None.

Inductive error := RetryAfterNotAutomatic (kind : ErrorKind).

Definition with_retry_after (self : t) (retry_after : WindowDuration) : Result error t :=
  if negb (bool_decide (retry self = Automatic))
  then Err (RetryAfterNotAutomatic (kind self))
  else Ok (mk (kind self) (code self) (message self) (retry self) (auth_implication self)
             (Some retry_after)).

Definition without_personal_information (self : t) : t := self.
Definition public_projection (self : t) : t := without_personal_information self.

Inductive decode_error := ContradictsKind | RetryAfterRequiresAutomatic.

(** [Deserialize]: the wire value is already split into its fields. *)
Definition decode (wire : t) : Result decode_error t :=
  let decoded := from_kind (kind wire) (retry_after wire) in
  if negb (bool_decide (code decoded = code wire))
     || negb (bool_decide (message decoded = message wire))
     || negb (bool_decide (retry decoded = retry wire))
     || negb (bool_decide (auth_implication decoded = auth_implication wire))
  then Err ContradictsKind else
  if bool_decide (is_Some (retry_after decoded)) && negb (bool_decide (retry decoded = Automatic))
  then Err RetryAfterRequiresAutomatic else
  Ok decoded.

(** The errors that can exist: [new] of a class, with a retry delay only
    where the class retries automatically. *)
Definition wf (e : t) : Prop :=
  e = from_kind (kind e) (retry_after e) ∧
  (is_Some (retry_after e) → retry e = Automatic).
End ClassifiedError.
Notation ClassifiedError := ClassifiedError.t.

(** ** Freshness and refresh phase *)
Inductive Freshness := Fresh | Stale (since : Timestamp) | UnknownFreshness.
Inductive RefreshPhase := Idle | Scheduled (at_ : Timestamp) | Refreshing (started_at : Timestamp).
#[global] Instance Freshness_eq_dec : EqDecision Freshness.
Proof. solve_decision. Defined.
#[global] Instance RefreshPhase_eq_dec : EqDecision RefreshPhase.
Proof. solve_decision. Defined.
Definition is_fresh (f : Freshness) : bool := match f with Fresh => true | _ => false end.
Definition is_active (p : RefreshPhase) : bool := match p with Refreshing _ => true | _ => false end.

(** ** Theorems *)
Import ClassifiedError.

Lemma from_kind_retry k r : retry (from_kind k r) = (semantics k).1.
Proof. by destruct k. Qed.
Lemma from_kind_kind k r : kind (from_kind k r) = k.
Proof. by destruct k. Qed.
Lemma from_kind_retry_after k r : retry_after (from_kind k r) = r.
Proof. by destruct k. Qed.
Lemma new_error_wf k : ClassifiedError.wf (ClassifiedError.new k).
Proof. split; [by destruct k|]. by destruct k; intros [? ?]. Qed.

(** Decoding accepts exactly the errors the program can build and returns them
    unchanged: no payload can pair a class with foreign text or contradictory
    recovery semantics, and the fixed codes and messages satisfy their own text
    bounds. *)
Theorem classified_error_decode (wire e : ClassifiedError) :
  (decode wire = Ok e ↔ e = wire ∧ ClassifiedError.wf wire) ∧
  (∀ k, BoundedText.new (public_code k) = Ok (code (ClassifiedError.new k)) ∧
        BoundedText.new (public_message k) = Ok (message (ClassifiedError.new k))).
Proof.
  split; [|intros k; by destruct k].
  pose proof (from_kind_kind (kind wire) (retry_after wire)) as H5.
  pose proof (from_kind_retry_after (kind wire) (retry_after wire)) as H6.
  unfold decode, ClassifiedError.wf.
  set (d := from_kind (kind wire) (retry_after wire)) in *. clearbody d.
  split.
  - destruct (_ || _) eqn:Hc; [done|].
    destruct (bool_decide (is_Some (retry_after d)) && _) eqn:Hr; [done|]. intros [= <-].
    rewrite !orb_false_iff, !negb_false_iff, !bool_decide_eq_true in Hc.
    destruct Hc as [[[H1 H2] H3] H4].
    assert (d = wire) as -> by (clear Hr; destruct d, wire; cbn in *; congruence).
    split; [done|]. split; [done|]. intros Hs.
    by rewrite (bool_decide_eq_true_2 _ Hs), andb_true_l, negb_false_iff,
      bool_decide_eq_true in Hr.
  - intros (-> & <- & Hr).
    rewrite !bool_decide_eq_true_2 by done. cbn [negb orb].
    destruct (bool_decide_reflect (is_Some (retry_after wire))) as [Hs|]; [|done].
    by rewrite bool_decide_eq_true_2 by auto.
Qed.
Lemma classified_error_decode_witness :
  decode (ClassifiedError.mk Parse (BoundedText.expect (public_code Parse))
    (BoundedText.expect (public_message Parse)) Automatic NoImplication None)
  = Err ContradictsKind ∧
  decode (ClassifiedError.new Network) = Ok (ClassifiedError.new Network).
Proof.
  split; [vm_compute; reflexivity|].
  apply (proj1 (classified_error_decode (ClassifiedError.new Network) (ClassifiedError.new Network))).
  split; [done | apply new_error_wf].
Defined.

(** A retry delay can be attached exactly to the classes that retry
    automatically, and attaching it keeps the error well formed. *)
Theorem with_retry_after_spec (e : ClassifiedError) (w : WindowDuration) :
  ClassifiedError.wf e →
  match with_retry_after e w with
  | Ok e' => ClassifiedError.wf e' ∧ kind e' = kind e ∧ retry_after e' = Some w ∧
             (semantics (kind e)).1 = Automatic
  | Err (RetryAfterNotAutomatic k) => k = kind e ∧ (semantics (kind e)).1 ≠ Automatic
  end.
Proof.
  intros [He Hr]. assert (retry e = (semantics (kind e)).1) as Hs.
  { rewrite He at 1. apply from_kind_retry. }
  unfold with_retry_after. destruct (bool_decide_reflect (retry e = Automatic)) as [Ha|Ha]; cbn.
  - split_and!; [|done|done|congruence]. split; [|done]. cbn.
    destruct e as [k c m r a o]; cbn in *. clear -He.
    destruct k; cbn in He; injection He as -> -> -> ->; done.
  - split; [done|congruence].
Qed.
Lemma with_retry_after_spec_witness :
  ClassifiedError.wf (ClassifiedError.new Network) ∧
  match with_retry_after (ClassifiedError.new Network) (WindowDuration.mk 30) with
  | Ok e' => retry_after e' = Some (WindowDuration.mk 30)
  | Err _ => False
  end.
Proof.
  split; [apply new_error_wf|].
  pose proof (with_retry_after_spec (ClassifiedError.new Network) (WindowDuration.mk 30)
    (new_error_wf Network)) as H.
  vm_compute in H. vm_compute. apply H.
Defined.
