(* ===== verification/RateWindow.v ===== *)
(** * Quota lanes  (crates/domain/src/rate_window.rs)

    One provider quota lane, the named lanes beyond the three display slots,
    the backfill of a missing reset from the cached lane of the same account,
    and the projection of a lane for public surfaces. *)
From stdpp Require Import prelude.
From S2P Require Import Prelude Ordering Text Percentage Externals.
Local Open Scope Z_scope.

Definition MAX_NAMED_WINDOW_ID_LENGTH : Z := 128.
Definition MAX_WINDOW_TEXT_LENGTH : Z := 120.

Inductive WindowUsage :=
| Known (used_percent : UsagePercent)
| UnknownUsage.
#[global] Instance WindowUsage_eq_dec : EqDecision WindowUsage.
Proof. solve_decision. Defined.

Definition usage_used_percent (u : WindowUsage) : option UsagePercent :=
  match u with Known p => Some p | UnknownUsage => None end.
Definition usage_is_known (u : WindowUsage) : bool :=
  match u with Known _ => true | UnknownUsage => false end.

Inductive RateWindowValidationError :=
| SyntheticPlaceholderMustBeKnownZero
| DuplicateNamedWindowId.

Module RateWindow.
Record t := mk {
  usage : WindowUsage;
  duration : option WindowDuration;
  resets_at : option Timestamp;
  reset_description : option (BoundedText MAX_WINDOW_TEXT_LENGTH);
  next_regen_percent : option UsagePercent;
  synthetic_placeholder : bool;
}.
#[global] Instance eq_dec : EqDecision t.
Proof. solve_decision. Defined.

(** [matches!(usage, Known { used_percent } if used_percent.get() == 0.0)] *)
Definition usage_known_zero (u : WindowUsage) : bool :=
  match u with Known p => f64_eq (UsagePercent.get p) f64_zero | UnknownUsage => false end.

Definition new usage duration resets_at reset_description next_regen_percent
    (synthetic_placeholder : bool) : Result RateWindowValidationError t :=
  if synthetic_placeholder && negb (usage_known_zero usage)
  then Err SyntheticPlaceholderMustBeKnownZero
  else Ok (mk usage duration resets_at reset_description next_regen_percent
             synthetic_placeholder).

Definition used_percent (w : t) : option UsagePercent := usage_used_percent (usage w).
Definition remaining_percent (w : t) : option UsagePercent :=
  UsagePercent.remaining <$> used_percent w.

(** [self.x.or(cached.x)] *)
Definition or_else {A} (x y : option A) : option A :=
  match x with Some a => Some a | None => y end.

Definition backfilling_reset_time (self : t) (cached : option t) (now : Timestamp) : t :=
  if bool_decide (is_Some (resets_at self)) then self else
  match cached with
  | None => self
  | Some cached =>
      match resets_at cached with
      | None => self
      | Some cached_reset =>
          if Timestamp.leb cached_reset now then self else
          mk (usage self)
             (or_else (duration self) (duration cached))
             (Some cached_reset)
             (or_else (reset_description self) (reset_description cached))
             (next_regen_percent self)
             (synthetic_placeholder self)
      end
  end.

Definition without_personal_information (self : t) : t :=
  mk (usage self) (duration self) (resets_at self) None
     (next_regen_percent self) (synthetic_placeholder self).

(** The lanes [new] admits, over values their own constructors admit. *)
Definition wf (w : t) : Prop :=
  (synthetic_placeholder w = true → usage_known_zero (usage w) = true) ∧
  (∀ p, used_percent w = Some p → UsagePercent.wf p) ∧
  (∀ d, duration w = Some d → WindowDuration.wf d) ∧
  (∀ b, reset_description w = Some b → BoundedText.wf b).
End RateWindow.
Notation RateWindow := RateWindow.t.

Module NamedRateWindow.
Record t := mk {
  id : BoundedText MAX_NAMED_WINDOW_ID_LENGTH;
  title : BoundedText MAX_WINDOW_TEXT_LENGTH;
  window : RateWindow;
}.
#[global] Instance eq_dec : EqDecision t.
Proof. solve_decision. Defined.

Definition validate_unique_ids (windows : list t) : Result RateWindowValidationError unit :=
  if unique_b ((λ w, BoundedText.as_str (id w)) <$> windows) then Ok tt
  else Err DuplicateNamedWindowId.

Definition without_personal_information (self : t) (ordinal : Z) : t :=
  let ordinal := saturating_add usize_max ordinal 1 in
  mk (BoundedText.expect (lit "window-" ++ show_u64 ordinal))
     (BoundedText.expect (lit "Window " ++ show_u64 ordinal))
     (RateWindow.without_personal_information (window self)).

Definition public_projection (windows : list t) : list t :=
  imap (λ ordinal w, without_personal_information w (Z.of_nat ordinal)) windows.

Definition wf (n : t) : Prop :=
  BoundedText.wf (id n) ∧ BoundedText.wf (title n) ∧ RateWindow.wf (window n).
End NamedRateWindow.
Notation NamedRateWindow := NamedRateWindow.t.

(** ** Generated public labels *)

Lemma saturating_ordinal_range ordinal :
  0 ≤ ordinal → 0 ≤ saturating_add usize_max ordinal 1 ≤ u64_max.
Proof. unfold saturating_add, usize_max, u64_max. lia. Qed.

(** A fixed prefix followed by a decimal ordinal is accepted as bounded text. *)
Lemma new_ordinal_label M (prefix : str) n :
  (∃ c k, prefix = c :: k ∧ is_whitespace c = false) →
  Forall (λ c, 32 ≤ c ≤ 126) prefix → Z.of_nat (length prefix) + 20 ≤ M →
  BoundedText.new (prefix ++ show_u64 n) = Ok (BoundedText.mk (MAX_BYTES:=M) (prefix ++ show_u64 n)).
Proof.
  intros (c & k & -> & Hc) Hp Hl.
  apply (BoundedTextFacts.new_as_str M (BoundedText.mk _)).
  pose proof (show_u64_digits n) as Hd. pose proof (show_u64_length n) as Hlen.
  assert (Forall (λ c, 32 ≤ c ≤ 126) ((c :: k) ++ show_u64 n)) as Hall.
  { apply Forall_app. split; [done|]. eapply Forall_impl; [exact Hd|].
    intros d Hdd%is_ascii_digit_range. lia. }
  unfold BoundedText.wf; cbn [BoundedText.as_str]. split_and!.
  - done.
  - apply trim_graphic.
    + by intros c' k' [= -> _].
    + intros d k' E. destruct (exists_last (show_u64_nonempty n)) as (l & y & Es).
      rewrite Es in E, Hd.
      change ((c :: k) ++ l ++ [y] = k' ++ [d]) in E. rewrite app_assoc in E. apply app_inj_tail in E as [_ <-].
      apply Forall_app in Hd as [_ Hd]. apply Forall_cons in Hd as [Hd _].
      by apply graphic_not_whitespace, digit_graphic.
  - apply find_char_None. eapply Forall_impl; [exact Hall|]. apply graphic_not_control.
  - change (str_len ((c :: k) ++ show_u64 n) ≤ M). rewrite str_len_ascii.
    + rewrite length_app. lia.
    + eapply Forall_impl; [exact Hall|]. cbn. lia.
Qed.

Lemma expect_ordinal_label M (prefix : str) n :
  (∃ c k, prefix = c :: k ∧ is_whitespace c = false) →
  Forall (λ c, 32 ≤ c ≤ 126) prefix → Z.of_nat (length prefix) + 20 ≤ M →
  BoundedText.expect (prefix ++ show_u64 n) = BoundedText.mk (MAX_BYTES:=M) (prefix ++ show_u64 n).
Proof. intros. unfold BoundedText.expect. by rewrite new_ordinal_label. Qed.

Ltac ordinal_label :=
  rewrite expect_ordinal_label;
  [ | by eexists _, _ | by_decide | vm_compute; discriminate ].

(** ** Theorems *)
Import RateWindow.

Lemma new_window_wf u d r t n s w :
  RateWindow.new u d r t n s = Ok w →
  (∀ p, u = Known p → UsagePercent.wf p) → (∀ x, d = Some x → WindowDuration.wf x) →
  (∀ b, t = Some b → BoundedText.wf b) → RateWindow.wf w.
Proof.
  unfold RateWindow.new. destruct (s && negb (usage_known_zero u)) eqn:E; [done|].
  intros [= <-] Hu Hd Ht. unfold RateWindow.wf, used_percent; cbn. split_and!; [|..].
  - intros ->. by destruct (usage_known_zero u).
  - intros p. destruct u; cbn; naive_solver.
  - done.
  - done.
Qed.

Lemma backfill_usage w c now :
  usage (backfilling_reset_time w c now) = usage w ∧
  next_regen_percent (backfilling_reset_time w c now) = next_regen_percent w ∧
  synthetic_placeholder (backfilling_reset_time w c now) = synthetic_placeholder w.
Proof. unfold backfilling_reset_time. repeat case_match; done. Qed.

Lemma backfill_resets_at w c now :
  resets_at (backfilling_reset_time w c now) =
  match resets_at w, c ≫= resets_at with
  | Some r, _ => Some r
  | None, Some r => if Timestamp.leb r now then None else Some r
  | None, None => None
  end.
Proof.
  unfold backfilling_reset_time. destruct (resets_at w) eqn:E; cbn; [done|].
  destruct c as [c|]; cbn; [|done]. destruct (resets_at c); cbn; [|done].
  by destruct (Timestamp.leb _ _).
Qed.

Lemma backfill_wf w c now :
  RateWindow.wf w → (∀ x, c = Some x → RateWindow.wf x) →
  RateWindow.wf (backfilling_reset_time w c now).
Proof.
  intros (H1 & H2 & H3 & H4) Hc. unfold backfilling_reset_time.
  destruct (bool_decide _); [done|]. destruct c as [c|]; [|done].
  destruct (resets_at c); [|done]. destruct (Timestamp.leb _ _); [done|].
  destruct (Hc c eq_refl) as (_ & _ & H3' & H4').
  unfold RateWindow.wf, used_percent; cbn. split_and!; [done|done| |].
  - destruct (duration w); cbn; eauto.
  - destruct (reset_description w); cbn; eauto.
Qed.

Lemma backfill_idemp w cached now :
  backfilling_reset_time (backfilling_reset_time w cached now) cached now =
  backfilling_reset_time w cached now.
Proof.
  set (r := backfilling_reset_time w cached now). destruct (resets_at r) eqn:Er.
  - unfold backfilling_reset_time at 1. by rewrite bool_decide_eq_true_2 by (rewrite ?Er; eauto).
  - assert (r = w) as Hr.
    { subst r. rewrite backfill_resets_at in Er. unfold backfilling_reset_time.
      destruct (resets_at w) eqn:Ew; [done|].
      rewrite bool_decide_eq_false_2 by (intros [? [=]]).
      destruct cached as [c|]; [|done]. cbn in Er. destruct (resets_at c); [|done].
      by destruct (Timestamp.leb _ _). }
    by rewrite Hr at 1.
Qed.

(** Backfilling a lane from the cached lane never changes the measured usage,
    the regeneration figure or the placeholder marker; a reset the provider did
    report is kept; a missing one is filled exactly by a cached reset still in
    the future, and then duration and description are filled only where absent.
    Backfilling again from the same cache changes nothing. *)
Theorem backfill_spec (w : RateWindow) (cached : option RateWindow) (now : Timestamp) :
  let r := backfilling_reset_time w cached now in
  (usage r = usage w ∧ next_regen_percent r = next_regen_percent w ∧
   synthetic_placeholder r = synthetic_placeholder w) ∧
  (r = w ∨ ∃ c t, cached = Some c ∧ resets_at w = None ∧ resets_at c = Some t ∧
     Timestamp.nanos now < Timestamp.nanos t ∧ resets_at r = Some t ∧
     duration r = or_else (duration w) (duration c) ∧
     reset_description r = or_else (reset_description w) (reset_description c)) ∧
  (∀ c t, cached = Some c → resets_at w = None → resets_at c = Some t →
     Timestamp.nanos now < Timestamp.nanos t → resets_at r = Some t) ∧
  backfilling_reset_time r cached now = r.
Proof.
  intros r. split_and!.
  - apply backfill_usage.
  - apply backfill_usage.
  - apply backfill_usage.
  - subst r. unfold backfilling_reset_time at 1. destruct (resets_at w) eqn:Ew; [by left|].
    destruct cached as [c|]; [|by left]. destruct (resets_at c) as [t|] eqn:Ec; [|by left].
    cbn [is_Some]. rewrite bool_decide_eq_false_2 by (intros [? [=]]).
    destruct (Timestamp.leb t now) eqn:Et; [by left|].
    right. exists c, t. unfold backfilling_reset_time.
    rewrite Ew, bool_decide_eq_false_2 by (intros [? [=]]). rewrite Ec, Et.
    split_and!; try done. unfold Timestamp.leb in Et. lia.
  - intros c t -> Ew Ec Ht. subst r. rewrite backfill_resets_at, Ew. cbn. rewrite Ec.
    unfold Timestamp.leb. by rewrite (proj2 (Z.leb_gt _ _)).
  - apply backfill_idemp.
Qed.

(** The public projection of named lanes replaces every provider-chosen id,
    title and reset text by labels that depend only on the position, keeps the
    quota mechanics, always succeeds in building its labels, and yields distinct
    ids: projecting never merges two lanes. *)
Theorem named_projection_public (ws : list NamedRateWindow) :
  (length ws ≤ 64)%nat →
  let ps := NamedRateWindow.public_projection ws in
  length ps = length ws ∧
  (∀ i w, ws !! i = Some w → ∃ p, ps !! i = Some p ∧
     BoundedText.as_str (NamedRateWindow.id p) = lit "window-" ++ show_u64 (Z.of_nat i + 1) ∧
     BoundedText.as_str (NamedRateWindow.title p) = lit "Window " ++ show_u64 (Z.of_nat i + 1) ∧
     NamedRateWindow.window p = without_personal_information (NamedRateWindow.window w)) ∧
  NamedRateWindow.validate_unique_ids ps = Ok tt.
Proof.
  intros Hlen ps. unfold ps, NamedRateWindow.public_projection.
  assert (∀ i w, ws !! i = Some w → saturating_add usize_max (Z.of_nat i) 1 = Z.of_nat i + 1) as Hs.
  { intros i w Hi%lookup_lt_Some. unfold saturating_add, usize_max, u64_max. lia. }
  split_and!.
  - apply length_imap.
  - intros i w Hi. rewrite list_lookup_imap, Hi. eexists. split; [done|].
    unfold NamedRateWindow.without_personal_information. rewrite (Hs i w Hi).
    cbn [NamedRateWindow.id NamedRateWindow.title NamedRateWindow.window].
    split_and!; [by ordinal_label | by ordinal_label | done].
  - unfold NamedRateWindow.validate_unique_ids. rewrite (proj2 (unique_b_spec _)); [done|].
    apply NoDup_alt. intros i j x.
    rewrite !list_lookup_fmap, !list_lookup_imap, !fmap_Some.
    intros (p & Hi & ->) (q & Hj & Eq).
    apply fmap_Some in Hi as (w & Hi & ->), Hj as (v & Hj & ->).
    unfold NamedRateWindow.without_personal_information in Eq.
    rewrite (Hs _ _ Hi), (Hs _ _ Hj) in Eq. cbn [NamedRateWindow.id] in Eq.
    revert Eq. ordinal_label. ordinal_label. cbn [BoundedText.as_str].
    intros E%app_inv_head. apply show_u64_inj in E; [lia|..];
      apply lookup_lt_Some in Hi, Hj; unfold u64_max; lia.
Qed.

Definition lane_example : RateWindow :=
  RateWindow.mk (Known (UsagePercent.mk (f64_of_Z 62))) None None None None false.

Lemma named_projection_public_witness :
  NamedRateWindow.validate_unique_ids (NamedRateWindow.public_projection
    [NamedRateWindow.mk (BoundedText.mk (lit "ada")) (BoundedText.mk (lit "Ada")) lane_example;
     NamedRateWindow.mk (BoundedText.mk (lit "bob")) (BoundedText.mk (lit "Bob")) lane_example])
  = Ok tt.
Proof. apply named_projection_public. cbn. lia. Defined.
