(* ===== verification/Money.v ===== *)
(** * Exact amounts  (crates/domain/src/money.rs)

    Exact decimals over the [rust_decimal] interface, currency codes, provider
    units and the amounts measured in either. *)
From stdpp Require Import prelude.
From S2P Require Import Prelude Ordering Text Externals.
Local Open Scope Z_scope.

Definition MAX_PROVIDER_UNIT_BYTES : Z := 32.
Definition MAX_QUANTITY_UNIT_BYTES : Z := 32.

Module ExactDecimal.
Section exact.
Context `{DecimalCrate}.
Record t := mk { get : Decimal }.
Inductive error := Empty | SurroundingWhitespace | Invalid.
#[global] Instance eq_dec : EqDecision t.
Proof. solve_decision. Defined.
#[global] Instance t_Cmp : Cmp t := cmp_on get.

Definition new (value : Decimal) : t := mk (decimal_normalize value).
(** Also [FromStr] and [Deserialize]. *)
Definition parse (value : str) : Result error t :=
  if is_empty value then Err Empty else
  if negb (bool_decide (value = trim value)) then Err SurroundingWhitespace else
  new <$> ok_or (decimal_from_str value) Invalid.
(** [Display] and [Serialize]. *)
Definition to_string (self : t) : str := decimal_to_string (get self).
(** The values [new] can produce. *)
Definition wf (d : t) : Prop := decimal_normalize (get d) = get d.
(** [value.get().is_sign_negative()] *)
Definition is_sign_negative (d : t) : bool := decimal_is_sign_negative (get d).
(** [value.get() < Decimal::ZERO] *)
Definition is_negative (d : t) : bool := cmp_lt (get d) decimal_zero.
End exact.
End ExactDecimal.
Notation ExactDecimal := ExactDecimal.t.
Arguments ExactDecimal.t {_}.
Arguments ExactDecimal.mk {_} _.

Module CurrencyCode.
Record t := mk { as_str : str }.
Inductive error := SurroundingWhitespace | Invalid.
#[global] Instance eq_dec : EqDecision t.
Proof. solve_decision. Defined.
Definition new (value : str) : Result error t :=
  if negb (bool_decide (value = trim value)) then Err SurroundingWhitespace else
  if negb (str_len value =? 3) || negb (forallb is_ascii_alphabetic value) then Err Invalid else
  Ok (mk (to_ascii_uppercase <$> value)).
Definition wf (c : t) : Prop :=
  length (as_str c) = 3%nat ∧ Forall (λ x, is_ascii_upper x = true) (as_str c).
End CurrencyCode.
Notation CurrencyCode := CurrencyCode.t.

Definition ProviderUnit := BoundedText MAX_PROVIDER_UNIT_BYTES.

Inductive CostUnit :=
| Currency (currency : CurrencyCode)
| Provider (unit : ProviderUnit).
#[global] Instance CostUnit_eq_dec : EqDecision CostUnit.
Proof. unfold EqDecision, Decision. decide equality; [apply CurrencyCode.eq_dec | apply BoundedText.eq_dec]. Defined.

Module CostUnitOps.
Definition provider (value : str) : Result BoundedText.error CostUnit :=
  Provider <$> BoundedText.new value.
Definition as_str (u : CostUnit) : str :=
  match u with
  | Currency currency => CurrencyCode.as_str currency
  | Provider unit => BoundedText.as_str unit
  end.
Definition without_personal_information (u : CostUnit) : CostUnit :=
  match u with
  | Currency currency => Currency currency
  | Provider _ => Provider (BoundedText.expect (lit "credits"))
  end.
End CostUnitOps.

Section amounts.
Context `{DecimalCrate}.

Record Money := mk_money { money_amount : ExactDecimal; money_currency : CurrencyCode }.
#[global] Instance Money_eq_dec : EqDecision Money.
Proof. solve_decision. Defined.

Record CostAmount := mk_cost_amount { cost_amount : ExactDecimal; cost_unit : CostUnit }.
#[global] Instance CostAmount_eq_dec : EqDecision CostAmount.
Proof. solve_decision. Defined.

(** [From<Money>] *)
Definition cost_amount_of_money (m : Money) : CostAmount :=
  mk_cost_amount (money_amount m) (Currency (money_currency m)).

Definition cost_amount_provider (amount : ExactDecimal) (unit : str) :
    Result BoundedText.error CostAmount :=
  u ← CostUnitOps.provider unit; Ok (mk_cost_amount amount u).

Definition cost_amount_without_personal_information (a : CostAmount) : CostAmount :=
  mk_cost_amount (cost_amount a) (CostUnitOps.without_personal_information (cost_unit a)).

(** The wire form: exactly one of the two unit fields. *)
Record CostAmountRepr := mk_cost_amount_repr {
  repr_amount : ExactDecimal;
  repr_currency : option CurrencyCode;
  repr_provider_unit : option ProviderUnit;
}.
Inductive CostAmountValidationError := MissingUnit | AmbiguousUnit.

Definition cost_amount_serialize (a : CostAmount) : CostAmountRepr :=
  match cost_unit a with
  | Currency currency => mk_cost_amount_repr (cost_amount a) (Some currency) None
  | Provider unit => mk_cost_amount_repr (cost_amount a) None (Some unit)
  end.
Definition cost_amount_deserialize (repr : CostAmountRepr) :
    Result CostAmountValidationError CostAmount :=
  unit ← match repr_currency repr, repr_provider_unit repr with
         | Some currency, None => Ok (Currency currency)
         | None, Some unit => Ok (Provider unit)
         | None, None => Err MissingUnit
         | Some _, Some _ => Err AmbiguousUnit
         end;
  Ok (mk_cost_amount (repr_amount repr) unit).

Record Quantity := mk_quantity {
  quantity_amount : ExactDecimal;
  quantity_unit : BoundedText MAX_QUANTITY_UNIT_BYTES;
}.
Definition quantity_new (amount : ExactDecimal) (unit : str) : Result BoundedText.error Quantity :=
  unit ← BoundedText.new unit; Ok (mk_quantity amount unit).
End amounts.

(** ** Theorems *)

Lemma currency_new_wf s c : CurrencyCode.new s = Ok c → CurrencyCode.wf c.
Proof.
  unfold CurrencyCode.new, CurrencyCode.wf. case_bool_decide; [|done]. cbn [negb].
  destruct (Z.eqb_spec (str_len s) 3) as [Hl|]; [|done].
  destruct (forallb is_ascii_alphabetic s) eqn:Ha; [|done]. intros [= <-]. cbn.
  apply forallb_Forall_eq in Ha.
  assert (∀ x, is_ascii_alphabetic x = true → 65 ≤ x ≤ 90 ∨ 97 ≤ x ≤ 122) as Hx.
  { intros x. unfold is_ascii_alphabetic, is_ascii_lower, is_ascii_upper.
    rewrite orb_true_iff, !andb_true_iff, !Z.leb_le. lia. }
  split.
  - rewrite length_fmap. rewrite str_len_ascii in Hl; [lia|].
    eapply Forall_impl; [exact Ha|]. cbn. intros x ?%Hx. lia.
  - apply Forall_fmap. eapply Forall_impl; [exact Ha|]. intros x Hxa. cbn.
    unfold to_ascii_uppercase, is_ascii_upper. apply Hx in Hxa.
    unfold is_ascii_lower. destruct (Z.leb_spec 97 x), (Z.leb_spec x 122); cbn [andb];
      rewrite andb_true_iff, !Z.leb_le; lia.
Qed.

Lemma currency_new_as_str c : CurrencyCode.wf c → CurrencyCode.new (CurrencyCode.as_str c) = Ok c.
Proof.
  intros [Hl Hu]. unfold CurrencyCode.new.
  assert (∀ x, is_ascii_upper x = true → 65 ≤ x ≤ 90) as Hx.
  { intros x. unfold is_ascii_upper. rewrite andb_true_iff, !Z.leb_le. done. }
  rewrite bool_decide_eq_true_2.
  2: { symmetry. apply trim_ascii_graphic. eapply Forall_impl; [exact Hu|].
       intros x ?%Hx. unfold is_ascii_graphic. rewrite andb_true_iff, !Z.leb_le. lia. }
  rewrite str_len_ascii by (eapply Forall_impl; [exact Hu|]; intros x ?%Hx; cbn; lia).
  rewrite Hl. cbn [negb]. change (Z.of_nat 3 =? 3) with true. cbn [negb orb].
  rewrite (proj2 (forallb_Forall_eq _ _)).
  2: { eapply Forall_impl; [exact Hu|]. intros x Hxu. unfold is_ascii_alphabetic.
       by rewrite Hxu, orb_true_r. }
  cbn [negb]. f_equal. destruct c as [s]; cbn in *. f_equal.
  clear Hl. induction Hu as [|x s Hxu _ IH]; [done|]. cbn. f_equal; [|done].
  unfold to_ascii_uppercase, is_ascii_lower. apply Hx in Hxu.
  destruct (Z.leb_spec 97 x); [lia|done].
Qed.

Section decimal_facts.
Context `{DecimalCrateLaws}.
Lemma exact_new_wf d : ExactDecimal.wf (ExactDecimal.new d).
Proof. unfold ExactDecimal.wf, ExactDecimal.new; cbn. apply decimal_normalize_idemp. Qed.
Lemma exact_parse_wf s d : ExactDecimal.parse s = Ok d → ExactDecimal.wf d.
Proof.
  unfold ExactDecimal.parse. repeat case_match; try done.
  intros (x & _ & <-)%fmap_Ok. apply exact_new_wf.
Qed.
Lemma exact_parse_print d : ExactDecimal.wf d → ExactDecimal.parse (ExactDecimal.to_string d) = Ok d.
Proof.
  intros Hd. unfold ExactDecimal.parse, ExactDecimal.to_string.
  destruct (decimal_print_trim (ExactDecimal.get d)) as [Hne Ht].
  replace (is_empty _) with false by by destruct (decimal_to_string _).
  rewrite bool_decide_eq_true_2 by done. cbn [negb].
  rewrite decimal_parse_print by exact Hd. cbn. f_equal. destruct d as [d]; cbn in *.
  unfold ExactDecimal.new. by rewrite Hd.
Qed.
End decimal_facts.

(** Amounts survive the wire: a normalized decimal, a currency code and a
    cost amount each decode from their own encoding to themselves; decoding an
    amount succeeds exactly when one of the two unit fields is present, so a
    currency and a provider unit are never conflated. *)
Theorem amounts_roundtrip `{DecimalCrateLaws} (d : ExactDecimal) (c : CurrencyCode)
    (a : CostAmount) (r : CostAmountRepr) :
  (ExactDecimal.wf d → ExactDecimal.parse (ExactDecimal.to_string d) = Ok d) ∧
  (CurrencyCode.wf c → CurrencyCode.new (CurrencyCode.as_str c) = Ok c) ∧
  cost_amount_deserialize (cost_amount_serialize a) = Ok a ∧
  (∀ a', cost_amount_deserialize r = Ok a' → cost_amount_serialize a' = r) ∧
  (is_ok (cost_amount_deserialize r) =
   xorb (bool_decide (is_Some (repr_currency r))) (bool_decide (is_Some (repr_provider_unit r)))).
Proof.
  split_and!.
  - apply exact_parse_print.
  - apply currency_new_as_str.
  - by destruct a as [? []].
  - destruct r as [x [cc|] [u|]]; cbn; naive_solver.
  - by destruct r as [x [cc|] [u|]].
Qed.
Lemma amounts_roundtrip_witness :
  @ExactDecimal.parse Reference.decimal (lit "-125")
  = Ok (@ExactDecimal.mk Reference.decimal (-125)).
Proof.
  apply (proj1 (@amounts_roundtrip Reference.decimal Reference.decimal_laws
    (@ExactDecimal.mk Reference.decimal (-125)) (CurrencyCode.mk (lit "USD"))
    (mk_cost_amount (@ExactDecimal.mk Reference.decimal 0) (Currency (CurrencyCode.mk (lit "USD"))))
    (mk_cost_amount_repr (@ExactDecimal.mk Reference.decimal 0) None None)) eq_refl).
Defined.
