(* ===== verification/Status.v ===== *)
(** * Provider status  (crates/domain/src/status.rs)

    Service health, the incident feed and the component tree of a provider,
    with the normalization that gives every payload one deterministic shape. *)
From stdpp Require Import prelude.
From S2P Require Import Prelude Ordering Text Externals.
Local Open Scope Z_scope.

Definition MAX_STATUS_DESCRIPTION_LENGTH : Z := 512.
Definition MAX_INCIDENT_ID_LENGTH : Z := 128.
Definition MAX_INCIDENT_TITLE_LENGTH : Z := 256.
Definition MAX_INCIDENTS_PER_PROVIDER : Z := 64.
Definition MAX_STATUS_COMPONENT_ID_LENGTH : Z := 128.
Definition MAX_STATUS_COMPONENT_NAME_LENGTH : Z := 256.
Definition MAX_STATUS_COMPONENT_RAW_STATUS_LENGTH : Z := 120.
Definition MAX_STATUS_COMPONENTS_PER_PROVIDER : Z := 64.
Definition MAX_STATUS_COMPONENT_DEPTH : nat := 4.

Inductive ProviderHealth :=
| Operational | Degraded | PartialOutage | MajorOutage | Critical | Maintenance | UnknownHealth.
#[global] Instance ProviderHealth_eq_dec : EqDecision ProviderHealth.
Proof. solve_decision. Defined.
Definition health_index (h : ProviderHealth) : Z :=
  match h with
  | Operational => 0 | Degraded => 1 | PartialOutage => 2 | MajorOutage => 3
  | Critical => 4 | Maintenance => 5 | UnknownHealth => 6
  end.
#[global] Instance health_index_inj : Inj (=) (=) health_index.
Proof. by intros [] []. Qed.
#[global] Instance ProviderHealth_Cmp : Cmp ProviderHealth := cmp_on health_index.
#[global] Instance ProviderHealth_CmpLaws : CmpLaws ProviderHealth.
Proof. apply cmp_on_laws, _. Qed.

Inductive ProviderStatusValidationError :=
| TooManyIncidents (actual maximum : Z)
| DuplicateIncidentId
| TooManyComponents (actual maximum : Z)
| ComponentDepthExceeded (maximum : nat)
| DuplicateComponentId
| InvalidIncidentTimeline.

Module ProviderIncident.
Record t := mk {
  id : BoundedText MAX_INCIDENT_ID_LENGTH;
  title : BoundedText MAX_INCIDENT_TITLE_LENGTH;
  health : ProviderHealth;
  started_at : option Timestamp;
  updated_at : option Timestamp;
  resolved_at : option Timestamp;
  description : option (BoundedText MAX_STATUS_DESCRIPTION_LENGTH);
}.
#[global] Instance eq_dec : EqDecision t.
Proof. solve_decision. Defined.

(** [b.is_some_and(|b| a.is_some_and(|a| b < a))] *)
Definition precedes (b a : option Timestamp) : bool :=
  match b, a with Some b, Some a => Timestamp.ltb b a | _, _ => false end.

Definition new id title health started_at updated_at resolved_at description :
    Result ProviderStatusValidationError t :=
  if precedes updated_at started_at || precedes resolved_at started_at
     || precedes resolved_at updated_at
  then Err InvalidIncidentTimeline
  else Ok (mk id title health started_at updated_at resolved_at description).

(** The hand-written [Ord]: latest update, then latest start, then the rest. *)
Definition key (i : t) :=
  (mk_reverse (updated_at i), (mk_reverse (started_at i), (id i, (title i,
    (health i, (resolved_at i, description i)))))).
#[global] Instance key_inj : Inj (=) (=) key.
Proof. intros [] [] [=]; cbn in *; congruence. Qed.
#[global] Instance t_Cmp : Cmp t := cmp_on key.
#[global] Instance t_CmpLaws : CmpLaws t.
Proof. apply cmp_on_laws, _. Qed.
End ProviderIncident.
Notation ProviderIncident := ProviderIncident.t.

Module StatusComponent.
Inductive t := mk
  (id : BoundedText MAX_STATUS_COMPONENT_ID_LENGTH)
  (name : BoundedText MAX_STATUS_COMPONENT_NAME_LENGTH)
  (health : ProviderHealth)
  (raw_status : BoundedText MAX_STATUS_COMPONENT_RAW_STATUS_LENGTH)
  (children : list t).
Definition id (c : t) := let 'mk i _ _ _ _ := c in i.
Definition name (c : t) := let 'mk _ n _ _ _ := c in n.
Definition health (c : t) := let 'mk _ _ h _ _ := c in h.
Definition raw_status (c : t) := let 'mk _ _ _ r _ := c in r.
Definition children (c : t) := let 'mk _ _ _ _ cs := c in cs.
Definition id_str (c : t) : str := BoundedText.as_str (id c).
Definition with_children (c : t) (cs : list t) : t :=
  mk (id c) (name c) (health c) (raw_status c) cs.

#[global] Instance eq_dec : EqDecision t.
Proof.
  refine (fix go (x y : t) : Decision (x = y) :=
    match x, y with
    | mk i n h r cs, mk i' n' h' r' cs' =>
        let _ : EqDecision t := go in
        match decide ((i, n, h, r) = (i', n', h', r')), list_eq_dec cs cs' with
        | left E1, left E2 => left _
        | right E1, _ => right _
        | _, right E2 => right _
        end
    end); abstract congruence.
Defined.

(** The derived-by-hand [Ord]: id, name, health, raw status, children. *)
Fixpoint compare (x y : t) : comparison :=
  match x, y with
  | mk i n h r cs, mk i' n' h' r' cs' =>
      then_ (cmp i i') (then_ (cmp n n') (then_ (cmp h h') (then_ (cmp r r')
        ((fix go (l k : list t) : comparison :=
            match l, k with
            | [], [] => Eq | [], _ :: _ => Lt | _ :: _, [] => Gt
            | a :: l, b :: k => then_ (compare a b) (go l k)
            end) cs cs'))))
  end.
End StatusComponent.
Notation StatusComponent := StatusComponent.t.

(** ** [normalize_component_level]

    The recursion stops where [depth] passes the maximum; [levels] counts the
    levels still allowed, so [depth > MAX_STATUS_COMPONENT_DEPTH] is
    [levels = 0].  The running [count] and the [ids] seen so far are threaded
    as the code threads its [&mut] arguments. *)
Section normalize.
Import StatusComponent.
Definition level_state : Type := Z * list str.

Fixpoint normalize_each
    (descend : list t → level_state → Result ProviderStatusValidationError (list t * level_state))
    (components : list t) (st : level_state) :
    Result ProviderStatusValidationError (list t * level_state) :=
  match components with
  | [] => Ok ([], st)
  | c :: rest =>
      let '(count, ids) := st in
      let count := count + 1 in
      if MAX_STATUS_COMPONENTS_PER_PROVIDER <? count
      then Err (TooManyComponents count MAX_STATUS_COMPONENTS_PER_PROVIDER) else
      if bool_decide (id_str c ∈ ids) then Err DuplicateComponentId else
      '(children', st) ← descend (children c) (count, id_str c :: ids);
      '(rest', st) ← normalize_each descend rest st;
      Ok (with_children c children' :: rest', st)
  end.

Fixpoint normalize_component_level (levels : nat) (components : list t) (st : level_state) :
    Result ProviderStatusValidationError (list t * level_state) :=
  match components with
  | [] => Ok ([], st)
  | _ =>
      match levels with
      | O => Err (ComponentDepthExceeded MAX_STATUS_COMPONENT_DEPTH)
      | S levels =>
          '(components, st) ← normalize_each (normalize_component_level levels) components st;
          Ok (sort_by compare components, st)
      end
  end.

Definition normalize_components (components : list t) :
    Result ProviderStatusValidationError (list t) :=
  fst <$> normalize_component_level MAX_STATUS_COMPONENT_DEPTH components (0, []).

(** [StatusComponent::new] *)
Definition component_new id name health raw_status (children : list t) :
    Result ProviderStatusValidationError t :=
  children ← normalize_components children;
  singleton ← normalize_components [mk id name health raw_status children];
  match singleton with
  | [component] => Ok component
  | _ => Ok (mk id name health raw_status children)
  end.
End normalize.

Module ProviderStatus.
Record t := mk {
  health : ProviderHealth;
  description : option (BoundedText MAX_STATUS_DESCRIPTION_LENGTH);
  checked_at : option Timestamp;
  incidents : list ProviderIncident;
  components : list StatusComponent;
}.
#[global] Instance eq_dec : EqDecision t.
Proof. solve_decision. Defined.

Definition with_components health description checked_at
    (incidents : list ProviderIncident) (components : list StatusComponent) :
    Result ProviderStatusValidationError t :=
  if MAX_INCIDENTS_PER_PROVIDER <? Z.of_nat (length incidents)
  then Err (TooManyIncidents (Z.of_nat (length incidents)) MAX_INCIDENTS_PER_PROVIDER) else
  if negb (unique_b ((λ i, BoundedText.as_str (ProviderIncident.id i)) <$> incidents))
  then Err DuplicateIncidentId else
  let incidents := sort_by_key (λ i, i) incidents in
  components ← normalize_components components;
  Ok (mk health description checked_at incidents components).

Definition new health description checked_at incidents :=
  with_components health description checked_at incidents [].

Definition without_personal_information (self : t) : t :=
  mk (health self) None (checked_at self) [] [].
End ProviderStatus.
Notation ProviderStatus := ProviderStatus.t.

(** ** What a normalized tree is *)
Import StatusComponent.

(** At most [levels] levels deep. *)
Fixpoint fits (levels : nat) (cs : list StatusComponent) : Prop :=
  match levels with
  | O => cs = []
  | S n => Forall (λ c, fits n (children c)) cs
  end.
(** The ids of a forest of at most [levels] levels, parents first. *)
Fixpoint forest_ids (levels : nat) (cs : list StatusComponent) : list str :=
  match levels with
  | O => []
  | S n => cs ≫= λ c, id_str c :: forest_ids n (children c)
  end.
(** Siblings in strictly increasing id order on every level. *)
Fixpoint canonical (levels : nat) (cs : list StatusComponent) : Prop :=
  match levels with
  | O => cs = []
  | S n => strictly_sorted id_str cs ∧ Forall (λ c, canonical n (children c)) cs
  end.
(** The same tree up to the order of siblings. *)
Fixpoint same_forest (levels : nat) (cs ds : list StatusComponent) : Prop :=
  match levels with
  | O => cs = [] ∧ ds = []
  | S n => ∃ es, es ≡ₚ ds ∧
      Forall2 (λ c e, with_children c [] = with_children e [] ∧
                      same_forest n (children c) (children e)) cs es
  end.

Lemma forest_ids_roots n cs x : x ∈ (id_str <$> cs) → x ∈ forest_ids (S n) cs.
Proof.
  intros (c & -> & Hc)%list_elem_of_fmap. cbn. apply list_elem_of_bind.
  exists c. split; [left | done].
Qed.
Lemma forest_ids_cons n c cs :
  forest_ids (S n) (c :: cs) = id_str c :: forest_ids n (children c) ++ forest_ids (S n) cs.
Proof. reflexivity. Qed.
Lemma forest_ids_nil n : forest_ids n [] = [].
Proof. by destruct n. Qed.
Lemma forest_NoDup_roots n cs : NoDup (forest_ids (S n) cs) → NoDup (id_str <$> cs).
Proof.
  induction cs as [|c cs IH]; [constructor|]. rewrite forest_ids_cons.
  intros [Hnin Hnd]%NoDup_cons. rewrite fmap_cons. apply NoDup_app in Hnd as (_ & _ & Hnd).
  constructor; [|by apply IH]. intros Hin. apply Hnin, elem_of_app. right.
  by apply forest_ids_roots.
Qed.
Lemma with_children_label c ds cs' : with_children (with_children c ds) cs' = with_children c cs'.
Proof. by destruct c. Qed.
Lemma id_with_children c ds : id_str (with_children c ds) = id_str c.
Proof. by destruct c. Qed.
Lemma children_with_children c ds : children (with_children c ds) = ds.
Proof. by destruct c. Qed.
Lemma with_own_children c : with_children c (children c) = c.
Proof. by destruct c. Qed.

(** The hand-written order agrees with the id order where ids differ. *)
Lemma compare_by_id x y :
  id_str x ≠ id_str y → le_by compare x y = le_by (cmp_on id_str) x y.
Proof.
  destruct x as [i n h r cs], y as [i' n' h' r' cs']. unfold id_str, id. intros Hne.
  unfold le_by, cmp_on. cbn. change (cmp i i') with (cmp (BoundedText.as_str i) (BoundedText.as_str i')).
  destruct (cmp (BoundedText.as_str i) _) eqn:E; [|done|done].
  by apply cmp_eq in E.
Qed.
Lemma sort_components cs :
  NoDup (id_str <$> cs) → sort_by compare cs = sort_by_key id_str cs.
Proof. apply sort_by_ext. apply compare_by_id. Qed.

Lemma perm_shuffle {A} (x : A) (a b l : list A) :
  a ++ b ++ x :: l ≡ₚ (x :: b ++ a) ++ l.
Proof.
  cbn. rewrite !(assoc_L (++)), (Permutation_app_comm a b). symmetry. apply Permutation_middle.
Qed.

Record normalized (n : nat) (cs : list StatusComponent) (count : Z) (ids : list str)
    (cs' : list StatusComponent) (count' : Z) (ids' : list str) : Prop := {
  norm_fits : fits n cs;
  norm_NoDup : NoDup (forest_ids n cs);
  norm_fresh : ∀ x, x ∈ forest_ids n cs → x ∉ ids;
  norm_count : count' = count + Z.of_nat (length (forest_ids n cs));
  norm_bound : cs ≠ [] → count' ≤ MAX_STATUS_COMPONENTS_PER_PROVIDER;
  norm_ids : ids' ≡ₚ forest_ids n cs ++ ids;
}.

Definition level_sound (n : nat) : Prop := ∀ cs count ids cs' count' ids',
  normalize_component_level n cs (count, ids) = Ok (cs', (count', ids')) →
  normalized n cs count ids cs' count' ids' ∧ same_forest n cs cs' ∧ canonical n cs'.

Lemma normalize_each_sound n : level_sound n → ∀ cs count ids cs' count' ids',
  normalize_each (normalize_component_level n) cs (count, ids) = Ok (cs', (count', ids')) →
  normalized (S n) cs count ids cs' count' ids' ∧
  Forall2 (λ c e, with_children c [] = with_children e [] ∧
                  same_forest n (children c) (children e)) cs cs' ∧
  Forall (λ c, canonical n (children c)) cs'.
Proof.
  intros Hn. induction cs as [|c cs IH]; intros count ids cs' count' ids'; cbn [normalize_each].
  - intros [= <- <- <-]. split_and!; [|constructor|constructor].
    split; cbn; try done; try constructor; try lia. set_solver.
  - destruct (Z.ltb_spec MAX_STATUS_COMPONENTS_PER_PROVIDER (count + 1)) as [|Hmax]; [done|].
    case_bool_decide as Hid; [done|].
    intros ([ch' [k1 i1]] & Hch & H)%bind_Ok. cbn in H.
    apply bind_Ok in H as ([rest' [k2 i2]] & Hrest & H). cbn in H.
    injection H as <- <- <-.
    apply Hn in Hch as (N1 & Hs1 & Hc1). apply IH in Hrest as (N2 & Hs2 & Hc2).
    destruct N1 as [F1 D1 X1 C1 B1 P1], N2 as [F2 D2 X2 C2 B2 P2].
    split_and!.
    + split.
      * by constructor.
      * rewrite forest_ids_cons. rewrite NoDup_cons, NoDup_app, not_elem_of_app.
        setoid_rewrite P1 in X2. set_solver.
      * rewrite forest_ids_cons. setoid_rewrite P1 in X2. set_solver.
      * rewrite forest_ids_cons. cbn [length]. rewrite length_app. lia.
      * intros _. destruct cs as [|d cs].
        { rewrite C2, forest_ids_nil. cbn [length]. destruct (children c) as [|e l].
          - rewrite C1, forest_ids_nil. cbn [length]. lia.
          - specialize (B1 ltac:(done)). lia. }
        by apply B2.
      * rewrite P2, P1, forest_ids_cons. apply perm_shuffle.
    + constructor; [|done]. by rewrite with_children_label, children_with_children.
    + constructor; [|done]. by rewrite children_with_children.
Qed.

Lemma same_labels_ids n cs es :
  Forall2 (λ c e, with_children c [] = with_children e [] ∧
                  same_forest n (children c) (children e)) cs es →
  id_str <$> cs = id_str <$> es.
Proof.
  induction 1 as [|c e cs es [Hl _] _ IH]; cbn; [done|]. f_equal; [|done].
  by rewrite <-(id_with_children c []), Hl, id_with_children.
Qed.

Lemma level_is_sound n : level_sound n.
Proof.
  induction n as [|n IH]; intros cs count ids cs' count' ids'; cbn [normalize_component_level];
    destruct cs as [|c cs]; try done.
  - intros [= <- <- <-]. split_and!; [|done|done].
    split; cbn; try done; try constructor; try lia. set_solver.
  - intros [= <- <- <-]. split_and!; [| by exists [] | by split; constructor].
    split; cbn; try done; try constructor; try lia. set_solver.
  - intros ([es [k i]] & He & H)%bind_Ok. cbn in H. injection H as <- <- <-.
    apply (normalize_each_sound n IH) in He as (N & Hs & Hc).
    assert (NoDup (id_str <$> es)) as Hnd.
    { erewrite <-same_labels_ids by exact Hs. eapply forest_NoDup_roots, norm_NoDup, N. }
    split_and!.
    + destruct N. by split.
    + exists es. split; [|done]. by rewrite sort_by_perm.
    + rewrite sort_components by done. split.
      * by apply sort_by_key_strict.
      * by rewrite sort_by_key_perm.
Qed.

Lemma canonical_fits n : ∀ cs, canonical n cs → fits n cs.
Proof.
  induction n as [|n IH]; cbn; [done|]. intros cs [_ H]. eapply Forall_impl; eauto.
Qed.
#[global] Instance forest_ids_perm n : Proper ((≡ₚ) ==> (≡ₚ)) (forest_ids n).
Proof. destruct n; intros l k H; cbn; [done|]. by rewrite H. Qed.
Lemma same_forest_ids n : ∀ cs ds, same_forest n cs ds → forest_ids n cs ≡ₚ forest_ids n ds.
Proof.
  induction n as [|n IH]; intros cs ds; [done|]. intros (es & He & H). rewrite <-He. clear ds He.
  induction H as [|c e cs es [Hl Hs] _ IHl]; [done|]. rewrite !forest_ids_cons.
  assert (id_str c = id_str e) as ->
    by (by rewrite <-(id_with_children c []), Hl, id_with_children).
  by rewrite (IH _ _ Hs), IHl.
Qed.
Lemma canonical_sorted n cs : canonical (S n) cs → NoDup (id_str <$> cs) → sort_by compare cs = cs.
Proof. intros [H _] Hnd. rewrite sort_components by done. by apply sort_by_key_id. Qed.

(** Every forest within the bounds is accepted, and a canonical one is kept. *)
Definition level_complete (n : nat) : Prop := ∀ cs count ids,
  fits n cs → NoDup (forest_ids n cs ++ ids) →
  count + Z.of_nat (length (forest_ids n cs)) ≤ MAX_STATUS_COMPONENTS_PER_PROVIDER →
  ∃ cs' st', normalize_component_level n cs (count, ids) = Ok (cs', st') ∧
             (canonical n cs → cs' = cs).

Lemma normalize_each_complete n : level_sound n → level_complete n → ∀ cs count ids,
  fits (S n) cs → NoDup (forest_ids (S n) cs ++ ids) →
  count + Z.of_nat (length (forest_ids (S n) cs)) ≤ MAX_STATUS_COMPONENTS_PER_PROVIDER →
  ∃ cs' st', normalize_each (normalize_component_level n) cs (count, ids) = Ok (cs', st') ∧
             (Forall (λ c, canonical n (children c)) cs → cs' = cs).
Proof.
  intros Hsound Hn. induction cs as [|c cs IH]; intros count ids Hf Hnd Hb; [by repeat eexists|].
  cbn [normalize_each]. rewrite forest_ids_cons in Hnd, Hb.
  cbn [length app] in Hnd, Hb. rewrite length_app in Hb.
  apply Forall_cons in Hf as [Hfc Hf].
  destruct (Z.ltb_spec MAX_STATUS_COMPONENTS_PER_PROVIDER (count + 1)) as [|_]; [lia|].
  apply NoDup_cons in Hnd as [Hfresh Hnd].
  rewrite !not_elem_of_app in Hfresh.
  rewrite bool_decide_false by tauto.
  assert (NoDup (forest_ids n (children c) ++ id_str c :: ids)) as Hnd1.
  { rewrite <-Permutation_middle. apply NoDup_cons. split; [set_solver|].
    rewrite NoDup_app in Hnd |- *. rewrite NoDup_app in Hnd. set_solver. }
  destruct (Hn (children c) (count + 1) (id_str c :: ids) Hfc Hnd1 ltac:(lia))
    as (ch' & [k1 i1] & E1 & Hid1).
  destruct (Hsound _ _ _ _ _ _ E1) as ([_ _ _ C1 _ P1] & _ & _).
  assert (NoDup (forest_ids (S n) cs ++ i1)) as Hnd2.
  { rewrite P1, perm_shuffle. cbn. apply NoDup_cons. by rewrite !not_elem_of_app. }
  destruct (IH k1 i1 Hf Hnd2 ltac:(lia)) as (rest' & st' & E2 & Hid2).
  rewrite E1. cbn. rewrite E2. cbn. eexists _, _. split; [done|].
  intros [Hc Hcs]%Forall_cons. by rewrite (Hid1 Hc), (Hid2 Hcs), with_own_children.
Qed.

Lemma level_is_complete n : level_complete n.
Proof.
  induction n as [|n IH]; intros cs count ids Hf Hnd Hb.
  - cbn in Hf. subst. by repeat eexists.
  - destruct (decide (cs = [])) as [->|Hne]; [by repeat eexists|].
    destruct (normalize_each_complete n (level_is_sound n) IH cs count ids Hf Hnd Hb)
      as (cs' & st' & E & Hid).
    exists (sort_by compare cs'), st'. split.
    + destruct cs as [|c cs]; [done|]. cbn [normalize_component_level]. by rewrite E.
    + intros Hc. destruct (Hc) as [_ Hch]. rewrite (Hid Hch). apply (canonical_sorted n); [done|].
      apply NoDup_app in Hnd as [Hnd _]. by eapply forest_NoDup_roots.
Qed.

(** ** The contract of the constructor *)
Definition depth := MAX_STATUS_COMPONENT_DEPTH.
Definition incident_ids (l : list ProviderIncident) : list str :=
  (λ i, BoundedText.as_str (ProviderIncident.id i)) <$> l.
Record admissible (incidents : list ProviderIncident) (components : list StatusComponent) : Prop := {
  adm_incidents : Z.of_nat (length incidents) ≤ MAX_INCIDENTS_PER_PROVIDER;
  adm_incident_ids : NoDup (incident_ids incidents);
  adm_depth : fits depth components;
  adm_components :
    Z.of_nat (length (forest_ids depth components)) ≤ MAX_STATUS_COMPONENTS_PER_PROVIDER;
  adm_component_ids : NoDup (forest_ids depth components);
}.

Lemma incident_ids_NoDup l : NoDup (incident_ids l) → NoDup l.
Proof. apply NoDup_fmap_1. Qed.

Lemma with_components_ok h d t incs cs s :
  ProviderStatus.with_components h d t incs cs = Ok s →
  admissible incs cs ∧
  s = ProviderStatus.mk h d t (sort_by_key (λ i, i) incs) (ProviderStatus.components s) ∧
  same_forest depth cs (ProviderStatus.components s) ∧
  canonical depth (ProviderStatus.components s).
Proof.
  unfold ProviderStatus.with_components.
  destruct (Z.ltb_spec MAX_INCIDENTS_PER_PROVIDER (Z.of_nat (length incs))) as [|Hb]; [done|].
  destruct (unique_b _) eqn:Hu; [|done]. cbn [negb]. apply unique_b_spec in Hu.
  intros (cs' & Hcs & [= <-])%bind_Ok. cbn [ProviderStatus.components].
  unfold normalize_components in Hcs.
  apply fmap_Ok in Hcs as ([cs2 [k i]] & Hcs & <-). cbn [fst].
  apply level_is_sound in Hcs as ([F D X C B P] & Hs & Hc). split_and!; try done.
  split; try done. rewrite C in B. unfold depth in *.
  destruct cs; [|by apply B]. cbn. vm_compute. done.
Qed.

Lemma with_components_accepts h d t incs cs :
  admissible incs cs → ∃ s, ProviderStatus.with_components h d t incs cs = Ok s ∧
    (canonical depth cs → ProviderStatus.components s = cs).
Proof.
  intros []. unfold ProviderStatus.with_components.
  destruct (Z.ltb_spec MAX_INCIDENTS_PER_PROVIDER (Z.of_nat (length incs))) as [|_]; [lia|].
  rewrite (proj2 (unique_b_spec _)) by done. cbn [negb].
  destruct (level_is_complete depth cs 0 [] adm_depth0) as (cs' & st & E & Hid);
    [by rewrite app_nil_r | done |].
  unfold normalize_components. change MAX_STATUS_COMPONENT_DEPTH with depth. rewrite E.
  eexists. split; [reflexivity | exact Hid].
Qed.

(** C44.  [ProviderStatus::with_components] accepts exactly the payloads
    within the bounds — at most 64 incidents with distinct ids, at most 64
    components over at most four levels with ids distinct across the whole
    tree — and what it builds is canonical: the incidents are the given ones
    sorted newest first, the components are the given tree with every level in
    strictly increasing id order, and rebuilding a built status changes
    nothing. *)
Theorem with_components_spec h d t incs cs :
  match ProviderStatus.with_components h d t incs cs with
  | Err _ => ¬ admissible incs cs
  | Ok s =>
      admissible incs cs ∧
      ProviderStatus.incidents s ≡ₚ incs ∧
      strictly_sorted (λ i, i) (ProviderStatus.incidents s) ∧
      same_forest depth cs (ProviderStatus.components s) ∧
      canonical depth (ProviderStatus.components s) ∧
      ProviderStatus.with_components h d t (ProviderStatus.incidents s)
        (ProviderStatus.components s) = Ok s
  end.
Proof.
  destruct (ProviderStatus.with_components h d t incs cs) as [s|e] eqn:E.
  - apply with_components_ok in E as (Ha & Hs & Hf & Hc).
    assert (ProviderStatus.incidents s = sort_by_key (λ i, i) incs) as Hi by (by rewrite Hs).
    assert (ProviderStatus.incidents s ≡ₚ incs) as Hp by (by rewrite Hi, sort_by_key_perm).
    assert (strictly_sorted (λ i, i) (ProviderStatus.incidents s)) as Hss.
    { rewrite Hi. apply sort_by_key_strict. rewrite list_fmap_id.
      apply incident_ids_NoDup, Ha. }
    split_and!; try done.
    edestruct (with_components_accepts h d t (ProviderStatus.incidents s)
                 (ProviderStatus.components s)) as (s' & Hs' & Hid).
    + destruct Ha. pose proof (same_forest_ids _ _ _ Hf) as Hids. split.
      * by rewrite Hp.
      * unfold incident_ids. by rewrite Hp.
      * by apply canonical_fits.
      * by rewrite <-Hids.
      * by rewrite <-Hids.
    + rewrite Hs'. f_equal. specialize (Hid Hc).
      apply with_components_ok in Hs' as (_ & -> & _). rewrite Hid, (sort_by_key_id _ _ Hss), Hi.
      by symmetry.
  - intros Ha. apply (with_components_accepts h d t) in Ha as (s & Hs & _). congruence.
Qed.
