(* ===== verification/Credits.v ===== *)
(** * Credits  (crates/domain/src/credits.rs)

    Credit events with their opaque ids, the periodic allowance and the credit
    snapshot, with the wire forms the snapshots are stored in. *)
From stdpp Require Import prelude.
From S2P Require Import Prelude Ordering Text Percentage Externals Scope Money.
Local Open Scope Z_scope.

Definition MAX_CREDIT_EVENTS : Z := 1024.

Inductive CreditValidationError :=
| ScopeMismatch
| NegativeAmount
| NonPositiveLimit
| DecimalOverflow
| InconsistentRemaining
| TooManyEvents
| DuplicateEventId
| InvalidText (e : BoundedText.error).

Definition require_non_negative `{DecimalCrate} (value : ExactDecimal) :
    Result CreditValidationError unit :=
  if ExactDecimal.is_sign_negative value then Err NegativeAmount else Ok tt.

Module CreditEvent.
Section event.
Context `{TimeCrate, DecimalCrate, HmacCrate}.
Record t := mk {
  scope : AccountScope;
  id : OpaqueRecordId;
  occurred_at : Timestamp;
  service : BoundedText 120;
  used : ExactDecimal;
}.
#[global] Instance eq_dec : EqDecision t.
Proof. solve_decision. Defined.

(** The byte strings that identify an event within its scope. *)
Definition components (source_id : option (BoundedText 512)) (occurrence_index : Z)
    (occurred_at : Timestamp) (service : BoundedText 120) (used : ExactDecimal) : list (list Z) :=
  let '(source_tag, source_bytes) :=
    match source_id with
    | None => (lit "absent", [])
    | Some value => (lit "present", as_bytes (BoundedText.as_str value))
    end in
  [source_tag; source_bytes;
   as_bytes (Timestamp.to_string occurred_at);
   as_bytes (BoundedText.as_str service);
   as_bytes (ExactDecimal.to_string used);
   to_be_bytes 4 occurrence_index].

Definition from_provider (privacy_key : PrivacyKey) (scope : AccountScope)
    (source_id : option str) (occurrence_index : Z) (occurred_at : Timestamp)
    (service : str) (used : ExactDecimal) : Result CreditValidationError t :=
  _ ← require_non_negative used;
  service ← map_err InvalidText (BoundedText.new service);
  source_id ← map_err InvalidText (traverse_option BoundedText.new source_id);
  let id := OpaqueRecordId.derive privacy_key scope CreditEventKind
              (components source_id occurrence_index occurred_at service used) in
  Ok (mk scope id occurred_at service used).

(** The wire form, after the fields have been decoded. *)
Record repr := mk_repr {
  repr_scope : AccountScope;
  repr_id : OpaqueRecordId;
  repr_occurred_at : Timestamp;
  repr_service : str;
  repr_used : ExactDecimal;
}.
Definition serialize (self : t) : repr :=
  mk_repr (scope self) (id self) (occurred_at self) (BoundedText.as_str (service self)) (used self).
Definition deserialize (r : repr) : Result CreditValidationError t :=
  _ ← require_non_negative (repr_used r);
  service ← map_err InvalidText (BoundedText.new (repr_service r));
  Ok (mk (repr_scope r) (repr_id r) (repr_occurred_at r) service (repr_used r)).

(** The events [from_provider] and the wire produce. *)
Definition wf (e : t) : Prop :=
  BoundedText.wf (service e) ∧ require_non_negative (used e) = Ok tt.
End event.
End CreditEvent.
Notation CreditEvent := CreditEvent.t.

Module CreditLimitSnapshot.
Section limit.
Context `{DecimalCrate}.
Record t := mk {
  title : BoundedText 120;
  used : ExactDecimal;
  limit : ExactDecimal;
  remaining : ExactDecimal;
  remaining_percent : DisplayPercent;
  resets_at : option Timestamp;
  updated_at : Timestamp;
}.
#[global] Instance eq_dec : EqDecision t.
Proof. solve_decision. Defined.

Definition new (title : str) (used limit : ExactDecimal) (remaining_percent : DisplayPercent)
    (resets_at : option Timestamp) (updated_at : Timestamp) : Result CreditValidationError t :=
  _ ← require_non_negative used;
  if cmp_le (ExactDecimal.get limit) decimal_zero then Err NonPositiveLimit else
  difference ← ok_or (decimal_checked_sub (ExactDecimal.get limit) (ExactDecimal.get used))
                 DecimalOverflow;
  let remaining := cmp_max difference decimal_zero in
  let title := trim title in
  let title := if is_empty title then lit "Monthly credit limit" else title in
  title ← map_err InvalidText (BoundedText.new title);
  Ok (mk title used limit (ExactDecimal.new remaining) remaining_percent resets_at updated_at).

Definition used_percent (self : t) : DisplayPercent :=
  DisplayPercent.complement (remaining_percent self).

Definition public_projection (self : t) : t :=
  mk (BoundedText.expect (lit "Credit limit")) (used self) (limit self) (remaining self)
     (remaining_percent self) (resets_at self) (updated_at self).

Record repr := mk_repr {
  repr_title : str;
  repr_used : ExactDecimal;
  repr_limit : ExactDecimal;
  repr_remaining : ExactDecimal;
  repr_remaining_percent : DisplayPercent;
  repr_resets_at : option Timestamp;
  repr_updated_at : Timestamp;
}.
Definition serialize (self : t) : repr :=
  mk_repr (BoundedText.as_str (title self)) (used self) (limit self) (remaining self)
    (remaining_percent self) (resets_at self) (updated_at self).
Definition deserialize (r : repr) : Result CreditValidationError t :=
  snapshot ← new (repr_title r) (repr_used r) (repr_limit r) (repr_remaining_percent r)
               (repr_resets_at r) (repr_updated_at r);
  if negb (bool_decide (remaining snapshot = repr_remaining r)) then Err InconsistentRemaining
  else Ok snapshot.
End limit.
End CreditLimitSnapshot.
Notation CreditLimitSnapshot := CreditLimitSnapshot.t.

Module CreditsSnapshot.
Section snapshot.
Context `{TimeCrate, DecimalCrate, HmacCrate}.
Record t := mk {
  scope : AccountScope;
  remaining : ExactDecimal;
  events : list CreditEvent;
  updated_at : Timestamp;
  limit : option CreditLimitSnapshot;
}.
#[global] Instance eq_dec : EqDecision t.
Proof. solve_decision. Defined.

(** Newest first, ties by id. *)
Definition event_key (e : CreditEvent) :=
  (mk_reverse (CreditEvent.occurred_at e), CreditEvent.id e).

Definition new (scope : AccountScope) (remaining : ExactDecimal) (events : list CreditEvent)
    (updated_at : Timestamp) (limit : option CreditLimitSnapshot) :
    Result CreditValidationError t :=
  _ ← require_non_negative remaining;
  if MAX_CREDIT_EVENTS <? Z.of_nat (length events) then Err TooManyEvents else
  if existsb (λ e, negb (bool_decide (CreditEvent.scope e = scope))) events
  then Err ScopeMismatch else
  let events := sort_by_key event_key events in
  if negb (unique_b (CreditEvent.id <$> events)) then Err DuplicateEventId else
  Ok (mk scope remaining events updated_at limit).

Definition without_personal_information (self : t) (scope : AccountScope) : t :=
  mk scope (remaining self) [] (updated_at self)
     (CreditLimitSnapshot.public_projection <$> limit self).

Record repr := mk_repr {
  repr_scope : AccountScope;
  repr_remaining : ExactDecimal;
  repr_events : list CreditEvent.repr;
  repr_updated_at : Timestamp;
  repr_limit : option CreditLimitSnapshot.repr;
}.
Definition serialize (self : t) : repr :=
  mk_repr (scope self) (remaining self) (CreditEvent.serialize <$> events self)
    (updated_at self) (CreditLimitSnapshot.serialize <$> limit self).
Definition deserialize (r : repr) : Result CreditValidationError t :=
  events ← traverse_list CreditEvent.deserialize (repr_events r);
  limit ← traverse_option CreditLimitSnapshot.deserialize (repr_limit r);
  new (repr_scope r) (repr_remaining r) events (repr_updated_at r) limit.
End snapshot.
End CreditsSnapshot.
Notation CreditsSnapshot := CreditsSnapshot.t.

(** ** Theorems *)

(** Rust's [str] holds Unicode scalar values. *)
Definition text_ok {M} (b : BoundedText M) : Prop := Forall is_scalar (BoundedText.as_str b).

Section event_key.
Context `{TimeCrateLaws, DecimalCrateLaws}.

Lemma timestamp_to_string_inj (a b : Timestamp) :
  Timestamp.wf a → Timestamp.wf b →
  as_bytes (Timestamp.to_string a) = as_bytes (Timestamp.to_string b) → a = b.
Proof.
  unfold Timestamp.wf, Timestamp.to_string. intros [s Hs] [k Hk]. rewrite Hs, Hk. cbn.
  intros E%as_bytes_inj; [subst k|by eapply rfc3339_format_scalar..].
  apply rfc3339_parse_format in Hs, Hk. destruct a, b; cbn in *. congruence.
Qed.
Lemma exact_to_string_inj (a b : ExactDecimal) :
  ExactDecimal.wf a → ExactDecimal.wf b →
  as_bytes (ExactDecimal.to_string a) = as_bytes (ExactDecimal.to_string b) → a = b.
Proof.
  intros Ha Hb E%as_bytes_inj; [|apply decimal_print_scalar..].
  apply exact_parse_print in Ha, Hb. congruence.
Qed.
Lemma bounded_bytes_inj {M} (a b : BoundedText M) :
  text_ok a → text_ok b →
  as_bytes (BoundedText.as_str a) = as_bytes (BoundedText.as_str b) → a = b.
Proof. intros Ha Hb E%as_bytes_inj; [|done..]. by apply (inj _) in E. Qed.

(** A credit event's opaque id is derived from bytes that determine the
    event: two events hash the same message only if they agree in scope, source
    id (present or absent), time, service, amount and occurrence index. *)
Theorem credit_event_key_injective (s1 s2 : AccountScope) (i1 i2 : option (BoundedText 512))
    (n1 n2 : Z) (t1 t2 : Timestamp) (v1 v2 : BoundedText 120) (u1 u2 : ExactDecimal) :
  AccountScope.wf s1 → AccountScope.wf s2 →
  (∀ b, i1 = Some b → text_ok b) → (∀ b, i2 = Some b → text_ok b) →
  0 ≤ n1 ≤ u32_max → 0 ≤ n2 ≤ u32_max →
  Timestamp.wf t1 → Timestamp.wf t2 → text_ok v1 → text_ok v2 →
  ExactDecimal.wf u1 → ExactDecimal.wf u2 →
  Forall (λ c, Z.of_nat (length c) < 2 ^ 56) (CreditEvent.components i1 n1 t1 v1 u1) →
  Forall (λ c, Z.of_nat (length c) < 2 ^ 56) (CreditEvent.components i2 n2 t2 v2 u2) →
  OpaqueRecordId.message s1 CreditEventKind (CreditEvent.components i1 n1 t1 v1 u1) =
  OpaqueRecordId.message s2 CreditEventKind (CreditEvent.components i2 n2 t2 v2 u2) →
  (s1, i1, n1, t1, v1, u1) = (s2, i2, n2, t2, v2, u2).
Proof.
  intros Hs1 Hs2 Hi1 Hi2 Hn1 Hn2 Ht1 Ht2 Hv1 Hv2 Hu1 Hu2 Hb1 Hb2 E.
  apply message_inj in E as (-> & _ & E); [|done|done|by destruct i1|by destruct i2|done..].
  assert (i1 = i2 ∧ as_bytes (Timestamp.to_string t1) = as_bytes (Timestamp.to_string t2) ∧
    as_bytes (BoundedText.as_str v1) = as_bytes (BoundedText.as_str v2) ∧
    as_bytes (ExactDecimal.to_string u1) = as_bytes (ExactDecimal.to_string u2) ∧
    to_be_bytes 4 n1 = to_be_bytes 4 n2) as (-> & Et & Ev & Eu & En).
  { unfold CreditEvent.components in E. destruct i1 as [b1|], i2 as [b2|]; try discriminate E.
    - injection E as Eb Et Ev Eu En. split_and!; try done; [|cbn; congruence].
      f_equal. by apply bounded_bytes_inj; [apply Hi1|apply Hi2|].
    - injection E as Et Ev Eu En. split_and!; try done. cbn; congruence. }
  apply timestamp_to_string_inj in Et; [|done..].
  apply bounded_bytes_inj in Ev; [|done..].
  apply exact_to_string_inj in Eu; [|done..].
  apply to_be_bytes_inj in En; [|change (256 ^ Z.of_nat 4) with (u32_max + 1); lia..].
  congruence.
Qed.
End event_key.

Lemma existsb_perm {A} (p : A → bool) l k : l ≡ₚ k → existsb p l = existsb p k.
Proof.
  intros E. apply eq_bool_prop_intro. rewrite !Is_true_true, !existsb_exists.
  setoid_rewrite <-list_elem_of_In. by setoid_rewrite E.
Qed.
Lemma existsb_false_Forall {A} (p : A → bool) l : existsb p l = false ↔ Forall (λ x, p x = false) l.
Proof.
  induction l as [|x l IH]; cbn; [by split|]. rewrite orb_false_iff, IH, Forall_cons. done.
Qed.

Section credits_facts.
Context `{TimeCrateLaws, DecimalCrateLaws, HmacCrateLaws}.
Import CreditsSnapshot.

Lemma event_ids_keys (l : list CreditEvent) : NoDup (CreditEvent.id <$> l) → NoDup (event_key <$> l).
Proof.
  intros Hl. apply (NoDup_fmap_1 snd). by rewrite <-list_fmap_compose.
Qed.

Lemma credits_new_Ok sc r es u l s :
  new sc r es u l = Ok s ↔
  (require_non_negative r = Ok tt ∧ Z.of_nat (length es) ≤ MAX_CREDIT_EVENTS ∧
   Forall (λ e, CreditEvent.scope e = sc) es ∧ NoDup (CreditEvent.id <$> es)) ∧
  s = mk sc r (sort_by_key event_key es) u l.
Proof.
  unfold new. destruct (require_non_negative r) as [[]|]; cbn; [|naive_solver].
  destruct (Z.ltb_spec MAX_CREDIT_EVENTS (Z.of_nat (length es))) as [Hl|Hl]; [naive_solver lia|].
  destruct (existsb _ es) eqn:Hs.
  { split; [done|]. intros ((_ & _ & Hf & _) & _). apply not_false_iff_true in Hs as [].
    apply existsb_false_Forall. eapply Forall_impl; [exact Hf|]. intros e <-; cbn.
    by rewrite bool_decide_true. }
  apply existsb_false_Forall in Hs.
  assert (Forall (λ e, CreditEvent.scope e = sc) es) as Hsc.
  { eapply Forall_impl; [exact Hs|]. intros e; cbn. by case_bool_decide. }
  destruct (unique_b _) eqn:Hu; cbn.
  - apply unique_b_spec in Hu. rewrite sort_by_key_perm in Hu. naive_solver.
  - split; [done|]. intros ((_ & _ & _ & Hn) & _). apply not_true_iff_false in Hu as [].
    apply unique_b_spec. by rewrite sort_by_key_perm.
Qed.

(** A credit snapshot is a canonical form of its events: the order in which
    they arrive never matters, not even for the error reported, an accepted
    snapshot holds exactly the given events, all of its own scope and with
    distinct ids, strictly ordered newest first, and a snapshot is refused
    exactly when its balance is negative, it has more than 1024 events, an
    event belongs to another scope or an id repeats. *)
Theorem credits_new_spec sc r es u l :
  (∀ es', es ≡ₚ es' → new sc r es u l = new sc r es' u l) ∧
  match new sc r es u l with
  | Ok s =>
      events s ≡ₚ es ∧ strictly_sorted event_key (events s) ∧
      scope s = sc ∧ remaining s = r ∧ updated_at s = u ∧ limit s = l ∧
      Forall (λ e, CreditEvent.scope e = sc) es ∧ NoDup (CreditEvent.id <$> es) ∧
      Z.of_nat (length es) ≤ MAX_CREDIT_EVENTS ∧ ExactDecimal.is_sign_negative r = false
  | Err NegativeAmount => ExactDecimal.is_sign_negative r = true
  | Err TooManyEvents => MAX_CREDIT_EVENTS < Z.of_nat (length es)
  | Err ScopeMismatch => ∃ e, e ∈ es ∧ CreditEvent.scope e ≠ sc
  | Err DuplicateEventId => ¬ NoDup (CreditEvent.id <$> es)
  | Err _ => False
  end.
Proof.
  split.
  - intros es' E. unfold new. destruct (require_non_negative r); cbn; [|done].
    rewrite <-E at 1. rewrite (existsb_perm _ _ _ E).
    destruct (_ <? _); [done|]. destruct (existsb _ es'); [done|].
    destruct (unique_b (CreditEvent.id <$> sort_by_key event_key es)) eqn:Hu.
    + apply unique_b_spec in Hu. rewrite sort_by_key_perm in Hu.
      rewrite (sort_by_key_unique _ es es'), (proj2 (unique_b_spec _)); try done.
      * by rewrite sort_by_key_perm, <-E.
      * by apply event_ids_keys.
    + destruct (unique_b (CreditEvent.id <$> sort_by_key event_key es')) eqn:Hu'; [|done].
      apply not_true_iff_false in Hu as []. apply unique_b_spec. apply unique_b_spec in Hu'.
      rewrite sort_by_key_perm in *. by rewrite E.
  - destruct (new sc r es u l) as [s|e] eqn:E.
    + apply credits_new_Ok in E as ((Hr & Hl & Hs & Hn) & ->). cbn. split_and!; try done.
      * apply sort_by_key_perm.
      * by apply sort_by_key_strict, event_ids_keys.
      * unfold require_non_negative in Hr. by destruct (ExactDecimal.is_sign_negative r).
    + revert E. unfold new, require_non_negative.
      destruct (ExactDecimal.is_sign_negative r); cbn; [by intros [= <-]|].
      destruct (Z.ltb_spec MAX_CREDIT_EVENTS (Z.of_nat (length es))) as [Hl|Hl]; [by intros [= <-]|].
      destruct (existsb _ es) eqn:Hs.
      { intros [= <-]. apply existsb_exists in Hs as (e' & Hin & Hne).
        exists e'. rewrite list_elem_of_In. split; [done|].
        by case_bool_decide. }
      destruct (unique_b _) eqn:Hu; [done|]. intros [= <-].
      apply not_true_iff_false in Hu. by rewrite unique_b_spec, sort_by_key_perm in Hu.
Qed.
End credits_facts.

Section limit_facts.
Context `{DecimalCrateLaws}.
Import CreditLimitSnapshot.

Lemma decimal_max_zero d : cmp_lt (cmp_max d decimal_zero) decimal_zero = false.
Proof.
  unfold cmp_max, cmp_le, cmp_lt. destruct (cmp d decimal_zero) eqn:E; [| |by rewrite E];
    pose proof (decimal_cmp_sym decimal_zero decimal_zero);
    by destruct (cmp decimal_zero decimal_zero).
Qed.
Lemma remaining_not_negative d :
  ExactDecimal.is_negative (ExactDecimal.new (cmp_max d decimal_zero)) = false.
Proof.
  unfold ExactDecimal.is_negative, ExactDecimal.new, cmp_lt; cbn.
  rewrite decimal_normalize_cmp. apply decimal_max_zero.
Qed.

Lemma limit_new_Ok title used limit p r u l :
  new title used limit p r u = Ok l ↔
  ∃ d, require_non_negative used = Ok tt ∧ cmp_le (ExactDecimal.get limit) decimal_zero = false ∧
    decimal_checked_sub (ExactDecimal.get limit) (ExactDecimal.get used) = Some d ∧
    ∃ b, BoundedText.new (if is_empty (trim title) then lit "Monthly credit limit" else trim title)
         = Ok b ∧ l = mk b used limit (ExactDecimal.new (cmp_max d decimal_zero)) p r u.
Proof.
  unfold new. split.
  - intros E. apply bind_Ok in E as ([] & Hu & E). destruct (cmp_le _ _); [done|].
    apply bind_Ok in E as (d & Hd%ok_or_Ok & E). apply bind_Ok in E as (b & Hb%map_err_Ok & [= <-]).
    eauto 8.
  - intros (d & -> & -> & Hd & b & Hb & ->). rewrite bind_Ok. exists tt. split; [done|].
    rewrite bind_Ok. exists d. rewrite ok_or_Ok. split; [done|].
    rewrite bind_Ok. exists b. by rewrite map_err_Ok.
Qed.
(** Rebuilding from the stored fields gives the same allowance. *)
Lemma limit_wire title used limit p r u l :
  new title used limit p r u = Ok l → deserialize (serialize l) = Ok l.
Proof.
  intros (d & Hu & Hl & Hd & b & Hb & ->)%limit_new_Ok. unfold deserialize, serialize; cbn.
  apply BoundedTextFacts.new_wf in Hb as [Hwf _].
  erewrite (proj2 (limit_new_Ok _ used limit p r u _)).
  2: { exists d. split_and!; [done..|]. exists b. split; [|done].
       destruct (Hwf) as (Hne & Ht & _). rewrite Ht.
       replace (is_empty (BoundedText.as_str b)) with false by by destruct (BoundedText.as_str b).
       by apply BoundedTextFacts.new_as_str. }
  cbn. by rewrite bool_decide_true.
Qed.

(** The allowance that [CreditLimitSnapshot::new] publishes is consistent:
    nothing is negative, the limit is positive, what remains is the limit minus
    the use with an overdraft counted as nothing left, and a blank title is
    replaced; a build is refused exactly for a negative use, a limit that is not
    positive, an unrepresentable difference or an unacceptable title. *)
Theorem credit_limit_spec title used limit p r u :
  ExactDecimal.wf used → ExactDecimal.wf limit →
  match new title used limit p r u with
  | Ok l =>
      ExactDecimal.is_negative used = false ∧
      cmp_lt decimal_zero (ExactDecimal.get limit) = true ∧
      ExactDecimal.is_negative (remaining l) = false ∧ ExactDecimal.wf (remaining l) ∧
      (∃ d, decimal_checked_sub (ExactDecimal.get limit) (ExactDecimal.get used) = Some d ∧
            (cmp_lt decimal_zero d = true → remaining l = ExactDecimal.new d) ∧
            (cmp_lt decimal_zero d = false → remaining l = ExactDecimal.mk decimal_zero)) ∧
      BoundedText.as_str (CreditLimitSnapshot.title l) =
        (if is_empty (trim title) then lit "Monthly credit limit" else trim title) ∧
      deserialize (serialize l) = Ok l
  | Err NegativeAmount => ExactDecimal.is_negative used = true
  | Err NonPositiveLimit => cmp_lt decimal_zero (ExactDecimal.get limit) = false
  | Err DecimalOverflow =>
      decimal_checked_sub (ExactDecimal.get limit) (ExactDecimal.get used) = None
  | Err (InvalidText e) => BoundedText.new (MAX_BYTES := 120) (trim title) = Err e
  | Err _ => False
  end.
Proof.
  intros Hused Hlimit.
  assert (∀ d, cmp_le d decimal_zero = negb (cmp_lt decimal_zero d)) as Hle.
  { intros d. unfold cmp_le, cmp_lt. rewrite (decimal_cmp_sym decimal_zero d).
    by destruct (cmp decimal_zero d). }
  assert (ExactDecimal.is_sign_negative used = ExactDecimal.is_negative used) as Hsign
    by by apply decimal_sign.
  destruct (new title used limit p r u) as [l|e] eqn:E.
  - pose proof (limit_wire _ _ _ _ _ _ _ E) as Hw.
    apply limit_new_Ok in E as (d & Hu & Hl & Hd & b & Hb & ->). cbn [remaining CreditLimitSnapshot.title].
    unfold require_non_negative in Hu. rewrite Hsign in Hu. rewrite Hle in Hl.
    split_and!; [by destruct (ExactDecimal.is_negative used)|by destruct (cmp_lt _ _)
      |apply remaining_not_negative|apply exact_new_wf| | |exact Hw].
    + exists d. unfold cmp_max. rewrite Hle. split_and!; [done| |]; intros ->; [done|].
      unfold ExactDecimal.new. cbn. by rewrite decimal_zero_normal.
    + apply BoundedTextFacts.new_wf in Hb as [_ ->].
      destruct (is_empty (trim title)); [done|]. apply trim_idemp.
  - unfold new in E. apply bind_Err in E as [E|([] & _ & E)].
    { unfold require_non_negative in E. rewrite Hsign in E.
      destruct (ExactDecimal.is_negative used); [by injection E as <-|done]. }
    rewrite Hle in E. destruct (cmp_lt decimal_zero _); cbn [negb] in E; [|by injection E as <-].
    apply bind_Err in E as [E|(d & _ & E)].
    { destruct (decimal_checked_sub _ _); [done|by injection E as <-]. }
    apply bind_Err in E as [E|(b & _ & E)]; [|done].
    destruct (is_empty (trim title)); [done|].
    destruct (BoundedText.new (MAX_BYTES:=120) (trim title)) eqn:Hb; [done|].
    injection E as <-. done.
Qed.
End limit_facts.

Section wire_facts.
Context `{TimeCrateLaws, DecimalCrateLaws, HmacCrateLaws}.
Import CreditsSnapshot.

(** A stored credit snapshot is read back as it was: decoding the wire form
    of a snapshot built from valid events and a valid allowance gives that
    snapshot, with its events in the same order. *)
Theorem credits_wire_roundtrip sc r es u l s :
  Forall CreditEvent.wf es →
  (∀ x, l = Some x → ∃ t a b p c d, CreditLimitSnapshot.new t a b p c d = Ok x) →
  new sc r es u l = Ok s →
  deserialize (serialize s) = Ok s.
Proof.
  intros Hes Hl Hs. pose proof Hs as ((Hr & Hlen & Hsc & Hn) & E)%credits_new_Ok.
  assert (traverse_list CreditEvent.deserialize (CreditEvent.serialize <$> events s)
          = Ok (events s)) as He.
  { apply traverse_list_Ok. apply Forall2_fmap_l, Forall_Forall2_diag.
    rewrite E; cbn. rewrite sort_by_key_perm. eapply Forall_impl; [exact Hes|].
    intros e [Ht Hu]. unfold CreditEvent.deserialize, CreditEvent.serialize; cbn.
    rewrite Hu. cbn. rewrite BoundedTextFacts.new_as_str by done. by destruct e. }
  assert (traverse_option CreditLimitSnapshot.deserialize
            (CreditLimitSnapshot.serialize <$> limit s) = Ok (limit s)) as Hlim.
  { rewrite E; cbn. destruct l as [x|]; [|done].
    destruct (Hl x eq_refl) as (t & a & b & p & c & d & Hx). cbn.
    by rewrite (limit_wire _ _ _ _ _ _ _ Hx). }
  unfold deserialize, serialize; cbn. rewrite He. cbn. rewrite Hlim. cbn.
  rewrite E in *. cbn in *. apply credits_new_Ok. split_and!; try done.
  - by rewrite sort_by_key_length.
  - by rewrite sort_by_key_perm.
  - by rewrite sort_by_key_perm.
  - f_equal. symmetry. by apply sort_by_key_id, sort_by_key_strict, event_ids_keys.
Qed.
End wire_facts.

(** ** Witnesses *)
Definition credit_event_example (i : nat) : @CreditEvent Reference.decimal :=
  @CreditEvent.mk Reference.decimal (scope_example (lit "ada")) (OpaqueRecordId.mk (replicate i 97))
    (Timestamp.mk (Z.of_nat i)) (BoundedText.mk (lit "api")) (ExactDecimal.mk (3 : @Decimal Reference.decimal)).

Definition key_example (i : Z) : list (list Z) :=
  @CreditEvent.components Reference.time Reference.decimal None i (Timestamp.mk 5)
    (BoundedText.mk (lit "api")) (ExactDecimal.mk (3 : @Decimal Reference.decimal)).

Lemma credit_event_key_injective_witness :
  OpaqueRecordId.message (scope_example (lit "ada")) CreditEventKind (key_example 0) ≠
  OpaqueRecordId.message (scope_example (lit "ada")) CreditEventKind (key_example 1).
Proof.
  intros E.
  assert (text_ok (BoundedText.mk (MAX_BYTES := 120) (lit "api"))) as Ht.
  { repeat constructor; vm_compute; congruence. }
  pose proof (@credit_event_key_injective Reference.time Reference.time_laws Reference.decimal
    Reference.decimal_laws (scope_example (lit "ada")) (scope_example (lit "ada")) None None 0 1
    (Timestamp.mk 5) (Timestamp.mk 5) (BoundedText.mk (lit "api")) (BoundedText.mk (lit "api"))
    (ExactDecimal.mk (3 : @Decimal Reference.decimal))
    (ExactDecimal.mk (3 : @Decimal Reference.decimal))) as H.
  refine (_ (H _ _ _ _ _ _ _ _ Ht Ht _ _ _ _ E)).
  - intros F. discriminate F.
  - split; by vm_compute.
  - split; by vm_compute.
  - intros b F; discriminate F.
  - intros b F; discriminate F.
  - by_decide.
  - by_decide.
  - eexists. vm_compute. reflexivity.
  - eexists. vm_compute. reflexivity.
  - reflexivity.
  - reflexivity.
  - by_decide.
  - by_decide.
Defined.

Definition limit_example : Result CreditValidationError (@CreditLimitSnapshot Reference.decimal) :=
  CreditLimitSnapshot.new (lit " ") (ExactDecimal.mk (7 : @Decimal Reference.decimal))
    (ExactDecimal.mk (5 : @Decimal Reference.decimal)) (DisplayPercent.mk f64_zero) None
    (Timestamp.mk 5).
Lemma credit_limit_spec_witness :
  match limit_example with
  | Ok l => ExactDecimal.is_negative (CreditLimitSnapshot.remaining l) = false
  | Err _ => False
  end.
Proof.
  pose proof (@credit_limit_spec Reference.decimal Reference.decimal_laws (lit " ")
    (ExactDecimal.mk (7 : @Decimal Reference.decimal)) (ExactDecimal.mk (5 : @Decimal Reference.decimal))
    (DisplayPercent.mk f64_zero) None (Timestamp.mk 5) eq_refl eq_refl) as H.
  fold limit_example in H. assert (is_ok limit_example = true) as Hok by (vm_compute; reflexivity).
  revert H Hok. generalize limit_example. intros [l|e]; [|discriminate]. intros H _. apply H.
Defined.

Definition credits_example : Result CreditValidationError (@CreditsSnapshot Reference.decimal) :=
  CreditsSnapshot.new (scope_example (lit "ada")) (ExactDecimal.mk (1 : @Decimal Reference.decimal))
    [credit_event_example 1; credit_event_example 2] (Timestamp.mk 5) None.
Lemma credits_wire_roundtrip_witness :
  match credits_example with
  | Ok s => CreditsSnapshot.deserialize (CreditsSnapshot.serialize s) = Ok s
  | Err _ => False
  end.
Proof.
  assert (is_ok credits_example = true) as Hok by (vm_compute; reflexivity).
  destruct credits_example as [s|e] eqn:E; [|discriminate Hok].
  apply (@credits_wire_roundtrip Reference.decimal (scope_example (lit "ada"))
    (ExactDecimal.mk (1 : @Decimal Reference.decimal))
    [credit_event_example 1; credit_event_example 2] (Timestamp.mk 5) None s).
  - repeat constructor; vm_compute; congruence.
  - intros x F; discriminate F.
  - exact E.
Defined.
