(* ===== verification/CostUsage.v ===== *)
(** * Cost usage  (crates/domain/src/cost_usage.rs)

    The normalized cost history of an account: token mix, request coverage,
    per-model, per-day, per-project, per-session and hourly breakdowns, the
    canonical order of each collection, and the public projection that replaces
    every private label by an ordinal. *)
From stdpp Require Import prelude.
From S2P Require Import Prelude Ordering Text Externals Money RateWindow.
Local Open Scope Z_scope.

Definition MAX_COST_HISTORY_DAYS : Z := 365.
Definition MAX_COST_DAILY_BUCKETS : Z := 365.
Definition MAX_COST_MODELS : Z := 128.
Definition MAX_COST_LINE_ITEMS : Z := 128.
Definition MAX_COST_PROJECTS : Z := 128.
Definition MAX_COST_PROJECT_SOURCES : Z := 32.
Definition MAX_COST_SESSIONS : Z := 512.
Definition MAX_COST_HOURLY_BUCKETS : Z := 24 * MAX_COST_HISTORY_DAYS.
Definition COST_LABEL_BYTES : Z := 160.
Definition COST_PATH_BYTES : Z := 1024.
Definition CREDENTIAL_FINGERPRINT_BYTES : Z := 160.

(** [time::Month::try_from] and [time::Date::from_calendar_date]: whether they
    succeed. *)
Class CalendarCrate := {
  month_try_from : Z → bool;
  date_from_calendar_date : Z → Z → Z → bool;
}.

Inductive CostProvenance := ListPriceEstimate | VendorMetered | Mixed | UnknownProvenance.
#[global] Instance CostProvenance_eq_dec : EqDecision CostProvenance.
Proof. solve_decision. Defined.

Inductive CostUsageError :=
| InvalidHistoryDays
| InvalidInterval
| InvalidDay
| NegativeAmount (field : str)
| CoverageOverflow
| CoverageExceedsRequests
| LimitExceeded (collection : str) (maximum actual : Z)
| Duplicate (field : str)
| InvalidText (e : BoundedText.error).

Definition ensure_nonnegative `{DecimalCrate} (field : str) (value : option ExactDecimal) :
    Result CostUsageError unit :=
  match value with
  | Some value => if ExactDecimal.is_negative value then Err (NegativeAmount field) else Ok tt
  | None => Ok tt
  end.

Definition check_limit (collection : str) (actual maximum : Z) : Result CostUsageError unit :=
  if maximum <? actual then Err (LimitExceeded collection maximum actual) else Ok tt.

Definition ensure_unique (values : list str) (field : str) : Result CostUsageError unit :=
  if unique_b values then Ok tt else Err (Duplicate field).

(** [?] on a [BoundedText] constructor. *)
Definition label {M} (value : str) : Result CostUsageError (BoundedText M) :=
  map_err InvalidText (BoundedText.new value).

(** The ordinal label of a public projection. *)
Definition public_ordinal (prefix : str) (ordinal : Z) : BoundedText COST_LABEL_BYTES :=
  BoundedText.expect (prefix ++ lit "-" ++ show_u64 (saturating_add usize_max ordinal 1)).

Definition validate_day `{CalendarCrate} (value : str) : Result CostUsageError (BoundedText 10) :=
  let bytes := as_bytes value in
  if negb (Z.of_nat (length bytes) =? 10)
     || negb (nth 4 bytes 0 =? 45) || negb (nth 7 bytes 0 =? 45)
     || existsb (λ b, b) (imap (λ index byte, negb (index =? 4)%nat
          && negb (index =? 7)%nat && negb (is_ascii_digit byte)) bytes)
  then Err InvalidDay else
  let year := digits_value (take 4 bytes) in
  if year =? 0 then Err InvalidDay else
  let month := digits_value (take 2 (drop 5 bytes)) in
  if negb (month_try_from month) then Err InvalidDay else
  let day := digits_value (take 2 (drop 8 bytes)) in
  if negb (date_from_calendar_date year month day) then Err InvalidDay else
  label value.

Module CostUsageTokenMix.
Record t := new {
  input_tokens : option Z;
  output_tokens : option Z;
  cache_read_tokens : option Z;
  cache_creation_tokens : option Z;
  reasoning_tokens : option Z;
}.
#[global] Instance eq_dec : EqDecision t.
Proof. solve_decision. Defined.
End CostUsageTokenMix.
Notation CostUsageTokenMix := CostUsageTokenMix.t.

Module CostUsageCoverage.
Record t := mk { priced : Z; unpriced : Z; unmetered : Z; estimated : Z }.
#[global] Instance eq_dec : EqDecision t.
Proof. solve_decision. Defined.
Definition total (self : t) : option Z :=
  a ← checked_add u64_max (priced self) (unpriced self);
  b ← checked_add u64_max a (unmetered self);
  checked_add u64_max b (estimated self).
Definition new (priced unpriced unmetered estimated : Z) : Result CostUsageError t :=
  let result := mk priced unpriced unmetered estimated in
  _ ← ok_or (total result) CoverageOverflow;
  Ok result.
End CostUsageCoverage.
Notation CostUsageCoverage := CostUsageCoverage.t.

Module CostUsageMetrics.
Section metrics.
Context `{DecimalCrate}.
Record t := mk {
  token_mix : CostUsageTokenMix;
  total_tokens : option Z;
  request_count : option Z;
  amount : option ExactDecimal;
  coverage : CostUsageCoverage;
}.
#[global] Instance eq_dec : EqDecision t.
Proof. solve_decision. Defined.
Definition new token_mix total_tokens (request_count : option Z) amount coverage :
    Result CostUsageError t :=
  _ ← ensure_nonnegative (lit "usage amount") amount;
  if (match request_count, CostUsageCoverage.total coverage with
      | Some requests, Some coverage_total => requests <? coverage_total
      | _, _ => false
      end)
  then Err CoverageExceedsRequests
  else Ok (mk token_mix total_tokens request_count amount coverage).
End metrics.
End CostUsageMetrics.
Notation CostUsageMetrics := CostUsageMetrics.t.

Module CostUsageInterval.
Record t := mk { start : Timestamp; end_ : Timestamp }.
#[global] Instance eq_dec : EqDecision t.
Proof. solve_decision. Defined.
Definition new (start end_ : Timestamp) : Result CostUsageError t :=
  if Timestamp.leb end_ start then Err InvalidInterval else Ok (mk start end_).
End CostUsageInterval.
Notation CostUsageInterval := CostUsageInterval.t.

Module CostUsageLineItem.
Section item.
Context `{DecimalCrate}.
Record t := mk { name : BoundedText COST_LABEL_BYTES; amount : ExactDecimal }.
#[global] Instance eq_dec : EqDecision t.
Proof. solve_decision. Defined.
Definition new (name : str) (amount : ExactDecimal) : Result CostUsageError t :=
  _ ← ensure_nonnegative (lit "line-item amount") (Some amount);
  name ← label name;
  Ok (mk name amount).
Definition without_personal_information (self : t) (ordinal : Z) : t :=
  mk (public_ordinal (lit "line-item") ordinal) (amount self).
End item.
End CostUsageLineItem.
Notation CostUsageLineItem := CostUsageLineItem.t.

Module CostUsageModelBreakdown.
Section model.
Context `{DecimalCrate}.
Record t := mk {
  name : BoundedText COST_LABEL_BYTES;
  metrics : CostUsageMetrics;
  standard_amount : option ExactDecimal;
  priority_amount : option ExactDecimal;
  standard_tokens : option Z;
  priority_tokens : option Z;
}.
#[global] Instance eq_dec : EqDecision t.
Proof. solve_decision. Defined.
Definition new (name : str) metrics standard_amount priority_amount
    standard_tokens priority_tokens : Result CostUsageError t :=
  _ ← ensure_nonnegative (lit "standard amount") standard_amount;
  _ ← ensure_nonnegative (lit "priority amount") priority_amount;
  name ← label name;
  Ok (mk name metrics standard_amount priority_amount standard_tokens priority_tokens).
Definition without_personal_information (self : t) (ordinal : Z) : t :=
  mk (public_ordinal (lit "model") ordinal) (metrics self) (standard_amount self)
     (priority_amount self) (standard_tokens self) (priority_tokens self).
Definition name_str (self : t) : str := BoundedText.as_str (name self).
End model.
End CostUsageModelBreakdown.
Notation CostUsageModelBreakdown := CostUsageModelBreakdown.t.

(** [.iter().enumerate().map(|(ordinal, x)| f(x, ordinal)).collect()] *)
Definition enumerate_map {A B} (f : A → Z → B) (l : list A) : list B :=
  imap (λ ordinal x, f x (Z.of_nat ordinal)) l.

Module CostUsageDailyBucket.
Section daily.
Context `{DecimalCrate}.
Record t := mk {
  day : BoundedText 10;
  interval : option CostUsageInterval;
  metrics : CostUsageMetrics;
  models_used : list (BoundedText COST_LABEL_BYTES);
  models : list CostUsageModelBreakdown;
  line_items : list CostUsageLineItem;
}.
#[global] Instance eq_dec : EqDecision t.
Proof. solve_decision. Defined.
Definition day_str (self : t) : str := BoundedText.as_str (day self).

Definition new `{CalendarCrate} (day : str) interval metrics (models_used : list str)
    (models : list CostUsageModelBreakdown) (line_items : list CostUsageLineItem) :
    Result CostUsageError t :=
  day ← validate_day day;
  _ ← check_limit (lit "models used") (Z.of_nat (length models_used)) MAX_COST_MODELS;
  _ ← check_limit (lit "model breakdowns") (Z.of_nat (length models)) MAX_COST_MODELS;
  _ ← check_limit (lit "line items") (Z.of_nat (length line_items)) MAX_COST_LINE_ITEMS;
  models_used ← traverse_list label models_used;
  let models_used := sort_by_key (λ m, m) models_used in
  _ ← ensure_unique (BoundedText.as_str <$> models_used) (lit "model label");
  let models := sort_by_key CostUsageModelBreakdown.name models in
  _ ← ensure_unique (CostUsageModelBreakdown.name_str <$> models) (lit "model");
  let line_items := sort_by_key CostUsageLineItem.name line_items in
  _ ← ensure_unique ((λ i, BoundedText.as_str (CostUsageLineItem.name i)) <$> line_items)
        (lit "line item");
  Ok (mk day interval metrics models_used models line_items).

Definition without_personal_information (self : t) : t :=
  mk (day self) (interval self) (metrics self)
     (enumerate_map (λ _ ordinal, public_ordinal (lit "model") ordinal) (models_used self))
     (enumerate_map CostUsageModelBreakdown.without_personal_information (models self))
     (enumerate_map CostUsageLineItem.without_personal_information (line_items self)).
End daily.
End CostUsageDailyBucket.
Notation CostUsageDailyBucket := CostUsageDailyBucket.t.

Section normalize.
Context `{DecimalCrate}.
Definition normalize_daily (daily : list CostUsageDailyBucket) :
    Result CostUsageError (list CostUsageDailyBucket) :=
  _ ← check_limit (lit "daily buckets") (Z.of_nat (length daily)) MAX_COST_DAILY_BUCKETS;
  let daily := sort_by_key CostUsageDailyBucket.day daily in
  _ ← ensure_unique (CostUsageDailyBucket.day_str <$> daily) (lit "daily bucket");
  Ok daily.
Definition normalize_models (models : list CostUsageModelBreakdown) :
    Result CostUsageError (list CostUsageModelBreakdown) :=
  _ ← check_limit (lit "model breakdowns") (Z.of_nat (length models)) MAX_COST_MODELS;
  let models := sort_by_key CostUsageModelBreakdown.name models in
  _ ← ensure_unique (CostUsageModelBreakdown.name_str <$> models) (lit "model");
  Ok models.
Definition public_models : list CostUsageModelBreakdown → list CostUsageModelBreakdown :=
  enumerate_map CostUsageModelBreakdown.without_personal_information.
Definition public_daily : list CostUsageDailyBucket → list CostUsageDailyBucket :=
  fmap CostUsageDailyBucket.without_personal_information.
End normalize.

Module CostUsageProjectSourceBreakdown.
Section source.
Context `{DecimalCrate}.
Record t := mk {
  name : BoundedText COST_LABEL_BYTES;
  path : option (BoundedText COST_PATH_BYTES);
  metrics : CostUsageMetrics;
  daily : list CostUsageDailyBucket;
  models : list CostUsageModelBreakdown;
}.
#[global] Instance eq_dec : EqDecision t.
Proof. solve_decision. Defined.
Definition new (name : str) (path : option str) metrics daily models : Result CostUsageError t :=
  daily ← normalize_daily daily;
  models ← normalize_models models;
  name ← label name;
  path ← traverse_option label path;
  Ok (mk name path metrics daily models).
Definition sort_key (self : t) : str * option str :=
  (BoundedText.as_str (name self), BoundedText.as_str <$> path self).
Definition without_personal_information (self : t) (ordinal : Z) : t :=
  mk (public_ordinal (lit "source") ordinal) None (metrics self)
     (public_daily (daily self)) (public_models (models self)).
End source.
End CostUsageProjectSourceBreakdown.
Notation CostUsageProjectSourceBreakdown := CostUsageProjectSourceBreakdown.t.

Module CostUsageProjectBreakdown.
Section project.
Context `{DecimalCrate}.
Record t := mk {
  name : BoundedText COST_LABEL_BYTES;
  path : option (BoundedText COST_PATH_BYTES);
  metrics : CostUsageMetrics;
  daily : list CostUsageDailyBucket;
  models : list CostUsageModelBreakdown;
  sources : list CostUsageProjectSourceBreakdown;
}.
#[global] Instance eq_dec : EqDecision t.
Proof. solve_decision. Defined.
Definition new (name : str) (path : option str) metrics daily models
    (sources : list CostUsageProjectSourceBreakdown) : Result CostUsageError t :=
  daily ← normalize_daily daily;
  models ← normalize_models models;
  _ ← check_limit (lit "project sources") (Z.of_nat (length sources)) MAX_COST_PROJECT_SOURCES;
  let sources := sort_by_key CostUsageProjectSourceBreakdown.sort_key sources in
  if adjacent_dup CostUsageProjectSourceBreakdown.sort_key sources
  then Err (Duplicate (lit "project source")) else
  name ← label name;
  path ← traverse_option label path;
  Ok (mk name path metrics daily models sources).
Definition sort_key (self : t) : str * option str :=
  (BoundedText.as_str (name self), BoundedText.as_str <$> path self).
Definition without_personal_information (self : t) (ordinal : Z) : t :=
  mk (public_ordinal (lit "project") ordinal) None (metrics self)
     (public_daily (daily self)) (public_models (models self))
     (enumerate_map CostUsageProjectSourceBreakdown.without_personal_information (sources self)).
End project.
End CostUsageProjectBreakdown.
Notation CostUsageProjectBreakdown := CostUsageProjectBreakdown.t.

Module CostUsageSessionBreakdown.
Section session.
Context `{DecimalCrate}.
Record t := mk {
  session_id : BoundedText COST_LABEL_BYTES;
  last_activity : Timestamp;
  metrics : CostUsageMetrics;
  models : list CostUsageModelBreakdown;
}.
#[global] Instance eq_dec : EqDecision t.
Proof. solve_decision. Defined.
Definition new (session_id : str) last_activity metrics models : Result CostUsageError t :=
  models ← normalize_models models;
  session_id ← label session_id;
  Ok (mk session_id last_activity metrics models).
Definition without_personal_information (self : t) (ordinal : Z) : t :=
  mk (public_ordinal (lit "session") ordinal) (last_activity self) (metrics self)
     (public_models (models self)).
End session.
End CostUsageSessionBreakdown.
Notation CostUsageSessionBreakdown := CostUsageSessionBreakdown.t.

Module CostUsageHourlyBucket.
Section hourly.
Context `{DecimalCrate}.
Record t := new { hour : Timestamp; metrics : CostUsageMetrics }.
#[global] Instance eq_dec : EqDecision t.
Proof. solve_decision. Defined.
End hourly.
End CostUsageHourlyBucket.
Notation CostUsageHourlyBucket := CostUsageHourlyBucket.t.

Module CostUsageSnapshot.
Section snapshot.
Context `{DecimalCrate}.
Record t := mk {
  unit : CostUnit;
  session : CostUsageMetrics;
  history : CostUsageMetrics;
  metered_amount : option ExactDecimal;
  history_days : Z;
  history_coverage_established : bool;
  history_label : option (BoundedText COST_LABEL_BYTES);
  credential_scope_fingerprint : option (BoundedText CREDENTIAL_FINGERPRINT_BYTES);
  daily : list CostUsageDailyBucket;
  projects : list CostUsageProjectBreakdown;
  sessions : list CostUsageSessionBreakdown;
  hourly : list CostUsageHourlyBucket;
  updated_at : Timestamp;
  provenance : CostProvenance;
}.
#[global] Instance eq_dec : EqDecision t.
Proof. solve_decision. Defined.

Definition new (unit : CostUnit) session history metered_amount history_days
    history_coverage_established (history_label credential_scope_fingerprint : option str)
    daily (projects : list CostUsageProjectBreakdown) (sessions : list CostUsageSessionBreakdown)
    (hourly : list CostUsageHourlyBucket) updated_at provenance : Result CostUsageError t :=
  if negb ((1 <=? history_days) && (history_days <=? MAX_COST_HISTORY_DAYS))
  then Err InvalidHistoryDays else
  _ ← ensure_nonnegative (lit "metered amount") metered_amount;
  daily ← normalize_daily daily;
  _ ← check_limit (lit "projects") (Z.of_nat (length projects)) MAX_COST_PROJECTS;
  let projects := sort_by_key CostUsageProjectBreakdown.sort_key projects in
  if adjacent_dup CostUsageProjectBreakdown.sort_key projects
  then Err (Duplicate (lit "project")) else
  _ ← check_limit (lit "sessions") (Z.of_nat (length sessions)) MAX_COST_SESSIONS;
  let sessions := sort_by_key CostUsageSessionBreakdown.session_id sessions in
  _ ← ensure_unique
        ((λ s, BoundedText.as_str (CostUsageSessionBreakdown.session_id s)) <$> sessions)
        (lit "session");
  _ ← check_limit (lit "hourly buckets") (Z.of_nat (length hourly)) MAX_COST_HOURLY_BUCKETS;
  let hourly := sort_by_key CostUsageHourlyBucket.hour hourly in
  if adjacent_dup CostUsageHourlyBucket.hour hourly
  then Err (Duplicate (lit "hourly timestamp")) else
  history_label ← traverse_option label history_label;
  credential_scope_fingerprint ← traverse_option label credential_scope_fingerprint;
  Ok (mk unit session history metered_amount history_days history_coverage_established
         history_label credential_scope_fingerprint daily projects sessions hourly
         updated_at provenance).

Definition without_personal_information (self : t) : t :=
  mk (match unit self with
      | Currency currency => Currency currency
      | Provider _ => Provider (BoundedText.expect (lit "credits"))
      end)
     (session self) (history self) (metered_amount self) (history_days self)
     (history_coverage_established self) None None
     (public_daily (daily self))
     (enumerate_map CostUsageProjectBreakdown.without_personal_information (projects self))
     (enumerate_map CostUsageSessionBreakdown.without_personal_information (sessions self))
     (hourly self) (updated_at self) (provenance self).
End snapshot.
End CostUsageSnapshot.
Notation CostUsageSnapshot := CostUsageSnapshot.t.

(** ** Canonical collections *)

Lemma check_limit_Ok lab n m u : check_limit lab n m = Ok u ↔ n ≤ m.
Proof. unfold check_limit. destruct u, (Z.ltb_spec m n); split; naive_solver lia. Qed.
Lemma check_limit_perm {A} lab (l k : list A) m :
  l ≡ₚ k → check_limit lab (Z.of_nat (length l)) m = check_limit lab (Z.of_nat (length k)) m.
Proof. by intros ->. Qed.
Lemma label_wf {M} s (b : BoundedText M) : label s = Ok b → BoundedText.wf b.
Proof. unfold label. rewrite map_err_Ok. by intros [? _]%BoundedTextFacts.new_wf. Qed.

Section cost_facts.
Context `{DecimalCrate}.
Import CostUsageSnapshot.

Lemma session_same_key (x y : CostUsageSessionBreakdown) :
  CostUsageSessionBreakdown.session_id x = CostUsageSessionBreakdown.session_id y ↔
  BoundedText.as_str (CostUsageSessionBreakdown.session_id x) =
  BoundedText.as_str (CostUsageSessionBreakdown.session_id y).
Proof. apply as_str_same_key. Qed.
Lemma normalize_daily_perm l l' : l ≡ₚ l' → normalize_daily l = normalize_daily l'.
Proof.
  intros E. unfold normalize_daily. rewrite (check_limit_perm _ _ _ _ E).
  destruct (check_limit _ _ _); [|done].
  apply (sorted_unique_perm CostUsageDailyBucket.day CostUsageDailyBucket.day_str); [|done].
  intros; apply as_str_same_key.
Qed.
Lemma ensure_unique_Ok values lab u : ensure_unique values lab = Ok u → unique_b values = true.
Proof. unfold ensure_unique. by destruct (unique_b values). Qed.
Lemma normalize_daily_Ok l d :
  normalize_daily l = Ok d → d ≡ₚ l ∧ strictly_sorted CostUsageDailyBucket.day d
    ∧ Z.of_nat (length d) ≤ MAX_COST_DAILY_BUCKETS.
Proof.
  unfold normalize_daily. intros ([] & Hl%check_limit_Ok & E)%bind_Ok.
  apply bind_Ok in E as ([] & Hu & [= <-]).
  split_and!; [apply sort_by_key_perm| |by rewrite sort_by_key_length].
  apply ensure_unique_Ok in Hu. eapply unique_sorted_strict; [|exact Hu].
  intros; apply as_str_same_key.
Qed.

(** The collections of a snapshot are sorted by their keys without repetition
    and within their limits. *)
Record canonical_snapshot (s : t) : Prop := {
  can_daily : strictly_sorted CostUsageDailyBucket.day (daily s);
  can_projects : strictly_sorted CostUsageProjectBreakdown.sort_key (projects s);
  can_sessions : strictly_sorted CostUsageSessionBreakdown.session_id (sessions s);
  can_hourly : strictly_sorted CostUsageHourlyBucket.hour (hourly s);
  can_lengths :
    Z.of_nat (length (daily s)) ≤ MAX_COST_DAILY_BUCKETS ∧
    Z.of_nat (length (projects s)) ≤ MAX_COST_PROJECTS ∧
    Z.of_nat (length (sessions s)) ≤ MAX_COST_SESSIONS ∧
    Z.of_nat (length (hourly s)) ≤ MAX_COST_HOURLY_BUCKETS;
  can_days : 1 ≤ history_days s ≤ MAX_COST_HISTORY_DAYS;
}.

(** A cost snapshot is a canonical form of its collections: the order in
    which days, projects, sessions and hours arrive never matters, not even for
    the error reported, and an accepted snapshot holds exactly the given
    entries, each collection strictly sorted by its key and within its limit. *)
Theorem cost_snapshot_canonical u se hi m n cov lab fp ds ps ss hs up pr :
  (∀ ds' ps' ss' hs', ds ≡ₚ ds' → ps ≡ₚ ps' → ss ≡ₚ ss' → hs ≡ₚ hs' →
     new u se hi m n cov lab fp ds' ps' ss' hs' up pr =
     new u se hi m n cov lab fp ds ps ss hs up pr) ∧
  match new u se hi m n cov lab fp ds ps ss hs up pr with
  | Ok s => canonical_snapshot s ∧
      daily s ≡ₚ ds ∧ projects s ≡ₚ ps ∧ sessions s ≡ₚ ss ∧ hourly s ≡ₚ hs
  | Err _ => True
  end.
Proof.
  split.
  - intros ds' ps' ss' hs' Ed Ep Es Eh. unfold new.
    destruct (negb _); [done|]. symmetry. apply bind_cong; [done|intros _].
    apply bind_cong; [by rewrite (normalize_daily_perm _ _ Ed)|intros d].
    apply bind_cong; [by apply check_limit_perm|intros _].
    reorder_adjacent Ep. destruct (adjacent_dup _ _); [done|].
    apply bind_cong; [by apply check_limit_perm|intros _].
    reorder_unique (sort_by_key CostUsageSessionBreakdown.session_id ss)
      CostUsageSessionBreakdown.session_id session_same_key Es.
    apply bind_cong; [done|intros _].
    apply bind_cong; [by apply check_limit_perm|intros _].
    by reorder_adjacent Eh.
  - destruct (new u se hi m n cov lab fp ds ps ss hs up pr) as [s|] eqn:E; [|done].
    unfold new in E. destruct (negb _) eqn:Hn; [done|].
    apply negb_false_iff, andb_true_iff in Hn. rewrite !Z.leb_le in Hn.
    apply bind_Ok in E as (_ & _ & E). apply bind_Ok in E as (d & Hd%normalize_daily_Ok & E).
    destruct Hd as (Hd1 & Hd2 & Hd3).
    apply bind_Ok in E as (_ & Hp%check_limit_Ok & E).
    destruct (adjacent_dup _ _) eqn:Hpu in E; [done|]. apply adjacent_dup_sort in Hpu.
    apply bind_Ok in E as (_ & Hs%check_limit_Ok & E). apply bind_Ok in E as (? & Hsu & E).
    apply bind_Ok in E as (_ & Hh%check_limit_Ok & E).
    destruct (adjacent_dup CostUsageHourlyBucket.hour _) eqn:Hhu; [done|].
    apply adjacent_dup_sort in Hhu.
    apply bind_Ok in E as (? & _ & E). apply bind_Ok in E as (? & _ & [= <-]).
    split_and!; cbn; rewrite ?sort_by_key_perm; try done.
    split; cbn; rewrite ?sort_by_key_length; try done; [by apply sort_by_key_strict| |by apply sort_by_key_strict].
    apply ensure_unique_Ok in Hsu. eapply unique_sorted_strict; [|exact Hsu].
    intros; apply as_str_same_key.
Qed.
End cost_facts.

(** ** Counts *)
Lemma coverage_total p u m e :
  0 ≤ p → 0 ≤ u → 0 ≤ m → 0 ≤ e →
  CostUsageCoverage.total (CostUsageCoverage.mk p u m e) =
  if p + u + m + e <=? u64_max then Some (p + u + m + e) else None.
Proof.
  intros. unfold CostUsageCoverage.total, checked_add; cbn.
  destruct (Z.leb_spec (p + u + m + e) u64_max).
  - rewrite (proj2 (Z.leb_le (p + u) _)) by lia. cbn.
    rewrite (proj2 (Z.leb_le (p + u + m) _)) by lia. cbn.
    by rewrite (proj2 (Z.leb_le (p + u + m + e) _)) by lia.
  - destruct (Z.leb_spec (p + u) u64_max); cbn; [|done].
    destruct (Z.leb_spec (p + u + m) u64_max); cbn; [|done].
    by rewrite (proj2 (Z.leb_gt _ _)) by lia.
Qed.

(** Coverage counts never overflow and never exceed a known request count:
    building the counts and then the metrics succeeds exactly when their sum
    fits in 64 bits, the amount is not negative and the sum is at most the
    request count where there is one, and each refusal names its own cause. *)
Theorem coverage_within_requests `{DecimalCrate} p u m e mix tokens requests amt :
  0 ≤ p → 0 ≤ u → 0 ≤ m → 0 ≤ e →
  match (c ← CostUsageCoverage.new p u m e;
         CostUsageMetrics.new mix tokens requests amt c) with
  | Ok x =>
      CostUsageCoverage.total (CostUsageMetrics.coverage x) = Some (p + u + m + e) ∧
      p + u + m + e ≤ u64_max ∧
      (∀ r, requests = Some r → p + u + m + e ≤ r) ∧
      (∀ a, amt = Some a → ExactDecimal.is_negative a = false)
  | Err CoverageOverflow => u64_max < p + u + m + e
  | Err CoverageExceedsRequests => ∃ r, requests = Some r ∧ r < p + u + m + e
  | Err (NegativeAmount _) => ∃ a, amt = Some a ∧ ExactDecimal.is_negative a = true
  | Err _ => False
  end.
Proof.
  intros Hp Hu Hm He. unfold CostUsageCoverage.new, CostUsageMetrics.new.
  pose proof (coverage_total p u m e Hp Hu Hm He) as Ht. rewrite Ht.
  destruct (Z.leb_spec (p + u + m + e) u64_max) as [Hb|Hb]; cbn [ok_or mbind Result_bind]; [|lia].
  destruct (ensure_nonnegative _ amt) as [[]|er] eqn:Ha; cbn [mbind Result_bind].
  - assert (∀ a, amt = Some a → ExactDecimal.is_negative a = false) as Hneg.
    { intros a ->. cbn in Ha. by destruct (ExactDecimal.is_negative a). }
    rewrite Ht. destruct requests as [r|]; [|by split_and!].
    destruct (Z.ltb_spec r (p + u + m + e)); [by exists r|]. split_and!; try done.
    intros r' [= <-]. lia.
  - destruct amt as [a|]; [|done]. cbn in Ha.
    destruct (ExactDecimal.is_negative a) eqn:?; [|done]. injection Ha as <-. by exists a.
Qed.
Definition metrics_example : Result CostUsageError (@CostUsageMetrics Reference.decimal) :=
  c ← CostUsageCoverage.new 3 1 0 2;
  CostUsageMetrics.new (CostUsageTokenMix.new None None None None None) None (Some 5) None c.
Definition exceeds_requests {A} (r : Result CostUsageError A) : bool :=
  match r with Err CoverageExceedsRequests => true | _ => false end.
Lemma coverage_within_requests_witness :
  exceeds_requests metrics_example = true ∧ ∃ r, Some 5 = Some r ∧ r < 3 + 1 + 0 + 2.
Proof.
  assert (exceeds_requests metrics_example = true) as E by (vm_compute; reflexivity).
  split; [exact E|].
  pose proof (@coverage_within_requests Reference.decimal 3 1 0 2
    (CostUsageTokenMix.new None None None None None) None (Some 5) None
    ltac:(lia) ltac:(lia) ltac:(lia) ltac:(lia)) as H.
  unfold metrics_example in E.
  destruct (mbind _ _) as [x|[]]; try discriminate E. exact H.
Defined.

(** ** The public projection *)
Definition public_prefixes : list str :=
  [lit "line-item"; lit "model"; lit "source"; lit "project"; lit "session"].
(** A label that says only what kind of entry it is and its position. *)
Definition public_label (b : BoundedText COST_LABEL_BYTES) : Prop :=
  BoundedText.wf b ∧
  ∃ prefix n, prefix ∈ public_prefixes ∧ BoundedText.as_str b = prefix ++ lit "-" ++ show_u64 n.

Lemma public_ordinal_label prefix ordinal :
  prefix ∈ public_prefixes → public_label (public_ordinal prefix ordinal).
Proof.
  intros Hin. unfold public_label, public_ordinal.
  set (n := saturating_add _ _ _).
  assert (BoundedText.new (prefix ++ lit "-" ++ show_u64 n)
    = Ok (BoundedText.mk (MAX_BYTES:=COST_LABEL_BYTES) (prefix ++ lit "-" ++ show_u64 n))) as E.
  { rewrite !app_assoc.
    assert ((∃ c k, prefix ++ lit "-" = c :: k ∧ is_whitespace c = false) ∧
      Forall (λ c, 32 ≤ c ≤ 126) (prefix ++ lit "-") ∧
      Z.of_nat (length (prefix ++ lit "-")) + 20 ≤ COST_LABEL_BYTES) as (H1 & H2 & H3).
    { revert Hin. unfold public_prefixes. rewrite !elem_of_cons, elem_of_nil.
      intros [->|[->|[->|[->|[->|[]]]]]];
        (split_and!; [by eexists _, _ | by_decide | vm_compute; discriminate]). }
    by apply new_ordinal_label. }
  unfold BoundedText.expect. rewrite E. split; [|by eexists _, _].
  by apply BoundedTextFacts.new_wf in E as [? _].
Qed.

Section projection.
Context `{DecimalCrate}.

(** The private text of each entry, dropped. *)
Definition anon {M} : BoundedText M := BoundedText.mk [].
Definition erase_model (m : CostUsageModelBreakdown) : CostUsageModelBreakdown :=
  CostUsageModelBreakdown.mk anon (CostUsageModelBreakdown.metrics m)
    (CostUsageModelBreakdown.standard_amount m) (CostUsageModelBreakdown.priority_amount m)
    (CostUsageModelBreakdown.standard_tokens m) (CostUsageModelBreakdown.priority_tokens m).
Definition erase_item (i : CostUsageLineItem) : CostUsageLineItem :=
  CostUsageLineItem.mk anon (CostUsageLineItem.amount i).
Definition erase_daily (d : CostUsageDailyBucket) : CostUsageDailyBucket :=
  CostUsageDailyBucket.mk (CostUsageDailyBucket.day d) (CostUsageDailyBucket.interval d)
    (CostUsageDailyBucket.metrics d) ((λ _, anon) <$> CostUsageDailyBucket.models_used d)
    (erase_model <$> CostUsageDailyBucket.models d)
    (erase_item <$> CostUsageDailyBucket.line_items d).
Definition erase_source (s : CostUsageProjectSourceBreakdown) : CostUsageProjectSourceBreakdown :=
  CostUsageProjectSourceBreakdown.mk anon None (CostUsageProjectSourceBreakdown.metrics s)
    (erase_daily <$> CostUsageProjectSourceBreakdown.daily s)
    (erase_model <$> CostUsageProjectSourceBreakdown.models s).
Definition erase_project (p : CostUsageProjectBreakdown) : CostUsageProjectBreakdown :=
  CostUsageProjectBreakdown.mk anon None (CostUsageProjectBreakdown.metrics p)
    (erase_daily <$> CostUsageProjectBreakdown.daily p)
    (erase_model <$> CostUsageProjectBreakdown.models p)
    (erase_source <$> CostUsageProjectBreakdown.sources p).
Definition erase_session (s : CostUsageSessionBreakdown) : CostUsageSessionBreakdown :=
  CostUsageSessionBreakdown.mk anon (CostUsageSessionBreakdown.last_activity s)
    (CostUsageSessionBreakdown.metrics s) (erase_model <$> CostUsageSessionBreakdown.models s).
Definition erase_unit (u : CostUnit) : CostUnit :=
  match u with Currency c => Currency c | Provider _ => Provider anon end.
Definition erase (s : CostUsageSnapshot) : CostUsageSnapshot :=
  CostUsageSnapshot.mk (erase_unit (CostUsageSnapshot.unit s)) (CostUsageSnapshot.session s)
    (CostUsageSnapshot.history s) (CostUsageSnapshot.metered_amount s)
    (CostUsageSnapshot.history_days s) (CostUsageSnapshot.history_coverage_established s)
    None None (erase_daily <$> CostUsageSnapshot.daily s)
    (erase_project <$> CostUsageSnapshot.projects s)
    (erase_session <$> CostUsageSnapshot.sessions s) (CostUsageSnapshot.hourly s)
    (CostUsageSnapshot.updated_at s) (CostUsageSnapshot.provenance s).

(** Every label a snapshot carries. *)
Definition daily_labels (d : CostUsageDailyBucket) : list (BoundedText COST_LABEL_BYTES) :=
  CostUsageDailyBucket.models_used d
  ++ (CostUsageModelBreakdown.name <$> CostUsageDailyBucket.models d)
  ++ (CostUsageLineItem.name <$> CostUsageDailyBucket.line_items d).
Definition source_labels (s : CostUsageProjectSourceBreakdown) : list (BoundedText COST_LABEL_BYTES) :=
  CostUsageProjectSourceBreakdown.name s
  :: (CostUsageProjectSourceBreakdown.daily s ≫= daily_labels)
  ++ (CostUsageModelBreakdown.name <$> CostUsageProjectSourceBreakdown.models s).
Definition project_labels (p : CostUsageProjectBreakdown) : list (BoundedText COST_LABEL_BYTES) :=
  CostUsageProjectBreakdown.name p
  :: (CostUsageProjectBreakdown.daily p ≫= daily_labels)
  ++ (CostUsageModelBreakdown.name <$> CostUsageProjectBreakdown.models p)
  ++ (CostUsageProjectBreakdown.sources p ≫= source_labels).
Definition session_labels (s : CostUsageSessionBreakdown) : list (BoundedText COST_LABEL_BYTES) :=
  CostUsageSessionBreakdown.session_id s
  :: (CostUsageModelBreakdown.name <$> CostUsageSessionBreakdown.models s).
Definition snapshot_labels (s : CostUsageSnapshot) : list (BoundedText COST_LABEL_BYTES) :=
  option_list (CostUsageSnapshot.history_label s)
  ++ (CostUsageSnapshot.daily s ≫= daily_labels)
  ++ (CostUsageSnapshot.projects s ≫= project_labels)
  ++ (CostUsageSnapshot.sessions s ≫= session_labels).

Lemma enumerate_map_ext {A B} (f : A → Z → B) (h : A → A) l :
  (∀ x i, f (h x) i = f x i) → enumerate_map f (h <$> l) = enumerate_map f l.
Proof. intros E. unfold enumerate_map. rewrite imap_fmap. apply imap_ext. intros; apply E. Qed.
Lemma Forall_enumerate_map {A B} (P : B → Prop) (f : A → Z → B) l :
  (∀ x i, P (f x i)) → Forall P (enumerate_map f l).
Proof.
  intros HP. apply Forall_lookup. intros i y. unfold enumerate_map.
  rewrite list_lookup_imap. intros (x & _ & ->)%fmap_Some. apply HP.
Qed.
Lemma Forall_flat {A B} (P : B → Prop) (f : A → list B) l :
  Forall (λ x, Forall P (f x)) l → Forall P (l ≫= f).
Proof. induction 1 as [|x l Hx _ IH]; [constructor|]. apply Forall_app_2; [exact Hx|exact IH]. Qed.

Lemma erase_model_project m i :
  CostUsageModelBreakdown.without_personal_information (erase_model m) i =
  CostUsageModelBreakdown.without_personal_information m i.
Proof. done. Qed.
Lemma erase_models_project l : public_models (erase_model <$> l) = public_models l.
Proof. by apply enumerate_map_ext. Qed.
Lemma erase_daily_project d :
  CostUsageDailyBucket.without_personal_information (erase_daily d) =
  CostUsageDailyBucket.without_personal_information d.
Proof.
  unfold CostUsageDailyBucket.without_personal_information. f_equal.
  - by apply (enumerate_map_ext _ (λ _, anon) (CostUsageDailyBucket.models_used d)).
  - by apply (enumerate_map_ext _ erase_model (CostUsageDailyBucket.models d)).
  - by apply (enumerate_map_ext _ erase_item (CostUsageDailyBucket.line_items d)).
Qed.
Lemma erase_days_project l : public_daily (erase_daily <$> l) = public_daily l.
Proof.
  unfold public_daily. rewrite <-list_fmap_compose. apply list_fmap_ext.
  intros ? d _. apply erase_daily_project.
Qed.
Lemma erase_source_project s i :
  CostUsageProjectSourceBreakdown.without_personal_information (erase_source s) i =
  CostUsageProjectSourceBreakdown.without_personal_information s i.
Proof.
  unfold CostUsageProjectSourceBreakdown.without_personal_information.
  f_equal; [apply erase_days_project|apply erase_models_project].
Qed.
Lemma erase_project_project p i :
  CostUsageProjectBreakdown.without_personal_information (erase_project p) i =
  CostUsageProjectBreakdown.without_personal_information p i.
Proof.
  unfold CostUsageProjectBreakdown.without_personal_information.
  f_equal; [apply erase_days_project|apply erase_models_project|].
  apply enumerate_map_ext, erase_source_project.
Qed.
Lemma erase_session_project s i :
  CostUsageSessionBreakdown.without_personal_information (erase_session s) i =
  CostUsageSessionBreakdown.without_personal_information s i.
Proof.
  unfold CostUsageSessionBreakdown.without_personal_information.
  f_equal. apply erase_models_project.
Qed.

Lemma public_models_labels l :
  Forall public_label (CostUsageModelBreakdown.name <$> public_models l).
Proof.
  apply Forall_fmap, Forall_enumerate_map. intros m i. apply public_ordinal_label. by_decide.
Qed.
Lemma public_daily_labels l : Forall public_label (public_daily l ≫= daily_labels).
Proof.
  apply Forall_flat. unfold public_daily. apply Forall_fmap, Forall_forall. intros d _. cbn.
  unfold daily_labels. rewrite !Forall_app. cbn. split_and!.
  - apply Forall_enumerate_map. intros m i. apply public_ordinal_label. by_decide.
  - apply public_models_labels.
  - apply Forall_fmap, Forall_enumerate_map. intros m i. apply public_ordinal_label. by_decide.
Qed.
Lemma public_source_labels (s : CostUsageProjectSourceBreakdown) i :
  Forall public_label
    (source_labels (CostUsageProjectSourceBreakdown.without_personal_information s i)).
Proof.
  unfold source_labels. cbn. constructor; [apply public_ordinal_label; by_decide|].
  apply Forall_app. split; [apply public_daily_labels|apply public_models_labels].
Qed.
Lemma public_project_labels (p : CostUsageProjectBreakdown) i :
  Forall public_label
    (project_labels (CostUsageProjectBreakdown.without_personal_information p i)).
Proof.
  unfold project_labels. cbn. constructor; [apply public_ordinal_label; by_decide|].
  rewrite !Forall_app. split_and!; [apply public_daily_labels|apply public_models_labels|].
  apply Forall_flat, Forall_enumerate_map. intros; apply public_source_labels.
Qed.

Lemma erase_cost_usage_project (s : CostUsageSnapshot) :
  CostUsageSnapshot.without_personal_information (erase s) =
  CostUsageSnapshot.without_personal_information s.
Proof.
  unfold CostUsageSnapshot.without_personal_information. f_equal.
  - by destruct s as [[]].
  - apply erase_days_project.
  - apply enumerate_map_ext, erase_project_project.
  - apply enumerate_map_ext, erase_session_project.
Qed.

(** The public projection of a cost snapshot tells nothing of its private
    text: it is the projection of the snapshot with every label, path, session
    id, fingerprint and provider unit erased, every label it does carry is a
    valid bounded text made of the kind of entry and a position, and no path or
    fingerprint is left. *)
Theorem cost_projection_public (s : CostUsageSnapshot) :
  let public := CostUsageSnapshot.without_personal_information s in
  CostUsageSnapshot.without_personal_information (erase s) = public ∧
  Forall public_label (snapshot_labels public) ∧
  CostUsageSnapshot.credential_scope_fingerprint public = None ∧
  Forall (λ p, CostUsageProjectBreakdown.path p = None ∧
    Forall (λ x, CostUsageProjectSourceBreakdown.path x = None) (CostUsageProjectBreakdown.sources p))
    (CostUsageSnapshot.projects public).
Proof.
  cbn zeta. split_and!; [|..|done|].
  - apply erase_cost_usage_project.
  - unfold snapshot_labels; cbn. rewrite !Forall_app. split_and!.
    + apply public_daily_labels.
    + apply Forall_flat, Forall_enumerate_map. intros; apply public_project_labels.
    + apply Forall_flat, Forall_enumerate_map. intros x i. unfold session_labels. cbn.
      constructor; [apply public_ordinal_label; by_decide|apply public_models_labels].
  - cbn. apply Forall_enumerate_map. intros p i. split; [done|]. cbn.
    by apply Forall_enumerate_map.
Qed.
End projection.

(** ** Days *)
Section days.
Context `{CalendarCrate}.

(** A [YYYY-MM-DD] date of the calendar, of a year other than zero. *)
Definition calendar_day (v : str) : Prop := ∃ y1 y2 y3 y4 m1 m2 d1 d2,
  v = [y1; y2; y3; y4; 45; m1; m2; 45; d1; d2] ∧
  Forall (λ c, is_ascii_digit c = true) [y1; y2; y3; y4; m1; m2; d1; d2] ∧
  digits_value [y1; y2; y3; y4] ≠ 0 ∧ month_try_from (digits_value [m1; m2]) = true ∧
  date_from_calendar_date (digits_value [y1; y2; y3; y4]) (digits_value [m1; m2])
    (digits_value [d1; d2]) = true.

Lemma ascii_bytes v : Forall (λ b, b < 128) (as_bytes v) → as_bytes v = v.
Proof.
  unfold as_bytes. induction v as [|c v IH]; [done|]. rewrite bind_cons, Forall_app.
  intros [Hc Hv]. rewrite (IH Hv). revert Hc. unfold utf8_char.
  destruct (Z.ltb_spec c 128); [done|]. intros Hc. exfalso.
  assert (0 <= c / 64 ∧ 0 <= c / 4096 ∧ 0 <= c / 262144) as (? & ? & ?)
    by (split_and!; apply Z.div_pos; lia).
  destruct (c <? 2048); [|destruct (c <? 65536)]; inversion Hc; lia.
Qed.

Lemma calendar_day_label v : calendar_day v → label v = Ok (BoundedText.mk (MAX_BYTES := 10) v).
Proof.
  intros (y1 & y2 & y3 & y4 & m1 & m2 & d1 & d2 & -> & Hd & _).
  assert (Forall (λ c, is_ascii_graphic c = true) [y1; y2; y3; y4; 45; m1; m2; 45; d1; d2]) as Hg.
  { pose proof (Forall_impl _ _ _ Hd digit_graphic) as Hd'.
    rewrite !Forall_cons in Hd'. repeat (constructor; [tauto || done|]). constructor. }
  unfold label. rewrite new_ascii; done.
Qed.
Lemma day_bytes_ascii y1 y2 y3 y4 m1 m2 d1 d2 :
  Forall (λ c, is_ascii_digit c = true) [y1; y2; y3; y4; m1; m2; d1; d2] →
  Forall (λ c, c < 128) [y1; y2; y3; y4; 45; m1; m2; 45; d1; d2].
Proof.
  intros Hd. assert (Forall (λ c, c < 128) [y1; y2; y3; y4; m1; m2; d1; d2]) as H1.
  { eapply Forall_impl; [exact Hd|]. intros c Hc%is_ascii_digit_range. lia. }
  rewrite !Forall_cons in H1. destruct_and! H1. repeat apply Forall_cons_2; done.
Qed.
(** The shape test on ten bytes. *)
Lemma ten_bytes (bs : list Z) :
  Z.of_nat (length bs) = 10 →
  ∃ y1 y2 y3 y4 s1 m1 m2 s2 d1 d2, bs = [y1; y2; y3; y4; s1; m1; m2; s2; d1; d2].
Proof.
  intros Hl. do 10 (destruct bs as [|? bs]; [cbn in Hl; lia|]).
  destruct bs; [|cbn in Hl; lia]. by repeat eexists.
Qed.

Lemma validate_day_cases v :
  validate_day v = Err InvalidDay ∨ calendar_day v ∧ validate_day v = label v.
Proof.
  unfold validate_day.
  destruct (Z.eqb_spec (Z.of_nat (length (as_bytes v))) 10) as [Hl|]; [|by left].
  apply ten_bytes in Hl as (y1 & y2 & y3 & y4 & s1 & m1 & m2 & s2 & d1 & d2 & Hb).
  rewrite Hb. cbn [nth negb orb].
  destruct (Z.eqb_spec s1 45) as [->|]; [|by left]. destruct (Z.eqb_spec s2 45) as [->|]; [|by left].
  cbn [negb orb]. destruct (existsb _ _) eqn:Hd; [by left|]. cbn in Hd.
  rewrite !orb_false_iff, !negb_false_iff in Hd. destruct_and! Hd.
  assert (Forall (λ c, is_ascii_digit c = true) [y1; y2; y3; y4; m1; m2; d1; d2]) as Hdig
    by by repeat constructor.
  assert (as_bytes v = v) as Hv.
  { apply ascii_bytes. rewrite Hb. by apply day_bytes_ascii. }
  cbn [take drop]. destruct (Z.eqb_spec (digits_value [y1; y2; y3; y4]) 0) as [|Hy]; [by left|].
  destruct (month_try_from _) eqn:Hm; [|by left]. cbn [negb].
  destruct (date_from_calendar_date _ _ _) eqn:Hdate; [|by left]. cbn [negb].
  right. split; [|done].
  exists y1, y2, y3, y4, m1, m2, d1, d2. rewrite <-Hv, Hb. by split_and!.
Qed.
Lemma validate_day_Ok v b : validate_day v = Ok b ↔ calendar_day v ∧ b = BoundedText.mk v.
Proof.
  split.
  - destruct (validate_day_cases v) as [->|[Hday ->]]; [done|].
    rewrite calendar_day_label by done. by intros [= <-].
  - intros [Hday ->]. pose proof (calendar_day_label v Hday) as El.
    destruct Hday as (y1 & y2 & y3 & y4 & m1 & m2 & d1 & d2 & -> & Hdig & Hy & Hm & Hdate).
    unfold validate_day.
    assert (as_bytes [y1; y2; y3; y4; 45; m1; m2; 45; d1; d2] =
      [y1; y2; y3; y4; 45; m1; m2; 45; d1; d2]) as ->.
    { apply as_bytes_ascii. by apply day_bytes_ascii. }
    rewrite !Forall_cons in Hdig. cbn [length]. change (Z.of_nat 10 =? 10) with true.
    cbn [nth negb orb]. change (45 =? 45) with true. cbn [negb orb].
    replace (existsb _ _) with false.
    2: { symmetry. cbn. destruct_and! Hdig.
         by repeat match goal with E : is_ascii_digit _ = true |- _ => rewrite E; clear E end. }
    cbn [take drop]. rewrite (proj2 (Z.eqb_neq _ _)) by done. by rewrite Hm, Hdate.
Qed.

(** C43. [validate_day] accepts exactly the [YYYY-MM-DD] dates of the calendar of
    a year other than zero, keeps the text as it is, and has no failure but
    [InvalidDay]: the text that passes the checks is always an acceptable
    bounded text. *)
Theorem validate_day_spec (v : str) :
  (∀ b, validate_day v = Ok b ↔ calendar_day v ∧ BoundedText.as_str b = v) ∧
  (∀ e, validate_day v = Err e → e = InvalidDay).
Proof.
  split.
  - intros b. rewrite validate_day_Ok. destruct b as [s]; cbn. naive_solver.
  - intros e. destruct (validate_day_cases v) as [->|[Hday ->]]; [congruence|].
    by rewrite calendar_day_label.
Qed.
End days.
