(* ===== verification/Detail.v ===== *)
(** * Snapshot parts  (crates/domain/src/snapshot.rs, identity.rs)

    The identity of an account, provider detail sections and extensions, the
    spend summary and the reset-credit inventory: the parts a usage sample is
    assembled from. *)
From stdpp Require Import prelude.
From S2P Require Import Prelude Ordering Text Percentage Externals Scope RateWindow Money CostUsage.
Local Open Scope Z_scope.

Definition MAX_EXTRA_WINDOWS : Z := 16.
Definition MAX_DETAIL_SECTIONS : Z := 8.
Definition MAX_DETAIL_ROWS : Z := 24.
Definition MAX_CHART_POINTS : Z := 120.
Definition MAX_PROVENANCE_ENTRIES : Z := 16.
Definition MAX_RESET_CREDITS : Z := 64.
Definition MAX_PROVIDER_EXTENSIONS : Z := 8.
Definition MAX_SNAPSHOTS_PER_ENVELOPE : Z := 256.
Definition MAX_IDENTITY_TEXT_BYTES : Z := 256.

Inductive SnapshotError :=
| ScopeMismatch
| NoLastKnownGood
| LimitExceeded (field : str) (maximum : Z)
| Duplicate (field : str)
| InvalidPeriod
| IncompletePeriod
| InvalidResetCreditTimeline
| InvalidResetCreditState
| ReportedResetCreditCountTooLarge
| StaleBeforeFetch
| ErrorRequiresStaleSnapshot
| InvalidText (e : BoundedText.error).

Definition check_limit (field : str) (actual maximum : Z) : Result SnapshotError unit :=
  if maximum <? actual then Err (LimitExceeded field maximum) else Ok tt.
Definition ensure_unique (values : list str) (field : str) : Result SnapshotError unit :=
  if unique_b values then Ok tt else Err (Duplicate field).
(** [?] on a [BoundedText] constructor, and on an optional one. *)
Definition text {M} (value : str) : Result SnapshotError (BoundedText M) :=
  map_err InvalidText (BoundedText.new value).
Definition optional_text {M} (value : option str) : Result SnapshotError (option (BoundedText M)) :=
  traverse_option text value.

Module IdentitySnapshot.
Record t := new {
  scope : AccountScope;
  provider_account_id : option (BoundedText MAX_IDENTITY_TEXT_BYTES);
  email : option (BoundedText MAX_IDENTITY_TEXT_BYTES);
  organization : option (BoundedText MAX_IDENTITY_TEXT_BYTES);
  account_label : option (BoundedText MAX_IDENTITY_TEXT_BYTES);
  plan : option (BoundedText MAX_IDENTITY_TEXT_BYTES);
  login_method : option (BoundedText MAX_IDENTITY_TEXT_BYTES);
}.
#[global] Instance eq_dec : EqDecision t.
Proof. solve_decision. Defined.
Definition redacted_for_scope (scope : AccountScope) : t :=
  new scope None None None None None None.
End IdentitySnapshot.
Notation IdentitySnapshot := IdentitySnapshot.t.

Inductive DataConfidence := Exact | Estimated | PercentOnly | UnknownConfidence.
#[global] Instance DataConfidence_eq_dec : EqDecision DataConfidence.
Proof. solve_decision. Defined.
Inductive DetailSensitivity := Public | Personal.
#[global] Instance DetailSensitivity_eq_dec : EqDecision DetailSensitivity.
Proof. solve_decision. Defined.

Module DetailRow.
Record t := mk {
  label : BoundedText 120;
  value : BoundedText 120;
  secondary_value : option (BoundedText 120);
  sensitivity : DetailSensitivity;
}.
#[global] Instance eq_dec : EqDecision t.
Proof. solve_decision. Defined.
Definition new (label value : str) (secondary_value : option str) sensitivity :
    Result SnapshotError t :=
  label ← text label;
  value ← text value;
  secondary_value ← optional_text secondary_value;
  Ok (mk label value secondary_value sensitivity).
End DetailRow.
Notation DetailRow := DetailRow.t.

Inductive DetailChartKind := Bars | Line.
#[global] Instance DetailChartKind_eq_dec : EqDecision DetailChartKind.
Proof. solve_decision. Defined.

Module DetailChartPoint.
Record t := mk { label : BoundedText 120; value : FiniteNumber }.
#[global] Instance eq_dec : EqDecision t.
Proof. solve_decision. Defined.
Definition new (label : str) (value : FiniteNumber) : Result SnapshotError t :=
  label ← text label; Ok (mk label value).
End DetailChartPoint.
Notation DetailChartPoint := DetailChartPoint.t.

Module DetailChart.
Record t := mk {
  kind : DetailChartKind;
  title : option (BoundedText 120);
  unit : option (BoundedText 120);
  points : list DetailChartPoint;
}.
#[global] Instance eq_dec : EqDecision t.
Proof. solve_decision. Defined.
Definition new kind (title unit : option str) points : Result SnapshotError t :=
  _ ← check_limit (lit "detail chart points") (Z.of_nat (length points)) MAX_CHART_POINTS;
  title ← optional_text title;
  unit ← optional_text unit;
  Ok (mk kind title unit points).
End DetailChart.
Notation DetailChart := DetailChart.t.

Module DetailSection.
Record t := mk {
  title : option (BoundedText 120);
  rows : list DetailRow;
  chart : option DetailChart;
}.
#[global] Instance eq_dec : EqDecision t.
Proof. solve_decision. Defined.
Definition new (title : option str) rows chart : Result SnapshotError t :=
  _ ← check_limit (lit "detail section rows") (Z.of_nat (length rows)) MAX_DETAIL_ROWS;
  title ← optional_text title;
  Ok (mk title rows chart).
End DetailSection.
Notation DetailSection := DetailSection.t.

Module ChartPoint.
Section point.
Context `{DecimalCrate}.
Record t := new { at_ : Timestamp; value : ExactDecimal }.
#[global] Instance eq_dec : EqDecision t.
Proof. solve_decision. Defined.
End point.
End ChartPoint.
Notation ChartPoint := ChartPoint.t.

Module Provenance.
Record t := mk { source : BoundedText 120; strategy : BoundedText 120 }.
#[global] Instance eq_dec : EqDecision t.
Proof. solve_decision. Defined.
Definition new (source strategy : str) : Result SnapshotError t :=
  source ← text source; strategy ← text strategy; Ok (mk source strategy).
End Provenance.
Notation Provenance := Provenance.t.

Module CostSummary.
Section cost.
Context `{DecimalCrate}.
Record t := mk {
  used : CostAmount;
  limit : ExactDecimal;
  period : option (BoundedText 120);
  resets_at : option Timestamp;
  next_regen_amount : option ExactDecimal;
  personal_used : option ExactDecimal;
  balance : option ExactDecimal;
  updated_at : Timestamp;
  period_start : option Timestamp;
  period_end : option Timestamp;
  provenance : CostProvenance;
}.
#[global] Instance eq_dec : EqDecision t.
Proof. solve_decision. Defined.
Definition new used limit (period : option str) resets_at next_regen_amount personal_used
    balance updated_at (period_start period_end : option Timestamp) provenance :
    Result SnapshotError t :=
  _ ← match period_start, period_end with
      | Some start, Some end_ => if Timestamp.leb end_ start then Err InvalidPeriod else Ok tt
      | Some _, None | None, Some _ => Err IncompletePeriod
      | None, None => Ok tt
      end;
  period ← optional_text period;
  Ok (mk used limit period resets_at next_regen_amount personal_used balance updated_at
         period_start period_end provenance).
Definition without_personal_information (self : t) : t :=
  mk (cost_amount_without_personal_information (used self)) (limit self) None (resets_at self)
     (next_regen_amount self) None (balance self) (updated_at self) (period_start self)
     (period_end self) (provenance self).
End cost.
End CostSummary.
Notation CostSummary := CostSummary.t.

(** ** Reset credits *)
Inductive ResetCreditStatusValidationError :=
| SurroundingWhitespace
| Reserved (value : str)
| InvalidStatusText (e : BoundedText.error).

Module UnknownResetCreditStatus.
Record t := mk { get : BoundedText 32 }.
#[global] Instance eq_dec : EqDecision t.
Proof. solve_decision. Defined.
Definition reserved (value : str) : bool :=
  bool_decide (value ∈ [lit "available"; lit "redeeming"; lit "redeemed"; lit "expired"]).
Definition new (value : str) : Result ResetCreditStatusValidationError t :=
  if negb (bool_decide (value = trim value)) then Err SurroundingWhitespace else
  if reserved value then Err (Reserved value) else
  mk <$> map_err InvalidStatusText (BoundedText.new value).
Definition as_str (self : t) : str := BoundedText.as_str (get self).
End UnknownResetCreditStatus.
Notation UnknownResetCreditStatus := UnknownResetCreditStatus.t.

Module ResetCreditStatus.
Inductive t :=
| Available | Redeeming | Redeemed | Expired
| Unknown (value : UnknownResetCreditStatus).
#[global] Instance eq_dec : EqDecision t.
Proof. solve_decision. Defined.
Definition serialize (self : t) : str :=
  match self with
  | Available => lit "available"
  | Redeeming => lit "redeeming"
  | Redeemed => lit "redeemed"
  | Expired => lit "expired"
  | Unknown value => UnknownResetCreditStatus.as_str value
  end.
Definition deserialize (value : str) : Result ResetCreditStatusValidationError t :=
  if negb (bool_decide (value = trim value)) then Err SurroundingWhitespace else
  if bool_decide (value = lit "available") then Ok Available else
  if bool_decide (value = lit "redeeming") then Ok Redeeming else
  if bool_decide (value = lit "redeemed") then Ok Redeemed else
  if bool_decide (value = lit "expired") then Ok Expired else
  Unknown <$> UnknownResetCreditStatus.new value.
Definition without_personal_information (self : t) : t :=
  match self with
  | Unknown _ =>
      match UnknownResetCreditStatus.new (lit "unknown") with
      | Ok value => Unknown value
      | Err _ => self
      end
  | _ => self
  end.
End ResetCreditStatus.
Notation ResetCreditStatus := ResetCreditStatus.t.

Module ResetCredit.
Record t := mk {
  scope : AccountScope;
  id : OpaqueRecordId;
  reset_type : BoundedText 64;
  status : ResetCreditStatus;
  granted_at : Timestamp;
  expires_at : option Timestamp;
  redeem_started_at : option Timestamp;
  redeemed_at : option Timestamp;
  title : option (BoundedText 120);
  description : option (BoundedText 120);
}.
#[global] Instance eq_dec : EqDecision t.
Proof. solve_decision. Defined.

(** [Option::is_some_and] *)
Definition is_some_and {A} (p : A → bool) (o : option A) : bool :=
  match o with Some x => p x | None => false end.

Definition timeline_is_inconsistent (granted_at : Timestamp)
    (expires_at redeem_started_at redeemed_at : option Timestamp) : bool :=
  is_some_and (λ value, Timestamp.leb value granted_at) expires_at
  || is_some_and (λ value, Timestamp.ltb value granted_at) redeem_started_at
  || is_some_and (λ value, Timestamp.ltb value (default granted_at redeem_started_at)) redeemed_at
  || is_some_and (λ expiry,
       is_some_and (λ started, Timestamp.leb expiry started) redeem_started_at
       || is_some_and (λ redeemed, Timestamp.ltb expiry redeemed) redeemed_at) expires_at.
Definition status_is_consistent (status : ResetCreditStatus)
    (redeem_started_at redeemed_at : option Timestamp) : bool :=
  match status with
  | ResetCreditStatus.Available =>
      bool_decide (redeem_started_at = None) && bool_decide (redeemed_at = None)
  | ResetCreditStatus.Redeeming =>
      bool_decide (redeem_started_at ≠ None) && bool_decide (redeemed_at = None)
  | ResetCreditStatus.Redeemed =>
      bool_decide (redeem_started_at ≠ None) && bool_decide (redeemed_at ≠ None)
  | ResetCreditStatus.Expired => bool_decide (redeemed_at = None)
  | ResetCreditStatus.Unknown _ => true
  end.

Definition from_parts scope id (reset_type : str) (status : ResetCreditStatus)
    (granted_at : Timestamp) (expires_at redeem_started_at redeemed_at : option Timestamp)
    (title description : option str) : Result SnapshotError t :=
  if timeline_is_inconsistent granted_at expires_at redeem_started_at redeemed_at
  then Err InvalidResetCreditTimeline else
  if negb (status_is_consistent status redeem_started_at redeemed_at)
  then Err InvalidResetCreditState else
  reset_type ← text reset_type;
  title ← optional_text title;
  description ← optional_text description;
  Ok (mk scope id reset_type status granted_at expires_at redeem_started_at redeemed_at
         title description).

Definition is_available_at (self : t) (now : Timestamp) : bool :=
  bool_decide (status self = ResetCreditStatus.Available)
  && match expires_at self with
     | None => true
     | Some expires_at => Timestamp.ltb now expires_at
     end.
Definition sort_key (self : t) : bool * (option Timestamp * str) :=
  (bool_decide (expires_at self = None), (expires_at self, OpaqueRecordId.as_str (id self))).

Section keyed.
Context `{HmacCrate}.
Definition from_provider (privacy_key : PrivacyKey) (scope : AccountScope)
    (raw_provider_id reset_type : str) status granted_at expires_at redeem_started_at
    redeemed_at title description : Result SnapshotError t :=
  raw_provider_id ← text (M := 512) raw_provider_id;
  let id := OpaqueRecordId.derive privacy_key scope ResetCreditKind
              [as_bytes (BoundedText.as_str raw_provider_id)] in
  from_parts scope id reset_type status granted_at expires_at redeem_started_at redeemed_at
    title description.
Definition without_personal_information (self : t) (scope : AccountScope) (ordinal : Z) : t :=
  mk scope (OpaqueRecordId.public_ordinal ResetCreditKind ordinal)
     (BoundedText.expect (lit "reset"))
     (ResetCreditStatus.without_personal_information (status self))
     (granted_at self) (expires_at self) (redeem_started_at self) (redeemed_at self) None None.
End keyed.

(** The wire form: every field, with the texts not yet validated. *)
Record repr := mk_repr {
  repr_scope : AccountScope;
  repr_id : OpaqueRecordId;
  repr_reset_type : str;
  repr_status : str;
  repr_granted_at : Timestamp;
  repr_expires_at : option Timestamp;
  repr_redeem_started_at : option Timestamp;
  repr_redeemed_at : option Timestamp;
  repr_title : option str;
  repr_description : option str;
}.
Definition serialize (self : t) : repr :=
  mk_repr (scope self) (id self) (BoundedText.as_str (reset_type self))
    (ResetCreditStatus.serialize (status self)) (granted_at self) (expires_at self)
    (redeem_started_at self) (redeemed_at self) (BoundedText.as_str <$> title self)
    (BoundedText.as_str <$> description self).
(** [None] is a decoding error; its text is not modelled. *)
Definition deserialize (r : repr) : option t :=
  status ← result_ok (ResetCreditStatus.deserialize (repr_status r));
  result_ok (from_parts (repr_scope r) (repr_id r) (repr_reset_type r) status
    (repr_granted_at r) (repr_expires_at r) (repr_redeem_started_at r) (repr_redeemed_at r)
    (repr_title r) (repr_description r)).
End ResetCredit.
Notation ResetCredit := ResetCredit.t.

Definition MAX_REPORTED_AVAILABLE_RESET_CREDITS : Z := 4096.

Module ResetCreditsSnapshot.
Record t := mk {
  scope : AccountScope;
  credits : list ResetCredit;
  reported_available_count : Z;
  updated_at : Timestamp;
}.
#[global] Instance eq_dec : EqDecision t.
Proof. solve_decision. Defined.

Definition new (scope : AccountScope) (credits : list ResetCredit)
    (reported_available_count : Z) (updated_at : Timestamp) : Result SnapshotError t :=
  _ ← check_limit (lit "reset credits") (Z.of_nat (length credits)) MAX_RESET_CREDITS;
  if MAX_REPORTED_AVAILABLE_RESET_CREDITS <? reported_available_count
  then Err ReportedResetCreditCountTooLarge else
  if existsb (λ c, negb (bool_decide (ResetCredit.scope c = scope))) credits
  then Err ScopeMismatch else
  if negb (unique_b (ResetCredit.id <$> credits)) then Err (Duplicate (lit "reset credit id")) else
  Ok (mk scope (sort_by_key ResetCredit.sort_key credits) reported_available_count updated_at).

Definition available_credits_at (self : t) (at_ : Timestamp) : list ResetCredit :=
  filter (λ c, ResetCredit.is_available_at c at_ = true) (credits self).
Definition reported_count_matches_inventory_at (self : t) (at_ : Timestamp) : bool :=
  reported_available_count self =? Z.of_nat (length (available_credits_at self at_)).

Definition without_personal_information `{HmacCrate} (self : t) (scope : AccountScope) : t :=
  mk scope
    (enumerate_map (λ credit ordinal, ResetCredit.without_personal_information credit scope ordinal)
       (credits self))
    (reported_available_count self) (updated_at self).
End ResetCreditsSnapshot.
Notation ResetCreditsSnapshot := ResetCreditsSnapshot.t.

(** ** Provider extensions *)
Inductive ProviderExtensionKind :=
| OpenAiApiUsage | MistralUsage | OpenCodeGoUsage | DeepSeekUsage | CommandCodeMarkers.
#[global] Instance ProviderExtensionKind_eq_dec : EqDecision ProviderExtensionKind.
Proof. solve_decision. Defined.
Definition extension_kind_index (k : ProviderExtensionKind) : Z :=
  match k with
  | OpenAiApiUsage => 0 | MistralUsage => 1 | OpenCodeGoUsage => 2 | DeepSeekUsage => 3
  | CommandCodeMarkers => 4
  end.
#[global] Instance extension_kind_index_inj : Inj (=) (=) extension_kind_index.
Proof. by intros [] []. Qed.
#[global] Instance ProviderExtensionKind_Cmp : Cmp ProviderExtensionKind :=
  cmp_on extension_kind_index.
#[global] Instance ProviderExtensionKind_CmpLaws : CmpLaws ProviderExtensionKind.
Proof. apply cmp_on_laws, _. Qed.

Section extension_value.
Context `{DecimalCrate}.
Inductive ExtensionValue :=
| TextValue (value : BoundedText 120)
| DecimalValue (value : ExactDecimal)
| BooleanValue (value : bool)
| TimestampValue (value : Timestamp).
#[global] Instance ExtensionValue_eq_dec : EqDecision ExtensionValue.
Proof. solve_decision. Defined.
End extension_value.

Module ExtensionFact.
Section fact.
Context `{DecimalCrate}.
Record t := mk {
  key : BoundedText 64;
  label : BoundedText 120;
  value : ExtensionValue;
  sensitivity : DetailSensitivity;
}.
#[global] Instance eq_dec : EqDecision t.
Proof. solve_decision. Defined.
Definition new (key label : str) value sensitivity : Result SnapshotError t :=
  key ← text key; label ← text label; Ok (mk key label value sensitivity).
End fact.
End ExtensionFact.
Notation ExtensionFact := ExtensionFact.t.

Module ProviderExtension.
Section extension.
Context `{DecimalCrate}.
Record t := mk {
  kind : ProviderExtensionKind;
  facts : list ExtensionFact;
  sections : list DetailSection;
}.
#[global] Instance eq_dec : EqDecision t.
Proof. solve_decision. Defined.
Definition new kind (facts : list ExtensionFact) (sections : list DetailSection) :
    Result SnapshotError t :=
  _ ← check_limit (lit "extension facts") (Z.of_nat (length facts)) 64;
  _ ← check_limit (lit "extension sections") (Z.of_nat (length sections)) MAX_DETAIL_SECTIONS;
  let facts := sort_by_key ExtensionFact.key facts in
  _ ← ensure_unique ((λ f, BoundedText.as_str (ExtensionFact.key f)) <$> facts)
        (lit "extension fact key");
  Ok (mk kind facts sections).
End extension.
End ProviderExtension.
Notation ProviderExtension := ProviderExtension.t.

(** ** Theorems *)
Import ResetCredit.

(** The statuses that constructors and the wire produce. *)
Definition status_wf (s : ResetCreditStatus) : Prop :=
  match s with
  | ResetCreditStatus.Unknown v =>
      BoundedText.wf (UnknownResetCreditStatus.get v) ∧
      UnknownResetCreditStatus.reserved (UnknownResetCreditStatus.as_str v) = false
  | _ => True
  end.

Lemma unknown_status_new_Ok v u :
  UnknownResetCreditStatus.new v = Ok u ↔
  UnknownResetCreditStatus.as_str u = v ∧ BoundedText.wf (UnknownResetCreditStatus.get u) ∧
  UnknownResetCreditStatus.reserved v = false.
Proof.
  unfold UnknownResetCreditStatus.new, UnknownResetCreditStatus.as_str. split.
  - case_bool_decide as Ht; [|done]. cbn [negb].
    destruct (UnknownResetCreditStatus.reserved v); [done|].
    intros (b & Hb%map_err_Ok%BoundedTextFacts.new_wf & <-)%fmap_Ok. cbn.
    destruct Hb as [? ->]. done.
  - intros (<- & Hwf & Hr). destruct (Hwf) as (_ & Ht & _). rewrite bool_decide_true by done.
    cbn [negb]. rewrite Hr, BoundedTextFacts.new_as_str by done. by destruct u.
Qed.

Lemma reset_status_rt :
  (∀ s, status_wf s → ResetCreditStatus.deserialize (ResetCreditStatus.serialize s) = Ok s) ∧
  (∀ v s, ResetCreditStatus.deserialize v = Ok s →
     status_wf s ∧ ResetCreditStatus.serialize s = v).
Proof.
  unfold ResetCreditStatus.deserialize. split.
  - intros [| | | |u] Hs; [vm_compute; done..|]. destruct Hs as [Hwf Hr]. cbn [ResetCreditStatus.serialize].
    destruct (Hwf) as (_ & Ht & _). rewrite bool_decide_true by done. cbn [negb].
    unfold UnknownResetCreditStatus.reserved in Hr. rewrite bool_decide_eq_false in Hr.
    rewrite !elem_of_cons in Hr.
    rewrite !bool_decide_false by tauto.
    rewrite (proj2 (unknown_status_new_Ok _ u)); [done|]. split_and!; try done.
    unfold UnknownResetCreditStatus.reserved. rewrite bool_decide_eq_false, !elem_of_cons. tauto.
  - intros v s. case_bool_decide; [|done]. cbn [negb].
    do 4 (case_bool_decide; [by intros [= <-]; subst|]).
    intros (u & (<- & Hwf & Hr)%unknown_status_new_Ok & <-)%fmap_Ok. done.
Qed.

(** A reset-credit status and its wire text determine each other: every
    status prints to a text that parses back to it, and a text that parses is
    the print of what it parses to, so no provider status can pass for one of
    the four normalized ones. *)
Theorem reset_status_roundtrip :
  (∀ s, status_wf s → ResetCreditStatus.deserialize (ResetCreditStatus.serialize s) = Ok s) ∧
  (∀ v s, ResetCreditStatus.deserialize v = Ok s →
     status_wf s ∧ ResetCreditStatus.serialize s = v).
Proof. exact reset_status_rt. Qed.

Lemma optional_text_Ok {M} o (r : option (BoundedText M)) :
  optional_text o = Ok r → ∀ b, r = Some b → BoundedText.wf b.
Proof.
  unfold optional_text, text. rewrite traverse_option_Ok.
  intros [[-> ->]|(a & b & -> & Hb%map_err_Ok & ->)] b' E; [done|].
  injection E as <-. by apply BoundedTextFacts.new_wf in Hb as [? _].
Qed.
Lemma optional_text_as_str {M} (r : option (BoundedText M)) :
  (∀ b, r = Some b → BoundedText.wf b) → optional_text (BoundedText.as_str <$> r) = Ok r.
Proof.
  intros H. destruct r as [b|]; [|done]. unfold optional_text, text; cbn.
  by rewrite BoundedTextFacts.new_as_str by by apply H.
Qed.

(** The chronology of an accepted credit. *)
Record lifecycle (c : ResetCredit) : Prop := {
  life_grant : ∀ e, expires_at c = Some e → Timestamp.nanos (granted_at c) < Timestamp.nanos e;
  life_start : ∀ s, redeem_started_at c = Some s →
    Timestamp.nanos (granted_at c) ≤ Timestamp.nanos s;
  life_start_expiry : ∀ s e, redeem_started_at c = Some s → expires_at c = Some e →
    Timestamp.nanos s < Timestamp.nanos e;
  life_redeem : ∀ r, redeemed_at c = Some r →
    Timestamp.nanos (granted_at c) ≤ Timestamp.nanos r;
  life_redeem_start : ∀ r s, redeemed_at c = Some r → redeem_started_at c = Some s →
    Timestamp.nanos s ≤ Timestamp.nanos r;
  life_redeem_expiry : ∀ r e, redeemed_at c = Some r → expires_at c = Some e →
    Timestamp.nanos r ≤ Timestamp.nanos e;
}.

Lemma timeline_spec c :
  timeline_is_inconsistent (granted_at c) (expires_at c) (redeem_started_at c) (redeemed_at c)
    = false ↔ lifecycle c.
Proof.
  destruct c as [? ? ? ? g e s r ? ?]; cbn. unfold timeline_is_inconsistent, Timestamp.leb, Timestamp.ltb.
  rewrite !orb_false_iff. split.
  - intros [[[He Hs] Hr] Hx].
    split; cbn; intros; subst; cbn in *;
      rewrite ?orb_false_iff, ?Z.leb_gt, ?Z.ltb_ge in *; try lia.
    destruct s; cbn in *; rewrite ?Z.ltb_ge in *; lia.
  - intros [H1 H2 H3 H4 H5 H6]; cbn in *.
    destruct e as [e|], s as [s|], r as [r|]; cbn; split_and!;
      rewrite ?orb_false_iff, ?Z.leb_gt, ?Z.ltb_ge; try done;
      try specialize (H1 _ eq_refl); try specialize (H2 _ eq_refl);
      try specialize (H3 _ _ eq_refl eq_refl); try specialize (H4 _ eq_refl);
      try specialize (H5 _ _ eq_refl eq_refl); try specialize (H6 _ _ eq_refl eq_refl);
      try split; lia.
Qed.

Lemma from_parts_Ok sc i ty st g e s r ti de c :
  from_parts sc i ty st g e s r ti de = Ok c ↔
  timeline_is_inconsistent g e s r = false ∧ status_is_consistent st s r = true ∧
  ∃ ty' ti' de', text ty = Ok ty' ∧ optional_text ti = Ok ti' ∧ optional_text de = Ok de' ∧
    c = mk sc i ty' st g e s r ti' de'.
Proof.
  unfold from_parts. destruct (timeline_is_inconsistent g e s r); [naive_solver|].
  destruct (status_is_consistent st s r); [|naive_solver]. cbn [negb]. split.
  - intros (ty' & Hty & E)%bind_Ok. apply bind_Ok in E as (ti' & Hti & E).
    apply bind_Ok in E as (de' & Hde & [= <-]). eauto 10.
  - intros (_ & _ & ty' & ti' & de' & Hty & Hti & Hde & ->).
    rewrite bind_Ok. exists ty'. split; [done|]. rewrite bind_Ok. exists ti'. split; [done|].
    rewrite bind_Ok. by exists de'.
Qed.

(** An accepted reset credit has a possible history: granted before it
    expires, started and redeemed in order and not after the expiry, with a
    status that fits; it is available only while nothing has been redeemed and
    the expiry lies ahead; and it is read back from its wire form unchanged.
    A credit is refused for its timeline exactly when the history is impossible. *)
Theorem reset_credit_lifecycle sc i ty st g e s r ti de :
  match from_parts sc i ty st g e s r ti de with
  | Ok c =>
      lifecycle c ∧
      (status c = ResetCreditStatus.Redeemed →
       is_Some (redeem_started_at c) ∧ is_Some (redeemed_at c)) ∧
      (∀ now, is_available_at c now = true →
       redeem_started_at c = None ∧ redeemed_at c = None ∧
       ∀ x, expires_at c = Some x → Timestamp.nanos now < Timestamp.nanos x) ∧
      (status_wf st → deserialize (serialize c) = Some c)
  | Err InvalidResetCreditTimeline =>
      ∀ ty' ti' de', ¬ lifecycle (mk sc i ty' st g e s r ti' de')
  | Err InvalidResetCreditState => status_is_consistent st s r = false
  | Err (InvalidText _) => True
  | Err _ => False
  end.
Proof.
  destruct (from_parts sc i ty st g e s r ti de) as [c|er] eqn:E.
  - pose proof E as (Ht & Hs & ty' & ti' & de' & Hty & Hti & Hde & ->)%from_parts_Ok.
    pose proof (optional_text_Ok _ _ Hti) as Wti. pose proof (optional_text_Ok _ _ Hde) as Wde.
    unfold text in Hty. apply map_err_Ok, BoundedTextFacts.new_wf in Hty as [Wty _].
    split_and!.
    + by apply timeline_spec.
    + cbn. intros ->. cbn in Hs. apply andb_true_iff in Hs. rewrite !bool_decide_eq_true in Hs.
      destruct s, r; naive_solver.
    + unfold is_available_at; cbn. intros now. rewrite andb_true_iff, bool_decide_eq_true.
      intros [-> He]. cbn in Hs. apply andb_true_iff in Hs. rewrite !bool_decide_eq_true in Hs.
      destruct Hs as [-> ->]. split_and!; try done. intros x ->.
      by apply Z.ltb_lt in He.
    + intros Hst. unfold deserialize, serialize; cbn.
      destruct reset_status_rt as [Hrt _].
      rewrite Hrt by done. cbn.
      rewrite (proj2 (from_parts_Ok _ _ _ _ _ _ _ _ _ _ (mk sc i ty' st g e s r ti' de'))); [done|].
      split_and!; try done. exists ty', ti', de'. unfold text.
      rewrite BoundedTextFacts.new_as_str, !optional_text_as_str by done. done.
  - revert E. unfold from_parts.
    destruct (timeline_is_inconsistent g e s r) eqn:Ht.
    { intros [= <-] ty' ti' de' Hl. apply timeline_spec in Hl. cbn in Hl. congruence. }
    destruct (status_is_consistent st s r); cbn [negb]; [|by intros [= <-]].
    unfold optional_text, text. intros [E|(? & _ & E)]%bind_Err.
    { destruct (BoundedText.new ty); [done|]. by injection E as <-. }
    apply bind_Err in E as [E|(? & _ & E)].
    { destruct ti as [x'|]; [|done]. cbn in E. destruct (BoundedText.new x'); [done|].
      by injection E as <-. }
    apply bind_Err in E as [E|(? & _ & E)]; [|done].
    destruct de as [x'|]; [|done]. cbn in E. destruct (BoundedText.new x'); [done|].
    by injection E as <-.
Qed.
