(* ===== verification/Snapshot.v ===== *)
(** * Snapshots  (crates/domain/src/snapshot.rs, privacy.rs)

    Usage samples, the provider snapshot states, the snapshot envelope, the
    public projection of each and the policy that decides which surface sees
    which. *)
From stdpp Require Import prelude.
From S2P Require Import Prelude Ordering Text Percentage Externals Scope Errors RateWindow Money.
From S2P Require Import Status Credits CostUsage Detail.
Local Open Scope Z_scope.

Module UsageSample.
Section sample.
Context `{DecimalCrate}.
Record t := mk {
  scope : AccountScope;
  identity : IdentitySnapshot;
  fetched_at : Timestamp;
  primary : option RateWindow;
  secondary : option RateWindow;
  tertiary : option RateWindow;
  extra_windows : list NamedRateWindow;
  credits : option CreditsSnapshot;
  balance : option Money;
  cost : option CostSummary;
  cost_usage : option CostUsageSnapshot;
  subscription_renews_at : option Timestamp;
  subscription_expires_at : option Timestamp;
  reset_credits : option ResetCreditsSnapshot;
  detail_sections : list DetailSection;
  extensions : list ProviderExtension;
  chart_points : list ChartPoint;
  provenance : list Provenance;
  confidence : DataConfidence;
  status : ProviderStatus;
}.
#[global] Instance eq_dec : EqDecision t.
Proof. solve_decision. Defined.

Definition window_id (w : NamedRateWindow) : str := BoundedText.as_str (NamedRateWindow.id w).

Definition new (scope : AccountScope) (identity : IdentitySnapshot) fetched_at
    primary secondary tertiary (extra_windows : list NamedRateWindow)
    (credits : option CreditsSnapshot) balance cost
    subscription_renews_at subscription_expires_at (reset_credits : option ResetCreditsSnapshot)
    (detail_sections : list DetailSection) (extensions : list ProviderExtension)
    (chart_points : list ChartPoint) (provenance : list Provenance) confidence status :
    Result SnapshotError t :=
  if negb (bool_decide (IdentitySnapshot.scope identity = scope))
     || ResetCredit.is_some_and
          (λ c, negb (bool_decide (CreditsSnapshot.scope c = scope))) credits
     || ResetCredit.is_some_and
          (λ i, negb (bool_decide (ResetCreditsSnapshot.scope i = scope))) reset_credits
  then Err ScopeMismatch else
  _ ← check_limit (lit "extra windows") (Z.of_nat (length extra_windows)) MAX_EXTRA_WINDOWS;
  _ ← check_limit (lit "detail sections") (Z.of_nat (length detail_sections)) MAX_DETAIL_SECTIONS;
  _ ← check_limit (lit "chart points") (Z.of_nat (length chart_points)) MAX_CHART_POINTS;
  _ ← check_limit (lit "provenance") (Z.of_nat (length provenance)) MAX_PROVENANCE_ENTRIES;
  _ ← check_limit (lit "provider extensions") (Z.of_nat (length extensions))
        MAX_PROVIDER_EXTENSIONS;
  let extra_windows := sort_by_key NamedRateWindow.id extra_windows in
  _ ← ensure_unique (window_id <$> extra_windows) (lit "extra window id");
  let extensions := sort_by_key ProviderExtension.kind extensions in
  if adjacent_dup ProviderExtension.kind extensions
  then Err (Duplicate (lit "provider extension kind")) else
  let chart_points := sort_by_key ChartPoint.at_ chart_points in
  if adjacent_dup ChartPoint.at_ chart_points
  then Err (Duplicate (lit "chart timestamp")) else
  Ok (mk scope identity fetched_at primary secondary tertiary extra_windows credits balance cost
         None subscription_renews_at subscription_expires_at reset_credits detail_sections
         extensions chart_points provenance confidence status).

Definition set_cost_usage (self : t) (cost_usage : option CostUsageSnapshot) : t :=
  mk (scope self) (identity self) (fetched_at self) (primary self) (secondary self)
     (tertiary self) (extra_windows self) (credits self) (balance self) (cost self) cost_usage
     (subscription_renews_at self) (subscription_expires_at self) (reset_credits self)
     (detail_sections self) (extensions self) (chart_points self) (provenance self)
     (confidence self) (status self).
Definition without_cost_usage (self : t) : t := set_cost_usage self None.
Definition with_cost_usage (self : t) (cost_usage : CostUsageSnapshot) : t :=
  set_cost_usage self (Some cost_usage).

Definition with_reset_credits (self : t) (inventory : ResetCreditsSnapshot) :
    Result SnapshotError t :=
  if negb (bool_decide (ResetCreditsSnapshot.scope inventory = scope self))
  then Err ScopeMismatch else
  Ok (mk (scope self) (identity self) (fetched_at self) (primary self) (secondary self)
     (tertiary self) (extra_windows self) (credits self) (balance self) (cost self)
     (cost_usage self) (subscription_renews_at self) (subscription_expires_at self)
     (Some inventory) (detail_sections self) (extensions self) (chart_points self)
     (provenance self) (confidence self) (status self)).

Definition available_reset_credits (self : t) (now : Timestamp) : list ResetCredit :=
  match reset_credits self with
  | Some inventory => ResetCreditsSnapshot.available_credits_at inventory now
  | None => []
  end.

Definition cached_window (cached : t) (fresh : NamedRateWindow) : option RateWindow :=
  NamedRateWindow.window <$>
    (find (λ candidate, bool_decide (NamedRateWindow.id candidate = NamedRateWindow.id fresh))
       (extra_windows cached)).
Definition backfill_named (cached : t) (now : Timestamp) (fresh : NamedRateWindow) : NamedRateWindow :=
  NamedRateWindow.mk (NamedRateWindow.id fresh) (NamedRateWindow.title fresh)
    (RateWindow.backfilling_reset_time (NamedRateWindow.window fresh)
       (cached_window cached fresh) now).

Definition backfilling_reset_times (self cached : t) (now : Timestamp) : Result SnapshotError t :=
  if negb (bool_decide (scope self = scope cached)) then Err ScopeMismatch else
  Ok (mk (scope self) (identity self) (fetched_at self)
     ((λ fresh, RateWindow.backfilling_reset_time fresh (primary cached) now) <$> primary self)
     ((λ fresh, RateWindow.backfilling_reset_time fresh (secondary cached) now) <$> secondary self)
     ((λ fresh, RateWindow.backfilling_reset_time fresh (tertiary cached) now) <$> tertiary self)
     (backfill_named cached now <$> extra_windows self)
     (credits self) (balance self) (cost self) (cost_usage self) (subscription_renews_at self)
     (subscription_expires_at self) (reset_credits self) (detail_sections self)
     (extensions self) (chart_points self) (provenance self) (confidence self) (status self)).

Definition redacted `{HmacCrate} (self : t) (scope : AccountScope) : t :=
  mk scope (IdentitySnapshot.redacted_for_scope scope) (fetched_at self)
    (RateWindow.without_personal_information <$> primary self)
    (RateWindow.without_personal_information <$> secondary self)
    (RateWindow.without_personal_information <$> tertiary self)
    (NamedRateWindow.public_projection (extra_windows self))
    ((λ c, CreditsSnapshot.without_personal_information c scope) <$> credits self)
    (balance self)
    (CostSummary.without_personal_information <$> cost self)
    (CostUsageSnapshot.without_personal_information <$> cost_usage self)
    (subscription_renews_at self) (subscription_expires_at self)
    ((λ i, ResetCreditsSnapshot.without_personal_information i scope) <$> reset_credits self)
    [] [] (chart_points self) [] (confidence self)
    (ProviderStatus.without_personal_information (status self)).
End sample.
End UsageSample.
Notation UsageSample := UsageSample.t.

(** ** Local history *)
Inductive LocalHistoryScope := AccountHistory | MachineHistory.
#[global] Instance LocalHistoryScope_eq_dec : EqDecision LocalHistoryScope.
Proof. solve_decision. Defined.
Inductive LocalHistoryState := Scanning | HistoryReady | HistoryEmpty | HistoryFailed.
#[global] Instance LocalHistoryState_eq_dec : EqDecision LocalHistoryState.
Proof. solve_decision. Defined.

Module LocalHistorySnapshot.
Section history.
Context `{DecimalCrate}.
Record t := mk {
  scope : LocalHistoryScope;
  state : LocalHistoryState;
  data : option CostUsageSnapshot;
}.
#[global] Instance eq_dec : EqDecision t.
Proof. solve_decision. Defined.
Definition redacted (history : t) : t :=
  mk (scope history) (state history)
     (CostUsageSnapshot.without_personal_information <$> data history).
End history.
End LocalHistorySnapshot.
Notation LocalHistorySnapshot := LocalHistorySnapshot.t.

(** ** Provider snapshots *)
Module ProviderSnapshot.
Section snapshot.
Context `{DecimalCrate}.
Inductive t :=
| Loading (local_history : option LocalHistorySnapshot) (scope : AccountScope)
| Ready (local_history : option LocalHistorySnapshot) (last_known_good : UsageSample)
    (freshness : Freshness) (refresh : RefreshPhase) (error : option ClassifiedError)
| Unavailable (local_history : option LocalHistorySnapshot) (scope : AccountScope)
    (error : ClassifiedError).
#[global] Instance eq_dec : EqDecision t.
Proof. solve_decision. Defined.

Definition local_history (self : t) : option LocalHistorySnapshot :=
  match self with Loading h _ | Ready h _ _ _ _ | Unavailable h _ _ => h end.
Definition with_local_history (self : t) (history : option LocalHistorySnapshot) : t :=
  match self with
  | Loading _ s => Loading history s
  | Ready _ l f r e => Ready history l f r e
  | Unavailable _ s e => Unavailable history s e
  end.
Definition loading (scope : AccountScope) : t := Loading None scope.
Definition ready (last_known_good : UsageSample) (freshness : Freshness) (refresh : RefreshPhase)
    (error : option ClassifiedError) : Result SnapshotError t :=
  if (match freshness with
      | Stale since => Timestamp.ltb since (UsageSample.fetched_at last_known_good)
      | _ => false
      end) then Err StaleBeforeFetch else
  if bool_decide (error ≠ None) && negb (match freshness with Stale _ => true | _ => false end)
  then Err ErrorRequiresStaleSnapshot else
  Ok (Ready None last_known_good freshness refresh error).
Definition unavailable (scope : AccountScope) (error : ClassifiedError) : t :=
  Unavailable None scope error.

Definition scope (self : t) : AccountScope :=
  match self with
  | Loading _ s | Unavailable _ s _ => s
  | Ready _ l _ _ _ => UsageSample.scope l
  end.
Definition last_known_good (self : t) : option UsageSample :=
  match self with Ready _ l _ _ _ => Some l | _ => None end.
Definition error (self : t) : option ClassifiedError :=
  match self with Ready _ _ _ _ e => e | Unavailable _ _ e => Some e | Loading _ _ => None end.
Definition freshness (self : t) : option Freshness :=
  match self with Ready _ _ f _ _ => Some f | _ => None end.
Definition refresh_phase (self : t) : option RefreshPhase :=
  match self with Ready _ _ _ r _ => Some r | _ => None end.

Definition with_error_overlay (self : t) (scope : AccountScope) (error : ClassifiedError)
    (stale_since : Timestamp) : Result SnapshotError t :=
  match self with
  | Ready _ last_known_good _ _ _ =>
      if negb (bool_decide (UsageSample.scope last_known_good = scope)) then Err ScopeMismatch
      else ready last_known_good (Stale stale_since) Idle (Some error)
  | _ => Err NoLastKnownGood
  end.

(** [None] is the panic of the [expect]. *)
Definition redacted `{HmacCrate} (self : t) (privacy_key : PrivacyKey) : option t :=
  let scope := public_projection (scope self) privacy_key in
  projected ← match self with
    | Loading _ _ => Some (loading scope)
    | Ready _ last_known_good freshness refresh error =>
        result_ok (ready (UsageSample.redacted last_known_good scope) freshness refresh
                     (ClassifiedError.public_projection <$> error))
    | Unavailable _ _ error => Some (unavailable scope (ClassifiedError.public_projection error))
    end;
  Some (with_local_history projected (LocalHistorySnapshot.redacted <$> local_history self)).
End snapshot.
End ProviderSnapshot.
Notation ProviderSnapshot := ProviderSnapshot.t.

(** ** The envelope *)
Module SnapshotEnvelopeV1.
Section envelope.
Context `{DecimalCrate}.
Record t := mk { generated_at : Timestamp; snapshots : list ProviderSnapshot }.
#[global] Instance eq_dec : EqDecision t.
Proof. solve_decision. Defined.
Definition schema_version (self : t) : Z := 1.
Definition new (generated_at : Timestamp) (snapshots : list ProviderSnapshot) :
    Result SnapshotError t :=
  _ ← check_limit (lit "snapshots") (Z.of_nat (length snapshots)) MAX_SNAPSHOTS_PER_ENVELOPE;
  let snapshots := sort_by_key ProviderSnapshot.scope snapshots in
  if adjacent_dup ProviderSnapshot.scope snapshots then Err (Duplicate (lit "account scope")) else
  Ok (mk generated_at snapshots).
Definition redacted `{HmacCrate} (self : t) (privacy_key : PrivacyKey) : option t :=
  mk (generated_at self) <$>
    mapM (λ s, ProviderSnapshot.redacted s privacy_key) (snapshots self).
End envelope.
End SnapshotEnvelopeV1.
Notation SnapshotEnvelopeV1 := SnapshotEnvelopeV1.t.

(** ** Privacy policy *)
Inductive PrivacyPolicy := ShowPersonalInfo | HidePersonalInfo.
#[global] Instance PrivacyPolicy_eq_dec : EqDecision PrivacyPolicy.
Proof. solve_decision. Defined.
Inductive PrivacySurface := Ui | Notification | Hook | Cli | Server | Export | Diagnostics | FleetSync.
Definition is_always_public (s : PrivacySurface) : bool :=
  match s with Export | Diagnostics | FleetSync => true | _ => false end.

Section surface.
Context `{DecimalCrate, HmacCrate}.
Inductive SurfaceSnapshotEnvelope :=
| Trusted (envelope : SnapshotEnvelopeV1)
| PublicSurface (projected : SnapshotEnvelopeV1).
Definition project (envelope : SnapshotEnvelopeV1) (policy : PrivacyPolicy)
    (surface : PrivacySurface) (privacy_key : PrivacyKey) : option SurfaceSnapshotEnvelope :=
  if bool_decide (policy = HidePersonalInfo) || is_always_public surface
  then PublicSurface <$> SnapshotEnvelopeV1.redacted envelope privacy_key
  else Some (Trusted envelope).
Definition surface_project (self : SurfaceSnapshotEnvelope) (policy : PrivacyPolicy)
    (surface : PrivacySurface) (privacy_key : PrivacyKey) : option SurfaceSnapshotEnvelope :=
  match self with
  | PublicSurface projected => Some (PublicSurface projected)
  | Trusted envelope => project envelope policy surface privacy_key
  end.
End surface.

(** ** Theorems *)
Lemma snapshot_limit_Ok lab n m u : check_limit lab n m = Ok u ↔ n ≤ m.
Proof. unfold check_limit. destruct u, (Z.ltb_spec m n); split; naive_solver lia. Qed.
Lemma snapshot_limit_perm {A} lab (l k : list A) m :
  l ≡ₚ k → check_limit lab (Z.of_nat (length l)) m = check_limit lab (Z.of_nat (length k)) m.
Proof. by intros ->. Qed.
Lemma snapshot_unique_Ok values lab u : ensure_unique values lab = Ok u → unique_b values = true.
Proof. unfold ensure_unique. by destruct (unique_b values). Qed.

Lemma window_same_key (x y : NamedRateWindow) :
  NamedRateWindow.id x = NamedRateWindow.id y ↔
  UsageSample.window_id x = UsageSample.window_id y.
Proof. apply as_str_same_key. Qed.

Section sample_facts.
Context `{DecimalCrate}.
Import UsageSample.

(** A usage sample is a canonical form of what the provider reported and
    never mixes accounts: the order in which windows, extensions and chart
    points arrive does not matter, not even for the error; an accepted sample
    holds exactly the given entries, strictly sorted by their keys and within
    the limits, carries no cost history yet, and the identity, the credits and
    the reset inventory all belong to its own scope. *)
Theorem usage_sample_canonical sc idn f p s t ws c b co r x rc ds es cps pv cf st :
  (∀ ws' es' cps', ws ≡ₚ ws' → es ≡ₚ es' → cps ≡ₚ cps' →
     new sc idn f p s t ws c b co r x rc ds es cps pv cf st =
     new sc idn f p s t ws' c b co r x rc ds es' cps' pv cf st) ∧
  match new sc idn f p s t ws c b co r x rc ds es cps pv cf st with
  | Ok m =>
      scope m = sc ∧ IdentitySnapshot.scope (identity m) = sc ∧
      (∀ y, credits m = Some y → CreditsSnapshot.scope y = sc) ∧
      (∀ y, reset_credits m = Some y → ResetCreditsSnapshot.scope y = sc) ∧
      cost_usage m = None ∧
      extra_windows m ≡ₚ ws ∧ strictly_sorted NamedRateWindow.id (extra_windows m) ∧
      extensions m ≡ₚ es ∧ strictly_sorted ProviderExtension.kind (extensions m) ∧
      chart_points m ≡ₚ cps ∧ strictly_sorted ChartPoint.at_ (chart_points m) ∧
      Z.of_nat (length ws) ≤ MAX_EXTRA_WINDOWS ∧ Z.of_nat (length cps) ≤ MAX_CHART_POINTS
  | Err _ => True
  end.
Proof.
  split.
  - intros ws' es' cps' Ew Ee Ec. unfold new. destruct (_ || _); [done|].
    apply bind_cong; [by apply snapshot_limit_perm|intros _]. apply bind_cong; [done|intros _].
    apply bind_cong; [by apply snapshot_limit_perm|intros _]. apply bind_cong; [done|intros _].
    apply bind_cong; [by apply snapshot_limit_perm|intros _].
    reorder_unique (sort_by_key NamedRateWindow.id ws) NamedRateWindow.id window_same_key Ew.
    apply bind_cong; [done|intros _].
    reorder_adjacent Ee. destruct (adjacent_dup _ _); [done|]. by reorder_adjacent Ec.
  - destruct (new sc idn f p s t ws c b co r x rc ds es cps pv cf st) as [m|] eqn:E; [|done].
    unfold new in E. destruct (_ || _) eqn:Hsc; [done|].
    rewrite !orb_false_iff, negb_false_iff, bool_decide_eq_true in Hsc.
    destruct Hsc as [[Hi Hcr] Hrc].
    apply bind_Ok in E as (? & Hw%snapshot_limit_Ok & E). apply bind_Ok in E as (? & _ & E).
    apply bind_Ok in E as (? & Hc%snapshot_limit_Ok & E). apply bind_Ok in E as (? & _ & E).
    apply bind_Ok in E as (? & _ & E). apply bind_Ok in E as (? & Hu%snapshot_unique_Ok & E).
    destruct (adjacent_dup ProviderExtension.kind _) eqn:He; [done|].
    destruct (adjacent_dup ChartPoint.at_ _) eqn:Hp; [done|]. injection E as <-.
    apply adjacent_dup_sort in He, Hp. cbn.
    split_and!; rewrite ?sort_by_key_perm; try done.
    + intros y ->. cbn in Hcr. rewrite negb_false_iff, bool_decide_eq_true in Hcr. done.
    + intros y ->. cbn in Hrc. rewrite negb_false_iff, bool_decide_eq_true in Hrc. done.
    + eapply unique_sorted_strict; [apply window_same_key|exact Hu].
    + by apply sort_by_key_strict.
    + by apply sort_by_key_strict.
Qed.

(** What a backfill leaves alone. *)
Definition same_but_windows (a b : UsageSample) : Prop :=
  mk (scope a) (identity a) (fetched_at a) None None None [] (credits a) (balance a) (cost a)
     (cost_usage a) (subscription_renews_at a) (subscription_expires_at a) (reset_credits a)
     (detail_sections a) (extensions a) (chart_points a) (provenance a) (confidence a) (status a) =
  mk (scope b) (identity b) (fetched_at b) None None None [] (credits b) (balance b) (cost b)
     (cost_usage b) (subscription_renews_at b) (subscription_expires_at b) (reset_credits b)
     (detail_sections b) (extensions b) (chart_points b) (provenance b) (confidence b) (status b).
(** The lane keeps every measured value and gains at most a future reset. *)
Definition lane_backfilled (now : Timestamp) (fresh filled : RateWindow) : Prop :=
  RateWindow.usage filled = RateWindow.usage fresh ∧
  RateWindow.next_regen_percent filled = RateWindow.next_regen_percent fresh ∧
  RateWindow.synthetic_placeholder filled = RateWindow.synthetic_placeholder fresh ∧
  (filled = fresh ∨ RateWindow.resets_at fresh = None ∧
     ∃ r, RateWindow.resets_at filled = Some r ∧ Timestamp.nanos now < Timestamp.nanos r).

Lemma backfill_lane now w c :
  lane_backfilled now w (RateWindow.backfilling_reset_time w c now).
Proof.
  destruct (backfill_usage w c now) as (Hu & Hn & Hs). split_and!; try done.
  unfold RateWindow.backfilling_reset_time.
  case_bool_decide as Hw; [by left|]. destruct c as [c|]; [|by left].
  destruct (RateWindow.resets_at c) as [r|]; [|by left].
  destruct (Timestamp.leb r now) eqn:Hr; [by left|]. right. split.
  - destruct (RateWindow.resets_at w); [|done]. destruct Hw. by eexists.
  - exists r. split; [done|]. unfold Timestamp.leb in Hr. lia.
Qed.
Lemma backfill_lane_opt now (o : option RateWindow) c :
  option_Forall2 (lane_backfilled now) o
    ((λ fresh, RateWindow.backfilling_reset_time fresh c now) <$> o).
Proof. destruct o; constructor. apply backfill_lane. Qed.

Lemma find_backfill cached now fresh l :
  find (λ candidate, bool_decide (NamedRateWindow.id candidate = NamedRateWindow.id fresh)) l =
  find (λ candidate, bool_decide (NamedRateWindow.id candidate =
          NamedRateWindow.id (backfill_named cached now fresh))) l.
Proof. done. Qed.

(** Backfilling a sample from the cached one succeeds exactly when both
    belong to the same account scope, changes nothing but the lanes, keeps the
    lanes and their order, never alters a measured value and fills only lanes
    without a reset, always with a reset that lies ahead; doing it again from
    the same cache changes nothing. *)
Theorem sample_backfill_spec (self cached : UsageSample) (now : Timestamp) :
  match backfilling_reset_times self cached now with
  | Ok r =>
      scope self = scope cached ∧ same_but_windows r self ∧
      option_Forall2 (lane_backfilled now) (primary self) (primary r) ∧
      option_Forall2 (lane_backfilled now) (secondary self) (secondary r) ∧
      option_Forall2 (lane_backfilled now) (tertiary self) (tertiary r) ∧
      Forall2 (λ w v, NamedRateWindow.id v = NamedRateWindow.id w ∧
                      NamedRateWindow.title v = NamedRateWindow.title w ∧
                      lane_backfilled now (NamedRateWindow.window w) (NamedRateWindow.window v))
        (extra_windows self) (extra_windows r) ∧
      backfilling_reset_times r cached now = Ok r
  | Err e => e = ScopeMismatch ∧ scope self ≠ scope cached
  end.
Proof.
  unfold backfilling_reset_times. case_bool_decide as Hs; cbn [negb]; [|done]. cbn.
  split_and!; try done; try apply backfill_lane_opt.
  - apply Forall2_fmap_r, Forall_Forall2_diag, Forall_forall. intros w _. cbn.
    split_and!; [done..|apply backfill_lane].
  - rewrite bool_decide_true by done. cbn. do 2 f_equal.
    all: try (match goal with |- _ <$> (_ <$> ?o) = _ => destruct o; [|done] end; cbn; f_equal;
              apply backfill_idemp).
    rewrite <-list_fmap_compose. apply list_fmap_ext. intros ? w _. cbn.
    unfold backfill_named at 1. cbn. unfold backfill_named. f_equal. apply backfill_idemp.
Qed.
End sample_facts.

(** ** Provider snapshots *)
Section provider_facts.
Context `{DecimalCrate}.
Import ProviderSnapshot.

(** The snapshots that constructors and the wire produce. *)
Definition stale_and_error_ok (l : UsageSample) (f : Freshness) (e : option ClassifiedError) : Prop :=
  (∀ since, f = Stale since →
     Timestamp.nanos (UsageSample.fetched_at l) ≤ Timestamp.nanos since) ∧
  (e ≠ None → ∃ since, f = Stale since).
Definition snapshot_ok (s : ProviderSnapshot) : Prop :=
  match s with Ready _ l f _ e => stale_and_error_ok l f e | _ => True end.

Lemma ready_Ok l f r e s :
  ready l f r e = Ok s ↔ stale_and_error_ok l f e ∧ s = Ready None l f r e.
Proof.
  unfold ready, stale_and_error_ok, Timestamp.ltb. split.
  - destruct f as [|since|].
    + case_bool_decide as He; cbn [andb negb]; [done|]. intros [= <-].
      split_and!; [done|tauto|done].
    + destruct (Z.ltb_spec (Timestamp.nanos since) (Timestamp.nanos (UsageSample.fetched_at l)));
        [done|]. rewrite andb_false_r. intros [= <-]. split_and!; [|eauto|done].
      by intros ? [= <-].
    + case_bool_decide as He; cbn [andb negb]; [done|]. intros [= <-].
      split_and!; [done|tauto|done].
  - intros [[Hs He] ->]. destruct f as [|since|].
    + rewrite bool_decide_false; [done|]. intros E. by destruct (He E).
    + rewrite (proj2 (Z.ltb_ge _ _)) by by apply Hs. by rewrite andb_false_r.
    + rewrite bool_decide_false; [done|]. intros E. by destruct (He E).
Qed.

(** Overlaying a refresh error keeps the data: it succeeds exactly on a
    ready snapshot of the same account scope whose sample was not fetched after
    the stale time, and then the sample is untouched, the snapshot is stale
    since that time, idle and carries the error. *)
Theorem error_overlay_spec (self : ProviderSnapshot) sc err since :
  match with_error_overlay self sc err since with
  | Ok s =>
      ∃ l, last_known_good self = Some l ∧ UsageSample.scope l = sc ∧
        Timestamp.nanos (UsageSample.fetched_at l) ≤ Timestamp.nanos since ∧
        s = Ready None l (Stale since) Idle (Some err) ∧ snapshot_ok s ∧ scope s = scope self
  | Err NoLastKnownGood => last_known_good self = None
  | Err ScopeMismatch => scope self ≠ sc
  | Err StaleBeforeFetch => ∃ l, last_known_good self = Some l ∧
      Timestamp.nanos since < Timestamp.nanos (UsageSample.fetched_at l)
  | Err _ => False
  end.
Proof.
  unfold with_error_overlay. destruct self as [h s|h l f r e|h s e]; cbn; [done| |done].
  case_bool_decide as Hs; cbn [negb]; [|done].
  destruct (ready l (Stale since) Idle (Some err)) as [s|er] eqn:E.
  - apply ready_Ok in E as [[Ht He] ->]. exists l. split_and!; try done. by apply Ht.
  - revert E. unfold ready, Timestamp.ltb.
    destruct (Z.ltb_spec (Timestamp.nanos since) (Timestamp.nanos (UsageSample.fetched_at l))).
    + intros [= <-]. by exists l.
    + by rewrite andb_false_r.
Qed.

(** ** The envelope *)
(** An envelope is a canonical form of its snapshots: their order never
    matters, it is accepted exactly for at most 256 snapshots of distinct
    account scopes, and then holds them in strictly increasing scope order. *)
Theorem envelope_canonical at_ ss :
  (∀ ss', ss ≡ₚ ss' → SnapshotEnvelopeV1.new at_ ss = SnapshotEnvelopeV1.new at_ ss') ∧
  match SnapshotEnvelopeV1.new at_ ss with
  | Ok e =>
      SnapshotEnvelopeV1.generated_at e = at_ ∧ SnapshotEnvelopeV1.snapshots e ≡ₚ ss ∧
      strictly_sorted scope (SnapshotEnvelopeV1.snapshots e) ∧
      Z.of_nat (length ss) ≤ MAX_SNAPSHOTS_PER_ENVELOPE
  | Err (LimitExceeded _ m) =>
      m = MAX_SNAPSHOTS_PER_ENVELOPE ∧ MAX_SNAPSHOTS_PER_ENVELOPE < Z.of_nat (length ss)
  | Err (Duplicate _) => ¬ NoDup (scope <$> ss)
  | Err _ => False
  end.
Proof.
  unfold SnapshotEnvelopeV1.new. split.
  - intros ss' E. apply bind_cong; [by apply snapshot_limit_perm|intros _].
    by reorder_adjacent E.
  - unfold check_limit.
    destruct (Z.ltb_spec MAX_SNAPSHOTS_PER_ENVELOPE (Z.of_nat (length ss))); cbn [mbind Result_bind];
      [done|].
    destruct (adjacent_dup scope (sort_by_key scope ss)) eqn:Hd.
    + intros Hn. apply not_false_iff_true in Hd as []. by apply adjacent_dup_sort.
    + apply adjacent_dup_sort in Hd. cbn. split_and!; try done.
      * apply sort_by_key_perm.
      * by apply sort_by_key_strict.
Qed.
End provider_facts.

(** ** Redaction *)
Section redaction.
Context `{DecimalCrate}.

(** The same value with its private text dropped. *)
Definition erase_named (w : NamedRateWindow) : NamedRateWindow :=
  NamedRateWindow.mk anon anon (RateWindow.without_personal_information (NamedRateWindow.window w)).
Definition erase_limit (l : CreditLimitSnapshot) : CreditLimitSnapshot :=
  CreditLimitSnapshot.mk anon (CreditLimitSnapshot.used l) (CreditLimitSnapshot.limit l)
    (CreditLimitSnapshot.remaining l) (CreditLimitSnapshot.remaining_percent l)
    (CreditLimitSnapshot.resets_at l) (CreditLimitSnapshot.updated_at l).
Definition erase_credits (c : CreditsSnapshot) : CreditsSnapshot :=
  CreditsSnapshot.mk (CreditsSnapshot.scope c) (CreditsSnapshot.remaining c) []
    (CreditsSnapshot.updated_at c) (erase_limit <$> CreditsSnapshot.limit c).
Definition erase_cost (c : CostSummary) : CostSummary :=
  CostSummary.mk (mk_cost_amount (cost_amount (CostSummary.used c))
      (erase_unit (cost_unit (CostSummary.used c)))) (CostSummary.limit c) None
    (CostSummary.resets_at c) (CostSummary.next_regen_amount c) None (CostSummary.balance c)
    (CostSummary.updated_at c) (CostSummary.period_start c) (CostSummary.period_end c)
    (CostSummary.provenance c).
Definition erase_reset_status (s : ResetCreditStatus) : ResetCreditStatus :=
  match s with
  | ResetCreditStatus.Unknown _ => ResetCreditStatus.Unknown (UnknownResetCreditStatus.mk anon)
  | _ => s
  end.
Definition erase_reset (c : ResetCredit) : ResetCredit :=
  ResetCredit.mk (ResetCredit.scope c) (OpaqueRecordId.mk []) anon
    (erase_reset_status (ResetCredit.status c)) (ResetCredit.granted_at c)
    (ResetCredit.expires_at c) (ResetCredit.redeem_started_at c) (ResetCredit.redeemed_at c)
    None None.
Definition erase_inventory (i : ResetCreditsSnapshot) : ResetCreditsSnapshot :=
  ResetCreditsSnapshot.mk (ResetCreditsSnapshot.scope i)
    (erase_reset <$> ResetCreditsSnapshot.credits i)
    (ResetCreditsSnapshot.reported_available_count i) (ResetCreditsSnapshot.updated_at i).
Definition erase_status (s : ProviderStatus) : ProviderStatus :=
  ProviderStatus.mk (ProviderStatus.health s) None (ProviderStatus.checked_at s) [] [].
(** Everything of a sample that may reach a public surface. *)
Definition erase_sample (m : UsageSample) : UsageSample :=
  UsageSample.mk (UsageSample.scope m)
    (IdentitySnapshot.redacted_for_scope (UsageSample.scope m)) (UsageSample.fetched_at m)
    (RateWindow.without_personal_information <$> UsageSample.primary m)
    (RateWindow.without_personal_information <$> UsageSample.secondary m)
    (RateWindow.without_personal_information <$> UsageSample.tertiary m)
    (erase_named <$> UsageSample.extra_windows m)
    (erase_credits <$> UsageSample.credits m) (UsageSample.balance m)
    (erase_cost <$> UsageSample.cost m) (erase <$> UsageSample.cost_usage m)
    (UsageSample.subscription_renews_at m) (UsageSample.subscription_expires_at m)
    (erase_inventory <$> UsageSample.reset_credits m) [] []
    (UsageSample.chart_points m) [] (UsageSample.confidence m)
    (erase_status (UsageSample.status m)).
Definition erase_history (h : LocalHistorySnapshot) : LocalHistorySnapshot :=
  LocalHistorySnapshot.mk (LocalHistorySnapshot.scope h) (LocalHistorySnapshot.state h)
    (erase <$> LocalHistorySnapshot.data h).
Definition erase_snapshot (s : ProviderSnapshot) : ProviderSnapshot :=
  match s with
  | ProviderSnapshot.Loading h sc => ProviderSnapshot.Loading (erase_history <$> h) sc
  | ProviderSnapshot.Ready h l f r e =>
      ProviderSnapshot.Ready (erase_history <$> h) (erase_sample l) f r e
  | ProviderSnapshot.Unavailable h sc e => ProviderSnapshot.Unavailable (erase_history <$> h) sc e
  end.
Definition erase_envelope (e : SnapshotEnvelopeV1) : SnapshotEnvelopeV1 :=
  SnapshotEnvelopeV1.mk (SnapshotEnvelopeV1.generated_at e)
    (erase_snapshot <$> SnapshotEnvelopeV1.snapshots e).

Lemma fmap_absorb {A B} (f : A → B) (h : A → A) (o : option A) :
  (∀ x, f (h x) = f x) → f <$> (h <$> o) = f <$> o.
Proof. intros E. destruct o; cbn; [by rewrite E|done]. Qed.

Lemma erase_named_project l :
  NamedRateWindow.public_projection (erase_named <$> l) = NamedRateWindow.public_projection l.
Proof. unfold NamedRateWindow.public_projection. rewrite imap_fmap. by apply imap_ext. Qed.
Lemma erase_credits_project c sc :
  CreditsSnapshot.without_personal_information (erase_credits c) sc =
  CreditsSnapshot.without_personal_information c sc.
Proof.
  unfold CreditsSnapshot.without_personal_information. f_equal. by apply fmap_absorb.
Qed.
Lemma erase_cost_project c :
  CostSummary.without_personal_information (erase_cost c) =
  CostSummary.without_personal_information c.
Proof. by destruct c as [[? []]]. Qed.

Context `{HmacCrate}.
Lemma erase_inventory_project i sc :
  ResetCreditsSnapshot.without_personal_information (erase_inventory i) sc =
  ResetCreditsSnapshot.without_personal_information i sc.
Proof.
  unfold ResetCreditsSnapshot.without_personal_information. f_equal.
  apply enumerate_map_ext. by intros [? ? ? []] ordinal.
Qed.
Lemma erase_sample_project m sc :
  UsageSample.redacted (erase_sample m) sc = UsageSample.redacted m sc.
Proof.
  unfold UsageSample.redacted, erase_sample.
  cbn -[CostUsageSnapshot.without_personal_information erase].
  rewrite erase_named_project, !fmap_absorb;
    [done|intros; apply erase_inventory_project|intros; apply erase_cost_usage_project|
     apply erase_cost_project|intros; apply erase_credits_project|done..].
Qed.
Lemma erase_history_project (h : option LocalHistorySnapshot) :
  LocalHistorySnapshot.redacted <$> (erase_history <$> h) = LocalHistorySnapshot.redacted <$> h.
Proof.
  apply fmap_absorb. intros [? ? o]. unfold LocalHistorySnapshot.redacted. f_equal.
  apply fmap_absorb, erase_cost_usage_project.
Qed.
Lemma erase_snapshot_project s k :
  ProviderSnapshot.redacted (erase_snapshot s) k = ProviderSnapshot.redacted s k.
Proof.
  unfold ProviderSnapshot.redacted. destruct s as [h sc|h l f r e|h sc e]; cbn [erase_snapshot
    ProviderSnapshot.local_history ProviderSnapshot.scope]; rewrite erase_history_project; [done| |done].
  change (UsageSample.scope (erase_sample l)) with (UsageSample.scope l).
  by rewrite erase_sample_project.
Qed.

(** What survives in the public projection of a snapshot. *)
Record public_of (k : PrivacyKey) (s p : ProviderSnapshot) : Prop := {
  pub_scope : ProviderSnapshot.scope p = public_projection (ProviderSnapshot.scope s) k;
  pub_sample : ProviderSnapshot.last_known_good p =
    (λ m, UsageSample.redacted m (public_projection (ProviderSnapshot.scope s) k))
      <$> ProviderSnapshot.last_known_good s;
  pub_freshness : ProviderSnapshot.freshness p = ProviderSnapshot.freshness s;
  pub_phase : ProviderSnapshot.refresh_phase p = ProviderSnapshot.refresh_phase s;
  pub_ok : snapshot_ok p;
}.

Lemma redacted_Some s k :
  snapshot_ok s → ∃ p, ProviderSnapshot.redacted s k = Some p ∧ public_of k s p.
Proof.
  intros Hs. unfold ProviderSnapshot.redacted. destruct s as [h sc|h l f r e|h sc e]; cbn in *.
  - eexists. split; [reflexivity|]. by split.
  - assert (stale_and_error_ok (UsageSample.redacted l (public_projection (UsageSample.scope l) k))
      f (ClassifiedError.public_projection <$> e)) as Hok.
    { destruct Hs as [H1 H2]. split; [exact H1|]. intros He. apply H2. by intros ->. }
    rewrite (proj2 (ready_Ok _ f r _ _) (conj Hok eq_refl)). cbn.
    eexists. split; [reflexivity|]. by split.
  - eexists. split; [reflexivity|]. by split.
Qed.
Lemma mapM_redacted l k :
  Forall snapshot_ok l →
  ∃ ps, mapM (λ s, ProviderSnapshot.redacted s k) l = Some ps ∧ Forall2 (public_of k) l ps.
Proof.
  induction 1 as [|s l Hs _ (ps & Hps & Hall)]; [by exists []|].
  destruct (redacted_Some s k Hs) as (p & Hp & Hpub). cbn. rewrite Hp. cbn. rewrite Hps. cbn.
  eexists. split; [done|]. by constructor.
Qed.

(** The public projection of an envelope never panics and tells nothing it
    should not: it is the projection of the envelope with all identities,
    labels, titles, ids, events, details, extensions, incidents and paths
    erased, so no such text can influence it; scopes appear only as their keyed
    aliases; and freshness, refresh phase and the ready-state invariants carry
    over. *)
Theorem envelope_redaction (env : SnapshotEnvelopeV1) (k : PrivacyKey) :
  Forall snapshot_ok (SnapshotEnvelopeV1.snapshots env) →
  ∃ pub, SnapshotEnvelopeV1.redacted env k = Some pub ∧
    SnapshotEnvelopeV1.redacted (erase_envelope env) k = Some pub ∧
    SnapshotEnvelopeV1.generated_at pub = SnapshotEnvelopeV1.generated_at env ∧
    Forall2 (public_of k) (SnapshotEnvelopeV1.snapshots env) (SnapshotEnvelopeV1.snapshots pub).
Proof.
  intros Hok. destruct (mapM_redacted _ k Hok) as (ps & Hps & Hall).
  exists (SnapshotEnvelopeV1.mk (SnapshotEnvelopeV1.generated_at env) ps).
  unfold SnapshotEnvelopeV1.redacted. cbn. rewrite Hps.
  assert (mapM (λ s, ProviderSnapshot.redacted s k)
    (erase_snapshot <$> SnapshotEnvelopeV1.snapshots env) = Some ps) as ->.
  { rewrite <-Hps. clear. induction (SnapshotEnvelopeV1.snapshots env) as [|s l IH]; [done|].
    cbn. by rewrite erase_snapshot_project, IH. }
  done.
Qed.

(** The surface policy: export, diagnostics and fleet sync, and every
    surface when personal information is hidden, get the public projection,
    every other surface gets the trusted view, and projecting a view that is
    already public, under any later policy, returns it as it is. *)
Theorem surface_policy (env : SnapshotEnvelopeV1) policy surface k :
  Forall snapshot_ok (SnapshotEnvelopeV1.snapshots env) →
  ∃ v, project env policy surface k = Some v ∧
    (if bool_decide (policy = ShowPersonalInfo) && negb (is_always_public surface)
     then v = Trusted env
     else ∃ pub, SnapshotEnvelopeV1.redacted env k = Some pub ∧ v = PublicSurface pub) ∧
    (∀ p1 s1 k1, ∃ w, surface_project v p1 s1 k1 = Some w ∧
       (bool_decide (policy = ShowPersonalInfo) && negb (is_always_public surface) = false → w = v) ∧
       (is_always_public s1 = true → ∃ pub, w = PublicSurface pub)).
Proof.
  intros Hok. assert (∀ p s k, bool_decide (p = HidePersonalInfo) || is_always_public s = true →
    ∃ pub, SnapshotEnvelopeV1.redacted env k = Some pub ∧
           project env p s k = Some (PublicSurface pub)) as Hpub.
  { intros p s k' E. destruct (mapM_redacted _ k' Hok) as (ps & Hps & _).
    unfold project. rewrite E. unfold SnapshotEnvelopeV1.redacted. rewrite Hps. cbn. eauto. }
  assert (∀ p s k, bool_decide (p = HidePersonalInfo) || is_always_public s = false →
    project env p s k = Some (Trusted env)) as Htr by (intros p s k' E; unfold project; by rewrite E).
  assert (bool_decide (policy = ShowPersonalInfo) && negb (is_always_public surface) =
    negb (bool_decide (policy = HidePersonalInfo) || is_always_public surface)) as Hb
    by by destruct policy, surface.
  rewrite Hb. destruct (bool_decide (policy = HidePersonalInfo) || is_always_public surface) eqn:E;
    cbn [negb].
  - destruct (Hpub policy surface k E) as (pub & Hp & Hv). exists (PublicSurface pub).
    split_and!; [done|eauto|]. intros. eexists. split; [done|]. eauto.
  - exists (Trusted env). split_and!; [by apply Htr|done|]. intros p1 s1 k1. cbn [surface_project].
    destruct (bool_decide (p1 = HidePersonalInfo) || is_always_public s1) eqn:E1.
    + destruct (Hpub p1 s1 k1 E1) as (pub & _ & Hv). exists (PublicSurface pub). split_and!; [done|done|eauto].
    + exists (Trusted env). split_and!; [by apply Htr|done|]. intros Hs.
      by rewrite Hs, orb_true_r in E1.
Qed.
End redaction.

(** ** Witnesses *)
Definition sample_example (fetched : Z) : @UsageSample Reference.decimal :=
  UsageSample.mk (scope_example (lit "ada"))
    (IdentitySnapshot.new (scope_example (lit "ada")) None (Some (BoundedText.mk (lit "a@b.c")))
       None None None None)
    (Timestamp.mk fetched) (Some lane_example) None None [] None None None None None None None
    [] [] [] [] Exact (ProviderStatus.mk Operational None None [] []).
Definition envelope_example : @SnapshotEnvelopeV1 Reference.decimal :=
  SnapshotEnvelopeV1.mk (Timestamp.mk 9)
    [ProviderSnapshot.Ready None (sample_example 5) (Stale (Timestamp.mk 7)) Idle
       (Some (ClassifiedError.new RateLimited));
     ProviderSnapshot.Loading None (scope_example (lit "bob"))].

Lemma envelope_example_ok : Forall snapshot_ok (SnapshotEnvelopeV1.snapshots envelope_example).
Proof.
  repeat constructor; cbn; [|by eexists]. intros since [= <-]. cbn. lia.
Defined.
Lemma envelope_redaction_witness :
  ∃ pub, @SnapshotEnvelopeV1.redacted Reference.decimal Reference.hmac envelope_example [1] = Some pub.
Proof.
  destruct (@envelope_redaction Reference.decimal Reference.hmac envelope_example [1]
    envelope_example_ok) as (pub & Hp & _).
  exists pub. exact Hp.
Defined.
Lemma surface_policy_witness :
  ∃ pub, @project Reference.decimal Reference.hmac envelope_example ShowPersonalInfo Export [1]
    = Some (PublicSurface pub).
Proof.
  destruct (@surface_policy Reference.decimal Reference.hmac envelope_example ShowPersonalInfo
    Export [1] envelope_example_ok) as (v & Hv & (pub & _ & ->) & _).
  exists pub. exact Hv.
Defined.
