(* ===== verification/Advisor.v ===== *)
(** * Reset advice  (crates/domain/src/advisor.rs)

    Which account to switch to, redeem a banked reset on, or wait for: the
    advised accounts, their projection from usage samples, and the decision. *)
From stdpp Require Import sorting prelude.
From Stdlib Require Import Floats.SpecFloat.
From S2P Require Import Prelude Ordering Text Percentage Externals Scope RateWindow.
From S2P Require Import Money CostUsage Detail Snapshot.
Local Open Scope Z_scope.

(** [CAPPED_USED_PERCENT = 99.5], [100.0]. *)
Definition CAPPED_USED_PERCENT : f64 :=
  Eval vm_compute in binary_normalize f64_prec f64_emax 199 (-1) false.
Definition MAX_ADVISOR_LABEL_LENGTH : Z := 256.
Definition MAX_ADVISED_ACCOUNTS : Z := 8.
Definition MAX_ADVISED_CREDITS : Z := 64.
Definition MAX_EXPIRY_NOTES : Z := 8.
Definition EXPIRY_NOTE_HORIZON_SECONDS : Z := 14 * 24 * 60 * 60.

(** [Option::filter] *)
Definition option_filter {A} (p : A → bool) (o : option A) : option A :=
  match o with Some a => if p a then Some a else None | None => None end.

Module AdvisorAccount.
Record t := mk {
  label_text : BoundedText MAX_ADVISOR_LABEL_LENGTH;
  capped : bool;
  remaining_percent : option f64;
  natural_reset : option Timestamp;
  credit_expiries : list (option Timestamp);
}.
#[global] Instance eq_dec : EqDecision t.
Proof. solve_decision. Defined.

Definition new (label : str) (capped : bool) (remaining_percent : option f64)
    (natural_reset : option Timestamp) (credit_expiries : list (option Timestamp))
    : Result SnapshotError t :=
  check_limit (lit "advised credits") (Z.of_nat (length credit_expiries)) MAX_ADVISED_CREDITS ;;
  label ← text label;
  Ok (mk label capped (option_filter is_finite remaining_percent)
         natural_reset credit_expiries).

Definition label (a : t) : str := BoundedText.as_str (label_text a).
Definition is_capped (a : t) : bool := capped a.
(** [iter().flatten().copied().min()]: derived order, first minimum. *)
Definition next_credit_expiry (a : t) : option Timestamp :=
  min_by cmp (omap id (credit_expiries a)).

(** The main lanes, folded in order: whether one is known, whether one is
    exhausted, the least headroom and the soonest future reset of a capped one. *)
Record lanes := mk_lanes {
  known : bool;
  lanes_capped : bool;
  lanes_remaining : option f64;
  lanes_reset : option Timestamp;
}.
Definition no_lanes : lanes := mk_lanes false false None None.
Definition add_lane (now : Timestamp) (acc : lanes) (lane : RateWindow) : lanes :=
  match RateWindow.used_percent lane with
  | None => acc
  | Some used_percent =>
      let used := UsagePercent.get used_percent in
      let left := f64_sub f64_hundred used in
      let remaining := Some (match lanes_remaining acc with
                             | Some current => f64_min current left
                             | None => left
                             end) in
      if f64_le CAPPED_USED_PERCENT used then
        let reset :=
          match option_filter (Timestamp.ltb now) (RateWindow.resets_at lane) with
          | Some resets_at =>
              Some (match lanes_reset acc with
                    | None => resets_at
                    | Some current => Timestamp.min current resets_at
                    end)
          | None => lanes_reset acc
          end in
        mk_lanes true true remaining reset
      else mk_lanes true (lanes_capped acc) remaining (lanes_reset acc)
  end.

Section from_sample.
Context `{DecimalCrate}.
Definition from_sample (sample : UsageSample) (now : Timestamp) : option t :=
  let main := option_list (UsageSample.primary sample)
              ++ option_list (UsageSample.secondary sample) in
  let acc := foldl (add_lane now) no_lanes main in
  if negb (known acc) then None else
  let identity := UsageSample.identity sample in
  let label :=
    match RateWindow.or_else (IdentitySnapshot.email identity)
            (IdentitySnapshot.account_label identity) with
    | Some text => BoundedText.as_str text
    | None => AccountKey.as_str (AccountScope.account (UsageSample.scope sample))
    end in
  let credit_expiries :=
    ResetCredit.expires_at <$> UsageSample.available_reset_credits sample now in
  result_ok (new label (lanes_capped acc) (lanes_remaining acc) (lanes_reset acc)
               credit_expiries).
End from_sample.

(** What [new] builds. *)
Definition wf (a : t) : Prop :=
  (∀ p, remaining_percent a = Some p → is_finite p = true) ∧
  Z.of_nat (length (credit_expiries a)) ≤ MAX_ADVISED_CREDITS.
End AdvisorAccount.
Notation AdvisorAccount := AdvisorAccount.t.

Inductive AdviceAction :=
| NotApplicable
| Switch (account : str)
| Redeem (account : str) (credit_expires_at : option Timestamp)
    (advances_availability_by_seconds : option Z)
| Wait (account : str) (resets_at : Timestamp) (resets_in_seconds : Z)
| Blocked.

Module ExpiringCredit.
Record t := mk {
  account : str;
  expires_at : Timestamp;
  expires_in_seconds : Z;
}.
#[global] Instance eq_dec : EqDecision t.
Proof. solve_decision. Defined.
End ExpiringCredit.
Notation ExpiringCredit := ExpiringCredit.t.

Definition action_account (a : AdviceAction) : option str :=
  match a with
  | NotApplicable | Blocked => None
  | Switch account | Redeem account _ _ | Wait account _ _ => Some account
  end.

(** [Option<f64>::partial_cmp]. *)
Definition option_partial_cmp (x y : option f64) : option comparison :=
  match x, y with
  | None, None => Some Eq
  | None, Some _ => Some Lt
  | Some _, None => Some Gt
  | Some x, Some y => f64_partial_cmp x y
  end.

Definition switch_order (left right : AdvisorAccount) : comparison :=
  then_ (default Eq (option_partial_cmp (AdvisorAccount.remaining_percent left)
                       (AdvisorAccount.remaining_percent right)))
        (cmp (AdvisorAccount.label left) (AdvisorAccount.label right)).

Definition soonest_reset (capped : list AdvisorAccount) (now : Timestamp)
    : option (AdvisorAccount * Timestamp) :=
  min_by (cmp_on (λ p : AdvisorAccount * Timestamp, (p.2, AdvisorAccount.label p.1)))
    (omap (λ account,
       match option_filter (Timestamp.ltb now) (AdvisorAccount.natural_reset account) with
       | Some reset => Some (account, reset)
       | None => None
       end) capped).

Definition seconds_or_max (t : option Timestamp) : Z :=
  match t with Some t => Timestamp.unix_timestamp t | None => i64_max end.

Definition redeem_order (left right : AdvisorAccount) : comparison :=
  let reserve := cmp (Z.of_nat (length (AdvisorAccount.credit_expiries left)) <? 2)
                     (Z.of_nat (length (AdvisorAccount.credit_expiries right)) <? 2) in
  let perishability := cmp (seconds_or_max (AdvisorAccount.next_credit_expiry left))
                           (seconds_or_max (AdvisorAccount.next_credit_expiry right)) in
  let natural := cmp (seconds_or_max (AdvisorAccount.natural_reset left))
                     (seconds_or_max (AdvisorAccount.natural_reset right)) in
  then_ (then_ (then_ reserve perishability) natural)
        (cmp (AdvisorAccount.label left) (AdvisorAccount.label right)).

Definition redeem_candidate (capped : list AdvisorAccount) : option AdvisorAccount :=
  min_by redeem_order
    (filter (λ account, negb (is_empty (AdvisorAccount.credit_expiries account)) = true) capped).

Definition wait_alternatives (wait : option (AdvisorAccount * Timestamp)) (now : Timestamp)
    : list AdviceAction :=
  match wait with
  | None => []
  | Some (account, resets_at) =>
      [Wait (AdvisorAccount.label account) resets_at
         (Timestamp.unix_timestamp resets_at - Timestamp.unix_timestamp now)]
  end.

Definition seconds_between (now : Timestamp) (until : option Timestamp) : option Z :=
  (λ until, Timestamp.unix_timestamp until - Timestamp.unix_timestamp now) <$> until.

Definition account_notes (now : Timestamp) (account : AdvisorAccount) : list ExpiringCredit :=
  (λ expires_at, ExpiringCredit.mk (AdvisorAccount.label account) expires_at
     (Timestamp.unix_timestamp expires_at - Timestamp.unix_timestamp now))
  <$> omap id (AdvisorAccount.credit_expiries account).
Definition note_due (note : ExpiringCredit) : bool :=
  (0 <? ExpiringCredit.expires_in_seconds note)
  && (ExpiringCredit.expires_in_seconds note <=? EXPIRY_NOTE_HORIZON_SECONDS).
Definition note_key (note : ExpiringCredit) : Timestamp * str :=
  (ExpiringCredit.expires_at note, ExpiringCredit.account note).
Definition expiring_notes (capped : list AdvisorAccount) (now : Timestamp) : list ExpiringCredit :=
  take (Z.to_nat MAX_EXPIRY_NOTES)
    (sort_by_key note_key
       (filter (λ note, note_due note = true) (capped ≫= account_notes now))).

Module ResetAdvice.
Record t := mk {
  primary : AdviceAction;
  alternatives : list AdviceAction;
  expiring : list ExpiringCredit;
}.

Definition not_applicable : t := mk NotApplicable [] [].

Definition evaluate (accounts : list AdvisorAccount) (now : Timestamp) (active : bool)
    : Result SnapshotError t :=
  check_limit (lit "advised accounts") (Z.of_nat (length accounts)) MAX_ADVISED_ACCOUNTS ;;
  let capped := filter (λ a, AdvisorAccount.is_capped a = true) accounts in
  if is_empty capped then Ok not_applicable else
  let expiring := expiring_notes capped now in
  let headroom := filter (λ a, negb (AdvisorAccount.is_capped a) = true) accounts in
  match max_by switch_order headroom with
  | Some best => Ok (mk (Switch (AdvisorAccount.label best)) [] expiring)
  | None =>
      let wait := soonest_reset capped now in
      match redeem_candidate capped with
      | None => Ok (mk Blocked (wait_alternatives wait now) expiring)
      | Some candidate =>
          let redeem := Redeem (AdvisorAccount.label candidate)
                          (AdvisorAccount.next_credit_expiry candidate)
                          (seconds_between now (AdvisorAccount.natural_reset candidate)) in
          let wait_actions := wait_alternatives wait now in
          let '(primary, alternatives) :=
            match negb active, wait_actions with
            | true, wait_action :: _ => (wait_action, [redeem])
            | _, _ => (redeem, wait_actions)
            end in
          Ok (mk primary alternatives expiring)
      end
  end.
End ResetAdvice.
Notation ResetAdvice := ResetAdvice.t.

(** ** Keys behind the comparators *)

Definition switch_key (a : AdvisorAccount) : option (Z * Z * Z) * str :=
  (f64_key <$> AdvisorAccount.remaining_percent a, AdvisorAccount.label a).
Definition redeem_key (a : AdvisorAccount) : bool * Z * Z * str :=
  (Z.of_nat (length (AdvisorAccount.credit_expiries a)) <? 2,
   seconds_or_max (AdvisorAccount.next_credit_expiry a),
   seconds_or_max (AdvisorAccount.natural_reset a), AdvisorAccount.label a).
Definition wait_key (p : AdvisorAccount * Timestamp) : Timestamp * str :=
  (p.2, AdvisorAccount.label p.1).

Lemma switch_order_key a b :
  AdvisorAccount.wf a → AdvisorAccount.wf b →
  switch_order a b = cmp (switch_key a) (switch_key b).
Proof.
  intros [Ha _] [Hb _]. unfold switch_order, switch_key.
  change (cmp (?x, ?y) (?z, ?w)) with (then_ (cmp x z) (cmp y w)). f_equal.
  destruct (AdvisorAccount.remaining_percent a) as [x|],
    (AdvisorAccount.remaining_percent b) as [y|]; cbn; try done.
  unfold f64_partial_cmp. rewrite f64_compare_key by (apply is_finite_not_nan; auto). done.
Qed.

Lemma redeem_order_key a b : redeem_order a b = cmp (redeem_key a) (redeem_key b).
Proof. done. Qed.

Lemma best_switch accounts best :
  Forall AdvisorAccount.wf accounts → max_by switch_order accounts = Some best →
  best ∈ accounts ∧ ∀ a, a ∈ accounts → cmp_le (switch_key a) (switch_key best) = true.
Proof.
  intros Hwf. apply max_by_spec. intros x y Hx Hy.
  apply switch_order_key; by eapply Forall_forall in Hwf.
Qed.

Lemma best_redeem accounts best :
  redeem_candidate accounts = Some best →
  best ∈ accounts ∧ AdvisorAccount.credit_expiries best ≠ [] ∧
  ∀ a, a ∈ accounts → AdvisorAccount.credit_expiries a ≠ [] →
    cmp_le (redeem_key best) (redeem_key a) = true.
Proof.
  intros [Hin Hmin]%(min_by_spec redeem_key); [|intros; apply redeem_order_key].
  apply list_elem_of_filter in Hin as [Hne Hin].
  split_and!; [done|by destruct (AdvisorAccount.credit_expiries best)|].
  intros a Ha Hc. apply Hmin, list_elem_of_filter. split; [|done].
  by destruct (AdvisorAccount.credit_expiries a).
Qed.

Lemma no_redeem accounts :
  redeem_candidate accounts = None ↔
  ∀ a, a ∈ accounts → AdvisorAccount.credit_expiries a = [].
Proof.
  unfold redeem_candidate. rewrite min_by_None. split.
  - intros Hf a Ha. destruct (AdvisorAccount.credit_expiries a) eqn:E; [done|].
    assert (a ∈ @nil AdvisorAccount) as Hin; [|by apply not_elem_of_nil in Hin].
    rewrite <-Hf. apply list_elem_of_filter. by rewrite E.
  - intros Hall. destruct (filter _ accounts) as [|a l] eqn:E; [done|].
    assert (a ∈ filter (λ a, negb (is_empty (AdvisorAccount.credit_expiries a)) = true) accounts)
      as [Hne Hin]%list_elem_of_filter by (rewrite E; left).
    by rewrite Hall in Hne.
Qed.

(** A future natural reset of an account. *)
Definition awaits (now : Timestamp) (a : AdvisorAccount) (r : Timestamp) : Prop :=
  AdvisorAccount.natural_reset a = Some r ∧ Timestamp.ltb now r = true.

Lemma elem_of_waiting (accounts : list AdvisorAccount) now a r :
  (a, r) ∈ omap (λ account,
     match option_filter (Timestamp.ltb now) (AdvisorAccount.natural_reset account) with
     | Some reset => Some (account, reset)
     | None => None
     end) accounts ↔ a ∈ accounts ∧ awaits now a r.
Proof.
  rewrite list_elem_of_omap. unfold awaits. split.
  - intros (b & Hb & Hf). unfold option_filter in Hf.
    destruct (AdvisorAccount.natural_reset b) as [r'|] eqn:Hr; [|done].
    destruct (Timestamp.ltb now r') eqn:Hlt; [|done]. by injection Hf as -> ->.
  - intros (Ha & Hr & Hlt). exists a. split; [done|]. by rewrite Hr; cbn; rewrite Hlt.
Qed.

Lemma soonest_reset_Some accounts now a r :
  soonest_reset accounts now = Some (a, r) →
  a ∈ accounts ∧ awaits now a r ∧
  ∀ b r', b ∈ accounts → awaits now b r' → cmp_le (wait_key (a, r)) (wait_key (b, r')) = true.
Proof.
  intros [Hin Hmin]%(min_by_spec wait_key); [|done].
  apply elem_of_waiting in Hin as [? ?]. split_and!; [done|done|].
  intros b r' Hb Hr. by apply (Hmin (b, r')), elem_of_waiting.
Qed.

Lemma soonest_reset_None accounts now :
  soonest_reset accounts now = None ↔ ∀ a r, a ∈ accounts → ¬ awaits now a r.
Proof.
  unfold soonest_reset. rewrite min_by_None. split.
  - intros Hnil a r Ha Hr. apply (not_elem_of_nil (a, r)). rewrite <-Hnil.
    by apply elem_of_waiting.
  - intros Hall. destruct (omap _ accounts) as [|[a r] l] eqn:E; [done|].
    destruct (Hall a r); [|]; apply (elem_of_waiting accounts now a r); rewrite E; left.
Qed.

(** ** What a decision means *)

(** The wait that can be offered. *)
Definition waits (accounts : list AdvisorAccount) (now : Timestamp) (l : list AdviceAction) : Prop :=
  (l = [] ∧ ∀ a r, a ∈ accounts → ¬ awaits now a r) ∨
  ∃ a r, a ∈ accounts ∧ awaits now a r ∧
    (∀ b r', b ∈ accounts → awaits now b r' →
       cmp_le (r, AdvisorAccount.label a) (r', AdvisorAccount.label b) = true) ∧
    l = [Wait (AdvisorAccount.label a) r
           (Timestamp.unix_timestamp r - Timestamp.unix_timestamp now)].

Inductive justified (accounts : list AdvisorAccount) (now : Timestamp) (active : bool)
    : AdviceAction → list AdviceAction → Prop :=
| justified_nothing :
    (∀ a, a ∈ accounts → AdvisorAccount.is_capped a = false) →
    justified accounts now active NotApplicable []
| justified_switch best :
    (∃ a, a ∈ accounts ∧ AdvisorAccount.is_capped a = true) →
    best ∈ accounts → AdvisorAccount.is_capped best = false →
    (∀ a, a ∈ accounts → AdvisorAccount.is_capped a = false →
       cmp_le (switch_key a) (switch_key best) = true) →
    justified accounts now active (Switch (AdvisorAccount.label best)) []
| justified_blocked l :
    accounts ≠ [] → (∀ a, a ∈ accounts → AdvisorAccount.is_capped a = true) →
    (∀ a, a ∈ accounts → AdvisorAccount.credit_expiries a = []) →
    waits accounts now l →
    justified accounts now active Blocked l
| justified_redeem_or_wait best l primary alternatives :
    accounts ≠ [] → (∀ a, a ∈ accounts → AdvisorAccount.is_capped a = true) →
    best ∈ accounts → AdvisorAccount.credit_expiries best ≠ [] →
    (∀ a, a ∈ accounts → AdvisorAccount.credit_expiries a ≠ [] →
       cmp_le (redeem_key best) (redeem_key a) = true) →
    waits accounts now l →
    (let redeem := Redeem (AdvisorAccount.label best) (AdvisorAccount.next_credit_expiry best)
                     (seconds_between now (AdvisorAccount.natural_reset best)) in
     (active = true ∨ l = [] → primary = redeem ∧ alternatives = l) ∧
     (active = false → ∀ w, l = [w] → primary = w ∧ alternatives = [redeem])) →
    justified accounts now active primary alternatives.

Lemma wait_alternatives_waits accounts now :
  waits accounts now (wait_alternatives (soonest_reset accounts now) now).
Proof.
  destruct (soonest_reset accounts now) as [[a r]|] eqn:E; cbn.
  - apply soonest_reset_Some in E as (Ha & Hr & Hmin). right. exists a, r.
    split_and!; try done.
  - left. split; [done|]. by apply soonest_reset_None.
Qed.

Lemma capped_none accounts :
  filter (λ a, AdvisorAccount.is_capped a = true) accounts = [] ↔
  ∀ a, a ∈ accounts → AdvisorAccount.is_capped a = false.
Proof.
  induction accounts as [|a l IH]; [set_solver|].
  rewrite filter_cons. setoid_rewrite elem_of_cons. case_decide as Ha; [|rewrite IH].
  - split; [done|]. intros Hall. by rewrite (Hall a) in Ha by (by left).
  - apply not_true_is_false in Ha. naive_solver.
Qed.

Lemma uncapped_none accounts :
  filter (λ a, negb (AdvisorAccount.is_capped a) = true) accounts = [] →
  filter (λ a, AdvisorAccount.is_capped a = true) accounts = accounts.
Proof.
  induction accounts as [|a l IH]; [done|]. rewrite !filter_cons.
  repeat case_decide; try done; [by intros ->%IH|].
  by destruct (AdvisorAccount.is_capped a).
Qed.

Lemma evaluate_justified accounts now active :
  Forall AdvisorAccount.wf accounts →
  Z.of_nat (length accounts) ≤ MAX_ADVISED_ACCOUNTS →
  ∃ advice, ResetAdvice.evaluate accounts now active = Ok advice ∧
    justified accounts now active (ResetAdvice.primary advice) (ResetAdvice.alternatives advice) ∧
    ResetAdvice.expiring advice =
      expiring_notes (filter (λ a, AdvisorAccount.is_capped a = true) accounts) now.
Proof.
  intros Hwf Hlen. unfold ResetAdvice.evaluate, check_limit.
  rewrite (proj2 (Z.ltb_ge _ _) Hlen). cbn [mbind Result_bind].
  destruct (is_empty (filter _ accounts)) eqn:Hcapped.
  { destruct (filter _ accounts) eqn:E; [|done]. eexists; split; [done|].
    split; [by constructor; apply capped_none|done]. }
  destruct (max_by switch_order _) as [best|] eqn:Hbest.
  { apply best_switch in Hbest as [Hin Hmax].
    2: { apply Forall_forall. intros a [_ Ha]%list_elem_of_filter. by eapply Forall_forall in Hwf. }
    apply list_elem_of_filter in Hin as [Hb Hin]. eexists; split; [done|]. split; [|done].
    apply (justified_switch accounts now active best); try done.
    - destruct (filter _ accounts) as [|a l] eqn:E; [done|]. exists a.
      apply and_comm, (list_elem_of_filter (λ a, AdvisorAccount.is_capped a = true)).
      rewrite E. left.
    - by apply negb_true_iff.
    - intros a Ha Hc. apply Hmax, list_elem_of_filter. by rewrite Hc. }
  apply max_by_None, uncapped_none in Hbest. rewrite Hbest in Hcapped |- *.
  assert (∀ a, a ∈ accounts → AdvisorAccount.is_capped a = true) as Hall.
  { intros a. rewrite <-Hbest at 1. by intros [Ha _]%list_elem_of_filter. }
  pose proof (wait_alternatives_waits accounts now) as Hw.
  assert (accounts ≠ []) as Hne by (by intros ->).
  destruct (redeem_candidate accounts) as [c|] eqn:Hc.
  - apply best_redeem in Hc as (Hin & Hcr & Hmin).
    destruct (negb active) eqn:Ha; [destruct (wait_alternatives _ now) as [|w ws] eqn:El|];
      eexists; (split; [done|]); (split; [|done]); cbn;
      eapply (justified_redeem_or_wait accounts now active c); try done.
    + split; [|by intros _ w' [= <- _]]. destruct active; [done|]. naive_solver.
    + destruct active; [|done]. split; [done|]. done.
  - eexists; split; [done|]. split; [|done]. apply justified_blocked; try done.
    by apply no_redeem.
Qed.

(** ** Order of the accounts *)

Section Permuted.
Context (l l' : list AdvisorAccount) (Hp : l ≡ₚ l').

Lemma expiring_notes_perm now : expiring_notes l now = expiring_notes l' now.
Proof using Hp.
  unfold expiring_notes. f_equal. apply sort_by_key_perm_inj; [|by rewrite Hp].
  intros x y [_ Hx]%list_elem_of_filter [_ Hy]%list_elem_of_filter.
  apply list_elem_of_bind in Hx as (a & (t & -> & _)%list_elem_of_fmap & _).
  apply list_elem_of_bind in Hy as (b & (t' & -> & _)%list_elem_of_fmap & _).
  unfold note_key. cbn. by intros [= -> ->].
Qed.

Context (Hlabels : ∀ a b, a ∈ l → b ∈ l → AdvisorAccount.label a = AdvisorAccount.label b → a = b).

Lemma redeem_candidate_perm : redeem_candidate l = redeem_candidate l'.
Proof using All.
  apply (min_by_perm redeem_key); [by rewrite Hp|intros; apply redeem_order_key|].
  intros a b [_ Ha]%list_elem_of_filter [_ Hb]%list_elem_of_filter [=]. by apply Hlabels.
Qed.

Lemma soonest_reset_perm now : soonest_reset l now = soonest_reset l' now.
Proof using All.
  apply (min_by_perm wait_key); [by rewrite Hp|done|].
  intros [a r] [b r'] [Ha _]%elem_of_waiting [Hb _]%elem_of_waiting [= -> Hl].
  f_equal. by apply Hlabels.
Qed.

Lemma switch_perm :
  Forall AdvisorAccount.wf l → max_by switch_order l = max_by switch_order l'.
Proof using All.
  intros Hwf. apply (max_by_perm switch_key); [done| |].
  - intros a b Ha Hb. apply switch_order_key; by eapply Forall_forall in Hwf.
  - intros a b Ha Hb [=]. by apply Hlabels.
Qed.
End Permuted.

Lemma evaluate_perm accounts accounts' now active :
  Forall AdvisorAccount.wf accounts → NoDup (AdvisorAccount.label <$> accounts) →
  accounts ≡ₚ accounts' →
  ResetAdvice.evaluate accounts now active = ResetAdvice.evaluate accounts' now active.
Proof.
  intros Hwf Hnd Hp.
  assert (∀ a b, a ∈ accounts → b ∈ accounts →
    AdvisorAccount.label a = AdvisorAccount.label b → a = b) as Hl.
  { intros a b (i & Hi)%list_elem_of_lookup (j & Hj)%list_elem_of_lookup Hab.
    assert (i = j) as ->; [|congruence].
    eapply (NoDup_lookup _ i j (AdvisorAccount.label a) Hnd); rewrite list_lookup_fmap.
    - by rewrite Hi.
    - by rewrite Hj, Hab. }
  unfold ResetAdvice.evaluate. rewrite (Permutation_length Hp).
  destruct (check_limit _ _ _) as [[]|]; cbn [mbind Result_bind]; [|done].
  assert (filter (λ a, AdvisorAccount.is_capped a = true) accounts
          ≡ₚ filter (λ a, AdvisorAccount.is_capped a = true) accounts') as Hc by by rewrite Hp.
  assert (filter (λ a, negb (AdvisorAccount.is_capped a) = true) accounts
          ≡ₚ filter (λ a, negb (AdvisorAccount.is_capped a) = true) accounts') as Hu by by rewrite Hp.
  rewrite (expiring_notes_perm _ _ Hc).
  assert (∀ p a, a ∈ filter (λ a : AdvisorAccount, p a = true) accounts → a ∈ accounts) as Hsub
    by by intros p a [_ Ha]%list_elem_of_filter.
  assert (∀ p a b, a ∈ filter (λ a : AdvisorAccount, p a = true) accounts →
    b ∈ filter (λ a : AdvisorAccount, p a = true) accounts →
    AdvisorAccount.label a = AdvisorAccount.label b → a = b) as Hlf by eauto.
  rewrite (switch_perm _ _ Hu (Hlf _)).
  2: { apply Forall_forall. intros a Ha%Hsub. by eapply Forall_forall in Hwf. }
  rewrite (soonest_reset_perm _ _ Hc (Hlf _)), (redeem_candidate_perm _ _ Hc (Hlf _)).
  assert (is_empty (filter (λ a, AdvisorAccount.is_capped a = true) accounts)
          = is_empty (filter (λ a, AdvisorAccount.is_capped a = true) accounts')) as ->; [|done].
  apply Permutation_length in Hc. by do 2 destruct (filter _ _).
Qed.

(** ** The fold over the main lanes *)

Section Lanes.
Context (now : Timestamp).
Implicit Types (lane : RateWindow) (main : list RateWindow).

(** An exhausted lane. *)
Definition exhausted lane : Prop :=
  ∃ u, RateWindow.used_percent lane = Some u ∧
    f64_le CAPPED_USED_PERCENT (UsagePercent.get u) = true.
(** The future reset of an exhausted lane. *)
Definition frees lane (r : Timestamp) : Prop :=
  exhausted lane ∧ RateWindow.resets_at lane = Some r ∧ Timestamp.ltb now r = true.

Record lanes_ok main (acc : AdvisorAccount.lanes) : Prop := {
  lanes_known : AdvisorAccount.known acc = true ↔
    ∃ lane, lane ∈ main ∧ is_Some (RateWindow.used_percent lane);
  lanes_exhausted : AdvisorAccount.lanes_capped acc = true ↔
    ∃ lane, lane ∈ main ∧ exhausted lane;
  lanes_soonest r : AdvisorAccount.lanes_reset acc = Some r →
    (∃ lane, lane ∈ main ∧ frees lane r) ∧
    ∀ lane r', lane ∈ main → frees lane r' → Timestamp.nanos r ≤ Timestamp.nanos r';
  lanes_no_reset lane r : AdvisorAccount.lanes_reset acc = None → lane ∈ main → ¬ frees lane r;
}.

Lemma frees_cases lane r :
  frees lane r ↔ exhausted lane ∧
    option_filter (Timestamp.ltb now) (RateWindow.resets_at lane) = Some r.
Proof.
  unfold frees, option_filter. destruct (RateWindow.resets_at lane) as [t|]; [|naive_solver].
  split.
  - intros (? & [= ->] & Hlt). by rewrite Hlt.
  - intros [? Hr]. destruct (Timestamp.ltb now t) eqn:E; [|done]. by injection Hr as <-.
Qed.

(** What one more lane adds to the soonest reset. *)
Lemma lanes_ok_soonest main lane acc reset :
  lanes_ok main acc → exhausted lane →
  reset = match option_filter (Timestamp.ltb now) (RateWindow.resets_at lane) with
          | Some r => Some (match AdvisorAccount.lanes_reset acc with
                            | None => r | Some current => Timestamp.min current r end)
          | None => AdvisorAccount.lanes_reset acc
          end →
  (∀ r, reset = Some r → (∃ l, l ∈ main ++ [lane] ∧ frees l r) ∧
     ∀ l r', l ∈ main ++ [lane] → frees l r' → Timestamp.nanos r ≤ Timestamp.nanos r') ∧
  (∀ l r, reset = None → l ∈ main ++ [lane] → ¬ frees l r).
Proof.
  intros [_ _ Hs Hn] Hex ->. setoid_rewrite elem_of_app. setoid_rewrite list_elem_of_singleton.
  destruct (option_filter _ _) as [r|] eqn:Hr.
  - assert (frees lane r) as Hf by by apply frees_cases.
    assert (∀ r', frees lane r' → r' = r) as Hu.
    { intros r' [_ ?]%frees_cases. congruence. }
    destruct (AdvisorAccount.lanes_reset acc) as [c|] eqn:Hc.
    + specialize (Hs c eq_refl) as [(l & Hl & Hlc) Hmin]. split; [|done]. intros r' [= <-].
      split.
      * unfold Timestamp.min. destruct (Timestamp.leb c r); eauto.
      * intros l' r' [Hl'| ->] Hf'; rewrite ts_min_nanos.
        -- specialize (Hmin _ _ Hl' Hf'). lia.
        -- apply Hu in Hf' as ->. lia.
    + split; [|done]. intros r' [= <-]. split; [eauto|].
      intros l' r' [Hl'| ->] Hf'; [by destruct (Hn l' r' eq_refl Hl')|].
      by apply Hu in Hf' as ->.
  - assert (∀ r, ¬ frees lane r) as Hno by (intros r [_ ?]%frees_cases; congruence).
    split.
    + intros r Hr'. destruct (Hs r Hr') as [(l & ? & ?) Hmin]. split; [eauto|].
      intros l' r' [Hl'| ->] Hf'; [eauto|by destruct (Hno r')].
    + intros l r Hnone [Hl| ->]; [by apply Hn|apply Hno].
Qed.

Lemma lanes_fold main :
  lanes_ok main (foldl (AdvisorAccount.add_lane now) AdvisorAccount.no_lanes main).
Proof.
  induction main as [|lane main IH] using rev_ind.
  { split; cbn; [split; [done|set_solver]|split; [done|set_solver]|done|set_solver]. }
  rewrite foldl_snoc. set (acc := foldl _ _ main) in *.
  unfold AdvisorAccount.add_lane.
  destruct (RateWindow.used_percent lane) as [u|] eqn:Hu.
  - destruct (f64_le CAPPED_USED_PERCENT (UsagePercent.get u)) eqn:Hcap.
    + assert (exhausted lane) as Hex by by exists u.
      destruct (lanes_ok_soonest main lane acc _ IH Hex eq_refl) as [Hs Hn].
      split; cbn; [| |exact Hs|exact Hn].
      * split; [intros _; exists lane; rewrite Hu; set_solver|done].
      * split; [intros _; exists lane; set_solver|done].
    + assert (¬ exhausted lane) as Hex by (intros (u' & ? & ?); congruence).
      destruct IH as [_ He Hs Hn].
      split; cbn; setoid_rewrite elem_of_app; setoid_rewrite list_elem_of_singleton.
      * split; [intros _; exists lane; rewrite Hu; eauto|done].
      * rewrite He. naive_solver.
      * intros r [(l & ? & ?) Hmin]%Hs. split; [eauto|].
        intros l' r' [?| ->] Hf; [eauto|by destruct Hf].
      * intros l r Hnone [Hl| ->] Hf; [by eapply Hn|by destruct Hf].
  - assert (¬ exhausted lane) as Hex by (intros (u' & ? & ?); congruence).
    destruct IH as [Hk He Hs Hn].
    split; cbn; setoid_rewrite elem_of_app; setoid_rewrite list_elem_of_singleton.
    + rewrite Hk. split; [naive_solver|]. intros (l & [?| ->] & Hsome); [eauto|].
      rewrite Hu in Hsome. by destruct Hsome.
    + rewrite He. naive_solver.
    + intros r [(l & ? & ?) Hmin]%Hs. split; [eauto|].
      intros l' r' [?| ->] Hf; [eauto|by destruct Hf].
    + intros l r Hnone [Hl| ->] Hf; [by eapply Hn|by destruct Hf].
Qed.
End Lanes.

(** The label is a text the constructor accepts. *)
Lemma sample_label `{DecimalCrate} (sample : UsageSample) :
  let identity := UsageSample.identity sample in
  AccountScope.wf (UsageSample.scope sample) →
  (∀ t, IdentitySnapshot.email identity = Some t → BoundedText.wf t) →
  (∀ t, IdentitySnapshot.account_label identity = Some t → BoundedText.wf t) →
  ∃ label : BoundedText MAX_ADVISOR_LABEL_LENGTH,
    BoundedText.new
      match RateWindow.or_else (IdentitySnapshot.email identity)
              (IdentitySnapshot.account_label identity) with
      | Some text => BoundedText.as_str text
      | None => AccountKey.as_str (AccountScope.account (UsageSample.scope sample))
      end = Ok label ∧
    BoundedText.as_str label =
      match IdentitySnapshot.email identity, IdentitySnapshot.account_label identity with
      | Some t, _ | None, Some t => BoundedText.as_str t
      | None, None => AccountKey.as_str (AccountScope.account (UsageSample.scope sample))
      end.
Proof.
  intros identity [_ Hkey] He Hl.
  destruct (IdentitySnapshot.email identity) as [t|] eqn:E1;
    [|destruct (IdentitySnapshot.account_label identity) as [t|] eqn:E2]; cbn.
  - exists t. split; [|done]. by apply BoundedTextFacts.new_as_str, He.
  - exists t. split; [|done]. by apply BoundedTextFacts.new_as_str, Hl.
  - revert Hkey. unfold AccountKey.wf, AccountKey.new.
    intros ([] & (Hne & Hc & Hlen)%validate_scope_id_Ok & _)%bind_Ok.
    exists (BoundedText.mk (AccountKey.as_str (AccountScope.account (UsageSample.scope sample)))).
    split; [|done]. apply new_ascii; [done| |].
    + eapply Forall_impl; [exact Hc|]. intros c.
      unfold scope_char_ok, is_ascii_graphic, is_ascii_alphanumeric, is_ascii_alphabetic,
        is_ascii_digit, is_ascii_lower, is_ascii_upper. cbn [andb].
      rewrite ?orb_true_iff, ?andb_true_iff, ?Z.leb_le, ?Z.eqb_eq. lia.
    + unfold MAX_ACCOUNT_KEY_BYTES, MAX_ADVISOR_LABEL_LENGTH in *. lia.
Qed.

(** ** Properties *)

(** The decision, whole: more than eight accounts are refused; otherwise the
    advice is to do nothing when no account is capped, to switch to the uncapped
    account with the most headroom (then the last label) when there is one, and
    when all are capped to redeem on the account that best affords it or to wait
    for the soonest future reset, the first for an active user and the second
    for an idle one, with the other as alternative; blocked when no credit is
    left.  Nothing else is ever advised. *)
Theorem evaluate_spec (accounts : list AdvisorAccount) (now : Timestamp) (active : bool) :
  Forall AdvisorAccount.wf accounts →
  (MAX_ADVISED_ACCOUNTS < Z.of_nat (length accounts) ∧
   ResetAdvice.evaluate accounts now active
     = Err (LimitExceeded (lit "advised accounts") MAX_ADVISED_ACCOUNTS)) ∨
  (Z.of_nat (length accounts) ≤ MAX_ADVISED_ACCOUNTS ∧
   ∃ advice, ResetAdvice.evaluate accounts now active = Ok advice ∧
     justified accounts now active (ResetAdvice.primary advice) (ResetAdvice.alternatives advice)).
Proof.
  intros Hwf. destruct (Z.ltb_spec MAX_ADVISED_ACCOUNTS (Z.of_nat (length accounts))) as [Hl|Hl].
  - left. split; [done|]. unfold ResetAdvice.evaluate, check_limit.
    by rewrite (proj2 (Z.ltb_lt _ _) Hl).
  - right. split; [done|].
    destruct (evaluate_justified accounts now active Hwf Hl) as (advice & He & Hj & _). eauto.
Qed.

(** The decision is a function of the accounts, not of the order they are
    listed in: with distinct labels, every permutation gives the same advice,
    alternatives and warnings. *)
Theorem evaluate_order_independent (accounts accounts' : list AdvisorAccount) now active :
  Forall AdvisorAccount.wf accounts → NoDup (AdvisorAccount.label <$> accounts) →
  accounts ≡ₚ accounts' →
  ResetAdvice.evaluate accounts now active = ResetAdvice.evaluate accounts' now active.
Proof. intros. by apply evaluate_perm. Qed.

(** The warnings are the first eight, by expiry and label, of exactly the
    credits of the given accounts that expire within the next fourteen days:
    each shown one is such a credit, they are in order, and a credit left out
    does not come before one that is shown. *)
Theorem expiring_notes_spec (capped : list AdvisorAccount) (now : Timestamp) :
  let due note := ∃ a t, a ∈ capped ∧ Some t ∈ AdvisorAccount.credit_expiries a ∧
    note = ExpiringCredit.mk (AdvisorAccount.label a) t
             (Timestamp.unix_timestamp t - Timestamp.unix_timestamp now) ∧
    0 < Timestamp.unix_timestamp t - Timestamp.unix_timestamp now
      ≤ EXPIRY_NOTE_HORIZON_SECONDS in
  let notes := expiring_notes capped now in
  Z.of_nat (length notes) ≤ MAX_EXPIRY_NOTES ∧
  Forall due notes ∧
  Sorted.StronglySorted (λ x y, cmp_le (note_key x) (note_key y) = true) notes ∧
  ∀ note, due note → note ∈ notes ∨
    (Z.of_nat (length notes) = MAX_EXPIRY_NOTES ∧
     Forall (λ shown, cmp_le (note_key shown) (note_key note) = true) notes).
Proof.
  intros due notes. unfold notes, expiring_notes.
  set (all := filter (λ note, note_due note = true) (capped ≫= account_notes now)).
  assert (∀ note, note ∈ all ↔ due note) as Hdue.
  { intros note. unfold all, due. rewrite list_elem_of_filter, list_elem_of_bind.
    unfold note_due. rewrite andb_true_iff, Z.ltb_lt, Z.leb_le. split.
    - intros (Hd & a & (t & -> & (t' & Ht & [= ->])%list_elem_of_omap)%list_elem_of_fmap & Ha).
      exists a, t. done.
    - intros (a & t & Ha & Ht & -> & Hd). split; [done|]. exists a. split; [|done].
      apply list_elem_of_fmap. exists t. split; [done|]. apply list_elem_of_omap. by exists (Some t). }
  pose proof (sort_by_key_sorted note_key all) as Hsorted.
  assert (∀ x y, le_by (cmp_on note_key) x y = true → cmp_le (note_key x) (note_key y) = true)
    as Hle by done.
  assert (∀ note, note ∈ sort_by_key note_key all ↔ due note) as Hall.
  { intros note. by rewrite sort_by_key_perm. }
  set (sorted := sort_by_key note_key all) in *. set (n := Z.to_nat MAX_EXPIRY_NOTES).
  rewrite <-(take_drop n sorted) in Hsorted, Hall.
  apply StronglySorted_app in Hsorted as (Hcross & Hsorted & _).
  split_and!.
  - rewrite length_take. unfold n, MAX_EXPIRY_NOTES. lia.
  - apply Forall_forall. intros note Hn. apply Hall, elem_of_app. by left.
  - exact Hsorted.
  - intros note [?|Hd]%Hall%elem_of_app; [by left|right]. split.
    + assert (n < length sorted)%nat.
      { destruct (Nat.lt_ge_cases n (length sorted)) as [|Hge]; [done|].
        rewrite drop_ge in Hd by done. by apply not_elem_of_nil in Hd. }
      rewrite length_take, Nat.min_l by lia. unfold n. by rewrite Z2Nat.id.
    + apply Forall_forall. intros shown Hsh. apply Hle. by apply Hcross.
Qed.

(** Projecting a sample: an account is advised on exactly when a main lane
    reports a percentage (the projection never fails otherwise); it is capped
    exactly when a main lane is exhausted, its natural reset is the earliest
    future reset of an exhausted lane, its credits are those available now, and
    its label is the email, the account label or the account key. *)
Theorem from_sample_spec `{DecimalCrate} (sample : UsageSample) (now : Timestamp) :
  let main := option_list (UsageSample.primary sample)
              ++ option_list (UsageSample.secondary sample) in
  let identity := UsageSample.identity sample in
  AccountScope.wf (UsageSample.scope sample) →
  (∀ t, IdentitySnapshot.email identity = Some t → BoundedText.wf t) →
  (∀ t, IdentitySnapshot.account_label identity = Some t → BoundedText.wf t) →
  (∀ i, UsageSample.reset_credits sample = Some i →
     Z.of_nat (length (ResetCreditsSnapshot.credits i)) ≤ MAX_RESET_CREDITS) →
  (AdvisorAccount.from_sample sample now = None ↔
     ∀ lane, lane ∈ main → RateWindow.used_percent lane = None) ∧
  ∀ a, AdvisorAccount.from_sample sample now = Some a →
    AdvisorAccount.wf a ∧
    (AdvisorAccount.is_capped a = true ↔ ∃ lane, lane ∈ main ∧ exhausted lane) ∧
    (∀ r, AdvisorAccount.natural_reset a = Some r →
       (∃ lane, lane ∈ main ∧ frees now lane r) ∧
       ∀ lane r', lane ∈ main → frees now lane r' → Timestamp.nanos r ≤ Timestamp.nanos r') ∧
    (AdvisorAccount.natural_reset a = None → ∀ lane r, lane ∈ main → ¬ frees now lane r) ∧
    AdvisorAccount.credit_expiries a
      = ResetCredit.expires_at <$> UsageSample.available_reset_credits sample now ∧
    AdvisorAccount.label a =
      match IdentitySnapshot.email identity, IdentitySnapshot.account_label identity with
      | Some t, _ | None, Some t => BoundedText.as_str t
      | None, None => AccountKey.as_str (AccountScope.account (UsageSample.scope sample))
      end.
Proof.
  intros main identity Hscope Hemail Hlabel Hcredits.
  pose proof (lanes_fold now main) as Hlanes.
  pose proof (sample_label sample Hscope Hemail Hlabel) as (label & Hnew & Hstr).
  assert (Z.of_nat (length (ResetCredit.expires_at <$> UsageSample.available_reset_credits sample now))
    ≤ MAX_ADVISED_CREDITS) as Hlen.
  { rewrite length_fmap. unfold UsageSample.available_reset_credits.
    destruct (UsageSample.reset_credits sample) as [i|]; [|done].
    unfold ResetCreditsSnapshot.available_credits_at. specialize (Hcredits i eq_refl).
    pose proof (length_filter (λ c, ResetCredit.is_available_at c now = true)
      (ResetCreditsSnapshot.credits i)).
    unfold MAX_RESET_CREDITS, MAX_ADVISED_CREDITS in *. lia. }
  unfold AdvisorAccount.from_sample. fold main identity.
  set (acc := foldl _ _ main) in *. destruct Hlanes as [Hk He Hs Hn].
  destruct (AdvisorAccount.known acc); cbn [negb].
  2: { split; [|done]. split; [|done]. intros _ lane Hl.
    destruct (RateWindow.used_percent lane) eqn:Hu; [|done].
    assert (false = true) as [=]. apply Hk. exists lane. by rewrite Hu. }
  unfold AdvisorAccount.new, check_limit. rewrite (proj2 (Z.ltb_ge _ _) Hlen).
  fold identity in Hnew. cbn [mbind Result_bind]. unfold text. rewrite Hnew. cbn.
  split.
  { split; [done|]. intros Hall. destruct (proj1 Hk eq_refl) as (lane & Hl & Hu).
    rewrite Hall in Hu by done. by destruct Hu. }
  intros a [= <-].
  split; [|split; [exact He|split; [exact Hs|split; [|split; [done|exact Hstr]]]]].
  2: { intros Hnone lane r. by apply Hn. }
  split; [|done]. cbn. intros p. unfold option_filter.
  destruct (AdvisorAccount.lanes_remaining acc) as [x|]; [|done].
  destruct (is_finite x) eqn:Hf; [|done]. by intros [= <-].
Qed.

(** ** Witnesses *)

Definition advised_example (label : str) (capped : bool) (reset : Z) (credits : list (option Timestamp))
    : AdvisorAccount :=
  AdvisorAccount.mk (BoundedText.mk label) capped (Some f64_hundred)
    (Some (Timestamp.mk (reset * NANOS_PER_SECOND))) credits.
Definition advised_accounts : list AdvisorAccount :=
  [advised_example (lit "a") true 500 [Some (Timestamp.mk (300 * NANOS_PER_SECOND))];
   advised_example (lit "b") true 400 [None; None]].

Lemma advised_accounts_wf : Forall AdvisorAccount.wf advised_accounts.
Proof.
  repeat constructor; cbn; try (intros ? [= <-]; reflexivity); try (unfold MAX_ADVISED_CREDITS; lia).
Qed.

Lemma evaluate_spec_witness :
  ∃ advice, ResetAdvice.evaluate advised_accounts (Timestamp.mk 0) true = Ok advice ∧
    ResetAdvice.primary advice = Redeem (lit "b") None (Some 400) ∧
    justified advised_accounts (Timestamp.mk 0) true
      (ResetAdvice.primary advice) (ResetAdvice.alternatives advice).
Proof.
  destruct (evaluate_spec advised_accounts (Timestamp.mk 0) true advised_accounts_wf)
    as [[H _]|(_ & advice & He & Hj)]; [discriminate H|].
  exists advice. split; [exact He|]. split; [|exact Hj].
  vm_compute in He. injection He as <-. reflexivity.
Defined.

Lemma evaluate_order_independent_witness :
  ResetAdvice.evaluate advised_accounts (Timestamp.mk 0) false
  = ResetAdvice.evaluate (reverse advised_accounts) (Timestamp.mk 0) false.
Proof.
  apply evaluate_order_independent.
  - exact advised_accounts_wf.
  - by_decide.
  - by rewrite reverse_Permutation.
Defined.

Lemma from_sample_spec_witness :
  ∃ a, AdvisorAccount.from_sample (sample_example 5) (Timestamp.mk 0) = Some a ∧
    AdvisorAccount.label a = lit "a@b.c".
Proof.
  destruct (from_sample_spec (sample_example 5) (Timestamp.mk 0)) as [Hnone Hsome].
  - split; vm_compute; reflexivity.
  - intros t [= <-]. split_and!; vm_compute; discriminate || reflexivity.
  - intros t [=].
  - intros i [=].
  - destruct (AdvisorAccount.from_sample (sample_example 5) (Timestamp.mk 0)) as [a|].
    + exists a. split; [reflexivity|]. destruct (Hsome a eq_refl) as (_ & _ & _ & _ & _ & Hl).
      exact Hl.
    + discriminate (proj1 Hnone eq_refl lane_example (list_elem_of_here _ _)).
Defined.
