(* ===== verification/SnapshotStore.v ===== *)
(** * The snapshot store  (crates/runtime/src/snapshot_store.rs)

    The actor's only copy of the provider state: one snapshot per account
    scope, a publication sequence, and the publications sent on the watch
    channel.  Every operation is a computation in the state-error monad. *)
From stdpp Require Import gmap countable prelude.
From S2P Require Import Prelude Ordering Text Externals Scope Errors CostUsage Detail Snapshot.
Local Open Scope Z_scope.

Section store.
Context `{DecimalCrate}.

Record PublishedSnapshot := mk_published {
  published_sequence : Z;
  published_envelope : SnapshotEnvelopeV1;
}.

Inductive SnapshotStoreError :=
| DuplicateScope
| UnknownScope
| StoreScopeMismatch
| SequenceExhausted
| SnapshotRejected (e : SnapshotError).

(** [publications] is what has been sent on the channel, the latest first: the
    value a receiver sees is the head. *)
Record SnapshotStore := mk_store {
  snapshots : gmap AccountScope ProviderSnapshot;
  sequence : Z;
  publications : list PublishedSnapshot;
}.

(** [BTreeMap::values], in key order. *)
Definition values (m : gmap AccountScope ProviderSnapshot) : list ProviderSnapshot :=
  snd <$> sort_by_key fst (map_to_list m).

Definition build_envelope (m : gmap AccountScope ProviderSnapshot) (generated_at : Timestamp) :
    Result SnapshotError SnapshotEnvelopeV1 :=
  SnapshotEnvelopeV1.new generated_at (values m).

(** The two loops of the constructor. *)
Fixpoint insert_loading (scopes : list AccountScope) (m : gmap AccountScope ProviderSnapshot) :
    Result SnapshotStoreError (gmap AccountScope ProviderSnapshot) :=
  match scopes with
  | [] => Ok m
  | scope :: scopes =>
      if bool_decide (is_Some (m !! scope)) then Err DuplicateScope
      else insert_loading scopes (<[scope := ProviderSnapshot.loading scope]> m)
  end.
Fixpoint insert_retained (retained : list ProviderSnapshot) (generated_at : Timestamp)
    (m : gmap AccountScope ProviderSnapshot) :
    Result SnapshotStoreError (gmap AccountScope ProviderSnapshot) :=
  match retained with
  | [] => Ok m
  | snapshot :: retained =>
      match ProviderSnapshot.last_known_good snapshot with
      | None => insert_retained retained generated_at m
      | Some sample =>
          let scope := ProviderSnapshot.scope snapshot in
          if negb (bool_decide (is_Some (m !! scope)))
          then insert_retained retained generated_at m else
          let stale_since := Timestamp.max generated_at (UsageSample.fetched_at sample) in
          restored ← map_err SnapshotRejected
            (ProviderSnapshot.ready sample (Stale stale_since) Idle None);
          insert_retained retained generated_at (<[scope := restored]> m)
      end
  end.

Definition new_with_retained (scopes : list AccountScope) (retained : list ProviderSnapshot)
    (generated_at : Timestamp) : Result SnapshotStoreError SnapshotStore :=
  m ← insert_loading scopes ∅;
  m ← insert_retained retained generated_at m;
  envelope ← map_err SnapshotRejected (build_envelope m generated_at);
  Ok (mk_store m 1 [mk_published 1 envelope]).

Definition new (scopes : list AccountScope) (generated_at : Timestamp) :
    Result SnapshotStoreError SnapshotStore :=
  new_with_retained scopes [] generated_at.

Notation Store := (SE SnapshotStore SnapshotStoreError).

Definition require_scope (scope : AccountScope) : Store ProviderSnapshot :=
  m ← se_gets snapshots; se_lift (ok_or (m !! scope) UnknownScope).
Definition snapshot_result {A} (r : Result SnapshotError A) : Store A :=
  se_lift (map_err SnapshotRejected r).

Definition publish_change (scope : AccountScope) (next : ProviderSnapshot)
    (generated_at : Timestamp) : Store bool :=
  current ← require_scope scope;
  let next := match ProviderSnapshot.local_history next with
              | None => ProviderSnapshot.with_local_history next
                          (ProviderSnapshot.local_history current)
              | Some _ => next
              end in
  if bool_decide (current = next) then mret false else
  sequence ← se_gets sequence;
  next_sequence ← se_lift (ok_or (checked_add u64_max sequence 1) SequenceExhausted);
  m ← se_gets snapshots;
  let next_snapshots := <[scope := next]> m in
  envelope ← snapshot_result (build_envelope next_snapshots generated_at);
  _ ← se_modify (λ st, mk_store next_snapshots next_sequence
                         (mk_published next_sequence envelope :: publications st));
  mret true.

Definition set_ready_refresh_phase (scope : AccountScope) (phase : RefreshPhase)
    (generated_at : Timestamp) : Store bool :=
  current ← require_scope scope;
  match ProviderSnapshot.last_known_good current, ProviderSnapshot.freshness current with
  | Some sample, Some freshness =>
      next ← snapshot_result (ProviderSnapshot.ready sample freshness phase
               (ProviderSnapshot.error current));
      publish_change scope next generated_at
  | _, _ => mret false
  end.
Definition mark_scheduled (scope : AccountScope) (at_ generated_at : Timestamp) : Store bool :=
  set_ready_refresh_phase scope (Scheduled at_) generated_at.
Definition mark_refreshing (scope : AccountScope) (started_at generated_at : Timestamp) : Store bool :=
  set_ready_refresh_phase scope (Refreshing started_at) generated_at.

(** The sample with the activity its source owns. *)
Definition attach_history (sample : UsageSample) (data : option CostUsageSnapshot) : UsageSample :=
  match data with
  | Some data => UsageSample.with_cost_usage sample data
  | None => UsageSample.without_cost_usage sample
  end.

Definition apply_success (scope : AccountScope) (sample : UsageSample) (generated_at : Timestamp) :
    Store bool :=
  current ← require_scope scope;
  if negb (bool_decide (UsageSample.scope sample = scope)) then se_fail StoreScopeMismatch else
  sample ← match ProviderSnapshot.last_known_good current with
           | Some cached =>
               snapshot_result (UsageSample.backfilling_reset_times sample cached generated_at)
           | None => mret sample
           end;
  let sample := match ProviderSnapshot.local_history current with
                | Some history => attach_history sample (LocalHistorySnapshot.data history)
                | None => sample
                end in
  next ← snapshot_result (ProviderSnapshot.ready sample Fresh Idle None);
  publish_change scope next generated_at.

Definition apply_failure (scope : AccountScope) (error : ClassifiedError)
    (generated_at : Timestamp) : Store bool :=
  current ← require_scope scope;
  next ← (if bool_decide (ClassifiedError.retry error = Automatic) then
            match ProviderSnapshot.last_known_good current with
            | Some last_known_good =>
                let stale_since :=
                  Timestamp.max generated_at (UsageSample.fetched_at last_known_good) in
                snapshot_result
                  (ProviderSnapshot.with_error_overlay current scope error stale_since)
            | None => mret (ProviderSnapshot.unavailable scope error)
            end
          else mret (ProviderSnapshot.unavailable scope error));
  publish_change scope next generated_at.

(** The [expect]s hold because a snapshot with a sample is ready. *)
Definition apply_local_history (scope : AccountScope) (history : LocalHistorySnapshot)
    (generated_at : Timestamp) : Store bool :=
  current ← require_scope scope;
  next ← match current with
         | ProviderSnapshot.Ready _ sample freshness refresh error =>
             snapshot_result (ProviderSnapshot.ready
               (attach_history sample (LocalHistorySnapshot.data history)) freshness refresh error)
         | _ => mret current
         end;
  publish_change scope (ProviderSnapshot.with_local_history next (Some history)) generated_at.

Definition mark_history_state (scope : AccountScope) (state : LocalHistoryState)
    (generated_at : Timestamp) : Store unit :=
  current ← require_scope scope;
  match ProviderSnapshot.local_history current with
  | Some history =>
      _ ← apply_local_history scope
            (LocalHistorySnapshot.mk (LocalHistorySnapshot.scope history) state
               (LocalHistorySnapshot.data history)) generated_at;
      mret tt
  | None => mret tt
  end.

Definition apply_cost_usage (scope : AccountScope) (base_fetched_at : Timestamp)
    (cost_usage : CostUsageSnapshot) (generated_at : Timestamp) : Store bool :=
  current ← require_scope scope;
  match ProviderSnapshot.last_known_good current with
  | None => mret false
  | Some sample =>
      if negb (bool_decide (UsageSample.fetched_at sample = base_fetched_at)) then mret false else
      match ProviderSnapshot.freshness current, ProviderSnapshot.refresh_phase current with
      | Some freshness, Some refresh =>
          next ← snapshot_result (ProviderSnapshot.ready
                   (UsageSample.with_cost_usage sample cost_usage) freshness refresh
                   (ProviderSnapshot.error current));
          publish_change scope next generated_at
      | _, _ => mret false
      end
  end.
End store.
Notation Store := (SE SnapshotStore SnapshotStoreError).

(** ** Specification

    What each operation means for the one snapshot it addresses, without the
    sequence, the channel and the error plumbing. *)
Section spec.
Context `{DecimalCrate}.
Import ProviderSnapshot.

Inductive operation :=
| MarkScheduled (at_ : Timestamp)
| MarkRefreshing (started_at : Timestamp)
| ApplySuccess (sample : UsageSample)
| ApplyFailure (error : ClassifiedError)
| ApplyLocalHistory (history : LocalHistorySnapshot)
| MarkHistoryState (state : LocalHistoryState)
| ApplyCostUsage (base_fetched_at : Timestamp) (cost_usage : CostUsageSnapshot).

Definition exec (scope : AccountScope) (o : operation) (now : Timestamp) : Store bool :=
  match o with
  | MarkScheduled at_ => mark_scheduled scope at_ now
  | MarkRefreshing t => mark_refreshing scope t now
  | ApplySuccess sample => apply_success scope sample now
  | ApplyFailure e => apply_failure scope e now
  | ApplyLocalHistory h => apply_local_history scope h now
  | MarkHistoryState s => _ ← mark_history_state scope s now; mret true
  | ApplyCostUsage base c => apply_cost_usage scope base c now
  end.

(** The sample that is stored: lanes backfilled from the cached sample, and the
    activity replaced by the local history's where there is one. *)
Definition stored_sample (now : Timestamp) (current : ProviderSnapshot) (sample : UsageSample) :
    UsageSample :=
  let sample := match last_known_good current with
                | Some cached =>
                    match UsageSample.backfilling_reset_times sample cached now with
                    | Ok s => s | Err _ => sample
                    end
                | None => sample
                end in
  match local_history current with
  | Some h => attach_history sample (LocalHistorySnapshot.data h)
  | None => sample
  end.

Definition transition (now : Timestamp) (o : operation) (current : ProviderSnapshot) :
    option ProviderSnapshot :=
  match o, current with
  | MarkScheduled at_, Ready h l f _ e => Some (Ready h l f (Scheduled at_) e)
  | MarkRefreshing t, Ready h l f _ e => Some (Ready h l f (Refreshing t) e)
  | ApplySuccess sample, _ =>
      Some (Ready (local_history current) (stored_sample now current sample) Fresh Idle None)
  | ApplyFailure error, Ready h l _ _ _ =>
      if bool_decide (ClassifiedError.retry error = Automatic)
      then Some (Ready h l (Stale (Timestamp.max now (UsageSample.fetched_at l))) Idle (Some error))
      else Some (Unavailable h (UsageSample.scope l) error)
  | ApplyFailure error, _ => Some (Unavailable (local_history current) (scope current) error)
  | ApplyLocalHistory h, Ready _ l f r e =>
      Some (Ready (Some h) (attach_history l (LocalHistorySnapshot.data h)) f r e)
  | ApplyLocalHistory h, _ => Some (with_local_history current (Some h))
  | MarkHistoryState s, Ready (Some h) l f r e =>
      Some (Ready (Some (LocalHistorySnapshot.mk (LocalHistorySnapshot.scope h) s
                           (LocalHistorySnapshot.data h)))
              (attach_history l (LocalHistorySnapshot.data h)) f r e)
  | MarkHistoryState s, _ =>
      (λ h, with_local_history current (Some (LocalHistorySnapshot.mk
               (LocalHistorySnapshot.scope h) s (LocalHistorySnapshot.data h))))
        <$> local_history current
  | ApplyCostUsage base c, Ready h l f r e =>
      if bool_decide (UsageSample.fetched_at l = base)
      then Some (Ready h (UsageSample.with_cost_usage l c) f r e) else None
  | _, _ => None
  end.

(** A sample of another account is the one input refused up front. *)
Definition foreign_sample (scope : AccountScope) (o : operation) : bool :=
  match o with
  | ApplySuccess sample => negb (bool_decide (UsageSample.scope sample = scope))
  | _ => false
  end.

(** Exactly one publication, of the new map. *)
Record published (st : SnapshotStore) (scope : AccountScope) (next : ProviderSnapshot)
    (now : Timestamp) (st' : SnapshotStore) : Prop := {
  pub_snapshots : snapshots st' = <[scope := next]> (snapshots st);
  pub_sequence : sequence st' = sequence st + 1;
  pub_publication : ∃ env, build_envelope (snapshots st') now = Ok env ∧
    publications st' = mk_published (sequence st') env :: publications st;
}.

(** ** The invariant *)
Record store_inv (st : SnapshotStore) : Prop := {
  inv_scopes : map_Forall (λ k s, scope s = k ∧ snapshot_ok s) (snapshots st);
  inv_size : Z.of_nat (size (snapshots st)) ≤ MAX_SNAPSHOTS_PER_ENVELOPE;
  inv_sequence : 1 ≤ sequence st ≤ u64_max;
  inv_published : ∀ i p, publications st !! i = Some p →
    published_sequence p = sequence st - Z.of_nat i;
  inv_count : Z.of_nat (length (publications st)) = sequence st;
  inv_current : ∃ p now, head (publications st) = Some p ∧
    build_envelope (snapshots st) now = Ok (published_envelope p);
}.

Lemma values_perm m : values m ≡ₚ (map_to_list m).*2.
Proof. unfold values. by rewrite sort_by_key_perm. Qed.
Lemma values_scopes (m : gmap AccountScope ProviderSnapshot) :
  map_Forall (λ k s, scope s = k) m → NoDup (scope <$> values m).
Proof.
  intros Hm. rewrite values_perm. rewrite <-list_fmap_compose.
  rewrite (list_fmap_ext _ fst); [apply NoDup_fst_map_to_list|].
  intros i [k s] Hin. cbn. apply Hm.
  apply elem_of_map_to_list. by eapply list_elem_of_lookup_2.
Qed.
Lemma build_succeeds m now :
  map_Forall (λ k s, scope s = k) m → Z.of_nat (size m) ≤ MAX_SNAPSHOTS_PER_ENVELOPE →
  ∃ env, build_envelope m now = Ok env.
Proof.
  intros Hm Hsize. unfold build_envelope, SnapshotEnvelopeV1.new.
  assert (length (values m) = size m) as Hlen
    by by rewrite values_perm, length_fmap, length_map_to_list.
  unfold check_limit. rewrite (proj2 (Z.ltb_ge _ _)) by (rewrite Hlen; done).
  cbn [mbind Result_bind].
  rewrite (proj2 (adjacent_dup_sort scope (values m))) by by apply values_scopes.
  by eexists.
Qed.
Lemma build_error m now e :
  map_Forall (λ k s, scope s = k) m → build_envelope m now = Err e →
  MAX_SNAPSHOTS_PER_ENVELOPE < Z.of_nat (size m).
Proof.
  intros Hm E. destruct (Z.le_gt_cases (Z.of_nat (size m)) MAX_SNAPSHOTS_PER_ENVELOPE); [|lia].
  destruct (build_succeeds m now) as (env & E'); [done..|congruence].
Qed.

Definition keep_history (current next : ProviderSnapshot) : ProviderSnapshot :=
  match local_history next with
  | None => with_local_history next (local_history current)
  | Some _ => next
  end.

(** The outcome of addressing [next] to [scope]. *)
Definition publish_outcome (st : SnapshotStore) (k : AccountScope) (next : ProviderSnapshot)
    (now : Timestamp) (res : SnapshotStore * Result SnapshotStoreError bool) : Prop :=
  match snapshots st !! k with
  | None => res = (st, Err UnknownScope)
  | Some current =>
      if bool_decide (current = next) then res = (st, Ok false)
      else if sequence st =? u64_max then res = (st, Err SequenceExhausted)
      else ∃ st', res = (st', Ok true) ∧ published st k next now st'
  end.

Lemma insert_scopes (m : gmap AccountScope ProviderSnapshot) k next :
  map_Forall (λ k s, scope s = k ∧ snapshot_ok s) m → scope next = k → snapshot_ok next →
  map_Forall (λ k s, scope s = k ∧ snapshot_ok s) (<[k := next]> m).
Proof. intros Hm Hs Hok. by apply map_Forall_insert_2. Qed.

Lemma publish_change_outcome st k next now current :
  store_inv st → snapshots st !! k = Some current →
  scope (keep_history current next) = k → snapshot_ok (keep_history current next) →
  publish_outcome st k (keep_history current next) now (publish_change k next now st).
Proof.
  intros Hinv Hk Hs Hok. unfold publish_outcome. rewrite Hk.
  unfold publish_change, require_scope, se_gets, se_lift, mbind, SE_bind. rewrite Hk.
  cbn [ok_or]. fold (keep_history current next).
  case_bool_decide; [done|]. cbn. unfold checked_add.
  destruct Hinv as [Hscopes Hsize Hseq Hpub Hcount Hcur].
  destruct (Z.eqb_spec (sequence st) u64_max) as [Hm|Hm].
  - rewrite (proj2 (Z.leb_gt _ _)) by lia. done.
  - rewrite (proj2 (Z.leb_le _ _)) by lia. cbn.
    destruct (build_succeeds (<[k:=keep_history current next]> (snapshots st)) now) as (env & He).
    + eapply map_Forall_impl; [by apply insert_scopes|]. by intros ? ? [? _].
    + rewrite map_size_insert_Some by done. done.
    + unfold snapshot_result, se_lift. rewrite He. cbn. eexists. split; [done|].
      split; cbn; [done..|]. by exists env.
Qed.
End spec.

Section refinement.
Context `{DecimalCrate}.
Import ProviderSnapshot.

(** [mark_history_state] does not report whether it changed anything. *)
Definition quiet (o : operation) : bool :=
  match o with MarkHistoryState _ => true | _ => false end.
Definition spec_outcome (st : SnapshotStore) (k : AccountScope) (o : operation) (now : Timestamp)
    (res : SnapshotStore * Result SnapshotStoreError bool) : Prop :=
  match snapshots st !! k with
  | None => res = (st, Err UnknownScope)
  | Some current =>
      if foreign_sample k o then res = (st, Err StoreScopeMismatch) else
      match transition now o current with
      | None => res = (st, Ok (quiet o))
      | Some next =>
          if bool_decide (current = next) then res = (st, Ok (quiet o)) else
          if sequence st =? u64_max then res = (st, Err SequenceExhausted) else
          ∃ st', res = (st', Ok true) ∧ published st k next now st'
      end
  end.

Lemma with_own_history s : with_local_history s (local_history s) = s.
Proof. by destruct s. Qed.
Lemma ready_ok_eq l f r e : stale_and_error_ok l f e → ready l f r e = Ok (Ready None l f r e).
Proof. intros Hok. by apply ready_Ok. Qed.
Lemma stale_max l now e :
  stale_and_error_ok l (Stale (Timestamp.max now (UsageSample.fetched_at l))) e.
Proof. split; [|by eexists]. intros ? [= <-]. rewrite ts_max_nanos. lia. Qed.
Lemma fresh_ok l : stale_and_error_ok l Fresh None.
Proof. by split. Qed.
Lemma attach_scope l d : UsageSample.scope (attach_history l d) = UsageSample.scope l.
Proof. by destruct d. Qed.
Lemma attach_ok l d f e : stale_and_error_ok (attach_history l d) f e ↔ stale_and_error_ok l f e.
Proof. by destruct d. Qed.
Lemma backfill_same (l c : UsageSample) now :
  UsageSample.scope l = UsageSample.scope c →
  ∃ l', UsageSample.backfilling_reset_times l c now = Ok l' ∧
        UsageSample.scope l' = UsageSample.scope l ∧
        UsageSample.fetched_at l' = UsageSample.fetched_at l.
Proof.
  intros E. unfold UsageSample.backfilling_reset_times. rewrite bool_decide_true by done.
  by eexists.
Qed.

Lemma stored_sample_scope now current sample :
  scope current = UsageSample.scope sample →
  UsageSample.scope (stored_sample now current sample) = UsageSample.scope sample ∧
  UsageSample.fetched_at (stored_sample now current sample) = UsageSample.fetched_at sample.
Proof.
  intros Hs. unfold stored_sample. destruct current as [h ?|h l f r e|h ? ?]; cbn in *.
  - destruct h as [[? ? []]|]; done.
  - destruct (backfill_same sample l now) as (l' & E & Hl & Hf); [done|]. rewrite E.
    destruct h as [[? ? []]|]; done.
  - destruct h as [[? ? []]|]; done.
Qed.

Lemma transition_ok now o current next :
  snapshot_ok current → foreign_sample (scope current) o = false →
  transition now o current = Some next → scope next = scope current ∧ snapshot_ok next.
Proof.
  intros Hok Hf. destruct o as [a|t|m|er|h|s|b c]; cbn [transition].
  - by destruct current; intros [= <-].
  - by destruct current; intros [= <-].
  - cbn in Hf. apply negb_false_iff, bool_decide_eq_true in Hf. intros [= <-].
    split; [|by apply fresh_ok]. cbn. rewrite <-Hf. by apply stored_sample_scope.
  - destruct current; try (by intros [= <-]). case_bool_decide; intros [= <-]; cbn; [|done].
    split; [done|]. apply stale_max.
  - destruct current; intros [= <-]; cbn; [done| |done]. by rewrite attach_scope, attach_ok.
  - destruct current as [[] ?|[] ? ? ? ?|[] ? ?]; try done; intros [= <-]; try done; cbn.
    by rewrite attach_scope, attach_ok.
  - destruct current; try done. case_bool_decide; intros [= <-]. done.
Qed.

(** The operations that publish a snapshot computed from the current one. *)
Lemma publish_outcome_spec st k next next0 now current :
  store_inv st → snapshots st !! k = Some current →
  keep_history current next0 = next → scope next = k → snapshot_ok next →
  publish_outcome st k next now (publish_change k next0 now st).
Proof. intros ? ? <- ? ?. by eapply publish_change_outcome. Qed.

Lemma require_scope_eq {B} st k current (f : ProviderSnapshot → Store B) :
  snapshots st !! k = Some current → (require_scope k ≫= f) st = f current st.
Proof. intros Hk. unfold require_scope, se_gets, se_lift, mbind, SE_bind. by rewrite Hk. Qed.
Lemma require_scope_None {B} st k (f : ProviderSnapshot → Store B) :
  snapshots st !! k = None → (require_scope k ≫= f) st = (st, Err UnknownScope).
Proof. intros Hk. unfold require_scope, se_gets, se_lift, mbind, SE_bind. by rewrite Hk. Qed.
Lemma snapshot_result_Ok {A B} (a : A) r (f : A → Store B) st :
  r = Ok a → (snapshot_result r ≫= f) st = f a st.
Proof. by intros ->. Qed.

Lemma history_outcome st k h now current :
  store_inv st → snapshots st !! k = Some current →
  ∃ next, transition now (ApplyLocalHistory h) current = Some next ∧
    publish_outcome st k next now (apply_local_history k h now st).
Proof.
  intros Hinv Hk. destruct (inv_scopes _ Hinv k current Hk) as [Hs Hok].
  destruct (transition now (ApplyLocalHistory h) current) as [next|] eqn:Ht;
    [|by destruct current].
  exists next. split; [done|].
  destruct (transition_ok now (ApplyLocalHistory h) current next Hok eq_refl Ht) as [Hs' Hok'].
  unfold apply_local_history. rewrite (require_scope_eq _ _ _ _ Hk).
  destruct current as [h' sc|h' l f r e|h' sc e]; injection Ht as <-.
  - change (publish_outcome st k (Loading (Some h) sc) now
      (publish_change k (Loading (Some h) sc) now st)).
    eapply publish_outcome_spec; try done.
  - rewrite (snapshot_result_Ok (Ready None (attach_history l (LocalHistorySnapshot.data h)) f r e))
      by (by apply ready_ok_eq, attach_ok).
    eapply publish_outcome_spec; try done. cbn. by rewrite attach_scope.
  - change (publish_outcome st k (Unavailable (Some h) sc e) now
      (publish_change k (Unavailable (Some h) sc e) now st)).
    eapply publish_outcome_spec; try done.
Qed.

Lemma mark_history_run st k s now current :
  snapshots st !! k = Some current →
  exec k (MarkHistoryState s) now st =
  match local_history current with
  | Some h =>
      let res := apply_local_history k (LocalHistorySnapshot.mk (LocalHistorySnapshot.scope h) s
                   (LocalHistorySnapshot.data h)) now st in
      (res.1, match res.2 with Ok _ => Ok true | Err e => Err e end)
  | None => (st, Ok true)
  end.
Proof.
  intros Hk. cbn [exec]. unfold mark_history_state.
  destruct (local_history current) as [h|] eqn:Eh; cbv zeta.
  - destruct (apply_local_history k _ now st) as [st' [b|e]] eqn:E; cbn [fst snd].
    + erewrite se_bind_run; [reflexivity|]. rewrite (require_scope_eq _ _ _ _ Hk), Eh. cbv beta iota.
      erewrite se_bind_run by exact E. reflexivity.
    + erewrite se_bind_stop; [reflexivity|]. rewrite (require_scope_eq _ _ _ _ Hk), Eh. cbv beta iota.
      erewrite se_bind_stop by exact E. reflexivity.
  - erewrite se_bind_run; [reflexivity|]. by rewrite (require_scope_eq _ _ _ _ Hk), Eh.
Qed.

(** Each operation on a known scope does what [transition] says. *)
Definition outcome (st : SnapshotStore) (k : AccountScope) (o : operation) (now : Timestamp)
    (current : ProviderSnapshot) (res : SnapshotStore * Result SnapshotStoreError bool) : Prop :=
  match transition now o current with
  | None => res = (st, Ok false)
  | Some next => publish_outcome st k next now res
  end.

Section known_scope.
Context (st : SnapshotStore) (k : AccountScope) (now : Timestamp) (current : ProviderSnapshot).
Context (Hinv : store_inv st) (Hk : snapshots st !! k = Some current).

Lemma current_ok : scope current = k ∧ snapshot_ok current.
Proof. by apply (inv_scopes _ Hinv). Qed.
Lemma next_ok o next :
  foreign_sample k o = false → transition now o current = Some next →
  scope next = k ∧ snapshot_ok next.
Proof.
  destruct current_ok as [<- Hok]. intros Hf Ht. by eapply transition_ok.
Qed.
Lemma publish_next o next next0 :
  foreign_sample k o = false → transition now o current = Some next →
  keep_history current next0 = next →
  publish_outcome st k next now (publish_change k next0 now st).
Proof. intros Hf Ht Hkeep. destruct (next_ok o next Hf Ht). by eapply publish_outcome_spec. Qed.

Lemma phase_outcome o phase :
  o = MarkScheduled phase ∨ o = MarkRefreshing phase → outcome st k o now current (exec k o now st).
Proof.
  intros Ho. destruct current_ok as [_ Hok].
  pose proof (publish_next o) as Hpub. unfold outcome.
  destruct Ho as [->| ->]; cbn [exec transition] in *;
    unfold mark_scheduled, mark_refreshing, set_ready_refresh_phase;
    rewrite (require_scope_eq _ _ _ _ Hk);
    destruct current as [h ?|h l f r e|h ? ?]; cbn; try done.
  - rewrite (snapshot_result_Ok _ _ _ _ (ready_ok_eq l f (Scheduled phase) e Hok)). by eapply Hpub.
  - rewrite (snapshot_result_Ok _ _ _ _ (ready_ok_eq l f (Refreshing phase) e Hok)). by eapply Hpub.
Qed.

(** The sample [apply_success] builds. *)
Lemma backfilled_sample m :
  UsageSample.scope m = k →
  ∃ s1, (match last_known_good current with
         | Some cached => snapshot_result (UsageSample.backfilling_reset_times m cached now)
         | None => mret m end) st = (st, Ok s1) ∧
    stored_sample now current m = match local_history current with
      | Some h => attach_history s1 (LocalHistorySnapshot.data h) | None => s1 end.
Proof.
  intros Hm. destruct current_ok as [Hs _]. unfold stored_sample.
  destruct (last_known_good current) as [cached|] eqn:El; [|by eexists].
  assert (UsageSample.scope m = UsageSample.scope cached) as Hmc.
  { destruct current; try done. injection El as <-. cbn in Hs. congruence. }
  destruct (backfill_same m cached now Hmc) as (l' & E & _). rewrite E. by eexists.
Qed.
Lemma success_outcome m :
  foreign_sample k (ApplySuccess m) = false →
  outcome st k (ApplySuccess m) now current (exec k (ApplySuccess m) now st).
Proof.
  intros Hf. pose proof (λ next0, publish_next (ApplySuccess m) _ next0 Hf eq_refl) as Hpub.
  unfold outcome. cbn [transition exec] in *. unfold apply_success.
  rewrite (require_scope_eq _ _ _ _ Hk). cbn in Hf. rewrite Hf.
  apply negb_false_iff, bool_decide_eq_true in Hf.
  destruct (backfilled_sample m Hf) as (s1 & E1 & E2).
  rewrite (se_bind_run _ _ _ _ _ E1). cbv zeta. rewrite <-E2.
  rewrite (snapshot_result_Ok _ _ _ _ (ready_ok_eq _ Fresh Idle None (fresh_ok _))).
  by apply Hpub.
Qed.

(** The snapshot [apply_failure] builds. *)
Lemma failed_snapshot er :
  ∃ next next0, transition now (ApplyFailure er) current = Some next ∧
    keep_history current next0 = next ∧
    (if bool_decide (ClassifiedError.retry er = Automatic) then
       match last_known_good current with
       | Some l => snapshot_result (with_error_overlay current k er
                     (Timestamp.max now (UsageSample.fetched_at l)))
       | None => mret (unavailable k er) end
     else mret (unavailable k er)) st = (st, Ok next0).
Proof.
  destruct current_ok as [Hs _]. destruct current as [h sc|h l f r e|h sc e]; cbn in Hs; subst;
    cbn [transition].
  - eexists _, (unavailable k er). split; [done|]. split; [by destruct h|]. by destruct (bool_decide _).
  - case_bool_decide.
    + eexists _, _. split; [done|]. split; [|cbn; unfold snapshot_result, se_lift;
        rewrite bool_decide_true by done; cbn [negb];
        rewrite (ready_ok_eq l _ _ _ (stale_max l now (Some er))); reflexivity].
      by destruct h.
    + eexists _, _. split; [done|]. split; [|reflexivity]. by destruct h.
  - eexists _, (unavailable k er). split; [done|]. split; [by destruct h|]. by destruct (bool_decide _).
Qed.
Lemma failure_outcome er :
  outcome st k (ApplyFailure er) now current (exec k (ApplyFailure er) now st).
Proof.
  destruct (failed_snapshot er) as (next & next0 & Ht & Hkeep & Hrun).
  unfold outcome. rewrite Ht. cbn [exec]. unfold apply_failure.
  rewrite (require_scope_eq _ _ _ _ Hk), (se_bind_run _ _ _ _ _ Hrun).
  by eapply (publish_next (ApplyFailure er)).
Qed.

Lemma cost_outcome base c :
  outcome st k (ApplyCostUsage base c) now current (exec k (ApplyCostUsage base c) now st).
Proof.
  destruct current_ok as [_ Hok]. pose proof (publish_next (ApplyCostUsage base c)) as Hpub.
  unfold outcome. cbn [transition exec] in *. unfold apply_cost_usage.
  rewrite (require_scope_eq _ _ _ _ Hk). destruct current as [h ?|h l f r e|h ? ?]; cbn; try done.
  cbn in Hpub. case_bool_decide; cbn [negb]; [|done].
  rewrite (snapshot_result_Ok _ _ _ _ (ready_ok_eq (UsageSample.with_cost_usage l c) f r e Hok)).
  by eapply Hpub.
Qed.

Lemma mark_history_outcome s :
  ∃ res, outcome st k (MarkHistoryState s) now current res ∧
    exec k (MarkHistoryState s) now st = (res.1, match res.2 with Ok _ => Ok true | Err e => Err e end).
Proof.
  rewrite (mark_history_run _ _ _ _ _ Hk). unfold outcome.
  destruct (local_history current) as [h|] eqn:Eh.
  - eexists. split; [|reflexivity]. set (h' := LocalHistorySnapshot.mk _ _ _).
    destruct (history_outcome st k h' now current Hinv Hk) as (next & Ht & Hp).
    assert (transition now (MarkHistoryState s) current = Some next) as ->; [|done].
    rewrite <-Ht. destruct current as [[] ?|[] ? ? ? ?|[] ? ?]; try done; cbn in Eh;
      injection Eh as <-; done.
  - exists (st, Ok false). split; [|done]. by destruct current as [[] ?|[] ? ? ? ?|[] ? ?].
Qed.
End known_scope.

Lemma unknown_scope st k o now : snapshots st !! k = None → exec k o now st = (st, Err UnknownScope).
Proof.
  intros Hk. destruct o; cbn [exec]; unfold mark_scheduled, mark_refreshing, set_ready_refresh_phase,
    apply_success, apply_failure, apply_local_history, apply_cost_usage;
    try by apply require_scope_None.
  unfold mbind at 1, SE_bind. unfold mark_history_state. by rewrite require_scope_None.
Qed.

Lemma exec_refines st k o now : store_inv st → spec_outcome st k o now (exec k o now st).
Proof.
  intros Hinv. unfold spec_outcome. destruct (snapshots st !! k) as [current|] eqn:Hk;
    [|by apply unknown_scope].
  destruct (foreign_sample k o) eqn:Hf.
  { destruct o as [| |m| | | |]; try done. cbn in Hf. cbn [exec]. unfold apply_success.
    by rewrite (require_scope_eq _ _ _ _ Hk), Hf. }
  assert (∀ res, outcome st k o now current res →
    match transition now o current with
    | None => res = (st, Ok false)
    | Some next =>
        if bool_decide (current = next) then res = (st, Ok false)
        else if sequence st =? u64_max then res = (st, Err SequenceExhausted)
        else ∃ st', res = (st', Ok true) ∧ published st k next now st'
    end) as Hout.
  { intros res. unfold outcome, publish_outcome. by rewrite Hk. }
  destruct o as [a|t|m|er|h|s|b c]; cbn [quiet].
  - apply Hout, (phase_outcome _ _ _ _ Hinv Hk _ a). by left.
  - apply Hout, (phase_outcome _ _ _ _ Hinv Hk _ t). by right.
  - by apply Hout, success_outcome.
  - by apply Hout, failure_outcome.
  - apply Hout. destruct (history_outcome st k h now current Hinv Hk) as (next & Ht & Hp).
    unfold outcome. by rewrite Ht.
  - destruct (mark_history_outcome st k now current Hinv Hk s) as (res & Hres%Hout & ->).
    destruct (transition _ _ _) as [next|]; [|by rewrite Hres].
    destruct (bool_decide (current = next)); [by rewrite Hres|].
    destruct (_ =? _); [by rewrite Hres|]. destruct Hres as (st' & -> & Hp). by exists st'.
  - by apply Hout, cost_outcome.
Qed.
End refinement.

Section invariant.
Context `{DecimalCrate}.
Import ProviderSnapshot.

Lemma published_inv st k next now st' :
  store_inv st → is_Some (snapshots st !! k) → scope next = k → snapshot_ok next →
  sequence st ≠ u64_max → published st k next now st' → store_inv st'.
Proof.
  intros [Hsc Hsz Hseq Hpub Hcnt Hcur] Hk Hs Hok Hmax [Hm Hs' (env & Henv & Hp)].
  split.
  - rewrite Hm. by apply insert_scopes.
  - by rewrite Hm, map_size_insert_Some.
  - lia.
  - intros [|i] p Hi; rewrite Hp in Hi; cbn in Hi.
    + injection Hi as <-. cbn. lia.
    + apply Hpub in Hi. lia.
  - rewrite Hp. cbn. lia.
  - rewrite Hp. cbn. by eexists _, now.
Qed.

Lemma exec_cases st k o now :
  store_inv st →
  (∃ r, exec k o now st = (st, r)) ∨
  ∃ current next st', snapshots st !! k = Some current ∧ foreign_sample k o = false ∧
    transition now o current = Some next ∧ current ≠ next ∧ sequence st ≠ u64_max ∧
    exec k o now st = (st', Ok true) ∧ published st k next now st'.
Proof.
  intros Hinv. pose proof (exec_refines st k o now Hinv) as Ho. unfold spec_outcome in Ho.
  destruct (snapshots st !! k) as [current|] eqn:Hk; [|eauto].
  destruct (foreign_sample k o) eqn:Hf; [eauto|].
  destruct (transition now o current) as [next|] eqn:Ht; [|eauto].
  case_bool_decide as Hn; [eauto|].
  destruct (Z.eqb_spec (sequence st) u64_max) as [|Hmax]; [eauto|].
  destruct Ho as (st' & He & Hp). right. by exists current, next, st'.
Qed.
Lemma exec_inv st k o now :
  store_inv st →
  store_inv (exec k o now st).1 ∧ dom (snapshots (exec k o now st).1) = dom (snapshots st) ∧
  publications st `suffix_of` publications (exec k o now st).1.
Proof.
  intros Hinv. destruct (exec_cases st k o now Hinv)
    as [[r ->]|(current & next & st' & Hk & Hf & Ht & Hne & Hmax & -> & Hp)]; cbn.
  - split_and!; [done|done|]. by apply suffix_nil_inv || reflexivity.
  - destruct (inv_scopes _ Hinv k current Hk) as [Hs Hok].
    destruct (transition_ok now o current next) as [Hs' Hok']; [done| by rewrite Hs|done|].
    split_and!.
    + apply (published_inv st k next now st'); [done|by eexists|congruence|done|done|exact Hp].
    + destruct Hp as [-> _ _]. rewrite dom_insert_lookup_L; [done|by eexists].
    + destruct Hp as [_ _ (env & _ & ->)]. by apply suffix_cons_r.
Qed.

(** ** Construction *)
Lemma insert_loading_Ok scopes m m' :
  insert_loading scopes m = Ok m' →
  map_Forall (λ k s, scope s = k ∧ snapshot_ok s) m →
  map_Forall (λ k s, scope s = k ∧ snapshot_ok s) m' ∧
  dom m' = list_to_set scopes ∪ dom m.
Proof.
  revert m. induction scopes as [|k scopes IH]; intros m; cbn [insert_loading].
  - intros [= <-] Hm. split; [done|set_solver].
  - case_bool_decide as Hk; [done|]. intros H1 Hm.
    destruct (IH _ H1) as [Hm' Hd]; [by apply insert_scopes|]. split; [done|].
    rewrite Hd, dom_insert_L. cbn. set_solver.
Qed.
Lemma insert_retained_Ok retained now m m' :
  insert_retained retained now m = Ok m' →
  map_Forall (λ k s, scope s = k ∧ snapshot_ok s) m →
  map_Forall (λ k s, scope s = k ∧ snapshot_ok s) m' ∧ dom m' = dom m.
Proof.
  revert m. induction retained as [|s retained IH]; intros m; cbn [insert_retained].
  - by intros [= <-].
  - destruct (last_known_good s) as [l|] eqn:El; [|apply IH].
    case_bool_decide as Hk; cbn [negb]; [|apply IH].
    intros (restored & Hr%map_err_Ok & H1)%bind_Ok Hm. apply ready_Ok in Hr as [Hok ->].
    destruct (IH _ H1) as [Hm' Hd].
    + apply insert_scopes; [done| |done]. destruct s; try done. by injection El as <-.
    + split; [done|]. rewrite Hd. by rewrite dom_insert_lookup_L.
Qed.
Lemma insert_retained_total retained now m : is_ok (insert_retained retained now m) = true.
Proof.
  revert m. induction retained as [|s retained IH]; intros m; cbn [insert_retained]; [done|].
  destruct (last_known_good s) as [l|]; [|apply IH].
  case_bool_decide; cbn [negb]; [|apply IH].
  rewrite (ready_ok_eq l _ Idle None (stale_max l now None)). apply IH.
Qed.
Lemma build_size m now env :
  build_envelope m now = Ok env → Z.of_nat (size m) ≤ MAX_SNAPSHOTS_PER_ENVELOPE.
Proof.
  unfold build_envelope, SnapshotEnvelopeV1.new. intros (? & Hl%snapshot_limit_Ok & _)%bind_Ok.
  by rewrite values_perm, length_fmap, length_map_to_list in Hl.
Qed.
Lemma new_inv scopes retained now st :
  new_with_retained scopes retained now = Ok st →
  store_inv st ∧ dom (snapshots st) = list_to_set scopes.
Proof.
  unfold new_with_retained. intros (m & Hm & E)%bind_Ok. apply bind_Ok in E as (m' & Hm' & E).
  apply bind_Ok in E as (env & Henv%map_err_Ok & [= <-]).
  apply insert_loading_Ok in Hm as [Hm Hd]; [|apply map_Forall_empty].
  apply insert_retained_Ok in Hm' as [Hm' Hd']; [|done]. cbn. split.
  - split; cbn; try done.
    + by eapply build_size.
    + by intros [|i] p [= <-].
    + by eexists _, now.
  - rewrite Hd', Hd. set_solver.
Qed.

(** Any sequence of operations, each on its scope at its time; the actor keeps
    going when one is refused. *)
Definition run (ops : list (AccountScope * operation * Timestamp)) (st : SnapshotStore) :
    SnapshotStore :=
  foldl (λ st o, (exec o.1.1 o.1.2 o.2 st).1) st ops.

Lemma run_inv ops st :
  store_inv st → store_inv (run ops st) ∧ dom (snapshots (run ops st)) = dom (snapshots st).
Proof.
  revert st. induction ops as [|[[k o] now] ops IH]; intros st Hinv; [done|].
  change (run ((k, o, now) :: ops) st) with (run ops (exec k o now st).1).
  destruct (exec_inv st k o now Hinv) as (H1 & H2 & _). destruct (IH _ H1) as [H3 H4].
  split; [done|]. by rewrite H4.
Qed.

(** Whatever operations run, with whatever inputs, from a store the
    constructor built: the store holds exactly the configured scopes, each with
    a snapshot of that very scope that satisfies the ready-state invariants;
    the publications carry the sequence numbers 1, 2, ... without a gap; and
    what readers see is the envelope of the current state. *)
Theorem store_reachable scopes retained now0 st0 ops :
  new_with_retained scopes retained now0 = Ok st0 →
  store_inv (run ops st0) ∧ dom (snapshots (run ops st0)) = list_to_set scopes.
Proof.
  intros [Hinv Hd]%new_inv. destruct (run_inv ops st0 Hinv) as [H1 H2]. split; [done|].
  by rewrite H2.
Qed.

(** C33. every store operation is exactly its specification: it fails only for
    an unknown scope, a sample of another account or an exhausted sequence,
    and then the state is as before; it does nothing when there is nothing to
    do or nothing would change; otherwise it replaces the one snapshot by the
    specified next one and publishes the new state once, under the next
    sequence number. *)
Theorem store_refines_specification st k o now :
  store_inv st → spec_outcome st k o now (exec k o now st).
Proof. apply exec_refines. Qed.

(** A failed refresh never loses or revives data wrongly: afterwards the
    scope shows the error; a failure that cannot be retried automatically
    leaves no sample behind, so a previous account's data does not survive a
    logout; an automatic one keeps the sample, marked stale from now on; the
    local history and all other scopes are untouched. *)
Theorem failure_retires_or_keeps st k e now st' b :
  store_inv st → exec k (ApplyFailure e) now st = (st', Ok b) →
  ∃ s s', snapshots st !! k = Some s ∧ snapshots st' !! k = Some s' ∧
    error s' = Some e ∧ local_history s' = local_history s ∧
    (ClassifiedError.retry e ≠ Automatic → last_known_good s' = None) ∧
    (ClassifiedError.retry e = Automatic → last_known_good s' = last_known_good s ∧
       ∀ l, last_known_good s = Some l → ∃ since, freshness s' = Some (Stale since) ∧
         Timestamp.nanos now ≤ Timestamp.nanos since) ∧
    (∀ k', k' ≠ k → snapshots st' !! k' = snapshots st !! k').
Proof.
  intros Hinv He. pose proof (exec_refines st k (ApplyFailure e) now Hinv) as Ho.
  unfold spec_outcome in Ho. rewrite He in Ho.
  destruct (snapshots st !! k) as [s|] eqn:Hk; [|done]. cbn [foreign_sample] in Ho.
  assert (∃ s', transition now (ApplyFailure e) s = Some s' ∧
    error s' = Some e ∧ local_history s' = local_history s ∧
    (ClassifiedError.retry e ≠ Automatic → last_known_good s' = None) ∧
    (ClassifiedError.retry e = Automatic → last_known_good s' = last_known_good s ∧
       ∀ l, last_known_good s = Some l → ∃ since, freshness s' = Some (Stale since) ∧
         Timestamp.nanos now ≤ Timestamp.nanos since)) as (s' & Ht & Hs').
  { cbn [transition]. destruct s as [h sc|h l f r er|h sc er].
    1,3: eexists; split_and!; done.
    case_bool_decide; eexists; (split; [done|]); cbn; split_and!; try done.
    intros _. split; [done|]. intros ? [= <-]. eexists. split; [done|].
    rewrite ts_max_nanos. lia. }
  rewrite Ht in Ho. exists s, s'. destruct Hs' as (E1 & E2 & E3 & E4).
  case_bool_decide as Hsame.
  - injection Ho as -> ->. subst. by split_and!.
  - destruct (_ =? _); [done|]. destruct Ho as (st2 & [= <- ->] & [Hm _ _]). rewrite Hm.
    split_and!; try done.
    + apply lookup_insert_eq.
    + intros k' Hne. by apply lookup_insert_ne.
Qed.

(** What a successful refresh stores: only a sample of the addressed
    account, at its own fetch time, as the fresh and idle state without error,
    its activity that of the local history where there is one, and every lane
    as measured, filled at most with a future reset of the previous sample; a
    sample of another account changes nothing. *)
Theorem success_stores_sample st k m now st' r :
  store_inv st → exec k (ApplySuccess m) now st = (st', r) →
  (UsageSample.scope m ≠ k → st' = st ∧ r ≠ Ok true ∧ r ≠ Ok false) ∧
  (∀ b, r = Ok b → ∃ s l, snapshots st !! k = Some s ∧
     snapshots st' !! k = Some (Ready (local_history s) l Fresh Idle None) ∧
     UsageSample.scope l = k ∧ UsageSample.fetched_at l = UsageSample.fetched_at m ∧
     option_Forall2 (lane_backfilled now) (UsageSample.primary m) (UsageSample.primary l) ∧
     (∀ h, local_history s = Some h → UsageSample.cost_usage l = LocalHistorySnapshot.data h)).
Proof.
  intros Hinv He. pose proof (exec_refines st k (ApplySuccess m) now Hinv) as Ho.
  unfold spec_outcome in Ho. rewrite He in Ho.
  destruct (snapshots st !! k) as [s|] eqn:Hk; [|by injection Ho as -> ->].
  cbn [foreign_sample] in Ho. case_bool_decide as Hm; cbn [negb] in Ho.
  2: { injection Ho as -> ->. split; [done|]. by intros b [=]. }
  split; [done|]. intros b ->. cbn [transition] in Ho.
  destruct (inv_scopes _ Hinv k s Hk) as [Hs Hok].
  destruct (stored_sample_scope now s m) as [Hl1 Hl2]; [congruence|].
  exists s, (stored_sample now s m). split; [done|]. split; [|split_and!; try congruence].
  - case_bool_decide as Hsame; [by injection Ho as -> ->; rewrite Hk, Hsame at 1|].
    destruct (_ =? _); [done|]. destruct Ho as (st2 & [= <- ->] & [Hmap _ _]). rewrite Hmap.
    apply lookup_insert_eq.
  - assert (∀ (a : UsageSample) d, UsageSample.primary (attach_history a d) = UsageSample.primary a)
      as Ha by by intros ? [].
    assert (∀ x : option RateWindow.RateWindow.t, option_Forall2 (lane_backfilled now) x x) as Hrefl.
    { intros [w|]; constructor. repeat split. by left. }
    unfold stored_sample. destruct (local_history s); rewrite ?Ha;
      (destruct (last_known_good s) as [c|]; [|apply Hrefl];
       unfold UsageSample.backfilling_reset_times; destruct (negb _); [apply Hrefl|];
       apply backfill_lane_opt).
  - intros h Hh. unfold stored_sample. rewrite Hh. by destruct (LocalHistorySnapshot.data h).
Qed.
End invariant.

(** ** Witnesses *)
Definition ada : AccountScope := scope_example (lit "ada").
Definition store_example : Result SnapshotStoreError (@SnapshotStore Reference.decimal) :=
  new [ada; scope_example (lit "bob")] (Timestamp.mk 1).
Definition ops_example : list (AccountScope * @operation Reference.decimal * Timestamp) :=
  [(ada, ApplySuccess (sample_example 5), Timestamp.mk 6);
   (ada, ApplyFailure (ClassifiedError.new AuthenticationExpired), Timestamp.mk 7)].

Lemma store_reachable_witness :
  match store_example with
  | Ok st0 => store_inv (run ops_example st0)
  | Err _ => False
  end.
Proof.
  assert (is_ok store_example = true) as Hok by (vm_compute; reflexivity).
  destruct store_example as [st0|e] eqn:E; [|discriminate Hok].
  apply (@store_reachable Reference.decimal [ada; scope_example (lit "bob")] [] (Timestamp.mk 1) st0
    ops_example E).
Defined.

Lemma store_example_inv st : store_example = Ok st → store_inv st.
Proof. intros [H _]%new_inv. exact H. Qed.

Lemma store_refines_specification_witness :
  match store_example with
  | Ok st0 => spec_outcome st0 ada (ApplySuccess (sample_example 5)) (Timestamp.mk 6)
                (exec ada (ApplySuccess (sample_example 5)) (Timestamp.mk 6) st0)
  | Err _ => False
  end.
Proof.
  assert (is_ok store_example = true) as Hok by (vm_compute; reflexivity).
  destruct store_example as [st0|e] eqn:E; [|discriminate Hok].
  apply store_refines_specification, store_example_inv, E.
Defined.

Definition failed_example : option (@SnapshotStore Reference.decimal * Result SnapshotStoreError bool) :=
  st0 ← result_ok store_example;
  Some (exec ada (ApplyFailure (ClassifiedError.new AuthenticationExpired)) (Timestamp.mk 7)
          (run (take 1 ops_example) st0)).
Definition stored_ok {A} (o : option (A * Result SnapshotStoreError bool)) : bool :=
  match o with Some (_, Ok true) => true | _ => false end.
Lemma failure_retires_or_keeps_witness :
  match failed_example with
  | Some (st', Ok b) => ∃ s', snapshots st' !! ada = Some s' ∧
      ProviderSnapshot.last_known_good s' = None
  | _ => False
  end.
Proof.
  assert (stored_ok failed_example = true) as Hok by (vm_compute; reflexivity).
  unfold failed_example in *. destruct store_example as [st0|e] eqn:E; [|discriminate Hok].
  cbn [result_ok mbind option_bind] in *.
  destruct (exec _ _ _ _) as [st' [b|er]] eqn:He; [|discriminate Hok].
  destruct (failure_retires_or_keeps (run (take 1 ops_example) st0) ada
    (ClassifiedError.new AuthenticationExpired) (Timestamp.mk 7) st' b) as (s & s' & _ & Hs & _ & _ & Hn & _).
  - apply run_inv, store_example_inv, E.
  - exact He.
  - exists s'. split; [exact Hs|]. apply Hn. discriminate.
Defined.

Definition stored_example : option (@SnapshotStore Reference.decimal * Result SnapshotStoreError bool) :=
  st0 ← result_ok store_example;
  Some (exec ada (ApplySuccess (sample_example 5)) (Timestamp.mk 6) st0).
Lemma success_stores_sample_witness :
  match stored_example with
  | Some (st', Ok b) => ∃ h l, snapshots st' !! ada =
      Some (ProviderSnapshot.Ready h l Fresh Idle None)
  | _ => False
  end.
Proof.
  assert (stored_ok stored_example = true) as Hok by (vm_compute; reflexivity).
  unfold stored_example in *. destruct store_example as [st0|e] eqn:E; [|discriminate Hok].
  cbn [result_ok mbind option_bind] in *.
  destruct (exec _ _ _ _) as [st' [b|er]] eqn:He; [|discriminate Hok].
  destruct (success_stores_sample st0 ada (sample_example 5) (Timestamp.mk 6) st' (Ok b))
    as [_ H]; [apply store_example_inv, E|exact He|].
  destruct (H b eq_refl) as (s & l & _ & Hl & _). eexists _, _. exact Hl.
Defined.
