(* ===== verification/Scheduler.v ===== *)
(** * The refresh scheduler  (crates/runtime/src/scheduler.rs)

    Periodic cadences and provider reset boundaries, driven by the monotonic
    clock.  Instants and durations are counts of nanoseconds, within the range
    of the standard library's representations. *)
From stdpp Require Import gmap countable prelude.
From S2P Require Import Prelude Ordering Text Externals Scope.
Local Open Scope Z_scope.

(** [std::time::Instant]: an [i64] of seconds and the nanoseconds below one. *)
Definition Instant := Z.
Definition INSTANT_MAX : Instant := i64_max * NANOS_PER_SECOND + 999999999.
(** [std::time::Duration]: a [u64] of seconds and the nanoseconds below one. *)
Definition Duration := Z.
Definition DURATION_MAX : Duration := u64_max * NANOS_PER_SECOND + 999999999.
Definition duration_new (seconds nanoseconds : Z) : Duration :=
  seconds * NANOS_PER_SECOND + nanoseconds.
Definition from_secs (seconds : Z) : Duration := duration_new seconds 0.
(** [Instant::checked_add] *)
Definition instant_checked_add (base : Instant) (duration : Duration) : option Instant :=
  if base + duration <=? INSTANT_MAX then Some (base + duration) else None.

Definition DEFAULT_NORMAL_CADENCE : Duration := from_secs (5 * 60).
Definition DEFAULT_POPUP_CADENCE : Duration := from_secs (2 * 60).
Definition RESET_BOUNDARY_GRACE_SECS : Z := 30.
Definition RESET_BOUNDARY_MINIMUM_DELAY : Duration := from_secs 5.

(** ** [saturating_instant_add] *)
Definition duration_from_nanos (nanoseconds : Z) : Duration :=
  duration_new (nanoseconds / NANOS_PER_SECOND) (nanoseconds mod NANOS_PER_SECOND).

(** The [while lower <= upper] loop; [fuel] bounds its iterations. *)
Fixpoint largest_addend (fuel : nat) (base lower upper best : Z) : option Instant :=
  match fuel with
  | O => None
  | S fuel =>
      if negb (lower <=? upper) then Some best else
      let middle := lower + (upper - lower) / 2 in
      match instant_checked_add base (duration_from_nanos middle) with
      | Some candidate => largest_addend fuel base (middle + 1) upper candidate
      | None =>
          if middle =? 0 then Some best
          else largest_addend fuel base lower (middle - 1) best
      end
  end.
(** A [u128] interval is halved at most 129 times. *)
Definition SEARCH_FUEL : nat := 130.
Definition saturating_instant_add (base : Instant) (duration : Duration) : Instant :=
  match instant_checked_add base duration with
  | Some deadline => deadline
  | None => default base (largest_addend SEARCH_FUEL base 0 duration base)
  end.

(** ** Policy *)
Inductive CadenceKind := Normal | Popup.
Inductive SchedulePolicyError :=
| ZeroCadence (kind : CadenceKind)
| PopupNotShorter (normal popup : Duration).
Record SchedulePolicy := mk_policy { normal_cadence : Duration; popup_cadence : Duration }.
Definition validate_cadence (cadence : Duration) (kind : CadenceKind) :
    Result SchedulePolicyError unit :=
  if cadence =? 0 then Err (ZeroCadence kind) else Ok tt.
Definition policy_new (normal_cadence popup_cadence : Duration) :
    Result SchedulePolicyError SchedulePolicy :=
  _ ← validate_cadence normal_cadence Normal;
  _ ← validate_cadence popup_cadence Popup;
  if normal_cadence <=? popup_cadence
  then Err (PopupNotShorter normal_cadence popup_cadence)
  else Ok (mk_policy normal_cadence popup_cadence).
Definition policy_default : SchedulePolicy :=
  mk_policy DEFAULT_NORMAL_CADENCE DEFAULT_POPUP_CADENCE.

(** What one call of each method of the [Clock] trait observes; no operation
    below reads a clock twice. *)
Record Clock := observe { wall_now : Timestamp; monotonic_now : Instant }.

Inductive ScheduledRefresh :=
| Periodic
| ResetBoundary (scope : AccountScope) (boundary : Timestamp).
#[global] Instance ScheduledRefresh_eq_dec : EqDecision ScheduledRefresh.
Proof. solve_decision. Defined.
Inductive ScheduleError := WallDeltaOutOfRange.
Record ResetDeadline := mk_deadline { boundary : Timestamp; due : Instant }.

Record Scheduler := mk_scheduler {
  policy : SchedulePolicy;
  normal_due : Instant;
  popup_due : option Instant;
  pending_resets : gmap AccountScope ResetDeadline;
  last_fired_resets : gmap AccountScope Timestamp;
}.

Definition set_pending (s : Scheduler) (m : gmap AccountScope ResetDeadline) : Scheduler :=
  mk_scheduler (policy s) (normal_due s) (popup_due s) m (last_fired_resets s).

Definition new (policy : SchedulePolicy) (clock : Clock) : Scheduler :=
  mk_scheduler policy (saturating_instant_add (monotonic_now clock) (normal_cadence policy))
    None ∅ ∅.

Definition set_popup_open (self : Scheduler) (open : bool) (clock : Clock) : Scheduler * bool :=
  let was_open := bool_decide (is_Some (popup_due self)) in
  let popup_due :=
    match open, was_open with
    | true, false =>
        Some (saturating_instant_add (monotonic_now clock) (popup_cadence (policy self)))
    | false, true => None
    | _, _ => popup_due self
    end in
  (mk_scheduler (policy self) (normal_due self) popup_due (pending_resets self)
     (last_fired_resets self), negb (eqb was_open open)).

Section resets.
Context `{TimeCrate}.

Definition reset_refresh_at (boundary : Timestamp) : Result ScheduleError Timestamp :=
  let value := Timestamp.nanos boundary + RESET_BOUNDARY_GRACE_SECS * NANOS_PER_SECOND in
  if (odt_min <=? value) && (value <=? odt_max)
  then ok_or (result_ok (Timestamp.new value)) WallDeltaOutOfRange
  else Err WallDeltaOutOfRange.

(** [Duration::try_from] a signed difference of two instants of civil time. *)
Definition duration_try_from (wall_delta : Z) : option Duration :=
  if wall_delta <? 0 then None else Some wall_delta.

Definition project_wall_deadline (boundary wall_now : Timestamp) (monotonic_now : Instant) :
    Result ScheduleError Instant :=
  if Timestamp.leb boundary wall_now then Ok monotonic_now else
  duration ← ok_or (duration_try_from (Timestamp.nanos boundary - Timestamp.nanos wall_now))
               WallDeltaOutOfRange;
  Ok (saturating_instant_add monotonic_now duration).

Definition project_reset_deadline (boundary : Timestamp) (clock : Clock) :
    Result ScheduleError Instant :=
  refresh_at ← reset_refresh_at boundary;
  let monotonic_now := monotonic_now clock in
  projected ← project_wall_deadline refresh_at (wall_now clock) monotonic_now;
  let minimum := saturating_instant_add monotonic_now RESET_BOUNDARY_MINIMUM_DELAY in
  Ok (Z.max projected minimum).

Definition already_fired (self : Scheduler) (scope : AccountScope) (b : Timestamp) : bool :=
  match last_fired_resets self !! scope with
  | Some last_fired => Timestamp.leb b last_fired
  | None => false
  end.
Definition already_pending (self : Scheduler) (scope : AccountScope) (b : Timestamp) : bool :=
  match pending_resets self !! scope with
  | Some pending => bool_decide (boundary pending = b)
  | None => false
  end.

(** [project_reset_deadline(boundary, clock)?] followed by the insertion. *)
Definition arm (self : Scheduler) (scope : AccountScope) (b : Timestamp) (clock : Clock) :
    Scheduler * Result ScheduleError bool :=
  match project_reset_deadline b clock with
  | Err e => (self, Err e)
  | Ok due =>
      (set_pending self (<[scope := mk_deadline b due]> (pending_resets self)), Ok true)
  end.

Definition schedule_reset (self : Scheduler) (scope : AccountScope) (b : Timestamp)
    (clock : Clock) : Scheduler * Result ScheduleError bool :=
  if already_fired self scope b || already_pending self scope b then (self, Ok false)
  else arm self scope b clock.

(** [Iterator::min] *)
Definition earliest (l : list Timestamp) : option Timestamp :=
  foldl (λ acc b, match acc with None => Some b | Some a => Some (Timestamp.min a b) end) None l.

Definition still_useful (sample_fetched_at b : Timestamp) : bool :=
  match reset_refresh_at b with
  | Ok refresh_at => Timestamp.ltb sample_fetched_at refresh_at
  | Err _ => false
  end.

Definition reconcile_reset_boundaries (self : Scheduler) (scope : AccountScope)
    (boundaries : list Timestamp) (sample_fetched_at : Timestamp) (clock : Clock) :
    Scheduler * Result ScheduleError bool :=
  let candidates :=
    filter (λ b, still_useful sample_fetched_at b = true)
      (filter (λ b, already_fired self scope b = false) boundaries) in
  match earliest candidates with
  | None =>
      (set_pending self (delete scope (pending_resets self)),
       Ok (bool_decide (is_Some (pending_resets self !! scope))))
  | Some b =>
      if already_pending self scope b then (self, Ok false) else arm self scope b clock
  end.
End resets.

Definition next_deadline (self : Scheduler) : option Instant :=
  let periodic := match popup_due self with
                  | Some popup => Z.min (normal_due self) popup
                  | None => normal_due self
                  end in
  Some (foldl Z.min periodic (due <$> (map_to_list (pending_resets self)).*2)).

Definition due_scopes (self : Scheduler) (now : Instant) : list AccountScope :=
  fst <$> filter (λ kv, due kv.2 ≤ now) (sort_by_key fst (map_to_list (pending_resets self))).

Definition fire_reset (acc : Scheduler * list ScheduledRefresh) (scope : AccountScope) :
    Scheduler * list ScheduledRefresh :=
  let '(s, refreshes) := acc in
  match pending_resets s !! scope with
  | None => acc
  | Some reset =>
      (mk_scheduler (policy s) (normal_due s) (popup_due s) (delete scope (pending_resets s))
         (<[scope := boundary reset]> (last_fired_resets s)),
       refreshes ++ [ResetBoundary scope (boundary reset)])
  end.

Definition take_due (self : Scheduler) (clock : Clock) : Scheduler * list ScheduledRefresh :=
  let now := monotonic_now clock in
  let normal_is_due := normal_due self <=? now in
  let popup_is_due := match popup_due self with Some d => d <=? now | None => false end in
  let refreshes := if normal_is_due || popup_is_due then [Periodic] else [] in
  let self' :=
    mk_scheduler (policy self)
      (if normal_is_due then saturating_instant_add now (normal_cadence (policy self))
       else normal_due self)
      (if popup_is_due then Some (saturating_instant_add now (popup_cadence (policy self)))
       else popup_due self)
      (pending_resets self) (last_fired_resets self) in
  foldl fire_reset (self', refreshes) (due_scopes self now).

(** ** Saturating addition *)
Lemma duration_from_nanos_id n : duration_from_nanos n = n.
Proof.
  unfold duration_from_nanos, duration_new. pose proof (Z.div_mod n NANOS_PER_SECOND) as E.
  unfold NANOS_PER_SECOND in *. lia.
Qed.

(** The search narrows on the greatest addend: [k] halvings empty an interval
    of fewer than [2 ^ k] candidates. *)
Lemma largest_addend_spec k base lower upper best :
  base ≤ INSTANT_MAX → 0 ≤ lower ≤ INSTANT_MAX - base + 1 → INSTANT_MAX - base ≤ upper →
  best = base + Z.max (lower - 1) 0 → upper - lower + 1 < 2 ^ Z.of_nat k →
  largest_addend (S k) base lower upper best = Some INSTANT_MAX.
Proof.
  intros Hbase. revert lower upper best.
  induction k as [|k IH]; intros lower upper best Hl Hu Hbest Hsize.
  - cbn [largest_addend]. change (2 ^ Z.of_nat 0) with 1 in Hsize.
    rewrite (proj2 (Z.leb_gt _ _)) by lia. cbn. f_equal. lia.
  - rewrite Nat2Z.inj_succ, Z.pow_succ_r in Hsize by lia.
    cbn [largest_addend]. destruct (Z.leb_spec lower upper) as [Hlu|Hlu]; cbn [negb];
      [|f_equal; lia].
    set (middle := lower + (upper - lower) / 2).
    assert (lower ≤ middle ≤ upper ∧ 2 * (middle - lower) ≤ upper - lower
      ∧ upper - lower < 2 * (middle - lower) + 2) as (? & ? & ?)
      by (subst middle; Z.to_euclidean_division_equations; lia).
    unfold instant_checked_add. rewrite duration_from_nanos_id.
    destruct (Z.leb_spec (base + middle) INSTANT_MAX).
    + change (largest_addend (S k) base (middle + 1) upper (base + middle) = Some INSTANT_MAX).
      apply IH; lia.
    + destruct (Z.eqb_spec middle 0); [lia|].
      change (largest_addend (S k) base lower (middle - 1) best = Some INSTANT_MAX).
      apply IH; lia.
Qed.

Lemma saturating_add_eq base duration :
  base ≤ INSTANT_MAX → 0 ≤ duration ≤ DURATION_MAX →
  saturating_instant_add base duration = Z.min (base + duration) INSTANT_MAX.
Proof.
  intros Hb Hd. unfold saturating_instant_add, instant_checked_add.
  destruct (Z.leb_spec (base + duration) INSTANT_MAX) as [|Hover]; [lia|].
  unfold SEARCH_FUEL. rewrite (largest_addend_spec 129) by (try lia;
    change (2 ^ Z.of_nat 129) with 680564733841876926926749214863536422912;
    unfold DURATION_MAX, u64_max, NANOS_PER_SECOND in Hd; lia).
  cbn. lia.
Qed.

(** C28. [saturating_instant_add] is saturating addition: for every instant and
    every duration the bisection ends, within its fuel, at the exact sum or,
    where that is out of range, at the greatest representable instant; and the
    durations it probes always fit the conversions it relies on. *)
Theorem saturating_instant_add_spec base duration :
  base ≤ INSTANT_MAX → 0 ≤ duration ≤ DURATION_MAX →
  saturating_instant_add base duration = Z.min (base + duration) INSTANT_MAX ∧
  (∀ n, 0 ≤ n ≤ duration → duration_from_nanos n = n ∧
     n / NANOS_PER_SECOND ≤ u64_max ∧ n mod NANOS_PER_SECOND ≤ u32_max).
Proof.
  intros Hb Hd. split; [by apply saturating_add_eq|]. intros n Hn.
  split; [apply duration_from_nanos_id|].
  unfold DURATION_MAX, u64_max, u32_max, NANOS_PER_SECOND in *.
  split; Z.to_euclidean_division_equations; lia.
Qed.
Lemma saturating_instant_add_spec_witness :
  saturating_instant_add (INSTANT_MAX - 7) (from_secs 3) = INSTANT_MAX ∧
  saturating_instant_add 7 (from_secs 3) = 3000000007.
Proof.
  split.
  - destruct (saturating_instant_add_spec (INSTANT_MAX - 7) (from_secs 3)) as [-> _];
      [lia|by vm_compute|reflexivity].
  - destruct (saturating_instant_add_spec 7 (from_secs 3)) as [-> _]; [done|by vm_compute|reflexivity].
Defined.

(** ** Policy *)
Definition policy_wf (p : SchedulePolicy) : Prop :=
  0 < popup_cadence p < normal_cadence p ∧ normal_cadence p ≤ DURATION_MAX.
Lemma policy_new_Ok n q p :
  policy_new n q = Ok p ↔ n ≠ 0 ∧ q ≠ 0 ∧ q < n ∧ p = mk_policy n q.
Proof.
  unfold policy_new, validate_cadence.
  destruct (Z.eqb_spec n 0); cbn; [naive_solver|]. destruct (Z.eqb_spec q 0); cbn; [naive_solver|].
  destruct (Z.leb_spec n q); split; naive_solver lia.
Qed.

(** ** Taking what is due *)
Definition due_resets (self : Scheduler) (now : Instant) : list (AccountScope * ResetDeadline) :=
  filter (λ kv, due kv.2 ≤ now) (sort_by_key fst (map_to_list (pending_resets self))).

Lemma elem_of_due_resets self now k r :
  (k, r) ∈ due_resets self now ↔ pending_resets self !! k = Some r ∧ due r ≤ now.
Proof.
  unfold due_resets. rewrite list_elem_of_filter, sort_by_key_perm, elem_of_map_to_list. naive_solver.
Qed.
Lemma due_resets_sorted self now : strictly_sorted fst (due_resets self now).
Proof.
  unfold due_resets.
  assert (strictly_sorted fst (sort_by_key fst (map_to_list (pending_resets self)))) as Hs
    by (apply sort_by_key_strict, NoDup_fst_map_to_list).
  induction Hs as [|kv l Hl IH Hkv]; [constructor|].
  rewrite filter_cons. case_decide; [|done]. constructor; [done|].
  rewrite Forall_forall in *. intros y [_ Hy]%list_elem_of_filter. by apply Hkv.
Qed.

(** What the removal loop does to the two maps, for any list of due scopes. *)
Lemma fire_resets_spec l s out :
  NoDup l.*1 → (∀ k r, (k, r) ∈ l → pending_resets s !! k = Some r) →
  ∃ s', foldl fire_reset (s, out) l.*1
    = (s', out ++ ((λ kv, ResetBoundary kv.1 (boundary kv.2)) <$> l)) ∧
  policy s' = policy s ∧ normal_due s' = normal_due s ∧ popup_due s' = popup_due s ∧
  ∀ k, (∀ r, (k, r) ∈ l →
          pending_resets s' !! k = None ∧ last_fired_resets s' !! k = Some (boundary r)) ∧
       (k ∉ l.*1 → pending_resets s' !! k = pending_resets s !! k ∧
          last_fired_resets s' !! k = last_fired_resets s !! k).
Proof.
  revert s out. induction l as [|[k r] l IH]; intros s out Hnd Hin.
  - exists s. cbn. rewrite app_nil_r. split_and!; [done..|].
    intros k. split; [set_solver|done].
  - cbn [fmap list_fmap fst] in Hnd. apply NoDup_cons in Hnd as [Hk Hnd].
    cbn. rewrite (Hin k r) by left. cbn.
    edestruct (IH (mk_scheduler (policy s) (normal_due s) (popup_due s)
        (delete k (pending_resets s)) (<[k := boundary r]> (last_fired_resets s)))
        (out ++ [ResetBoundary k (boundary r)])) as (s' & -> & ? & ? & ? & H); [done| |].
    { intros k' r' Hin'. cbn. rewrite lookup_delete_ne; [apply Hin; by right|].
      intros ->. destruct Hk. apply list_elem_of_fmap. by exists (k', r'). }
    exists s'. rewrite <-app_assoc. split_and!; [done..|]. intros k'.
    destruct (H k') as [Hf Hkeep]. cbn in Hkeep. split.
    + intros r' [[= -> ->]|Hin']%elem_of_cons; [|by apply Hf].
      destruct (Hkeep Hk) as [-> ->]. by rewrite lookup_delete_eq, lookup_insert_eq.
    + intros [Hne Hk']%not_elem_of_cons. destruct (Hkeep Hk') as [-> ->].
      by rewrite lookup_delete_ne, lookup_insert_ne.
Qed.

Lemma strictly_sorted_fmap {A B} (g : A → B) (l : list (AccountScope * A)) :
  strictly_sorted fst l → strictly_sorted fst ((λ kv, (kv.1, g kv.2)) <$> l).
Proof.
  unfold strictly_sorted. induction 1 as [|kv l Hl IH Hkv]; cbn; constructor; [done|].
  rewrite Forall_fmap. done.
Qed.
Lemma not_due_reset self now k :
  (∃ r, pending_resets self !! k = Some r ∧ due r ≤ now ∧ (k, r) ∈ due_resets self now) ∨
  (∀ r, pending_resets self !! k = Some r → now < due r) ∧ k ∉ (due_resets self now).*1.
Proof.
  destruct (pending_resets self !! k) as [r|] eqn:E.
  - destruct (Z.le_gt_cases (due r) now).
    + left. exists r. by rewrite elem_of_due_resets.
    + right. split; [by intros ? [= <-]|].
      intros ([k' r'] & -> & [? ?]%elem_of_due_resets)%list_elem_of_fmap. naive_solver lia.
  - right. split; [done|].
    intros ([k' r'] & -> & [? ?]%elem_of_due_resets)%list_elem_of_fmap. naive_solver.
Qed.

Definition normal_is_due (self : Scheduler) (now : Instant) : bool :=
  bool_decide (normal_due self ≤ now).
Definition popup_is_due (self : Scheduler) (now : Instant) : bool :=
  from_option (λ d, bool_decide (d ≤ now)) false (popup_due self).

Lemma leb_bool_decide (x y : Z) : (x <=? y) = bool_decide (x ≤ y).
Proof. case_bool_decide; [by apply Z.leb_le|by apply Z.leb_gt; lia]. Qed.

(** [take_due] through [due_resets]. *)
Lemma take_due_run self clock :
  let now := monotonic_now clock in
  ∃ s',
    take_due self clock
      = (s', (if normal_is_due self now || popup_is_due self now then [Periodic] else [])
               ++ ((λ kv, ResetBoundary kv.1 (boundary kv.2)) <$> due_resets self now)) ∧
    policy s' = policy self ∧
    normal_due s' =
      (if normal_is_due self now
       then saturating_instant_add now (normal_cadence (policy self)) else normal_due self) ∧
    popup_due s' =
      (if popup_is_due self now
       then Some (saturating_instant_add now (popup_cadence (policy self)))
       else popup_due self) ∧
    (∀ k, pending_resets s' !! k = r ← pending_resets self !! k; guard (now < due r);; Some r) ∧
    (∀ k, last_fired_resets s' !! k =
       match pending_resets self !! k with
       | Some r => if bool_decide (due r ≤ now) then Some (boundary r)
                   else last_fired_resets self !! k
       | None => last_fired_resets self !! k
       end).
Proof.
  intros now. unfold take_due, normal_is_due. fold now. rewrite leb_bool_decide.
  replace (match popup_due self with Some d => d <=? now | None => false end)
    with (popup_is_due self now)
    by (unfold popup_is_due; destruct (popup_due self); cbn; by rewrite ?leb_bool_decide).
  match goal with |- context [foldl fire_reset (?s, ?out) _] =>
    destruct (fire_resets_spec (due_resets self now) s out) as (s' & E & Hpol & Hn & Hp & Hk) end;
    [apply strictly_sorted_NoDup, due_resets_sorted|by intros k r [? _]%elem_of_due_resets|].
  exists s'. split; [exact E|]. split_and!; [exact Hpol|exact Hn|exact Hp|..]; intros k;
    destruct (not_due_reset self now k) as [(r & Hr & Hd & Hin)|[Hno Hin]];
    ((destruct (proj1 (Hk k) r Hin) as [Ep El]; rewrite Hr)
     || (destruct (proj2 (Hk k) Hin) as [Ep El])).
  - rewrite Ep. cbn. by rewrite option_guard_False by lia.
  - rewrite Ep. cbn. destruct (pending_resets self !! k) as [r|]; [|done]. cbn.
    by rewrite (option_guard_True (now < due r)) by (specialize (Hno r eq_refl); lia).
  - rewrite El. by rewrite bool_decide_eq_true_2.
  - rewrite El. cbn. destruct (pending_resets self !! k) as [r|]; [|done].
    by rewrite bool_decide_eq_false_2 by (specialize (Hno r eq_refl); lia).
Qed.

(** C27. [take_due] is exactly the trigger contract.  Whatever the missed
    intervals, at most one periodic trigger comes out, first, when a cadence is
    due, and each due cadence is re-anchored at now; the resets that come out
    are those of the pending boundaries whose deadline has passed, one per
    account, in account order; they are no longer pending and are recorded as
    fired, and every other account's reset state is untouched. *)
Theorem take_due_spec self clock :
  let now := monotonic_now clock in
  let normal := bool_decide (normal_due self ≤ now) in
  let popup := from_option (λ d, bool_decide (d ≤ now)) false (popup_due self) in
  ∃ s' fired,
    take_due self clock
      = (s', (if normal || popup then [Periodic] else [])
               ++ ((λ kb, ResetBoundary kb.1 kb.2) <$> fired)) ∧
    strictly_sorted fst fired ∧
    (∀ k b, (k, b) ∈ fired ↔
       ∃ r, pending_resets self !! k = Some r ∧ boundary r = b ∧ due r ≤ now) ∧
    policy s' = policy self ∧
    normal_due s' = (if normal then saturating_instant_add now (normal_cadence (policy self))
                     else normal_due self) ∧
    popup_due s' = (if popup then Some (saturating_instant_add now (popup_cadence (policy self)))
                    else popup_due self) ∧
    (∀ k, pending_resets s' !! k = r ← pending_resets self !! k;
                                    guard (now < due r);; Some r) ∧
    (∀ k, last_fired_resets s' !! k =
       match pending_resets self !! k with
       | Some r => if bool_decide (due r ≤ now) then Some (boundary r)
                   else last_fired_resets self !! k
       | None => last_fired_resets self !! k
       end).
Proof.
  intros now normal popup. destruct (take_due_run self clock) as (s' & E & H).
  exists s', ((λ kv, (kv.1, boundary kv.2)) <$> due_resets self now).
  split; [etrans; [exact E|]; by rewrite <-list_fmap_compose|].
  split; [apply strictly_sorted_fmap, due_resets_sorted|]. split; [|exact H].
  intros k b. rewrite list_elem_of_fmap. split.
  - intros ([k' r] & [= -> ->] & [??]%elem_of_due_resets); eauto.
  - intros (r & ? & <- & ?). exists (k, r). by rewrite elem_of_due_resets.
Qed.

(** ** Deadlines *)
Lemma foldl_min_le (l : list Z) p x : foldl Z.min p l ≤ x ↔ p ≤ x ∨ ∃ y, y ∈ l ∧ y ≤ x.
Proof.
  revert p. induction l as [|y l IH]; intros p; cbn.
  - set_solver.
  - rewrite IH. setoid_rewrite elem_of_cons. rewrite Z.min_le_iff. naive_solver.
Qed.
Definition anything_due (self : Scheduler) (now : Instant) : Prop :=
  normal_due self ≤ now ∨ (∃ d, popup_due self = Some d ∧ d ≤ now) ∨
  ∃ k r, pending_resets self !! k = Some r ∧ due r ≤ now.

Lemma next_deadline_le self now :
  ∃ d, next_deadline self = Some d ∧ (d ≤ now ↔ anything_due self now).
Proof.
  eexists; split; [done|]. rewrite foldl_min_le. unfold anything_due.
  setoid_rewrite list_elem_of_fmap. setoid_rewrite list_elem_of_fmap.
  assert ((∃ y : Z, (∃ r, y = due r ∧ ∃ kv, r = kv.2 ∧ kv ∈ map_to_list (pending_resets self))
             ∧ y ≤ now) ↔ ∃ k r, pending_resets self !! k = Some r ∧ due r ≤ now) as ->.
  { split.
    - intros (y & (r & -> & [k r'] & -> & Hin) & Hy). exists k, r'.
      by rewrite elem_of_map_to_list in Hin.
    - intros (k & r & Hin & Hd). exists (due r). split; [|done]. exists r. split; [done|].
      exists (k, r). by rewrite elem_of_map_to_list. }
  destruct (popup_due self) as [p|]; rewrite ?Z.min_le_iff; naive_solver.
Qed.
Lemma nothing_due_resets self now :
  due_resets self now = [] ↔ ∀ k r, pending_resets self !! k = Some r → now < due r.
Proof.
  split.
  - intros E k r Hk. destruct (Z.le_gt_cases (due r) now); [|lia].
    assert ((k, r) ∈ due_resets self now) as Hin by by apply elem_of_due_resets.
    rewrite E in Hin. set_solver.
  - intros H. destruct (due_resets self now) as [|[k r] l] eqn:E; [done|].
    assert ((k, r) ∈ due_resets self now) as [? ?]%elem_of_due_resets by (rewrite E; left).
    specialize (H k r). naive_solver lia.
Qed.
Lemma take_due_nothing self clock :
  ¬ anything_due self (monotonic_now clock) → take_due self clock = (self, []).
Proof.
  unfold anything_due. intros Hno. unfold take_due.
  rewrite leb_bool_decide, bool_decide_eq_false_2 by tauto.
  replace (match popup_due self with Some d => d <=? monotonic_now clock | None => false end)
    with false
    by (destruct (popup_due self) as [d|]; [|done]; symmetry; apply Z.leb_gt, Z.nle_gt; naive_solver).
  change (due_scopes self (monotonic_now clock)) with (due_resets self (monotonic_now clock)).*1.
  rewrite (proj2 (nothing_due_resets _ _)) by (intros k r ?; apply Z.nle_gt; naive_solver).
  by destruct self.
Qed.
Lemma take_due_none_iff self clock :
  (take_due self clock).2 = [] ↔ ¬ anything_due self (monotonic_now clock).
Proof.
  split; [|by intros ->%take_due_nothing].
  destruct (take_due_run self clock) as (s' & -> & _). cbn.
  intros [Hp Hr%fmap_nil_inv]%app_nil. rewrite nothing_due_resets in Hr.
  unfold normal_is_due, popup_is_due in Hp.
  intros [Hn|[(d & Hd & ?)|(k & r & Hk & ?)]].
  - by rewrite bool_decide_eq_true_2 in Hp.
  - rewrite Hd in Hp. cbn in Hp. rewrite (bool_decide_eq_true_2 (d ≤ _)), orb_true_r in Hp by done.
    done.
  - specialize (Hr k r Hk). lia.
Qed.

(** After a sweep every deadline is ahead of the clock. *)
Lemma take_due_ahead self clock :
  let now := monotonic_now clock in
  policy_wf (policy self) → now < INSTANT_MAX → ¬ anything_due (take_due self clock).1 now.
Proof.
  intros now [[? ?] ?] Hnow. destruct (take_due_run self clock) as (s' & -> & _ & Hn & Hp & Hr & _).
  cbn. fold now in Hn, Hp, Hr. unfold normal_is_due, popup_is_due in Hn, Hp.
  assert (∀ c, 0 < c ≤ DURATION_MAX → now < saturating_instant_add now c) as Hahead
    by (intros c ?; rewrite saturating_add_eq by lia; lia).
  intros [Hd|[(d & Hd & ?)|(k & r & Hk & ?)]].
  - rewrite Hn in Hd. case_bool_decide; [|done].
    specialize (Hahead (normal_cadence (policy self))). lia.
  - rewrite Hp in Hd. destruct (popup_due self) as [p|]; cbn in Hd; [|done].
    case_bool_decide; simplify_eq; [|done].
    specialize (Hahead (popup_cadence (policy self))). lia.
  - rewrite Hr in Hk. destruct (pending_resets self !! k) as [r'|]; cbn in Hk; [|done].
    case_guard; simplify_eq. cbn in Hk. simplify_eq. lia.
Qed.

(** Sleeping until [next_deadline] is exact.  There always is a deadline; a
    sweep at an instant yields triggers if and only if the deadline has passed,
    so waking earlier does nothing and nothing due is slept through; and the
    sweep moves the deadline past now, so a second sweep at the same instant
    changes nothing and yields nothing: the loop cannot spin. *)
Theorem next_deadline_exact self clock :
  policy_wf (policy self) → monotonic_now clock < INSTANT_MAX →
  ∃ d d', next_deadline self = Some d ∧
    ((take_due self clock).2 ≠ [] ↔ d ≤ monotonic_now clock) ∧
    let self' := (take_due self clock).1 in
    next_deadline self' = Some d' ∧ monotonic_now clock < d' ∧
    take_due self' clock = (self', []).
Proof.
  intros Hwf Hnow. pose proof (take_due_ahead self clock Hwf Hnow) as Hno.
  destruct (next_deadline_le self (monotonic_now clock)) as (d & Hd & Hdue).
  destruct (next_deadline_le (take_due self clock).1 (monotonic_now clock)) as (d' & Hd' & Hdue').
  exists d, d'. split; [done|]. split; [|split; [done|split; [|by apply take_due_nothing]]].
  - rewrite take_due_none_iff, Hdue. split; [|by auto].
    intros H. destruct (decide (d ≤ monotonic_now clock)); [by apply Hdue|tauto].
  - apply Z.nle_gt. by rewrite Hdue'.
Qed.
Definition scheduler_example : Scheduler :=
  new policy_default (observe (Timestamp.mk 0) 1000).
Lemma next_deadline_exact_witness :
  take_due scheduler_example (observe (Timestamp.mk 0) 1000)
    = (scheduler_example, []) ∧
  (take_due scheduler_example (observe (Timestamp.mk 0) (from_secs 301))).2 = [Periodic] ∧
  ∃ d, next_deadline scheduler_example = Some d ∧ d ≤ from_secs 301.
Proof.
  split; [by vm_compute|]. split; [by vm_compute|].
  destruct (next_deadline_exact scheduler_example (observe (Timestamp.mk 0) (from_secs 301)))
    as (d & d' & Hd & Hiff & _); [split; [split|]; by vm_compute|by vm_compute|].
  exists d. split; [exact Hd|]. apply Hiff. by vm_compute.
Defined.

(** ** Reset deadlines *)
Section reset_facts.
Context `{TimeCrate}.

(** Where a reset boundary lands on the monotonic clock.  The boundary is
    refused exactly when the instant 30 seconds after it is not a canonical
    civil time; otherwise the deadline is that far ahead of now as the instant
    is ahead of the wall clock, but never less than 5 seconds ahead even for a
    boundary long past, and saturates at the greatest instant. *)
Theorem project_reset_deadline_spec (b : Timestamp) (clock : Clock) :
  let refresh_at := Timestamp.nanos b + from_secs 30 in
  monotonic_now clock ≤ INSTANT_MAX → odt_min ≤ Timestamp.nanos (wall_now clock) →
  odt_max - odt_min ≤ DURATION_MAX →
  project_reset_deadline b clock =
    if bool_decide (odt_min ≤ refresh_at ≤ odt_max ∧ is_Some (rfc3339_format refresh_at))
    then Ok (Z.min (monotonic_now clock
                    + Z.max (from_secs 5) (refresh_at - Timestamp.nanos (wall_now clock)))
               INSTANT_MAX)
    else Err WallDeltaOutOfRange.
Proof.
  intros refresh_at Hm Hw Hrange. unfold project_reset_deadline, reset_refresh_at.
  change (Timestamp.nanos b + RESET_BOUNDARY_GRACE_SECS * NANOS_PER_SECOND) with
    (Timestamp.nanos b + 30000000000).
  change refresh_at with (Timestamp.nanos b + 30000000000) in *. clear refresh_at.
  set (refresh_at := Timestamp.nanos b + 30000000000) in *.
  destruct (Z.leb_spec odt_min refresh_at); cbn [andb];
    [|by rewrite bool_decide_eq_false_2 by lia].
  destruct (Z.leb_spec refresh_at odt_max); [|by rewrite bool_decide_eq_false_2 by lia].
  unfold Timestamp.new. destruct (rfc3339_format refresh_at) as [s|] eqn:Hs; cbn [result_ok ok_or];
    [|by rewrite bool_decide_eq_false_2 by (intros [? [? [=]]])].
  rewrite bool_decide_eq_true_2 by eauto.
  cbn [mbind Result_bind]. unfold project_wall_deadline, Timestamp.leb. cbn [Timestamp.nanos].
  rewrite (saturating_add_eq _ RESET_BOUNDARY_MINIMUM_DELAY); [|exact Hm|by vm_compute].
  change RESET_BOUNDARY_MINIMUM_DELAY with 5000000000. change (from_secs 5) with 5000000000.
  destruct (Z.leb_spec refresh_at (Timestamp.nanos (wall_now clock))).
  - cbn [mbind Result_bind]. f_equal. lia.
  - unfold duration_try_from. cbn [mbind Result_bind].
    rewrite (proj2 (Z.ltb_ge _ _)) by lia. cbn [ok_or mbind Result_bind].
    rewrite saturating_add_eq by lia. f_equal. lia.
Qed.
End reset_facts.
Lemma project_reset_deadline_spec_witness :
  @project_reset_deadline Reference.time (Timestamp.mk (from_secs 100))
    (observe (Timestamp.mk (from_secs 90)) 7) = Ok (from_secs 40 + 7) ∧
  @project_reset_deadline Reference.time (Timestamp.mk 0)
    (observe (Timestamp.mk (from_secs 90)) 7) = Ok (from_secs 5 + 7).
Proof.
  split.
  - etrans; [apply (@project_reset_deadline_spec Reference.time (Timestamp.mk (from_secs 100))
      (observe (Timestamp.mk (from_secs 90)) 7)); by vm_compute|by vm_compute].
  - etrans; [apply (@project_reset_deadline_spec Reference.time (Timestamp.mk 0)
      (observe (Timestamp.mk (from_secs 90)) 7)); by vm_compute|by vm_compute].
Defined.

(** ** Whole runs *)
Section runs.
Context `{TimeCrate}.

Inductive scheduler_call :=
| SetPopupOpen (open : bool) (clock : Clock)
| ScheduleReset (scope : AccountScope) (boundary : Timestamp) (clock : Clock)
| Reconcile (scope : AccountScope) (boundaries : list Timestamp) (fetched_at : Timestamp)
    (clock : Clock)
| TakeDue (clock : Clock).
(** One call, with the triggers it hands out. *)
Definition call (self : Scheduler) (c : scheduler_call) : Scheduler * list ScheduledRefresh :=
  match c with
  | SetPopupOpen open clock => ((set_popup_open self open clock).1, [])
  | ScheduleReset k b clock => ((schedule_reset self k b clock).1, [])
  | Reconcile k bs t clock => ((reconcile_reset_boundaries self k bs t clock).1, [])
  | TakeDue clock => take_due self clock
  end.
Fixpoint calls (self : Scheduler) (cs : list scheduler_call) : Scheduler * list ScheduledRefresh :=
  match cs with
  | [] => (self, [])
  | c :: cs => let '(self', out) := call self c in
               let '(self'', outs) := calls self' cs in (self'', out ++ outs)
  end.

(** The boundaries of one account among the triggers, in order. *)
Definition fired_for (k : AccountScope) (out : list ScheduledRefresh) : list Timestamp :=
  omap (λ r, match r with
             | ResetBoundary k' b => if bool_decide (k' = k) then Some b else None
             | Periodic => None
             end) out.
#[global] Arguments fired_for : simpl never.
Lemma fired_for_reset k k' b out :
  fired_for k (ResetBoundary k' b :: out)
    = if bool_decide (k' = k) then b :: fired_for k out else fired_for k out.
Proof. unfold fired_for. cbn. by case_bool_decide. Qed.
Lemma fired_for_app k out out' : fired_for k (out ++ out') = fired_for k out ++ fired_for k out'.
Proof. apply omap_app. Qed.

(** What is pending is later than what has fired. *)
Definition pending_after_fired (self : Scheduler) : Prop :=
  ∀ k r b, pending_resets self !! k = Some r → last_fired_resets self !! k = Some b →
    Timestamp.nanos b < Timestamp.nanos (boundary r).

Lemma already_fired_false self k b :
  already_fired self k b = false →
  ∀ last, last_fired_resets self !! k = Some last → Timestamp.nanos last < Timestamp.nanos b.
Proof. unfold already_fired. intros H0 l Hl. rewrite Hl in H0. by apply Z.leb_gt in H0. Qed.
Lemma arm_keeps self k b clock :
  already_fired self k b = false → pending_after_fired self →
  pending_after_fired (arm self k b clock).1 ∧
  last_fired_resets (arm self k b clock).1 = last_fired_resets self.
Proof.
  intros Hb Hinv. unfold arm. destruct (project_reset_deadline b clock); [|done].
  split; [|done]. intros k' r b' Hk Hl. cbn in Hk, Hl. destruct (decide (k' = k)) as [->|].
  - rewrite lookup_insert_eq in Hk. simplify_eq. by apply (already_fired_false self k).
  - rewrite lookup_insert_ne in Hk by done. eauto.
Qed.

Lemma earliest_elem l b : earliest l = Some b → b ∈ l.
Proof.
  unfold earliest.
  assert (∀ o, foldl (λ acc b, match acc with None => Some b | Some a => Some (Timestamp.min a b) end)
             o l = Some b → o = Some b ∨ b ∈ l) as Hgen; [|by intros [?|?]%Hgen].
  induction l as [|c l IH]; intros o; cbn; [by left|].
  intros [E|Hin]%IH; [|right; by right]. destruct o as [a|]; simplify_eq; [|right; left].
  unfold Timestamp.min. destruct (Timestamp.leb a c); [by left|right; left].
Qed.

(** Every call but a sweep leaves the record of what fired alone. *)
Lemma call_keeps self c :
  pending_after_fired self → pending_after_fired (call self c).1.
Proof.
  intros Hinv. destruct c as [open clock|k b clock|k bs t clock|clock]; cbn.
  - intros k r b Hk Hl. by apply (Hinv k r b).
  - unfold schedule_reset. destruct (already_fired self k b) eqn:?; [done|].
    destruct (already_pending self k b); [done|]. by apply arm_keeps.
  - unfold reconcile_reset_boundaries.
    destruct (earliest _) as [b|] eqn:E.
    + apply earliest_elem in E as [_ [Hb _]%list_elem_of_filter]%list_elem_of_filter.
      destruct (already_pending self k b); [done|]. by apply arm_keeps.
    + intros k' r b Hk Hl. cbn in Hk, Hl. apply lookup_delete_Some in Hk as [_ Hk]. by apply (Hinv k' r b).
  - destruct (take_due_run self clock) as (s' & -> & _ & _ & _ & Hp & Hl). cbn.
    intros k r b Hk Hb. rewrite Hp in Hk. rewrite Hl in Hb.
    destruct (pending_resets self !! k) as [r'|] eqn:E; cbn in Hk; [|done].
    case_guard; cbn in Hk; simplify_eq. case_bool_decide; [lia|]. by apply (Hinv k r b).
Qed.

Lemma fired_for_resets k l :
  NoDup l.*1 →
  let out := (λ kv : AccountScope * ResetDeadline, ResetBoundary kv.1 (boundary kv.2)) <$> l in
  (∀ r, (k, r) ∈ l → fired_for k out = [boundary r]) ∧ (k ∉ l.*1 → fired_for k out = []).
Proof.
  induction l as [|[k' r'] l IH]; cbn; [set_solver|].
  intros [Hk' Hnd]%NoDup_cons. destruct (IH Hnd) as [IHin IHout].
  rewrite fired_for_reset. split.
  - intros r [[= -> ->]|Hin]%elem_of_cons.
    + rewrite bool_decide_eq_true_2 by done. f_equal. by apply IHout.
    + rewrite bool_decide_eq_false_2; [by apply IHin|]. intros ->.
      destruct Hk'. apply list_elem_of_fmap. by exists (k, r).
  - intros [Hne Hk]%not_elem_of_cons. rewrite bool_decide_eq_false_2 by done. by apply IHout.
Qed.

(** One call fires at most one boundary of an account, a later one than the
    last, and records it. *)
Lemma call_fired self c k :
  pending_after_fired self →
  fired_for k (call self c).2 = [] ∧
    last_fired_resets (call self c).1 !! k = last_fired_resets self !! k ∨
  ∃ b, fired_for k (call self c).2 = [b] ∧ last_fired_resets (call self c).1 !! k = Some b ∧
    ∀ b0, last_fired_resets self !! k = Some b0 → Timestamp.nanos b0 < Timestamp.nanos b.
Proof.
  intros Hinv. destruct c as [open clock|k' b clock|k' bs t clock|clock]; cbn.
  - by left.
  - left. split; [done|]. unfold schedule_reset, arm. by repeat case_match.
  - left. split; [done|]. unfold reconcile_reset_boundaries, arm. by repeat case_match.
  - destruct (take_due_run self clock) as (s' & -> & _ & _ & _ & _ & Hl). cbn.
    rewrite fired_for_app, Hl.
    assert (∀ c : bool, fired_for k (if c then [Periodic] else []) = []) as -> by by intros [].
    destruct (fired_for_resets k (due_resets self (monotonic_now clock))) as [Hin Hout];
      [apply strictly_sorted_NoDup, due_resets_sorted|].
    destruct (not_due_reset self (monotonic_now clock) k) as [(r & Hr & Hd & Hmem)|[Hno Hmem]].
    + right. exists (boundary r). rewrite (Hin r Hmem), Hr, bool_decide_eq_true_2 by done.
      split_and!; [done..|]. intros b0 Hb0. by apply (Hinv k r b0).
    + left. rewrite Hout by done. split; [done|].
      destruct (pending_resets self !! k) as [r|]; [|done].
      by rewrite bool_decide_eq_false_2 by (specialize (Hno r eq_refl); lia).
Qed.

Definition earlier (a b : Timestamp) : Prop := Timestamp.nanos a < Timestamp.nanos b.
Lemma calls_fired self cs k :
  pending_after_fired self →
  let run := calls self cs in
  Sorted.StronglySorted earlier (fired_for k run.2) ∧
  (∀ b0, last_fired_resets self !! k = Some b0 → Forall (earlier b0) (fired_for k run.2)) ∧
  (∀ b, last_fired_resets self !! k = Some b ∨ b ∈ fired_for k run.2 →
     ∃ last, last_fired_resets run.1 !! k = Some last ∧ Timestamp.nanos b ≤ Timestamp.nanos last) ∧
  pending_after_fired run.1.
Proof.
  revert self. induction cs as [|c cs IH]; intros self Hinv; cbn.
  { split_and!; [constructor|by constructor| |done]. intros b [?|?]; [by exists b|set_solver]. }
  pose proof (call_keeps self c Hinv) as Hinv'. pose proof (call_fired self c k Hinv) as Hfired.
  destruct (call self c) as [self' out]. cbn in Hinv', Hfired.
  destruct (IH self' Hinv') as (Hs & Hafter & Hlast & Hend).
  destruct (calls self' cs) as [self'' outs].
  cbn in Hs, Hafter, Hlast, Hend |- *. rewrite fired_for_app.
  destruct Hfired as [[-> El]|(b & -> & El & Hb)]; [by rewrite El in Hafter, Hlast|].
  split_and!; [constructor; [done|by apply Hafter]| | |done].
  - intros b0 Hb0. constructor; [by apply Hb|]. eapply Forall_impl; [by apply Hafter|].
    intros b' Hb'. specialize (Hb b0 Hb0). unfold earlier in *. lia.
  - intros b' [Hb'|[->|Hin]%elem_of_cons]; [|apply Hlast; by left|apply Hlast; by right].
    destruct (Hlast b) as (last & ? & ?); [by left|]. exists last. specialize (Hb b' Hb').
    split; [done|lia].
Qed.

(** Over any sequence of popup changes, scheduled and reconciled boundaries
    and sweeps, with any clock readings, the boundaries fired for an account
    are strictly increasing: no boundary fires twice, an earlier one never
    fires after a later one, and what is still pending is later than all that
    has fired. *)
Theorem boundaries_fire_once (p : SchedulePolicy) (clock : Clock) (cs : list scheduler_call) k :
  let run := calls (new p clock) cs in
  Sorted.StronglySorted earlier (fired_for k run.2) ∧
  ∀ r, pending_resets run.1 !! k = Some r → Forall (λ b, earlier b (boundary r)) (fired_for k run.2).
Proof.
  intros run. destruct (calls_fired (new p clock) cs k) as (Hs & _ & Hlast & Hend);
    [by intros k0 r b E; cbn in E; rewrite lookup_empty in E|].
  split; [exact Hs|]. intros r Hr. apply Forall_forall. intros b Hb.
  destruct (Hlast b) as (last & Hl & Hle); [by right|].
  specialize (Hend k r last Hr Hl). unfold earlier. lia.
Qed.
End runs.

