(* ===== verification/RuntimePolicy.v ===== *)
(** * Runtime limits and automatic-refresh policy  (crates/runtime/src/actor.rs,
    the free functions and configuration types at its top)

    How long automatic refreshes of an account are held back after a failure,
    which accounts a popup refreshes, and the validated capacities. *)
From stdpp Require Import gmap countable prelude.
From S2P Require Import Prelude Ordering Text Percentage Externals Scope Errors RateWindow Snapshot.
From S2P Require Import Scheduler.
Local Open Scope Z_scope.

(** An operation that can fail with [E] or panic. *)
Inductive Failure (E : Type) := Failed (e : E) | Panicked.
Arguments Failed {E} e.
Arguments Panicked {E}.

(** [Instant + Duration] panics out of range. *)
Definition instant_add {E} (base : Instant) (duration : Duration) : Result (Failure E) Instant :=
  ok_or (instant_checked_add base duration) Panicked.
(** [Duration::saturating_mul] and [saturating_sub]. *)
Definition duration_saturating_mul (d : Duration) (n : Z) : Duration := saturating_mul DURATION_MAX d n.
Definition duration_saturating_sub (d e : Duration) : Duration := saturating_sub d e.
Definition from_mins (minutes : Z) : Duration := from_secs (minutes * 60).

Definition automatic_minimum_interval (provider : ProviderId) : Duration :=
  match provider with
  | ProviderId.Codex => from_mins 1
  | ProviderId.Grok => from_mins 5
  | _ => from_mins 2
  end.

Definition automatic_backoff_delay (error : ClassifiedError) (failures : Z) : option Duration :=
  base ← match ClassifiedError.kind error with
         | RateLimited => Some (from_mins 5)
         | ProviderUnavailable | Network | Api => Some (from_secs 60)
         | MissingCredential | AuthenticationExpired | PermissionDenied | Parse => None
         end;
  let multiplier := Z.shiftl 1 (Z.min (saturating_sub failures 1) 5) in
  let exponential := Z.min (duration_saturating_mul base multiplier) (from_mins 60) in
  let requested := (λ delay, from_secs (WindowDuration.seconds delay))
                     <$> ClassifiedError.retry_after error in
  Some (match requested with Some value => Z.max value exponential | None => exponential end).

Section policy.
Context `{DecimalCrate}.

(** The wall time since a snapshot went stale. *)
Definition stale_elapsed (since wall_now : Timestamp) (delay : Duration) : Duration :=
  if Timestamp.leb wall_now since then 0
  else default delay (duration_try_from (Timestamp.nanos wall_now - Timestamp.nanos since)).

(** The loop body: the hold one retained snapshot still justifies. *)
Definition retained_hold (snapshot : ProviderSnapshot) (wall_now : Timestamp) : option Duration :=
  match ProviderSnapshot.error snapshot, ProviderSnapshot.freshness snapshot with
  | Some error, Some (Stale since) =>
      delay ← automatic_backoff_delay error 1;
      let remaining := duration_saturating_sub delay (stale_elapsed since wall_now delay) in
      if remaining =? 0 then None else Some remaining
  | _, _ => None
  end.

Fixpoint retained_automatic_backoff {E} (retained : list ProviderSnapshot) (wall_now : Timestamp)
    (monotonic_now : Instant) (cooldowns : gmap AccountScope Instant)
    (failures : gmap AccountScope Z) :
    Result (Failure E) (gmap AccountScope Instant * gmap AccountScope Z) :=
  match retained with
  | [] => Ok (cooldowns, failures)
  | snapshot :: retained =>
      match retained_hold snapshot wall_now with
      | None => retained_automatic_backoff retained wall_now monotonic_now cooldowns failures
      | Some remaining =>
          until ← instant_add monotonic_now remaining;
          let scope := ProviderSnapshot.scope snapshot in
          let until := match cooldowns !! scope with
                       | Some current => Z.max current until
                       | None => until
                       end in
          retained_automatic_backoff retained wall_now monotonic_now
            (<[scope := until]> cooldowns) (<[scope := 1]> failures)
      end
  end.

Definition needs_menu_open_refresh (snapshot : ProviderSnapshot) : bool :=
  match ProviderSnapshot.error snapshot with
  | Some error => bool_decide (ClassifiedError.retry error = Automatic)
  | None =>
      negb (bool_decide (is_Some (ProviderSnapshot.last_known_good snapshot)))
      || negb (bool_decide (ProviderSnapshot.freshness snapshot = Some Fresh))
  end.

Definition usage_reset_boundaries (sample : UsageSample) : list Timestamp :=
  omap RateWindow.resets_at
    (option_list (UsageSample.primary sample) ++ option_list (UsageSample.secondary sample)
     ++ option_list (UsageSample.tertiary sample)
     ++ (NamedRateWindow.window <$> UsageSample.extra_windows sample)).
End policy.

(** ** Limits *)
Inductive RuntimeConfigError :=
| ZeroLimit (name : str)
| ZeroShutdownGrace
| ShutdownGraceTooLong (maximum : Duration).

Definition nonzero (name : str) (value : Z) : Result RuntimeConfigError Z :=
  if value =? 0 then Err (ZeroLimit name) else Ok value.

Record RuntimeLimits := mk_limits {
  command_capacity : Z;
  pending_capacity : Z;
  event_capacity : Z;
  max_in_flight : Z;
}.
Definition limits_new (command_capacity pending_capacity event_capacity max_in_flight : Z) :
    Result RuntimeConfigError RuntimeLimits :=
  command_capacity ← nonzero (lit "command_capacity") command_capacity;
  pending_capacity ← nonzero (lit "pending_capacity") pending_capacity;
  event_capacity ← nonzero (lit "event_capacity") event_capacity;
  max_in_flight ← nonzero (lit "max_in_flight") max_in_flight;
  Ok (mk_limits command_capacity pending_capacity event_capacity max_in_flight).
Definition DEFAULT_COMMAND_CAPACITY : Z := 32.
Definition DEFAULT_PENDING_CAPACITY : Z := 256.
Definition DEFAULT_EVENT_CAPACITY : Z := 64.
Definition DEFAULT_MAX_IN_FLIGHT : Z := 4.
Definition limits_default : RuntimeLimits :=
  mk_limits DEFAULT_COMMAND_CAPACITY DEFAULT_PENDING_CAPACITY DEFAULT_EVENT_CAPACITY
    DEFAULT_MAX_IN_FLIGHT.

Definition MAX_SHUTDOWN_GRACE : Duration := from_secs 30.
Definition DEFAULT_SHUTDOWN_GRACE : Duration := from_secs 2.
Record RuntimeConfig := mk_config {
  schedule : SchedulePolicy;
  limits : RuntimeLimits;
  shutdown_grace : Duration;
}.
Definition config_new (schedule : SchedulePolicy) (limits : RuntimeLimits)
    (shutdown_grace : Duration) : Result RuntimeConfigError RuntimeConfig :=
  if shutdown_grace =? 0 then Err ZeroShutdownGrace else
  if MAX_SHUTDOWN_GRACE <? shutdown_grace then Err (ShutdownGraceTooLong MAX_SHUTDOWN_GRACE) else
  Ok (mk_config schedule limits shutdown_grace).
Definition config_default : RuntimeConfig :=
  mk_config policy_default limits_default DEFAULT_SHUTDOWN_GRACE.

(** ** Backoff *)
Definition backoff_base (kind : ErrorKind) : Duration :=
  match kind with RateLimited => from_mins 5 | _ => from_mins 1 end.

Lemma doubling_multiplier n :
  0 ≤ n → Z.shiftl 1 (Z.min (saturating_sub n 1) 5) = 2 ^ Z.min (Z.max 0 (n - 1)) 5.
Proof. intros Hn. rewrite Z.shiftl_1_l. done. Qed.
(** [n] capped doublings of a base of one or five minutes stay in range. *)
Lemma doubled_base kind n :
  0 ≤ n ≤ 5 →
  duration_saturating_mul (backoff_base kind) (2 ^ n) = backoff_base kind * 2 ^ n ∧
  from_mins 1 ≤ Z.min (backoff_base kind * 2 ^ n) (from_mins 60).
Proof.
  intros Hn. assert (n = 0 ∨ n = 1 ∨ n = 2 ∨ n = 3 ∨ n = 4 ∨ n = 5) as Hcases by lia.
  destruct kind; destruct Hcases as [->|[->|[->|[->|[->| ->]]]]]; by split; vm_compute.
Qed.

(** How long an automatic refresh is held back after [n] failures in a row:
    only errors that retry automatically hold it back; the hold is one minute,
    five when rate-limited, doubled by each further failure up to an hour,
    never less than what the provider asked for, and grows with the failures
    but at most to twice the previous hold. *)
Theorem automatic_backoff_spec (e : ClassifiedError) (n : Z) :
  ClassifiedError.wf e → 1 ≤ n ≤ u8_max →
  match automatic_backoff_delay e n with
  | None => ClassifiedError.retry e ≠ Automatic
  | Some d =>
      ClassifiedError.retry e = Automatic ∧
      let exponential :=
        Z.min (backoff_base (ClassifiedError.kind e) * 2 ^ Z.min (n - 1) 5) (from_mins 60) in
      d = match ClassifiedError.retry_after e with
          | Some w => Z.max (from_secs (WindowDuration.seconds w)) exponential
          | None => exponential
          end ∧
      ∃ d', automatic_backoff_delay e (n + 1) = Some d' ∧ d ≤ d' ≤ 2 * d
  end.
Proof.
  intros [He _] Hn. assert (ClassifiedError.retry e
    = (ClassifiedError.semantics (ClassifiedError.kind e)).1) as Hretry.
  { rewrite He at 1. unfold ClassifiedError.from_kind. by destruct (ClassifiedError.kind e). }
  assert (∀ m, 1 ≤ m → automatic_backoff_delay e m =
    if bool_decide (ClassifiedError.retry e = Automatic) then
      let exponential :=
        Z.min (backoff_base (ClassifiedError.kind e) * 2 ^ Z.min (m - 1) 5) (from_mins 60) in
      Some match ClassifiedError.retry_after e with
           | Some w => Z.max (from_secs (WindowDuration.seconds w)) exponential
           | None => exponential end
    else None) as Hdelay.
  { intros m Hm. unfold automatic_backoff_delay. rewrite Hretry, doubling_multiplier by lia.
    rewrite (Z.max_r 0 (m - 1)) by lia.
    destruct (doubled_base (ClassifiedError.kind e) (Z.min (m - 1) 5)) as [Hmul _]; [lia|].
    destruct (ClassifiedError.kind e) eqn:Hk; cbn in Hmul |- *; try done;
      unfold backoff_base in Hmul; (change (from_secs 60) with (from_mins 1) || idtac);
      rewrite Hmul; by destruct (ClassifiedError.retry_after e). }
  rewrite !Hdelay by lia. case_bool_decide; [|done]. split; [done|]. cbv zeta.
  split; [done|]. eexists. split; [done|].
  destruct (doubled_base (ClassifiedError.kind e) (Z.min (n - 1) 5)) as [_ Hlow]; [lia|].
  assert (2 ^ Z.min (n - 1) 5 ≤ 2 ^ Z.min (n + 1 - 1) 5 ≤ 2 * 2 ^ Z.min (n - 1) 5) as [Hup Hdbl].
  { split; [apply Z.pow_le_mono_r; lia|]. rewrite <-Z.pow_succ_r by lia.
    apply Z.pow_le_mono_r; lia. }
  assert (0 < backoff_base (ClassifiedError.kind e)) as Hpos
    by by destruct (ClassifiedError.kind e).
  change (from_mins 1) with 60000000000 in *. change (from_mins 60) with 3600000000000 in *.
  set (p := 2 ^ Z.min (n - 1) 5) in *. set (q := 2 ^ Z.min (n + 1 - 1) 5) in *.
  assert (backoff_base (ClassifiedError.kind e) * p ≤ backoff_base (ClassifiedError.kind e) * q
    ≤ 2 * (backoff_base (ClassifiedError.kind e) * p)) by nia.
  destruct (ClassifiedError.retry_after e); lia.
Qed.
Lemma automatic_backoff_spec_witness :
  automatic_backoff_delay (ClassifiedError.new RateLimited) 3 = Some (from_mins 20) ∧
  ∃ d', automatic_backoff_delay (ClassifiedError.new RateLimited) 4 = Some d' ∧
    from_mins 20 ≤ d' ≤ 2 * from_mins 20.
Proof.
  assert (automatic_backoff_delay (ClassifiedError.new RateLimited) 3 = Some (from_mins 20)) as E
    by (vm_compute; reflexivity).
  split; [exact E|].
  pose proof (automatic_backoff_spec (ClassifiedError.new RateLimited) 3 (new_error_wf RateLimited))
    as Hspec. rewrite E in Hspec.
  destruct Hspec as (_ & _ & d' & Hd' & Hle); [by split; vm_compute|].
  exists d'. split; [exact Hd'|exact Hle].
Defined.
