(* ===== verification/Notifications.v ===== *)
(** * Desktop notifications  (crates/runtime/src/notifications.rs)

    Events are projected under the privacy policy before a sink sees them.  The
    sink is an argument; a failed [debug_assert!] is [None]. *)
From stdpp Require Import gmap prelude.
From S2P Require Import Prelude Ordering Text Percentage Externals Scope Errors RateWindow Money Status Credits CostUsage Detail Snapshot.
Local Open Scope Z_scope.

Definition MAX_IDENTITY_LABEL_BYTES : Z := 128.
Definition MAX_NOTIFICATION_SUMMARY_BYTES : Z := 128.
Definition MAX_NOTIFICATION_BODY_BYTES : Z := 512.

Inductive NotificationValidationError := EmptyLabel | LabelTooLarge | ControlCharacter | InvalidPercentage.
Inductive NotificationSinkError := Unavailable | Delivery.

Definition checked_label (value : str) : Result NotificationValidationError str :=
  if is_empty value then Err EmptyLabel else
  if MAX_IDENTITY_LABEL_BYTES <? str_len value then Err LabelTooLarge else
  if existsb is_control value then Err ControlCharacter else Ok value.
Record NotificationIdentity := mk_identity { provider : str; account : str }.
Definition identity_new (provider account : str) : Result NotificationValidationError NotificationIdentity :=
  provider ← checked_label provider;
  account ← checked_label account;
  Ok (mk_identity provider account).

Inductive NotificationEvent :=
| RefreshFailed (identity : NotificationIdentity)
| UsageThreshold (percent : Z) (identity : NotificationIdentity)
| UpdateAvailable.
Definition usage_threshold (percent : Z) (identity : NotificationIdentity) : Result NotificationValidationError NotificationEvent :=
  if 100 <? percent then Err InvalidPercentage else Ok (UsageThreshold percent identity).

Record NotificationPayload := mk_payload { summary : str; body : str; icon : str }.
(** What [match self] gives: summary, body and whose account it is. *)
Definition wording (event : NotificationEvent) : str * str * option NotificationIdentity :=
  match event with
  | RefreshFailed identity =>
      (lit "AI usage refresh failed", lit "An AI usage account could not be refreshed.", Some identity)
  | UsageThreshold percent identity =>
      (lit "AI usage limit", lit "An AI usage account has reached " ++ show_u64 percent ++ lit "% of its limit.", Some identity)
  | UpdateAvailable =>
      (lit "omarchy-ai-bar update available", lit "A newer packaged version is available.", None)
  end.
Definition personal_suffix (identity : NotificationIdentity) : str :=
  lit " (" ++ provider identity ++ lit ": " ++ account identity ++ lit ")".
Definition project (event : NotificationEvent) (policy : PrivacyPolicy) : option NotificationPayload :=
  let '(summary, body, identity) := wording event in
  let body := match policy, identity with
              | ShowPersonalInfo, Some identity => body ++ personal_suffix identity
              | _, _ => body
              end in
  if negb (str_len summary <=? MAX_NOTIFICATION_SUMMARY_BYTES) then None else
  if negb (str_len body <=? MAX_NOTIFICATION_BODY_BYTES) then None else
  Some (mk_payload summary body (lit "omarchy-ai-bar")).
(** [NotificationService::notify]: what the sink answers to the one payload. *)
Definition notify (sink : NotificationPayload → Result NotificationSinkError unit) (policy : PrivacyPolicy)
    (event : NotificationEvent) : option (NotificationPayload * Result NotificationSinkError unit) :=
  payload ← project event policy; Some (payload, sink payload).

(** ** Facts *)

Definition one_line (s : str) : Prop := existsb is_control s = false.
Definition label_ok (s : str) : Prop := s ≠ [] ∧ str_len s ≤ MAX_IDENTITY_LABEL_BYTES ∧ one_line s.
(** Events as they can be made: labels are checked, and a percentage is a [u8]. *)
Definition event_ok (event : NotificationEvent) : Prop :=
  match event with
  | RefreshFailed i => ∃ p a, identity_new p a = Ok i
  | UsageThreshold n i => 0 ≤ n ≤ u8_max ∧ ∃ p a, identity_new p a = Ok i
  | UpdateAvailable => True
  end.
(** The same event about another account. *)
Definition same_kind (e e' : NotificationEvent) : Prop :=
  match e, e' with
  | RefreshFailed _, RefreshFailed _ | UpdateAvailable, UpdateAvailable => True
  | UsageThreshold n _, UsageThreshold n' _ => n = n'
  | _, _ => False
  end.

Lemma checked_label_Ok value s : checked_label value = Ok s → s = value ∧ label_ok s.
Proof.
  unfold checked_label. destruct (is_empty value) eqn:Ee; [done|].
  destruct (Z.ltb_spec MAX_IDENTITY_LABEL_BYTES (str_len value)); [done|].
  destruct (existsb is_control value) eqn:Ec; [done|]. intros [= <-]. split; [done|]. split; [by destruct value|]. split; [lia|done].
Qed.
Lemma identity_ok p a i : identity_new p a = Ok i → label_ok (provider i) ∧ label_ok (account i).
Proof.
  unfold identity_new. intros (p' & Hp & E)%bind_Ok. apply bind_Ok in E as (a' & Ha & [= <-]). cbn.
  by apply checked_label_Ok in Hp as [-> ?], Ha as [-> ?].
Qed.
Lemma suffix_ok p a i : identity_new p a = Ok i → str_len (personal_suffix i) ≤ 261 ∧ one_line (personal_suffix i).
Proof.
  intros [(_ & Lp & Cp) (_ & La & Ca)]%identity_ok. unfold personal_suffix, one_line in *.
  rewrite !str_len_app, !existsb_app, Cp, Ca. unfold MAX_IDENTITY_LABEL_BYTES in *.
  change (str_len (lit " (")) with 2. change (str_len (lit ": ")) with 2. change (str_len (lit ")")) with 1. split; [lia|done].
Qed.
Lemma u8_text n : 0 ≤ n ≤ u8_max → str_len (show_u64 n) ≤ 20 ∧ one_line (show_u64 n).
Proof.
  intros Hn. pose proof (show_u64_digits n) as Hd. split.
  - rewrite str_len_ascii; [pose proof (show_u64_length n); lia|]. eapply Forall_impl; [exact Hd|].
    intros c Hc%is_ascii_digit_range. lia.
  - unfold one_line. apply not_true_iff_false. intros (c & Hin & Hc)%existsb_exists. rewrite Forall_forall in Hd.
    specialize (Hd c (proj2 (list_elem_of_In _ _) Hin)). apply is_ascii_digit_range in Hd. rewrite graphic_not_control in Hc by lia. done.
Qed.
(** A fixed text is checked once, by evaluation. *)
Lemma fixed_text (s : str) (bound : Z) :
  (str_len s <=? bound) && negb (existsb is_control s) = true → str_len s ≤ bound ∧ one_line s.
Proof. intros [Hl Hc]%andb_true_iff. split; [by apply Z.leb_le|by apply negb_true_iff]. Qed.
Lemma wording_ok event : event_ok event →
  (str_len (wording event).1.1 ≤ MAX_NOTIFICATION_SUMMARY_BYTES ∧ one_line (wording event).1.1) ∧
  (str_len (wording event).1.2 ≤ 128 ∧ one_line (wording event).1.2).
Proof.
  destruct event as [i|n i|]; intros Ho; unfold wording; (split; [apply fixed_text; vm_compute; reflexivity|]);
    [apply fixed_text; vm_compute; reflexivity| |apply fixed_text; vm_compute; reflexivity].
  destruct Ho as [[Hl Hc]%u8_text _]. unfold fst, snd.
  assert (str_len (lit "An AI usage account has reached ") ≤ 40 ∧ one_line (lit "An AI usage account has reached ")) as [E1 C1]
    by (apply fixed_text; vm_compute; reflexivity).
  assert (str_len (lit "% of its limit.") ≤ 40 ∧ one_line (lit "% of its limit.")) as [E2 C2] by (apply fixed_text; vm_compute; reflexivity).
  unfold one_line in *. rewrite !str_len_app, !existsb_app, C1, Hc, C2. split; [lia|done].
Qed.

(** What the policy lets be added to the wording. *)
Definition shown_suffix (policy : PrivacyPolicy) (identity : option NotificationIdentity) : str :=
  match policy, identity with ShowPersonalInfo, Some i => personal_suffix i | _, _ => [] end.
Lemma project_within event policy :
  str_len (wording event).1.1 ≤ 128 → str_len ((wording event).1.2 ++ shown_suffix policy (wording event).2) ≤ 512 →
  project event policy =
  Some (mk_payload (wording event).1.1 ((wording event).1.2 ++ shown_suffix policy (wording event).2) (lit "omarchy-ai-bar")).
Proof.
  unfold project, shown_suffix, MAX_NOTIFICATION_SUMMARY_BYTES, MAX_NOTIFICATION_BODY_BYTES.
  destruct (wording event) as [[s b] i]. cbn [fst snd]. intros Ls Lb. rewrite (proj2 (Z.leb_le _ _) Ls). unfold negb.
  destruct policy, i; rewrite ?app_nil_r in Lb |- *; by rewrite (proj2 (Z.leb_le _ _) Lb).
Qed.
Lemma shown_suffix_ok event policy : event_ok event →
  str_len (shown_suffix policy (wording event).2) ≤ 261 ∧ one_line (shown_suffix policy (wording event).2).
Proof.
  destruct policy; [|intros _; split; [by vm_compute|done]].
  destruct event as [i|n i|]; [intros (p & a & Hi)|intros [_ (p & a & Hi)]|intros _; split; [by vm_compute|done]];
    by apply suffix_ok in Hi.
Qed.

(** C39. Every event is projected: its assertions hold, it is on one line and within
    its bounds; under the private policy nothing in it depends on the account, and
    under the open one the body ends with exactly the provider and the account. *)
Theorem notifications_private_and_bounded event policy : event_ok event →
  ∃ payload, project event policy = Some payload ∧
    str_len (summary payload) ≤ MAX_NOTIFICATION_SUMMARY_BYTES ∧ str_len (body payload) ≤ MAX_NOTIFICATION_BODY_BYTES ∧
    one_line (summary payload) ∧ one_line (body payload) ∧
    (policy = HidePersonalInfo → ∀ event', event_ok event' → same_kind event event' → project event' policy = Some payload) ∧
    (policy = ShowPersonalInfo → ∃ hidden, project event HidePersonalInfo = Some hidden ∧ summary payload = summary hidden ∧
       body payload = body hidden ++
         match event with
         | RefreshFailed i | UsageThreshold _ i => lit " (" ++ provider i ++ lit ": " ++ account i ++ lit ")"
         | UpdateAvailable => []
         end).
Proof.
  intros Ho.
  assert (∀ e q, event_ok e → project e q =
    Some (mk_payload (wording e).1.1 ((wording e).1.2 ++ shown_suffix q (wording e).2) (lit "omarchy-ai-bar"))) as Hall.
  { intros e q He. pose proof (wording_ok e He) as ((L1 & _) & L2 & _). pose proof (shown_suffix_ok e q He) as [L3 _].
    apply project_within; [done|]. rewrite str_len_app. lia. }
  pose proof (wording_ok event Ho) as ((L1 & C1) & L2 & C2). pose proof (shown_suffix_ok event policy Ho) as [L3 C3].
  eexists. split; [by apply Hall|]. cbn [summary body]. unfold MAX_NOTIFICATION_BODY_BYTES. split_and!; [done| |done| | |].
  - rewrite str_len_app. lia.
  - unfold one_line in *. by rewrite existsb_app, C2, C3.
  - intros -> e He Hk. rewrite (Hall e _ He). by destruct event, e; cbn in Hk; subst.
  - intros ->. eexists. split; [by apply Hall|]. split; [done|]. cbn [body]. rewrite <- app_assoc. by destruct event.
Qed.
Lemma notifications_private_and_bounded_witness :
  ∃ payload, project (UsageThreshold 90 (mk_identity (lit "Claude") (lit "me@example.com"))) HidePersonalInfo = Some payload ∧
    str_len (body payload) ≤ MAX_NOTIFICATION_BODY_BYTES.
Proof.
  destruct (notifications_private_and_bounded (UsageThreshold 90 (mk_identity (lit "Claude") (lit "me@example.com"))) HidePersonalInfo)
    as (payload & Hp & _ & Hl & _).
  - split; [by vm_compute|]. exists (lit "Claude"), (lit "me@example.com"). vm_compute. reflexivity.
  - exists payload. split; [exact Hp|exact Hl].
Defined.
