(* ===== verification/Actor.v ===== *)
(** * The runtime actor  (crates/runtime/src/{actor,command,event}.rs)

    The single owner of the runtime state: it admits refreshes, runs at most
    [max_in_flight] required workers, queues the rest, attaches optional work,
    and turns worker results into store operations.  Every method is a
    computation over [RuntimeActor] that can fail or panic.

    The Tokio parts are reduced to what the actor observes of them.  The join
    set is a map from task ids to the tasks spawned on it, each with whether its
    abort was requested; its results are inputs of [iterate].  A token and an
    abort handle of optional work both denote its task.  Broadcast events are
    the list of what was sent, latest first.  The clock is a sequence of
    readings, one per call of a [Clock] method, so that no two calls need agree. *)
From stdpp Require Import gmap countable prelude.
From S2P Require Import Prelude Ordering Text Percentage Externals Scope Errors RateWindow CostUsage.
From S2P Require Import Snapshot SnapshotStore Scheduler RuntimePolicy.
Local Open Scope Z_scope.

(** ** Commands and events *)
Inductive RefreshTrigger :=
| ManualTrigger
| MenuOpen
| PeriodicTrigger
| ResetBoundaryTrigger (boundary : Timestamp).
#[global] Instance RefreshTrigger_eq_dec : EqDecision RefreshTrigger.
Proof. solve_decision. Defined.
Inductive RefreshAdmission := Started | Queued | Coalesced | UnknownScopeAdmission.
Inductive ResetScheduleAdmission := Armed | Unchanged | UnknownScopeReset.

(** The commands without their response channels; [handle_command] returns
    what it sends. *)
Inductive RuntimeCommand :=
| RefreshCommand (scope : AccountScope) (trigger : RefreshTrigger)
| PopupOpenCommand (open : bool)
| ScheduleResetCommand (scope : AccountScope) (boundary : Timestamp).
Inductive Response :=
| Admission (admission : RefreshAdmission)
| Applied
| ResetAdmission (result : Result ScheduleError ResetScheduleAdmission).

Inductive RuntimeEvent :=
| RefreshStarted (scope : AccountScope) (generation : Z) (trigger : RefreshTrigger)
| RequiredUsagePublished (scope : AccountScope) (generation : Z)
| RequiredUsageFailed (scope : AccountScope) (generation : Z) (error : ClassifiedError)
| OptionalEnrichmentPublished (scope : AccountScope) (generation : Z)
| OptionalEnrichmentFailed (scope : AccountScope) (generation : Z) (error : ClassifiedError)
| RefreshFinished (scope : AccountScope) (generation : Z).

(** What the actor itself asks of a source; the fetches run in the workers. *)
Record RefreshSource := mk_source { local_history_scope : option LocalHistoryScope }.
Record RefreshRegistration := mk_registration {
  registration_scope : AccountScope;
  registration_source : RefreshSource;
}.

Inductive RuntimeBuildError :=
| DuplicateRefreshScope
| TooManySources (actual maximum : Z)
| BuildSnapshot (e : SnapshotStoreError).
Inductive RuntimeFault :=
| SnapshotFault (e : SnapshotStoreError)
| GenerationExhausted.

(** ** Workers *)
Definition Id := nat.
Section actor.
Context `{DecimalCrate, TimeCrate}.

(** The two futures the actor spawns, with what they capture. *)
Inductive Task :=
| RequiredTask (scope : AccountScope) (generation : Z) (trigger : RefreshTrigger)
| OptionalTask (scope : AccountScope) (generation : Z) (sample : option UsageSample)
    (base_fetched_at : Timestamp) (manual : bool).
Record Worker := mk_worker { task : Task; aborted : bool }.
Inductive WorkMetadata :=
| RequiredMetadata (scope : AccountScope) (generation : Z)
| OptionalMetadata (scope : AccountScope) (generation : Z).
Record OptionalWork := mk_optional { work_generation : Z; abort : Id }.
Inductive WorkerExit :=
| RequiredExit (scope : AccountScope) (generation : Z)
    (result : Result ClassifiedError UsageSample)
| OptionalExit (scope : AccountScope) (generation : Z) (base_fetched_at : Timestamp)
    (result : Result ClassifiedError (option CostUsageSnapshot)).
(** A task that panicked or was cancelled. *)
Record JoinError := mk_join_error { join_error_id : Id; is_cancelled : bool }.

Record RuntimeActor := mk_actor {
  config : RuntimeConfig;
  clock : nat → Clock;
  reads : nat;
  scheduler : Scheduler;
  sources : gmap AccountScope RefreshSource;
  store : SnapshotStore;
  commands_open : bool;
  events : list RuntimeEvent;
  workers : gmap Id Worker;
  next_id : Id;
  work_metadata : gmap Id WorkMetadata;
  active_required : gmap AccountScope Z;
  active_optional : gmap AccountScope OptionalWork;
  pending : list (AccountScope * RefreshTrigger);
  pending_scopes : gset AccountScope;
  generations : gmap AccountScope Z;
  automatic_cooldowns : gmap AccountScope Instant;
  automatic_failures : gmap AccountScope Z;
  automatic_last_attempts : gmap AccountScope Instant;
}.

Definition set_reads (v : nat) (a : RuntimeActor) : RuntimeActor :=
  mk_actor (config a) (clock a) v (scheduler a) (sources a) (store a) (commands_open a)
  (events a) (workers a) (next_id a) (work_metadata a) (active_required a) (active_optional a)
  (pending a) (pending_scopes a) (generations a) (automatic_cooldowns a) (automatic_failures a)
  (automatic_last_attempts a).
Definition set_scheduler (v : Scheduler) (a : RuntimeActor) : RuntimeActor :=
  mk_actor (config a) (clock a) (reads a) v (sources a) (store a) (commands_open a) (events a)
  (workers a) (next_id a) (work_metadata a) (active_required a) (active_optional a) (pending a)
  (pending_scopes a) (generations a) (automatic_cooldowns a) (automatic_failures a)
  (automatic_last_attempts a).
Definition set_store (v : SnapshotStore) (a : RuntimeActor) : RuntimeActor :=
  mk_actor (config a) (clock a) (reads a) (scheduler a) (sources a) v (commands_open a)
  (events a) (workers a) (next_id a) (work_metadata a) (active_required a) (active_optional a)
  (pending a) (pending_scopes a) (generations a) (automatic_cooldowns a) (automatic_failures a)
  (automatic_last_attempts a).
Definition set_commands_open (v : bool) (a : RuntimeActor) : RuntimeActor :=
  mk_actor (config a) (clock a) (reads a) (scheduler a) (sources a) (store a) v (events a)
  (workers a) (next_id a) (work_metadata a) (active_required a) (active_optional a) (pending a)
  (pending_scopes a) (generations a) (automatic_cooldowns a) (automatic_failures a)
  (automatic_last_attempts a).
Definition set_events (v : list RuntimeEvent) (a : RuntimeActor) : RuntimeActor :=
  mk_actor (config a) (clock a) (reads a) (scheduler a) (sources a) (store a) (commands_open a) v
  (workers a) (next_id a) (work_metadata a) (active_required a) (active_optional a) (pending a)
  (pending_scopes a) (generations a) (automatic_cooldowns a) (automatic_failures a)
  (automatic_last_attempts a).
Definition set_workers (v : gmap Id Worker) (a : RuntimeActor) : RuntimeActor :=
  mk_actor (config a) (clock a) (reads a) (scheduler a) (sources a) (store a) (commands_open a)
  (events a) v (next_id a) (work_metadata a) (active_required a) (active_optional a) (pending a)
  (pending_scopes a) (generations a) (automatic_cooldowns a) (automatic_failures a)
  (automatic_last_attempts a).
Definition set_next_id (v : Id) (a : RuntimeActor) : RuntimeActor :=
  mk_actor (config a) (clock a) (reads a) (scheduler a) (sources a) (store a) (commands_open a)
  (events a) (workers a) v (work_metadata a) (active_required a) (active_optional a) (pending a)
  (pending_scopes a) (generations a) (automatic_cooldowns a) (automatic_failures a)
  (automatic_last_attempts a).
Definition set_work_metadata (v : gmap Id WorkMetadata) (a : RuntimeActor) : RuntimeActor :=
  mk_actor (config a) (clock a) (reads a) (scheduler a) (sources a) (store a) (commands_open a)
  (events a) (workers a) (next_id a) v (active_required a) (active_optional a) (pending a)
  (pending_scopes a) (generations a) (automatic_cooldowns a) (automatic_failures a)
  (automatic_last_attempts a).
Definition set_active_required (v : gmap AccountScope Z) (a : RuntimeActor) : RuntimeActor :=
  mk_actor (config a) (clock a) (reads a) (scheduler a) (sources a) (store a) (commands_open a)
  (events a) (workers a) (next_id a) (work_metadata a) v (active_optional a) (pending a)
  (pending_scopes a) (generations a) (automatic_cooldowns a) (automatic_failures a)
  (automatic_last_attempts a).
Definition set_active_optional (v : gmap AccountScope OptionalWork) (a : RuntimeActor) : RuntimeActor :=
  mk_actor (config a) (clock a) (reads a) (scheduler a) (sources a) (store a) (commands_open a)
  (events a) (workers a) (next_id a) (work_metadata a) (active_required a) v (pending a)
  (pending_scopes a) (generations a) (automatic_cooldowns a) (automatic_failures a)
  (automatic_last_attempts a).
Definition set_pending (v : list (AccountScope * RefreshTrigger)) (a : RuntimeActor) : RuntimeActor :=
  mk_actor (config a) (clock a) (reads a) (scheduler a) (sources a) (store a) (commands_open a)
  (events a) (workers a) (next_id a) (work_metadata a) (active_required a) (active_optional a) v
  (pending_scopes a) (generations a) (automatic_cooldowns a) (automatic_failures a)
  (automatic_last_attempts a).
Definition set_pending_scopes (v : gset AccountScope) (a : RuntimeActor) : RuntimeActor :=
  mk_actor (config a) (clock a) (reads a) (scheduler a) (sources a) (store a) (commands_open a)
  (events a) (workers a) (next_id a) (work_metadata a) (active_required a) (active_optional a)
  (pending a) v (generations a) (automatic_cooldowns a) (automatic_failures a)
  (automatic_last_attempts a).
Definition set_generations (v : gmap AccountScope Z) (a : RuntimeActor) : RuntimeActor :=
  mk_actor (config a) (clock a) (reads a) (scheduler a) (sources a) (store a) (commands_open a)
  (events a) (workers a) (next_id a) (work_metadata a) (active_required a) (active_optional a)
  (pending a) (pending_scopes a) v (automatic_cooldowns a) (automatic_failures a)
  (automatic_last_attempts a).
Definition set_automatic_cooldowns (v : gmap AccountScope Instant) (a : RuntimeActor) : RuntimeActor :=
  mk_actor (config a) (clock a) (reads a) (scheduler a) (sources a) (store a) (commands_open a)
  (events a) (workers a) (next_id a) (work_metadata a) (active_required a) (active_optional a)
  (pending a) (pending_scopes a) (generations a) v (automatic_failures a)
  (automatic_last_attempts a).
Definition set_automatic_failures (v : gmap AccountScope Z) (a : RuntimeActor) : RuntimeActor :=
  mk_actor (config a) (clock a) (reads a) (scheduler a) (sources a) (store a) (commands_open a)
  (events a) (workers a) (next_id a) (work_metadata a) (active_required a) (active_optional a)
  (pending a) (pending_scopes a) (generations a) (automatic_cooldowns a) v
  (automatic_last_attempts a).
Definition set_automatic_last_attempts (v : gmap AccountScope Instant) (a : RuntimeActor) : RuntimeActor :=
  mk_actor (config a) (clock a) (reads a) (scheduler a) (sources a) (store a) (commands_open a)
  (events a) (workers a) (next_id a) (work_metadata a) (active_required a) (active_optional a)
  (pending a) (pending_scopes a) (generations a) (automatic_cooldowns a) (automatic_failures a) v.

Notation Act := (SE RuntimeActor (Failure RuntimeFault)).

(** [clock.wall_now()] and [clock.monotonic_now()] *)
Definition read_clock : Act Clock := λ a, (set_reads (S (reads a)) a, Ok (clock a (reads a))).
Definition read_wall : Act Timestamp := c ← read_clock; mret (wall_now c).
Definition read_monotonic : Act Instant := c ← read_clock; mret (monotonic_now c).
Definition panic {A} : Act A := se_fail Panicked.
Definition emit (event : RuntimeEvent) : Act unit := se_modify (λ a, set_events (event :: events a) a).
(** [self.store.op()?] *)
Definition with_store {A} (op : Store A) : Act A := λ a,
  let '(st, r) := op (store a) in (set_store st a, map_err (λ e, Failed (SnapshotFault e)) r).
(** A call of the scheduler, which keeps its own errors. *)
Definition with_scheduler {A} (op : Scheduler → Clock → Scheduler * A) : Act A := λ a,
  let '(s, r) := op (scheduler a) (clock a (reads a)) in
  (set_scheduler s (set_reads (S (reads a)) a), Ok r).
(** [self.sources[&scope]] *)
Definition source_of (scope : AccountScope) : Act RefreshSource :=
  m ← se_gets sources; se_lift (ok_or (m !! scope) Panicked).
(** [self.workers.spawn(task)] *)
Definition spawn (t : Task) : Act Id := λ a,
  (set_next_id (S (next_id a)) (set_workers (<[next_id a := mk_worker t false]> (workers a)) a),
   Ok (next_id a)).
(** The keys of a [BTreeMap], in order. *)
Definition keys {A} (m : gmap AccountScope A) : list AccountScope :=
  sort_by_key id (map_to_list m).*1.

(** ** Generations and currency *)
Definition next_generation (scope : AccountScope) : Act Z :=
  generations ← se_gets generations;
  next ← se_lift (ok_or (checked_add u64_max (default 0 (generations !! scope)) 1)
                    (Failed GenerationExhausted));
  _ ← se_modify (set_generations (<[scope := next]> generations));
  mret next.
Definition required_is_current (a : RuntimeActor) (scope : AccountScope) (generation : Z) : bool :=
  bool_decide (active_required a !! scope = Some generation).
Definition optional_is_current (a : RuntimeActor) (scope : AccountScope) (generation : Z) : bool :=
  match active_optional a !! scope with
  | Some work => work_generation work =? generation
  | None => false
  end.
(** Cancelling marks the task; its result still arrives. *)
Definition cancel_optional (scope : AccountScope) : Act unit := λ a,
  match active_optional a !! scope with
  | Some optional =>
      (set_workers (alter (λ w, mk_worker (task w) true) (abort optional) (workers a))
         (set_active_optional (delete scope (active_optional a)) a), Ok tt)
  | None => (a, Ok tt)
  end.

(** ** Starting work *)
Definition spawn_optional (scope : AccountScope) (generation : Z) (sample : option UsageSample)
    (base_fetched_at : Timestamp) (manual : bool) : Act unit :=
  _ ← cancel_optional scope;
  _ ← source_of scope;
  id ← spawn (OptionalTask scope generation sample base_fetched_at manual);
  _ ← se_modify (λ a, set_work_metadata
        (<[id := OptionalMetadata scope generation]> (work_metadata a)) a);
  se_modify (λ a, set_active_optional
    (<[scope := mk_optional generation id]> (active_optional a)) a).

Definition start_history_only (scope : AccountScope) (trigger : RefreshTrigger) : Act unit :=
  source ← source_of scope;
  active ← se_gets (λ a, active_optional a !! scope);
  match local_history_scope source, active with
  | Some _, None =>
      generation ← next_generation scope;
      at_ ← read_wall;
      _ ← with_store (mark_history_state scope Scanning at_);
      spawn_optional scope generation None at_ (bool_decide (trigger = ManualTrigger))
  | _, _ => mret tt
  end.

Definition start_required (scope : AccountScope) (trigger : RefreshTrigger) : Act unit :=
  now ← read_monotonic;
  _ ← se_modify (λ a, set_automatic_last_attempts
        (<[scope := now]> (automatic_last_attempts a)) a);
  source ← source_of scope;
  _ ← (if negb (bool_decide (is_Some (local_history_scope source)))
          || bool_decide (trigger = ManualTrigger)
       then cancel_optional scope else mret tt);
  generation ← next_generation scope;
  generated_at ← read_wall;
  _ ← with_store (mark_refreshing scope generated_at generated_at);
  _ ← se_modify (λ a, set_active_required (<[scope := generation]> (active_required a)) a);
  id ← spawn (RequiredTask scope generation trigger);
  _ ← se_modify (λ a, set_work_metadata
        (<[id := RequiredMetadata scope generation]> (work_metadata a)) a);
  active ← se_gets (λ a, active_optional a !! scope);
  _ ← match local_history_scope source, active with
      | Some _, None =>
          _ ← with_store (mark_history_state scope Scanning generated_at);
          spawn_optional scope generation None generated_at (bool_decide (trigger = ManualTrigger))
      | _, _ => mret tt
      end;
  emit (RefreshStarted scope generation trigger).

(** The loop of [fill_required_slots]; each turn takes one pending entry, so
    the queue's length bounds the turns.  The [debug_assert] panics. *)
Fixpoint fill_slots (fuel : nat) : Act unit :=
  match fuel with
  | O => mret tt
  | S fuel =>
      a ← se_gets id;
      if negb (Z.of_nat (size (active_required a)) <? max_in_flight (limits (config a)))
      then mret tt else
      match pending a with
      | [] => mret tt
      | (scope, trigger) :: rest =>
          _ ← se_modify (set_pending rest);
          _ ← (if bool_decide (scope ∈ pending_scopes a)
               then se_modify (set_pending_scopes (pending_scopes a ∖ {[scope]}))
               else panic);
          _ ← start_required scope trigger;
          fill_slots fuel
      end
  end.
Definition fill_required_slots : Act unit :=
  waiting ← se_gets (λ a, length (pending a));
  fill_slots (S waiting).

Definition finish_required (scope : AccountScope) (generation : Z) : Act unit :=
  current ← se_gets (λ a, required_is_current a scope generation);
  if (current : bool) then
    _ ← se_modify (λ a, set_active_required (delete scope (active_required a)) a);
    _ ← emit (RefreshFinished scope generation);
    fill_required_slots
  else mret tt.

(** ** Admission *)
(** [map.get(&scope).is_some_and(|until| *until > now())] *)
Definition cooling_down (scope : AccountScope) : Act bool :=
  until ← se_gets (λ a, automatic_cooldowns a !! scope);
  match until with
  | Some until => now ← read_monotonic; mret (now <? until)
  | None => mret false
  end.
Definition too_recent (scope : AccountScope) : Act bool :=
  last ← se_gets (λ a, automatic_last_attempts a !! scope);
  match last with
  | Some last =>
      next ← se_lift (instant_add last (automatic_minimum_interval (AccountScope.provider scope)));
      now ← read_monotonic;
      mret (now <? next)
  | None => mret false
  end.

Definition admit_refresh (scope : AccountScope) (trigger : RefreshTrigger) : Act RefreshAdmission :=
  a ← se_gets id;
  if negb (bool_decide (is_Some (sources a !! scope))) then mret UnknownScopeAdmission else
  if bool_decide (is_Some (active_required a !! scope)) || bool_decide (scope ∈ pending_scopes a)
  then mret Coalesced else
  cooling ← (if bool_decide (trigger = ManualTrigger) then mret false else cooling_down scope);
  if (cooling : bool) then _ ← start_history_only scope trigger; mret Coalesced else
  recent ← (if bool_decide (trigger = PeriodicTrigger) then too_recent scope else mret false);
  if (recent : bool) then _ ← start_history_only scope trigger; mret Coalesced else
  a ← se_gets id;
  if Z.of_nat (size (active_required a)) <? max_in_flight (limits (config a))
  then _ ← start_required scope trigger; mret Started else
  scheduled_at ← read_wall;
  _ ← with_store (mark_scheduled scope scheduled_at scheduled_at);
  a ← se_gets id;
  _ ← (if bool_decide (scope ∈ pending_scopes a) then panic
       else se_modify (set_pending_scopes ({[scope]} ∪ pending_scopes a)));
  _ ← se_modify (λ a, set_pending (pending a ++ [(scope, trigger)]) a);
  mret Queued.

(** ** Commands and deadlines *)
Definition menu_open_scopes (a : RuntimeActor) : list AccountScope :=
  filter (λ scope, from_option needs_menu_open_refresh false (snapshots (store a) !! scope) = true)
    (keys (sources a)).

Definition handle_command (command : RuntimeCommand) : Act Response :=
  match command with
  | RefreshCommand scope trigger =>
      admission ← admit_refresh scope trigger;
      mret (Admission admission)
  | PopupOpenCommand open =>
      transitioned ← with_scheduler (λ s, set_popup_open s open);
      _ ← (if transitioned && open then
             retry_scopes ← se_gets menu_open_scopes;
             se_for retry_scopes (λ scope, _ ← admit_refresh scope MenuOpen; mret tt)
           else mret tt);
      mret Applied
  | ScheduleResetCommand scope boundary =>
      sources ← se_gets sources;
      if negb (bool_decide (is_Some (sources !! scope)))
      then mret (ResetAdmission (Ok UnknownScopeReset)) else
      changed ← with_scheduler (λ s, schedule_reset s scope boundary);
      let result := (λ changed : bool, if changed then Armed else Unchanged) <$> changed in
      _ ← match result with
          | Ok Armed =>
              generated_at ← read_wall;
              _ ← with_store (mark_scheduled scope boundary generated_at);
              mret tt
          | _ => mret tt
          end;
      mret (ResetAdmission result)
  end.

Definition handle_schedule_due : Act unit :=
  due ← with_scheduler take_due;
  se_for due (λ refresh,
    match refresh with
    | Periodic =>
        scopes ← se_gets (λ a, keys (sources a));
        se_for scopes (λ scope, _ ← admit_refresh scope PeriodicTrigger; mret tt)
    | ResetBoundary scope boundary =>
        _ ← admit_refresh scope (ResetBoundaryTrigger boundary); mret tt
    end).

(** ** Worker results *)
(** [failures.entry(scope).and_modify(..).or_insert(1)] *)
Definition count_failure (failures : option Z) : Z :=
  match failures with
  | Some value => Z.min (saturating_add u8_max value 1) 6
  | None => 1
  end.
Definition record_automatic_backoff (scope : AccountScope) (error : ClassifiedError) : Act unit :=
  failures ← se_gets (λ a, count_failure (automatic_failures a !! scope));
  _ ← se_modify (λ a, set_automatic_failures (<[scope := failures]> (automatic_failures a)) a);
  match automatic_backoff_delay error failures with
  | None =>
      _ ← se_modify (λ a, set_automatic_failures (delete scope (automatic_failures a)) a);
      se_modify (λ a, set_automatic_cooldowns (delete scope (automatic_cooldowns a)) a)
  | Some delay =>
      now ← read_monotonic;
      until ← se_lift (instant_add now delay);
      se_modify (λ a, set_automatic_cooldowns (<[scope := until]> (automatic_cooldowns a)) a)
  end.

Definition clear_reset_boundary (scope : AccountScope) : Act unit :=
  fetched_at ← read_wall;
  _ ← with_scheduler (λ s, reconcile_reset_boundaries s scope [] fetched_at);
  mret tt.
(** The scheduler's error is ignored, as in the code. *)
Definition actor_reconcile_reset_boundaries (scope : AccountScope) : Act unit :=
  snapshot ← se_gets (λ a, snapshots (store a) !! scope);
  match snapshot ≫= ProviderSnapshot.last_known_good with
  | None => clear_reset_boundary scope
  | Some sample =>
      _ ← with_scheduler (λ s, reconcile_reset_boundaries s scope
            (usage_reset_boundaries sample) (UsageSample.fetched_at sample));
      mret tt
  end.

Definition publish_required_failure (scope : AccountScope) (generation : Z)
    (error : ClassifiedError) : Act unit :=
  generated_at ← read_wall;
  _ ← with_store (apply_failure scope error generated_at);
  emit (RequiredUsageFailed scope generation error).

Definition handle_required (scope : AccountScope) (generation : Z)
    (result : Result ClassifiedError UsageSample) : Act unit :=
  current ← se_gets (λ a, required_is_current a scope generation);
  if negb (current : bool) then mret tt else
  match result with
  | Ok sample =>
      if bool_decide (UsageSample.scope sample = scope) then
        _ ← se_modify (λ a, set_automatic_cooldowns (delete scope (automatic_cooldowns a)) a);
        _ ← se_modify (λ a, set_automatic_failures (delete scope (automatic_failures a)) a);
        generated_at ← read_wall;
        _ ← with_store (apply_success scope sample generated_at);
        _ ← actor_reconcile_reset_boundaries scope;
        _ ← emit (RequiredUsagePublished scope generation);
        _ ← finish_required scope generation;
        source ← source_of scope;
        if bool_decide (is_Some (local_history_scope source)) then mret tt
        else spawn_optional scope generation (Some sample) (UsageSample.fetched_at sample) false
      else
        _ ← publish_required_failure scope generation (ClassifiedError.new Parse);
        finish_required scope generation
  | Err error =>
      _ ← record_automatic_backoff scope error;
      _ ← (if negb (bool_decide (ClassifiedError.retry error = Automatic))
           then clear_reset_boundary scope else mret tt);
      _ ← publish_required_failure scope generation error;
      finish_required scope generation
  end.

Definition drop_optional (scope : AccountScope) : Act unit :=
  se_modify (λ a, set_active_optional (delete scope (active_optional a)) a).

Definition handle_optional (scope : AccountScope) (generation : Z) (base_fetched_at : Timestamp)
    (result : Result ClassifiedError (option CostUsageSnapshot)) : Act unit :=
  current ← se_gets (λ a, optional_is_current a scope generation);
  if negb (current : bool) then mret tt else
  _ ← drop_optional scope;
  source ← source_of scope;
  match local_history_scope source with
  | Some history_scope =>
      generated_at ← read_wall;
      match result with
      | Ok data =>
          let state := if bool_decide (is_Some data) then HistoryReady else HistoryEmpty in
          _ ← with_store (apply_local_history scope
                (LocalHistorySnapshot.mk history_scope state data) generated_at);
          emit (OptionalEnrichmentPublished scope generation)
      | Err error =>
          _ ← with_store (mark_history_state scope HistoryFailed generated_at);
          emit (OptionalEnrichmentFailed scope generation error)
      end
  | None =>
      match result with
      | Ok (Some cost_usage) =>
          generated_at ← read_wall;
          applied ← with_store (apply_cost_usage scope base_fetched_at cost_usage generated_at);
          if (applied : bool) then emit (OptionalEnrichmentPublished scope generation) else mret tt
      | Ok None => mret tt
      | Err error => emit (OptionalEnrichmentFailed scope generation error)
      end
  end.

Definition handle_abnormal_worker (metadata : option WorkMetadata) (error : JoinError) : Act unit :=
  match metadata with
  | None => mret tt
  | Some (RequiredMetadata scope generation) =>
      current ← se_gets (λ a, required_is_current a scope generation);
      if negb (current : bool) then mret tt else
      let classified := ClassifiedError.new ProviderUnavailable in
      _ ← record_automatic_backoff scope classified;
      _ ← publish_required_failure scope generation classified;
      finish_required scope generation
  | Some (OptionalMetadata scope generation) =>
      current ← se_gets (λ a, optional_is_current a scope generation);
      if negb (current : bool) then mret tt else
      _ ← drop_optional scope;
      at_ ← read_wall;
      _ ← with_store (mark_history_state scope HistoryFailed at_);
      if is_cancelled error then mret tt
      else emit (OptionalEnrichmentFailed scope generation
                   (ClassifiedError.new ProviderUnavailable))
  end.

Definition handle_worker_result (joined : Result JoinError (Id * WorkerExit)) : Act unit :=
  let id := match joined with Ok (id, _) => id | Err error => join_error_id error end in
  metadata ← se_gets (λ a, work_metadata a !! id);
  _ ← se_modify (λ a, set_work_metadata (delete id (work_metadata a)) a);
  match joined with
  | Ok (_, RequiredExit scope generation result) => handle_required scope generation result
  | Ok (_, OptionalExit scope generation base_fetched_at result) =>
      handle_optional scope generation base_fetched_at result
  | Err error => handle_abnormal_worker metadata error
  end.

(** ** The event loop *)
Inductive ActorInput :=
| Shutdown
| Command (command : option RuntimeCommand)
| WorkerJoined (joined : Result JoinError (Id * WorkerExit))
| ScheduleDue.

Definition joined_id (joined : Result JoinError (Id * WorkerExit)) : Id :=
  match joined with Ok (id, _) => id | Err error => join_error_id error end.
(** [join_next_with_id] takes the task out of the join set. *)
Definition join_next (joined : Result JoinError (Id * WorkerExit)) : Act unit :=
  se_modify (λ a, set_workers (delete (joined_id joined) (workers a)) a).

(** One turn of the loop of [run] on the input [select!] yields; [Ok false]
    leaves the loop. *)
Definition iterate (input : ActorInput) : Act bool :=
  match input with
  | Shutdown => mret false
  | WorkerJoined joined => _ ← join_next joined; _ ← handle_worker_result joined; mret true
  | Command (Some command) => _ ← handle_command command; mret true
  | Command None => _ ← se_modify (set_commands_open false); mret true
  | ScheduleDue => _ ← handle_schedule_due; mret true
  end.

(** A task returns what it captured together with the result of its fetch. *)
Definition exits (t : Task) (e : WorkerExit) : bool :=
  match t, e with
  | RequiredTask scope generation _, RequiredExit scope' generation' _ =>
      bool_decide (scope = scope') && (generation =? generation')
  | OptionalTask scope generation _ at_ _, OptionalExit scope' generation' at' _ =>
      bool_decide (scope = scope') && (generation =? generation') && bool_decide (at_ = at')
  | _, _ => false
  end.
(** The guards of [select!]: a result comes from a task of the join set, and
    commands only while the channel is open.  A deadline may be delivered late
    or early: [take_due] itself reads the clock. *)
Definition enabled (a : RuntimeActor) (input : ActorInput) : bool :=
  match input with
  | Shutdown | ScheduleDue => true
  | Command _ => commands_open a
  | WorkerJoined joined =>
      match workers a !! joined_id joined with
      | Some w => match joined with Ok (_, e) => exits (task w) e | Err _ => true end
      | None => false
      end
  end.

(** ** Construction *)
Fixpoint register (registrations : list RefreshRegistration)
    (sources : gmap AccountScope RefreshSource) :
    Result (Failure RuntimeBuildError) (gmap AccountScope RefreshSource) :=
  match registrations with
  | [] => Ok sources
  | r :: registrations =>
      if bool_decide (is_Some (sources !! registration_scope r))
      then Err (Failed DuplicateRefreshScope)
      else register registrations (<[registration_scope r := registration_source r]> sources)
  end.
(** [store.apply_local_history(..)?] for each source with local history. *)
Fixpoint start_histories (sources : list (AccountScope * RefreshSource)) (wall_now : Timestamp) :
    Store unit :=
  match sources with
  | [] => mret tt
  | (scope, source) :: sources =>
      _ ← match local_history_scope source with
          | Some history_scope =>
              _ ← apply_local_history scope
                    (LocalHistorySnapshot.mk history_scope Scanning None) wall_now;
              mret tt
          | None => mret tt
          end;
      start_histories sources wall_now
  end.

(** The clock is read three times before the actor exists. *)
Definition actor_new_with_retained (config : RuntimeConfig) (clock : nat → Clock)
    (registrations : list RefreshRegistration) (retained : list ProviderSnapshot) :
    Result (Failure RuntimeBuildError) RuntimeActor :=
  sources ← register registrations ∅;
  if pending_capacity (limits config) <? Z.of_nat (size sources)
  then Err (Failed (TooManySources (Z.of_nat (size sources)) (pending_capacity (limits config))))
  else
  let wall_now := wall_now (clock 0%nat) in
  backoff ← retained_automatic_backoff retained wall_now (monotonic_now (clock 1%nat)) ∅ ∅;
  store ← map_err (λ e, Failed (BuildSnapshot e))
            (SnapshotStore.new_with_retained (keys sources) retained wall_now);
  let '(store, started) :=
    start_histories (sort_by_key fst (map_to_list sources)) wall_now store in
  _ ← map_err (λ e, Failed (BuildSnapshot e)) started;
  Ok (mk_actor config clock 3%nat (Scheduler.new (schedule config) (clock 2%nat)) sources store
        true [] ∅ 0%nat ∅ ∅ ∅ [] ∅ ∅ backoff.1 backoff.2 ∅).
Definition actor_new (config : RuntimeConfig) (clock : nat → Clock)
    (registrations : list RefreshRegistration) : Result (Failure RuntimeBuildError) RuntimeActor :=
  actor_new_with_retained config clock registrations [].
End actor.
Notation Act := (SE RuntimeActor (Failure RuntimeFault)).
