(* ===== verification/ActorFacts.v ===== *)
(** * Invariants of the runtime actor

    What holds of the actor of [Actor.v] after every turn of its loop: the
    bounds on running work, the agreement of its queues, maps and join set, the
    protocol of the events it emits, and that no turn panics. *)
From stdpp Require Import gmap countable fin_map_dom prelude.
From S2P Require Import Prelude Ordering Text Percentage Externals Scope Errors RateWindow CostUsage.
From S2P Require Import Snapshot SnapshotStore Scheduler RuntimePolicy Actor.
Local Open Scope Z_scope.

(** ** The event protocol

    Per account: a refresh starts, under a generation larger than any before,
    reports its outcome once, and finishes. *)
Inductive Phase := Waiting (last : Z) | Running (generation : Z) | Reported (generation : Z).
Definition phase_step (k : AccountScope) (e : RuntimeEvent) (p : option Phase) : option Phase :=
  match e with
  | RefreshStarted k' g _ =>
      if bool_decide (k' = k) then
        match p with Some (Waiting last) => if last <? g then Some (Running g) else None
                   | _ => None end
      else p
  | RequiredUsagePublished k' g | RequiredUsageFailed k' g _ =>
      if bool_decide (k' = k) then
        match p with Some (Running g') => if g =? g' then Some (Reported g) else None
                   | _ => None end
      else p
  | RefreshFinished k' g =>
      if bool_decide (k' = k) then
        match p with Some (Reported g') => if g =? g' then Some (Waiting g) else None
                   | _ => None end
      else p
  | OptionalEnrichmentPublished _ _ | OptionalEnrichmentFailed _ _ _ => p
  end.
(** [None] when the events, latest first, break the protocol for [k]. *)
Definition phase (events : list RuntimeEvent) (k : AccountScope) : option Phase :=
  foldr (phase_step k) (Some (Waiting 0)) events.

Section facts.
Context `{DecimalCrate, TimeCrate}.
(** The facts hold for two readings: with [strict] the clock and the delays
    reported by providers stay within [horizon] of the clock's range, and
    nothing panics; without, adding to an instant may panic. *)
Context (strict : bool) (horizon : Duration).

(** ** Invariants of groups of fields *)
Definition required_key (t : Task) : option (AccountScope * Z) :=
  match t with RequiredTask k g _ => Some (k, g) | _ => None end.
Definition optional_key (t : Task) : option (AccountScope * Z) :=
  match t with OptionalTask k g _ _ _ => Some (k, g) | _ => None end.
Definition task_scope (t : Task) : AccountScope :=
  match t with RequiredTask k _ _ | OptionalTask k _ _ _ _ => k end.
Definition task_generation (t : Task) : Z :=
  match t with RequiredTask _ g _ | OptionalTask _ g _ _ _ => g end.
Definition metadata_of (t : Task) : WorkMetadata :=
  match t with
  | RequiredTask k g _ => RequiredMetadata k g
  | OptionalTask k g _ _ _ => OptionalMetadata k g
  end.
Definition no_history (src : gmap AccountScope RefreshSource) (k : AccountScope) : Prop :=
  ∀ s, src !! k = Some s → local_history_scope s = None.
Definition generation_of (gens : gmap AccountScope Z) (k : AccountScope) : Z := default 0 (gens !! k).

(** The waiting refreshes: one per account, none that is running. *)
Record queue_inv (limit : Z) (known : gset AccountScope) (req : gmap AccountScope Z)
    (waiting : list (AccountScope * RefreshTrigger)) (members : gset AccountScope) : Prop := {
  queue_bound : Z.of_nat (size req) ≤ limit;
  queue_active : dom req ⊆ known;
  queue_members : members = list_to_set waiting.*1;
  queue_unique : NoDup waiting.*1;
  queue_known : members ⊆ known;
  queue_disjoint : members ## dom req;
}.

(** The join set against the maps that describe it: every running refresh has
    exactly one required task, and every task that was not cancelled is the
    current one of its account; a result can be told from a superseded one by
    its generation. *)
Record work_inv (src : gmap AccountScope RefreshSource) (gens : gmap AccountScope Z)
    (ws : gmap Id Worker) (nid : Id) (meta : gmap Id WorkMetadata)
    (req : gmap AccountScope Z) (opt : gmap AccountScope OptionalWork) : Prop := {
  work_ids : ∀ id w, ws !! id = Some w → (id < nid)%nat;
  work_meta : ∀ id, meta !! id = metadata_of ∘ task <$> ws !! id;
  work_required : ∀ k g, req !! k = Some g ↔
    ∃ id w, ws !! id = Some w ∧ required_key (task w) = Some (k, g);
  work_required_unique : ∀ id1 id2 w1 w2 k g1 g2,
    ws !! id1 = Some w1 → ws !! id2 = Some w2 →
    required_key (task w1) = Some (k, g1) → required_key (task w2) = Some (k, g2) → id1 = id2;
  work_optional : ∀ k o, opt !! k = Some o ↔
    ∃ w, ws !! abort o = Some w ∧ aborted w = false ∧
         optional_key (task w) = Some (k, work_generation o);
  work_optional_unique : ∀ id1 id2 w1 w2 kg,
    ws !! id1 = Some w1 → ws !! id2 = Some w2 →
    optional_key (task w1) = Some kg → optional_key (task w2) = Some kg → id1 = id2;
  work_known : ∀ id w, ws !! id = Some w → is_Some (src !! task_scope (task w));
  work_generations : ∀ id w, ws !! id = Some w →
    task_generation (task w) ≤ generation_of gens (task_scope (task w));
  work_reserved : ∀ id w k g, req !! k = Some g → no_history src k → ws !! id = Some w →
    optional_key (task w) ≠ Some (k, g);
}.

Definition event_at (events : list RuntimeEvent) (gens : gmap AccountScope Z) (k : AccountScope)
    (g : option Z) : Prop :=
  match g with
  | Some g => phase events k = Some (Running g) ∧ g ≤ generation_of gens k
  | None => ∃ last, phase events k = Some (Waiting last) ∧ last ≤ generation_of gens k
  end.
Definition event_inv (events : list RuntimeEvent) (gens : gmap AccountScope Z)
    (req : gmap AccountScope Z) : Prop :=
  ∀ k, event_at events gens k (req !! k).

Definition store_ok (st : SnapshotStore) (known : gset AccountScope) : Prop :=
  store_inv st ∧ dom (snapshots st) = known.

(** Every reading, and every recorded attempt, leaves room for the longest
    delay that is ever added to it. *)
Definition clock_inv (c : nat → Clock) (attempts : gmap AccountScope Instant) : Prop :=
  strict = true →
  from_mins 60 ≤ horizon ∧ (∀ n, monotonic_now (c n) + horizon ≤ INSTANT_MAX) ∧
  map_Forall (λ _ t, t + horizon ≤ INSTANT_MAX) attempts.

(** ** The join set under each change *)
Definition mark_aborted (w : Worker) : Worker := mk_worker (task w) true.
Lemma lookup_abort (ws : gmap Id Worker) i id w' :
  alter mark_aborted i ws !! id = Some w' →
  ∃ w, ws !! id = Some w ∧ task w' = task w ∧ (aborted w' = false → i ≠ id ∧ aborted w = false).
Proof.
  intros [[<- (w & Hw & ->)]|[Hne Hw]]%lookup_alter_Some; [by exists w|].
  exists w'. split_and!; [done..|]. by intros.
Qed.
Lemma lookup_abort_rev (ws : gmap Id Worker) i id w :
  ws !! id = Some w → ∃ w', alter mark_aborted i ws !! id = Some w' ∧ task w' = task w.
Proof.
  intros Hw. destruct (decide (i = id)) as [->|].
  - exists (mark_aborted w). by rewrite lookup_alter_eq, Hw.
  - exists w. by rewrite lookup_alter_ne.
Qed.

Lemma work_cancel src gens ws nid meta req opt k o :
  work_inv src gens ws nid meta req opt → opt !! k = Some o →
  work_inv src gens (alter mark_aborted (abort o) ws) nid meta req (delete k opt).
Proof.
  intros [Hids Hmeta Hreq Hru Hopt Hou Hkn Hge Hres] Hk. split.
  - intros id w' (w & Hw & _)%lookup_abort. by eapply Hids.
  - intros id. rewrite Hmeta. destruct (alter _ _ _ !! id) as [w'|] eqn:E.
    + apply lookup_abort in E as (w & -> & Ht & _). cbn. by rewrite Ht.
    + destruct (ws !! id) as [w|] eqn:E2; [|done].
      apply (lookup_abort_rev _ (abort o)) in E2 as (w' & ? & _). congruence.
  - intros k' g. rewrite Hreq. split.
    + intros (id & w & Hw & Hkey). destruct (lookup_abort_rev ws (abort o) id w Hw) as (w' & ? & Ht).
      exists id, w'. by rewrite Ht.
    + intros (id & w' & (w & Hw & Ht & _)%lookup_abort & Hkey). exists id, w. by rewrite <-Ht.
  - intros id1 id2 ? ? k' g1 g2 (w1 & Hw1 & -> & _)%lookup_abort (w2 & Hw2 & -> & _)%lookup_abort.
    by apply (Hru id1 id2 w1 w2 k' g1 g2).
  - intros k' o'. destruct (decide (k' = k)) as [->|Hne].
    + rewrite lookup_delete_eq. split; [done|].
      intros (w' & (w & Hw & Ht & Ha)%lookup_abort & Hab & Hkey). destruct (Ha Hab) as [Hne Hab'].
      rewrite Ht in Hkey.
      assert (opt !! k = Some o') as Ho' by (apply Hopt; eauto). congruence.
    + rewrite lookup_delete_ne, Hopt by done. split.
      * intros (w & Hw & Hab & Hkey).
        assert (abort o ≠ abort o') as Hid.
        { intros E. destruct (proj1 (Hopt k o) Hk) as (w2 & Hw2 & _ & Hkey2). congruence. }
        exists w. by rewrite lookup_alter_ne.
      * intros (w' & (w & Hw & Ht & Ha)%lookup_abort & Hab & Hkey). destruct (Ha Hab).
        exists w. by rewrite <-Ht.
  - intros id1 id2 ? ? kg (w1 & Hw1 & -> & _)%lookup_abort (w2 & Hw2 & -> & _)%lookup_abort.
    by apply (Hou id1 id2 w1 w2 kg).
  - intros id ? (w & Hw & -> & _)%lookup_abort. by eapply Hkn.
  - intros id ? (w & Hw & -> & _)%lookup_abort. by eapply Hge.
  - intros id ? k' g Hr Hn (w & Hw & -> & _)%lookup_abort. by eapply Hres.
Qed.

Lemma work_raise src gens gens' ws nid meta req opt :
  work_inv src gens ws nid meta req opt →
  (∀ k, generation_of gens k ≤ generation_of gens' k) →
  work_inv src gens' ws nid meta req opt.
Proof.
  intros [Hids Hmeta Hreq Hru Hopt Hou Hkn Hge Hres] Hle. split; try done.
  intros id w Hw. etrans; [by eapply Hge|apply Hle].
Qed.

(** No optional task carries the key. *)
Definition unused (ws : gmap Id Worker) (kg : AccountScope * Z) : Prop :=
  ∀ id w, ws !! id = Some w → optional_key (task w) ≠ Some kg.
Lemma optional_key_scope t k g :
  optional_key t = Some (k, g) → task_scope t = k ∧ task_generation t = g.
Proof. by destruct t; intros [= <- <-]. Qed.
Lemma required_key_scope t k g :
  required_key t = Some (k, g) → task_scope t = k ∧ task_generation t = g.
Proof. by destruct t; intros [= <- <-]. Qed.
Lemma work_unused src gens ws nid meta req opt k g :
  work_inv src gens ws nid meta req opt → generation_of gens k < g → unused ws (k, g).
Proof.
  intros [Hids Hmeta Hreq Hru Hopt Hou Hkn Hge Hres] Hg id w Hw [Hk Hg']%optional_key_scope.
  specialize (Hge id w Hw). rewrite Hk, Hg' in Hge. lia.
Qed.

(** A lookup in a map with one fresh entry. *)
Lemma lookup_fresh {A} (m : gmap Id A) i x id y :
  <[i := x]> m !! id = Some y → id = i ∧ y = x ∨ id ≠ i ∧ m !! id = Some y.
Proof.
  destruct (decide (id = i)) as [->|]; [rewrite lookup_insert_eq|rewrite lookup_insert_ne by done];
    naive_solver.
Qed.

Lemma work_fresh src gens ws nid meta req opt :
  work_inv src gens ws nid meta req opt → ws !! nid = None.
Proof.
  intros [Hids _ _ _ _ _ _ _ _]. destruct (ws !! nid) as [w|] eqn:E; [|done].
  apply Hids in E. lia.
Qed.
Lemma work_meta_spawn (ws : gmap Id Worker) (meta : gmap Id WorkMetadata) nid t :
  (∀ id, meta !! id = metadata_of ∘ task <$> ws !! id) →
  ∀ id, <[nid := metadata_of t]> meta !! id
        = metadata_of ∘ task <$> <[nid := mk_worker t false]> ws !! id.
Proof.
  intros Hm id. destruct (decide (id = nid)) as [->|]; [by rewrite !lookup_insert_eq|].
  by rewrite !lookup_insert_ne.
Qed.

Lemma work_spawn_optional src gens ws nid meta req opt k g s t m :
  work_inv src gens ws nid meta req opt → opt !! k = None → is_Some (src !! k) →
  g ≤ generation_of gens k → unused ws (k, g) → (req !! k = Some g → ¬ no_history src k) →
  work_inv src gens (<[nid := mk_worker (OptionalTask k g s t m) false]> ws) (S nid)
    (<[nid := OptionalMetadata k g]> meta) req (<[k := mk_optional g nid]> opt).
Proof.
  intros Hinv Hk Hsrc Hg Hun Hr. pose proof (work_fresh _ _ _ _ _ _ _ Hinv) as Hf.
  destruct Hinv as [Hids Hmeta Hreq Hru Hopt Hou Hkn Hge Hres]. split.
  - intros id w [[-> _]|[_ ?%Hids]]%lookup_fresh; lia.
  - by apply (work_meta_spawn ws meta nid (OptionalTask k g s t m)).
  - intros k' g'. rewrite Hreq. split.
    + intros (id & w & Hw & Hkey). exists id, w. split; [|done].
      rewrite lookup_insert_ne; [done|]. intros ->. congruence.
    + intros (id & w & [[-> ->]|[_ Hw]]%lookup_fresh & Hkey); [done|eauto].
  - intros id1 id2 w1 w2 k' g1 g2 [[-> ->]|[_ Hw1]]%lookup_fresh; [done|].
    intros [[-> ->]|[_ Hw2]]%lookup_fresh; [done|]. by apply (Hru id1 id2 w1 w2 k' g1 g2).
  - intros k' o'. destruct (decide (k' = k)) as [->|Hne].
    + rewrite lookup_insert_eq. split.
      * intros [= <-]. cbn. eexists. rewrite lookup_insert_eq. done.
      * intros (w & [[E ->]|[_ Hw]]%lookup_fresh & Hab & Hkey).
        -- cbn in Hkey. destruct o'. cbn in *. congruence.
        -- assert (opt !! k = Some o') by (apply Hopt; eauto). congruence.
    + rewrite lookup_insert_ne, Hopt by done. split.
      * intros (w & Hw & ?). exists w. split; [|done]. rewrite lookup_insert_ne; [done|].
        intros ->. congruence.
      * intros (w & [[E ->]|[_ Hw]]%lookup_fresh & Hab & Hkey); [|eauto].
        cbn in Hkey. congruence.
  - intros id1 id2 w1 w2 kg [[-> ->]|[_ Hw1]]%lookup_fresh [[-> ->]|[_ Hw2]]%lookup_fresh; try done.
    + intros [= <-] Hkey. by destruct (Hun id2 w2 Hw2).
    + intros Hkey [= <-]. by destruct (Hun id1 w1 Hw1).
    + by apply (Hou id1 id2 w1 w2 kg).
  - intros id w [[-> ->]|[_ Hw]]%lookup_fresh; [done|by eapply Hkn].
  - intros id w [[-> ->]|[_ Hw]]%lookup_fresh; [done|by eapply Hge].
  - intros id w k' g' Hk' Hn [[-> ->]|[_ Hw]]%lookup_fresh; [|by eapply Hres].
    intros [= -> ->]. by apply Hr.
Qed.

Lemma work_spawn_required src gens ws nid meta req opt k g tr :
  work_inv src gens ws nid meta req opt → req !! k = None → is_Some (src !! k) →
  g ≤ generation_of gens k → unused ws (k, g) →
  work_inv src gens (<[nid := mk_worker (RequiredTask k g tr) false]> ws) (S nid)
    (<[nid := RequiredMetadata k g]> meta) (<[k := g]> req) opt.
Proof.
  intros Hinv Hk Hsrc Hg Hun. pose proof (work_fresh _ _ _ _ _ _ _ Hinv) as Hf.
  destruct Hinv as [Hids Hmeta Hreq Hru Hopt Hou Hkn Hge Hres].
  assert (∀ id w g', ws !! id = Some w → required_key (task w) ≠ Some (k, g')) as Hnew.
  { intros id w g' Hw Hkey. assert (req !! k = Some g') by (apply Hreq; eauto). congruence. }
  split.
  - intros id w [[-> _]|[_ ?%Hids]]%lookup_fresh; lia.
  - by apply (work_meta_spawn ws meta nid (RequiredTask k g tr)).
  - intros k' g'. destruct (decide (k' = k)) as [->|Hne].
    + rewrite lookup_insert_eq. split.
      * intros [= <-]. exists nid. eexists. by rewrite lookup_insert_eq.
      * intros (id & w & [[-> ->]|[_ Hw]]%lookup_fresh & Hkey); [by injection Hkey as ->|].
        by destruct (Hnew id w g' Hw).
    + rewrite lookup_insert_ne, Hreq by done. split.
      * intros (id & w & Hw & Hkey). exists id, w. split; [|done].
        rewrite lookup_insert_ne; [done|]. intros ->. congruence.
      * intros (id & w & [[-> ->]|[_ Hw]]%lookup_fresh & Hkey); [|eauto]. cbn in Hkey. congruence.
  - intros id1 id2 w1 w2 k' g1 g2 [[-> ->]|[_ Hw1]]%lookup_fresh [[-> ->]|[_ Hw2]]%lookup_fresh; try done.
    + intros [= <- <-] Hkey. by destruct (Hnew id2 w2 g2 Hw2).
    + intros Hkey [= <- <-]. by destruct (Hnew id1 w1 g1 Hw1).
    + by apply (Hru id1 id2 w1 w2 k' g1 g2).
  - intros k' o'. rewrite Hopt. split.
    + intros (w & Hw & ?). exists w. split; [|done]. rewrite lookup_insert_ne; [done|].
      intros ->. congruence.
    + intros (w & [[E ->]|[_ Hw]]%lookup_fresh & Hab & Hkey); [done|eauto].
  - intros id1 id2 w1 w2 kg [[-> ->]|[_ Hw1]]%lookup_fresh; [done|].
    intros [[-> ->]|[_ Hw2]]%lookup_fresh; [done|]. by apply (Hou id1 id2 w1 w2 kg).
  - intros id w [[-> ->]|[_ Hw]]%lookup_fresh; [done|by eapply Hkn].
  - intros id w [[-> ->]|[_ Hw]]%lookup_fresh; [done|by eapply Hge].
  - intros id w k' g' Hk' Hn [[-> ->]|[_ Hw]]%lookup_fresh; [done|].
    destruct (decide (k' = k)) as [->|].
    + rewrite lookup_insert_eq in Hk'. injection Hk' as <-. by apply (Hun id w).
    + rewrite lookup_insert_ne in Hk' by done. by eapply Hres.
Qed.

Lemma work_meta_join (ws : gmap Id Worker) (meta : gmap Id WorkMetadata) i :
  (∀ id, meta !! id = metadata_of ∘ task <$> ws !! id) →
  ∀ id, delete i meta !! id = metadata_of ∘ task <$> delete i ws !! id.
Proof.
  intros Hm id. destruct (decide (id = i)) as [->|]; [by rewrite !lookup_delete_eq|].
  by rewrite !lookup_delete_ne.
Qed.

(** The required task of a running refresh is joined. *)
Lemma work_join_required src gens ws nid meta req opt i w k g :
  work_inv src gens ws nid meta req opt → ws !! i = Some w → required_key (task w) = Some (k, g) →
  work_inv src gens (delete i ws) nid (delete i meta) (delete k req) opt.
Proof.
  intros [Hids Hmeta Hreq Hru Hopt Hou Hkn Hge Hres] Hi Hkey. split.
  - intros id w' [_ Hw]%lookup_delete_Some. by eapply Hids.
  - by apply work_meta_join.
  - intros k' g'. destruct (decide (k' = k)) as [->|Hne].
    + rewrite lookup_delete_eq. split; [done|].
      intros (id & w' & [Hne Hw]%lookup_delete_Some & Hkey'). destruct Hne.
      by apply (Hru i id w w' k g g').
    + rewrite lookup_delete_ne, Hreq by done. split.
      * intros (id & w' & Hw & Hkey'). exists id, w'. split; [|done].
        apply lookup_delete_Some. split; [|done]. intros ->. congruence.
      * intros (id & w' & [_ Hw]%lookup_delete_Some & Hkey'). eauto.
  - intros id1 id2 w1 w2 k' g1 g2 [_ Hw1]%lookup_delete_Some [_ Hw2]%lookup_delete_Some.
    by apply (Hru id1 id2 w1 w2 k' g1 g2).
  - intros k' o. rewrite Hopt. split; intros (w' & Hw & Hab & Hkey').
    + exists w'. split; [|done]. apply lookup_delete_Some. split; [|done]. intros E.
      rewrite <-E, Hi in Hw. injection Hw as <-. by destruct (task w).
    + apply lookup_delete_Some in Hw as [_ Hw]. eauto.
  - intros id1 id2 w1 w2 kg [_ Hw1]%lookup_delete_Some [_ Hw2]%lookup_delete_Some.
    by apply (Hou id1 id2 w1 w2 kg).
  - intros id w' [_ Hw]%lookup_delete_Some. by eapply Hkn.
  - intros id w' [_ Hw]%lookup_delete_Some. by eapply Hge.
  - intros id w' k' g' [_ Hr]%lookup_delete_Some Hn [_ Hw]%lookup_delete_Some. by eapply Hres.
Qed.

(** A result of optional work is current exactly when its task was not
    cancelled. *)
Lemma work_optional_current src gens ws nid meta req opt i w k g :
  work_inv src gens ws nid meta req opt → ws !! i = Some w → optional_key (task w) = Some (k, g) →
  match opt !! k with Some o => work_generation o = g | None => False end ↔ aborted w = false.
Proof.
  intros [Hids Hmeta Hreq Hru Hopt Hou Hkn Hge Hres] Hi Hkey. split.
  - destruct (opt !! k) as [o|] eqn:Ho; [|done]. intros <-.
    apply Hopt in Ho as (w' & Hw' & Hab & Hkey').
    assert (abort o = i) as E by by apply (Hou _ _ w' w (k, work_generation o)). congruence.
  - intros Hab. assert (opt !! k = Some (mk_optional g i)) as -> by (apply Hopt; eauto). done.
Qed.
Lemma work_join_optional src gens ws nid meta req opt i w k g :
  work_inv src gens ws nid meta req opt → ws !! i = Some w → optional_key (task w) = Some (k, g) →
  work_inv src gens (delete i ws) nid (delete i meta) req
    (if aborted w then opt else delete k opt).
Proof.
  intros [Hids Hmeta Hreq Hru Hopt Hou Hkn Hge Hres] Hi Hkey. split.
  - intros id w' [_ Hw]%lookup_delete_Some. by eapply Hids.
  - by apply work_meta_join.
  - intros k' g'. rewrite Hreq. split; intros (id & w' & Hw & Hkey').
    + exists id, w'. split; [|done]. apply lookup_delete_Some. split; [|done]. intros <-.
      rewrite Hi in Hw. injection Hw as <-. by destruct (task w).
    + apply lookup_delete_Some in Hw as [_ Hw]. eauto.
  - intros id1 id2 w1 w2 k' g1 g2 [_ Hw1]%lookup_delete_Some [_ Hw2]%lookup_delete_Some.
    by apply (Hru id1 id2 w1 w2 k' g1 g2).
  - intros k' o.
    assert ((if aborted w then opt else delete k opt) !! k' = Some o ↔
      opt !! k' = Some o ∧ abort o ≠ i) as ->.
    { destruct (aborted w) eqn:Hab.
      - split; [|tauto]. intros Ho. split; [done|]. intros E.
        destruct (proj1 (Hopt k' o) Ho) as (w' & Hw' & Hab' & _). congruence.
      - rewrite lookup_delete_Some. split.
        + intros [Hne Ho]. split; [done|]. intros E.
          destruct (proj1 (Hopt k' o) Ho) as (w' & Hw' & _ & Hkey'). congruence.
        + intros [Ho Hne]. split; [|done]. intros E. subst k'.
          assert (opt !! k = Some (mk_optional g i)) by (apply Hopt; eauto).
          destruct Hne. by simplify_eq. }
    rewrite Hopt. setoid_rewrite lookup_delete_Some. naive_solver congruence.
  - intros id1 id2 w1 w2 kg [_ Hw1]%lookup_delete_Some [_ Hw2]%lookup_delete_Some.
    by apply (Hou id1 id2 w1 w2 kg).
  - intros id w' [_ Hw]%lookup_delete_Some. by eapply Hkn.
  - intros id w' [_ Hw]%lookup_delete_Some. by eapply Hge.
  - intros id w' k' g' Hr Hn [_ Hw]%lookup_delete_Some. by eapply Hres.
Qed.

(** ** Events under each change *)
Lemma event_raise events gens gens' k g :
  event_at events gens k g → generation_of gens k ≤ generation_of gens' k →
  event_at events gens' k g.
Proof.
  destruct g as [g|]; cbn; intros Hat Hle; [intuition lia|].
  destruct Hat as (last & ? & ?). exists last. intuition lia.
Qed.
Lemma event_other events gens e k g :
  (∀ p, phase_step k e p = p) → event_at events gens k g → event_at (e :: events) gens k g.
Proof. intros He. unfold event_at, phase. cbn. by rewrite He. Qed.

(** ** Weakest preconditions

    [wp m Q a]: from [a], [m] ends in a value and a state with [Q], or in one
    of the two faults of an exhausted counter; if [strict] it does not panic. *)
Definition exhausted (f : Failure RuntimeFault) : Prop :=
  f = Failed (SnapshotFault SequenceExhausted) ∨ f = Failed GenerationExhausted ∨
  strict = false ∧ f = Panicked.
Definition wp {A} (m : Act A) (Q : A → RuntimeActor → Prop) (a : RuntimeActor) : Prop :=
  match m a with
  | (a', Ok x) => Q x a'
  | (_, Err f) => exhausted f
  end.
Lemma wp_bind {A B} (m : Act A) (k : A → Act B) Q a :
  wp m (λ x, wp (k x) Q) a → wp (m ≫= k) Q a.
Proof. unfold wp, mbind, SE_bind. by destruct (m a) as [a' [x|f]]. Qed.
Lemma wp_mono {A} (m : Act A) (P Q : A → RuntimeActor → Prop) a :
  wp m P a → (∀ x a', P x a' → Q x a') → wp m Q a.
Proof. unfold wp. destruct (m a) as [a' [x|f]]; naive_solver. Qed.
Lemma wp_both {A} (m : Act A) (P Q : A → RuntimeActor → Prop) a :
  wp m P a → wp m Q a → wp m (λ x a', P x a' ∧ Q x a') a.
Proof. unfold wp. destruct (m a) as [a' [x|f]]; naive_solver. Qed.
Lemma wp_for {A} (xs : list A) body (I : RuntimeActor → Prop) a :
  (∀ x a, x ∈ xs → I a → wp (body x) (λ _, I) a) → I a → wp (se_for xs body) (λ _, I) a.
Proof.
  revert a. induction xs as [|x xs IH]; intros a Hb Ha; [exact Ha|].
  cbn [se_for]. apply wp_bind. eapply wp_mono; [apply Hb; [by left|done]|].
  intros u a' Ha'. apply IH; [|done]. intros y b Hy. apply Hb. by right.
Qed.
Lemma wp_read_wall Q a : (∀ t, Q t (set_reads (S (reads a)) a)) → wp read_wall Q a.
Proof. intros HQ. apply HQ. Qed.
Lemma wp_read_monotonic Q a :
  Q (monotonic_now (clock a (reads a))) (set_reads (S (reads a)) a) → wp read_monotonic Q a.
Proof. done. Qed.
Lemma wp_source_of k Q a :
  is_Some (sources a !! k) → (∀ s, sources a !! k = Some s → Q s a) → wp (source_of k) Q a.
Proof.
  intros [s Hs] HQ. unfold source_of, wp, mbind, SE_bind, se_gets, se_lift. rewrite Hs. by apply HQ.
Qed.
Lemma wp_with_scheduler {A} (op : Scheduler → Clock → Scheduler * A) Q a :
  (∀ s r, Q r (set_scheduler s (set_reads (S (reads a)) a))) → wp (with_scheduler op) Q a.
Proof.
  intros HQ. unfold wp, with_scheduler. destruct (op _ _) as [s r]. apply HQ.
Qed.

(** Computes a state written as a chain of setters over [mk_actor]. *)
Ltac flatten := cbv [set_reads set_scheduler set_store set_commands_open set_events set_workers
  set_next_id set_work_metadata set_active_required set_active_optional set_pending
  set_pending_scopes set_generations set_automatic_cooldowns set_automatic_failures
  set_automatic_last_attempts
  config clock reads scheduler sources store commands_open events workers next_id
  work_metadata active_required active_optional pending pending_scopes generations
  automatic_cooldowns automatic_failures automatic_last_attempts].

(** ** Store calls *)
Lemma exec_ok st known k o now :
  store_ok st known → k ∈ known → foreign_sample k o = false →
  match exec k o now st with
  | (st', Ok _) => store_ok st' known
  | (_, Err e) => e = SequenceExhausted
  end.
Proof.
  intros [Hinv Hd] Hk Hf. pose proof (exec_refines st k o now Hinv) as Ho.
  destruct (exec_inv st k o now Hinv) as (Hinv' & Hd' & _).
  unfold spec_outcome in Ho. rewrite <-Hd in Hk. apply elem_of_dom in Hk as [cur Hcur].
  rewrite Hcur, Hf in Ho. destruct (exec k o now st) as [st' r]. cbn in Hinv', Hd'.
  destruct r as [b|e]; [split; [done|congruence]|].
  destruct (transition now o cur) as [next|]; [|done].
  case_bool_decide; [done|]. destruct (_ =? _); [congruence|]. naive_solver.
Qed.
Lemma wp_exec k o now known Q a :
  store_ok (store a) known → k ∈ known → foreign_sample k o = false →
  (∀ b st', store_ok st' known → Q b (set_store st' a)) →
  wp (with_store (exec k o now)) Q a.
Proof.
  intros Hst Hk Hf HQ. pose proof (exec_ok (store a) known k o now Hst Hk Hf) as Ho.
  unfold wp, with_store. destruct (exec k o now (store a)) as [st' [b|e]]; [by apply HQ|].
  cbn. left. by rewrite Ho.
Qed.
Lemma wp_mark_history k s now known Q a :
  store_ok (store a) known → k ∈ known →
  (∀ st', store_ok st' known → Q tt (set_store st' a)) →
  wp (with_store (mark_history_state k s now)) Q a.
Proof.
  intros Hst Hk HQ.
  pose proof (exec_ok (store a) known k (MarkHistoryState s) now Hst Hk eq_refl) as Ho.
  cbn [exec] in Ho. unfold mbind, SE_bind in Ho. unfold wp, with_store.
  destruct (mark_history_state k s now (store a)) as [st' [[]|e]]; [by apply HQ|].
  cbn. left. by rewrite Ho.
Qed.

(** ** The whole invariant, but for work conservation *)
Record base_inv (a : RuntimeActor) : Prop := {
  base_store : store_ok (store a) (dom (sources a));
  base_queue : queue_inv (max_in_flight (limits (config a))) (dom (sources a))
    (active_required a) (pending a) (pending_scopes a);
  base_work : work_inv (sources a) (generations a) (workers a) (next_id a) (work_metadata a)
    (active_required a) (active_optional a);
  base_events : event_inv (events a) (generations a) (active_required a);
  base_clock : clock_inv (clock a) (automatic_last_attempts a);
}.
Definition same_setup (a a' : RuntimeActor) : Prop :=
  config a' = config a ∧ clock a' = clock a ∧ sources a' = sources a.
Definition same_queue (a a' : RuntimeActor) : Prop :=
  pending a' = pending a ∧ pending_scopes a' = pending_scopes a.
(** Work is only added for the accounts of [ks]. *)
Definition adds_only (ks : gset AccountScope) (a a' : RuntimeActor) : Prop :=
  ∀ k g, k ∉ ks → unused (workers a) (k, g) → unused (workers a') (k, g).

(** The fields that describe the join set. *)
Definition set_work (ws : gmap Id Worker) (nid : Id) (meta : gmap Id WorkMetadata)
    (opt : gmap AccountScope OptionalWork) (a : RuntimeActor) : RuntimeActor :=
  set_active_optional opt (set_work_metadata meta (set_next_id nid (set_workers ws a))).
Lemma set_work_id a : set_work (workers a) (next_id a) (work_metadata a) (active_optional a) a = a.
Proof. by destruct a. Qed.

Lemma wp_next_generation k Q a :
  (∀ g, g = generation_of (generations a) k + 1 →
        Q g (set_generations (<[k := g]> (generations a)) a)) →
  wp (next_generation k) Q a.
Proof.
  intros HQ. unfold next_generation, wp, mbind, SE_bind, se_gets, se_lift, se_modify, mret, SE_ret.
  unfold checked_add. fold (generation_of (generations a) k).
  destruct (_ <=? _); [by apply HQ|]. by right; left.
Qed.
Lemma generation_insert gens k g k' :
  g = generation_of gens k + 1 →
  generation_of gens k' ≤ generation_of (<[k := g]> gens) k' ∧
  generation_of (<[k := g]> gens) k = g.
Proof.
  intros ->. unfold generation_of. rewrite lookup_insert_eq. split; [|done].
  destruct (decide (k = k')) as [<-|]; [rewrite lookup_insert_eq; cbn; lia|].
  by rewrite lookup_insert_ne.
Qed.

Notation work_of a := (work_inv (sources a) (generations a) (workers a) (next_id a)
  (work_metadata a) (active_required a) (active_optional a)).

Lemma wp_cancel_optional k Q a :
  work_of a →
  (∀ ws opt, opt !! k = None → adds_only ∅ a (set_workers ws a) →
     let a' := set_work ws (next_id a) (work_metadata a) opt a in work_of a' → Q tt a') →
  wp (cancel_optional k) Q a.
Proof.
  intros Hw HQ. unfold cancel_optional, wp.
  destruct (active_optional a !! k) as [o|] eqn:Hk.
  - refine (HQ (alter mark_aborted (abort o) (workers a)) (delete k (active_optional a)) _ _ _).
    + apply lookup_delete_eq.
    + intros k' g _ Hun id ? (w & Hid & -> & _)%lookup_abort. by apply (Hun id w).
    + by apply work_cancel.
  - rewrite <-(set_work_id a). apply HQ; [done| |].
    + by intros ???.
    + by rewrite set_work_id.
Qed.

Lemma wp_spawn_optional k g s t m Q a :
  work_of a → is_Some (sources a !! k) → g ≤ generation_of (generations a) k →
  unused (workers a) (k, g) →
  (active_required a !! k = Some g → ¬ no_history (sources a) k) →
  (∀ ws nid meta opt, adds_only {[k]} a (set_workers ws a) →
     let a' := set_work ws nid meta opt a in work_of a' → Q tt a') →
  wp (spawn_optional k g s t m) Q a.
Proof.
  intros Hw Hsrc Hg Hun Hres HQ. unfold spawn_optional. apply wp_bind.
  apply wp_cancel_optional; [done|]. intros ws opt Hk Hadd a1 Hw1. subst a1.
  apply wp_bind, wp_source_of; [done|]. intros _ _.
  destruct a as [cf ck rd sc src st0 op ev ws0 nid mt rq opt0 pd ps gn cd fl la].
  unfold set_work in *. cbn [sources generations next_id work_metadata active_required workers] in *.
  assert (unused ws (k, g)) as Hun1 by (apply Hadd; [set_solver|done]).
  pose proof (work_spawn_optional _ _ _ _ _ _ _ k g s t m Hw1 Hk Hsrc Hg Hun1 Hres) as Hw2.
  unfold wp, mbind, SE_bind, spawn, se_modify. flatten.
  specialize (HQ (<[nid := mk_worker (OptionalTask k g s t m) false]> ws) (S nid)
    (<[nid := OptionalMetadata k g]> mt) (<[k := mk_optional g nid]> opt)).
  revert HQ. flatten. intros HQ. apply HQ; [|exact Hw2].
  intros k' g' Hk' Hun' id w [[-> ->]|[_ Hid]]%lookup_fresh; [set_solver|].
  by apply (Hadd k' g' (not_elem_of_empty _) Hun' id w).
Qed.

Lemma wp_if_cancel (c : bool) k Q a :
  work_of a →
  (∀ ws opt, adds_only ∅ a (set_workers ws a) →
     let a' := set_work ws (next_id a) (work_metadata a) opt a in work_of a' → Q tt a') →
  wp (if c then cancel_optional k else mret tt) Q a.
Proof.
  intros Hw HQ. destruct c.
  - apply wp_cancel_optional; [done|]. intros ws opt _. apply HQ.
  - unfold wp, mret, SE_ret. rewrite <-(set_work_id a). apply HQ; [by intros ???|].
    by rewrite set_work_id.
Qed.

(** Attaching the local-history work of a starting refresh. *)
Lemma wp_attach_history k s g at_ m Q a :
  store_ok (store a) (dom (sources a)) → work_of a → sources a !! k = Some s →
  g ≤ generation_of (generations a) k → unused (workers a) (k, g) →
  (∀ st ws nid meta opt, store_ok st (dom (sources a)) → adds_only {[k]} a (set_workers ws a) →
     let a' := set_work ws nid meta opt (set_store st a) in work_of a' → Q tt a') →
  wp (match local_history_scope s, active_optional a !! k with
      | Some _, None =>
          _ ← with_store (mark_history_state k Scanning at_);
          spawn_optional k g None at_ m
      | _, _ => mret tt
      end) Q a.
Proof.
  intros Hst Hw Hs Hg Hun HQ.
  assert (a = set_work (workers a) (next_id a) (work_metadata a) (active_optional a)
    (set_store (store a) a)) as Ea by by destruct a.
  assert (Q tt a) as Hnone.
  { rewrite Ea. apply HQ; [done|by intros ???|]. by rewrite <-Ea. }
  destruct (local_history_scope s) as [h|] eqn:Hh; [|exact Hnone].
  destruct (active_optional a !! k) as [o|] eqn:Ho; [exact Hnone|].
  apply wp_bind. apply (wp_mark_history _ _ _ (dom (sources a))); [done|by eapply elem_of_dom_2|].
  intros st Hst'. apply wp_spawn_optional; [exact Hw|by eexists|done|done| |].
  - intros _ Hn. specialize (Hn s Hs). congruence.
  - intros ws nid meta opt Hadd a' Hw'. by apply HQ.
Qed.

Lemma event_start events gens req k g tr :
  event_inv events gens req → req !! k = None → g = generation_of gens k + 1 →
  event_inv (RefreshStarted k g tr :: events) (<[k := g]> gens) (<[k := g]> req).
Proof.
  intros Hev Hk Hg k'. destruct (generation_insert gens k g k' Hg) as [Hle Heq].
  destruct (decide (k' = k)) as [->|Hne].
  - rewrite lookup_insert_eq. specialize (Hev k). rewrite Hk in Hev.
    destruct Hev as (last & Hp & Hlast). unfold event_at, phase. cbn.
    rewrite bool_decide_eq_true_2 by done. fold (phase events k). rewrite Hp.
    rewrite (proj2 (Z.ltb_lt _ _)) by lia. split; [done|lia].
  - rewrite lookup_insert_ne by done. apply event_other; [|by eapply event_raise].
    intros p. cbn. by rewrite bool_decide_eq_false_2.
Qed.
Lemma queue_start limit known req waiting members k g :
  queue_inv limit known req waiting members → k ∈ known → req !! k = None → k ∉ members →
  Z.of_nat (size req) < limit → queue_inv limit known (<[k := g]> req) waiting members.
Proof.
  intros [Hb Ha Hm Hu Hkn Hd] Hk Hr Hnm Hlt. split; try done.
  - rewrite map_size_insert_None by done. lia.
  - rewrite dom_insert. set_solver.
  - rewrite dom_insert. set_solver.
Qed.
Lemma clock_attempt c attempts k n :
  clock_inv c attempts → clock_inv c (<[k := monotonic_now (c n)]> attempts).
Proof.
  intros Hcl Hstrict. destruct (Hcl Hstrict) as (H1 & Hc & Hm).
  split_and!; [done..|]. by apply map_Forall_insert_2.
Qed.

(** What starting the refresh of [k] does. *)
Record started_refresh (k : AccountScope) (tr : RefreshTrigger) (a a' : RuntimeActor) : Prop := {
  started_inv : base_inv a';
  started_setup : same_setup a a';
  started_queue : same_queue a a';
  started_active : ∃ g, active_required a' = <[k := g]> (active_required a) ∧
    events a' = RefreshStarted k g tr :: events a;
  started_adds : adds_only {[k]} a a';
  started_gens : ∀ k', generation_of (generations a) k' ≤ generation_of (generations a') k';
}.
Lemma wp_start_required k tr a :
  base_inv a → k ∈ dom (sources a) → active_required a !! k = None → k ∉ pending_scopes a →
  Z.of_nat (size (active_required a)) < max_in_flight (limits (config a)) →
  wp (start_required k tr) (λ _, started_refresh k tr a) a.
Proof.
  intros [Hst Hq Hw Hev Hc] Hk Hr Hp Hlt.
  pose proof Hk as [s Hs]%elem_of_dom. unfold start_required.
  destruct a as [cf ck rd sc src st0 op ev ws0 nid mt rq opt0 pd ps gn cd fl la].
  cbn in Hst, Hq, Hw, Hev, Hc, Hk, Hr, Hp, Hlt, Hs.
  apply wp_bind, wp_read_monotonic. apply wp_bind. unfold wp at 1, se_modify. flatten.
  apply wp_bind, wp_source_of; [by eexists|]. cbn [sources]. intros s' Hs'.
  assert (s' = s) as -> by congruence. clear Hs'.
  apply wp_bind, wp_if_cancel; [exact Hw|]. unfold set_work. flatten.
  intros ws opt Hadd Hw1. apply wp_bind, wp_next_generation. flatten. intros g Hg.
  destruct (generation_insert gn k g k Hg) as [_ Hgk].
  assert (unused ws (k, g)) as Hun by (eapply work_unused; [exact Hw1|]; subst g; lia).
  apply (work_raise _ _ (<[k := g]> gn)) in Hw1; [|intros k'; by apply (generation_insert gn)].
  apply wp_bind, wp_read_wall. intros t. flatten. apply wp_bind.
  apply (wp_exec k (MarkRefreshing t) t (dom src)); [done..|]. intros b st Hst'. flatten.
  apply wp_bind. unfold wp at 1, se_modify. flatten. apply wp_bind. unfold wp at 1, spawn. flatten.
  apply wp_bind. unfold wp at 1, se_modify. flatten.
  apply wp_bind. unfold wp at 1, se_gets. cbn [active_optional].
  apply (work_spawn_required _ _ _ _ _ _ _ k g tr) in Hw1;
    [|done|by eexists|by rewrite Hgk|done].
  apply wp_bind. match goal with |- wp _ _ ?a0 => apply (wp_attach_history k s g t _ _ a0) end;
    [exact Hst'|exact Hw1|exact Hs|cbn [generations]; by rewrite Hgk| |].
  - intros id w [[-> ->]|[_ Hid]]%lookup_fresh; [done|by apply (Hun id w)].
  - unfold set_work. flatten. intros st2 ws2 nid2 meta2 opt2 Hst2 Hadd2 Hw3.
    unfold wp, emit, se_modify. flatten. split; [split|by split|by split| | |]; cbn.
    + exact Hst2.
    + by apply queue_start.
    + exact Hw3.
    + by apply event_start.
    + by apply clock_attempt.
    + by exists g.
    + intros k' g' Hk' Hun'. apply (Hadd2 k' g' Hk').
      intros id w [[-> ->]|[_ Hid]]%lookup_fresh; [done|].
      by apply (Hadd k' g' (not_elem_of_empty _) Hun' id w).
    + intros k'. by apply (generation_insert gn).
Qed.

(** ** Filling free slots *)
Definition conserving (a : RuntimeActor) : Prop :=
  pending a ≠ [] → max_in_flight (limits (config a)) ≤ Z.of_nat (size (active_required a)).

Record filled (a a' : RuntimeActor) : Prop := {
  filled_inv : base_inv a';
  filled_setup : same_setup a a';
  filled_conserving : conserving a';
  filled_queue : ∃ n, pending a' = drop n (pending a) ∧
    dom (active_required a') = dom (active_required a) ∪ list_to_set (take n (pending a)).*1;
  filled_adds : adds_only (pending_scopes a) a a';
  filled_gens : ∀ k', generation_of (generations a) k' ≤ generation_of (generations a') k';
}.

Lemma queue_pop limit known req k tr rest members :
  queue_inv limit known req ((k, tr) :: rest) members →
  queue_inv limit known req rest (members ∖ {[k]}) ∧ k ∈ members ∧ k ∈ known ∧ req !! k = None.
Proof.
  intros [Hb Ha Hm Hu Hkn Hd]. cbn in Hm, Hu. apply NoDup_cons in Hu as [Hk Hu].
  assert (k ∈ members) as Hkm by (subst; set_solver).
  split_and!; [split|done|set_solver|]; try done.
  - subst. apply set_eq. intros j. rewrite elem_of_difference, elem_of_union, elem_of_singleton.
    rewrite !elem_of_list_to_set. split; [tauto|]. intros Hj. split; [by right|by intros ->].
  - set_solver.
  - set_solver.
  - apply not_elem_of_dom. set_solver.
Qed.
Lemma base_set_queue waiting members a :
  base_inv a →
  queue_inv (max_in_flight (limits (config a))) (dom (sources a)) (active_required a)
    waiting members →
  base_inv (set_pending_scopes members (set_pending waiting a)).
Proof. intros [Hst _ Hw Hev Hc] Hq. by split. Qed.

Lemma adds_only_trans ks1 ks2 ks a a1 a2 :
  adds_only ks1 a a1 → adds_only ks2 a1 a2 → ks1 ⊆ ks → ks2 ⊆ ks → adds_only ks a a2.
Proof. intros Hadd1 Hadd2 ?? k g Hk Hun. apply Hadd2; [set_solver|]. apply Hadd1; [set_solver|done]. Qed.

Lemma wp_fill_slots fuel a :
  base_inv a → (length (pending a) < fuel)%nat → wp (fill_slots fuel) (λ _, filled a) a.
Proof.
  revert a. induction fuel as [|fuel IH]; intros a Ha Hlen; [lia|]. cbn [fill_slots].
  apply wp_bind. unfold wp at 1, se_gets. cbn [id].
  destruct (Z.ltb_spec (Z.of_nat (size (active_required a))) (max_in_flight (limits (config a))))
    as [Hlt|Hge]; cbn [negb].
  2: { split; [done|done|by intros _| |by intros ???|done]. exists 0%nat. cbn.
       split; [done|set_solver]. }
  destruct (pending a) as [|[k tr] rest] eqn:Hp.
  { split; [done|done|intros ?; congruence| |by intros ???|done]. exists 0%nat. rewrite Hp. set_solver. }
  pose proof (base_queue _ Ha) as Hq. rewrite Hp in Hq.
  apply queue_pop in Hq as (Hq & Hkm & Hkn & Hr).
  apply wp_bind. unfold wp at 1, se_modify. rewrite bool_decide_eq_true_2 by done.
  apply wp_bind. unfold wp at 1, se_modify. apply wp_bind.
  set (a1 := set_pending_scopes (pending_scopes a ∖ {[k]}) (set_pending rest a)).
  assert (base_inv a1) as Ha1 by by apply base_set_queue.
  eapply wp_mono; [apply wp_start_required; [exact Ha1|done|done|cbn; set_solver|done]|].
  intros _ a2 [Ha2 (Hc2 & Hk2 & Hs2) [Hp2 Hm2] (g & Hr2 & _) Hadd2 Hg2].
  cbn in Hc2, Hk2, Hs2, Hp2, Hm2, Hr2, Hlen.
  eapply wp_mono; [apply IH; [done|rewrite Hp2; lia]|].
  intros _ a3 [Ha3 (Hc3 & Hk3 & Hs3) Hcons (n & Hp3 & Hd3) Hadd3 Hg3].
  split; [done|split_and!; congruence|done| | |intros k'; etrans; [apply Hg2|apply Hg3]].
  - exists (S n). rewrite Hp. cbn. rewrite Hp3, Hp2. split; [done|].
    rewrite Hd3, Hp2, Hr2, dom_insert_L. set_solver.
  - rewrite Hm2 in Hadd3. eapply (adds_only_trans {[k]}); [exact Hadd2|exact Hadd3|set_solver..].
Qed.
Lemma wp_fill_required_slots a : base_inv a → wp fill_required_slots (λ _, filled a) a.
Proof.
  intros Ha. unfold fill_required_slots. apply wp_bind. unfold wp at 1, se_gets.
  apply wp_fill_slots; [done|lia].
Qed.

(** ** Finishing *)
(** The state of a handler once the task of [k] is joined: the slot is still
    taken, but the join set already agrees with its release. *)
Record joining (k : AccountScope) (g : Z) (p : option Phase) (a : RuntimeActor) : Prop := {
  joining_store : store_ok (store a) (dom (sources a));
  joining_queue : queue_inv (max_in_flight (limits (config a))) (dom (sources a))
    (active_required a) (pending a) (pending_scopes a);
  joining_active : active_required a !! k = Some g;
  joining_work : work_inv (sources a) (generations a) (workers a) (next_id a) (work_metadata a)
    (delete k (active_required a)) (active_optional a);
  joining_events : ∀ k', k' ≠ k → event_at (events a) (generations a) k' (active_required a !! k');
  joining_phase : phase (events a) k = p ∧ g ≤ generation_of (generations a) k;
  joining_clock : clock_inv (clock a) (automatic_last_attempts a);
}.

Lemma queue_finish limit known req waiting members k :
  queue_inv limit known req waiting members →
  queue_inv limit known (delete k req) waiting members.
Proof.
  intros [Hb Ha Hm Hu Hkn Hd]. split; try done.
  - rewrite map_size_delete. destruct (req !! k); cbn; lia.
  - rewrite dom_delete. set_solver.
  - rewrite dom_delete. set_solver.
Qed.

Record finished (k : AccountScope) (g : Z) (a a' : RuntimeActor) : Prop := {
  finished_inv : base_inv a';
  finished_setup : same_setup a a';
  finished_conserving : conserving a';
  finished_queue : ∃ n, pending a' = drop n (pending a) ∧
    dom (active_required a') = dom (active_required a) ∖ {[k]} ∪ list_to_set (take n (pending a)).*1;
  finished_adds : adds_only (pending_scopes a) a a';
  finished_gens : generation_of (generations a) k ≤ generation_of (generations a') k;
}.

Lemma wp_finish_required k g a :
  joining k g (Some (Reported g)) a → wp (finish_required k g) (λ _, finished k g a) a.
Proof.
  intros [Hst Hq Hr Hw Hev [Hph Hg] Hc]. unfold finish_required.
  apply wp_bind. unfold wp at 1, se_gets, required_is_current. rewrite Hr, bool_decide_eq_true_2 by done.
  apply wp_bind. unfold wp at 1, se_modify. apply wp_bind. unfold wp at 1, emit, se_modify.
  match goal with |- wp _ _ ?a0 => set (a1 := a0) end.
  assert (base_inv a1) as Ha1.
  { split; [exact Hst|by apply queue_finish|exact Hw| |exact Hc].
    intros k'. cbn. destruct (decide (k' = k)) as [->|Hne].
    - rewrite lookup_delete_eq. exists g. split; [|done]. unfold phase. cbn.
      rewrite bool_decide_eq_true_2 by done. fold (phase (events a) k). by rewrite Hph, Z.eqb_refl.
    - rewrite lookup_delete_ne by done. apply event_other; [|by apply Hev].
      intros p. cbn. by rewrite bool_decide_eq_false_2. }
  eapply wp_mono; [by apply wp_fill_required_slots|].
  intros _ a2 [Ha2 Hset Hcons (n & Hp & Hd) Hadd Hgens]. split; try done.
  exists n. split; [done|]. rewrite Hd. cbn. by rewrite dom_delete_L.
Qed.

(** ** Backoff *)
Definition error_ok (e : ClassifiedError) : Prop :=
  strict = true → ∀ w, ClassifiedError.retry_after e = Some w → from_secs (WindowDuration.seconds w) ≤ horizon.
Lemma backoff_delay_bound e n d :
  strict = true → from_mins 60 ≤ horizon → error_ok e → automatic_backoff_delay e n = Some d →
  d ≤ horizon.
Proof.
  intros Hstrict Hh He. specialize (He Hstrict). unfold automatic_backoff_delay.
  destruct (match ClassifiedError.kind e with RateLimited => _ | _ => _ end) as [base|];
    cbn [mbind option_bind]; [|done].
  destruct (ClassifiedError.retry_after e) as [w|] eqn:Hw; cbn [fmap option_fmap option_map];
    intros [= <-]; [|lia]. specialize (He w eq_refl). lia.
Qed.
Lemma wp_record_backoff k e Q a :
  clock_inv (clock a) (automatic_last_attempts a) → error_ok e →
  (∀ r f c, Q tt (set_automatic_cooldowns c (set_automatic_failures f (set_reads r a)))) →
  wp (record_automatic_backoff k e) Q a.
Proof.
  intros Hcl He HQ. unfold record_automatic_backoff.
  apply wp_bind. unfold wp at 1, se_gets. apply wp_bind. unfold wp at 1, se_modify.
  destruct (automatic_backoff_delay e _) as [d|] eqn:Hd.
  - apply wp_bind, wp_read_monotonic. apply wp_bind. unfold wp at 1, se_lift, instant_add.
    unfold instant_checked_add. cbn.
    destruct (Z.leb_spec (monotonic_now (clock a (reads a)) + d) INSTANT_MAX); [apply HQ|].
    destruct strict eqn:Hstrict; [|by right; right]. exfalso.
    destruct (Hcl Hstrict) as (Hh & Hc & _). specialize (Hc (reads a)).
    apply backoff_delay_bound in Hd; [lia|done..].
  - apply wp_bind. unfold wp at 1, se_modify. refine (HQ (reads a) _ _).
Qed.

(** ** Publishing an outcome *)
Lemma phase_report k e g a :
  phase (events a) k = Some (Running g) → e = RequiredUsagePublished k g ∨ (∃ x, e = RequiredUsageFailed k g x) →
  phase (e :: events a) k = Some (Reported g) ∧
  ∀ k', k' ≠ k → ∀ p, phase_step k' e p = p.
Proof.
  intros Hp He. split.
  - destruct He as [->|[x ->]]; unfold phase; cbn; rewrite bool_decide_eq_true_2 by done;
      fold (phase (events a) k); by rewrite Hp, Z.eqb_refl.
  - intros k' Hne p. destruct He as [->|[x ->]]; cbn; by rewrite bool_decide_eq_false_2.
Qed.
Lemma joining_report k g e a :
  joining k g (Some (Running g)) a →
  e = RequiredUsagePublished k g ∨ (∃ x, e = RequiredUsageFailed k g x) →
  joining k g (Some (Reported g)) (set_events (e :: events a) a).
Proof.
  intros [Hst Hq Hr Hw Hev [Hph Hg] Hc] He. destruct (phase_report k e g a Hph He) as [Hp' Ho].
  split; try done. intros k' Hne. apply event_other; [by apply Ho|by apply Hev].
Qed.
Lemma joining_store_change k g p st a :
  joining k g p a → store_ok st (dom (sources a)) → joining k g p (set_store st a).
Proof. intros [Hst Hq Hr Hw Hev Hph Hc] Hst'. by split. Qed.
Lemma joining_known k g p a : joining k g p a → k ∈ dom (sources a) ∧ k ∉ pending_scopes a.
Proof.
  intros [_ [_ Ha _ _ _ Hd] Hr _ _ _ _]. apply elem_of_dom_2 in Hr. set_solver.
Qed.

(** The fields the invariants speak of: all but the reading count, the
    scheduler, the open flag and the backoff maps. *)
Definition view (a : RuntimeActor) :=
  (config a, clock a, sources a, store a, events a, workers a, next_id a, work_metadata a,
   active_required a, active_optional a, pending a, pending_scopes a, generations a,
   automatic_last_attempts a).
Lemma joining_view k g p a a' : view a' = view a → joining k g p a → joining k g p a'.
Proof.
  destruct a, a'. intros [= -> -> -> -> -> -> -> -> -> -> -> -> -> ->].
  intros [Hst Hq Hr Hw Hev Hph Hc]. by split.
Qed.
Lemma base_view a a' : view a' = view a → base_inv a → base_inv a'.
Proof.
  destruct a, a'. intros [= -> -> -> -> -> -> -> -> -> -> -> -> -> ->].
  intros [Hst Hq Hw Hev Hc]. by split.
Qed.

Definition reported (k : AccountScope) (g : Z) (a a' : RuntimeActor) : Prop :=
  joining k g (Some (Reported g)) a' ∧ same_setup a a' ∧ same_queue a a' ∧
  active_required a' = active_required a ∧ workers a' = workers a ∧ generations a' = generations a.
Lemma wp_publish_failure k g e a :
  joining k g (Some (Running g)) a →
  wp (publish_required_failure k g e) (λ _, reported k g a) a.
Proof.
  intros Hj. unfold publish_required_failure. apply wp_bind, wp_read_wall. intros t.
  apply wp_bind. apply (wp_exec k (ApplyFailure e) t (dom (sources a)));
    [apply Hj|by eapply joining_known|done|].
  intros b st Hst. unfold wp, emit, se_modify. split; [|done].
  apply joining_report; [|by right; eexists].
  apply joining_store_change; [|exact Hst]. by apply (joining_view k g _ a).
Qed.

Lemma wp_clear_reset k Q a :
  (∀ a', view a' = view a → Q tt a') → wp (clear_reset_boundary k) Q a.
Proof.
  intros HQ. unfold clear_reset_boundary. apply wp_bind, wp_read_wall. intros t.
  apply wp_bind, wp_with_scheduler. intros s r. by apply HQ.
Qed.
Lemma wp_reconcile k Q a :
  (∀ a', view a' = view a → Q tt a') → wp (actor_reconcile_reset_boundaries k) Q a.
Proof.
  intros HQ. unfold actor_reconcile_reset_boundaries. apply wp_bind. unfold wp at 1, se_gets.
  destruct (_ ≫= _) as [sample|]; [|by apply wp_clear_reset].
  apply wp_bind, wp_with_scheduler. intros s r. by apply HQ.
Qed.

(** What the result of a required task leads to: the slot is released, and
    free slots go to the head of the queue. *)
Record released (k : AccountScope) (a a' : RuntimeActor) : Prop := {
  released_inv : base_inv a';
  released_setup : same_setup a a';
  released_conserving : conserving a';
  released_queue : ∃ n, pending a' = drop n (pending a) ∧
    dom (active_required a') = dom (active_required a) ∖ {[k]} ∪ list_to_set (take n (pending a)).*1;
}.
Lemma finished_released k g a a' : finished k g a a' → released k a a'.
Proof. intros []. by split. Qed.
Lemma reported_finish k g a a1 :
  reported k g a a1 →
  wp (finish_required k g) (λ _ a2, finished k g a a2 ∧ k ∉ dom (active_required a2)) a1.
Proof.
  intros (Hj & (Hc & Hk & Hs) & (Hp & Hm) & Hr & Hw & Hg).
  destruct (joining_known _ _ _ _ Hj) as [_ Hkm].
  assert (k ∉ (pending a1).*1) as Hkp.
  { rewrite (queue_members _ _ _ _ _ (joining_queue _ _ _ _ Hj)) in Hkm.
    by rewrite elem_of_list_to_set in Hkm. }
  eapply wp_mono; [by apply wp_finish_required|].
  intros _ a2 [Hinv (Hc2 & Hk2 & Hs2) Hcons (n & Hp2 & Hd2) Hadd Hgens]. split.
  - split; [done|split_and!; congruence|done| | |by rewrite <-Hg].
    + exists n. by rewrite Hp2, Hd2, Hp, Hr.
    + intros k' g' Hk' Hun. apply Hadd; [by rewrite Hm|]. by rewrite Hw.
  - rewrite Hd2. rewrite elem_of_union, elem_of_difference, elem_of_list_to_set. intros [[_ Hx]|Hx].
    + set_solver.
    + destruct Hkp. apply list_elem_of_fmap in Hx as (y & -> & Hy).
      apply list_elem_of_fmap_2. apply list_elem_of_lookup in Hy as [i Hi].
      apply lookup_take_Some in Hi as [Hi _]. by eapply list_elem_of_lookup_2.
Qed.

Lemma base_set_work ws nid meta opt a :
  base_inv a → let a' := set_work ws nid meta opt a in work_of a' → base_inv a'.
Proof. intros [Hst Hq _ Hev Hc] a' Hw. by split. Qed.

Definition result_ok_for {A} (r : Result ClassifiedError A) : Prop :=
  match r with Err e => error_ok e | Ok _ => True end.

Lemma reported_view k g a a0 a' : view a0 = view a → reported k g a0 a' → reported k g a a'.
Proof.
  intros Hv (Hj & (Hc & Hk & Hs) & (Hp & Hm) & Hr & Hw & Hg).
  injection Hv as E1 E2 E3 E4 E5 E6 E7 E8 E9 E10 E11 E12 E13 E14.
  split; [done|]. unfold same_setup, same_queue. split_and!; congruence.
Qed.

Lemma wp_handle_required k g r a :
  joining k g (Some (Running g)) a → (no_history (sources a) k → unused (workers a) (k, g)) →
  result_ok_for r → wp (handle_required k g r) (λ _, released k a) a.
Proof.
  intros Hj Hun Hr. pose proof (joining_active _ _ _ _ Hj) as Hact.
  destruct (joining_known _ _ _ _ Hj) as [Hk Hkm].
  unfold handle_required. apply wp_bind. unfold wp at 1, se_gets, required_is_current.
  rewrite Hact, bool_decide_eq_true_2 by done. cbn [negb].
  destruct r as [m|e].
  - case_bool_decide as Hm.
    + apply wp_bind. unfold wp at 1, se_modify. apply wp_bind. unfold wp at 1, se_modify.
      apply wp_bind, wp_read_wall. intros t. apply wp_bind.
      apply (wp_exec k (ApplySuccess m) t (dom (sources a))); [apply Hj|done| |].
      { cbn. by rewrite bool_decide_eq_true_2. }
      intros b st Hst. apply wp_bind, wp_reconcile. intros a1 Hv1.
      assert (joining k g (Some (Running g)) a1) as Hj1.
      { apply (joining_view k g _ (set_store st a)); [exact Hv1|]. by apply joining_store_change. }
      apply wp_bind. unfold wp at 1, emit, se_modify.
      injection Hv1 as E1 E2 E3 E4 E5 E6 E7 E8 E9 E10 E11 E12 E13 E14. cbn in *.
      apply wp_bind. eapply wp_mono.
      * apply (reported_finish k g a). split; [|cbn; split_and!; done].
        apply joining_report; [done|by left].
      * intros ? a2 [Hfin Hk2]. destruct (finished_setup _ _ _ _ Hfin) as (_ & _ & Hs2).
        apply wp_bind, wp_source_of; [rewrite Hs2; by apply elem_of_dom|].
        intros s Hs. case_bool_decide as Hh; [by eapply finished_released|].
        apply wp_spawn_optional.
        -- apply Hfin.
        -- by eexists.
        -- exact (Z.le_trans _ _ _ (proj2 (joining_phase _ _ _ _ Hj)) (finished_gens _ _ _ _ Hfin)).
        -- eapply (finished_adds _ _ _ _ Hfin); [done|]. apply Hun.
           intros s' Hs'. rewrite Hs2 in Hs. assert (s' = s) as -> by congruence.
           destruct (local_history_scope s); [|done]. destruct Hh. by eexists.
        -- intros Ha2. destruct Hk2. by eapply elem_of_dom_2.
        -- intros ws nid meta opt _ a3 Hw3. destruct (finished_released _ _ _ _ Hfin).
           split; [by apply base_set_work|done..].
    + apply wp_bind. eapply wp_mono; [by apply wp_publish_failure|].
      intros ? a1 Hrep. eapply wp_mono; [exact (reported_finish k g a a1 Hrep)|].
      intros ? a2 [Hfin _]. by eapply finished_released.
  - apply wp_bind, wp_record_backoff; [apply Hj|done|]. intros rd fl cd.
    match goal with |- wp _ _ ?a0 => assert (view a0 = view a) as Hv by reflexivity;
      generalize dependent a0 end.
    intros a1 Hv1. apply wp_bind.
    assert (wp (if negb (bool_decide (ClassifiedError.retry e = Automatic))
                then clear_reset_boundary k else mret tt) (λ _ a2, view a2 = view a) a1) as Hclear.
    { case_bool_decide; cbn [negb]; [done|]. apply wp_clear_reset. intros. congruence. }
    eapply wp_mono; [exact Hclear|]. intros ? a2 Hv2.
    apply wp_bind. eapply wp_mono.
    { apply wp_publish_failure. by apply (joining_view k g _ a). }
    intros ? a3 Hrep. eapply wp_mono; [apply (reported_finish k g a)|].
    + by apply (reported_view k g a a2).
    + intros ? a4 [Hfin _]. by eapply finished_released.
Qed.

(** ** Optional results *)
(** Nothing but the store, the events and the join set changes. *)
Record kept (a a' : RuntimeActor) : Prop := {
  kept_inv : base_inv a';
  kept_setup : same_setup a a';
  kept_queue : same_queue a a';
  kept_active : active_required a' = active_required a;
}.
Lemma kept_refl a : base_inv a → kept a a.
Proof. by split. Qed.
Lemma base_emit_optional e a :
  (∀ k p, phase_step k e p = p) → base_inv a → base_inv (set_events (e :: events a) a).
Proof.
  intros He [Hst Hq Hw Hev Hc]. split; [done..| |done]. intros k.
  apply event_other; [by apply He|by apply Hev].
Qed.
Lemma wp_emit_optional e a0 a :
  (∀ k p, phase_step k e p = p) → kept a0 a → wp (emit e) (λ _, kept a0) a.
Proof.
  intros He [Hi Hs Hq Ha]. unfold wp, emit, se_modify.
  split; [by apply base_emit_optional|done..].
Qed.
Lemma kept_store st a0 a : kept a0 a → store_ok st (dom (sources a0)) → kept a0 (set_store st a).
Proof.
  intros [[_ Hq Hw Hev Hc] (Hcf & Hck & Hs) Hsq Ha] Hst. split; [split| |done|done]; try done.
  change (store_ok st (dom (sources a))). by rewrite Hs.
Qed.
Lemma kept_view a0 a a' : view a' = view a → kept a0 a → kept a0 a'.
Proof.
  intros Hv [Hi (Hc & Hk & Hs) (Hp & Hm) Ha].
  pose proof (base_view _ _ Hv Hi) as Hi'. injection Hv as E1 E2 E3 E4 E5 E6 E7 E8 E9 E10 E11 E12 E13 E14.
  split; [done|..]; unfold same_setup, same_queue; split_and?; congruence.
Qed.

Lemma wp_read_wall_kept a0 a (Q : Timestamp → RuntimeActor → Prop) :
  kept a0 a → (∀ t a', kept a0 a' → sources a' = sources a → Q t a') → wp read_wall Q a.
Proof. intros Hk HQ. apply wp_read_wall. intros t. apply HQ; [|done]. by apply (kept_view a0 a). Qed.

(** The part of [handle_optional] after the work is dropped. *)
Lemma wp_apply_optional k g base r a0 a :
  kept a0 a → k ∈ dom (sources a0) →
  wp (source ← source_of k;
      match local_history_scope source with
      | Some history_scope =>
          generated_at ← read_wall;
          match r with
          | Ok data =>
              let state := if bool_decide (is_Some data) then HistoryReady else HistoryEmpty in
              _ ← with_store (apply_local_history k
                    (LocalHistorySnapshot.mk history_scope state data) generated_at);
              emit (OptionalEnrichmentPublished k g)
          | Err error =>
              _ ← with_store (mark_history_state k HistoryFailed generated_at);
              emit (OptionalEnrichmentFailed k g error)
          end
      | None =>
          match r with
          | Ok (Some cost_usage) =>
              generated_at ← read_wall;
              applied ← with_store (apply_cost_usage k base cost_usage generated_at);
              if (applied : bool) then emit (OptionalEnrichmentPublished k g) else mret tt
          | Ok None => mret tt
          | Err error => emit (OptionalEnrichmentFailed k g error)
          end
      end) (λ _, kept a0) a.
Proof.
  intros Hkept Hk. destruct (kept_setup _ _ Hkept) as (_ & _ & Hs).
  apply wp_bind, wp_source_of; [rewrite Hs; by apply elem_of_dom|]. intros s _.
  destruct (local_history_scope s) as [h|].
  - apply wp_bind. apply (wp_read_wall_kept a0 a); [done|]. intros t a1 Hkept1 Hs1.
    pose proof (base_store _ (kept_inv _ _ Hkept1)) as Hst1. rewrite Hs1, Hs in Hst1.
    destruct r as [data|e]; apply wp_bind.
    + eapply (wp_exec k (ApplyLocalHistory _) t); [exact Hst1|done|done|].
      intros b st Hst. apply wp_emit_optional; [done|]. by apply kept_store.
    + eapply wp_mark_history; [exact Hst1|done|].
      intros st Hst. apply wp_emit_optional; [done|]. by apply kept_store.
  - destruct r as [[c|]|e].
    + apply wp_bind. apply (wp_read_wall_kept a0 a); [done|]. intros t a1 Hkept1 Hs1.
      pose proof (base_store _ (kept_inv _ _ Hkept1)) as Hst1. rewrite Hs1, Hs in Hst1.
      apply wp_bind. eapply (wp_exec k (ApplyCostUsage base c) t); [exact Hst1|done|done|].
      intros [] st Hst; [apply wp_emit_optional; [done|]|]; by apply kept_store.
    + exact Hkept.
    + by apply wp_emit_optional.
Qed.

(** ** Joining a task *)
(** The state in which the handler of a result runs. *)
Definition after_join (i : Id) (a : RuntimeActor) : RuntimeActor :=
  set_work_metadata (delete i (work_metadata a)) (set_workers (delete i (workers a)) a).

Lemma join_required a i w k g :
  base_inv a → workers a !! i = Some w → required_key (task w) = Some (k, g) →
  joining k g (Some (Running g)) (after_join i a) ∧
  (no_history (sources a) k → unused (delete i (workers a)) (k, g)).
Proof.
  intros [Hst Hq Hw Hev Hc] Hi Hkey.
  assert (active_required a !! k = Some g) as Hact by (apply Hw; eauto).
  split; [split|]; cbn; try done.
  - by apply (work_join_required _ _ _ _ _ _ _ i w k g).
  - specialize (Hev k). by rewrite Hact in Hev.
  - intros Hn id w' [_ Hid]%lookup_delete_Some. by eapply (work_reserved _ _ _ _ _ _ _ Hw).
Qed.

(** A cancelled or superseded result is ignored, a current one drops the work. *)
Lemma join_optional a i w k g :
  base_inv a → workers a !! i = Some w → optional_key (task w) = Some (k, g) →
  k ∈ dom (sources a) ∧
  (if aborted w then optional_is_current a k g = false ∧ base_inv (after_join i a)
   else optional_is_current a k g = true ∧
        base_inv (set_active_optional (delete k (active_optional a)) (after_join i a))).
Proof.
  intros [Hst Hq Hw Hev Hc] Hi Hkey.
  pose proof (work_optional_current _ _ _ _ _ _ _ i w k g Hw Hi Hkey) as Hcur.
  pose proof (work_join_optional _ _ _ _ _ _ _ i w k g Hw Hi Hkey) as Hw'.
  split.
  - pose proof (work_known _ _ _ _ _ _ _ Hw i w Hi) as Hkn.
    destruct (optional_key_scope _ _ _ Hkey) as [<- _]. by apply elem_of_dom.
  - unfold optional_is_current. destruct (aborted w); cbn.
    + split; [|by split]. destruct (active_optional a !! k) as [o|]; [|done].
      apply Z.eqb_neq. intuition discriminate.
    + split; [|by split]. destruct (active_optional a !! k) as [o|]; [|intuition].
      apply Z.eqb_eq. tauto.
Qed.

(** ** Admission *)
Lemma wp_start_history_only k tr a :
  base_inv a → k ∈ dom (sources a) → wp (start_history_only k tr) (λ _, kept a) a.
Proof.
  intros Ha Hk. pose proof Hk as [s Hs]%elem_of_dom. unfold start_history_only.
  apply wp_bind, wp_source_of; [by eexists|]. intros s' Hs'.
  assert (s' = s) as -> by congruence. clear Hs'.
  apply wp_bind. unfold wp at 1, se_gets.
  destruct (local_history_scope s) as [h|] eqn:Hh; [|by apply kept_refl].
  destruct (active_optional a !! k) as [o|] eqn:Ho; [by apply kept_refl|].
  destruct a as [cf ck rd sc src st0 op ev ws0 nid mt rq opt0 pd ps gn cd fl la].
  destruct Ha as [Hst Hq Hw Hev Hc]. cbn in Hst, Hq, Hw, Hev, Hc, Hk, Hs, Ho.
  apply wp_bind, wp_next_generation. flatten. intros g Hg.
  destruct (generation_insert gn k g k Hg) as [_ Hgk].
  assert (unused ws0 (k, g)) as Hun by (eapply work_unused; [exact Hw|]; subst g; lia).
  apply (work_raise _ _ (<[k := g]> gn)) in Hw; [|intros k'; by apply (generation_insert gn)].
  apply wp_bind, wp_read_wall. intros t. flatten. apply wp_bind.
  apply (wp_mark_history _ _ _ (dom src)); [done..|]. intros st Hst'. flatten.
  apply wp_spawn_optional; [exact Hw|by eexists|cbn [generations]; by rewrite Hgk|done| |].
  - intros _ Hn. specialize (Hn s Hs). congruence.
  - intros ws nid' meta opt _. unfold set_work. flatten. intros Hw'.
    split; [split|done..]; cbn; try done.
    intros k'. eapply event_raise; [apply Hev|by apply (generation_insert gn)].
Qed.

Lemma kept_conserving a a' : kept a a' → conserving a → conserving a'.
Proof.
  intros [_ (Hc & _ & _) (Hp & _) Ha] Hcons. unfold conserving. by rewrite Hp, Hc, Ha.
Qed.
Lemma queue_push limit known req waiting members k tr :
  queue_inv limit known req waiting members → k ∈ known → req !! k = None → k ∉ members →
  queue_inv limit known req (waiting ++ [(k, tr)]) ({[k]} ∪ members).
Proof.
  intros [Hb Ha Hm Hu Hkn Hd] Hk Hr Hnm. split; try done.
  - rewrite fmap_app, Hm, list_to_set_app_L. cbn. set_solver.
  - rewrite fmap_app. apply NoDup_app. split_and!; [done| |apply NoDup_singleton].
    intros j Hj ->%list_elem_of_singleton. destruct Hnm. by rewrite Hm, elem_of_list_to_set.
  - set_solver.
  - assert (k ∉ dom req) by by apply not_elem_of_dom. set_solver.
Qed.

(** The two reasons to hold an automatic refresh back, at the clock readings
    this admission makes: a running backoff, and for a periodic refresh an
    attempt less than the provider's minimum interval ago. *)
Definition backing_off (a : RuntimeActor) (k : AccountScope) : Prop :=
  ∃ until, automatic_cooldowns a !! k = Some until ∧ monotonic_now (clock a (reads a)) < until.
Definition just_attempted (a : RuntimeActor) (k : AccountScope) (n : nat) : Prop :=
  ∃ last, automatic_last_attempts a !! k = Some last ∧
    monotonic_now (clock a n) < last + automatic_minimum_interval (AccountScope.provider k).
Definition held_back (k : AccountScope) (tr : RefreshTrigger) (a : RuntimeActor) : Prop :=
  tr ≠ ManualTrigger ∧
  (backing_off a k ∨
   tr = PeriodicTrigger ∧ ∃ n, (n = reads a ∨ n = S (reads a)) ∧ just_attempted a k n).
Definition let_through (k : AccountScope) (tr : RefreshTrigger) (a : RuntimeActor) : Prop :=
  tr = ManualTrigger ∨
  (¬ backing_off a k ∧
   (tr = PeriodicTrigger → ∃ n, (n = reads a ∨ n = S (reads a)) ∧ ¬ just_attempted a k n)).

Lemma wp_cooling_down k a :
  wp (cooling_down k) (λ c a', view a' = view a ∧ (c = true ↔ backing_off a k) ∧
        (reads a' = reads a ∨ reads a' = S (reads a)) ∧
        automatic_last_attempts a' = automatic_last_attempts a) a.
Proof.
  unfold cooling_down, backing_off. apply wp_bind. unfold wp at 1, se_gets.
  destruct (automatic_cooldowns a !! k) as [until|].
  - apply wp_bind, wp_read_monotonic. unfold wp, mret, SE_ret.
    split; [done|]. split; [|split; [by right|done]]. rewrite Z.ltb_lt. naive_solver.
  - split; [done|]. split; [naive_solver|]. split; [by left|done].
Qed.
Lemma minimum_interval_bound p : 0 ≤ automatic_minimum_interval p ≤ from_mins 60.
Proof. destruct p; by split; vm_compute. Qed.
Lemma wp_too_recent k a :
  clock_inv (clock a) (automatic_last_attempts a) →
  wp (too_recent k) (λ c a', view a' = view a ∧ (c = true ↔ just_attempted a k (reads a))) a.
Proof.
  intros Hcl. unfold too_recent, just_attempted. apply wp_bind. unfold wp at 1, se_gets.
  destruct (automatic_last_attempts a !! k) as [t|] eqn:Ht; [|split; [done|naive_solver]].
  pose proof (minimum_interval_bound (AccountScope.provider k)) as Hb.
  apply wp_bind. unfold wp at 1, se_lift, instant_add, instant_checked_add.
  destruct (Z.leb_spec (t + automatic_minimum_interval (AccountScope.provider k)) INSTANT_MAX);
    cbn [ok_or].
  - apply wp_bind, wp_read_monotonic. unfold wp, mret, SE_ret.
    split; [done|]. rewrite Z.ltb_lt. naive_solver.
  - destruct strict eqn:Hstrict; [|by right; right]. exfalso.
    destruct (Hcl Hstrict) as (Hh & _ & Hm). specialize (Hm k t Ht). cbn in Hm. lia.
Qed.

(** What each admission means. *)
Definition busy (a : RuntimeActor) (k : AccountScope) : Prop :=
  is_Some (active_required a !! k) ∨ k ∈ pending_scopes a.
Definition admitted (k : AccountScope) (tr : RefreshTrigger) (a : RuntimeActor)
    (r : RefreshAdmission) (a' : RuntimeActor) : Prop :=
  match r with
  | UnknownScopeAdmission => sources a !! k = None ∧ a' = a
  | Coalesced => kept a a' ∧ (busy a k ∧ a' = a ∨ ¬ busy a k ∧ held_back k tr a)
  | Started => ¬ busy a k ∧ let_through k tr a ∧ same_queue a a' ∧
      Z.of_nat (size (active_required a)) < max_in_flight (limits (config a)) ∧
      ∃ g, active_required a' = <[k := g]> (active_required a) ∧
           events a' = RefreshStarted k g tr :: events a
  | Queued => ¬ busy a k ∧ let_through k tr a ∧ active_required a' = active_required a ∧
      max_in_flight (limits (config a)) ≤ Z.of_nat (size (active_required a)) ∧
      pending a' = pending a ++ [(k, tr)] ∧ events a' = events a
  end.
Definition actor_inv (a : RuntimeActor) : Prop := base_inv a ∧ conserving a.

Lemma wp_coalesce k tr a a1 :
  actor_inv a → k ∈ dom (sources a) → ¬ busy a k → held_back k tr a → view a1 = view a →
  wp (_ ← start_history_only k tr; mret Coalesced)
    (λ r a', actor_inv a' ∧ same_setup a a' ∧ admitted k tr a r a') a1.
Proof.
  intros [Ha Hcons] Hk Hb Htr Hv. pose proof (base_view _ _ Hv Ha) as Ha1.
  assert (kept a a1) as Hk1 by (apply (kept_view a a); [done|by apply kept_refl]).
  apply wp_bind. eapply wp_mono.
  { apply wp_start_history_only; [done|]. by destruct (kept_setup _ _ Hk1) as (_ & _ & ->). }
  intros ? a2 Hk2. cbn in Hk2. unfold wp, mret, SE_ret.
  assert (kept a a2) as Hk12.
  { destruct Hk1 as [_ (Hc & Hck & Hs) (Hp & Hm) Hac], Hk2 as [Hi2 (Hc2 & Hck2 & Hs2) (Hp2 & Hm2) Hac2].
    split; [done|..]; unfold same_setup, same_queue; split_and?; congruence. }
  split; [split; [by apply Hk12|by eapply kept_conserving]|]. split; [apply Hk12|].
  split; [exact Hk12|]. by right.
Qed.

(** Free slot: the refresh starts; otherwise it joins the queue's tail. *)
Lemma wp_admit_start k tr a a1 :
  actor_inv a → k ∈ dom (sources a) → ¬ busy a k → let_through k tr a → view a1 = view a →
  Z.of_nat (size (active_required a)) < max_in_flight (limits (config a)) →
  wp (_ ← start_required k tr; mret Started)
    (λ r a', actor_inv a' ∧ same_setup a a' ∧ admitted k tr a r a') a1.
Proof.
  intros [Ha Hcons] Hk Hb Hthru Hv Hlt. pose proof (base_view _ _ Hv Ha) as Ha1.
  injection Hv as E1 E2 E3 E4 E5 E6 E7 E8 E9 E10 E11 E12 E13 E14.
  assert (active_required a !! k = None) as Hr by (apply eq_None_not_Some; unfold busy in Hb; tauto).
  apply wp_bind. eapply wp_mono.
  { apply wp_start_required; [done|by rewrite E3|by rewrite E9|rewrite E12; unfold busy in Hb; tauto|].
    by rewrite E9, E1. }
  intros ? a2 [Hi2 (Hc2 & Hck2 & Hs2) (Hp2 & Hm2) (g & Hr2 & He2) _ _]. unfold wp, mret, SE_ret.
  assert (pending a = []) as Hnil.
  { destruct (pending a) eqn:E; [done|]. exfalso. assert (pending a ≠ []) as Hne by congruence.
    specialize (Hcons Hne). lia. }
  split; [split; [done|]|split].
  - intros Hne. destruct Hne. congruence.
  - unfold same_setup. split_and!; congruence.
  - cbn. split; [done|]. split; [done|]. split; [unfold same_queue; split; congruence|]. split; [done|].
    exists g. split; congruence.
Qed.

Lemma wp_admit_queue k tr a a1 :
  actor_inv a → k ∈ dom (sources a) → ¬ busy a k → let_through k tr a → view a1 = view a →
  max_in_flight (limits (config a)) ≤ Z.of_nat (size (active_required a)) →
  wp (scheduled_at ← read_wall;
      _ ← with_store (mark_scheduled k scheduled_at scheduled_at);
      a ← se_gets id;
      _ ← (if bool_decide (k ∈ pending_scopes a) then panic
           else se_modify (set_pending_scopes ({[k]} ∪ pending_scopes a)));
      _ ← se_modify (λ a, set_pending (pending a ++ [(k, tr)]) a);
      mret Queued)
    (λ r a', actor_inv a' ∧ same_setup a a' ∧ admitted k tr a r a') a1.
Proof.
  intros [Ha Hcons] Hk Hb Hthru Hv Hge. pose proof (base_view _ _ Hv Ha) as Ha1.
  injection Hv as E1 E2 E3 E4 E5 E6 E7 E8 E9 E10 E11 E12 E13 E14.
  assert (active_required a !! k = None) as Hr by (apply eq_None_not_Some; unfold busy in Hb; tauto).
  assert (k ∉ pending_scopes a) as Hp by (unfold busy in Hb; tauto).
  destruct Ha1 as [Hst Hq Hw Hev Hc].
  apply wp_bind, wp_read_wall. intros t. apply wp_bind.
  apply (wp_exec k (MarkScheduled t) t (dom (sources a))); [by rewrite <-E3|done..|].
  intros b st Hst'. apply wp_bind. unfold wp at 1, se_gets. cbn [id].
  apply wp_bind. change (pending_scopes (set_store st (set_reads (S (reads a1)) a1)))
    with (pending_scopes a1). rewrite bool_decide_eq_false_2 by by rewrite E12.
  unfold wp at 1, se_modify. apply wp_bind. unfold wp at 1, se_modify.
  unfold wp, mret, SE_ret. split; [split; [split|]|split].
  - cbn. by rewrite E3.
  - cbn. apply queue_push; [done|by rewrite E3|by rewrite E9|by rewrite E12].
  - exact Hw.
  - exact Hev.
  - exact Hc.
  - intros _. cbn. by rewrite E1, E9.
  - unfold same_setup. cbn. split_and!; congruence.
  - cbn. split_and!; congruence.
Qed.

Lemma wp_admit_refresh k tr a :
  actor_inv a →
  wp (admit_refresh k tr) (λ r a', actor_inv a' ∧ same_setup a a' ∧ admitted k tr a r a') a.
Proof.
  intros Ha. pose proof Ha as [Hbase Hcons]. unfold admit_refresh.
  apply wp_bind. unfold wp at 1, se_gets. cbn [id].
  case_bool_decide as Hs; cbn [negb].
  2: { split; [done|]. split; [done|]. split; [|done]. by apply eq_None_not_Some. }
  destruct (bool_decide (is_Some (active_required a !! k)) || bool_decide (k ∈ pending_scopes a))
    eqn:Hbz.
  { split; [done|]. split; [done|]. split; [by apply kept_refl|]. left. split; [|done].
    apply orb_true_iff in Hbz as [Hx|Hx]; apply bool_decide_eq_true in Hx; [by left|by right]. }
  assert (¬ busy a k) as Hb.
  { apply orb_false_iff in Hbz as [Hx Hy].
    apply bool_decide_eq_false in Hx, Hy. by intros [?|?]. }
  clear Hbz. assert (k ∈ dom (sources a)) as Hk by by apply elem_of_dom.
  apply wp_bind. eapply (wp_mono _ (λ c a1, view a1 = view a ∧
    (reads a1 = reads a ∨ reads a1 = S (reads a)) ∧
    automatic_last_attempts a1 = automatic_last_attempts a ∧
    (if (c : bool) then tr ≠ ManualTrigger ∧ backing_off a k
     else tr = ManualTrigger ∨ ¬ backing_off a k))).
  { case_bool_decide; [by unfold wp, mret, SE_ret; split_and!; try done; left|].
    eapply wp_mono; [apply wp_cooling_down|]. intros c a1 (? & Hc & ? & ?). split_and!; [done..|].
    destruct c; [split; [done|by apply Hc]|right; by intros Hx%Hc]. }
  intros cooling a1 (Hv1 & Hr1 & Hl1 & Hc1).
  destruct cooling.
  { destruct Hc1 as [Htr Hbo]. apply wp_coalesce; [done..|split; [done|by left]|done]. }
  assert (clock a1 = clock a) as Eclock.
  { by injection Hv1 as E1 E2 E3 E4 E5 E6 E7 E8 E9 E10 E11 E12 E13 E14. }
  apply wp_bind. eapply (wp_mono _ (λ c a2, view a2 = view a ∧
    (if (c : bool) then held_back k tr a else let_through k tr a))).
  { case_bool_decide as Hper.
    - subst tr. destruct Hc1 as [|Hnb]; [done|].
      eapply wp_mono; [apply wp_too_recent; by apply (base_view _ _ Hv1)|].
      intros c a2 [Hv2 Hc]. split; [congruence|].
      unfold just_attempted in Hc. rewrite Eclock, Hl1 in Hc. destruct c.
      + split; [done|]. right. split; [done|]. exists (reads a1). split; [done|]. by apply Hc.
      + right. split; [done|]. intros _. exists (reads a1). split; [done|].
        intros Hx%Hc. done.
    - unfold wp, mret, SE_ret. split; [done|]. destruct Hc1 as [|Hnb]; [by left|].
      right. split; [done|]. by intros. }
  intros recent a2 [Hv2 Hc2]. destruct recent; [by apply wp_coalesce|].
  apply wp_bind. unfold wp at 1, se_gets. cbn [id].
  assert (active_required a2 = active_required a ∧ config a2 = config a) as [Ea Ec].
  { by injection Hv2 as E1 E2 E3 E4 E5 E6 E7 E8 E9 E10 E11 E12 E13 E14. }
  rewrite Ea, Ec. destruct (Z.ltb_spec (Z.of_nat (size (active_required a)))
    (max_in_flight (limits (config a)))) as [Hlt|Hge].
  - by apply wp_admit_start.
  - by apply wp_admit_queue.
Qed.

(** ** Turns of the loop *)
(** A turn that completes no refresh: the queue only grows, at its end. *)
Definition turned (a a' : RuntimeActor) : Prop :=
  actor_inv a' ∧ same_setup a a' ∧ pending a `prefix_of` pending a'.
Lemma turned_refl a : actor_inv a → turned a a.
Proof. by split. Qed.
Lemma turned_trans a a1 a2 : turned a a1 → turned a1 a2 → turned a a2.
Proof.
  intros (_ & (Hc & Hk & Hs) & Hp) (Hi & (Hc2 & Hk2 & Hs2) & Hp2).
  split; [done|]. split; [unfold same_setup; split_and!; congruence|]. by etrans.
Qed.
Lemma admitted_turned k tr a r a' :
  actor_inv a' → same_setup a a' → admitted k tr a r a' → turned a a'.
Proof.
  intros Hi Hs Ha. split; [done|]. split; [done|]. destruct r; cbn in Ha.
  - destruct Ha as (_ & _ & [-> _] & _). done.
  - destruct Ha as (_ & _ & _ & _ & -> & _). by eexists.
  - destruct Ha as ([_ _ [-> _] _] & _). done.
  - by destruct Ha as [_ ->].
Qed.
Lemma wp_admit_turned k tr a0 a :
  turned a0 a → wp (_ ← admit_refresh k tr; mret tt) (λ _, turned a0) a.
Proof.
  intros Ht. apply wp_bind. eapply wp_mono; [apply wp_admit_refresh, Ht|].
  intros r a' (Hi & Hs & Ha). eapply turned_trans; [exact Ht|]. by eapply admitted_turned.
Qed.
Lemma turned_view a0 a a' : view a' = view a → turned a0 a → turned a0 a'.
Proof.
  intros Hv ([Hi Hcons] & (Hc & Hk & Hs) & Hp). pose proof (base_view _ _ Hv Hi) as Hi'.
  injection Hv as E1 E2 E3 E4 E5 E6 E7 E8 E9 E10 E11 E12 E13 E14.
  split; [split; [done|unfold conserving; by rewrite E1, E9, E11]|].
  split; [unfold same_setup; split_and!; congruence|by rewrite E11].
Qed.

Lemma wp_schedule_due a : actor_inv a → wp handle_schedule_due (λ _, turned a) a.
Proof.
  intros Ha. unfold handle_schedule_due. apply wp_bind, wp_with_scheduler. intros s due.
  apply wp_for; [|by apply (turned_view a a); [|apply turned_refl]].
  intros [|k b] a1 _ Ht; [|by apply wp_admit_turned].
  apply wp_bind. unfold wp at 1, se_gets. apply wp_for; [|done].
  intros k a2 _ Ht2. by apply wp_admit_turned.
Qed.

Lemma wp_handle_command c a : actor_inv a → wp (handle_command c) (λ _, turned a) a.
Proof.
  intros Ha. pose proof (turned_refl a Ha) as Hrefl. destruct c as [k tr|open|k b]; cbn [handle_command].
  - apply wp_bind. eapply wp_mono; [by apply wp_admit_refresh|].
    intros r a' (Hi & Hs & Had). by eapply admitted_turned.
  - apply wp_bind, wp_with_scheduler. intros s tr. apply wp_bind.
    eapply (wp_mono _ (λ _, turned a)); [|by intros].
    destruct (tr && open); [|by apply (turned_view a a)].
    apply wp_bind. unfold wp at 1, se_gets. apply wp_for; [|by apply (turned_view a a)].
    intros k a1 _ Ht. by apply wp_admit_turned.
  - apply wp_bind. unfold wp at 1, se_gets. case_bool_decide as Hk; cbn [negb]; [|done].
    apply wp_bind, wp_with_scheduler. intros s r.
    match goal with |- wp _ _ ?a0 => assert (turned a a0) as Ht by (by apply (turned_view a a));
      assert (sources a0 = sources a) as Es by reflexivity; generalize dependent a0 end.
    intros a1 Ht Es. apply wp_bind. eapply (wp_mono _ (λ _, turned a)); [|by intros].
    destruct r as [[]|e]; cbn; [|done..].
    apply wp_bind, wp_read_wall. intros t. apply wp_bind.
    destruct Ht as ([Hb Hcons] & Hs & Hp).
    apply (wp_exec k (MarkScheduled b) t (dom (sources a1))); [apply Hb|by rewrite Es; apply elem_of_dom|done|].
    intros x st Hst. unfold wp, mret, SE_ret. destruct Hb as [_ Hq Hw Hev Hc].
    split; [split; [by split|exact Hcons]|by split].
Qed.

(** ** Worker results *)
Definition joined_ok (joined : Result JoinError (Id * WorkerExit)) : Prop :=
  match joined with
  | Ok (_, RequiredExit _ _ r) => result_ok_for r
  | _ => True
  end.
(** An input of the loop reports only delays within the horizon. *)
Definition input_ok (i : ActorInput) : Prop :=
  match i with WorkerJoined joined => joined_ok joined | _ => True end.

Lemma wp_handle_optional k g base r i w a :
  actor_inv a → workers a !! i = Some w → optional_key (task w) = Some (k, g) →
  wp (handle_optional k g base r) (λ _, turned a) (after_join i a).
Proof.
  intros [Hb Hcons] Hi Hkey. destruct (join_optional a i w k g Hb Hi Hkey) as [Hk Hcur].
  unfold handle_optional. apply wp_bind. unfold wp at 1, se_gets.
  change (optional_is_current (after_join i a) k g) with (optional_is_current a k g).
  destruct (aborted w); destruct Hcur as [-> Hb']; cbn [negb].
  - split; [by split|]. by split.
  - apply wp_bind. unfold wp at 1, drop_optional, se_modify.
    match goal with |- wp _ _ ?a0 => assert (kept a0 a0) as Hk0 by (by apply kept_refl);
      assert (turned a a0) as Ht0 by (split; [by split|by split]);
      assert (sources a0 = sources a) as Es by reflexivity; generalize dependent a0 end.
    intros a1 Hk1 Ht1 Es. eapply wp_mono; [apply (wp_apply_optional k g base r a1); [done|by rewrite Es]|].
    intros ? a2 Hk2. cbn in Hk2. eapply turned_trans; [exact Ht1|].
    split; [split; [apply Hk2|]|split; [apply Hk2|]].
    + eapply kept_conserving; [exact Hk2|]. apply Ht1.
    + by destruct (kept_queue _ _ Hk2) as [-> _].
Qed.

(** A task that panicked or was cancelled, by what the metadata says it was. *)
Lemma wp_abnormal_required k g e a :
  joining k g (Some (Running g)) a →
  wp (handle_abnormal_worker (Some (RequiredMetadata k g)) e) (λ _, released k a) a.
Proof.
  intros Hj. cbn [handle_abnormal_worker]. apply wp_bind. unfold wp at 1, se_gets, required_is_current.
  rewrite (joining_active _ _ _ _ Hj), bool_decide_eq_true_2 by done. cbn [negb].
  apply wp_bind, wp_record_backoff; [apply Hj|by intros ? w|]. intros rd fl cd.
  match goal with |- wp _ _ ?a0 => assert (view a0 = view a) as Hv by reflexivity;
    generalize dependent a0 end.
  intros a1 Hv. apply wp_bind. eapply wp_mono.
  { apply wp_publish_failure. by apply (joining_view k g _ a). }
  intros ? a2 Hrep. eapply wp_mono; [apply (reported_finish k g a)|].
  - by apply (reported_view k g a a1).
  - intros ? a3 [Hfin _]. by eapply finished_released.
Qed.
Lemma wp_abnormal_optional k g e i w a :
  actor_inv a → workers a !! i = Some w → optional_key (task w) = Some (k, g) →
  wp (handle_abnormal_worker (Some (OptionalMetadata k g)) e) (λ _, turned a) (after_join i a).
Proof.
  intros [Hb Hcons] Hi Hkey. destruct (join_optional a i w k g Hb Hi Hkey) as [Hk Hcur].
  cbn [handle_abnormal_worker]. apply wp_bind. unfold wp at 1, se_gets.
  change (optional_is_current (after_join i a) k g) with (optional_is_current a k g).
  destruct (aborted w); destruct Hcur as [-> Hb']; cbn [negb].
  - split; [by split|]. by split.
  - apply wp_bind. unfold wp at 1, drop_optional, se_modify.
    match goal with |- wp _ _ ?a0 => assert (kept a0 a0) as Hk0 by (by apply kept_refl);
      assert (turned a a0) as Ht0 by (split; [by split|by split]);
      assert (sources a0 = sources a) as Es by reflexivity; generalize dependent a0 end.
    intros a1 Hk1 Ht1 Es. apply wp_bind. apply (wp_read_wall_kept a1 a1); [done|].
    intros t a2 Hk2 Es2. apply wp_bind.
    eapply wp_mark_history; [apply Hk2|by rewrite Es2, Es|]. intros st Hst. rewrite Es2 in Hst.
    eapply (wp_mono _ (λ _, kept a1)).
    { destruct (is_cancelled e); [|apply wp_emit_optional; [done|]]; by apply kept_store. }
    intros ? a3 Hk3. cbn in Hk3. eapply turned_trans; [exact Ht1|].
    split; [split; [apply Hk3|]|split; [apply Hk3|]].
    + eapply kept_conserving; [exact Hk3|]. apply Ht1.
    + by destruct (kept_queue _ _ Hk3) as [-> _].
Qed.

(** Releasing a slot hands it to the head of the queue, and to no other. *)
Definition handed_over (a a' : RuntimeActor) : Prop :=
  actor_inv a' ∧ same_setup a a' ∧ pending a' = tail (pending a) ∧
  ∀ k tr, head (pending a) = Some (k, tr) → is_Some (active_required a' !! k).
Lemma size_take_fst (l : list (AccountScope * RefreshTrigger)) n :
  NoDup l.*1 → size (list_to_set (take n l).*1 : gset AccountScope) = (n `min` length l)%nat.
Proof.
  intros Hnd. rewrite size_list_to_set; [by rewrite length_fmap, length_take|].
  rewrite fmap_take. rewrite <-(take_drop n l.*1) in Hnd. by apply NoDup_app in Hnd as [? _].
Qed.
Lemma released_handed k a a' :
  actor_inv a → is_Some (active_required a !! k) → released k a a' → handed_over a a'.
Proof.
  intros [Hb Hcons] Hk [Hb' (Hc & Hck & Hs) Hcons' (n & Hp & Hd)].
  split; [by split|]. split; [done|].
  destruct (base_queue _ Hb) as [Hbound _ Hm Hu _ Hdis].
  destruct (base_queue _ Hb') as [Hbound' _ _ _ _ _].
  destruct (pending a) as [|[k0 tr0] rest] eqn:Epend.
  { rewrite Hp. by destruct n. }
  assert (max_in_flight (limits (config a)) ≤ Z.of_nat (size (active_required a))) as Hfull
    by by apply Hcons; rewrite Epend.
  assert (Z.of_nat (size (active_required a')) = Z.of_nat (size (active_required a)) - 1
    + Z.of_nat (n `min` S (length rest))) as Hsize.
  { rewrite <-(size_dom (active_required a')), Hd, size_union.
    - rewrite size_take_fst by done. rewrite size_difference by by apply singleton_subseteq_l, elem_of_dom.
      rewrite size_singleton, size_dom. cbn [length].
      assert (size (active_required a) ≠ 0%nat); [|lia].
      apply map_size_non_empty_iff. intros E. rewrite E in Hk. by destruct Hk.
    - intros j Hj Hj'. apply (Hdis j); [|set_solver]. rewrite Hm.
      apply elem_of_list_to_set in Hj'. apply elem_of_list_to_set.
      apply list_elem_of_fmap in Hj' as (y & -> & Hy). apply list_elem_of_fmap_2.
      apply list_elem_of_lookup in Hy as [i Hi]. apply lookup_take_Some in Hi as [Hi _].
      by eapply list_elem_of_lookup_2. }
  assert (n ≠ 0%nat) as Hn.
  { intros ->. assert (pending a' ≠ []) as Hne by by rewrite Hp.
    specialize (Hcons' Hne). rewrite Hc in Hcons'. cbn in Hsize. lia. }
  rewrite Hc in Hbound'.
  assert (n = 1%nat ∨ rest = []) as Hone.
  { destruct rest; [by right|]. left. cbn in Hsize. lia. }
  destruct n as [|n]; [done|]. cbn in Hp. split.
  - destruct Hone as [[= ->]| ->]; [by rewrite Hp|]. rewrite Hp. by destruct n.
  - intros k1 tr1 [= <- <-]. apply elem_of_dom. rewrite Hd. cbn. set_solver.
Qed.

Definition completes (a : RuntimeActor) (i : ActorInput) : bool :=
  match i with
  | WorkerJoined joined =>
      match workers a !! joined_id joined with
      | Some w => bool_decide (is_Some (required_key (task w)))
      | None => false
      end
  | _ => false
  end.
Definition turn_result (a : RuntimeActor) (i : ActorInput) (a' : RuntimeActor) : Prop :=
  if completes a i then handed_over a a' else turned a a'.

Lemma wp_worker_joined joined a :
  actor_inv a → enabled a (WorkerJoined joined) = true → joined_ok joined →
  wp (handle_worker_result joined) (λ _, turn_result a (WorkerJoined joined))
    (set_workers (delete (joined_id joined) (workers a)) a).
Proof.
  intros Ha Hen Hok. pose proof Ha as [Hb _]. cbn in Hen.
  destruct (workers a !! joined_id joined) as [w|] eqn:Hw; [|done].
  unfold turn_result. cbn [completes]. rewrite Hw.
  unfold handle_worker_result. fold (joined_id joined). apply wp_bind. unfold wp at 1, se_gets.
  cbn [work_metadata set_workers].
  rewrite (work_meta _ _ _ _ _ _ _ (base_work _ Hb)), Hw. cbn [fmap option_fmap option_map].
  change ((metadata_of ∘ task) w) with (metadata_of (task w)).
  apply wp_bind. unfold wp at 1, se_modify.
  change (set_work_metadata _ _) with (after_join (joined_id joined) a).
  destruct (required_key (task w)) as [[k g]|] eqn:Hkey.
  - rewrite bool_decide_eq_true_2 by done.
    destruct (join_required a _ w k g Hb Hw Hkey) as [Hj Hun].
    assert (is_Some (active_required a !! k)) as Hact.
    { exists g. apply (joining_active _ _ _ _ Hj). }
    eapply (wp_mono _ (λ _, released k (after_join (joined_id joined) a))).
    2: { intros ? a' Hrel. apply (released_handed k); [done..|]. by destruct Hrel. }
    destruct (task w) as [k' g' tr|] eqn:Ht; [|done]. injection Hkey as -> ->.
    destruct joined as [[i [k2 g2 r|]]|e]; try done.
    + cbn in Hen. apply andb_true_iff in Hen as [Hk%bool_decide_eq_true ->%Z.eqb_eq].
      subst k2. by apply wp_handle_required.
    + by apply wp_abnormal_required.
  - rewrite bool_decide_eq_false_2 by by intros [].
    destruct (task w) as [|k g s t m] eqn:Ht; [done|].
    assert (optional_key (task w) = Some (k, g)) as Hok' by by rewrite Ht.
    destruct joined as [[i [|k2 g2 at_ r]]|e]; try done.
    + cbn in Hen. apply andb_true_iff in Hen as [Hen _].
      apply andb_true_iff in Hen as [Hk%bool_decide_eq_true ->%Z.eqb_eq]. subst k2.
      by apply (wp_handle_optional k g2 at_ r i w).
    + by apply (wp_abnormal_optional k g e _ w).
Qed.

Lemma wp_iterate a i :
  actor_inv a → enabled a i = true → input_ok i →
  wp (iterate i) (λ more a', (more = true ↔ i ≠ Shutdown) ∧ turn_result a i a') a.
Proof.
  intros Ha Hen Hok. destruct i as [|[c|]|joined|]; cbn [iterate].
  - split; [by split|]. by apply turned_refl.
  - apply wp_bind. eapply wp_mono; [by apply wp_handle_command|]. intros r a' Ht.
    by split.
  - apply wp_bind. unfold wp at 1, se_modify. split; [by split|].
    apply (turned_view a a); [done|by apply turned_refl].
  - apply wp_bind. unfold wp at 1, join_next, se_modify. apply wp_bind.
    eapply wp_mono; [by apply wp_worker_joined|]. by intros.
  - apply wp_bind. eapply wp_mono; [by apply wp_schedule_due|]. by intros.
Qed.

Lemma turn_result_inv a i a' : turn_result a i a' → actor_inv a' ∧ same_setup a a'.
Proof.
  unfold turn_result. destruct (completes a i); [intros (?&?&?)|intros (?&?&?)]; done.
Qed.
End facts.
