(* ===== verification/ActorSpec.v ===== *)
(** * What the runtime actor guarantees

    The theorems about reachable states of the actor: construction establishes
    the invariant of [ActorFacts.v] and every turn keeps it. *)
From stdpp Require Import gmap countable fin_map_dom prelude.
From S2P Require Import Prelude Ordering Text Percentage Externals Scope Errors RateWindow CostUsage.
From S2P Require Import Snapshot SnapshotStore Scheduler RuntimePolicy Actor ActorFacts.
Local Open Scope Z_scope.

Section spec.
Context `{DecimalCrate, TimeCrate}.

(** ** Construction *)
Lemma keys_dom {A} (m : gmap AccountScope A) : list_to_set (keys m) = dom m.
Proof.
  apply set_eq. intros k. rewrite elem_of_list_to_set. unfold keys.
  rewrite sort_by_key_perm, list_elem_of_fmap, elem_of_dom. split.
  - intros ([k' x] & -> & Hx%elem_of_map_to_list). by eexists.
  - intros [x Hx]. exists (k, x). by rewrite elem_of_map_to_list.
Qed.

Lemma start_histories_ok known l now st :
  store_ok st known → Forall (λ ks, ks.1 ∈ known) l →
  store_ok (start_histories l now st).1 known.
Proof.
  intros Hst Hl. revert st Hst. induction Hl as [|[k s] l Hk Hl IH]; intros st Hst; [done|].
  cbn [start_histories]. unfold mbind, SE_bind. cbn in Hk.
  destruct (local_history_scope s) as [h|]; [|by apply IH].
  pose proof (exec_ok st known k (ApplyLocalHistory (LocalHistorySnapshot.mk h Scanning None)) now
    Hst Hk eq_refl) as Ho. cbn [exec] in Ho.
  pose proof (exec_inv st k (ApplyLocalHistory (LocalHistorySnapshot.mk h Scanning None)) now
    (proj1 Hst)) as (Hi & Hd & _). cbn [exec] in Hi, Hd.
  destruct (apply_local_history _ _ _ st) as [st' [b|e]]; cbn in *; [by apply IH|].
  split; [done|]. rewrite Hd. apply Hst.
Qed.

Lemma queue_empty limit known : 0 ≤ limit → queue_inv limit known ∅ [] ∅.
Proof.
  intros Hl. split; try done.
  constructor.
Qed.
Lemma work_empty src gens : work_inv src gens ∅ 0%nat ∅ ∅ ∅.
Proof.
  split; try by (intros; exfalso; match goal with E : ∅ !! _ = Some _ |- _ =>
                   by rewrite lookup_empty in E end).
  - intros id. by rewrite !lookup_empty.
  - intros k g. rewrite lookup_empty. split; [done|]. intros (id & w & Hw & _).
    by rewrite lookup_empty in Hw.
  - intros k o. rewrite lookup_empty. split; [done|]. intros (w & Hw & _).
    by rewrite lookup_empty in Hw.
Qed.

Lemma actor_new_inv strict horizon config clock regs retained a0 :
  0 ≤ max_in_flight (limits config) →
  (strict = true → from_mins 60 ≤ horizon ∧ ∀ n, monotonic_now (clock n) + horizon ≤ INSTANT_MAX) →
  actor_new_with_retained config clock regs retained = Ok a0 →
  actor_inv strict horizon a0 ∧ Actor.config a0 = config ∧ events a0 = [].
Proof.
  intros Hlimit Hclock Hnew. unfold actor_new_with_retained in Hnew.
  apply bind_Ok in Hnew as (src & _ & Hnew). destruct (_ <? _); [done|].
  apply bind_Ok in Hnew as (backoff & _ & Hnew).
  apply bind_Ok in Hnew as (st & Hst%map_err_Ok & Hnew).
  apply new_inv in Hst as [Hst Hd]. rewrite keys_dom in Hd.
  pose proof (start_histories_ok (dom src) (sort_by_key fst (map_to_list src))
    (wall_now (clock 0%nat)) st (conj Hst Hd)) as Hok.
  destruct (start_histories _ _ st) as [st' r]. cbn in Hok.
  apply bind_Ok in Hnew as (? & _ & [= <-]). split; [split; [split|]|done]; cbn.
  - apply Hok. apply Forall_forall. intros [k s]. rewrite sort_by_key_perm, elem_of_map_to_list.
    intros Hk. by eapply elem_of_dom_2.
  - by apply queue_empty.
  - apply work_empty.
  - intros k. rewrite lookup_empty. exists 0. split; [done|]. unfold generation_of.
    by rewrite lookup_empty.
  - intros Hs. destruct (Hclock Hs) as [? ?]. split_and!; [done..|apply map_Forall_empty].
  - by intros ?.
Qed.

(** ** Reachable states

    Whatever inputs arrive, in whatever order, as long as the loop goes on:
    [P] is what is assumed of each input. *)
Inductive reachable (P : ActorInput → Prop) (a0 : RuntimeActor) : RuntimeActor → Prop :=
| reachable_refl : reachable P a0 a0
| reachable_turn a i a' :
    reachable P a0 a → enabled a i = true → P i → iterate i a = (a', Ok true) →
    reachable P a0 a'.

Lemma wp_Ok {A} strict (m : Act A) Q a x a' : wp strict m Q a → m a = (a', Ok x) → Q x a'.
Proof. unfold wp. intros Hm E. by rewrite E in Hm. Qed.
Lemma reachable_inv strict horizon a0 a :
  actor_inv strict horizon a0 → reachable (input_ok strict horizon) a0 a →
  actor_inv strict horizon a ∧ same_setup a0 a.
Proof.
  intros H1. induction 1 as [|a i a' _ [IH Hs] Hen Hok Hit]; [by split|].
  destruct (wp_Ok _ _ _ _ _ _ (wp_iterate strict horizon a i IH Hen Hok) Hit) as [_ Ht].
  apply turn_result_inv in Ht as [Hi (Hc & Hk & Hs')]. split; [done|].
  destruct Hs as (Hc0 & Hk0 & Hs0). unfold same_setup. split_and!; congruence.
Qed.
(** Without [strict] every input will do. *)
Lemma lenient_input i : input_ok false 0 i.
Proof. destruct i as [| |[[? []]|]|]; try done. cbn. by destruct result. Qed.
Lemma reachable_weaken (P P' : ActorInput → Prop) a0 a :
  (∀ i, P i → P' i) → reachable P a0 a → reachable P' a0 a.
Proof. intros HP. induction 1; econstructor; eauto. Qed.
Lemma reachable_lenient P config clock regs retained a0 a :
  0 ≤ max_in_flight (limits config) →
  actor_new_with_retained config clock regs retained = Ok a0 → reachable P a0 a →
  actor_inv false 0 a ∧ same_setup a0 a ∧ Actor.config a = config.
Proof.
  intros Hl Hnew Hr.
  destruct (actor_new_inv false 0 config clock regs retained a0) as (Hi & Hc & _); [done..|].
  destruct (reachable_inv false 0 a0 a) as [Hi' Hs]; [done| |].
  { eapply reachable_weaken; [|exact Hr]. intros ? _. apply lenient_input. }
  split_and!; [done..|]. destruct Hs as (-> & _). done.
Qed.

(** C1. in every reachable state of the actor, whatever commands, results and
    deadlines arrive: at most [max_in_flight] required refreshes run; no slot
    idles while an account waits; an account waits at most once and never while
    it runs; every running refresh has exactly one task in the join set, under
    its generation, and no other required task exists; every optional task that
    was not cancelled is the current one of its account; and the store is
    well-formed with exactly the registered accounts. *)
Theorem actor_reachable P config clock regs retained a0 a :
  0 ≤ max_in_flight (limits config) →
  actor_new_with_retained config clock regs retained = Ok a0 → reachable P a0 a →
  Z.of_nat (size (active_required a)) ≤ max_in_flight (limits config) ∧
  (pending a ≠ [] → Z.of_nat (size (active_required a)) = max_in_flight (limits config)) ∧
  NoDup (pending a).*1 ∧ pending_scopes a = list_to_set (pending a).*1 ∧
  pending_scopes a ## dom (active_required a) ∧
  (∀ k g, active_required a !! k = Some g ↔
     ∃ id w, workers a !! id = Some w ∧ required_key (task w) = Some (k, g)) ∧
  (∀ id1 id2 w1 w2 k g1 g2, workers a !! id1 = Some w1 → workers a !! id2 = Some w2 →
     required_key (task w1) = Some (k, g1) → required_key (task w2) = Some (k, g2) → id1 = id2) ∧
  (∀ k o, active_optional a !! k = Some o ↔
     ∃ w, workers a !! abort o = Some w ∧ aborted w = false ∧
          optional_key (task w) = Some (k, work_generation o)) ∧
  store_inv (store a) ∧ dom (snapshots (store a)) = dom (sources a0).
Proof.
  intros Hl Hnew Hr.
  destruct (reachable_lenient P _ _ _ _ _ _ Hl Hnew Hr) as ([[[Hst Hd] Hq Hw _ _] Hcons] & Hs & Hc).
  destruct Hq as [Hb _ Hm Hu _ Hdis]. rewrite Hc in Hb. destruct Hs as (_ & _ & Hs).
  unfold conserving in Hcons. rewrite Hc in Hcons.
  split; [done|]. split; [intros Hne; specialize (Hcons Hne); lia|].
  split; [done|]. split; [done|]. split; [done|]. split; [apply Hw|]. split; [apply Hw|].
  split; [apply Hw|]. split; [done|]. by rewrite Hd, Hs.
Qed.

(** C11. the events of each account follow the protocol in every reachable
    state: a refresh starts only when none runs, under a generation larger than
    any before; it reports exactly one outcome, under that generation; and then
    it finishes.  Between turns an account has either a running refresh, the
    one its slot records, or none. *)
Theorem event_protocol P config clock regs retained a0 a k :
  0 ≤ max_in_flight (limits config) →
  actor_new_with_retained config clock regs retained = Ok a0 → reachable P a0 a →
  match active_required a !! k with
  | Some g => phase (events a) k = Some (Running g)
  | None => ∃ last, phase (events a) k = Some (Waiting last)
  end.
Proof.
  intros Hl Hnew Hr.
  destruct (reachable_lenient P _ _ _ _ _ _ Hl Hnew Hr) as ([[_ _ _ Hev _] _] & _).
  specialize (Hev k). destruct (active_required a !! k) as [g|]; cbn in Hev; [apply Hev|].
  destruct Hev as (last & ? & _). by exists last.
Qed.

(** C2. the actor does not panic: while the clock stays [horizon] short of the
    end of its range, at least an hour, and no provider asks for a longer delay
    than [horizon], no turn of a reachable actor panics (no missing source, no
    queue out of step, no overflowing instant), and the only faults that can end
    the loop are a publication sequence or a generation counter at its 64-bit
    maximum. *)
Theorem actor_never_panics horizon config clock regs retained a0 a i :
  0 ≤ max_in_flight (limits config) → from_mins 60 ≤ horizon →
  (∀ n, monotonic_now (clock n) + horizon ≤ INSTANT_MAX) →
  actor_new_with_retained config clock regs retained = Ok a0 →
  reachable (input_ok true horizon) a0 a → enabled a i = true → input_ok true horizon i →
  match (iterate i a).2 with
  | Ok more => more = true ↔ i ≠ Shutdown
  | Err f => f = Failed (SnapshotFault SequenceExhausted) ∨ f = Failed GenerationExhausted
  end.
Proof.
  intros Hl Hh Hclock Hnew Hr Hen Hok.
  destruct (actor_new_inv true horizon config clock regs retained a0) as (Hi & _); [done..|].
  destruct (reachable_inv true horizon a0 a Hi Hr) as [Ha _].
  pose proof (wp_iterate true horizon a i Ha Hen Hok) as Hit. unfold wp in Hit.
  destruct (iterate i a) as [a' [more|f]]; [apply Hit|].
  destruct Hit as [?|[?|[??]]]; [by left|by right|done].
Qed.

(** C15. what an admission decides, in every reachable state.  An account without
    a source is refused without effect.  An account that runs or waits coalesces
    without effect, and so does, apart from its local history, an automatic
    trigger while a backoff runs or, if periodic, while the provider's minimum
    interval since the last attempt has not passed; a manual trigger is never
    held back.  Otherwise the refresh starts now, under a fresh generation, if a
    slot is free, and joins the end of the queue if none is. *)
Theorem admission_spec P config clock regs retained a0 a k tr :
  0 ≤ max_in_flight (limits config) →
  actor_new_with_retained config clock regs retained = Ok a0 → reachable P a0 a →
  match admit_refresh k tr a with
  | (a', Ok UnknownScopeAdmission) => sources a !! k = None ∧ a' = a
  | (a', Ok Coalesced) =>
      pending a' = pending a ∧ active_required a' = active_required a ∧
      (busy a k ∧ a' = a ∨ ¬ busy a k ∧ held_back k tr a)
  | (a', Ok Started) =>
      ¬ busy a k ∧ let_through k tr a ∧ pending a' = pending a ∧
      Z.of_nat (size (active_required a)) < max_in_flight (limits config) ∧
      ∃ g, active_required a' = <[k := g]> (active_required a) ∧
           events a' = RefreshStarted k g tr :: events a
  | (a', Ok Queued) =>
      ¬ busy a k ∧ let_through k tr a ∧ active_required a' = active_required a ∧
      max_in_flight (limits config) ≤ Z.of_nat (size (active_required a)) ∧
      pending a' = pending a ++ [(k, tr)] ∧ events a' = events a
  | (_, Err f) => f = Failed (SnapshotFault SequenceExhausted) ∨
                  f = Failed GenerationExhausted ∨ f = Panicked
  end.
Proof.
  intros Hl Hnew Hr.
  destruct (reachable_lenient P _ _ _ _ _ _ Hl Hnew Hr) as (Ha & _ & Hc).
  pose proof (wp_admit_refresh false 0 k tr a Ha) as Hadm. unfold wp in Hadm. rewrite <-Hc.
  destruct (admit_refresh k tr a) as [a' [r|f]].
  - destruct Hadm as (_ & _ & Hadm). destruct r; cbn in Hadm.
    + destruct Hadm as (? & ? & [? _] & ? & ?). done.
    + done.
    + destruct Hadm as ([_ _ [? _] ?] & ?). done.
    + done.
  - destruct Hadm as [?|[?|[_ ?]]]; [by left|by right; left|by right; right].
Qed.

(** ** Progress of the queue *)
(** A run of turns, with the number of required refreshes it completes. *)
Fixpoint turns (ins : list ActorInput) (a : RuntimeActor) : option (RuntimeActor * nat) :=
  match ins with
  | [] => Some (a, 0%nat)
  | i :: ins =>
      if enabled a i then
        match iterate i a with
        | (a', Ok true) =>
            '(a'', n) ← turns ins a'; Some (a'', if completes a i then S n else n)
        | _ => None
        end
      else None
  end.

Lemma turns_start ins a a' n i k tr :
  actor_inv false 0 a → pending a !! i = Some (k, tr) → turns ins a = Some (a', n) → (i < n)%nat →
  ∃ is1 is2 a1 n1, ins = is1 ++ is2 ∧ turns is1 a = Some (a1, n1) ∧ (n1 ≤ S i)%nat ∧
    is_Some (active_required a1 !! k).
Proof.
  revert a n i. induction ins as [|x ins IH]; intros a n i Ha Hi Hrun Hlt; cbn [turns] in Hrun.
  { injection Hrun as <- <-. lia. }
  destruct (enabled a x) eqn:Hen; [|done].
  destruct (iterate x a) as [a1 [[]|f]] eqn:Hit; [|done..].
  destruct (turns ins a1) as [[a2 m]|] eqn:Hrest; [|done]. injection Hrun as <- <-.
  destruct (wp_Ok _ _ _ _ _ _ (wp_iterate false 0 a x Ha Hen (lenient_input x)) Hit) as [_ Ht].
  destruct (turn_result_inv _ _ _ _ _ Ht) as [Ha1 _]. unfold turn_result in Ht.
  destruct (completes a x) eqn:Hcomp.
  - destruct Ht as (_ & _ & Hp & Hhead). destruct i as [|i].
    + exists [x], ins, a1, 1%nat. cbn. rewrite Hen, Hit, Hcomp. split_and!; [done..|].
      apply (Hhead k tr). by destruct (pending a).
    + assert (pending a1 !! i = Some (k, tr)) as Hi1 by (rewrite Hp; by destruct (pending a)).
      destruct (IH a1 m i Ha1 Hi1 Hrest) as (is1 & is2 & a3 & n1 & -> & Hr1 & Hn1 & Hact); [lia|].
      exists (x :: is1), is2, a3, (S n1). cbn. rewrite Hen, Hit, Hr1, Hcomp. cbn.
      split_and!; [done..|lia|done].
  - destruct Ht as (_ & _ & [ext Hp]).
    assert (pending a1 !! i = Some (k, tr)) as Hi1
      by (rewrite Hp; by apply lookup_app_l_Some).
    destruct (IH a1 m i Ha1 Hi1 Hrest Hlt) as (is1 & is2 & a3 & n1 & -> & Hr1 & Hn1 & Hact).
    exists (x :: is1), is2, a3, n1. cbn. rewrite Hen, Hit, Hr1, Hcomp. cbn. done.
Qed.

(** C5. no queued refresh starves: whatever else arrives, the account at place
    [i] of the queue runs as soon as [i + 1] running refreshes have completed,
    successfully, with an error, or by a panic or cancellation of their task. *)
Theorem queued_refresh_starts P config clock regs retained a0 a ins a' n i k tr :
  0 ≤ max_in_flight (limits config) →
  actor_new_with_retained config clock regs retained = Ok a0 → reachable P a0 a →
  pending a !! i = Some (k, tr) → turns ins a = Some (a', n) → (i < n)%nat →
  ∃ is1 is2 a1 n1, ins = is1 ++ is2 ∧ turns is1 a = Some (a1, n1) ∧ (n1 ≤ S i)%nat ∧
    is_Some (active_required a1 !! k).
Proof.
  intros Hl Hnew Hr. destruct (reachable_lenient P _ _ _ _ _ _ Hl Hnew Hr) as (Ha & _).
  by apply turns_start.
Qed.
End spec.

(** ** Witnesses *)
Section witnesses.
#[local] Existing Instance Reference.decimal.
#[local] Existing Instance Reference.time.

Definition config_example : RuntimeConfig :=
  mk_config policy_default (mk_limits 32 256 64 1) (from_secs 2).
Definition clock_example (n : nat) : Clock :=
  observe (Timestamp.mk (from_secs (Z.of_nat n))) (from_secs (Z.of_nat (n `min` 1000))).
Lemma clock_example_bound n : monotonic_now (clock_example n) + from_mins 60 ≤ INSTANT_MAX.
Proof.
  unfold clock_example. cbn [monotonic_now]. change (from_mins 60) with 3600000000000.
  unfold from_secs, duration_new, INSTANT_MAX, i64_max, NANOS_PER_SECOND. lia.
Qed.
Definition bob : AccountScope := scope_example (lit "bob").
Definition actor_example : Result (Failure RuntimeBuildError) RuntimeActor :=
  actor_new config_example clock_example
    [mk_registration ada (mk_source None); mk_registration bob (mk_source (Some MachineHistory))].
(** Two refreshes for one slot, then the first one fails. *)
Definition requests_example : list ActorInput :=
  [Command (Some (RefreshCommand ada ManualTrigger)); Command (Some (RefreshCommand bob MenuOpen))].
Definition failure_example : ActorInput :=
  WorkerJoined (Ok (0%nat, RequiredExit ada 1 (Err (ClassifiedError.new Network)))).

Lemma turns_reachable P ins a0 a a' n :
  reachable P a0 a → Forall P ins → turns ins a = Some (a', n) → reachable P a0 a'.
Proof.
  intros Hr HP. revert a n Hr. induction HP as [|i ins Hi _ IH]; intros a n Hr; cbn [turns].
  - by intros [= <- <-].
  - destruct (enabled a i) eqn:Hen; [|done].
    destruct (iterate i a) as [a1 [[]|f]] eqn:Hit; [|done..].
    destruct (turns ins a1) as [[a2 m]|] eqn:Hrest; [|done]. intros [= <- <-].
    eapply IH; [|done]. by eapply reachable_turn.
Qed.

Definition queued_example : option (RuntimeActor * nat) :=
  a0 ← result_ok actor_example; turns requests_example a0.
Definition queued_ok (o : option (RuntimeActor * nat)) : bool :=
  match o with Some (a, _) => bool_decide ((pending a).*1 = [bob]) | None => false end.
Lemma queued_example_ok : queued_ok queued_example = true.
Proof. vm_compute. reflexivity. Qed.
Lemma queued_example_reachable P a n :
  (∀ i, i ∈ requests_example → P i) → queued_example = Some (a, n) →
  ∃ a0, actor_example = Ok a0 ∧ reachable P a0 a ∧ (pending a).*1 = [bob].
Proof.
  intros HP Hq. pose proof queued_example_ok as Hok. rewrite Hq in Hok. cbn [queued_ok] in Hok.
  unfold queued_example in Hq. destruct actor_example as [a0|f]; [|done].
  exists a0. split; [done|]. split; [|by apply bool_decide_eq_true in Hok].
  cbn [result_ok mbind option_bind] in Hq. eapply turns_reachable; [apply reachable_refl| |exact Hq].
  by apply Forall_forall.
Qed.

Lemma actor_reachable_witness :
  match queued_example with
  | Some (a, _) => Z.of_nat (size (active_required a)) = 1
  | None => False
  end.
Proof.
  pose proof queued_example_ok as Hok. destruct queued_example as [[a n]|] eqn:E; [|discriminate Hok].
  destruct (queued_example_reachable (λ _, True) a n (λ _ _, I) E) as (a0 & Hnew & Hr & Hp).
  destruct (actor_reachable (λ _, True) config_example clock_example
    [mk_registration ada (mk_source None); mk_registration bob (mk_source (Some MachineHistory))]
    [] a0 a) as (_ & Hfull & _); [discriminate|exact Hnew|exact Hr|].
  apply Hfull. intros Hnil. rewrite Hnil in Hp. discriminate.
Defined.

Lemma event_protocol_witness :
  match queued_example with
  | Some (a, _) => match active_required a !! ada with
                   | Some g => phase (events a) ada = Some (Running g)
                   | None => ∃ last, phase (events a) ada = Some (Waiting last) end
  | None => False
  end.
Proof.
  pose proof queued_example_ok as Hok. destruct queued_example as [[a n]|] eqn:E; [|discriminate Hok].
  destruct (queued_example_reachable (λ _, True) a n (λ _ _, I) E) as (a0 & Hnew & Hr & Hp).
  apply (event_protocol (λ _, True) config_example clock_example
    [mk_registration ada (mk_source None); mk_registration bob (mk_source (Some MachineHistory))]
    [] a0 a); [discriminate|exact Hnew|exact Hr].
Defined.

Lemma actor_never_panics_witness :
  match queued_example with
  | Some (a, _) => (iterate ScheduleDue a).2 ≠ Err Panicked
  | None => False
  end.
Proof.
  pose proof queued_example_ok as Hok. destruct queued_example as [[a n]|] eqn:E; [|discriminate Hok].
  destruct (queued_example_reachable (input_ok true (from_mins 60)) a n) as (a0 & Hnew & Hr & Hp).
  { intros i Hi. apply list_elem_of_In in Hi. by destruct Hi as [<-|[<-|[]]]. }
  { exact E. }
  pose proof (actor_never_panics (from_mins 60) config_example clock_example
    [mk_registration ada (mk_source None); mk_registration bob (mk_source (Some MachineHistory))]
    [] a0 a ScheduleDue) as H.
  destruct (iterate ScheduleDue a) as [a' [more|f]]; [discriminate|].
  cbn [snd] in H |- *. intros [= ->]. destruct H as [H|H]; [..|discriminate H|discriminate H].
  - discriminate.
  - discriminate.
  - intros m. apply clock_example_bound.
  - exact Hnew.
  - exact Hr.
  - reflexivity.
  - exact I.
Defined.

Definition coalesced_ok (o : option (RuntimeActor * nat)) : bool :=
  match o with
  | Some (a, _) => match (admit_refresh bob ManualTrigger a).2 with Ok Coalesced => true | _ => false end
  | None => false
  end.
Lemma admission_spec_witness :
  match queued_example with
  | Some (a, _) => pending (admit_refresh bob ManualTrigger a).1 = pending a
  | None => False
  end.
Proof.
  assert (coalesced_ok queued_example = true) as Hok by (vm_compute; reflexivity).
  destruct queued_example as [[a n]|] eqn:E; [|discriminate Hok]. cbn [coalesced_ok] in Hok.
  destruct (queued_example_reachable (λ _, True) a n (λ _ _, I) E) as (a0 & Hnew & Hr & Hp).
  pose proof (admission_spec (λ _, True) config_example clock_example
    [mk_registration ada (mk_source None); mk_registration bob (mk_source (Some MachineHistory))]
    [] a0 a bob ManualTrigger) as H.
  destruct (admit_refresh bob ManualTrigger a) as [a' [[]|f]]; try discriminate Hok.
  destruct H as (H & _); [discriminate|exact Hnew|exact Hr|exact H].
Defined.

Definition started_ok (o : option (RuntimeActor * nat)) : bool :=
  match o with
  | Some (a, _) => match turns [failure_example] a with Some (_, 1%nat) => true | _ => false end
  | None => false
  end.
Lemma queued_refresh_starts_witness :
  match queued_example with
  | Some (a, _) => ∃ ins1 a1 n1, turns ins1 a = Some (a1, n1) ∧ is_Some (active_required a1 !! bob)
  | None => False
  end.
Proof.
  assert (started_ok queued_example = true) as Hok by (vm_compute; reflexivity).
  destruct queued_example as [[a n]|] eqn:E; [|discriminate Hok]. cbn [started_ok] in Hok.
  destruct (queued_example_reachable (λ _, True) a n (λ _ _, I) E) as (a0 & Hnew & Hr & Hp).
  destruct (pending a) as [|[k tr] rest] eqn:Hpend; [discriminate Hp|].
  injection Hp as -> _.
  destruct (turns [failure_example] a) as [[a' m]|] eqn:Hrun; [|discriminate Hok].
  destruct (queued_refresh_starts (λ _, True) config_example clock_example
    [mk_registration ada (mk_source None); mk_registration bob (mk_source (Some MachineHistory))]
    [] a0 a [failure_example] a' m 0%nat bob tr) as (ins1 & ins2 & a1 & n1 & _ & H1 & _ & H2).
  - discriminate.
  - exact Hnew.
  - exact Hr.
  - rewrite Hpend. reflexivity.
  - exact Hrun.
  - destruct m as [|[|m]]; try discriminate Hok. lia.
  - exists ins1, a1, n1. split; [exact H1|exact H2].
Defined.
End witnesses.
