(* ===== verification/JsonLine.v ===== *)
(** * Newline-delimited JSON frames  (crates/ipc/src/codec.rs)

    The bounded codec of the local socket: [encode_json_line] and its capped
    writer, [decode_json_line], and the incremental [JsonLineDecoder].  serde is
    a class: a message is serialized by a program of writes ([Emission]) and
    read by [from_slice]; [JsonMessageLaws] states what compact JSON promises. *)
From stdpp Require Import prelude.
From S2P Require Import Prelude.
Local Open Scope Z_scope.

(** [u8] values and the two the framing looks at. *)
Definition LF : Z := 10.
Definition CR : Z := 13.
Definition len (bytes : list Z) : Z := Z.of_nat (length bytes).

Definition MAX_JSON_LINE_BYTES : Z := 64 * 1024.
Definition MAX_JSON_PAYLOAD_BYTES : Z := MAX_JSON_LINE_BYTES - 1.

Inductive JsonLineError :=
| LineTooLong
| MalformedJson
| NonCanonicalNewline
| UnterminatedLine
| MultipleFrames
| Serialization
| Poisoned.

#[global] Instance JsonLineError_eq_dec : EqDecision JsonLineError.
Proof. solve_decision. Defined.

(** What a [Serialize] implementation does with the writer: it writes pieces,
    learns whether each was accepted, and ends in success or failure. *)
Inductive Emission :=
| Emitted (ok : bool)
| Emit (bytes : list Z) (next : bool → Emission).

(** [T: Serialize + DeserializeOwned]. *)
Class JsonMessage (T : Type) := {
  serialize : T → Emission;
  from_slice : list Z → option T;
}.

(** All that would be written if every write were accepted. *)
Fixpoint emitted_text (e : Emission) : list Z * bool :=
  match e with
  | Emitted ok => ([], ok)
  | Emit bytes next => let '(text, ok) := emitted_text (next true) in (bytes ++ text, ok)
  end.

(** Compact JSON is never empty, has no raw control character, and is read back
    by the type that wrote it. *)
Class JsonMessageLaws T `{JsonMessage T} : Prop := {
  json_nonempty m text : emitted_text (serialize m) = (text, true) → text ≠ [];
  json_no_control m text :
    emitted_text (serialize m) = (text, true) → Forall (λ b, 32 ≤ b) text;
  json_reads_back m text :
    emitted_text (serialize m) = (text, true) → from_slice text = Some m;
}.

(** ** The capped writer and the encoder *)

Record CappedJsonBuffer := { bytes : list Z; exceeded : bool }.

Definition capped_new : CappedJsonBuffer := {| bytes := []; exceeded := false |}.

(** [Write::write]: the count accepted, or an I/O error. *)
Definition write (piece : list Z) : SE CappedJsonBuffer unit Z := λ w,
  let over := match checked_add usize_max (len w.(bytes)) (len piece) with
              | None => true
              | Some length => MAX_JSON_PAYLOAD_BYTES <? length
              end in
  if over then ({| bytes := w.(bytes); exceeded := true |}, Err tt)
  else ({| bytes := w.(bytes) ++ piece; exceeded := w.(exceeded) |}, Ok (len piece)).

(** [Write::write_all]: [write] takes a whole piece or none of it, and is not
    called for an empty one. *)
Definition write_all (piece : list Z) : SE CappedJsonBuffer unit unit :=
  match piece with
  | [] => mret tt
  | _ => write piece ;; mret tt
  end.

(** [serde_json::to_writer]: the message's own program of writes. *)
Fixpoint to_writer (e : Emission) (w : CappedJsonBuffer) : CappedJsonBuffer * bool :=
  match e with
  | Emitted ok => (w, ok)
  | Emit piece next => let '(w, r) := write_all piece w in to_writer (next (is_ok r)) w
  end.

Definition encode_emission (e : Emission) : Result JsonLineError (list Z) :=
  let '(writer, serialization) := to_writer e capped_new in
  if writer.(exceeded) then Err LineTooLong
  else if negb serialization then Err Serialization
  else Ok (writer.(bytes) ++ [LF]).

Definition encode_json_line `{JsonMessage T} (message : T) : Result JsonLineError (list Z) :=
  encode_emission (serialize message).

(** ** The one-record decoder *)

(** [strip_suffix] and [ends_with] of one byte. *)
Definition strip_last (b : Z) (l : list Z) : option (list Z) :=
  match reverse l with
  | x :: r => if x =? b then Some (reverse r) else None
  | [] => None
  end.
Definition ends_with (b : Z) (l : list Z) : bool :=
  match strip_last b l with Some _ => true | None => false end.

Section Decoder.
Context {T : Type} `{JsonMessage T}.

Definition decode_json_line (frame : list Z) : Result JsonLineError T :=
  if MAX_JSON_LINE_BYTES <? len frame then Err LineTooLong
  else match strip_last LF frame with
  | None => Err UnterminatedLine
  | Some payload =>
      if ends_with CR payload then Err NonCanonicalNewline
      else if existsb (Z.eqb LF) payload then Err MultipleFrames
      else match payload with
      | [] => Err MalformedJson
      | _ => ok_or (from_slice payload) MalformedJson
      end
  end.

(** ** The incremental decoder *)

Record JsonLineDecoder := { buffer : list Z; poisoned : bool }.

Definition decoder_new : JsonLineDecoder := {| buffer := []; poisoned := false |}.
Definition is_poisoned (d : JsonLineDecoder) : bool := d.(poisoned).
Definition buffered_bytes (d : JsonLineDecoder) : Z := len d.(buffer).

(** The buffer is zeroed, then cleared. *)
Definition reject {R} (error : JsonLineError) : SE JsonLineDecoder JsonLineError R :=
  se_modify (λ d, {| buffer := const 0 <$> d.(buffer); poisoned := d.(poisoned) |}) ;;
  se_modify (λ d, {| buffer := []; poisoned := d.(poisoned) |}) ;;
  se_modify (λ d, {| buffer := d.(buffer); poisoned := true |}) ;;
  se_fail error.

Definition finish : SE JsonLineDecoder JsonLineError unit := λ d,
  if d.(poisoned) then (d, Err Poisoned)
  else match d.(buffer) with
  | [] => (d, Ok tt)
  | _ => reject UnterminatedLine d
  end.

(** The loop of [feed] from one byte of the chunk on. *)
Fixpoint feed_bytes (chunk : list Z) (messages : list T)
    : SE JsonLineDecoder JsonLineError (list T) :=
  match chunk with
  | [] => mret messages
  | byte :: chunk => λ d,
      let d := {| buffer := d.(buffer) ++ [byte]; poisoned := d.(poisoned) |} in
      if MAX_JSON_LINE_BYTES <? len d.(buffer) then reject LineTooLong d
      else if byte =? LF then
        let frame := d.(buffer) in
        let d := {| buffer := []; poisoned := d.(poisoned) |} in
        match decode_json_line frame with
        | Ok message => feed_bytes chunk (messages ++ [message]) d
        | Err error => reject error d
        end
      else if len d.(buffer) =? MAX_JSON_LINE_BYTES then reject LineTooLong d
      else feed_bytes chunk messages d
  end.

Definition feed (chunk : list Z) : SE JsonLineDecoder JsonLineError (list T) := λ d,
  if d.(poisoned) then (d, Err Poisoned) else feed_bytes chunk [] d.

(** A whole connection: the chunks as they arrive, until one fails. *)
Fixpoint feed_all (chunks : list (list Z)) : SE JsonLineDecoder JsonLineError (list T) :=
  match chunks with
  | [] => mret []
  | c :: cs => ms ← feed c; rest ← feed_all cs; mret (ms ++ rest)
  end.

(** Any use of a decoder: a caller may go on after a failure. *)
Inductive DecoderCall := Feed (chunk : list Z) | Finish.

Definition call (c : DecoderCall) : SE JsonLineDecoder JsonLineError (list T) :=
  match c with
  | Feed chunk => feed chunk
  | Finish => finish ;; mret []
  end.

Fixpoint session (calls : list DecoderCall) (d : JsonLineDecoder)
    : list (Result JsonLineError (list T)) * JsonLineDecoder :=
  match calls with
  | [] => ([], d)
  | c :: cs => let '(d, r) := call c d in let '(rs, d) := session cs d in (r :: rs, d)
  end.

(** ** Reference: a stream is a sequence of LF-terminated lines *)

Definition line (f : list Z) : Prop := ∃ p, f = p ++ [LF] ∧ LF ∉ p.

(** The failed decoder. *)
Definition dead : JsonLineDecoder := {| buffer := []; poisoned := true |}.

(** Decode every line on its own, keep the unfinished rest if it can still
    become a line. *)
Definition feed_lines (lines : list (list Z)) (rest : list Z)
    : JsonLineDecoder * Result JsonLineError (list T) :=
  match traverse_list decode_json_line lines with
  | Err e => (dead, Err e)
  | Ok ms =>
      if len rest <? MAX_JSON_LINE_BYTES
      then ({| buffer := rest; poisoned := false |}, Ok ms)
      else (dead, Err LineTooLong)
  end.

Definition decoder_wf (d : JsonLineDecoder) : Prop :=
  LF ∉ d.(buffer) ∧ len d.(buffer) < MAX_JSON_LINE_BYTES ∧
  (d.(poisoned) = true → d.(buffer) = []).
End Decoder.

(** ** Lists of bytes *)

Lemma len_app a b : len (a ++ b) = len a + len b.
Proof. unfold len. rewrite length_app. lia. Qed.
Lemma len_nonneg l : 0 ≤ len l.
Proof. unfold len. lia. Qed.
Lemma len_cons x l : len (x :: l) = 1 + len l.
Proof. unfold len. cbn [length]. lia. Qed.
Lemma len_nil : len [] = 0.
Proof. reflexivity. Qed.

Create HintDb bytes.
#[export] Hint Rewrite len_app len_cons len_nil : bytes.

Lemma max_line_pos : 0 < MAX_JSON_LINE_BYTES.
Proof. reflexivity. Qed.

(** Byte counts against the frame limit. *)
Ltac bytes_lia :=
  autorewrite with bytes in *;
  repeat match goal with
  | |- context [len ?l] => lazymatch goal with
      H : 0 ≤ len l |- _ => fail | _ => pose proof (len_nonneg l) end
  end;
  pose proof max_line_pos; lia.

(** Every boolean test of the goal. *)
Ltac case_ifs :=
  repeat match goal with
  | |- context [if ?b then _ else _] =>
      lazymatch type of b with bool => destruct b end
  end.

Lemma strip_last_snoc b p : strip_last b (p ++ [b]) = Some p.
Proof.
  unfold strip_last. rewrite reverse_snoc, Z.eqb_refl. by rewrite reverse_involutive.
Qed.

Lemma strip_last_Some b l p : strip_last b l = Some p ↔ l = p ++ [b].
Proof.
  split; [|intros ->; apply strip_last_snoc].
  unfold strip_last. destruct l as [|x l] using rev_ind; [done|].
  rewrite reverse_snoc. destruct (Z.eqb_spec x b) as [->|]; [|done].
  rewrite reverse_involutive. by intros [= ->].
Qed.

Lemma ends_with_false b l : ends_with b l = false ↔ ∀ p, l ≠ p ++ [b].
Proof.
  unfold ends_with. destruct (strip_last b l) as [p|] eqn:E.
  - apply strip_last_Some in E. naive_solver.
  - split; [|done]. intros _ p ->. by rewrite strip_last_snoc in E.
Qed.

Lemma contains_spec b l : existsb (Z.eqb b) l = true ↔ b ∈ l.
Proof.
  rewrite existsb_exists. setoid_rewrite <-list_elem_of_In.
  split; [intros (x & Hx & ->%Z.eqb_eq); done | intros Hb; exists b; by rewrite Z.eqb_refl].
Qed.

Section Facts.
Context {T : Type} `{JsonMessage T}.
Implicit Types (chunk : list Z) (ms : list T) (d : JsonLineDecoder).

(** ** The writer *)

Lemma to_writer_exceeded e w :
  w.(exceeded) = true → (to_writer e w).1.(exceeded) = true.
Proof.
  revert w. induction e as [ok|piece next IH]; intros w Hw; [done|]. cbn.
  destruct (write_all piece w) as [w' r] eqn:E. apply IH.
  destruct piece as [|x piece]; [injection E; intros; by subst|].
  cbn in E. unfold mbind, SE_bind, write in E.
  destruct (match _ with None => _ | Some _ => _ end); injection E; intros; by subst.
Qed.

(** A piece that fits is appended; one that does not sets the flag. *)
Lemma write_all_spec piece w :
  w.(exceeded) = false → len w.(bytes) ≤ MAX_JSON_PAYLOAD_BYTES →
  if len w.(bytes) + len piece <=? MAX_JSON_PAYLOAD_BYTES
  then write_all piece w = ({| bytes := w.(bytes) ++ piece; exceeded := false |}, Ok tt)
  else (write_all piece w).1.(exceeded) = true.
Proof.
  intros Hw Hl. assert (MAX_JSON_PAYLOAD_BYTES < usize_max) as Hmax by done.
  destruct piece as [|x piece].
  - destruct w as [b x]; cbn in *. rewrite len_nil, Z.add_0_r, app_nil_r.
    subst x. by rewrite (proj2 (Z.leb_le _ _) Hl).
  - cbn [write_all]. set (p := x :: piece).
    unfold mbind, SE_bind, write. rewrite Hw. unfold checked_add.
    destruct (Z.leb_spec (len w.(bytes) + len p) MAX_JSON_PAYLOAD_BYTES) as [Hle|Hgt].
    + rewrite (proj2 (Z.leb_le _ usize_max)) by lia.
      by rewrite (proj2 (Z.ltb_ge _ _) Hle).
    + destruct (Z.leb_spec (len w.(bytes) + len p) usize_max); [|done].
      by rewrite (proj2 (Z.ltb_lt _ _) Hgt).
Qed.

Lemma to_writer_spec e w :
  w.(exceeded) = false → len w.(bytes) ≤ MAX_JSON_PAYLOAD_BYTES →
  let '(text, ok) := emitted_text e in
  if len w.(bytes) + len text <=? MAX_JSON_PAYLOAD_BYTES
  then to_writer e w = ({| bytes := w.(bytes) ++ text; exceeded := false |}, ok)
  else (to_writer e w).1.(exceeded) = true.
Proof.
  revert w. induction e as [ok|piece next IH]; intros w Hw Hl.
  - destruct w; cbn in *. subst. rewrite len_nil, Z.add_0_r, app_nil_r.
    by rewrite (proj2 (Z.leb_le _ _) Hl).
  - cbn [emitted_text to_writer]. specialize (write_all_spec piece w Hw Hl) as Hp.
    destruct (emitted_text (next true)) as [text ok] eqn:Et. rewrite len_app.
    pose proof (len_nonneg text). pose proof (len_nonneg piece).
    destruct (Z.leb_spec (len w.(bytes) + len piece) MAX_JSON_PAYLOAD_BYTES) as [Hle|Hgt].
    + rewrite Hp. cbn [is_ok].
      specialize (IH true {| bytes := w.(bytes) ++ piece; exceeded := false |} eq_refl).
      rewrite Et in IH. cbn [bytes] in IH. rewrite len_app, <-app_assoc in IH.
      by rewrite Z.add_assoc; apply IH.
    + rewrite (proj2 (Z.leb_gt _ _)) by lia.
      destruct (write_all piece w) as [w' r]. by apply to_writer_exceeded.
Qed.

Lemma encode_emission_spec e :
  encode_emission e =
  let '(text, ok) := emitted_text e in
  if MAX_JSON_PAYLOAD_BYTES <? len text then Err LineTooLong
  else if ok then Ok (text ++ [LF]) else Err Serialization.
Proof.
  unfold encode_emission. specialize (to_writer_spec e capped_new eq_refl) as Hs.
  destruct (emitted_text e) as [text ok]. cbn [bytes capped_new] in Hs.
  rewrite len_nil, Z.add_0_l in Hs. specialize (Hs ltac:(done)).
  destruct (Z.leb_spec (len text) MAX_JSON_PAYLOAD_BYTES) as [Hle|Hgt].
  - rewrite Hs. cbn. rewrite (proj2 (Z.ltb_ge _ _) Hle). by destruct ok.
  - rewrite (proj2 (Z.ltb_lt _ _) Hgt). destruct (to_writer e capped_new). cbn in Hs.
    by rewrite Hs.
Qed.

(** ** One line *)

Lemma decode_line_spec p :
  LF ∉ p →
  decode_json_line (T:=T) (p ++ [LF]) =
  if MAX_JSON_LINE_BYTES <=? len p then Err LineTooLong
  else if ends_with CR p then Err NonCanonicalNewline
  else match p with [] => Err MalformedJson | _ => ok_or (from_slice p) MalformedJson end.
Proof.
  intros Hp. unfold decode_json_line. rewrite strip_last_snoc.
  replace (MAX_JSON_LINE_BYTES <? len (p ++ [LF])) with (MAX_JSON_LINE_BYTES <=? len p).
  2: { rewrite len_app, len_cons, len_nil.
       destruct (Z.leb_spec MAX_JSON_LINE_BYTES (len p)), (Z.ltb_spec MAX_JSON_LINE_BYTES (len p + (1 + 0))); lia. }
  destruct (_ <=? _); [done|]. destruct (ends_with CR p); [done|].
  destruct (existsb (Z.eqb LF) p) eqn:E; [|done]. by apply contains_spec in E.
Qed.

(** ** The incremental decoder *)

Lemma reject_dead {R} e d : reject (R:=R) e d = (dead, Err e).
Proof. done. Qed.

Lemma feed_bytes_app c1 c2 ms d :
  feed_bytes (c1 ++ c2) ms d = (ms' ← feed_bytes c1 ms; feed_bytes c2 ms') d.
Proof.
  revert ms d. induction c1 as [|x c1 IH]; intros ms d; [done|].
  rewrite <-app_comm_cons. cbn [feed_bytes]. unfold mbind, SE_bind.
  case_ifs; try done. destruct (decode_json_line _) as [m|e]; [apply IH|done].
Qed.

(** The messages already decoded are only a prefix of the answer. *)
Lemma feed_bytes_acc chunk ms d :
  feed_bytes chunk ms d = (ms' ← feed_bytes chunk []; mret (ms ++ ms')) d.
Proof.
  revert ms d. induction chunk as [|x chunk IH]; intros ms d.
  { cbn. unfold mbind, SE_bind, mret, SE_ret. by rewrite app_nil_r. }
  cbn [feed_bytes]. unfold mbind, SE_bind.
  case_ifs; try done.
  destruct (decode_json_line _) as [m|e]; [|done].
  rewrite (IH (ms ++ [m])), (IH ([] ++ [m])). unfold mbind, SE_bind.
  destruct (feed_bytes chunk [] _) as [d' [ms'|e]]; [|done].
  unfold mret, SE_ret. by rewrite <-app_assoc.
Qed.

Lemma feed_bytes_alive chunk ms d d' ms' :
  feed_bytes chunk ms d = (d', Ok ms') → d'.(poisoned) = d.(poisoned).
Proof.
  revert ms d. induction chunk as [|x chunk IH]; intros ms d; [by intros [= <-]|].
  cbn [feed_bytes].
  case_ifs; try done.
  - destruct (decode_json_line _) as [m|e]; [|done]. by intros ->%IH.
  - by intros ->%IH.
Qed.

Lemma feed_app c1 c2 d :
  feed (c1 ++ c2) d = (ms1 ← feed c1; ms2 ← feed c2; mret (ms1 ++ ms2)) d.
Proof.
  unfold feed, mbind, SE_bind. destruct d.(poisoned) eqn:Hd; [done|].
  rewrite feed_bytes_app. unfold mbind, SE_bind.
  destruct (feed_bytes c1 [] d) as [d1 [ms1|e]] eqn:E; [|done].
  rewrite (feed_bytes_alive _ _ _ _ _ E), Hd. apply feed_bytes_acc.
Qed.

(** Bytes of a line that has not ended. *)
Lemma feed_bytes_payload p chunk ms b :
  LF ∉ p → len b < MAX_JSON_LINE_BYTES →
  feed_bytes (p ++ chunk) ms {| buffer := b; poisoned := false |} =
  if len (b ++ p) <? MAX_JSON_LINE_BYTES
  then feed_bytes chunk ms {| buffer := b ++ p; poisoned := false |}
  else (dead, Err LineTooLong).
Proof.
  revert b. induction p as [|x p IH]; intros b Hp Hb.
  { rewrite app_nil_r. by rewrite (proj2 (Z.ltb_lt _ _) Hb). }
  apply not_elem_of_cons in Hp as [Hx Hp].
  cbn [app feed_bytes buffer poisoned].
  rewrite (proj2 (Z.ltb_ge MAX_JSON_LINE_BYTES (len (b ++ [x])))) by bytes_lia.
  rewrite (proj2 (Z.eqb_neq x LF)) by done.
  destruct (Z.eqb_spec (len (b ++ [x])) MAX_JSON_LINE_BYTES) as [Hfull|Hroom].
  - rewrite reject_dead. rewrite (proj2 (Z.ltb_ge _ _)); [done|]. bytes_lia.
  - rewrite IH; [|done|bytes_lia]. by rewrite <-app_assoc.
Qed.

(** The byte that ends it. *)
Lemma feed_bytes_newline chunk ms p :
  LF ∉ p → len p < MAX_JSON_LINE_BYTES →
  feed_bytes (LF :: chunk) ms {| buffer := p; poisoned := false |} =
  match decode_json_line (p ++ [LF]) with
  | Ok m => feed_bytes chunk (ms ++ [m]) {| buffer := []; poisoned := false |}
  | Err e => (dead, Err e)
  end.
Proof.
  intros Hp Hl. cbn [feed_bytes buffer poisoned].
  rewrite (proj2 (Z.ltb_ge _ _)) by bytes_lia. rewrite Z.eqb_refl. done.
Qed.

Lemma feed_bytes_line p chunk ms b :
  LF ∉ b ++ p → len b < MAX_JSON_LINE_BYTES →
  feed_bytes (p ++ LF :: chunk) ms {| buffer := b; poisoned := false |} =
  match decode_json_line ((b ++ p) ++ [LF]) with
  | Ok m => feed_bytes chunk (ms ++ [m]) {| buffer := []; poisoned := false |}
  | Err e => (dead, Err e)
  end.
Proof.
  intros Hbp Hb. rewrite feed_bytes_payload; [|set_solver|done].
  destruct (Z.ltb_spec (len (b ++ p)) MAX_JSON_LINE_BYTES) as [Hl|Hl].
  - by rewrite feed_bytes_newline.
  - rewrite decode_line_spec by done. by rewrite (proj2 (Z.leb_le _ _) Hl).
Qed.

(** From the start of a line, every line is decoded on its own. *)
Lemma feed_bytes_lines lines rest ms :
  Forall line lines → LF ∉ rest →
  feed_bytes (concat lines ++ rest) ms {| buffer := []; poisoned := false |} =
  ((feed_lines lines rest).1, app ms <$> (feed_lines lines rest).2).
Proof.
  intros Hls Hr. revert ms. induction Hls as [|f lines (p & -> & Hp) _ IH]; intros ms.
  - cbn [concat app]. rewrite <-(app_nil_r rest) at 1.
    rewrite feed_bytes_payload by done. cbn [app].
    unfold feed_lines. cbn [traverse_list].
    destruct (_ <? _); [|done]. cbn. by rewrite app_nil_r.
  - cbn [concat]. rewrite <-!app_assoc. cbn [app].
    rewrite feed_bytes_line; [|done|done]. cbn [app].
    unfold feed_lines. cbn [traverse_list].
    destruct (decode_json_line (p ++ [LF])) as [m|e]; [|done]. cbn [mbind Result_bind].
    rewrite IH. unfold feed_lines.
    destruct (traverse_list decode_json_line lines) as [ms'|e]; [|done]. cbn.
    destruct (_ <? _); [|done]. cbn. by rewrite <-app_assoc.
Qed.

(** A buffer with no newline is the start of the first line. *)
Lemma framing_prefix b chunk lines rest :
  LF ∉ b → Forall line lines → b ++ chunk = concat lines ++ rest →
  (lines = [] ∧ rest = b ++ chunk) ∨
  ∃ p lines', lines = ((b ++ p) ++ [LF]) :: lines' ∧
    LF ∉ b ++ p ∧ chunk = p ++ LF :: concat lines' ++ rest.
Proof.
  intros Hb Hls Heq. destruct Hls as [|f lines (q & -> & Hq) _]; [by left|right].
  cbn in Heq. rewrite <-!app_assoc in Heq. cbn in Heq.
  apply app_eq_inv in Heq as [(k & -> & Hk)|(k & -> & Hk)].
  - destruct k as [|x k]; cbn in Hk.
    + exists [], lines. by rewrite !app_nil_r in *.
    + injection Hk as <- _. set_solver.
  - exists k, lines. naive_solver.
Qed.

Lemma feed_decodes_lines chunk d lines rest :
  decoder_wf d → d.(poisoned) = false → Forall line lines → LF ∉ rest →
  d.(buffer) ++ chunk = concat lines ++ rest →
  feed chunk d = feed_lines lines rest.
Proof.
  intros (Hb & Hl & _) Hd Hls Hr Heq. unfold feed. rewrite Hd.
  destruct d as [b x]; cbn in *; subst x.
  apply framing_prefix in Heq as [[-> ->]|(p & lines' & -> & Hbp & ->)]; [| |done..].
  - rewrite <-(app_nil_r chunk) at 1. rewrite feed_bytes_payload; [|set_solver|done].
    unfold feed_lines. cbn. by destruct (_ <? _).
  - rewrite feed_bytes_line by done. apply Forall_cons in Hls as [_ Hls].
    unfold feed_lines. cbn [traverse_list].
    destruct (decode_json_line ((b ++ p) ++ [LF])) as [m|e]; [|done]. cbn [mbind Result_bind].
    rewrite feed_bytes_lines by done. unfold feed_lines.
    destruct (traverse_list decode_json_line lines') as [ms|e]; [|done]. cbn.
    by destruct (_ <? _).
Qed.

(** Every stream splits in one way. *)
Lemma framing_exists bs : ∃ lines rest, Forall line lines ∧ LF ∉ rest ∧ bs = concat lines ++ rest.
Proof.
  induction bs as [|x bs (lines & rest & Hls & Hr & ->)].
  { exists [], []. split_and!; [constructor | apply not_elem_of_nil | done]. }
  destruct (decide (x = LF)) as [->|Hx].
  { exists ([LF] :: lines), rest. split_and!; [|done|done]. constructor; [|done].
    exists []. split; [done | apply not_elem_of_nil]. }
  destruct Hls as [|f lines (p & -> & Hp) Hls].
  - exists [], (x :: rest). split_and!; [constructor | set_solver | done].
  - exists (((x :: p) ++ [LF]) :: lines), rest. split_and!; [|done|done].
    constructor; [|done]. exists (x :: p). set_solver.
Qed.

(** ** States a decoder can be in *)

Lemma dead_wf : decoder_wf dead.
Proof. split_and!; [apply not_elem_of_nil | done | done]. Qed.

Lemma feed_lines_wf lines rest :
  LF ∉ rest → decoder_wf (feed_lines lines rest).1 ∧
  ((feed_lines lines rest).1.(poisoned) = negb (is_ok (feed_lines lines rest).2)).
Proof.
  intros Hr. unfold feed_lines.
  destruct (traverse_list decode_json_line lines) as [ms|e]; [|split; [apply dead_wf|done]].
  destruct (Z.ltb_spec (len rest) MAX_JSON_LINE_BYTES); [|split; [apply dead_wf|done]].
  split; [|done]. split_and!; [done|done|discriminate].
Qed.

Lemma call_dead c : call c dead = (dead, Err Poisoned).
Proof. by destruct c. Qed.

(** A call on a healthy decoder fails exactly when it poisons it. *)
Lemma call_spec c d :
  decoder_wf d → decoder_wf (call c d).1 ∧
  (d.(poisoned) = false → (call c d).1.(poisoned) = negb (is_ok (call c d).2)).
Proof.
  intros Hd. destruct (d.(poisoned)) eqn:Hp.
  { destruct d as [b x], Hd as (_ & _ & Hb). cbn in *. rewrite Hp, (Hb Hp).
    change {| buffer := []; poisoned := true |} with dead.
    rewrite call_dead. split; [apply dead_wf | done]. }
  destruct c as [chunk|].
  - destruct (framing_exists (d.(buffer) ++ chunk)) as (lines & rest & Hls & Hr & Heq).
    cbn [call]. rewrite (feed_decodes_lines chunk d lines rest) by done.
    pose proof (feed_lines_wf lines rest Hr) as [? ?]. done.
  - cbn. unfold finish, mbind, SE_bind. rewrite Hp. destruct (d.(buffer)) eqn:Hb; cbn.
    + split; [done|]. by rewrite Hp.
    + split; [apply dead_wf | done].
Qed.

Lemma session_dead calls :
  session calls dead = (replicate (length calls) (Err Poisoned), dead).
Proof.
  induction calls as [|c calls IH]; [done|]. cbn [session]. rewrite call_dead, IH. done.
Qed.

Lemma poisoned_dead d : decoder_wf d → d.(poisoned) = true → d = dead.
Proof. destruct d. intros (_ & _ & Hb) Hp. cbn in *. unfold dead. by rewrite Hp, Hb. Qed.

(** What a session answers: successes, then possibly one failure, then
    [Poisoned] for ever. *)
Lemma session_shape calls d :
  decoder_wf d → d.(poisoned) = false →
  let '(rs, d') := session calls d in
  decoder_wf d' ∧
  ((d'.(poisoned) = false ∧ Forall (λ r, is_ok r = true) rs) ∨
   ∃ before e after, rs = before ++ Err e :: replicate after (Err Poisoned) ∧
     Forall (λ r, is_ok r = true) before ∧ d' = dead).
Proof.
  revert d. induction calls as [|c calls IH]; intros d Hd Hp; cbn [session].
  { split; [done|]. left. split; [done|constructor]. }
  destruct (call_spec c d Hd) as [Hd1 Hp1]. specialize (Hp1 Hp).
  destruct (call c d) as [d1 r]. cbn in Hd1, Hp1. destruct r as [ms|e]; cbn in Hp1.
  - specialize (IH d1 Hd1 Hp1). destruct (session calls d1) as [rs d'].
    destruct IH as [Hwf IH]. split; [done|].
    destruct IH as [[? ?]|(bf & e & af & -> & Hbf & ->)].
    + left. split; [done|]. by constructor.
    + right. exists (Ok ms :: bf), e, af. split_and!; [done|by constructor|done].
  - rewrite (poisoned_dead d1 Hd1 Hp1), session_dead. split; [apply dead_wf|].
    right. exists [], e, (length calls). split_and!; [done|constructor|done].
Qed.

Lemma feed_all_concat cs d :
  d.(poisoned) = false → feed_all (T:=T) cs d = feed (concat cs) d.
Proof.
  revert d. induction cs as [|c cs IH]; intros d Hd.
  { unfold feed. by rewrite Hd. }
  cbn [feed_all concat]. rewrite feed_app. unfold mbind, SE_bind.
  destruct (feed c d) as [d1 [ms|e]] eqn:E; [|done].
  unfold feed in E. rewrite Hd in E. apply feed_bytes_alive in E.
  by rewrite IH by congruence.
Qed.

Lemma decoder_new_wf : decoder_wf decoder_new.
Proof. split_and!; [apply not_elem_of_nil | done | done]. Qed.

(** An encoded message is one line that decodes to it. *)
Lemma encoded_line `{!JsonMessageLaws T} (m : T) l :
  encode_json_line m = Ok l → line l ∧ decode_json_line l = Ok m.
Proof.
  unfold encode_json_line. rewrite encode_emission_spec.
  destruct (emitted_text (serialize m)) as [text [|]] eqn:Et; [|by destruct (_ <? _)].
  destruct (Z.ltb_spec MAX_JSON_PAYLOAD_BYTES (len text)) as [|Hlen]; [done|].
  intros [= <-]. pose proof (json_no_control m text Et) as Hctl.
  assert (LF ∉ text) as Hlf.
  { intros Hin. eapply Forall_forall in Hctl; [|exact Hin]. by unfold LF in Hctl. }
  split; [by exists text|]. rewrite decode_line_spec by done.
  rewrite (proj2 (Z.leb_gt _ _)) by (unfold MAX_JSON_PAYLOAD_BYTES in Hlen; lia).
  rewrite (proj2 (ends_with_false CR text)).
  2: { intros p ->. apply Forall_app in Hctl as [_ Hctl]. by inversion Hctl. }
  pose proof (json_nonempty m text Et). destruct text; [done|].
  by rewrite (json_reads_back m _ Et).
Qed.

Lemma encoded_lines `{!JsonMessageLaws T} (messages : list T) encoded :
  traverse_list encode_json_line messages = Ok encoded →
  Forall line encoded ∧ traverse_list decode_json_line encoded = Ok messages.
Proof.
  rewrite !traverse_list_Ok. intros Henc.
  split; induction Henc as [|m l ms ls Hm%encoded_line _ IH]; constructor; naive_solver.
Qed.
End Facts.

(** ** Properties *)

Section Properties.
Context {T : Type} `{JsonMessage T}.

(** The encoder with its capped writer is the obvious one with an unbounded
    writer: whatever pieces the message is written in, and whether or not its
    serializer stops at a refused piece, the result is the whole text and one LF
    exactly when the text has at most 64 KiB - 1 bytes and serialization
    succeeded; a longer text is [LineTooLong] even when serialization failed too. *)
Theorem encode_json_line_exact (message : T) :
  let '(text, ok) := emitted_text (serialize message) in
  encode_json_line message =
    (if MAX_JSON_LINE_BYTES <? len text + 1 then Err LineTooLong
     else if ok then Ok (text ++ [LF]) else Err Serialization).
Proof.
  unfold encode_json_line. rewrite encode_emission_spec.
  destruct (emitted_text (serialize message)) as [text ok].
  unfold MAX_JSON_PAYLOAD_BYTES.
  by replace (MAX_JSON_LINE_BYTES <? len text + 1) with (MAX_JSON_LINE_BYTES - 1 <? len text)
    by (destruct (Z.ltb_spec (MAX_JSON_LINE_BYTES - 1) (len text)),
          (Z.ltb_spec MAX_JSON_LINE_BYTES (len text + 1)); lia).
Qed.

(** C18. Decoding incrementally is decoding line by line: a healthy decoder
    answers a chunk with the messages of the lines that the buffered bytes and
    the chunk make up, each decoded on its own, and keeps the unfinished rest;
    or it answers with the error of the first bad line, or [LineTooLong] for a
    rest that can no longer become a line, and is then dead.  How the stream is
    cut into chunks does not matter. *)
Theorem feed_is_line_decoder (d : JsonLineDecoder) (chunks : list (list Z)) :
  decoder_wf d → d.(poisoned) = false → chunks ≠ [] →
  feed_all (T:=T) chunks d = feed (concat chunks) d ∧
  (∀ lines rest, Forall line lines → LF ∉ rest →
     d.(buffer) ++ concat chunks = concat lines ++ rest →
     feed_all (T:=T) chunks d = feed_lines lines rest) ∧
  ∃ lines rest, Forall line lines ∧ LF ∉ rest ∧
     d.(buffer) ++ concat chunks = concat lines ++ rest.
Proof.
  intros Hd Hp Hne.
  split_and!; [by apply feed_all_concat| |apply framing_exists].
  intros lines rest Hls Hr Heq. rewrite feed_all_concat by done. by apply feed_decodes_lines.
Qed.

(** C23. A stream of encoded messages is decoded back to those messages, however
    it is cut into chunks; nothing stays buffered and the end of the stream is
    clean. *)
Theorem stream_roundtrip `{!JsonMessageLaws T} (messages : list T) encoded chunks :
  traverse_list encode_json_line messages = Ok encoded →
  concat chunks = concat encoded →
  feed_all chunks decoder_new = (decoder_new, Ok messages) ∧
  finish decoder_new = (decoder_new, Ok tt).
Proof.
  intros Henc Hc. split; [|done].
  apply encoded_lines in Henc as [Hls Hdec].
  rewrite feed_all_concat, Hc by done.
  rewrite (feed_decodes_lines _ decoder_new encoded []); [|split_and!|..]; try done.
  - unfold feed_lines. by rewrite Hdec.
  - apply not_elem_of_nil.
  - apply not_elem_of_nil.
  - by rewrite app_nil_r.
Qed.

(** C22. The decoder fails closed: in any use of it, calls succeed until the
    first violation; from then on every call, whatever it is given, answers
    [Poisoned], and the bytes that were buffered are gone.  At every moment the
    decoder holds less than 64 KiB, and no complete line. *)
Theorem decoder_fails_closed (calls : list DecoderCall) :
  let '(results, d) := session (T:=T) calls decoder_new in
  buffered_bytes d < MAX_JSON_LINE_BYTES ∧ LF ∉ d.(buffer) ∧
  ((is_poisoned d = false ∧ Forall (λ r, is_ok r = true) results) ∨
   ∃ before e after, results = before ++ Err e :: replicate after (Err Poisoned) ∧
     Forall (λ r, is_ok r = true) before ∧ is_poisoned d = true ∧ buffered_bytes d = 0).
Proof.
  pose proof (session_shape (T:=T) calls decoder_new decoder_new_wf eq_refl) as Hs.
  destruct (session calls decoder_new) as [rs d]. destruct Hs as [(Hb & Hl & _) Hs].
  split_and!; [done|done|].
  destruct Hs as [?|(bf & e & af & -> & ? & ->)]; [by left|right].
  exists bf, e, af. done.
Qed.

(** What each refusal of the one-record decoder means, in the order the
    checks are made; otherwise the answer is what the parser makes of the bytes
    before the terminator, and the parser's own refusals look the same. *)
Theorem decode_json_line_spec (frame : list Z) :
  (MAX_JSON_LINE_BYTES < len frame → decode_json_line (T:=T) frame = Err LineTooLong) ∧
  (len frame ≤ MAX_JSON_LINE_BYTES →
     ((∀ p, frame ≠ p ++ [LF]) → decode_json_line (T:=T) frame = Err UnterminatedLine) ∧
     ∀ p, frame = p ++ [LF] →
       (∀ q, p = q ++ [CR] → decode_json_line (T:=T) frame = Err NonCanonicalNewline) ∧
       ((∀ q, p ≠ q ++ [CR]) →
          (LF ∈ p → decode_json_line (T:=T) frame = Err MultipleFrames) ∧
          (LF ∉ p → decode_json_line (T:=T) frame =
             if bool_decide (p = []) then Err MalformedJson
             else ok_or (from_slice p) MalformedJson))).
Proof.
  unfold decode_json_line. split.
  { intros Hl. by rewrite (proj2 (Z.ltb_lt _ _) Hl). }
  intros Hl. rewrite (proj2 (Z.ltb_ge _ _) Hl). split.
  { intros Hn. destruct (strip_last LF frame) as [p|] eqn:E; [|done].
    apply strip_last_Some in E. naive_solver. }
  intros p ->. rewrite strip_last_snoc. split.
  { intros q ->. unfold ends_with. by rewrite strip_last_snoc. }
  intros Hcr%ends_with_false. rewrite Hcr. split; intros Hp.
  - by rewrite (proj2 (contains_spec LF p) Hp).
  - destruct (existsb (Z.eqb LF) p) eqn:E; [by apply contains_spec in E|].
    by destruct p.
Qed.
End Properties.

(** ** Witnesses *)

(** JSON booleans: the literal is one write. *)
Definition json_true : list Z := [116; 114; 117; 101].
Definition json_false : list Z := [102; 97; 108; 115; 101].
#[local] Instance json_bool : JsonMessage bool := {|
  serialize (b : bool) := Emit (if b then json_true else json_false) (λ ok, Emitted ok);
  from_slice s := if decide (s = json_true) then Some true
                  else if decide (s = json_false) then Some false else None;
|}.
#[local] Instance json_bool_laws : JsonMessageLaws bool.
Proof.
  split; intros [] text Ht; cbn in Ht; injection Ht as <-; try done;
    repeat constructor; done.
Qed.

Lemma feed_is_line_decoder_witness :
  feed_all (T:=bool) [[117; 101; LF; 102]; [97]] {| buffer := [116; 114]; poisoned := false |} =
    ({| buffer := [102; 97]; poisoned := false |}, Ok [true]) ∧
  feed_all (T:=bool) [[117; 101; LF; 102]; [97]] {| buffer := [116; 114]; poisoned := false |} =
    feed_lines [json_true ++ [LF]] [102; 97].
Proof.
  split; [vm_compute; reflexivity|].
  apply (feed_is_line_decoder (T:=bool)).
  - split_and!; [by_decide | reflexivity | discriminate].
  - reflexivity.
  - discriminate.
  - repeat constructor. exists json_true. split; [reflexivity | by_decide].
  - by_decide.
  - reflexivity.
Defined.

Lemma stream_roundtrip_witness :
  feed_all [[116; 114]; [117; 101; LF; 102; 97]; []; [108; 115; 101; LF]] decoder_new =
    (decoder_new, Ok [true; false]).
Proof.
  apply (stream_roundtrip [true; false] [json_true ++ [LF]; json_false ++ [LF]]);
    vm_compute; reflexivity.
Defined.
