(* ===== verification/Protocol.v ===== *)
(** * The display-socket protocol  (crates/ipc/src/protocol.rs)

    Capability sets and their wire decoding, the validated identifiers and exact
    integers of the wire, the client messages, the handshake state machine of
    one connection ([HandshakeGuard]), the replay registry shared by all
    connections and the sequence tracker.  The random bytes of the operating
    system are an argument; serde hands the decoder a list of strings. *)
From stdpp Require Import gmap countable prelude.
From S2P Require Import Prelude Ordering Text Externals Scope.
Local Open Scope Z_scope.

Definition MAX_EXACT_JSON_INTEGER : Z := 9007199254740991.
Definition PROTOCOL_V1_MAJOR : Z := 1.
Definition PROTOCOL_V1_MINOR : Z := 0.
Definition MIN_SUPPORTED_PROTOCOL_MAJOR : Z := PROTOCOL_V1_MAJOR - 1.
Definition MAX_REPLAY_SESSIONS : Z := 256.
Definition MAX_CAPABILITIES : Z := 32.
Definition MAX_CAPABILITY_NAME_BYTES : Z := 64.
Definition MAX_PUBLIC_ROUTE_ID_BYTES : Z := 96.
Definition FRONTEND_SESSION_ID_HEX_BYTES : Z := 32.
Definition BACKEND_STREAM_ID_HEX_BYTES : Z := 32.
Definition BACKEND_STREAM_ID_RANDOM_BYTES : Z := BACKEND_STREAM_ID_HEX_BYTES / 2.

(** ** Versions *)

Module ProtocolVersion.
Record t := new { major : Z; minor : Z }.
#[global] Instance eq_dec : EqDecision t.
Proof. solve_decision. Defined.
End ProtocolVersion.
Notation ProtocolVersion := ProtocolVersion.t.

Module BridgeVersion.
Record t := new { major : Z; minor : Z; patch : Z }.
#[global] Instance eq_dec : EqDecision t.
Proof. solve_decision. Defined.
End BridgeVersion.
Notation BridgeVersion := BridgeVersion.t.

(** ** Capabilities *)

Module Capability.
Inductive t :=
| DisplaySnapshots
| ProviderAccounts
| Settings
| RuntimeActions
| WidgetGeometry
| PanelState
| Notifications
| ActionProgress
| CompatibilityErrors.

#[global] Instance eq_dec : EqDecision t.
Proof. solve_decision. Defined.

(** The derived order: by declaration. *)
Definition index (c : t) : Z :=
  match c with
  | DisplaySnapshots => 0
  | ProviderAccounts => 1
  | Settings => 2
  | RuntimeActions => 3
  | WidgetGeometry => 4
  | PanelState => 5
  | Notifications => 6
  | ActionProgress => 7
  | CompatibilityErrors => 8
  end.
#[global] Instance index_inj : Inj (=) (=) index.
Proof. by intros [] []. Qed.
#[global] Instance t_Cmp : Cmp t := cmp_on index.
#[global] Instance t_CmpLaws : CmpLaws t.
Proof. apply cmp_on_laws, _. Qed.

(** serde's [snake_case] name of each capability. *)
Definition wire_name (c : t) : str :=
  match c with
  | DisplaySnapshots => lit "display_snapshots"
  | ProviderAccounts => lit "provider_accounts"
  | Settings => lit "settings"
  | RuntimeActions => lit "runtime_actions"
  | WidgetGeometry => lit "widget_geometry"
  | PanelState => lit "panel_state"
  | Notifications => lit "notifications"
  | ActionProgress => lit "action_progress"
  | CompatibilityErrors => lit "compatibility_errors"
  end.

Definition from_wire_name (value : str) : option t :=
  if decide (value = lit "display_snapshots") then Some DisplaySnapshots
  else if decide (value = lit "provider_accounts") then Some ProviderAccounts
  else if decide (value = lit "settings") then Some Settings
  else if decide (value = lit "runtime_actions") then Some RuntimeActions
  else if decide (value = lit "widget_geometry") then Some WidgetGeometry
  else if decide (value = lit "panel_state") then Some PanelState
  else if decide (value = lit "notifications") then Some Notifications
  else if decide (value = lit "action_progress") then Some ActionProgress
  else if decide (value = lit "compatibility_errors") then Some CompatibilityErrors
  else None.

Lemma from_wire_name_Some value c : from_wire_name value = Some c ↔ value = wire_name c.
Proof.
  split; [|by intros ->; destruct c].
  unfold from_wire_name. intros Hv.
  repeat match type of Hv with
  | (if decide ?P then _ else _) = _ => destruct (decide P) as [->|]; [by injection Hv as <-|]
  end. done.
Qed.
End Capability.
Notation Capability := Capability.t.

Module CapabilitySet.
Inductive error := TooMany | Duplicate | InvalidName.
#[global] Instance error_eq_dec : EqDecision error.
Proof. solve_decision. Defined.

(** The canonical sorted vector. *)
Record t := mk { as_slice : list Capability }.
#[global] Instance eq_dec : EqDecision t.
Proof. solve_decision. Defined.

Definition empty : t := mk [].

Definition new (capabilities : list Capability) : Result error t :=
  if MAX_CAPABILITIES <? Z.of_nat (length capabilities) then Err TooMany else
  let capabilities := sort_by_key id capabilities in
  if adjacent_dup id capabilities then Err Duplicate else
  Ok (mk capabilities).

(** [binary_search] of a sorted slice finds a capability exactly when the slice
    has it. *)
Definition contains (s : t) (capability : Capability) : bool :=
  bool_decide (capability ∈ as_slice s).

Definition intersection (s other : t) : t :=
  mk (filter (λ capability, contains other capability = true) (as_slice s)).

Definition wf (s : t) : Prop := strictly_sorted id (as_slice s).

(** [CapabilityName::deserialize]: canonical snake case. *)
Definition valid_character (b : Z) : bool := is_ascii_lower b || is_ascii_digit b.
Fixpoint double_underscore (bytes : list Z) : bool :=
  match bytes with
  | b :: ((c :: _) as rest) => ((b =? 95) && (c =? 95)) || double_underscore rest
  | _ => false
  end.
Definition is_canonical (value : str) : bool :=
  let bytes := as_bytes value in
  negb (is_empty bytes)
  && (Z.of_nat (length bytes) <=? MAX_CAPABILITY_NAME_BYTES)
  && match head bytes with Some b => valid_character b | None => false end
  && match last bytes with Some b => valid_character b | None => false end
  && forallb (λ b, valid_character b || (b =? 95)) bytes
  && negb (double_underscore bytes).
Definition capability_name (value : str) : Result error str :=
  if is_canonical value then Ok value else Err InvalidName.

(** The visitor's loop over the wire names. *)
Fixpoint visit_names (sequence : list str) (names : gset str)
    (capabilities : list Capability) : Result error (list Capability) :=
  match sequence with
  | [] => Ok capabilities
  | value :: sequence =>
      name ← capability_name value;
      if Z.of_nat (size names) =? MAX_CAPABILITIES then Err TooMany else
      if bool_decide (name ∈ names) then Err Duplicate else
      let names := {[name]} ∪ names in
      match Capability.from_wire_name name with
      | Some capability => visit_names sequence names (capabilities ++ [capability])
      | None => visit_names sequence names capabilities
      end
  end.
Definition deserialize (sequence : list str) : Result error t :=
  capabilities ← visit_names sequence ∅ [];
  new capabilities.
Definition serialize (s : t) : list str := Capability.wire_name <$> as_slice s.
End CapabilitySet.
Notation CapabilitySet := CapabilitySet.t.

(** ** Identifiers *)

(** 32 lowercase hexadecimal bytes: both session and stream identifiers. *)
Definition is_hex_id (bytes : Z) (value : str) : bool :=
  (str_len value =? bytes)
  && forallb (λ b, is_ascii_digit b || ((97 <=? b) && (b <=? 102))) (as_bytes value).

Module FrontendSessionId.
Inductive error := FrontendSessionIdError.
Record t := mk { as_str : str }.
#[global] Instance eq_dec : EqDecision t.
Proof. solve_decision. Defined.
#[global] Instance countable : Countable t.
Proof. refine (inj_countable' as_str mk _). by intros []. Defined.
Definition parse (value : str) : Result error t :=
  if negb (is_hex_id FRONTEND_SESSION_ID_HEX_BYTES value)
  then Err FrontendSessionIdError else Ok (mk value).
End FrontendSessionId.
Notation FrontendSessionId := FrontendSessionId.t.

Module BackendStreamId.
Inductive error := BackendStreamIdError.
Record t := mk { as_str : str }.
#[global] Instance eq_dec : EqDecision t.
Proof. solve_decision. Defined.
Definition parse (value : str) : Result error t :=
  if negb (is_hex_id BACKEND_STREAM_ID_HEX_BYTES value)
  then Err BackendStreamIdError else Ok (mk value).

Definition LOWER_HEX : str := lit "0123456789abcdef".
Definition hex_digit (n : Z) : Z := LOWER_HEX !!! Z.to_nat n.
Definition encode_byte (byte : Z) : str :=
  [hex_digit (Z.shiftr byte 4); hex_digit (Z.land byte 15)].
(** [generate], given what [getrandom] answers. *)
Definition generate {E} (random : Result E (list Z)) : Result E t :=
  random ← random; Ok (mk (random ≫= encode_byte)).
End BackendStreamId.
Notation BackendStreamId := BackendStreamId.t.

Inductive WireIntegerError := WireZero | ExceedsExactJsonRange.

(** [exact_wire_integer!]: [RequestId] and [Sequence]. *)
Module WireInteger.
Record t := mk { get : Z }.
#[global] Instance eq_dec : EqDecision t.
Proof. solve_decision. Defined.
Definition new (value : Z) : Result WireIntegerError t :=
  if value =? 0 then Err WireZero
  else if MAX_EXACT_JSON_INTEGER <? value then Err ExceedsExactJsonRange
  else Ok (mk value).
Definition ltb (a b : t) : bool := get a <? get b.
Definition leb (a b : t) : bool := get a <=? get b.
End WireInteger.
Notation RequestId := WireInteger.t.
Notation Sequence := WireInteger.t.

Module PublicRouteId.
Inductive error := PublicRouteIdError.
Record t := mk { as_str : str }.
#[global] Instance eq_dec : EqDecision t.
Proof. solve_decision. Defined.
Definition is_alphanumeric (b : Z) : bool := is_ascii_lower b || is_ascii_digit b.
Definition is_separator (b : Z) : bool :=
  (b =? 45) || (b =? 95) || (b =? 46) || (b =? 58).
Definition parse (value : str) : Result error t :=
  if is_empty value || (MAX_PUBLIC_ROUTE_ID_BYTES <? str_len value)
  then Err PublicRouteIdError else
  let bytes := as_bytes value in
  if match head bytes, last bytes with
     | Some first, Some final => negb (is_alphanumeric first) || negb (is_alphanumeric final)
     | _, _ => true
     end
  then Err PublicRouteIdError else
  if existsb (λ b, negb (is_alphanumeric b) && negb (is_separator b)) bytes
  then Err PublicRouteIdError else
  Ok (mk value).
End PublicRouteId.
Notation PublicRouteId := PublicRouteId.t.

(** ** Messages *)

Inductive NavigationDestination :=
| NavGeneral | NavProviders | NavDisplay | NavNotifications | NavUsageAndSpend
| NavSessions | NavHooks | NavPlugins | NavFleetSync | NavAdvanced | NavAbout.
Inductive ExportFormat := ExportJson | ExportCsv | ExportPng.
Inductive ApprovalDecision := ApproveOnce | ApproveAlways | Deny.

Inductive RuntimeAction :=
| OpenPanel
| ClosePanel
| TogglePanel
| RefreshAll
| RefreshProvider (provider : ProviderId)
| SwitchAccount (provider : ProviderId) (instance account : PublicRouteId)
| Navigate (destination : NavigationDestination)
| BeginLogin (provider : ProviderId)
| LogOut (provider : ProviderId) (account : PublicRouteId)
| OpenProviderDashboard (provider : ProviderId)
| Export (format : ExportFormat)
| InstallPlugin (plugin : PublicRouteId)
| ResolveApproval (approval_id : RequestId) (decision : ApprovalDecision)
| CancelRequest (target_request_id : RequestId)
| Quit.

Module ClientHello.
Record t := new {
  protocol : ProtocolVersion;
  bridge_version : BridgeVersion;
  session_id : FrontendSessionId;
  capabilities : CapabilitySet;
}.
End ClientHello.
Notation ClientHello := ClientHello.t.

Module ServerHello.
Record t := mk {
  protocol : ProtocolVersion;
  stream_id : BackendStreamId;
  capabilities : CapabilitySet;
}.
End ServerHello.
Notation ServerHello := ServerHello.t.

Inductive ClientMessage :=
| Hello (protocol : ProtocolVersion) (bridge_version : BridgeVersion)
    (session_id : FrontendSessionId) (capabilities : CapabilitySet)
| Action (request_id : RequestId) (action : RuntimeAction)
| SnapshotAck (sequence : Sequence).

Definition as_hello (m : ClientMessage) : option ClientHello :=
  match m with
  | Hello protocol bridge_version session_id capabilities =>
      Some (ClientHello.new protocol bridge_version session_id capabilities)
  | Action _ _ | SnapshotAck _ => None
  end.
Definition client_hello_message (h : ClientHello) : ClientMessage :=
  Hello (ClientHello.protocol h) (ClientHello.bridge_version h)
    (ClientHello.session_id h) (ClientHello.capabilities h).

(** ** Handshake *)

Inductive HandshakeError :=
| UnsupportedMajor (received supported : Z)
| HelloRequired
| AlreadyComplete
| CapabilityNotNegotiated (required : Capability).

Definition negotiate_bridge (client : ClientHello) (server_capabilities : CapabilitySet)
    (stream_id : BackendStreamId) : Result HandshakeError ServerHello :=
  let major := ProtocolVersion.major (ClientHello.protocol client) in
  if negb ((MIN_SUPPORTED_PROTOCOL_MAJOR <=? major) && (major <=? PROTOCOL_V1_MAJOR))
  then Err (UnsupportedMajor major PROTOCOL_V1_MAJOR)
  else Ok (ServerHello.mk (ProtocolVersion.new major PROTOCOL_V1_MINOR) stream_id
             (CapabilitySet.intersection (ClientHello.capabilities client) server_capabilities)).

Inductive AcceptedClientFrame :=
| AcceptedHello (hello : ServerHello)
| AcceptedAction (session_id : FrontendSessionId) (request_id : RequestId)
    (action : RuntimeAction)
| AcceptedSnapshotAck (session_id : FrontendSessionId) (sequence : Sequence).

Module NegotiatedSession.
Record t := mk { session_id : FrontendSessionId; hello : ServerHello }.
End NegotiatedSession.
Notation NegotiatedSession := NegotiatedSession.t.

Module HandshakeGuard.
Record t := mk {
  server_capabilities : CapabilitySet;
  stream_id : BackendStreamId;
  session : option NegotiatedSession;
}.

Definition set_session (session : option NegotiatedSession) (g : t) : t :=
  mk (server_capabilities g) (stream_id g) session.

Definition ready_with (g : t) (required : Capability)
    : Result HandshakeError NegotiatedSession :=
  session ← ok_or (session g) HelloRequired;
  if negb (CapabilitySet.contains
             (ServerHello.capabilities (NegotiatedSession.hello session)) required)
  then Err (CapabilityNotNegotiated required)
  else Ok session.

Definition accept (message : ClientMessage) : SE t HandshakeError AcceptedClientFrame :=
  match message with
  | Hello _ _ _ _ =>
      g ← se_gets id;
      if match session g with Some _ => true | None => false end
      then se_fail AlreadyComplete else
      hello ← se_lift (ok_or (as_hello message) HelloRequired);
      negotiated ← se_lift (negotiate_bridge hello (server_capabilities g) (stream_id g));
      se_modify (set_session
        (Some (NegotiatedSession.mk (ClientHello.session_id hello) negotiated))) ;;
      mret (AcceptedHello negotiated)
  | Action request_id action =>
      g ← se_gets id;
      session ← se_lift (ready_with g Capability.RuntimeActions);
      mret (AcceptedAction (NegotiatedSession.session_id session) request_id action)
  | SnapshotAck sequence =>
      g ← se_gets id;
      session ← se_lift (ready_with g Capability.DisplaySnapshots);
      mret (AcceptedSnapshotAck (NegotiatedSession.session_id session) sequence)
  end.

Definition is_complete (g : t) : bool :=
  match session g with Some _ => true | None => false end.
Definition negotiated (g : t) : option ServerHello := NegotiatedSession.hello <$> session g.
Definition session_id (g : t) : option FrontendSessionId :=
  NegotiatedSession.session_id <$> session g.
End HandshakeGuard.
Notation HandshakeGuard := HandshakeGuard.t.

Module ServerHandshakeContext.
Record t := with_stream_id {
  server_capabilities : CapabilitySet;
  stream_id : BackendStreamId;
}.
Definition new {E} (server_capabilities : CapabilitySet) (random : Result E (list Z))
    : Result E t :=
  stream_id ← BackendStreamId.generate random;
  Ok (with_stream_id server_capabilities stream_id).
Definition connection (c : t) : HandshakeGuard :=
  HandshakeGuard.mk (server_capabilities c) (stream_id c) None.
End ServerHandshakeContext.
Notation ServerHandshakeContext := ServerHandshakeContext.t.

(** A connection: each frame with its answer. *)
Fixpoint run_connection (g : HandshakeGuard) (frames : list ClientMessage)
    : list (Result HandshakeError AcceptedClientFrame) * HandshakeGuard :=
  match frames with
  | [] => ([], g)
  | f :: fs =>
      let '(g, r) := HandshakeGuard.accept f g in
      let '(rs, g) := run_connection g fs in (r :: rs, g)
  end.

(** ** Replay protection *)

Inductive RequestReplayDisposition := New | Replay | Stale.
#[global] Instance RequestReplayDisposition_eq_dec : EqDecision RequestReplayDisposition.
Proof. solve_decision. Defined.
Inductive RequestReplayRegistryError := InvalidCapacity.

Module RequestReplayRegistry.
Record t := mk {
  capacity : Z;
  last_requests : gmap FrontendSessionId RequestId;
  recency : list FrontendSessionId;
}.

Definition new (capacity : Z) : Result RequestReplayRegistryError t :=
  if negb ((1 <=? capacity) && (capacity <=? MAX_REPLAY_SESSIONS)) then Err InvalidCapacity
  else Ok (mk capacity ∅ []).

Definition len (r : t) : Z := Z.of_nat (size (last_requests r)).
Definition last (r : t) (session_id : FrontendSessionId) : option RequestId :=
  last_requests r !! session_id.

(** [mark_recent]: the first equal entry is removed, if there is one. *)
Definition mark_recent (session_id : FrontendSessionId) (recency : list FrontendSessionId)
    : list FrontendSessionId :=
  match list_find (λ entry, entry = session_id) recency with
  | Some (index, _) => delete index recency
  | None => recency
  end ++ [session_id].

(** [pop_front] at a full registry. *)
Definition evict (r : t) : t :=
  if len r =? capacity r then
    match recency r with
    | evicted :: recency => mk (capacity r) (delete evicted (last_requests r)) recency
    | [] => r
    end
  else r.

Definition observe (session_id : FrontendSessionId) (request_id : RequestId) (r : t)
    : t * RequestReplayDisposition :=
  match last_requests r !! session_id with
  | Some last =>
      let r := mk (capacity r) (last_requests r) (mark_recent session_id (recency r)) in
      match WireInteger.get request_id ?= WireInteger.get last with
      | Gt => (mk (capacity r) (<[session_id := request_id]> (last_requests r)) (recency r), New)
      | Eq => (r, Replay)
      | Lt => (r, Stale)
      end
  | None =>
      let r := evict r in
      (mk (capacity r) (<[session_id := request_id]> (last_requests r))
          (recency r ++ [session_id]), New)
  end.

Fixpoint observe_all (requests : list (FrontendSessionId * RequestId)) (r : t) : t :=
  match requests with
  | [] => r
  | (s, i) :: requests => observe_all requests (observe s i r).1
  end.
End RequestReplayRegistry.
Notation RequestReplayRegistry := RequestReplayRegistry.t.

(** ** Snapshot sequence *)

Inductive SequenceDisposition := SequenceAccepted | SequenceStale.

Module SequenceTracker.
Record t := mk { last : option Sequence }.
Definition default : t := mk None.

Definition observe (sequence : Sequence) (t0 : t) : t * SequenceDisposition :=
  if match last t0 with Some last => WireInteger.leb sequence last | None => false end
  then (t0, SequenceStale)
  else (mk (Some sequence), SequenceAccepted).

Definition retain_if_fresh {A} (sequence : Sequence) (value : A) (t0 : t) : t * option A :=
  match observe sequence t0 with
  | (t0, SequenceAccepted) => (t0, Some value)
  | (t0, SequenceStale) => (t0, None)
  end.

(** The values that survive of a stream of snapshots. *)
Fixpoint retain_all {A} (stream : list (Sequence * A)) (t0 : t) : list (Sequence * A) :=
  match stream with
  | [] => []
  | (s, a) :: stream =>
      match retain_if_fresh s a t0 with
      | (t0, Some a) => (s, a) :: retain_all stream t0
      | (t0, None) => retain_all stream t0
      end
  end.
End SequenceTracker.
Notation SequenceTracker := SequenceTracker.t.

(** ** Facts about one connection *)

(** The answer to a frame before any accepted hello. *)
Definition refused (f : ClientMessage) (r : Result HandshakeError AcceptedClientFrame) : Prop :=
  match f with
  | Hello v _ _ _ =>
      ¬ (MIN_SUPPORTED_PROTOCOL_MAJOR ≤ ProtocolVersion.major v ≤ PROTOCOL_V1_MAJOR) ∧
      r = Err (UnsupportedMajor (ProtocolVersion.major v) PROTOCOL_V1_MAJOR)
  | _ => r = Err HelloRequired
  end.

(** The answer to a frame after it: by the negotiated capabilities alone. *)
Definition authorized (s : NegotiatedSession) (required : Capability)
    (frame : AcceptedClientFrame) : Result HandshakeError AcceptedClientFrame :=
  if decide (required ∈ CapabilitySet.as_slice
                          (ServerHello.capabilities (NegotiatedSession.hello s)))
  then Ok frame else Err (CapabilityNotNegotiated required).
Definition answered (s : NegotiatedSession) (f : ClientMessage)
    : Result HandshakeError AcceptedClientFrame :=
  match f with
  | Hello _ _ _ _ => Err AlreadyComplete
  | Action i a => authorized s Capability.RuntimeActions
                    (AcceptedAction (NegotiatedSession.session_id s) i a)
  | SnapshotAck i => authorized s Capability.DisplaySnapshots
                       (AcceptedSnapshotAck (NegotiatedSession.session_id s) i)
  end.

Lemma accept_complete g s f :
  HandshakeGuard.session g = Some s → HandshakeGuard.accept f g = (g, answered s f).
Proof.
  intros Hs. destruct f; cbn; unfold mbind, SE_bind, se_gets, se_lift, se_fail;
    cbn; unfold HandshakeGuard.ready_with; rewrite Hs; cbn; [done| |];
    unfold CapabilitySet.contains, authorized; case_bool_decide; case_decide; done.
Qed.

Lemma accept_incomplete g f :
  HandshakeGuard.session g = None →
  (∃ r, HandshakeGuard.accept f g = (g, r) ∧ refused f r) ∨
  ∃ v b sid caps hello, f = Hello v b sid caps ∧
    MIN_SUPPORTED_PROTOCOL_MAJOR ≤ ProtocolVersion.major v ≤ PROTOCOL_V1_MAJOR ∧
    hello = ServerHello.mk (ProtocolVersion.new (ProtocolVersion.major v) PROTOCOL_V1_MINOR)
      (HandshakeGuard.stream_id g)
      (CapabilitySet.intersection caps (HandshakeGuard.server_capabilities g)) ∧
    HandshakeGuard.accept f g =
      (HandshakeGuard.set_session (Some (NegotiatedSession.mk sid hello)) g,
       Ok (AcceptedHello hello)).
Proof.
  intros Hs. destruct f as [v b sid caps|i a|i].
  2, 3: left; cbn; unfold mbind, SE_bind, se_gets, se_lift; cbn;
    unfold HandshakeGuard.ready_with; rewrite Hs; cbn; eauto.
  cbn. unfold mbind, SE_bind, se_gets, se_lift; cbn. rewrite Hs. cbn.
  unfold negotiate_bridge. cbn.
  destruct (Z.leb_spec MIN_SUPPORTED_PROTOCOL_MAJOR (ProtocolVersion.major v)),
    (Z.leb_spec (ProtocolVersion.major v) PROTOCOL_V1_MAJOR); cbn.
  2, 3, 4: left; eexists; split; [reflexivity|]; split; [lia|reflexivity].
  right. exists v, b, sid, caps. eexists. split_and!; reflexivity || lia.
Qed.

Lemma run_complete g s frames :
  HandshakeGuard.session g = Some s → run_connection g frames = (answered s <$> frames, g).
Proof.
  intros Hs. induction frames as [|f fs IH]; [done|]. cbn [run_connection].
  by rewrite (accept_complete _ _ _ Hs), IH.
Qed.

Lemma run_shape g frames :
  HandshakeGuard.session g = None →
  let '(results, g') := run_connection g frames in
  (g' = g ∧ Forall2 refused frames results) ∨
  ∃ before v b sid caps after hello refusals,
    frames = before ++ Hello v b sid caps :: after ∧
    results = refusals ++ Ok (AcceptedHello hello)
                :: (answered (NegotiatedSession.mk sid hello) <$> after) ∧
    Forall2 refused before refusals ∧
    MIN_SUPPORTED_PROTOCOL_MAJOR ≤ ProtocolVersion.major v ≤ PROTOCOL_V1_MAJOR ∧
    hello = ServerHello.mk (ProtocolVersion.new (ProtocolVersion.major v) PROTOCOL_V1_MINOR)
      (HandshakeGuard.stream_id g)
      (CapabilitySet.intersection caps (HandshakeGuard.server_capabilities g)) ∧
    g' = HandshakeGuard.set_session (Some (NegotiatedSession.mk sid hello)) g.
Proof.
  intros Hs. induction frames as [|f fs IH]; cbn [run_connection].
  { left. split; [done|constructor]. }
  destruct (accept_incomplete g f Hs)
    as [(r & Ha & Hr)|(v & b & sid & caps & hello & -> & Hv & Hh & Ha)]; rewrite Ha.
  - destruct (run_connection g fs) as [rs g'].
    destruct IH as [[-> IH]|(bf & v & b & sid & caps & af & h & rf & -> & -> & ? & ? & ? & ->)].
    + left. split; [done|by constructor].
    + right. exists (f :: bf), v, b, sid, caps, af, h, (r :: rf).
      split_and!; try done; [by constructor|lia|lia].
  - rewrite (run_complete _ (NegotiatedSession.mk sid hello)) by done.
    right. exists [], v, b, sid, caps, fs, hello, []. split_and!; try done; constructor || lia.
Qed.

Lemma elem_of_intersection_set c a b :
  c ∈ CapabilitySet.as_slice (CapabilitySet.intersection a b) ↔
  c ∈ CapabilitySet.as_slice a ∧ c ∈ CapabilitySet.as_slice b.
Proof.
  cbn. rewrite list_elem_of_filter. unfold CapabilitySet.contains.
  rewrite bool_decide_eq_true. tauto.
Qed.

(** ** Facts about the replay registry *)

Module ReplayFacts.
Import RequestReplayRegistry.
Implicit Types (s : FrontendSessionId) (r : RequestReplayRegistry).

(** The recency queue lists the registered sessions, each once, within the
    capacity. *)
Record wf (r : t) : Prop := {
  wf_capacity : 1 ≤ capacity r;
  wf_nodup : NoDup (recency r);
  wf_keys s : s ∈ recency r ↔ is_Some (last_requests r !! s);
  wf_bound : Z.of_nat (length (recency r)) ≤ capacity r;
}.

Lemma len_recency r : wf r → len r = Z.of_nat (length (recency r)).
Proof.
  intros Hr. unfold len. f_equal. rewrite <-size_dom.
  rewrite <-(size_list_to_set (C:=gset FrontendSessionId) (recency r)) by apply Hr.
  f_equal. apply set_eq. intros s. rewrite elem_of_dom, elem_of_list_to_set.
  symmetry. apply Hr.
Qed.

Lemma mark_recent_split s l1 l2 :
  NoDup (l1 ++ s :: l2) → mark_recent s (l1 ++ s :: l2) = l1 ++ l2 ++ [s].
Proof.
  intros Hnd. unfold mark_recent.
  assert (list_find (λ e, e = s) (l1 ++ s :: l2) = Some (length l1, s)) as ->.
  { apply list_find_Some. split_and!; [by apply list_lookup_middle|done|].
    intros j y Hj Hlt <-. rewrite lookup_app_l in Hj by done.
    apply NoDup_app in Hnd as (_ & Hd & _). apply (Hd y); [|left].
    by eapply list_elem_of_lookup_2. }
  rewrite delete_middle. by rewrite <-app_assoc.
Qed.

Lemma observe_wf s i r : wf r → wf (observe s i r).1.
Proof.
  intros Hr. unfold observe. destruct (last_requests r !! s) as [last|] eqn:Hs.
  - assert (s ∈ recency r) as Hin by (apply Hr; eauto).
    apply list_elem_of_split in Hin as (l1 & l2 & Hrec).
    pose proof (wf_nodup r Hr) as Hnd. rewrite Hrec in *.
    rewrite mark_recent_split by done.
    assert (l1 ++ l2 ++ [s] ≡ₚ recency r) as Hp by (rewrite Hrec; solve_Permutation).
    assert (wf (mk (capacity r) (last_requests r) (l1 ++ l2 ++ [s]))) as Hw.
    { split; cbn; [apply Hr | rewrite Hp, Hrec; done | intros x; rewrite Hp; apply Hr |].
      rewrite Hp. apply Hr. }
    destruct (_ ?= _); [done|done|].
    split; cbn; [apply Hw | apply Hw | | apply Hw].
    intros x. rewrite lookup_insert_is_Some. rewrite (wf_keys _ Hw x). cbn.
    destruct (decide (s = x)) as [->|]; naive_solver.
  - assert (s ∉ recency r) as Hnin by (rewrite (wf_keys r Hr), Hs; by intros [? ?]).
    unfold evict. rewrite (len_recency r Hr).
    destruct (Z.eqb_spec (Z.of_nat (length (recency r))) (capacity r)) as [Hfull|Hroom].
    + destruct Hr as [Hc Hnd Hk Hb]. destruct (recency r) as [|e l]; cbn in *; [lia|].
      apply NoDup_cons in Hnd as [He Hnd]. apply not_elem_of_cons in Hnin as [Hse Hsl].
      split; cbn; [done| | |rewrite length_app; cbn; lia].
      * apply NoDup_app; split_and!; [done| |apply NoDup_singleton]. set_solver.
      * intros x. rewrite lookup_insert_is_Some, lookup_delete_is_Some, <-Hk.
        rewrite elem_of_app, list_elem_of_singleton, elem_of_cons.
        destruct (decide (s = x)), (decide (e = x)); naive_solver.
    + destruct Hr as [Hc Hnd Hk Hb]. split; cbn; [done| | |rewrite length_app; cbn; lia].
      * apply NoDup_app; split_and!; [done| |apply NoDup_singleton]. set_solver.
      * intros x. rewrite lookup_insert_is_Some, <-Hk, elem_of_app, list_elem_of_singleton.
        destruct (decide (s = x)); naive_solver.
Qed.

Lemma registry_new_wf c r : new c = Ok r → wf r ∧ capacity r = c ∧ recency r = [].
Proof.
  unfold new. destruct (Z.leb_spec 1 c), (Z.leb_spec c MAX_REPLAY_SESSIONS); cbn; try done.
  intros [= <-]. split; [|done]. split; cbn; [done|constructor| |lia].
  intros s. rewrite lookup_empty, is_Some_alt. set_solver.
Qed.

Lemma observe_capacity s i r : capacity (observe s i r).1 = capacity r.
Proof.
  unfold observe. destruct (last_requests r !! s); [by destruct (_ ?= _)|].
  unfold evict. destruct (_ =? _); [by destruct (recency r)|done].
Qed.

Lemma observe_all_app a b r : observe_all (a ++ b) r = observe_all b (observe_all a r).
Proof. revert r. induction a as [|[s i] a IH]; intros r; cbn; auto. Qed.

Lemma observe_all_wf ops r : wf r → wf (observe_all ops r) ∧ capacity (observe_all ops r) = capacity r.
Proof.
  revert r. induction ops as [|[s i] ops IH]; intros r Hr; [done|]. cbn.
  rewrite <-(observe_capacity s i r). apply IH, observe_wf, Hr.
Qed.

(** The answer by the last accepted identifier. *)
Definition classify (last : option RequestId) (i : RequestId) : RequestReplayDisposition :=
  match last with
  | None => New
  | Some v => if WireInteger.get v <? WireInteger.get i then New
              else if WireInteger.get v =? WireInteger.get i then Replay else Stale
  end.

Lemma observe_answer s i r : (observe s i r).2 = classify (last r s) i.
Proof.
  unfold observe, last, classify. destruct (last_requests r !! s) as [v|]; [|done].
  destruct (Z.compare_spec (WireInteger.get i) (WireInteger.get v)),
    (Z.ltb_spec (WireInteger.get v) (WireInteger.get i)),
    (Z.eqb_spec (WireInteger.get v) (WireInteger.get i)); done || lia.
Qed.

Lemma observe_last_same s i r :
  last (observe s i r).1 s =
  Some (if decide (classify (last r s) i = New) then i else default i (last r s)).
Proof.
  rewrite <-observe_answer. unfold observe, last.
  destruct (last_requests r !! s) as [v|] eqn:Hs.
  - destruct (_ ?= _); cbn; [done|done|by rewrite lookup_insert_eq].
  - cbn. by rewrite lookup_insert_eq.
Qed.

(** What is known is something that was observed. *)
Lemma last_observed s ops r v :
  last (observe_all ops r) s = Some v → last r s = Some v ∨ (s, v) ∈ ops.
Proof.
  revert r. induction ops as [|[x i] ops IH]; intros r; [by left|]. cbn.
  intros [Hl|Hin]%IH; [|right; by right].
  destruct (decide (x = s)) as [->|Hne].
  - rewrite observe_last_same in Hl. injection Hl as Hl. case_decide; [subst; right; left|].
    destruct (last r s) as [w|]; cbn in *; subst; [by left|right; left].
  - left. revert Hl. unfold observe, last. destruct (last_requests r !! x).
    + destruct (_ ?= _); cbn; [done|done|by rewrite lookup_insert_ne].
    + cbn. rewrite lookup_insert_ne by done. unfold evict.
      destruct (_ =? _); [|done]. destruct (recency r) as [|e l]; [done|]. cbn.
      rewrite lookup_delete_Some. by intros [_ ?].
Qed.

(** While a session is followed by few others in the queue it is kept, and its
    last identifier never decreases. *)
Definition followers (s : FrontendSessionId) (ops : list (FrontendSessionId * RequestId))
    : gset FrontendSessionId := list_to_set (ops.*1) ∖ {[s]}.

Definition kept (s : FrontendSessionId) (i : RequestId) (seen : gset FrontendSessionId)
    (r : t) : Prop :=
  wf r ∧ (∃ v, last r s = Some v ∧ WireInteger.get i ≤ WireInteger.get v) ∧
  ∃ l1 l2, recency r = l1 ++ s :: l2 ∧ Forall (λ x, x ∈ seen) l2.

Lemma kept_observe s i r : wf r → kept s i ∅ (observe s i r).1.
Proof.
  intros Hr. split_and!; [by apply observe_wf| |].
  - rewrite observe_last_same. eexists; split; [done|].
    unfold classify. destruct (last r s) as [v|]; cbn; [|done].
    destruct (Z.ltb_spec (WireInteger.get v) (WireInteger.get i)); case_decide; try done; try lia.
  - unfold observe. destruct (last_requests r !! s) as [v|] eqn:Hs.
    + assert (∃ l, mark_recent s (recency r) = l ++ [s]) as [l Hl] by (by eexists).
      exists l, []. split; [|constructor]. destruct (_ ?= _); done.
    + by exists (recency (evict r)), [].
Qed.

Section Kept.
Context (s : FrontendSessionId) (i : RequestId) (all : gset FrontendSessionId).
Context (Hs : s ∉ all).

Lemma last_ge x j r v :
  last r s = Some v → (x = s ∨ (last (observe x j r).1 s = last r s)) →
  ∃ v', last (observe x j r).1 s = Some v' ∧ WireInteger.get v ≤ WireInteger.get v'.
Proof using.
  intros Hv [->|Hsame]; [|rewrite Hsame; exists v; split; [done|lia]].
  rewrite observe_last_same, Hv. cbn. eexists; split; [done|].
  unfold classify. destruct (Z.ltb_spec (WireInteger.get v) (WireInteger.get j)), (WireInteger.get v =? WireInteger.get j);
    case_decide; cbn; done || lia.
Qed.

(** A registered session comes to the back of the queue. *)
Lemma kept_known x j r v :
  kept s i all r → x ∈ all → last_requests r !! x = Some v → kept s i all (observe x j r).1.
Proof using Hs.
  intros (Hr & (w & Hw & Hiw) & l1 & l2 & Hrec & Hl2) Hx Hv.
  assert (x ≠ s) as Hxs by set_solver.
  split_and!; [by apply observe_wf| |].
  - exists w. split; [|done]. unfold observe, last. rewrite Hv.
    destruct (_ ?= _); cbn; [done|done|]. by rewrite lookup_insert_ne.
  - assert (recency (observe x j r).1 = mark_recent x (recency r)) as ->.
    { unfold observe. rewrite Hv. by destruct (_ ?= _). }
    assert (x ∈ recency r) as Hin by (apply Hr; eauto).
    pose proof (wf_nodup r Hr) as Hnd. rewrite Hrec in *.
    apply elem_of_app in Hin as [Hin|[->|Hin]%elem_of_cons]; [|done|];
      apply list_elem_of_split in Hin as (k1 & k2 & ->).
    + exists (k1 ++ k2), (l2 ++ [x]). split.
      * rewrite <-app_assoc in *. rewrite <-app_comm_cons in *.
        rewrite mark_recent_split by done. by rewrite <-!app_assoc.
      * apply Forall_app. split; [done|]. by constructor.
    + exists l1, (k1 ++ k2 ++ [x]). split.
      * rewrite app_comm_cons, app_assoc in *. rewrite mark_recent_split by done.
        by rewrite <-!app_assoc.
      * apply Forall_app in Hl2 as [? Hk]. apply Forall_cons in Hk as [_ Hk].
        apply Forall_app; split; [done|]. apply Forall_app; split; [done|]. by constructor.
Qed.

(** A new session may evict the front of the queue, which is not [s] while
    fewer sessions than the capacity can stand behind it. *)
Lemma kept_unknown x j r :
  kept s i all r → x ∈ all → Z.of_nat (size all) < capacity r →
  last_requests r !! x = None → kept s i all (observe x j r).1.
Proof using Hs.
  intros (Hr & (w & Hw & Hiw) & l1 & l2 & Hrec & Hl2) Hx Hsz Hv.
  assert (x ≠ s) as Hxs by set_solver.
  assert (x ∉ recency r) as Hnin by (rewrite (wf_keys r Hr), Hv; by intros [? ?]).
  split; [by apply observe_wf|].
  unfold observe, last. rewrite Hv. unfold evict. rewrite (len_recency r Hr).
  destruct (Z.eqb_spec (Z.of_nat (length (recency r))) (capacity r)) as [Hfull|Hroom]; cbn.
  - destruct l1 as [|e l1]; cbn in Hrec.
    { exfalso. pose proof (wf_nodup r Hr) as Hnd. rewrite Hrec in Hnd, Hfull, Hnin.
      apply NoDup_cons in Hnd as [_ Hnd]. apply not_elem_of_cons in Hnin as [_ Hnin].
      assert (length (x :: l2) ≤ size all)%nat as Hle; [|cbn in *; lia].
      rewrite <-(size_list_to_set (C:=gset FrontendSessionId) (x :: l2)) by (by constructor).
      apply subseteq_size. intros y. rewrite elem_of_list_to_set.
      intros [->|Hy]%elem_of_cons; [done|]. by eapply Forall_forall in Hl2. }
    pose proof (wf_nodup r Hr) as Hnd. rewrite Hrec in *. cbn.
    apply NoDup_cons in Hnd as [He _].
    split.
    + exists w. split; [|done]. rewrite lookup_insert_ne by done.
      rewrite lookup_delete_ne; [done|]. intros ->. apply He. set_solver.
    + exists l1, (l2 ++ [x]). split; [by rewrite <-app_assoc|].
      apply Forall_app. split; [done|]. by constructor.
  - split.
    + exists w. split; [|done]. by rewrite lookup_insert_ne.
    + exists l1, (l2 ++ [x]). rewrite Hrec. split; [by rewrite <-app_assoc|].
      apply Forall_app. split; [done|]. by constructor.
Qed.

Lemma kept_step x j r :
  kept s i all r → x = s ∨ x ∈ all → Z.of_nat (size all) < capacity r →
  kept s i all (observe x j r).1.
Proof using Hs.
  intros Hk [->|Hx] Hsz.
  - destruct Hk as (Hr & (v & Hv & Hiv) & _).
    destruct (kept_observe s j r Hr) as (Hr' & _ & l1 & l2 & Hrec & Hl2).
    split_and!; [done| |].
    + destruct (last_ge s j r v Hv) as (v' & ? & ?); [by left|]. exists v'. split; [done|lia].
    + exists l1, l2. split; [done|]. eapply Forall_impl; [exact Hl2|]. set_solver.
  - destruct (last_requests r !! x) as [v|] eqn:Hv;
      [by eapply kept_known | by apply kept_unknown].
Qed.

Lemma kept_all mid r :
  kept s i all r → followers s mid ⊆ all → Z.of_nat (size all) < capacity r →
  kept s i all (observe_all mid r).
Proof using Hs.
  revert r. induction mid as [|[x j] mid IH]; intros r Hk Hsub Hsz; [done|]. cbn.
  apply IH; [|unfold followers in *; set_solver|by rewrite observe_capacity].
  apply kept_step; [done| |done].
  unfold followers in Hsub. destruct (decide (x = s)); [by left|right; set_solver].
Qed.
End Kept.

(** A request of [s] is remembered while fewer than [capacity] other sessions
    come after it. *)
Lemma remembered pre s i mid r :
  wf r → Z.of_nat (size (followers s mid)) < capacity r →
  ∃ v, last (observe_all (pre ++ (s, i) :: mid) r) s = Some v ∧
    WireInteger.get i ≤ WireInteger.get v.
Proof.
  intros Hr Hsz. rewrite observe_all_app. cbn.
  destruct (observe_all_wf pre r Hr) as [Hr1 Hc].
  destruct (kept_all s i (followers s mid) ltac:(unfold followers; set_solver) mid
    (observe s i (observe_all pre r)).1) as (_ & (v & Hv & Hi) & _); [| |by rewrite observe_capacity, Hc|by eauto].
  - destruct (kept_observe s i (observe_all pre r) Hr1) as (Hw & Hl & l1 & l2 & Hrec & Hl2).
    split_and!; [done|done|]. exists l1, l2. split; [done|].
    eapply Forall_impl; [exact Hl2|]. set_solver.
  - done.
Qed.
End ReplayFacts.

(** ** Facts about capability sets *)

Module CapabilityFacts.
Import CapabilitySet.

Definition every_capability : list Capability :=
  [Capability.DisplaySnapshots; Capability.ProviderAccounts; Capability.Settings;
   Capability.RuntimeActions; Capability.WidgetGeometry; Capability.PanelState;
   Capability.Notifications; Capability.ActionProgress; Capability.CompatibilityErrors].

Lemma few_capabilities (l : list Capability) :
  NoDup l → Z.of_nat (length l) ≤ MAX_CAPABILITIES.
Proof.
  intros Hl. assert (length l ≤ length every_capability)%nat as H.
  { apply NoDup_length_le; [done|]. intros [] _; by_decide. }
  cbn in H. unfold MAX_CAPABILITIES. lia.
Qed.

Lemma capability_new_Ok l s :
  new l = Ok s ↔ NoDup l ∧ wf s ∧ as_slice s ≡ₚ l.
Proof.
  unfold new. split.
  - destruct (_ <? _) eqn:?; [done|].
    destruct (adjacent_dup id (sort_by_key id l)) eqn:E; [done|]. intros [= <-].
    apply adjacent_dup_sort in E. rewrite list_fmap_id in E. split_and!; [done| |apply sort_by_key_perm].
    unfold wf. cbn. apply sort_by_key_strict. by rewrite list_fmap_id.
  - intros (Hnd & Hw & Hp).
    rewrite (proj2 (Z.ltb_ge _ _)) by by apply few_capabilities.
    destruct (adjacent_dup id (sort_by_key id l)) eqn:E.
    { apply not_false_iff_true in E as []. apply adjacent_dup_sort. by rewrite list_fmap_id. }
    f_equal. destruct s as [k]. f_equal. cbn in Hp, Hw.
    rewrite <-(sort_by_key_id id k) by done. apply sort_by_key_unique.
    + by rewrite list_fmap_id.
    + by symmetry.
Qed.

Lemma wire_name_inj : Inj (=) (=) Capability.wire_name.
Proof.
  intros c d Hcd. assert (Some c = Some d) as [=]; [|done].
  rewrite <-(proj2 (Capability.from_wire_name_Some (Capability.wire_name c) c) eq_refl).
  rewrite Hcd. by apply Capability.from_wire_name_Some.
Qed.

(** The visitor's loop, from any set of names already seen. *)
Lemma visit_names_Ok sequence names caps r :
  Z.of_nat (size names) ≤ MAX_CAPABILITIES →
  visit_names sequence names caps = Ok r ↔
  Forall (λ n, is_canonical n = true) sequence ∧ NoDup sequence ∧
  (∀ n, n ∈ sequence → n ∉ names) ∧
  Z.of_nat (size names) + Z.of_nat (length sequence) ≤ MAX_CAPABILITIES ∧
  r = caps ++ omap Capability.from_wire_name sequence.
Proof.
  revert names caps. induction sequence as [|n sq IH]; intros names caps Hmax; cbn [visit_names].
  { cbn. rewrite app_nil_r. split; [intros [= <-]|intros (_ & _ & _ & _ & ->); done].
    split_and!; [constructor|constructor|set_solver|lia|done]. }
  unfold capability_name. rewrite Forall_cons, NoDup_cons.
  destruct (is_canonical n); cbn [mbind Result_bind]; [|naive_solver].
  destruct (Z.eqb_spec (Z.of_nat (size names)) MAX_CAPABILITIES) as [Hf|Hf].
  { split; [done|]. intros (_ & _ & _ & Hsz & _). cbn in Hsz. lia. }
  case_bool_decide as Hin.
  { split; [done|]. intros (_ & _ & Hd & _). exfalso. by apply (Hd n); [left|]. }
  assert (size ({[n]} ∪ names) = S (size names)) as Hsize.
  { rewrite size_union, size_singleton by set_solver. done. }
  assert (∀ caps', visit_names sq ({[n]} ∪ names) caps' = Ok r ↔
    Forall (λ n, is_canonical n = true) sq ∧ (n ∉ sq ∧ NoDup sq) ∧
    (∀ m, m ∈ n :: sq → m ∉ names) ∧
    Z.of_nat (size names) + Z.of_nat (length (n :: sq)) ≤ MAX_CAPABILITIES ∧
    r = caps' ++ omap Capability.from_wire_name sq) as Hrec.
  { intros caps'. rewrite IH by lia. rewrite Hsize. cbn [length].
    split; intros (? & ? & Hd & ? & ?).
    - split_and!; try done; [|set_solver|lia].
      intros Hn. apply (Hd n Hn). set_solver.
    - split_and!; try tauto; [set_solver|lia]. }
  cbn [omap list_omap]. destruct (Capability.from_wire_name n) as [c|].
  - rewrite Hrec, <-app_assoc. cbn. tauto.
  - rewrite Hrec. tauto.
Qed.

(** Distinct names denote distinct capabilities. *)
Lemma omap_wire_NoDup names : NoDup names → NoDup (omap Capability.from_wire_name names).
Proof.
  induction 1 as [|n names Hn _ IH]; cbn; [constructor|].
  destruct (Capability.from_wire_name n) as [c|] eqn:Hc; [|done].
  constructor; [|done]. intros (m & Hm & Hcm)%list_elem_of_omap.
  apply Capability.from_wire_name_Some in Hc, Hcm. by subst.
Qed.

Lemma deserialize_Ok names s :
  deserialize names = Ok s ↔
  Forall (λ n, is_canonical n = true) names ∧ NoDup names ∧
  Z.of_nat (length names) ≤ MAX_CAPABILITIES ∧
  wf s ∧ ∀ c, c ∈ as_slice s ↔ Capability.wire_name c ∈ names.
Proof.
  assert (∀ c, c ∈ omap Capability.from_wire_name names ↔ Capability.wire_name c ∈ names) as Hom.
  { intros c. rewrite list_elem_of_omap. setoid_rewrite Capability.from_wire_name_Some.
    naive_solver. }
  unfold deserialize. rewrite bind_Ok. setoid_rewrite capability_new_Ok.
  setoid_rewrite visit_names_Ok; [|by rewrite size_empty].
  rewrite size_empty. split.
  - intros (caps & (Hcan & Hnd & _ & Hl & ->) & Hnd' & Hw & Hp). split_and!; try done; try lia.
    intros c. by rewrite Hp, <-Hom.
  - intros (Hcan & Hnd & Hl & Hw & Hm). exists (omap Capability.from_wire_name names).
    pose proof (omap_wire_NoDup names Hnd). split_and!; try done; try lia; try (intros ? _; apply not_elem_of_empty).
    apply NoDup_Permutation; [|done|].
    + apply (strictly_sorted_NoDup id) in Hw. by rewrite list_fmap_id in Hw.
    + intros c. by rewrite Hm, Hom.
Qed.

Lemma serialize_deserialize s : wf s → deserialize (serialize s) = Ok s.
Proof.
  intros Hw. assert (NoDup (as_slice s)) as Hnd.
  { apply (strictly_sorted_NoDup id) in Hw. by rewrite list_fmap_id in Hw. }
  apply deserialize_Ok. unfold serialize. split_and!.
  - apply Forall_fmap, Forall_forall. intros [] _; vm_compute; reflexivity.
  - apply NoDup_fmap; [apply wire_name_inj|done].
  - rewrite length_fmap. by apply few_capabilities.
  - done.
  - intros c. rewrite list_elem_of_fmap. split; [eauto|].
    intros (d & Hd%wire_name_inj & Hin). by subst.
Qed.

Lemma intersection_wf a b : wf a → wf (intersection a b).
Proof.
  unfold wf, intersection. cbn. generalize (as_slice a). intros l Hl.
  induction Hl as [|c l Hl IH Hc]; [constructor|].
  rewrite filter_cons. case_decide; [|done].
  constructor; [done|]. apply Forall_forall. intros d [_ Hd]%list_elem_of_filter.
  by eapply Forall_forall in Hc.
Qed.
End CapabilityFacts.

Module TrackerFacts.
Import SequenceTracker.

Lemma retain_if_fresh_spec {A} s (a : A) t0 :
  retain_if_fresh s a t0 =
  if match last t0 with Some l => WireInteger.get s <=? WireInteger.get l | None => false end
  then (t0, None) else (mk (Some s), Some a).
Proof.
  unfold retain_if_fresh, observe, WireInteger.leb.
  destruct (last t0) as [l|]; [by destruct (_ <=? _)|done].
Qed.

(** What is kept is newer than the tracker, strictly increasing, and it is
    exactly what was newer than everything before it. *)
Lemma retain_all_spec {A} (stream : list (Sequence * A)) t0 :
  let kept := retain_all stream t0 in
  Sorted.StronglySorted (λ x y, WireInteger.get x.1 < WireInteger.get y.1) kept ∧
  Forall (λ x, ∀ l, last t0 = Some l → WireInteger.get l < WireInteger.get x.1) kept ∧
  kept `sublist_of` stream ∧
  ∀ before s a after, stream = before ++ (s, a) :: after →
    (∀ l, last t0 = Some l → WireInteger.get l < WireInteger.get s) →
    Forall (λ x, WireInteger.get x.1 < WireInteger.get s) before → (s, a) ∈ kept.
Proof.
  revert t0. induction stream as [|[s a] stream IH]; intros t0; cbn.
  { split_and!; [constructor|constructor|constructor|]. by intros []. }
  rewrite retain_if_fresh_spec.
  destruct (match last t0 with Some l => _ | None => _ end) eqn:Hold.
  - destruct (IH t0) as (Hs & Hn & Hsub & Hall).
    split_and!; [done|done|by constructor|].
    intros before s' a' after Heq Hl Hb. destruct before as [|b before]; simplify_eq/=.
    + destruct (last t0) as [l|]; [|done]. apply Z.leb_le in Hold.
      specialize (Hl l eq_refl). lia.
    + apply Forall_cons in Hb as [_ Hb]. by eapply Hall.
  - destruct (IH (mk (Some s))) as (Hs & Hn & Hsub & Hall).
    assert (∀ l, last t0 = Some l → WireInteger.get l < WireInteger.get s) as Hnew.
    { intros l Hl. rewrite Hl in Hold. by apply Z.leb_gt in Hold. }
    split_and!.
    + constructor; [done|]. eapply Forall_impl; [exact Hn|]. intros x Hx. by apply Hx.
    + constructor; [done|]. eapply Forall_impl; [exact Hn|]. intros x Hx l Hl.
      specialize (Hx s eq_refl). specialize (Hnew l Hl). lia.
    + by constructor.
    + intros before s' a' after Heq Hl Hb. destruct before as [|b before]; simplify_eq/=; [left|].
      right. apply Forall_cons in Hb as [Hbs Hb]. eapply Hall; [done| |done].
      by intros l [= <-].
Qed.
End TrackerFacts.

(** ** Facts about stream identifiers *)

Module StreamFacts.
Import BackendStreamId.

(** A fact about every byte, by evaluation. *)
Lemma for_bytes (p : Z → bool) b :
  forallb p (seqZ 0 256) = true → 0 ≤ b < 256 → p b = true.
Proof.
  intros Hall Hb. eapply (proj1 (forallb_forall p _) Hall), list_elem_of_In, elem_of_seqZ. lia.
Qed.

Definition is_hex (b : Z) : bool := is_ascii_digit b || ((97 <=? b) && (b <=? 102)).

Lemma encode_byte_hex b : 0 ≤ b < 256 → forallb is_hex (encode_byte b) = true.
Proof. apply (for_bytes (λ b, forallb is_hex (encode_byte b))). vm_compute. reflexivity. Qed.

Definition hex_value (c : Z) : Z := if is_ascii_digit c then c - 48 else c - 87.
Lemma encode_byte_value b c d :
  0 ≤ b < 256 → encode_byte b = [c; d] → b = 16 * hex_value c + hex_value d.
Proof.
  intros Hb. assert (16 * hex_value (hex_digit (Z.shiftr b 4))
    + hex_value (hex_digit (Z.land b 15)) =? b = true) as Hv.
  { apply (for_bytes (λ b, 16 * hex_value (hex_digit (Z.shiftr b 4))
      + hex_value (hex_digit (Z.land b 15)) =? b)); [vm_compute; reflexivity|done]. }
  apply Z.eqb_eq in Hv. intros [= <- <-]. lia.
Qed.

Lemma encode_bytes_inj l k :
  Forall (λ b, 0 ≤ b < 256) l → Forall (λ b, 0 ≤ b < 256) k →
  l ≫= encode_byte = k ≫= encode_byte → l = k.
Proof.
  intros Hl. revert k. induction Hl as [|b l Hb _ IH]; intros k Hk.
  { destruct Hk; [done|]. cbn. unfold encode_byte. done. }
  destruct Hk as [|c k Hc Hk]; [done|]. rewrite !bind_cons. unfold encode_byte at 1 3. cbn [app].
  intros [= E1 E2 E3]. f_equal; [|by apply IH].
  rewrite (encode_byte_value b _ _ Hb eq_refl), (encode_byte_value c _ _ Hc eq_refl).
  by rewrite E1, E2.
Qed.

Lemma encode_bytes_hex l :
  Forall (λ b, 0 ≤ b < 256) l →
  Forall (λ c, is_hex c = true) (l ≫= encode_byte) ∧
  length (l ≫= encode_byte) = (2 * length l)%nat.
Proof.
  induction 1 as [|b l Hb _ [IH1 IH2]]; [by split; [constructor|]|].
  apply encode_byte_hex, forallb_Forall_eq in Hb. rewrite bind_cons.
  split; [by apply Forall_app|]. rewrite length_app, IH2. cbn. lia.
Qed.
End StreamFacts.

(** ** Properties *)

(** Sixteen random bytes make a stream identifier of the wire's own form: it
    parses back to itself, and two processes have the same identifier only if
    they drew the same bytes. *)
Theorem stream_id_valid {E} (bytes : list Z) (id : BackendStreamId) :
  Z.of_nat (length bytes) = BACKEND_STREAM_ID_RANDOM_BYTES →
  Forall (λ b, 0 ≤ b < 256) bytes →
  BackendStreamId.generate (E:=E) (Ok bytes) = Ok id →
  BackendStreamId.parse (BackendStreamId.as_str id) = Ok id ∧
  ∀ bytes', Forall (λ b, 0 ≤ b < 256) bytes' →
    BackendStreamId.generate (E:=E) (Ok bytes') = Ok id → bytes' = bytes.
Proof.
  intros Hlen Hb [= <-]. split.
  - destruct (StreamFacts.encode_bytes_hex bytes Hb) as [Hhex Hl].
    assert (Forall (λ c, c < 128) (bytes ≫= BackendStreamId.encode_byte)) as Hascii.
    { eapply Forall_impl; [exact Hhex|]. intros c. unfold StreamFacts.is_hex.
      rewrite orb_true_iff, andb_true_iff, is_ascii_digit_range, Z.leb_le. lia. }
    unfold BackendStreamId.parse, is_hex_id. cbn [BackendStreamId.as_str].
    rewrite as_bytes_ascii, str_len_ascii by done.
    rewrite (proj2 (Z.eqb_eq _ _)).
    2: { rewrite Hl. unfold BACKEND_STREAM_ID_RANDOM_BYTES, BACKEND_STREAM_ID_HEX_BYTES in *.
         change (32 / 2) with 16 in Hlen. lia. }
    rewrite (proj2 (forallb_Forall_eq _ _)); [done|exact Hhex].
  - intros bytes' Hb' [= Heq]. by apply StreamFacts.encode_bytes_inj.
Qed.

(** C29. The whole life of a connection.  Either no hello has been accepted:
    then nothing was, hellos were refused for their major version and other
    frames because a hello was required, and the state is still the initial one.
    Or exactly one hello was, within the supported majors: it was answered with
    this process's stream and the capabilities both sides have; every later
    hello is refused, and actions and acknowledgements are accepted, under the
    session of that hello, exactly when their capability was negotiated. *)
Theorem handshake_protocol (context : ServerHandshakeContext) (frames : list ClientMessage) :
  let '(results, guard) := run_connection (ServerHandshakeContext.connection context) frames in
  (guard = ServerHandshakeContext.connection context ∧ Forall2 refused frames results ∧
   HandshakeGuard.is_complete guard = false) ∨
  ∃ before version bridge session capabilities after hello refusals,
    frames = before ++ Hello version bridge session capabilities :: after ∧
    results = refusals ++ Ok (AcceptedHello hello)
                :: (answered (NegotiatedSession.mk session hello) <$> after) ∧
    Forall2 refused before refusals ∧
    MIN_SUPPORTED_PROTOCOL_MAJOR ≤ ProtocolVersion.major version ≤ PROTOCOL_V1_MAJOR ∧
    ServerHello.protocol hello
      = ProtocolVersion.new (ProtocolVersion.major version) PROTOCOL_V1_MINOR ∧
    ServerHello.stream_id hello = ServerHandshakeContext.stream_id context ∧
    (∀ c, c ∈ CapabilitySet.as_slice (ServerHello.capabilities hello) ↔
       c ∈ CapabilitySet.as_slice capabilities ∧
       c ∈ CapabilitySet.as_slice (ServerHandshakeContext.server_capabilities context)) ∧
    HandshakeGuard.session_id guard = Some session ∧
    HandshakeGuard.negotiated guard = Some hello.
Proof.
  pose proof (run_shape (ServerHandshakeContext.connection context) frames eq_refl) as Hs.
  destruct (run_connection _ frames) as [rs g].
  destruct Hs as [[-> Hr]|(bf & v & b & sid & caps & af & h & rf & -> & -> & Hr & Hv & Hh & ->)].
  - by left.
  - right. exists bf, v, b, sid, caps, af, h, rf. split_and!; try done; try lia; subst h; try done.
    intros c. apply elem_of_intersection_set.
Qed.

(** No request is executed twice: once a request of a session was observed,
    a request of the same session with the same or a smaller identifier is never
    [New] again while fewer other sessions than the capacity have shown up in
    between, and the answer is then exact; a request larger than everything its
    session has sent is always [New]; and the registry never outgrows its
    capacity. *)
Theorem replay_protection capacity registry before session i between j :
  RequestReplayRegistry.new capacity = Ok registry →
  let state := RequestReplayRegistry.observe_all (before ++ (session, i) :: between) registry in
  let answer := (RequestReplayRegistry.observe session j state).2 in
  RequestReplayRegistry.len state ≤ capacity ∧
  (Z.of_nat (size (ReplayFacts.followers session between)) < capacity →
     ∃ v, (session, v) ∈ before ++ (session, i) :: between ∧
       (∀ k, k = i ∨ (session, k) ∈ between → WireInteger.get k ≤ WireInteger.get v) ∧
       answer = ReplayFacts.classify (Some v) j) ∧
  ((∀ k, (session, k) ∈ before ++ (session, i) :: between →
      WireInteger.get k < WireInteger.get j) → answer = New).
Proof.
  intros Hnew. apply ReplayFacts.registry_new_wf in Hnew as (Hw & Hc & Hr). cbn zeta.
  set (ops := before ++ (session, i) :: between).
  destruct (ReplayFacts.observe_all_wf ops registry Hw) as [Hws Hcs].
  assert (∀ v, RequestReplayRegistry.last (RequestReplayRegistry.observe_all ops registry) session
                 = Some v → (session, v) ∈ ops) as Hobs.
  { intros v [Hl|?]%ReplayFacts.last_observed; [|done]. exfalso.
    assert (session ∈ RequestReplayRegistry.recency registry) as Hin.
    { apply (ReplayFacts.wf_keys _ Hw). eauto. }
    rewrite Hr in Hin. by apply not_elem_of_nil in Hin. }
  rewrite ReplayFacts.observe_answer. split_and!.
  - rewrite ReplayFacts.len_recency by done. rewrite <-Hc, <-Hcs. apply Hws.
  - intros Hsz. rewrite <-Hc in Hsz.
    destruct (ReplayFacts.remembered before session i between registry Hw Hsz) as (v & Hv & Hi).
    fold ops in Hv. rewrite Hv. exists v. split_and!; [by apply Hobs| |done].
    intros k [->|Hk]; [done|]. apply list_elem_of_split in Hk as (m1 & m2 & ->).
    destruct (ReplayFacts.remembered (before ++ (session, i) :: m1) session k m2 registry Hw)
      as (v' & Hv' & Hk).
    { eapply Z.le_lt_trans; [|exact Hsz]. apply inj_le, subseteq_size.
      unfold ReplayFacts.followers. rewrite fmap_app, fmap_cons. set_solver. }
    unfold ops in Hv. rewrite <-app_assoc in Hv'. cbn in Hv'. congruence.
  - intros Hj. destruct (RequestReplayRegistry.last _ session) as [v|] eqn:Hv; [|done]. cbn.
    by rewrite (proj2 (Z.ltb_lt _ _) (Hj v (Hobs v eq_refl))).
Qed.

(** The tracker keeps, of any stream of snapshots, exactly those that are
    newer than all before them; their sequence numbers strictly increase. *)
Theorem sequence_tracker_exact {A} (stream : list (Sequence * A)) :
  let kept := SequenceTracker.retain_all stream SequenceTracker.default in
  kept `sublist_of` stream ∧
  Sorted.StronglySorted (λ x y, WireInteger.get x.1 < WireInteger.get y.1) kept ∧
  (∀ before s a after, stream = before ++ (s, a) :: after →
     Forall (λ x, WireInteger.get x.1 < WireInteger.get s) before → (s, a) ∈ kept).
Proof.
  destruct (TrackerFacts.retain_all_spec stream SequenceTracker.default)
    as (Hs & _ & Hsub & Hall).
  split_and!; [done|done|]. intros bf s a af Heq Hb. by eapply Hall.
Qed.

(** The wire form of a capability set: the decoder accepts exactly the lists
    of at most 32 distinct canonical names, whatever their order, ignores the
    names it does not know and holds the known ones in canonical order; a set
    decodes from what it encodes to. *)
Theorem capability_set_wire (names : list str) (s : CapabilitySet) :
  (CapabilitySet.deserialize names = Ok s ↔
     Forall (λ n, CapabilitySet.is_canonical n = true) names ∧ NoDup names ∧
     Z.of_nat (length names) ≤ MAX_CAPABILITIES ∧ CapabilitySet.wf s ∧
     ∀ c, c ∈ CapabilitySet.as_slice s ↔ Capability.wire_name c ∈ names) ∧
  (CapabilitySet.wf s → CapabilitySet.deserialize (CapabilitySet.serialize s) = Ok s) ∧
  (∀ l, CapabilitySet.new l = Ok s ↔ NoDup l ∧ CapabilitySet.wf s ∧ CapabilitySet.as_slice s ≡ₚ l) ∧
  (CapabilitySet.wf s → ∀ other, CapabilitySet.wf (CapabilitySet.intersection s other)).
Proof.
  split_and!; [apply CapabilityFacts.deserialize_Ok | apply CapabilityFacts.serialize_deserialize
    | intros l; apply CapabilityFacts.capability_new_Ok
    | intros Hs other; by apply CapabilityFacts.intersection_wf].
Qed.

(** ** Witnesses *)

Lemma replay_protection_witness :
  let s := FrontendSessionId.mk (lit "0123456789abcdef0123456789abcdef") in
  let s' := FrontendSessionId.mk (lit "00000000000000000000000000000001") in
  let r := RequestReplayRegistry.mk 2 ∅ [] in
  (RequestReplayRegistry.observe s (WireInteger.mk 7)
     (RequestReplayRegistry.observe_all
        [(s, WireInteger.mk 7); (s', WireInteger.mk 1); (s', WireInteger.mk 2)] r)).2 = Replay.
Proof.
  intros s s' r.
  destruct (replay_protection 2 r [] s (WireInteger.mk 7)
    [(s', WireInteger.mk 1); (s', WireInteger.mk 2)] (WireInteger.mk 7) eq_refl)
    as (_ & Hrep & _).
  cbn [app] in Hrep. destruct Hrep as (v & Hv & _ & ->); [vm_compute; reflexivity|].
  apply elem_of_cons in Hv as [[= ->]|[[=]|[[=]|[]%elem_of_nil]%elem_of_cons]%elem_of_cons].
  reflexivity.
Defined.

Lemma stream_id_valid_witness :
  let id := BackendStreamId.mk (lit "00010203040506070809fafbfcfdfeff") in
  BackendStreamId.parse (BackendStreamId.as_str id) = Ok id.
Proof.
  intros id.
  apply (stream_id_valid (E:=unit)
    [0; 1; 2; 3; 4; 5; 6; 7; 8; 9; 250; 251; 252; 253; 254; 255] id).
  - reflexivity.
  - repeat constructor; discriminate.
  - vm_compute. reflexivity.
Defined.
