(* ===== verification/FrontendPresence.v ===== *)
(** * Presence of a frontend  (crates/ipc/src/frontend_presence.rs)

    The policy that shows the tray fallback when no compatible frontend has been
    connected for a grace period, and its specification: a machine that only
    remembers who is connected and since when nobody is. *)
From stdpp Require Import gmap countable prelude.
From S2P Require Import Prelude Ordering Text Externals Scope Scheduler Protocol.
Local Open Scope Z_scope.

Inductive SniStatus := SniActive | SniPassive.

Inductive FrontendCompatibility := Compatible | Incompatible.

Definition from_server_hello (hello : ServerHello) : FrontendCompatibility :=
  if CapabilitySet.contains (ServerHello.capabilities hello) Capability.DisplaySnapshots
  then Compatible else Incompatible.

(** [FrontendConnectionId(NonZeroU64)] *)
Definition FrontendConnectionId : Type := Z.
(** [NonZeroU64::new] *)
Definition non_zero (value : Z) : option Z := if value =? 0 then None else Some value.

Inductive GraceDeadline := At (deadline : Duration) | BeyondRange.
Inductive FallbackState := Active | Suppressed | Waiting (deadline : GraceDeadline).

Inductive FrontendPresenceError :=
| NonMonotonicTime (last_observed attempted : Duration)
| ConnectionIdSpaceExhausted.

#[global] Instance SniStatus_eq_dec : EqDecision SniStatus.
Proof. solve_decision. Defined.
#[global] Instance FrontendPresenceError_eq_dec : EqDecision FrontendPresenceError.
Proof. solve_decision. Defined.

Record FrontendPresence := mk_presence {
  grace_period : Duration;
  observed_at : Duration;
  next_connection_id : option Z;
  compatible_connections : gset Z;
  fallback : FallbackState;
}.

(** [Duration::checked_add] *)
Definition duration_checked_add (a b : Duration) : option Duration :=
  checked_add DURATION_MAX a b.

Definition after_grace (grace_period now : Duration) : FallbackState :=
  if grace_period =? 0 then Active else
  match duration_checked_add now grace_period with
  | Some deadline => Waiting (At deadline)
  | None => Waiting BeyondRange
  end.

Definition new (grace_period started_at : Duration) : FrontendPresence :=
  mk_presence grace_period started_at (non_zero 1) ∅ (after_grace grace_period started_at).

Definition set_observed_at (t : Duration) (p : FrontendPresence) : FrontendPresence :=
  mk_presence (grace_period p) t (next_connection_id p) (compatible_connections p) (fallback p).
Definition set_next_connection_id (n : option Z) (p : FrontendPresence) : FrontendPresence :=
  mk_presence (grace_period p) (observed_at p) n (compatible_connections p) (fallback p).
Definition set_connections (c : gset Z) (p : FrontendPresence) : FrontendPresence :=
  mk_presence (grace_period p) (observed_at p) (next_connection_id p) c (fallback p).
Definition set_fallback (f : FallbackState) (p : FrontendPresence) : FrontendPresence :=
  mk_presence (grace_period p) (observed_at p) (next_connection_id p)
    (compatible_connections p) f.

Definition observe (now : Duration) : SE FrontendPresence FrontendPresenceError unit :=
  last_observed ← se_gets observed_at;
  if now <? last_observed then se_fail (NonMonotonicTime last_observed now) else
  se_modify (set_observed_at now) ;;
  state ← se_gets fallback;
  match state with
  | Waiting (At deadline) =>
      if deadline <=? now then se_modify (set_fallback Active) else mret tt
  | _ => mret tt
  end.

Definition status (p : FrontendPresence) : SniStatus :=
  match fallback p with
  | Active => SniActive
  | Suppressed | Waiting _ => SniPassive
  end.

Definition next_deadline (p : FrontendPresence) : option Duration :=
  match fallback p with
  | Waiting (At deadline) => Some deadline
  | Active | Suppressed | Waiting BeyondRange => None
  end.

Definition connect_at (now : Duration) (compatibility : FrontendCompatibility)
    : SE FrontendPresence FrontendPresenceError FrontendConnectionId :=
  next ← se_gets next_connection_id;
  connection_id ← se_lift (ok_or next ConnectionIdSpaceExhausted);
  observe now ;;
  se_modify (set_next_connection_id (checked_add u64_max connection_id 1 ≫= non_zero)) ;;
  match compatibility with
  | Compatible =>
      se_modify (λ p, set_connections ({[connection_id]} ∪ compatible_connections p) p) ;;
      se_modify (set_fallback Suppressed) ;;
      mret connection_id
  | Incompatible => mret connection_id
  end.

Definition disconnect_at (now : Duration) (connection_id : FrontendConnectionId)
    : SE FrontendPresence FrontendPresenceError unit :=
  observe now ;;
  connections ← se_gets compatible_connections;
  let removed := bool_decide (connection_id ∈ connections) in
  se_modify (set_connections (connections ∖ {[connection_id]})) ;;
  if removed && bool_decide (connections ∖ {[connection_id]} = ∅)
  then se_modify (λ p, set_fallback (after_grace (grace_period p) now) p)
  else mret tt.

Definition advance_to (now : Duration) : SE FrontendPresence FrontendPresenceError SniStatus :=
  observe now ;;
  se_gets status.

(** ** Sequences of calls *)

Inductive PresenceCall :=
| Connect (now : Duration) (compatibility : FrontendCompatibility)
| Disconnect (now : Duration) (connection_id : FrontendConnectionId)
| Advance (now : Duration).

Inductive PresenceAnswer :=
| Connected (connection_id : FrontendConnectionId)
| Disconnected
| Desired (status : SniStatus).

Definition perform (c : PresenceCall) : SE FrontendPresence FrontendPresenceError PresenceAnswer :=
  match c with
  | Connect now compatibility => i ← connect_at now compatibility; mret (Connected i)
  | Disconnect now i => disconnect_at now i ;; mret Disconnected
  | Advance now => s ← advance_to now; mret (Desired s)
  end.

Definition call_time (c : PresenceCall) : Duration :=
  match c with Connect now _ | Disconnect now _ | Advance now => now end.

Fixpoint perform_all (calls : list PresenceCall) (p : FrontendPresence)
    : list (Result FrontendPresenceError PresenceAnswer) * FrontendPresence :=
  match calls with
  | [] => ([], p)
  | c :: cs =>
      let '(p, r) := perform c p in
      let '(rs, p) := perform_all cs p in (r :: rs, p)
  end.

(** ** Specification *)

Module Spec.
(** Who is connected, and since when nobody is; no timer. *)
Record t := mk {
  now : Duration;
  issued : Z;
  connected : gset Z;
  idle_since : option Duration;
}.

Definition start (started_at : Duration) : t := mk started_at 0 ∅ (Some started_at).

Section Policy.
Context (grace : Duration).

(** The fallback is wanted when nobody has been connected for the grace period. *)
Definition wanted (s : t) : SniStatus :=
  match idle_since s with
  | Some since => if since + grace <=? now s then SniActive else SniPassive
  | None => SniPassive
  end.

(** When it will be wanted if nothing happens. *)
Definition wanted_at (s : t) : option Duration :=
  match idle_since s with
  | Some since =>
      if (now s <? since + grace) && (since + grace <=? DURATION_MAX)
      then Some (since + grace) else None
  | None => None
  end.

Definition step (c : PresenceCall) (s : t) : t * Result FrontendPresenceError PresenceAnswer :=
  match c with
  | Connect time compatibility =>
      if issued s =? u64_max then (s, Err ConnectionIdSpaceExhausted) else
      if time <? now s then (s, Err (NonMonotonicTime (now s) time)) else
      let i := issued s + 1 in
      match compatibility with
      | Compatible => (mk time i ({[i]} ∪ connected s) None, Ok (Connected i))
      | Incompatible => (mk time i (connected s) (idle_since s), Ok (Connected i))
      end
  | Disconnect time i =>
      if time <? now s then (s, Err (NonMonotonicTime (now s) time)) else
      let rest := connected s ∖ {[i]} in
      let idle := if bool_decide (i ∈ connected s) && bool_decide (rest = ∅)
                  then Some time else idle_since s in
      (mk time (issued s) rest idle, Ok Disconnected)
  | Advance time =>
      if time <? now s then (s, Err (NonMonotonicTime (now s) time)) else
      let s := mk time (issued s) (connected s) (idle_since s) in
      (s, Ok (Desired (wanted s)))
  end.

Fixpoint steps (calls : list PresenceCall) (s : t)
    : list (Result FrontendPresenceError PresenceAnswer) * t :=
  match calls with
  | [] => ([], s)
  | c :: cs => let '(s, r) := step c s in let '(rs, s) := steps cs s in (r :: rs, s)
  end.
End Policy.
End Spec.

(** ** Simulation *)

Section Simulation.
Context (grace : Duration) (Hgrace : 0 ≤ grace).

Definition fallback_of (idle_since : option Duration) (now : Duration) : FallbackState :=
  match idle_since with
  | None => Suppressed
  | Some since =>
      if since + grace <=? now then Active
      else if since + grace <=? DURATION_MAX then Waiting (At (since + grace))
      else Waiting BeyondRange
  end.

(** The concrete state that stands for a specification state. *)
Definition concrete (s : Spec.t) : FrontendPresence :=
  mk_presence grace (Spec.now s)
    (if Spec.issued s =? u64_max then None else Some (Spec.issued s + 1))
    (Spec.connected s) (fallback_of (Spec.idle_since s) (Spec.now s)).

Record spec_wf (s : Spec.t) : Prop := {
  spec_now : Spec.now s ≤ DURATION_MAX;
  spec_issued : 0 ≤ Spec.issued s ≤ u64_max;
  spec_idle : Spec.idle_since s = None ↔ Spec.connected s ≠ ∅;
}.

Lemma after_grace_of t : after_grace grace t = fallback_of (Some t) t.
Proof using Hgrace.
  unfold after_grace, fallback_of, duration_checked_add, checked_add.
  destruct (Z.eqb_spec grace 0) as [->|Hne].
  - by rewrite Z.add_0_r, Z.leb_refl.
  - rewrite (proj2 (Z.leb_gt (t + grace) t)) by lia. by destruct (_ <=? _).
Qed.

Lemma fallback_of_later idle now t :
  now ≤ t → t ≤ DURATION_MAX →
  fallback_of idle t =
  match fallback_of idle now with
  | Waiting (At deadline) => if deadline <=? t then Active else Waiting (At deadline)
  | f => f
  end.
Proof.
  intros Hle Ht. unfold fallback_of. destruct idle as [since|]; [|done].
  destruct (Z.leb_spec (since + grace) now).
  - by rewrite (proj2 (Z.leb_le (since + grace) t)) by lia.
  - destruct (Z.leb_spec (since + grace) DURATION_MAX); [done|].
    by rewrite (proj2 (Z.leb_gt (since + grace) t)) by lia.
Qed.

Lemma observe_concrete t s :
  spec_wf s → t ≤ DURATION_MAX →
  observe t (concrete s) =
  if t <? Spec.now s then (concrete s, Err (NonMonotonicTime (Spec.now s) t))
  else (concrete (Spec.mk t (Spec.issued s) (Spec.connected s) (Spec.idle_since s)), Ok tt).
Proof.
  intros Hs Ht. unfold observe, mbind, SE_bind, se_gets, se_modify, se_fail. cbn.
  destruct (Z.ltb_spec t (Spec.now s)) as [|Hle]; [done|]. cbn.
  unfold concrete, set_observed_at. cbn.
  rewrite (fallback_of_later _ (Spec.now s) t) by done.
  destruct (fallback_of _ _) as [| |[deadline|]]; try done. by destruct (_ <=? _).
Qed.

Lemma perform_concrete c s :
  spec_wf s → call_time c ≤ DURATION_MAX →
  perform c (concrete s) = (concrete (Spec.step grace c s).1, (Spec.step grace c s).2) ∧
  spec_wf (Spec.step grace c s).1.
Proof using Hgrace.
  intros Hs Ht. pose proof Hs as [Hnow Hiss Hidle].
  destruct c as [t compat|t i|t]; cbn [call_time] in Ht; cbn [perform Spec.step].
  - unfold connect_at, mbind, SE_bind, se_gets, se_lift. cbn [next_connection_id concrete].
    destruct (Z.eqb_spec (Spec.issued s) u64_max) as [|Hne]; [done|]. cbn.
    fold (concrete s). rewrite observe_concrete by done.
    destruct (Z.ltb_spec t (Spec.now s)); [done|]. cbn.
    unfold checked_add, set_next_connection_id. cbn.
    assert (∀ c f, mk_presence grace t
      ((if Spec.issued s + 1 + 1 <=? u64_max then Some (Spec.issued s + 1 + 1) else None) ≫= non_zero)
      c f = mk_presence grace t
      (if Spec.issued s + 1 =? u64_max then None else Some (Spec.issued s + 1 + 1)) c f) as Hid.
    { intros c f. f_equal. unfold non_zero.
      destruct (Z.leb_spec (Spec.issued s + 1 + 1) u64_max), (Z.eqb_spec (Spec.issued s + 1) u64_max);
        try lia; cbn; [|done]. by rewrite (proj2 (Z.eqb_neq _ _)) by lia. }
    rewrite Hid. destruct compat; cbn; (split; [done|]); split; cbn; try done; try lia.
    split; [set_solver|done].
  - unfold disconnect_at, mbind, SE_bind, se_gets, se_modify. rewrite observe_concrete by done.
    destruct (Z.ltb_spec t (Spec.now s)); [done|]. cbn.
    destruct (bool_decide (i ∈ Spec.connected s)) eqn:Hi;
      [destruct (bool_decide (Spec.connected s ∖ {[i]} = ∅)) eqn:He|]; cbn; unfold concrete; cbn.
    + rewrite after_grace_of. split; [done|]. apply bool_decide_eq_true in He.
      split; cbn; [done|done|]. rewrite He. naive_solver.
    + split; [done|]. apply bool_decide_eq_true in Hi. apply bool_decide_eq_false in He.
      split; cbn; [done|done|]. rewrite Hidle. set_solver.
    + split; [done|]. apply bool_decide_eq_false in Hi.
      split; cbn; [done|done|]. rewrite Hidle. replace (Spec.connected s ∖ {[i]})
        with (Spec.connected s) by set_solver. done.
  - unfold advance_to, mbind, SE_bind, se_gets. rewrite observe_concrete by done.
    destruct (Z.ltb_spec t (Spec.now s)); [done|]. cbn. split; [|by split].
    unfold status, Spec.wanted. cbn. unfold fallback_of.
    destruct (Spec.idle_since s) as [since|]; [|done].
    destruct (_ <=? t); [done|]. by destruct (_ <=? _).
Qed.

Lemma status_concrete s : status (concrete s) = Spec.wanted grace s.
Proof.
  unfold status, Spec.wanted. cbn. unfold fallback_of.
  destruct (Spec.idle_since s) as [since|]; [|done].
  destruct (_ <=? Spec.now s); [done|]. by destruct (_ <=? _).
Qed.

Lemma deadline_concrete s : next_deadline (concrete s) = Spec.wanted_at grace s.
Proof.
  unfold next_deadline, Spec.wanted_at. cbn. unfold fallback_of.
  destruct (Spec.idle_since s) as [since|]; [|done].
  destruct (Z.leb_spec (since + grace) (Spec.now s)) as [Hle|Hgt].
  - by rewrite (proj2 (Z.ltb_ge _ _) Hle).
  - rewrite (proj2 (Z.ltb_lt _ _) Hgt). by destruct (_ <=? _).
Qed.

Lemma perform_all_concrete calls s :
  spec_wf s → Forall (λ c, call_time c ≤ DURATION_MAX) calls →
  perform_all calls (concrete s) =
    ((Spec.steps grace calls s).1, concrete (Spec.steps grace calls s).2).
Proof using Hgrace.
  intros Hs Hc. revert s Hs. induction Hc as [|c calls Hc _ IH]; intros s Hs; [done|].
  destruct (perform_concrete c s Hs Hc) as [Hp Hs']. cbn. rewrite Hp.
  destruct (Spec.step grace c s) as [s' r]. cbn in *. rewrite (IH s' Hs').
  by destruct (Spec.steps grace calls s').
Qed.

Lemma start_concrete t : new grace t = concrete (Spec.start t).
Proof using Hgrace. unfold new, concrete, Spec.start. cbn. by rewrite after_grace_of. Qed.
End Simulation.

(** The identifiers handed out. *)
Definition issued_ids (answers : list (Result FrontendPresenceError PresenceAnswer))
    : list FrontendConnectionId :=
  omap (λ r, match r with Ok (Connected i) => Some i | _ => None end) answers.

Lemma spec_ids grace calls s :
  ∃ n, issued_ids (Spec.steps grace calls s).1 = seqZ (Spec.issued s + 1) (Z.of_nat n).
Proof.
  revert s. induction calls as [|c calls IH]; intros s; [by exists 0%nat|]. cbn.
  destruct (Spec.step grace c s) as [s' r] eqn:E. specialize (IH s') as [n Hn].
  destruct (Spec.steps grace calls s') as [rs s'']. cbn in *.
  assert (match r with Ok (Connected i) => i = Spec.issued s + 1 ∧ Spec.issued s' = i
          | _ => Spec.issued s' = Spec.issued s end) as Hr.
  { destruct c as [t []|t i|t]; cbn in E;
      repeat (match type of E with context [if ?b then _ else _] => destruct b end);
      by injection E as <- <-. }
  unfold issued_ids in *. cbn. destruct r as [[i| |]|e]; rewrite Hn.
  - destruct Hr as [-> ->]. exists (S n).
    rewrite (seqZ_cons _ (Z.of_nat (S n))) by lia. f_equal. f_equal; lia.
  - exists n. by rewrite Hr.
  - exists n. by rewrite Hr.
  - exists n. by rewrite Hr.
Qed.

(** ** Properties *)

(** The policy, with its timer state, does what the specification without
    one says, over any sequence of connections, disconnections and clock
    readings, refusals included: the fallback is shown exactly when nobody
    compatible has been connected for the grace period, the pending deadline is
    exactly the moment it will be, and connections are numbered 1, 2, 3, ... *)
Theorem presence_refines_specification (grace started_at : Duration) (calls : list PresenceCall) :
  0 ≤ grace → started_at ≤ DURATION_MAX →
  Forall (λ c, call_time c ≤ DURATION_MAX) calls →
  let '(answers, p) := perform_all calls (new grace started_at) in
  let '(expected, s) := Spec.steps grace calls (Spec.start started_at) in
  answers = expected ∧
  status p = Spec.wanted grace s ∧ next_deadline p = Spec.wanted_at grace s ∧
  compatible_connections p = Spec.connected s ∧
  ∃ n, issued_ids answers = seqZ 1 (Z.of_nat n).
Proof.
  intros Hg Ht Hc. rewrite start_concrete by done.
  rewrite perform_all_concrete; [|done| |done].
  2: { split; cbn; [done|done|]. split; [done|]. by intros []. }
  destruct (spec_ids grace calls (Spec.start started_at)) as [n Hn].
  destruct (Spec.steps grace calls (Spec.start started_at)) as [rs s]. cbn in *.
  split_and!; [done|apply status_concrete|by apply deadline_concrete|done|by exists n].
Qed.

(** A negotiated connection suppresses the fallback exactly when both sides
    offer display snapshots. *)
Theorem compatible_exactly_snapshots context client hello :
  negotiate_bridge client (ServerHandshakeContext.server_capabilities context)
    (ServerHandshakeContext.stream_id context) = Ok hello →
  from_server_hello hello = Compatible ↔
  Capability.DisplaySnapshots ∈ CapabilitySet.as_slice (ClientHello.capabilities client) ∧
  Capability.DisplaySnapshots
    ∈ CapabilitySet.as_slice (ServerHandshakeContext.server_capabilities context).
Proof.
  unfold negotiate_bridge. destruct (negb _); [done|]. intros [= <-].
  rewrite <-elem_of_intersection_set. unfold from_server_hello, CapabilitySet.contains. cbn.
  case_bool_decide; split; done.
Qed.

(** ** Witnesses *)

Lemma presence_refines_specification_witness :
  (perform_all [Connect 1 Compatible; Connect 2 Incompatible; Disconnect 5 1; Advance 9; Advance 10;
                Advance 3] (new 5 0)).1 =
  [Ok (Connected 1); Ok (Connected 2); Ok Disconnected; Ok (Desired SniPassive);
   Ok (Desired SniActive); Err (NonMonotonicTime 10 3)].
Proof.
  pose proof (presence_refines_specification 5 0
    [Connect 1 Compatible; Connect 2 Incompatible; Disconnect 5 1; Advance 9; Advance 10; Advance 3]
    ltac:(discriminate) ltac:(discriminate) ltac:(repeat constructor; discriminate)) as H.
  destruct (perform_all _ _) as [rs p]. cbn [fst].
  destruct (Spec.steps _ _ _) as [rs' s] eqn:E. destruct H as [-> _].
  vm_compute in E. by injection E as <- _.
Defined.

Lemma compatible_exactly_snapshots_witness :
  let caps := CapabilitySet.mk [Capability.DisplaySnapshots; Capability.Settings] in
  from_server_hello (ServerHello.mk (ProtocolVersion.new 1 0) (BackendStreamId.mk [])
    (CapabilitySet.mk [Capability.DisplaySnapshots])) = Compatible.
Proof.
  intros caps.
  apply (compatible_exactly_snapshots
    (ServerHandshakeContext.with_stream_id
       (CapabilitySet.mk [Capability.DisplaySnapshots]) (BackendStreamId.mk []))
    (ClientHello.new (ProtocolVersion.new 1 3) (BridgeVersion.new 1 0 0)
       (FrontendSessionId.mk []) caps)); [vm_compute; reflexivity|].
  split; left.
Defined.
