(* ===== verification/Endpoint.v ===== *)
(** * Endpoint policy  (crates/providers/src/endpoint.rs)

    Which URLs a provider may ever be contacted at: exact approved origins, the
    network class of each, and the components a request URL must not have.  The
    [url] crate is a class of accessors and its parser; addresses are those of
    the standard library. *)
From stdpp Require Import sorting prelude.
From S2P Require Import Prelude Ordering Text.
Local Open Scope Z_scope.

Definition MAX_APPROVED_ORIGINS : Z := 32.

(** ** Hosts *)

(** [std::net::Ipv4Addr], [std::net::Ipv6Addr]: octets and 16-bit segments. *)
Record Ipv4Addr := mk_v4 { o0 : Z; o1 : Z; o2 : Z; o3 : Z }.
Record Ipv6Addr := mk_v6 { s0 : Z; s1 : Z; s2 : Z; s3 : Z; s4 : Z; s5 : Z; s6 : Z; s7 : Z }.

Module Ipv4.
Definition is_private (a : Ipv4Addr) : bool :=
  (o0 a =? 10) || ((o0 a =? 172) && (16 <=? o1 a) && (o1 a <=? 31))
  || ((o0 a =? 192) && (o1 a =? 168)).
Definition is_loopback (a : Ipv4Addr) : bool := o0 a =? 127.
Definition is_link_local (a : Ipv4Addr) : bool := (o0 a =? 169) && (o1 a =? 254).
Definition is_broadcast (a : Ipv4Addr) : bool :=
  (o0 a =? 255) && (o1 a =? 255) && (o2 a =? 255) && (o3 a =? 255).
Definition is_documentation (a : Ipv4Addr) : bool :=
  ((o0 a =? 192) && (o1 a =? 0) && (o2 a =? 2))
  || ((o0 a =? 198) && (o1 a =? 51) && (o2 a =? 100))
  || ((o0 a =? 203) && (o1 a =? 0) && (o2 a =? 113)).
Definition is_multicast (a : Ipv4Addr) : bool := (224 <=? o0 a) && (o0 a <=? 239).
Definition is_unspecified (a : Ipv4Addr) : bool :=
  (o0 a =? 0) && (o1 a =? 0) && (o2 a =? 0) && (o3 a =? 0).
End Ipv4.

Module Ipv6.
Definition segments (a : Ipv6Addr) : list Z :=
  [s0 a; s1 a; s2 a; s3 a; s4 a; s5 a; s6 a; s7 a].
Definition is_loopback (a : Ipv6Addr) : bool :=
  bool_decide (segments a = [0; 0; 0; 0; 0; 0; 0; 1]).
Definition is_unspecified (a : Ipv6Addr) : bool :=
  bool_decide (segments a = [0; 0; 0; 0; 0; 0; 0; 0]).
Definition is_multicast (a : Ipv6Addr) : bool := Z.land (s0 a) 0xff00 =? 0xff00.
End Ipv6.

(** [url::Host] *)
Inductive Host :=
| Domain (domain : str)
| HostIpv4 (address : Ipv4Addr)
| HostIpv6 (address : Ipv6Addr).

(** [url::Url]: what the policy reads of a parsed URL. *)
Class UrlCrate := {
  Url : Type;
  username : Url → str;
  password : Url → option str;
  query : Url → option str;
  fragment : Url → option str;
  path : Url → str;
  scheme : Url → str;
  host : Url → option Host;
  host_str : Url → option str;
  port_or_known_default : Url → option Z;
  query_pairs : Url → list (str * str);
  url_parse : str → option Url;
  url_join : Url → str → option Url;
}.

(** ** Strings *)

Definition to_ascii_lower (c : Z) : Z := if is_ascii_upper c then c + 32 else c.
Definition to_ascii_lowercase (s : str) : str := to_ascii_lower <$> s.
Definition eq_ignore_ascii_case (s k : str) : bool :=
  bool_decide (to_ascii_lowercase s = to_ascii_lowercase k).
Definition DOT : Z := 46.
(** [rsplit_once('.')]: what follows the last dot. *)
Fixpoint take_until_dot (s : str) : option str :=
  match s with
  | [] => None
  | c :: s => if c =? DOT then Some [] else (λ k, c :: k) <$> take_until_dot s
  end.
Definition suffix_after_last_dot (s : str) : option str :=
  reverse <$> take_until_dot (reverse s).
(** [trim_end_matches('.')] *)
Fixpoint drop_dots (s : str) : str :=
  match s with
  | c :: s' => if c =? DOT then drop_dots s' else s
  | [] => []
  end.
Definition trim_end_dots (s : str) : str := reverse (drop_dots (reverse s)).

(** ** Classes *)

Inductive EndpointClass := PublicHttps | LoopbackDevelopment | PrivateHttps | PrivateHttp.
#[global] Instance EndpointClass_eq_dec : EqDecision EndpointClass.
Proof. solve_decision. Defined.

Inductive EndpointError :=
| InvalidUrl
| InvalidOrigin
| InsecureScheme
| DisallowedHost
| UnapprovedOrigin
| ForbiddenUrlComponent
| SensitiveQuery
| InvalidOriginCount.
#[global] Instance EndpointError_eq_dec : EqDecision EndpointError.
Proof. solve_decision. Defined.

Definition is_https (scheme : str) : bool := bool_decide (scheme = lit "https").
Definition is_http (scheme : str) : bool := bool_decide (scheme = lit "http").

Definition ends_with_dns_label (domain label : str) : bool :=
  match suffix_after_last_dot domain with
  | Some suffix => eq_ignore_ascii_case suffix label
  | None => false
  end.

Definition is_public_ipv4 (a : Ipv4Addr) : bool :=
  negb (Ipv4.is_private a || Ipv4.is_loopback a || Ipv4.is_link_local a || Ipv4.is_broadcast a
        || Ipv4.is_documentation a || Ipv4.is_multicast a || Ipv4.is_unspecified a
        || (o0 a =? 0)).

Definition is_public_ipv6 (a : Ipv6Addr) : bool :=
  negb (Ipv6.is_loopback a || Ipv6.is_unspecified a || Ipv6.is_multicast a
        || (Z.land (s0 a) 0xfe00 =? 0xfc00) || (Z.land (s0 a) 0xffc0 =? 0xfe80)
        || ((s0 a =? 0x2001) && (s1 a =? 0x0db8))).

Definition is_private_http_host (h : Host) : bool :=
  match h with
  | Domain domain =>
      let domain := trim_end_dots domain in
      negb (is_empty domain) && ends_with_dns_label domain (lit "local")
  | HostIpv4 a => Ipv4.is_private a || Ipv4.is_link_local a
  | HostIpv6 a => (Z.land (s0 a) 0xfe00 =? 0xfc00) || (Z.land (s0 a) 0xffc0 =? 0xfe80)
  end.

Definition is_public_host (h : Host) : bool :=
  match h with
  | Domain domain =>
      let domain := to_ascii_lowercase domain in
      bool_decide (DOT ∈ domain)
      && negb (bool_decide (domain = lit "localhost"))
      && negb (ends_with_dns_label domain (lit "localhost"))
      && negb (ends_with_dns_label domain (lit "local"))
  | HostIpv4 a => is_public_ipv4 a
  | HostIpv6 a => is_public_ipv6 a
  end.

Definition is_loopback_host (h : Host) : bool :=
  match h with
  | Domain domain =>
      eq_ignore_ascii_case domain (lit "localhost") || ends_with_dns_label domain (lit "localhost")
  | HostIpv4 a => Ipv4.is_loopback a
  | HostIpv6 a => Ipv6.is_loopback a
  end.

Definition validate_scheme (scheme : str) (class : EndpointClass) : Result EndpointError unit :=
  match class with
  | PublicHttps | PrivateHttps => if is_https scheme then Ok tt else Err InsecureScheme
  | PrivateHttp => if is_http scheme then Ok tt else Err InsecureScheme
  | LoopbackDevelopment =>
      if is_https scheme || is_http scheme then Ok tt else Err InsecureScheme
  end.

(** The hosts a class grants. *)
Definition class_allows (class : EndpointClass) (h : Host) : bool :=
  match class with
  | PublicHttps => is_public_host h
  | LoopbackDevelopment => is_loopback_host h
  | PrivateHttps => negb (is_public_host h) && negb (is_loopback_host h)
  | PrivateHttp => is_private_http_host h
  end.

Definition SENSITIVE_QUERY_NAMES : list str :=
  [lit "api_key"; lit "apikey"; lit "key"; lit "token"; lit "access_token"; lit "auth";
   lit "authorization"; lit "bearer"; lit "client_secret"; lit "credential"; lit "credentials";
   lit "jwt"; lit "secret"; lit "session_key"; lit "session_token"; lit "password"; lit "sig";
   lit "signature"].
(** [to_ascii_lowercase().replace('-', "_")] *)
Definition normalized_name (name : str) : str :=
  (λ c, if c =? 45 then 95 else c) <$> to_ascii_lowercase name.
Definition is_sensitive_name (name : str) : bool :=
  bool_decide (normalized_name name ∈ SENSITIVE_QUERY_NAMES).

Section Policy.
Context `{UrlCrate}.

Definition classify_https_endpoint (url : Url) : Result EndpointError EndpointClass :=
  if negb (is_empty (username url)) || bool_decide (is_Some (password url))
     || bool_decide (is_Some (query url)) || bool_decide (is_Some (fragment url))
     || negb (is_https (scheme url))
  then Err InvalidUrl else
  host ← ok_or (host url) InvalidUrl;
  if is_loopback_host host then Ok LoopbackDevelopment
  else if is_public_host host then Ok PublicHttps
  else Ok PrivateHttps.

Definition validate_host_class (url : Url) (class : EndpointClass) : Result EndpointError unit :=
  validate_scheme (scheme url) class ;;
  host ← ok_or (host url) InvalidUrl;
  if class_allows class host then Ok tt else Err DisallowedHost.

Definition normalized_port (url : Url) : Result EndpointError Z :=
  ok_or (port_or_known_default url) InvalidUrl.

Definition validate_request_components (url : Url) : Result EndpointError unit :=
  if negb (is_empty (username url)) || bool_decide (is_Some (password url))
     || bool_decide (is_Some (fragment url))
  then Err ForbiddenUrlComponent else
  if existsb (λ pair, is_sensitive_name pair.1) (query_pairs url)
  then Err SensitiveQuery else Ok tt.

Record ApprovedOrigin := mk_origin {
  origin_scheme : str;
  origin_host : str;
  origin_port : Z;
  origin_class : EndpointClass;
}.

Definition approved_origin_parse (url : Url) (class : EndpointClass)
    : Result EndpointError ApprovedOrigin :=
  if negb (is_empty (username url)) || bool_decide (is_Some (password url))
     || bool_decide (is_Some (query url)) || bool_decide (is_Some (fragment url))
     || negb (bool_decide (path url = [47]))
  then Err InvalidOrigin else
  validate_scheme (scheme url) class ;;
  validate_host_class url class ;;
  host ← ok_or (host_str url) InvalidUrl;
  port ← normalized_port url;
  Ok (mk_origin (scheme url) (to_ascii_lowercase host) port class).

Definition origin_key (o : ApprovedOrigin) : str * str * Z :=
  (origin_scheme o, origin_host o, origin_port o).

(** [dedup_by]: an element equal to the last one kept is removed. *)
Fixpoint dedup_from (last : ApprovedOrigin) (l : list ApprovedOrigin) : list ApprovedOrigin :=
  match l with
  | [] => []
  | o :: l =>
      if bool_decide (origin_key o = origin_key last) then dedup_from last l
      else o :: dedup_from o l
  end.
Definition dedup (l : list ApprovedOrigin) : list ApprovedOrigin :=
  match l with [] => [] | o :: l => o :: dedup_from o l end.

Record EndpointPolicy := mk_policy { origins : list ApprovedOrigin }.

(** The loop of [EndpointPolicy::new] over the declarations. *)
Fixpoint parse_origins (declared : list (str * EndpointClass)) (parsed : list ApprovedOrigin)
    : Result EndpointError (list ApprovedOrigin) :=
  match declared with
  | [] => Ok parsed
  | (origin, class) :: declared =>
      if Z.of_nat (length parsed) =? MAX_APPROVED_ORIGINS then Err InvalidOriginCount else
      url ← ok_or (url_parse origin) InvalidUrl;
      o ← approved_origin_parse url class;
      parse_origins declared (parsed ++ [o])
  end.

Definition policy_new (declared : list (str * EndpointClass)) : Result EndpointError EndpointPolicy :=
  parsed ← parse_origins declared [];
  if is_empty parsed then Err InvalidOriginCount else
  Ok (mk_policy (dedup (sort_by_key origin_key parsed))).

Record ValidatedEndpoint := mk_endpoint { endpoint_url : Url; endpoint_class : EndpointClass }.

Definition matches_origin (url_scheme url_host : str) (port : Z) (o : ApprovedOrigin) : bool :=
  bool_decide (origin_scheme o = url_scheme)
  && eq_ignore_ascii_case (origin_host o) url_host
  && (origin_port o =? port).

Definition validate (policy : EndpointPolicy) (url : Url) : Result EndpointError ValidatedEndpoint :=
  validate_request_components url ;;
  url_host ← ok_or (host_str url) InvalidUrl;
  port ← normalized_port url;
  match find (matches_origin (scheme url) url_host port) (origins policy) with
  | None => Err UnapprovedOrigin
  | Some approved =>
      validate_host_class url (origin_class approved) ;;
      Ok (mk_endpoint url (origin_class approved))
  end.
End Policy.

(** ** Case *)

Lemma to_ascii_lower_idemp c : to_ascii_lower (to_ascii_lower c) = to_ascii_lower c.
Proof.
  unfold to_ascii_lower, is_ascii_upper.
  destruct (Z.leb_spec 65 c), (Z.leb_spec c 90); cbn;
    repeat match goal with |- context [?a <=? ?b] => destruct (Z.leb_spec a b); cbn; try lia end.
Qed.
Lemma to_ascii_lowercase_idemp s :
  to_ascii_lowercase (to_ascii_lowercase s) = to_ascii_lowercase s.
Proof.
  unfold to_ascii_lowercase. rewrite <-list_fmap_compose. apply list_fmap_ext.
  intros _ c _. apply to_ascii_lower_idemp.
Qed.
Lemma to_ascii_lower_dot c : to_ascii_lower c = DOT ↔ c = DOT.
Proof.
  unfold to_ascii_lower, is_ascii_upper, DOT.
  destruct (Z.leb_spec 65 c), (Z.leb_spec c 90); cbn; lia.
Qed.

(** Lower case commutes with splitting at the last dot. *)
Lemma take_until_dot_lower s :
  take_until_dot (to_ascii_lowercase s) = to_ascii_lowercase <$> take_until_dot s.
Proof.
  induction s as [|c s IH]; [done|]. cbn.
  destruct (Z.eqb_spec c DOT) as [->|Hc]; [done|].
  rewrite (proj2 (Z.eqb_neq _ _)) by by rewrite to_ascii_lower_dot.
  fold (to_ascii_lowercase s). rewrite IH. by destruct (take_until_dot s).
Qed.
Lemma ends_with_dns_label_lower s label :
  ends_with_dns_label (to_ascii_lowercase s) label = ends_with_dns_label s label.
Proof.
  unfold ends_with_dns_label, suffix_after_last_dot, eq_ignore_ascii_case.
  assert (reverse (to_ascii_lowercase s) = to_ascii_lowercase (reverse s)) as ->.
  { symmetry. apply fmap_reverse. }
  rewrite take_until_dot_lower. destruct (take_until_dot (reverse s)) as [k|]; [|done]. cbn.
  assert (reverse (to_ascii_lowercase k) = to_ascii_lowercase (reverse k)) as ->.
  { symmetry. apply fmap_reverse. }
  by rewrite to_ascii_lowercase_idemp.
Qed.

(** ** Host classes *)

Lemma public_not_loopback h : is_public_host h = true → is_loopback_host h = false.
Proof.
  destruct h as [d|a|a]; cbn.
  - rewrite !andb_true_iff, !negb_true_iff, !ends_with_dns_label_lower.
    intros (((_ & Hl) & Hs) & _). rewrite Hs, orb_false_r. unfold eq_ignore_ascii_case.
    by rewrite bool_decide_eq_false in Hl |- *.
  - unfold is_public_ipv4. rewrite negb_true_iff, !orb_false_iff. tauto.
  - unfold is_public_ipv6. rewrite negb_true_iff, !orb_false_iff. tauto.
Qed.

(** ** Sorting and deduplication keep the first declaration of a key *)

Section FirstWins.
Context {A K : Type} `{CmpLaws K} `{!EqDecision K} (f : A → K) (k : K).
Definition has_key (x : A) : bool := bool_decide (f x = k).

Lemma find_insert_by x l :
  find has_key (insert_by (cmp_on f) x l) = if has_key x then Some x else find has_key l.
Proof.
  induction l as [|y l IH]; cbn; [done|].
  unfold le_by. destruct (cmp_on f x y) eqn:E; cbn; try (by destruct (has_key x)).
  rewrite IH. unfold has_key in *. case_bool_decide as Hy; [|done].
  rewrite bool_decide_false; [done|]. intros Hx. unfold cmp_on in E.
  rewrite Hx, Hy, cmp_refl in E. done.
Qed.

Lemma find_sort_by_key l : find has_key (sort_by_key f l) = find has_key l.
Proof.
  unfold sort_by_key. induction l as [|x l IH]; [done|]. cbn.
  by rewrite find_insert_by, IH.
Qed.
End FirstWins.

Section PolicyFacts.
Context `{UrlCrate}.

Lemma find_dedup_from k o l :
  origin_key o ≠ k → find (has_key origin_key k) (dedup_from o l) = find (has_key origin_key k) l.
Proof.
  revert o. induction l as [|x l IH]; intros o Ho; [done|]. cbn [dedup_from find].
  unfold has_key at 2. case_bool_decide as Hx.
  - rewrite bool_decide_false by congruence. by apply IH.
  - cbn [find]. unfold has_key at 1. case_bool_decide; [done|]. by apply IH.
Qed.

Lemma find_dedup k l : find (has_key origin_key k) (dedup l) = find (has_key origin_key k) l.
Proof.
  destruct l as [|x l]; [done|]. cbn. unfold has_key at 1 3.
  case_bool_decide; [done|]. by apply find_dedup_from.
Qed.

(** An origin's host is stored in lower case, so matching is equality of keys. *)
Definition canonical_origin (o : ApprovedOrigin) : Prop :=
  to_ascii_lowercase (origin_host o) = origin_host o.

Lemma matches_origin_key url_scheme url_host port o :
  canonical_origin o →
  matches_origin url_scheme url_host port o
  = has_key origin_key (url_scheme, to_ascii_lowercase url_host, port) o.
Proof.
  intros Ho. unfold matches_origin, has_key, origin_key, eq_ignore_ascii_case. rewrite Ho.
  apply Bool.eq_iff_eq_true. rewrite !andb_true_iff, !bool_decide_eq_true, Z.eqb_eq.
  split; [by intros [[-> ->] ->]|by intros [= -> -> ->]].
Qed.

Lemma find_ext_in {A} (p q : A → bool) l :
  Forall (λ x, p x = q x) l → find p l = find q l.
Proof. induction 1 as [|x l Hx _ IH]; cbn; [done|]. by rewrite Hx, IH. Qed.

Lemma dedup_subset o l : o ∈ dedup l → o ∈ l.
Proof.
  destruct l as [|x l]; [done|]. cbn. intros [->|Ho]%elem_of_cons; [left|right].
  revert x Ho. induction l as [|y l IH]; intros x; [done|]. cbn.
  case_bool_decide; [intros ?%IH; by right|].
  intros [->|?%IH]%elem_of_cons; [left|by right].
Qed.

Lemma approved_origin_parse_Ok url class o :
  approved_origin_parse url class = Ok o →
  canonical_origin o ∧ origin_class o = class ∧ origin_scheme o = scheme url ∧
  validate_host_class url class = Ok tt ∧
  (∃ h, host_str url = Some h ∧ origin_host o = to_ascii_lowercase h) ∧
  port_or_known_default url = Some (origin_port o).
Proof.
  unfold approved_origin_parse. destruct (_ || _); [done|].
  intros ([] & _ & ([] & Hc & (h & Hh%ok_or_Ok & (p & Hp%ok_or_Ok & [= <-])%bind_Ok)%bind_Ok)%bind_Ok)%bind_Ok.
  cbn. split_and!; try done; [apply to_ascii_lowercase_idemp|eauto].
Qed.

(** What the loop collects: one origin per declaration, in order. *)
Lemma parse_origins_Ok declared parsed r :
  parse_origins declared parsed = Ok r →
  ∃ l, r = parsed ++ l ∧
    Forall2 (λ d o, ∃ url, url_parse d.1 = Some url ∧ approved_origin_parse url d.2 = Ok o)
      declared l.
Proof.
  revert parsed. induction declared as [|[s c] ds IH]; intros parsed; cbn.
  { intros [= <-]. exists []. by rewrite app_nil_r. }
  destruct (_ =? _); [done|].
  intros (url & Hu%ok_or_Ok & (o & Ho & (l & -> & Hl)%IH)%bind_Ok)%bind_Ok.
  exists (o :: l). rewrite <-app_assoc. split; [done|]. constructor; [|done]. eauto.
Qed.

(** The lookup of the stored policy is the lookup of the declarations. *)
Lemma policy_find declared l url_scheme url_host port :
  parse_origins declared [] = Ok l →
  find (matches_origin url_scheme url_host port) (dedup (sort_by_key origin_key l))
  = find (matches_origin url_scheme url_host port) l.
Proof.
  intros (l' & -> & Hl)%parse_origins_Ok. cbn [app].
  assert (Forall canonical_origin l') as Hc.
  { apply Forall_forall. intros o Ho. apply list_elem_of_lookup in Ho as [i Hi].
    eapply Forall2_lookup_r in Hl as (d & _ & url & _ & Hp); [|done].
    by apply approved_origin_parse_Ok in Hp as [? _]. }
  set (k := (url_scheme, to_ascii_lowercase url_host, port)).
  rewrite (find_ext_in _ (has_key origin_key k)).
  2: { apply Forall_forall. intros o Ho%dedup_subset. rewrite sort_by_key_perm in Ho.
       apply matches_origin_key. by eapply Forall_forall in Hc. }
  rewrite (find_ext_in _ (has_key origin_key k) l').
  2: { eapply Forall_impl; [exact Hc|]. intros o. apply matches_origin_key. }
  by rewrite find_dedup, find_sort_by_key.
Qed.

Lemma validate_Ok p url v :
  validate p url = Ok v →
  endpoint_url v = url ∧ validate_request_components url = Ok tt ∧
  validate_host_class url (endpoint_class v) = Ok tt ∧
  ∃ h port o, host_str url = Some h ∧ port_or_known_default url = Some port ∧
    find (matches_origin (scheme url) h port) (origins p) = Some o ∧
    origin_class o = endpoint_class v.
Proof.
  unfold validate.
  intros ([] & Hc & (h & Hh%ok_or_Ok & (port & Hp%ok_or_Ok & Hf)%bind_Ok)%bind_Ok)%bind_Ok.
  destruct (find _ _) as [o|] eqn:Ho; [|done].
  apply bind_Ok in Hf as ([] & Hcl & [= <-]). cbn. split_and!; try done. by exists h, port, o.
Qed.
(** The request checks: nothing secret in the URL, and plain HTTP only for the
    two classes that were declared for it. *)
Lemma request_checks_Ok url class :
  validate_request_components url = Ok tt → validate_host_class url class = Ok tt →
  (username url = [] ∧ password url = None ∧ fragment url = None ∧
   Forall (λ pair, is_sensitive_name pair.1 = false) (query_pairs url)) ∧
  (∃ h, host url = Some h ∧ class_allows class h = true) ∧
  (is_https (scheme url) = true ∨
   (is_http (scheme url) = true ∧ (class = LoopbackDevelopment ∨ class = PrivateHttp))).
Proof.
  unfold validate_request_components, validate_host_class, validate_scheme. intros Hcomp Hclass.
  destruct (username url) eqn:Hus; [|done]. cbn in Hcomp.
  destruct (password url) eqn:Hpw; [done|]. cbn in Hcomp.
  destruct (fragment url) eqn:Hfr; [done|]. cbn in Hcomp.
  destruct (existsb _ _) eqn:Hq in Hcomp; [done|].
  apply bind_Ok in Hclass as ([] & Hs & (h & Hhost%ok_or_Ok & Hc)%bind_Ok).
  split; [|split].
  - do 3 (split; [done|]).
    apply Forall_forall. intros pair Hin. destruct (is_sensitive_name pair.1) eqn:E; [|done].
    assert (existsb (λ pair, is_sensitive_name pair.1) (query_pairs url) = true) as Ht.
    { apply existsb_exists. exists pair. by rewrite <-list_elem_of_In. }
    congruence.
  - exists h. split; [done|]. by destruct (class_allows _ h).
  - destruct class, (is_https (scheme url)), (is_http (scheme url)); try done; auto.
Qed.
End PolicyFacts.

(** ** Properties *)

Section Properties.
Context `{UrlCrate}.

(** C6. What an approval proves: the URL itself, unchanged, without user
    information, fragment or a query parameter that looks like a credential,
    with exactly the scheme, host (but for case) and port of a declared origin
    whose class allows its host; and it is encrypted unless that origin was
    declared a loopback or private plain-HTTP one. *)
Theorem validated_endpoint_approved declared policy url v :
  policy_new declared = Ok policy → validate policy url = Ok v →
  endpoint_url v = url ∧
  username url = [] ∧ password url = None ∧ fragment url = None ∧
  Forall (λ pair, is_sensitive_name pair.1 = false) (query_pairs url) ∧
  (∃ h, host url = Some h ∧ class_allows (endpoint_class v) h = true) ∧
  (is_https (scheme url) = true ∨
   (is_http (scheme url) = true ∧
    (endpoint_class v = LoopbackDevelopment ∨ endpoint_class v = PrivateHttp))) ∧
  ∃ text origin url_host origin_host,
    (text, endpoint_class v) ∈ declared ∧ url_parse text = Some origin ∧
    scheme origin = scheme url ∧
    host_str origin = Some origin_host ∧ host_str url = Some url_host ∧
    eq_ignore_ascii_case origin_host url_host = true ∧
    port_or_known_default origin = port_or_known_default url.
Proof.
  unfold policy_new. intros (l & Hl & Hp)%bind_Ok. destruct (is_empty l); [done|].
  injection Hp as <-. intros (Hu & Hcomp & Hclass & h & port & o & Hh & Hport & Hf & Ho)%validate_Ok.
  destruct (request_checks_Ok _ _ Hcomp Hclass) as ((? & ? & ? & ?) & ? & ?).
  do 7 (split; [done|]). clear Hcomp Hclass.
  rewrite (policy_find _ _ _ _ _ Hl) in Hf. apply find_some in Hf as [Hin Hm]. rewrite <-list_elem_of_In in Hin.
  apply list_elem_of_lookup in Hin as [i Hi]. apply parse_origins_Ok in Hl as (l' & -> & Hl).
  eapply Forall2_lookup_r in Hl as ([text class] & Hd & u0 & Hu0 & Hparse); [|done]. cbn in *.
  apply approved_origin_parse_Ok in Hparse as (_ & Hcl & Hsc & _ & (h0 & Hh0 & Hoh) & Hp0).
  unfold matches_origin in Hm. rewrite !andb_true_iff, bool_decide_eq_true, Z.eqb_eq in Hm.
  destruct Hm as [[Hms Hmh] Hmp].
  exists text, u0, h, h0. split_and!; try done; [|congruence| |congruence].
  - apply list_elem_of_lookup. exists i. congruence.
  - unfold eq_ignore_ascii_case in *. rewrite bool_decide_eq_true in Hmh |- *.
    by rewrite <-Hmh, Hoh, to_ascii_lowercase_idemp.
Qed.

(** Sorting and deduplicating the declarations changes nothing: the stored
    policy answers every URL as a scan of the declarations in their order would,
    the first declaration of an origin deciding its class. *)
Theorem policy_scan_equivalent declared policy :
  policy_new declared = Ok policy →
  ∃ scanned, parse_origins declared [] = Ok scanned ∧
    ∀ url, validate policy url = validate (mk_policy scanned) url.
Proof.
  unfold policy_new. intros (l & Hl & Hp)%bind_Ok. destruct (is_empty l); [done|].
  injection Hp as <-. exists l. split; [done|]. intros url. unfold validate. cbn.
  apply bind_cong; [done|]. intros _. apply bind_cong; [done|]. intros h.
  apply bind_cong; [done|]. intros port. by rewrite (policy_find _ _ _ _ _ Hl).
Qed.

(** A configured HTTPS endpoint is classified in exactly one way: the three
    encrypted classes exclude one another and cover every host, and the class
    chosen is one whose policy accepts the URL's own host. *)
Theorem classify_https_exact (url : Url) :
  (∀ class, classify_https_endpoint url = Ok class →
     is_https (scheme url) = true ∧ validate_host_class url class = Ok tt ∧
     ∀ other, other ∈ [PublicHttps; LoopbackDevelopment; PrivateHttps] →
       validate_host_class url other = Ok tt → other = class) ∧
  (∀ e, classify_https_endpoint url = Err e ↔ e = InvalidUrl ∧
     ¬ (username url = [] ∧ password url = None ∧ query url = None ∧ fragment url = None ∧
        is_https (scheme url) = true ∧ is_Some (host url))).
Proof.
  unfold classify_https_endpoint. destruct (_ || _) eqn:Hbad.
  { split; [done|]. intros e. rewrite !orb_true_iff, !negb_true_iff, !bool_decide_eq_true in Hbad.
    split; [intros [= <-]|by intros [-> _]]. split; [done|].
    intros (Hu & Hp & Hq & Hf & Hs & _). rewrite Hu, Hp, Hq, Hf, Hs in Hbad.
    destruct Hbad as [[[[Hb|[? Hb]]|[? Hb]]|[? Hb]]|Hb]; done. }
  rewrite !orb_false_iff, !negb_false_iff, !bool_decide_eq_false in Hbad.
  destruct Hbad as [[[[Hu Hp] Hq] Hf] Hs].
  destruct (host url) as [h|] eqn:Hh; cbn.
  2: { split; [done|]. intros e. split; [intros [= <-]|by intros [-> _]].
       split; [done|]. intros (_ & _ & _ & _ & _ & [? Hb]). done. }
  split.
  2: { intros e. split; [by repeat case_match|]. intros [_ []].
       rewrite <-!eq_None_not_Some in *. destruct (username url); split_and!; done || eauto. }
  intros class Hc. split; [done|]. unfold validate_host_class. rewrite Hh. cbn.
  pose proof (public_not_loopback h) as Hd. clear Hu Hp Hq Hf.
  destruct (is_loopback_host h) eqn:Hl, (is_public_host h) eqn:Hp; injection Hc as <-;
    cbn; rewrite ?Hs; cbn; rewrite ?Hl, ?Hp; cbn; (split; [done|]);
    try (specialize (Hd eq_refl); discriminate);
    intros other Ho; rewrite !elem_of_cons, elem_of_nil in Ho;
    destruct Ho as [->|[->|[->|[]]]]; cbn; rewrite ?Hs; cbn; rewrite ?Hl, ?Hp; done.
Qed.
End Properties.

(** A final dot hides the reserved names: [localhost.] counts as public and not
    as loopback, and [printer.local.] both as public and as private HTTP host. *)
Lemma trailing_dot_is_public :
  is_public_host (Domain (lit "localhost.")) = true ∧
  is_loopback_host (Domain (lit "localhost.")) = false ∧
  is_public_host (Domain (lit "printer.local.")) = true ∧
  is_private_http_host (Domain (lit "printer.local.")) = true.
Proof. split_and!; vm_compute; reflexivity. Qed.

(** An IPv4 loopback address written as an IPv6 one counts as public. *)
Lemma mapped_loopback_is_public :
  is_public_ipv6 (mk_v6 0 0 0 0 0 0xffff 0x7f00 0x0001) = true.
Proof. vm_compute. reflexivity. Qed.

(** ** Witnesses *)

Module EndpointExample.
Record url_example := mk_url_example { example_host : str; example_query : list (str * str) }.
#[local] Instance crate_example : UrlCrate := {|
  Url := url_example;
  username _ := [];
  password _ := None;
  query _ := None;
  fragment _ := None;
  path _ := [47];
  scheme _ := lit "https";
  host u := Some (Domain (example_host u));
  host_str u := Some (example_host u);
  port_or_known_default _ := Some 443;
  query_pairs u := example_query u;
  url_parse s := if bool_decide (s = lit "https://API.example.com")
                 then Some (mk_url_example (lit "api.example.com") []) else None;
  url_join u _ := Some u;
|}.
Definition declared_example : list (str * EndpointClass) :=
  [(lit "https://API.example.com", PublicHttps)].
Definition policy_example : EndpointPolicy :=
  mk_policy [mk_origin (lit "https") (lit "api.example.com") 443 PublicHttps].
Definition request_example : url_example :=
  mk_url_example (lit "API.example.com") [(lit "page", lit "2")].
Definition endpoint_example : ValidatedEndpoint :=
  @mk_endpoint crate_example request_example PublicHttps.

Lemma validated_endpoint_approved_witness :
  @validate crate_example policy_example request_example = Ok endpoint_example ∧
  password request_example = None.
Proof.
  split; [vm_compute; reflexivity|].
  apply (@validated_endpoint_approved crate_example declared_example policy_example
    request_example endpoint_example); vm_compute; reflexivity.
Defined.

Lemma policy_scan_equivalent_witness :
  ∃ scanned, @parse_origins crate_example declared_example [] = Ok scanned.
Proof.
  destruct (@policy_scan_equivalent crate_example declared_example policy_example) as (scanned & Hs & _).
  - vm_compute. reflexivity.
  - exists scanned. exact Hs.
Defined.
End EndpointExample.
