(* ===== verification/Transport.v ===== *)
(** * HTTP transport  (crates/providers/src/transport.rs, retry.rs)

    Requests with their typed authentication, the redirect loop of one attempt,
    the bounded body, the status classification and the one-retry loop.  The
    network, the deadline, the cancellation token and the clock are a [World]
    that may answer anything; reqwest's header types and the HTTP-date parser
    are a class; the signers of cloud_signing.rs are an argument, which
    [RequestSigning.v] instantiates. *)
From stdpp Require Import prelude.
From S2P Require Import Prelude Ordering Text Percentage Externals Errors Scheduler Endpoint.
Local Open Scope Z_scope.

Definition MAX_SECRET_BYTES : Z := 16 * 1024.
Definition MAX_AUTHORIZATION_SCHEME_BYTES : Z := 32.
Definition MAX_REQUEST_BODY_BYTES : Z := 4 * 1024 * 1024.
Definition MAX_PUBLIC_REQUEST_HEADERS : Z := 32.
Definition MAX_PUBLIC_HEADER_VALUE_BYTES : Z := 8 * 1024.
Definition MAX_ACCEPTED_STATUSES : Z := 16.
Definition MAX_RESPONSE_HEADERS : Z := 32.
Definition MAX_RESPONSE_HEADER_VALUE_BYTES : Z := 8 * 1024.
Definition MAX_RESPONSE_BYTES : Z := 16 * 1024 * 1024.
Definition MAX_REDIRECTS : Z := 10.
Definition from_hours (hours : Z) : Duration := from_secs (hours * 3600).
Definition MAX_RETRY_AFTER_DELAY : Duration := from_hours 1.
Definition MAX_RETRY_DELAY : Duration := from_hours 1.

(** [HeaderName::from_bytes] (canonical lower case), [HeaderValue::from_str],
    [HeaderValue::to_str], [httpdate::parse_http_date] (nanoseconds since the
    epoch, like every [SystemTime] here). *)
Class HttpCrate := {
  header_name : str → option str;
  header_value : str → option (list Z);
  header_to_str : list Z → option str;
  parse_http_date : str → option Z;
}.

(** [HeaderMap::get]: the first value of a name. *)
Definition HeaderMap : Type := list (str * list Z).
Definition header_get (headers : HeaderMap) (name : str) : option (list Z) :=
  snd <$> find (λ h, bool_decide (h.1 = name)) headers.

Definition AUTHORIZATION : str := lit "authorization".
Definition COOKIE : str := lit "cookie".
Definition CONTENT_LENGTH : str := lit "content-length".
Definition LOCATION : str := lit "location".
Definition ACCEPT : str := lit "accept".
Definition CONTENT_TYPE : str := lit "content-type".
Definition RETRY_AFTER : str := lit "retry-after".

(** ** Errors and the retry policy *)

Module TransportError.
Inductive t :=
| Endpoint (e : EndpointError)
| InvalidConfiguration
| Cancelled
| Timeout
| Network
| ResponseTooLarge
| MalformedResponse
| TooManyRedirects
| AuthenticationExpired
| PermissionDenied
| RequestTimeout
| RateLimited (retry_after : option Duration)
| ProviderUnavailable (status : Z) (retry_after : option Duration)
| Api (status : Z).
#[global] Instance eq_dec : EqDecision t.
Proof. solve_decision. Defined.

Definition is_retryable (e : t) : bool :=
  match e with
  | Timeout | Network | RequestTimeout | RateLimited _ | ProviderUnavailable _ _ => true
  | _ => false
  end.

Definition retry_after (e : t) : option Duration :=
  match e with
  | RateLimited d | ProviderUnavailable _ d => d
  | _ => None
  end.

Definition http_status (e : t) : option Z :=
  match e with
  | AuthenticationExpired => Some 401
  | PermissionDenied => Some 403
  | RequestTimeout => Some 408
  | RateLimited _ => Some 429
  | ProviderUnavailable status _ | Api status => Some status
  | Endpoint _ | InvalidConfiguration | Cancelled | Timeout | Network | ResponseTooLarge
  | MalformedResponse | TooManyRedirects => None
  end.

Definition classified_as (self : t) (kind : ErrorKind) : ClassifiedError :=
  let error := ClassifiedError.new kind in
  match retry_after self with
  | None => error
  | Some delay =>
      let seconds := Z.max (delay / NANOS_PER_SECOND) 1 in
      match WindowDuration.from_seconds seconds with
      | Err _ => error
      | Ok duration =>
          match ClassifiedError.with_retry_after error duration with
          | Ok error => error
          | Err _ => error
          end
      end
  end.

Definition classified (self : t) : ClassifiedError :=
  classified_as self
    match self with
    | AuthenticationExpired => Errors.AuthenticationExpired
    | PermissionDenied => Errors.PermissionDenied
    | RateLimited _ => Errors.RateLimited
    | ProviderUnavailable _ _ => Errors.ProviderUnavailable
    | Cancelled | Timeout | Network | RequestTimeout => Errors.Network
    | ResponseTooLarge | MalformedResponse | TooManyRedirects => Errors.Parse
    | Endpoint _ | InvalidConfiguration | Api _ => Errors.Api
    end.
End TransportError.
Notation TransportError := TransportError.t.

Record RetryPolicy := mk_retry { max_retries : Z; base_delay : Duration; max_delay : Duration }.
Definition retry_none : RetryPolicy := mk_retry 0 0 0.
Definition retry_one (base_delay max_delay : Duration) : RetryPolicy :=
  mk_retry 1 base_delay max_delay.
Definition delay (self : RetryPolicy) (completed_retries : Z) (error : TransportError)
    : option Duration :=
  if (max_retries self <=? completed_retries) || negb (TransportError.is_retryable error) then None else
  let requested := default (base_delay self) (TransportError.retry_after error) in
  Some (Z.min requested (max_delay self)).
Definition retry_is_valid (self : RetryPolicy) : bool :=
  (base_delay self <=? max_delay self) && (max_delay self <=? MAX_RETRY_DELAY).

(** [str::parse::<u64>]: an optional plus sign and decimal digits. *)
Definition parse_u64 (s : str) : option Z :=
  let digits := match s with c :: k => if c =? 43 then k else s | [] => [] end in
  if negb (is_empty digits) && forallb is_ascii_digit digits
     && (digits_value digits <=? u64_max)
  then Some (digits_value digits) else None.

Definition parse_retry_after `{HttpCrate} (value : list Z) (now : Z) (maximum : Duration)
    : option Duration :=
  if maximum =? 0 then None else
  value ← header_to_str value;
  let value := trim value in
  duration ← match parse_u64 value with
             | Some seconds => Some (from_secs seconds)
             | None => retry_at ← parse_http_date value; Some (Z.max 0 (retry_at - now))
             end;
  Some (Z.min duration maximum).

Record TransportConfig := mk_config {
  connect_timeout : Duration;
  request_timeout : Duration;
  max_response_bytes : Z;
  max_redirects : Z;
  retry : RetryPolicy;
}.
Definition config_new (connect_timeout request_timeout : Duration)
    (max_response_bytes max_redirects : Z) (retry : RetryPolicy)
    : Result TransportError TransportConfig :=
  if (connect_timeout =? 0) || (request_timeout =? 0) || (max_response_bytes =? 0)
     || (MAX_RESPONSE_BYTES <? max_response_bytes) || (MAX_REDIRECTS <? max_redirects)
     || negb (retry_is_valid retry)
  then Err TransportError.InvalidConfiguration
  else Ok (mk_config connect_timeout request_timeout max_response_bytes max_redirects retry).

(** ** Status codes *)

Definition status_from_u16 (status : Z) : option Z :=
  if (100 <=? status) && (status <=? 999) then Some status else None.
Definition is_success (status : Z) : bool := (200 <=? status) && (status <=? 299).
Definition is_redirection (status : Z) : bool := (300 <=? status) && (status <=? 399).
Definition is_client_error (status : Z) : bool := (400 <=? status) && (status <=? 499).
Definition is_server_error (status : Z) : bool := (500 <=? status) && (status <=? 599).

(** ** Reserved header names *)

Definition RESERVED_NAMES : list str :=
  [lit "connection"; lit "host"; lit "proxy-authenticate"; lit "proxy-authorization";
   lit "set-cookie"; lit "te"; lit "trailer"; lit "transfer-encoding"; lit "upgrade";
   lit "www-authenticate"].
Definition is_reserved_api_key_header (name : str) : bool :=
  bool_decide (name ∈ [AUTHORIZATION; COOKIE; CONTENT_LENGTH; LOCATION])
  || bool_decide (name ∈ RESERVED_NAMES).
Definition is_reserved_public_header (name : str) : bool :=
  is_reserved_api_key_header name || bool_decide (name ∈ [ACCEPT; CONTENT_TYPE]).
Definition is_reserved_response_header (name : str) : bool :=
  bool_decide (name ∈ [AUTHORIZATION; COOKIE; CONTENT_LENGTH; LOCATION])
  || bool_decide (name ∈ RESERVED_NAMES).
Definition is_http_token_byte (b : Z) : bool :=
  is_ascii_alphanumeric b || bool_decide (b ∈ lit "!#$%&'*+-.^_`|~").

(** ** Secrets, authentication, requests *)

Definition secret_value (value : str) : Result TransportError str :=
  if is_empty value || (MAX_SECRET_BYTES <? str_len value)
     || bool_decide (13 ∈ value) || bool_decide (10 ∈ value)
  then Err TransportError.InvalidConfiguration else Ok value.

Inductive RequestAccept := AcceptAny | AcceptJson | AcceptJsonTextAny | AcceptHtml.
Definition accept_as_str (a : RequestAccept) : str :=
  match a with
  | AcceptAny => lit "*/*"
  | AcceptJson => lit "application/json"
  | AcceptJsonTextAny => lit "application/json, text/plain, */*"
  | AcceptHtml => lit "text/html,application/xhtml+xml"
  end.
Inductive RequestContentType :=
| ContentJson | FormUrlEncoded | FormUrlEncodedUtf8 | AwsJson10 | AwsJson11 | GrpcWebProto.
Definition content_type_as_str (c : RequestContentType) : str :=
  match c with
  | ContentJson => lit "application/json"
  | FormUrlEncoded => lit "application/x-www-form-urlencoded"
  | FormUrlEncodedUtf8 => lit "application/x-www-form-urlencoded; charset=utf-8"
  | AwsJson10 => lit "application/x-amz-json-1.0"
  | AwsJson11 => lit "application/x-amz-json-1.1"
  | GrpcWebProto => lit "application/grpc-web+proto"
  end.

(** [reqwest::Method], as far as requests are built here. *)
Inductive Method := GET | HEAD | POST.
#[global] Instance Method_eq_dec : EqDecision Method.
Proof. solve_decision. Defined.

(** What a request says besides its method, URL, body and credentials. *)
Record Metadata := mk_metadata {
  metadata_accept : option RequestAccept;
  metadata_content_type : option RequestContentType;
  metadata_public : HeaderMap;
  metadata_sensitive : list (str * str);
}.

(** The two cloud signers: from the exact method, approved endpoint, metadata,
    body and time they compute the headers to send, or refuse.  [RequestSigning]
    has them. *)
Class CloudSigning `{UrlCrate} := {
  AwsSigV4Signer : Type;
  AwsCredentials : Type;
  VolcengineCredentials : Type;
  aws_headers : AwsSigV4Signer → AwsCredentials → Method → ValidatedEndpoint → Metadata → list Z → Z →
    option HeaderMap;
  volcengine_headers : VolcengineCredentials → Method → ValidatedEndpoint → Metadata → list Z → Z →
    option HeaderMap;
}.

Section Transport.
Context `{UrlCrate} `{HttpCrate} `{TimeCrate} `{!CloudSigning}.

Inductive Authentication :=
| Bearer (secret : str)
| BearerAndCookie (bearer cookie : str)
| AuthorizationScheme (scheme value : str)
| ApiKey (name value : str)
| Cookie (secret : str)
| AwsSigV4 (signer : AwsSigV4Signer) (credentials : AwsCredentials)
| VolcengineV4 (credentials : VolcengineCredentials).

Definition auth_bearer (value : str) : Result TransportError Authentication :=
  Bearer <$> secret_value value.
Definition auth_bearer_and_cookie (bearer cookie : str) : Result TransportError Authentication :=
  bearer ← secret_value bearer;
  cookie ← secret_value cookie;
  Ok (BearerAndCookie bearer cookie).
Definition auth_authorization_scheme (scheme value : str) : Result TransportError Authentication :=
  if is_empty scheme || (MAX_AUTHORIZATION_SCHEME_BYTES <? str_len scheme)
     || negb (forallb is_http_token_byte (as_bytes scheme))
  then Err TransportError.InvalidConfiguration
  else AuthorizationScheme scheme <$> secret_value value.
Definition auth_api_key (name value : str) : Result TransportError Authentication :=
  name ← ok_or (header_name name) TransportError.InvalidConfiguration;
  if is_reserved_api_key_header name then Err TransportError.InvalidConfiguration
  else ApiKey name <$> secret_value value.
Definition auth_cookie (value : str) : Result TransportError Authentication :=
  Cookie <$> secret_value value.

Definition uses_cloud_signing (a : Authentication) : bool :=
  match a with AwsSigV4 _ _ | VolcengineV4 _ => true | _ => false end.

Definition sensitive_header (value : str) : Result TransportError (list Z) :=
  ok_or (header_value value) TransportError.InvalidConfiguration.

(** [apply]: the headers it adds to the request. *)
Definition apply (a : Authentication) : Result TransportError HeaderMap :=
  match a with
  | Bearer secret =>
      v ← sensitive_header (lit "Bearer " ++ secret); Ok [(AUTHORIZATION, v)]
  | BearerAndCookie bearer cookie =>
      v ← sensitive_header (lit "Bearer " ++ bearer);
      c ← sensitive_header cookie; Ok [(AUTHORIZATION, v); (COOKIE, c)]
  | AuthorizationScheme scheme value =>
      v ← sensitive_header (scheme ++ lit " " ++ value); Ok [(AUTHORIZATION, v)]
  | ApiKey name value => v ← sensitive_header value; Ok [(name, v)]
  | Cookie secret => v ← sensitive_header secret; Ok [(COOKIE, v)]
  | AwsSigV4 _ _ | VolcengineV4 _ => Err TransportError.InvalidConfiguration
  end.

Record HttpRequest := mk_request {
  method : Method;
  request_url : Url;
  authentication : option Authentication;
  public_headers : HeaderMap;
  sensitive_headers : list (str * str);
  accepted_statuses : list Z;
  response_headers : list str;
  body : list Z;
  accept : option RequestAccept;
  content_type : option RequestContentType;
}.

Definition request_get (url : Url) : HttpRequest :=
  mk_request GET url None [] [] [] [] [] None None.
Definition request_get_json (url : Url) : HttpRequest :=
  mk_request GET url None [] [] [] [] [] (Some AcceptJson) None.
Definition request_post (url : Url) (body : list Z) : Result TransportError HttpRequest :=
  if MAX_REQUEST_BODY_BYTES <? Z.of_nat (length body)
  then Err TransportError.InvalidConfiguration
  else Ok (mk_request POST url None [] [] [] [] body None None).
Definition request_post_json (url : Url) (body : list Z) : Result TransportError HttpRequest :=
  r ← request_post url body;
  Ok (mk_request POST url None [] [] [] [] body (Some AcceptJson)
        (if negb (is_empty body) then Some ContentJson else None)).

Definition with_authentication (r : HttpRequest) (a : Authentication) : HttpRequest :=
  mk_request (method r) (request_url r) (Some a) (public_headers r) (sensitive_headers r)
    (accepted_statuses r) (response_headers r) (body r) (accept r) (content_type r).

Definition with_accept (r : HttpRequest) (a : RequestAccept) : HttpRequest :=
  mk_request (method r) (request_url r) (authentication r) (public_headers r) (sensitive_headers r)
    (accepted_statuses r) (response_headers r) (body r) (Some a) (content_type r).
Definition with_content_type (r : HttpRequest) (c : RequestContentType) : HttpRequest :=
  mk_request (method r) (request_url r) (authentication r) (public_headers r) (sensitive_headers r)
    (accepted_statuses r) (response_headers r) (body r) (accept r) (Some c).
Definition empty_json_content_type (r : HttpRequest) : HttpRequest :=
  with_content_type r ContentJson.

(** The loop of [accepted_statuses]. *)
Fixpoint accept_statuses (statuses accepted : list Z) : Result TransportError (list Z) :=
  match statuses with
  | [] => Ok accepted
  | status :: statuses =>
      status ← ok_or (status_from_u16 status) TransportError.InvalidConfiguration;
      if (negb (is_client_error status) && negb (is_server_error status))
         || bool_decide (status ∈ accepted)
      then Err TransportError.InvalidConfiguration
      else accept_statuses statuses (accepted ++ [status])
  end.
Definition with_accepted_statuses (r : HttpRequest) (statuses : list Z)
    : Result TransportError HttpRequest :=
  if MAX_ACCEPTED_STATUSES <? Z.of_nat (length statuses)
  then Err TransportError.InvalidConfiguration else
  accepted ← accept_statuses statuses [];
  Ok (mk_request (method r) (request_url r) (authentication r) (public_headers r)
        (sensitive_headers r) accepted (response_headers r) (body r) (accept r) (content_type r)).

(** The loop of [response_headers]. *)
Fixpoint select_names (names selected : list str) : Result TransportError (list str) :=
  match names with
  | [] => Ok selected
  | name :: names =>
      name ← ok_or (header_name name) TransportError.InvalidConfiguration;
      if is_reserved_response_header name || bool_decide (name ∈ selected)
      then Err TransportError.InvalidConfiguration
      else select_names names (selected ++ [name])
  end.
Definition with_response_headers (r : HttpRequest) (names : list str)
    : Result TransportError HttpRequest :=
  if MAX_RESPONSE_HEADERS <? Z.of_nat (length names)
  then Err TransportError.InvalidConfiguration else
  selected ← select_names names [];
  Ok (mk_request (method r) (request_url r) (authentication r) (public_headers r)
        (sensitive_headers r) (accepted_statuses r) selected (body r) (accept r) (content_type r)).

Definition has_metadata_header (r : HttpRequest) (name : str) : bool :=
  bool_decide (name ∈ (public_headers r).*1) || bool_decide (name ∈ (sensitive_headers r).*1).
Definition header_count (r : HttpRequest) : Z :=
  Z.of_nat (length (public_headers r) + length (sensitive_headers r)).

Definition with_public_header (r : HttpRequest) (name value : str)
    : Result TransportError HttpRequest :=
  if (MAX_PUBLIC_REQUEST_HEADERS <=? header_count r)
     || (MAX_PUBLIC_HEADER_VALUE_BYTES <? str_len value)
  then Err TransportError.InvalidConfiguration else
  name ← ok_or (header_name name) TransportError.InvalidConfiguration;
  if is_reserved_public_header name || has_metadata_header r name
  then Err TransportError.InvalidConfiguration else
  value ← ok_or (header_value value) TransportError.InvalidConfiguration;
  Ok (mk_request (method r) (request_url r) (authentication r)
        (public_headers r ++ [(name, value)]) (sensitive_headers r) (accepted_statuses r)
        (response_headers r) (body r) (accept r) (content_type r)).

Definition with_sensitive_header (r : HttpRequest) (name value : str)
    : Result TransportError HttpRequest :=
  if MAX_PUBLIC_REQUEST_HEADERS <=? header_count r
  then Err TransportError.InvalidConfiguration else
  name ← ok_or (header_name name) TransportError.InvalidConfiguration;
  if is_reserved_public_header name || has_metadata_header r name
  then Err TransportError.InvalidConfiguration else
  value ← secret_value value;
  if MAX_PUBLIC_HEADER_VALUE_BYTES <? str_len value
  then Err TransportError.InvalidConfiguration else
  Ok (mk_request (method r) (request_url r) (authentication r) (public_headers r)
        (sensitive_headers r ++ [(name, value)]) (accepted_statuses r)
        (response_headers r) (body r) (accept r) (content_type r)).

(** ** What goes on the wire *)

Record SentRequest := mk_sent {
  sent_method : Method;
  sent_url : Url;
  sent_headers : HeaderMap;
  sent_body : list Z;
}.

(** [system_time_utc]: the calendar's range. *)
Definition system_time_utc (now : Z) : Result TransportError Z :=
  if (odt_min <=? now) && (now <=? odt_max) then Ok now
  else Err TransportError.InvalidConfiguration.

(** What [signing_request] takes from the request. *)
Definition signing_metadata (r : HttpRequest) : Metadata :=
  mk_metadata (accept r) (content_type r) (public_headers r) (sensitive_headers r).

(** [sign_cloud_request]: both signers send the method, URL and body they were
    given for the validated endpoint. *)
Definition sign_cloud_request (a : Authentication) (r : HttpRequest) (endpoint : ValidatedEndpoint)
    (timestamp : Z) : Result TransportError (option SentRequest) :=
  let url := endpoint_url endpoint in
  let headers := match a with
    | AwsSigV4 signer credentials =>
        Some (aws_headers signer credentials (method r) endpoint (signing_metadata r) (body r) timestamp)
    | VolcengineV4 credentials =>
        Some (volcengine_headers credentials (method r) endpoint (signing_metadata r) (body r) timestamp)
    | _ => None
    end in
  match headers with
  | None => Ok None
  | Some headers =>
      headers ← ok_or headers TransportError.InvalidConfiguration;
      Ok (Some (mk_sent (method r) url headers (body r)))
  end.

(** The request builder of one hop. *)
Definition build_request (r : HttpRequest) (endpoint : ValidatedEndpoint) (now : Z)
    : Result TransportError SentRequest :=
  signed ← match authentication r with
           | Some a =>
               if uses_cloud_signing a
               then timestamp ← system_time_utc now; sign_cloud_request a r endpoint timestamp
               else Ok None
           | None => Ok None
           end;
  match signed with
  | Some signed => Ok signed
  | None =>
      let typed :=
        option_list ((λ a, (ACCEPT, as_bytes (accept_as_str a))) <$> accept r)
        ++ option_list ((λ c, (CONTENT_TYPE, as_bytes (content_type_as_str c))) <$> content_type r) in
      sensitive ← traverse_list (λ h : str * str, v ← sensitive_header h.2; Ok (h.1, v))
                    (sensitive_headers r);
      credentials ← match authentication r with Some a => apply a | None => Ok [] end;
      Ok (mk_sent (method r) (endpoint_url endpoint)
            (typed ++ public_headers r ++ sensitive ++ credentials) (body r))
  end.

(** ** The world *)

Inductive Interruption := ByDeadline | ByCancellation.
Inductive BodyEvent := Chunk (bytes : list Z) | Broken | BodyInterrupted (i : Interruption).
Record Response := mk_response {
  status : Z;
  headers : HeaderMap;
  content_length : option Z;
  body_events : list BodyEvent;
}.
Inductive Exchange :=
| SendFailed
| SendInterrupted (i : Interruption)
| Responded (r : Response).

(** What the environment answers: to the requests sent so far, the last included;
    at the start of an attempt; during a pause; and when asked for the time. *)
Record World := mk_world {
  exchange : list SentRequest → Exchange;
  cancelled_before : Z → bool;
  cancelled_asleep : Z → bool;
  signing_time : list SentRequest → Z;
  status_time : list SentRequest → Z;
}.

(** What the transport did: requests, failures it retried, pauses it made. *)
Record Trace := mk_trace {
  sent : list SentRequest;
  retried : list TransportError;
  slept : list Duration;
}.

(** How a computation stops short of a response. *)
Inductive Stop := Failed (e : TransportError) | Interrupted (i : Interruption) | OutOfFuel.

Record HttpResponse := mk_http_response {
  response_status : Z;
  response_body : list Z;
  selected_headers : list (str * str);
  response_endpoint : ValidatedEndpoint;
}.
(** [HttpResponse::header] *)
Definition response_header (r : HttpResponse) (name : str) : option str :=
  name ← header_name name;
  snd <$> find (λ h, bool_decide (h.1 = name)) (selected_headers r).

Record HttpTransport := mk_transport { endpoints : EndpointPolicy; config : TransportConfig }.

Definition lift {A} (m : Result TransportError A) : SE Trace Stop A := se_lift (map_err Failed m).

Definition redirect_target (current : Url) (headers : HeaderMap) : Result TransportError Url :=
  location ← ok_or (header_get headers LOCATION) TransportError.MalformedResponse;
  location ← ok_or (header_to_str location) TransportError.MalformedResponse;
  ok_or (url_join current location) TransportError.MalformedResponse.

Fixpoint select_response_headers (headers : HeaderMap) (names : list str)
    : Result TransportError (list (str * str)) :=
  match names with
  | [] => Ok []
  | name :: names =>
      match header_get headers name with
      | None => select_response_headers headers names
      | Some value =>
          if MAX_RESPONSE_HEADER_VALUE_BYTES <? Z.of_nat (length value)
          then Err TransportError.ResponseTooLarge else
          value ← ok_or (header_to_str value) TransportError.MalformedResponse;
          rest ← select_response_headers headers names;
          Ok ((name, value) :: rest)
      end
  end.

Definition status_error (status : Z) (headers : HeaderMap) (now : Z) : TransportError :=
  let retry_after :=
    value ← header_get headers RETRY_AFTER;
    parse_retry_after value now MAX_RETRY_AFTER_DELAY in
  if status =? 401 then TransportError.AuthenticationExpired
  else if status =? 403 then TransportError.PermissionDenied
  else if status =? 408 then TransportError.RequestTimeout
  else if status =? 429 then TransportError.RateLimited retry_after
  else if is_server_error status then TransportError.ProviderUnavailable status retry_after
  else TransportError.Api status.

(** The body stream, chunk by chunk. *)
Fixpoint read_body (max_response_bytes : Z) (events : list BodyEvent) (body : list Z)
    : Result Stop (list Z) :=
  match events with
  | [] => Ok body
  | Broken :: _ => Err (Failed TransportError.MalformedResponse)
  | BodyInterrupted i :: _ => Err (Interrupted i)
  | Chunk chunk :: events =>
      match checked_add usize_max (Z.of_nat (length body)) (Z.of_nat (length chunk)) with
      | None => Err (Failed TransportError.ResponseTooLarge)
      | Some next_length =>
          if max_response_bytes <? next_length then Err (Failed TransportError.ResponseTooLarge)
          else read_body max_response_bytes events (body ++ chunk)
      end
  end.

Section Send.
Context (w : World) (transport : HttpTransport) (request : HttpRequest).

(** What is made of a response that is not a redirect. *)
Definition finish_response (endpoint : ValidatedEndpoint) (r : Response) : SE Trace Stop HttpResponse :=
  if negb (is_success (status r)) && negb (bool_decide (status r ∈ accepted_statuses request))
  then (now ← se_gets (λ t, status_time w (sent t));
        se_fail (Failed (status_error (status r) (headers r) now)))
  else
    selected ← lift (select_response_headers (headers r) (response_headers request));
    if match content_length r with
       | Some n => max_response_bytes (config transport) <? n
       | None => false
       end
    then se_fail (Failed TransportError.ResponseTooLarge) else
    body ← se_lift (read_body (max_response_bytes (config transport)) (body_events r) []);
    mret (mk_http_response (status r) body selected endpoint).

(** The redirect loop. *)
Fixpoint follow_redirects (fuel : nat) (current : Url) (redirect_count : Z)
    : SE Trace Stop HttpResponse :=
  match fuel with
  | O => se_fail OutOfFuel
  | S fuel =>
      endpoint ← lift (map_err TransportError.Endpoint (validate (endpoints transport) current));
      now ← se_gets (λ t, signing_time w (sent t));
      wire ← lift (build_request request endpoint now);
      se_modify (λ t, mk_trace (sent t ++ [wire]) (retried t) (slept t)) ;;
      answer ← se_gets (λ t, exchange w (sent t));
      match answer with
      | SendFailed => se_fail (Failed TransportError.Network)
      | SendInterrupted i => se_fail (Interrupted i)
      | Responded r =>
          if is_redirection (status r) then
            if negb (bool_decide (method request = GET)) && negb (bool_decide (method request = HEAD))
            then se_fail (Failed TransportError.MalformedResponse) else
            if redirect_count =? max_redirects (config transport)
            then se_fail (Failed TransportError.TooManyRedirects) else
            let redirect_count := saturating_add u8_max redirect_count 1 in
            current ← lift (redirect_target current (headers r));
            lift (map_err TransportError.Endpoint (validate (endpoints transport) current)) ;;
            follow_redirects fuel current redirect_count
          else finish_response endpoint r
      end
  end.

(** One hop more than the redirects allowed. *)
Definition redirect_fuel : nat := S (Z.to_nat (max_redirects (config transport))).

(** The outcome of an attempt: the race with cancellation and the deadline. *)
Definition send_attempt (attempt : Z) : SE Trace Stop HttpResponse := λ t,
  if cancelled_before w attempt then (t, Err (Failed TransportError.Cancelled)) else
  match follow_redirects redirect_fuel (request_url request) 0 t with
  | (t, Err (Interrupted ByDeadline)) => (t, Err (Failed TransportError.Timeout))
  | (t, Err (Interrupted ByCancellation)) => (t, Err (Failed TransportError.Cancelled))
  | (t, r) => (t, r)
  end.

Fixpoint send_loop (fuel : nat) (completed_retries : Z) : SE Trace Stop HttpResponse :=
  match fuel with
  | O => se_fail OutOfFuel
  | S fuel => λ t,
      match send_attempt completed_retries t with
      | (t, Err (Failed error)) =>
          match delay (retry (config transport)) completed_retries error with
          | None => (t, Err (Failed error))
          | Some pause =>
              let attempt := completed_retries in
              let completed_retries := saturating_add u8_max completed_retries 1 in
              let t := mk_trace (sent t) (retried t ++ [error]) (slept t ++ [pause]) in
              if cancelled_asleep w attempt then (t, Err (Failed TransportError.Cancelled))
              else send_loop fuel completed_retries t
          end
      | (t, r) => (t, r)
      end
  end.

(** One attempt more than the retries allowed. *)
Definition retry_fuel : nat := S (Z.to_nat (max_retries (retry (config transport)))).
Definition send : Trace * Result Stop HttpResponse :=
  send_loop retry_fuel 0 (mk_trace [] [] []).
End Send.
End Transport.

(** ** Lemmas *)

Section TransportFacts.
Context `{UrlCrate} `{HttpCrate} `{TimeCrate} `{!CloudSigning}.

Lemma sign_cloud_request_Ok a r endpoint timestamp wire :
  sign_cloud_request a r endpoint timestamp = Ok (Some wire) →
  sent_url wire = endpoint_url endpoint ∧ sent_method wire = method r ∧ sent_body wire = body r.
Proof.
  unfold sign_cloud_request.
  destruct a; cbn; try done; intros (h & _ & [= <-])%bind_Ok; done.
Qed.

(** A built request goes to the endpoint it was built for. *)
Lemma build_request_Ok r endpoint now wire :
  build_request r endpoint now = Ok wire →
  sent_url wire = endpoint_url endpoint ∧ sent_method wire = method r ∧ sent_body wire = body r.
Proof.
  unfold build_request. intros (signed & Hs & Hb)%bind_Ok.
  destruct signed as [signed|].
  - injection Hb as <-. destruct (authentication r) as [a|]; [|done].
    destruct (uses_cloud_signing a); [|done].
    apply bind_Ok in Hs as (timestamp & _ & Hs). by eapply sign_cloud_request_Ok.
  - apply bind_Ok in Hb as (sensitive & _ & (credentials & _ & [= <-])%bind_Ok). done.
Qed.

Lemma read_body_Ok m events body0 r :
  read_body m events body0 = Ok r →
  (Z.of_nat (length body0) ≤ m → Z.of_nat (length r) ≤ m) ∧
  ∃ chunks, events = Chunk <$> chunks ∧ r = body0 ++ concat chunks.
Proof.
  revert body0. induction events as [|[chunk| |i] events IH]; intros body0; cbn; try done.
  - intros [= <-]. split; [done|]. exists []. split; [done|]. cbn. by rewrite app_nil_r.
  - destruct (checked_add _ _ _) as [n|] eqn:Hn; [|done].
    apply checked_add_Some in Hn as [-> Hn].
    destruct (Z.ltb_spec m (Z.of_nat (length body0) + Z.of_nat (length chunk))); [done|].
    intros [Hl (chunks & -> & ->)]%IH. rewrite length_app in Hl.
    split; [intros _; apply Hl; lia|]. exists (chunk :: chunks). split; [done|]. cbn. by rewrite <-app_assoc.
Qed.

Lemma read_body_stops m events body0 e :
  read_body m events body0 = Err e → e ≠ OutOfFuel.
Proof.
  revert body0. induction events as [|[chunk| |i] events IH]; intros body0; cbn; try done;
    try (by intros [= <-]).
  destruct (checked_add _ _ _) as [n|]; [|by intros [= <-]].
  destruct (_ <? _); [by intros [= <-]|]. apply IH.
Qed.

Lemma select_response_headers_Ok headers names selected :
  select_response_headers headers names = Ok selected →
  Forall (λ h, h.1 ∈ names ∧ ∃ value, header_get headers h.1 = Some value ∧
    Z.of_nat (length value) ≤ MAX_RESPONSE_HEADER_VALUE_BYTES ∧
    header_to_str value = Some h.2) selected.
Proof.
  revert selected. induction names as [|name names IH]; intros selected; cbn.
  { intros [= <-]. constructor. }
  assert (∀ rest, select_response_headers headers names = Ok rest →
    Forall (λ h, h.1 ∈ name :: names ∧ ∃ value, header_get headers h.1 = Some value ∧
      Z.of_nat (length value) ≤ MAX_RESPONSE_HEADER_VALUE_BYTES ∧
      header_to_str value = Some h.2) rest) as Hrest.
  { intros rest Hr. eapply Forall_impl; [by apply IH|]. cbn. intros h [Hn Hv].
    split; [by apply elem_of_cons; right|exact Hv]. }
  destruct (header_get headers name) as [value|] eqn:Hg; [|apply Hrest].
  destruct (Z.ltb_spec MAX_RESPONSE_HEADER_VALUE_BYTES (Z.of_nat (length value))); [done|].
  intros (text & Ht%ok_or_Ok & (rest & Hr & [= <-])%bind_Ok)%bind_Ok.
  constructor; [|by apply Hrest]. split; [by apply elem_of_cons; left|]. by exists value.
Qed.

Lemma delay_Some p completed e d :
  delay p completed e = Some d →
  completed < max_retries p ∧ TransportError.is_retryable e = true ∧ d ≤ max_delay p.
Proof.
  unfold delay. destruct (Z.leb_spec (max_retries p) completed); [done|].
  destruct (TransportError.is_retryable e); [|done]. intros [= <-]. split_and!; [done..|lia].
Qed.

Lemma config_new_Ok ct rt mb mr rp c :
  config_new ct rt mb mr rp = Ok c →
  max_redirects c = mr ∧ retry c = rp ∧ max_response_bytes c = mb ∧
  mr ≤ MAX_REDIRECTS ∧ mb ≤ MAX_RESPONSE_BYTES ∧ max_delay rp ≤ MAX_RETRY_DELAY.
Proof.
  unfold config_new, retry_is_valid. destruct (_ || _) eqn:E; [done|]. intros [= <-]. cbn.
  rewrite !orb_false_iff, negb_false_iff, andb_true_iff, !Z.leb_le, !Z.ltb_ge in E.
  split_and!; try done; apply E.
Qed.

Section SendFacts.
Context (w : World) (transport : HttpTransport) (request : HttpRequest).

(** A request the policy of the transport approved. *)
Definition approved (wire : SentRequest) : Prop :=
  ∃ endpoint now, validate (endpoints transport) (endpoint_url endpoint) = Ok endpoint ∧
    build_request request endpoint now = Ok wire.

(** What a returned response promises, [wires] being the requests of its attempt. *)
Definition answered (wires : list SentRequest) (t : Trace) (response : HttpResponse) : Prop :=
  (∃ wire, last wires = Some wire ∧ sent_url wire = endpoint_url (response_endpoint response)) ∧
  validate (endpoints transport) (endpoint_url (response_endpoint response))
    = Ok (response_endpoint response) ∧
  ∃ r, exchange w (sent t) = Responded r ∧
    response_status response = status r ∧ is_redirection (status r) = false ∧
    (is_success (status r) = true ∨ status r ∈ accepted_statuses request) ∧
    ((0 ≤ max_response_bytes (config transport) →
      Z.of_nat (length (response_body response)) ≤ max_response_bytes (config transport)) ∧
     ∃ chunks, body_events r = Chunk <$> chunks ∧ response_body response = concat chunks) ∧
    Forall (λ h, h.1 ∈ response_headers request ∧ ∃ value, header_get (headers r) h.1 = Some value ∧
      Z.of_nat (length value) ≤ MAX_RESPONSE_HEADER_VALUE_BYTES ∧
      header_to_str value = Some h.2) (selected_headers response).

Lemma finish_response_run endpoint r t t' x :
  finish_response w transport request endpoint r t = (t', x) →
  t' = t ∧
  match x with
  | Err stop => stop ≠ OutOfFuel
  | Ok response =>
      response_endpoint response = endpoint ∧ response_status response = status r ∧
      (is_success (status r) = true ∨ status r ∈ accepted_statuses request) ∧
      ((0 ≤ max_response_bytes (config transport) →
        Z.of_nat (length (response_body response)) ≤ max_response_bytes (config transport)) ∧
       ∃ chunks, body_events r = Chunk <$> chunks ∧ response_body response = concat chunks) ∧
      Forall (λ h, h.1 ∈ response_headers request ∧ ∃ value,
        header_get (headers r) h.1 = Some value ∧
        Z.of_nat (length value) ≤ MAX_RESPONSE_HEADER_VALUE_BYTES ∧
        header_to_str value = Some h.2) (selected_headers response)
  end.
Proof.
  unfold finish_response.
  destruct (is_success (status r)) eqn:Hs, (bool_decide (status r ∈ accepted_statuses request)) eqn:Ha;
    cbn; [| | |by intros [= <- <-]];
    (unfold mbind, SE_bind, lift, se_lift;
     destruct (select_response_headers _ _) as [selected|] eqn:Hsel; cbn;
       [|by intros [= <- <-]];
     apply select_response_headers_Ok in Hsel;
     destruct (match content_length r with Some _ => _ | None => _ end); [by intros [= <- <-]|];
     cbn; destruct (read_body _ _ _) as [body'|stop] eqn:Hb; cbn; intros [= <- <-];
       [|split; [done|]; by eapply read_body_stops]).
  all: split; [done|]; cbn; split_and!; try done.
  all: try (left; done).
  all: try (right; by apply bool_decide_eq_true in Ha).
  all: apply read_body_Ok in Hb as [Hl Hc]; first [exact Hl|exact Hc].
Qed.

(** One hop: it stops before sending, or sends one approved request and then
    either ends the attempt or follows one redirect. *)
Lemma follow_redirects_step fuel current count t t' x :
  follow_redirects w transport request (S fuel) current count t = (t', x) →
  (t' = t ∧ ∃ e, x = Err (Failed e)) ∨
  ∃ wire, approved wire ∧
    let t1 := mk_trace (sent t ++ [wire]) (retried t) (slept t) in
    (t' = t1 ∧ match x with
               | Err stop => stop ≠ OutOfFuel
               | Ok response => answered [wire] t1 response
               end) ∨
    ∃ next, count ≠ max_redirects (config transport) ∧
      (method request = GET ∨ method request = HEAD) ∧
      follow_redirects w transport request fuel next (saturating_add u8_max count 1) t1 = (t', x).
Proof.
  cbn [follow_redirects]. unfold mbind, SE_bind, lift, se_lift, se_gets, se_modify, se_fail.
  destruct (validate _ current) as [endpoint|] eqn:Hv; cbn; [|intros [= <- <-]; left; eauto].
  pose proof (validate_Ok _ _ _ Hv) as [Hu _].
  destruct (build_request _ _ _) as [wire|] eqn:Hb; cbn; [|intros [= <- <-]; left; eauto].
  intros Hrun. right. exists wire.
  split. { exists endpoint, (signing_time w (sent t)). split; [by rewrite Hu|done]. }
  destruct (exchange _ _) as [|i|r] eqn:Hx; cbn in Hrun;
    [injection Hrun as <- <-; by left|injection Hrun as <- <-; by left|].
  destruct (is_redirection (status r)) eqn:Hred.
  - destruct (bool_decide_reflect (method request = GET)), (bool_decide_reflect (method request = HEAD));
      cbn in Hrun; try (injection Hrun as <- <-; by left);
    (destruct (Z.eqb_spec count (max_redirects (config transport)));
       [injection Hrun as <- <-; by left|];
     destruct (redirect_target _ _) as [next|]; cbn in Hrun; [|injection Hrun as <- <-; by left];
     destruct (validate _ next); cbn in Hrun; [|injection Hrun as <- <-; by left];
     right; exists next; auto).
  - left. apply finish_response_run in Hrun as [-> Hres]. split; [done|].
    destruct x as [response|stop]; [|done].
    destruct Hres as (He & Hst & Hok & Hbody & Hh).
    pose proof (build_request_Ok _ _ _ _ Hb) as [Hw _].
    unfold answered. rewrite He. split; [by exists wire|]. split; [by rewrite Hu|].
    exists r. destruct Hbody. cbn. split_and!; done.
Qed.

(** One attempt's redirect loop: it adds approved requests, at most one per
    redirect allowed and one more, and none but one when the method is not
    repeatable; it never runs out of fuel. *)
Lemma follow_redirects_run fuel current count t t' x :
  0 ≤ count ≤ max_redirects (config transport) → max_redirects (config transport) ≤ u8_max →
  max_redirects (config transport) - count < Z.of_nat fuel →
  follow_redirects w transport request fuel current count t = (t', x) →
  retried t' = retried t ∧ slept t' = slept t ∧
  ∃ wires, sent t' = sent t ++ wires ∧ Forall approved wires ∧
    Z.of_nat (length wires) ≤ max_redirects (config transport) - count + 1 ∧
    (method request = POST → (length wires ≤ 1)%nat) ∧
    match x with
    | Err stop => stop ≠ OutOfFuel
    | Ok response => answered wires t' response
    end.
Proof.
  intros Hc Hm. revert current count t Hc.
  induction fuel as [|fuel IH]; intros current count t Hc Hf Hrun; [lia|].
  apply follow_redirects_step in Hrun as
    [(-> & e & ->)|(wire & Hw & [[-> Hx]|(next & Hne & Hmeth & Hrun)])].
  - split_and!; [done..|]. exists []. rewrite app_nil_r. split_and!; done || cbn; lia.
  - split_and!; [done..|]. exists [wire]. split_and!; try done; [by constructor|cbn; lia].
  - assert (saturating_add u8_max count 1 = count + 1) as Hsat.
    { unfold saturating_add. lia. }
    rewrite Hsat in Hrun. apply IH in Hrun as (Hr & Hs & wires & Hsent & Ha & Hl & _ & Hx); [|lia..].
    cbn in *. split_and!; [done..|]. exists (wire :: wires).
    rewrite Hsent, <-app_assoc. split_and!; [done|by constructor|cbn; lia| |].
    + intros Hp. exfalso. rewrite Hp in Hmeth. by destruct Hmeth.
    + destruct x as [response|]; [|done].
      destruct Hx as ((last_wire & Hlast & Hurl) & Hrest). split; [|done].
      exists last_wire. split; [|done]. by rewrite last_cons, Hlast.
Qed.

(** The requests of one attempt. *)
Definition attempt_requests : Z :=
  if bool_decide (method request = POST) then 1 else max_redirects (config transport) + 1.

Lemma send_attempt_run attempt t t' x :
  0 ≤ max_redirects (config transport) ≤ u8_max →
  send_attempt w transport request attempt t = (t', x) →
  retried t' = retried t ∧ slept t' = slept t ∧
  ∃ wires, sent t' = sent t ++ wires ∧ Forall approved wires ∧
    Z.of_nat (length wires) ≤ attempt_requests ∧
    match x with
    | Err stop => ∃ e, stop = Failed e
    | Ok response => answered wires t' response
    end.
Proof.
  intros Hm. unfold send_attempt, attempt_requests.
  destruct (cancelled_before w attempt).
  { intros [= <- <-]. split_and!; [done..|]. exists []. rewrite app_nil_r. split_and!; eauto.
    destruct (bool_decide _); cbn; lia. }
  destruct (follow_redirects _ _ _ _ _ _ t) as [t1 y] eqn:Hrun.
  apply follow_redirects_run in Hrun as (Hr & Hs & wires & Hsent & Ha & Hl & Hp & Hx);
    [|lia|lia|unfold redirect_fuel; lia].
  intros Hy. assert (t1 = t') as -> by (destruct y as [|[|[]|]]; by injection Hy).
  split_and!; [done..|]. exists wires. split_and!; [done..| |].
  { destruct (bool_decide_reflect (method request = POST)) as [E|]; [|lia].
    specialize (Hp E). lia. }
  destruct y as [|[|[]|]]; injection Hy as <-; eauto; done.
Qed.

(** What the retry loop did between two traces. *)
Definition loop_outcome (completed : Z) (t t' : Trace) (x : Result Stop HttpResponse) : Prop :=
  ∃ wires errors pauses,
    sent t' = sent t ++ wires ∧ retried t' = retried t ++ errors ∧ slept t' = slept t ++ pauses ∧
    Forall approved wires ∧
    Z.of_nat (length wires) ≤ (Z.of_nat (length errors) + 1) * attempt_requests ∧
    length pauses = length errors ∧
    Z.of_nat (length errors) ≤ Z.max 0 (max_retries (retry (config transport)) - completed) ∧
    Forall (λ e, TransportError.is_retryable e = true) errors ∧
    Forall (λ d, d ≤ max_delay (retry (config transport))) pauses ∧
    match x with
    | Err stop => ∃ e, stop = Failed e
    | Ok response => ∃ before of_attempt, wires = before ++ of_attempt ∧ answered of_attempt t' response
    end.

(** The retry loop, from any number of completed retries. *)
Lemma send_loop_run fuel completed t t' x :
  0 ≤ max_redirects (config transport) ≤ u8_max →
  max_retries (retry (config transport)) ≤ u8_max →
  0 ≤ completed →
  max_retries (retry (config transport)) - completed < Z.of_nat fuel → (0 < fuel)%nat →
  send_loop w transport request fuel completed t = (t', x) →
  loop_outcome completed t t' x.
Proof.
  intros Hm Hmax. revert completed t.
  induction fuel as [|fuel IH]; intros completed t Hc Hf Hpos; [lia|]. cbn [send_loop].
  destruct (send_attempt _ _ _ completed t) as [t1 y] eqn:Ha.
  apply send_attempt_run in Ha as (Hr & Hs & wires & Hsent & Happ & Hl & Hy); [|done].
  assert (∀ z, (t', x) = (t1, z) → match z with
    | Err stop => ∃ e, stop = Failed e | Ok response => answered wires t1 response end →
    loop_outcome completed t t' x) as Hstop.
  { intros z [= -> ->] Hz. exists wires, [], []. rewrite !app_nil_r.
    split_and!; try done; [cbn; lia|cbn; lia|].
    destruct z; [by exists [], wires|done]. }
  destruct y as [response|stop]; [intros Hx; by apply (Hstop _ (eq_sym Hx))|].
  destruct Hy as [e ->].
  destruct (delay _ completed e) as [pause|] eqn:Hd; [|intros Hx; apply (Hstop _ (eq_sym Hx)); by exists e].
  apply delay_Some in Hd as (Hlt & He & Hp).
  set (t2 := mk_trace _ _ _).
  destruct (cancelled_asleep w completed).
  { intros [= <- <-]. exists wires, [e], [pause]. subst t2. cbn. rewrite Hr, Hs.
    split_and!; try done; [lia|lia|by constructor|by constructor|by eexists]. }
  assert (saturating_add u8_max completed 1 = completed + 1) as -> by (unfold saturating_add; lia).
  intros (wires' & errors & pauses & Hsent' & Hr' & Hs' & Happ' & Hl' & Hpl & Hel & Her & Hpa & Hx)%IH;
    [|lia..].
  subst t2. cbn in *. exists (wires ++ wires'), (e :: errors), (pause :: pauses).
  rewrite Hsent', Hr', Hs', Hsent, Hr, Hs, <-!app_assoc. cbn.
  split_and!; try done.
  - by apply Forall_app.
  - rewrite length_app. lia.
  - lia.
  - lia.
  - by constructor.
  - by constructor.
  - destruct x as [response|]; [|done]. destruct Hx as (before & of_attempt & -> & Hx).
    exists (wires ++ before), of_attempt. by rewrite app_assoc.
Qed.
End SendFacts.
End TransportFacts.

(** A parsed delay never exceeds the maximum. *)
Lemma parse_retry_after_bound `{HttpCrate} value now maximum d :
  parse_retry_after value now maximum = Some d → d ≤ maximum.
Proof.
  unfold parse_retry_after. destruct (maximum =? 0); [done|].
  rewrite bind_Some. intros (text & _ & Hd). rewrite bind_Some in Hd.
  destruct Hd as (duration & _ & [= <-]). lia.
Qed.

Lemma from_kind_wf k r :
  (is_Some r → (ClassifiedError.semantics k).1 = Automatic) →
  ClassifiedError.wf (ClassifiedError.from_kind k r).
Proof. intros Hr. destruct k; split; done || exact Hr. Qed.

(** How an automatically retried error carries a delay. *)
Lemma classified_as_spec e kind :
  (ClassifiedError.semantics kind).1 = Automatic ∨ TransportError.retry_after e = None →
  TransportError.classified_as e kind = ClassifiedError.from_kind kind
    ((λ d, WindowDuration.mk (Z.max (d / NANOS_PER_SECOND) 1)) <$> TransportError.retry_after e).
Proof.
  unfold TransportError.classified_as. destruct (TransportError.retry_after e) as [d|]; [|done].
  intros [Ha|]; [|done]. unfold WindowDuration.from_seconds.
  destruct (Z.eqb_spec (Z.max (d / NANOS_PER_SECOND) 1) 0); [lia|].
  by destruct kind.
Qed.

(** ** Properties *)

Section Properties.
Context `{UrlCrate} `{HttpCrate} `{TimeCrate} `{!CloudSigning}.
Context (w : World) (transport : HttpTransport) (request : HttpRequest).
Context (connect_timeout request_timeout : Duration) (max_response_bytes max_redirects : Z)
  (policy : RetryPolicy).

Lemma send_outcome t x :
  config_new connect_timeout request_timeout max_response_bytes max_redirects policy
    = Ok (config transport) →
  0 ≤ max_redirects → max_retries policy ≤ u8_max →
  send w transport request = (t, x) →
  loop_outcome w transport request 0 (mk_trace [] [] []) t x.
Proof.
  intros (Hr & Hp & _ & Hmr & _)%config_new_Ok Hz Hm Hs.
  assert (u8_max = 255 ∧ MAX_REDIRECTS = 10) as [? ?] by done.
  apply send_loop_run in Hs; [done|rewrite ?Hr, ?Hp; lia..| |];
    unfold retry_fuel; lia.
Qed.

(** C4. Whatever the network answers, redirects included, every request that
    goes out is the caller's request, built with its credentials for a URL the
    endpoint policy accepted just before: without user information, and
    encrypted unless the URL's origin was declared as a plain-HTTP loopback or
    private one. *)
Theorem transport_sends_only_approved t x :
  config_new connect_timeout request_timeout max_response_bytes max_redirects policy
    = Ok (config transport) →
  0 ≤ max_redirects → max_retries policy ≤ u8_max →
  send w transport request = (t, x) →
  Forall (λ wire,
    sent_method wire = method request ∧ sent_body wire = body request ∧
    username (sent_url wire) = [] ∧ password (sent_url wire) = None ∧
    ∃ endpoint now, validate (endpoints transport) (sent_url wire) = Ok endpoint ∧
      build_request request endpoint now = Ok wire ∧
      (is_https (scheme (sent_url wire)) = true ∨
       (is_http (scheme (sent_url wire)) = true ∧
        (endpoint_class endpoint = LoopbackDevelopment ∨ endpoint_class endpoint = PrivateHttp))))
    (sent t).
Proof.
  intros Hc Hz Hm Hs. destruct (send_outcome _ _ Hc Hz Hm Hs) as (wires & errors & pauses & -> & _ & _ & Ha & _).
  eapply Forall_impl; [exact Ha|]. cbn. intros wire (endpoint & now & Hv & Hb).
  destruct (build_request_Ok _ _ _ _ Hb) as (Hu & ? & ?).
  pose proof (validate_Ok _ _ _ Hv) as (_ & Hcomp & Hclass & _).
  destruct (request_checks_Ok _ _ Hcomp Hclass) as ((? & ? & _ & _) & _ & Henc).
  rewrite Hu. split_and!; try done. by exists endpoint, now.
Qed.

(** C8. A send always ends, with a response or a typed error: it makes at most
    one attempt per configured retry and one more, each of at most one request
    per allowed redirect and one more (a single one for a POST); it retries only
    retryable failures and pauses no longer than the policy allows, at most an
    hour. *)
Theorem send_terminates_bounded t x :
  config_new connect_timeout request_timeout max_response_bytes max_redirects policy
    = Ok (config transport) →
  0 ≤ max_redirects → 0 ≤ max_retries policy ≤ u8_max →
  send w transport request = (t, x) →
  ((∃ response, x = Ok response) ∨ (∃ e, x = Err (Failed e))) ∧
  Z.of_nat (length (retried t)) ≤ max_retries policy ∧
  length (slept t) = length (retried t) ∧
  Z.of_nat (length (sent t)) ≤
    (Z.of_nat (length (retried t)) + 1) *
    (if bool_decide (method request = POST) then 1 else max_redirects + 1) ∧
  Forall (λ e, TransportError.is_retryable e = true) (retried t) ∧
  Forall (λ d, d ≤ max_delay policy ∧ d ≤ from_hours 1) (slept t).
Proof.
  intros Hc Hz Hm Hs.
  destruct (send_outcome _ _ Hc Hz (proj2 Hm) Hs)
    as (wires & errors & pauses & Es & Er & Ep & _ & Hl & Hpl & Hel & Her & Hpa & Hx).
  apply config_new_Ok in Hc as (Hmr & Hp & _ & _ & _ & Hmax).
  rewrite Es, Er, Ep. cbn in *. unfold attempt_requests in Hl. rewrite Hmr in Hl. rewrite Hp in *.
  split_and!; try done; [|lia|].
  - destruct x as [response|stop]; [left; by exists response|].
    right. destruct Hx as [e ->]. by exists e.
  - eapply Forall_impl; [exact Hpa|]. cbn. intros d Hd. split; [done|].
    unfold MAX_RETRY_DELAY in Hmax. lia.
Qed.

(** C10. A returned response is the network's answer to the last request, from
    the endpoint it names: not a redirect, its status a success or one the
    caller accepted, its body exactly the received chunks within the limit, its
    headers only requested ones with the received, bounded values. *)
Theorem response_within_contract t response :
  config_new connect_timeout request_timeout max_response_bytes max_redirects policy
    = Ok (config transport) →
  0 ≤ max_redirects → max_retries policy ≤ u8_max → 0 ≤ max_response_bytes →
  send w transport request = (t, Ok response) →
  ∃ wire r, last (sent t) = Some wire ∧ exchange w (sent t) = Responded r ∧
    sent_url wire = endpoint_url (response_endpoint response) ∧
    response_status response = status r ∧ is_redirection (status r) = false ∧
    (is_success (status r) = true ∨ status r ∈ accepted_statuses request) ∧
    Z.of_nat (length (response_body response)) ≤ max_response_bytes ∧
    max_response_bytes ≤ 16 * 1024 * 1024 ∧
    (∃ chunks, body_events r = Chunk <$> chunks ∧ response_body response = concat chunks) ∧
    Forall (λ h, h.1 ∈ response_headers request ∧ ∃ value,
      header_get (headers r) h.1 = Some value ∧
      Z.of_nat (length value) ≤ MAX_RESPONSE_HEADER_VALUE_BYTES ∧
      header_to_str value = Some h.2) (selected_headers response).
Proof.
  intros Hc Hz Hm Hb Hs.
  destruct (send_outcome _ _ Hc Hz Hm Hs)
    as (wires & _ & _ & Es & _ & _ & _ & _ & _ & _ & _ & _ & before & of_attempt & -> & Ha).
  apply config_new_Ok in Hc as (_ & _ & Hmb & _ & Hmax & _).
  destruct Ha as ((wire & Hl & Hu) & _ & r & Hx & Hst & Hred & Hok & (Hlen & Hch) & Hh).
  rewrite Hmb in Hlen. exists wire, r. cbn in Es. rewrite Es in *.
  split_and!; try done; [|by apply Hlen]. by rewrite last_app, Hl.
Qed.
End Properties.

(** A status outside the success range is classified by the status alone,
    and the wait a server asks for survives: a 429 or 5xx answer with a
    [Retry-After] the client can read gives an automatically retried error that
    carries it, at least a second and at most an hour, and no other answer
    carries one. *)
Theorem status_error_keeps_retry_hint `{HttpCrate} status headers now :
  let hint := value ← header_get headers RETRY_AFTER;
              parse_retry_after value now MAX_RETRY_AFTER_DELAY in
  let e := TransportError.classified (status_error status headers now) in
  ClassifiedError.wf e ∧
  (ClassifiedError.kind e = RateLimited ↔ status = 429) ∧
  (ClassifiedError.kind e = ProviderUnavailable ↔ 500 ≤ status ≤ 599) ∧
  ClassifiedError.retry_after e =
    (if bool_decide (status = 429) || is_server_error status
     then (λ d, WindowDuration.mk (Z.max (d / NANOS_PER_SECOND) 1)) <$> hint else None) ∧
  (∀ d, ClassifiedError.retry_after e = Some d → 1 ≤ WindowDuration.seconds d ≤ 3600).
Proof.
  cbn zeta. unfold status_error. set (hint := mbind _ _).
  assert (∀ d, hint = Some d → d ≤ 3600 * NANOS_PER_SECOND) as Hhint.
  { intros d. subst hint. rewrite bind_Some. intros (value & _ & Hd).
    by apply parse_retry_after_bound in Hd. }
  clearbody hint. assert (∀ d, (λ d, WindowDuration.mk (Z.max (d / NANOS_PER_SECOND) 1)) <$> hint = Some d →
    1 ≤ WindowDuration.seconds d ≤ 3600) as Hw.
  { intros w. rewrite fmap_Some. intros (d & Hd & ->). apply Hhint in Hd. cbn.
    assert (d / NANOS_PER_SECOND ≤ 3600) by (apply Z.div_le_upper_bound; [done|lia]). lia. }
  unfold TransportError.classified, is_server_error.
  repeat match goal with |- context [status =? ?n] => destruct (Z.eqb_spec status n) end;
    try destruct ((500 <=? status) && (status <=? 599)) eqn:Hs;
    rewrite classified_as_spec, from_kind_kind, from_kind_retry_after by (first [left; reflexivity|right; reflexivity]);
    rewrite ?andb_true_iff, ?andb_false_iff, ?Z.leb_le, ?Z.leb_gt in Hs;
    (split; [apply from_kind_wf; first [reflexivity|intros _; reflexivity|by intros [? ?]]|]); cbn [TransportError.retry_after].
  all: try lia.
  all: destruct (bool_decide_reflect (status = 429)); try lia.
  all: split; [split; intros; first [discriminate|reflexivity|lia]|].
  all: split; [split; intros; first [discriminate|reflexivity|lia]|].
  all: split; [reflexivity|first [exact Hw|discriminate]].
Qed.

(** ** What the request builders can build *)

Section Builders.
Context `{UrlCrate} `{HttpCrate} `{!CloudSigning}.

(** The authentications there are, but for the cloud signers': what the five
    constructors return. *)
Inductive offered : Authentication → Prop :=
| offered_bearer value a : auth_bearer value = Ok a → offered a
| offered_bearer_and_cookie bearer cookie a : auth_bearer_and_cookie bearer cookie = Ok a → offered a
| offered_scheme scheme value a : auth_authorization_scheme scheme value = Ok a → offered a
| offered_api_key name value a : auth_api_key name value = Ok a → offered a
| offered_cookie value a : auth_cookie value = Ok a → offered a
| offered_aws signer credentials : offered (AwsSigV4 signer credentials)
| offered_volcengine credentials : offered (VolcengineV4 credentials).
Inductive built : HttpRequest → Prop :=
| built_get url : built (request_get url)
| built_get_json url : built (request_get_json url)
| built_post url body r : request_post url body = Ok r → built r
| built_post_json url body r : request_post_json url body = Ok r → built r
| built_authentication r a : built r → offered a → built (with_authentication r a)
| built_accept r a : built r → built (with_accept r a)
| built_content_type r c : built r → built (with_content_type r c)
| built_accepted_statuses r statuses r' :
    built r → with_accepted_statuses r statuses = Ok r' → built r'
| built_response_headers r names r' :
    built r → with_response_headers r names = Ok r' → built r'
| built_public_header r name value r' :
    built r → with_public_header r name value = Ok r' → built r'
| built_sensitive_header r name value r' :
    built r → with_sensitive_header r name value = Ok r' → built r'.

Definition metadata_names (r : HttpRequest) : list str :=
  (public_headers r).*1 ++ (sensitive_headers r).*1.

(** A secret that may be sent: not empty, on one line, and not too long. *)
Definition secret_ok (limit : Z) (value : str) : Prop := value ≠ [] ∧ str_len value ≤ limit ∧ 13 ∉ value ∧ 10 ∉ value.
Definition authentication_ok (a : Authentication) : Prop :=
  match a with
  | Bearer secret | Cookie secret => secret_ok MAX_SECRET_BYTES secret
  | BearerAndCookie bearer cookie => secret_ok MAX_SECRET_BYTES bearer ∧ secret_ok MAX_SECRET_BYTES cookie
  | AuthorizationScheme scheme value =>
      (scheme ≠ [] ∧ str_len scheme ≤ MAX_AUTHORIZATION_SCHEME_BYTES ∧ Forall (λ b, is_http_token_byte b = true) (as_bytes scheme)) ∧
      secret_ok MAX_SECRET_BYTES value
  | ApiKey name value =>
      (∃ text, header_name text = Some name) ∧ is_reserved_api_key_header name = false ∧ secret_ok MAX_SECRET_BYTES value
  | AwsSigV4 _ _ | VolcengineV4 _ => True
  end.
(** Metadata headers with distinct, unreserved names; only error statuses
    accepted and no reserved response header selected, each once; and every value,
    list and body bounded. *)
Record request_wf (r : HttpRequest) : Prop := {
  wf_names : NoDup (metadata_names r) ∧ header_count r ≤ MAX_PUBLIC_REQUEST_HEADERS ∧
    Forall (λ n, (∃ text, header_name text = Some n) ∧ is_reserved_public_header n = false) (metadata_names r);
  wf_public : Forall (λ h, ∃ text, header_value text = Some h.2 ∧ str_len text ≤ MAX_PUBLIC_HEADER_VALUE_BYTES) (public_headers r);
  wf_sensitive : Forall (λ h, secret_ok MAX_SECRET_BYTES h.2 ∧ str_len h.2 ≤ MAX_PUBLIC_HEADER_VALUE_BYTES) (sensitive_headers r);
  wf_authentication : ∀ a, authentication r = Some a → authentication_ok a;
  wf_statuses : NoDup (accepted_statuses r) ∧ Z.of_nat (length (accepted_statuses r)) ≤ MAX_ACCEPTED_STATUSES ∧
    Forall (λ s, 400 ≤ s ≤ 599) (accepted_statuses r);
  wf_selected : NoDup (response_headers r) ∧ Z.of_nat (length (response_headers r)) ≤ MAX_RESPONSE_HEADERS ∧
    Forall (λ n, is_reserved_response_header n = false) (response_headers r);
  wf_body : Z.of_nat (length (body r)) ≤ MAX_REQUEST_BODY_BYTES;
}.

Lemma secret_value_Ok value v : secret_value value = Ok v → v = value ∧ secret_ok MAX_SECRET_BYTES value.
Proof.
  unfold secret_value, secret_ok. destruct (_ || _) eqn:E; [done|]. intros [= <-].
  rewrite !orb_false_iff, Z.ltb_ge, !bool_decide_eq_false in E. destruct E as [[[He Hl] H13] H10].
  split_and!; try done. by destruct value.
Qed.
Lemma offered_ok a : offered a → authentication_ok a.
Proof.
  destruct 1 as [v a Ho|b c a Ho|s v a Ho|n v a Ho|v a Ho|s c|c]; try done.
  - apply fmap_Ok in Ho as (x & [-> Hs]%secret_value_Ok & <-). done.
  - apply bind_Ok in Ho as (x & [-> Hb]%secret_value_Ok & (y & [-> Hc]%secret_value_Ok & [= <-])%bind_Ok). by split.
  - unfold auth_authorization_scheme in Ho. destruct (_ || _) eqn:E; [done|]. apply fmap_Ok in Ho as (x & [-> Hs]%secret_value_Ok & <-).
    rewrite !orb_false_iff, Z.ltb_ge, negb_false_iff, forallb_forall in E. destruct E as [[He Hl] Ht]. split; [|done].
    split_and!; [by destruct s|done|]. apply Forall_forall. intros x Hx. by apply Ht, list_elem_of_In.
  - apply bind_Ok in Ho as (x & Hn%ok_or_Ok & Ho). destruct (is_reserved_api_key_header x) eqn:Hr; [done|].
    apply fmap_Ok in Ho as (y & [-> Hs]%secret_value_Ok & <-). split; [by exists n|done].
  - apply fmap_Ok in Ho as (x & [-> Hs]%secret_value_Ok & <-). done.
Qed.
Lemma NoDup_snoc {A} (l : list A) x : NoDup (l ++ [x]) ↔ NoDup l ∧ x ∉ l.
Proof.
  rewrite NoDup_app. split.
  - intros (Hl & Hx & _). split; [done|]. intros Hin. apply (Hx _ Hin), list_elem_of_singleton. done.
  - intros [Hl Hx]. split; [done|]. split; [|apply NoDup_singleton].
    intros y Hy ->%list_elem_of_singleton. done.
Qed.

Lemma accept_statuses_Ok statuses accepted r :
  accept_statuses statuses accepted = Ok r → NoDup accepted → Forall (λ s, 400 ≤ s ≤ 599) accepted →
  NoDup r ∧ length r = (length accepted + length statuses)%nat ∧ Forall (λ s, 400 ≤ s ≤ 599) r.
Proof.
  revert accepted. induction statuses as [|s statuses IH]; intros accepted; cbn.
  { intros [= <-]. rewrite Nat.add_0_r. done. }
  intros (s' & Hs & Hr)%bind_Ok Hd Hf.
  assert (s' = s) as -> 
    by (unfold status_from_u16 in Hs; destruct (_ && _); cbn in Hs; congruence).
  destruct (_ || _) eqn:E; [done|].
  rewrite orb_false_iff, bool_decide_eq_false in E. destruct E as [E Hn].
  apply IH in Hr as (? & Hl & ?); [|by apply NoDup_snoc|].
  - rewrite Hl, length_app. cbn. split_and!; [done|lia|done].
  - apply Forall_app. split; [done|]. apply Forall_singleton.
    unfold is_client_error, is_server_error in E.
    rewrite andb_false_iff, !negb_false_iff, !andb_true_iff, !Z.leb_le in E. lia.
Qed.

Lemma select_names_Ok names selected r :
  select_names names selected = Ok r → NoDup selected →
  Forall (λ n, is_reserved_response_header n = false) selected →
  NoDup r ∧ length r = (length selected + length names)%nat ∧
  Forall (λ n, is_reserved_response_header n = false) r.
Proof.
  revert selected. induction names as [|n names IH]; intros selected; cbn.
  { intros [= <-]. rewrite Nat.add_0_r. done. }
  intros (name & _ & Hr)%bind_Ok Hd Hf. destruct (_ || _) eqn:E; [done|].
  rewrite orb_false_iff, bool_decide_eq_false in E. destruct E as [E Hn].
  apply IH in Hr as (? & Hl & ?); [|by apply NoDup_snoc|].
  - rewrite Hl, length_app. cbn. split_and!; [done|lia|done].
  - apply Forall_app. split; [done|]. by apply Forall_singleton.
Qed.

Lemma new_metadata_name r name :
  is_reserved_public_header name || has_metadata_header r name = false →
  is_reserved_public_header name = false ∧ name ∉ (public_headers r).*1 ∧
  name ∉ (sensitive_headers r).*1.
Proof.
  unfold has_metadata_header. rewrite !orb_false_iff, !bool_decide_eq_false. tauto.
Qed.

Lemma with_public_header_wf r name value r' :
  with_public_header r name value = Ok r' → request_wf r → request_wf r'.
Proof.
  unfold with_public_header. destruct (_ || _) eqn:E; [done|].
  rewrite orb_false_iff, Z.leb_gt, Z.ltb_ge in E. destruct E as [Ec Ev].
  intros (n & Hn%ok_or_Ok & Hr)%bind_Ok [(Hd & Hc & Hf) Hpub Hsens Hauth Hst Hsel Hbody].
  destruct (_ || _) eqn:En; [done|]. apply new_metadata_name in En as (Hres & Hp & Hs).
  apply bind_Ok in Hr as (v & Hv%ok_or_Ok & [= <-]). split; try done.
  - unfold metadata_names, header_count in *. cbn. rewrite fmap_app, length_app. cbn.
    split_and!; [|lia|].
    + rewrite <-app_assoc. cbn. rewrite <-Permutation_middle. apply NoDup_cons.
      split; [|done]. rewrite elem_of_app. tauto.
    + rewrite <-app_assoc. cbn. rewrite Forall_app in Hf |- *. rewrite Forall_cons. split; [tauto|]. split; [|tauto]. eauto.
  - cbn. apply Forall_app. split; [done|]. apply Forall_singleton. by exists value.
Qed.

Lemma with_sensitive_header_wf r name value r' :
  with_sensitive_header r name value = Ok r' → request_wf r → request_wf r'.
Proof.
  unfold with_sensitive_header. destruct (Z.leb_spec MAX_PUBLIC_REQUEST_HEADERS (header_count r)); [done|].
  intros (n & Hn%ok_or_Ok & Hr)%bind_Ok [(Hd & Hc & Hf) Hpub Hsens Hauth Hst Hsel Hbody].
  destruct (_ || _) eqn:En; [done|]. apply new_metadata_name in En as (Hres & Hp & Hs).
  apply bind_Ok in Hr as (v & [-> Hv]%secret_value_Ok & Hr).
  destruct (Z.ltb_spec MAX_PUBLIC_HEADER_VALUE_BYTES (str_len value)); [done|]. injection Hr as <-. split; try done.
  - unfold metadata_names, header_count in *. cbn. rewrite fmap_app, length_app. cbn.
    rewrite app_assoc. split_and!; [|lia|].
    + apply NoDup_snoc. split; [done|]. rewrite elem_of_app. tauto.
    + apply Forall_app. split; [done|]. apply Forall_singleton. eauto.
  - cbn. apply Forall_app. split; [done|]. by apply Forall_singleton.
Qed.
Lemma bare_request_wf m url bd a c : Z.of_nat (length bd) ≤ MAX_REQUEST_BODY_BYTES → request_wf (mk_request m url None [] [] [] [] bd a c).
Proof. intros Hb. split; cbn; try done; split_and!; try done; by constructor. Qed.

End Builders.

(** ** Witnesses

    A request that is rate limited, waits the two seconds asked for, is
    redirected once and then answered in two chunks. *)

Module TransportExample.
#[local] Existing Instance EndpointExample.crate_example.
#[local] Existing Instance Reference.time.
#[local] Instance http_example : HttpCrate := {|
  header_name s := if is_empty s then None else Some (to_ascii_lowercase s);
  header_value s := Some s;
  header_to_str v := Some v;
  parse_http_date _ := None;
|}.
#[local] Instance signing_example : CloudSigning := {|
  AwsSigV4Signer := unit;
  AwsCredentials := unit;
  VolcengineCredentials := unit;
  aws_headers _ _ _ _ _ _ _ := None;
  volcengine_headers _ _ _ _ _ _ := None;
|}.
Definition config_example : TransportConfig :=
  mk_config (from_secs 5) (from_secs 20) 1024 3 (retry_one (from_secs 1) (from_secs 60)).
Definition transport_example : HttpTransport :=
  mk_transport EndpointExample.policy_example config_example.
Definition request_example : HttpRequest :=
  with_authentication (request_get_json EndpointExample.request_example) (Bearer (lit "token")).
Definition ok_response : Response := mk_response 200 [] (Some 3) [Chunk [1; 2]; Chunk [3]].
Definition world_example : World :=
  mk_world
    (λ requests, match requests with
      | [_] => Responded (mk_response 429 [(RETRY_AFTER, lit "2")] None [])
      | [_; _] => Responded (mk_response 302 [(LOCATION, lit "/usage")] None [])
      | _ => Responded ok_response
      end)
    (λ _, false) (λ _, false) (λ _, 0) (λ _, 0).
Definition outcome_example : Trace * Result Stop HttpResponse :=
  send world_example transport_example request_example.

Example send_example :
  slept outcome_example.1 = [from_secs 2] ∧
  retried outcome_example.1 = [TransportError.RateLimited (Some (from_secs 2))] ∧
  length (sent outcome_example.1) = 3%nat ∧
  response_body <$> outcome_example.2 = Ok [1; 2; 3].
Proof. split_and!; vm_compute; reflexivity. Qed.

Lemma config_example_ok :
  config_new (from_secs 5) (from_secs 20) 1024 3 (retry_one (from_secs 1) (from_secs 60))
  = Ok (config transport_example).
Proof. vm_compute. reflexivity. Qed.

Lemma transport_sends_only_approved_witness :
  Forall (λ wire, username (sent_url wire) = []) (sent outcome_example.1).
Proof.
  eapply Forall_impl.
  - apply (transport_sends_only_approved world_example transport_example request_example
      (from_secs 5) (from_secs 20) 1024 3 (retry_one (from_secs 1) (from_secs 60))
      outcome_example.1 outcome_example.2 config_example_ok).
    + lia.
    + vm_compute. discriminate.
    + destruct outcome_example eqn:E. exact E.
  - cbn. intros wire Hw. apply Hw.
Defined.

Lemma send_terminates_bounded_witness :
  Z.of_nat (length (sent outcome_example.1)) ≤ 8.
Proof.
  assert (0 ≤ max_retries (retry_one (from_secs 1) (from_secs 60)) ≤ u8_max) as Hm
    by (split; vm_compute; discriminate).
  destruct (send_terminates_bounded world_example transport_example request_example
    (from_secs 5) (from_secs 20) 1024 3 (retry_one (from_secs 1) (from_secs 60))
    outcome_example.1 outcome_example.2 config_example_ok) as (_ & Hr & _ & Hs & _).
  - lia.
  - exact Hm.
  - destruct outcome_example eqn:E. exact E.
  - change (max_retries _) with 1 in Hr.
    rewrite bool_decide_eq_false_2 in Hs by (vm_compute; discriminate). lia.
Defined.

Definition response_example : HttpResponse :=
  mk_http_response 200 [1; 2; 3] [] EndpointExample.endpoint_example.
Lemma response_within_contract_witness :
  exchange world_example (sent outcome_example.1) = Responded ok_response ∧
  Z.of_nat (length (response_body response_example)) ≤ 1024.
Proof.
  split; [vm_compute; reflexivity|].
  destruct (response_within_contract world_example transport_example request_example
    (from_secs 5) (from_secs 20) 1024 3 (retry_one (from_secs 1) (from_secs 60))
    outcome_example.1 response_example config_example_ok)
    as (wire & r & _ & _ & _ & _ & _ & _ & Hlen & _).
  - lia.
  - vm_compute. discriminate.
  - lia.
  - vm_compute. reflexivity.
  - exact Hlen.
Defined.

Definition built_example : Result TransportError HttpRequest :=
  a ← auth_api_key (lit "X-Api-Key") (lit "token");
  r ← with_public_header (with_authentication (request_get_json EndpointExample.request_example) a) (lit "X-Client") (lit "bar");
  r ← with_sensitive_header r (lit "X-Session") (lit "s3cr3t");
  with_accepted_statuses r [404; 410].
Lemma built_example_built : ∀ r, built_example = Ok r → built r.
Proof.
  intros r (a & Ha & (r1 & H1 & (r2 & H2 & H3)%bind_Ok)%bind_Ok)%bind_Ok.
  eapply built_accepted_statuses, H3. eapply built_sensitive_header, H2. eapply built_public_header, H1.
  apply built_authentication; [apply built_get_json|]. by eapply offered_api_key.
Qed.
Lemma built_example_made : ∃ r, built_example = Ok r ∧ accepted_statuses r = [404; 410].
Proof. eexists. vm_compute. split; reflexivity. Qed.
End TransportExample.
