(* ===== verification/SliceReader.v ===== *)
(** * The bounded byte reader  (crates/providers/src/chromium_leveldb.rs)

    The cursor over an untrusted byte slice that every format of the LevelDB
    reader is parsed with: single bytes, exact slices, little-endian integers,
    varints and length-prefixed fields.  Each parser is shown to recognise
    exactly the encodings of a format, and formats compose like parsers. *)
From stdpp Require Import prelude.
From S2P Require Import Prelude Text.
Local Open Scope Z_scope.

Notation bytes := (list Z).
Definition is_byte (b : Z) : Prop := 0 ≤ b < 256.
Definition blen {A} (l : list A) : Z := Z.of_nat (length l).

(** ** Errors *)

Inductive LevelDbError :=
| InvalidProfile
| UnsupportedBrowser
| InvalidRelativePath
| Missing
| UnsafeLayout
| TooLarge
| TooManyEntries
| Changed
| Malformed
| InvalidOrigin
| InvalidTokenPolicy.
#[global] Instance LevelDbError_eq_dec : EqDecision LevelDbError.
Proof. solve_decision. Defined.

(** How a parse stops: an error of the program, a panic of an index or slice
    that is out of range, or the end of a loop's fuel. *)
Inductive Fault := Rejected (e : LevelDbError) | Panicked | OutOfFuel.
#[global] Instance Fault_eq_dec : EqDecision Fault.
Proof. solve_decision. Defined.
Definition reject {A} (e : LevelDbError) : Result Fault A := Err (Rejected e).

(** ** Slices *)

(** [l[start..end]] and [l.get(start..end)]. *)
Definition sub_bytes {A} (l : list A) (start stop : Z) : list A :=
  take (Z.to_nat (stop - start)) (drop (Z.to_nat start) l).
Definition get_slice {A} (l : list A) (start stop : Z) : option (list A) :=
  if (0 <=? start) && (start <=? stop) && (stop <=? blen l) then Some (sub_bytes l start stop) else None.
Definition index_slice {A} (l : list A) (start stop : Z) : Result Fault (list A) :=
  ok_or (get_slice l start stop) Panicked.
(** [l[i]] and [l.get(i)]. *)
Definition get_at {A} (l : list A) (i : Z) : option A :=
  if 0 <=? i then l !! Z.to_nat i else None.
Definition index_at {A} (l : list A) (i : Z) : Result Fault A := ok_or (get_at l i) Panicked.

(** ** Little-endian integers *)

Definition from_le_bytes (l : bytes) : Z := foldr (λ b n, b + 256 * n) 0 l.
Fixpoint to_le_bytes (k : nat) (n : Z) : bytes :=
  match k with O => [] | S k => n mod 256 :: to_le_bytes k (n / 256) end.

Definition read_le (k : Z) (l : bytes) (offset : Z) : Result Fault Z :=
  l ← ok_or (get_slice l offset (offset + k)) (Rejected Malformed);
  mret (from_le_bytes l).
Definition read_u16_le : bytes → Z → Result Fault Z := read_le 2.
Definition read_u32_le : bytes → Z → Result Fault Z := read_le 4.
Definition read_u64_le : bytes → Z → Result Fault Z := read_le 8.

(** ** The reader *)

Record SliceReader := mk_reader { reader_bytes : bytes; position : Z }.

(** A method that returns [Option] fails with [tt]. *)
Definition Reading (E A : Type) : Type := SE SliceReader E A.

Module Reader.
Definition new (l : bytes) : SliceReader := mk_reader l 0.
Definition remaining (r : SliceReader) : Result Fault bytes :=
  index_slice (reader_bytes r) (position r) (blen (reader_bytes r)).
Definition is_empty (r : SliceReader) : bool := position r =? blen (reader_bytes r).

Definition read_u8 : Reading unit Z := λ r,
  match get_at (reader_bytes r) (position r) with
  | None => (r, Err tt)
  | Some value => (mk_reader (reader_bytes r) (position r + 1), Ok value)
  end.

Definition read_exact (count : Z) : Reading unit bytes := λ r,
  match checked_add usize_max (position r) count with
  | None => (r, Err tt)
  | Some stop =>
      match get_slice (reader_bytes r) (position r) stop with
      | None => (r, Err tt)
      | Some value => (mk_reader (reader_bytes r) stop, Ok value)
      end
  end.

(** [.ok_or(ChromiumLevelDbError::Malformed)] *)
Definition or_malformed {A} (m : Reading unit A) : Reading Fault A := λ r,
  match m r with
  | (r, Ok a) => (r, Ok a)
  | (r, Err _) => (r, reject Malformed)
  end.

Definition read_int_le (k : Z) : Reading Fault Z :=
  l ← or_malformed (read_exact k);
  mret (from_le_bytes l).
Definition read_u16_le : Reading Fault Z := read_int_le 2.
Definition read_u32_le : Reading Fault Z := read_int_le 4.

(** [u64::checked_shl] of a shift below 64 drops the high bits. *)
Definition shl64 (n shift : Z) : Z := Z.shiftl n shift mod 2 ^ 64.

(** The loop of [read_varint]: [rounds] of the [maximum_bytes] are left. *)
Fixpoint varint_loop (rounds : nat) (index value : Z) : Reading unit Z :=
  match rounds with
  | O => se_fail tt
  | S rounds =>
      byte ← read_u8;
      let payload := Z.land byte 0x7f in
      let shift := index * 7 in
      if (64 <=? shift) || negb (Z.shiftr (shl64 payload shift) shift =? payload)
      then se_fail tt else
      let value := Z.lor value (shl64 payload shift) in
      if Z.land byte 0x80 =? 0 then
        if (0 <? index) && (payload =? 0) then se_fail tt else mret value
      else varint_loop rounds (index + 1) value
  end.
Definition read_varint (maximum_bytes : nat) : Reading unit Z := varint_loop maximum_bytes 0 0.
Definition read_varint32 : Reading unit Z :=
  value ← read_varint 5;
  if value <=? u32_max then mret value else se_fail tt.
Definition read_varint64 : Reading unit Z := read_varint 10.

Definition read_length_prefixed (maximum : Z) : Reading Fault bytes :=
  length ← or_malformed read_varint32;
  if maximum <? length then se_fail (Rejected TooLarge) else
  or_malformed (read_exact length).
End Reader.

(** ** Formats

    [parses m P]: the parser consumes exactly the byte strings [P] relates to
    its result, from any position. *)

Definition rest (r : SliceReader) : bytes := drop (Z.to_nat (position r)) (reader_bytes r).
Definition advance (n : Z) (r : SliceReader) : SliceReader :=
  mk_reader (reader_bytes r) (position r + n).
Record reader_wf (r : SliceReader) : Prop := {
  wf_bytes : Forall is_byte (reader_bytes r);
  wf_position : 0 ≤ position r ≤ blen (reader_bytes r);
  wf_memory : blen (reader_bytes r) ≤ usize_max;
}.

Definition format (A : Type) : Type := bytes → A → Prop.
Definition parses {E A} (m : Reading E A) (P : format A) : Prop :=
  ∀ r r' a, reader_wf r →
    m r = (r', Ok a) ↔ ∃ pre post, rest r = pre ++ post ∧ r' = advance (blen pre) r ∧ P pre a.
(** Two formats one after the other. *)
Definition seq_format {A B} (P : format A) (Q : A → format B) : format B := λ pre b,
  ∃ p1 p2 a, pre = p1 ++ p2 ∧ P p1 a ∧ Q a p2 b.

Lemma blen_app {A} (l k : list A) : blen (l ++ k) = blen l + blen k.
Proof. unfold blen. rewrite length_app. lia. Qed.
Lemma blen_nonneg {A} (l : list A) : 0 ≤ blen l.
Proof. unfold blen. lia. Qed.

Lemma rest_advance r pre post :
  reader_wf r → rest r = pre ++ post →
  reader_wf (advance (blen pre) r) ∧ rest (advance (blen pre) r) = post ∧ Forall is_byte pre.
Proof.
  intros [Hb Hp Hm] Hr. unfold rest in *. unfold blen in *.
  assert (length (drop (Z.to_nat (position r)) (reader_bytes r)) = length (pre ++ post)) as Hl
    by by rewrite Hr.
  rewrite length_drop, length_app in Hl. split; [split; cbn; [done|unfold blen; lia|done]|]. split.
  - cbn. rewrite Z2Nat.inj_add, Nat2Z.id by lia. by rewrite <-drop_drop, Hr, drop_app_length.
  - assert (Forall is_byte (pre ++ post)) as Hf by (rewrite <-Hr; by apply Forall_drop).
    by apply Forall_app in Hf as [? _].
Qed.

Lemma parses_ret {E A} (a : A) : parses (E:=E) (mret a) (λ pre b, pre = [] ∧ b = a).
Proof.
  intros [l p] r' b Hw. unfold mret, SE_ret. split.
  - intros [= <- <-]. exists [], (rest (mk_reader l p)). split; [done|]. split; [|done].
    unfold advance. cbn. by rewrite Z.add_0_r.
  - intros (pre & post & Hr & -> & -> & ->). unfold advance. cbn. by rewrite Z.add_0_r.
Qed.
Lemma parses_fail {E A} (e : E) : parses (A:=A) (se_fail e) (λ _ _, False).
Proof. intros r r' a _. split; [done|]. by intros (? & ? & _ & _ & []). Qed.

(** The second parser may rely on the value the first one read. *)
Lemma parses_bind_dep {E A B} (m : Reading E A) (k : A → Reading E B) P Q :
  parses m P → (∀ a, (∃ pre, P pre a) → parses (k a) (Q a)) → parses (m ≫= k) (seq_format P Q).
Proof.
  intros Hm Hk r r' b Hw. rewrite se_bind_Ok. split.
  - intros (r1 & a & H1 & H2). apply Hm in H1 as (p1 & post1 & E1 & -> & HP); [|done].
    destruct (rest_advance _ _ _ Hw E1) as (Hw1 & Hr1 & _).
    apply Hk in H2 as (p2 & post2 & E2 & -> & HQ); [|by exists p1|done].
    exists (p1 ++ p2), post2. rewrite E1, <-app_assoc. rewrite Hr1 in E2. split; [by rewrite E2|].
    split; [unfold advance; cbn; rewrite blen_app; f_equal; lia|]. by exists p1, p2, a.
  - intros (pre & post & Er & -> & p1 & p2 & a & -> & HP & HQ). rewrite <-app_assoc in Er.
    destruct (rest_advance _ _ _ Hw Er) as (Hw1 & Hr1 & _).
    exists (advance (blen p1) r), a. split; [apply Hm; [done|]; by exists p1, (p2 ++ post)|].
    apply Hk; [by exists p1|done|]. exists p2, post. split; [done|]. split; [|done].
    unfold advance. cbn. rewrite blen_app. f_equal. lia.
Qed.
Lemma parses_bind {E A B} (m : Reading E A) (k : A → Reading E B) P Q :
  parses m P → (∀ a, parses (k a) (Q a)) → parses (m ≫= k) (seq_format P Q).
Proof. intros Hm Hk. apply parses_bind_dep; [done|]. intros a _. apply Hk. Qed.

(** Equivalent formats, on byte strings. *)
Lemma parses_iff {E A} (m : Reading E A) P Q :
  parses m P → (∀ pre a, Forall is_byte pre → blen pre ≤ usize_max → P pre a ↔ Q pre a) →
  parses m Q.
Proof.
  intros Hm HPQ r r' a Hw. rewrite (Hm r r' a Hw). split; intros (pre & post & Er & -> & H);
    exists pre, post; (split; [done|]); (split; [done|]);
    destruct (rest_advance _ _ _ Hw Er) as (_ & _ & Hf);
    (apply HPQ; [done| |done]); destruct Hw as [_ ? ?];
    assert (blen (rest r) = blen (pre ++ post)) as Hl by (by rewrite Er);
    rewrite blen_app in Hl; unfold rest, blen in *; rewrite length_drop in Hl; lia.
Qed.

Lemma parses_if {E A} (b : bool) (m n : Reading E A) P Q :
  parses m P → parses n Q → parses (if b then m else n) (λ pre a, if b then P pre a else Q pre a).
Proof. by destruct b. Qed.

Lemma parses_or_malformed {A} (m : Reading unit A) P :
  parses m P → parses (Reader.or_malformed m) P.
Proof.
  intros Hm r r' a Hw. rewrite <-(Hm r r' a Hw). unfold Reader.or_malformed.
  destruct (m r) as [r1 [x|e]]; cbn; naive_solver.
Qed.

Lemma get_slice_Some {A} (l : list A) start stop s :
  get_slice l start stop = Some s ↔
  0 ≤ start ≤ stop ∧ stop ≤ blen l ∧ s = sub_bytes l start stop.
Proof.
  unfold get_slice. destruct (_ && _) eqn:E.
  - rewrite !andb_true_iff, !Z.leb_le in E. naive_solver.
  - split; [done|]. intros ([? ?] & ? & _).
    rewrite !andb_false_iff, !Z.leb_gt in E. lia.
Qed.
Lemma sub_bytes_length {A} (l : list A) start stop :
  0 ≤ start ≤ stop → stop ≤ blen l → blen (sub_bytes l start stop) = stop - start.
Proof.
  unfold sub_bytes, blen. intros. rewrite length_take, length_drop. lia.
Qed.
Lemma sub_bytes_Forall {A} (P : A → Prop) l start stop :
  Forall P l → Forall P (sub_bytes l start stop).
Proof. intros H. by apply Forall_take, Forall_drop. Qed.
Lemma drop_sub_bytes {A} (l : list A) start stop :
  0 ≤ start ≤ stop → drop (Z.to_nat start) l = sub_bytes l start stop ++ drop (Z.to_nat stop) l.
Proof.
  intros H. unfold sub_bytes.
  replace (Z.to_nat stop) with (Z.to_nat start + Z.to_nat (stop - start))%nat by lia.
  by rewrite <-drop_drop, take_drop.
Qed.

Lemma parses_read_u8 : parses Reader.read_u8 (λ pre b, pre = [b] ∧ is_byte b).
Proof.
  intros [l p] r' b [Hb Hp Hm]. unfold Reader.read_u8, get_at, rest, advance. cbn in *.
  rewrite (proj2 (Z.leb_le 0 p)) by lia. split.
  - destruct (l !! Z.to_nat p) as [b'|] eqn:E; [|done]. intros [= <- <-].
    exists [b'], (drop (S (Z.to_nat p)) l). split_and!; [by apply drop_S|done|done|].
    by eapply Forall_lookup in E.
  - intros (pre & post & E & -> & -> & _).
    assert (l !! Z.to_nat p = Some b) as ->; [|done].
    rewrite <-(Nat.add_0_r (Z.to_nat p)), <-lookup_drop, E. done.
Qed.

Lemma parses_read_exact n : 0 ≤ n → parses (Reader.read_exact n) (λ pre l, pre = l ∧ blen l = n).
Proof.
  intros Hn [l p] r' s [Hb Hp Hm]. unfold Reader.read_exact, rest, advance. cbn in *. split.
  - destruct (checked_add _ p n) as [stop|] eqn:E; [|done].
    apply checked_add_Some in E as [-> _].
    destruct (get_slice l p (p + n)) as [s'|] eqn:E; [|done]. intros [= <- <-].
    apply get_slice_Some in E as (? & ? & ->).
    exists (sub_bytes l p (p + n)), (drop (Z.to_nat (p + n)) l).
    rewrite sub_bytes_length by lia. replace (p + n - p) with n by lia.
    split_and!; try done. apply drop_sub_bytes. lia.
  - intros (pre & post & E & -> & -> & Hs).
    assert (blen (drop (Z.to_nat p) l) = n + blen post) as Hl by (rewrite E, blen_app; lia).
    unfold blen in Hl at 1. rewrite length_drop in Hl.
    pose proof (blen_nonneg post). unfold blen in Hp, Hm, Hs.
    destruct (checked_add usize_max p n) as [stop|] eqn:Ec;
      [apply checked_add_Some in Ec as [-> _]|apply checked_add_None in Ec; lia].
    destruct (get_slice l p (p + n)) as [s'|] eqn:Es.
    + apply get_slice_Some in Es as (? & ? & ->). unfold sub_bytes. rewrite E.
      replace (Z.to_nat (p + n - p)) with (length s) by (unfold blen in *; lia).
      rewrite take_app_length. unfold blen. by rewrite Hs.
    + exfalso. unfold get_slice in Es. destruct (_ && _) eqn:Eb; [done|].
      rewrite !andb_false_iff, !Z.leb_gt in Eb. unfold blen in *. lia.
Qed.

(** ** Little-endian integers *)

Lemma to_le_bytes_length k n : length (to_le_bytes k n) = k.
Proof. revert n. induction k as [|k IH]; intros n; cbn; [done|]. by rewrite IH. Qed.
Lemma from_to_le_bytes k n : 0 ≤ n < 256 ^ Z.of_nat k → from_le_bytes (to_le_bytes k n) = n.
Proof.
  revert n. induction k as [|k IH]; intros n Hn; cbn [to_le_bytes from_le_bytes foldr].
  { cbn in Hn. lia. }
  fold (from_le_bytes (to_le_bytes k (n / 256))). rewrite Nat2Z.inj_succ, Z.pow_succ_r in Hn by lia.
  rewrite IH; [|split; [apply Z.div_pos; lia|apply Z.div_lt_upper_bound; lia]].
  pose proof (Z.div_mod n 256). lia.
Qed.
Lemma from_le_bytes_bound l : Forall is_byte l → 0 ≤ from_le_bytes l < 256 ^ blen l.
Proof.
  unfold blen. induction 1 as [|b l Hb Hl IH]; [cbn; lia|].
  cbn [from_le_bytes foldr length]. fold (from_le_bytes l).
  rewrite Nat2Z.inj_succ, Z.pow_succ_r by lia. unfold is_byte in Hb. nia.
Qed.
Lemma to_from_le_bytes l : Forall is_byte l → to_le_bytes (length l) (from_le_bytes l) = l.
Proof.
  induction 1 as [|b l Hb Hl IH]; [done|]. cbn [from_le_bytes foldr length to_le_bytes].
  fold (from_le_bytes l). unfold is_byte in Hb. f_equal.
  - rewrite Z.mul_comm, Z.mod_add by lia. by apply Z.mod_small.
  - rewrite Z.mul_comm, Z.div_add, Z.div_small by lia. exact IH.
Qed.
Lemma to_le_bytes_byte k n : Forall is_byte (to_le_bytes k n).
Proof.
  revert n. induction k as [|k IH]; intros n; cbn; constructor; [|done].
  apply Z.mod_pos_bound. lia.
Qed.

Lemma parses_int_le (k : nat) :
  parses (Reader.read_int_le (Z.of_nat k))
    (λ pre n, pre = to_le_bytes k n ∧ 0 ≤ n < 256 ^ Z.of_nat k).
Proof.
  eapply parses_iff.
  - apply parses_bind; [apply parses_or_malformed, parses_read_exact; lia|].
    intros l. apply parses_ret.
  - intros pre n Hf _. unfold seq_format. split.
    + intros (p1 & p2 & l & -> & (-> & Hl) & (-> & ->)). rewrite app_nil_r in *.
      pose proof (from_le_bytes_bound l Hf) as Hb. rewrite Hl in Hb. split; [|done].
      symmetry. replace k with (length l) by (unfold blen in Hl; lia). by apply to_from_le_bytes.
    + intros [-> Hn]. exists (to_le_bytes k n), [], (to_le_bytes k n). rewrite app_nil_r.
      split_and!; try done; [by unfold blen; rewrite to_le_bytes_length|].
      by rewrite from_to_le_bytes.
Qed.

(** ** Varints *)

(** The shortest varint of a number. *)
Fixpoint encode_varint_loop (rounds : nat) (n : Z) : bytes :=
  match rounds with
  | O => []
  | S rounds =>
      if n <? 128 then [n] else (n mod 128 + 128) :: encode_varint_loop rounds (n / 128)
  end.
Definition encode_varint (n : Z) : bytes := encode_varint_loop 10 n.

Lemma encode_varint_step rounds n :
  encode_varint_loop (S rounds) n =
  if n <? 128 then [n] else (n mod 128 + 128) :: encode_varint_loop rounds (n / 128).
Proof. done. Qed.

Lemma lor_shiftl value payload s :
  0 ≤ s → 0 ≤ value < 2 ^ s → Z.lor value (Z.shiftl payload s) = value + payload * 2 ^ s.
Proof.
  intros Hs Hv. rewrite <-Z.shiftl_mul_pow2 by lia.
  assert (Z.land value (Z.shiftl payload s) = 0) as Hz.
  { apply Z.bits_inj'. intros i Hi. rewrite Z.land_spec, Z.bits_0, Z.shiftl_spec by lia.
    destruct (Z.ltb_spec i s).
    - rewrite (Z.testbit_neg_r payload) by lia. apply andb_false_r.
    - destruct (Z.eq_dec value 0) as [->|]; [by rewrite Z.bits_0|].
      rewrite Z.bits_above_log2; [done|lia|]. apply Z.log2_lt_pow2; [lia|].
      eapply Z.lt_le_trans; [apply Hv|]. apply Z.pow_le_mono_r; lia. }
  rewrite <-Z.lxor_lor by done. symmetry. by apply Z.add_nocarry_lxor.
Qed.

Lemma shl64_exact payload s :
  0 ≤ s < 64 → 0 ≤ payload →
  (Z.shiftr (Reader.shl64 payload s) s =? payload) = true ↔ payload * 2 ^ s < 2 ^ 64.
Proof.
  intros Hs Hp. unfold Reader.shl64. rewrite Z.eqb_eq, Z.shiftl_mul_pow2, Z.shiftr_div_pow2 by lia.
  assert (0 < 2 ^ s) by (apply Z.pow_pos_nonneg; lia). assert (2 ^ 64 = 2 ^ s * 2 ^ (64 - s)) as E.
  { rewrite <-Z.pow_add_r by lia. f_equal. lia. }
  assert (0 < 2 ^ (64 - s)) by (apply Z.pow_pos_nonneg; lia).
  rewrite E, (Z.mul_comm payload), Z.mul_mod_distr_l, Z.mul_comm, Z.div_mul by lia. split.
  - intros Hm. pose proof (Z.mod_pos_bound payload (2 ^ (64 - s))). nia.
  - intros Hlt. apply Z.mod_small. nia.
Qed.
Lemma shl64_small payload s :
  0 ≤ s → 0 ≤ payload → payload * 2 ^ s < 2 ^ 64 → Reader.shl64 payload s = payload * 2 ^ s.
Proof.
  intros. unfold Reader.shl64. rewrite Z.shiftl_mul_pow2 by lia. apply Z.mod_small.
  split; [|done]. apply Z.mul_nonneg_nonneg; [done|]. apply Z.pow_nonneg. lia.
Qed.

Lemma lor_shl64 value payload s :
  0 ≤ s → 0 ≤ value < 2 ^ s → 0 ≤ payload → payload * 2 ^ s < 2 ^ 64 →
  Z.lor value (Reader.shl64 payload s) = value + payload * 2 ^ s.
Proof.
  intros. rewrite shl64_small, <-lor_shiftl by lia. by rewrite Z.shiftl_mul_pow2.
Qed.

Lemma byte_split b :
  is_byte b → Z.land b 0x7f = b mod 128 ∧ (Z.land b 0x80 =? 0) = (b <? 128).
Proof.
  intros Hb. assert (Forall (λ b, Z.land b 0x7f = b mod 128 ∧ (Z.land b 0x80 =? 0) = (b <? 128))
    (seqZ 0 256)) as Hall by by_decide.
  eapply Forall_forall in Hall; [exact Hall|]. apply elem_of_seqZ. unfold is_byte in Hb. lia.
Qed.

(** One round of the loop on a byte. *)
Definition round_format (rounds : nat) (index value : Z)
    (next : Z → format Z) (byte : Z) : format Z := λ pre n,
  let payload := Z.land byte 0x7f in
  if (64 <=? index * 7)
     || negb (Z.shiftr (Reader.shl64 payload (index * 7)) (index * 7) =? payload) then False else
  let value := Z.lor value (Reader.shl64 payload (index * 7)) in
  if Z.land byte 0x80 =? 0 then
    if (0 <? index) && (payload =? 0) then False else pre = [] ∧ n = value
  else next value pre n.

Lemma below_multiple p q t v b :
  t = p * q → 0 ≤ v < p → b * p < t → v + b * p < t.
Proof.
  intros -> Hv Hb. rewrite (Z.mul_comm p q) in *.
  assert (b < q) by (apply (Z.mul_lt_mono_pos_r p); lia).
  assert ((b + 1) * p ≤ q * p) by (apply Z.mul_le_mono_nonneg_r; lia). lia.
Qed.

(** What the loop reads from round [index] on: a number [m] above the bits it
    already has, not zero unless it is the first round. *)
Definition varint_format (rounds : nat) (index value : Z) : format Z := λ pre n,
  ∃ m, 0 ≤ m < 128 ^ Z.of_nat rounds ∧ (0 < index → m ≠ 0) ∧
    n = value + m * 2 ^ (index * 7) ∧ n < 2 ^ 64 ∧ pre = encode_varint_loop rounds m.

Lemma parses_varint_loop rounds index value :
  0 ≤ index → 0 ≤ value < 2 ^ (index * 7) → (rounds ≠ 0%nat ∨ 0 < index) →
  parses (Reader.varint_loop rounds index value) (varint_format rounds index value).
Proof.
  revert index value. induction rounds as [|rounds IH]; intros index value Hi Hv Hr.
  { intros r r' a _. cbn. split; [done|].
    intros (pre & post & _ & _ & m & Hm & Hm0 & _). cbn in Hm. lia. }
  cbn [Reader.varint_loop]. eapply parses_iff.
  { apply (parses_bind _ _ _ (round_format rounds index value (varint_format rounds (index + 1)))
      parses_read_u8).
    intros byte. unfold round_format. cbv beta zeta.
    destruct (_ || _) eqn:Hov; [apply parses_fail|].
    rewrite orb_false_iff, Z.leb_gt, negb_false_iff in Hov. destruct Hov as [Hs Hov].
    destruct (Z.land byte 0x80 =? 0).
    { destruct ((0 <? index) && _); [apply parses_fail|]. apply parses_ret. }
    assert (0 ≤ Z.land byte 0x7f < 128) as Hp.
    { change 0x7f with (Z.ones 7). rewrite Z.land_ones by lia. apply Z.mod_pos_bound. lia. }
    apply shl64_exact in Hov; [|lia..]. rewrite lor_shl64 by lia.
    apply IH; [lia| |right; lia].
    replace ((index + 1) * 7) with (index * 7 + 7) by lia. rewrite Z.pow_add_r by lia.
    change (2 ^ 7) with 128. nia. }
  intros pre n _ _. unfold seq_format, round_format. cbv beta zeta.
  assert (0 < 2 ^ (index * 7)) as Hpow by (apply Z.pow_pos_nonneg; lia).
  assert (2 ^ ((index + 1) * 7) = 2 ^ (index * 7) * 128) as Hnext.
  { replace ((index + 1) * 7) with (index * 7 + 7) by lia. by rewrite Z.pow_add_r by lia. }
  assert (128 ^ Z.of_nat (S rounds) = 128 * 128 ^ Z.of_nat rounds) as Hrounds.
  { rewrite Nat2Z.inj_succ, Z.pow_succ_r by lia. done. }
  assert (0 < 128 ^ Z.of_nat rounds) by (apply Z.pow_pos_nonneg; lia).
  split.
  - intros (p1 & p2 & byte & -> & (-> & Hb) & Hq).
    destruct (byte_split byte Hb) as [Hpay Hbit]. rewrite Hbit, Hpay in Hq.
    pose proof (Z.mod_pos_bound byte 128 ltac:(lia)) as Hmod.
    destruct (Z.leb_spec 64 (index * 7)); cbn [orb] in Hq; [done|].
    destruct (_ =? _) eqn:Hov in Hq; cbn [negb] in Hq; [|done].
    apply shl64_exact in Hov; [|lia..].
    rewrite lor_shl64 in Hq by lia.
    destruct (Z.ltb_spec byte 128) as [Hlt|Hge].
    + rewrite Z.mod_small in * by (unfold is_byte in Hb; lia).
      destruct ((0 <? index) && (byte =? 0)) eqn:Hz; [done|]. destruct Hq as [-> ->].
      rewrite andb_false_iff, Z.ltb_ge, Z.eqb_neq in Hz. unfold is_byte in Hb.
      exists byte. split; [lia|]. split; [lia|]. split; [done|]. split.
      * apply (below_multiple _ (2 ^ (64 - index * 7))); [|lia|done].
        rewrite <-Z.pow_add_r by lia. f_equal. lia.
      * by rewrite encode_varint_step, (proj2 (Z.ltb_lt byte 128)).
    + destruct Hq as (m & Hm & Hm0 & -> & Hn & ->). rewrite Hnext in *.
      exists (byte mod 128 + 128 * m). assert (m ≠ 0) by (apply Hm0; lia).
      unfold is_byte in Hb. assert (byte mod 128 = byte - 128) as Hbm.
      { symmetry. apply Z.mod_unique with 1; lia. }
      rewrite Hrounds. split_and!; [lia|nia|lia|nia|lia|].
      rewrite encode_varint_step, (proj2 (Z.ltb_ge _ 128)) by lia. cbn. f_equal.
      * rewrite Z.mul_comm, Z.mod_add, Z.mod_mod by lia. lia.
      * rewrite Z.mul_comm, Z.div_add, Z.div_small by lia. done.
  - intros (m & Hm & Hm0 & -> & Hn & ->). rewrite encode_varint_step.
    assert (index * 7 < 64) as Hshift.
    { destruct (Z.ltb_spec (index * 7) 64); [done|]. exfalso.
      assert (2 ^ 64 ≤ 2 ^ (index * 7)) by (apply Z.pow_le_mono_r; lia).
      destruct (Z.eq_dec index 0) as [->|]; [lia|]. assert (m ≠ 0) by (apply Hm0; lia). nia. }
    rewrite (proj2 (Z.leb_gt 64 (index * 7))) by lia.
    set (byte := if m <? 128 then m else m mod 128 + 128).
    assert (is_byte byte) as Hb.
    { subst byte. unfold is_byte. pose proof (Z.mod_pos_bound m 128 ltac:(lia)).
      destruct (Z.ltb_spec m 128); lia. }
    assert (byte mod 128 = m mod 128) as Hmod.
    { subst byte. destruct (Z.ltb_spec m 128); [done|].
      rewrite <-(Z.mul_1_l 128) at 2. rewrite Z.mod_add, Z.mod_mod by lia. done. }
    destruct (byte_split byte Hb) as [Hpay Hbit].
    pose proof (Z.mod_pos_bound m 128 ltac:(lia)). pose proof (Z.mod_le m 128 ltac:(lia) ltac:(lia)).
    assert (m mod 128 * 2 ^ (index * 7) < 2 ^ 64) as Hfit by nia.
    exists [byte], (if m <? 128 then [] else encode_varint_loop rounds (m / 128)), byte.
    split; [subst byte; by destruct (m <? 128)|]. split; [done|].
    rewrite Hbit, Hpay, Hmod. rewrite (proj2 (shl64_exact (m mod 128) (index * 7) ltac:(lia) ltac:(lia)) Hfit).
    cbn [negb orb]. rewrite lor_shl64 by lia.
    subst byte. destruct (Z.ltb_spec m 128).
    + rewrite (proj2 (Z.ltb_lt m 128)), Z.mod_small in * by lia.
      destruct (Z.ltb_spec 0 index), (Z.eqb_spec m 0); cbn; try done. exfalso. by apply Hm0.
    + rewrite (proj2 (Z.ltb_ge _ 128)) by lia. exists (m / 128).
      pose proof (Z.div_mod m 128 ltac:(lia)).
      assert (1 ≤ m / 128) by (apply Z.div_le_lower_bound; lia).
      rewrite Hnext, Hrounds in *. split_and!; [lia| |lia|nia|nia|done].
      apply Z.div_lt_upper_bound; lia.
Qed.

Lemma encode_varint_enough k k' n :
  0 ≤ n < 128 ^ Z.of_nat k → (0 < k ≤ k')%nat → encode_varint_loop k n = encode_varint_loop k' n.
Proof.
  revert k' n. induction k as [|k IH]; intros [|k'] n Hn Hk; try lia. rewrite !encode_varint_step.
  destruct (Z.ltb_spec n 128); [done|]. f_equal. rewrite Nat2Z.inj_succ, Z.pow_succ_r in Hn by lia.
  apply IH.
  - split; [apply Z.div_pos; lia|apply Z.div_lt_upper_bound; lia].
  - destruct k; [cbn in Hn; lia|lia].
Qed.

(** A varint is read exactly when it is the shortest one of its number. *)
Lemma parses_varint64 :
  parses Reader.read_varint64 (λ pre n, 0 ≤ n < 2 ^ 64 ∧ pre = encode_varint n).
Proof.
  eapply parses_iff; [apply (parses_varint_loop 10 0 0); [done|by cbn|by left]|].
  intros pre n _ _. unfold varint_format. rewrite Z.mul_0_l, Z.pow_0_r. split.
  - intros (m & Hm & _ & -> & Hn & ->). rewrite Z.mul_1_r, Z.add_0_l in *. split; [lia|done].
  - intros [Hn ->]. exists n. rewrite Z.mul_1_r, Z.add_0_l.
    split_and!; [lia| |lia|done|lia|done].
    eapply Z.lt_trans; [apply Hn|by vm_compute].
Qed.
Lemma parses_varint32 :
  parses Reader.read_varint32 (λ pre n, 0 ≤ n ≤ u32_max ∧ pre = encode_varint n).
Proof.
  eapply parses_iff.
  - apply (parses_bind _ _ (varint_format 5 0 0)
      (λ v pre n, if v <=? u32_max then pre = [] ∧ n = v else False)).
    + apply parses_varint_loop; [done|by cbn|by left].
    + intros v. apply parses_if; [apply parses_ret|apply parses_fail].
  - assert (u32_max < 128 ^ 5) as H5 by by vm_compute.
    assert (128 ^ 5 < 2 ^ 64) as H64 by by vm_compute.
    intros pre n _ _. unfold seq_format, varint_format. rewrite Z.mul_0_l, Z.pow_0_r. split.
    + intros (p1 & p2 & v & -> & (m & Hm & _ & -> & Hv & ->) & Hle).
      rewrite Z.mul_1_r, Z.add_0_l in *. destruct (Z.leb_spec m u32_max); [|done].
      destruct Hle as [-> ->]. rewrite app_nil_r. split; [lia|].
      apply encode_varint_enough; [done|lia].
    + intros [Hn ->]. exists (encode_varint n), [], n. rewrite app_nil_r. split; [done|].
      rewrite (proj2 (Z.leb_le n u32_max)) by lia. split; [|done].
      exists n. rewrite Z.mul_1_r, Z.add_0_l. split_and!; [lia| |lia|done|lia|].
      * change (Z.of_nat 5) with 5. lia.
      * symmetry. apply encode_varint_enough; [change (Z.of_nat 5) with 5|]; lia.
Qed.

(** A length-prefixed field. *)
Definition encode_prefixed (field : bytes) : bytes := encode_varint (blen field) ++ field.

Lemma parses_length_prefixed maximum :
  maximum ≤ u32_max →
  parses (Reader.read_length_prefixed maximum)
    (λ pre field, pre = encode_prefixed field ∧ blen field ≤ maximum).
Proof.
  intros Hmax. eapply parses_iff.
  - apply (parses_bind_dep _ _ (λ pre n, 0 ≤ n ≤ u32_max ∧ pre = encode_varint n)
      (λ n pre field, if maximum <? n then False else pre = field ∧ blen field = n)).
    + apply parses_or_malformed, parses_varint32.
    + intros n (? & [Hn _] & _). apply parses_if; [apply parses_fail|].
      by apply parses_or_malformed, parses_read_exact.
  - intros pre field _ _. unfold seq_format, encode_prefixed. split.
    + intros (p1 & p2 & n & -> & (Hn & ->) & H).
      destruct (Z.ltb_spec maximum n); [done|]. destruct H as [-> <-]. split; [done|lia].
    + intros [-> Hl]. pose proof (blen_nonneg field).
      exists (encode_varint (blen field)), field, (blen field).
      rewrite (proj2 (Z.ltb_ge _ _)) by lia. split_and!; done || lia.
Qed.

(** ** Errors are the program's own *)

Definition rejected (f : Fault) : Prop := match f with Rejected _ => True | _ => False end.
Definition quiet {A} (m : Result Fault A) : Prop := match m with Err f => rejected f | Ok _ => True end.
Definition quiet_at {A} (m : Reading Fault A) (r : SliceReader) : Prop := quiet (m r).2.

Lemma quiet_bind {A B} (m : Result Fault A) (k : A → Result Fault B) :
  quiet m → (∀ a, m = Ok a → quiet (k a)) → quiet (m ≫= k).
Proof. destruct m as [a|e]; cbn; auto. Qed.
Lemma quiet_ok_or {A} (o : option A) e : quiet (ok_or o (Rejected e)).
Proof. by destruct o. Qed.
Lemma quiet_at_bind {A B} (m : Reading Fault A) (k : A → Reading Fault B) r :
  quiet_at m r → (∀ a r', m r = (r', Ok a) → quiet_at (k a) r') → quiet_at (m ≫= k) r.
Proof.
  unfold quiet_at, mbind, SE_bind. destruct (m r) as [r' [a|e]]; cbn; [|done].
  intros _ Hk. by apply Hk.
Qed.
Lemma quiet_or_malformed {A} (m : Reading unit A) r : quiet_at (Reader.or_malformed m) r.
Proof. unfold quiet_at, Reader.or_malformed. by destruct (m r) as [r' [a|e]]. Qed.
Lemma quiet_length_prefixed maximum r : quiet_at (Reader.read_length_prefixed maximum) r.
Proof.
  apply quiet_at_bind; [apply quiet_or_malformed|]. intros n r' _.
  destruct (maximum <? n); [done|apply quiet_or_malformed].
Qed.
Lemma quiet_int_le k r : quiet_at (Reader.read_int_le k) r.
Proof. apply quiet_at_bind; [apply quiet_or_malformed|done]. Qed.
Lemma quiet_read_le k l offset : quiet (read_le k l offset).
Proof. unfold read_le. apply quiet_bind; [apply quiet_ok_or|done]. Qed.

Create HintDb quiet.
#[export] Hint Resolve quiet_ok_or quiet_or_malformed quiet_length_prefixed quiet_int_le
  quiet_read_le : quiet.

(** After a parse the reader is well formed and further on. *)
Lemma parses_wf {E A} (m : Reading E A) P r r' a :
  parses m P → reader_wf r → m r = (r', Ok a) →
  reader_wf r' ∧ ∃ pre, rest r = pre ++ rest r' ∧ r' = advance (blen pre) r ∧ P pre a ∧ Forall is_byte pre.
Proof.
  intros Hm Hw Hrun. apply Hm in Hrun as (pre & post & Hr & -> & HP); [|done].
  destruct (rest_advance _ _ _ Hw Hr) as (Hw' & Hrest & Hb). split; [done|].
  exists pre. by rewrite Hrest.
Qed.

Lemma is_empty_rest r : reader_wf r → Reader.is_empty r = true ↔ rest r = [].
Proof.
  intros [_ Hp _]. unfold Reader.is_empty, rest. rewrite Z.eqb_eq. unfold blen in *. split.
  - intros E. apply drop_ge. lia.
  - intros E%(f_equal length). rewrite length_drop in E. cbn in E. lia.
Qed.
Lemma new_wf_reader l : Forall is_byte l → blen l ≤ usize_max → reader_wf (Reader.new l).
Proof. intros. split; cbn; [done| |done]. pose proof (blen_nonneg l). lia. Qed.
