(* ===== verification/LevelDb.v ===== *)
(** * The LevelDB reader  (crates/providers/src/chromium_leveldb.rs)

    The parsers of the two file kinds of an untrusted LevelDB directory (log
    and table), of write batches, prefix-compressed blocks and Snappy streams,
    the budget they share, and the merge of all records into the newest value
    of each key.  How the files are opened and read is left out. *)
From stdpp Require Import gmap countable prelude.
From S2P Require Import Prelude Ordering Text SliceReader.
Local Open Scope Z_scope.

Definition LEVELDB_LOG_BLOCK_BYTES : Z := 32 * 1024.
Definition LEVELDB_LOG_HEADER_BYTES : Z := 7.
Definition LEVELDB_TABLE_FOOTER_BYTES : Z := 48.
Definition LEVELDB_TABLE_MAGIC : Z := 0xdb4775248b80fb57.
Definition LEVELDB_BLOCK_TRAILER_BYTES : Z := 5.
Definition LEVELDB_MAX_SEQUENCE : Z := Z.shiftl 1 56 - 1.
Definition MAX_LOGICAL_RECORD_BYTES : Z := 8 * 1024 * 1024.
Definition MAX_TABLE_BLOCK_BYTES : Z := 8 * 1024 * 1024.
Definition MAX_TABLE_BLOCKS : Z := 4 * 1024.
Definition MAX_LEVELDB_ENTRIES : Z := 65536.
Definition MAX_LEVELDB_FIELD_BYTES : Z := 4 * 1024 * 1024.
Definition MAX_RECONSTRUCTED_ENTRY_BYTES : Z := 64 * 1024 * 1024.

Inductive LevelDbFileKind := Log | Table.
#[global] Instance LevelDbFileKind_eq_dec : EqDecision LevelDbFileKind.
Proof. solve_decision. Defined.

(** [strip_suffix] *)
Definition strip_suffix (suffix s : str) : option str :=
  let n := (length s - length suffix)%nat in
  if bool_decide (length suffix ≤ length s)%nat && bool_decide (drop n s = suffix)
  then Some (take n s) else None.
Definition classify_leveldb_file (name : str) : option LevelDbFileKind :=
  '(stem, kind) ← match strip_suffix (lit ".log") name with
                  | Some stem => Some (stem, Log)
                  | None => stem ← strip_suffix (lit ".ldb") name; Some (stem, Table)
                  end;
  if negb (is_empty stem) && forallb is_ascii_digit stem then Some kind else None.

(** ** Records and the budget *)

Record VersionedValue := mk_version { version_sequence : Z; version_value : option bytes }.
Record ParsedRecord := mk_record { key : bytes; sequence : Z; value : option bytes }.
#[global] Instance VersionedValue_eq_dec : EqDecision VersionedValue.
Proof. solve_decision. Defined.
Record FileImage := mk_image { image_kind : LevelDbFileKind; image_bytes : bytes }.

Record ParseBudget := mk_budget {
  entries : Z;
  table_blocks : Z;
  reconstructed_entry_bytes : Z;
}.
Definition budget_default : ParseBudget := mk_budget 0 0 0.

(** A parser charges the budget; an error ends the whole parse. *)
Definition Parser (A : Type) : Type := SE ParseBudget Fault A.
Definition lift {A} (m : Result Fault A) : Parser A := se_lift m.
Definition fail {A} (e : LevelDbError) : Parser A := se_fail (Rejected e).

(** [checked_add(..).filter(|sum| *sum <= maximum)] *)
Definition add_bounded (total additional maximum : Z) : option Z :=
  sum ← checked_add usize_max total additional;
  if sum <=? maximum then Some sum else None.

Definition reserve_entries (additional : Z) : Parser () := λ b,
  match add_bounded (entries b) additional MAX_LEVELDB_ENTRIES with
  | Some n => (mk_budget n (table_blocks b) (reconstructed_entry_bytes b), Ok ())
  | None => (b, reject TooManyEntries)
  end.

Definition reserve_reconstructed_entry_bytes (key_bytes value_bytes : Z) : Parser () := λ b,
  match checked_add usize_max key_bytes value_bytes with
  | None => (b, reject TooLarge)
  | Some additional =>
      match add_bounded (reconstructed_entry_bytes b) additional MAX_RECONSTRUCTED_ENTRY_BYTES with
      | Some n => (mk_budget (entries b) (table_blocks b) n, Ok ())
      | None => (b, reject TooLarge)
      end
  end.

(** A reader kept outside the budget's state. *)
Definition run {A} (m : Reading Fault A) (r : SliceReader) : Parser (A * SliceReader) := λ b,
  match m r with
  | (r, Ok a) => (b, Ok (a, r))
  | (_, Err e) => (b, Err e)
  end.

(** ** Checksums *)

Definition crc32c_step (crc : Z) : Z :=
  if Z.land crc 1 =? 0 then Z.shiftr crc 1 else Z.lxor (Z.shiftr crc 1) 0x82f63b78.
Definition crc32c_byte (crc byte : Z) : Z := Nat.iter 8 crc32c_step (Z.lxor crc byte).
Definition crc32c_extend (crc : Z) (l : bytes) : Z := foldl crc32c_byte crc l.
Definition not_u32 (n : Z) : Z := Z.lxor n u32_max.
Definition rotate_right_u32 (n k : Z) : Z :=
  Z.lor (Z.shiftr n k) (Z.land (Z.shiftl n (32 - k)) u32_max).
Definition mask_crc32c (crc : Z) : Z := (rotate_right_u32 crc 15 + 0xa282ead8) mod 2 ^ 32.
Definition masked_crc32c_parts (record_type : Z) (payload : bytes) : Z :=
  let crc := crc32c_extend (crc32c_extend (not_u32 0) [record_type]) payload in
  mask_crc32c (not_u32 crc).
Definition masked_crc32c_block (block : bytes) (compression : Z) : Z :=
  let crc := crc32c_extend (crc32c_extend (not_u32 0) block) [compression] in
  mask_crc32c (not_u32 crc).

(** ** Write batches *)

Fixpoint batch_loop (count : nat) (index base_sequence : Z) (reader : SliceReader)
    : Parser (list ParsedRecord * SliceReader) :=
  match count with
  | O => mret ([], reader)
  | S count =>
      sequence ← lift (ok_or (s ← checked_add u64_max base_sequence index;
                              if s <=? LEVELDB_MAX_SEQUENCE then Some s else None)
                             (Rejected Malformed));
      '(tag, reader) ← run (Reader.or_malformed Reader.read_u8) reader;
      '(key, reader) ← run (Reader.read_length_prefixed MAX_LEVELDB_FIELD_BYTES) reader;
      '(value, reader) ←
        (if tag =? 0 then mret (None, reader)
         else if tag =? 1 then
           '(value, reader) ← run (Reader.read_length_prefixed MAX_LEVELDB_FIELD_BYTES) reader;
           mret (Some value, reader)
         else fail Malformed);
      reserve_reconstructed_entry_bytes (blen key) (match value with Some v => blen v | None => 0 end) ;;
      '(records, reader) ← batch_loop count (index + 1) base_sequence reader;
      mret (mk_record key sequence value :: records, reader)
  end.

Definition parse_write_batch (l : bytes) : Parser (list ParsedRecord) :=
  if (blen l <? 12) || (MAX_LOGICAL_RECORD_BYTES <? blen l) then fail Malformed else
  base_sequence ← lift (read_u64_le l 0);
  if LEVELDB_MAX_SEQUENCE <? base_sequence then fail Malformed else
  count ← lift (read_u32_le l 8);
  reserve_entries count ;;
  body ← lift (index_slice l 12 (blen l));
  '(records, reader) ← batch_loop (Z.to_nat count) 0 base_sequence (Reader.new body);
  if negb (Reader.is_empty reader) then fail Malformed else mret records.

(** ** Log files *)

Inductive LogRecordType := Full | First | Middle | Last.
Definition log_record_type_parse (value : Z) : option LogRecordType :=
  if value =? 1 then Some Full else if value =? 2 then Some First
  else if value =? 3 then Some Middle else if value =? 4 then Some Last else None.

Definition append_bounded (destination source : bytes) (maximum : Z) : Result Fault bytes :=
  if (match add_bounded (blen destination) (blen source) maximum with Some _ => true | None => false end)
  then Ok (destination ++ source) else reject TooLarge.

(** The zero padding to the end of a block. *)
Definition check_padding (l : bytes) (offset block_end : Z) : Result Fault () :=
  tail ← index_slice l offset block_end;
  if existsb (λ b, negb (b =? 0)) tail then reject Malformed else Ok ().

(** What the records of one block are collected into. *)
Definition LogState : Type := option bytes * list ParsedRecord.

Definition log_record (record_type : LogRecordType) (payload : bytes) (st : LogState) : Parser LogState :=
  let '(fragmented, records) := st in
  match record_type with
  | Full =>
      match fragmented with
      | Some _ => fail Malformed
      | None => batch ← parse_write_batch payload; mret (None, records ++ batch)
      end
  | First =>
      match fragmented with
      | Some _ => fail Malformed
      | None =>
          if MAX_LOGICAL_RECORD_BYTES <? blen payload then fail TooLarge
          else mret (Some payload, records)
      end
  | Middle =>
      buffer ← lift (ok_or fragmented (Rejected Malformed));
      buffer ← lift (append_bounded buffer payload MAX_LOGICAL_RECORD_BYTES);
      mret (Some buffer, records)
  | Last =>
      buffer ← lift (ok_or fragmented (Rejected Malformed));
      buffer ← lift (append_bounded buffer payload MAX_LOGICAL_RECORD_BYTES);
      batch ← parse_write_batch buffer;
      mret (None, records ++ batch)
  end.

(** The records of one block, from [offset] on. *)
Fixpoint log_block (fuel : nat) (l : bytes) (block_end offset : Z) (st : LogState) : Parser LogState :=
  match fuel with
  | O => se_fail OutOfFuel
  | S fuel =>
      if block_end <=? offset then mret st else
      if block_end - offset <? LEVELDB_LOG_HEADER_BYTES
      then (lift (check_padding l offset block_end) ;; mret st) else
      checksum ← lift (read_u32_le l offset);
      length ← lift (read_u16_le l (offset + 4));
      raw_type ← lift (index_at l (offset + 6));
      let offset := offset + LEVELDB_LOG_HEADER_BYTES in
      if (checksum =? 0) && (length =? 0) && (raw_type =? 0)
      then (lift (check_padding l offset block_end) ;; mret st) else
      payload_end ← lift (ok_or (add_bounded offset length block_end) (Rejected Malformed));
      record_type ← lift (ok_or (log_record_type_parse raw_type) (Rejected Malformed));
      payload ← lift (index_slice l offset payload_end);
      if negb (masked_crc32c_parts raw_type payload =? checksum) then fail Malformed else
      st ← log_record record_type payload st;
      log_block fuel l block_end payload_end st
  end.

(** [(0..bytes.len()).step_by(LEVELDB_LOG_BLOCK_BYTES)] *)
Fixpoint log_blocks (blocks : nat) (l : bytes) (block_start : Z) (st : LogState) : Parser LogState :=
  match blocks with
  | O => mret st
  | S blocks =>
      let block_end := Z.min (block_start + LEVELDB_LOG_BLOCK_BYTES) (blen l) in
      st ← log_block (S (Z.to_nat LEVELDB_LOG_BLOCK_BYTES)) l block_end block_start st;
      log_blocks blocks l (block_start + LEVELDB_LOG_BLOCK_BYTES) st
  end.
Definition block_count (l : bytes) : nat :=
  Z.to_nat ((blen l + LEVELDB_LOG_BLOCK_BYTES - 1) / LEVELDB_LOG_BLOCK_BYTES).

Definition parse_log (l : bytes) : Parser (list ParsedRecord) :=
  '(fragmented, records) ← log_blocks (block_count l) l 0 (None, []);
  match fragmented with Some _ => fail Malformed | None => mret records end.

(** ** Snappy *)

Definition snappy_literal_length (tag : Z) : Reading Fault Z :=
  let encoded := Z.shiftr tag 2 in
  if encoded <? 60 then mret (encoded + 1) else
  let extra_bytes := encoded - 59 in
  raw ← Reader.or_malformed (Reader.read_exact extra_bytes);
  let length_minus_one := from_le_bytes raw in
  match add_bounded length_minus_one 1 MAX_TABLE_BLOCK_BYTES with
  | Some n => mret n
  | None => se_fail (Rejected TooLarge)
  end.

(** The loop of [snappy_copy]: byte [start + index % offset] is appended. *)
Fixpoint copy_loop (count : nat) (index start offset : Z) (output : bytes) : Result Fault bytes :=
  match count with
  | O => Ok output
  | S count =>
      byte ← index_at output (start + index mod offset);
      copy_loop count (index + 1) start offset (output ++ [byte])
  end.
Definition snappy_copy (output : bytes) (offset length expected_length : Z) : Result Fault bytes :=
  if (offset =? 0) || (blen output <? offset)
     || match add_bounded (blen output) length expected_length with Some _ => false | None => true end
  then reject Malformed
  else copy_loop (Z.to_nat length) 0 (blen output - offset) offset output.

Definition rlift {A} (m : Result Fault A) : Reading Fault A := se_lift m.

(** One element of the stream. *)
Definition snappy_element (expected_length tag : Z) (output : bytes) : Reading Fault bytes :=
  let kind := Z.land tag 3 in
  if kind =? 0 then
    literal_length ← snappy_literal_length tag;
    literal ← Reader.or_malformed (Reader.read_exact literal_length);
    rlift (append_bounded output literal expected_length)
  else if kind =? 1 then
    let length := Z.land (Z.shiftr tag 2) 7 + 4 in
    low ← Reader.or_malformed Reader.read_u8;
    let offset := Z.lor (Z.shiftl (Z.shiftr tag 5) 8) low in
    rlift (snappy_copy output offset length expected_length)
  else if kind =? 2 then
    let length := Z.shiftr tag 2 + 1 in
    offset ← Reader.read_u16_le;
    rlift (snappy_copy output offset length expected_length)
  else
    let length := Z.shiftr tag 2 + 1 in
    offset ← Reader.read_u32_le;
    rlift (snappy_copy output offset length expected_length).

Fixpoint snappy_loop (fuel : nat) (expected_length : Z) (output : bytes) : Reading Fault bytes :=
  match fuel with
  | O => se_fail OutOfFuel
  | S fuel => λ r,
      if Reader.is_empty r then (r, Ok output) else
      (tag ← Reader.or_malformed Reader.read_u8;
       output ← snappy_element expected_length tag output;
       snappy_loop fuel expected_length output) r
  end.

Definition snappy_stream (fuel : nat) : Reading Fault bytes :=
  expected_length ← Reader.or_malformed Reader.read_varint32;
  if MAX_TABLE_BLOCK_BYTES <? expected_length then se_fail (Rejected TooLarge) else
  output ← snappy_loop fuel expected_length [];
  if negb (blen output =? expected_length) then se_fail (Rejected Malformed) else mret output.

(** Each element takes at least one byte. *)
Definition snappy_decompress (l : bytes) : Result Fault bytes :=
  (snappy_stream (S (length l)) (Reader.new l)).2.

(** ** Prefix-compressed blocks *)

Record BlockEntry := mk_entry { entry_key : bytes; entry_value : bytes }.
Record BlockHandle := mk_handle { handle_offset : Z; handle_size : Z }.
#[global] Instance BlockHandle_eq_dec : EqDecision BlockHandle.
Proof. solve_decision. Defined.
#[global] Instance BlockHandle_countable : Countable BlockHandle.
Proof.
  refine (inj_countable' (λ h, (handle_offset h, handle_size h)) (λ p, mk_handle p.1 p.2) _).
  by intros [].
Defined.

Definition read_block_handle : Reading Fault BlockHandle :=
  offset ← Reader.or_malformed Reader.read_varint64;
  size ← Reader.or_malformed Reader.read_varint64;
  mret (mk_handle offset size).

Definition decode_block_handle (l : bytes) : Result Fault BlockHandle :=
  match read_block_handle (Reader.new l) with
  | (r, Ok handle) => if Reader.is_empty r then Ok handle else reject Malformed
  | (_, Err e) => Err e
  end.

(** The loop of [parse_restart_offsets] from [index] on. *)
Fixpoint restart_loop (count : nat) (index : Z) (l : bytes) (entries_end : Z) (restarts : list Z)
    : Result Fault (list Z) :=
  match count with
  | O => Ok restarts
  | S count =>
      offset ← read_u32_le l (entries_end + index * 4);
      if (entries_end <? offset) || ((index =? 0) && negb (offset =? 0)) then reject Malformed else
      if negb (index =? 0)
         && match last restarts with Some previous => offset <=? previous | None => false end
      then reject Malformed else
      restart_loop count (index + 1) l entries_end (restarts ++ [offset])
  end.
Definition parse_restart_offsets (l : bytes) (entries_end restart_count : Z) : Result Fault (list Z) :=
  restart_loop (Z.to_nat restart_count) 0 l entries_end [].

(** The header of an entry: shared, non-shared and value lengths. *)
Definition read_entry_header : Reading Fault (Z * Z * Z) :=
  shared ← Reader.or_malformed Reader.read_varint32;
  non_shared ← Reader.or_malformed Reader.read_varint32;
  value_length ← Reader.or_malformed Reader.read_varint32;
  mret (shared, non_shared, value_length).

(** The entries from [offset] on; [starts] maps their offsets to the length they
    share with the key before. *)
Fixpoint entry_loop (fuel : nat) (l : bytes) (entries_end maximum_entries offset : Z)
    (last_key : bytes) (starts : gmap Z Z) (found : list BlockEntry)
    : Parser (gmap Z Z * list BlockEntry) :=
  match fuel with
  | O => se_fail OutOfFuel
  | S fuel =>
      if entries_end <=? offset then
        (if negb (offset =? entries_end) then fail Malformed else mret (starts, found)) else
      if maximum_entries <=? blen found then fail TooManyEntries else
      slice ← lift (index_slice l offset entries_end);
      '(shared, non_shared, value_length, reader) ← run read_entry_header (Reader.new slice);
      key_length ← lift (ok_or (checked_add usize_max shared non_shared) (Rejected TooLarge));
      if (blen last_key <? shared) || (MAX_LEVELDB_FIELD_BYTES <? key_length)
         || (MAX_LEVELDB_FIELD_BYTES <? value_length)
      then fail TooLarge else
      '(suffix, reader) ← run (Reader.or_malformed (Reader.read_exact non_shared)) reader;
      '(value, reader) ← run (Reader.or_malformed (Reader.read_exact value_length)) reader;
      let consumed := position reader in
      next ← lift (ok_or (add_bounded offset consumed entries_end) (Rejected Malformed));
      reserve_reconstructed_entry_bytes key_length value_length ;;
      shared_part ← lift (index_slice last_key 0 shared);
      let key := shared_part ++ suffix in
      entry_loop fuel l entries_end maximum_entries next key (<[offset := shared]> starts)
        (found ++ [mk_entry key value])
  end.

Definition parse_prefix_block (l : bytes) (maximum_entries : Z) : Parser (list BlockEntry) :=
  if (blen l <? 8) || (MAX_TABLE_BLOCK_BYTES <? blen l) then fail Malformed else
  restart_count ← lift (read_u32_le l (blen l - 4));
  if (restart_count =? 0) || (saturating_add usize_max maximum_entries 1 <? restart_count)
  then fail Malformed else
  restart_bytes ← lift (ok_or (n ← checked_mul usize_max restart_count 4;
                               n ← checked_add usize_max n 4;
                               if n <=? blen l then Some n else None) (Rejected Malformed));
  let entries_end := blen l - restart_bytes in
  restarts ← lift (parse_restart_offsets l entries_end restart_count);
  '(starts, found) ← entry_loop (S (Z.to_nat entries_end)) l entries_end maximum_entries 0 [] ∅ [];
  if entries_end =? 0
  then (if bool_decide (restarts = [0]) then mret found else fail Malformed)
  else if forallb (λ restart, bool_decide (starts !! restart = Some 0)) restarts
  then mret found else fail Malformed.

Definition decode_internal_entry (entry : BlockEntry) : Result Fault ParsedRecord :=
  let key := entry_key entry in
  if blen key <? 8 then reject Malformed else
  let tag_offset := blen key - 8 in
  tag ← read_u64_le key tag_offset;
  let sequence := Z.shiftr tag 8 in
  if LEVELDB_MAX_SEQUENCE <? sequence then reject Malformed else
  let value_type := Z.land tag 0xff in
  user_key ← index_slice key 0 tag_offset;
  if value_type =? 1 then Ok (mk_record user_key sequence (Some (entry_value entry)))
  else if (value_type =? 0) && is_empty (entry_value entry)
  then Ok (mk_record user_key sequence None) else reject Malformed.

(** ** Tables *)

(** Where the block and its trailer end. *)
Definition handle_end (handle : BlockHandle) : option Z :=
  n ← checked_add usize_max (handle_offset handle) (handle_size handle);
  checked_add usize_max n LEVELDB_BLOCK_TRAILER_BYTES.

Definition validate_block_handle (handle : BlockHandle) (footer_start : Z) : Result Fault () :=
  if MAX_TABLE_BLOCK_BYTES <? handle_size handle then reject TooLarge else
  match handle_end handle with
  | Some n => if n <=? footer_start then Ok () else reject Malformed
  | None => reject Malformed
  end.

Definition count_table_block : Parser () := λ b,
  match add_bounded (table_blocks b) 1 MAX_TABLE_BLOCKS with
  | Some n => (mk_budget (entries b) n (reconstructed_entry_bytes b), Ok ())
  | None => (b, reject TooManyEntries)
  end.

Definition read_table_block (table : bytes) (handle : BlockHandle) (footer_start : Z) : Parser bytes :=
  count_table_block ;;
  lift (validate_block_handle handle footer_start) ;;
  block_end ← lift (ok_or (checked_add usize_max (handle_offset handle) (handle_size handle))
                          (Rejected Malformed));
  compression ← lift (ok_or (get_at table block_end) (Rejected Malformed));
  checksum ← lift (read_u32_le table (block_end + 1));
  raw ← lift (ok_or (get_slice table (handle_offset handle) block_end) (Rejected Malformed));
  if negb (masked_crc32c_block raw compression =? checksum) then fail Malformed else
  if compression =? 0 then mret raw
  else if compression =? 1 then lift (snappy_decompress raw)
  else fail Malformed.

(** The data blocks the index names, in its order. *)
Fixpoint data_blocks (index_entries : list BlockEntry) (l : bytes) (footer_start : Z)
    (handles : gset BlockHandle) (parsed : list ParsedRecord)
    : Parser (gset BlockHandle * list ParsedRecord) :=
  match index_entries with
  | [] => mret (handles, parsed)
  | index_entry :: index_entries =>
      handle ← lift (decode_block_handle (entry_value index_entry));
      lift (validate_block_handle handle footer_start) ;;
      if bool_decide (handle ∈ handles) then fail Malformed else
      block ← read_table_block l handle footer_start;
      found ← parse_prefix_block block MAX_LEVELDB_ENTRIES;
      reserve_entries (blen found) ;;
      records ← lift (traverse_list decode_internal_entry found);
      data_blocks index_entries l footer_start ({[handle]} ∪ handles) (parsed ++ records)
  end.

(** [ranges.windows(2).any(|pair| pair[0].1 > pair[1].0)] *)
Fixpoint windows_overlap (ranges : list (Z * Z)) : bool :=
  match ranges with
  | a :: (b :: _) as rest => (b.1 <? a.2) || windows_overlap rest
  | _ => false
  end.

Definition footer_handles : Reading Fault (BlockHandle * BlockHandle) :=
  metaindex ← read_block_handle;
  index ← read_block_handle;
  mret (metaindex, index).

Definition parse_table (l : bytes) : Parser (list ParsedRecord) :=
  if blen l <? LEVELDB_TABLE_FOOTER_BYTES then fail Malformed else
  let footer_start := blen l - LEVELDB_TABLE_FOOTER_BYTES in
  magic ← lift (read_u64_le l (blen l - 8));
  if negb (magic =? LEVELDB_TABLE_MAGIC) then fail Malformed else
  footer ← lift (index_slice l footer_start (blen l - 8));
  '(metaindex, index, footer) ← run footer_handles (Reader.new footer);
  padding ← lift (Reader.remaining footer);
  if existsb (λ b, negb (b =? 0)) padding then fail Malformed else
  lift (validate_block_handle metaindex footer_start) ;;
  lift (validate_block_handle index footer_start) ;;
  if bool_decide (index = metaindex) then fail Malformed else
  metaindex_bytes ← read_table_block l metaindex footer_start;
  parse_prefix_block metaindex_bytes MAX_TABLE_BLOCKS ;;
  index_bytes ← read_table_block l index footer_start;
  index_entries ← parse_prefix_block index_bytes MAX_TABLE_BLOCKS;
  if MAX_TABLE_BLOCKS <? blen index_entries then fail TooManyEntries else
  '(handles, parsed) ← data_blocks index_entries l footer_start {[index; metaindex]} [];
  ranges ← lift (traverse_list
    (λ handle, stop ← ok_or (handle_end handle) (Rejected Malformed); Ok (handle_offset handle, stop))
    (elements handles));
  if windows_overlap (sort_by_key id ranges) then fail Malformed else mret parsed.

(** ** All files *)

Notation Records := (gmap bytes VersionedValue).

Definition merge_record (records : Records) (record : ParsedRecord) : Result Fault Records :=
  let decision := match records !! key record with
                  | Some existing => sequence record ?= version_sequence existing
                  | None => Gt
                  end in
  match decision with
  | Gt => Ok (<[key record := mk_version (sequence record) (value record)]> records)
  | Lt => Ok records
  | Eq =>
      existing ← ok_or (records !! key record) (Rejected Malformed);
      if bool_decide (version_value existing = value record) then Ok records else reject Malformed
  end.
Fixpoint merge_records (parsed : list ParsedRecord) (records : Records) : Result Fault Records :=
  match parsed with
  | [] => Ok records
  | record :: parsed => records ← merge_record records record; merge_records parsed records
  end.

Definition parse_image (image : FileImage) : Parser (list ParsedRecord) :=
  match image_kind image with
  | Log => parse_log (image_bytes image)
  | Table => parse_table (image_bytes image)
  end.
Fixpoint parse_images_loop (images : list FileImage) (records : Records) : Parser Records :=
  match images with
  | [] => mret records
  | image :: images =>
      parsed ← parse_image image;
      records ← lift (merge_records parsed records);
      parse_images_loop images records
  end.
Definition parse_images (images : list FileImage) : Result Fault Records :=
  (parse_images_loop images ∅ budget_default).2.
