(* ===== verification/Snappy.v ===== *)
(** * What Snappy streams mean

    The decompressor of LevelDb.v against the Snappy format: a stream is the
    length of the output and a sequence of literals and back references, a back
    reference repeating bytes one by one from [offset] bytes behind the end. *)
From stdpp Require Import prelude.
From S2P Require Import Prelude Ordering Text SliceReader LevelDb.
Local Open Scope Z_scope.

(** ** The format *)

(** How the length of a literal is written: in the tag, or in 1 to 4 bytes. *)
Inductive LengthBytes := InTag | L1 | L2 | L3 | L4.
Definition length_bytes (k : LengthBytes) : nat :=
  match k with InTag => 0 | L1 => 1 | L2 => 2 | L3 => 3 | L4 => 4 end.
Inductive OffsetBytes := O1 | O2 | O4.

Inductive Element :=
| Literal (k : LengthBytes) (l : bytes)
| Copy (k : OffsetBytes) (offset length : Z).

Definition encode_element (e : Element) : bytes :=
  match e with
  | Literal InTag l => ((blen l - 1) * 4) :: l
  | Literal k l => ((59 + Z.of_nat (length_bytes k)) * 4) :: to_le_bytes (length_bytes k) (blen l - 1) ++ l
  | Copy O1 offset length => [1 + (length - 4) * 4 + offset / 256 * 32; offset mod 256]
  | Copy O2 offset length => (2 + (length - 1) * 4) :: to_le_bytes 2 offset
  | Copy O4 offset length => (3 + (length - 1) * 4) :: to_le_bytes 4 offset
  end.

Definition element_valid (e : Element) : Prop :=
  match e with
  | Literal InTag l => 1 ≤ blen l ≤ 60
  | Literal k l => 1 ≤ blen l ≤ 256 ^ Z.of_nat (length_bytes k) ∧ blen l ≤ MAX_TABLE_BLOCK_BYTES
  | Copy O1 offset length => 4 ≤ length ≤ 11 ∧ 1 ≤ offset < 2048
  | Copy O2 offset length => 1 ≤ length ≤ 64 ∧ 1 ≤ offset < 2 ^ 16
  | Copy O4 offset length => 1 ≤ length ≤ 64 ∧ 1 ≤ offset < 2 ^ 32
  end.

(** Repeating, byte by byte, what is [offset] behind the end. *)
Fixpoint repeat_back (count offset : nat) (output : bytes) : option bytes :=
  match count with
  | O => Some output
  | S count =>
      byte ← (if decide (offset ≤ length output)%nat then output !! (length output - offset)%nat else None);
      repeat_back count offset (output ++ [byte])
  end.

Definition expand_element (e : Element) (output : bytes) : option bytes :=
  match e with
  | Literal _ l => Some (output ++ l)
  | Copy _ offset length => repeat_back (Z.to_nat length) (Z.to_nat offset) output
  end.
Fixpoint expand (es : list Element) (output : bytes) : option bytes :=
  match es with
  | [] => Some output
  | e :: es => output ← expand_element e output; expand es output
  end.

(** ** Copies *)

Lemma add_bounded_Some total additional maximum n :
  maximum ≤ usize_max →
  add_bounded total additional maximum = Some n ↔ n = total + additional ∧ n ≤ maximum.
Proof.
  intros Hm. unfold add_bounded. rewrite bind_Some. setoid_rewrite checked_add_Some. split.
  - intros (s & [-> _] & H). destruct (Z.leb_spec (total + additional) maximum); naive_solver.
  - intros [-> Hle]. exists (total + additional). split; [split; [done|lia]|].
    by rewrite (proj2 (Z.leb_le _ _)).
Qed.
Lemma add_bounded_None total additional maximum :
  maximum ≤ usize_max → add_bounded total additional maximum = None ↔ maximum < total + additional.
Proof.
  intros Hm. destruct (add_bounded total additional maximum) as [n|] eqn:E.
  - apply add_bounded_Some in E as [-> ?]; [|done]. split; [done|lia].
  - split; [|done]. intros _. destruct (Z.ltb_spec maximum (total + additional)); [done|].
    assert (add_bounded total additional maximum = Some (total + additional)) as E'
      by by apply add_bounded_Some. congruence.
Qed.

(** The copy loop reads the repeating pattern from its start; byte by byte is
    the same. *)
Lemma copy_loop_repeat count index offset (base output : bytes) :
  (0 < offset ≤ length base)%nat → length output = (length base + index)%nat →
  (∀ i, (i < index)%nat →
     output !! (length base + i)%nat = output !! (length base - offset + i mod offset)%nat) →
  copy_loop count (Z.of_nat index) (blen base - Z.of_nat offset) (Z.of_nat offset) output =
  match repeat_back count offset output with Some out => Ok out | None => Err Panicked end.
Proof.
  intros Ho. revert index output. induction count as [|count IH]; intros index output Hl Hrep; [done|].
  cbn [copy_loop repeat_back]. rewrite decide_True by lia.
  assert (index_at output (blen base - Z.of_nat offset + Z.of_nat index mod Z.of_nat offset)
    = ok_or (output !! (length base - offset + index mod offset)%nat) Panicked) as ->.
  { unfold index_at, get_at, blen. pose proof (Z.mod_pos_bound (Z.of_nat index) (Z.of_nat offset)).
    rewrite (proj2 (Z.leb_le _ _)) by lia. f_equal. f_equal.
    rewrite <-Nat2Z.inj_mod. lia. }
  assert (output !! (length base - offset + index mod offset)%nat
    = output !! (length output - offset)%nat) as ->.
  { rewrite Hl. destruct (decide (index < offset)%nat).
    - rewrite Nat.mod_small by lia. f_equal. lia.
    - replace (length base + index - offset)%nat with (length base + (index - offset))%nat by lia.
      rewrite Hrep by lia. f_equal. f_equal.
      replace index with (index - offset + 1 * offset)%nat at 1 by lia. by rewrite Nat.Div0.mod_add. }
  destruct (output !! (length output - offset)%nat) as [byte|] eqn:Hb; cbn [ok_or]; [|done].
  cbn. rewrite <-(IH (S index) (output ++ [byte])).
  - by rewrite Nat2Z.inj_succ.
  - rewrite length_app. cbn. lia.
  - intros i Hi. assert (i mod offset < offset)%nat by (apply Nat.mod_upper_bound; lia).
    rewrite (lookup_app_l output _ (length base - offset + i mod offset)) by lia.
    destruct (decide (i = index)) as [->|].
    + rewrite lookup_app_r by lia. replace (length base + index - length output)%nat with 0%nat by lia.
      cbn. rewrite <-Hb. rewrite Hl. destruct (decide (index < offset)%nat).
      * rewrite Nat.mod_small by lia. f_equal. lia.
      * replace (length base + index - offset)%nat with (length base + (index - offset))%nat by lia.
        rewrite Hrep by lia. f_equal. f_equal.
        replace index with (index - offset + 1 * offset)%nat at 2 by lia. by rewrite Nat.Div0.mod_add.
    + rewrite lookup_app_l by lia. apply Hrep. lia.
Qed.

Lemma repeat_back_total count offset output :
  (0 < offset ≤ length output)%nat →
  ∃ tail, repeat_back count offset output = Some (output ++ tail) ∧ length tail = count.
Proof.
  revert output. induction count as [|count IH]; intros output Ho; cbn [repeat_back].
  { exists []. by rewrite app_nil_r. }
  rewrite decide_True by lia. destruct (lookup_lt_is_Some_2 output (length output - offset)) as [b Hb]; [lia|].
  rewrite Hb. cbn. destruct (IH (output ++ [b])) as (tail & -> & Hl); [rewrite length_app; cbn; lia|].
  exists (b :: tail). rewrite <-app_assoc. split; [done|]. cbn. by rewrite Hl.
Qed.

Lemma snappy_copy_spec output offset len expected out :
  0 ≤ offset → 1 ≤ len → expected ≤ usize_max →
  snappy_copy output offset len expected = Ok out ↔
  1 ≤ offset ∧ repeat_back (Z.to_nat len) (Z.to_nat offset) output = Some out ∧ blen out ≤ expected.
Proof.
  intros Ho Hl He. unfold snappy_copy. destruct (Z.eqb_spec offset 0) as [->|]; cbn [orb].
  { split; [done|]. lia. }
  destruct (Z.ltb_spec (blen output) offset) as [Hlt|Hge]; cbn [orb].
  { split; [done|]. intros (_ & Hr & _). unfold blen in Hlt.
    destruct (Z.to_nat len) as [|m] eqn:En; [lia|]. cbn in Hr. by rewrite decide_False in Hr by lia. }
  destruct (repeat_back_total (Z.to_nat len) (Z.to_nat offset) output) as (tail & Hr & Ht);
    [unfold blen in Hge; lia|].
  assert (blen (output ++ tail) = blen output + len) as Hlen.
  { rewrite blen_app. unfold blen. lia. }
  destruct (add_bounded _ _ _) as [sum|] eqn:Hn.
  - apply add_bounded_Some in Hn as [-> Hn]; [|done].
    pose proof (copy_loop_repeat (Z.to_nat len) 0 (Z.to_nat offset) output output) as Hc.
    rewrite Z2Nat.id in Hc by lia. change (Z.of_nat 0) with 0 in Hc. rewrite Hc, Hr.
    + split; [intros [= <-]; split_and!; [lia|done|lia]|]. by intros (_ & [= <-] & _).
    + unfold blen in Hge. lia.
    + lia.
    + lia.
  - apply add_bounded_None in Hn; [|done]. split; [done|]. intros (_ & Hr' & Hb).
    rewrite Hr in Hr'. injection Hr' as <-. lia.
Qed.

(** ** Tags *)

(** The parts of a tag byte. *)
Lemma tag_split tag :
  is_byte tag →
  Z.land tag 3 = tag mod 4 ∧ Z.shiftr tag 2 = tag / 4 ∧ Z.land (Z.shiftr tag 2) 7 = tag / 4 mod 8 ∧
  Z.shiftr tag 5 = tag / 32.
Proof.
  intros _. rewrite !Z.shiftr_div_pow2 by lia. change 3 with (Z.ones 2). change 7 with (Z.ones 3).
  by rewrite !Z.land_ones by lia.
Qed.

Lemma offset_high_low high low :
  0 ≤ high → is_byte low → Z.lor (Z.shiftl high 8) low = low + high * 256.
Proof.
  intros Hh Hl. rewrite Z.lor_comm. change 256 with (2 ^ 8). by apply lor_shiftl.
Qed.

(** What one element adds, as a format of the bytes behind its tag. *)
Definition element_format (expected tag : Z) (output : bytes) : format bytes := λ pre out,
  ∃ e, tag :: pre = encode_element e ∧ element_valid e ∧ expand_element e output = Some out ∧
    blen out ≤ expected.

Lemma append_bounded_Ok destination source maximum out :
  maximum ≤ usize_max →
  append_bounded destination source maximum = Ok out ↔
  out = destination ++ source ∧ blen out ≤ maximum.
Proof.
  intros Hm. unfold append_bounded. destruct (add_bounded _ _ _) as [sum|] eqn:E.
  - apply add_bounded_Some in E as [-> E]; [|done]. rewrite <-blen_app in E. naive_solver.
  - apply add_bounded_None in E; [|done]. rewrite <-blen_app in E. split; [done|].
    intros [-> ?]. lia.
Qed.

Lemma parses_rlift {A} (m : Result Fault A) : parses (rlift m) (λ pre a, pre = [] ∧ m = Ok a).
Proof.
  destruct m as [a|e].
  - eapply parses_iff; [apply parses_ret|]. intros pre b _ _. naive_solver.
  - eapply parses_iff; [apply parses_fail|]. naive_solver.
Qed.

(** A literal's length and the bytes that hold it. *)
Definition length_format (tag : Z) : format Z := λ pre n,
  (pre = [] ∧ tag = (n - 1) * 4 ∧ 1 ≤ n ≤ 60) ∨
  (∃ k : nat, (1 ≤ k ≤ 4)%nat ∧ tag = (59 + Z.of_nat k) * 4 ∧ pre = to_le_bytes k (n - 1) ∧
     1 ≤ n ≤ 256 ^ Z.of_nat k ∧ n ≤ MAX_TABLE_BLOCK_BYTES).

Lemma parses_literal_length tag :
  is_byte tag → tag mod 4 = 0 → parses (snappy_literal_length tag) (length_format tag).
Proof.
  intros Ht Hm. unfold snappy_literal_length. destruct (tag_split tag Ht) as (_ & -> & _ & _).
  pose proof (Z.div_mod tag 4 ltac:(lia)) as Hdm. rewrite Hm in Hdm. unfold is_byte in Ht.
  destruct (Z.ltb_spec (tag / 4) 60).
  - eapply parses_iff; [apply parses_ret|]. intros pre n _ _. unfold length_format. split.
    + intros [-> ->]. left. split; [done|]. lia.
    + intros [(-> & ? & ?)|(k & ? & ? & _)]; [split; [done|lia]|lia].
  - eapply parses_iff.
    { apply (parses_bind _ _ (λ pre l, pre = l ∧ blen l = tag / 4 - 59)
        (λ l pre n, pre = [] ∧ n = from_le_bytes l + 1 ∧ n ≤ MAX_TABLE_BLOCK_BYTES)).
      - apply parses_or_malformed, parses_read_exact. lia.
      - intros l. destruct (add_bounded _ 1 _) as [sum|] eqn:E.
        + apply add_bounded_Some in E as [-> ?]; [|done]. eapply parses_iff; [apply parses_ret|].
          naive_solver.
        + apply add_bounded_None in E; [|done]. eapply parses_iff; [apply parses_fail|].
          intros pre a _ _. split; [done|]. lia. }
    intros pre n Hb _. unfold seq_format, length_format. split.
    + intros (p1 & p2 & l & -> & (-> & Hl) & -> & -> & Hn). rewrite app_nil_r in *. right.
      exists (length l). pose proof (from_le_bytes_bound l Hb). unfold blen in *.
      rewrite Z.add_simpl_r, to_from_le_bytes by done. split_and!; try done; lia.
    + intros [(_ & ? & ?)|(k & ? & ? & -> & Hn & Hmax)]; [lia|].
      exists (to_le_bytes k (n - 1)), [], (to_le_bytes k (n - 1)). rewrite app_nil_r.
      unfold blen. rewrite to_le_bytes_length, from_to_le_bytes by lia.
      split_and!; try done; lia.
Qed.

(** The four kinds of tag. *)
Definition element_kind (e : Element) : Z :=
  match e with Literal _ _ => 0 | Copy O1 _ _ => 1 | Copy O2 _ _ => 2 | Copy O4 _ _ => 3 end.
Lemma encode_element_tag e tag pre :
  tag :: pre = encode_element e → element_valid e → tag mod 4 = element_kind e.
Proof.
  intros E Hv. destruct e as [[]|[]]; cbn in *; injection E as -> _;
    (rewrite Z.mod_mul by lia; done) || idtac.
  - pose proof (Z.div_mod offset 256 ltac:(lia)).
    replace (1 + (length - 4) * 4 + offset / 256 * 32) with (1 + (length - 4 + offset / 256 * 8) * 4) by lia.
    by rewrite Z.mod_add by lia.
  - by rewrite Z.mod_add by lia.
  - by rewrite Z.mod_add by lia.
Qed.

Lemma literal_format expected tag output pre out :
  Forall is_byte pre → tag mod 4 = 0 → expected ≤ MAX_TABLE_BLOCK_BYTES →
  seq_format (length_format tag) (λ n, seq_format (λ p l, p = l ∧ blen l = n)
    (λ l p o, p = [] ∧ append_bounded output l expected = Ok o)) pre out ↔
  element_format expected tag output pre out.
Proof.
  intros Hb Hk Hexp. assert (MAX_TABLE_BLOCK_BYTES ≤ usize_max) by done.
  unfold seq_format, element_format. split.
  - intros (p1 & p2' & n & -> & Hl & l & p3 & l' & -> & (-> & Hn) & -> & Ho).
    apply append_bounded_Ok in Ho as [-> Ho]; [|lia]. rewrite app_nil_r.
    destruct Hl as [(-> & Ht & Hr)|(k & Hkr & Ht & -> & Hr & Hmax)].
    + exists (Literal InTag l'). cbn. rewrite Hn. split_and!; [by rewrite Ht|lia|lia|done|done].
    + assert (∃ K, length_bytes K = k ∧ K ≠ InTag) as (K & <- & HK).
      { destruct k as [|[|[|[|[|k]]]]]; try lia;
          [exists L1|exists L2|exists L3|exists L4]; done. }
      exists (Literal K l'). destruct K; [done|..]; cbn [encode_element element_valid expand_element];
        rewrite Hn, Ht; split_and!; done || lia.
  - intros (e & E & Hv & Hx & Ho). pose proof (encode_element_tag _ _ _ E Hv) as Hkind.
    rewrite Hk in Hkind. destruct e as [k l|[]]; [|done..]. cbn in Hx. injection Hx as <-.
    assert (∀ n p1, blen l = n → pre = p1 ++ l → length_format tag p1 n →
      ∃ p1 p2 a, pre = p1 ++ p2 ∧ length_format tag p1 a ∧
        ∃ p0 p3 a0, p2 = p0 ++ p3 ∧ (p0 = a0 ∧ blen a0 = a) ∧
          p3 = [] ∧ append_bounded output a0 expected = Ok (output ++ l)) as Hgo.
    { intros n p1 Hn Hp Hlf. exists p1, l, n. split; [done|]. split; [done|].
      exists l, [], l. rewrite app_nil_r. split; [done|]. split; [done|]. split; [done|].
      apply append_bounded_Ok; [lia|done]. }
    destruct k; cbn [encode_element element_valid length_bytes] in *; injection E as -> ->.
    { apply (Hgo (blen l) []); [done..|]. left. split_and!; done || lia. }
    1: apply (Hgo (blen l) (to_le_bytes 1 (blen l - 1))); [done..|]; right; exists 1%nat.
    2: apply (Hgo (blen l) (to_le_bytes 2 (blen l - 1))); [done..|]; right; exists 2%nat.
    3: apply (Hgo (blen l) (to_le_bytes 3 (blen l - 1))); [done..|]; right; exists 3%nat.
    4: apply (Hgo (blen l) (to_le_bytes 4 (blen l - 1))); [done..|]; right; exists 4%nat.
    all: split_and!; done || lia.
Qed.

Lemma copy_format expected (output : bytes) (k : OffsetBytes) len offset out :
  1 ≤ len → 0 ≤ offset → expected ≤ usize_max →
  element_valid (Copy k offset len) ∨ offset = 0 →
  snappy_copy output offset len expected = Ok out ↔
  element_valid (Copy k offset len) ∧ expand_element (Copy k offset len) output = Some out ∧
  blen out ≤ expected.
Proof.
  intros Hl Ho He Hv. rewrite snappy_copy_spec by done. cbn [expand_element]. split.
  - intros (? & ? & ?). destruct Hv; [done|lia].
  - intros (Hk & ? & ?). split_and!; try done. destruct k; cbn in Hk; lia.
Qed.

(** A number is its quotient and remainder. *)
Lemma div_mod_unique q r d n : 0 ≤ r < d → n = r + q * d → n / d = q ∧ n mod d = r.
Proof.
  intros Hr ->. rewrite Z.div_add, Z.mod_add, Z.div_small, Z.mod_small by lia. lia.
Qed.

Lemma copy1_format expected tag output pre out :
  is_byte tag → tag mod 4 = 1 → expected ≤ usize_max → Forall is_byte pre →
  seq_format (λ p low, p = [low] ∧ is_byte low)
    (λ low p o, p = [] ∧ snappy_copy output (low + tag / 32 * 256) (tag / 4 mod 8 + 4) expected = Ok o)
    pre out ↔ element_format expected tag output pre out.
Proof.
  intros Ht Hk He Hpre. unfold is_byte in Ht.
  pose proof (Z.div_mod tag 4 ltac:(lia)) as H1. pose proof (Z.div_mod (tag / 4) 8 ltac:(lia)) as H2.
  rewrite Z.div_div in H2 by lia. change (4 * 8) with 32 in H2.
  pose proof (Z.mod_pos_bound (tag / 4) 8 ltac:(lia)).
  assert (0 ≤ tag / 32 < 8) by (split; [apply Z.div_pos|apply Z.div_lt_upper_bound]; lia).
  unfold seq_format, element_format. split.
  - intros (p1 & p2 & low & -> & (-> & Hlow) & -> & Hc). unfold is_byte in Hlow.
    destruct (div_mod_unique (tag / 32) low 256 (low + tag / 32 * 256)) as [Hq Hr]; [done|done|].
    apply (copy_format _ _ O1) in Hc as (Hv & Hx & Ho); [|lia|lia|done|cbn; lia].
    eexists. split; [|by split_and!]. cbn [encode_element app]. rewrite Hq, Hr. f_equal. lia.
  - intros (e & E & Hv & Hx & Ho). pose proof (encode_element_tag _ _ _ E Hv) as Hkind.
    rewrite Hk in Hkind. destruct e as [k l|[] offset len]; try done. cbn in E. injection E as E ->.
    pose proof Hv as (Hlen & Hoff).
    pose proof (Z.div_mod offset 256 ltac:(lia)). pose proof (Z.mod_pos_bound offset 256 ltac:(lia)).
    assert (0 ≤ offset / 256 < 8) by (split; [apply Z.div_pos|apply Z.div_lt_upper_bound]; lia).
    destruct (div_mod_unique (offset / 256) (len - 4) 8 (tag / 4)) as [Hq Hr]; [lia| |].
    { destruct (div_mod_unique (len - 4 + offset / 256 * 8) 1 4 tag) as [<- _]; lia. }
    rewrite Z.div_div in Hq by lia. change (4 * 8) with 32 in Hq.
    exists [offset mod 256], [], (offset mod 256). split; [done|]. split; [done|]. split; [done|].
    rewrite Hq, Hr. replace (offset mod 256 + offset / 256 * 256) with offset by lia.
    replace (len - 4 + 4) with len by lia.
    apply (copy_format _ _ O1); [lia|lia|done|by left|done].
Qed.

(** Copies with a two or four byte offset. *)
Lemma copy_le_format (k : OffsetBytes) (n : nat) expected tag output pre out :
  (k = O2 ∧ n = 2%nat ∨ k = O4 ∧ n = 4%nat) →
  is_byte tag → tag mod 4 = element_kind (Copy k 0 0) → expected ≤ usize_max →
  seq_format (λ p offset, p = to_le_bytes n offset ∧ 0 ≤ offset < 256 ^ Z.of_nat n)
    (λ offset p o, p = [] ∧ snappy_copy output offset (tag / 4 + 1) expected = Ok o)
    pre out ↔ element_format expected tag output pre out.
Proof.
  intros Hkn Ht Hk He. unfold is_byte in Ht. pose proof (Z.div_mod tag 4 ltac:(lia)).
  assert (0 ≤ tag / 4 < 64) by (split; [apply Z.div_pos|apply Z.div_lt_upper_bound]; lia).
  unfold seq_format, element_format. split.
  - intros (p1 & p2 & offset & -> & (-> & Hoff) & -> & Hc).
    apply (copy_format _ _ k) in Hc as (Hv & Hx & Ho);
      [|lia|lia|done|destruct Hkn as [[-> ->]|[-> ->]]; cbn in *; lia].
    eexists. split; [|by split_and!]. rewrite app_nil_r.
    destruct Hkn as [[-> ->]|[-> ->]]; cbn [encode_element element_kind] in *; f_equal; lia.
  - intros (e & E & Hv & Hx & Ho). pose proof (encode_element_tag _ _ _ E Hv) as Hkind.
    rewrite Hk in Hkind.
    assert (∃ offset len, e = Copy k offset len) as (offset & len & ->).
    { destruct Hkn as [[-> _]|[-> _]], e as [|[]]; try done; eauto. }
    assert (pre = to_le_bytes n offset ∧ tag / 4 = len - 1 ∧ 1 ≤ len ∧ 0 ≤ offset < 256 ^ Z.of_nat n)
      as (-> & Hlen & ? & ?).
    { destruct Hkn as [[-> ->]|[-> ->]]; cbn in E, Hv; injection E as E ->;
        (split; [done|]); split_and!; try lia.
      - destruct (div_mod_unique (len - 1) 2 4 tag); lia.
      - destruct (div_mod_unique (len - 1) 3 4 tag); lia. }
    exists (to_le_bytes n offset), [], offset. rewrite app_nil_r.
    split; [done|]. split; [done|]. split; [done|].
    replace (tag / 4 + 1) with len by lia. apply (copy_format _ _ k); [lia|lia|done|by left|done].
Qed.

Lemma parses_element expected tag output :
  is_byte tag → expected ≤ MAX_TABLE_BLOCK_BYTES →
  parses (snappy_element expected tag output) (element_format expected tag output).
Proof.
  intros Ht He. assert (MAX_TABLE_BLOCK_BYTES ≤ usize_max) by done. unfold snappy_element.
  destruct (tag_split tag Ht) as (-> & Hs & -> & ->). rewrite Hs.
  pose proof (Z.mod_pos_bound tag 4 ltac:(lia)).
  assert (0 ≤ tag / 32) by (apply Z.div_pos; unfold is_byte in Ht; lia).
  destruct (Z.eqb_spec (tag mod 4) 0) as [Hk|].
  { eapply parses_iff; [|intros; by apply literal_format].
    apply parses_bind_dep; [by apply parses_literal_length|]. intros n Hn.
    apply parses_bind; [|intros l; apply parses_rlift].
    apply parses_or_malformed, parses_read_exact.
    destruct Hn as (? & [(_ & _ & ?)|(? & _ & _ & _ & ? & _)]); lia. }
  destruct (Z.eqb_spec (tag mod 4) 1) as [Hk|].
  { eapply parses_iff; [|intros; apply copy1_format; [done..|lia|done]].
    apply parses_bind_dep; [apply parses_or_malformed, parses_read_u8|].
    intros low (? & _ & Hlow). rewrite offset_high_low by done. apply parses_rlift. }
  destruct (Z.eqb_spec (tag mod 4) 2) as [Hk|].
  { eapply parses_iff; [|intros; apply (copy_le_format O2 2); [by left|done|done|lia]].
    apply parses_bind; [apply (parses_int_le 2)|]. intros offset. apply parses_rlift. }
  eapply parses_iff; [|intros; apply (copy_le_format O4 4); [by right|done|cbn; lia|lia]].
  apply parses_bind; [apply (parses_int_le 4)|]. intros offset. apply parses_rlift.
Qed.

(** ** Streams *)

Lemma expand_element_grows e output out :
  element_valid e → expand_element e output = Some out → blen output ≤ blen out.
Proof.
  intros Hv. destruct e as [k l|k offset len]; cbn.
  - intros [= <-]. rewrite blen_app. pose proof (blen_nonneg l). lia.
  - generalize (Z.to_nat len) as n, (Z.to_nat offset) as o. intros n o. revert output.
    induction n as [|n IH]; intros output; cbn; [by intros [= <-]|].
    destruct (decide _); [|done]. destruct (output !! _) as [b|]; [|done]. cbn.
    intros H%IH. rewrite blen_app in H. unfold blen in *. cbn in H. lia.
Qed.
Lemma expand_grows es output out :
  Forall element_valid es → expand es output = Some out → blen output ≤ blen out.
Proof.
  intros Hv. revert output. induction Hv as [|e es He Hes IH]; intros output; cbn; [by intros [= <-]|].
  rewrite bind_Some. intros (o & H1%expand_element_grows & H2%IH); [lia|done].
Qed.

Lemma encode_element_cons e : ∃ tag pre, encode_element e = tag :: pre.
Proof. destruct e as [[]|[]]; cbn; eauto. Qed.

Lemma snappy_loop_spec fuel expected output r r' out :
  reader_wf r → (length (rest r) < fuel)%nat → expected ≤ MAX_TABLE_BLOCK_BYTES →
  blen output ≤ expected →
  snappy_loop fuel expected output r = (r', Ok out) ↔
  r' = advance (blen (rest r)) r ∧
  ∃ es, rest r = concat (encode_element <$> es) ∧ Forall element_valid es ∧
    expand es output = Some out ∧ blen out ≤ expected.
Proof.
  intros Hw Hf He. revert output r Hw Hf. induction fuel as [|fuel IH]; intros output r Hw Hf Ho; [lia|].
  cbn [snappy_loop]. destruct (Reader.is_empty r) eqn:Hemp.
  { apply is_empty_rest in Hemp as Hr; [|done]. rewrite Hr. unfold advance. cbn.
    rewrite Z.add_0_r. split.
    - intros [= <- <-]. split; [by destruct r|]. by exists [].
    - intros (-> & es & Hes & Hv & Hx & _). destruct es as [|e es]; [|exfalso].
      + cbn in Hx. injection Hx as <-. by destruct r.
      + destruct (encode_element_cons e) as (tag & pre & Ee). cbn in Hes. by rewrite Ee in Hes. }
  assert (rest r ≠ []) as Hne.
  { intros Hr. apply is_empty_rest in Hr; [congruence|done]. }
  rewrite se_bind_Ok. split.
  - intros (r1 & tag & H1 & H2). apply se_bind_Ok in H2 as (r2 & o & H2 & H3).
    destruct (parses_wf _ _ _ _ _ (parses_or_malformed _ _ parses_read_u8) Hw H1)
      as (Hw1 & p1 & Hr1 & -> & (-> & Ht) & _).
    destruct (parses_wf _ _ _ _ _ (parses_element expected tag output Ht He) Hw1 H2)
      as (Hw2 & p2 & Hr2 & -> & (e & Ee & Hv & Hx & Ho2) & _).
    rewrite Hr2 in Hr1. apply IH in H3 as (-> & es & Hes & Hvs & Hxs & Ho3);
      [|done| |done].
    2: { rewrite Hr1 in Hf. cbn in Hf. rewrite length_app in Hf. lia. }
    split.
    { rewrite Hr1. unfold advance, blen. cbn. rewrite length_app. f_equal. lia. }
    exists (e :: es). cbn. rewrite <-Ee, Hr1, Hes, Hx. cbn.
    split_and!; try done; by constructor.
  - intros (-> & es & Hes & Hvs & Hxs & Hle). destruct es as [|e es]; [done|].
    apply Forall_cons in Hvs as [Hv Hvs]. cbn in Hes, Hxs.
    destruct (encode_element_cons e) as (tag & pre & Ee). rewrite Ee in Hes.
    apply bind_Some in Hxs as (o & Hx & Hxs). cbn in Hes.
    destruct (rest_advance r [tag] (pre ++ concat (encode_element <$> es)) Hw Hes) as (Hw1 & Hr1 & Hb1).
    destruct (rest_advance _ _ _ Hw1 Hr1) as (Hw2 & Hr2 & _).
    apply Forall_cons in Hb1 as [Hb1 _]. pose proof (expand_grows _ _ _ Hvs Hxs).
    exists (advance 1 r), tag. split.
    { apply (parses_or_malformed _ _ parses_read_u8); [done|].
      exists [tag], (pre ++ concat (encode_element <$> es)).
      split; [exact Hes|]. split; [done|]. by split. }
    apply se_bind_Ok. exists (advance (blen pre) (advance 1 r)), o. split.
    { apply parses_element; [done..|]. exists pre, (concat (encode_element <$> es)).
      split; [done|]. split; [done|]. exists e. split_and!; try done. lia. }
    apply IH; [done| |lia|].
    { change (advance 1 r) with (advance (blen [tag]) r). rewrite Hr2.
      rewrite Hes in Hf. cbn in Hf. rewrite length_app in Hf. lia. }
    change (advance 1 r) with (advance (blen [tag]) r). rewrite Hr2. split.
    { rewrite Hes. unfold advance, blen. cbn. rewrite length_app. f_equal. lia. }
    by exists es.
Qed.

Lemma quiet_snappy_copy output offset len expected :
  0 ≤ offset → quiet (snappy_copy output offset len expected).
Proof.
  intros Ho. unfold snappy_copy. destruct (Z.eqb_spec offset 0); cbn; [done|].
  destruct (Z.ltb_spec (blen output) offset); cbn; [done|].
  destruct (match add_bounded _ _ _ with Some _ => _ | None => _ end); [done|].
  pose proof (copy_loop_repeat (Z.to_nat len) 0 (Z.to_nat offset) output output) as Hc.
  unfold blen in *. rewrite Z2Nat.id in Hc by lia. change (Z.of_nat 0) with 0 in Hc.
  rewrite Hc by lia.
  by destruct (repeat_back_total (Z.to_nat len) (Z.to_nat offset) output) as (tail & -> & _); [lia|].
Qed.

Lemma quiet_element expected tag output r :
  is_byte tag → expected ≤ MAX_TABLE_BLOCK_BYTES → reader_wf r →
  quiet_at (snappy_element expected tag output) r.
Proof.
  intros Ht He Hw. unfold snappy_element. destruct (tag_split tag Ht) as (_ & -> & _ & ->).
  unfold is_byte in Ht. assert (0 ≤ tag / 32) by (apply Z.div_pos; lia).
  destruct (_ =? 0); [|destruct (_ =? 1); [|destruct (_ =? 2)]].
  - apply quiet_at_bind.
    + unfold snappy_literal_length. destruct (_ <? 60); [done|].
      apply quiet_at_bind; [auto with quiet|]. intros raw r' _. by destruct (add_bounded _ _ _).
    + intros n r1 _. apply quiet_at_bind; [auto with quiet|]. intros l r2 _.
      unfold quiet_at. cbn. unfold append_bounded. by destruct (add_bounded (blen output) (blen l) expected).
  - apply quiet_at_bind; [auto with quiet|]. intros low r1 Hlow.
    destruct (parses_wf _ _ _ _ _ (parses_or_malformed _ _ parses_read_u8) Hw Hlow)
      as (_ & _ & _ & _ & (_ & Hb) & _).
    apply quiet_snappy_copy. rewrite offset_high_low by done. unfold is_byte in Hb. lia.
  - apply quiet_at_bind; [apply quiet_int_le|]. intros offset r1 Hoff.
    destruct (parses_wf _ _ _ _ _ (parses_int_le 2) Hw Hoff) as (_ & _ & _ & _ & (_ & ? & _) & _).
    by apply quiet_snappy_copy.
  - apply quiet_at_bind; [apply quiet_int_le|]. intros offset r1 Hoff.
    destruct (parses_wf _ _ _ _ _ (parses_int_le 4) Hw Hoff) as (_ & _ & _ & _ & (_ & ? & _) & _).
    by apply quiet_snappy_copy.
Qed.

Lemma quiet_loop fuel expected output r :
  reader_wf r → (length (rest r) < fuel)%nat → expected ≤ MAX_TABLE_BLOCK_BYTES →
  quiet_at (snappy_loop fuel expected output) r.
Proof.
  intros Hw Hf He. revert output r Hw Hf. induction fuel as [|fuel IH]; intros output r Hw Hf; [lia|].
  unfold quiet_at. cbn [snappy_loop]. destruct (Reader.is_empty r); [done|].
  apply quiet_at_bind; [auto with quiet|]. intros tag r1 H1.
  destruct (parses_wf _ _ _ _ _ (parses_or_malformed _ _ parses_read_u8) Hw H1)
    as (Hw1 & p1 & Hr1 & _ & (-> & Ht) & _).
  apply quiet_at_bind; [by apply quiet_element|]. intros o r2 H2.
  destruct (parses_wf _ _ _ _ _ (parses_element expected tag output Ht He) Hw1 H2)
    as (Hw2 & p2 & Hr2 & _ & _ & _).
  apply IH; [done|]. rewrite Hr1, Hr2 in Hf. cbn in Hf. rewrite length_app in Hf. lia.
Qed.

Lemma quiet_snappy l : Forall is_byte l → blen l ≤ usize_max → quiet (snappy_decompress l).
Proof.
  intros Hb Hl. pose proof (new_wf_reader l Hb Hl) as Hw. apply quiet_at_bind; [auto with quiet|].
  intros n r1 H1. destruct (parses_wf _ _ _ _ _ (parses_or_malformed _ _ parses_varint32) Hw H1)
    as (Hw1 & p1 & Hr1 & _ & _ & _).
  destruct (Z.ltb_spec MAX_TABLE_BLOCK_BYTES n); [done|].
  apply quiet_at_bind; [|intros o r2 _; by destruct (negb _)].
  apply quiet_loop; [done| |done]. assert (length (rest r1) ≤ length l)%nat; [|lia].
  change (rest (Reader.new l)) with l in Hr1.
  apply (f_equal length) in Hr1. rewrite length_app in Hr1. lia.
Qed.

Lemma snappy_decompress_Ok (l out : bytes) :
  Forall is_byte l → blen l ≤ usize_max →
  snappy_decompress l = Ok out ↔
  blen out ≤ MAX_TABLE_BLOCK_BYTES ∧
  ∃ es, l = encode_varint (blen out) ++ concat (encode_element <$> es) ∧
    Forall element_valid es ∧ expand es [] = Some out.
Proof.
  intros Hb Hl. pose proof (new_wf_reader l Hb Hl) as Hw.
  assert (MAX_TABLE_BLOCK_BYTES ≤ u32_max) by done.
  unfold snappy_decompress. destruct (snappy_stream _ _) as [r' x] eqn:Hrun. cbn [snd]. split.
  - intros ->. apply se_bind_Ok in Hrun as (r1 & n & H1 & H2).
    destruct (parses_wf _ _ _ _ _ (parses_or_malformed _ _ parses_varint32) Hw H1)
      as (Hw1 & p1 & Hr1 & -> & (Hn & ->) & _).
    destruct (Z.ltb_spec MAX_TABLE_BLOCK_BYTES n); [done|].
    apply se_bind_Ok in H2 as (r2 & o & H2 & H3).
    destruct (Z.eqb_spec (blen o) n) as [<-|]; cbn in H3; [|done]. injection H3 as _ <-.
    apply snappy_loop_spec in H2 as (_ & es & Hes & Hv & Hx & _); [|done| |done|exact (blen_nonneg o)].
    2: { change (rest (Reader.new l)) with l in Hr1.
         apply (f_equal length) in Hr1. rewrite length_app in Hr1. lia. }
    split; [done|]. exists es. split_and!; try done.
    change (rest (Reader.new l)) with l in Hr1. by rewrite Hr1, Hes at 1.
  - intros (Hmax & es & El & Hv & Hx). pose proof (blen_nonneg out).
    destruct (rest_advance (Reader.new l) _ _ Hw El) as (Hw1 & Hr1 & _).
    assert (snappy_stream (S (length l)) (Reader.new l)
      = (advance (blen (rest (advance (blen (encode_varint (blen out))) (Reader.new l))))
           (advance (blen (encode_varint (blen out))) (Reader.new l)), Ok out)) as Hgo.
    { apply se_bind_Ok. exists (advance (blen (encode_varint (blen out))) (Reader.new l)), (blen out).
      split.
      - apply (parses_or_malformed _ _ parses_varint32); [done|].
        exists (encode_varint (blen out)), (concat (encode_element <$> es)).
        split; [exact El|]. split; [done|]. split; [lia|done].
      - rewrite (proj2 (Z.ltb_ge _ _)) by lia. apply se_bind_Ok. eexists _, out. split.
        + apply snappy_loop_spec; [done| |done|exact (blen_nonneg out)|].
          * rewrite Hr1. apply (f_equal length) in El. rewrite length_app in El. lia.
          * split; [reflexivity|]. exists es. by rewrite Hr1.
        + by rewrite Z.eqb_refl. }
    rewrite Hgo in Hrun. by injection Hrun.
Qed.

(** What is expanded are bytes again. *)
Lemma expand_element_bytes e output out :
  Forall is_byte (encode_element e) → Forall is_byte output →
  expand_element e output = Some out → Forall is_byte out.
Proof.
  intros He Ho. destruct e as [k l|k offset len]; cbn.
  - intros [= <-]. apply Forall_app. split; [done|].
    destruct k; cbn [encode_element] in He; apply Forall_cons in He as [_ He]; [exact He|..];
      by apply Forall_app in He as [_ He].
  - generalize (Z.to_nat len) as n, (Z.to_nat offset) as o. intros n o. clear He. revert output Ho.
    induction n as [|n IH]; intros output Ho; cbn; [by intros [= <-]|].
    destruct (decide _); [|done]. destruct (output !! _) as [b|] eqn:Hb; [|done]. cbn.
    apply IH. apply Forall_app. split; [done|]. apply Forall_singleton. by eapply Forall_lookup in Hb.
Qed.
Lemma expand_bytes es output out :
  Forall is_byte (concat (encode_element <$> es)) → Forall is_byte output →
  expand es output = Some out → Forall is_byte out.
Proof.
  revert output. induction es as [|e es IH]; intros output; cbn; [by intros _ ? [= <-]|].
  rewrite Forall_app, bind_Some. intros [He Hes] Ho (o & Hx & Hr).
  eapply IH; [done| |exact Hr]. by eapply expand_element_bytes.
Qed.
Lemma snappy_decompress_bytes l out :
  Forall is_byte l → blen l ≤ usize_max → snappy_decompress l = Ok out →
  Forall is_byte out ∧ blen out ≤ MAX_TABLE_BLOCK_BYTES.
Proof.
  intros Hb Hl (Hmax & es & -> & _ & Hx)%snappy_decompress_Ok; [|done..].
  apply Forall_app in Hb as [_ Hb]. split; [|done]. exact (expand_bytes es [] out Hb (Forall_nil_2 _) Hx).
Qed.

(** ** Properties *)

(** C19. The decompressor implements the Snappy format: it accepts exactly the
    streams of the output's length and a sequence of valid elements, returns
    what they expand to, byte by byte, never more than eight mebibytes, and
    refuses everything else with an error of its own. *)
Theorem snappy_decompress_exact (l : bytes) :
  Forall is_byte l → blen l ≤ usize_max →
  (∀ out, snappy_decompress l = Ok out ↔
     blen out ≤ MAX_TABLE_BLOCK_BYTES ∧
     ∃ es, l = encode_varint (blen out) ++ concat (encode_element <$> es) ∧
       Forall element_valid es ∧ expand es [] = Some out) ∧
  (∀ f, snappy_decompress l = Err f → ∃ e, f = Rejected e).
Proof.
  intros Hb Hl. split; [intros out; by apply snappy_decompress_Ok|].
  intros f Hf. pose proof (quiet_snappy l Hb Hl) as Hq. rewrite Hf in Hq. destruct f; by eauto.
Qed.

(** The bytes of a 14-byte text that repeats itself. *)
Definition snappy_example : bytes :=
  encode_varint 14 ++ encode_element (Literal InTag (lit "usage ")) ++ encode_element (Copy O1 6 8).
Example snappy_example_out : snappy_decompress snappy_example = Ok (lit "usage usage us").
Proof. vm_compute. reflexivity. Qed.
Lemma snappy_decompress_exact_witness :
  ∃ es, snappy_example = encode_varint 14 ++ concat (encode_element <$> es) ∧
    expand es [] = Some (lit "usage usage us").
Proof.
  assert (Forall is_byte snappy_example) as Hb by by_decide.
  assert (blen snappy_example ≤ usize_max) as Hl by (vm_compute; discriminate).
  destruct (proj1 (proj1 (snappy_decompress_exact snappy_example Hb Hl) (lit "usage usage us")))
    as (_ & es & He & _ & Hx).
  - vm_compute. reflexivity.
  - exists es. split; [exact He|exact Hx].
Defined.
