(* ===== verification/LevelDbFacts.v ===== *)
(** * What the LevelDB parsers accept

    Lemmas and properties of LevelDb.v: write batches against their encoding,
    the merge of all records, and the whole parse of untrusted files: it never
    panics or runs forever, and what it builds stays within the budget. *)
From stdpp Require Import gmap countable prelude.
From S2P Require Import Prelude Ordering Text SliceReader LevelDb Snappy.
Local Open Scope Z_scope.

(** ** Reasoning about parsers *)

(** [wp m b Q]: the parser ends with a result [Q] holds of or with an error of
    the program, and never otherwise. *)
Definition wp {A} (m : Parser A) (b : ParseBudget) (Q : A → ParseBudget → Prop) : Prop :=
  match m b with
  | (b', Ok a) => Q a b'
  | (_, Err f) => rejected f
  end.

Lemma wp_ret {A} (a : A) b (Q : A → ParseBudget → Prop) : Q a b → wp (mret a) b Q.
Proof. done. Qed.
Lemma wp_fail {A} e b (Q : A → ParseBudget → Prop) : wp (fail e) b Q.
Proof. done. Qed.
Lemma parse_wp_bind {A B} (m : Parser A) (k : A → Parser B) b Q :
  wp m b (λ a b', wp (k a) b' Q) → wp (m ≫= k) b Q.
Proof. unfold wp, mbind, SE_bind. by destruct (m b) as [b' [a|f]]. Qed.
Lemma parse_wp_mono {A} (m : Parser A) b (P Q : A → ParseBudget → Prop) :
  wp m b P → (∀ a b', P a b' → Q a b') → wp m b Q.
Proof. unfold wp. destruct (m b) as [b' [a|f]]; auto. Qed.
Lemma wp_lift {A} (m : Result Fault A) b (Q : A → ParseBudget → Prop) :
  quiet m → (∀ a, m = Ok a → Q a b) → wp (lift m) b Q.
Proof. unfold wp, lift, se_lift. destruct m as [a|f]; auto. Qed.
Lemma wp_run {A} (m : Reading Fault A) P r b (Q : A * SliceReader → ParseBudget → Prop) :
  parses m P → reader_wf r → quiet_at m r →
  (∀ a r' pre, rest r = pre ++ rest r' → r' = advance (blen pre) r → reader_wf r' →
     P pre a → Forall is_byte pre → Q (a, r') b) → wp (run m r) b Q.
Proof.
  intros Hm Hw Hq HQ. unfold wp, run. unfold quiet_at in Hq.
  destruct (m r) as [r' [a|f]] eqn:Hrun; [|done].
  destruct (parses_wf _ _ _ _ _ Hm Hw Hrun) as (Hw' & pre & Hr & Ea & HP & Hb). by eapply HQ.
Qed.
Lemma parse_wp_Ok {A} (m : Parser A) b b' a (Q : A → ParseBudget → Prop) :
  wp m b Q → m b = (b', Ok a) → Q a b'.
Proof. unfold wp. intros H E. by rewrite E in H. Qed.

Lemma run_Ok {A} (m : Reading Fault A) r b b' a r' :
  run m r b = (b', Ok (a, r')) ↔ b' = b ∧ m r = (r', Ok a).
Proof. unfold run. destruct (m r) as [r1 [x|f]]; naive_solver. Qed.
Lemma lift_Ok {A} (m : Result Fault A) (b b' : ParseBudget) a :
  lift m b = (b', Ok a) ↔ b' = b ∧ m = Ok a.
Proof. unfold lift, se_lift. naive_solver. Qed.

(** ** The budget *)

Definition charge (n blocks size : Z) (b : ParseBudget) : ParseBudget :=
  mk_budget (entries b + n) (table_blocks b + blocks) (reconstructed_entry_bytes b + size).
Definition budget_ok (b : ParseBudget) : Prop :=
  0 ≤ entries b ≤ MAX_LEVELDB_ENTRIES ∧ 0 ≤ table_blocks b ≤ MAX_TABLE_BLOCKS ∧
  0 ≤ reconstructed_entry_bytes b ≤ MAX_RECONSTRUCTED_ENTRY_BYTES.

Lemma charge_0 b : charge 0 0 0 b = b.
Proof. destruct b. unfold charge. cbn. by rewrite !Z.add_0_r. Qed.
Lemma charge_charge n m s n' m' s' b :
  charge n' m' s' (charge n m s b) = charge (n + n') (m + m') (s + s') b.
Proof. unfold charge. cbn. f_equal; lia. Qed.

Lemma reserve_entries_Ok n b b' :
  reserve_entries n b = (b', Ok tt) ↔
  b' = charge n 0 0 b ∧ entries b + n ≤ MAX_LEVELDB_ENTRIES.
Proof.
  unfold reserve_entries, charge. destruct (add_bounded _ _ _) as [s|] eqn:E.
  - apply add_bounded_Some in E as [-> E]; [|done]. rewrite !Z.add_0_r. naive_solver.
  - apply add_bounded_None in E; [|done]. split; [done|]. intros [_ ?]. lia.
Qed.
Lemma reserve_bytes_Ok k v b b' :
  0 ≤ reconstructed_entry_bytes b →
  reserve_reconstructed_entry_bytes k v b = (b', Ok tt) ↔
  b' = charge 0 0 (k + v) b ∧ reconstructed_entry_bytes b + (k + v) ≤ MAX_RECONSTRUCTED_ENTRY_BYTES.
Proof.
  intros Hb. assert (MAX_RECONSTRUCTED_ENTRY_BYTES < usize_max) by done.
  unfold reserve_reconstructed_entry_bytes, charge.
  destruct (checked_add usize_max k v) as [s|] eqn:E.
  - apply checked_add_Some in E as [-> _]. destruct (add_bounded _ _ _) as [t|] eqn:E'.
    + apply add_bounded_Some in E' as [-> E']; [|done]. rewrite !Z.add_0_r. naive_solver.
    + apply add_bounded_None in E'; [|done]. split; [done|]. intros [_ ?]. lia.
  - apply checked_add_None in E. split; [done|]. intros [_ ?]. lia.
Qed.
Lemma wp_reserve_entries n b (Q : () → ParseBudget → Prop) :
  (entries b + n ≤ MAX_LEVELDB_ENTRIES → Q tt (charge n 0 0 b)) → wp (reserve_entries n) b Q.
Proof.
  intros HQ. unfold wp. destruct (reserve_entries n b) as [b' [[]|f]] eqn:E.
  - apply reserve_entries_Ok in E as [-> ?]. by apply HQ.
  - unfold reserve_entries, reject in E. destruct (add_bounded _ _ _); [discriminate|].
    by injection E as _ <-.
Qed.
Lemma wp_reserve_bytes k v b (Q : () → ParseBudget → Prop) :
  0 ≤ reconstructed_entry_bytes b →
  (reconstructed_entry_bytes b + (k + v) ≤ MAX_RECONSTRUCTED_ENTRY_BYTES → Q tt (charge 0 0 (k + v) b)) →
  wp (reserve_reconstructed_entry_bytes k v) b Q.
Proof.
  intros Hb HQ. unfold wp. destruct (reserve_reconstructed_entry_bytes k v b) as [b' [[]|f]] eqn:E.
  - apply reserve_bytes_Ok in E as [-> ?]; [|done]. by apply HQ.
  - unfold reserve_reconstructed_entry_bytes, reject in E.
    destruct (checked_add _ _ _); [destruct (add_bounded _ _ _); [discriminate|]|];
      by injection E as _ <-.
Qed.

(** ** Write batches *)

(** An operation of a batch: a deletion or an insertion. *)
Definition op_size (op : bytes * option bytes) : Z :=
  blen op.1 + match op.2 with Some v => blen v | None => 0 end.
Definition ops_size (ops : list (bytes * option bytes)) : Z := foldr (λ op n, op_size op + n) 0 ops.
Definition op_fields_ok (op : bytes * option bytes) : Prop :=
  blen op.1 ≤ MAX_LEVELDB_FIELD_BYTES ∧
  match op.2 with Some v => blen v ≤ MAX_LEVELDB_FIELD_BYTES | None => True end.
Definition encode_op (op : bytes * option bytes) : bytes :=
  match op.2 with
  | None => 0 :: encode_prefixed op.1
  | Some v => 1 :: encode_prefixed op.1 ++ encode_prefixed v
  end.
(** LevelDB's write batch: sequence, count, operations. *)
Definition encode_batch (base_sequence : Z) (ops : list (bytes * option bytes)) : bytes :=
  to_le_bytes 8 base_sequence ++ to_le_bytes 4 (blen ops) ++ concat (encode_op <$> ops).
(** The operations are numbered from the batch's sequence on. *)
Fixpoint batch_records (base_sequence : Z) (ops : list (bytes * option bytes)) : list ParsedRecord :=
  match ops with
  | [] => []
  | op :: ops => mk_record op.1 base_sequence op.2 :: batch_records (base_sequence + 1) ops
  end.

Lemma op_size_nonneg op : 0 ≤ op_size op.
Proof. unfold op_size, blen. destruct op.2; lia. Qed.
Lemma ops_size_nonneg ops : 0 ≤ ops_size ops.
Proof.
  induction ops as [|op ops IH]; [done|]. pose proof (op_size_nonneg op).
  change (ops_size (op :: ops)) with (op_size op + ops_size ops). lia.
Qed.

(** The tag, key and value of one operation, as the reader takes them. *)
Definition read_op : Reading Fault (bytes * option bytes) :=
  tag ← Reader.or_malformed Reader.read_u8;
  key ← Reader.read_length_prefixed MAX_LEVELDB_FIELD_BYTES;
  if tag =? 0 then mret (key, None)
  else if tag =? 1 then
    value ← Reader.read_length_prefixed MAX_LEVELDB_FIELD_BYTES; mret (key, Some value)
  else se_fail (Rejected Malformed).

Lemma parses_op : parses read_op (λ pre op, pre = encode_op op ∧ op_fields_ok op).
Proof.
  assert (MAX_LEVELDB_FIELD_BYTES ≤ u32_max) as Hmax by done.
  eapply parses_iff.
  - apply (parses_bind _ _ (λ pre b, pre = [b] ∧ is_byte b)
      (λ tag, seq_format (λ pre field, pre = encode_prefixed field ∧ blen field ≤ MAX_LEVELDB_FIELD_BYTES)
        (λ key pre op, if tag =? 0 then pre = [] ∧ op = (key, None) else
           if tag =? 1 then
             seq_format (λ pre field, pre = encode_prefixed field ∧ blen field ≤ MAX_LEVELDB_FIELD_BYTES)
               (λ value pre op, pre = [] ∧ op = (key, Some value)) pre op
           else False))).
    + apply parses_or_malformed, parses_read_u8.
    + intros tag. apply parses_bind; [by apply parses_length_prefixed|]. intros key.
      apply parses_if; [apply parses_ret|]. apply parses_if; [|apply parses_fail].
      apply parses_bind; [by apply parses_length_prefixed|]. intros value. apply parses_ret.
  - intros pre [k v] _ _. unfold seq_format, encode_op, op_fields_ok. cbn [fst snd]. split.
    + intros (? & ? & tag & -> & (-> & Ht) & p1 & p2 & key & -> & (-> & Hk) & H).
      destruct (Z.eqb_spec tag 0) as [->|].
      { destruct H as (-> & [= -> ->]). by rewrite app_nil_r. }
      destruct (Z.eqb_spec tag 1) as [->|]; [|done].
      destruct H as (? & ? & value & -> & (-> & Hv) & -> & [= -> ->]). by rewrite app_nil_r.
    + intros [-> [Hk Hv]]. destruct v as [v|].
      * exists [1], (encode_prefixed k ++ encode_prefixed v), 1. split; [done|]. split; [by split|].
        exists (encode_prefixed k), (encode_prefixed v), k. split; [done|]. split; [done|]. cbn.
        exists (encode_prefixed v), [], v. by rewrite app_nil_r.
      * exists [0], (encode_prefixed k), 0. split; [done|]. split; [by split|].
        exists (encode_prefixed k), [], k. by rewrite app_nil_r.
Qed.
Lemma quiet_op r : quiet_at read_op r.
Proof.
  apply quiet_at_bind; [auto with quiet|]. intros tag r1 _.
  apply quiet_at_bind; [auto with quiet|]. intros key r2 _.
  destruct (tag =? 0); [done|]. destruct (tag =? 1); [|done].
  apply quiet_at_bind; [auto with quiet|done].
Qed.

(** The loop reads whole operations. *)
Lemma batch_loop_step count index base_sequence reader b :
  batch_loop (S count) index base_sequence reader b =
  (sequence ← lift (ok_or (s ← checked_add u64_max base_sequence index;
                           if s <=? LEVELDB_MAX_SEQUENCE then Some s else None)
                          (Rejected Malformed));
   '(op, reader) ← run read_op reader;
   reserve_reconstructed_entry_bytes (blen op.1) (match op.2 with Some v => blen v | None => 0 end) ;;
   '(records, reader) ← batch_loop count (index + 1) base_sequence reader;
   mret (mk_record op.1 sequence op.2 :: records, reader)) b.
Proof.
  cbn [batch_loop]. unfold mbind, SE_bind, lift, se_lift, run, read_op.
  destruct (ok_or _ _) as [s|]; [|done]. cbn.
  unfold mbind, SE_bind. destruct (Reader.or_malformed Reader.read_u8 reader) as [r1 [tag|f]]; [|done].
  destruct (Reader.read_length_prefixed _ r1) as [r2 [key|f]]; [|done].
  destruct (tag =? 0); [done|]. destruct (tag =? 1); [|done].
  unfold mbind, SE_bind. by destruct (Reader.read_length_prefixed _ r2) as [r3 [v|f]].
Qed.

Lemma sequence_Ok base index s :
  ok_or (s ← checked_add u64_max base index; if s <=? LEVELDB_MAX_SEQUENCE then Some s else None)
    (Rejected Malformed) = Ok s ↔ s = base + index ∧ s ≤ LEVELDB_MAX_SEQUENCE.
Proof.
  assert (LEVELDB_MAX_SEQUENCE < u64_max) by done.
  rewrite ok_or_Ok, bind_Some. setoid_rewrite checked_add_Some. split.
  - intros (t & [-> _] & Ht). destruct (Z.leb_spec (base + index) LEVELDB_MAX_SEQUENCE); [|done].
    by injection Ht as <-.
  - intros [-> Hle]. exists (base + index). split; [split; [done|lia]|].
    by rewrite (proj2 (Z.leb_le _ _)).
Qed.

Lemma batch_loop_Ok count index base reader b b' records reader' :
  reader_wf reader → 0 ≤ reconstructed_entry_bytes b ≤ MAX_RECONSTRUCTED_ENTRY_BYTES →
  batch_loop count index base reader b = (b', Ok (records, reader')) ↔
  ∃ ops post, length ops = count ∧ rest reader = concat (encode_op <$> ops) ++ post ∧
    reader' = advance (blen (concat (encode_op <$> ops))) reader ∧
    records = batch_records (base + index) ops ∧ Forall op_fields_ok ops ∧
    (ops ≠ [] → base + index + blen ops - 1 ≤ LEVELDB_MAX_SEQUENCE) ∧
    b' = charge 0 0 (ops_size ops) b ∧
    reconstructed_entry_bytes b + ops_size ops ≤ MAX_RECONSTRUCTED_ENTRY_BYTES.
Proof.
  revert index reader b b' records reader'.
  induction count as [|count IH]; intros index reader b b' records reader' Hw Hb.
  { cbn [batch_loop]. unfold mret, SE_ret. split.
    - intros [= <- <- <-]. exists [], (rest reader). cbn. rewrite charge_0, Z.add_0_r.
      unfold advance. rewrite Z.add_0_r. destruct reader. split_and!; done || lia || constructor.
    - intros ([|op ops] & post & Hl & _ & -> & -> & _ & _ & -> & _); [|done]. cbn.
      rewrite charge_0. unfold advance. rewrite Z.add_0_r. by destruct reader. }
  rewrite batch_loop_step, se_bind_Ok. setoid_rewrite lift_Ok. split.
  - intros (b1 & s & (-> & Hs%sequence_Ok) & H1). destruct Hs as [-> Hs].
    apply se_bind_Ok in H1 as (b2 & [op r1] & H1%run_Ok & H2). destruct H1 as [-> H1].
    destruct (parses_wf _ _ _ _ _ parses_op Hw H1) as (Hw1 & pre & Hr & Er & (-> & Hf) & _).
    apply se_bind_Ok in H2 as (b3 & [] & H2 & H3). apply reserve_bytes_Ok in H2 as [-> H2]; [|lia].
    apply se_bind_Ok in H3 as (b4 & [recs r2] & H3 & [= <- <- <-]).
    fold (op_size op) in *. pose proof (op_size_nonneg op).
    apply IH in H3 as (ops & post & <- & Hr1 & -> & -> & Hfs & Hseq & -> & Hsize);
      [|done|cbn; lia].
    exists (op :: ops), post. cbn [length fmap list_fmap concat batch_records].
    rewrite Hr, Hr1, <-app_assoc. split_and!; try done.
    + rewrite Er. unfold advance. cbn. rewrite blen_app. f_equal. lia.
    + f_equal. f_equal. lia.
    + by constructor.
    + intros _. unfold blen in *. cbn [length]. destruct ops as [|o ops]; [cbn; lia|].
      specialize (Hseq ltac:(done)). cbn [length] in *. lia.
    + rewrite charge_charge. cbn. f_equal; lia.
    + cbn in Hsize. change (ops_size (op :: ops)) with (op_size op + ops_size ops). lia.
  - intros ([|op ops] & post & Hl & Hr & -> & -> & Hfs & Hseq & -> & Hsize); [done|].
    cbn [length fmap list_fmap concat batch_records] in *. injection Hl as <-.
    apply Forall_cons in Hfs as [Hf Hfs]. rewrite <-app_assoc in Hr.
    change (ops_size (op :: ops)) with (op_size op + ops_size ops) in *.
    pose proof (op_size_nonneg op). pose proof (ops_size_nonneg ops).
    specialize (Hseq ltac:(done)). unfold blen in Hseq. cbn [length] in Hseq.
    destruct (rest_advance _ _ _ Hw Hr) as (Hw1 & Hr1 & _).
    exists b, (base + index). split; [split; [done|]; apply sequence_Ok; split; [done|lia]|].
    apply se_bind_Ok. exists b, (op, advance (blen (encode_op op)) reader). split.
    { apply run_Ok. split; [done|]. apply parses_op; [done|].
      by exists (encode_op op), (concat (encode_op <$> ops) ++ post). }
    apply se_bind_Ok. exists (charge 0 0 (op_size op) b), tt. split.
    { apply reserve_bytes_Ok; [lia|]. split; [done|]. fold (op_size op). lia. }
    apply se_bind_Ok. eexists _, (_, _). split.
    { apply IH; [done|cbn; lia|]. exists ops, post. split; [done|]. split; [done|].
      split; [reflexivity|]. split; [reflexivity|]. split; [done|]. split; [|split; [reflexivity|cbn; lia]].
      intros Hne. unfold blen. lia. }
    unfold mret, SE_ret. f_equal; [by rewrite charge_charge|]. do 2 f_equal.
    + f_equal. f_equal. lia.
    + unfold advance. cbn. rewrite blen_app. f_equal. lia.
Qed.

Lemma get_slice_prefix {A} (l k : list A) : get_slice (l ++ k) 0 (blen l) = Some l.
Proof.
  assert (∃ s, get_slice (l ++ k) 0 (blen l) = Some s) as [s Hs].
  { unfold get_slice. rewrite blen_app. pose proof (blen_nonneg l). pose proof (blen_nonneg k).
    rewrite !(proj2 (Z.leb_le _ _)) by lia. cbn. by eexists. }
  rewrite Hs. apply get_slice_Some in Hs as (_ & _ & ->). unfold sub_bytes, blen.
  rewrite Z.sub_0_r, Nat2Z.id. change (Z.to_nat 0) with 0%nat. by rewrite drop_0, take_app_length.
Qed.
Lemma read_le_Ok (k : nat) l offset n :
  Forall is_byte l → 0 ≤ offset → (0 < k)%nat →
  read_le (Z.of_nat k) l offset = Ok n ↔
  0 ≤ n < 256 ^ Z.of_nat k ∧ ∃ post, drop (Z.to_nat offset) l = to_le_bytes k n ++ post.
Proof.
  intros Hb Ho Hk. unfold read_le. rewrite bind_Ok. setoid_rewrite ok_or_Ok. split.
  - intros (s & Hs & [= <-]). apply get_slice_Some in Hs as (Hr & Hl & ->).
    set (s := sub_bytes l offset (offset + Z.of_nat k)).
    assert (blen s = Z.of_nat k) as Hlen by (subst s; rewrite sub_bytes_length; lia).
    assert (Forall is_byte s) as Hf by by apply sub_bytes_Forall.
    pose proof (from_le_bytes_bound s Hf) as Hbd. rewrite Hlen in Hbd. split; [done|].
    exists (drop (Z.to_nat (offset + Z.of_nat k)) l).
    assert (k = length s) as Ek by (unfold blen in Hlen; lia).
    rewrite Ek at 1. rewrite to_from_le_bytes by done. apply drop_sub_bytes. lia.
  - intros (Hn & post & Hd). exists (to_le_bytes k n). rewrite from_to_le_bytes by done.
    split; [|done]. apply get_slice_Some.
    assert (length (drop (Z.to_nat offset) l) = (k + length post)%nat) as Hl
      by (rewrite Hd, length_app, to_le_bytes_length; done).
    rewrite length_drop in Hl. unfold blen.
    split; [lia|]. split; [lia|]. unfold sub_bytes. rewrite Hd.
    replace (Z.to_nat _) with (length (to_le_bytes k n)) by (rewrite to_le_bytes_length; lia).
    by rewrite take_app_length.
Qed.

(** The fixed head of a batch. *)
Lemma batch_head l base count :
  Forall is_byte l →
  (read_u64_le l 0 = Ok base ∧ read_u32_le l 8 = Ok count) ↔
  0 ≤ base < 256 ^ 8 ∧ 0 ≤ count < 256 ^ 4 ∧
  ∃ body, l = to_le_bytes 8 base ++ to_le_bytes 4 count ++ body.
Proof.
  intros Hb. unfold read_u64_le, read_u32_le.
  rewrite (read_le_Ok 8), (read_le_Ok 4) by (done || lia).
  change (Z.to_nat 0) with 0%nat. change (Z.to_nat 8) with 8%nat. rewrite drop_0. split.
  - intros ((Hn & post & Hl) & Hc & body & Hd). split; [done|]. split; [done|]. exists body.
    rewrite Hl, drop_app_length' in Hd by by rewrite to_le_bytes_length. by rewrite Hl, Hd.
  - intros (Hn & Hc & body & ->). split; split; [done| |done|]; eexists; [done|].
    by rewrite drop_app_length' by by rewrite to_le_bytes_length.
Qed.

Lemma sub_bytes_suffix {A} (l k : list A) n :
  blen l = n → index_slice (l ++ k) n (blen (l ++ k)) = Ok k.
Proof.
  intros <-. unfold index_slice. rewrite ok_or_Ok. apply get_slice_Some.
  rewrite blen_app. pose proof (blen_nonneg l). pose proof (blen_nonneg k).
  split; [lia|]. split; [lia|]. unfold sub_bytes, blen. rewrite Nat2Z.id, drop_app_length.
  rewrite take_ge; [done|lia].
Qed.

Lemma encode_batch_length base ops :
  blen (encode_batch base ops) = 12 + blen (concat (encode_op <$> ops)).
Proof. unfold encode_batch. rewrite !blen_app. unfold blen at 1 2. by rewrite !to_le_bytes_length, Z.add_assoc. Qed.

(** What accepting a batch means. *)
Definition batch_accepted (l : bytes) (b : ParseBudget) (records : list ParsedRecord) (b' : ParseBudget)
    : Prop :=
  ∃ base ops, l = encode_batch base ops ∧ records = batch_records base ops ∧
    0 ≤ base ≤ LEVELDB_MAX_SEQUENCE ∧ base + blen ops - 1 ≤ LEVELDB_MAX_SEQUENCE ∧
    blen l ≤ MAX_LOGICAL_RECORD_BYTES ∧ Forall op_fields_ok ops ∧
    entries b + blen ops ≤ MAX_LEVELDB_ENTRIES ∧
    reconstructed_entry_bytes b + ops_size ops ≤ MAX_RECONSTRUCTED_ENTRY_BYTES ∧
    b' = charge (blen ops) 0 (ops_size ops) b.

Lemma parse_write_batch_Ok l b b' records :
  Forall is_byte l → blen l ≤ usize_max → budget_ok b →
  parse_write_batch l b = (b', Ok records) ↔ batch_accepted l b records b'.
Proof.
  intros Hb Hl (He & _ & Hbud). unfold parse_write_batch, batch_accepted.
  assert (LEVELDB_MAX_SEQUENCE < 256 ^ 8) by done.
  assert (MAX_LEVELDB_ENTRIES < 256 ^ 4) by done.
  destruct (_ || _) eqn:Hsize.
  { rewrite orb_true_iff, !Z.ltb_lt in Hsize. split; [done|].
    intros (base & ops & -> & _ & _ & _ & Hmax & _). rewrite encode_batch_length in *.
    pose proof (blen_nonneg (concat (encode_op <$> ops))). lia. }
  rewrite orb_false_iff, !Z.ltb_ge in Hsize. destruct Hsize as [Hmin Hmax]. split.
  - intros R1. apply se_bind_Ok in R1 as (b0 & base & [-> R1]%lift_Ok & R2).
    destruct (Z.ltb_spec LEVELDB_MAX_SEQUENCE base); [done|].
    apply se_bind_Ok in R2 as (b0 & count & [-> R2]%lift_Ok & R3).
    destruct (proj1 (batch_head l base count Hb) (conj R1 R2)) as (Hbase & Hcount & body & El).
    apply se_bind_Ok in R3 as (b0 & [] & [-> Hent]%reserve_entries_Ok & R3).
    apply se_bind_Ok in R3 as (b0 & body' & [-> R3]%lift_Ok & R4).
    rewrite El, app_assoc in R3. rewrite sub_bytes_suffix in R3 by done. injection R3 as <-.
    rewrite El in Hb, Hl. rewrite !Forall_app in Hb. rewrite !blen_app in Hl.
    pose proof (blen_nonneg (to_le_bytes 8 base)). pose proof (blen_nonneg (to_le_bytes 4 count)).
    assert (reader_wf (Reader.new body)) as Hw by (apply new_wf_reader; [apply Hb|lia]).
    apply se_bind_Ok in R4 as (b1 & [recs r1] & R4 & R5).
    apply batch_loop_Ok in R4 as (ops & post & Hlen & Hr & -> & -> & Hf & Hseq & -> & Hrec);
      [|done|cbn; lia].
    destruct (Reader.is_empty _) eqn:Hemp; [|done]. injection R5 as <- <-.
    destruct (rest_advance _ _ _ Hw Hr) as (Hw1 & Hr1 & _).
    apply is_empty_rest in Hemp; [|done]. rewrite Hr1 in Hemp. subst post.
    change (rest (Reader.new body)) with body in Hr. rewrite app_nil_r in Hr.
    assert (blen ops = count) as Hc by (unfold blen; lia).
    exists base, ops. rewrite Z.add_0_r in *. cbn in Hrec. rewrite charge_charge.
    split; [unfold encode_batch; by rewrite Hc, <-Hr|]. split; [done|]. split; [lia|]. split.
    { destruct ops as [|op ops]; [unfold blen; cbn [length]; lia|by apply Hseq]. }
    split; [lia|]. split; [done|]. split; [lia|]. split; [lia|]. by rewrite Hc, !Z.add_0_r.
  - intros (base & ops & El & -> & Hbase & Hseq & _ & Hf & Hent & Hrec & ->).
    pose proof (blen_nonneg ops).
    destruct (proj2 (batch_head l base (blen ops) Hb)) as [R1 R2].
    { split; [lia|]. split; [lia|]. by eexists. }
    apply se_bind_Ok. exists b, base. split; [by apply lift_Ok|].
    rewrite (proj2 (Z.ltb_ge _ _)) by lia.
    apply se_bind_Ok. exists b, (blen ops). split; [by apply lift_Ok|].
    apply se_bind_Ok. exists (charge (blen ops) 0 0 b), tt. split; [by apply reserve_entries_Ok|].
    set (body := concat (encode_op <$> ops)).
    apply se_bind_Ok. exists (charge (blen ops) 0 0 b), body. split.
    { apply lift_Ok. split; [done|]. rewrite El. unfold encode_batch. rewrite app_assoc.
      by apply sub_bytes_suffix. }
    assert (reader_wf (Reader.new body)) as Hw.
    { rewrite El in Hb, Hl. unfold encode_batch in Hb, Hl. rewrite !Forall_app in Hb.
      rewrite !blen_app in Hl.
      pose proof (blen_nonneg (to_le_bytes 8 base)). pose proof (blen_nonneg (to_le_bytes 4 (blen ops))).
      apply new_wf_reader; [apply Hb|]. subst body. lia. }
    assert (rest (Reader.new body) = body ++ []) as Hr by by rewrite app_nil_r.
    apply se_bind_Ok. exists (charge (blen ops) 0 (ops_size ops) b),
      (batch_records base ops, advance (blen body) (Reader.new body)). split.
    { apply batch_loop_Ok; [done|cbn; lia|]. exists ops, []. split; [unfold blen; lia|].
      split; [done|]. split; [done|]. rewrite !Z.add_0_r. split; [done|]. split; [done|].
      split; [intros _; lia|]. rewrite charge_charge, !Z.add_0_r, Z.add_0_l. split; [done|].
      cbn. lia. }
    destruct (rest_advance _ _ _ Hw Hr) as (Hw1 & Hr1 & _).
    apply is_empty_rest in Hr1; [|done]. by rewrite Hr1.
Qed.

(** ** No panic, no endless loop, and the budget *)

Definition record_size (r : ParsedRecord) : Z :=
  blen (key r) + match value r with Some v => blen v | None => 0 end.
Definition records_size (records : list ParsedRecord) : Z :=
  foldr (λ r n, record_size r + n) 0 records.
Definition record_ok (r : ParsedRecord) : Prop :=
  0 ≤ sequence r ≤ LEVELDB_MAX_SEQUENCE ∧ blen (key r) ≤ MAX_LEVELDB_FIELD_BYTES ∧
  match value r with Some v => blen v ≤ MAX_LEVELDB_FIELD_BYTES | None => True end.
(** The records produced since a budget [b] are all paid for in [b']. *)
Definition produced (b : ParseBudget) (records : list ParsedRecord) (b' : ParseBudget) : Prop :=
  budget_ok b' ∧ entries b + blen records ≤ entries b' ∧
  reconstructed_entry_bytes b + records_size records ≤ reconstructed_entry_bytes b' ∧
  Forall record_ok records.

Lemma records_size_app l k : records_size (l ++ k) = records_size l + records_size k.
Proof.
  induction l as [|r l IH]; [done|].
  change (record_size r + records_size (l ++ k) = record_size r + records_size l + records_size k). lia.
Qed.
Lemma record_size_nonneg r : 0 ≤ record_size r.
Proof.
  unfold record_size. pose proof (blen_nonneg (key r)).
  destruct (value r) as [v|]; [pose proof (blen_nonneg v)|]; lia.
Qed.
Lemma produced_nil b : budget_ok b → produced b [] b.
Proof.
  intros Hb. split; [done|]. unfold blen. cbn [length records_size foldr].
  split; [lia|]. split; [lia|constructor].
Qed.
Lemma produced_app b0 l b1 k b2 : produced b0 l b1 → produced b1 k b2 → produced b0 (l ++ k) b2.
Proof.
  intros (_ & H1 & H2 & H3) (H4 & H5 & H6 & H7). split; [done|].
  rewrite blen_app, records_size_app. split; [lia|]. split; [lia|]. by apply Forall_app.
Qed.
Lemma wp_intro {A} (m : Parser A) b (Q : A → ParseBudget → Prop) :
  wp m b (λ _ _, True) → (∀ b' a, m b = (b', Ok a) → Q a b') → wp m b Q.
Proof. unfold wp. destruct (m b) as [b' [a|f]]; auto. Qed.

Lemma wp_batch_loop count index base reader b :
  reader_wf reader → budget_ok b → wp (batch_loop count index base reader) b (λ _ _, True).
Proof.
  revert index reader b. induction count as [|count IH]; intros index reader b Hw Hb; [done|].
  unfold wp. rewrite batch_loop_step. apply parse_wp_bind, wp_lift; [apply quiet_ok_or|]. intros s _.
  apply parse_wp_bind. eapply wp_run; [apply parses_op|done|apply quiet_op|].
  intros op r' pre _ _ Hw' _ _. destruct Hb as (? & ? & ?).
  apply parse_wp_bind, wp_reserve_bytes; [lia|]. intros Hle. apply parse_wp_bind.
  eapply parse_wp_mono; [apply IH; [done|]|by intros []].
  fold (op_size op) in *. pose proof (op_size_nonneg op). split_and!; cbn; lia.
Qed.

Lemma batch_records_produced base ops b :
  budget_ok (charge (blen ops) 0 (ops_size ops) b) → 0 ≤ base → Forall op_fields_ok ops →
  base + blen ops - 1 ≤ LEVELDB_MAX_SEQUENCE →
  produced b (batch_records base ops) (charge (blen ops) 0 (ops_size ops) b).
Proof.
  intros Hb Hbase Hf Hseq. split; [done|]. cbn.
  assert (blen (batch_records base ops) = blen ops ∧ records_size (batch_records base ops) = ops_size ops
    ∧ Forall record_ok (batch_records base ops)) as (-> & -> & ?); [|split; [lia|split; [lia|done]]].
  clear Hb. revert base Hbase Hseq. induction Hf as [|op ops Hop Hf IH]; intros base Hbase Hseq;
    [split_and!; done || constructor|].
  cbn [batch_records]. assert (blen (op :: ops) = 1 + blen ops) as El by (unfold blen; cbn; lia).
  pose proof (blen_nonneg ops). destruct (IH (base + 1)) as (H1 & H2 & H3); [lia..|].
  split; [unfold blen in *; cbn; lia|]. split.
  - cbn. fold (records_size (batch_records (base + 1) ops)) (ops_size ops). by rewrite H2.
  - constructor; [|done]. destruct Hop. split; [cbn; lia|done].
Qed.

Lemma wp_write_batch l b :
  Forall is_byte l → blen l ≤ usize_max → budget_ok b → wp (parse_write_batch l) b (produced b).
Proof.
  intros Hb Hl Hbud. apply wp_intro.
  - unfold parse_write_batch. destruct (_ || _) eqn:Hsize; [done|].
    rewrite orb_false_iff, !Z.ltb_ge in Hsize.
    apply parse_wp_bind, wp_lift; [apply quiet_read_le|]. intros base _. destruct (_ <? _); [done|].
    apply parse_wp_bind, wp_lift; [apply quiet_read_le|]. intros count Hc.
    apply parse_wp_bind, wp_reserve_entries. intros Hent.
    assert (∃ body, index_slice l 12 (blen l) = Ok body) as [body Hbody].
    { exists (sub_bytes l 12 (blen l)). unfold index_slice. apply ok_or_Ok, get_slice_Some.
      split; [lia|]. by split. }
    apply parse_wp_bind, wp_lift; [by rewrite Hbody|]. intros body' Hbody'.
    assert (body' = body) as -> by congruence.
    apply parse_wp_bind. eapply parse_wp_mono; [apply wp_batch_loop|].
    + unfold index_slice in Hbody. apply ok_or_Ok, get_slice_Some in Hbody as (? & ? & ->).
      apply new_wf_reader; [by apply sub_bytes_Forall|]. rewrite sub_bytes_length; lia.
    + destruct Hbud as (? & ? & ?). split_and!; cbn; try lia.
      unfold read_u32_le in Hc. apply (read_le_Ok 4) in Hc as [? _]; [lia|done|lia|lia].
    + intros [recs r] b' _. by destruct (negb _).
  - intros b' records (base & ops & _ & -> & Hbase & Hseq & _ & Hf & Hent & Hrec & ->)%parse_write_batch_Ok;
      [|done..].
    pose proof (ops_size_nonneg ops). pose proof (blen_nonneg ops). destruct Hbud as (? & ? & ?).
    apply batch_records_produced; [|lia|done|done]. split_and!; cbn; lia.
Qed.

(** *** Logs *)

Definition log_state_ok (b0 : ParseBudget) (st : LogState) (b : ParseBudget) : Prop :=
  match st.1 with
  | Some buffer => Forall is_byte buffer ∧ blen buffer ≤ MAX_LOGICAL_RECORD_BYTES
  | None => True
  end ∧ produced b0 st.2 b.

Lemma index_slice_in {A} (l : list A) start stop :
  0 ≤ start ≤ stop → stop ≤ blen l → index_slice l start stop = Ok (sub_bytes l start stop).
Proof. intros. apply ok_or_Ok, get_slice_Some. done. Qed.
Lemma quiet_append_bounded d s m : quiet (append_bounded d s m).
Proof. unfold append_bounded. by destruct (add_bounded _ _ _). Qed.

Lemma wp_append_batch b0 buffer records b :
  Forall is_byte buffer → blen buffer ≤ usize_max → produced b0 records b →
  wp (batch ← parse_write_batch buffer; mret (None, records ++ batch)) b (log_state_ok b0).
Proof.
  intros Hb Hl Hp. apply parse_wp_bind. eapply parse_wp_mono; [apply wp_write_batch; [done..|apply Hp]|].
  intros batch b' Hbatch. split; [done|]. by eapply produced_app.
Qed.

Lemma wp_log_record b0 record_type payload st b :
  Forall is_byte payload → blen payload ≤ usize_max → log_state_ok b0 st b →
  wp (log_record record_type payload st) b (log_state_ok b0).
Proof.
  assert (MAX_LOGICAL_RECORD_BYTES ≤ usize_max) as Hmax by done.
  intros Hb Hl. destruct st as [fragmented records]. intros [Hf Hp]. cbn [fst snd] in *.
  assert (∀ buffer, fragmented = Some buffer → ∀ whole,
    append_bounded buffer payload MAX_LOGICAL_RECORD_BYTES = Ok whole →
    Forall is_byte whole ∧ blen whole ≤ MAX_LOGICAL_RECORD_BYTES) as Happ.
  { intros buffer -> whole [-> Hw]%append_bounded_Ok; [|done]. split; [|done].
    apply Forall_app. split; [apply Hf|done]. }
  destruct record_type; cbn [log_record].
  - destruct fragmented; [done|]. by apply wp_append_batch.
  - destruct fragmented; [done|].
    destruct (Z.ltb_spec MAX_LOGICAL_RECORD_BYTES (blen payload)); [done|]. by split.
  - apply parse_wp_bind, wp_lift; [apply quiet_ok_or|]. intros buffer Eb%ok_or_Ok.
    apply parse_wp_bind, wp_lift; [apply quiet_append_bounded|]. intros whole Hw.
    split; [by eapply Happ|done].
  - apply parse_wp_bind, wp_lift; [apply quiet_ok_or|]. intros buffer Eb%ok_or_Ok.
    apply parse_wp_bind, wp_lift; [apply quiet_append_bounded|]. intros whole Hw.
    destruct (Happ _ Eb _ Hw). apply wp_append_batch; [done|lia|done].
Qed.

Lemma quiet_padding l offset block_end :
  0 ≤ offset ≤ block_end → block_end ≤ blen l → quiet (check_padding l offset block_end).
Proof.
  intros. unfold check_padding. rewrite index_slice_in by lia. cbn. by destruct (existsb _ _).
Qed.

Lemma wp_log_block b0 fuel l block_end offset st b :
  Forall is_byte l → blen l ≤ usize_max → 0 ≤ offset → block_end ≤ blen l →
  block_end - offset < Z.of_nat fuel → (0 < fuel)%nat → log_state_ok b0 st b →
  wp (log_block fuel l block_end offset st) b (log_state_ok b0).
Proof.
  intros Hb Hl. revert offset st b.
  induction fuel as [|fuel IH]; intros offset st b Ho Hend Hf Hpos Hst; [lia|]. cbn [log_block].
  destruct (Z.leb_spec block_end offset); [done|].
  assert (∀ o, 0 ≤ o ≤ block_end →
    wp (lift (check_padding l o block_end) ;; mret st) b (log_state_ok b0)) as Hpad.
  { intros o Hr. apply parse_wp_bind, wp_lift; [by apply quiet_padding|]. by intros []. }
  destruct (Z.ltb_spec (block_end - offset) LEVELDB_LOG_HEADER_BYTES); [apply Hpad; lia|].
  unfold LEVELDB_LOG_HEADER_BYTES in *.
  apply parse_wp_bind, wp_lift; [apply quiet_read_le|]. intros checksum _.
  apply parse_wp_bind, wp_lift; [apply quiet_read_le|]. intros length Hlen.
  apply (read_le_Ok 2) in Hlen as [Hlen _]; [|done|lia|lia].
  assert (∃ t, index_at l (offset + 6) = Ok t) as [t Ht].
  { unfold index_at, get_at. rewrite (proj2 (Z.leb_le _ _)) by lia.
    destruct (lookup_lt_is_Some_2 l (Z.to_nat (offset + 6))) as [t Ht]; [unfold blen in Hend; lia|].
    exists t. by rewrite Ht. }
  apply parse_wp_bind, wp_lift; [by rewrite Ht|]. intros raw_type _.
  destruct (_ && _); [apply Hpad; lia|].
  apply parse_wp_bind, wp_lift; [apply quiet_ok_or|]. intros payload_end Hpe%ok_or_Ok.
  apply add_bounded_Some in Hpe as [-> Hpe]; [|lia].
  apply parse_wp_bind, wp_lift; [apply quiet_ok_or|]. intros record_type _.
  rewrite index_slice_in by lia. apply parse_wp_bind, wp_lift; [done|]. intros payload [= <-].
  destruct (negb _); [done|]. apply parse_wp_bind. eapply parse_wp_mono.
  - apply wp_log_record; [by apply sub_bytes_Forall|rewrite sub_bytes_length; lia|exact Hst].
  - intros st' b' Hst'. apply IH; [lia|lia|lia| |done]. destruct fuel; lia.
Qed.

Lemma wp_log_blocks b0 blocks l block_start st b :
  Forall is_byte l → blen l ≤ usize_max → 0 ≤ block_start → log_state_ok b0 st b →
  wp (log_blocks blocks l block_start st) b (log_state_ok b0).
Proof.
  intros Hb Hl. revert block_start st b. induction blocks as [|blocks IH]; intros s st b Hs Hst; [done|].
  cbn [log_blocks]. apply parse_wp_bind. eapply parse_wp_mono.
  - apply wp_log_block; [done|done|done| | | |exact Hst]; unfold LEVELDB_LOG_BLOCK_BYTES; lia.
  - intros st' b' Hst'. apply IH; [|done]. unfold LEVELDB_LOG_BLOCK_BYTES. lia.
Qed.

Lemma wp_log l b :
  Forall is_byte l → blen l ≤ usize_max → budget_ok b → wp (parse_log l) b (produced b).
Proof.
  intros Hb Hl Hbud. apply parse_wp_bind. eapply parse_wp_mono.
  - apply wp_log_blocks; [done|done|done|]. split; [done|]. by apply produced_nil.
  - intros [[f|] records] b' [_ Hp]; [done|]. exact Hp.
Qed.

(** *** Blocks *)

Definition entries_size (found : list BlockEntry) : Z :=
  foldr (λ e n, blen (entry_key e) + blen (entry_value e) + n) 0 found.
Definition entry_ok (e : BlockEntry) : Prop :=
  Forall is_byte (entry_key e) ∧ Forall is_byte (entry_value e) ∧
  blen (entry_key e) ≤ MAX_LEVELDB_FIELD_BYTES ∧ blen (entry_value e) ≤ MAX_LEVELDB_FIELD_BYTES.
(** Block entries are paid for by size only; their number is charged later. *)
Definition unpacked (b : ParseBudget) (found : list BlockEntry) (b' : ParseBudget) : Prop :=
  budget_ok b' ∧ entries b ≤ entries b' ∧
  reconstructed_entry_bytes b + entries_size found ≤ reconstructed_entry_bytes b' ∧
  Forall entry_ok found.

Lemma entries_size_app l k : entries_size (l ++ k) = entries_size l + entries_size k.
Proof.
  unfold entries_size. induction l as [|e l IH]; [done|]. cbn [app foldr].
  rewrite IH. lia.
Qed.

Lemma encode_varint_nonempty n : 1 ≤ blen (encode_varint n).
Proof.
  unfold encode_varint. rewrite encode_varint_step. destruct (n <? 128); [done|].
  unfold blen. cbn [length]. lia.
Qed.

Definition entry_header_format : format (Z * Z * Z) := λ pre h,
  pre = encode_varint h.1.1 ++ encode_varint h.1.2 ++ encode_varint h.2 ∧
  0 ≤ h.1.1 ≤ u32_max ∧ 0 ≤ h.1.2 ≤ u32_max ∧ 0 ≤ h.2 ≤ u32_max.
Lemma parses_entry_header : parses read_entry_header entry_header_format.
Proof.
  set (V := λ (pre : bytes) (n : Z), 0 ≤ n ≤ u32_max ∧ pre = encode_varint n).
  assert (parses (Reader.or_malformed Reader.read_varint32) V) as Hv
    by apply parses_or_malformed, parses_varint32.
  eapply parses_iff.
  - apply (parses_bind _ _ V (λ s, seq_format V (λ n, seq_format V
      (λ v pre h, pre = [] ∧ h = (s, n, v)))) Hv). intros s.
    apply (parses_bind _ _ V (λ n, seq_format V (λ v pre h, pre = [] ∧ h = (s, n, v))) Hv). intros n.
    apply (parses_bind _ _ V (λ v pre h, pre = [] ∧ h = (s, n, v)) Hv). intros v. apply parses_ret.
  - intros pre [[s n] v] _ _. unfold seq_format, entry_header_format, V. cbn. split.
    + intros (? & ? & s' & -> & (? & ->) & ? & ? & n' & -> & (? & ->) & ? & ? & v' & -> & (? & ->) & -> & [= -> -> ->]).
      by rewrite app_nil_r.
    + intros (-> & ? & ? & ?).
      exists (encode_varint s), (encode_varint n ++ encode_varint v), s. split_and!; try lia; try done.
      exists (encode_varint n), (encode_varint v), n. split_and!; try lia; try done.
      exists (encode_varint v), [], v. rewrite app_nil_r. split_and!; try lia; done.
Qed.
Lemma quiet_entry_header r : quiet_at read_entry_header r.
Proof.
  apply quiet_at_bind; [auto with quiet|]. intros s r1 _.
  apply quiet_at_bind; [auto with quiet|]. intros n r2 _.
  apply quiet_at_bind; [auto with quiet|done].
Qed.

Lemma wp_entry_loop b0 fuel l entries_end maximum_entries offset last_key starts found b :
  Forall is_byte l → blen l ≤ usize_max → entries_end ≤ blen l → 0 ≤ offset ≤ entries_end →
  entries_end - offset < Z.of_nat fuel → Forall is_byte last_key →
  unpacked b0 found b →
  wp (entry_loop fuel l entries_end maximum_entries offset last_key starts found) b
    (λ res, unpacked b0 res.2).
Proof.
  intros Hb Hl Hend. revert offset last_key starts found b.
  induction fuel as [|fuel IH]; intros offset last_key starts found b Ho Hf Hk Hp; [lia|].
  cbn [entry_loop]. destruct (Z.leb_spec entries_end offset).
  { destruct (Z.eqb_spec offset entries_end); [done|lia]. }
  destruct (_ <=? blen found); [done|]. rewrite index_slice_in by lia.
  apply parse_wp_bind, wp_lift; [done|]. intros slice [= <-].
  assert (reader_wf (Reader.new (sub_bytes l offset entries_end))) as Hw.
  { apply new_wf_reader; [by apply sub_bytes_Forall|]. rewrite sub_bytes_length; lia. }
  apply parse_wp_bind. eapply wp_run; [apply parses_entry_header|done|apply quiet_entry_header|].
  intros [[shared non_shared] value_length] r1 pre Hr Er1 Hw1 (-> & Hs & Hn & Hv) _. cbn in Hs, Hn, Hv.
  apply parse_wp_bind, wp_lift; [apply quiet_ok_or|].
  intros key_length Hkl%ok_or_Ok. apply checked_add_Some in Hkl as [-> _].
  destruct (_ || _) eqn:Hg; [done|]. rewrite !orb_false_iff, !Z.ltb_ge in Hg.
  destruct Hg as [[Hshared Hkey] Hval].
  apply parse_wp_bind. eapply wp_run;
    [apply parses_or_malformed, parses_read_exact; lia|done|apply quiet_or_malformed|].
  intros suffix r2 pre2 Hr2 Er2 Hw2 (-> & Hsuf) Hsufb.
  apply parse_wp_bind. eapply wp_run;
    [apply parses_or_malformed, parses_read_exact; lia|done|apply quiet_or_malformed|].
  intros value r3 pre3 Hr3 Er3 Hw3 (-> & Hvl) Hvb.
  apply parse_wp_bind, wp_lift; [apply quiet_ok_or|]. intros next Hnext%ok_or_Ok.
  apply add_bounded_Some in Hnext as [-> Hnext]; [|lia].
  destruct Hp as (Hbud & He & Hsz & Hent). pose proof Hbud as (? & ? & ?).
  apply parse_wp_bind, wp_reserve_bytes; [lia|]. intros Hres.
  rewrite index_slice_in by lia. apply parse_wp_bind, wp_lift; [done|]. intros part [= <-].
  assert (blen (sub_bytes last_key 0 shared) = shared) as Hpart by (rewrite sub_bytes_length; lia).
  assert (Forall is_byte (sub_bytes last_key 0 shared ++ suffix)) as Hkb.
  { apply Forall_app. split; [by apply sub_bytes_Forall|done]. }
  assert (position r3 = blen (encode_varint shared ++ encode_varint non_shared ++ encode_varint value_length)
    + blen suffix + blen value) as Hpos.
  { rewrite Er3, Er2, Er1. cbn. lia. }
  rewrite blen_app in Hpos. pose proof (encode_varint_nonempty shared).
  pose proof (blen_nonneg (encode_varint non_shared ++ encode_varint value_length)).
  pose proof (blen_nonneg suffix). pose proof (blen_nonneg value).
  apply IH; [lia|lia|done|].
  unfold unpacked. rewrite entries_size_app, Forall_app, Forall_singleton. cbn [entries_size foldr entry_key entry_value].
  rewrite blen_app, Hpart. split; [split_and!; cbn; lia|]. split; [cbn; lia|]. split; [cbn [reconstructed_entry_bytes charge]; lia|].
  split; [done|]. split; [done|]. split; [done|]. cbn [entry_key entry_value]. rewrite blen_app, Hpart. lia.
Qed.

Lemma quiet_restarts count index l entries_end restarts :
  quiet (restart_loop count index l entries_end restarts).
Proof.
  revert index restarts. induction count as [|count IH]; intros index restarts; [done|].
  cbn [restart_loop]. apply quiet_bind; [apply quiet_read_le|]. intros offset _.
  destruct (_ || _); [done|]. destruct (_ && _); [done|]. apply IH.
Qed.

Lemma wp_prefix_block l maximum_entries b :
  Forall is_byte l → blen l ≤ usize_max → budget_ok b →
  wp (parse_prefix_block l maximum_entries) b (unpacked b).
Proof.
  intros Hb Hl Hbud. unfold parse_prefix_block. destruct (_ || _) eqn:Hsize; [done|].
  rewrite orb_false_iff, !Z.ltb_ge in Hsize.
  apply parse_wp_bind, wp_lift; [apply quiet_read_le|]. intros count Hc.
  apply (read_le_Ok 4) in Hc as [Hc _]; [|done|lia|lia].
  destruct (_ || _); [done|]. apply parse_wp_bind, wp_lift; [apply quiet_ok_or|].
  intros restart_bytes Hr%ok_or_Ok. rewrite bind_Some in Hr. destruct Hr as (n & Hn & Hr).
  rewrite bind_Some in Hr. destruct Hr as (m & Hm & Hr).
  apply checked_mul_Some in Hn as [-> _]. apply checked_add_Some in Hm as [-> _].
  destruct (Z.leb_spec (count * 4 + 4) (blen l)); [|done]. injection Hr as <-.
  apply parse_wp_bind, wp_lift; [apply quiet_restarts|]. intros restarts _.
  apply parse_wp_bind. eapply parse_wp_mono.
  - apply (wp_entry_loop b); [done|done|lia|lia|lia|constructor|].
    split; [done|]. cbn [entries_size foldr]. split; [lia|]. split; [lia|constructor].
  - intros [starts found] b' Hp. cbn [snd] in Hp.
    destruct (_ =? 0); [by destruct (bool_decide _)|by destruct (forallb _ _)].
Qed.

Lemma decode_internal_entry_Ok e r :
  entry_ok e → decode_internal_entry e = Ok r →
  record_ok r ∧ record_size r ≤ blen (entry_key e) + blen (entry_value e).
Proof.
  intros (Hk & Hv & Hkl & Hvl). unfold decode_internal_entry.
  destruct (Z.ltb_spec (blen (entry_key e)) 8); [done|].
  intros (tag & Ht & Hr)%bind_Ok. unfold read_u64_le in Ht.
  apply (read_le_Ok 8) in Ht as [Ht _]; [|done|lia|lia].
  destruct (Z.ltb_spec LEVELDB_MAX_SEQUENCE (Z.shiftr tag 8)); [done|].
  assert (0 ≤ Z.shiftr tag 8) by (apply Z.shiftr_nonneg; lia).
  rewrite index_slice_in in Hr by lia. cbn in Hr.
  assert (blen (sub_bytes (entry_key e) 0 (blen (entry_key e) - 8)) = blen (entry_key e) - 8) as Hlen
    by (rewrite sub_bytes_length; lia).
  pose proof (blen_nonneg (entry_value e)).
  destruct (_ =? 1); [|destruct (_ && _); [|done]]; injection Hr as <-;
    (split; [split; [done|]; cbn [key value]; split; [lia|done]|]);
    unfold record_size; cbn [key value]; lia.
Qed.
Lemma quiet_internal_entry e : quiet (decode_internal_entry e).
Proof.
  unfold decode_internal_entry. destruct (Z.ltb_spec (blen (entry_key e)) 8); [done|].
  apply quiet_bind; [apply quiet_read_le|]. intros tag _. destruct (_ <? _); [done|].
  rewrite index_slice_in by lia. cbn. destruct (_ =? 1); [done|]. by destruct (_ && _).
Qed.
Lemma quiet_traverse {A B} (f : A → Result Fault B) l : (∀ a, quiet (f a)) → quiet (traverse_list f l).
Proof.
  intros Hf. induction l as [|a l IH]; [done|]. cbn [traverse_list].
  apply quiet_bind; [done|]. intros b _. apply quiet_bind; [done|]. done.
Qed.
Lemma decode_entries_Ok found records :
  Forall entry_ok found → traverse_list decode_internal_entry found = Ok records →
  Forall record_ok records ∧ blen records = blen found ∧ records_size records ≤ entries_size found.
Proof.
  intros Hf Ht%traverse_list_Ok. induction Ht as [|e r found records He Ht IH].
  { split; [constructor|]. by split. }
  apply Forall_cons in Hf as [Hok Hf]. destruct (IH Hf) as (H1 & H2 & H3).
  apply decode_internal_entry_Ok in He as [Hr Hs]; [|done].
  split; [by constructor|]. split; [unfold blen in *; cbn [length]; lia|].
  change (record_size r + records_size records ≤
    blen (entry_key e) + blen (entry_value e) + entries_size found). lia.
Qed.

(** *** Tables *)

Definition handle_ok (h : BlockHandle) : Prop := 0 ≤ handle_offset h ∧ 0 ≤ handle_size h.
Lemma parses_block_handle :
  parses read_block_handle (λ pre h,
    pre = encode_varint (handle_offset h) ++ encode_varint (handle_size h) ∧
    0 ≤ handle_offset h < 2 ^ 64 ∧ 0 ≤ handle_size h < 2 ^ 64).
Proof.
  set (V := λ (pre : bytes) (n : Z), 0 ≤ n < 2 ^ 64 ∧ pre = encode_varint n).
  assert (parses (Reader.or_malformed Reader.read_varint64) V) as Hv
    by apply parses_or_malformed, parses_varint64.
  eapply parses_iff.
  - apply (parses_bind _ _ V (λ o, seq_format V (λ s pre h, pre = [] ∧ h = mk_handle o s)) Hv). intros o.
    apply (parses_bind _ _ V (λ s pre h, pre = [] ∧ h = mk_handle o s) Hv). intros s. apply parses_ret.
  - intros pre [o s] _ _. unfold seq_format, V. cbn. split.
    + intros (? & ? & o' & -> & (? & ->) & ? & ? & s' & -> & (? & ->) & -> & [= -> ->]).
      by rewrite app_nil_r.
    + intros (-> & ? & ?). exists (encode_varint o), (encode_varint s), o.
      split; [done|]. split; [done|]. exists (encode_varint s), [], s. by rewrite app_nil_r.
Qed.
Lemma quiet_block_handle r : quiet_at read_block_handle r.
Proof. do 2 (apply quiet_at_bind; [auto with quiet|]; intros ? ? _). done. Qed.
Lemma decode_block_handle_spec l :
  Forall is_byte l → blen l ≤ usize_max →
  quiet (decode_block_handle l) ∧ ∀ h, decode_block_handle l = Ok h → handle_ok h.
Proof.
  intros Hb Hl. pose proof (new_wf_reader l Hb Hl) as Hw. unfold decode_block_handle.
  pose proof (quiet_block_handle (Reader.new l)) as Hq. unfold quiet_at in Hq.
  destruct (read_block_handle (Reader.new l)) as [r [h|f]] eqn:E; [|by split].
  destruct (parses_wf _ _ _ _ _ parses_block_handle Hw E) as (_ & pre & _ & _ & (_ & ? & ?) & _).
  destruct (Reader.is_empty r); (split; [done|]); [|done]. intros h' [= <-]. split; lia.
Qed.

Lemma quiet_validate h footer_start : quiet (validate_block_handle h footer_start).
Proof.
  unfold validate_block_handle. destruct (_ <? _); [done|]. destruct (handle_end h); [|done].
  by destruct (_ <=? _).
Qed.

Lemma wp_table_block table h footer_start b0 parsed b :
  Forall is_byte table → blen table ≤ usize_max → handle_ok h → produced b0 parsed b →
  wp (read_table_block table h footer_start) b
    (λ block b', Forall is_byte block ∧ blen block ≤ usize_max ∧ produced b0 parsed b').
Proof.
  intros Hb Hl Hh (Hbud & Hent & Hsz & Hok). apply parse_wp_bind. unfold wp, count_table_block.
  destruct (add_bounded _ _ _) as [n|] eqn:En; [|done]. apply add_bounded_Some in En as [-> En]; [|done].
  set (b1 := mk_budget _ _ _). assert (produced b0 parsed b1) as Hp.
  { destruct Hbud as (? & ? & ?). split; [split_and!; cbn; lia|]. by split. }
  clearbody b1. apply parse_wp_bind, wp_lift; [apply quiet_validate|]. intros [] _.
  apply parse_wp_bind, wp_lift; [apply quiet_ok_or|]. intros block_end Hend%ok_or_Ok.
  apply parse_wp_bind, wp_lift; [apply quiet_ok_or|]. intros compression _.
  apply parse_wp_bind, wp_lift; [apply quiet_read_le|]. intros checksum _.
  apply parse_wp_bind, wp_lift; [apply quiet_ok_or|]. intros raw Hraw%ok_or_Ok.
  apply get_slice_Some in Hraw as (? & ? & ->). pose proof (sub_bytes_length table (handle_offset h) block_end).
  assert (Forall is_byte (sub_bytes table (handle_offset h) block_end)) by by apply sub_bytes_Forall.
  destruct (negb _); [done|]. destruct (_ =? 0); [split; [done|split; [lia|done]]|].
  destruct (_ =? 1); [|done]. apply wp_lift; [apply quiet_snappy; [done|lia]|].
  intros out [Ho Hol]%snappy_decompress_bytes; [|done|lia].
  split; [done|]. split; [|done]. etrans; [exact Hol|by vm_compute].
Qed.

Lemma produced_unpacked b0 parsed b found b' :
  produced b0 parsed b → unpacked b found b' → produced b0 parsed b'.
Proof.
  intros (_ & ? & ? & ?) (? & ? & ? & _). split; [done|]. split; [lia|]. split; [|done].
  assert (0 ≤ entries_size found); [|lia]. clear. unfold entries_size.
  induction found as [|e found IH]; cbn [foldr]; [done|].
  pose proof (blen_nonneg (entry_key e)). pose proof (blen_nonneg (entry_value e)). lia.
Qed.

Lemma wp_data_blocks b0 index_entries l footer_start handles parsed b :
  Forall is_byte l → blen l ≤ usize_max → Forall entry_ok index_entries → produced b0 parsed b →
  wp (data_blocks index_entries l footer_start handles parsed) b (λ res, produced b0 res.2).
Proof.
  assert (MAX_LEVELDB_FIELD_BYTES ≤ usize_max) as Hmax by done.
  intros Hb Hl Hidx. revert handles parsed b.
  induction Hidx as [|e index_entries He Hidx IH]; intros handles parsed b Hp; [done|]. cbn [data_blocks].
  destruct He as (_ & Hv & _ & Hvl).
  destruct (decode_block_handle_spec (entry_value e)) as [Hq Hh]; [done|lia|].
  apply parse_wp_bind, wp_lift; [done|]. intros h Eh. apply Hh in Eh.
  apply parse_wp_bind, wp_lift; [apply quiet_validate|]. intros [] _. destruct (bool_decide _); [done|].
  apply parse_wp_bind. eapply parse_wp_mono; [by apply (wp_table_block l h footer_start b0 parsed)|].
  intros block b1 (Hbb & Hbl & Hp1).
  apply parse_wp_bind. eapply parse_wp_mono; [apply wp_prefix_block; [done|done|apply Hp1]|].
  intros found b2 Hu. pose proof (produced_unpacked _ _ _ _ _ Hp1 Hu) as Hp2.
  apply parse_wp_bind, wp_reserve_entries. intros Hent.
  apply parse_wp_bind, wp_lift; [apply quiet_traverse, quiet_internal_entry|]. intros records Hr.
  destruct Hu as (Hbud2 & He2 & Hs2 & Hf). apply decode_entries_Ok in Hr as (Hok & Hlen & Hsize); [|done].
  apply IH. eapply produced_app; [exact Hp1|]. pose proof (blen_nonneg found).
  destruct Hbud2 as (? & ? & ?). split; [split_and!; cbn; lia|]. cbn.
  split; [lia|]. split; [lia|done].
Qed.

Lemma parses_footer : parses footer_handles (λ pre hs, handle_ok hs.1 ∧ handle_ok hs.2 ∧
  pre = encode_varint (handle_offset hs.1) ++ encode_varint (handle_size hs.1) ++
        encode_varint (handle_offset hs.2) ++ encode_varint (handle_size hs.2) ∧
  handle_offset hs.1 < 2 ^ 64 ∧ handle_size hs.1 < 2 ^ 64 ∧
  handle_offset hs.2 < 2 ^ 64 ∧ handle_size hs.2 < 2 ^ 64).
Proof.
  eapply parses_iff.
  - apply (parses_bind _ _ _ (λ m, seq_format (λ pre h,
      pre = encode_varint (handle_offset h) ++ encode_varint (handle_size h) ∧
      0 ≤ handle_offset h < 2 ^ 64 ∧ 0 ≤ handle_size h < 2 ^ 64) (λ i pre hs, pre = [] ∧ hs = (m, i)))
      parses_block_handle). intros m.
    apply (parses_bind _ _ _ (λ i pre hs, pre = [] ∧ hs = (m, i)) parses_block_handle). intros i.
    apply parses_ret.
  - intros pre [m i] _ _. unfold seq_format, handle_ok. cbn [fst snd]. split.
    + intros (? & ? & m' & -> & (-> & ? & ?) & ? & ? & i' & -> & (-> & ? & ?) & -> & [= -> ->]).
      rewrite app_nil_r, <-app_assoc. split_and!; done || lia.
    + intros ([? ?] & [? ?] & -> & ? & ? & ? & ?).
      exists (encode_varint (handle_offset m) ++ encode_varint (handle_size m)),
        (encode_varint (handle_offset i) ++ encode_varint (handle_size i)), m.
      rewrite app_assoc. split; [done|]. split; [split_and!; done || lia|].
      eexists _, [], i. rewrite app_nil_r. split; [done|]. split_and!; done || lia.
Qed.
Lemma quiet_footer r : quiet_at footer_handles r.
Proof.
  apply quiet_at_bind; [apply quiet_block_handle|]. intros ? ? _.
  apply quiet_at_bind; [apply quiet_block_handle|]. done.
Qed.

Lemma wp_table l b :
  Forall is_byte l → blen l ≤ usize_max → budget_ok b → wp (parse_table l) b (produced b).
Proof.
  intros Hb Hl Hbud. unfold parse_table. unfold LEVELDB_TABLE_FOOTER_BYTES.
  destruct (Z.ltb_spec (blen l) 48); [done|]. cbv zeta.
  apply parse_wp_bind, wp_lift; [apply quiet_read_le|]. intros magic _. destruct (negb _); [done|].
  rewrite index_slice_in by lia. apply parse_wp_bind, wp_lift; [done|]. intros footer [= <-].
  assert (reader_wf (Reader.new (sub_bytes l (blen l - 48) (blen l - 8)))) as Hw.
  { apply new_wf_reader; [by apply sub_bytes_Forall|]. rewrite sub_bytes_length; lia. }
  apply parse_wp_bind. eapply wp_run; [apply parses_footer|done|apply quiet_footer|].
  intros [metaindex index] r1 pre _ _ Hw1 (Hm & Hi & _) _. cbn [fst snd] in Hm, Hi.
  assert (Reader.remaining r1 = Ok (sub_bytes (reader_bytes r1) (position r1) (blen (reader_bytes r1)))) as Hrem.
  { apply index_slice_in; [apply (wf_position _ Hw1)|lia]. }
  apply parse_wp_bind, wp_lift; [by rewrite Hrem|]. intros padding _. destruct (existsb _ _); [done|].
  apply parse_wp_bind, wp_lift; [apply quiet_validate|]. intros [] _.
  apply parse_wp_bind, wp_lift; [apply quiet_validate|]. intros [] _. destruct (bool_decide _); [done|].
  assert (produced b [] b) as Hp by by apply produced_nil.
  apply parse_wp_bind. eapply parse_wp_mono; [by apply (wp_table_block l metaindex _ b [])|].
  intros block b1 (Hbb & Hbl & Hp1).
  apply parse_wp_bind. eapply parse_wp_mono; [apply wp_prefix_block; [done|done|apply Hp1]|].
  intros found b2 Hu. pose proof (produced_unpacked _ _ _ _ _ Hp1 Hu) as Hp2.
  apply parse_wp_bind. eapply parse_wp_mono; [by apply (wp_table_block l index _ b [])|].
  intros iblock b3 (Hib & Hil & Hp3).
  apply parse_wp_bind. eapply parse_wp_mono; [apply wp_prefix_block; [done|done|apply Hp3]|].
  intros ientries b4 Hu4. pose proof (produced_unpacked _ _ _ _ _ Hp3 Hu4) as Hp4.
  destruct (_ <? _); [done|]. apply parse_wp_bind.
  eapply parse_wp_mono; [apply (wp_data_blocks b); [done|done|apply Hu4|exact Hp4]|].
  intros [handles parsed] b5 Hp5. cbn [snd] in Hp5.
  apply parse_wp_bind, wp_lift.
  { apply quiet_traverse. intros h. apply quiet_bind; [apply quiet_ok_or|done]. }
  intros ranges _. by destruct (windows_overlap _).
Qed.

(** ** Merging *)

(** The bytes held by the merged map. *)
Definition version_size (kv : bytes * VersionedValue) : Z :=
  blen kv.1 + match version_value kv.2 with Some v => blen v | None => 0 end.
Definition versions_size (l : list (bytes * VersionedValue)) : Z := foldr (λ kv n, version_size kv + n) 0 l.
Definition map_size_bytes (m : Records) : Z := versions_size (map_to_list m).

Lemma versions_size_perm l k : l ≡ₚ k → versions_size l = versions_size k.
Proof. unfold versions_size. induction 1; cbn [foldr]; lia. Qed.
Lemma version_size_nonneg kv : 0 ≤ version_size kv.
Proof.
  unfold version_size. pose proof (blen_nonneg kv.1).
  destruct (version_value kv.2) as [v|]; [pose proof (blen_nonneg v)|]; lia.
Qed.
Lemma map_size_bytes_insert m k v :
  map_size_bytes (<[k := v]> m) ≤ map_size_bytes m + version_size (k, v).
Proof.
  unfold map_size_bytes. destruct (m !! k) as [w|] eqn:Hk.
  - rewrite <-insert_delete_eq.
    rewrite (versions_size_perm _ _ (map_to_list_insert _ _ v (lookup_delete_eq m k))).
    rewrite <-(versions_size_perm _ _ (map_to_list_delete m k w Hk)).
    unfold versions_size. cbn [foldr]. pose proof (version_size_nonneg (k, w)). lia.
  - rewrite (versions_size_perm _ _ (map_to_list_insert _ _ v Hk)).
    unfold versions_size. cbn [foldr]. lia.
Qed.

(** One merge step keeps or replaces. *)
Lemma merge_record_Ok m r m' :
  merge_record m r = Ok m' →
  m' = m ∨ m' = <[key r := mk_version (sequence r) (value r)]> m.
Proof.
  unfold merge_record. destruct (match m !! key r with Some _ => _ | None => _ end).
  - intros (e & _ & He)%bind_Ok. destruct (bool_decide _); [|done]. injection He as <-. by left.
  - intros [= <-]. by left.
  - intros [= <-]. by right.
Qed.
Lemma quiet_merge_records l m : quiet (merge_records l m).
Proof.
  revert m. induction l as [|r l IH]; intros m; [done|]. cbn [merge_records]. apply quiet_bind; [|by auto].
  unfold merge_record. destruct (match m !! key r with Some _ => _ | None => _ end); [|done|done].
  apply quiet_bind; [apply quiet_ok_or|]. intros e _. by destruct (bool_decide _).
Qed.
Definition version_ok (kv : bytes * VersionedValue) : Prop :=
  0 ≤ version_sequence kv.2 ≤ LEVELDB_MAX_SEQUENCE ∧ blen kv.1 ≤ MAX_LEVELDB_FIELD_BYTES ∧
  match version_value kv.2 with Some v => blen v ≤ MAX_LEVELDB_FIELD_BYTES | None => True end.
Lemma merge_records_bounds l m m' :
  merge_records l m = Ok m' → Forall record_ok l → map_Forall (λ k v, version_ok (k, v)) m →
  Z.of_nat (size m') ≤ Z.of_nat (size m) + blen l ∧
  map_size_bytes m' ≤ map_size_bytes m + records_size l ∧
  map_Forall (λ k v, version_ok (k, v)) m'.
Proof.
  revert m. induction l as [|r l IH]; intros m; cbn [merge_records].
  { intros [= <-] _ Hm. cbn [records_size foldr]. unfold blen. cbn [length]. split; [lia|]. split; [lia|done]. }
  intros (m1 & H1 & H2)%bind_Ok [Hr Hl]%Forall_cons Hm.
  change (records_size (r :: l)) with (record_size r + records_size l).
  assert (blen (r :: l) = 1 + blen l) as -> by (unfold blen; cbn [length]; lia).
  pose proof (record_size_nonneg r).
  apply merge_record_Ok in H1 as [->| ->].
  - destruct (IH _ H2 Hl Hm) as (? & ? & ?). split; [lia|]. split; [lia|done].
  - destruct (IH _ H2 Hl) as (? & ? & ?); [by apply map_Forall_insert_2|].
    pose proof (map_size_bytes_insert m (key r) (mk_version (sequence r) (value r))).
    change (version_size (key r, mk_version (sequence r) (value r))) with (record_size r) in *.
    assert (size (<[key r:=mk_version (sequence r) (value r)]> m) ≤ S (size m))%nat.
    { rewrite map_size_insert. destruct (m !! key r); cbn; lia. }
    split; [lia|]. split; [lia|done].
Qed.

Lemma wp_images b0 all images records b :
  Forall (λ i, Forall is_byte (image_bytes i) ∧ blen (image_bytes i) ≤ usize_max) images →
  produced b0 all b →
  Z.of_nat (size records) ≤ blen all → map_size_bytes records ≤ records_size all →
  map_Forall (λ k v, version_ok (k, v)) records →
  wp (parse_images_loop images records) b (λ records b', ∃ all, produced b0 all b' ∧
    Z.of_nat (size records) ≤ blen all ∧ map_size_bytes records ≤ records_size all ∧
    map_Forall (λ k v, version_ok (k, v)) records).
Proof.
  intros Hi. revert all records b. induction Hi as [|i images [Hb Hl] Hi IH];
    intros all records b Hp Hsize Hbytes Hok; cbn [parse_images_loop]; [by exists all|].
  apply parse_wp_bind. eapply parse_wp_mono.
  { unfold parse_image. destruct (image_kind i); [apply wp_log|apply wp_table]; try done; apply Hp. }
  intros parsed b1 Hparsed. apply parse_wp_bind, wp_lift; [apply quiet_merge_records|].
  intros records' Hm. apply merge_records_bounds in Hm as (H1 & H2 & H3); [|apply Hparsed|done].
  apply (IH (all ++ parsed)); [by eapply produced_app|..|done].
  - rewrite blen_app. lia.
  - rewrite records_size_app. lia.
Qed.

(** The newest value of every key, and that it is the only one of its sequence. *)
Definition newest (l : list ParsedRecord) (m : Records) : Prop :=
  (∀ r, r ∈ l → is_Some (m !! key r)) ∧
  ∀ k v, m !! k = Some v →
    (∃ r, r ∈ l ∧ key r = k ∧ v = mk_version (sequence r) (value r)) ∧
    ∀ r, r ∈ l → key r = k →
      sequence r ≤ version_sequence v ∧ (sequence r = version_sequence v → value r = version_value v).

Lemma newest_merge l m r m' :
  newest l m → merge_record m r = Ok m' → newest (l ++ [r]) m'.
Proof.
  intros [Hdom Hnew]. unfold merge_record.
  assert (∀ v, m !! key r = Some v → sequence r ≤ version_sequence v →
    (sequence r = version_sequence v → value r = version_value v) → newest (l ++ [r]) m) as Hkeep.
  { intros v Hv Hle Heq. split.
    - intros r' [Hr' | ->%list_elem_of_singleton]%elem_of_app; [by apply Hdom|by exists v].
    - intros k w Hw. destruct (Hnew k w Hw) as [(r0 & Hin & Hk & Ew) Hall]. split.
      + exists r0. split; [by apply elem_of_app; left|done].
      + intros r' [Hr' | ->%list_elem_of_singleton]%elem_of_app Hk'; [by apply Hall|].
        assert (w = v) as -> by congruence. done. }
  assert ((∀ v, m !! key r = Some v → version_sequence v < sequence r) →
    newest (l ++ [r]) (<[key r := mk_version (sequence r) (value r)]> m)) as Hput.
  { intros Hlt. split.
    - intros r' Hr'. rewrite lookup_insert_is_Some'.
      apply elem_of_app in Hr' as [Hr' | ->%list_elem_of_singleton]; [right; by apply Hdom|by left].
    - intros k w. rewrite lookup_insert_Some. intros [[<- <-]|[Hne Hw]]; cbn.
      + split; [exists r; split; [by apply elem_of_app; right; apply list_elem_of_singleton|done]|].
        intros r' [Hr' | ->%list_elem_of_singleton]%elem_of_app Hk'; [|done].
        destruct (Hdom r' Hr') as [v Hv]. rewrite Hk' in Hv. specialize (Hlt v Hv).
        destruct (Hnew _ _ Hv) as [_ Hall]. destruct (Hall r' Hr' Hk') as [Hle _]. lia.
      + destruct (Hnew k w Hw) as [(r0 & Hin & Hk & Ew) Hall]. split.
        * exists r0. split; [by apply elem_of_app; left|done].
        * intros r' [Hr' | ->%list_elem_of_singleton]%elem_of_app Hk'; [by apply Hall|done]. }
  destruct (m !! key r) as [v|] eqn:Hv.
  - destruct (Z.compare_spec (sequence r) (version_sequence v)) as [Heq|Hlt|Hgt].
    + cbn. destruct (bool_decide_reflect (version_value v = value r)); [|done]. intros [= <-].
      eapply Hkeep; [done|lia|done].
    + intros [= <-]. eapply Hkeep; [done|lia|lia].
    + intros [= <-]. apply Hput. by intros v' [= <-].
  - intros [= <-]. by apply Hput.
Qed.
Lemma newest_merge_all l k m m' :
  newest l m → merge_records k m = Ok m' → newest (l ++ k) m'.
Proof.
  revert l m. induction k as [|r k IH]; intros l m Hn; cbn [merge_records].
  { intros [= <-]. by rewrite app_nil_r. }
  intros (m1 & H1 & H2)%bind_Ok. rewrite (cons_middle r l k), app_assoc. eapply IH; [|exact H2].
  by eapply newest_merge.
Qed.

(** No two records of a key share a sequence and differ. *)
Definition consistent (l : list ParsedRecord) : Prop :=
  ∀ r r', r ∈ l → r' ∈ l → key r = key r' → sequence r = sequence r' → value r = value r'.

Lemma merge_consistent l k m :
  consistent (l ++ k) → newest l m → ∃ m', merge_records k m = Ok m'.
Proof.
  revert l m. induction k as [|r k IH]; intros l m Hc Hn; cbn [merge_records]; [by exists m|].
  assert (∃ m1, merge_record m r = Ok m1) as [m1 H1].
  { unfold merge_record. destruct (m !! key r) as [v|] eqn:Hv; [|by eexists].
    destruct (Z.compare_spec (sequence r) (version_sequence v)) as [Heq| |]; [|by eexists..].
    cbn. destruct Hn as [_ Hn]. destruct (Hn _ _ Hv) as [(r0 & Hin & Hk & Ev) _].
    rewrite bool_decide_eq_true_2; [by eexists|]. rewrite Ev in Heq |- *. cbn in *. symmetry.
    apply (Hc r r0); [apply elem_of_app; right; by left|by apply elem_of_app; left|done|done]. }
  rewrite H1. cbn. apply (IH (l ++ [r])).
  - by rewrite <-app_assoc.
  - by eapply newest_merge.
Qed.

(** ** Properties *)

(** A write batch is accepted exactly when it is the encoding of a
    sequence number and a list of operations, no more and no fewer bytes, whose
    sequence numbers, fields and total size are within the limits; its records
    are those operations, numbered from the batch's sequence on. *)
Theorem write_batch_exact (l : bytes) (b : ParseBudget) :
  Forall is_byte l → blen l ≤ usize_max → budget_ok b →
  ∀ b' records, parse_write_batch l b = (b', Ok records) ↔ batch_accepted l b records b'.
Proof. intros Hb Hl Hbud b' records. by apply parse_write_batch_Ok. Qed.

(** C12. Whatever bytes the files hold, reading them ends, without a panic, in
    an error of the program or in a map within the budget: at most 65,536 keys
    and 64 mebibytes in all, every field within its limit and every sequence
    number a LevelDB one. *)
Theorem parse_images_safe (images : list FileImage) :
  Forall (λ i, Forall is_byte (image_bytes i) ∧ blen (image_bytes i) ≤ usize_max) images →
  (∀ f, parse_images images = Err f → ∃ e, f = Rejected e) ∧
  (∀ records, parse_images images = Ok records →
     Z.of_nat (size records) ≤ 65536 ∧ map_size_bytes records ≤ 64 * 1024 * 1024 ∧
     map_Forall (λ k v, version_ok (k, v)) records).
Proof.
  intros Hi. assert (budget_ok budget_default) as Hb0 by done.
  pose proof (wp_images budget_default [] images ∅ budget_default Hi (produced_nil _ Hb0)) as Hwp.
  unfold parse_images. unfold wp in Hwp.
  destruct (parse_images_loop images ∅ budget_default) as [b' [records|f]]; cbn [snd].
  - destruct Hwp as (all & (Hb & He & Hs & _) & Hsize & Hbytes & Hok); [done..|].
    split; [done|]. intros records' [= <-]. destruct Hb as (? & _ & ?). cbn in He, Hs.
    change MAX_LEVELDB_ENTRIES with 65536 in *. change MAX_RECONSTRUCTED_ENTRY_BYTES with (64 * 1024 * 1024) in *.
    split; [lia|]. split; [lia|done].
  - split; [|done]. intros f' [= <-].
    assert (rejected f) as Hf by (apply Hwp; done). destruct f; [by eexists|done..].
Qed.

(** Merging keeps, for every key that occurs, the value with the greatest
    sequence number, whatever the order of the files; it fails only when two
    records of one key carry the same sequence number and different values, and
    a result always means that no such pair competes for the newest place. *)
Theorem merge_keeps_newest (l : list ParsedRecord) :
  (∀ m, merge_records l ∅ = Ok m → newest l m) ∧
  (consistent l → ∃ m, merge_records l ∅ = Ok m ∧
     ∀ k m', k ≡ₚ l → merge_records k ∅ = Ok m' → m' = m).
Proof.
  assert (newest [] ∅) as H0 by (split; [intros r Hr; by apply elem_of_nil in Hr|done]).
  assert (∀ m, merge_records l ∅ = Ok m → newest l m) as Hnew
    by (intros m Hm; by apply (newest_merge_all [] l ∅)).
  split; [done|]. intros Hc. destruct (merge_consistent [] l ∅ Hc H0) as [m Hm].
  exists m. split; [done|]. intros k m' Hk Hm'.
  assert (newest k m') as Hn' by by apply (newest_merge_all [] k ∅).
  specialize (Hnew m Hm). clear Hm Hm' H0.
  assert (∀ l1 l2 m1 m2, l1 ≡ₚ l2 → newest l1 m1 → newest l2 m2 →
    ∀ i v, m1 !! i = Some v → m2 !! i = Some v) as Hsub.
  { intros l1 l2 m1 m2 Hp [D1 N1] [D2 N2] i v Hv.
    destruct (N1 i v Hv) as [(r & Hr & <- & ->) Hall1].
    assert (r ∈ l2) as Hr2 by by rewrite <-Hp. destruct (D2 r Hr2) as [w Hw]. rewrite Hw.
    destruct (N2 _ w Hw) as [(r' & Hr' & Hk' & ->) Hall2]. cbn in Hall1, Hall2.
    destruct (Hall1 r') as [? He]; [by rewrite Hp|done|]. destruct (Hall2 r Hr2 eq_refl) as [? _].
    assert (sequence r' = sequence r) as Es by lia. by rewrite Es, (He Es). }
  apply map_eq. intros i. apply option_eq. intros v. split; [by eapply Hsub|].
  by eapply (Hsub l k).
Qed.

(** ** Witnesses *)

Definition ops_example : list (bytes * option bytes) :=
  [(lit "_https://a.example", Some (lit "token")); (lit "gone", None)].
Definition batch_example : bytes := encode_batch 7 ops_example.
(** A log file of one whole record, and of one record in two pieces. *)
Definition physical_record (record_type : Z) (payload : bytes) : bytes :=
  to_le_bytes 4 (masked_crc32c_parts record_type payload) ++ to_le_bytes 2 (blen payload)
  ++ record_type :: payload.
Definition log_example : bytes :=
  physical_record 1 batch_example
  ++ physical_record 2 (take 10 (encode_batch 9 [(lit "gone", Some (lit "back"))]))
  ++ physical_record 4 (drop 10 (encode_batch 9 [(lit "gone", Some (lit "back"))])).
Definition images_example : list FileImage := [mk_image Log log_example].

Example log_example_newest :
  (version_value <$> (match parse_images images_example with Ok m => m | Err _ => ∅ end))
  = {[lit "_https://a.example" := Some (lit "token"); lit "gone" := Some (lit "back")]}.
Proof. vm_compute. reflexivity. Qed.
Example crc32c_check : not_u32 (crc32c_extend (not_u32 0) (lit "123456789")) = 0xe3069283.
Proof. vm_compute. reflexivity. Qed.

Lemma write_batch_exact_witness :
  (parse_write_batch batch_example budget_default).2 = Ok (batch_records 7 ops_example).
Proof.
  assert (Forall is_byte batch_example) as Hb by by_decide.
  assert (blen batch_example ≤ usize_max) as Hl by (vm_compute; discriminate).
  assert (budget_ok budget_default) as Hbud by done.
  rewrite (proj2 (write_batch_exact batch_example budget_default Hb Hl Hbud
    (charge 2 0 (ops_size ops_example) budget_default) (batch_records 7 ops_example))).
  - reflexivity.
  - exists 7, ops_example. split; [reflexivity|]. split; [reflexivity|].
    split; [split; vm_compute; discriminate|]. split; [vm_compute; discriminate|].
    split; [vm_compute; discriminate|].
    split; [repeat constructor; vm_compute; discriminate|].
    split; [vm_compute; discriminate|]. split; [vm_compute; discriminate|]. reflexivity.
Defined.

Lemma parse_images_safe_witness :
  match parse_images images_example with
  | Ok records => Z.of_nat (size records) ≤ 65536
  | Err _ => False
  end.
Proof.
  assert (Forall (λ i, Forall is_byte (image_bytes i) ∧ blen (image_bytes i) ≤ usize_max)
    images_example) as Hi.
  { constructor; [split; [by_decide|vm_compute; discriminate]|constructor]. }
  pose proof (proj2 (parse_images_safe images_example Hi)) as H.
  assert (∃ m, parse_images images_example = Ok m) as [m Hm] by (eexists; vm_compute; reflexivity).
  rewrite Hm in H |- *. exact (proj1 (H m eq_refl)).
Defined.

Lemma merge_keeps_newest_witness :
  ∃ m, merge_records (batch_records 7 ops_example) ∅ = Ok m ∧
    newest (batch_records 7 ops_example) m.
Proof.
  eexists. split; [vm_compute; reflexivity|].
  apply (proj1 (merge_keeps_newest (batch_records 7 ops_example))). vm_compute. reflexivity.
Defined.
