(* ===== verification/History.v ===== *)
(** * The history store  (crates/storage/src/history.rs)

    The bounded, non-secret history kept by one thread that owns an SQLite
    connection: its validated records, the transactions of that thread, the
    schema it accepts, and the commands it serves.  SQLite is a class: a
    connection answers the program's statements and queries, any of which may
    fail, and [SqliteLaws] states what transactions and these statements are
    documented to do to the tables. *)
From stdpp Require Import sorting prelude.
From S2P Require Import Prelude Ordering Text Externals.
Local Open Scope Z_scope.

Definition MAX_HISTORY_IDENTIFIER_BYTES : Z := 64.
Definition MAX_HISTORY_RECORDS : Z := 25000.
Definition MAX_HISTORY_QUERY_RECORDS : Z := 1000.
Definition MAX_HISTORY_TIMESTAMP_UNIX_MS : Z := 253402300799999.
Definition MAX_HISTORY_VALUE_MICROS : Z := 9000000000000000.
Definition HISTORY_SCHEMA_VERSION : Z := 1.
Definition DEFAULT_COMMAND_CAPACITY : Z := 64.
Definition MAX_COMMAND_CAPACITY : Z := 1024.

(** Durations in nanoseconds. *)
Definition millisecond : Z := 1000000.
Definition DEFAULT_BUSY_TIMEOUT : Z := 5000 * millisecond.
Definition DEFAULT_REQUEST_TIMEOUT : Z := 5000 * millisecond.
Definition MAX_CONFIGURED_TIMEOUT : Z := 30000 * millisecond.

Definition NEWLINE : str := [10].
Definition CREATE_TABLE_SQL : str :=
  lit "CREATE TABLE history_records (" ++ NEWLINE ++
  lit "    id INTEGER PRIMARY KEY AUTOINCREMENT," ++ NEWLINE ++
  lit "    provider_id TEXT NOT NULL," ++ NEWLINE ++
  lit "    observed_at_unix_ms INTEGER NOT NULL CHECK (observed_at_unix_ms >= 0 AND observed_at_unix_ms <= 253402300799999)," ++ NEWLINE ++
  lit "    metric_id TEXT NOT NULL," ++ NEWLINE ++
  lit "    value_micros INTEGER NOT NULL CHECK (value_micros >= -9000000000000000 AND value_micros <= 9000000000000000)" ++ NEWLINE ++
  lit ") STRICT".
Definition CREATE_ORDER_INDEX_SQL : str :=
  lit "CREATE INDEX history_records_order ON history_records(observed_at_unix_ms DESC, id DESC)".

(** ** Records *)

Inductive HistoryRecordError :=
| InvalidIdentifier (maximum_bytes : Z)
| TimestampOutOfRange (value : Z)
| ValueOutOfRange (value : Z).

Module HistoryIdentifier.
Record t := mk { as_str : str }.

Definition first_byte (byte : Z) : bool := is_ascii_lower byte || is_ascii_digit byte.
Definition rest_byte (byte : Z) : bool :=
  is_ascii_lower byte || is_ascii_digit byte || ((byte =? 46) || (byte =? 95) || (byte =? 45)).
Definition new (value : str) : Result HistoryRecordError t :=
  let valid_length := negb (is_empty value) && (str_len value <=? MAX_HISTORY_IDENTIFIER_BYTES) in
  let valid_first := match as_bytes value with byte :: _ => first_byte byte | [] => false end in
  let valid_rest := forallb rest_byte (tail (as_bytes value)) in
  if negb valid_length || negb valid_first || negb valid_rest
  then Err (InvalidIdentifier MAX_HISTORY_IDENTIFIER_BYTES)
  else Ok (mk value).
End HistoryIdentifier.

Module HistoryRecord.
Record t := mk {
  provider_id : HistoryIdentifier.t;
  observed_at_unix_ms : Z;
  metric_id : HistoryIdentifier.t;
  value_micros : Z;
}.

Definition new (provider_id : str) (observed_at_unix_ms : Z) (metric_id : str)
    (value_micros : Z) : Result HistoryRecordError t :=
  if negb ((0 <=? observed_at_unix_ms) && (observed_at_unix_ms <=? MAX_HISTORY_TIMESTAMP_UNIX_MS))
  then Err (TimestampOutOfRange observed_at_unix_ms) else
  if negb ((- MAX_HISTORY_VALUE_MICROS <=? value_micros) && (value_micros <=? MAX_HISTORY_VALUE_MICROS))
  then Err (ValueOutOfRange value_micros) else
  provider_id ← HistoryIdentifier.new provider_id;
  metric_id ← HistoryIdentifier.new metric_id;
  Ok (mk provider_id observed_at_unix_ms metric_id value_micros).
End HistoryRecord.

(** ** Errors and options *)

(** A filesystem failure keeps its operation only; [SqlError] is SQLite's. *)
Inductive HistoryError (SqlError : Type) :=
| InvalidRecord (source : HistoryRecordError)
| InvalidOptions (reason : str)
| UnsafePath (reason : str)
| Io (operation : str)
| Database (operation : str) (source : SqlError)
| FutureSchema (found supported : Z)
| MalformedSchema (reason : str)
| QueueFull
| RequestTimeout
| WorkerStopped
| WorkerPanicked
| OperationSequenceExhausted
| CheckpointBusy.
Arguments InvalidRecord {_} _. Arguments InvalidOptions {_} _. Arguments UnsafePath {_} _.
Arguments Io {_} _. Arguments Database {_} _ _. Arguments FutureSchema {_} _ _.
Arguments MalformedSchema {_} _. Arguments QueueFull {_}. Arguments RequestTimeout {_}.
Arguments WorkerStopped {_}. Arguments WorkerPanicked {_}.
Arguments OperationSequenceExhausted {_}. Arguments CheckpointBusy {_}.

Module HistoryRetention.
Record t := mk { max_records : Z }.
Definition new {Q} (max_records : Z) : Result (HistoryError Q) t :=
  if max_records =? 0 then Err (InvalidOptions (lit "history retention must be nonzero")) else
  if MAX_HISTORY_RECORDS <? max_records
  then Err (InvalidOptions (lit "history retention exceeds the supported maximum")) else
  Ok (mk max_records).
Definition default : t := mk MAX_HISTORY_RECORDS.
End HistoryRetention.

Definition validate_timeout {Q} (timeout : Z) (label : str) : Result (HistoryError Q) unit :=
  if (timeout <? millisecond) || (MAX_CONFIGURED_TIMEOUT <? timeout)
  then Err (InvalidOptions label) else Ok tt.

Module HistoryStoreOptions.
Record t := mk {
  retention : HistoryRetention.t;
  command_capacity : Z;
  busy_timeout : Z;
  request_timeout : Z;
}.
Definition new (retention : HistoryRetention.t) : t :=
  mk retention DEFAULT_COMMAND_CAPACITY DEFAULT_BUSY_TIMEOUT DEFAULT_REQUEST_TIMEOUT.
Definition with_command_capacity {Q} (o : t) (capacity : Z) : Result (HistoryError Q) t :=
  if negb ((1 <=? capacity) && (capacity <=? MAX_COMMAND_CAPACITY))
  then Err (InvalidOptions (lit "history command capacity must be between 1 and 1024"))
  else Ok (mk (retention o) capacity (busy_timeout o) (request_timeout o)).
Definition with_busy_timeout {Q} (o : t) (timeout : Z) : Result (HistoryError Q) t :=
  validate_timeout timeout (lit "SQLite busy timeout") ;;
  Ok (mk (retention o) (command_capacity o) timeout (request_timeout o)).
Definition with_request_timeout {Q} (o : t) (timeout : Z) : Result (HistoryError Q) t :=
  validate_timeout timeout (lit "history request timeout") ;;
  Ok (mk (retention o) (command_capacity o) (busy_timeout o) timeout).
Definition default : t := new HistoryRetention.default.
End HistoryStoreOptions.

Definition validate_options {Q} (o : HistoryStoreOptions.t) : Result (HistoryError Q) unit :=
  if negb ((1 <=? HistoryStoreOptions.command_capacity o)
           && (HistoryStoreOptions.command_capacity o <=? MAX_COMMAND_CAPACITY))
  then Err (InvalidOptions (lit "history command capacity must be between 1 and 1024")) else
  validate_timeout (HistoryStoreOptions.busy_timeout o) (lit "SQLite busy timeout") ;;
  validate_timeout (HistoryStoreOptions.request_timeout o) (lit "history request timeout").

(** ** The database *)

(** The columns of a row, before they are checked. *)
Record RowData := mk_data {
  data_provider_id : str;
  data_observed_at_unix_ms : Z;
  data_metric_id : str;
  data_value_micros : Z;
}.
Record Row := mk_row { row_id : Z; row_data : RowData }.
Record SchemaObject := mk_object {
  object_type : str;
  object_name : str;
  object_sql : option str;
}.
(** The [user_version] pragma, [sqlite_schema], the history table and the
    largest id AUTOINCREMENT has given out. *)
Record HistoryTables := mk_database {
  user_version : Z;
  schema : list SchemaObject;
  rows : list Row;
  last_id : Z;
}.

(** [ORDER BY observed_at_unix_ms DESC, id DESC] *)
Definition order_key (r : Row) : Reverse (Z * Z) :=
  mk_reverse (data_observed_at_unix_ms (row_data r), row_id r).
Definition newest_first (l : list Row) : list Row := sort_by_key order_key l.

(** [name LIKE 'sqlite_%']: the underscore stands for any one character, and
    letters compare without case. *)
Definition lower (c : Z) : Z := if is_ascii_upper c then c + 32 else c.
Definition like_sqlite (name : str) : bool :=
  bool_decide (lower <$> take 6 name = lit "sqlite") && (6 <? Z.of_nat (length name)).
Definition application_objects (l : list SchemaObject) : list SchemaObject :=
  filter (λ o, like_sqlite (object_name o) = false) l.
Definition unexpected_objects (l : list SchemaObject) : list SchemaObject :=
  filter (λ o, object_name o ≠ lit "history_records" ∧ object_name o ≠ lit "history_records_order")
    (application_objects l).
(** [SELECT sql FROM sqlite_schema WHERE type=.. AND name=..] *)
Definition schema_sql (type name : str) (l : list SchemaObject) : option (option str) :=
  object_sql <$> head (filter (λ o, object_type o = type ∧ object_name o = name) l).

(** The statements the program executes. *)
Inductive Statement :=
| CreateTable
| CreateOrderIndex
| SetUserVersion (version : Z)
| InsertRecord (data : RowData)
| PruneRecords (max_records : Z).

Definition data_checked (data : RowData) : bool :=
  ((0 <=? data_observed_at_unix_ms data) && (data_observed_at_unix_ms data <=? 253402300799999))
  && ((-9000000000000000 <=? data_value_micros data) && (data_value_micros data <=? 9000000000000000)).

(** [id IN (SELECT id .. LIMIT -1 OFFSET max_records)] *)
Definition pruned (max_records : Z) (l : list Row) : list Z :=
  row_id <$> drop (Z.to_nat max_records) (newest_first l).

(** What a statement does to the database and the number of rows it reports;
    [None] when it must fail. *)
Definition apply_statement (statement : Statement) (d : HistoryTables) : option (HistoryTables * Z) :=
  match statement with
  | CreateTable => Some (mk_database (user_version d)
      (schema d ++ [mk_object (lit "table") (lit "history_records") (Some CREATE_TABLE_SQL)])
      [] (last_id d), 0)
  | CreateOrderIndex => Some (mk_database (user_version d)
      (schema d ++ [mk_object (lit "index") (lit "history_records_order") (Some CREATE_ORDER_INDEX_SQL)])
      (rows d) (last_id d), 0)
  | SetUserVersion version => Some (mk_database version (schema d) (rows d) (last_id d), 0)
  | InsertRecord data =>
      if data_checked data then
        id ← checked_add i64_max (last_id d) 1;
        Some (mk_database (user_version d) (schema d) (rows d ++ [mk_row id data]) id, 1)
      else None
  | PruneRecords max_records =>
      let ids := pruned max_records (rows d) in
      Some (mk_database (user_version d) (schema d)
        (filter (λ r, row_id r ∉ ids) (rows d)) (last_id d), Z.of_nat (length ids))
  end.

(** The rows and pragmas the program asks for; [E] is SQLite's error, which may
    end the iteration over rows. *)
Inductive Query (E : Type) : Type → Type :=
| UserVersion : Query E Z
| ApplicationObjects : Query E Z
| IntegrityCheck : Query E str
| TableSql : Query E (option str)
| IndexSql : Query E (option str)
| UnexpectedObjects : Query E Z
| EnableWal : Query E str
| JournalMode : Query E str
| ForeignKeys : Query E Z
| BusyTimeout : Query E Z
| RowCount : Query E Z
| PrepareLatest : Query E unit
| QueryLatest (limit : Z) : Query E (list RowData * option E)
| WalCheckpoint : Query E Z.
Arguments UserVersion {_}. Arguments ApplicationObjects {_}. Arguments IntegrityCheck {_}.
Arguments TableSql {_}. Arguments IndexSql {_}. Arguments UnexpectedObjects {_}.
Arguments EnableWal {_}. Arguments JournalMode {_}. Arguments ForeignKeys {_}.
Arguments BusyTimeout {_}. Arguments RowCount {_}. Arguments PrepareLatest {_}.
Arguments QueryLatest {_} _. Arguments WalCheckpoint {_}.

(** What an answer says about the database it was computed from; pragmas of
    the connection say nothing about it. *)
Definition answers {E T} (q : Query E T) (d : HistoryTables) : T → Prop :=
  match q in Query _ T return T → Prop with
  | UserVersion => λ version, version = user_version d
  | ApplicationObjects => λ count, count = Z.of_nat (length (application_objects (schema d)))
  | TableSql => λ sql, Some <$> sql = schema_sql (lit "table") (lit "history_records") (schema d)
  | IndexSql => λ sql, Some <$> sql = schema_sql (lit "index") (lit "history_records_order") (schema d)
  | UnexpectedObjects => λ count, count = Z.of_nat (length (unexpected_objects (schema d)))
  | RowCount => λ count, count = Z.of_nat (length (rows d))
  | QueryLatest limit => λ '(read, failure),
      read `prefix_of` (row_data <$> take (Z.to_nat limit) (newest_first (rows d))) ∧
      (failure = None → read = row_data <$> take (Z.to_nat limit) (newest_first (rows d)))
  | _ => λ _, True
  end.

(** A connection of [rusqlite], and the calls made on it. *)
Class Sqlite (C E : Type) := {
  set_busy_timeout (timeout : Z) : C → C * Result E unit;
  enable_foreign_keys : C → C * Result E unit;
  begin_transaction : C → C * Result E unit;
  execute_statement (statement : Statement) : C → C * Result E Z;
  commit_transaction : C → C * Result E unit;
  (** [Drop for Transaction] *)
  rollback_transaction : C → C;
  run_query {T} (q : Query E T) : C → C * Result E T;
}.

(** Transactions are atomic and durable, a failed statement changes nothing, and
    nobody else writes the file.  [durable] is what is committed, [working] what
    the connection sees. *)
Class SqliteLaws C E `{Sqlite C E} := {
  durable : C → HistoryTables;
  working : C → HistoryTables;
  set_busy_timeout_law t c c' r : set_busy_timeout t c = (c', r) →
    durable c' = durable c ∧ working c' = working c;
  enable_foreign_keys_law c c' r : enable_foreign_keys c = (c', r) →
    durable c' = durable c ∧ working c' = working c;
  begin_law c c' r : begin_transaction c = (c', r) →
    durable c' = durable c ∧ working c' = working c;
  execute_law s c c' r : execute_statement s c = (c', r) → durable c' = durable c ∧
    match r with
    | Ok count => apply_statement s (working c) = Some (working c', count)
    | Err _ => working c' = working c
    end;
  commit_law c c' r : commit_transaction c = (c', r) → working c' = working c ∧
    durable c' = match r with Ok _ => working c | Err _ => durable c end;
  rollback_law c : durable (rollback_transaction c) = durable c ∧
    working (rollback_transaction c) = durable c;
  query_law T (q : Query E T) c c' r : run_query q c = (c', r) →
    durable c' = durable c ∧ working c' = working c ∧
    match r with Ok a => answers q (working c) a | Err _ => True end;
}.

(** ** The storage thread's operations *)

(** [ThreadId] is a number. *)
Record StorageExecution := mk_execution { owner_thread_id : Z; operation_sequence : Z }.
Record InsertReceipt := mk_receipt { receipt_execution : StorageExecution; pruned_records : Z }.
Record HistoryQuery := mk_query {
  records : list HistoryRecord.t;
  query_execution : StorageExecution;
}.
Record HistoryStatus := mk_status {
  journal_mode : str;
  foreign_keys_enabled : bool;
  busy_timeout_ms : Z;
  schema_version : Z;
  row_count : Z;
  status_execution : StorageExecution;
}.

Section worker.
Context {C E : Type} `{Sqlite C E}.

(** A method on the connection, and a call of SQLite with its error mapped. *)
Local Notation Conn := (SE C (HistoryError E)).
Definition database_error {A} (operation : str) (call : C → C * Result E A) : Conn A :=
  λ c, let '(c, r) := call c in (c, map_err (Database operation) r).
(** [connection.transaction()?; body?; transaction.commit()?], the transaction
    being rolled back when it is dropped uncommitted. *)
Definition with_transaction {A} (begin commit : str) (body : Conn A) : Conn A :=
  database_error begin begin_transaction ;;
  ((λ c, match (a ← body; database_error commit commit_transaction ;; mret a) c with
         | (c, Ok a) => (c, Ok a)
         | (c, Err e) => (rollback_transaction c, Err e)
         end) : Conn A).

Definition data_of (record : HistoryRecord.t) : RowData :=
  mk_data (HistoryIdentifier.as_str (HistoryRecord.provider_id record))
    (HistoryRecord.observed_at_unix_ms record)
    (HistoryIdentifier.as_str (HistoryRecord.metric_id record))
    (HistoryRecord.value_micros record).
Definition record_of (data : RowData) : Result HistoryRecordError HistoryRecord.t :=
  HistoryRecord.new (data_provider_id data) (data_observed_at_unix_ms data)
    (data_metric_id data) (data_value_micros data).

(** [u32::try_from], [u64::try_from] of an [i64] *)
Definition unsigned (top : Z) (reason : str) (value : Z) : Result (HistoryError E) Z :=
  if (0 <=? value) && (value <=? top) then Ok value else Err (MalformedSchema reason).

Definition insert_record (record : HistoryRecord.t) : Conn unit :=
  database_error (lit "insert history record") (execute_statement (InsertRecord (data_of record))) ;;
  mret tt.
Definition prune_records (retention : HistoryRetention.t) : Conn Z :=
  removed ← database_error (lit "apply history retention")
    (execute_statement (PruneRecords (HistoryRetention.max_records retention)));
  se_lift (unsigned u32_max (lit "retention removed an unrepresentable row count") removed).
Definition enforce_retention (retention : HistoryRetention.t) : Conn unit :=
  with_transaction (lit "begin startup retention transaction") (lit "commit startup retention transaction")
    (prune_records retention ;; mret tt).

Fixpoint read_rows (data : list RowData) (failure : option E)
    (records : list HistoryRecord.t) : Result (HistoryError E) (list HistoryRecord.t) :=
  match data, failure with
  | [], None => Ok records
  | [], Some source => Err (Database (lit "read history row") source)
  | d :: data, _ =>
      record ← map_err InvalidRecord (record_of d);
      read_rows data failure (records ++ [record])
  end.
Definition query_latest (limit : Z) : Conn (list HistoryRecord.t) :=
  database_error (lit "prepare history query") (run_query PrepareLatest) ;;
  '(data, failure) ← database_error (lit "query history") (run_query (QueryLatest limit));
  se_lift (read_rows data failure []).

Definition read_schema_version : Conn Z :=
  version ← database_error (lit "read schema version") (run_query UserVersion);
  se_lift (unsigned u32_max (lit "history schema version is not an unsigned 32-bit integer") version).
Definition read_status (execution : StorageExecution) : Conn HistoryStatus :=
  journal_mode ← database_error (lit "read journal mode") (run_query JournalMode);
  foreign_keys ← database_error (lit "read foreign-key setting") (run_query ForeignKeys);
  busy_timeout_ms ← database_error (lit "read busy timeout") (run_query BusyTimeout);
  row_count ← database_error (lit "count history records") (run_query RowCount);
  busy_timeout_ms ← se_lift (unsigned u64_max (lit "SQLite returned a negative busy timeout") busy_timeout_ms);
  schema_version ← read_schema_version;
  row_count ← se_lift (unsigned u32_max (lit "history row count exceeds the supported bound") row_count);
  mret (mk_status (lower <$> journal_mode) (foreign_keys =? 1) busy_timeout_ms schema_version
          row_count execution).

Definition migrate_schema (version : Z) : Conn unit :=
  if version =? 0 then
    application_objects ← database_error (lit "inspect unversioned schema") (run_query ApplicationObjects);
    if negb (application_objects =? 0)
    then se_fail (MalformedSchema (lit "unversioned database contains application objects")) else
    with_transaction (lit "begin schema migration") (lit "commit schema migration")
      (database_error (lit "create history table") (execute_statement CreateTable) ;;
       database_error (lit "create history index") (execute_statement CreateOrderIndex) ;;
       database_error (lit "write schema version") (execute_statement (SetUserVersion HISTORY_SCHEMA_VERSION)) ;;
       mret tt)
  else if version =? HISTORY_SCHEMA_VERSION then mret tt
  else se_fail (MalformedSchema (lit "no migration exists for the declared schema version")).

Definition verify_schema : Conn unit :=
  integrity ← database_error (lit "check database integrity") (run_query IntegrityCheck);
  if negb (bool_decide (integrity = lit "ok"))
  then se_fail (MalformedSchema (lit "SQLite integrity check failed")) else
  table_sql ← database_error (lit "verify history table") (run_query TableSql);
  if negb (bool_decide (table_sql = Some CREATE_TABLE_SQL))
  then se_fail (MalformedSchema (lit "history table definition differs from the supported schema")) else
  index_sql ← database_error (lit "verify history index") (run_query IndexSql);
  if negb (bool_decide (index_sql = Some CREATE_ORDER_INDEX_SQL))
  then se_fail (MalformedSchema (lit "history ordering index differs from the supported schema")) else
  unexpected ← database_error (lit "verify schema objects") (run_query UnexpectedObjects);
  if negb (unexpected =? 0)
  then se_fail (MalformedSchema (lit "history database contains unexpected schema objects"))
  else mret tt.

(** [initialize_connection] from the verification on, and from the opened
    connection on. *)
Definition settle_connection (owner_thread_id : Z) (retention : HistoryRetention.t) : Conn unit :=
  verify_schema ;;
  mode ← database_error (lit "enable WAL") (run_query EnableWal);
  if negb (bool_decide (lower <$> mode = lit "wal"))
  then se_fail (MalformedSchema (lit "SQLite did not accept WAL journal mode")) else
  enforce_retention retention ;;
  status ← read_status (mk_execution owner_thread_id 0);
  if negb (bool_decide (journal_mode status = lit "wal"))
     || negb (foreign_keys_enabled status)
     || negb (schema_version status =? HISTORY_SCHEMA_VERSION)
  then se_fail (MalformedSchema (lit "required SQLite pragmas were not active"))
  else mret tt.
Definition configure_connection (owner_thread_id busy_timeout : Z)
    (retention : HistoryRetention.t) : Conn unit :=
  database_error (lit "set busy timeout") (set_busy_timeout busy_timeout) ;;
  database_error (lit "enable foreign keys") enable_foreign_keys ;;
  version ← read_schema_version;
  if HISTORY_SCHEMA_VERSION <? version
  then se_fail (FutureSchema version HISTORY_SCHEMA_VERSION) else
  migrate_schema version ;;
  settle_connection owner_thread_id retention.

Definition shutdown_connection : Conn unit :=
  busy ← database_error (lit "checkpoint WAL during shutdown") (run_query WalCheckpoint);
  if busy =? 0 then mret tt else se_fail CheckpointBusy.
End worker.

(** The thread's state, and the handlers of its commands. *)
Module WorkerState.
Section state.
Context {C E : Type} `{Sqlite C E}.
Local Notation Conn := (SE C (HistoryError E)).

Record t := mk {
  connection : C;
  retention : HistoryRetention.t;
  owner_thread_id : Z;
  operation_sequence : Z;
}.
Definition on_connection {A} (m : Conn A) : SE t (HistoryError E) A := λ w,
  let '(c, r) := m (connection w) in
  (mk c (retention w) (owner_thread_id w) (operation_sequence w), r).

Definition next_execution : SE t (HistoryError E) StorageExecution := λ w,
  match checked_add u64_max (operation_sequence w) 1 with
  | None => (w, Err OperationSequenceExhausted)
  | Some sequence =>
      (mk (connection w) (retention w) (owner_thread_id w) sequence,
       Ok (mk_execution (owner_thread_id w) sequence))
  end.
Definition insert (record : HistoryRecord.t) : SE t (HistoryError E) InsertReceipt :=
  execution ← next_execution;
  retention ← se_gets retention;
  pruned_records ← on_connection
    (with_transaction (lit "begin insert transaction") (lit "commit insert transaction")
      (insert_record record ;; prune_records retention));
  mret (mk_receipt execution pruned_records).
Definition latest (limit : Z) : SE t (HistoryError E) HistoryQuery :=
  execution ← next_execution;
  records ← on_connection (query_latest limit);
  mret (mk_query records execution).
Definition status : SE t (HistoryError E) HistoryStatus :=
  execution ← next_execution;
  on_connection (read_status execution).

(** A command without its reply channel, and what is sent on that channel. *)
Inductive Command :=
| Insert (record : HistoryRecord.t)
| Latest (limit : Z)
| Status.
Inductive Reply :=
| Inserted (result : Result (HistoryError E) InsertReceipt)
| Found (result : Result (HistoryError E) HistoryQuery)
| Reported (result : Result (HistoryError E) HistoryStatus).

(** The body of the loop of [worker_main] once a command was received. *)
Definition handle (command : Command) (w : t) : t * Reply :=
  match command with
  | Insert record => let '(w, result) := insert record w in (w, Inserted result)
  | Latest limit => let '(w, result) := latest limit w in (w, Found result)
  | Status => let '(w, result) := status w in (w, Reported result)
  end.
Fixpoint handle_all (commands : list Command) (w : t) : t * list Reply :=
  match commands with
  | [] => (w, [])
  | command :: commands =>
      let '(w, reply) := handle command w in
      let '(w, replies) := handle_all commands w in (w, reply :: replies)
  end.
End state.
Arguments t _ : clear implicits.
Arguments Reply _ : clear implicits.
End WorkerState.

(** ** What the store promises

    An archive remembers every row that was ever inserted; the database holds
    the newest [k] of them. *)
Definition retained (k : nat) (all : list Row) : list Row := take k (newest_first all).

Record archived (k : nat) (d : HistoryTables) (all : list Row) : Prop := {
  archived_rows : rows d ≡ₚ retained k all;
  archived_ids : NoDup (row_id <$> all);
  archived_last : Forall (λ r, row_id r ≤ last_id d) all;
}.

(** ** Retention keeps the newest rows *)

Lemma take_insert_by {A} (c : A → A → comparison) x l k :
  take k (insert_by c x (take k l)) = take k (insert_by c x l).
Proof.
  revert l. induction k as [|k IH]; intros l; [done|].
  destruct l as [|y l]; [done|]. cbn [take insert_by]. destruct (le_by c x y).
  - cbn [take]. f_equal. destruct k as [|k]; [done|]. cbn [take]. by rewrite take_take, Nat.min_l by lia.
  - cbn [take]. by rewrite IH.
Qed.

Lemma order_keys_NoDup l : NoDup (row_id <$> l) → NoDup (order_key <$> l).
Proof.
  induction l as [|r l IH]; [constructor|]. rewrite !fmap_cons, !NoDup_cons. intros [Hr Hl].
  split; [|by apply IH]. intros (r' & [= E1 E2] & Hin)%list_elem_of_fmap. apply Hr.
  rewrite E2. by apply list_elem_of_fmap_2.
Qed.

Lemma newest_first_perm l : newest_first l ≡ₚ l.
Proof. apply sort_by_key_perm. Qed.
Lemma newest_first_unique l l' :
  NoDup (row_id <$> l) → l ≡ₚ l' → newest_first l = newest_first l'.
Proof. intros Hl. apply sort_by_key_unique. by apply order_keys_NoDup. Qed.
Lemma newest_first_snoc l r :
  NoDup (row_id <$> l ++ [r]) →
  newest_first (l ++ [r]) = insert_by (cmp_on order_key) r (newest_first l).
Proof.
  intros Hl. rewrite (newest_first_unique _ (r :: l) Hl); [done|].
  by rewrite Permutation_app_comm.
Qed.
Lemma retained_NoDup k l : NoDup (row_id <$> l) → NoDup (row_id <$> retained k l).
Proof.
  intros Hl. unfold retained. rewrite <-(newest_first_perm l) in Hl.
  rewrite <-(take_drop k (newest_first l)), fmap_app in Hl. by apply NoDup_app in Hl as [? _].
Qed.

(** The rows kept are already in order. *)
Lemma newest_first_retained k l :
  NoDup (row_id <$> l) → newest_first (retained k l) = retained k l.
Proof.
  intros Hl. apply sort_by_key_id. apply order_keys_NoDup in Hl.
  pose proof (sort_by_key_strict order_key l Hl) as Hs. unfold retained, newest_first, strictly_sorted in *.
  rewrite <-(take_drop k) in Hs. by apply StronglySorted_app_1_l in Hs.
Qed.
Lemma retained_rows k d all :
  archived k d all → newest_first (rows d) = retained k all.
Proof.
  intros [Hr Hi _]. rewrite <-(newest_first_retained k all Hi). symmetry.
  by apply newest_first_unique; [apply retained_NoDup|symmetry].
Qed.

Lemma filter_keeps {A} (P : A → Prop) `{∀ x, Decision (P x)} l : Forall P l → filter P l = l.
Proof. induction 1 as [|x l Hx Hl IH]; [done|]. by rewrite filter_cons_True, IH. Qed.
Lemma filter_drops {A} (P : A → Prop) `{∀ x, Decision (P x)} l :
  Forall (λ x, ¬ P x) l → filter P l = [].
Proof. induction 1 as [|x l Hx Hl IH]; [done|]. by rewrite filter_cons_False. Qed.

Lemma filter_pruned k l :
  NoDup (row_id <$> l) →
  filter (λ r, row_id r ∉ pruned (Z.of_nat k) l) l ≡ₚ retained k l.
Proof.
  intros Hl. unfold pruned, retained. rewrite Nat2Z.id.
  pose proof (newest_first_perm l) as Hp. rewrite <-Hp in Hl.
  assert (∀ ids : list Z, filter (λ r, row_id r ∉ ids) l ≡ₚ filter (λ r, row_id r ∉ ids) (newest_first l)) as Hf
    by (intros ids; by rewrite Hp).
  rewrite Hf. clear Hf Hp. revert Hl. generalize (newest_first l). intros s Hl.
  trans (filter (λ r, row_id r ∉ row_id <$> drop k s) (take k s ++ drop k s)); [by rewrite take_drop|].
  rewrite filter_app.
  rewrite <-(take_drop k s), fmap_app in Hl. apply NoDup_app in Hl as (_ & Hd & _).
  rewrite filter_keeps, filter_drops, app_nil_r; [done| |].
  - apply Forall_forall. intros r Hr Hn. apply Hn. by apply list_elem_of_fmap_2.
  - apply Forall_forall. intros r Hr. apply Hd. by apply list_elem_of_fmap_2.
Qed.

Lemma length_retained k l : length (retained k l) = Nat.min k (length l).
Proof. unfold retained. by rewrite length_take, newest_first_perm. Qed.
Lemma archived_length k d all :
  archived k d all → length (rows d) = Nat.min k (length all).
Proof. intros [Hr _ _]. by rewrite Hr, length_retained. Qed.

Lemma apply_prune k d d' n :
  NoDup (row_id <$> rows d) → apply_statement (PruneRecords (Z.of_nat k)) d = Some (d', n) →
  rows d' ≡ₚ retained k (rows d) ∧ last_id d' = last_id d ∧
  n = Z.of_nat (length (rows d) - k).
Proof.
  cbn. intros Hl [= <- <-]. split; [by apply filter_pruned|]. split; [done|].
  unfold pruned. by rewrite length_fmap, length_drop, newest_first_perm, Nat2Z.id.
Qed.

(** Pruning a table of distinct rows makes it an archive of them. *)
Lemma archived_pruned k d d' n :
  NoDup (row_id <$> rows d) → Forall (λ r, row_id r ≤ last_id d) (rows d) →
  apply_statement (PruneRecords (Z.of_nat k)) d = Some (d', n) →
  archived k d' (rows d).
Proof.
  intros Hl Hi Hd. destruct (apply_prune k d d' n Hl Hd) as (Hr & Hlast & _).
  split; [done..|]. by rewrite Hlast.
Qed.

(** Inserting a row and pruning is archiving it. *)
Lemma archived_insert k d all data d1 n1 d2 n2 :
  archived k d all →
  apply_statement (InsertRecord data) d = Some (d1, n1) →
  apply_statement (PruneRecords (Z.of_nat k)) d1 = Some (d2, n2) →
  archived k d2 (all ++ [mk_row (last_id d1) data]) ∧ last_id d1 = last_id d + 1 ∧
  n2 = Z.of_nat (Nat.min k (length all) + 1 - Nat.min k (length all + 1)).
Proof.
  intros Ha H1 H2. pose proof (retained_rows k d all Ha) as Hn. pose proof (archived_length k d all Ha) as Hlen.
  destruct Ha as [Hr Hi Hl].
  cbn in H1. destruct (data_checked data); [|done].
  destruct (checked_add i64_max (last_id d) 1) as [id|] eqn:Hid; [|done].
  apply checked_add_Some in Hid as [-> _]. injection H1 as <- <-. cbn [last_id].
  assert (∀ l, Forall (λ r, row_id r ≤ last_id d) l → NoDup (row_id <$> l) →
    NoDup (row_id <$> l ++ [mk_row (last_id d + 1) data])) as Hfresh.
  { intros l HFl HNl. rewrite fmap_app. apply NoDup_app. split; [done|]. split; [|apply NoDup_singleton].
    intros i (r & -> & Hin)%list_elem_of_fmap Hi1. cbn in Hi1. apply list_elem_of_singleton in Hi1.
    rewrite Forall_forall in HFl. specialize (HFl r Hin). cbn in *. lia. }
  assert (Forall (λ r, row_id r ≤ last_id d) (rows d)) as Hl'.
  { rewrite Hr. unfold retained. apply Forall_take. by rewrite newest_first_perm. }
  assert (NoDup (row_id <$> rows d)) as Hi' by (rewrite Hr; by apply retained_NoDup).
  apply apply_prune in H2 as (Hr2 & Hlast & ->); [|by apply Hfresh]. cbn [rows last_id] in *.
  split; [split|split; [done|]].
  - rewrite Hr2. unfold retained. rewrite (newest_first_snoc (rows d)), (newest_first_snoc all) by by apply Hfresh.
    rewrite Hn. unfold retained. by rewrite take_insert_by.
  - by apply Hfresh.
  - rewrite Hlast. apply Forall_app. split; [|by repeat constructor].
    eapply Forall_impl; [exact Hl|]. cbn. lia.
  - f_equal. rewrite length_app. cbn. lia.
Qed.

(** ** Computations on the connection *)

Section connection.
Context {C E : Type} `{SqliteLaws C E}.
Local Notation Conn := (SE C (HistoryError E)).

(** Outside a transaction the connection sees what is committed. *)
Definition idle (c : C) : Prop := working c = durable c.

(** [m] commits nothing; a success turns the database it sees as [P] says, an
    error satisfies [F]. *)
Definition writes {A} (m : Conn A) (P : HistoryTables → A → HistoryTables → Prop)
    (F : HistoryError E → Prop) : Prop :=
  ∀ c c' r, m c = (c', r) → durable c' = durable c ∧
    match r with Ok a => P (working c) a (working c') | Err e => F e end.
(** [m] changes nothing. *)
Definition reads {A} (m : Conn A) (Q : HistoryTables → A → Prop)
    (F : HistoryTables → HistoryError E → Prop) : Prop :=
  ∀ c c' r, m c = (c', r) → durable c' = durable c ∧ working c' = working c ∧
    match r with Ok a => Q (working c) a | Err e => F (working c) e end.

Definition sql_failure (e : HistoryError E) : Prop := ∃ operation source, e = Database operation source.

Lemma writes_execute op s :
  writes (database_error op (execute_statement s))
    (λ d n d', apply_statement s d = Some (d', n)) sql_failure.
Proof.
  intros c c' r. unfold database_error.
  destruct (execute_statement s c) as [c1 [n|e]] eqn:Hx; cbn; intros [= <- <-];
    destruct (execute_law _ _ _ _ Hx) as [-> Hr]; split; [done..| |by do 2 eexists]; done.
Qed.
Lemma writes_bind {A B} (m : Conn A) (k : A → Conn B) P Q R F :
  writes m P F → (∀ a, writes (k a) (Q a) F) →
  (∀ d a d1 b d2, P d a d1 → Q a d1 b d2 → R d b d2) → writes (m ≫= k) R F.
Proof.
  intros Hm Hk HR c c' r Hr. unfold mbind, SE_bind in Hr.
  destruct (m c) as [c1 [a|e]] eqn:Hc.
  - destruct (Hm _ _ _ Hc) as [Hd Hp]. destruct (Hk _ _ _ _ Hr) as [Hd' Hq].
    split; [by rewrite Hd', Hd|]. destruct r; [by eapply HR|done].
  - injection Hr as <- <-. exact (Hm _ _ _ Hc).
Qed.
Lemma writes_ret {A} (a : A) F : writes (mret a) (λ d a' d', a' = a ∧ d' = d) F.
Proof. by intros c c' r [= <- <-]. Qed.
Lemma writes_lift {A} (m : Result (HistoryError E) A) (F : HistoryError E → Prop) :
  (∀ e, m = Err e → F e) → writes (se_lift m) (λ d a d', m = Ok a ∧ d' = d) F.
Proof. intros HF c c' r [= <- <-]. split; [done|]. destruct m; [done|by apply HF]. Qed.
Lemma writes_mono {A} (m : Conn A) (P Q : HistoryTables → A → HistoryTables → Prop) (F G : HistoryError E → Prop) :
  writes m P F → (∀ d a d', P d a d' → Q d a d') → (∀ e, F e → G e) → writes m Q G.
Proof. intros Hm HP HF c c' r Hr. destruct (Hm _ _ _ Hr) as [? Hp]. split; [done|]. destruct r; auto. Qed.

(** A transaction commits all of its body or nothing. *)
Lemma with_transaction_spec {A} op1 op2 (body : Conn A) P F c c' r :
  writes body P F → idle c → with_transaction op1 op2 body c = (c', r) →
  idle c' ∧ match r with
            | Ok a => P (durable c) a (durable c')
            | Err e => durable c' = durable c ∧ (F e ∨ sql_failure e)
            end.
Proof.
  intros Hb Hc. unfold with_transaction, database_error, mbind, SE_bind.
  destruct (begin_transaction c) as [c0 r0] eqn:Hbeg. destruct (begin_law _ _ _ Hbeg) as [Hd Hw]. destruct r0 as [u|e];
    unfold idle in *; cbn.
  - destruct (body c0) as [c1 [a|e]] eqn:Hrun; destruct (Hb _ _ _ Hrun) as [Hd1 Hp].
    + rewrite Hw, Hc in Hp. destruct (commit_transaction c1) as [c2 r2] eqn:Hcom;
        destruct (commit_law _ _ _ Hcom) as [Hw2 Hd2]; destruct r2 as [u2|e]; cbn.
      all: intros [= <- <-].
      * by rewrite Hd2.
      * destruct (rollback_law c2) as [-> ->]. split; [done|]. split; [congruence|]. right. by do 2 eexists.
    + intros [= <- <-]. destruct (rollback_law c1) as [-> ->]. split; [done|]. split; [congruence|by left].
  - intros [= <- <-]. split; [congruence|]. split; [done|]. right. by do 2 eexists.
Qed.

Lemma reads_query {T} op (q : Query E T) :
  reads (database_error op (run_query q)) (answers q) (λ _, sql_failure).
Proof.
  intros c c' r. unfold database_error.
  destruct (run_query q c) as [c1 [a|e]] eqn:Hx; cbn; intros [= <- <-];
    destruct (query_law _ _ _ _ _ Hx) as (-> & -> & Hr); split; [done| |done|]; split; [done..|].
  by do 2 eexists.
Qed.
Lemma reads_bind {A B} (m : Conn A) (k : A → Conn B) P Q R F G :
  reads m P F → (∀ a, reads (k a) (Q a) (G a)) →
  (∀ d a b, P d a → Q a d b → R d b) → (∀ d a e, P d a → G a d e → F d e) → reads (m ≫= k) R F.
Proof.
  intros Hm Hk HR HF c c' r Hr. unfold mbind, SE_bind in Hr.
  destruct (m c) as [c1 [a|e]] eqn:Hc; destruct (Hm _ _ _ Hc) as (Hd & Hw & Hp).
  - destruct (Hk _ _ _ _ Hr) as (Hd' & Hw' & Hq). split; [by rewrite Hd'|]. split; [by rewrite Hw'|].
    rewrite Hw in Hq. destruct r; eauto.
  - by injection Hr as <- <-.
Qed.
Lemma reads_lift {A} (m : Result (HistoryError E) A) :
  reads (se_lift m) (λ _ a, m = Ok a) (λ _ e, m = Err e).
Proof. by intros c c' r [= <- <-]; destruct m. Qed.
Lemma reads_ret {A} (a : A) F : reads (mret a) (λ _ b, b = a) F.
Proof. by intros c c' r [= <- <-]. Qed.
Lemma reads_fail {A} (e : HistoryError E) : reads (A:=A) (se_fail e) (λ _ _, False) (λ _ e', e' = e).
Proof. by intros c c' r [= <- <-]. Qed.
Lemma reads_mono {A} (m : Conn A) (P Q : HistoryTables → A → Prop) (F G : HistoryTables → HistoryError E → Prop) :
  reads m P F → (∀ d a, P d a → Q d a) → (∀ d e, F d e → G d e) → reads m Q G.
Proof. intros Hm HP HF c c' r Hr. destruct (Hm _ _ _ Hr) as (? & ? & ?). split; [done|]. split; [done|]. destruct r; auto. Qed.
End connection.

(** ** What each operation does *)

Lemma identifier_of value i : HistoryIdentifier.new value = Ok i → HistoryIdentifier.as_str i = value.
Proof. unfold HistoryIdentifier.new. case_match; [done|]. by intros [= <-]. Qed.
Lemma data_of_record data h : record_of data = Ok h → data_of h = data.
Proof.
  unfold record_of, HistoryRecord.new. repeat (case_match; [done|]).
  intros (p & Hp & (m & Hm & [= <-])%bind_Ok)%bind_Ok. unfold data_of. cbn.
  rewrite (identifier_of _ _ Hp), (identifier_of _ _ Hm). by destruct data.
Qed.

Section operations.
Context {C E : Type} `{SqliteLaws C E}.
Local Notation Conn := (SE C (HistoryError E)).

(** SQLite failed, or answered with a number or schema out of range. *)
Definition failure (e : HistoryError E) : Prop := sql_failure e ∨ ∃ reason, e = MalformedSchema reason.
(** A stored row is not a record of this program. *)
Definition invalid_row (l : list Row) (e : HistoryError E) : Prop :=
  ∃ r x, r ∈ l ∧ record_of (row_data r) = Err x ∧ e = InvalidRecord x.

Lemma unsigned_Ok top reason v n : unsigned (E:=E) top reason v = Ok n ↔ n = v ∧ 0 ≤ v ≤ top.
Proof.
  unfold unsigned. destruct (Z.leb_spec 0 v), (Z.leb_spec v top); cbn; split; try done;
    try (intros [= <-]; lia); intros [? ?]; subst; try lia; done.
Qed.
Lemma unsigned_failure top reason v e : unsigned top reason v = Err e → failure e.
Proof. unfold unsigned. case_match; [done|]. intros [= <-]. right. by eexists. Qed.

Lemma writes_prune retention :
  writes (prune_records retention)
    (λ d n d', apply_statement (PruneRecords (HistoryRetention.max_records retention)) d = Some (d', n)) failure.
Proof.
  eapply writes_bind.
  - eapply writes_mono; [apply writes_execute|done|by left].
  - intros n. apply writes_lift. intros e. apply unsigned_failure.
  - intros d n d1 m d2 Hd [Hm ->]. by apply unsigned_Ok in Hm as [-> _].
Qed.
Lemma writes_insert record retention :
  writes (insert_record record;; prune_records retention)
    (λ d n d', ∃ d1 n1, apply_statement (InsertRecord (data_of record)) d = Some (d1, n1) ∧
       apply_statement (PruneRecords (HistoryRetention.max_records retention)) d1 = Some (d', n)) failure.
Proof.
  eapply (writes_bind _ _ (λ d _ d', ∃ n, apply_statement (InsertRecord (data_of record)) d = Some (d', n))).
  - eapply writes_bind.
    + eapply writes_mono; [apply writes_execute|done|by left].
    + intros n. apply writes_ret.
    + intros d n d1 [] d2 Hd [_ ->]. by eexists.
  - intros a. apply writes_prune.
  - intros d [] d1 n d2 [n1 H1] H2. by do 2 eexists.
Qed.

Lemma read_rows_spec data (fail : option E) acc :
  match read_rows data fail acc with
  | Ok l => fail = None ∧ data_of <$> l = (data_of <$> acc) ++ data
  | Err e => sql_failure e ∨ ∃ d x, d ∈ data ∧ record_of d = Err x ∧ e = InvalidRecord x
  end.
Proof.
  revert acc. induction data as [|d data IH]; intros acc; cbn.
  - destruct fail; [left; by do 2 eexists|]. by rewrite app_nil_r.
  - destruct (record_of d) as [h|x] eqn:Hd; cbn.
    + specialize (IH (acc ++ [h])). destruct (read_rows data fail (acc ++ [h])).
      * destruct IH as [-> ->]. split; [done|]. rewrite fmap_app, <-app_assoc. cbn.
        by rewrite (data_of_record d h).
      * destruct IH as [?|(d' & x & ? & ?)]; [by left|]. right. exists d', x. split; [by right|done].
    + right. exists d, x. split; [by left|done].
Qed.

(** A query followed by a computation that depends on its answer. *)
Lemma reads_asking {T B} op (q : Query E T) (k : T → Conn B) Q R F :
  (∀ d e, sql_failure e → F d e) →
  (∀ a, reads (k a) (λ d b, answers q d a → Q d b) (λ d e, answers q d a → F d e)) →
  (∀ d b, Q d b → R d b) → reads (database_error op (run_query q) ≫= k) R F.
Proof.
  intros HF Hk HR. eapply reads_bind.
  - eapply reads_mono; [apply reads_query|intros d a Ha; exact Ha|intros d e; apply HF].
  - exact Hk.
  - intros d a b Ha Hb. by apply HR, Hb.
  - intros d a e Ha He. by apply He.
Qed.

Lemma reads_latest limit :
  reads (query_latest limit)
    (λ d l, data_of <$> l = row_data <$> take (Z.to_nat limit) (newest_first (rows d)))
    (λ d e, sql_failure e ∨ invalid_row (newest_first (rows d)) e).
Proof.
  eapply reads_asking; [by left| |intros d l Hl; exact Hl]. intros [].
  eapply reads_asking; [by left| |intros d l Hl; exact Hl].
  intros [data fail]. eapply reads_mono; [apply reads_lift|..]; cbn; intros d.
  - intros l Hl [_ Hd] _. pose proof (read_rows_spec data fail []) as Hs. rewrite Hl in Hs.
    destruct Hs as [-> ->]. by apply Hd.
  - intros e He [[rest Hp] _] _. pose proof (read_rows_spec data fail []) as Hs. rewrite He in Hs.
    destruct Hs as [?|(x & y & Hx & ? & ->)]; [by left|]. right.
    assert (x ∈ row_data <$> take (Z.to_nat limit) (newest_first (rows d))) as Hin
      by (rewrite Hp; apply elem_of_app; by left).
    apply list_elem_of_fmap in Hin as (r & -> & Hr). exists r, y. split; [|done].
    apply list_elem_of_lookup in Hr as [i Hi]. apply lookup_take_Some in Hi as [Hi _].
    by eapply list_elem_of_lookup_2.
Qed.

Lemma reads_schema_version :
  reads read_schema_version (λ d v, v = user_version d) (λ _, failure).
Proof.
  eapply reads_asking; [by left| |intros d v Hv; exact Hv].
  intros v. eapply reads_mono; [apply reads_lift|..]; cbn; intros d.
  - by intros w [-> _]%unsigned_Ok ->.
  - intros e He _. by eapply unsigned_failure.
Qed.

Lemma reads_unsigned {B} top reason v (k : Z → Conn B) R :
  (∀ n, reads (k n) (λ d b, n = v → R d b) (λ _, failure)) →
  reads (se_lift (unsigned top reason v) ≫= k) R (λ _, failure).
Proof.
  intros Hk. apply (reads_bind _ _ (λ _ n, n = v) (λ n d b, n = v → R d b) _ _ (λ _ _, failure)); [|exact Hk|auto|auto].
  eapply reads_mono; [apply reads_lift|..]; cbn; intros d.
  - by intros n [-> _]%unsigned_Ok.
  - intros e. apply unsigned_failure.
Qed.

Lemma reads_status execution :
  reads (read_status execution)
    (λ d s, status_execution s = execution ∧ row_count s = Z.of_nat (length (rows d)) ∧
       schema_version s = user_version d) (λ _, failure).
Proof.
  do 3 (eapply reads_asking; [by left|intros ?|intros d s Hs; exact Hs]).
  eapply reads_asking; [by left|intros count|intros d s Hs; exact Hs].
  eapply (reads_mono _ (λ d s, status_execution s = execution ∧ row_count s = count ∧
    schema_version s = user_version d) _ (λ _, failure)); cbn; [|naive_solver|done].
  apply reads_unsigned. intros timeout.
  eapply (reads_bind _ _ _ (λ v d s, status_execution s = execution ∧ row_count s = count ∧
    schema_version s = v) _ _ (λ _ _, failure)); [apply reads_schema_version| |naive_solver|done].
  intros version. apply reads_unsigned. intros n.
  eapply reads_mono; [apply (reads_ret _ (λ _, failure))|cbn; naive_solver|done].
Qed.
End operations.

(** ** The archive the store refines *)

Record Archive := mk_archive { entries : list Row; executed : Z }.

Section archive.
Context {C E : Type} `{SqliteLaws C E} (k : nat) (owner : Z).

(** What the commands do to an archive, and the replies they may get. *)
Inductive archive_step : Archive → WorkerState.Command → WorkerState.Reply E → Archive → Prop :=
| archive_exhausted l command reply :
    reply = match command with
            | WorkerState.Insert _ => WorkerState.Inserted (Err OperationSequenceExhausted)
            | WorkerState.Latest _ => WorkerState.Found (Err OperationSequenceExhausted)
            | WorkerState.Status => WorkerState.Reported (Err OperationSequenceExhausted)
            end →
    archive_step (mk_archive l u64_max) command reply (mk_archive l u64_max)
| archive_inserted l n record id removed :
    n < u64_max → Forall (λ r, row_id r < id) l →
    removed = Z.of_nat (Nat.min k (length l) + 1 - Nat.min k (length l + 1)) →
    archive_step (mk_archive l n) (WorkerState.Insert record)
      (WorkerState.Inserted (Ok (mk_receipt (mk_execution owner (n + 1)) removed)))
      (mk_archive (l ++ [mk_row id (data_of record)]) (n + 1))
| archive_not_inserted l n record e :
    n < u64_max → failure e →
    archive_step (mk_archive l n) (WorkerState.Insert record)
      (WorkerState.Inserted (Err e)) (mk_archive l (n + 1))
| archive_found l n limit found :
    n < u64_max → data_of <$> found = row_data <$> take (Z.to_nat limit) (retained k l) →
    archive_step (mk_archive l n) (WorkerState.Latest limit)
      (WorkerState.Found (Ok (mk_query found (mk_execution owner (n + 1))))) (mk_archive l (n + 1))
| archive_not_found l n limit e :
    n < u64_max → sql_failure e ∨ invalid_row (retained k l) e →
    archive_step (mk_archive l n) (WorkerState.Latest limit)
      (WorkerState.Found (Err e)) (mk_archive l (n + 1))
| archive_reported l n s :
    n < u64_max → status_execution s = mk_execution owner (n + 1) →
    row_count s = Z.of_nat (Nat.min k (length l)) →
    archive_step (mk_archive l n) WorkerState.Status
      (WorkerState.Reported (Ok s)) (mk_archive l (n + 1))
| archive_not_reported l n e :
    n < u64_max → failure e →
    archive_step (mk_archive l n) WorkerState.Status
      (WorkerState.Reported (Err e)) (mk_archive l (n + 1)).

Inductive archive_run : Archive → list WorkerState.Command → list (WorkerState.Reply E) → Archive → Prop :=
| archive_nil a : archive_run a [] [] a
| archive_cons a a1 a2 command commands reply replies :
    archive_step a command reply a1 → archive_run a1 commands replies a2 →
    archive_run a (command :: commands) (reply :: replies) a2.

(** The thread's state stands for an archive. *)
Record represents (w : WorkerState.t C) (a : Archive) : Prop := {
  represents_idle : idle (WorkerState.connection w);
  represents_rows : archived k (durable (WorkerState.connection w)) (entries a);
  represents_sequence : WorkerState.operation_sequence w = executed a;
  represents_bound : executed a ≤ u64_max;
  represents_retention : HistoryRetention.max_records (WorkerState.retention w) = Z.of_nat k;
  represents_owner : WorkerState.owner_thread_id w = owner;
}.

Lemma represents_next w a :
  represents w a → executed a < u64_max →
  ∃ w1, WorkerState.next_execution (E:=E) w = (w1, Ok (mk_execution owner (executed a + 1))) ∧
    represents w1 (mk_archive (entries a) (executed a + 1)).
Proof.
  intros [Hi Hr Hs Hb Hk Ho] Hn. unfold WorkerState.next_execution.
  destruct (checked_add u64_max (WorkerState.operation_sequence w) 1) as [n|] eqn:Hc;
    [apply checked_add_Some in Hc as [-> _]|apply checked_add_None in Hc; lia].
  eexists. rewrite Ho, Hs. split; [done|]. split; cbn; [done|done|done|lia|done|done].
Qed.
Lemma represents_exhausted w a :
  represents w a → executed a = u64_max →
  WorkerState.next_execution (E:=E) w = (w, Err OperationSequenceExhausted).
Proof.
  intros [Hi Hr Hs Hb Hk Ho] Hn. unfold WorkerState.next_execution.
  destruct (checked_add u64_max (WorkerState.operation_sequence w) 1) as [n|] eqn:Hc; [|done].
  apply checked_add_Some in Hc as [-> Hc]. lia.
Qed.
(** A computation on the connection, and what it leaves. *)
Lemma represents_on {A} (m : SE C (HistoryError E) A) w a c r l :
  represents w a → m (WorkerState.connection w) = (c, r) → idle c → archived k (durable c) l →
  ∃ w', WorkerState.on_connection m w = (w', r) ∧ represents w' (mk_archive l (executed a)).
Proof.
  intros [Hi Hr Hs Hb Hk Ho] Hm Hc Hl. unfold WorkerState.on_connection. rewrite Hm.
  eexists. split; [done|]. by split.
Qed.
Lemma reads_on {A} (m : SE C (HistoryError E) A) Q F w a :
  represents w a → reads m Q F →
  ∃ w' r, WorkerState.on_connection m w = (w', r) ∧ represents w' a ∧
    ∃ d, archived k d (entries a) ∧ match r with Ok x => Q d x | Err e => F d e end.
Proof.
  intros Hw Hm. pose proof (represents_idle _ _ Hw) as Hi. pose proof (represents_rows _ _ Hw) as Ha.
  destruct (m (WorkerState.connection w)) as [c r] eqn:Hrun. destruct (Hm _ _ _ Hrun) as (Hd & Hk & Hr).
  destruct (represents_on m w a c r (entries a) Hw Hrun) as (w' & Hon & Hw'); [by unfold idle in *; congruence|by rewrite Hd|].
  exists w', r. split; [done|]. split; [by destruct a|]. exists (durable (WorkerState.connection w)).
  split; [done|]. by rewrite Hi in Hr.
Qed.

Lemma insert_on record w a :
  represents w a →
  ∃ w' r, WorkerState.on_connection
      (with_transaction (lit "begin insert transaction") (lit "commit insert transaction")
        (insert_record record;; prune_records (WorkerState.retention w))) w = (w', r) ∧
    match r with
    | Ok removed => ∃ id, Forall (λ r, row_id r < id) (entries a) ∧
        represents w' (mk_archive (entries a ++ [mk_row id (data_of record)]) (executed a)) ∧
        removed = Z.of_nat (Nat.min k (length (entries a)) + 1 - Nat.min k (length (entries a) + 1))
    | Err e => failure e ∧ represents w' a
    end.
Proof.
  intros Hw. pose proof (represents_idle _ _ Hw) as Hi. pose proof (represents_rows _ _ Hw) as Ha.
  destruct (with_transaction (lit "begin insert transaction") (lit "commit insert transaction")
    (insert_record record;; prune_records (WorkerState.retention w)) (WorkerState.connection w))
    as [c r] eqn:Hrun.
  destruct (with_transaction_spec _ _ _ _ _ _ _ _ (writes_insert record (WorkerState.retention w)) Hi Hrun)
    as [Hc Hr]. destruct r as [removed|e].
  - destruct Hr as (d1 & n1 & H1 & H2). rewrite (represents_retention _ _ Hw) in H2.
    pose proof (archived_last _ _ _ Ha) as Hlast.
    destruct (archived_insert k _ _ _ _ _ _ _ Ha H1 H2) as (Ha' & Hid & ->).
    destruct (represents_on _ w a c _ _ Hw Hrun Hc Ha') as (w' & Hon & Hw').
    exists w', (Ok (Z.of_nat (Nat.min k (length (entries a)) + 1 - Nat.min k (length (entries a) + 1)))).
    split; [exact Hon|]. exists (last_id d1). split; [|done].
    eapply Forall_impl; [exact Hlast|]. cbn. intros r. lia.
  - destruct Hr as [Hd He].
    destruct (represents_on _ w a c _ (entries a) Hw Hrun Hc) as (w' & Hon & Hw'); [by rewrite Hd|].
    exists w', (Err e). split; [exact Hon|]. split; [|by destruct a]. destruct He as [?|?]; [done|by left].
Qed.

(** A handler after [next_execution], and before an exhausted one. *)
Lemma run_next {A} (f : StorageExecution → SE (WorkerState.t C) (HistoryError E) A) w w1 execution :
  WorkerState.next_execution (E:=E) w = (w1, Ok execution) →
  (execution ← WorkerState.next_execution; f execution) w = f execution w1.
Proof. apply se_bind_run. Qed.
Lemma run_exhausted {A} (f : StorageExecution → SE (WorkerState.t C) (HistoryError E) A) w e :
  WorkerState.next_execution (E:=E) w = (w, Err e) →
  (execution ← WorkerState.next_execution; f execution) w = (w, Err e).
Proof. apply se_bind_stop. Qed.
Lemma run_map {A B} (m : SE C (HistoryError E) A) (f : A → B) w w' r :
  WorkerState.on_connection m w = (w', r) →
  (x ← WorkerState.on_connection m; mret (f x)) w = (w', f <$> r).
Proof. intros Hm. unfold mbind, SE_bind. rewrite Hm. by destruct r. Qed.

(** One command, simulated by the archive. *)
Lemma handle_step command w a :
  represents w a → ∃ a', archive_step a command (WorkerState.handle command w).2 a' ∧
    represents (WorkerState.handle command w).1 a'.
Proof.
  intros Hw. destruct (decide (executed a = u64_max)) as [Hn|Hn].
  - pose proof (represents_exhausted w a Hw Hn) as Hx. exists a. destruct a as [l n]. cbn in Hn. subst n.
    destruct command as [record|limit|]; unfold WorkerState.handle, WorkerState.insert, WorkerState.latest, WorkerState.status;
      rewrite (run_exhausted _ w _ Hx); (split; [by constructor|exact Hw]).
  - assert (executed a < u64_max) as Hlt by (pose proof (represents_bound _ _ Hw); lia).
    destruct (represents_next w a Hw Hlt) as (w1 & Hx & Hw1). destruct a as [l n]. cbn [executed entries] in *.
    destruct command as [record|limit|]; unfold WorkerState.handle, WorkerState.insert, WorkerState.latest, WorkerState.status;
      rewrite (run_next _ w _ _ Hx).
    + destruct (insert_on record w1 _ Hw1) as (w' & r & Hon & Hr).
      erewrite se_bind_run by reflexivity. rewrite (run_map _ _ _ _ _ Hon). destruct r as [removed|e].
      * destruct Hr as (id & Hid & Hw' & Hrm). eexists. split; [by eapply archive_inserted|exact Hw'].
      * destruct Hr as [He Hw']. eexists. split; [by eapply archive_not_inserted|exact Hw'].
    + destruct (reads_on _ _ _ w1 _ Hw1 (reads_latest limit)) as (w' & r & Hon & Hw' & d & Hd & Hr).
      rewrite (run_map _ _ _ _ _ Hon). cbn [entries] in Hd. rewrite (retained_rows _ _ _ Hd) in Hr. eexists.
      destruct r; (split; [|exact Hw']); [by eapply archive_found|by eapply archive_not_found].
    + destruct (reads_on _ _ _ w1 _ Hw1 (reads_status (mk_execution owner (n + 1)))) as (w' & r & Hon & Hw' & d & Hd & Hr).
      rewrite Hon. cbn [entries] in Hd. rewrite (archived_length _ _ _ Hd) in Hr. eexists.
      destruct r; (split; [|exact Hw']); [|by eapply archive_not_reported].
      destruct Hr as (He & Hc & _). by eapply archive_reported.
Qed.
End archive.

(** ** Opening *)

(** The two objects the program creates, and nothing else. *)
Record supported (d : HistoryTables) : Prop := {
  supported_version : user_version d = HISTORY_SCHEMA_VERSION;
  supported_table : schema_sql (lit "table") (lit "history_records") (schema d) = Some (Some CREATE_TABLE_SQL);
  supported_index : schema_sql (lit "index") (lit "history_records_order") (schema d) = Some (Some CREATE_ORDER_INDEX_SQL);
  supported_only : unexpected_objects (schema d) = [];
}.
(** The database before verification: of this version, or created in an empty,
    unversioned file. *)
Definition created (d d' : HistoryTables) : Prop :=
  ∃ d1 d2 n1 n2 n3, apply_statement CreateTable d = Some (d1, n1) ∧
    apply_statement CreateOrderIndex d1 = Some (d2, n2) ∧
    apply_statement (SetUserVersion HISTORY_SCHEMA_VERSION) d2 = Some (d', n3).
Definition migrated (d d' : HistoryTables) : Prop :=
  user_version d = HISTORY_SCHEMA_VERSION ∧ d' = d ∨
  user_version d = 0 ∧ application_objects (schema d) = [] ∧ created d d'.
(** Distinct row ids, none above the AUTOINCREMENT counter. *)
Definition rows_ok (d : HistoryTables) : Prop :=
  NoDup (row_id <$> rows d) ∧ Forall (λ r, row_id r ≤ last_id d) (rows d).

Section opening.
Context {C E : Type} `{SqliteLaws C E}.
Local Notation Conn := (SE C (HistoryError E)).

(** [m] is run outside transactions; [P] relates the committed databases. *)
Definition steps {A} (m : Conn A) (P : HistoryTables → Result (HistoryError E) A → HistoryTables → Prop) : Prop :=
  ∀ c c' r, idle c → m c = (c', r) → idle c' ∧ P (durable c) r (durable c').

Lemma steps_bind {A B} (m : Conn A) (k : A → Conn B) P Q R :
  steps m P → (∀ a, steps (k a) (Q a)) →
  (∀ d a d1 r d2, P d (Ok a) d1 → Q a d1 r d2 → R d r d2) →
  (∀ d e d1, P d (Err e) d1 → R d (Err e) d1) → steps (m ≫= k) R.
Proof.
  intros Hm Hk HR HE c c' r Hi Hr. unfold mbind, SE_bind in Hr.
  destruct (m c) as [c1 [a|e]] eqn:Hc; destruct (Hm _ _ _ Hi Hc) as [Hi1 Hp].
  - destruct (Hk _ _ _ _ Hi1 Hr) as [Hi2 Hq]. split; [done|]. by eapply HR.
  - injection Hr as <- <-. split; [done|]. by apply HE.
Qed.
Lemma steps_reads {A} (m : Conn A) Q F :
  reads m Q F → steps m (λ d r d', d' = d ∧ match r with Ok a => Q d a | Err e => F d e end).
Proof.
  intros Hm c c' r Hi Hr. destruct (Hm _ _ _ Hr) as (Hd & Hw & Hq). unfold idle in *.
  split; [congruence|]. split; [done|]. by rewrite Hi in Hq.
Qed.
Lemma steps_mono {A} (m : Conn A) (P Q : HistoryTables → Result (HistoryError E) A → HistoryTables → Prop) :
  steps m P → (∀ d r d', P d r d' → Q d r d') → steps m Q.
Proof. intros Hm HP c c' r Hi Hr. destruct (Hm _ _ _ Hi Hr). auto. Qed.
Lemma steps_setting op (call : C → C * Result E unit) :
  (∀ c c' r, call c = (c', r) → durable c' = durable c ∧ working c' = working c) →
  steps (database_error op call) (λ d r d', d' = d ∧ match r with Ok _ => True | Err e => sql_failure e end).
Proof.
  intros Hcall c c' r Hi. unfold database_error. destruct (call c) as [c1 r1] eqn:Hc.
  destruct (Hcall _ _ _ Hc) as [Hd Hw]. unfold idle in *.
  destruct r1; cbn; intros [= <- <-]; (split; [congruence|]; split; [done|]); [done|]. by do 2 eexists.
Qed.

Lemma writes_create :
  writes (C:=C) (E:=E)
    (database_error (lit "create history table") (execute_statement CreateTable) ;;
     database_error (lit "create history index") (execute_statement CreateOrderIndex) ;;
     database_error (lit "write schema version") (execute_statement (SetUserVersion HISTORY_SCHEMA_VERSION)) ;;
     mret tt)
    (λ d _ d', created d d') sql_failure.
Proof.
  eapply writes_bind with (Q := λ _ d1 _ d', ∃ d2 n2 n3, apply_statement CreateOrderIndex d1 = Some (d2, n2) ∧
    apply_statement (SetUserVersion HISTORY_SCHEMA_VERSION) d2 = Some (d', n3)); [apply writes_execute|intros n1|].
  - eapply writes_bind with (Q := λ _ d2 _ d', ∃ n3,
      apply_statement (SetUserVersion HISTORY_SCHEMA_VERSION) d2 = Some (d', n3)); [apply writes_execute|intros n2|].
    + eapply writes_bind; [apply writes_execute|intros n3; apply writes_ret|].
      intros d n3 d1 [] d2 Hd [_ ->]. by eexists.
    + intros d n2 d2 [] d3 Hd [n3 Hn]. by exists d2, n2, n3.
  - intros d n1 d1 [] d2 Hd (d3 & n2 & n3 & H2 & H3). by exists d1, d3, n1, n2, n3.
Qed.

Lemma steps_migrate version :
  steps (migrate_schema version) (λ d r d',
    version = user_version d →
    match r with Ok _ => migrated d d' | Err e => d' = d ∧ failure e end).
Proof.
  unfold migrate_schema. destruct (Z.eqb_spec version 0) as [->|H0']; [|destruct (Z.eqb_spec version HISTORY_SCHEMA_VERSION) as [->|]].
  - eapply steps_bind with (Q := λ n d r d',
      match r with
      | Ok _ => n = 0 ∧ created d d'
      | Err e => d' = d ∧ failure e
      end); [apply steps_reads, reads_query|intros n| |].
    + destruct (Z.eqb_spec n 0) as [->|]; cbn [negb].
      * intros c c' r Hi Hr. apply (with_transaction_spec _ _ _ _ _ _ _ _ writes_create Hi) in Hr as [Hi' Hr].
        split; [exact Hi'|]. destruct r as [[]|e]; [done|]. destruct Hr as [-> [He|He]]; (split; [done|]); by left.
      * intros c c' r Hi [= <- <-]. split; [done|]. split; [done|]. right. by eexists.
    + intros d n d1 r d2 [-> Hn] Hr Hv. cbn in Hn. destruct r as [[]|e]; [|done]. destruct Hr as [-> Hc].
      right. split; [done|]. split; [|done]. destruct (application_objects (schema d)); [done|cbn in Hn; lia].
    + intros d e d1 [-> He] _. split; [done|by left].
  - intros c c' r Hi [= <- <-]. split; [done|]. intros Hv. by left.
  - intros c c' r Hi [= <- <-]. split; [done|]. intros _. split; [done|]. right. by eexists.
Qed.

(** A computation that changes nothing, followed by one that may. *)
Lemma steps_seq {A B} (m : Conn A) (k : A → Conn B) (G : HistoryTables → A → Prop) R :
  steps m (λ d r d', d' = d ∧ match r with Ok a => G d a | Err e => failure e end) →
  (∀ a, steps (k a) (λ d r d', G d a → R d r d')) →
  (∀ d e, failure e → R d (Err e) d) → steps (m ≫= k) R.
Proof.
  intros Hm Hk HE. eapply steps_bind; [exact Hm|exact Hk|..].
  - intros d a d1 r d2 [-> Hg] Hr. by apply Hr.
  - intros d e d1 [-> He]. by apply HE.
Qed.
Lemma steps_ask {T B} op (q : Query E T) (k : T → Conn B) R :
  (∀ a, steps (k a) (λ d r d', answers q d a → R d r d')) →
  (∀ d e, failure e → R d (Err e) d) → steps (database_error op (run_query q) ≫= k) R.
Proof.
  intros Hk HE. eapply steps_seq; [|exact Hk|exact HE].
  eapply steps_mono; [apply steps_reads, reads_query|]. cbn. intros d r d' [-> Hr].
  split; [done|]. destruct r; [done|by left].
Qed.
Lemma steps_fail {A} (e : HistoryError E) (R : HistoryTables → Result (HistoryError E) A → HistoryTables → Prop) :
  (∀ d, R d (Err e) d) → steps (se_fail e) R.
Proof. intros HR c c' r Hi [= <- <-]. by split. Qed.
Lemma steps_ret {A} (a : A) (R : HistoryTables → Result (HistoryError E) A → HistoryTables → Prop) :
  (∀ d, R d (Ok a) d) → steps (mret a) R.
Proof. intros HR c c' r Hi [= <- <-]. by split. Qed.

Lemma malformed reason : failure (E:=E) (MalformedSchema reason).
Proof. right. by eexists. Qed.

Lemma steps_verify :
  steps verify_schema (λ d r d', d' = d ∧
    match r with Ok _ => user_version d = HISTORY_SCHEMA_VERSION → supported d | Err e => failure e end).
Proof.
  unfold verify_schema.
  apply steps_ask; [intros integrity; cbn|done]. case_bool_decide; cbn; [|apply steps_fail; intros; split; [done|]; apply malformed].
  apply steps_ask; [intros table|done]. case_bool_decide as Ht; cbn [negb]; [|apply steps_fail; intros; split; [done|]; apply malformed].
  apply steps_ask; [intros index|done]. case_bool_decide as Hx; cbn [negb]; [|apply steps_fail; intros; split; [done|]; apply malformed].
  apply steps_ask; [intros n|done]. destruct (Z.eqb_spec n 0) as [Hn|]; cbn [negb]; [|apply steps_fail; intros; split; [done|]; apply malformed].
  subst. apply steps_ret. intros d Hn Hi Ht _. split; [done|]. intros Hv. cbn in Hn, Hi, Ht.
  split; [done|by symmetry|by symmetry|]. destruct (unexpected_objects (schema d)); [done|cbn in Hn; lia].
Qed.

Definition pruned_to (retention : HistoryRetention.t) (d d' : HistoryTables) : Prop :=
  ∃ n, apply_statement (PruneRecords (HistoryRetention.max_records retention)) d = Some (d', n).

Lemma steps_enforce retention :
  steps (enforce_retention retention) (λ d r d',
    match r with Ok _ => pruned_to retention d d' | Err e => d' = d ∧ failure e end).
Proof.
  intros c c' r Hi Hr.
  assert (writes (prune_records retention;; mret ()) (λ d (_ : unit) d', pruned_to retention d d') failure) as Hw.
  { eapply writes_bind; [apply writes_prune|intros n; apply writes_ret|].
    intros d n d1 [] d2 Hd [_ ->]. by exists n. }
  apply (with_transaction_spec _ _ _ _ _ _ _ _ Hw Hi) in Hr as [Hi' Hr]. split; [exact Hi'|].
  destruct r as [[]|e]; [done|]. destruct Hr as [-> [He|He]]; (split; [done|]); [done|by left].
Qed.

(** After migration: verification, the journal mode, retention, the status. *)
Definition settled retention (d : HistoryTables) (r : Result (HistoryError E) unit) (d' : HistoryTables) : Prop :=
  user_version d = HISTORY_SCHEMA_VERSION →
  match r with
  | Ok _ => supported d ∧ pruned_to retention d d'
  | Err e => failure e ∧ (d' = d ∨ supported d ∧ pruned_to retention d d')
  end.

Lemma steps_settle owner retention : steps (settle_connection owner retention) (settled retention).
Proof.
  unfold settle_connection, settled. eapply steps_bind with (Q := λ _ d r d', 
    match r with
    | Ok _ => pruned_to retention d d'
    | Err e => failure e ∧ (d' = d ∨ pruned_to retention d d')
    end); [apply steps_verify|intros []| |].
  - apply steps_ask; [intros mode|intros d e He; split; [done|by left]]. case_bool_decide; cbn [negb];
      [|apply steps_fail; intros d _; split; [apply malformed|by left]].
    eapply steps_bind with (Q := λ _ d r d', d' = d ∧ match r with Ok _ => True | Err e => failure e end);
      [apply steps_enforce|intros []| |].
    + eapply steps_seq; [eapply steps_mono; [apply steps_reads, reads_status|]; cbn; intros d r d' [-> Hr];
        split; [done|]; destruct r; [exact I|exact Hr]| |done].
      intros s. case_match; [apply steps_fail|apply steps_ret]; intros d _; (split; [done|]); [apply malformed|done].
    + intros d [] d1 r d2 Hp [-> Hr] _. destruct r; [done|]. split; [done|by right].
    + intros d e d1 [-> He] _. split; [done|by left].
  - intros d [] d1 r d2 [-> Hs] Hr Hv. specialize (Hs Hv). destruct r; [done|].
    destruct Hr as [? [?|?]]; (split; [done|]); [by left|by right].
  - intros d e d1 [-> He] _. split; [done|by left].
Qed.

Lemma created_version d d' : created d d' → user_version d' = HISTORY_SCHEMA_VERSION.
Proof. intros (d1 & d2 & n1 & n2 & n3 & _ & _ & [= <- _]). done. Qed.
Lemma migrated_version d d' : migrated d d' → user_version d' = HISTORY_SCHEMA_VERSION.
Proof. intros [[? ->]|(_ & _ & Hc)]; [done|by eapply created_version]. Qed.
Lemma created_rows_ok d d' : rows_ok d → created d d' → rows_ok d' ∧ rows d' = [].
Proof.
  intros [_ _] (d1 & d2 & n1 & n2 & n3 & H1 & H2 & H3). cbn in H1, H2, H3.
  injection H1 as <- <-. injection H2 as <- <-. injection H3 as <- <-. split; [split; constructor|done].
Qed.

(** What opening may do to the committed database. *)
Definition opened retention (d : HistoryTables) (r : Result (HistoryError E) unit) (d' : HistoryTables) : Prop :=
  match r with
  | Ok _ => ∃ d1, migrated d d1 ∧ supported d1 ∧ pruned_to retention d1 d'
  | Err e =>
      d' = d ∧ (failure e ∨ HISTORY_SCHEMA_VERSION < user_version d ∧
                e = FutureSchema (user_version d) HISTORY_SCHEMA_VERSION) ∨
      failure e ∧ ∃ d1, migrated d d1 ∧ (d' = d1 ∨ supported d1 ∧ pruned_to retention d1 d')
  end.

(** Errors of a database whose version is representable. *)
Lemma steps_version :
  steps (read_schema_version (C:=C) (E:=E)) (λ d r d', d' = d ∧ (0 ≤ user_version d ≤ u32_max →
    match r with Ok v => v = user_version d | Err e => sql_failure e end)).
Proof.
  unfold read_schema_version.
  eapply steps_bind with (Q := λ v d r d', d' = d ∧ r = unsigned u32_max
    (lit "history schema version is not an unsigned 32-bit integer") v);
    [apply steps_reads, reads_query|intros v|..]; cbn.
  - intros c c' r Hi [= <- <-]. by split.
  - intros d v d1 r d2 [-> ->] [-> ->]. split; [done|]. intros Hv. by rewrite (proj2 (unsigned_Ok _ _ _ _) (conj eq_refl Hv)).
  - intros d e d1 [-> He]. by split.
Qed.

Definition refused (d : HistoryTables) (r : Result (HistoryError E) unit) (d' : HistoryTables) : Prop :=
  HISTORY_SCHEMA_VERSION < user_version d ≤ u32_max →
  d' = d ∧ ∃ e, r = Err e ∧ (sql_failure e ∨ e = FutureSchema (user_version d) HISTORY_SCHEMA_VERSION).

Lemma steps_refused owner timeout retention :
  steps (configure_connection owner timeout retention) refused.
Proof.
  unfold configure_connection.
  assert (∀ op (call : C → C * Result E unit) (m : Conn unit),
    (∀ c c' r, call c = (c', r) → durable c' = durable c ∧ working c' = working c) →
    steps m refused → steps (database_error op call ≫= λ _, m) refused) as Hset.
  { intros op call m Hc Hm. eapply steps_bind with (Q := λ _, refused); [by apply steps_setting|intros _; exact Hm|..].
    - by intros d u d1 r d2 [-> _].
    - intros d e d1 [-> He] _. split; [done|]. exists e. auto. }
  apply Hset; [apply set_busy_timeout_law|]. apply Hset; [apply enable_foreign_keys_law|].
  eapply steps_bind with (Q := λ v d r d', v = user_version d → refused d r d'); [apply steps_version|intros v|..].
  - destruct (Z.ltb_spec HISTORY_SCHEMA_VERSION v) as [Hv|Hv].
    + apply steps_fail. intros d -> _. split; [done|]. eexists. auto.
    + intros c c' r Hi Hr.
      assert (steps (migrate_schema v;; settle_connection owner retention) (λ _ _ _, True)) as Ht.
      { eapply steps_bind; [apply steps_migrate|intros u; apply steps_settle|done|done]. }
      split; [by eapply Ht|]. intros -> ?. lia.
  - intros d v d1 r d2 [-> Hv] Hr Hb. apply Hr; [|done]. apply Hv. change HISTORY_SCHEMA_VERSION with 1 in Hb. lia.
  - intros d e d1 [-> Hv] Hb. split; [done|]. exists e. split; [done|]. left. apply Hv.
    change HISTORY_SCHEMA_VERSION with 1 in Hb. lia.
Qed.

Lemma setting_failure (d : HistoryTables) (r : Result (HistoryError E) unit) (d' : HistoryTables) :
  d' = d ∧ match r with Ok _ => True | Err e => sql_failure e end →
  d' = d ∧ match r with Ok _ => True | Err e => failure e end.
Proof. intros [-> Hr]. split; [done|]. destruct r; [done|by left]. Qed.

Lemma steps_configure owner timeout retention :
  steps (configure_connection owner timeout retention) (opened retention).
Proof.
  unfold configure_connection, opened.
  eapply steps_seq; [eapply steps_mono; [apply steps_setting; intros c c' r; apply set_busy_timeout_law|exact setting_failure]|intros []|intros; left; split; [done|by left]].
  eapply steps_mono; [|intros d r d' Hr _; exact Hr].
  eapply steps_seq; [eapply steps_mono; [apply steps_setting; intros c c' r; apply enable_foreign_keys_law|exact setting_failure]|intros []|intros; left; split; [done|by left]].
  eapply steps_mono; [|intros d r d' Hr _; exact Hr].
  eapply steps_seq; [apply steps_reads, reads_schema_version|intros version|intros; left; split; [done|by left]].
  destruct (Z.ltb_spec HISTORY_SCHEMA_VERSION version) as [Hv|Hv].
  { apply steps_fail. intros d ->. left. split; [done|by right]. }
  eapply steps_bind with (Q := λ _, settled retention); [apply steps_migrate|intros []; apply steps_settle|..]; cbn.
  - intros d [] d1 r d2 Hm Hs E1. specialize (Hm E1). specialize (Hs (migrated_version _ _ Hm)).
    destruct r as [[]|e]; [by exists d1|]. right. destruct Hs as [He Hs]. split; [done|]. by exists d1.
  - intros d e d1 Hm E1. destruct (Hm E1) as [-> He]. left. split; [done|by left].
Qed.
End opening.

(** ** Properties *)

(** Opening a database leaves it as it was, byte for byte of its tables,
    unless it is of the supported version or an unversioned file without any
    table of an application; a success means the supported schema with the
    newest rows the retention allows, and a newer schema is reported as such
    unless SQLite fails first. *)
Theorem open_accepts_only_supported {C E} `{SqliteLaws C E} (owner timeout : Z)
    (retention : HistoryRetention.t) (c c' : C) r :
  idle c → configure_connection owner timeout retention c = (c', r) →
  idle c' ∧ opened retention (durable c) r (durable c') ∧ refused (durable c) r (durable c').
Proof.
  intros Hi Hr. destruct (steps_configure owner timeout retention c c' r Hi Hr) as [? ?].
  destruct (steps_refused owner timeout retention c c' r Hi Hr) as [_ ?]. done.
Qed.

(** C14. Whatever SQLite does, the storage thread behaves like an archive that
    keeps every row and shows the newest [k] of them: each command gets one
    reply, an insert takes effect exactly when its receipt says so, queries
    return the newest rows in order, and operations are numbered without gaps. *)
Theorem worker_refines_archive {C E} `{SqliteLaws C E} (k : nat) (owner : Z)
    (commands : list WorkerState.Command) (w w' : WorkerState.t C) replies a :
  represents k owner w a → WorkerState.handle_all commands w = (w', replies) →
  ∃ a', archive_run k owner a commands replies a' ∧ represents k owner w' a'.
Proof.
  intros Hw Hr. revert w w' replies a Hw Hr.
  induction commands as [|command commands IH]; intros w w' replies a Hw; cbn.
  - intros [= <- <-]. exists a. split; [constructor|done].
  - destruct (handle_step k owner command w a Hw) as (a1 & Hs & Hw1).
    destruct (WorkerState.handle command w) as [w1 reply]. cbn in Hs, Hw1.
    destruct (WorkerState.handle_all commands w1) as [w2 replies2] eqn:H2. intros [= <- <-].
    destruct (IH w1 w2 replies2 a1 Hw1 H2) as (a' & Hrun & Hw').
    exists a'. split; [by econstructor|done].
Qed.

(** ** A connection in memory, for examples

    It fails whenever its script says so. *)
Module HistoryExample.
Record conn := mk_conn { committed : HistoryTables; seen : HistoryTables; script : list bool }.

Definition fails (c : conn) : bool := match script c with b :: _ => b | [] => false end.
Definition tick (c : conn) : conn := mk_conn (committed c) (seen c) (tail (script c)).
Definition attempt {A} (c : conn) (ok : conn * Result unit A) : conn * Result unit A :=
  if fails c then (tick c, Err tt) else ok.
Definition answer {T} (q : Query unit T) (d : HistoryTables) : Result unit T :=
  match q in Query _ T return Result unit T with
  | UserVersion => Ok (user_version d)
  | ApplicationObjects => Ok (Z.of_nat (length (application_objects (schema d))))
  | IntegrityCheck => Ok (lit "ok")
  | TableSql => match schema_sql (lit "table") (lit "history_records") (schema d) with
                | None => Ok None | Some (Some sql) => Ok (Some sql) | Some None => Err tt end
  | IndexSql => match schema_sql (lit "index") (lit "history_records_order") (schema d) with
                | None => Ok None | Some (Some sql) => Ok (Some sql) | Some None => Err tt end
  | UnexpectedObjects => Ok (Z.of_nat (length (unexpected_objects (schema d))))
  | EnableWal => Ok (lit "wal")
  | JournalMode => Ok (lit "wal")
  | ForeignKeys => Ok 1
  | BusyTimeout => Ok 5000
  | RowCount => Ok (Z.of_nat (length (rows d)))
  | PrepareLatest => Ok tt
  | QueryLatest limit => Ok (row_data <$> take (Z.to_nat limit) (newest_first (rows d)), None)
  | WalCheckpoint => Ok 0
  end.

#[local] Instance conn_sqlite : Sqlite conn unit := {
  set_busy_timeout _ c := attempt c (tick c, Ok tt);
  enable_foreign_keys c := attempt c (tick c, Ok tt);
  begin_transaction c := attempt c (tick c, Ok tt);
  execute_statement s c :=
    attempt c (match apply_statement s (seen c) with
               | Some (d, n) => (mk_conn (committed c) d (tail (script c)), Ok n)
               | None => (tick c, Err tt)
               end);
  commit_transaction c := attempt c (mk_conn (seen c) (seen c) (tail (script c)), Ok tt);
  rollback_transaction c := mk_conn (committed c) (committed c) (script c);
  run_query T q c := attempt c (tick c, answer q (seen c));
}.

Lemma answer_answers T (q : Query unit T) d :
  match answer q d with Ok a => answers q d a | Err _ => True end.
Proof.
  destruct q; cbn [answer answers]; try done.
  - by destruct (schema_sql _ _ _) as [[sql|]|].
  - by destruct (schema_sql _ _ _) as [[sql|]|].
Qed.

#[local] Instance conn_laws : SqliteLaws conn unit.
Proof.
  refine {| durable := committed; working := seen |}; cbn -[fails]; unfold attempt.
  - intros t c c' r. destruct (fails c); by intros [= <- <-].
  - intros c c' r. destruct (fails c); by intros [= <- <-].
  - intros c c' r. destruct (fails c); by intros [= <- <-].
  - intros s c c' r. destruct (fails c); [by intros [= <- <-]|].
    destruct (apply_statement s (seen c)) as [[d n]|]; by intros [= <- <-].
  - intros c c' r. destruct (fails c); by intros [= <- <-].
  - done.
  - intros T q c c' r. pose proof (answer_answers T q (seen c)) as Ha.
    destruct (fails c); by intros [= <- <-].
Defined.

Definition empty_file : HistoryTables := mk_database 0 [] [] 0.
Definition fresh (script : list bool) : conn := mk_conn empty_file empty_file script.
Definition keep (k : Z) : HistoryRetention.t := HistoryRetention.mk k.
Definition opened_conn : conn := (configure_connection 7 DEFAULT_BUSY_TIMEOUT (keep 2) (fresh [])).1.

(** Nothing but the first migration statement fails: nothing is created. *)
Example failed_migration :
  let '(c, r) := configure_connection (E:=unit) 7 DEFAULT_BUSY_TIMEOUT (keep 2)
                   (fresh [false; false; false; false; false; true]) in
  committed c = empty_file ∧ r = Err (Database (lit "create history table") tt).
Proof. vm_compute. by split. Qed.

Lemma open_accepts_only_supported_witness :
  (configure_connection (E:=unit) 7 DEFAULT_BUSY_TIMEOUT (keep 2) (fresh [])).2 = Ok tt ∧
  opened (E:=unit) (keep 2) empty_file (Ok tt) (committed opened_conn).
Proof.
  split; [vm_compute; reflexivity|].
  refine (proj1 (proj2 (open_accepts_only_supported 7 DEFAULT_BUSY_TIMEOUT (keep 2) (fresh []) opened_conn (Ok tt) _ _)));
    [reflexivity|].
  vm_compute. reflexivity.
Defined.

Definition sample (ms value : Z) : HistoryRecord.t :=
  HistoryRecord.mk (HistoryIdentifier.mk (lit "codex")) ms (HistoryIdentifier.mk (lit "quota.used")) value.
Definition worker : WorkerState.t conn :=
  WorkerState.mk (mk_conn (committed opened_conn) (committed opened_conn) [false; false; true]) (keep 2) 7 0.
(** The first insert fails in its prune, the others succeed; the oldest of the
    three rows is dropped. *)
Definition commands : list WorkerState.Command :=
  [WorkerState.Insert (sample 5 1); WorkerState.Insert (sample 10 2); WorkerState.Insert (sample 30 3);
   WorkerState.Insert (sample 20 4); WorkerState.Latest 5].

Example commands_replies :
  last (WorkerState.handle_all (E:=unit) commands worker).2 =
  Some (WorkerState.Found (Ok (mk_query [sample 30 3; sample 20 4] (mk_execution 7 5)))).
Proof. vm_compute. reflexivity. Qed.

Lemma worker_refines_archive_witness :
  ∃ a', archive_run (E:=unit) 2 7 (mk_archive [] 0) commands
          (WorkerState.handle_all (E:=unit) commands worker).2 a' ∧
    represents 2 7 (WorkerState.handle_all (E:=unit) commands worker).1 a'.
Proof.
  apply (worker_refines_archive 2 7 commands worker); [|apply surjective_pairing].
  split; [reflexivity| |reflexivity|discriminate|reflexivity|reflexivity].
  split; [vm_compute; constructor|constructor|constructor].
Defined.
End HistoryExample.
