(* ===== verification/HistoryWorker.v ===== *)
(** * The thread of the history store  (crates/storage/src/history.rs)

    The bounded command channel between the callers of [HistoryStore] and the
    one thread that owns the connection: [request], the loop of [worker_main]
    with its two looks at the stop flag, and [shutdown].  Callers and thread
    interleave freely; a step is one access to the channel or to the flag, or
    the execution of one command. *)
From stdpp Require Import sorting prelude relations.
From S2P Require Import Prelude Ordering Text Externals History.
Local Open Scope Z_scope.

Section thread.
Context {C E : Type} `{Sqlite C E}.

(** An accepted request and its command. *)
Notation Request := (nat * WorkerState.Command)%type.

(** Where the thread is in its loop; what it drops when it breaks out of the
    loop with a command in hand. *)
Inductive Position :=
| Checking
| Waiting
| Holding (request : Request)
| Executing (request : Request)
| Closing (dropped : option Request)
| Finished (dropped : option Request) (result : Result (HistoryError E) unit).

(** The channel's buffer, the flag and the two sides of the channel; [accepted]
    and [answered] record what happened. *)
Record System := mk_system {
  capacity : Z;
  queue : list Request;
  sender : bool;
  stop : bool;
  position : Position;
  state : WorkerState.t C;
  accepted : list Request;
  answered : list (Request * WorkerState.Reply E);
}.

(** [HistoryStore::request], up to the reply. *)
Definition try_send (command : WorkerState.Command) (s : System) : Result (HistoryError E) System :=
  if negb (sender s) then Err WorkerStopped else
  match position s with
  | Finished _ _ => Err WorkerStopped
  | _ =>
      if capacity s <=? Z.of_nat (length (queue s)) then Err QueueFull else
      let request := (length (accepted s), command) in
      Ok (mk_system (capacity s) (queue s ++ [request]) (sender s) (stop s) (position s) (state s)
            (accepted s ++ [request]) (answered s))
  end.

(** [receive_reply]: the reply, or why there is none; [None] while waiting. *)
Inductive Received :=
| Replied (reply : WorkerState.Reply E)
| NotReplied (e : HistoryError E).
Definition in_hand (p : Position) : list Request :=
  match p with
  | Holding request | Executing request => [request]
  | Closing dropped | Finished dropped _ => option_list dropped
  | _ => []
  end.
(** The reply channel of a request is dropped with its command. *)
Definition waiting (id : nat) (s : System) : bool :=
  let alive := match position s with
               | Holding request | Executing request => request :: queue s
               | Finished _ _ => []
               | _ => queue s
               end in
  bool_decide (id ∈ alive.*1).
Definition receive_reply (timed_out : bool) (id : nat) (s : System) : option Received :=
  match list_find (λ answer, answer.1.1 = id) (answered s) with
  | Some (_, (_, reply)) => Some (Replied reply)
  | None =>
      if waiting id s then if timed_out then Some (NotReplied RequestTimeout) else None
      else Some (NotReplied WorkerStopped)
  end.

(** [shutdown_inner]: first the flag, then the sender, then the join. *)
Definition set_stop (s : System) : System :=
  mk_system (capacity s) (queue s) (sender s) true (position s) (state s) (accepted s) (answered s).
Definition drop_sender (s : System) : System :=
  mk_system (capacity s) (queue s) false (stop s) (position s) (state s) (accepted s) (answered s).

Definition at_position (p : Position) (s : System) : System :=
  mk_system (capacity s) (queue s) (sender s) (stop s) p (state s) (accepted s) (answered s).

(** One step of [worker_main]'s loop. *)
Definition worker_step (s : System) : System :=
  match position s with
  | Checking => at_position (if stop s then Closing None else Waiting) s
  | Waiting =>
      match queue s with
      | request :: queue =>
          mk_system (capacity s) queue (sender s) (stop s) (Holding request) (state s) (accepted s) (answered s)
      | [] => at_position (if sender s then Checking else Closing None) s
      end
  | Holding request => at_position (if stop s then Closing (Some request) else Executing request) s
  | Executing request =>
      let '(state, reply) := WorkerState.handle request.2 (state s) in
      mk_system (capacity s) (queue s) (sender s) (stop s) Checking state (accepted s)
        (answered s ++ [(request, reply)])
  | Closing dropped =>
      let '(w, result) := WorkerState.on_connection shutdown_connection (state s) in
      mk_system (capacity s) (queue s) (sender s) (stop s) (Finished dropped result) w (accepted s) (answered s)
  | Finished _ _ => s
  end.

Inductive step : System → System → Prop :=
| step_worker s : step s (worker_step s)
| step_request command s s' : try_send command s = Ok s' → step s s'
| step_stop s : step s (set_stop s)
| step_drop s : stop s = true → step s (drop_sender s).

(** The thread after [open_with_options]. *)
Definition start (capacity : Z) (w : WorkerState.t C) : System :=
  mk_system capacity [] true false Checking w [] [].

Definition run_worker (n : nat) (s : System) : System := Nat.iter n worker_step s.
End thread.
Arguments System _ _ : clear implicits.
Arguments Position _ : clear implicits.

(** ** What the channel guarantees *)

Section facts.
Context {C E : Type} `{SqliteLaws C E} (k : nat) (owner : Z).
Implicit Types s : System C E.

Lemma archive_run_snoc a commands replies a1 command reply a2 :
  archive_run (E:=E) k owner a commands replies a1 → archive_step k owner a1 command reply a2 →
  archive_run k owner a (commands ++ [command]) (replies ++ [reply]) a2.
Proof. induction 1; intros Hs; cbn; econstructor; eauto using archive_nil. Qed.

(** Every accepted request was answered, is in hand, was dropped by the loop,
    or waits in the queue, in the order of acceptance; the connection stands for
    the archive after the commands answered so far. *)
Record system_ok (a0 : Archive) (s : System C E) : Prop := {
  ok_accepted : accepted s = (answered s).*1 ++ in_hand (position s) ++ queue s;
  ok_ids : (accepted s).*1 = seq 0 (length (accepted s));
  ok_capacity : Z.of_nat (length (queue s)) ≤ capacity s;
  ok_archive : ∃ a, archive_run k owner a0 (answered s).*1.*2 (answered s).*2 a ∧
    represents k owner (state s) a;
  ok_sender : sender s = true ∨ stop s = true;
  ok_closing : match position s with Closing _ | Finished _ _ => stop s = true | _ => True end;
}.

Lemma start_ok capacity w a :
  1 ≤ capacity → represents k owner w a → system_ok a (start capacity w).
Proof.
  intros Hc Hw. split; cbn; [done|done|lia| |by left|done]. exists a. split; [constructor|done].
Qed.

Lemma shutdown_represents (w : WorkerState.t C) a :
  represents k owner w a →
  represents k owner (WorkerState.on_connection (E:=E) shutdown_connection w).1 a.
Proof.
  intros Hw. assert (reads (C:=C) (E:=E) shutdown_connection (λ _ _, True) (λ _ _, True)) as Hr.
  { unfold shutdown_connection. eapply reads_bind with (Q := λ _ _ _, True) (G := λ _ _ _, True).
    - eapply reads_mono; [apply reads_query|intros d a' Ha; exact Ha|done].
    - intros busy. destruct (busy =? 0).
      + eapply reads_mono; [apply (reads_ret _ (λ _ _, True))|done|done].
      + eapply reads_mono; [apply reads_fail|done|done].
    - done.
    - done. }
  destruct (reads_on k owner _ _ _ w a Hw Hr) as (w' & r & -> & Hw' & _). exact Hw'.
Qed.

Lemma worker_step_ok a0 s : system_ok a0 s → system_ok a0 (worker_step s).
Proof.
  intros [Ha Hi Hc (a & Hrun & Hrep) Hs Hp]. unfold worker_step.
  destruct (position s) as [| |request|request|dropped|dropped result] eqn:Hpos; cbn in Ha.
  - destruct (stop s) eqn:Hstop; split; cbn; rewrite ?Hstop; eauto.
  - destruct (queue s) as [|request queue] eqn:Hq.
    + destruct (sender s) eqn:Hse; split; cbn; rewrite ?Hq, ?Hse; eauto. by destruct Hs.
    + split; cbn; [done|done|cbn in Hc; lia|eauto|done|done].
  - destruct (stop s) eqn:Hstop; split; cbn; rewrite ?Hstop; eauto.
  - destruct (handle_step k owner request.2 (state s) a Hrep) as (a' & Hst & Hrep').
    destruct (WorkerState.handle request.2 (state s)) as [w reply]. cbn in Hst, Hrep'.
    split; cbn; [|done|done| |done|done].
    + rewrite fmap_app, <-app_assoc. exact Ha.
    + exists a'. split; [|done]. rewrite !fmap_app. by eapply archive_run_snoc.
  - pose proof (shutdown_represents (state s) a Hrep) as Hrep'.
    destruct (WorkerState.on_connection shutdown_connection (state s)) as [w r].
    split; cbn; [done|done|done|eauto|done|done].
  - split; [by rewrite Hpos|done|done|by eexists|done|by rewrite Hpos].
Qed.

Lemma try_send_Ok command s s' :
  try_send command s = Ok s' →
  s' = mk_system (capacity s) (queue s ++ [(length (accepted s), command)]) (sender s) (stop s)
         (position s) (state s) (accepted s ++ [(length (accepted s), command)]) (answered s) ∧
  sender s = true ∧ Z.of_nat (length (queue s)) < capacity s.
Proof.
  unfold try_send. destruct (sender s); [|done]. cbn [negb].
  destruct (position s); try done; destruct (Z.leb_spec (capacity s) (Z.of_nat (length (queue s)))); try done;
    by intros [= <-].
Qed.

Lemma step_ok a0 s s' : system_ok a0 s → step s s' → system_ok a0 s'.
Proof.
  intros Hok Hst. destruct Hst as [s|command s s' Hs'|s|s Hstop].
  - by apply worker_step_ok.
  - apply try_send_Ok in Hs' as (-> & Hse & Hlen). destruct Hok as [Ha Hi Hc Har Hs Hp].
    split; cbn; [|..|done|done|done].
    + rewrite Ha at 1. by rewrite <-!app_assoc.
    + rewrite fmap_app, Hi, length_app. cbn. by rewrite seq_app.
    + rewrite length_app. cbn. lia.
  - destruct Hok as [Ha Hi Hc Har Hs Hp]. split; cbn; [done..|by right|by destruct (position s)].
  - destruct Hok as [Ha Hi Hc Har Hs Hp]. split; cbn; [done..|by right|done].
Qed.
Lemma steps_ok a0 s s' : system_ok a0 s → rtc step s s' → system_ok a0 s'.
Proof. intros Hok Hr. induction Hr; eauto using step_ok. Qed.

(** Steps until everything accepted is answered, if the thread is not stopped. *)
Definition pending_steps (s : System C E) : nat :=
  let waiting := (4 * length (queue s))%nat in
  match position s with
  | Checking => waiting
  | Waiting => waiting - 1
  | Holding _ => waiting + 2
  | Executing _ => waiting + 1
  | _ => 0
  end.
Lemma pending_steps_bound s : (pending_steps s ≤ 4 * length (queue s) + 2)%nat.
Proof. unfold pending_steps. case_match; lia. Qed.

Lemma worker_step_accepted s : accepted (worker_step s) = accepted s ∧ stop (worker_step s) = stop s.
Proof.
  unfold worker_step. destruct (position s); try done.
  - by destruct (queue s).
  - by destruct (WorkerState.handle _ _).
  - by destruct (WorkerState.on_connection _ _).
Qed.
Lemma pending_steps_step a0 s :
  system_ok a0 s → stop s = false → pending_steps s ≠ 0%nat →
  pending_steps s = S (pending_steps (worker_step s)).
Proof.
  intros Hok Hs Hp. pose proof (ok_closing _ _ Hok) as Hc. unfold pending_steps, worker_step in *.
  destruct (position s) as [| |request|request|dropped|dropped result]; rewrite ?Hs in Hc; rewrite ?Hs; try done.
  - cbn in Hp |- *. lia.
  - destruct (queue s); cbn in *; [done|lia].
  - cbn. lia.
  - destruct (WorkerState.handle request.2 (state s)) as [w reply]. cbn. lia.
Qed.
Lemma run_worker_step n s : run_worker (S n) s = run_worker n (worker_step s).
Proof. unfold run_worker. by rewrite Nat.iter_succ_r. Qed.
Lemma answers_all a0 n s :
  system_ok a0 s → stop s = false → pending_steps s = n → (answered (run_worker n s)).*1 = accepted s.
Proof.
  revert s. induction n as [|n IH]; intros s Hok Hs Hn.
  - cbn. pose proof (ok_closing _ _ Hok) as Hc. pose proof (ok_accepted _ _ Hok) as Ha.
    unfold pending_steps in Hn. rewrite Hs in Hc.
    destruct (position s); try done; try lia; (destruct (queue s); [|cbn in Hn; lia]); by rewrite Ha, app_nil_r.
  - rewrite run_worker_step. destruct (worker_step_accepted s) as [<- Hst]. apply IH.
    + by apply worker_step_ok.
    + by rewrite Hst.
    + pose proof (pending_steps_step a0 s Hok Hs). lia.
Qed.

(** Steps until the thread is finished, once it is stopped. *)
Definition closing_steps (s : System C E) : nat :=
  match position s with
  | Finished _ _ => 0
  | Closing _ => 1
  | Checking | Holding _ => 2
  | Waiting | Executing _ => 3
  end.
Definition finished (s : System C E) : Prop := ∃ dropped result, position s = Finished dropped result.

Lemma finished_step s : finished s → worker_step s = s.
Proof. intros (d & r & Hp). unfold worker_step. by rewrite Hp. Qed.
Lemma closing_steps_step s :
  stop s = true → finished s ∨ (closing_steps (worker_step s) < closing_steps s)%nat.
Proof.
  intros Hs. unfold closing_steps, worker_step, finished. rewrite Hs.
  destruct (position s) as [| |request|request|dropped|dropped result] eqn:Hp; cbn; rewrite ?Hp; [right; lia|..].
  - right. destruct (queue s); [destruct (sender s); cbn; lia|cbn; lia].
  - right. lia.
  - right. destruct (WorkerState.handle request.2 (state s)). cbn. lia.
  - right. destruct (WorkerState.on_connection shutdown_connection (state s)). cbn. lia.
  - left. by do 2 eexists.
Qed.
Lemma stopped_finishes n s :
  stop s = true → (closing_steps s ≤ n)%nat → finished (run_worker n s).
Proof.
  revert s. induction n as [|n IH]; intros s Hs Hn.
  - cbn. destruct (closing_steps_step s Hs) as [?|?]; [done|lia].
  - rewrite run_worker_step. destruct (worker_step_accepted s) as [_ Hst]. apply IH; [by rewrite Hst|].
    destruct (closing_steps_step s Hs) as [Hf|?]; [|lia]. rewrite (finished_step s Hf).
    destruct Hf as (d & r & Hp). unfold closing_steps. rewrite Hp. lia.
Qed.

(** What may still be answered after the flag is set. *)
Definition last_answer (s s' : System C E) : Prop :=
  answered s' = answered s ∧ (∀ r, position s = Executing r → position s' = Executing r) ∧
    ((∀ r, position s ≠ Executing r) → ∀ r, position s' ≠ Executing r) ∨
  (∃ request reply, position s = Executing request ∧ answered s' = answered s ++ [(request, reply)]) ∧
    ∀ r, position s' ≠ Executing r.

Lemma stopped_step s s' : stop s = true → step s s' → stop s' = true ∧ last_answer s s'.
Proof.
  intros Hs Hst. unfold last_answer. destruct Hst as [s|command s s' Hs'|s|s Hstop].
  - destruct (worker_step_accepted s) as [_ ->]. split; [done|]. unfold worker_step.
    destruct (position s) as [| |request|request|dropped|dropped result] eqn:Hp; cbn; rewrite ?Hs, ?Hp.
    + by left.
    + left. destruct (queue s); [destruct (sender s)|]; by cbn.
    + by left.
    + right. destruct (WorkerState.handle request.2 (state s)). cbn. split; [by do 2 eexists|done].
    + left. by destruct (WorkerState.on_connection shutdown_connection (state s)).
    + by left.
  - apply try_send_Ok in Hs' as (-> & _). split; [done|]. left. by cbn.
  - split; [done|]. left. by cbn.
  - split; [done|]. left. by cbn.
Qed.
Lemma stopped_steps s s' : stop s = true → rtc step s s' → stop s' = true ∧ last_answer s s'.
Proof.
  intros Hs. revert s'. apply (rtc_ind_r (λ s', stop s' = true ∧ last_answer s s') s).
  - split; [done|]. by left.
  - intros s1 s2 _ Hst [Hs1 Hl]. destruct (stopped_step s1 s2 Hs1 Hst) as [Hs2 Hl2]. split; [done|].
    destruct Hl as [(Ea & He & Hn)|[(q & reply & Hq & Ea) Hn]];
      destruct Hl2 as [(Ea2 & He2 & Hn2)|[(q2 & reply2 & Hq2 & Ea2) Hn2]].
    + left. split; [congruence|]. split; [by auto|]. intros Hne. by apply Hn2, Hn.
    + right. split; [|done]. exists q2, reply2. split; [|congruence].
      destruct (position s) as [| |r|r| |] eqn:Hp; try (exfalso; by eapply Hn, Hq2).
      specialize (He r eq_refl). congruence.
    + right. split; [|by apply Hn2]. exists q, reply. split; [done|congruence].
    + exfalso. by eapply Hn, Hq2.
Qed.
End facts.

(** ** Properties *)

(** However callers and the thread interleave, every accepted command is
    answered in order, in hand, dropped by the stopped loop or queued within the
    capacity, and the replies given so far are those of the archive. *)
Theorem history_thread_invariant {C E} `{SqliteLaws C E} (k : nat) (owner capacity : Z)
    (w : WorkerState.t C) (a : Archive) (s : System C E) :
  1 ≤ capacity → represents k owner w a → rtc step (start capacity w) s → system_ok k owner a s.
Proof. intros Hc Hw. apply steps_ok. by apply start_ok. Qed.

(** While it is not stopped, the thread answers everything accepted so far
    within four steps per queued command and two more. *)
Theorem accepted_requests_answered {C E} `{SqliteLaws C E} (k : nat) (owner : Z) (a : Archive)
    (s : System C E) :
  system_ok k owner a s → stop s = false →
  ∃ n, (n ≤ 4 * length (queue s) + 2)%nat ∧ (answered (run_worker n s)).*1 = accepted s.
Proof.
  intros Hok Hs. exists (pending_steps s). split; [apply pending_steps_bound|by eapply answers_all].
Qed.

(** Once the stop flag is set the thread finishes within three steps; however
    callers interleave, no command is executed any more but the one already being
    executed, and a caller whose command was dropped is told so. *)
Theorem shutdown_abandons_queue {C E} `{SqliteLaws C E} (s : System C E) :
  stop s = true →
  finished (run_worker 3 s) ∧
  ∀ s', rtc step s s' →
    (answered s' = answered s ∨
     ∃ request reply, position s = Executing request ∧ answered s' = answered s ++ [(request, reply)]) ∧
    (finished s' → ∀ id timed_out, id ∉ (answered s').*1.*1 →
       receive_reply timed_out id s' = Some (NotReplied WorkerStopped)).
Proof.
  intros Hs. split; [apply stopped_finishes; [done|unfold closing_steps; case_match; lia]|].
  intros s' Hr. split.
  - destruct (stopped_steps s s' Hs Hr) as [_ [(? & _)|[(q & r & ? & ?) _]]]; [by left|right; eauto].
  - intros (d & r & Hp) id timed_out Hid. unfold receive_reply.
    destruct (list_find _ _) as [[i [q reply]]|] eqn:Hf.
    + apply list_find_Some in Hf as (Hl & Hq & _). exfalso. apply Hid. cbn in Hq. rewrite <-Hq.
      apply list_elem_of_fmap_2, (list_elem_of_fmap_2' fst _ (q, reply)); [|done]. by eapply list_elem_of_lookup_2.
    + unfold waiting. by rewrite Hp.
Qed.

(** Two callers and a stop, on the connection in memory. *)
Module ThreadExample.
Import HistoryExample.
#[local] Existing Instance conn_sqlite.
#[local] Existing Instance conn_laws.

Definition request (command : WorkerState.Command) (s : System conn unit) : System conn unit :=
  match try_send command s with Ok s => s | Err _ => s end.
Definition begun : System conn unit := start 2 worker.
Definition one : System conn unit := request (WorkerState.Insert (sample 10 2)) begun.
Definition two : System conn unit := request (WorkerState.Latest 5) one.

Lemma worker_represents : represents 2 7 worker (mk_archive [] 0).
Proof.
  split; [reflexivity| |reflexivity|discriminate|reflexivity|reflexivity].
  split; [vm_compute; constructor|constructor|constructor].
Qed.
Lemma two_reachable : rtc step begun two.
Proof.
  eapply rtc_l; [apply (step_request (WorkerState.Insert (sample 10 2)) begun one); reflexivity|].
  eapply rtc_l; [apply (step_request (WorkerState.Latest 5) one two); reflexivity|]. constructor.
Qed.

(** The buffer holds two commands; the third caller is refused. *)
Example third_refused : try_send WorkerState.Status two = Err QueueFull.
Proof. reflexivity. Qed.
(** Stopped while the first command is in hand: neither is executed. *)
Example stopped_in_hand :
  answered (run_worker 3 (set_stop (run_worker 2 two))) = [] ∧
  receive_reply false 0 (run_worker 3 (set_stop (run_worker 2 two))) = Some (NotReplied WorkerStopped).
Proof. vm_compute. by split. Qed.

Lemma history_thread_invariant_witness : system_ok 2 7 (mk_archive [] 0) two.
Proof.
  apply (history_thread_invariant 2 7 2 worker); [discriminate|exact worker_represents|exact two_reachable].
Defined.
Lemma accepted_requests_answered_witness :
  ∃ n, (n ≤ 4 * length (queue two) + 2)%nat ∧ (answered (run_worker n two)).*1 = accepted two.
Proof.
  apply (accepted_requests_answered 2 7 (mk_archive [] 0)); [|reflexivity].
  apply (steps_ok 2 7 _ begun); [|exact two_reachable].
  apply start_ok; [discriminate|exact worker_represents].
Defined.
Lemma shutdown_abandons_queue_witness : finished (run_worker 3 (set_stop two)).
Proof. refine (proj1 (shutdown_abandons_queue (set_stop two) _)). reflexivity. Defined.
End ThreadExample.
