(* ===== verification/Config.v ===== *)
(** * Ordinary configuration  (crates/storage/src/config/{mod,schema,validation}.rs)

    The gate every configuration document passes: the byte limit, the search for
    secret-like fields, the schema version, and the semantic validation of
    routes, endpoints, paths and the recursively bounded provider options.
    serde_json and the [url] crate are classes.  The theorems characterise what
    is accepted without mentioning the order of the checks or the counters. *)
From stdpp Require Import gmap countable prelude.
From S2P Require Import Prelude Ordering Text Externals Scope Endpoint.
Local Open Scope Z_scope.

Definition CURRENT_SCHEMA_VERSION : Z := 1.
Definition MAX_CONFIG_BYTES : Z := 256 * 1024.
Definition MAX_PROVIDER_INSTANCES : Z := 256.
Definition MAX_ACCOUNTS_PER_INSTANCE : Z := 64.
Definition MAX_TOTAL_ACCOUNTS : Z := 2048.
Definition MAX_ENDPOINT_BYTES : Z := 2048.
Definition MAX_PROVIDER_PATH_BYTES : Z := 4096.
Definition MAX_PROVIDER_OPTION_TEXT_BYTES : Z := 2048.
Definition MAX_PROVIDER_OPTION_ENTRIES : Z := 64.
Definition MAX_PROVIDER_OPTION_KEY_BYTES : Z := 128.
Definition MAX_PROVIDER_OPTION_VALUE_BYTES : Z := 4096.
Definition MAX_PROVIDER_OPTION_TOTAL_TEXT_BYTES : Z := 64 * 1024.
Definition MAX_PROVIDER_OPTION_NODES : Z := 512.
Definition MAX_PROVIDER_OPTION_DEPTH : Z := 6.

(** [Vec::len], [BTreeMap::len] *)
Definition count {A} (l : list A) : Z := Z.of_nat (length l).

(** ** Errors *)

Inductive DiagnosticCode :=
| ConfigTooLarge
| JsonInvalid
| SchemaInvalid
| UnsupportedSchemaVersion
| SecretField
| CollectionTooLarge
| TextTooLong
| InvalidProviderOption
| InvalidIdentifier
| DuplicateProvider
| DuplicateProviderOrder
| ProviderOrderMismatch
| ConflictingAccountId
| InvalidEndpoint
| UnsafeProviderPath
| ConfigReadFailed.
Record ConfigError := mk_config_error { code : DiagnosticCode }.
Definition reject {A} (c : DiagnosticCode) : Result ConfigError A := Err (mk_config_error c).

(** ** Strings *)

Fixpoint strip_prefix (prefix s : str) : option str :=
  match prefix, s with
  | [], _ => Some s
  | p :: prefix, c :: s => if p =? c then strip_prefix prefix s else None
  | _ :: _, [] => None
  end.
(** [s.split_once(pattern)]: around the first occurrence. *)
Fixpoint split_once (pattern s : str) : option (str * str) :=
  match strip_prefix pattern s with
  | Some rest => Some ([], rest)
  | None =>
      match s with
      | [] => None
      | c :: s => '(before, after) ← split_once pattern s; Some (c :: before, after)
      end
  end.
Definition contains (pattern s : str) : bool :=
  match split_once pattern s with Some _ => true | None => false end.
(** [s.split(c).next()]: what precedes the first [c], or all of [s]. *)
Fixpoint before_char (c : Z) (s : str) : str :=
  match s with
  | [] => []
  | d :: s => if d =? c then [] else d :: before_char c s
  end.
(** [s.rsplit_once(c)] *)
Definition rsplit_once (c : Z) (s : str) : option (str * str) :=
  match split_once [c] (reverse s) with
  | Some (after, before) => Some (reverse before, reverse after)
  | None => None
  end.
(** [bytes.split(|b| b == c)] *)
Fixpoint split_bytes (c : Z) (l : list Z) : list (list Z) :=
  match l with
  | [] => [[]]
  | d :: l =>
      if d =? c then [] :: split_bytes c l
      else match split_bytes c l with
           | part :: parts => (d :: part) :: parts
           | [] => [[d]]
           end
  end.

(** [u8::is_ascii_control] *)
Definition is_ascii_control (byte : Z) : bool := (byte <=? 31) || (byte =? 127).

(** ** Secret-like names *)

Definition SECRET_MARKERS : list str :=
  [lit "apikey"; lit "accesstoken"; lit "refreshtoken"; lit "bearertoken"; lit "token";
   lit "password"; lit "passwd"; lit "secret"; lit "privatekey"; lit "credential";
   lit "authorization"; lit "cookie"].
(** The ASCII letters and digits of a name, in lower case. *)
Definition normalized_key (key : str) : str :=
  to_ascii_lower <$> filter (λ b, is_ascii_alphanumeric b = true) (as_bytes key).
Definition strict_secret_like_key (key : str) : bool :=
  existsb (λ marker, contains marker (normalized_key key)) SECRET_MARKERS.
Definition secret_like_key (key : str) : bool :=
  if bool_decide (key = lit "cookie_source") then false else strict_secret_like_key key.

(** ** JSON values and the schema *)

(** [serde_json::Number] *)
Class JsonNumber := {
  Number : Type;
  as_u64 : Number → option Z;
}.

Section schema.
Context `{JsonNumber}.

(** [serde_json::Value], and a provider option, which has no null. *)
Inductive Value :=
| Null
| Bool (b : bool)
| Num (n : Number)
| String (s : str)
| Array (values : list Value)
| Object (fields : list (str * Value)).
Inductive ProviderOptionValue :=
| OptionBoolean (b : bool)
| OptionNumber (n : Number)
| OptionText (s : str)
| OptionArray (values : list ProviderOptionValue)
| OptionObject (fields : list (str * ProviderOptionValue)).

Inductive ProviderSourceMode :=
| SourceAuto | SourceWeb | SourceCli | SourceOauth | SourceApi | SourcePat | SourceApiKey
| SourceConfigurableEndpoint | SourceManualCookie | SourceBrowserSession | SourceLocal
| SourceCloudCredentials.
Inductive ProviderCookieSource := CookieAuto | CookieManual | CookieOff.

Record ProviderOptions := mk_options {
  source : option ProviderSourceMode;
  cookie_source : option ProviderCookieSource;
  extras_enabled : option bool;
  region : option str;
  workspace : option str;
  project : option str;
  organization : option str;
  team : option str;
  enterprise_host : option str;
  deployment : option str;
  extensions : list (str * ProviderOptionValue);
}.
Record AccountConfig := mk_account { account_id : AccountKey; account_enabled : bool }.
(** A path is its bytes. *)
Record ProviderConfig := mk_provider {
  provider_id : ProviderId;
  instance_id : ProviderInstanceId;
  enabled : bool;
  endpoint : option str;
  config_path : option (list Z);
  options : ProviderOptions;
  accounts : list AccountConfig;
}.
Record AppConfig := mk_config {
  schema_version : Z;
  providers : list ProviderConfig;
  provider_order : list ProviderId;
}.

(** ** Provider options *)

Record ProviderOptionBudget := mk_budget { nodes : Z; text_bytes : Z }.
Local Notation Budgeted := (SE ProviderOptionBudget ConfigError).

Definition add_node : Budgeted unit := λ b,
  match checked_add usize_max (nodes b) 1 with
  | None => (b, reject CollectionTooLarge)
  | Some nodes =>
      (mk_budget nodes (text_bytes b),
       if MAX_PROVIDER_OPTION_NODES <? nodes then reject CollectionTooLarge else Ok tt)
  end.
Definition add_text (bytes : Z) : Budgeted unit := λ b,
  match checked_add usize_max (text_bytes b) bytes with
  | None => (b, reject TextTooLong)
  | Some text_bytes =>
      (mk_budget (nodes b) text_bytes,
       if MAX_PROVIDER_OPTION_TOTAL_TEXT_BYTES <? text_bytes then reject TextTooLong else Ok tt)
  end.

Definition option_key_byte (byte : Z) : bool :=
  is_ascii_alphanumeric byte || ((byte =? 45) || (byte =? 95) || (byte =? 46)).
(** The spelling of an option key. *)
Definition option_key_ok (key : str) : bool :=
  let bytes := as_bytes key in
  negb (is_empty bytes
        || negb (match head bytes with Some b => is_ascii_alphanumeric b | None => false end)
        || negb (match last bytes with Some b => is_ascii_alphanumeric b | None => false end)
        || contains (lit "..") key
        || negb (forallb option_key_byte bytes)).
Definition validate_provider_option_key (key : str) : Budgeted unit :=
  if MAX_PROVIDER_OPTION_KEY_BYTES <? str_len key then se_fail (mk_config_error TextTooLong) else
  add_text (str_len key) ;;
  if strict_secret_like_key key then se_fail (mk_config_error SecretField) else
  if option_key_ok key then mret tt else se_fail (mk_config_error InvalidProviderOption).

Definition child_depth (depth : Z) : Result ConfigError Z :=
  match checked_add usize_max depth 1 with Some depth => Ok depth | None => reject CollectionTooLarge end.

(** [for x in xs { body(x)?; }], for a recursive [body]. *)
Definition se_each {A} (body : A → Budgeted unit) : list A → Budgeted unit :=
  fix each xs := match xs with [] => mret tt | x :: xs => body x ;; each xs end.
(** [validate_provider_option_map] over a validator of values. *)
Definition map_with (value : Z → ProviderOptionValue → Budgeted unit)
    (options : list (str * ProviderOptionValue)) (depth : Z) : Budgeted unit :=
  if (MAX_PROVIDER_OPTION_DEPTH <? depth) || (MAX_PROVIDER_OPTION_ENTRIES <? count options)
  then se_fail (mk_config_error CollectionTooLarge) else
  se_each (λ entry, validate_provider_option_key entry.1 ;; value depth entry.2) options.
Fixpoint validate_provider_option_value (depth : Z) (value : ProviderOptionValue) {struct value} : Budgeted unit :=
  add_node ;;
  match value with
  | OptionBoolean _ | OptionNumber _ => mret tt
  | OptionText text =>
      if MAX_PROVIDER_OPTION_VALUE_BYTES <? str_len text then se_fail (mk_config_error TextTooLong) else
      if existsb is_control text then se_fail (mk_config_error InvalidProviderOption) else
      add_text (str_len text)
  | OptionArray values =>
      if MAX_PROVIDER_OPTION_ENTRIES <? count values then se_fail (mk_config_error CollectionTooLarge) else
      depth ← se_lift (child_depth depth);
      if MAX_PROVIDER_OPTION_DEPTH <? depth then se_fail (mk_config_error CollectionTooLarge) else
      se_each (validate_provider_option_value depth) values
  | OptionObject values =>
      depth ← se_lift (child_depth depth);
      map_with validate_provider_option_value values depth
  end.
Definition validate_provider_option_map (options : list (str * ProviderOptionValue)) (depth : Z) :
    Budgeted unit :=
  map_with validate_provider_option_value options depth.

Definition validate_common_option_text (value : str) : Result ConfigError unit :=
  if MAX_PROVIDER_OPTION_TEXT_BYTES <? str_len value then reject TextTooLong else
  if is_empty value || negb (bool_decide (trim value = value)) || existsb is_control value
  then reject InvalidProviderOption else Ok tt.
Definition common_options (o : ProviderOptions) : list str :=
  omap id [region o; workspace o; project o; organization o; team o; enterprise_host o; deployment o].
Definition validate_provider_options (o : ProviderOptions) : Result ConfigError unit :=
  traverse_list validate_common_option_text (common_options o) ;;
  (validate_provider_option_map (extensions o) 0 (mk_budget 0 0)).2.

(** ** Identifiers, endpoints and paths *)

Definition lower_or_digit (byte : Z) : bool := is_ascii_lower byte || is_ascii_digit byte.
Definition identifier_byte (allow_at : bool) (byte : Z) : bool :=
  lower_or_digit byte
  || ((byte =? 45) || (byte =? 95) || (byte =? 46) || (byte =? 58) || (byte =? 43))
  || (allow_at && (byte =? 64)).
Definition canonical_identifier (value : str) (allow_at : bool) : bool :=
  let bytes := as_bytes value in
  if is_empty value || bool_decide (value = lit ".") || bool_decide (value = lit "..")
     || contains (lit "..") value then false else
  if negb (match head bytes with Some b => lower_or_digit b | None => false end)
     || negb (match last bytes with Some b => lower_or_digit b | None => false end)
  then false else forallb (identifier_byte allow_at) bytes.

(** [Ipv4Addr::to_string] *)
Definition v4_to_string (a : Ipv4Addr) : str :=
  show_u64 (o0 a) ++ lit "." ++ show_u64 (o1 a) ++ lit "." ++ show_u64 (o2 a) ++ lit "." ++ show_u64 (o3 a).
(** [Ipv6Addr::to_string]: an IPv4-mapped address ends in dotted decimals; else
    the first longest run of at least two zero segments is written "::". *)
Definition hex_char (n : Z) : Z := if n <? 10 then 48 + n else 87 + n.
Definition show_hex (n : Z) : str :=
  if n <? 16 then [hex_char n]
  else if n <? 256 then [hex_char (n / 16); hex_char (n mod 16)]
  else if n <? 4096 then [hex_char (n / 256); hex_char (n / 16 mod 16); hex_char (n mod 16)]
  else [hex_char (n / 4096); hex_char (n / 256 mod 16); hex_char (n / 16 mod 16); hex_char (n mod 16)].
Fixpoint join_colon (parts : list str) : str :=
  match parts with
  | [] => []
  | [part] => part
  | part :: parts => part ++ [58] ++ join_colon parts
  end.
Fixpoint zero_run (l : list Z) : nat :=
  match l with s :: l => if s =? 0 then S (zero_run l) else O | [] => O end.
(** The start and length of the first longest run of zeros. *)
Fixpoint longest_zeros (position : nat) (l : list Z) : nat * nat :=
  match l with
  | [] => (O, O)
  | s :: l' =>
      let later := longest_zeros (S position) l' in
      if (later.2 <=? zero_run l)%nat then (position, zero_run l) else later
  end.
Definition v6_to_string (a : Ipv6Addr) : str :=
  let l := Ipv6.segments a in
  if bool_decide (take 6 l = [0; 0; 0; 0; 0; 0xffff]) then
    lit "::ffff:" ++ v4_to_string (mk_v4 (s6 a / 256) (s6 a mod 256) (s7 a / 256) (s7 a mod 256))
  else
    let '(start, length) := longest_zeros 0 l in
    if (1 <? length)%nat
    then join_colon (show_hex <$> take start l) ++ lit "::" ++ join_colon (show_hex <$> drop (start + length) l)
    else join_colon (show_hex <$> l).

(** The text between the scheme and the next slash. *)
Definition authority (endpoint : str) : option str :=
  (λ parts, before_char 47 parts.2) <$> split_once (lit "://") endpoint.
Definition has_nonempty_authority (endpoint : str) : bool :=
  match authority endpoint with Some a => negb (is_empty a) | None => false end.
Definition authority_contains_at_sign (endpoint : str) : bool :=
  match authority endpoint with Some a => bool_decide (64 ∈ a) | None => false end.

Definition port_ok (port : str) : bool := negb (is_empty port) && forallb is_ascii_digit (as_bytes port).
Definition raw_http_host (endpoint : str) : option str :=
  rest ← strip_prefix (lit "http://") endpoint;
  let authority := before_char 47 rest in
  if is_empty authority then None else
  match strip_prefix [91] authority with
  | Some bracketed =>
      '(host, suffix) ← split_once [93] bracketed;
      if is_empty suffix
         || match strip_prefix [58] suffix with Some port => port_ok port | None => false end
      then Some host else None
  | None =>
      match rsplit_once 58 authority with
      | Some (host, port) => if port_ok port then Some host else None
      | None => Some authority
      end
  end.

Definition is_canonical_loopback (endpoint : str) (h : Host) : bool :=
  match raw_http_host endpoint with
  | None => false
  | Some raw_host =>
      match h with
      | Domain domain =>
          eq_ignore_ascii_case domain (lit "localhost") && eq_ignore_ascii_case raw_host domain
      | HostIpv4 address => Ipv4.is_loopback address && bool_decide (raw_host = v4_to_string address)
      | HostIpv6 address => Ipv6.is_loopback address && bool_decide (raw_host = v6_to_string address)
      end
  end.
Definition is_canonical_private_network (endpoint : str) (h : Host) : bool :=
  if is_canonical_loopback endpoint h then true else
  match raw_http_host endpoint with
  | None => false
  | Some raw_host =>
      match h with
      | Domain domain =>
          match suffix_after_last_dot (trim_end_dots domain) with
          | Some suffix => eq_ignore_ascii_case suffix (lit "local")
          | None => false
          end && eq_ignore_ascii_case raw_host domain
      | HostIpv4 address =>
          (Ipv4.is_private address || Ipv4.is_link_local address)
          && bool_decide (raw_host = v4_to_string address)
      | HostIpv6 address =>
          ((Z.land (s0 address) 0xfe00 =? 0xfc00) || (Z.land (s0 address) 0xffc0 =? 0xfe80))
          && bool_decide (raw_host = v6_to_string address)
      end
  end.

Definition loopback_provider (p : ProviderId) : bool :=
  match p with ProviderId.Ollama | ProviderId.Sub2Api | ProviderId.Wayfinder => true | _ => false end.
Definition private_provider (p : ProviderId) : bool :=
  match p with ProviderId.LiteLlm | ProviderId.LlmProxy => true | _ => false end.

Definition validate_endpoint `{UrlCrate} (provider : ProviderId) (endpoint : str) :
    Result ConfigError unit :=
  if MAX_ENDPOINT_BYTES <? str_len endpoint then reject TextTooLong else
  match url_parse endpoint with
  | None => reject InvalidEndpoint
  | Some parsed =>
      if negb (is_empty (username parsed))
         || match password parsed with Some _ => true | None => false end
         || match query parsed with Some _ => true | None => false end
         || match fragment parsed with Some _ => true | None => false end
         || negb (has_nonempty_authority endpoint)
         || authority_contains_at_sign endpoint
      then reject InvalidEndpoint else
      match host parsed with
      | None => reject InvalidEndpoint
      | Some h =>
          if is_https (scheme parsed) then Ok tt
          else if is_http (scheme parsed) && (loopback_provider provider && is_canonical_loopback endpoint h)
          then Ok tt
          else if is_http (scheme parsed) && (private_provider provider && is_canonical_private_network endpoint h)
          then Ok tt
          else reject InvalidEndpoint
      end
  end.

Definition validate_provider_path (path : list Z) : Result ConfigError unit :=
  if MAX_PROVIDER_PATH_BYTES <? count path then reject TextTooLong else
  if negb (bool_decide (head path = Some 47)) || (count path <? 2)
     || match strip_prefix (lit "//") path with Some _ => true | None => false end
     || bool_decide (last path = Some 47)
     || existsb is_ascii_control path
     || existsb (λ component, is_empty component || bool_decide (component = lit ".")
                              || bool_decide (component = lit "..")) (split_bytes 47 (tail path))
  then reject UnsafeProviderPath else Ok tt.

(** ** The whole configuration *)

(** The sets and the total of the loop over providers. *)
Record RouteScan := mk_scan {
  routes : gset (ProviderId * str);
  configured_providers : gset ProviderId;
  total_accounts : Z;
}.

Fixpoint validate_accounts (seen : gset str) (l : list AccountConfig) : Result ConfigError unit :=
  match l with
  | [] => Ok tt
  | account :: l =>
      let id := AccountKey.as_str (account_id account) in
      if negb (canonical_identifier id false) then reject InvalidIdentifier else
      if bool_decide (id ∈ seen) then reject ConflictingAccountId else
      validate_accounts ({[id]} ∪ seen) l
  end.
Definition validate_provider `{UrlCrate} (scan : RouteScan) (p : ProviderConfig) :
    Result ConfigError RouteScan :=
  let instance := ProviderInstanceId.as_str (instance_id p) in
  if negb (canonical_identifier instance true) then reject InvalidIdentifier else
  if bool_decide ((provider_id p, instance) ∈ routes scan) then reject DuplicateProvider else
  if MAX_ACCOUNTS_PER_INSTANCE <? count (accounts p) then reject CollectionTooLarge else
  match checked_add usize_max (total_accounts scan) (count (accounts p)) with
  | None => reject CollectionTooLarge
  | Some total =>
      if MAX_TOTAL_ACCOUNTS <? total then reject CollectionTooLarge else
      validate_accounts ∅ (accounts p) ;;
      match endpoint p with Some e => validate_endpoint (provider_id p) e | None => Ok tt end ;;
      match config_path p with Some path => validate_provider_path path | None => Ok tt end ;;
      validate_provider_options (options p) ;;
      Ok (mk_scan ({[(provider_id p, instance)]} ∪ routes scan)
            ({[provider_id p]} ∪ configured_providers scan) total)
  end.
Fixpoint validate_providers `{UrlCrate} (scan : RouteScan) (l : list ProviderConfig) :
    Result ConfigError RouteScan :=
  match l with
  | [] => Ok scan
  | p :: l => scan ← validate_provider scan p; validate_providers scan l
  end.
Fixpoint validate_order (seen : gset ProviderId) (l : list ProviderId) : Result ConfigError (gset ProviderId) :=
  match l with
  | [] => Ok seen
  | p :: l => if bool_decide (p ∈ seen) then reject DuplicateProviderOrder else validate_order ({[p]} ∪ seen) l
  end.
Definition validate_config `{UrlCrate} (config : AppConfig) : Result ConfigError unit :=
  if negb (schema_version config =? CURRENT_SCHEMA_VERSION) then reject UnsupportedSchemaVersion else
  if (MAX_PROVIDER_INSTANCES <? count (providers config))
     || (count ProviderId.ALL <? count (provider_order config)) then reject CollectionTooLarge else
  scan ← validate_providers (mk_scan ∅ ∅ 0) (providers config);
  ordered_providers ← validate_order ∅ (provider_order config);
  if negb (bool_decide (ordered_providers = configured_providers scan)) then reject ProviderOrderMismatch
  else Ok tt.

(** ** Loading *)

Fixpoint contains_secret_like_field (value : Value) : bool :=
  match value with
  | Object fields =>
      existsb (λ field, secret_like_key field.1 || contains_secret_like_field field.2) fields
  | Array values => existsb contains_secret_like_field values
  | _ => false
  end.
(** [value.get(name)] *)
Definition get_field (name : str) (value : Value) : option Value :=
  match value with
  | Object fields =>
      match list_find (λ field, field.1 = name) fields with Some (_, field) => Some field.2 | None => None end
  | _ => None
  end.
End schema.
Arguments Value {_}. Arguments ProviderOptionValue {_}. Arguments AppConfig {_}.

(** serde_json, on the two types the program reads. *)
Class ConfigJson `{JsonNumber} := {
  value_from_slice : list Z → option Value;
  config_from_slice : list Z → option AppConfig;
}.

Definition load_config_bytes `{ConfigJson, UrlCrate} (bytes : list Z) : Result ConfigError AppConfig :=
  if MAX_CONFIG_BYTES <? count bytes then reject ConfigTooLarge else
  value ← ok_or (value_from_slice bytes) (mk_config_error JsonInvalid);
  if contains_secret_like_field value then reject SecretField else
  match get_field (lit "schema_version") value with
  | Some (Num version) =>
      if bool_decide (as_u64 version = Some CURRENT_SCHEMA_VERSION) then Ok tt
      else reject UnsupportedSchemaVersion
  | _ => reject SchemaInvalid
  end ;;
  config ← ok_or (config_from_slice bytes) (mk_config_error SchemaInvalid);
  validate_config config ;;
  Ok config.

(** ** What a valid configuration is *)

Section specification.
Context `{JsonNumber, UrlCrate}.

(** Values and text bytes of a provider option, and its local conditions at a
    nesting depth. *)
Definition total {A} (f : A → Z) (l : list A) : Z := foldr (λ x n, f x + n) 0 l.
Fixpoint value_nodes (v : ProviderOptionValue) : Z :=
  1 + match v with
      | OptionArray values => total value_nodes values
      | OptionObject fields => total (λ field, value_nodes field.2) fields
      | _ => 0
      end.
Fixpoint value_text (v : ProviderOptionValue) : Z :=
  match v with
  | OptionText text => str_len text
  | OptionArray values => total value_text values
  | OptionObject fields => total (λ field, str_len field.1 + value_text field.2) fields
  | _ => 0
  end.
Definition key_ok (key : str) : bool :=
  (str_len key <=? MAX_PROVIDER_OPTION_KEY_BYTES) && negb (strict_secret_like_key key) && option_key_ok key.
Definition fields_ok (value_ok : Z → ProviderOptionValue → bool) (depth : Z)
    (fields : list (str * ProviderOptionValue)) : bool :=
  (depth <=? MAX_PROVIDER_OPTION_DEPTH) && (count fields <=? MAX_PROVIDER_OPTION_ENTRIES)
  && forallb (λ field, key_ok field.1 && value_ok depth field.2) fields.
Fixpoint value_ok (depth : Z) (v : ProviderOptionValue) {struct v} : bool :=
  match v with
  | OptionBoolean _ | OptionNumber _ => true
  | OptionText text =>
      (str_len text <=? MAX_PROVIDER_OPTION_VALUE_BYTES) && negb (existsb is_control text)
  | OptionArray values =>
      (count values <=? MAX_PROVIDER_OPTION_ENTRIES) && (depth + 1 <=? MAX_PROVIDER_OPTION_DEPTH)
      && forallb (value_ok (depth + 1)) values
  | OptionObject fields => fields_ok value_ok (depth + 1) fields
  end.

(** Bounded options: each common text is trimmed and short, the extensions keep
    their shape, and all of them together the two totals. *)
Record valid_options (o : ProviderOptions) : Prop := {
  options_texts : Forall (λ text, str_len text ≤ MAX_PROVIDER_OPTION_TEXT_BYTES ∧ text ≠ [] ∧
    trim text = text ∧ Forall (λ c, is_control c = false) text) (common_options o);
  options_shape : fields_ok value_ok 0 (extensions o) = true;
  options_nodes : total (λ field, value_nodes field.2) (extensions o) ≤ MAX_PROVIDER_OPTION_NODES;
  options_text : total (λ field, str_len field.1 + value_text field.2) (extensions o)
    ≤ MAX_PROVIDER_OPTION_TOTAL_TEXT_BYTES;
}.

(** An absolute path of plain components. *)
Definition plain_component (c : list Z) : Prop :=
  c ≠ [] ∧ c ≠ lit "." ∧ c ≠ lit ".." ∧ 47 ∉ c ∧ Forall (λ b, is_ascii_control b = false) c.
Definition safe_path (path : list Z) : Prop :=
  count path ≤ MAX_PROVIDER_PATH_BYTES ∧
  ∃ components, components ≠ [] ∧ path = concat ((λ c, 47 :: c) <$> components) ∧
    Forall plain_component components.

Definition route (p : ProviderConfig) : ProviderId * str :=
  (provider_id p, ProviderInstanceId.as_str (instance_id p)).
Definition account_key (a : AccountConfig) : str := AccountKey.as_str (account_id a).

Record valid_provider (p : ProviderConfig) : Prop := {
  provider_instance : canonical_identifier (route p).2 true = true;
  provider_accounts : count (accounts p) ≤ MAX_ACCOUNTS_PER_INSTANCE;
  provider_keys : Forall (λ a, canonical_identifier (account_key a) false = true) (accounts p);
  provider_keys_distinct : NoDup (account_key <$> accounts p);
  provider_endpoint : ∀ e, endpoint p = Some e → validate_endpoint (provider_id p) e = Ok tt;
  provider_path : ∀ path, config_path p = Some path → safe_path path;
  provider_options : valid_options (options p);
}.
Record valid_config (config : AppConfig) : Prop := {
  valid_version : schema_version config = CURRENT_SCHEMA_VERSION;
  valid_count : count (providers config) ≤ MAX_PROVIDER_INSTANCES;
  valid_providers : Forall valid_provider (providers config);
  valid_routes : NoDup (route <$> providers config);
  valid_total : total (λ p, count (accounts p)) (providers config) ≤ MAX_TOTAL_ACCOUNTS;
  valid_order : NoDup (provider_order config);
  valid_groups : ∀ p, p ∈ provider_order config ↔ p ∈ provider_id <$> providers config;
}.

Lemma if_reject_Ok (b : bool) c : (if b then reject c else Ok tt) = Ok tt ↔ b = false.
Proof. by destruct b. Qed.

(** ** The option budget is a sum *)

Definition budget_ok (b : ProviderOptionBudget) : Prop :=
  0 ≤ nodes b ≤ MAX_PROVIDER_OPTION_NODES ∧ 0 ≤ text_bytes b ≤ MAX_PROVIDER_OPTION_TOTAL_TEXT_BYTES.
(** [m] succeeds exactly when [ok] holds and [n] nodes and [t] bytes are left,
    which it takes. *)
Definition measures (m : SE ProviderOptionBudget ConfigError unit) (ok : bool) (n t : Z) : Prop :=
  0 ≤ n ∧ 0 ≤ t ∧ ∀ b b', budget_ok b →
    m b = (b', Ok tt) ↔ ok = true ∧ b' = mk_budget (nodes b + n) (text_bytes b + t) ∧ budget_ok b'.

Lemma measures_ret : measures (mret tt) true 0 0.
Proof.
  split; [lia|]. split; [lia|]. intros [n t] b' Hb. cbn. rewrite !Z.add_0_r. split.
  - by intros [= <-].
  - by intros (_ & -> & _).
Qed.
Lemma measures_fail e : measures (se_fail e) false 0 0.
Proof. split; [lia|]. split; [lia|]. intros b b' _. by split; [|intros [? _]]. Qed.
Lemma measures_node : measures add_node true 1 0.
Proof.
  split; [lia|]. split; [lia|]. intros [n t] b' [Hn Ht]. unfold add_node, checked_add, budget_ok in *. cbn in *.
  change MAX_PROVIDER_OPTION_NODES with 512 in *. rewrite Z.add_0_r.
  rewrite (proj2 (Z.leb_le (n + 1) usize_max)) by (change usize_max with 18446744073709551615; lia).
  destruct (Z.ltb_spec 512 (n + 1)); cbn; split; try done.
  - intros (_ & -> & ?). cbn in *. lia.
  - intros [= <-]. cbn. split; [done|]. split; [done|]. lia.
  - by intros (_ & -> & _).
Qed.
Lemma measures_text t : 0 ≤ t → measures (add_text t) true 0 t.
Proof.
  intros Hp. split; [lia|]. split; [lia|]. intros [n t0] b' [Hn Ht]. unfold add_text, checked_add, budget_ok in *. cbn in *.
  change MAX_PROVIDER_OPTION_TOTAL_TEXT_BYTES with 65536 in *. rewrite Z.add_0_r.
  destruct (Z.leb_spec (t0 + t) usize_max) as [Hu|Hu].
  - destruct (Z.ltb_spec 65536 (t0 + t)); cbn; split; try done.
    + intros (_ & -> & ?). cbn in *. lia.
    + intros [= <-]. cbn. split; [done|]. split; [done|]. lia.
    + by intros (_ & -> & _).
  - change usize_max with 18446744073709551615 in Hu. split; [done|].
    intros (_ & -> & ?). cbn in *. lia.
Qed.
Lemma measures_bind m m' ok ok' n n' t t' :
  measures m ok n t → measures m' ok' n' t' → measures (m ;; m') (ok && ok') (n + n') (t + t').
Proof.
  intros (Hn & Ht & Hm) (Hn' & Ht' & Hm'). split; [lia|]. split; [lia|]. intros b b' Hb.
  rewrite se_bind_Ok, andb_true_iff. split.
  - intros (b1 & [] & H1%Hm & H2); [|done]. destruct H1 as (-> & -> & Hb1).
    apply Hm' in H2 as (-> & -> & Hb2); [|done]. cbn in *. by rewrite !Z.add_assoc.
  - intros [[-> ->] [-> Hb2]]. exists (mk_budget (nodes b + n) (text_bytes b + t)), tt.
    assert (budget_ok (mk_budget (nodes b + n) (text_bytes b + t))) as Hb1
      by (destruct Hb, Hb2 as [Hb2 Hb3]; cbn in Hb2, Hb3; split; cbn; lia).
    split; [by apply Hm|]. apply (Hm' _ _ Hb1). cbn. rewrite <-!Z.add_assoc. split; [done|]. split; [done|exact Hb2].
Qed.
Lemma measures_guard (c : bool) m e ok n t :
  measures m ok n t → measures (if c then se_fail e else m) (negb c && ok) n t.
Proof.
  intros Hm. destruct c; [|exact Hm]. destruct Hm as (Hn & Ht & _). split; [done|]. split; [done|].
  intros b b' _. by split; [|intros [? _]].
Qed.
Lemma measures_eq m ok ok' n n' t t' :
  measures m ok n t → ok = ok' → n = n' → t = t' → measures m ok' n' t'.
Proof. by intros Hm <- <- <-. Qed.
Lemma measures_each {A} (body : A → SE ProviderOptionBudget ConfigError unit) ok n t l :
  Forall (λ x, measures (body x) (ok x) (n x) (t x)) l →
  measures (se_each body l) (forallb ok l) (total n l) (total t l).
Proof.
  induction 1 as [|x l Hx Hl IH]; [exact measures_ret|]. by apply measures_bind.
Qed.

(** Induction over nested values. *)
Section induction.
Context (P : ProviderOptionValue → Prop)
  (HB : ∀ b, P (OptionBoolean b)) (HN : ∀ n, P (OptionNumber n)) (HT : ∀ s, P (OptionText s))
  (HA : ∀ values, Forall P values → P (OptionArray values))
  (HO : ∀ fields, Forall (λ f, P f.2) fields → P (OptionObject fields)).
Fixpoint option_value_nested (v : ProviderOptionValue) : P v :=
  match v with
  | OptionBoolean b => HB b
  | OptionNumber n => HN n
  | OptionText s => HT s
  | OptionArray values =>
      HA values ((fix all l := match l return Forall P l with
                               | [] => Forall_nil_2 _
                               | v :: l => Forall_cons_2 _ _ _ (option_value_nested v) (all l)
                               end) values)
  | OptionObject fields =>
      HO fields ((fix all l := match l return Forall (λ f, P f.2) l with
                               | [] => Forall_nil_2 _
                               | f :: l => Forall_cons_2 _ _ _ (option_value_nested f.2) (all l)
                               end) fields)
  end.
End induction.

Lemma ltb_negb a b : negb (a <? b) = (b <=? a).
Proof. destruct (Z.ltb_spec a b), (Z.leb_spec b a); cbn; lia || done. Qed.

Lemma measures_key key : measures (validate_provider_option_key key) (key_ok key) 0 (str_len key).
Proof.
  pose proof (str_len_nonneg key) as Hk. unfold validate_provider_option_key, key_ok.
  assert (measures (if strict_secret_like_key key then se_fail (mk_config_error SecretField) else
    if option_key_ok key then mret tt else se_fail (mk_config_error InvalidProviderOption))
    (negb (strict_secret_like_key key) && option_key_ok key) 0 0) as Ht.
  { apply measures_guard. destruct (option_key_ok key); [apply measures_ret|apply measures_fail]. }
  eapply measures_eq; [exact (measures_guard _ _ _ _ _ _ (measures_bind _ _ _ _ _ _ _ _ (measures_text _ Hk) Ht))|..].
  - by rewrite ltb_negb, <-andb_assoc.
  - lia.
  - lia.
Qed.

Lemma total_nonneg {A} (f : A → Z) l : Forall (λ x, 0 ≤ f x) l → 0 ≤ total f l.
Proof.
  induction 1 as [|x l Hx Hl IH]; [done|]. change (0 ≤ f x + total f l). lia.
Qed.
Lemma value_sizes v : 0 ≤ value_nodes v ∧ 0 ≤ value_text v.
Proof.
  induction v as [b|n|s|values IH|fields IH] using option_value_nested; cbn; try lia.
  - pose proof (str_len_nonneg s). lia.
  - apply Forall_and in IH as [Hn%total_nonneg Ht%total_nonneg].
    change (λ x : ProviderOptionValue, value_nodes x) with value_nodes in Hn.
    change (λ x : ProviderOptionValue, value_text x) with value_text in Ht. lia.
  - apply Forall_and in IH as [Hn Ht].
    pose proof (total_nonneg (λ f : str * ProviderOptionValue, value_nodes f.2) fields Hn).
    split; [lia|]. apply total_nonneg. eapply Forall_impl; [exact Ht|].
    cbn. intros f ?. pose proof (str_len_nonneg f.1). lia.
Qed.

(** A limit checked before the rest. *)
Lemma measures_within (c : bool) m e ok n t :
  0 ≤ n → 0 ≤ t → (c = false → measures m ok n t) →
  measures (if c then se_fail e else m) (negb c && ok) n t.
Proof.
  intros Hn Ht Hm. destruct c; [|by apply Hm]. split; [done|]. split; [done|].
  intros b b' _. by split; [|intros [? _]].
Qed.

Lemma measures_map value fields depth :
  (depth ≤ MAX_PROVIDER_OPTION_DEPTH →
   Forall (λ f, measures (value depth f.2) (value_ok depth f.2) (value_nodes f.2) (value_text f.2)) fields) →
  measures (map_with value fields depth) (fields_ok value_ok depth fields)
    (total (λ f, value_nodes f.2) fields) (total (λ f, str_len f.1 + value_text f.2) fields).
Proof.
  intros Hf. unfold map_with, fields_ok.
  eapply measures_eq; [apply measures_within|cbn; by rewrite negb_orb, !ltb_negb|done|done].
  - apply total_nonneg, Forall_forall. intros f _. by apply value_sizes.
  - apply total_nonneg, Forall_forall. intros f _. cbn. pose proof (value_sizes f.2). pose proof (str_len_nonneg f.1). lia.
  - intros [Hd%Z.ltb_ge _]%orb_false_iff. apply measures_each.
    eapply Forall_impl; [exact (Hf Hd)|]. cbn. intros f Hv. apply (measures_bind _ _ _ _ 0 _ _ _ (measures_key f.1) Hv).
Qed.

Lemma child_depth_Ok depth :
  0 ≤ depth ≤ MAX_PROVIDER_OPTION_DEPTH → child_depth depth = Ok (depth + 1).
Proof.
  intros Hd. unfold child_depth, checked_add. change MAX_PROVIDER_OPTION_DEPTH with 6 in Hd.
  rewrite (proj2 (Z.leb_le _ _)); [done|]. change usize_max with 18446744073709551615. lia.
Qed.

Lemma measures_value v depth : 0 ≤ depth ≤ MAX_PROVIDER_OPTION_DEPTH →
  measures (validate_provider_option_value depth v) (value_ok depth v) (value_nodes v) (value_text v).
Proof.
  revert depth. induction v as [b|n|s|values IH|fields IH] using option_value_nested; intros depth Hd.
  - apply (measures_bind _ _ true true 1 0 0 0 measures_node measures_ret).
  - apply (measures_bind _ _ true true 1 0 0 0 measures_node measures_ret).
  - cbn. eapply measures_eq; [apply measures_bind; [apply measures_node|]|..].
    + apply measures_guard, measures_guard, measures_text, str_len_nonneg.
    + cbn. by rewrite ltb_negb, andb_true_r.
    + lia.
    + lia.
  - cbn [validate_provider_option_value value_ok value_nodes value_text].
    rewrite (child_depth_Ok depth Hd).
    eapply measures_eq; [apply measures_bind; [apply measures_node|apply measures_guard, measures_within]|
      cbn; by rewrite !ltb_negb, <-andb_assoc|done|done].
    + apply total_nonneg, Forall_forall. intros v _. by apply value_sizes.
    + apply total_nonneg, Forall_forall. intros v _. by apply value_sizes.
    + intros Hc%Z.ltb_ge. apply measures_each. eapply Forall_impl; [exact IH|]. cbn. intros v Hv. apply Hv. lia.
  - cbn [validate_provider_option_value value_ok value_nodes value_text].
    rewrite (child_depth_Ok depth Hd).
    eapply measures_eq; [apply measures_bind; [apply measures_node|apply measures_map; intros Hc]|done..].
    eapply Forall_impl; [exact IH|]. cbn. intros f Hv. apply Hv. lia.
Qed.

Lemma validate_common_Ok text :
  validate_common_option_text text = Ok tt ↔
  str_len text ≤ MAX_PROVIDER_OPTION_TEXT_BYTES ∧ text ≠ [] ∧ trim text = text ∧
  Forall (λ c, is_control c = false) text.
Proof.
  unfold validate_common_option_text.
  destruct (Z.ltb_spec MAX_PROVIDER_OPTION_TEXT_BYTES (str_len text)); [split; [done|lia]|].
  assert (existsb is_control text = false ↔ Forall (λ c, is_control c = false) text) as Hc.
  { rewrite <-not_true_iff_false, existsb_exists, Forall_forall. setoid_rewrite list_elem_of_In.
    setoid_rewrite <-not_true_iff_false. naive_solver. }
  rewrite <-Hc. destruct text as [|c text]; [cbn; naive_solver|].
  destruct (bool_decide_reflect (trim (c :: text) = c :: text)), (existsb is_control (c :: text)); cbn; naive_solver.
Qed.

Lemma validate_options_Ok o : validate_provider_options o = Ok tt ↔ valid_options o.
Proof.
  unfold validate_provider_options. rewrite bind_Ok.
  destruct (measures_map validate_provider_option_value (extensions o) 0) as (_ & _ & Hm).
  { intros _. apply Forall_forall. intros f _. apply measures_value. change MAX_PROVIDER_OPTION_DEPTH with 6. lia. }
  assert (budget_ok (mk_budget 0 0)) as Hb by done.
  assert ((validate_provider_option_map (extensions o) 0 (mk_budget 0 0)).2 = Ok tt ↔
    fields_ok value_ok 0 (extensions o) = true ∧
    total (λ f, value_nodes f.2) (extensions o) ≤ MAX_PROVIDER_OPTION_NODES ∧
    total (λ f, str_len f.1 + value_text f.2) (extensions o) ≤ MAX_PROVIDER_OPTION_TOTAL_TEXT_BYTES) as Hmap.
  { unfold validate_provider_option_map. split.
    - destruct (map_with _ _ _ _) as [b' r] eqn:Hr. cbn. intros ->.
      apply (Hm _ b' Hb) in Hr as (? & -> & [[_ ?] [_ ?]]). done.
    - intros (Hok & Hn & Ht).
      rewrite (proj2 (Hm _ (mk_budget (0 + total (λ f, value_nodes f.2) (extensions o))
        (0 + total (λ f, str_len f.1 + value_text f.2) (extensions o))) Hb)); [done|]. split; [done|]. split; [done|].
      split; cbn; (split; [|done]); apply total_nonneg, Forall_forall; intros f _; cbn;
        pose proof (value_sizes f.2); pose proof (str_len_nonneg f.1); lia. }
  split.
  - intros (us & Hus & (? & ? & ?)%Hmap). split; [|done..]. apply traverse_list_Ok in Hus.
    eapply Forall2_Forall_l; [exact Hus|]. apply Forall_forall. intros [] _ text. apply validate_common_Ok.
  - intros [Ht ? ? ?]. exists ((λ _, tt) <$> common_options o). split; [|by apply Hmap]. apply traverse_list_Ok.
    apply Forall2_fmap_r. apply Forall_Forall2_diag. eapply Forall_impl; [exact Ht|].
    intros text. apply validate_common_Ok.
Qed.

(** ** Paths *)

Lemma split_bytes_nonempty c l : split_bytes c l ≠ [].
Proof. destruct l as [|d l]; cbn; [done|]. destruct (d =? c); [done|]. by destruct (split_bytes c l). Qed.
(** The parts, each preceded by the separator, and none containing it. *)
Lemma split_bytes_spec c l :
  concat (cons c <$> split_bytes c l) = c :: l ∧ Forall (λ part, c ∉ part) (split_bytes c l).
Proof.
  induction l as [|d l [IHc IHf]]; cbn.
  - split; [done|]. constructor; [apply not_elem_of_nil|constructor].
  - destruct (Z.eqb_spec d c) as [->|Hd].
    + split; [cbn; by rewrite IHc|]. constructor; [apply not_elem_of_nil|done].
    + pose proof (split_bytes_nonempty c l). destruct (split_bytes c l) as [|part parts]; [done|].
      cbn in *. injection IHc as IHc. apply Forall_cons in IHf as [Hp Hf]. split; [by rewrite IHc|].
      constructor; [|done]. intros [?|?]%elem_of_cons; congruence || done.
Qed.
Lemma split_bytes_unique c parts :
  parts ≠ [] → Forall (λ part, c ∉ part) parts →
  split_bytes c (tail (concat (cons c <$> parts))) = parts.
Proof.
  intros Hne Hf. destruct parts as [|part parts]; [done|]. clear Hne. cbn.
  revert part Hf. induction parts as [|part' parts IH]; intros part [Hp Hf]%Forall_cons; cbn.
  - rewrite app_nil_r. induction part as [|d part IHp]; [done|]. cbn.
    apply not_elem_of_cons in Hp as [Hd Hp]. rewrite (proj2 (Z.eqb_neq d c)) by congruence.
    by rewrite IHp.
  - specialize (IH part' Hf). cbn in IH. induction part as [|d part IHp]; cbn.
    + by rewrite Z.eqb_refl, IH.
    + apply not_elem_of_cons in Hp as [Hd Hp]. rewrite (proj2 (Z.eqb_neq d c)) by congruence.
      by rewrite IHp.
Qed.

Lemma existsb_false {A} (f : A → bool) l : existsb f l = false ↔ Forall (λ x, f x = false) l.
Proof.
  induction l as [|x l IH]; cbn; [by split|]. by rewrite orb_false_iff, Forall_cons, IH.
Qed.
Lemma last_cons_app {A} (l k : list A) : k ≠ [] → last (l ++ k) = last k.
Proof.
  intros Hk. rewrite last_app. destruct (last k) eqn:E; [done|]. by apply last_None in E.
Qed.

Lemma validate_path_Ok path : validate_provider_path path = Ok tt ↔ safe_path path.
Proof.
  unfold validate_provider_path, safe_path.
  destruct (Z.ltb_spec MAX_PROVIDER_PATH_BYTES (count path)); [split; [done|lia]|].
  set (bad := λ component : list Z, _ || _).
  assert (∀ c, bad c = false ↔ c ≠ [] ∧ c ≠ lit "." ∧ c ≠ lit "..") as Hbad.
  { intros c. unfold bad. rewrite !orb_false_iff, !bool_decide_eq_false. destruct c; naive_solver. }
  rewrite if_reject_Ok. split.
  - intros Hr. split; [lia|]. rewrite !orb_false_iff, negb_false_iff, bool_decide_eq_true in Hr.
    destruct Hr as [[[[[Hh _] _] _] Hc] Hs]. destruct path as [|b path]; [done|]. injection Hh as ->.
    destruct (split_bytes_spec 47 path) as [Hcat Hf]. exists (split_bytes 47 path).
    split; [apply split_bytes_nonempty|]. split; [done|]. cbn in Hs. apply existsb_false in Hs, Hc.
    rewrite <-Hcat in Hc. apply Forall_forall. intros c Hin. unfold plain_component.
    rewrite Forall_forall in Hs. specialize (Hs c Hin). apply Hbad in Hs.
    rewrite Forall_forall in Hf. specialize (Hf c Hin). split; [apply Hs|]. split; [apply Hs|]. split; [apply Hs|].
    split; [done|]. rewrite Forall_concat, Forall_fmap, Forall_forall in Hc. specialize (Hc c Hin).
    by apply Forall_cons in Hc as [_ ?].
  - intros [_ (parts & Hne & Ep & Hp)]. change (λ c, 47 :: c) with (cons 47) in Ep. subst path.
    assert (split_bytes 47 (tail (concat (cons 47 <$> parts))) = parts) as ->.
    { apply split_bytes_unique; [done|]. eapply Forall_impl; [exact Hp|]. unfold plain_component. naive_solver. }
    assert (existsb bad parts = false) as ->.
    { apply existsb_false. eapply Forall_impl; [exact Hp|]. intros c (? & ? & ? & _). by apply Hbad. }
    assert (existsb is_ascii_control (concat (cons 47 <$> parts)) = false) as ->.
    { apply existsb_false. rewrite Forall_concat, Forall_fmap. eapply Forall_impl; [exact Hp|].
      intros c (_ & _ & _ & _ & Hc). by constructor. }
    assert (last (concat (cons 47 <$> parts)) ≠ Some 47) as Hl.
    { destruct (exists_last Hne) as (l & c & ->). rewrite fmap_app, concat_app. cbn. rewrite app_nil_r.
      apply Forall_app in Hp as [_ Hp]. apply Forall_cons in Hp as [(Hc & _ & _ & Hn & _) _].
      rewrite last_cons_app by done. change (47 :: c) with ([47] ++ c). rewrite last_cons_app by done.
      intros Hx. apply Hn. apply last_Some_elem_of in Hx. done. }
    rewrite (bool_decide_eq_false_2 _ Hl), !orb_false_r. destruct parts as [|c parts]; [done|].
    apply Forall_cons in Hp as [(Hc & _ & _ & Hn & _) _]. destruct c as [|b c]; [done|].
    apply not_elem_of_cons in Hn as [Hb _].
    change (concat (cons 47 <$> (b :: c) :: parts)) with (47 :: b :: (c ++ concat (cons 47 <$> parts))).
    generalize (c ++ concat (cons 47 <$> parts)). intros rest.
    change (strip_prefix (lit "//") (47 :: b :: rest)) with (if 47 =? b then Some rest else None).
    rewrite (proj2 (Z.eqb_neq 47 b)) by done. rewrite bool_decide_eq_true_2 by done.
    rewrite orb_false_r. apply Z.ltb_ge. unfold count. cbn [length]. lia.
Qed.

(** ** Routes and groups *)

Lemma validate_accounts_Ok seen l :
  validate_accounts seen l = Ok tt ↔
  Forall (λ a, canonical_identifier (account_key a) false = true) l ∧
  NoDup (account_key <$> l) ∧ ∀ x, x ∈ account_key <$> l → x ∉ seen.
Proof.
  revert seen. induction l as [|a l IH]; intros seen; cbn.
  - split; [|done]. intros _. split; [constructor|]. split; [constructor|]. by intros x ?%elem_of_nil.
  - fold (account_key a). rewrite Forall_cons, NoDup_cons.
    destruct (canonical_identifier (account_key a) false); cbn; [|naive_solver].
    case_bool_decide as Hs; [split; [done|]; intros (_ & _ & Hx); exfalso; by apply (Hx (account_key a)); [left|]|].
    rewrite IH. setoid_rewrite not_elem_of_union. setoid_rewrite elem_of_cons. setoid_rewrite not_elem_of_singleton.
    split.
    + intros (Hc & Hn & Hx). split; [done|]. split; [split; [|done]|].
      * intros Hin. by destruct (Hx _ Hin).
      * intros x [->|Hin]; [done|]. by apply Hx.
    + intros ([_ Hc] & [Hn Hd] & Hx). split; [done|]. split; [done|]. intros x Hin. split; [by intros ->|].
      apply Hx. by right.
Qed.

Definition scanned (scan : RouteScan) (l : list ProviderConfig) : RouteScan :=
  mk_scan (list_to_set (route <$> l) ∪ routes scan)
    (list_to_set (provider_id <$> l) ∪ configured_providers scan)
    (total_accounts scan + total (λ p, count (accounts p)) l).

Lemma match_option_Ok {A} (o : option A) (f : A → Result ConfigError unit) :
  match o with Some a => f a | None => Ok tt end = Ok tt ↔ ∀ a, o = Some a → f a = Ok tt.
Proof. destruct o; naive_solver. Qed.

Lemma validate_provider_Ok scan p scan' :
  0 ≤ total_accounts scan →
  validate_provider scan p = Ok scan' ↔
  valid_provider p ∧ route p ∉ routes scan ∧
  total_accounts scan + count (accounts p) ≤ MAX_TOTAL_ACCOUNTS ∧
  scan' = mk_scan ({[route p]} ∪ routes scan) ({[provider_id p]} ∪ configured_providers scan)
            (total_accounts scan + count (accounts p)).
Proof.
  intros Ht. unfold validate_provider. fold (route p).
  change (ProviderInstanceId.as_str (instance_id p)) with (route p).2.
  destruct (canonical_identifier (route p).2 true) eqn:Hi; cbn [negb]; [|split; [done|]; intros ([Hc] & _); congruence].
  case_bool_decide as Hr; [split; [done|]; intros (_ & Hn & _); done|].
  destruct (Z.ltb_spec MAX_ACCOUNTS_PER_INSTANCE (count (accounts p))) as [Ha|Ha];
    [split; [done|]; intros ([_ ?] & _); lia|].
  unfold checked_add. change MAX_TOTAL_ACCOUNTS with 2048 in *. change usize_max with 18446744073709551615 in *.
  destruct (Z.leb_spec (total_accounts scan + count (accounts p)) 18446744073709551615) as [Hu|Hu];
    [|split; [done|]; intros (_ & _ & ? & _); lia].
  destruct (Z.ltb_spec 2048 (total_accounts scan + count (accounts p))) as [Hm|Hm];
    [split; [done|]; intros (_ & _ & ? & _); lia|].
  assert (∀ m : Result ConfigError unit, (∃ u, m = Ok u) ↔ m = Ok tt) as Hu1
    by (intros m; split; [by intros [[] ?]|eauto]).
  split.
  - intros ([] & Hk%validate_accounts_Ok & ([] & He & ([] & Hp & ([] & Ho & [= <-])%bind_Ok)%bind_Ok)%bind_Ok)%bind_Ok.
    destruct Hk as (Hk & Hd & _). split; [|done]. split; [done..| | |by apply validate_options_Ok].
    + by apply match_option_Ok.
    + intros path Hpath. apply validate_path_Ok. rewrite match_option_Ok in Hp. by apply Hp.
  - intros (Hv & _ & _ & ->). destruct Hv as [_ _ Hk Hd He Hp Ho].
    apply bind_Ok. exists tt. split.
    { apply validate_accounts_Ok. split; [done|]. split; [done|]. intros x _. apply not_elem_of_empty. }
    apply bind_Ok. exists tt. split; [by apply match_option_Ok|].
    apply bind_Ok. exists tt. split; [apply match_option_Ok; intros path Hpath; by apply validate_path_Ok, Hp|].
    apply bind_Ok. exists tt. split; [by apply validate_options_Ok|done].
Qed.

Lemma scanned_cons scan p l :
  scanned (mk_scan ({[route p]} ∪ routes scan) ({[provider_id p]} ∪ configured_providers scan)
             (total_accounts scan + count (accounts p))) l = scanned scan (p :: l).
Proof.
  unfold scanned. cbn [routes configured_providers total_accounts].
  rewrite !fmap_cons, !list_to_set_cons. f_equal; [set_solver|set_solver|].
  change (total (λ p, count (accounts p)) (p :: l)) with (count (accounts p) + total (λ p, count (accounts p)) l).
  lia.
Qed.
Lemma total_count_nonneg l : 0 ≤ total (λ p, count (accounts p)) l.
Proof. apply total_nonneg, Forall_forall. intros p _. unfold count. lia. Qed.

Lemma validate_providers_Ok l scan scan' :
  0 ≤ total_accounts scan ≤ MAX_TOTAL_ACCOUNTS →
  validate_providers scan l = Ok scan' ↔
  Forall valid_provider l ∧ NoDup (route <$> l) ∧ (∀ r, r ∈ route <$> l → r ∉ routes scan) ∧
  total_accounts scan + total (λ p, count (accounts p)) l ≤ MAX_TOTAL_ACCOUNTS ∧ scan' = scanned scan l.
Proof.
  revert scan scan'. induction l as [|p l IH]; intros scan scan' Ht.
  - cbn. unfold scanned. cbn. rewrite Z.add_0_r, !(left_id_L ∅ (∪)). destruct scan as [r c t]; cbn. split.
    + intros [= <-]. split; [constructor|]. split; [constructor|]. split; [by intros r' ?%elem_of_nil|]. cbn in Ht. lia || (split; [lia|done]).
    + by intros (_ & _ & _ & _ & ->).
  - cbn [validate_providers]. rewrite bind_Ok. setoid_rewrite validate_provider_Ok; [|lia].
    assert (0 ≤ count (accounts p)) by (unfold count; lia). pose proof (total_count_nonneg l).
    change (total (λ p, count (accounts p)) (p :: l)) with (count (accounts p) + total (λ p, count (accounts p)) l).
    rewrite Forall_cons, fmap_cons, NoDup_cons. split.
    + intros (s1 & (Hv & Hr & Hb & ->) & Hl). apply IH in Hl as (Hvl & Hd & Hn & Hb2 & ->); [|cbn; lia]. cbn in Hn, Hb2.
      split; [done|]. split; [split; [|done]|].
      * intros Hin. apply (Hn _ Hin). set_solver.
      * split; [intros r [->|Hin]%elem_of_cons; [done|]; specialize (Hn r Hin); set_solver|]. split; [lia|].
        apply scanned_cons.
    + intros ([Hv Hvl] & [Hr Hd] & Hn & Hb & ->). eexists. split; [split; [done|]; split; [apply Hn; left|]; split; [lia|done]|].
      apply IH; [cbn; lia|]. cbn. split; [done|]. split; [done|]. split.
      * intros r Hin. rewrite not_elem_of_union, not_elem_of_singleton. split; [by intros ->|apply Hn; by right].
      * split; [lia|]. symmetry. apply scanned_cons.
Qed.

Lemma validate_order_Ok seen l s :
  validate_order seen l = Ok s ↔ NoDup l ∧ (∀ p, p ∈ l → p ∉ seen) ∧ s = list_to_set l ∪ seen.
Proof.
  revert seen s. induction l as [|p l IH]; intros seen s; cbn.
  - rewrite (left_id_L ∅ (∪)). split; [intros [= <-]|by intros (_ & _ & ->)].
    split; [constructor|]. split; [by intros p ?%elem_of_nil|done].
  - rewrite NoDup_cons. case_bool_decide as Hs.
    + split; [done|]. intros (_ & Hn & _). exfalso. by apply (Hn p); [left|].
    + rewrite IH. split.
      * intros (Hd & Hn & ->). split; [split; [|done]|split; [|set_solver]]; set_solver.
      * intros ([Hp Hd] & Hn & ->). split; [done|]. split; [|set_solver]. intros q Hq. set_solver.
Qed.

Lemma validate_config_Ok config : validate_config config = Ok tt ↔ valid_config config.
Proof.
  unfold validate_config.
  destruct (Z.eqb_spec (schema_version config) CURRENT_SCHEMA_VERSION) as [Hv|Hv]; cbn [negb];
    [|split; [done|]; intros [? _ _ _ _ _ _]; done].
  destruct (Z.ltb_spec MAX_PROVIDER_INSTANCES (count (providers config))) as [Hc|Hc]; cbn [orb];
    [split; [done|]; intros [_ ? _ _ _ _ _]; lia|].
  assert (NoDup (provider_order config) → count (provider_order config) ≤ count ProviderId.ALL) as Hall.
  { intros Hd. unfold count. apply inj_le, NoDup_length_le; [done|]. intros p _.
    pose proof (list_find_ALL p) as Hf. apply list_find_Some in Hf as (Hf & _ & _).
    by eapply list_elem_of_lookup_2. }
  destruct (Z.ltb_spec (count ProviderId.ALL) (count (provider_order config))) as [Ho|Ho];
    [split; [done|]; intros [_ _ _ _ _ Hd _]; specialize (Hall Hd); lia|].
  rewrite bind_Ok. setoid_rewrite validate_providers_Ok; [|done]. setoid_rewrite bind_Ok.
  setoid_rewrite validate_order_Ok. split.
  - intros (s1 & (Hp & Hd & _ & Ht & ->) & s2 & (Hod & _ & ->) & Hm).
    case_bool_decide as Hg; [|done]. split; [done..|]. intros p.
    assert (p ∈@{gset ProviderId} list_to_set (provider_order config) ∪ ∅ ↔
      p ∈@{gset ProviderId} list_to_set (provider_id <$> providers config) ∪ ∅) as Hg' by by rewrite Hg.
    rewrite !elem_of_union, !elem_of_list_to_set in Hg'. pose proof (not_elem_of_empty (C:=gset ProviderId) p). tauto.
  - intros [_ _ Hp Hd Ht Hod Hg]. eexists. split; [split; [done|]; split; [done|]; split;
      [intros r _; apply not_elem_of_empty|]; split; [done|reflexivity]|].
    eexists. split; [split; [done|]; split; [intros p _; apply not_elem_of_empty|reflexivity]|].
    rewrite bool_decide_eq_true_2; [done|]. apply set_eq. intros p. cbn.
    by rewrite !elem_of_union, !elem_of_list_to_set, Hg.
Qed.

(** ** Secret-like fields *)

(** [key] names a field of some object inside a value. *)
Inductive field_of (key : str) : Value → Prop :=
| field_here fields v : (key, v) ∈ fields → field_of key (Object fields)
| field_inside fields k v : (k, v) ∈ fields → field_of key v → field_of key (Object fields)
| field_element values v : v ∈ values → field_of key v → field_of key (Array values).

Section value_induction.
Context (P : Value → Prop)
  (HZ : P Null) (HB : ∀ b, P (Bool b)) (HN : ∀ n, P (Num n)) (HS : ∀ s, P (String s))
  (HA : ∀ values, Forall P values → P (Array values))
  (HO : ∀ fields, Forall (λ f, P f.2) fields → P (Object fields)).
Fixpoint value_nested (v : Value) : P v :=
  match v with
  | Null => HZ
  | Bool b => HB b
  | Num n => HN n
  | String s => HS s
  | Array values =>
      HA values ((fix all l := match l return Forall P l with
                               | [] => Forall_nil_2 _
                               | v :: l => Forall_cons_2 _ _ _ (value_nested v) (all l)
                               end) values)
  | Object fields =>
      HO fields ((fix all l := match l return Forall (λ f, P f.2) l with
                               | [] => Forall_nil_2 _
                               | f :: l => Forall_cons_2 _ _ _ (value_nested f.2) (all l)
                               end) fields)
  end.
End value_induction.

Lemma no_secret_field v :
  contains_secret_like_field v = false ↔ ∀ key, field_of key v → secret_like_key key = false.
Proof.
  induction v as [|b|n|s|values IH|fields IH] using value_nested; cbn;
    try (split; [intros _ key Hk; inversion Hk|done]).
  - rewrite existsb_false. rewrite Forall_forall in IH |- *. split.
    + intros Hv key Hk. inversion Hk as [| |? v Hin Hf]; subst. by apply (IH v Hin) in Hf; [|apply Hv].
    + intros Hk v Hin. apply IH; [done|]. intros key Hf. apply Hk. by eapply field_element.
  - rewrite existsb_false. rewrite Forall_forall in IH |- *. setoid_rewrite orb_false_iff. split.
    + intros Hv key Hk. inversion Hk as [? v Hin|? k v Hin Hf|]; subst.
      * by apply (Hv (key, v)).
      * apply (IH (k, v) Hin); [by apply (Hv (k, v))|done].
    + intros Hk [k v] Hin. split; [apply Hk; by eapply field_here|].
      apply (IH (k, v) Hin). intros key Hf. apply Hk. by eapply field_inside.
Qed.

(** ** Endpoints *)

(** The host is written in the one way that cannot be read differently. *)
Definition canonical_host (raw : str) (h : Host) : Prop :=
  match h with
  | Domain domain => eq_ignore_ascii_case raw domain = true
  | HostIpv4 address => raw = v4_to_string address
  | HostIpv6 address => raw = v6_to_string address
  end.
Lemma canonical_loopback e h :
  is_canonical_loopback e h = true →
  is_loopback_host h = true ∧ ∃ raw, raw_http_host e = Some raw ∧ canonical_host raw h.
Proof.
  unfold is_canonical_loopback. destruct (raw_http_host e) as [raw|]; [|done].
  destruct h as [d|a|a]; cbn; intros [Hl Hr]%andb_true_iff; (split; [by rewrite ?Hl|]); exists raw;
    (split; [done|]); [done|by apply bool_decide_eq_true in Hr..].
Qed.
Lemma canonical_private e h :
  is_canonical_private_network e h = true →
  (is_loopback_host h = true ∨ is_private_http_host h = true) ∧
  ∃ raw, raw_http_host e = Some raw ∧ canonical_host raw h.
Proof.
  unfold is_canonical_private_network. destruct (is_canonical_loopback e h) eqn:Hc.
  { intros _. apply canonical_loopback in Hc as [? ?]. auto. }
  destruct (raw_http_host e) as [raw|]; [|done].
  destruct h as [d|a|a]; cbn; intros [Hl Hr]%andb_true_iff; (split; [right|exists raw; split; [done|]]).
  - unfold ends_with_dns_label. destruct (suffix_after_last_dot (trim_end_dots d)) as [x|] eqn:Hx; [|done].
    destruct (trim_end_dots d); [done|]. by rewrite Hl.
  - done.
  - done.
  - by apply bool_decide_eq_true in Hr.
  - done.
  - by apply bool_decide_eq_true in Hr.
Qed.

(** What a configured endpoint may be. *)
Definition endpoint_safe (p : ProviderId) (e : str) : Prop :=
  ∃ url h, url_parse e = Some url ∧ host url = Some h ∧ str_len e ≤ MAX_ENDPOINT_BYTES ∧
    username url = [] ∧ password url = None ∧ query url = None ∧ fragment url = None ∧
    (scheme url = lit "https" ∨
     scheme url = lit "http" ∧
     (loopback_provider p = true ∧ is_loopback_host h = true ∨
      private_provider p = true ∧ (is_loopback_host h = true ∨ is_private_http_host h = true)) ∧
     ∃ raw, raw_http_host e = Some raw ∧ canonical_host raw h).

Lemma validate_endpoint_safe p e : validate_endpoint p e = Ok tt → endpoint_safe p e.
Proof.
  unfold validate_endpoint, endpoint_safe. destruct (Z.ltb_spec MAX_ENDPOINT_BYTES (str_len e)); [done|].
  destruct (url_parse e) as [url|]; [|done]. case_match eqn:Hbad; [done|].
  rewrite !orb_false_iff in Hbad. destruct Hbad as [[[[[Hu Hp] Hq] Hf] _] _].
  destruct (host url) as [h|] eqn:Hh; [|done]. intros Hs. exists url, h.
  split; [done|]. split; [done|]. split; [done|]. split; [by destruct (username url)|].
  split; [by destruct (password url)|]. split; [by destruct (query url)|]. split; [by destruct (fragment url)|].
  unfold is_https, is_http in Hs. case_bool_decide; [by left|]. right.
  case_bool_decide as Hhttp; [|done]. cbn in Hs. split; [done|].
  destruct (loopback_provider p && is_canonical_loopback e h) eqn:Hl.
  - apply andb_true_iff in Hl as [Hl [? ?]%canonical_loopback]. auto.
  - destruct (private_provider p && is_canonical_private_network e h) eqn:Hn; [|done].
    apply andb_true_iff in Hn as [Hn [? ?]%canonical_private]. auto.
Qed.
End specification.

(** ** Migrations  (crates/storage/src/migrations.rs) *)

Inductive MigrationError :=
| InputTooLarge
| MigrationInvalidJson
| MalformedVersion
| FutureVersion (found current : Z)
| InvalidLegacy
| UnsupportedLegacyProvider
| InvalidLegacyAccount
| MigrationSerialization
| InvalidCurrent.

Record Migration := mk_migration { original : list Z; current : list Z; from_version : Z }.
Definition was_migrated (m : Migration) : bool := negb (from_version m =? CURRENT_SCHEMA_VERSION).

Inductive VersionField := VersionMissing | VersionUnsigned (version : Z).
(** [LegacyV0], and the one document [CurrentV1] writes for it. *)
Record LegacyV0 := mk_legacy { legacy_provider : str; legacy_account : str }.
Record CurrentV1 := mk_current { current_provider : str; current_account : str }.

Class MigrationJson := {
  probe_from_slice : list Z → option VersionField;
  legacy_from_slice : list Z → option LegacyV0;
  current_to_vec : CurrentV1 → option (list Z);
}.
Definition is_object `{JsonNumber} (v : Value) : bool := match v with Object _ => true | _ => false end.

Section migration.
Context `{ConfigJson, UrlCrate, MigrationJson}.

Definition ensure_bounded (bytes : list Z) : Result MigrationError unit :=
  if MAX_CONFIG_BYTES <? count bytes then Err InputTooLarge else Ok tt.
Definition detect_schema_version (bytes : list Z) : Result MigrationError Z :=
  ensure_bounded bytes ;;
  parsed ← ok_or (value_from_slice bytes) MigrationInvalidJson;
  if negb (is_object parsed) then Err MigrationInvalidJson else
  probe ← ok_or (probe_from_slice bytes) MalformedVersion;
  match probe with
  | VersionMissing => Ok 0
  | VersionUnsigned version =>
      if version =? 0 then Ok 0
      else if version =? CURRENT_SCHEMA_VERSION then Ok CURRENT_SCHEMA_VERSION
      else if CURRENT_SCHEMA_VERSION <? version then Err (FutureVersion version CURRENT_SCHEMA_VERSION)
      else Err MalformedVersion
  end.
Definition migrate (bytes : list Z) : Result MigrationError Migration :=
  version ← detect_schema_version bytes;
  if version =? CURRENT_SCHEMA_VERSION then
    map_err (λ _, InvalidCurrent) (load_config_bytes bytes) ;;
    Ok (mk_migration bytes bytes version)
  else
    legacy ← ok_or (legacy_from_slice bytes) InvalidLegacy;
    if negb (bool_decide (legacy_provider legacy = lit "codex")) then Err UnsupportedLegacyProvider else
    account ← map_err (λ _, InvalidLegacyAccount) (AccountKey.new (legacy_account legacy));
    current ← ok_or (current_to_vec (mk_current (legacy_provider legacy) (AccountKey.as_str account)))
                    MigrationSerialization;
    map_err (λ _, InvalidLegacyAccount) (load_config_bytes current) ;;
    Ok (mk_migration bytes current 0).
Definition migrate_to_current (bytes : list Z) : Result MigrationError (list Z) :=
  current <$> migrate bytes.
End migration.

(** ** Properties *)

(** C24. A document is loaded exactly when it is within the byte limit, names no
    secret-like field at any depth, has schema version 1 and its typed form is a
    valid configuration: distinct canonical routes and accounts within the
    totals, safe paths, allowed endpoints, a group order that lists each
    configured provider once, and bounded options whose node and byte budget is
    the sum over the whole tree. *)
Theorem load_config_exact `{ConfigJson, UrlCrate} (bytes : list Z) (config : AppConfig) :
  load_config_bytes bytes = Ok config ↔
  count bytes ≤ MAX_CONFIG_BYTES ∧
  (∃ value version, value_from_slice bytes = Some value ∧
     (∀ key, field_of key value → secret_like_key key = false) ∧
     get_field (lit "schema_version") value = Some (Num version) ∧
     as_u64 version = Some CURRENT_SCHEMA_VERSION) ∧
  config_from_slice bytes = Some config ∧ valid_config config.
Proof.
  unfold load_config_bytes. destruct (Z.ltb_spec MAX_CONFIG_BYTES (count bytes)); [split; [done|lia]|].
  rewrite <-validate_config_Ok, bind_Ok. split.
  - intros (value & Hv%ok_or_Ok & Hl). destruct (contains_secret_like_field value) eqn:Hs; [done|].
    apply bind_Ok in Hl as ([] & Hver & (c & Hc%ok_or_Ok & ([] & Hok & [= ->])%bind_Ok)%bind_Ok).
    split; [done|]. split; [|done]. exists value. destruct (get_field _ value) as [[]|] eqn:Hf; try done.
    case_bool_decide; [|done]. eexists. split; [done|]. split; [by apply no_secret_field|done].
  - intros (_ & (value & version & Hv & Hs & Hf & Hu) & Hc & Hok). exists value.
    split; [by apply ok_or_Ok|]. apply no_secret_field in Hs. rewrite Hs, Hf, bool_decide_eq_true_2 by done.
    apply bind_Ok. exists tt. split; [done|]. apply bind_Ok. exists config.
    split; [by apply ok_or_Ok|]. apply bind_Ok. exists tt. by split.
Qed.

(** Every endpoint of a loaded configuration is HTTPS, or plain HTTP to the
    loopback interface or, for two self-hosted gateways, to a private network,
    with its host written canonically; none carries credentials, a query or a
    fragment. *)
Theorem configured_endpoints_safe `{ConfigJson, UrlCrate} (bytes : list Z) (config : AppConfig) p e :
  load_config_bytes bytes = Ok config → p ∈ providers config → endpoint p = Some e →
  endpoint_safe (provider_id p) e.
Proof.
  unfold load_config_bytes. case_match; [done|].
  intros (value & _ & Hl)%bind_Ok. destruct (contains_secret_like_field value); [done|].
  apply bind_Ok in Hl as (_ & _ & (c & _ & ([] & Hok & [= ->])%bind_Ok)%bind_Ok).
  intros Hp He. apply validate_config_Ok in Hok as [_ _ Hv _ _ _ _].
  rewrite Forall_forall in Hv. apply validate_endpoint_safe, (Hv p Hp), He.
Qed.

(** A migration keeps the original bytes for rollback and always yields a
    document that loads; a current document is passed through byte for byte and
    a newer one is refused as such. *)
Theorem migration_loadable `{ConfigJson, UrlCrate, MigrationJson} (bytes : list Z) (m : Migration) :
  migrate bytes = Ok m →
  original m = bytes ∧ (∃ config, load_config_bytes (current m) = Ok config) ∧
  (was_migrated m = false → current m = bytes) ∧
  (∀ version, probe_from_slice bytes = Some (VersionUnsigned version) → version ≤ CURRENT_SCHEMA_VERSION).
Proof.
  unfold migrate. intros (version & Hd & Hm)%bind_Ok.
  assert (∀ v, probe_from_slice bytes = Some (VersionUnsigned v) → v ≤ CURRENT_SCHEMA_VERSION) as Hle.
  { intros v Hp. unfold detect_schema_version in Hd. apply bind_Ok in Hd as (_ & _ & Hd).
    apply bind_Ok in Hd as (value & _ & Hd). destruct (is_object value); [|done]. rewrite Hp in Hd. cbn in Hd.
    change CURRENT_SCHEMA_VERSION with 1 in *. destruct (Z.eqb_spec v 0), (Z.eqb_spec v 1); try lia.
    by destruct (Z.ltb_spec 1 v). }
  destruct (Z.eqb_spec version CURRENT_SCHEMA_VERSION) as [->|Hv].
  - apply bind_Ok in Hm as (config & Hl%map_err_Ok & [= <-]). cbn. split; [done|]. split; [by eexists|]. split; [done|exact Hle].
  - apply bind_Ok in Hm as (legacy & _ & Hm). case_match; [done|].
    apply bind_Ok in Hm as (account & _ & (new & _ & (config & Hl%map_err_Ok & [= <-])%bind_Ok)%bind_Ok).
    split; [done|]. split; [by eexists|]. split; [done|exact Hle].
Qed.

(** A document with one Ollama endpoint on the loopback interface. *)
Module ConfigExample.
#[local] Instance number : JsonNumber := {| Number := Z; as_u64 n := Some n |}.
Definition loopback : str := lit "http://[::1]:11434/v1".
#[local] Instance url : UrlCrate := {|
  Url := str;
  username _ := []; password _ := None; query _ := None; fragment _ := None; path _ := lit "/v1";
  scheme _ := lit "http"; host _ := Some (HostIpv6 (mk_v6 0 0 0 0 0 0 0 1)); host_str _ := None;
  port_or_known_default _ := Some 11434; query_pairs _ := [];
  url_parse s := if bool_decide (s = loopback) then Some s else None;
  url_join u _ := Some u;
|}.
Definition local_provider : ProviderConfig :=
  mk_provider ProviderId.Ollama (ProviderInstanceId.mk (lit "default")) true (Some loopback)
    (Some (lit "/etc/ollama"))
    (mk_options None None None (Some (lit "local")) None None None None None None
       [(lit "limits", OptionObject [(lit "daily", OptionArray [OptionNumber 3; OptionText (lit "x")])])])
    [mk_account (AccountKey.mk (lit "me")) true].
Definition local_config : AppConfig := mk_config 1 [local_provider] [ProviderId.Ollama].
(** Documents stand for themselves: [1] is the document above, [0] a legacy one. *)
#[local] Instance json : ConfigJson := {|
  value_from_slice bytes := Some (Object [(lit "schema_version", Num (hd 0 bytes))]);
  config_from_slice bytes := Some local_config;
|}.
#[local] Instance migration_json : MigrationJson := {|
  probe_from_slice bytes := Some (VersionUnsigned (hd 0 bytes));
  legacy_from_slice bytes := Some (mk_legacy (lit "codex") (lit "me"));
  current_to_vec _ := Some [1];
|}.

Example local_config_loads : load_config_bytes [1] = Ok local_config.
Proof. vm_compute. reflexivity. Qed.
(** A secret-like key among the provider's own options. *)
Example option_secret :
  (validate_provider_option_map [(lit "Api-Key", OptionBoolean true)] 0 (mk_budget 0 0)).2 = reject SecretField.
Proof. vm_compute. reflexivity. Qed.

Lemma configured_endpoints_safe_witness : endpoint_safe ProviderId.Ollama loopback.
Proof.
  apply (configured_endpoints_safe [1] local_config local_provider loopback);
    [vm_compute; reflexivity|left|reflexivity].
Defined.
Lemma migration_loadable_witness :
  original (mk_migration [0] [1] 0) = [0] ∧ ∃ config, load_config_bytes [1] = Ok config.
Proof.
  destruct (migration_loadable [0] (mk_migration [0] [1] 0)) as (Ho & Hl & _); [vm_compute; reflexivity|].
  split; [exact Ho|exact Hl].
Defined.
End ConfigExample.
