(* ===== verification/Shutdown.v ===== *)
(** * Shutdown  (crates/runtime/src/shutdown.rs)

    Cancellation, then a drain that waits for tasks until a deadline, then an
    abort of whatever remains, fully joined.  Tokio's join set is its list of
    tasks; which of them ends next, how, whether the deadline comes first, and
    whether an aborted task ends at all is up to the runtime, an argument. *)
From stdpp Require Import prelude.
From S2P Require Import Prelude Ordering Text Percentage Externals Scheduler Config.
Local Open Scope Z_scope.

Definition MAX_SHUTDOWN_GRACE : Duration := from_secs 3600.

Record ShutdownReport := mk_report { completed : Z; cancelled : Z; panicked : Z; timed_out : bool }.
Definition report_default : ShutdownReport := mk_report 0 0 0 false.
Definition total (r : ShutdownReport) : Z :=
  saturating_add usize_max (saturating_add usize_max (completed r) (cancelled r)) (panicked r).

(** [Result<T, JoinError>] *)
Inductive JoinResult := Returned | Cancelled | Panicked.
#[global] Instance JoinResult_eq_dec : EqDecision JoinResult.
Proof. solve_decision. Defined.
Definition record (result : JoinResult) (r : ShutdownReport) : ShutdownReport :=
  match result with
  | Returned => mk_report (saturating_add usize_max (completed r) 1) (cancelled r) (panicked r) (timed_out r)
  | Cancelled => mk_report (completed r) (saturating_add usize_max (cancelled r) 1) (panicked r) (timed_out r)
  | Panicked => mk_report (completed r) (cancelled r) (saturating_add usize_max (panicked r) 1) (timed_out r)
  end.

Section drain.
Context {Task : Type} `{EqDecision Task}.

(** What the executor does with a join set: the next task to end and how, or
    [None].  Before the tasks are aborted that is the deadline, which comes first;
    afterwards nothing limits the wait, and [None] is a wait without end. *)
Record Runtime := mk_runtime { join_next : bool → list Task → option (Task * JoinResult) }.
Fixpoint remove_one (t : Task) (l : list Task) : list Task :=
  match l with
  | [] => []
  | u :: l => if bool_decide (u = t) then l else u :: remove_one t l
  end.
(** How a loop ends: with its result, in a wait that nothing ends, or cut short. *)
Inductive Outcome (A : Type) := Ended (a : A) | Waits | OutOfFuel.
#[global] Arguments Ended {A}.
#[global] Arguments Waits {A}.
#[global] Arguments OutOfFuel {A}.

(** The first loop: [None] of the runtime is the elapsed deadline. *)
Fixpoint drain_loop (fuel : nat) (w : Runtime) (tasks : list Task) (r : ShutdownReport) : Outcome (list Task * ShutdownReport) :=
  match fuel with
  | O => OutOfFuel
  | S fuel =>
      if is_empty tasks then Ended ([], r) else
      match join_next w false tasks with
      | Some (t, result) => drain_loop fuel w (remove_one t tasks) (record result r)
      | None => Ended (tasks, mk_report (completed r) (cancelled r) (panicked r) true)
      end
  end.
(** [while let Some(result) = tasks.join_next().await], after [abort_all] or not. *)
Fixpoint join_rest (fuel : nat) (w : Runtime) (aborted : bool) (tasks : list Task) (r : ShutdownReport) : Outcome ShutdownReport :=
  match fuel with
  | O => OutOfFuel
  | S fuel =>
      if is_empty tasks then Ended r else
      match join_next w aborted tasks with
      | Some (t, result) => join_rest fuel w aborted (remove_one t tasks) (record result r)
      | None => Waits
      end
  end.

(** The deadline: [checked_add] of an [Instant] may fail. *)
Definition deadline (started_at : Instant) (grace : Duration) : Instant :=
  let grace := Z.min grace MAX_SHUTDOWN_GRACE in
  default started_at (instant_checked_add started_at grace).
(** [cancel_and_drain] after the token is cancelled; the runtime is the one of
    that deadline. *)
Definition cancel_and_drain (runtime : Instant → Runtime) (started_at : Instant) (tasks : list Task) (grace : Duration) :
    Outcome ShutdownReport :=
  let w := runtime (deadline started_at grace) in
  match drain_loop (S (length tasks)) w tasks report_default with
  | Ended (rest, r) => if timed_out r then join_rest (S (length rest)) w true rest r else Ended r
  | Waits => Waits
  | OutOfFuel => OutOfFuel
  end.

(** ** What a shutdown is to report *)

(** The tasks that ended, in order, from [tasks], and those that were left. *)
Inductive joined (w : Runtime) (aborted : bool) : list Task → list (Task * JoinResult) → list Task → Prop :=
| joined_none tasks : joined w aborted tasks [] tasks
| joined_one tasks t result ended rest : join_next w aborted tasks = Some (t, result) →
    joined w aborted (remove_one t tasks) ended rest → joined w aborted tasks ((t, result) :: ended) rest.
(** How many ended so. *)
Definition ended_so (result : JoinResult) (ended : list (Task * JoinResult)) : Z := count (filter (λ e, e.2 = result) ended).
Definition report_of (ended : list (Task * JoinResult)) (timed_out : bool) : ShutdownReport :=
  mk_report (ended_so Returned ended) (ended_so Cancelled ended) (ended_so Panicked ended) timed_out.
(** The runtime joins tasks that are there, and a task that was not aborted does
    not end as cancelled. *)
Record fair (w : Runtime) : Prop := {
  fair_there : ∀ aborted tasks t result, join_next w aborted tasks = Some (t, result) → t ∈ tasks;
  fair_cancels : ∀ tasks t result, join_next w false tasks = Some (t, result) → result ≠ Cancelled;
}.
(** The tasks yield to the executor, so that aborting them ends them. *)
Definition yielding (w : Runtime) : Prop := ∀ tasks, tasks ≠ [] → is_Some (join_next w true tasks).

(** ** Facts *)

Lemma remove_one_perm t l : t ∈ l → l ≡ₚ t :: remove_one t l.
Proof.
  induction l as [|u l IH]; [by intros ?%elem_of_nil|]. rewrite elem_of_cons. cbn. case_bool_decide as E; [by subst|].
  intros [->|Hin]; [done|]. rewrite (IH Hin) at 1. by constructor.
Qed.
Lemma remove_one_length t l : t ∈ l → length l = S (length (remove_one t l)).
Proof. intros Hin. by rewrite (remove_one_perm t l Hin) at 1. Qed.
Lemma joined_perm w aborted tasks ended rest : fair w → joined w aborted tasks ended rest → ended.*1 ++ rest ≡ₚ tasks.
Proof.
  intros Hw. induction 1 as [|tasks t result ended rest E _ IH]; [done|]. apply (fair_there w Hw), remove_one_perm in E. by rewrite E, <-IH.
Qed.
Lemma joined_before w tasks ended rest : fair w → joined w false tasks ended rest → Forall (λ e, e.2 ≠ Cancelled) ended.
Proof. intros Hw. induction 1 as [|tasks t result ended rest E _ IH]; [done|]. constructor; [by eapply (fair_cancels w Hw)|done]. Qed.
Lemma ended_so_snoc result e ended : ended_so result (ended ++ [e]) = ended_so result ended + if bool_decide (e.2 = result) then 1 else 0.
Proof. unfold ended_so, count. rewrite filter_app, filter_cons, filter_nil, length_app. case_bool_decide; case_decide; cbn; try done; lia. Qed.
Lemma ended_so_bounds result ended : 0 ≤ ended_so result ended ≤ count ended.
Proof. unfold ended_so, count. pose proof (length_filter (λ e : Task * JoinResult, e.2 = result) ended). lia. Qed.
Lemma ended_so_total ended : ended_so Returned ended + ended_so Cancelled ended + ended_so Panicked ended = count ended.
Proof.
  induction ended as [|[t result] ended IH] using rev_ind; [done|]. rewrite !ended_so_snoc. unfold count in *. rewrite length_app. cbn.
  destruct result; repeat case_bool_decide; done || lia.
Qed.
Lemma record_report ended t result b : count ended < usize_max → record result (report_of ended b) = report_of (ended ++ [(t, result)]) b.
Proof.
  intros Hc. pose proof (ended_so_bounds Returned ended). pose proof (ended_so_bounds Cancelled ended). pose proof (ended_so_bounds Panicked ended).
  unfold report_of. rewrite !ended_so_snoc. destruct result; cbn -[usize_max]; unfold saturating_add; repeat case_bool_decide; try done;
    f_equal; lia.
Qed.
Lemma total_report ended b : count ended ≤ usize_max → total (report_of ended b) = count ended.
Proof.
  intros Hc. pose proof (ended_so_total ended). pose proof (ended_so_bounds Returned ended). pose proof (ended_so_bounds Cancelled ended).
  pose proof (ended_so_bounds Panicked ended). unfold total, saturating_add. cbn -[usize_max]. lia.
Qed.
Lemma drain_loop_spec w fuel tasks before : fair w → (length tasks < fuel)%nat → count before + count tasks ≤ usize_max →
  ∃ ended rest, joined w false tasks ended rest ∧ (rest ≠ [] → join_next w false rest = None) ∧
    drain_loop fuel w tasks (report_of before false) = Ended (rest, report_of (before ++ ended) (negb (is_empty rest))).
Proof.
  intros Hw. revert tasks before. induction fuel as [|fuel IH]; intros tasks before Hf Hc; [lia|]. cbn [drain_loop].
  destruct (is_empty tasks) eqn:Ht. { destruct tasks; [|done]. exists [], []. rewrite app_nil_r. split; [constructor|done]. }
  destruct (join_next w false tasks) as [[t result]|] eqn:E.
  - pose proof (remove_one_length _ _ (fair_there w Hw _ _ _ _ E)) as El. unfold count in Hc.
    rewrite (record_report _ t) by (unfold count; lia).
    destruct (IH (remove_one t tasks) (before ++ [(t, result)])) as (ended & rest & Hj & Hd & ->); [lia|unfold count; rewrite length_app; cbn [length]; lia|].
    exists ((t, result) :: ended), rest. split; [by econstructor|]. split; [done|]. by rewrite <-app_assoc.
  - exists [], tasks. rewrite app_nil_r, Ht. split; [constructor|done].
Qed.
Lemma join_rest_spec w fuel tasks before b : fair w → (length tasks < fuel)%nat → count before + count tasks ≤ usize_max →
  ∃ ended rest, joined w true tasks ended rest ∧ (rest ≠ [] → join_next w true rest = None) ∧
    join_rest fuel w true tasks (report_of before b) = if is_empty rest then Ended (report_of (before ++ ended) b) else Waits.
Proof.
  intros Hw. revert tasks before. induction fuel as [|fuel IH]; intros tasks before Hf Hc; [lia|]. cbn [join_rest].
  destruct (is_empty tasks) eqn:Ht. { destruct tasks; [|done]. exists [], []. rewrite app_nil_r. split; [constructor|done]. }
  destruct (join_next w true tasks) as [[t result]|] eqn:E.
  - pose proof (remove_one_length _ _ (fair_there w Hw _ _ _ _ E)) as El. unfold count in Hc.
    rewrite (record_report _ t) by (unfold count; lia).
    destruct (IH (remove_one t tasks) (before ++ [(t, result)])) as (ended & rest & Hj & Hd & ->); [lia|unfold count; rewrite length_app; cbn [length]; lia|].
    exists ((t, result) :: ended), rest. split; [by econstructor|]. split; [done|]. by rewrite <-app_assoc.
  - exists [], tasks. rewrite Ht. split; [constructor|done].
Qed.
Lemma ended_so_app result ended ended' : ended_so result (ended ++ ended') = ended_so result ended + ended_so result ended'.
Proof. unfold ended_so, count. rewrite filter_app, length_app. lia. Qed.
Lemma ended_so_none ended result : Forall (λ e, e.2 ≠ result) ended → ended_so result ended = 0.
Proof. unfold ended_so. induction 1 as [|e l He _ IH]; [done|]. by rewrite filter_cons, decide_False. Qed.
Lemma deadline_bounds started_at grace : 0 ≤ grace → started_at ≤ deadline started_at grace ≤ started_at + MAX_SHUTDOWN_GRACE.
Proof. unfold deadline, instant_checked_add. assert (0 ≤ MAX_SHUTDOWN_GRACE) by by vm_compute. case_match; cbn; lia. Qed.

End drain.

(** ** Witness: three tasks, of which one ends in time *)

Module ShutdownExample.
Definition runtime (_ : Instant) : @Runtime Z := {|
  join_next aborted tasks :=
    match tasks with
    | [] => None
    | t :: _ => if aborted then Some (t, if t =? 1 then Cancelled else Returned) else if bool_decide (length tasks = 3%nat) then Some (t, Panicked) else None
    end;
|}.
Lemma runtime_fair d : fair (runtime d).
Proof.
  split.
  - intros aborted [|u tasks] t result; [done|]. cbn. intros H. assert (t = u) as ->; [|by left]. repeat case_match; congruence.
  - intros [|u tasks] t result; [done|]. cbn. case_bool_decide; congruence.
Qed.
Lemma runtime_yields d : yielding (runtime d).
Proof. intros [|t tasks] ?; [done|]. by eexists. Qed.
Lemma example_report : cancel_and_drain runtime 0 [3; 1; 2] (from_secs 5) = Ended (mk_report 1 1 1 true).
Proof. by vm_compute. Qed.
End ShutdownExample.
