(* ===== verification/Program.v ===== *)
(** * Programs of calls

    Code that acts on the world is a tree of calls: each names what it asks, and
    what follows depends on the answer.  [wp] is its weakest precondition over
    answers that keep a documented contract, with the trace of what was asked and
    answered so far; the rules below are what proofs about such programs use. *)
From stdpp Require Import prelude.
From S2P Require Import Prelude.

Section programs.
Context {C : Type → Type}.

Inductive Program (A : Type) : Type :=
| Done (a : A)
| Ask {T} (call : C T) (next : T → Program A).
Arguments Done {_} _.
Arguments Ask {_ _} _ _.
Fixpoint program_bind {A B} (p : Program A) (k : A → Program B) : Program B :=
  match p with
  | Done a => k a
  | Ask call next => Ask call (λ r, program_bind (next r) k)
  end.

(** What was asked, and the answer. *)
Inductive Event :=
| event {T} (call : C T) (answer : T).
Definition Trace : Type := list Event.

(** The answers that may come, and the calls that may be made after a trace. *)
Context (answers : ∀ T, C T → T → Prop) (allowed : ∀ T, Trace → C T → Prop).
Fixpoint wp {A} (p : Program A) (Q : A → Trace → Prop) (tr : Trace) : Prop :=
  match p with
  | Done a => Q a tr
  | Ask call next => allowed _ tr call ∧ ∀ r, answers _ call r → wp (next r) Q (tr ++ [event call r])
  end.
(** Runs: the trace a program makes and what it returns. *)
Inductive runs {A} : Program A → Trace → A → Trace → Prop :=
| runs_done a tr : runs (Done a) tr a tr
| runs_ask {T} (call : C T) next r tr a tr' :
    answers _ call r → runs (next r) (tr ++ [event call r]) a tr' → runs (Ask call next) tr a tr'.

Lemma calls_runs {A} (p : Program A) Q tr a tr' : wp p Q tr → runs p tr a tr' → Q a tr'.
Proof. intros Hw Hr. induction Hr as [|T call next r tr a tr' Hans Hr IH]; [done|]. apply IH. by apply Hw. Qed.
Lemma calls_mono {A} (p : Program A) (Q Q' : A → Trace → Prop) tr : wp p Q tr → (∀ a tr', Q a tr' → Q' a tr') → wp p Q' tr.
Proof.
  intros Hw HQ. revert tr Hw. induction p as [a|T call next IH]; intros tr; cbn; [apply HQ|].
  intros [Ha Hr]. split; [done|]. intros r Hans. by apply IH, Hr.
Qed.
Lemma calls_program_bind {A B} (p : Program A) (k : A → Program B) Q tr :
  wp p (λ a tr', wp (k a) Q tr') tr → wp (program_bind p k) Q tr.
Proof.
  revert tr. induction p as [a|T call next IH]; intros tr; cbn; [done|].
  intros [Ha Hr]. split; [done|]. intros r Hans. by apply IH, Hr.
Qed.

(** ** Programs that may fail *)

Definition Fallibly (E A : Type) : Type := Program (Result E A).
#[global] Instance Fallibly_ret {E} : MRet (Fallibly E) := λ A a, Done (Ok a).
#[global] Instance Fallibly_bind {E} : MBind (Fallibly E) := λ A B k m,
  program_bind m (λ r, match r with Ok a => k a | Err e => Done (Err e) end).
(** A computed result with [?]; a call that cannot fail; one whose failure is mapped. *)
Definition given {E A} (r : Result E A) : Fallibly E A := Done r.
Definition asked {E T} (call : C T) : Fallibly E T := Ask call (λ r, Done (Ok r)).
Definition tried {E F T} (call : C (Result F T)) (f : F → E) : Fallibly E T := Ask call (λ r, Done (map_err f r)).
(** [for x in xs { body(state, x)?; }] *)
Fixpoint fold_each {E X S} (body : S → X → Fallibly E S) (state : S) (xs : list X) : Fallibly E S :=
  match xs with
  | [] => mret state
  | x :: xs => next ← body state x; fold_each body next xs
  end.

Context {E : Type}.
Lemma calls_bind {A B} (m : Fallibly E A) (k : A → Fallibly E B) (Q : Result E B → Trace → Prop) tr :
  wp m (λ r tr', match r with Ok a => wp (k a) Q tr' | Err e => Q (Err e) tr' end) tr → wp (m ≫= k) Q tr.
Proof. intros Hm. apply calls_program_bind. eapply calls_mono; [exact Hm|]. by intros [a|e] tr'. Qed.
Lemma calls_ret {A} (a : A) (Q : Result E A → Trace → Prop) tr : Q (Ok a) tr → wp (mret a : Fallibly E A) Q tr.
Proof. done. Qed.
Lemma calls_given {A} (r : Result E A) (Q : Result E A → Trace → Prop) tr : Q r tr → wp (given r) Q tr.
Proof. done. Qed.
Lemma calls_asked {T} (call : C T) (Q : Result E T → Trace → Prop) tr :
  allowed _ tr call → (∀ r, answers _ call r → Q (Ok r) (tr ++ [event call r])) → wp (asked call) Q tr.
Proof. intros Ha Hr. by split. Qed.
Lemma calls_tried {F T} (call : C (Result F T)) (f : F → E) (Q : Result E T → Trace → Prop) tr :
  allowed _ tr call → (∀ r, answers _ call r → Q (map_err f r) (tr ++ [event call r])) → wp (tried call f) Q tr.
Proof. intros Ha Hr. by split. Qed.
End programs.
Arguments Program : clear implicits.
Arguments Event : clear implicits.
Arguments Trace : clear implicits.
Arguments Fallibly : clear implicits.
Arguments Done {_ _} _.
Arguments Ask {_ _ _} _ _.
Arguments wp {_} _ _ {_} _ _ _.
Arguments runs {_} _ {_} _ _ _ _.

(** Answers computed from the trace run a program. *)
Section execute.
Context {C : Type → Type} (answer : Trace C → ∀ T, C T → T).
Fixpoint execute {A} (p : Program C A) (tr : Trace C) : A * Trace C :=
  match p with
  | Done a => (a, tr)
  | Ask call next => let r := answer tr _ call in execute (next r) (tr ++ [event call r])
  end.
Lemma execute_runs (answers : ∀ T, C T → T → Prop) : (∀ tr T (call : C T), answers T call (answer tr T call)) →
  ∀ {A} (p : Program C A) tr, runs answers p tr (execute p tr).1 (execute p tr).2.
Proof.
  intros Ha A p. induction p as [a|T call next IH]; intros tr; cbn; [constructor|]. econstructor; [apply Ha|]. apply IH.
Qed.
End execute.
