(* ===== verification/ProviderFiles.v ===== *)
(** * Reading the files other programs own  (crates/providers/src/provider_files.rs)

    A root directory is opened once, walked by descriptor without following links,
    and everything that is read is checked before and after against what the
    directory said of it.  The operations are programs of system calls; a panic and
    an exhausted loop are failures of their own, proved impossible. *)
From stdpp Require Import prelude.
From S2P Require Import Prelude Ordering Text Externals Config Program.
Local Open Scope Z_scope.

Definition MAX_PROVIDER_FILE_BYTES : Z := 512 * 1024 * 1024.
Definition MAX_PROVIDER_SCAN_BYTES : Z := 1024 * 1024 * 1024.
Definition MAX_PROVIDER_SCAN_ENTRIES : Z := 25000.
Definition MAX_PROVIDER_SCAN_FILES : Z := 25000.
Definition MAX_PROVIDER_SCAN_DEPTH : Z := 16.
Definition MAX_PATH_BYTES : Z := 4096.
Definition MAX_COMPONENT_BYTES : Z := 255.
Definition MAX_ROOT_COMPONENTS : Z := 64.
Definition READ_CHUNK_BYTES : Z := 16 * 1024.
Definition MAX_PROVIDER_LINE_BYTES : Z := 4 * 1024 * 1024.

Inductive ProviderFileError :=
| InvalidRoot | InvalidRelativePath | InvalidLimits | Missing | UnsafeLayout | WrongOwner | TooLarge | TooManyEntries
| TooDeep | WrongRoot | Changed | Read | Cancelled.
#[global] Instance ProviderFileError_eq_dec : EqDecision ProviderFileError.
Proof. solve_decision. Defined.

(** ** System calls *)

Notation FileName := (list Z) (only parsing).
(** Of [nix::errno::Errno] the code tells [ENOENT] apart. *)
Inductive OsError := NoEntry | OtherError.
Inductive OFlag := O_PATH | O_RDONLY | O_DIRECTORY | O_CLOEXEC | O_NOATIME | O_NOFOLLOW | O_NONBLOCK.
(** [libc::stat] *)
Record Stat := mk_stat {
  st_dev : Z; st_ino : Z; st_size : Z; st_mode : Z; st_uid : Z; st_gid : Z; st_nlink : Z;
  st_mtime : Z; st_mtime_nsec : Z; st_ctime : Z; st_ctime_nsec : Z;
}.
(** An open descriptor is a number; [fstatat] is always called without following a
    link; a directory stream is the entries it lists before it ends. *)
Inductive FileCall : Type → Type :=
| GetEuid : FileCall Z
| Open (path : list Z) (flags : list OFlag) : FileCall (Result OsError nat)
| OpenAt (directory : nat) (name : FileName) (flags : list OFlag) : FileCall (Result OsError nat)
| Fstat (file : nat) : FileCall (Result OsError Stat)
| FstatAt (directory : nat) (name : FileName) : FileCall (Result OsError Stat)
| TryClone (file : nat) : FileCall (Result OsError nat)
| DirEntries (directory : nat) : FileCall (Result OsError (list (Result OsError FileName)))
| ReadChunk (file : nat) : FileCall (Result OsError (list Z))
| Advise (file : nat) : FileCall unit
| IsCancelled : FileCall bool.

(** A failure the code returns, a panic, and a loop that was cut short. *)
Inductive Failure := Failed (e : ProviderFileError) | Panic | OutOfFuel.
Notation Files := (Fallibly FileCall Failure).
Definition failed {A} (e : ProviderFileError) : Files A := given (Err (Failed e)).
Definition checked {A} (r : Result ProviderFileError A) : Files A := given (map_err Failed r).
(** [call.map_err(f)?] *)
Definition call_or {T} (call : FileCall (Result OsError T)) (f : OsError → ProviderFileError) : Files T :=
  tried call (λ e, Failed (f e)).
Definition check_cancelled : Files unit :=
  cancelled ← asked IsCancelled; if cancelled : bool then failed Cancelled else mret tt.

(** ** Limits *)

Record ProviderFileScanLimits := mk_limits { depth : Z; entries : Z; files : Z; file_bytes : Z; total_bytes : Z }.
Definition limits_new (maximum_depth maximum_entries maximum_files maximum_file_bytes maximum_total_bytes : Z) :
    Result ProviderFileError ProviderFileScanLimits :=
  if (MAX_PROVIDER_SCAN_DEPTH <? maximum_depth)
     || (maximum_entries =? 0) || (MAX_PROVIDER_SCAN_ENTRIES <? maximum_entries)
     || (maximum_files =? 0) || (MAX_PROVIDER_SCAN_FILES <? maximum_files)
     || (maximum_file_bytes =? 0) || (MAX_PROVIDER_FILE_BYTES <? maximum_file_bytes)
     || (maximum_total_bytes =? 0) || (MAX_PROVIDER_SCAN_BYTES <? maximum_total_bytes)
     || (maximum_total_bytes <? maximum_file_bytes)
  then Err InvalidLimits
  else Ok (mk_limits maximum_depth maximum_entries maximum_files maximum_file_bytes maximum_total_bytes).
Definition limits_default : ProviderFileScanLimits := mk_limits 4 1024 512 (4 * 1024 * 1024) (32 * 1024 * 1024).

Record ScanBudget := mk_scan_budget { limits : ProviderFileScanLimits; seen_entries : Z; seen_files : Z; seen_bytes : Z }.
Definition budget_new (limits : ProviderFileScanLimits) : ScanBudget := mk_scan_budget limits 0 0 0.
Definition observe_entry (b : ScanBudget) : Result ProviderFileError ScanBudget :=
  entries_seen ← ok_or (checked_add usize_max (seen_entries b) 1) TooManyEntries;
  if entries (limits b) <? entries_seen then Err TooManyEntries
  else Ok (mk_scan_budget (limits b) entries_seen (seen_files b) (seen_bytes b)).
Definition observe_file (size : Z) (b : ScanBudget) : Result ProviderFileError ScanBudget :=
  if file_bytes (limits b) <? size then Err TooLarge else
  files_seen ← ok_or (checked_add usize_max (seen_files b) 1) TooManyEntries;
  if files (limits b) <? files_seen then Err TooManyEntries else
  bytes_seen ← ok_or (checked_add usize_max (seen_bytes b) size) TooLarge;
  if total_bytes (limits b) <? bytes_seen then Err TooLarge
  else Ok (mk_scan_budget (limits b) (seen_entries b) files_seen bytes_seen).

(** ** What a file is *)

Record FileKey := mk_key { device : Z; inode : Z }.
#[global] Instance FileKey_eq_dec : EqDecision FileKey.
Proof. solve_decision. Defined.
Definition key_of (stat : Stat) : FileKey := mk_key (st_dev stat) (st_ino stat).
Record FileSnapshot := mk_file_snapshot {
  snapshot_key : FileKey; snapshot_size : Z; snapshot_mode : Z; snapshot_owner : Z; snapshot_group : Z; snapshot_links : Z;
  modified_seconds : Z; modified_nanoseconds : Z; changed_seconds : Z; changed_nanoseconds : Z;
}.
#[global] Instance FileSnapshot_eq_dec : EqDecision FileSnapshot.
Proof. solve_decision. Defined.
Definition snapshot_of (stat : Stat) : FileSnapshot :=
  mk_file_snapshot (key_of stat) (st_size stat) (st_mode stat) (st_uid stat) (st_gid stat) (st_nlink stat)
    (st_mtime stat) (st_mtime_nsec stat) (st_ctime stat) (st_ctime_nsec stat).
(** [S_IFMT], [S_IFREG] and [S_IFDIR]; the known bits of an [SFlag] are those of
    [S_IFMT]. *)
Definition S_IFMT : Z := 0xF000.
Definition S_IFREG : Z := 0x8000.
Definition S_IFDIR : Z := 0x4000.
Definition file_type (stat : Stat) : Z := Z.land (st_mode stat) S_IFMT.
(** [usize::try_from] of an [i64] *)
Definition usize_of (size : Z) : option Z := if size <? 0 then None else Some size.
Definition validate_directory (stat : Stat) (owner : Z) : Result ProviderFileError unit :=
  if negb (file_type stat =? S_IFDIR) then Err UnsafeLayout else
  if negb (st_uid stat =? owner) then Err WrongOwner else Ok tt.
Definition validate_regular_file (stat : Stat) (owner maximum_bytes : Z) : Result ProviderFileError unit :=
  if negb (file_type stat =? S_IFREG) then Err UnsafeLayout else
  if negb (st_uid stat =? owner) then Err WrongOwner else
  if negb (st_nlink stat =? 1) then Err UnsafeLayout else
  size ← ok_or (usize_of (st_size stat)) TooLarge;
  if maximum_bytes <? size then Err TooLarge else Ok tt.
Definition validate_read_limit (maximum_bytes : Z) : Result ProviderFileError unit :=
  if (maximum_bytes =? 0) || (MAX_PROVIDER_FILE_BYTES <? maximum_bytes) then Err InvalidLimits else Ok tt.
Definition map_root_open_error (e : OsError) : ProviderFileError :=
  match e with NoEntry => InvalidRoot | OtherError => UnsafeLayout end.
Definition map_relative_stat_error (e : OsError) : ProviderFileError :=
  match e with NoEntry => Missing | OtherError => UnsafeLayout end.
Definition map_relative_open_error : OsError → ProviderFileError := map_relative_stat_error.

(** ** Paths *)

Definition DOT : FileName := lit ".".
Definition DOTS : FileName := lit "..".
Definition path_is_absolute (path : list Z) : bool := bool_decide (head path = Some 47).
(** [Path::components], of a path's bytes after its root: [.] and empty parts are
    skipped. *)
Definition path_components (path : list Z) : list FileName :=
  filter (λ part, is_empty part || bool_decide (part = DOT) = false) (split_bytes 47 path).
Definition odd_component (part : FileName) : bool := is_empty part || bool_decide (part = DOT) || bool_decide (part = DOTS).
Definition validate_relative_path (path : list Z) (allow_empty : bool) : Result ProviderFileError unit :=
  if path_is_absolute path
     || (negb allow_empty && is_empty path)
     || (MAX_PATH_BYTES <? count path)
     || (negb (is_empty path) && existsb odd_component (split_bytes 47 path))
  then Err InvalidRelativePath else
  if existsb (λ name, bool_decide (name = DOTS) || is_empty name || (MAX_COMPONENT_BYTES <? count name)) (path_components path)
  then Err InvalidRelativePath else Ok tt.
(** [path.push(name)] *)
Definition push_path (path : list Z) (name : FileName) : list Z :=
  if path_is_absolute name then name
  else if is_empty path || bool_decide (last path = Some 47) then path ++ name else path ++ [47] ++ name.

Definition PATH_DIRECTORY : list OFlag := [O_PATH; O_DIRECTORY; O_CLOEXEC; O_NOFOLLOW].
Definition LIST_DIRECTORY : list OFlag := [O_RDONLY; O_DIRECTORY; O_CLOEXEC; O_NOATIME; O_NOFOLLOW; O_NONBLOCK].
Definition READ_FILE : list OFlag := [O_RDONLY; O_CLOEXEC; O_NOATIME; O_NOFOLLOW; O_NONBLOCK].

Definition open_absolute_directory (path : list Z) (owner : Z) : Files nat :=
  if negb (path_is_absolute path)
     || forallb (λ part, is_empty part || bool_decide (part = DOT)) (split_bytes 47 path)
     || (MAX_PATH_BYTES <? count path)
     || existsb odd_component (split_bytes 47 (tail path))
  then failed InvalidRoot else
  let names := path_components (tail path) in
  if existsb (λ name, bool_decide (name = DOTS) || is_empty name || (MAX_COMPONENT_BYTES <? count name)) names
  then failed InvalidRoot else
  if is_empty names || (MAX_ROOT_COMPONENTS <? count names) then failed InvalidRoot else
  directory ← call_or (Open (lit "/") PATH_DIRECTORY) (λ _, InvalidRoot);
  directory ← fold_each (λ directory name, call_or (OpenAt directory name PATH_DIRECTORY) map_root_open_error) directory names;
  stat ← call_or (Fstat directory) (λ _, UnsafeLayout);
  checked (validate_directory stat owner) ;;
  call_or (OpenAt directory DOT LIST_DIRECTORY) (λ _, UnsafeLayout).

(** ** The root *)

Record ProviderFileRoot := mk_root { directory : nat; identity : FileKey; owner : Z }.
Definition root_open (path : list Z) : Files ProviderFileRoot :=
  owner ← asked GetEuid;
  directory ← open_absolute_directory path owner;
  stat ← call_or (Fstat directory) (λ _, UnsafeLayout);
  checked (validate_directory stat owner) ;;
  mret (mk_root directory (key_of stat) owner).
Definition ensure_root_identity (root : ProviderFileRoot) : Files unit :=
  uid ← asked GetEuid;
  if negb (uid =? owner root) then failed WrongOwner else
  stat ← call_or (Fstat (directory root)) (λ _, UnsafeLayout);
  checked (validate_directory stat (owner root)) ;;
  if negb (bool_decide (key_of stat = identity root)) then failed Changed else mret tt.

(** ** The chain of directories below it *)

Record DirectoryChain := mk_chain { directories : list nat; names : list FileName; identities : list FileKey }.
Definition chain_last (chain : DirectoryChain) : Files nat :=
  match last (directories chain) with Some fd => mret fd | None => given (Err Panic) end.
Definition verify_link (owner : Z) (chain : DirectoryChain) (index : nat) (name : FileName) : Files nat :=
  match directories chain !! index, identities chain !! S index with
  | Some parent, Some expected =>
      stat ← call_or (FstatAt parent name) (λ _, Changed);
      checked (validate_directory stat owner) ;;
      if negb (bool_decide (key_of stat = expected)) then failed Changed else mret (S index)
  | _, _ => given (Err Panic)
  end.
Definition chain_verify (owner : Z) (chain : DirectoryChain) : Files unit :=
  _ ← fold_each (verify_link owner chain) 0%nat (names chain); mret tt.
Definition extend_chain (owner : Z) (chain : DirectoryChain) (name : FileName) : Files DirectoryChain :=
  check_cancelled ;;
  if bool_decide (name = DOTS) then failed InvalidRelativePath else
  parent ← chain_last chain;
  expected ← call_or (FstatAt parent name) map_relative_stat_error;
  checked (validate_directory expected owner) ;;
  directory ← call_or (OpenAt parent name PATH_DIRECTORY) map_relative_open_error;
  opened ← call_or (Fstat directory) (λ _, Changed);
  if negb (bool_decide (snapshot_of opened = snapshot_of expected)) then failed Changed else
  mret (mk_chain (directories chain ++ [directory]) (names chain ++ [name]) (identities chain ++ [key_of opened])).
Definition open_directory_chain (root : nat) (relative : list Z) (owner : Z) : Files DirectoryChain :=
  root ← call_or (TryClone root) (λ _, UnsafeLayout);
  root_stat ← call_or (Fstat root) (λ _, UnsafeLayout);
  checked (validate_directory root_stat owner) ;;
  fold_each (extend_chain owner) (mk_chain [root] [] [key_of root_stat]) (path_components relative).

(** ** Contents *)

(** One [read] into the chunk, between the checks of both loops: what was read, or
    [None] at the end. *)
Definition next_chunk (file : nat) : Files (option (list Z)) :=
  check_cancelled ;;
  chunk ← call_or (ReadChunk file) (λ _, Read);
  mret (if is_empty chunk then None else Some chunk).
Fixpoint read_loop (fuel : nat) (file : nat) (expected_size maximum_bytes : Z) (bytes : list Z) : Files (list Z) :=
  match fuel with
  | O => given (Err OutOfFuel)
  | S fuel =>
      chunk ← next_chunk file;
      match chunk with
      | None => if negb (count bytes =? expected_size) then failed Changed else mret bytes
      | Some chunk =>
          next ← checked (ok_or (checked_add usize_max (count bytes) (count chunk)) TooLarge);
          if (maximum_bytes <? next) || (expected_size <? next) then failed Changed else
          read_loop fuel file expected_size maximum_bytes (bytes ++ chunk)
      end
  end.
(** Each round but the last reads a byte at least. *)
Definition read_fuel (expected_size : Z) : nat := S (S (Z.to_nat expected_size)).
Definition read_bounded (file : nat) (expected_size maximum_bytes : Z) : Files (list Z) :=
  if maximum_bytes <? expected_size then failed TooLarge else
  read_loop (read_fuel expected_size) file expected_size maximum_bytes [].

(** The loop's state: the line so far, whether it is too long, and the lines the
    visitor was given. *)
Record LineState := mk_lines { line : list Z; oversized : bool; visited : list (list Z) }.
Definition visit_line (s : LineState) : list (list Z) :=
  if negb (oversized s) && negb (is_empty (line s)) then visited s ++ [line s] else visited s.
Definition visit_byte (maximum_line_bytes : Z) (s : LineState) (byte : Z) : LineState :=
  if byte =? 10 then mk_lines [] false (visit_line s)
  else if oversized s then s
  else if count (line s) =? maximum_line_bytes then mk_lines [] true (visited s)
  else mk_lines (line s ++ [byte]) false (visited s).
Fixpoint visit_loop (fuel : nat) (file : nat) (expected_size maximum_line_bytes total : Z) (s : LineState) : Files (list (list Z)) :=
  match fuel with
  | O => given (Err OutOfFuel)
  | S fuel =>
      chunk ← next_chunk file;
      match chunk with
      | None => if negb (total =? expected_size) then failed Changed else mret (visit_line s)
      | Some chunk =>
          total ← checked (ok_or (checked_add usize_max total (count chunk)) TooLarge);
          if expected_size <? total then failed Changed else
          visit_loop fuel file expected_size maximum_line_bytes total (foldl (visit_byte maximum_line_bytes) s chunk)
      end
  end.
(** The lines are what the visitor is given, in order; what it did with those of a
    file that then fails is lost with the failure. *)
Definition visit_bounded_lines (maximum_line_bytes : Z) (file : nat) (expected_size : Z) : Files (list (list Z)) :=
  asked (Advise file) ;;
  lines ← visit_loop (read_fuel expected_size) file expected_size maximum_line_bytes 0 (mk_lines [] false []);
  asked (Advise file) ;;
  mret lines.

Section inspect.
Context {T : Type} (operation : nat → Z → Files T).
Definition inspect_relative_file (root : nat) (relative : list Z) (maximum_bytes owner : Z) (expected : option FileSnapshot) : Files T :=
  check_cancelled ;;
  let components := path_components relative in
  match last components with
  | None => failed InvalidRelativePath
  | Some name =>
      if bool_decide (name = DOTS) then failed InvalidRelativePath else
      chain ← open_directory_chain root (foldl push_path [] (take (length components - 1) components)) owner;
      parent ← chain_last chain;
      path_stat ← call_or (FstatAt parent name) map_relative_stat_error;
      let snapshot := snapshot_of path_stat in
      if match expected with Some candidate => negb (bool_decide (candidate = snapshot)) | None => false end
      then failed Changed else
      checked (validate_regular_file path_stat owner maximum_bytes) ;;
      file ← call_or (OpenAt parent name READ_FILE) map_relative_open_error;
      opened ← call_or (Fstat file) (λ _, Changed);
      if negb (bool_decide (snapshot_of opened = snapshot)) then failed Changed else
      size ← checked (ok_or (usize_of (st_size opened)) TooLarge);
      output ← operation file size;
      closed_over ← call_or (Fstat file) (λ _, Changed);
      if negb (bool_decide (snapshot_of closed_over = snapshot)) then failed Changed else
      final_path ← call_or (FstatAt parent name) (λ _, Changed);
      if negb (bool_decide (snapshot_of final_path = snapshot)) then failed Changed else
      chain_verify owner chain ;;
      check_cancelled ;;
      mret output
  end.
End inspect.
Definition read_relative_file (root : nat) (relative : list Z) (maximum_bytes owner : Z) (expected : option FileSnapshot) : Files (list Z) :=
  inspect_relative_file (λ file expected_size, read_bounded file expected_size maximum_bytes) root relative maximum_bytes owner expected.
Definition root_read (root : ProviderFileRoot) (relative_file : list Z) (maximum_bytes : Z) : Files (list Z) :=
  check_cancelled ;;
  checked (validate_read_limit maximum_bytes) ;;
  checked (validate_relative_path relative_file false) ;;
  ensure_root_identity root ;;
  read_relative_file (directory root) relative_file maximum_bytes (owner root) None.

(** ** Scans *)

Record ProviderFileCandidate := mk_candidate { relative_path : list Z; size : Z; snapshot : FileSnapshot; candidate_root : FileKey }.
Notation Scanned := (ScanBudget * list ProviderFileCandidate)%type.
(** One entry of the stream. *)
Definition list_entry (state : ScanBudget * list FileName) (entry : Result OsError FileName) : Files (ScanBudget * list FileName) :=
  check_cancelled ;;
  name ← checked (map_err (λ _, Changed) entry);
  if bool_decide (name = DOT) || bool_decide (name = DOTS) then mret state else
  budget ← checked (observe_entry state.1);
  if is_empty name || (MAX_COMPONENT_BYTES <? count name) then failed UnsafeLayout else
  mret (budget, state.2 ++ [name]).
(** One name of the sorted list; [scan_child] scans the directories below. *)
Definition scan_name (scan_child : nat → list Z → Scanned → Files Scanned)
    (directory : nat) (relative : list Z) (depth_here : Z) (root : FileKey) (owner : Z) (state : Scanned) (name : FileName) : Files Scanned :=
  check_cancelled ;;
  stat ← call_or (FstatAt directory name) (λ _, Changed);
  if negb (st_uid stat =? owner) then failed WrongOwner else
  let path := push_path relative name in
  if MAX_PATH_BYTES <? count path then failed UnsafeLayout else
  if file_type stat =? S_IFREG then
    checked (validate_regular_file stat owner (file_bytes (limits state.1))) ;;
    size ← checked (ok_or (usize_of (st_size stat)) TooLarge);
    budget ← checked (observe_file size state.1);
    mret (budget, state.2 ++ [mk_candidate path size (snapshot_of stat) root])
  else if file_type stat =? S_IFDIR then
    if depth (limits state.1) <=? depth_here then failed TooDeep else
    child ← call_or (OpenAt directory name PATH_DIRECTORY) (λ _, Changed);
    opened ← call_or (Fstat child) (λ _, Changed);
    if negb (bool_decide (snapshot_of opened = snapshot_of stat)) then failed Changed else
    state ← scan_child child path state;
    linked ← call_or (FstatAt directory name) (λ _, Changed);
    if negb (bool_decide (key_of linked = key_of opened)) then failed Changed else mret state
  else failed UnsafeLayout.
Fixpoint scan_directory (levels : nat) (directory : nat) (relative : list Z) (depth_here : Z) (root : FileKey) (owner : Z)
    (state : Scanned) : Files Scanned :=
  match levels with
  | O => given (Err OutOfFuel)
  | S levels =>
      check_cancelled ;;
      before ← call_or (Fstat directory) (λ _, Changed);
      checked (validate_directory before owner) ;;
      stream ← call_or (OpenAt directory DOT LIST_DIRECTORY) (λ _, UnsafeLayout);
      listed ← call_or (DirEntries stream) (λ _, UnsafeLayout);
      '(budget, names) ← fold_each list_entry (state.1, []) listed;
      state ← fold_each
        (scan_name (λ child path state, scan_directory levels child path (depth_here + 1) root owner state)
           directory relative depth_here root owner)
        (budget, state.2) (sort_by_key id names);
      after ← call_or (Fstat directory) (λ _, Changed);
      if negb (bool_decide (snapshot_of after = snapshot_of before)) then failed Changed else mret state
  end.
(** One level more than a scan may be deep. *)
Definition scan_levels (l : ProviderFileScanLimits) : nat := S (Z.to_nat (depth l)).
Definition root_scan (root : ProviderFileRoot) (relative_directory : list Z) (l : ProviderFileScanLimits) : Files (list ProviderFileCandidate) :=
  check_cancelled ;;
  ensure_root_identity root ;;
  checked (validate_relative_path relative_directory true) ;;
  chain ← open_directory_chain (directory root) relative_directory (owner root);
  fd ← chain_last chain;
  scanned ← scan_directory (scan_levels l) fd relative_directory 0 (identity root) (owner root) (budget_new l, []);
  chain_verify (owner root) chain ;;
  let candidates := sort_by_key relative_path scanned.2 in
  check_cancelled ;;
  mret candidates.

Definition read_candidate (root : ProviderFileRoot) (candidate : ProviderFileCandidate) : Files (list Z) :=
  check_cancelled ;;
  ensure_root_identity root ;;
  if negb (bool_decide (candidate_root candidate = identity root)) then failed WrongRoot else
  read_relative_file (directory root) (relative_path candidate) (size candidate) (owner root) (Some (snapshot candidate)).
Definition visit_candidate_lines (root : ProviderFileRoot) (candidate : ProviderFileCandidate) (maximum_line_bytes : Z) :
    Files (list (list Z)) :=
  check_cancelled ;;
  if (maximum_line_bytes =? 0) || (MAX_PROVIDER_LINE_BYTES <? maximum_line_bytes) then failed InvalidLimits else
  ensure_root_identity root ;;
  if negb (bool_decide (candidate_root candidate = identity root)) then failed WrongRoot else
  inspect_relative_file (visit_bounded_lines maximum_line_bytes) (directory root) (relative_path candidate) (size candidate)
    (owner root) (Some (snapshot candidate)).
