(* ===== verification/ProviderFilesFacts.v ===== *)
(** * Reading the files other programs own: the guarantees

    No call leaves the opened directories or follows a link, no operation panics or
    runs without end; what is read is what the directory entry said it is, before
    and after; a scan keeps its limits and leaves nothing out; and the visitor is
    given exactly the lines of the file. *)
From stdpp Require Import prelude sorting.
From S2P Require Import Prelude Ordering Text Externals Config Program ProviderFiles.
Local Open Scope Z_scope.

(** ** Paths *)

Definition plain (name : list Z) : Prop := name ≠ [] ∧ name ≠ DOT ∧ name ≠ DOTS ∧ 47 ∉ name ∧ count name ≤ MAX_COMPONENT_BYTES.

Lemma split_one c l : c ∉ l → split_bytes c l = [l].
Proof.
  induction l as [|x l IH]; [done|]. intros [Hx Hl]%not_elem_of_cons. cbn [split_bytes].
  destruct (Z.eqb_spec x c) as [->|_]; [done|]. by rewrite IH.
Qed.
Lemma split_before c l k : c ∉ l → split_bytes c (l ++ c :: k) = l :: split_bytes c k.
Proof.
  induction l as [|x l IH]; cbn [split_bytes app]; [by rewrite Z.eqb_refl|]. intros [Hx Hl]%not_elem_of_cons.
  destruct (Z.eqb_spec x c) as [->|_]; [done|]. by rewrite IH.
Qed.
Lemma split_joined c l k : split_bytes c (l ++ c :: k) = split_bytes c l ++ split_bytes c k.
Proof.
  induction l as [|x l IH]; cbn [split_bytes app]; [by rewrite Z.eqb_refl|].
  destruct (x =? c); rewrite IH; [done|]. by destruct (split_bytes c l) eqn:E; [apply split_bytes_nonempty in E|].
Qed.
Lemma split_part c l part : part ∈ split_bytes c l → c ∉ part.
Proof. destruct (split_bytes_spec c l) as [_ H]. rewrite Forall_forall in H. apply H. Qed.
Lemma plain_kept name : plain name → filter (λ part, is_empty part || bool_decide (part = DOT) = false) [name] = [name].
Proof.
  intros (He & Hd & _). rewrite filter_cons, decide_True; [done|]. apply orb_false_iff. split; [by destruct name|]. by apply bool_decide_eq_false_2.
Qed.
Lemma components_push path name : plain name → path_components (push_path path name) = path_components path ++ [name].
Proof.
  intros Hn. pose proof (plain_kept name Hn) as Hk. destruct Hn as (He & _ & _ & H47 & _). unfold push_path, path_is_absolute.
  rewrite bool_decide_eq_false_2. 2:{ destruct name; [done|]. intros [= ->]. apply H47. by left. }
  unfold path_components. destruct path as [|x path _] using rev_ind.
  { cbn [is_empty orb]. cbn [app]. rewrite split_one by done. by rewrite Hk. }
  destruct (is_empty (path ++ [x])) eqn:Hp; [by destruct path|]. cbn [orb]. rewrite last_snoc. destruct (decide (x = 47)) as [->|Hx].
  - rewrite bool_decide_eq_true_2 by done. rewrite <-app_assoc. cbn [app].
    rewrite split_joined, filter_app, (split_one 47 name), Hk by done. f_equal.
    rewrite (split_joined 47 path []), filter_app. cbn [split_bytes]. by rewrite app_nil_r.
  - rewrite bool_decide_eq_false_2 by congruence. cbn [app]. by rewrite split_joined, filter_app, (split_one 47 name), Hk.
Qed.
Lemma components_joined l : Forall plain l → path_components (foldl push_path [] l) = l.
Proof.
  induction l as [|x l IH] using rev_ind; [done|]. intros [Hl [Hx _]%list.Forall_cons_1]%Forall_app.
  rewrite foldl_app. cbn [foldl]. by rewrite components_push, IH.
Qed.
Lemma kept_component path name : name ∈ path_components path → name ≠ [] ∧ name ≠ DOT ∧ 47 ∉ name.
Proof.
  intros [[He Hd%bool_decide_eq_false]%orb_false_iff Hin]%list_elem_of_filter. split; [by destruct name|]. split; [done|].
  by eapply split_part.
Qed.
Lemma short_components path : existsb (λ name, bool_decide (name = DOTS) || is_empty name || (MAX_COMPONENT_BYTES <? count name)) (path_components path) = false →
  Forall plain (path_components path).
Proof.
  rewrite existsb_false, !Forall_forall. intros H name Hin. destruct (kept_component _ _ Hin) as (He & Hd & H47).
  specialize (H name Hin). rewrite !orb_false_iff in H. destruct H as [[Hds%bool_decide_eq_false _] Hl%Z.ltb_ge]. by split.
Qed.
Lemma validated_components path b : validate_relative_path path b = Ok tt → Forall plain (path_components path).
Proof. unfold validate_relative_path. case_match; [done|]. case_match eqn:Hs; [done|]. intros _. by apply short_components. Qed.

(** ** The contract of the calls, and what the program may ask *)

(** A directory lists names. *)
Definition documented (T : Type) (call : FileCall T) : T → Prop :=
  match call in FileCall T return T → Prop with
  | DirEntries _ => λ r, match r with
      | Ok l => Forall (λ entry : Result OsError (list Z), match entry with Ok name => 47 ∉ name | Err _ => True end) l
      | Err _ => True
      end
  | _ => λ _, True
  end.
Definition opens (e : Event FileCall) : list nat :=
  match e with
  | event call answer =>
      match call in FileCall T return T → list nat with
      | Open _ _ | OpenAt _ _ _ | TryClone _ => λ r, match r with Ok fd => [fd] | Err _ => [] end
      | _ => λ _, []
      end answer
  end.
Definition opened (tr : Trace FileCall) (fd : nat) : Prop := fd ∈ tr ≫= opens.
(** Only what was opened here is used; no open follows a link; below the root every
    name is one component; and [.] is only reopened as the directory it is. *)
Definition confined (T : Type) (tr : Trace FileCall) (call : FileCall T) : Prop :=
  match call with
  | GetEuid | IsCancelled => True
  | Open path flags => path = lit "/" ∧ O_NOFOLLOW ∈ flags ∧ O_DIRECTORY ∈ flags
  | OpenAt fd name flags => opened tr fd ∧ O_NOFOLLOW ∈ flags ∧ (plain name ∨ name = DOT ∧ O_DIRECTORY ∈ flags)
  | FstatAt fd name => opened tr fd ∧ plain name
  | Fstat fd | TryClone fd | DirEntries fd | ReadChunk fd | Advise fd => opened tr fd
  end.
Lemma opened_app tr new fd : opened tr fd → opened (tr ++ new) fd.
Proof. unfold opened. rewrite bind_app, elem_of_app. by left. Qed.
Lemma opened_snoc tr e fd : opens e = [fd] → opened (tr ++ [e]) fd.
Proof. intros He. unfold opened. rewrite bind_app, elem_of_app, bind_singleton, He. right. by left. Qed.
Lemma opened_all tr new l : Forall (opened tr) l → Forall (opened (tr ++ new)) l.
Proof. intros Hl. eapply Forall_impl; [exact Hl|]. intros fd. apply opened_app. Qed.

(** A program that asks only what it may, ends with a failure that is stated, if
    with one, neither panics nor is cut short, and whose results satisfy [P] with the
    events it made. *)
Class Settles (E : Type) := stated : E → Prop.
#[global] Instance Failure_settles : Settles Failure := λ e, match e with Failed _ => True | _ => False end.
Section keeps.
Context {E : Type} `{!Settles E}.
Notation Fallible := (Fallibly FileCall E).
Definition keeps {A} (m : Fallible A) (P : A → Trace FileCall → Prop) (tr : Trace FileCall) : Prop :=
  wp documented confined m (λ r tr', ∃ new, tr' = tr ++ new ∧ match r with Ok a => P a new | Err e => stated e end) tr.

Lemma keeps_mono {A} (m : Fallible A) (P P' : A → Trace FileCall → Prop) tr : keeps m P tr → (∀ a new, P a new → P' a new) → keeps m P' tr.
Proof.
  intros Hm HP. eapply calls_mono; [exact Hm|]. intros [a|e] tr' (new & -> & H); exists new; (split; [done|]); [by apply HP|done].
Qed.
Lemma keeps_ret {A} (a : A) (P : A → Trace FileCall → Prop) tr : P a [] → keeps (mret a) P tr.
Proof. intros HP. apply calls_ret. exists []. by rewrite app_nil_r. Qed.
Lemma keeps_step {A B} (m : Fallible A) (k : A → Fallible B) (P : A → Trace FileCall → Prop) Q tr :
  keeps m P tr → (∀ a new, P a new → keeps (k a) (λ b later, Q b (new ++ later)) (tr ++ new)) → keeps (m ≫= k) Q tr.
Proof.
  intros Hm Hk. apply calls_bind. eapply calls_mono; [exact Hm|]. intros [a|e] tr' (new & -> & H).
  - eapply calls_mono; [by apply Hk|]. intros r tr'' (later & -> & Hr). exists (new ++ later). by rewrite app_assoc.
  - by exists new.
Qed.
Lemma keeps_ask {T B} (call : FileCall T) (k : T → Fallible B) Q tr :
  confined _ tr call → (∀ r, keeps (k r) (λ b later, Q b (event call r :: later)) (tr ++ [event call r])) →
  keeps (asked call ≫= k) Q tr.
Proof.
  intros Hc Hk. apply calls_bind, calls_asked; [done|]. intros r _. eapply calls_mono; [by apply Hk|].
  intros x tr' (later & -> & Hx). exists (event call r :: later). rewrite <-app_assoc. done.
Qed.
Lemma keeps_fold {X S} (body : S → X → Fallible S) (I : list X → S → Trace FileCall → Prop) tr xs s :
  I [] s [] →
  (∀ done_ x rest s new, xs = done_ ++ x :: rest → I done_ s new →
     keeps (body s x) (λ s' later, I (done_ ++ [x]) s' (new ++ later)) (tr ++ new)) →
  keeps (fold_each body s xs) (λ s' new, I xs s' new) tr.
Proof.
  intros H0 Hb. assert (∀ todo done_ s new, xs = done_ ++ todo → I done_ s new →
    keeps (fold_each body s todo) (λ s' later, I xs s' (new ++ later)) (tr ++ new)) as Hgen.
  { intros todo. induction todo as [|x todo IH]; intros done_ s' new Hxs HI; cbn [fold_each].
    - apply keeps_ret. rewrite app_nil_r in Hxs. subst. by rewrite app_nil_r.
    - eapply keeps_step; [by eapply Hb|]. cbn beta. intros s'' later HI'. rewrite <-app_assoc.
      eapply keeps_mono; [apply (IH (done_ ++ [x]) s'' (new ++ later)); [by rewrite <-app_assoc|done]|].
      intros a l. cbn beta. by rewrite <-app_assoc. }
  specialize (Hgen xs [] s [] eq_refl H0). by rewrite app_nil_r in Hgen.
Qed.
End keeps.
Lemma keeps_failed {A} e (P : A → Trace FileCall → Prop) tr : keeps (failed e) P tr.
Proof. apply calls_given. exists []. by rewrite app_nil_r. Qed.
Lemma keeps_call {T B} (call : FileCall (Result OsError T)) f (k : T → Files B) Q tr :
  confined _ tr call →
  (∀ r, documented _ call (Ok r) → keeps (k r) (λ b later, Q b (event call (Ok r) :: later)) (tr ++ [event call (Ok r)])) →
  keeps (call_or call f ≫= k) Q tr.
Proof.
  intros Hc Hk. apply calls_bind, calls_tried; [done|]. intros [r|e] Hr; cbn [map_err].
  - eapply calls_mono; [by apply Hk|]. intros x tr' (later & -> & Hx). exists (event call (Ok r) :: later).
    rewrite <-app_assoc. done.
  - by exists [event call (Err e)].
Qed.
Lemma keeps_last_call {T} (call : FileCall (Result OsError T)) f Q tr :
  confined _ tr call → (∀ r, documented _ call (Ok r) → Q r [event call (Ok r)]) → keeps (call_or call f) Q tr.
Proof.
  intros Hc Hk. apply calls_tried; [done|]. intros [r|e] Hr; cbn [map_err]; [exists [event call (Ok r)]|by exists [event call (Err e)]].
  split; [done|]. by apply Hk.
Qed.
Lemma keeps_cancel {B} (k : unit → Files B) Q tr :
  keeps (k tt) (λ b later, Q b (event IsCancelled false :: later)) (tr ++ [event IsCancelled false]) → keeps (check_cancelled ≫= k) Q tr.
Proof.
  intros Hk. apply calls_bind. unfold check_cancelled. apply calls_bind, calls_asked; [done|]. intros [|] _.
  - apply calls_given. by exists [event IsCancelled true].
  - apply calls_ret. eapply calls_mono; [exact Hk|]. intros x tr' (later & -> & Hx). exists (event IsCancelled false :: later).
    rewrite <-app_assoc. done.
Qed.
Lemma keeps_check {T B} (r : Result ProviderFileError T) (k : T → Files B) Q tr :
  (∀ a, r = Ok a → keeps (k a) Q tr) → keeps (checked r ≫= k) Q tr.
Proof.
  intros Hk. apply calls_bind, calls_given. destruct r as [a|e]; cbn [map_err]; [by apply Hk|]. exists []. by rewrite app_nil_r.
Qed.
Lemma keeps_unless {B} (b : bool) e (m : Files B) Q tr : (b = false → keeps m Q tr) → keeps (if b then failed e else m) Q tr.
Proof. intros Hm. destruct b; [apply keeps_failed|by apply Hm]. Qed.

(** ** Contents *)

(** What the reads of one descriptor answered. *)
Definition chunk_of (file : nat) (e : Event FileCall) : list Z :=
  match e with
  | event call answer =>
      match call in FileCall T return T → list Z with
      | ReadChunk fd => λ r, match r with Ok l => if bool_decide (fd = file) then l else [] | Err _ => [] end
      | _ => λ _, []
      end answer
  end.
Definition data (file : nat) (tr : Trace FileCall) : list Z := tr ≫= chunk_of file.
Lemma data_app file tr new : data file (tr ++ new) = data file tr ++ data file new.
Proof. apply bind_app. Qed.

Lemma keeps_next_chunk tr file : opened tr file →
  keeps (next_chunk file) (λ o new, data file new = match o with Some c => c | None => [] end ∧ ∀ c, o = Some c → c ≠ []) tr.
Proof.
  intros Ho. apply keeps_cancel. apply keeps_call; [by apply opened_app|]. intros r _. apply keeps_ret.
  assert (data file [event IsCancelled false; event (ReadChunk file) (Ok r)] = r) as -> by (cbn; by rewrite bool_decide_eq_true_2, app_nil_r).
  destruct r as [|x r]; [done|]. split; [done|]. by intros c [= <-].
Qed.
Lemma count_snoc_chunk (bytes chunk : list Z) : chunk ≠ [] → count bytes < count (bytes ++ chunk).
Proof. unfold count. rewrite length_app. destruct chunk; cbn; [done|lia]. Qed.
Lemma keeps_read_loop fuel file expected_size maximum_bytes bytes tr : opened tr file → count bytes ≤ expected_size →
  (Z.to_nat (expected_size - count bytes) < fuel)%nat →
  keeps (read_loop fuel file expected_size maximum_bytes bytes) (λ b new, b = bytes ++ data file new ∧ count b = expected_size) tr.
Proof.
  revert bytes tr. induction fuel as [|fuel IH]; intros bytes tr Ho Hle Hf; [lia|]. cbn [read_loop].
  eapply keeps_step; [by apply keeps_next_chunk|]. intros [chunk|] new [Hd Hne]; cbn beta in *.
  - apply keeps_check. intros next Hn%ok_or_Ok%checked_add_Some. destruct Hn as [Hn _]. apply keeps_unless. intros [Hm%Z.ltb_ge Hx%Z.ltb_ge]%orb_false_iff.
    specialize (Hne _ eq_refl). pose proof (count_snoc_chunk bytes chunk Hne).
    assert (count (bytes ++ chunk) = next) as Hc by (unfold count in *; rewrite length_app; lia).
    eapply keeps_mono; [apply IH; [by apply opened_app|lia|lia]|]. cbn beta. intros b later [-> Hb].
    split; [by rewrite data_app, Hd, app_assoc|done].
  - apply keeps_unless. intros Hs%negb_false_iff%Z.eqb_eq. apply keeps_ret. rewrite app_nil_r. rewrite Hd. by rewrite app_nil_r.
Qed.
Lemma keeps_read_bounded file expected_size maximum_bytes tr : opened tr file → 0 ≤ expected_size →
  keeps (read_bounded file expected_size maximum_bytes) (λ b new, b = data file new ∧ count b = expected_size ∧ expected_size ≤ maximum_bytes) tr.
Proof.
  intros Ho H0. apply keeps_unless. intros Hm%Z.ltb_ge. eapply keeps_mono.
  - apply keeps_read_loop; [done|done|]. unfold read_fuel. change (count (@nil Z)) with 0. lia.
  - cbn beta. intros b new [-> Hb]. done.
Qed.

(** ** Lines *)

(** The lines of a file that the visitor is to be given. *)
Definition line_ok (maximum : Z) (l : list Z) : bool := negb (is_empty l) && (count l <=? maximum).
Definition lines_of (maximum : Z) (contents : list Z) : list (list Z) := filter (λ l, line_ok maximum l = true) (split_bytes 10 contents).
(** The state after a part of a line: the part, or that it is too long already. *)
Definition reading (maximum : Z) (s : LineState) (prefix : list Z) : Prop :=
  oversized s = false ∧ line s = prefix ∧ count prefix ≤ maximum ∨ oversized s = true ∧ line s = [] ∧ maximum < count prefix.
Lemma visit_line_reading maximum s prefix : reading maximum s prefix →
  visit_line s = visited s ++ (if line_ok maximum prefix then [prefix] else []).
Proof.
  unfold visit_line, line_ok. intros [(-> & -> & Hc)|(-> & -> & Hc)]; cbn [negb andb].
  - rewrite (proj2 (Z.leb_le _ _) Hc), andb_true_r. destruct (negb (is_empty prefix)); [done|]. by rewrite app_nil_r.
  - rewrite (proj2 (Z.leb_gt _ _) Hc), andb_false_r. by rewrite app_nil_r.
Qed.
Lemma lines_first maximum prefix contents : 10 ∉ prefix →
  lines_of maximum (prefix ++ 10 :: contents) = (if line_ok maximum prefix then [prefix] else []) ++ lines_of maximum contents.
Proof.
  intros Hp. unfold lines_of. rewrite split_before, filter_cons by done. by destruct (line_ok maximum prefix).
Qed.
Lemma lines_last maximum prefix : 10 ∉ prefix → lines_of maximum prefix = if line_ok maximum prefix then [prefix] else [].
Proof. intros Hp. unfold lines_of. rewrite split_one, filter_cons by done. by destruct (line_ok maximum prefix). Qed.
Lemma visit_lines maximum contents s prefix : 0 ≤ maximum → 10 ∉ prefix → reading maximum s prefix →
  visit_line (foldl (visit_byte maximum) s contents) = visited s ++ lines_of maximum (prefix ++ contents).
Proof.
  intros H0. revert s prefix. induction contents as [|b contents IH]; intros s prefix Hp Hs; cbn [foldl].
  - by rewrite app_nil_r, lines_last, (visit_line_reading maximum s prefix).
  - unfold visit_byte at 2. destruct (Z.eqb_spec b 10) as [->|Hb].
    + rewrite (IH _ []); [|apply not_elem_of_nil|by left]. cbn [visited app].
      by rewrite lines_first, app_assoc, (visit_line_reading maximum s prefix).
    + assert (10 ∉ prefix ++ [b]) as Hp' by (rewrite not_elem_of_app, not_elem_of_cons; split; [done|split; [congruence|apply not_elem_of_nil]]).
      assert (count (prefix ++ [b]) = count prefix + 1) as Hc1 by (unfold count; rewrite length_app; cbn; lia).
      assert (prefix ++ b :: contents = (prefix ++ [b]) ++ contents) as -> by (by rewrite <-app_assoc).
      destruct Hs as [(Ho & Hl & Hc)|(Ho & Hl & Hc)]; rewrite Ho.
      * destruct (Z.eqb_spec (count (line s)) maximum) as [Hm|Hm]; rewrite Hl in Hm.
        -- rewrite (IH _ (prefix ++ [b])); [done|done|]. right. cbn. split_and!; [done|done|lia].
        -- rewrite (IH _ (prefix ++ [b])); [done|done|]. left. cbn. rewrite Hl. split_and!; [done|done|lia].
      * rewrite (IH _ (prefix ++ [b])); [done|done|]. right. split_and!; [done|done|lia].
Qed.
Lemma keeps_visit_loop fuel file expected_size maximum total s tr : opened tr file → total ≤ expected_size →
  (Z.to_nat (expected_size - total) < fuel)%nat →
  keeps (visit_loop fuel file expected_size maximum total s)
    (λ ls new, ls = visit_line (foldl (visit_byte maximum) s (data file new)) ∧ total + count (data file new) = expected_size) tr.
Proof.
  revert total s tr. induction fuel as [|fuel IH]; intros total s tr Ho Hle Hf; [lia|]. cbn [visit_loop].
  eapply keeps_step; [by apply keeps_next_chunk|]. intros [chunk|] new [Hd Hne]; cbn beta in *.
  - apply keeps_check. intros next Hn%ok_or_Ok%checked_add_Some. destruct Hn as [Hn _]. apply keeps_unless. intros Hx%Z.ltb_ge.
    specialize (Hne _ eq_refl). pose proof (count_snoc_chunk [] chunk Hne) as Hpos. cbn [app] in Hpos. change (count (@nil Z)) with 0 in Hpos.
    eapply keeps_mono; [apply IH; [by apply opened_app|lia|lia]|]. cbn beta. intros ls later [-> Hb].
    rewrite data_app, Hd, foldl_app. split; [done|]. unfold count in *. rewrite length_app. lia.
  - apply keeps_unless. intros Hs%negb_false_iff%Z.eqb_eq. apply keeps_ret. rewrite app_nil_r, Hd. split; [done|].
    cbn. change (count (@nil Z)) with 0. lia.
Qed.
Lemma keeps_visit_bounded maximum file expected_size tr : opened tr file → 0 ≤ expected_size → 0 ≤ maximum →
  keeps (visit_bounded_lines maximum file expected_size) (λ ls new, ls = lines_of maximum (data file new) ∧ count (data file new) = expected_size) tr.
Proof.
  intros Ho H0 Hm. apply keeps_ask; [done|]. intros []. eapply keeps_step.
  { apply keeps_visit_loop; [by apply opened_app|done|]. unfold read_fuel. lia. }
  cbn beta. intros ls new [-> Hc]. apply keeps_ask; [by apply opened_app, opened_app|]. intros []. apply keeps_ret.
  change (data file (event (Advise file) tt :: new ++ [event (Advise file) tt])) with (data file (new ++ [event (Advise file) tt])).
  rewrite data_app, app_nil_r. split; [|exact Hc]. apply (visit_lines maximum (data file new) (mk_lines [] false []) []); [done|apply not_elem_of_nil|by left].
Qed.

(** ** What was listed *)

Definition entry_names (l : list (Result OsError (list Z))) : list (list Z) :=
  l ≫= λ entry, match entry with Ok name => if bool_decide (name = DOT) || bool_decide (name = DOTS) then [] else [name] | Err _ => [] end.
(** What the directories listed, the two dots aside. *)
Definition listing_of (e : Event FileCall) : list (list (list Z)) :=
  match e with
  | event call answer =>
      match call in FileCall T return T → list (list (list Z)) with
      | DirEntries _ => λ r, match r with Ok l => [entry_names l] | Err _ => [] end
      | _ => λ _, []
      end answer
  end.
Definition listings (tr : Trace FileCall) : list (list (list Z)) := tr ≫= listing_of.
Lemma listings_app tr new : listings (tr ++ new) = listings tr ++ listings new.
Proof. apply bind_app. Qed.

(** ** The chain of directories *)

Definition directory_of (owner : Z) (stat : Stat) : Prop := file_type stat = S_IFDIR ∧ st_uid stat = owner.
Lemma directory_Ok stat owner : validate_directory stat owner = Ok tt → directory_of owner stat.
Proof.
  unfold validate_directory. destruct (Z.eqb_spec (file_type stat) S_IFDIR); [|done]. cbn [negb].
  destruct (Z.eqb_spec (st_uid stat) owner); [|done]. done.
Qed.
(** The way from a root down a path, as it was walked: each directory was opened
    below the one before it under its name of the path, and is the directory that the
    name was seen to be.  [links] are its steps: where a name was found, and what it
    led to. *)
Inductive Walk (root : nat) (owner : Z) : list (list Z) → nat → list (nat * list Z * FileKey) → Trace FileCall → Prop :=
| walk_root fd stat : directory_of owner stat →
    Walk root owner [] fd [] [event (TryClone root) (Ok fd); event (Fstat fd) (Ok stat)]
| walk_step path parent links events name expected fd opened_ : Walk root owner path parent links events →
    directory_of owner expected → snapshot_of opened_ = snapshot_of expected →
    Walk root owner (path ++ [name]) fd (links ++ [(parent, name, key_of opened_)])
      (events ++ [event IsCancelled false; event (FstatAt parent name) (Ok expected); event (OpenAt parent name PATH_DIRECTORY) (Ok fd);
                  event (Fstat fd) (Ok opened_)]).
(** Each name still leads to what it led to. *)
Definition relinked (owner : Z) (links : list (nat * list Z * FileKey)) (new : Trace FileCall) : Prop :=
  Forall (λ '(parent, name, key), ∃ stat, event (FstatAt parent name) (Ok stat) ∈ new ∧ key_of stat = key ∧ directory_of owner stat) links.

Record chain_ok (tr : Trace FileCall) (chain : DirectoryChain) : Prop := {
  chain_opened : Forall (opened tr) (directories chain);
  chain_directories : length (directories chain) = S (length (names chain));
  chain_identities : length (identities chain) = S (length (names chain));
  chain_plain : Forall plain (names chain);
}.
(** What a chain records of the walk. *)
Record walked (root : nat) (owner : Z) (chain : DirectoryChain) (fd : nat) (links : list (nat * list Z * FileKey)) (new : Trace FileCall) : Prop := {
  walked_walk : Walk root owner (names chain) fd links new;
  walked_last : last (directories chain) = Some fd;
  walked_links : length links = length (names chain) ∧ ∀ i parent name key, links !! i = Some (parent, name, key) →
    directories chain !! i = Some parent ∧ names chain !! i = Some name ∧ identities chain !! S i = Some key;
}.
Lemma chain_ok_app tr new chain : chain_ok tr chain → chain_ok (tr ++ new) chain.
Proof. intros [Ho Hd Hi Hp]. split; [by apply opened_all|done..]. Qed.
(** What held before the last events. *)
Ltac from_before H := first [exact H | first [apply opened_app | apply chain_ok_app]; from_before H].
Lemma last_opened tr chain fd : chain_ok tr chain → last (directories chain) = Some fd → opened tr fd.
Proof. intros [Ho _ _ _] [l Hl]%last_Some. rewrite Hl in Ho. by apply Forall_app in Ho as [_ [Hfd _]%list.Forall_cons_1]. Qed.
Lemma keeps_chain_last {B} tr chain fd (k : nat → Files B) Q : last (directories chain) = Some fd → keeps (k fd) Q tr → keeps (chain_last chain ≫= k) Q tr.
Proof. intros Hl Hk. unfold chain_last. rewrite Hl. by apply calls_bind, calls_ret. Qed.
Lemma extended_walk root owner chain parent links events name expected fd opened_ : walked root owner chain parent links events →
  directory_of owner expected → snapshot_of opened_ = snapshot_of expected →
  length (directories chain) = S (length (names chain)) → length (identities chain) = S (length (names chain)) →
  walked root owner (mk_chain (directories chain ++ [fd]) (names chain ++ [name]) (identities chain ++ [key_of opened_])) fd
    (links ++ [(parent, name, key_of opened_)])
    (events ++ [event IsCancelled false; event (FstatAt parent name) (Ok expected); event (OpenAt parent name PATH_DIRECTORY) (Ok fd);
                event (Fstat fd) (Ok opened_)]).
Proof.
  intros [Hw Hl [Hn Hk]] He Hs Hd Hi. split; cbn [directories names identities]; [by apply walk_step with (expected := expected)|by rewrite last_snoc|].
  split; [by rewrite !length_app, Hn|]. intros i parent' name' key. rewrite lookup_snoc_Some. intros [[Hlt Hlink]|[-> [= <- <- <-]]].
  - destruct (Hk _ _ _ _ Hlink) as (H1 & H2 & H3). split_and!; by apply lookup_app_l_Some.
  - rewrite last_lookup, Hd in Hl. cbn [Init.Nat.pred] in Hl. rewrite Hn. split_and!; [by apply lookup_app_l_Some|by apply list_lookup_middle|].
    apply list_lookup_middle. lia.
Qed.
Lemma keeps_extend_chain root owner chain parent links before name tr : chain_ok tr chain → walked root owner chain parent links before → plain name →
  keeps (extend_chain owner chain name)
    (λ chain' new, chain_ok (tr ++ new) chain' ∧ names chain' = names chain ++ [name] ∧ listings new = [] ∧
       ∃ fd links', walked root owner chain' fd links' (before ++ new)) tr.
Proof.
  intros Hc Hw Hn. apply keeps_cancel. apply keeps_unless. intros _. pose proof (walked_last _ _ _ _ _ _ Hw) as Hlast.
  apply (keeps_chain_last _ _ parent); [done|]. pose proof (last_opened _ _ _ Hc Hlast) as Hp.
  apply keeps_call; [split; [by apply opened_app|done]|]. intros expected _. apply keeps_check. intros [] Hdir%directory_Ok. apply keeps_call.
  { split; [by apply opened_app, opened_app|]. split; [|by left]. set_solver. }
  intros fd _. apply keeps_call; [by apply opened_snoc|]. intros stat _. apply keeps_unless. intros Hs%negb_false_iff%bool_decide_eq_true.
  apply keeps_ret. destruct Hc as [Ho Hd Hi Hpl]. split; [|split; [done|split; [done|]]].
  2:{ exists fd, (links ++ [(parent, name, key_of stat)]). by apply (extended_walk _ _ _ _ _ _ _ expected). }
  split; cbn [directories names identities]; rewrite ?length_app; cbn; try lia.
  - apply Forall_app. split; [by apply opened_all|]. constructor; [|constructor]. unfold opened.
    rewrite bind_app, elem_of_app. right. by left.
  - by apply Forall_app; split; [|constructor].
Qed.
Lemma keeps_open_chain root relative owner tr : opened tr root → Forall plain (path_components relative) →
  keeps (open_directory_chain root relative owner)
    (λ chain new, chain_ok (tr ++ new) chain ∧ names chain = path_components relative ∧ listings new = [] ∧
       ∃ fd links, walked root owner chain fd links new) tr.
Proof.
  intros Ho Hp. apply keeps_call; [done|]. intros fd _. apply keeps_call; [by apply opened_snoc|]. intros stat _.
  apply keeps_check. intros [] Hdir%directory_Ok.
  eapply keeps_mono.
  - apply (keeps_fold _ (λ done_ chain new, chain_ok (((tr ++ [event (TryClone root) (Ok fd)]) ++ [event (Fstat fd) (Ok stat)]) ++ new) chain ∧
      names chain = done_ ∧ listings new = [] ∧
      ∃ fd' links, walked root owner chain fd' links ([event (TryClone root) (Ok fd); event (Fstat fd) (Ok stat)] ++ new))).
    + rewrite app_nil_r. split; [|split; [done|split; [done|]]].
      * split; cbn; [|done|done|constructor]. constructor; [|constructor]. by apply opened_app, opened_snoc.
      * exists fd, []. split; [by constructor|done|]. split; [done|]. intros i parent name key. by rewrite lookup_nil.
    + intros done_ name rest chain new Hl (Hc & Hnames & Hq & fd' & links & Hw). rewrite Hl in Hp. apply Forall_app in Hp as [_ [Hn _]%list.Forall_cons_1].
      eapply keeps_mono; [by eapply keeps_extend_chain|]. cbn beta. intros chain' later (Hc' & Hnames' & Hq' & fd'' & links' & Hw').
      rewrite app_assoc, listings_app, Hq, Hnames', Hnames. split_and!; [done..|]. exists fd'', links'. by rewrite <-app_assoc in Hw'.
  - cbn beta. intros chain new. rewrite <-!app_assoc. by intros (? & ? & ? & ?).
Qed.
Lemma keeps_chain_verify root owner chain fd links before tr : chain_ok tr chain → walked root owner chain fd links before →
  keeps (chain_verify owner chain) (λ _ new, listings new = [] ∧ relinked owner links new) tr.
Proof.
  intros [Ho Hd Hi Hp] [_ _ [Hlen Hk]]. unfold chain_verify.
  eapply (keeps_step _ _ (λ index new, index = length (names chain) ∧ listings new = [] ∧ relinked owner (take index links) new)).
  2:{ intros n new (-> & Hq & Hr). apply keeps_ret. rewrite app_nil_r. split; [done|]. by rewrite take_ge in Hr by lia. }
  apply (keeps_fold _ (λ done_ index new, index = length done_ ∧ listings new = [] ∧ relinked owner (take index links) new)); [by split_and!; try constructor|].
  intros done_ name rest index new Hl (-> & Hq & Hr).
  assert (length done_ < length (names chain))%nat as Hlt by (rewrite Hl, length_app; cbn; lia).
  unfold verify_link. destruct (lookup_lt_is_Some_2 (directories chain) (length done_)) as [parent Hfd]; [lia|].
  destruct (lookup_lt_is_Some_2 (identities chain) (S (length done_))) as [expected He]; [lia|]. rewrite Hfd, He.
  rewrite Forall_forall in Ho. rewrite Forall_forall in Hp. assert (plain name) as Hn by (apply Hp; rewrite Hl; set_solver).
  apply keeps_call; [split; [|done]; by apply opened_app, Ho, (list_elem_of_lookup_2 _ (length done_))|].
  intros stat _. apply keeps_check. intros [] Hdir%directory_Ok. apply keeps_unless. intros Hkey%negb_false_iff%bool_decide_eq_true.
  apply keeps_ret. rewrite length_app, listings_app, Hq. split_and!; [cbn; lia|done|].
  destruct (lookup_lt_is_Some_2 links (length done_)) as [[[parent' name'] key] Hlink]; [lia|]. destruct (Hk _ _ _ _ Hlink) as (K1 & K2 & K3).
  assert (names chain !! length done_ = Some name) as Hname by (rewrite Hl; by apply list_lookup_middle).
  assert (parent' = parent) as -> by congruence. assert (name' = name) as -> by congruence. assert (key = expected) as -> by congruence.
  rewrite (take_S_r _ _ _ Hlink). apply Forall_app. split.
  - eapply Forall_impl; [exact Hr|]. intros [[? ?] ?] (st & Hin & Hst). exists st. split; [by apply elem_of_app; left|done].
  - constructor; [|constructor]. exists stat. split; [apply elem_of_app; right; by left|done].
Qed.

(** ** One file *)

(** What was read through [file] in [during] is the file at the path's end: the
    directories on the way were walked from the root, in the last of them [name] was
    one regular file of the owner's with no other name, [file] was opened there as
    that file, and it was the same before and after, as the way to it was. *)
Record acquired (root : nat) (relative : list Z) (expected : option FileSnapshot) (owner maximum_bytes : Z) (file : nat) (stat : Stat)
    (during new : Trace FileCall) : Prop := {
  acquired_events : ∃ before walk after path name parent links opened_ closed final,
    path_components relative = path ++ [name] ∧ Walk root owner path parent links walk ∧
    new = before ++ walk ++
          [event (FstatAt parent name) (Ok stat); event (OpenAt parent name READ_FILE) (Ok file); event (Fstat file) (Ok opened_)] ++
          during ++ [event (Fstat file) (Ok closed); event (FstatAt parent name) (Ok final)] ++ after ∧
    snapshot_of opened_ = snapshot_of stat ∧ snapshot_of closed = snapshot_of stat ∧ snapshot_of final = snapshot_of stat ∧
    relinked owner links after;
  acquired_regular : file_type stat = S_IFREG ∧ st_uid stat = owner ∧ st_nlink stat = 1;
  acquired_size : 0 ≤ st_size stat ≤ maximum_bytes;
  acquired_expected : ∀ s, expected = Some s → s = snapshot_of stat;
}.
Lemma regular_Ok stat owner maximum_bytes : validate_regular_file stat owner maximum_bytes = Ok tt →
  (file_type stat = S_IFREG ∧ st_uid stat = owner ∧ st_nlink stat = 1) ∧ 0 ≤ st_size stat ≤ maximum_bytes.
Proof.
  unfold validate_regular_file. destruct (Z.eqb_spec (file_type stat) S_IFREG); [|done]. cbn [negb].
  destruct (Z.eqb_spec (st_uid stat) owner); [|done]. cbn [negb]. destruct (Z.eqb_spec (st_nlink stat) 1); [|done]. cbn [negb].
  unfold usize_of. destruct (Z.ltb_spec (st_size stat) 0); [done|]. cbn.
  destruct (Z.ltb_spec maximum_bytes (st_size stat)); [done|]. intros _. split; [done|lia].
Qed.
Lemma snapshot_size_eq st st' : snapshot_of st = snapshot_of st' → st_size st = st_size st'.
Proof. intros H. exact (f_equal snapshot_size H). Qed.
Lemma relinked_more owner links new after : relinked owner links new → relinked owner links (new ++ after).
Proof.
  intros Hr. eapply Forall_impl; [exact Hr|]. intros [[? ?] ?] (st & Hin & Hst). exists st. split; [by apply elem_of_app; left|done].
Qed.

Section inspect.
Context {T : Type} (operation : nat → Z → Files T) (P : nat → Z → T → Trace FileCall → Prop).
Context (Hop : ∀ file size tr, opened tr file → 0 ≤ size → keeps (operation file size) (P file size) tr).
Lemma keeps_inspect root relative maximum_bytes owner expected tr : opened tr root → Forall plain (path_components relative) →
  keeps (inspect_relative_file operation root relative maximum_bytes owner expected)
    (λ t new, ∃ file stat during, P file (st_size stat) t during ∧ acquired root relative expected owner maximum_bytes file stat during new) tr.
Proof.
  intros Ho Hp. apply keeps_cancel. set (tr1 := tr ++ _). cbv zeta. destruct (last (path_components relative)) as [name|] eqn:Hlast; [|apply keeps_failed].
  apply last_Some in Hlast as [parents Hc]. pose proof Hc as Hcomponents. rewrite Hc in Hp |- *. apply Forall_app in Hp as [Hparents [Hn _]%list.Forall_cons_1].
  apply keeps_unless. intros _.
  assert (take (length (parents ++ [name]) - 1) (parents ++ [name]) = parents) as ->.
  { rewrite length_app. cbn. rewrite Nat.add_sub. apply take_app_length. }
  eapply keeps_step.
  { apply keeps_open_chain; [by apply opened_app|]. by rewrite components_joined. }
  cbn beta. intros chain new1 (Hchain & Hnames & _ & parent & links & Hw). rewrite components_joined in Hnames by done.
  apply (keeps_chain_last _ _ parent); [apply Hw|]. pose proof (last_opened _ _ _ Hchain (walked_last _ _ _ _ _ _ Hw)) as Hparent.
  apply keeps_call; [by split|]. intros stat _. apply keeps_unless. intros Hexp. apply keeps_check. intros [] Hreg%regular_Ok.
  apply keeps_call. { split; [by apply opened_app|]. split; [set_solver|by left]. }
  intros file _. apply keeps_call; [by apply opened_snoc|]. intros opened_ _. apply keeps_unless. intros Hs1%negb_false_iff%bool_decide_eq_true.
  apply keeps_check. intros size Hsize%ok_or_Ok. unfold usize_of in Hsize. destruct (Z.ltb_spec (st_size opened_) 0); [done|]. injection Hsize as <-.
  assert (∀ l, opened ((((tr1 ++ new1) ++ [event (FstatAt parent name) (Ok stat)]) ++ [event (OpenAt parent name READ_FILE) (Ok file)]) ++ l) file) as Hfile
    by (intros l; by apply opened_app, opened_snoc).
  eapply keeps_step; [apply Hop; [apply Hfile|done]|]. intros t during Ht. rewrite (snapshot_size_eq _ _ Hs1) in Ht.
  apply keeps_call; [rewrite <-app_assoc; apply Hfile|]. intros closed _. apply keeps_unless. intros Hs2%negb_false_iff%bool_decide_eq_true.
  apply keeps_call. { split; [from_before Hparent|done]. }
  intros final _. apply keeps_unless. intros Hs3%negb_false_iff%bool_decide_eq_true.
  eapply keeps_step. { eapply keeps_chain_verify; [from_before Hchain|exact Hw]. }
  cbn beta. intros [] new2 [_ Hlinks]. apply keeps_cancel. apply keeps_ret. exists file, stat, during. split; [done|]. split; [|apply Hreg..|].
  - exists [event IsCancelled false], new1, (new2 ++ [event IsCancelled false]), parents, name, parent, links, opened_, closed, final.
    rewrite <-Hnames at 2. split_and!; [done|apply Hw|done..|by apply relinked_more].
  - intros s ->. by apply negb_false_iff, bool_decide_eq_true in Hexp.
Qed.
End inspect.

(** ** Scans *)

(** What a scan saw of a directory, and the files of the tree below it.  The
    directory at [fd] was listed, and was the same afterwards; every name it listed
    was looked up in it, once, and is a file, which is a candidate of the scan, or a
    directory, which was opened under that name as the directory it was seen to be,
    seen whole in the same way, and then found under its name again. *)
Definition undisturbed (e : Event FileCall) : Prop := e = event IsCancelled false.
Section tree.
Context (owner_ : Z) (root : FileKey).
Definition regular_of (stat : Stat) : Prop := file_type stat = S_IFREG ∧ st_uid stat = owner_ ∧ st_nlink stat = 1.
Inductive Tree (fd : nat) (relative : list Z) : Trace FileCall → list ProviderFileCandidate → Prop :=
| tree_directory before stream entries_ names_ waiting events found after :
    directory_of owner_ before → names_ ≡ₚ entry_names entries_ → Forall undisturbed waiting →
    Branches fd relative names_ events found → snapshot_of after = snapshot_of before →
    Tree fd relative
      ([event IsCancelled false; event (Fstat fd) (Ok before); event (OpenAt fd DOT LIST_DIRECTORY) (Ok stream);
        event (DirEntries stream) (Ok entries_)] ++ waiting ++ events ++ [event (Fstat fd) (Ok after)]) found
with Branches (fd : nat) (relative : list Z) : list (list Z) → Trace FileCall → list ProviderFileCandidate → Prop :=
| branches_none : Branches fd relative [] [] []
| branches_more names_ name events events' found found' :
    Branches fd relative names_ events found → Branch fd relative name events' found' →
    Branches fd relative (names_ ++ [name]) (events ++ events') (found ++ found')
with Branch (fd : nat) (relative : list Z) : list Z → Trace FileCall → list ProviderFileCandidate → Prop :=
| branch_file name stat : regular_of stat →
    Branch fd relative name [event IsCancelled false; event (FstatAt fd name) (Ok stat)]
      [mk_candidate (push_path relative name) (st_size stat) (snapshot_of stat) root]
| branch_directory name stat child opened_ events found linked :
    file_type stat = S_IFDIR → st_uid stat = owner_ → snapshot_of opened_ = snapshot_of stat →
    Tree child (push_path relative name) events found → key_of linked = key_of stat →
    Branch fd relative name
      ([event IsCancelled false; event (FstatAt fd name) (Ok stat); event (OpenAt fd name PATH_DIRECTORY) (Ok child);
        event (Fstat child) (Ok opened_)] ++ events ++ [event (FstatAt fd name) (Ok linked)]) found.
End tree.

Definition total_size (l : list ProviderFileCandidate) : Z := foldr (λ c n, size c + n) 0 l.
Lemma total_size_app l k : total_size (l ++ k) = total_size l + total_size k.
Proof. unfold total_size. induction l as [|c l IH]; cbn in *; [done|lia]. Qed.
#[global] Instance total_size_perm : Proper ((≡ₚ) ==> (=)) total_size.
Proof. intros l k H. unfold total_size. induction H; cbn in *; lia. Qed.
Record candidate_ok (owner_ : Z) (root : FileKey) (l : ProviderFileScanLimits) (levels : Z) (new : Trace FileCall) (c : ProviderFileCandidate) : Prop := {
  candidate_path : Forall plain (path_components (relative_path c)) ∧ count (relative_path c) ≤ MAX_PATH_BYTES;
  candidate_depth : count (path_components (relative_path c)) ≤ levels + 1;
  candidate_size : 0 ≤ size c ≤ file_bytes l;
  candidate_key : candidate_root c = root;
  candidate_file : ∃ parent name stat, event (FstatAt parent name) (Ok stat) ∈ new ∧ last (path_components (relative_path c)) = Some name ∧
    snapshot c = snapshot_of stat ∧ st_size stat = size c ∧ file_type stat = S_IFREG ∧ st_uid stat = owner_ ∧ st_nlink stat = 1;
}.
Lemma candidate_ok_more owner_ root l levels new new' c : (∀ e, e ∈ new → e ∈ new') →
  candidate_ok owner_ root l levels new c → candidate_ok owner_ root l levels new' c.
Proof. intros Hn [H1 H2 H3 H4 (parent & name & stat & He & H5)]. split; try done. exists parent, name, stat. split; [by apply Hn|done]. Qed.
Lemma candidates_more owner_ root l levels before new after found : Forall (candidate_ok owner_ root l levels new) found →
  Forall (candidate_ok owner_ root l levels (before ++ new ++ after)) found.
Proof. intros H. eapply Forall_impl; [exact H|]. intros c. apply candidate_ok_more. intros e He. rewrite !elem_of_app. auto. Qed.
Definition within (b : ScanBudget) : Prop :=
  seen_entries b ≤ entries (limits b) ∧ seen_files b ≤ files (limits b) ∧ seen_bytes b ≤ total_bytes (limits b).
(** A scan has gone on from one state to another, and found this. *)
Record grew (owner_ : Z) (root : FileKey) (levels : Z) (s s' : Scanned) (found : list ProviderFileCandidate) (new : Trace FileCall) : Prop := {
  grew_found : s'.2 = s.2 ++ found ∧ Forall (candidate_ok owner_ root (limits s.1) levels new) found;
  grew_limits : limits s'.1 = limits s.1;
  grew_files : seen_files s'.1 = seen_files s.1 + count found;
  grew_bytes : seen_bytes s'.1 = seen_bytes s.1 + total_size found;
  grew_entries : seen_entries s'.1 = seen_entries s.1 + count (concat (listings new));
  grew_within : within s.1 → within s'.1;
}.
Lemma grew_refl owner_ root levels s : grew owner_ root levels s s [] [].
Proof. split; cbn; try done; [by rewrite app_nil_r|unfold count; cbn; lia..]. Qed.
Lemma grew_trans owner_ root levels s1 s2 s3 f1 f2 n1 n2 : grew owner_ root levels s1 s2 f1 n1 → grew owner_ root levels s2 s3 f2 n2 →
  grew owner_ root levels s1 s3 (f1 ++ f2) (n1 ++ n2).
Proof.
  intros [[H1 H1'] L1 F1 B1 E1 W1] [[H2 H2'] L2 F2 B2 E2 W2]. split.
  - rewrite H2, H1, <-app_assoc. split; [done|]. rewrite L1 in H2'. apply Forall_app. split.
    + apply (candidates_more _ _ _ _ [] n1 n2), H1'.
    + rewrite <-(app_nil_r n2). apply (candidates_more _ _ _ _ n1 n2 []), H2'.
  - congruence.
  - rewrite F2, F1. unfold count. rewrite length_app. lia.
  - rewrite B2, B1, total_size_app. lia.
  - rewrite E2, E1, listings_app, concat_app. unfold count. rewrite length_app. lia.
  - auto.
Qed.
(** Events that list nothing count for nothing. *)
Lemma grew_quiet owner_ root levels s s' found before new after : listings before = [] → listings after = [] →
  grew owner_ root levels s s' found new → grew owner_ root levels s s' found (before ++ new ++ after).
Proof.
  intros Hb Ha [[H1 H2] H3 H4 H5 H6 H7]. split; try done.
  - split; [done|]. by apply candidates_more.
  - by rewrite !listings_app, Hb, Ha, app_nil_r.
Qed.

Lemma observe_entry_Ok b b' : observe_entry b = Ok b' →
  limits b' = limits b ∧ seen_files b' = seen_files b ∧ seen_bytes b' = seen_bytes b ∧ seen_entries b' = seen_entries b + 1 ∧
  (within b → within b').
Proof.
  unfold observe_entry. intros (n & Hn%ok_or_Ok%checked_add_Some & Hb)%bind_Ok. case_match eqn:Hl; [done|]. injection Hb as <-. cbn.
  destruct Hn as [-> _]. split_and!; try done. intros (_ & H2 & H3). apply Z.ltb_ge in Hl. by split_and!.
Qed.
Lemma observe_file_Ok size_ b b' : observe_file size_ b = Ok b' →
  limits b' = limits b ∧ seen_files b' = seen_files b + 1 ∧ seen_bytes b' = seen_bytes b + size_ ∧ seen_entries b' = seen_entries b ∧
  (within b → within b').
Proof.
  unfold observe_file. case_match; [done|]. intros (n & Hn%ok_or_Ok%checked_add_Some & Hb)%bind_Ok. case_match eqn:Hf; [done|].
  apply bind_Ok in Hb as (m & Hm%ok_or_Ok%checked_add_Some & Hb). case_match eqn:Ht; [done|]. injection Hb as <-. cbn.
  destruct Hn as [-> _], Hm as [-> _]. split_and!; try done. intros (H1 & _ & _). apply Z.ltb_ge in Hf, Ht. by split_and!.
Qed.

(** Listing a directory: the names, without the dots, all of them. *)
Record listed (b b' : ScanBudget) (l : list (Result OsError (list Z))) (names_ : list (list Z)) (new : Trace FileCall) : Prop := {
  listed_limits : limits b' = limits b;
  listed_seen : seen_files b' = seen_files b ∧ seen_bytes b' = seen_bytes b ∧ seen_entries b' = seen_entries b + count names_;
  listed_within : within b → within b';
  listed_plain : Forall plain names_;
  listed_all : names_ = entry_names l;
  listed_quiet : Forall undisturbed new;
}.
Lemma undisturbed_lists_nothing new : Forall undisturbed new → listings new = [].
Proof. induction 1 as [|e new -> _ IH]; [done|exact IH]. Qed.
Lemma keeps_list_entries b l tr : Forall (λ entry : Result OsError (list Z), match entry with Ok name => 47 ∉ name | Err _ => True end) l →
  keeps (fold_each list_entry (b, []) l) (λ s new, listed b s.1 l s.2 new) tr.
Proof.
  intros Hl. apply (keeps_fold _ (λ done_ s new, listed b s.1 done_ s.2 new)).
  { split; try done. cbn. split_and!; [done..|unfold count; cbn; lia]. }
  intros done_ entry rest [b1 names1] new El [H1 (H2 & H3 & H4) H5 H6 H7 H8]. cbn [fst snd] in *. unfold list_entry. apply keeps_cancel.
  apply keeps_check. intros name Hname%map_err_Ok. rewrite El in Hl. apply Forall_app in Hl as [_ [Hn _]%list.Forall_cons_1].
  assert (entry_names (done_ ++ [entry]) = names1 ++ (if bool_decide (name = DOT) || bool_decide (name = DOTS) then [] else [name])) as Hnames.
  { unfold entry_names. rewrite bind_app. rewrite H7. f_equal. cbn. rewrite Hname, app_nil_r. done. }
  rewrite Hname in Hn. destruct (bool_decide (name = DOT) || bool_decide (name = DOTS)) eqn:Hdots.
  - apply keeps_ret. split; cbn [fst snd]; try done; [by rewrite Hnames, app_nil_r|]. apply Forall_app. by split; [|constructor].
  - apply orb_false_iff in Hdots as [Hd%bool_decide_eq_false Hds%bool_decide_eq_false].
    apply keeps_check. intros b2 (B1 & B2 & B3 & B4 & B5)%observe_entry_Ok. cbn [fst snd] in *. apply keeps_unless. intros [He Hlen%Z.ltb_ge]%orb_false_iff.
    apply keeps_ret. split; cbn [fst snd]; [congruence| |auto| |done|by apply Forall_app; split; [|constructor]].
    + split_and!; [congruence..|]. rewrite B4, H4. unfold count. rewrite length_app. cbn. lia.
    + apply Forall_app. split; [done|]. constructor; [|constructor]. split_and!; try done. by destruct name.
Qed.

Section scan.
Context (owner_ : Z) (root : FileKey) (l : ProviderFileScanLimits) (levels : Z).
(** The scan of one directory went on to [s'], and found the files of its tree. *)
Definition scanned (fd : nat) (relative : list Z) (s s' : Scanned) (new : Trace FileCall) : Prop :=
  ∃ found, grew owner_ root levels s s' found new ∧ Tree owner_ root fd relative new found.
(** So deep below the root of the scan. *)
Definition at_depth (relative : list Z) (depth_here : Z) : Prop :=
  Forall plain (path_components relative) ∧ count (path_components relative) + (depth l - depth_here) ≤ levels ∧ depth_here ≤ depth l.
Definition scans (depth_here : Z) (scan_child : nat → list Z → Scanned → Files Scanned) : Prop :=
  ∀ child path s tr, opened tr child → at_depth path depth_here → limits s.1 = l →
    keeps (scan_child child path s) (λ s' new, scanned child path s s' new) tr.
Lemma at_depth_push relative depth_here name : at_depth relative depth_here → plain name → depth_here < depth l →
  at_depth (push_path relative name) (depth_here + 1).
Proof.
  intros (Hp & Hl & Hd) Hn Hlt. unfold at_depth. rewrite components_push by done. split_and!; [|unfold count in *; rewrite length_app; cbn; lia|lia].
  apply Forall_app. by split; [|constructor].
Qed.
Lemma candidate_found relative depth_here name s b parent stat : at_depth relative depth_here → plain name → limits s.1 = l →
  count (push_path relative name) ≤ MAX_PATH_BYTES → validate_regular_file stat owner_ (file_bytes (limits s.1)) = Ok tt →
  observe_file (st_size stat) s.1 = Ok b →
  let c := mk_candidate (push_path relative name) (st_size stat) (snapshot_of stat) root in
  grew owner_ root levels s (b, s.2 ++ [c]) [c] [event IsCancelled false; event (FstatAt parent name) (Ok stat)].
Proof.
  intros (Hp & Hl & Hd) Hn Hs Hc Hr%regular_Ok (H1 & H2 & H3 & H4 & H5)%observe_file_Ok. cbv zeta.
  split; cbn [fst snd]; try done; [|by cbn; lia|rewrite H4; unfold count; cbn; lia].
  split; [done|]. constructor; [|constructor]. destruct Hr as [(R1 & R2 & R3) R4].
  split; cbn [relative_path size snapshot candidate_root]; try done.
  - split; [|done]. rewrite components_push by done. apply Forall_app. by split; [|constructor].
  - rewrite components_push by done. unfold count in *. rewrite length_app. cbn. lia.
  - exists parent, name, stat. split; [right; by left|]. rewrite components_push, last_snoc by done. done.
Qed.
Lemma keeps_scan_name scan_child directory_ relative depth_here s name tr : scans (depth_here + 1) scan_child →
  opened tr directory_ → plain name → at_depth relative depth_here → limits s.1 = l →
  keeps (scan_name scan_child directory_ relative depth_here root owner_ s name)
    (λ s' new, ∃ found, grew owner_ root levels s s' found new ∧ Branch owner_ root directory_ relative name new found) tr.
Proof.
  intros Hchild Ho Hn Hd Hs. apply keeps_cancel. apply keeps_call; [split; [by apply opened_app|done]|]. intros stat _.
  apply keeps_unless. intros Howner%negb_false_iff%Z.eqb_eq. cbv zeta. apply keeps_unless. intros Hlen%Z.ltb_ge.
  destruct (file_type stat =? S_IFREG).
  { apply keeps_check. intros [] Hr. apply keeps_check. intros size_ Hsize%ok_or_Ok. unfold usize_of in Hsize. case_match; [done|]. injection Hsize as <-.
    apply keeps_check. intros b Hb. apply keeps_ret. eexists [_]. split; [by eapply candidate_found|]. apply branch_file. by apply regular_Ok in Hr as [? _]. }
  destruct (Z.eqb_spec (file_type stat) S_IFDIR) as [Hdir|]; [|apply keeps_failed]. apply keeps_unless. intros Hlt%Z.leb_gt. rewrite Hs in Hlt.
  apply keeps_call. { split; [from_before Ho|]. split; [set_solver|by left]. }
  intros child _. apply keeps_call; [by apply opened_snoc|]. intros opened_ _. apply keeps_unless. intros Hsame%negb_false_iff%bool_decide_eq_true.
  eapply keeps_step. { apply Hchild; [by apply opened_app, opened_snoc|by apply at_depth_push|done]. }
  cbn beta. intros s' new (found & Hg & Ht). apply keeps_call; [split; [from_before Ho|done]|]. intros linked _.
  apply keeps_unless. intros Hkey%negb_false_iff%bool_decide_eq_true. apply keeps_ret. exists found. split.
  - by apply (grew_quiet _ _ _ _ _ _ [_; _; _; _] new [_]).
  - apply (branch_directory _ _ _ _ name stat child opened_ new found linked); try done. rewrite Hkey. exact (f_equal snapshot_key Hsame).
Qed.
Lemma directory_scanned s b s' entries_ names_ new1 new2 found directory_ stream before after :
  listed s.1 b entries_ names_ new1 → grew owner_ root levels (b, s.2) s' found new2 →
  grew owner_ root levels s s' found
    ([event IsCancelled false; event (Fstat directory_) (Ok before); event (OpenAt directory_ DOT LIST_DIRECTORY) (Ok stream);
      event (DirEntries stream) (Ok entries_)] ++ new1 ++ new2 ++ [event (Fstat directory_) (Ok after)]).
Proof.
  intros [L1 (L2 & L3 & L4) L5 L6 L7 L8%undisturbed_lists_nothing] [[G1 G1'] G2 G3 G4 G5 G6]. set (new := _ ++ _).
  assert (listings new = names_ :: listings new2) as Hnew.
  { subst new. rewrite !listings_app, L8, app_nil_r. cbn. by rewrite <-L7. }
  cbn [fst snd] in *. split; [split; [done|]|congruence..| |auto].
  - rewrite <-L1. apply (candidates_more _ _ _ _ ([_; _; _; _] ++ new1) new2 [_]), G1'.
  - rewrite G5, L4, Hnew. cbn [concat]. unfold count. rewrite length_app. lia.
Qed.
Lemma scans_directory n depth_here : (depth_here ≤ depth l → (Z.to_nat (depth l - depth_here) < n)%nat) → scans depth_here
  (λ directory_ relative s, scan_directory n directory_ relative depth_here root owner_ s).
Proof.
  revert depth_here. induction n as [|n IH]; intros depth_here Hn directory_ relative s tr Ho Hd Hs; [destruct Hd as (_ & _ & Hle); specialize (Hn Hle); lia|].
  cbn [scan_directory].
  apply keeps_cancel. apply keeps_call; [by apply opened_app|]. intros before _. apply keeps_check. intros [] Hbefore%directory_Ok.
  apply keeps_call. { split; [from_before Ho|]. split; [set_solver|right; split; [done|set_solver]]. }
  intros stream _. apply keeps_call; [by apply opened_snoc|]. intros entries_ Hentries.
  eapply keeps_step; [by apply keeps_list_entries|]. intros [b names_] new1 Hlisted. pose proof Hlisted as [L1 _ _ L6 L7 L8]. cbn [fst snd] in *.
  eapply keeps_step.
  { apply (keeps_fold _ (λ done_ s' new, ∃ found, grew owner_ root levels (b, s.2) s' found new ∧ Branches owner_ root directory_ relative done_ new found)).
    { exists []. split; [apply grew_refl|constructor]. }
    intros done_ name rest s' new Hl (found & Hg & Hb). eapply keeps_mono.
    - apply keeps_scan_name.
      + apply IH. intros Hle. destruct Hd as (_ & _ & Hle'). specialize (Hn Hle'). lia.
      + from_before Ho.
      + assert (name ∈ sort_by_key id names_) as Hin by (rewrite Hl; set_solver). rewrite sort_by_key_perm in Hin.
        rewrite Forall_forall in L6. by apply L6.
      + done.
      + rewrite (grew_limits _ _ _ _ _ _ _ Hg). cbn. congruence.
    - cbn beta. intros s'' later (found' & Hg' & Hb'). exists (found ++ found'). split; [by eapply grew_trans|by apply branches_more]. }
  cbn beta. intros s' new2 (found & Hg & Hb). apply keeps_call; [from_before Ho|]. intros after _.
  apply keeps_unless. intros Hafter%negb_false_iff%bool_decide_eq_true. apply keeps_ret.
  exists found. split; [by eapply (directory_scanned s b)|].
  apply (tree_directory _ _ directory_ relative before stream entries_ (sort_by_key id names_) new1 new2 found after); try done.
  by rewrite sort_by_key_perm, L7.
Qed.
End scan.

(** ** The operations of a root *)

(** The root's descriptor is still the directory that was opened. *)
Definition identified (root : ProviderFileRoot) (new : Trace FileCall) : Prop :=
  ∃ stat, event (Fstat (directory root)) (Ok stat) ∈ new ∧ key_of stat = identity root ∧ directory_of (owner root) stat.
Lemma identified_more root before new after : identified root new → identified root (before ++ new ++ after).
Proof. intros (stat & Hin & Hs). exists stat. split; [rewrite !elem_of_app; auto|done]. Qed.
Lemma keeps_ensure_root_identity root tr : opened tr (directory root) →
  keeps (ensure_root_identity root) (λ _ new, identified root new ∧ listings new = []) tr.
Proof.
  intros Ho. apply keeps_ask; [done|]. intros uid. apply keeps_unless. intros _. apply keeps_call; [by apply opened_app|]. intros stat _.
  apply keeps_check. intros [] Hdir%directory_Ok. apply keeps_unless. intros Hk%negb_false_iff%bool_decide_eq_true. apply keeps_ret. split; [|done].
  exists stat. split; [right; by left|done].
Qed.
Lemma opened_by tr new e fd : e ∈ new → fd ∈ opens e → opened (tr ++ new) fd.
Proof. intros He Hfd. unfold opened. rewrite bind_app, elem_of_app. right. rewrite list_elem_of_bind. eauto. Qed.
Lemma keeps_open_absolute path owner_ tr : keeps (open_absolute_directory path owner_) (λ fd new, opened (tr ++ new) fd) tr.
Proof.
  apply keeps_unless. intros _. cbv zeta. apply keeps_unless. intros Hn%short_components. apply keeps_unless. intros _.
  apply keeps_call; [split; [done|set_solver]|]. intros start _. eapply keeps_step.
  { apply (keeps_fold _ (λ _ fd new, opened ((tr ++ [event (Open (lit "/") PATH_DIRECTORY) (Ok start)]) ++ new) fd)).
    - rewrite app_nil_r. by apply opened_snoc.
    - intros done_ name rest fd new Hl Hfd. rewrite Hl in Hn. apply Forall_app in Hn as [_ [Hn _]%list.Forall_cons_1].
      apply keeps_last_call. { split; [done|]. split; [set_solver|by left]. }
      intros fd' _. rewrite app_assoc. by apply opened_snoc. }
  cbn beta. intros fd new Hfd. apply keeps_call; [done|]. intros stat _. apply keeps_check. intros _ _.
  apply keeps_last_call. { split; [by apply opened_app|]. split; [set_solver|right; split; [done|set_solver]]. }
  intros fd' _. apply (opened_by _ _ (event (OpenAt fd DOT LIST_DIRECTORY) (Ok fd'))); [|by left]. right. apply elem_of_app. right. right. by left.
Qed.
Lemma keeps_root_open path tr : keeps (root_open path) (λ root new, opened (tr ++ new) (directory root)) tr.
Proof.
  apply keeps_ask; [done|]. intros uid. eapply keeps_step; [apply keeps_open_absolute|]. cbn beta. intros fd new Hfd.
  apply keeps_call; [done|]. intros stat _. apply keeps_check. intros _ _. apply keeps_ret. cbn [directory].
  change (event GetEuid uid :: new ++ ?e) with ([event GetEuid uid] ++ new ++ e). rewrite !app_assoc. by apply opened_app.
Qed.

Definition path_ok (path : list Z) : Prop := Forall plain (path_components path).
(** The contents of one file: all that was read through its descriptor. *)
Definition one_file (root : nat) (relative : list Z) (expected : option FileSnapshot) (owner_ maximum_bytes : Z) (contents : list Z)
    (new : Trace FileCall) : Prop :=
  ∃ file stat during, contents = data file during ∧ count contents = st_size stat ∧
    acquired root relative expected owner_ maximum_bytes file stat during new.
Lemma one_file_later root relative expected owner_ maximum_bytes contents new before :
  one_file root relative expected owner_ maximum_bytes contents new → one_file root relative expected owner_ maximum_bytes contents (before ++ new).
Proof.
  intros (file & stat & during & H1 & H2 & [(b & w & a & path & name & parent & links & o & c & f & Hc & Hw & -> & H) H3 H4 H5]).
  exists file, stat, during. split; [done|]. split; [done|]. split; try done.
  exists (before ++ b), w, a, path, name, parent, links, o, c, f. split; [done|]. split; [done|]. by rewrite <-app_assoc.
Qed.
Lemma keeps_read_relative root relative maximum_bytes owner_ expected tr : opened tr root → path_ok relative →
  keeps (read_relative_file root relative maximum_bytes owner_ expected)
    (λ bytes new, one_file root relative expected owner_ maximum_bytes bytes new) tr.
Proof.
  intros Ho Hp. eapply keeps_mono.
  - apply (keeps_inspect _ (λ file size_ bytes new, bytes = data file new ∧ count bytes = size_)); [|done..]. intros file size_ tr' Hf H0.
    eapply keeps_mono; [by apply keeps_read_bounded|]. cbn beta. intros bytes new (H1 & H2 & _). done.
  - cbn beta. intros bytes new (file & stat & during & (H1 & H2) & H3). by exists file, stat, during.
Qed.
Lemma keeps_root_read root relative maximum_bytes tr : opened tr (directory root) →
  keeps (root_read root relative maximum_bytes) (λ bytes new, one_file (directory root) relative None (owner root) maximum_bytes bytes new) tr.
Proof.
  intros Ho. apply keeps_cancel. apply keeps_check. intros _ _. apply keeps_check. intros [] Hp%validated_components.
  eapply keeps_step; [apply keeps_ensure_root_identity; by apply opened_app|]. cbn beta. intros _ new _. eapply keeps_mono.
  - apply keeps_read_relative; [from_before Ho|done].
  - cbn beta. intros bytes later Hf. by apply (one_file_later _ _ _ _ _ _ _ (_ :: new)).
Qed.
(** What is read of a candidate: the file the scan found, below the same root. *)
Definition candidate_read (root : ProviderFileRoot) (c : ProviderFileCandidate) (bytes : list Z) (new : Trace FileCall) : Prop :=
  candidate_root c = identity root ∧ identified root new ∧
  one_file (directory root) (relative_path c) (Some (snapshot c)) (owner root) (size c) bytes new.
Lemma candidate_read_from root c bytes e new later : candidate_root c = identity root → identified root new →
  one_file (directory root) (relative_path c) (Some (snapshot c)) (owner root) (size c) bytes later → candidate_read root c bytes (e :: new ++ later).
Proof.
  intros Hc Hi Hf. split; [done|]. split; [by apply (identified_more root [e])|]. by apply (one_file_later _ _ _ _ _ _ _ (e :: new)).
Qed.
Lemma keeps_read_candidate root c tr : opened tr (directory root) → path_ok (relative_path c) →
  keeps (read_candidate root c) (λ bytes new, candidate_read root c bytes new) tr.
Proof.
  intros Ho Hp. apply keeps_cancel. eapply keeps_step; [apply keeps_ensure_root_identity; by apply opened_app|]. cbn beta. intros _ new [Hi _].
  apply keeps_unless. intros Hr%negb_false_iff%bool_decide_eq_true. eapply keeps_mono.
  - apply keeps_read_relative; [from_before Ho|done].
  - cbn beta. intros bytes later Hf. by apply candidate_read_from.
Qed.
Lemma keeps_visit_candidate root c maximum tr : opened tr (directory root) → path_ok (relative_path c) → 0 ≤ maximum →
  keeps (visit_candidate_lines root c maximum) (λ ls new, ∃ contents, ls = lines_of maximum contents ∧ candidate_read root c contents new) tr.
Proof.
  intros Ho Hp Hmax. apply keeps_cancel. apply keeps_unless. intros _. eapply keeps_step; [apply keeps_ensure_root_identity; by apply opened_app|]. cbn beta.
  intros _ new [Hi _]. apply keeps_unless. intros Hr%negb_false_iff%bool_decide_eq_true. eapply keeps_mono.
  - apply (keeps_inspect _ (λ file size_ ls during, ls = lines_of maximum (data file during) ∧ count (data file during) = size_)); [|from_before Ho|done].
    intros file size_ tr' Hf H0. by apply keeps_visit_bounded.
  - cbn beta. intros ls later (file & stat & during & (H1 & H2) & H3). exists (data file during). split; [done|].
    apply candidate_read_from; [done..|]. by exists file, stat, during.
Qed.

Record complete_scan (root : ProviderFileRoot) (relative : list Z) (l : ProviderFileScanLimits) (found : list ProviderFileCandidate) (new : Trace FileCall) : Prop := {
  scan_sorted : StronglySorted (λ c c', le_by (cmp_on relative_path) c c' = true) found;
  scan_tree : ∃ before walk fd links tree tree_files after,
    new = before ++ walk ++ tree ++ after ∧ identified root before ∧
    Walk (directory root) (owner root) (path_components relative) fd links walk ∧
    Tree (owner root) (identity root) fd relative tree tree_files ∧ found ≡ₚ tree_files ∧ relinked (owner root) links after;
  scan_files : Forall (candidate_ok (owner root) (identity root) l (count (path_components relative) + depth l) new) found;
  scan_within : count (concat (listings new)) ≤ entries l ∧ count found ≤ files l ∧ total_size found ≤ total_bytes l;
}.
Lemma limits_new_Ok d e f b t l : 0 ≤ d → 0 ≤ e → 0 ≤ f → 0 ≤ b → 0 ≤ t → limits_new d e f b t = Ok l →
  l = mk_limits d e f b t ∧ 0 ≤ d ≤ MAX_PROVIDER_SCAN_DEPTH ∧ 0 < e ≤ MAX_PROVIDER_SCAN_ENTRIES ∧ 0 < f ≤ MAX_PROVIDER_SCAN_FILES ∧
  0 < b ≤ MAX_PROVIDER_FILE_BYTES ∧ 0 < t ≤ MAX_PROVIDER_SCAN_BYTES ∧ b ≤ t.
Proof.
  intros. unfold limits_new in *. case_match eqn:Hg; [done|]. rewrite !orb_false_iff, !Z.ltb_ge, !Z.eqb_neq in Hg. intuition (try congruence; lia).
Qed.
Lemma keeps_root_scan root relative l tr : opened tr (directory root) → 0 ≤ depth l → 0 ≤ entries l → 0 ≤ files l → 0 ≤ total_bytes l →
  keeps (root_scan root relative l) (λ found new, complete_scan root relative l found new) tr.
Proof.
  intros Ho Hd He Hf Ht. apply keeps_cancel. eapply keeps_step; [apply keeps_ensure_root_identity; by apply opened_app|]. cbn beta. intros _ new1 [Hi Q1].
  apply keeps_check. intros [] Hp%validated_components. eapply keeps_step; [by apply keeps_open_chain; [from_before Ho|]|]. cbn beta.
  intros chain new2 (Hc & Hnames & Q2 & fd & links & Hw). pose proof (walked_last _ _ _ _ _ _ Hw) as Hlast.
  apply (keeps_chain_last _ _ fd); [done|]. pose proof (last_opened _ _ _ Hc Hlast) as Hfd. eapply keeps_step.
  { apply (scans_directory (owner root) (identity root) l (count (path_components relative) + depth l)); [unfold scan_levels; lia|done| |done].
    split; [done|]. split; lia. }
  cbn beta. intros s new3 (found & [[G1 G2] G3 G4 G5 G6 G7] & T). cbn [fst snd] in *. eapply keeps_step.
  { eapply keeps_chain_verify; [from_before Hc|exact Hw]. }
  cbn beta. intros [] new4 [Q4 Hlinks]. cbv zeta. apply keeps_cancel. apply keeps_ret. rewrite G1, app_nil_l.
  set (new := event IsCancelled false :: _).
  assert (new = (event IsCancelled false :: new1) ++ new2 ++ new3 ++ new4 ++ [event IsCancelled false]) as Hnew by (by rewrite <-app_comm_cons).
  assert (listings new = listings new3) as Hlist.
  { rewrite Hnew. change (event IsCancelled false :: new1) with ([event IsCancelled false] ++ new1). by rewrite !listings_app, Q1, Q2, Q4, !app_nil_r. }
  split.
  - apply sort_by_key_sorted.
  - exists (event IsCancelled false :: new1), new2, fd, links, new3, found, (new4 ++ [event IsCancelled false]). split; [done|].
    split. { rewrite <-(app_nil_r new1). by apply (identified_more root [event IsCancelled false]). }
    rewrite <-Hnames. split_and!; [apply Hw|done|apply sort_by_key_perm|by apply relinked_more].
  - rewrite sort_by_key_perm. rewrite Hnew.
    apply (candidates_more _ _ _ _ ((event IsCancelled false :: new1) ++ new2) new3 (new4 ++ [event IsCancelled false])) in G2.
    by rewrite <-!app_assoc in G2.
  - pose proof (total_size_perm _ _ (sort_by_key_perm relative_path found)) as Hsize.
    pose proof (sort_by_key_length relative_path found) as Hlen.
    destruct G7 as (W1 & W2 & W3); [done|]. rewrite Hlist. rewrite G3 in *. unfold count in *. rewrite Hlen. cbn [budget_new limits seen_files seen_bytes seen_entries] in *. lia.
Qed.
