(* ===== verification/ProviderFilesSpec.v ===== *)
(** * Reading the files other programs own: what is promised

    Whatever the system answers: nothing outside the selected directory is touched,
    no operation panics or runs on; a scan is the whole tree it saw, within its
    limits; and what is read of a candidate is the file the scan found. *)
From stdpp Require Import prelude sorting.
From S2P Require Import Prelude Ordering Text Externals Config Program ProviderFiles ProviderFilesFacts.
Local Open Scope Z_scope.

(** What a holder of a root may do with it.  The sizes are the code's [usize]s; a
    candidate is one a scan returned. *)
Inductive Operation :=
| OpRead (relative : list Z) (maximum_bytes : Z)
| OpScan (relative : list Z) (l : ProviderFileScanLimits)
| OpReadCandidate (c : ProviderFileCandidate)
| OpVisitLines (c : ProviderFileCandidate) (maximum_line_bytes : Z).
Definition perform (root : ProviderFileRoot) (op : Operation) : Fallibly FileCall Failure unit :=
  match op with
  | OpRead relative maximum_bytes => _ ← root_read root relative maximum_bytes; mret tt
  | OpScan relative l => _ ← root_scan root relative l; mret tt
  | OpReadCandidate c => _ ← read_candidate root c; mret tt
  | OpVisitLines c maximum_line_bytes => _ ← visit_candidate_lines root c maximum_line_bytes; mret tt
  end.
Definition operation_ok (op : Operation) : Prop :=
  match op with
  | OpRead _ _ => True
  | OpScan _ l => 0 ≤ depth l ∧ 0 ≤ entries l ∧ 0 ≤ files l ∧ 0 ≤ total_bytes l
  | OpReadCandidate c => path_ok (relative_path c)
  | OpVisitLines c maximum_line_bytes => path_ok (relative_path c) ∧ 0 ≤ maximum_line_bytes
  end.
Definition settled {A} (r : Result Failure A) : Prop := r ≠ Err Panic ∧ r ≠ Err OutOfFuel.

Lemma keeps_perform root op tr : opened tr (directory root) → operation_ok op → keeps (perform root op) (λ _ _, True) tr.
Proof.
  intros Ho Hop. destruct op as [relative m|relative l|c|c m]; cbn [perform operation_ok] in *; destruct_and?;
    (eapply keeps_step; [|intros; by apply keeps_ret]).
  - by apply keeps_root_read.
  - by apply keeps_root_scan.
  - by apply keeps_read_candidate.
  - by apply keeps_visit_candidate.
Qed.
Lemma keeps_runs {A} (m : Fallibly FileCall Failure A) P tr r tr' : keeps m P tr → runs documented m tr (Ok r) tr' →
  ∃ new, tr' = tr ++ new ∧ P r new.
Proof. intros Hm Hr. exact (calls_runs _ _ _ _ _ _ _ Hm Hr). Qed.

(** C21. Opening a root, and then any operation with it in any order, asks the
    system only what is confined: every open refuses links; below the root every
    path is a descriptor of the program's own and one plain name; and whatever the
    answers, each ends with a result or a stated failure, never a panic or an
    endless loop. *)
Theorem provider_files_confined path :
  wp documented confined (root_open path) (λ r tr, settled r ∧ ∀ root, r = Ok root →
    ∀ later op, operation_ok op → wp documented confined (perform root op) (λ r _, settled r) (tr ++ later)) [].
Proof.
  eapply calls_mono; [apply keeps_root_open|]. cbn beta. intros r tr (new & -> & H). destruct r as [root|[| |]]; [|by split..].
  split; [done|]. intros root' [= <-] later op Hop. eapply calls_mono; [by apply keeps_perform; [apply opened_app|]|].
  cbn beta. intros r tr (new' & -> & H'). by destruct r as [|[| |]].
Qed.

(** C34. A scan that succeeds walked from the root's directory down the path, each
    directory opened below the one before it, and from there saw the whole tree:
    every directory was listed once and unchanged afterwards, and every name it
    listed is a file or a directory that was seen in its turn under that name.  It
    returned the tree's files and nothing else, in the order of the paths: each a
    regular file of the owner's with one name, with the path it was found under and
    the size and snapshot it was found with, no deeper than allowed.  There are no more
    entries, files and bytes than the limits, which the hard ceilings bound, and the
    way to the scanned directory was the same at the end. *)
Theorem provider_scan_complete root relative d e f b t l tr found tr' :
  opened tr (directory root) → 0 ≤ d → 0 ≤ e → 0 ≤ f → 0 ≤ b → 0 ≤ t → limits_new d e f b t = Ok l →
  runs documented (root_scan root relative l) tr (Ok found) tr' →
  ∃ new, tr' = tr ++ new ∧ complete_scan root relative l found new ∧
    count found ≤ MAX_PROVIDER_SCAN_FILES ∧ total_size found ≤ MAX_PROVIDER_SCAN_BYTES ∧
    count (concat (listings new)) ≤ MAX_PROVIDER_SCAN_ENTRIES ∧
    Forall (λ c, size c ≤ MAX_PROVIDER_FILE_BYTES ∧ count (path_components (relative_path c)) ≤ count (path_components relative) + MAX_PROVIDER_SCAN_DEPTH + 1) found.
Proof.
  intros Ho Hd He Hf Hb Ht Hl Hr. apply limits_new_Ok in Hl as (-> & H1 & H2 & H3 & H4 & H5 & H6); [|done..].
  destruct (keeps_runs _ _ _ _ _ (keeps_root_scan root relative (mk_limits d e f b t) tr Ho Hd He Hf Ht) Hr) as (new & -> & Hs).
  exists new. split; [done|]. split; [done|]. destruct Hs as [_ _ Hc (W1 & W2 & W3)]. cbn [depth entries files file_bytes total_bytes] in *.
  split_and!; [lia..|]. eapply Forall_impl; [exact Hc|]. intros c [_ C2 C3 _ _]. cbn [file_bytes] in C3. lia.
Qed.

(** C35. What is read of a candidate is the file the scan found, whole: the directories
    on its path were walked from the root the scan was of, its bytes are those read
    through the one descriptor that was opened there, a file that was before,
    meanwhile and after what the scan had seen, as the way to it was; and the visitor
    was given exactly its lines that are not empty and not too long, in order,
    however the reads were cut. *)
Theorem candidate_contents_exact root c maximum_line_bytes tr tr' :
  opened tr (directory root) → path_ok (relative_path c) → 0 ≤ maximum_line_bytes →
  (∀ bytes, runs documented (read_candidate root c) tr (Ok bytes) tr' →
     ∃ new, tr' = tr ++ new ∧ candidate_read root c bytes new) ∧
  (∀ lines, runs documented (visit_candidate_lines root c maximum_line_bytes) tr (Ok lines) tr' →
     ∃ new bytes, tr' = tr ++ new ∧ candidate_read root c bytes new ∧ lines = lines_of maximum_line_bytes bytes).
Proof.
  intros Ho Hp Hm. split.
  - intros bytes Hr. destruct (keeps_runs _ _ _ _ _ (keeps_read_candidate root c tr Ho Hp) Hr) as (new & -> & Hf). by exists new.
  - intros lines Hr. destruct (keeps_runs _ _ _ _ _ (keeps_visit_candidate root c _ tr Ho Hp Hm) Hr) as (new & -> & (bytes & Hl & Hf)). by exists new, bytes.
Qed.

(** ** A small directory *)

Definition a_directory : Stat := mk_stat 1 2 4096 (S_IFDIR + 0x1C0) 1000 1000 2 10 0 10 0.
Definition below : Stat := mk_stat 1 4 4096 (S_IFDIR + 0x1C0) 1000 1000 2 10 0 10 0.
Definition a_file : Stat := mk_stat 1 3 5 (S_IFREG + 0x180) 1000 1000 1 11 0 11 0.
(** [/3/d/log] holds two lines, the second not ended, and is read at once. *)
Definition small_directory (tr : Trace FileCall) (T : Type) (call : FileCall T) : T :=
  match call in FileCall T return T with
  | GetEuid => 1000
  | Open _ _ => Ok 3%nat
  | OpenAt fd name _ => Ok (if bool_decide (name = lit "log") then 5%nat else if bool_decide (name = lit "d") then 6%nat else S fd)
  | Fstat fd => Ok (if bool_decide (fd = 5%nat) then a_file else if bool_decide (fd = 6%nat) then below else a_directory)
  | FstatAt _ name => Ok (if bool_decide (name = lit "log") then a_file else below)
  | TryClone fd => Ok fd
  | DirEntries fd => Ok [Ok (lit "."); Ok (if bool_decide (fd = 4%nat) then lit "d" else lit "log"); Ok (lit "..")]
  | ReadChunk fd => Ok (if is_empty (data fd tr) then [97; 10; 10; 98; 99] else [])
  | Advise _ => tt
  | IsCancelled => false
  end.
Definition a_root : ProviderFileRoot := mk_root 3 (mk_key 1 2) 1000.
Definition a_trace : Trace FileCall := [event (Open (lit "/") PATH_DIRECTORY) (Ok 3%nat)].
Definition a_candidate : ProviderFileCandidate := mk_candidate (lit "d/log") 5 (snapshot_of a_file) (mk_key 1 2).
Lemma small_directory_documented tr T (call : FileCall T) : documented T call (small_directory tr T call).
Proof.
  destruct call; cbn; try done. assert (forallb (λ x, negb (x =? 47)) (lit "." ++ lit "log" ++ lit "d" ++ lit "..") = true) as H by by vm_compute.
  rewrite !forallb_app, !andb_true_iff in H. destruct H as (H1 & H2 & H3 & H4).
  assert (∀ l, forallb (λ x, negb (x =? 47)) l = true → 47 ∉ l) as Hno.
  { intros l Hl Hin. apply list_elem_of_In in Hin. rewrite forallb_forall in Hl. by specialize (Hl _ Hin). }
  repeat constructor; try case_bool_decide; by apply Hno.
Qed.
Lemma small_directory_runs {A} (m : Fallibly FileCall Failure A) r : (execute small_directory m a_trace).1 = Ok r →
  runs documented m a_trace (Ok r) (execute small_directory m a_trace).2.
Proof. intros <-. apply execute_runs, small_directory_documented. Qed.
Lemma small_directory_scan : (execute small_directory (root_scan a_root [] limits_default) a_trace).1 = Ok [a_candidate].
Proof. by vm_compute. Qed.
Lemma small_directory_read : (execute small_directory (read_candidate a_root a_candidate) a_trace).1 = Ok [97; 10; 10; 98; 99].
Proof. by vm_compute. Qed.
Lemma small_directory_lines : (execute small_directory (visit_candidate_lines a_root a_candidate 1) a_trace).1 = Ok [[97]].
Proof. by vm_compute. Qed.
Lemma small_directory_opened : opened a_trace (directory a_root).
Proof. by left. Qed.
Lemma a_candidate_path : path_ok (relative_path a_candidate).
Proof. eapply (validated_components _ false). by vm_compute. Qed.

Lemma provider_scan_complete_witness : ∃ new, (execute small_directory (root_scan a_root [] limits_default) a_trace).2 = a_trace ++ new ∧
  complete_scan a_root [] limits_default [a_candidate] new.
Proof.
  destruct (provider_scan_complete a_root [] 4 1024 512 (4 * 1024 * 1024) (32 * 1024 * 1024) limits_default a_trace [a_candidate] _
    small_directory_opened ltac:(lia) ltac:(lia) ltac:(lia) ltac:(lia) ltac:(lia) eq_refl (small_directory_runs _ _ small_directory_scan))
    as (new & H1 & H2 & _). exists new. split; [exact H1|exact H2].
Defined.
Lemma candidate_contents_exact_witness : ∃ new bytes,
  (execute small_directory (visit_candidate_lines a_root a_candidate 1) a_trace).2 = a_trace ++ new ∧
  candidate_read a_root a_candidate bytes new ∧ [[97]] = lines_of 1 bytes.
Proof.
  apply (proj2 (candidate_contents_exact a_root a_candidate 1 a_trace _ small_directory_opened a_candidate_path ltac:(lia))).
  exact (small_directory_runs _ _ small_directory_lines).
Defined.
