(* ===== verification/AtomicFile.v ===== *)
(** * Durable replacement of private files
      (crates/storage/src/atomic_file.rs, lock.rs)

    The locked, staged, synced and renamed replacement every configuration and
    credential file is written with, and the validated read of such a file.  The
    functions are programs of system calls ([Prog]): what a call does is a
    relation given to the program, so that its state between any two calls can
    be talked about.  The calls act on the pinned parent directory; paths in
    error values, which only feed messages, are left out. *)
From stdpp Require Import gmap prelude.
From S2P Require Import Prelude Ordering Text Config.
Local Open Scope Z_scope.

(** ** System calls *)

(** [nix::errno::Errno] *)
Inductive Errno := ENOENT | EEXIST | ELOOP | ENOTDIR | EOTHER (code : Z).
(** A directory entry's name, and an inode number, for which an open descriptor
    of a file also stands. *)
Notation Name := (list Z).
Notation Fd := nat.

(** [libc::stat], the fields the program looks at. *)
Record Stat := mk_stat {
  st_ino : nat;
  st_regular : bool;
  st_uid : Z;
  st_mode : Z;
  st_nlink : Z;
}.
Record DirStat := mk_dir_stat { dir_is_dir : bool; dir_uid : Z; dir_mode : Z }.

(** The calls the program makes, with their flags folded in. *)
Inductive Syscall : Type → Type :=
| OpenRoot : Syscall (Result Errno unit)
| OpenDirAt (component : Name) : Syscall (Result Errno unit)
| DirMetadata : Syscall (Result Errno DirStat)
| GetEuid : Syscall Z
| Fstatat (name : Name) : Syscall (Result Errno Stat)
| OpenRead (name : Name) : Syscall (Result Errno Fd)
| OpenLock (name : Name) : Syscall (Result Errno Fd)
| OpenExclusive (name : Name) : Syscall (Result Errno Fd)
| Fstat (fd : Fd) : Syscall (Result Errno Stat)
| Fchmod (fd : Fd) (mode : Z) : Syscall (Result Errno unit)
| FlockExclusive (fd : Fd) : Syscall (Result Errno unit)
| Unlock : Syscall unit
| WriteAll (fd : Fd) (contents : list Z) : Syscall (Result Errno unit)
| SyncFile (fd : Fd) : Syscall (Result Errno unit)
| SyncDir : Syscall (Result Errno unit)
| Renameat (source destination : Name) : Syscall (Result Errno unit)
| Linkat (source destination : Name) : Syscall (Result Errno unit)
| Unlinkat (name : Name) : Syscall (Result Errno unit)
| ReadBounded (fd : Fd) (bound : Z) : Syscall (Result Errno (list Z))
| GetRandom : Syscall (Result Errno (list Z)).

Inductive Prog (A : Type) : Type :=
| Ret (a : A)
| Op {T} (call : Syscall T) (next : T → Prog A).
Arguments Ret {_} _.
Arguments Op {_ _} _ _.
Fixpoint prog_bind {A B} (p : Prog A) (k : A → Prog B) : Prog B :=
  match p with
  | Ret a => k a
  | Op call next => Op call (λ r, prog_bind (next r) k)
  end.

(** A program that may fail. *)
Definition IO (E A : Type) : Type := Prog (Result E A).
#[global] Instance IO_ret {E} : MRet (IO E) := λ A a, Ret (Ok a).
#[global] Instance IO_bind {E} : MBind (IO E) := λ A B k m,
  prog_bind m (λ r, match r with Ok a => k a | Err e => Ret (Err e) end).
Definition io_fail {E A} (e : E) : IO E A := Ret (Err e).
(** A call whose failure is mapped; and one that cannot fail. *)
Definition io_try {E T} (call : Syscall (Result Errno T)) (f : Errno → E) : IO E T :=
  Op call (λ r, Ret (map_err f r)).
Definition io_call {E T} (call : Syscall T) : IO E T := Op call (λ r, Ret (Ok r)).
Definition io_map_err {E F A} (f : E → F) (m : IO E A) : IO F A :=
  prog_bind m (λ r, Ret (map_err f r)).
(** [let result = m; cleanup; result] *)
Definition io_finally {E A} (m : IO E A) (cleanup : Result E A → IO E unit) : IO E A :=
  prog_bind m (λ r, prog_bind (cleanup r) (λ _, Ret r)).
(** [match call { .. }] *)
Definition io_match {E T A} (call : Syscall T) (next : T → IO E A) : IO E A := Op call next.
(** [let _ = call;] *)
Definition io_ignore {E T} (call : Syscall T) : IO E unit := Op call (λ _, Ret (Ok tt)).

(** ** lock.rs *)

(** [0o600] and [0o022] *)
Definition PRIVATE_FILE_MODE : Z := 0x180.
Definition UNSAFE_DIRECTORY_WRITE_BITS : Z := 0x12.

Inductive LockError :=
| UnsafePath (reason : str)
| UnsafeEntry (reason : str)
| LockIo (operation : str) (source : Errno).

(** [Path::components] of an absolute path. *)
Inductive Component := RootDir | CurDir | ParentDir | Normal (name : Name).
Definition components (path : list Z) : list Component :=
  RootDir :: omap (λ part,
    if is_empty part || bool_decide (part = lit ".") then None
    else if bool_decide (part = lit "..") then Some ParentDir else Some (Normal part))
    (split_bytes 47 (tail path)).
Fixpoint normal_components (l : list Component) : Result LockError (list Name) :=
  match l with
  | [] => Ok []
  | Normal name :: l => names ← normal_components l; Ok (name :: names)
  | (CurDir | ParentDir) :: _ => Err (UnsafePath (lit "dot and parent traversal components are forbidden"))
  | RootDir :: _ => Err (UnsafePath (lit "path has an invalid component"))
  end.
Definition is_absolute (path : list Z) : bool := bool_decide (head path = Some 47).
Definition absolute_file_components (path : list Z) : Result LockError (list Name) :=
  if negb (is_absolute path) then Err (UnsafePath (lit "path must be absolute")) else
  if (count path <? 2)
     || match strip_prefix (lit "//") path with Some _ => true | None => false end
     || bool_decide (last path = Some 47)
     || existsb is_ascii_control path
     || existsb (λ component, is_empty component || bool_decide (component = lit ".")
                              || bool_decide (component = lit "..")) (split_bytes 47 (tail path))
  then Err (UnsafePath (lit "path must use a canonical absolute file spelling")) else
  match components path with
  | RootDir :: rest =>
      normal ← normal_components rest;
      if is_empty normal then Err (UnsafePath (lit "path must name a file")) else Ok normal
  | _ => Err (UnsafePath (lit "path must begin at the filesystem root"))
  end.

(** The pinned parent directory is the one the calls act on. *)
Record SafeParent := mk_parent { file_name : Name }.

Fixpoint open_components (l : list Name) : IO LockError unit :=
  match l with
  | [] => mret tt
  | component :: l =>
      io_try (OpenDirAt component) (λ error, match error with
        | ELOOP | ENOTDIR => UnsafePath (lit "parent components must be real directories, not symbolic links")
        | other => LockIo (lit "open storage parent for") other
        end) ;;
      open_components l
  end.
Definition safe_parent_open (path : list Z) : IO LockError SafeParent :=
  components ← (Ret (absolute_file_components path) : IO LockError (list Name));
  match last components with
  | None => io_fail (UnsafePath (lit "path must name a file"))
  | Some file_name =>
      io_try OpenRoot (LockIo (lit "open filesystem root for")) ;;
      open_components (removelast components) ;;
      metadata ← io_try DirMetadata (LockIo (lit "inspect storage parent for"));
      if negb (dir_is_dir metadata) then io_fail (UnsafePath (lit "parent is not a directory")) else
      uid ← io_call GetEuid;
      if negb (dir_uid metadata =? uid)
      then io_fail (UnsafePath (lit "final parent directory is not owned by the current user")) else
      if negb (Z.land (dir_mode metadata) UNSAFE_DIRECTORY_WRITE_BITS =? 0)
      then io_fail (UnsafePath (lit "final parent directory is writable by another user")) else
      mret (mk_parent file_name)
  end.

Definition validate_regular_or_absent (name : Name) : IO LockError (option Stat) :=
  io_match (Fstatat name) (λ r, match r with
    | Ok stat =>
        if negb (st_regular stat)
        then io_fail (UnsafeEntry (lit "entry must be a regular file and may not be a symbolic link")) else
        uid ← io_call GetEuid;
        if negb (st_uid stat =? uid)
        then io_fail (UnsafeEntry (lit "entry is not owned by the current user")) else
        mret (Some stat)
    | Err ENOENT => mret None
    | Err error => io_fail (LockIo (lit "inspect storage entry") error)
    end).
Definition validate_open_regular (file : Fd) : IO LockError unit :=
  stat ← io_try (Fstat file) (LockIo (lit "inspect opened storage entry"));
  if negb (st_regular stat) then io_fail (UnsafeEntry (lit "opened entry is not a regular file")) else
  uid ← io_call GetEuid;
  if negb (st_uid stat =? uid)
  then io_fail (UnsafeEntry (lit "opened entry is not owned by the current user")) else mret tt.

(** [ExclusiveLock::acquire_at]; the lock is released by [Unlock]. *)
Definition acquire_at (name : Name) : IO LockError unit :=
  validate_regular_or_absent name ;;
  file ← io_try (OpenLock name) (LockIo (lit "open lock"));
  validate_open_regular file ;;
  io_try (Fchmod file PRIVATE_FILE_MODE) (LockIo (lit "set private lock permissions on")) ;;
  io_try (FlockExclusive file) (LockIo (lit "acquire exclusive lock on")).

(** ** atomic_file.rs *)

Definition UNIQUE_NAME_ATTEMPTS : nat := 128.

Inductive AtomicWriteError :=
| Lock (source : LockError)
| Io (operation : str) (source : Errno)
| Random
| TemporaryNameExhausted
| ConcurrentMutation
| TooLarge.
Local Notation AW := (IO AtomicWriteError).
Definition from_lock {A} (m : IO LockError A) : AW A := io_map_err Lock m.

Definition suffixed_name (name : Name) (suffix : str) : Name := name ++ suffix.
Definition hex_digit (n : Z) : Z := if n <? 10 then 48 + n else 87 + n.
Definition temporary_name_of (target_name : Name) (kind : str) (random : list Z) : Name :=
  lit "." ++ target_name ++ lit ".oab-" ++ kind ++ lit "-"
  ++ (random ≫= λ byte, [hex_digit (Z.shiftr byte 4); hex_digit (Z.land byte 15)]).
Definition random_temporary_name (target_name : Name) (kind : str) : AW Name :=
  random ← io_try GetRandom (λ _, Random);
  mret (temporary_name_of target_name kind random).

(** The device of every entry is the directory's, so the inode identifies. *)
Record WriteState := mk_state {
  parent : SafeParent;
  previous_name : Name;
  temporary_name : option Name;
  temporary_file : Fd;
  expected_current : option nat;
}.
Definition target (state : WriteState) : Name := file_name (parent state).
Definition with_expected (expected : option nat) (state : WriteState) : WriteState :=
  mk_state (parent state) (previous_name state) (temporary_name state) (temporary_file state) expected.

Definition remove_entry_if_present {E} (name : Name) : IO E unit := io_ignore (Unlinkat name).
Definition remove_entry (name : Name) : AW unit :=
  io_match (Unlinkat name) (λ r, match r with
    | Ok _ | Err ENOENT => mret tt
    | Err error => io_fail (Io (lit "remove predecessor temporary entry for") error)
    end).

(** [Drop for WriteState], then the drop of its lock. *)
Definition drop_state {E} (state : WriteState) : IO E unit :=
  match temporary_name state with Some name => remove_entry_if_present name | None => mret tt end ;;
  io_call Unlock.
Definition drop_lock_on_error {E A} (r : Result E A) : IO E unit :=
  match r with Ok _ => mret tt | Err _ => io_call Unlock end.

Definition validate_expected_current (state : WriteState) : AW unit :=
  current ← from_lock (validate_regular_or_absent (target state));
  if bool_decide (st_ino <$> current = expected_current state) then mret tt
  else io_fail ConcurrentMutation.
Definition validate_staged_identity (state : WriteState) : AW unit :=
  match temporary_name state with
  | None => io_fail ConcurrentMutation
  | Some name =>
      named ← io_try (Fstatat name) (Io (lit "inspect staged pathname for"));
      opened ← io_try (Fstat (temporary_file state)) (Io (lit "inspect staged file for"));
      if negb (st_ino named =? st_ino opened)%nat then io_fail ConcurrentMutation else
      from_lock (validate_open_regular (temporary_file state))
  end.

Fixpoint create_new_temporary (attempts : nat) (target_name : Name) : AW (Name * Fd) :=
  match attempts with
  | O => io_fail TemporaryNameExhausted
  | S attempts =>
      name ← random_temporary_name target_name (lit "new");
      io_match (OpenExclusive name) (λ r, match r with
        | Ok fd => mret (name, fd)
        | Err EEXIST => create_new_temporary attempts target_name
        | Err error => io_fail (Io (lit "create staged file for") error)
        end)
  end.

(** The closure of [stage_write]. *)
Definition write_staged (file : Fd) (contents : list Z) : AW unit :=
  io_try (Fchmod file PRIVATE_FILE_MODE) (Io (lit "set private permissions on staged file for")) ;;
  io_try (WriteAll file contents) (Io (lit "write staged file for")) ;;
  io_try (SyncFile file) (Io (lit "sync staged file for")).

(** [stage_write] under the lock. *)
Definition stage_locked (parent : SafeParent) (contents : list Z) : AW WriteState :=
  let previous_name := suffixed_name (file_name parent) (lit ".previous") in
  from_lock (validate_regular_or_absent (file_name parent)) ;;
  from_lock (validate_regular_or_absent previous_name) ;;
  '(temporary_name, temporary_file) ← create_new_temporary UNIQUE_NAME_ATTEMPTS (file_name parent);
  io_finally (write_staged temporary_file contents)
    (λ r, match r with Ok _ => mret tt | Err _ => remove_entry_if_present temporary_name end) ;;
  let state := mk_state parent previous_name (Some temporary_name) temporary_file None in
  io_finally (validate_staged_identity state)
    (λ r, match r with Ok _ => mret tt | Err _ => remove_entry_if_present temporary_name end) ;;
  mret state.
Definition stage_write (path contents : list Z) : AW WriteState :=
  parent ← from_lock (safe_parent_open path);
  from_lock (acquire_at (suffixed_name (file_name parent) (lit ".lock"))) ;;
  io_finally (stage_locked parent contents) drop_lock_on_error.

(** [validate_open_private] *)
Definition validate_open_private (file : Fd) : AW unit :=
  from_lock (validate_open_regular file) ;;
  stat ← io_try (Fstat file) (Io (lit "inspect private file metadata for"));
  if negb (st_nlink stat =? 1)
  then io_fail (Lock (UnsafeEntry (lit "private entry must have exactly one hard link"))) else
  if negb (Z.land (st_mode stat) 0x1ff =? PRIVATE_FILE_MODE)
  then io_fail (Lock (UnsafeEntry (lit "private entry must have mode 0600"))) else mret tt.

Definition pin_private_current (state : WriteState) : AW (option nat) :=
  named ← from_lock (validate_regular_or_absent (target state));
  match named with
  | None => mret None
  | Some named =>
      file ← io_try (OpenRead (target state)) (Io (lit "open current private file"));
      validate_open_private file ;;
      opened ← io_try (Fstat file) (Io (lit "inspect current private file"));
      if negb (st_ino opened =? st_ino named)%nat then io_fail ConcurrentMutation else
      io_try (SyncFile file) (Io (lit "sync current private file")) ;;
      mret (Some (st_ino opened))
  end.

Definition make_existing_entry_private (name : Name) (expected : nat) : AW unit :=
  file ← io_try (OpenRead name) (Io (lit "open existing predecessor for"));
  from_lock (validate_open_regular file) ;;
  opened ← io_try (Fstat file) (Io (lit "inspect existing predecessor for"));
  if negb (st_ino opened =? expected)%nat then io_fail ConcurrentMutation else
  io_try (Fchmod file PRIVATE_FILE_MODE) (Io (lit "set private permissions on existing predecessor for")) ;;
  io_try (SyncFile file) (Io (lit "sync existing predecessor for")) ;;
  named ← io_try (Fstatat name) (Io (lit "reinspect existing predecessor for"));
  if negb (st_ino named =? expected)%nat then io_fail ConcurrentMutation else mret tt.

Fixpoint create_predecessor_link (attempts : nat) (state : WriteState) (expected : nat) : AW Name :=
  match attempts with
  | O => io_fail TemporaryNameExhausted
  | S attempts =>
      name ← random_temporary_name (target state) (lit "previous");
      io_match (Linkat (target state) name) (λ r, match r with
        | Ok _ =>
            linked ← io_try (Fstatat name) (Io (lit "inspect predecessor link for"));
            current ← io_try (Fstatat (target state)) (Io (lit "reinspect current file for"));
            if negb (st_ino linked =? expected)%nat || negb (st_ino current =? expected)%nat
            then remove_entry_if_present name ;; io_fail ConcurrentMutation
            else mret name
        | Err EEXIST => create_predecessor_link attempts state expected
        | Err error => io_fail (Io (lit "create recoverable predecessor for") error)
        end)
  end.
Definition replace_predecessor_link (state : WriteState) (identity : nat) : AW unit :=
  backup_name ← create_predecessor_link UNIQUE_NAME_ATTEMPTS state identity;
  io_finally (io_try (Renameat backup_name (previous_name state)) (Io (lit "publish recoverable predecessor for")))
    (λ r, match r with Ok _ => mret tt | Err _ => remove_entry_if_present backup_name end) ;;
  remove_entry backup_name ;;
  published ← io_try (Fstatat (previous_name state)) (Io (lit "verify recoverable predecessor for"));
  if negb (st_ino published =? identity)%nat then io_fail ConcurrentMutation else
  io_try SyncDir (Io (lit "sync recoverable predecessor for")).

Definition publish_predecessor (state : WriteState) : AW (option nat) :=
  previous ← from_lock (validate_regular_or_absent (previous_name state));
  match previous with
  | Some stat => make_existing_entry_private (previous_name state) (st_ino stat)
  | None => mret tt
  end ;;
  named_current ← from_lock (validate_regular_or_absent (target state));
  match named_current with
  | None => mret None
  | Some named_current =>
      current_file ← io_try (OpenRead (target state)) (Io (lit "open current file for"));
      from_lock (validate_open_regular current_file) ;;
      pinned ← io_try (Fstat current_file) (Io (lit "inspect current file for"));
      let identity := st_ino pinned in
      if negb (identity =? st_ino named_current)%nat then io_fail ConcurrentMutation else
      io_try (Fchmod current_file PRIVATE_FILE_MODE) (Io (lit "set private permissions on current file for")) ;;
      io_try (SyncFile current_file) (Io (lit "sync current file for")) ;;
      if bool_decide (st_ino <$> previous = Some identity) then
        io_try SyncDir (Io (lit "sync existing predecessor directory for")) ;;
        mret (Some identity)
      else
        replace_predecessor_link state identity ;;
        mret (Some identity)
  end.

(** The renaming of [PreparedWrite::commit], and the rest. *)
Definition install (state : WriteState) : AW unit :=
  validate_expected_current state ;;
  validate_staged_identity state ;;
  match temporary_name state with
  | None => io_fail ConcurrentMutation
  | Some name => io_try (Renameat name (target state)) (Io (lit "commit atomic replacement of"))
  end.
Definition forget_temporary (state : WriteState) : WriteState :=
  mk_state (parent state) (previous_name state) None (temporary_file state) (expected_current state).
Definition commit (state : WriteState) : AW unit :=
  io_finally (install state) (λ r, match r with Ok _ => mret tt | Err _ => drop_state state end) ;;
  io_finally (io_try SyncDir (Io (lit "sync parent directory for"))) (λ _, drop_state (forget_temporary state)).

(** [StagedWrite::prepare] and [commit_without_predecessor] *)
Definition prepare (state : WriteState) : AW WriteState :=
  expected ← io_finally (publish_predecessor state)
    (λ r, match r with Ok _ => mret tt | Err _ => drop_state state end);
  mret (with_expected expected state).
Definition pin_without_predecessor (state : WriteState) : AW (option nat) :=
  previous ← from_lock (validate_regular_or_absent (previous_name state));
  match previous with
  | Some _ => io_fail (Lock (UnsafeEntry (lit "private no-predecessor storage forbids a backup entry")))
  | None => pin_private_current state
  end.
Definition commit_without_predecessor (state : WriteState) : AW unit :=
  expected ← io_finally (pin_without_predecessor state)
    (λ r, match r with Ok _ => mret tt | Err _ => drop_state state end);
  commit (with_expected expected state).

Definition atomic_write (path contents : list Z) : AW unit :=
  staged ← stage_write path contents;
  prepared ← prepare staged;
  commit prepared.
Definition atomic_write_without_predecessor (path contents : list Z) : AW unit :=
  staged ← stage_write path contents;
  commit_without_predecessor staged.

(** [read_private_file] under the lock, and whole. *)
Definition read_locked (name : Name) (max_bytes : Z) : AW (option (list Z)) :=
  named ← from_lock (validate_regular_or_absent name);
  match named with
  | None => mret None
  | Some named =>
      file ← io_try (OpenRead name) (Io (lit "open private file"));
      validate_open_private file ;;
      opened ← io_try (Fstat file) (Io (lit "inspect private file"));
      if negb (st_ino opened =? st_ino named)%nat then io_fail ConcurrentMutation else
      contents ← io_try (ReadBounded file (saturating_add u64_max max_bytes 1)) (Io (lit "read private file"));
      if max_bytes <? count contents then io_fail TooLarge else
      current ← io_try (Fstatat name) (Io (lit "reinspect private file"));
      if negb (st_ino current =? st_ino opened)%nat then io_fail ConcurrentMutation else
      mret (Some contents)
  end.
Definition read_private_file (path : list Z) (max_bytes : Z) : AW (option (list Z)) :=
  parent ← from_lock (safe_parent_open path);
  from_lock (acquire_at (suffixed_name (file_name parent) (lit ".lock"))) ;;
  io_finally (read_locked (file_name parent) max_bytes) (λ _, io_call Unlock).

Definition previous_path (path : list Z) : Result AtomicWriteError (list Name * Name) :=
  components ← map_err Lock (absolute_file_components path);
  match last components with
  | None => Err (Lock (UnsafePath (lit "path must name a file")))
  | Some name => Ok (removelast components, suffixed_name name (lit ".previous"))
  end.
