(* ===== verification/AtomicFileFacts.v ===== *)
(** * What an interrupted replacement leaves behind

    The programs of AtomicFile.v against a file system whose directory changes
    and file contents may be lost or reordered by a crash until they are synced.
    [posix] is the documented effect of each call; any call may fail. *)
From stdpp Require Import gmap prelude.
From S2P Require Import Prelude Ordering Text Config AtomicFile.
Local Open Scope Z_scope.

(** ** The file system *)

Record File := mk_file {
  regular : bool;
  owner : Z;
  mode : Z;
  data : list Z;
  synced : bool;
}.
(** One directory.  [history] holds the directory as last synced and every
    version of it since; an open descriptor stays valid, and the inode of a
    file is not reused while a version refers to it. *)
Record Fs := mk_fs {
  entries : gmap Name nat;
  files : gmap nat File;
  history : list (gmap Name nat);
  locked : bool;
  user : Z;
}.

Definition set_entries (e : gmap Name nat) (fs : Fs) : Fs :=
  mk_fs e (files fs) (e :: history fs) (locked fs) (user fs).
Definition set_file (i : nat) (f : File) (fs : Fs) : Fs :=
  mk_fs (entries fs) (<[i := f]> (files fs)) (history fs) (locked fs) (user fs).
Definition set_locked (b : bool) (fs : Fs) : Fs :=
  mk_fs (entries fs) (files fs) (history fs) b (user fs).
Definition sync_entries (fs : Fs) : Fs :=
  mk_fs (entries fs) (files fs) [entries fs] (locked fs) (user fs).

Definition nlink (fs : Fs) (i : nat) : Z := Z.of_nat (size (filter (λ e, e.2 = i) (entries fs))).
Definition stat_of (fs : Fs) (i : nat) (st : Stat) : Prop :=
  ∃ f, files fs !! i = Some f ∧ st = mk_stat i (regular f) (owner f) (mode f) (nlink fs i).
(** A mode that grants nothing to group and others. *)
Definition private (mode : Z) : Prop := Z.land mode 0x3f = 0.
Definition created (name : Name) (i : nat) (fs fs' : Fs) : Prop :=
  entries fs !! name = None ∧ files fs !! i = None ∧
  ∃ m, private m ∧ fs' = set_entries (<[name := i]> (entries fs)) (set_file i (mk_file true (user fs) m [] false) fs).
(** A change of one file. *)
Definition changed (i : nat) (g : File → File) (fs fs' : Fs) : Prop :=
  ∃ f, files fs !! i = Some f ∧ fs' = set_file i (g f) fs.

(** What a call may answer and do. *)
Definition posix {T} (call : Syscall T) (fs : Fs) : T → Fs → Prop :=
  match call in Syscall T return T → Fs → Prop with
  | OpenRoot | OpenDirAt _ => λ _ fs', fs' = fs
  | DirMetadata => λ _ fs', fs' = fs
  | GetEuid => λ uid fs', uid = user fs ∧ fs' = fs
  | Fstatat name => λ r fs', fs' = fs ∧
      match r with
      | Ok st => ∃ i, entries fs !! name = Some i ∧ stat_of fs i st
      | Err ENOENT => entries fs !! name = None
      | Err _ => True
      end
  | OpenRead name => λ r fs', fs' = fs ∧
      match r with Ok i => entries fs !! name = Some i | Err _ => True end
  | OpenLock name => λ r fs',
      match r with
      | Ok i => entries fs !! name = Some i ∧ fs' = fs ∨ created name i fs fs'
      | Err _ => fs' = fs
      end
  | OpenExclusive name => λ r fs', match r with Ok i => created name i fs fs' | Err _ => fs' = fs end
  | Fstat i => λ r fs', fs' = fs ∧ match r with Ok st => stat_of fs i st | Err _ => True end
  | Fchmod i m => λ r fs',
      match r with
      | Ok _ => changed i (λ f, mk_file (regular f) (owner f) m (data f) (synced f)) fs fs'
      | Err _ => fs' = fs
      end
  | FlockExclusive _ => λ r fs', match r with Ok _ => fs' = set_locked true fs | Err _ => fs' = fs end
  | Unlock => λ _ fs', fs' = set_locked false fs
  | WriteAll i contents => λ r fs',
      let append written f := mk_file (regular f) (owner f) (mode f) (data f ++ written) false in
      match r with
      | Ok _ => changed i (append contents) fs fs'
      | Err _ => fs' = fs ∨ ∃ written, changed i (append written) fs fs'
      end
  | SyncFile i => λ r fs',
      match r with
      | Ok _ => changed i (λ f, mk_file (regular f) (owner f) (mode f) (data f) true) fs fs'
      | Err _ => fs' = fs
      end
  | SyncDir => λ r fs', match r with Ok _ => fs' = sync_entries fs | Err _ => fs' = fs end
  | Renameat source destination => λ r fs',
      match r with
      | Ok _ => ∃ i, entries fs !! source = Some i ∧
          if decide (entries fs !! destination = Some i) then fs' = fs
          else fs' = set_entries (<[destination := i]> (delete source (entries fs))) fs
      | Err _ => fs' = fs
      end
  | Linkat source destination => λ r fs',
      match r with
      | Ok _ => ∃ i, entries fs !! source = Some i ∧ entries fs !! destination = None ∧
          fs' = set_entries (<[destination := i]> (entries fs)) fs
      | Err _ => fs' = fs
      end
  | Unlinkat name => λ r fs',
      match r with
      | Ok _ => is_Some (entries fs !! name) ∧ fs' = set_entries (delete name (entries fs)) fs
      | Err e => fs' = fs ∧ (e = ENOENT → entries fs !! name = None)
      end
  | ReadBounded i bound => λ r fs', fs' = fs ∧
      match r with
      | Ok l => ∃ f, files fs !! i = Some f ∧ l = take (Z.to_nat bound) (data f)
      | Err _ => True
      end
  | GetRandom => λ r fs', fs' = fs ∧ match r with Ok l => length l = 16%nat | Err _ => True end
  end.

(** An operating system that does what is documented, and the executions of a
    program on it, which may stop anywhere. *)
Definition System : Type := ∀ T, Syscall T → Fs → T → Fs → Prop.
Definition documented (sys : System) : Prop :=
  ∀ T (call : Syscall T) fs r fs', sys T call fs r fs' → posix call fs r fs'.
Inductive exec (sys : System) {A} : Prog A → Fs → Prog A → Fs → Prop :=
| exec_here p fs : exec sys p fs p fs
| exec_call T (call : Syscall T) next fs r fs1 p2 fs2 :
    sys T call fs r fs1 → exec sys (next r) fs1 p2 fs2 → exec sys (Op call next) fs p2 fs2.

(** What a crash may leave: each name as in some version of the directory since
    the last sync, each synced file with its contents, others with anything. *)
Record Image := mk_image { image_entries : gmap Name nat; image_data : nat → list Z }.
Definition crash (fs : Fs) (image : Image) : Prop :=
  (∀ name, ∃ e, e ∈ history fs ∧ image_entries image !! name = e !! name) ∧
  (∀ i f, files fs !! i = Some f → synced f = true → image_data image i = data f).
Definition image_read (image : Image) (name : Name) : option (list Z) :=
  image_data image <$> image_entries image !! name.
(** What a process reads now. *)
Definition read_entry (fs : Fs) (name : Name) : option (list Z) :=
  i ← entries fs !! name; data <$> files fs !! i.

(** ** Invariants of an execution *)

(** [I] holds before and after every call, and [Q] when the program returns. *)
Fixpoint fwp {A} (I : Fs → Prop) (p : Prog A) (Q : A → Fs → Prop) (fs : Fs) : Prop :=
  I fs ∧ match p with
         | Ret a => Q a fs
         | Op call next => ∀ r fs', posix call fs r fs' → fwp I (next r) Q fs'
         end.

Lemma fwp_exec {A} sys I (p : Prog A) Q fs p' fs' :
  documented sys → fwp I p Q fs → exec sys p fs p' fs' →
  I fs' ∧ ∀ a, p' = Ret a → Q a fs'.
Proof.
  intros Hsys Hp Hx. revert Hp. induction Hx as [p fs|T call next fs r fs1 p2 fs2 Hs Hx IH]; intros Hp.
  - split; [by destruct p; apply Hp|]. intros a ->. apply Hp.
  - apply IH. cbn in Hp. apply Hp. by apply Hsys.
Qed.
Lemma fwp_I {A} I (p : Prog A) Q fs : fwp I p Q fs → I fs.
Proof. by destruct p; intros [? _]. Qed.
Lemma fwp_mono {A} (I : Fs → Prop) (p : Prog A) (Q Q' : A → Fs → Prop) fs :
  fwp I p Q fs → (∀ a fs', I fs' → Q a fs' → Q' a fs') → fwp I p Q' fs.
Proof.
  intros Hp HQ. revert fs Hp. induction p as [a|T call next IH]; intros fs; cbn; intros [HI Hp];
    (split; [done|]); [by apply HQ|]. intros r fs' Hr. by apply IH, Hp.
Qed.
Lemma fwp_prog_bind {A B} I (p : Prog A) (k : A → Prog B) Q fs :
  fwp I p (λ a fs', fwp I (k a) Q fs') fs → fwp I (prog_bind p k) Q fs.
Proof.
  revert fs. induction p as [a|T call next IH]; intros fs; cbn; intros [HI Hp]; [done|].
  split; [done|]. intros r fs' Hr. by apply IH, Hp.
Qed.
Lemma fwp_op {A T} I (call : Syscall T) (next : T → Prog A) Q fs :
  I fs → (∀ r fs', posix call fs r fs' → fwp I (next r) Q fs') → fwp I (Op call next) Q fs.
Proof. by split. Qed.
Lemma fwp_ret {A} (I : Fs → Prop) (a : A) (Q : A → Fs → Prop) fs : I fs → Q a fs → fwp I (Ret a) Q fs.
Proof. by split. Qed.

Section io.
Context {E : Type} (I : Fs → Prop).
Lemma fwp_bind {A B} (m : IO E A) (k : A → IO E B) (Q : Result E B → Fs → Prop) fs :
  fwp I m (λ r fs', match r with Ok a => fwp I (k a) Q fs' | Err e => Q (Err e) fs' end) fs →
  fwp I (m ≫= k) Q fs.
Proof.
  intros Hm. apply fwp_prog_bind. eapply fwp_mono; [exact Hm|]. intros [a|e] fs' HI HQ; [done|]. by apply fwp_ret.
Qed.
Lemma fwp_map_err {F A} (f : E → F) (m : IO E A) (Q : Result F A → Fs → Prop) fs :
  fwp I m (λ r fs', Q (map_err f r) fs') fs → fwp I (io_map_err f m) Q fs.
Proof. intros Hm. apply fwp_prog_bind. eapply fwp_mono; [exact Hm|]. intros a fs' HI HQ. by apply fwp_ret. Qed.
Lemma fwp_finally {A} (m : IO E A) cleanup (Q : Result E A → Fs → Prop) fs :
  fwp I m (λ r fs', fwp I (cleanup r) (λ _ fs', Q r fs') fs') fs → fwp I (io_finally m cleanup) Q fs.
Proof.
  intros Hm. apply fwp_prog_bind. eapply fwp_mono; [exact Hm|]. intros a fs' HI Hc.
  apply fwp_prog_bind. eapply fwp_mono; [exact Hc|]. intros u fs'' HI' HQ. by apply fwp_ret.
Qed.
Lemma fwp_try {T} (call : Syscall (Result Errno T)) (f : Errno → E) (Q : Result E T → Fs → Prop) fs :
  I fs → (∀ r fs', posix call fs r fs' → I fs' ∧ Q (map_err f r) fs') → fwp I (io_try call f) Q fs.
Proof. intros HI Hc. apply fwp_op; [done|]. intros r fs' Hr. apply fwp_ret; by eapply Hc. Qed.
Lemma fwp_io_call {T} (call : Syscall T) (Q : Result E T → Fs → Prop) fs :
  I fs → (∀ r fs', posix call fs r fs' → I fs' ∧ Q (Ok r) fs') → fwp I (io_call call) Q fs.
Proof. intros HI Hc. apply fwp_op; [done|]. intros r fs' Hr. apply fwp_ret; by eapply Hc. Qed.
Lemma fwp_ignore {T} (call : Syscall T) (Q : Result E unit → Fs → Prop) fs :
  I fs → (∀ r fs', posix call fs r fs' → I fs' ∧ Q (Ok tt) fs') → fwp I (io_ignore call) Q fs.
Proof. intros HI Hc. apply fwp_op; [done|]. intros r fs' Hr. apply fwp_ret; by eapply Hc. Qed.
End io.

(** ** Programs that only look *)

(** [m] changes nothing; a result of its satisfies [P]. *)
Definition looks {E A} (m : IO E A) (P : A → Fs → Prop) : Prop :=
  ∀ (I : Fs → Prop) fs, I fs → fwp I m (λ r fs', fs' = fs ∧ ∀ a, r = Ok a → P a fs) fs.

Section looks.
Context {E : Type}.
Lemma looks_ret {A} (a : A) : looks (mret a : IO E A) (λ b _, b = a).
Proof. intros I fs HI. apply fwp_ret; [done|]. split; [done|]. by intros b [= <-]. Qed.
Lemma looks_result {A} (r : Result E A) : looks (Ret r) (λ a _, r = Ok a).
Proof. intros I fs HI. by apply fwp_ret. Qed.
Lemma looks_fail {A} (e : E) P : looks (io_fail e : IO E A) P.
Proof. intros I fs HI. by apply fwp_ret. Qed.
Lemma looks_try {T} (call : Syscall (Result Errno T)) (f : Errno → E) P :
  (∀ fs r fs', posix call fs r fs' → fs' = fs ∧ ∀ a, r = Ok a → P a fs) → looks (io_try call f) P.
Proof.
  intros Hc I fs HI. apply fwp_try; [done|]. intros r fs' Hr. destruct (Hc _ _ _ Hr) as [-> HP].
  split; [done|]. split; [done|]. intros a Ha. destruct r; [|done]. injection Ha as ->. by apply HP.
Qed.
Lemma looks_euid : looks (io_call GetEuid : IO E Z) (λ uid fs, uid = user fs).
Proof.
  intros I fs HI. apply fwp_io_call; [done|]. intros r fs' [-> ->]. split; [done|]. split; [done|]. by intros a [= <-].
Qed.
(** Using a look within another program, and within another look. *)
Lemma fwp_looks {A B} (m : IO E A) (k : A → IO E B) P I (Q : Result E B → Fs → Prop) fs :
  looks m P → I fs → (∀ a, P a fs → fwp I (k a) Q fs) → (∀ e, Q (Err e) fs) → fwp I (m ≫= k) Q fs.
Proof.
  intros Hm HI Hk He. apply fwp_bind. eapply fwp_mono; [by apply Hm|].
  intros [a|e] fs' _ [-> HP]; [by apply Hk, HP|done].
Qed.
Lemma looks_bind {A B} (m : IO E A) (k : A → IO E B) P Q :
  looks m P → (∀ a, looks (k a) (λ b fs, P a fs → Q b fs)) → looks (m ≫= k) Q.
Proof.
  intros Hm Hk I fs HI. eapply fwp_looks; [done|done| |done].
  intros a Ha. eapply fwp_mono; [by apply Hk|]. intros r fs' _ [-> HQ]. split; [done|]. intros b Hb. by apply HQ.
Qed.
Lemma looks_mono {A} (m : IO E A) (P Q : A → Fs → Prop) :
  looks m P → (∀ a fs, P a fs → Q a fs) → looks m Q.
Proof.
  intros Hm HQ I fs HI. eapply fwp_mono; [by apply Hm|]. intros r fs' _ [-> HP]. split; [done|].
  intros a Ha. by apply HQ, HP.
Qed.
Lemma looks_if {A} (b : bool) (m : IO E A) e P :
  (b = false → looks m P) → looks (if b then io_fail e else m) P.
Proof. destruct b; [intros _; apply looks_fail|auto]. Qed.
Lemma looks_match {T A} (call : Syscall T) (next : T → IO E A) P :
  (∀ fs r fs', posix call fs r fs' → fs' = fs) →
  (∀ r, looks (next r) (λ a fs, (∃ fs', posix call fs r fs') → P a fs)) →
  looks (io_match call next) P.
Proof.
  intros Hc Hn I fs HI. apply fwp_op; [done|]. intros r fs' Hr. pose proof (Hc _ _ _ Hr) as ->.
  eapply fwp_mono; [by apply Hn|]. intros x fs' _ [-> HP]. split; [done|]. intros a Ha. apply HP; [done|by eexists].
Qed.
End looks.
Lemma looks_map_err {E F A} (f : E → F) (m : IO E A) P : looks m P → looks (io_map_err f m) P.
Proof.
  intros Hm I fs HI. apply fwp_map_err. eapply fwp_mono; [by apply Hm|]. intros r fs' _ [-> HP]. split; [done|].
  intros a Ha. destruct r; [|done]. injection Ha as ->. by apply HP.
Qed.

Lemma looks_fstatat {E} name (f : Errno → E) :
  looks (io_try (Fstatat name) f) (λ st fs, ∃ i, entries fs !! name = Some i ∧ stat_of fs i st).
Proof. apply looks_try. intros fs r fs' [-> Hr]. split; [done|]. by intros a ->. Qed.
Lemma looks_fstat {E} i (f : Errno → E) : looks (io_try (Fstat i) f) (λ st fs, stat_of fs i st).
Proof. apply looks_try. intros fs r fs' [-> Hr]. split; [done|]. by intros a ->. Qed.
Lemma looks_open {E} name (f : Errno → E) :
  looks (io_try (OpenRead name) f) (λ i fs, entries fs !! name = Some i).
Proof. apply looks_try. intros fs r fs' [-> Hr]. split; [done|]. by intros a ->. Qed.

Lemma looks_regular_or_absent name :
  looks (validate_regular_or_absent name) (λ o fs, match o with
    | Some st => ∃ i, entries fs !! name = Some i ∧ stat_of fs i st ∧ st_regular st = true ∧ st_uid st = user fs
    | None => entries fs !! name = None
    end).
Proof.
  apply looks_match; [by intros fs r fs' [-> _]|]. intros [st|e].
  - apply looks_if. intros Hr. eapply looks_bind; [apply looks_euid|]. intros uid. apply looks_if. intros Hu.
    eapply looks_mono; [apply looks_ret|]. intros a fs -> -> [fs' [_ (i & Hi & Hst)]]. exists i.
    split; [done|]. split; [done|]. split; [by destruct (st_regular st)|].
    destruct (Z.eqb_spec (st_uid st) (user fs)); [done|]. discriminate Hu.
  - destruct e; try apply looks_fail. eapply looks_mono; [apply looks_ret|]. by intros a fs -> [fs' [_ He]].
Qed.
Lemma looks_open_regular i :
  looks (validate_open_regular i) (λ _ fs, ∃ f, files fs !! i = Some f ∧ regular f = true ∧ owner f = user fs).
Proof.
  eapply looks_bind; [apply looks_fstat|]. intros st. apply looks_if. intros Hr.
  eapply looks_bind; [apply looks_euid|]. intros uid. apply looks_if. intros Hu.
  eapply looks_mono; [apply looks_ret|]. intros [] fs _ -> (f & Hf & ->). exists f. cbn in *.
  split; [done|]. split; [by destruct (regular f)|].
  destruct (Z.eqb_spec (owner f) (user fs)); [done|]. discriminate Hu.
Qed.

(** The name a path gives to its file. *)
Definition names (path : list Z) (name : Name) : Prop :=
  ∃ l, absolute_file_components path = Ok l ∧ last l = Some name.

Lemma looks_components l : looks (open_components l) (λ _ _, True).
Proof.
  induction l as [|c l IH]; [eapply looks_mono; [apply looks_ret|done]|].
  unfold open_components; fold open_components.
  eapply looks_bind; [apply (looks_try _ _ (λ _ _, True)); by intros fs r fs' ->|].
  intros u. eapply looks_mono; [exact IH|done].
Qed.
Lemma looks_parent path : looks (safe_parent_open path) (λ p _, names path (file_name p)).
Proof.
  unfold safe_parent_open.
  eapply looks_bind; [apply looks_result|]. intros l. destruct (last l) as [name|] eqn:Hl; [|apply looks_fail].
  eapply looks_bind; [apply (looks_try _ _ (λ _ _, True)); by intros fs r fs' ->|]. intros u.
  eapply looks_bind; [apply looks_components|]. intros v.
  eapply looks_bind; [apply (looks_try _ _ (λ _ _, True)); by intros fs r fs' ->|]. intros metadata.
  apply looks_if. intros _. eapply looks_bind; [apply looks_euid|]. intros uid.
  apply looks_if. intros _. apply looks_if. intros _.
  eapply looks_mono; [apply looks_ret|]. intros a fs -> _ _ _ _ Hc. exists l. done.
Qed.
Lemma looks_staged_identity state :
  looks (validate_staged_identity state) (λ _ fs, ∃ name, temporary_name state = Some name ∧
    entries fs !! name = Some (temporary_file state)).
Proof.
  unfold validate_staged_identity. destruct (temporary_name state) as [name|]; [|apply looks_fail].
  eapply looks_bind; [apply looks_fstatat|]. intros named.
  eapply looks_bind; [apply looks_fstat|]. intros opened.
  apply looks_if. intros Hi. eapply looks_mono; [apply looks_map_err, looks_open_regular|].
  intros [] fs _ (f & _ & ->) (i & He & f' & _ & ->). exists name. split; [done|]. cbn in Hi.
  destruct (Nat.eqb_spec i (temporary_file state)); [by subst|done].
Qed.
Lemma looks_expected_current state :
  looks (validate_expected_current state) (λ _ fs, entries fs !! target state = expected_current state).
Proof.
  eapply looks_bind; [apply looks_map_err, looks_regular_or_absent|]. intros current.
  case_bool_decide as Hc; [|apply looks_fail]. eapply looks_mono; [apply looks_ret|].
  intros [] fs _. rewrite <-Hc. destruct current as [st|]; cbn; [|done].
  intros (i & -> & (f & _ & ->) & _). done.
Qed.
Lemma looks_open_private i :
  looks (validate_open_private i) (λ _ fs, ∃ f, files fs !! i = Some f ∧ regular f = true ∧ owner f = user fs ∧
    nlink fs i = 1 ∧ Z.land (mode f) 0x1ff = PRIVATE_FILE_MODE).
Proof.
  eapply looks_bind; [apply looks_map_err, looks_open_regular|]. intros u.
  eapply looks_bind; [apply looks_fstat|]. intros st. apply looks_if. intros Hn. apply looks_if. intros Hm.
  eapply looks_mono; [apply looks_ret|]. intros [] fs _ (f & Hf & ->) (f' & Hf' & Hr & Ho).
  assert (f' = f) as -> by congruence. exists f.
  apply negb_false_iff, Z.eqb_eq in Hn, Hm. done.
Qed.

(** ** Programs that spare a name *)

(** A name other than [target]'s and a file already written stay as they are. *)
Definition spares (target : Name) {T} (call : Syscall T) : Prop :=
  match call with
  | OpenLock name | OpenExclusive name | Unlinkat name => name ≠ target
  | WriteAll _ _ => False
  | Renameat source destination => source ≠ target ∧ destination ≠ target
  | Linkat _ destination => destination ≠ target
  | _ => True
  end.
(** Every call a program may make satisfies [P]. *)
Fixpoint calling (P : ∀ T, Syscall T → Prop) {A} (p : Prog A) : Prop :=
  match p with
  | Ret _ => True
  | Op call next => P _ call ∧ ∀ r, calling P (next r)
  end.
Notation sparing target := (calling (@spares target)).

(** Every answer satisfies [P], whatever the calls return. *)
Fixpoint answers {E A} (P : A → Prop) (p : IO E A) : Prop :=
  match p with
  | Ret r => ∀ a, r = Ok a → P a
  | Op call next => ∀ r, answers P (next r)
  end.

Section calling.
Context (P : ∀ T, Syscall T → Prop).
Lemma calling_prog_bind {A B} (p : Prog A) (k : A → Prog B) :
  calling P p → (∀ a, calling P (k a)) → calling P (prog_bind p k).
Proof.
  intros Hp Hk. induction p as [a|T call next IH]; cbn; [apply Hk|].
  destruct Hp as [Hc Hn]. split; [done|]. intros r. by apply IH.
Qed.
Lemma calling_ret {E A} (r : Result E A) : calling P (Ret r).
Proof. done. Qed.
Lemma calling_mret {E A} (a : A) : calling P (mret a : IO E A).
Proof. done. Qed.
Lemma calling_fail {E A} (e : E) : calling P (io_fail e : IO E A).
Proof. done. Qed.
Lemma calling_bind {E A B} (m : IO E A) (k : A → IO E B) :
  calling P m → (∀ a, calling P (k a)) → calling P (m ≫= k).
Proof. intros Hm Hk. apply calling_prog_bind; [done|]. by intros [a|e]. Qed.
Lemma calling_bind_answers {E A B} R (m : IO E A) (k : A → IO E B) :
  calling P m → answers R m → (∀ a, R a → calling P (k a)) → calling P (m ≫= k).
Proof.
  intros Hm HR Hk. induction m as [[a|e]|T call next IH]; cbn; [by apply Hk, HR|done|].
  destruct Hm as [Hc Hn]. split; [done|]. intros r. by apply IH.
Qed.
Lemma answers_bind {E A B} R Q (m : IO E A) (k : A → IO E B) :
  answers R m → (∀ a, R a → answers Q (k a)) → answers Q (m ≫= k).
Proof.
  intros HR Hk. induction m as [[a|e]|T call next IH]; cbn; [by apply Hk, HR|done|]. intros r. by apply IH.
Qed.
Lemma answers_any {E A} (m : IO E A) : answers (λ _, True) m.
Proof. by induction m. Qed.
Lemma calling_map_err {E F A} (f : E → F) (m : IO E A) : calling P m → calling P (io_map_err f m).
Proof. intros Hm. by apply calling_prog_bind. Qed.
Lemma calling_from_lock {A} (m : IO LockError A) : calling P m → calling P (from_lock m).
Proof. apply calling_map_err. Qed.
Lemma calling_finally {E A} (m : IO E A) cleanup :
  calling P m → (∀ r, calling P (cleanup r)) → calling P (io_finally m cleanup).
Proof. intros Hm Hc. apply calling_prog_bind; [done|]. intros r. by apply calling_prog_bind. Qed.
Lemma calling_try {E T} (call : Syscall (Result Errno T)) (f : Errno → E) :
  P _ call → calling P (io_try call f).
Proof. by split. Qed.
Lemma calling_call {E T} (call : Syscall T) : P _ call → calling P (io_call call : IO E T).
Proof. by split. Qed.
Lemma calling_ignore {E T} (call : Syscall T) : P _ call → calling P (io_ignore call : IO E unit).
Proof. by split. Qed.
Lemma calling_match {E T A} (call : Syscall T) (next : T → IO E A) :
  P _ call → (∀ r, calling P (next r)) → calling P (io_match call next).
Proof. by split. Qed.
Lemma calling_if {A} (b : bool) (p q : Prog A) :
  calling P p → calling P q → calling P (if b then p else q).
Proof. by destruct b. Qed.
End calling.
Create HintDb sparing.
#[global] Hint Constants Opaque : sparing.
#[global] Hint Variables Opaque : sparing.
(** Walks a program, leaving the conditions on names. *)
Ltac spare :=
  repeat match goal with
  | |- calling _ (Ret _) => apply calling_ret
  | |- calling _ (mret _) => apply calling_mret
  | |- calling _ (io_fail _) => apply calling_fail
  | |- calling _ (_ ≫= _) => apply calling_bind; [|let a := fresh "a" in intros a]
  | |- calling _ (io_finally _ _) => apply calling_finally; [|let r := fresh "r" in intros r]
  | |- calling _ (from_lock _) => apply calling_from_lock
  | |- calling _ (io_try _ _) => apply calling_try; try exact I
  | |- calling _ (io_call _) => apply calling_call; try exact I
  | |- calling _ (io_ignore _) => apply calling_ignore; try exact I
  | |- calling _ (io_match _ _) => apply calling_match; [try exact I|let r := fresh "r" in intros r]
  | |- calling _ (if _ then _ else _) => apply calling_if
  | |- calling _ (match ?x with _ => _ end) => destruct x
  | _ => solve [auto with sparing nocore]
  end.

(** The names the program makes up are no one else's. *)
Lemma suffixed_name_ne name suffix : suffix ≠ [] → suffixed_name name suffix ≠ name.
Proof. intros Hs He. apply Hs. apply (app_inv_head name). by rewrite app_nil_r. Qed.
Lemma temporary_name_length name kind random :
  (length (temporary_name_of name kind random) ≥ length name + length kind + 7)%nat.
Proof. unfold temporary_name_of. rewrite !length_app. cbn. lia. Qed.
Lemma temporary_name_ne name kind random : temporary_name_of name kind random ≠ name.
Proof. intros He. pose proof (temporary_name_length name kind random). rewrite He in *. lia. Qed.
(** The names of one write. *)
Record Named (target : Name) (state : WriteState) : Prop := {
  named_target : AtomicFile.target state = target;
  named_previous : previous_name state = suffixed_name target (lit ".previous");
  named_temporary : ∃ random, temporary_name state = Some (temporary_name_of target (lit "new") random);
}.
Lemma previous_ne name : suffixed_name name (lit ".previous") ≠ name.
Proof. by apply suffixed_name_ne. Qed.
Lemma lock_ne name : suffixed_name name (lit ".lock") ≠ name.
Proof. by apply suffixed_name_ne. Qed.
#[global] Hint Resolve previous_ne lock_ne temporary_name_ne : sparing.

Section spared.
Context (T : Name).
Lemma sparing_components l : sparing T (open_components l).
Proof. induction l as [|c l IH]; [done|]. unfold open_components; fold open_components. by spare. Qed.
Lemma sparing_parent path : sparing T (safe_parent_open path).
Proof. pose proof sparing_components. unfold safe_parent_open. spare. Qed.
Lemma sparing_regular_or_absent name : sparing T (validate_regular_or_absent name).
Proof. unfold validate_regular_or_absent. spare. Qed.
Lemma sparing_open_regular i : sparing T (validate_open_regular i).
Proof. unfold validate_open_regular. spare. Qed.
#[local] Hint Resolve sparing_parent sparing_regular_or_absent sparing_open_regular : sparing.
Lemma sparing_open_private i : sparing T (validate_open_private i).
Proof. unfold validate_open_private. spare. Qed.
Lemma sparing_expected_current state : sparing T (validate_expected_current state).
Proof. unfold validate_expected_current. spare. Qed.
Lemma sparing_staged_identity state : sparing T (validate_staged_identity state).
Proof. unfold validate_staged_identity. spare. Qed.
Lemma sparing_acquire name : name ≠ T → sparing T (acquire_at name).
Proof. unfold acquire_at. intros Hn. spare. Qed.
Lemma sparing_existing name i : sparing T (make_existing_entry_private name i).
Proof. unfold make_existing_entry_private. spare. Qed.
#[local] Hint Resolve sparing_open_private : sparing.
Lemma sparing_pin state : sparing T (pin_private_current state).
Proof. unfold pin_private_current. spare. Qed.
Lemma sparing_temporary_name kind : sparing T (random_temporary_name T kind).
Proof. unfold random_temporary_name. spare. Qed.
#[local] Hint Resolve sparing_pin sparing_existing sparing_temporary_name : sparing.
Lemma sparing_remove {E} name : name ≠ T → sparing T (remove_entry_if_present name : IO E unit).
Proof. unfold remove_entry_if_present. intros Hn. spare. Qed.
Lemma sparing_remove_entry name : name ≠ T → sparing T (remove_entry name).
Proof. unfold remove_entry. intros Hn. spare. Qed.
#[local] Hint Resolve sparing_remove sparing_remove_entry : sparing.
Lemma sparing_drop {E} state : Named T state → sparing T (drop_state state : IO E unit).
Proof. intros [_ _ [random Ht]]. unfold drop_state. rewrite Ht. spare. Qed.
#[local] Hint Resolve sparing_drop : sparing.
Definition made_up (kind : str) (name : Name) : Prop := ∃ random, name = temporary_name_of T kind random.
Lemma made_up_ne kind name : made_up kind name → name ≠ T.
Proof. intros [random ->]. apply temporary_name_ne. Qed.
Lemma answers_temporary_name kind : answers (made_up kind) (random_temporary_name T kind).
Proof. intros r. destruct r as [random|e]; [|done]. intros a [= <-]. by exists random. Qed.
#[local] Hint Resolve made_up_ne : sparing.
Lemma sparing_link attempts state i : target state = T →
  sparing T (create_predecessor_link attempts state i) ∧
  answers (made_up (lit "previous")) (create_predecessor_link attempts state i).
Proof.
  intros Ht. induction attempts as [|n [IHs IHa]]; [done|].
  unfold create_predecessor_link; fold create_predecessor_link. rewrite Ht. split.
  - eapply calling_bind_answers; [apply sparing_temporary_name|apply answers_temporary_name|].
    intros name Hn%made_up_ne. spare.
  - eapply answers_bind; [apply answers_temporary_name|]. intros name Hn [[]|e]; [|by destruct e].
    eapply answers_bind; [apply answers_any|]. intros linked _.
    eapply answers_bind; [apply answers_any|]. intros current _.
    destruct (_ || _); [|by intros a [= <-]]. eapply answers_bind; [apply answers_any|done].
Qed.
Lemma sparing_predecessor_link state i : Named T state → sparing T (replace_predecessor_link state i).
Proof.
  intros [Ht Hp _]. destruct (sparing_link UNIQUE_NAME_ATTEMPTS state i Ht) as [Hs Ha].
  eapply calling_bind_answers; [exact Hs|exact Ha|]. intros name Hn%made_up_ne. rewrite Hp.
  spare. split; [done|]. apply previous_ne.
Qed.
End spared.
#[global] Hint Resolve sparing_parent sparing_regular_or_absent sparing_open_regular sparing_open_private
  sparing_expected_current sparing_staged_identity sparing_acquire sparing_existing sparing_pin
  sparing_temporary_name sparing_remove sparing_remove_entry sparing_drop sparing_predecessor_link : sparing.
Lemma sparing_publish T state : Named T state → sparing T (publish_predecessor state).
Proof. intros Hn. unfold publish_predecessor. spare. Qed.

(** ** The invariants of a write *)

(** A file with given contents, written to disk. *)
Definition durable (fs : Fs) (i : nat) (contents : list Z) : Prop :=
  ∃ f, files fs !! i = Some f ∧ synced f = true ∧ data f = contents.

(** [old]: the file [target] names at first; [held]: files that are on disk.
    Throughout, [target] stays with the old file or goes to one of [fresh]. *)
Section invariant.
Context (target : Name) (old : option nat) (held fresh : nat → list Z → Prop).
Definition undecided (fs : Fs) (e : gmap Name nat) : Prop :=
  e !! target = old ∨ ∃ i contents, e !! target = Some i ∧ fresh i contents ∧ durable fs i contents.
Record Keeps (fs : Fs) : Prop := {
  keeps_now : entries fs ∈ history fs;
  keeps_undecided : ∀ e, e ∈ history fs → undecided fs e;
  keeps_held : ∀ i contents, held i contents → durable fs i contents;
}.

(** A change that leaves [target] and the files on disk alone. *)
Record aside (fs fs' : Fs) : Prop := {
  aside_target : entries fs' !! target = entries fs !! target;
  aside_history : ∀ e, e ∈ history fs' → e ∈ history fs ∨ e = entries fs';
  aside_now : entries fs ∈ history fs → entries fs' ∈ history fs';
  aside_durable : ∀ i contents, durable fs i contents → durable fs' i contents;
}.
Lemma keeps_aside fs fs' : Keeps fs → aside fs fs' → Keeps fs'.
Proof.
  intros [Hn Hu Hh] [Ht Hy Hn' Hd]. assert (Hm : ∀ e, undecided fs e → undecided fs' e).
  { intros e [He|(i & c & He & Hf & Hc)]; [by left|right]. exists i, c. auto. }
  split; [by auto| |by auto]. intros e He. destruct (Hy e He) as [He'| ->]; [by auto|].
  apply Hm. unfold undecided. rewrite Ht. by apply Hu.
Qed.
End invariant.

Lemma durable_changed i g fs fs' j contents :
  (∀ f, i = j → data (g f) = data f ∧ (synced f = true → synced (g f) = true)) →
  changed i g fs fs' → durable fs j contents → durable fs' j contents.
Proof.
  intros Hg (f & Hf & ->) (h & Hh & Hs & Hd). unfold durable. cbn. destruct (decide (i = j)) as [<-|Hj].
  - assert (h = f) as -> by congruence. destruct (Hg f eq_refl) as [Hgd Hgs].
    exists (g f). rewrite lookup_insert_eq. split; [done|]. split; [auto|congruence].
  - exists h. by rewrite lookup_insert_ne.
Qed.
Lemma aside_refl T fs : aside T fs fs.
Proof. split; auto. Qed.
Lemma aside_changed T i g fs fs' :
  (∀ f, data (g f) = data f ∧ (synced f = true → synced (g f) = true)) →
  changed i g fs fs' → aside T fs fs'.
Proof.
  intros Hg Hc. split.
  - by destruct Hc as (f & _ & ->).
  - destruct Hc as (f & _ & ->). auto.
  - by destruct Hc as (f & _ & ->).
  - intros j c. by eapply durable_changed.
Qed.
Lemma aside_entries T e fs : e !! T = entries fs !! T → aside T fs (set_entries e fs).
Proof.
  intros He. split; cbn; [done| |by left|done].
  intros e' [->|?]%elem_of_cons; auto.
Qed.
Lemma aside_created T name i fs fs' : name ≠ T → created name i fs fs' → aside T fs fs'.
Proof.
  intros Hn (He & Hf & m & _ & ->). split; cbn.
  - by rewrite lookup_insert_ne.
  - intros e [->|?]%elem_of_cons; auto.
  - intros _. by left.
  - intros j c (f & Hj & Hc). exists f. cbn. rewrite lookup_insert_ne by congruence. done.
Qed.
Lemma spares_aside {R} T (call : Syscall R) fs r fs' : spares T call → posix call fs r fs' → aside T fs fs'.
Proof.
  intros Hs Hp. destruct call; cbn in Hs, Hp; try (destruct Hp as [_ ->]; apply aside_refl);
    try (rewrite Hp; apply aside_refl); try (destruct Hp as [-> _]; apply aside_refl);
    try (destruct r; [|rewrite Hp; apply aside_refl]); try done.
  - destruct Hp as [[_ ->]|Hc]; [apply aside_refl|by eapply aside_created].
  - by eapply aside_created.
  - eapply aside_changed; [|exact Hp]. done.
  - rewrite Hp. split; cbn; auto.
  - rewrite Hp. split; cbn; auto.
  - eapply aside_changed; [|exact Hp]. done.
  - rewrite Hp. split; cbn; [done| |by left|done]. intros e ->%list_elem_of_singleton. by right.
  - destruct Hp as (i & Hi & Hp). case_decide; rewrite Hp; [apply aside_refl|]. destruct Hs as [Hs Hd].
    apply aside_entries. by rewrite lookup_insert_ne, lookup_delete_ne.
  - destruct Hp as (i & Hi & Hd & ->). apply aside_entries. by rewrite lookup_insert_ne.
  - destruct r as [[]|e]; [|destruct Hp as [-> _]; apply aside_refl]. destruct Hp as [_ ->].
    apply aside_entries. by rewrite lookup_delete_ne.
Qed.

Lemma fwp_spare {E A} T old held fresh (m : IO E A) fs :
  sparing T m → Keeps T old held fresh fs → fwp (Keeps T old held fresh) m (λ _ _, True) fs.
Proof.
  revert fs. induction m as [r|R call next IH]; intros fs Hm HI; cbn in Hm |- *; (split; [done|]); [done|].
  destruct Hm as [Hs Hn]. intros r fs' Hr. apply IH; [by apply Hn|]. eapply keeps_aside; [done|by eapply spares_aside].
Qed.
Lemma fwp_weaken {A} (I I' : Fs → Prop) (p : Prog A) Q fs : (∀ fs, I fs → I' fs) → fwp I p Q fs → fwp I' p Q fs.
Proof.
  intros HI. revert fs. induction p as [a|T call next IH]; intros fs [? Hp]; (split; [by apply HI|]); [done|].
  intros r fs' Hr. by apply IH, Hp.
Qed.
Lemma fwp_and {A} (I I' : Fs → Prop) (p : Prog A) Q Q' fs :
  fwp I p Q fs → fwp I' p Q' fs → fwp (λ fs, I fs ∧ I' fs) p (λ a fs, Q a fs ∧ Q' a fs) fs.
Proof.
  revert fs. induction p as [a|T call next IH]; intros fs [? Hp] [? Hp']; (split; [done|]); [done|].
  intros r fs' Hr. by apply IH; [apply Hp|apply Hp'].
Qed.
Lemma fwp_answers {E A} I P (m : IO E A) Q fs :
  answers P m → fwp I m Q fs → fwp I m (λ r fs', Q r fs' ∧ ∀ a, r = Ok a → P a) fs.
Proof.
  intros HP. revert fs. induction m as [r|R call next IH]; intros fs [HI Hm]; (split; [done|]); [done|].
  intros r fs' Hr. by apply IH, Hm.
Qed.
Lemma fwp_step {E A B} I (m : IO E A) (k : A → IO E B) P (Q : Result E B → Fs → Prop) fs :
  fwp I m P fs →
  (∀ a fs', I fs' → P (Ok a) fs' → fwp I (k a) Q fs') → (∀ e fs', I fs' → P (Err e) fs' → Q (Err e) fs') →
  fwp I (m ≫= k) Q fs.
Proof.
  intros Hm Hk He. apply fwp_bind. eapply fwp_mono; [exact Hm|]. intros [a|e] fs' HI HP; [by apply Hk|by apply He].
Qed.

Section stage.
Context (T : Name) (old : option nat) (held : nat → list Z → Prop).
Context (Hold : ∀ i, old = Some i → ∃ c, held i c).
Local Notation J := (Keeps T old held (λ _ _, False)).

Lemma keeps_old fs : J fs → entries fs !! T = old.
Proof. intros [Hn Hu _]. destruct (Hu _ Hn) as [?|(i & c & _ & [] & _)]; done. Qed.
(** A new empty file, of no consequence yet. *)
Definition blank (i : nat) (fs : Fs) : Prop :=
  (∃ f, files fs !! i = Some f ∧ data f = []) ∧ ∀ c, ¬ held i c.
Lemma keeps_changed i g fs fs' : (∀ c, ¬ held i c) → J fs → changed i g fs fs' → J fs'.
Proof.
  intros Hi [Hn Hu Hh] Hc. pose proof Hc as (f & Hf & He). split.
  - by rewrite He.
  - intros e Hx. rewrite He in Hx. destruct (Hu e Hx) as [?|(j & c & _ & [] & _)]. by left.
  - intros j c Hj. eapply durable_changed; [|exact Hc|by apply Hh]. intros f' <-. destruct (Hi c Hj).
Qed.
Lemma fwp_new_temporary attempts fs : J fs →
  fwp J (create_new_temporary attempts T) (λ r fs', ∀ name i, r = Ok (name, i) →
    made_up T (lit "new") name ∧ blank i fs') fs.
Proof.
  revert fs. induction attempts as [|n IH]; intros fs HJ; [by apply fwp_ret|].
  unfold create_new_temporary; fold create_new_temporary.
  apply fwp_bind, fwp_op; [done|]. intros r fs' [-> _].
  destruct r as [random|e]; apply fwp_ret; [done| |done|done].
  apply fwp_op; [done|]. intros [i|e] fs'' Hr.
  - assert (HJ' : J fs''). { eapply keeps_aside; [done|]. eapply aside_created; [apply temporary_name_ne|exact Hr]. }
    apply fwp_ret; [done|]. intros name j [= <- <-]. split; [by eexists|].
    destruct Hr as (_ & Hf & m & _ & ->). split; [by eexists; cbn; rewrite lookup_insert_eq|].
    intros c Hc. destruct (keeps_held _ _ _ _ _ HJ i c Hc) as (f & Hf' & _). congruence.
  - rewrite Hr. destruct e; [by apply fwp_ret|by apply IH|by apply fwp_ret..].
Qed.
Lemma fwp_write_staged i contents fs : J fs → blank i fs →
  fwp J (write_staged i contents) (λ r fs', r = Ok tt → durable fs' i contents) fs.
Proof.
  intros HJ [(f & Hf & Hd) Hi]. unfold write_staged.
  apply fwp_bind, fwp_try; [done|]. intros [u|e] fs1 H1; [|by rewrite H1].
  pose proof (keeps_changed _ _ _ _ Hi HJ H1) as HJ1. split; [done|]. destruct H1 as (f1 & Hf1 & ->).
  apply fwp_bind, fwp_try; [done|]. intros [u2|e] fs2 H2.
  2:{ split; [|done]. destruct H2 as [->|[written H2]]; [done|by eapply keeps_changed]. }
  pose proof (keeps_changed _ _ _ _ Hi HJ1 H2) as HJ2. split; [done|].
  destruct H2 as (f2 & Hf2 & ->). cbn in Hf2. rewrite lookup_insert_eq in Hf2. injection Hf2 as <-.
  apply fwp_try; [done|]. intros [v|e] fs3 H3; [|by rewrite H3].
  split; [by eapply keeps_changed|]. intros _. destruct H3 as (f3 & Hf3 & ->).
  cbn in Hf3. rewrite lookup_insert_eq in Hf3. injection Hf3 as <-. eexists. cbn. rewrite lookup_insert_eq.
  split; [done|]. split; [done|]. cbn. assert (f1 = f) as -> by congruence. by rewrite Hd.
Qed.
(** A clean-up that spares the target, run on failure only. *)
Lemma fwp_or_clean {E A} (m : IO E A) cleanup (Q : A → Fs → Prop) fs :
  (∀ e, sparing T (cleanup (Err e))) → (∀ a, cleanup (Ok a) = Ret (Ok tt)) →
  fwp J m (λ r fs', ∀ a, r = Ok a → Q a fs') fs →
  fwp J (io_finally m cleanup) (λ r fs', ∀ a, r = Ok a → Q a fs') fs.
Proof.
  intros Hs Hc Hm. apply fwp_finally. eapply fwp_mono; [exact Hm|]. intros [a|e] fs' HJ HQ.
  - rewrite Hc. by apply fwp_ret.
  - eapply fwp_mono; [by apply fwp_spare|]. done.
Qed.
Definition staged (contents : list Z) (state : WriteState) (fs : Fs) : Prop :=
  Named T state ∧ durable fs (temporary_file state) contents.
Lemma fwp_stage_locked parent contents fs : file_name parent = T → J fs →
  fwp J (stage_locked parent contents) (λ r fs', ∀ state, r = Ok state → staged contents state fs') fs.
Proof.
  intros Hpar HJ. unfold stage_locked. rewrite Hpar.
  eapply fwp_step; [apply fwp_spare; [spare|done]| |done]. clear dependent fs. intros r1 fs HJ _.
  eapply fwp_step; [apply fwp_spare; [spare|done]| |done]. clear dependent fs. intros r2 fs HJ _.
  eapply fwp_step; [by apply fwp_new_temporary| |done]. clear dependent fs. intros [name i] fs HJ Hq.
  destruct (Hq name i eq_refl) as [Hn Hb].
  eapply fwp_step.
  { eapply (fwp_or_clean _ _ (λ _ fs', durable fs' i contents)); [|done|].
    - intros e. pose proof (made_up_ne _ _ _ Hn). spare.
    - eapply fwp_mono; [by apply fwp_write_staged|]. intros r fs' _ Hd [] Ha. by apply Hd. }
  2:{ intros e fs' _ _ state [=]. }
  intros [] fs1 HJ1 Hd. specialize (Hd tt eq_refl).
  eapply fwp_step.
  { eapply (fwp_or_clean _ _ (λ _ fs', durable fs' i contents)); [|done|].
    - intros e. pose proof (made_up_ne _ _ _ Hn). spare.
    - eapply fwp_mono; [by apply looks_staged_identity|]. intros r fs' _ [-> _] a _. done. }
  2:{ intros e fs' _ _ state [=]. }
  intros [] fs2 HJ2 Hd2. apply fwp_ret; [done|]. intros state [= <-].
  split; [|by apply (Hd2 tt)]. split; [done|done|]. destruct Hn as [random ->]. by exists random.
Qed.
Lemma names_fun path name name' : names path name → names path name' → name = name'.
Proof. intros (l & Hl & Hn) (l' & Hl' & Hn'). congruence. Qed.
Lemma fwp_stage_write path contents fs : names path T → J fs →
  fwp J (stage_write path contents) (λ r fs', ∀ state, r = Ok state → staged contents state fs') fs.
Proof.
  intros Hp HJ. unfold stage_write.
  eapply fwp_looks; [apply looks_map_err, looks_parent|done| |done].
  intros parent Hpar. pose proof (names_fun _ _ _ Hp Hpar) as Hn. rewrite <-Hn.
  eapply fwp_step; [apply fwp_spare; [spare|done]| |done]. intros u fs' HJ' _.
  apply fwp_or_clean; [intros e; unfold drop_lock_on_error; spare|done|]. by apply fwp_stage_locked.
Qed.
End stage.

(** ** The predecessor *)

(** The directory is on disk and [name] is the file [i]. *)
Definition settled (name : Name) (i : nat) (fs : Fs) : Prop :=
  history fs = [entries fs] ∧ entries fs !! name = Some i.

Section entry.
Context (T : Name) (old : option nat) (held fresh : nat → list Z → Prop).
Local Notation I := (Keeps T old held fresh).
Lemma fwp_spare_entry {E A} name o (m : IO E A) fs :
  sparing T m → sparing name m → I fs → entries fs !! name = o → fwp I m (λ _ fs', entries fs' !! name = o) fs.
Proof.
  revert fs. induction m as [r|R call next IH]; intros fs Hm Hm' HI He; cbn in Hm, Hm' |- *; (split; [done|]); [done|].
  destruct Hm as [Hs Hn], Hm' as [Hs' Hn']. intros r fs' Hr. apply IH; [by apply Hn|by apply Hn'| |].
  - eapply keeps_aside; [done|by eapply spares_aside].
  - by rewrite (aside_target _ _ _ (spares_aside _ _ _ _ _ Hs' Hr)).
Qed.
Lemma fwp_sync_entries {E} (f : Errno → E) name i fs : I fs → entries fs !! name = Some i →
  fwp I (io_try SyncDir f) (λ r fs', ∀ a, r = Ok a → settled name i fs') fs.
Proof.
  intros HI He. apply fwp_try; [done|]. intros r fs' Hr. split.
  - eapply keeps_aside; [done|]. by eapply (spares_aside T SyncDir).
  - destruct r as [[]|e]; [|done]. intros _ _. by rewrite Hr.
Qed.
End entry.
Arguments fwp_spare_entry {T old held fresh E A} name.
Arguments fwp_sync_entries {T old held fresh E} f name i.

Section predecessor.
Context (T : Name) (old : option nat) (held : nat → list Z → Prop).
Local Notation J := (Keeps T old held (λ _ _, False)).

Lemma fwp_predecessor_link state i fs : Named T state → J fs →
  fwp J (replace_predecessor_link state i) (λ r fs', ∀ a, r = Ok a → settled (previous_name state) i fs') fs.
Proof.
  intros Hn HJ. pose proof Hn as [Ht Hp _]. destruct (sparing_link T UNIQUE_NAME_ATTEMPTS state i Ht) as [Hs Ha].
  eapply fwp_step; [eapply fwp_answers; [exact Ha|by apply fwp_spare]| |done].
  intros name fs1 HJ1 [_ Hname]. specialize (Hname name eq_refl). apply made_up_ne in Hname. rewrite Hp.
  eapply fwp_step; [apply fwp_spare; [spare; split; [done|apply previous_ne]|done]| |done]. intros r1 fs2 HJ2 _.
  eapply fwp_step; [apply fwp_spare; [spare|done]| |done]. intros r2 fs3 HJ3 _.
  eapply fwp_looks; [apply looks_fstatat|done| |done]. intros st (j & Hj & f & _ & ->).
  destruct (Nat.eqb_spec j i) as [->|Hji]; cbn [negb st_ino]; rewrite ?Nat.eqb_refl; cbn [negb].
  - by apply fwp_sync_entries.
  - rewrite (proj2 (Nat.eqb_neq j i) Hji). by apply fwp_ret.
Qed.
(** The rest of [publish_predecessor], the current file [i] being open. *)
Lemma fwp_publish_current state (previous : option Stat) i fs :
  Named T state → J fs → entries fs !! previous_name state = st_ino <$> previous →
  fwp J (io_try (Fchmod i PRIVATE_FILE_MODE) (Io (lit "set private permissions on current file for")) ;;
         io_try (SyncFile i) (Io (lit "sync current file for")) ;;
         if bool_decide (st_ino <$> previous = Some i) then
           io_try SyncDir (Io (lit "sync existing predecessor directory for")) ;; mret (Some i)
         else replace_predecessor_link state i ;; mret (Some i))
    (λ r fs', ∀ e, r = Ok e → e = Some i ∧ settled (previous_name state) i fs') fs.
Proof.
  intros Hn HJ Hp.
  eapply fwp_step; [apply (fwp_spare_entry (previous_name state)); [spare|spare|done|done]| |done].
  intros r1 fs1 HJ1 Hp1.
  eapply fwp_step; [apply (fwp_spare_entry (previous_name state)); [spare|spare|done|done]| |done].
  intros r2 fs2 HJ2 Hp2. case_bool_decide as Hi.
  - eapply fwp_step; [apply (fwp_sync_entries _ (previous_name state) i); [done|congruence]| |done].
    intros r3 fs3 HJ3 Hs. apply fwp_ret; [done|]. intros e [= <-]. split; [done|]. by apply (Hs r3).
  - eapply fwp_step; [by apply fwp_predecessor_link| |done].
    intros r3 fs3 HJ3 Hs. apply fwp_ret; [done|]. intros e [= <-]. split; [done|]. by apply (Hs r3).
Qed.
Lemma fwp_publish state fs : Named T state → J fs →
  fwp J (publish_predecessor state)
    (λ r fs', ∀ e, r = Ok e → e = old ∧ ∀ i, e = Some i → settled (previous_name state) i fs') fs.
Proof.
  intros Hn HJ. unfold publish_predecessor.
  eapply fwp_looks; [apply looks_map_err, looks_regular_or_absent|done| |done]. intros previous Hprev.
  assert (Hp : entries fs !! previous_name state = st_ino <$> previous).
  { destruct previous as [st|]; [|done]. by destruct Hprev as (i & -> & (f & _ & ->) & _). }
  eapply fwp_step; [apply (fwp_spare_entry (previous_name state)); [spare|spare|done|exact Hp]| |done].
  intros r1 fs1 HJ1 Hp1.
  eapply fwp_looks; [apply looks_map_err, looks_regular_or_absent|done| |done].
  rewrite (named_target _ _ Hn). intros [named|] Hcur.
  - eapply fwp_looks; [apply looks_open|done| |done]. intros i Hi.
    eapply fwp_looks; [apply looks_map_err, looks_open_regular|done| |done]. intros r2 _.
    eapply fwp_looks; [apply looks_fstat|done| |done]. intros st (f & _ & ->). cbn [st_ino].
    destruct (negb _); [by apply fwp_ret|].
    eapply fwp_mono; [by apply fwp_publish_current|]. intros r fs' _ Hr e He. destruct (Hr e He) as [-> Hs].
    rewrite <-(keeps_old _ _ _ _ HJ1), Hi. split; [done|]. by intros j [= <-].
  - apply fwp_ret; [done|]. intros e [= <-]. rewrite <-(keeps_old _ _ _ _ HJ1), Hcur. done.
Qed.
End predecessor.

(** ** The commit *)

Section commit.
Context (T : Name) (old : option nat) (held : nat → list Z → Prop) (j : nat) (contents : list Z).
Context (Hj : held j contents).
Local Notation J := (Keeps T old held (λ _ _, False)).
Local Notation I := (Keeps T old held (λ i c, i = j ∧ c = contents)).

Lemma keeps_started fs : J fs → I fs.
Proof.
  intros [Hn Hu Hh]. split; [done| |done]. intros e He. destruct (Hu e He) as [?|(i & c & _ & [] & _)]. by left.
Qed.
(** The renaming of the temporary name, as the directory shows it. *)
Definition replaced (before after : gmap Name nat) : Prop :=
  ∃ name, name ≠ T ∧ before !! name = Some j ∧
    after = if decide (before !! T = Some j) then before else <[T := j]> (delete name before).
Lemma replaced_target before after : replaced before after → after !! T = Some j.
Proof. intros (name & _ & _ & ->). case_decide; [done|apply lookup_insert_eq]. Qed.
Lemma keeps_renamed name fs fs' : J fs → name ≠ T → entries fs !! name = Some j →
  posix (Renameat name T) fs (Ok tt) fs' → I fs' ∧ replaced (entries fs) (entries fs').
Proof.
  intros HJ Hne He (i & Hi & Hfs). assert (i = j) as -> by congruence. pose proof (keeps_started fs HJ) as [Hn Hu Hh].
  split; [|exists name; split; [done|]; split; [done|]; case_decide; by rewrite Hfs].
  case_decide as Ht; rewrite Hfs; [done|].
  split; cbn; [by left| |done]. intros e [->|Hx]%elem_of_cons; [|by apply Hu].
  right. exists j, contents. rewrite lookup_insert_eq. split; [done|]. split; [done|]. by apply Hh.
Qed.
Lemma fwp_install state fs : Named T state → temporary_file state = j → J fs →
  fwp I (install state) (λ r fs', r = Ok tt → replaced (entries fs) (entries fs')) fs.
Proof.
  intros Hn Htmp HJ. pose proof (keeps_started fs HJ) as HI. unfold install.
  eapply fwp_looks; [apply looks_expected_current|done| |done]. intros _ _.
  eapply fwp_looks; [apply looks_staged_identity|done| |done]. intros _ (name & Hname & He). rewrite Hname.
  destruct (named_temporary _ _ Hn) as [random Hr]. assert (Hne : name ≠ T).
  { assert (name = temporary_name_of T (lit "new") random) as -> by congruence. apply temporary_name_ne. }
  rewrite (named_target _ _ Hn). rewrite Htmp in He.
  apply fwp_try; [done|]. intros [[]|e] fs' Hr'.
  - by destruct (keeps_renamed _ _ _ HJ Hne He Hr').
  - by rewrite Hr'.
Qed.
Lemma fwp_commit state fs : Named T state → temporary_file state = j → J fs →
  fwp I (commit state) (λ r fs', r = Ok tt → settled T j fs' ∧ replaced (entries fs) (entries fs')) fs.
Proof.
  intros Hn Htmp HJ. unfold commit.
  eapply (fwp_step _ _ _ (λ r fs', r = Ok tt → replaced (entries fs) (entries fs'))).
  { apply fwp_finally. eapply fwp_mono; [by apply fwp_install|]. intros [[]|e] fs' HI He; [by apply fwp_ret|].
    eapply fwp_mono; [apply fwp_spare; [spare|done]|]. done. }
  2:{ done. }
  intros [] fs1 HI He. specialize (He eq_refl). pose proof (replaced_target _ _ He) as Ht. apply fwp_finally.
  apply fwp_try; [done|]. intros r fs2 Hr. assert (HI2 : I fs2).
  { eapply keeps_aside; [done|]. by eapply (spares_aside T SyncDir). }
  split; [done|]. unfold drop_state, forget_temporary. cbn [temporary_name]. apply fwp_bind, fwp_ret; [done|].
  apply fwp_io_call; [done|]. intros u fs3 Hu. split.
  - eapply keeps_aside; [done|]. by eapply (spares_aside T Unlock).
  - intros Hok. destruct r as [[]|e]; [|done]. rewrite Hu, Hr. done.
Qed.
End commit.

Lemma previous_made_up T random : temporary_name_of T (lit "new") random ≠ suffixed_name T (lit ".previous").
Proof.
  intros He. pose proof (temporary_name_length T (lit "new") random) as Hl. rewrite He in Hl.
  unfold suffixed_name in Hl. rewrite length_app in Hl. cbn in Hl. lia.
Qed.
Lemma sparing_commit T state : Named T state → sparing (previous_name state) (commit state).
Proof.
  intros [Ht Hp [random Hr]]. rewrite Hp. pose proof (previous_made_up T random) as H1.
  pose proof (previous_ne T) as H2. unfold commit, install, drop_state, forget_temporary. rewrite Hr, Ht.
  cbn [temporary_name]. spare. done.
Qed.
Lemma named_expected T state e : Named T state → Named T (with_expected e state).
Proof. by intros []. Qed.
Lemma fwp_prepare T old held state fs : Named T state → Keeps T old held (λ _ _, False) fs →
  fwp (Keeps T old held (λ _ _, False)) (prepare state) (λ r fs', ∀ state', r = Ok state' →
    state' = with_expected old state ∧ ∀ i, old = Some i → settled (previous_name state) i fs') fs.
Proof.
  intros Hn HJ. eapply fwp_step.
  { apply (fwp_or_clean _ _ _ _ _ (λ e fs', e = old ∧ ∀ i, old = Some i → settled (previous_name state) i fs')); [|done|].
    - intros e. spare.
    - eapply fwp_mono; [by apply fwp_publish|]. intros r fs' _ Hr e He. destruct (Hr e He) as [-> Hs]. done. }
  2:{ done. }
  intros e fs1 HJ1 Hs. destruct (Hs e eq_refl) as [-> Hs']. apply fwp_ret; [done|]. by intros state' [= <-].
Qed.

(** ** Whole writes *)

(** What [target] names is on disk, in the directory and in the file: as after a
    write, and still so when other names have changed since. *)
Record at_rest (target : Name) (fs : Fs) : Prop := {
  rest_now : entries fs ∈ history fs;
  rest_history : ∀ e, e ∈ history fs → e !! target = entries fs !! target;
  rest_durable : ∀ i, entries fs !! target = Some i → ∃ contents, durable fs i contents;
}.

Lemma read_durable_at fs name i c : entries fs !! name = Some i → durable fs i c → read_entry fs name = Some c.
Proof. intros He (f & Hf & _ & <-). unfold read_entry. rewrite He. cbn. by rewrite Hf. Qed.

(** A name that is settled, after a crash. *)
Lemma image_durable fs image i c : crash fs image → durable fs i c → image_data image i = c.
Proof. intros [_ Hd] (f & Hf & Hs & <-). by apply Hd. Qed.
Lemma keeps_image name i held fs image c : Keeps name (Some i) held (λ _ _, False) fs → held i c →
  crash fs image → image_read image name = Some c.
Proof.
  intros [_ Hu Hh] Hc Hcr. destruct (proj1 Hcr name) as (e & He & Hi).
  destruct (Hu e He) as [Ho|(k & c' & _ & [] & _)]. unfold image_read. rewrite Hi, Ho. cbn. f_equal.
  eapply image_durable; [done|]. by apply Hh.
Qed.
Lemma settled_image name i fs image c : settled name i fs → durable fs i c → crash fs image →
  image_read image name = Some c.
Proof.
  intros [Hh He] Hd Hcr. destruct (proj1 Hcr name) as (e & Hin & Hi). rewrite Hh in Hin.
  apply list_elem_of_singleton in Hin as ->. unfold image_read. rewrite Hi, He. cbn. f_equal. by eapply image_durable.
Qed.
Lemma settled_at_rest name i fs c : settled name i fs → durable fs i c → at_rest name fs.
Proof.
  intros [Hh He] Hd. split; [rewrite Hh; by left| |].
  - intros e Hx. rewrite Hh in Hx. by apply list_elem_of_singleton in Hx as ->.
  - intros k Hk. exists c. by assert (k = i) as -> by congruence.
Qed.

Section writes.
Context (T : Name) (contents : list Z) (fs0 : Fs).
Local Notation old := (entries fs0 !! T).
Local Notation prev := (suffixed_name T (lit ".previous")).
Definition held0 (i : nat) (c : list Z) : Prop := old = Some i ∧ durable fs0 i c.
Definition held1 (j : nat) (i : nat) (c : list Z) : Prop := held0 i c ∨ i = j ∧ c = contents.
Local Notation J0 := (Keeps T old held0 (λ _ _, False)).
Local Notation J1 j := (Keeps T old (held1 j) (λ _ _, False)).
Local Notation I j := (Keeps T old (held1 j) (λ i c, i = j ∧ c = contents)).

Lemma keeps_initial : at_rest T fs0 → J0 fs0.
Proof.
  intros [Hn Hh Hd]. split; [done| |by intros i c [_ Hc]]. intros e He. left. by apply Hh.
Qed.
Lemma keeps_more j fs : J0 fs → durable fs j contents → J1 j fs.
Proof.
  intros [Hn Hu Hh] Hd. split; [done|exact Hu|]. intros i c [Hc|[-> ->]]; [by apply Hh|done].
Qed.
Lemma keeps_less j fs : J1 j fs → J0 fs.
Proof. intros [Hn Hu Hh]. split; [done|exact Hu|]. intros i c Hc. apply Hh. by left. Qed.
Lemma keeps_predecessor j fs : J1 j fs → (∀ i, old = Some i → settled prev i fs) →
  ∀ i, old = Some i → Keeps prev (Some i) (held1 j) (λ _ _, False) fs.
Proof.
  intros [Hn Hu Hh] Hs i Hi. destruct (Hs i Hi) as [Hy He]. split; [done| |done].
  intros e Hx. rewrite Hy in Hx. apply list_elem_of_singleton in Hx as ->. by left.
Qed.

(** What holds at every moment of a write: [target] is as it was, or new with
    the predecessor in place. *)
Record Safe (fs : Fs) : Prop := {
  safe_target : Keeps T old held0 (λ _ c, c = contents) fs;
  safe_predecessor : (∀ e, e ∈ history fs → e !! T = old) ∨
    ∀ i, old = Some i → Keeps prev (Some i) held0 (λ _ _, False) fs;
}.
Lemma safe_before fs : J0 fs → Safe fs.
Proof.
  intros [Hn Hu Hh]. assert (Ht : ∀ e, e ∈ history fs → e !! T = old).
  { intros e He. destruct (Hu e He) as [?|(i & c & _ & [] & _)]. done. }
  split; [|by left]. split; [done| |done]. intros e He. left. by apply Ht.
Qed.
Lemma safe_committing j fs : I j fs → (∀ i, old = Some i → Keeps prev (Some i) (held1 j) (λ _ _, False) fs) → Safe fs.
Proof.
  intros [Hn Hu Hh] Hp. assert (Hless : ∀ i c, held0 i c → durable fs i c).
  { intros i c Hc. apply Hh. by left. }
  split.
  - split; [done| |done]. intros e He. destruct (Hu e He) as [?|(i & c & Hi & [_ Hc] & Hd)]; [by left|].
    right. by exists i, c.
  - right. intros i Hi. destruct (Hp i Hi) as [Hn' Hu' _]. by split.
Qed.
(** An invariant for each value, all at once. *)
Lemma fwp_all {A X} (I : Fs → Prop) (I' : X → Fs → Prop) (p : Prog A) Q Q' fs :
  fwp I p Q fs → (∀ x, fwp (I' x) p (Q' x) fs) →
  fwp (λ fs, I fs ∧ ∀ x, I' x fs) p (λ a fs, Q a fs ∧ ∀ x, Q' x a fs) fs.
Proof.
  revert fs. induction p as [a|R call next IH]; intros fs [HI Hp] Hp'.
  - split; [|split; [done|]]; [split; [done|]|]; intros x; by destruct (Hp' x).
  - split; [split; [done|]; intros x; by destruct (Hp' x)|].
    intros r fs' Hr. apply IH; [by apply Hp|]. intros x. by apply Hp'.
Qed.
Lemma fwp_commit_safe j state fs : Named T state → temporary_file state = j → J1 j fs →
  (∀ i, old = Some i → settled prev i fs) →
  fwp Safe (commit state) (λ r fs', r = Ok tt → settled T j fs' ∧ durable fs' j contents ∧
    ∀ i, old = Some i → entries fs' !! prev = Some i) fs.
Proof.
  intros Hn Htmp HJ Hs. pose proof (keeps_predecessor j fs HJ Hs) as Hk.
  assert (Hall : fwp (λ fs, I j fs ∧ ∀ x : { i | old = Some i }, Keeps prev (Some (`x)) (held1 j) (λ _ _, False) fs)
    (commit state) (λ r fs', (r = Ok tt → settled T j fs' ∧ replaced T j (entries fs) (entries fs')) ∧ ∀ x : { i | old = Some i }, True) fs).
  { apply (fwp_all _ _ _ _ (λ _ _ _, True)); [by apply fwp_commit; [right| | |]|]. intros [i Hi].
    apply fwp_spare; [|by apply Hk]. rewrite <-(named_previous _ _ Hn). by eapply sparing_commit. }
  eapply fwp_mono.
  - eapply fwp_weaken; [|eapply fwp_mono; [exact Hall|]].
    + intros fs' [HI Hx]. apply (safe_committing j); [done|]. intros i Hi. apply (Hx (exist _ i Hi)).
    + intros r fs' [HI Hx] [Hr _]. exact (conj HI (conj Hx Hr)).
  - intros r fs' _ (HI & Hx & Hr) Hok. split; [by apply Hr|]. split; [apply (keeps_held _ _ _ _ _ HI); by right|].
    intros i Hi. apply (keeps_old _ _ _ _ (Hx (exist _ i Hi))).
Qed.
Lemma fwp_atomic_write path : names path T → at_rest T fs0 →
  fwp Safe (atomic_write path contents) (λ r fs', r = Ok tt → ∃ j, settled T j fs' ∧ durable fs' j contents ∧
    ∀ i, old = Some i → entries fs' !! prev = Some i) fs0.
Proof.
  intros Hp Hrest. unfold atomic_write.
  eapply fwp_step.
  { eapply fwp_weaken; [by apply safe_before|]. eapply fwp_mono; [by apply fwp_stage_write, keeps_initial|].
    intros r fs' HJ Hr. exact (conj HJ Hr). }
  2:{ done. }
  intros state fs1 _ [HJ Hstaged]. destruct (Hstaged state eq_refl) as [Hn Hd].
  pose proof (keeps_more (temporary_file state) _ HJ Hd) as HJ1.
  eapply fwp_step.
  { eapply fwp_weaken; [intros fs Hfs; by apply safe_before, (keeps_less (temporary_file state))|].
    eapply fwp_mono; [by apply fwp_prepare|]. intros r fs' HJ' Hr. exact (conj HJ' Hr). }
  2:{ done. }
  intros state' fs2 _ [HJ2 Hprep]. destruct (Hprep state' eq_refl) as [-> Hs].
  eapply fwp_mono; [apply (fwp_commit_safe (temporary_file state)); [by apply named_expected|done|done|]|].
  - by rewrite <-(named_previous _ _ Hn).
  - intros r fs3 _ Hr Hok. exists (temporary_file state). by apply Hr.
Qed.
(** [commit_without_predecessor]: the current file has no other name, and is
    left without any. *)
Definition sole (fs : Fs) (i : nat) : Prop := ∀ name, entries fs !! name = Some i → name = T.
Lemma nlink_one fs i : nlink fs i = 1 → entries fs !! T = Some i → sole fs i.
Proof.
  unfold nlink. intros Hl Ht name Hn. assert (Hs : size (filter (λ e : Name * nat, e.2 = i) (entries fs)) = 1%nat) by lia.
  destruct (decide (name = T)) as [|Hne]; [done|]. exfalso.
  assert (Hsub : {[ T := i; name := i ]} ⊆ filter (λ e : Name * nat, e.2 = i) (entries fs)).
  { apply map_subseteq_spec. intros k x. rewrite lookup_insert_Some, lookup_singleton_Some.
    intros [[<- <-]|[_ [<- <-]]]; by apply map_lookup_filter_Some. }
  apply map_subseteq_size in Hsub. rewrite Hs, map_size_insert_None, map_size_singleton in Hsub; [lia|].
  by apply lookup_singleton_None.
Qed.
Lemma fwp_pin j state fs : Named T state → J1 j fs →
  fwp (J1 j) (pin_without_predecessor state) (λ r fs', ∀ e, r = Ok e → ∀ i, old = Some i → sole fs' i) fs.
Proof.
  intros Hn HJ. unfold pin_without_predecessor.
  eapply fwp_looks; [apply looks_map_err, looks_regular_or_absent|done| |done]. intros [st|] _; [by apply fwp_ret|].
  unfold pin_private_current. rewrite (named_target _ _ Hn).
  eapply fwp_looks; [apply looks_map_err, looks_regular_or_absent|done| |done]. intros [st|] Hst.
  2:{ apply fwp_ret; [done|]. intros e _ i Hi. rewrite <-(keeps_old _ _ _ _ HJ), Hst in Hi. done. }
  eapply fwp_looks; [apply looks_open|done| |done]. intros file Hf.
  eapply fwp_looks; [apply looks_open_private|done| |done]. intros _ (f & Hf1 & _ & _ & Hl & _).
  eapply fwp_looks; [apply looks_fstat|done| |done]. intros st' _. destruct (negb _); [by apply fwp_ret|].
  apply fwp_bind, fwp_try; [done|]. intros r fs1 Hr. assert (HJ1 : J1 j fs1).
  { eapply keeps_aside; [done|]. by eapply (spares_aside T (SyncFile file)). }
  split; [done|]. destruct r as [[]|e]; [|done]. apply fwp_ret; [done|]. intros e _ i Hi.
  assert (i = file) as -> by (rewrite <-(keeps_old _ _ _ _ HJ) in Hi; congruence).
  destruct Hr as (f1 & _ & ->). exact (nlink_one fs file Hl Hf).
Qed.
Lemma replaced_alone j before after i : before !! T = Some i → (∀ name, before !! name = Some i → name = T) →
  replaced T j before after → ∀ name, after !! name ≠ Some i.
Proof.
  intros Hi Hs (tmp & Ht & Hj & ->) name. assert (Hne : i ≠ j) by (intros ->; by apply Ht, Hs).
  case_decide as Hd; [congruence|]. destruct (decide (name = T)) as [->|Hn]; [rewrite lookup_insert_eq; congruence|].
  rewrite lookup_insert_ne by done. intros [_ Hx]%lookup_delete_Some. by apply Hn, Hs.
Qed.
Lemma fwp_without_predecessor path : names path T → at_rest T fs0 →
  fwp (Keeps T old held0 (λ _ c, c = contents)) (atomic_write_without_predecessor path contents)
    (λ r fs', r = Ok tt → ∃ j, settled T j fs' ∧ durable fs' j contents ∧
      ∀ i, old = Some i → ∀ name, entries fs' !! name ≠ Some i) fs0.
Proof.
  intros Hp Hrest. unfold atomic_write_without_predecessor.
  eapply fwp_step.
  { eapply fwp_weaken; [intros fs Hfs; by apply safe_target, safe_before|].
    eapply fwp_mono; [by apply fwp_stage_write, keeps_initial|]. intros r fs' HJ Hr. exact (conj HJ Hr). }
  2:{ done. }
  intros state fs1 _ [HJ Hstaged]. destruct (Hstaged state eq_refl) as [Hn Hd].
  set (j := temporary_file state) in *. pose proof (keeps_more j _ HJ Hd) as HJ1. unfold commit_without_predecessor.
  eapply fwp_step.
  { eapply fwp_weaken; [intros fs Hfs; by apply safe_target, safe_before, (keeps_less j)|].
    eapply fwp_mono.
    - apply (fwp_or_clean _ _ _ _ _ (λ _ fs', ∀ i, old = Some i → sole fs' i)); [intros e; spare|done|]. by apply fwp_pin.
    - intros r fs' HJ' Hr. exact (conj HJ' Hr). }
  2:{ done. }
  intros e fs2 _ [HJ2 Hs]. specialize (Hs e eq_refl).
  eapply fwp_mono.
  - eapply fwp_weaken; [|eapply fwp_mono; [apply (fwp_commit T old (held1 j) j contents); [by right|by apply named_expected|done|done]|]].
    + intros fs [Hn' Hu Hh]. split; [done| |intros i c Hc; apply Hh; by left]. intros e' He'.
      destruct (Hu e' He') as [?|(i & c & Hi & [_ Hc] & Hdur)]; [by left|right; by exists i, c].
    + intros r fs' HI Hr. exact (conj HI Hr).
  - intros r fs' _ [HI Hr] Hok. destruct (Hr Hok) as [Hset Hrep]. exists j. split; [done|].
    split; [apply (keeps_held _ _ _ _ _ HI); by right|]. intros i Hi.
    eapply replaced_alone; [by rewrite (keeps_old _ _ _ _ HJ2)|by apply Hs|done].
Qed.
(** ** Whole reads *)
Lemma fwp_read_locked max_bytes fs : max_bytes < u64_max → J0 fs →
  fwp J0 (read_locked T max_bytes) (λ r fs', ∀ o, r = Ok o → match o with
    | Some l => count l ≤ max_bytes ∧ ∃ i f, old = Some i ∧ files fs' !! i = Some f ∧ data f = l
    | None => old = None
    end) fs.
Proof.
  intros Hmax HJ. unfold read_locked. pose proof (keeps_old _ _ _ _ HJ) as Ht.
  eapply fwp_looks; [apply looks_map_err, looks_regular_or_absent|done| |done]. intros [st|] Hst.
  2:{ apply fwp_ret; [done|]. intros o [= <-]. congruence. }
  eapply fwp_looks; [apply looks_open|done| |done]. intros i Hi.
  eapply fwp_looks; [apply looks_open_private|done| |done]. intros _ _.
  eapply fwp_looks; [apply looks_fstat|done| |done]. intros opened _. destruct (negb _); [by apply fwp_ret|].
  eapply fwp_looks; [apply (looks_try _ _ (λ l fs, ∃ f, files fs !! i = Some f ∧
    l = take (Z.to_nat (saturating_add u64_max max_bytes 1)) (data f)))|done| |done].
  { intros fs1 r fs2 [-> Hr]. split; [done|]. by intros l ->. }
  intros l (f & Hf & Hl). destruct (Z.ltb_spec max_bytes (count l)) as [|Hle]; [by apply fwp_ret|].
  eapply fwp_looks; [apply looks_fstatat|done| |done]. intros current _. destruct (negb _); [by apply fwp_ret|].
  apply fwp_ret; [done|]. intros o [= <-]. split; [done|]. exists i, f. split; [congruence|]. split; [done|].
  unfold count in Hle. subst l. rewrite take_ge; [done|]. rewrite length_take in Hle.
  unfold saturating_add in *. lia.
Qed.
Lemma fwp_read_private path max_bytes : max_bytes < u64_max → names path T → at_rest T fs0 →
  fwp J0 (read_private_file path max_bytes) (λ r fs', ∀ o, r = Ok o → o = read_entry fs0 T ∧
    ∀ l, o = Some l → count l ≤ max_bytes) fs0.
Proof.
  intros Hmax Hp Hrest. pose proof (keeps_initial Hrest) as HJ. unfold read_private_file.
  eapply fwp_looks; [apply looks_map_err, looks_parent|done| |done]. intros parent Hpar.
  rewrite <-(names_fun _ _ _ Hp Hpar).
  eapply fwp_step; [apply fwp_spare; [spare|done]| |done]. intros u fs1 HJ1 _.
  apply fwp_finally. eapply fwp_mono; [by apply fwp_read_locked|]. intros r fs2 HJ2 Hr.
  apply fwp_io_call; [done|]. intros v fs3 Hv. split.
  { eapply keeps_aside; [done|]. by eapply (spares_aside T Unlock). }
  intros o Ho. specialize (Hr o Ho). destruct o as [l|].
  - destruct Hr as (Hle & i & f & Hi & Hf & Hl). split; [|by intros l' [= <-]].
    destruct (rest_durable _ _ Hrest i Hi) as [c Hc]. rewrite (read_durable_at _ _ _ _ Hi Hc).
    destruct (keeps_held _ _ _ _ _ HJ2 i c) as (f' & Hf' & _ & Hd); [done|]. congruence.
  - split; [|done]. unfold read_entry. by rewrite Hr.
Qed.

(** A crash of a safe state. *)
Lemma held_old c : at_rest T fs0 → read_entry fs0 T = Some c → ∃ i, old = Some i ∧ held0 i c.
Proof.
  intros [_ _ Hd] Hr. unfold read_entry in Hr. destruct (entries fs0 !! T) as [i|] eqn:Hi; [|done].
  destruct (Hd i eq_refl) as [c' Hc]. exists i. split; [done|]. split; [done|].
  destruct Hc as (f & Hf & Hs & <-). cbn in Hr. rewrite Hf in Hr. injection Hr as <-. by exists f.
Qed.
Lemma safe_crash fresh fs image : at_rest T fs0 → Keeps T old held0 fresh fs → crash fs image →
  image_read image T = read_entry fs0 T ∨
  ∃ i c, fresh i c ∧ image_read image T = Some c ∧ ¬ ∀ e, e ∈ history fs → e !! T = old.
Proof.
  intros Hrest [_ Hu Hh] Hc. pose proof Hc as [Hn _]. destruct (Hn T) as (e & He & Hi).
  assert (Hold : image_entries image !! T = old → image_read image T = read_entry fs0 T).
  { intros Ho. unfold image_read. rewrite Ho. destruct old as [i|] eqn:Hx.
    - destruct (rest_durable _ _ Hrest i Hx) as [c Hi0]. rewrite (read_durable_at _ _ _ _ Hx Hi0). cbn. f_equal.
      eapply image_durable; [done|]. by apply Hh.
    - unfold read_entry. by rewrite Hx. }
  destruct (decide (e !! T = old)) as [Ho|Ho]; [left; apply Hold; congruence|].
  right. destruct (Hu e He) as [?|(i & c & Hi' & Hf & Hd)]; [done|]. exists i, c.
  split; [done|]. split; [|intros Hall; by apply Ho, Hall].
  unfold image_read. rewrite Hi, Hi'. cbn. f_equal. by eapply image_durable.
Qed.
(** A target that has been kept is still at rest; and what is kept from there
    is kept from the start. *)
Lemma keeps_at_rest fs : at_rest T fs0 → J0 fs → at_rest T fs ∧ read_entry fs T = read_entry fs0 T.
Proof.
  intros Hrest HJ. pose proof (keeps_old _ _ _ _ HJ) as Ht. pose proof HJ as [Hn Hu Hh].
  assert (Hd : ∀ i, old = Some i → ∃ c, durable fs0 i c ∧ durable fs i c).
  { intros i Hi. destruct (rest_durable _ _ Hrest i Hi) as [c Hc]. exists c. split; [done|]. by apply Hh. }
  split.
  - split; [done| |].
    + intros e He. destruct (Hu e He) as [?|(i & c & _ & [] & _)]. congruence.
    + intros i Hi. destruct (Hd i) as (c & _ & Hc); [congruence|]. by exists c.
  - destruct (entries fs0 !! T) as [i|] eqn:Hi.
    + destruct (Hd i eq_refl) as (c & H0 & H1). by rewrite (read_durable_at _ _ _ _ Ht H1), (read_durable_at _ _ _ _ Hi H0).
    + unfold read_entry. by rewrite Ht, Hi.
Qed.
Lemma keeps_later fresh fs1 fs : J0 fs1 →
  Keeps T (entries fs1 !! T) (λ i c, entries fs1 !! T = Some i ∧ durable fs1 i c) fresh fs → Keeps T old held0 fresh fs.
Proof.
  intros HJ [Hn Hu Hh]. rewrite (keeps_old _ _ _ _ HJ) in Hu, Hh. split; [done|done|].
  intros i c [Hi Hc]. apply Hh. split; [done|]. by apply (keeps_held _ _ _ _ _ HJ).
Qed.
End writes.

(** ** The lock *)

Definition mutates {T} (call : Syscall T) : bool :=
  match call with OpenExclusive _ | WriteAll _ _ | Renameat _ _ | Linkat _ _ | Unlinkat _ => true | _ => false end.
Definition lock_after {T} (call : Syscall T) : T → bool → bool :=
  match call in Syscall T return T → bool → bool with
  | FlockExclusive _ => λ r b, match r with Ok _ => true | Err _ => b end
  | Unlock => λ _ _, false
  | _ => λ _ b, b
  end.
(** From the lock state [b], changes are made under the lock and [Q] holds of
    the answer and the lock at the end. *)
Fixpoint guarded {A} (b : bool) (p : Prog A) (Q : A → bool → Prop) : Prop :=
  match p with
  | Ret a => Q a b
  | Op call next => (mutates call = true → b = true) ∧ ∀ r, guarded (lock_after call r b) (next r) Q
  end.
Definition lockless T (call : Syscall T) : Prop :=
  match call with FlockExclusive _ | Unlock => False | _ => True end.
Definition quiet T (call : Syscall T) : Prop := lockless T call ∧ mutates call = false.

Lemma lock_after_posix {T} (call : Syscall T) fs r fs' :
  posix call fs r fs' → locked fs' = lock_after call r (locked fs).
Proof.
  destruct call; cbn; try (by intros ->); try (by intros [? ->]); try (by intros [-> ?]);
    try (destruct r; try (by intros ->)).
  - intros [[_ ->]|(_ & _ & m & _ & ->)]; done.
  - by intros (_ & _ & m & _ & ->).
  - by intros (f & _ & ->).
  - by intros (f & _ & ->).
  - by intros [->|(written & f & _ & ->)].
  - by intros (f & _ & ->).
  - intros (i & _ & H). case_decide; by rewrite H.
  - by intros (i & _ & _ & ->).
  - by intros [_ ->].
  - by intros [-> _].
Qed.
Lemma guarded_exec {A} sys (p : Prog A) Q fs p' fs' :
  documented sys → guarded (locked fs) p Q → exec sys p fs p' fs' → guarded (locked fs') p' Q.
Proof.
  intros Hsys Hp Hx. induction Hx as [p fs|T call next fs r fs1 p2 fs2 Hs Hx IH]; [done|].
  apply IH. rewrite (lock_after_posix _ _ _ _ (Hsys _ _ _ _ _ Hs)). apply Hp.
Qed.
Lemma guarded_mono {A} b (p : Prog A) (Q Q' : A → bool → Prop) :
  guarded b p Q → (∀ a b', Q a b' → Q' a b') → guarded b p Q'.
Proof.
  intros Hp HQ. revert b Hp. induction p as [a|T call next IH]; intros b; cbn; [apply HQ|].
  intros [Hc Hn]. split; [done|]. intros r. by apply IH.
Qed.
Lemma guarded_prog_bind {A B} b (p : Prog A) (k : A → Prog B) Q :
  guarded b p (λ a b', guarded b' (k a) Q) → guarded b (prog_bind p k) Q.
Proof.
  revert b. induction p as [a|T call next IH]; intros b; cbn; [done|].
  intros [Hc Hn]. split; [done|]. intros r. by apply IH.
Qed.
Lemma guarded_bind {E A B} b (m : IO E A) (k : A → IO E B) P (Q : Result E B → bool → Prop) :
  guarded b m P → (∀ a b', P (Ok a) b' → guarded b' (k a) Q) → (∀ e b', P (Err e) b' → Q (Err e) b') →
  guarded b (m ≫= k) Q.
Proof.
  intros Hm Hk He. apply guarded_prog_bind. eapply guarded_mono; [exact Hm|]. intros [a|e] b' HP; [by apply Hk|].
  by apply He.
Qed.
Lemma guarded_finally {E A} b (m : IO E A) cleanup (P Q : Result E A → bool → Prop) :
  guarded b m P → (∀ r b', P r b' → guarded b' (cleanup r) (λ _ b'', Q r b'')) → guarded b (io_finally m cleanup) Q.
Proof.
  intros Hm Hc. apply guarded_prog_bind. eapply guarded_mono; [exact Hm|]. intros r b' HP.
  apply guarded_prog_bind. eapply guarded_mono; [by apply Hc|]. done.
Qed.
(** What lock discipline asks of a program stopped at [p]. *)
Definition disciplined {A} (p : Prog A) (fs : Fs) : Prop :=
  match p with Ret _ => locked fs = false | Op call _ => mutates call = true → locked fs = true end.
Lemma guarded_disciplined {A} sys (p : Prog A) fs p' fs' :
  documented sys → guarded (locked fs) p (λ _ b, b = false) → exec sys p fs p' fs' → disciplined p' fs'.
Proof. intros Hsys Hp Hx. pose proof (guarded_exec _ _ _ _ _ _ Hsys Hp Hx) as Hg. destruct p'; [exact Hg|exact (proj1 Hg)]. Qed.
(** Programs that leave the lock alone, under it or without a change. *)
Lemma guarded_lockless {A} (p : Prog A) : calling lockless p → guarded true p (λ _ b, b = true).
Proof.
  induction p as [a|T call next IH]; cbn; [done|]. intros [Hc Hn]. split; [done|]. intros r.
  assert (lock_after call r true = true) as -> by (by destruct call). by apply IH.
Qed.
Lemma guarded_quiet {A} b (p : Prog A) : calling quiet p → guarded b p (λ _ b', b' = b).
Proof.
  induction p as [a|T call next IH]; cbn; [done|]. intros [[Hc Hm] Hn]. split; [congruence|]. intros r.
  assert (lock_after call r b = b) as -> by (by destruct call). by apply IH.
Qed.

Create HintDb lockless.
#[global] Hint Constants Opaque : lockless.
Ltac walk := spare; try exact I; try (split; [exact I|reflexivity]); try solve [auto with lockless nocore].
Section lockless.
Lemma quiet_parent path : calling quiet (safe_parent_open path).
Proof.
  assert (Hc : ∀ l, calling quiet (open_components l)).
  { induction l as [|c l IH]; [done|]. unfold open_components; fold open_components. walk. }
  unfold safe_parent_open. walk.
Qed.
Lemma quiet_regular_or_absent name : calling quiet (validate_regular_or_absent name).
Proof. unfold validate_regular_or_absent. walk. Qed.
Lemma quiet_open_regular i : calling quiet (validate_open_regular i).
Proof. unfold validate_open_regular. walk. Qed.
Lemma calling_mono (P P' : ∀ T, Syscall T → Prop) {A} (p : Prog A) :
  (∀ T c, P T c → P' T c) → calling P p → calling P' p.
Proof. intros HP. induction p as [a|T c n IH]; cbn; [done|]. intros [Hc Hn]. split; [by apply HP|auto]. Qed.
Lemma lockless_quiet {A} (p : Prog A) : calling quiet p → calling lockless p.
Proof. apply calling_mono. by intros T c []. Qed.
#[local] Hint Resolve lockless_quiet quiet_regular_or_absent quiet_open_regular : lockless.
Lemma lockless_stage_locked parent contents : calling lockless (stage_locked parent contents).
Proof.
  assert (Hn : ∀ n name, calling lockless (create_new_temporary n name)).
  { intros n name. induction n as [|n IH]; [done|]. unfold create_new_temporary; fold create_new_temporary.
    unfold random_temporary_name. walk. }
  unfold stage_locked, write_staged, validate_staged_identity, remove_entry_if_present. walk.
Qed.
Lemma lockless_pin state : calling lockless (pin_without_predecessor state).
Proof. unfold pin_without_predecessor, pin_private_current, validate_open_private. walk. Qed.
Lemma lockless_publish state : calling lockless (publish_predecessor state).
Proof.
  assert (Hn : ∀ n i, calling lockless (create_predecessor_link n state i)).
  { intros n i. induction n as [|n IH]; [done|]. unfold create_predecessor_link; fold create_predecessor_link.
    unfold random_temporary_name, remove_entry_if_present. walk. }
  unfold publish_predecessor, make_existing_entry_private, replace_predecessor_link, remove_entry, remove_entry_if_present.
  walk.
Qed.
Lemma lockless_install state : calling lockless (install state).
Proof. unfold install, validate_expected_current, validate_staged_identity. walk. Qed.
Lemma quiet_read name max_bytes : calling quiet (read_locked name max_bytes).
Proof. unfold read_locked, validate_open_private. walk. Qed.
End lockless.

(** The lock is held after success, and not after failure. *)
Definition on_success {E A} (r : Result E A) (b : bool) : Prop := b = match r with Ok _ => true | Err _ => false end.
Lemma guarded_drop_state {E} b state : b = true → guarded b (drop_state state : IO E unit) (λ _ b', b' = false).
Proof. intros ->. unfold drop_state. destruct (temporary_name state); cbn; auto. Qed.
Lemma guarded_acquire name : guarded false (acquire_at name) on_success.
Proof.
  unfold acquire_at.
  eapply guarded_bind; [apply guarded_quiet, quiet_regular_or_absent| |by intros e b' ->]. intros o b ->.
  eapply guarded_bind; [apply (guarded_quiet _ (io_try _ _)); walk| |by intros e b' ->]. intros i b ->.
  eapply guarded_bind; [apply guarded_quiet, quiet_open_regular| |by intros e b' ->]. intros u b ->.
  eapply guarded_bind; [apply (guarded_quiet _ (io_try _ _)); walk| |by intros e b' ->]. intros v b ->.
  split; [done|]. by intros [[]|e].
Qed.
Lemma guarded_from_lock {A} b (m : IO LockError A) : guarded b m on_success → guarded b (from_lock m) on_success.
Proof. intros Hm. apply guarded_prog_bind. eapply guarded_mono; [exact Hm|]. by intros [a|e] b' ->. Qed.
Lemma guarded_stage path contents : guarded false (stage_write path contents) on_success.
Proof.
  unfold stage_write.
  eapply guarded_bind; [apply guarded_quiet, calling_from_lock, quiet_parent| |by intros e b' ->]. intros parent b ->.
  eapply guarded_bind; [apply guarded_from_lock, guarded_acquire| |by intros e b' ->]. intros u b ->.
  eapply guarded_finally; [apply guarded_lockless, lockless_stage_locked|]. intros [a|e] b ->; [done|]. by split.
Qed.
Lemma guarded_unless_err {A} (m : IO AtomicWriteError A) state :
  calling lockless m →
  guarded true (io_finally m (λ r, match r with Ok _ => mret tt | Err _ => drop_state state end)) on_success.
Proof.
  intros Hm. eapply guarded_finally; [by apply guarded_lockless|]. intros [a|e] b ->; [done|].
  by apply guarded_drop_state.
Qed.
Lemma guarded_commit state : guarded true (commit state) (λ _ b, b = false).
Proof.
  unfold commit.
  eapply guarded_bind; [apply guarded_unless_err, lockless_install| |by intros e b' ->]. intros u b ->.
  eapply guarded_finally; [apply (guarded_lockless (io_try _ _)); walk|]. intros r b ->. by apply guarded_drop_state.
Qed.
Lemma guarded_atomic_write path contents : guarded false (atomic_write path contents) (λ _ b, b = false).
Proof.
  unfold atomic_write.
  eapply guarded_bind; [apply guarded_stage| |by intros e b' ->]. intros state b ->.
  eapply (guarded_bind _ _ _ on_success); [|intros state' b ->; apply guarded_commit|by intros e b' ->].
  eapply guarded_bind; [apply guarded_unless_err, lockless_publish| |by intros e b' ->]. by intros e b ->.
Qed.
Lemma guarded_without_predecessor path contents :
  guarded false (atomic_write_without_predecessor path contents) (λ _ b, b = false).
Proof.
  unfold atomic_write_without_predecessor.
  eapply guarded_bind; [apply guarded_stage| |by intros e b' ->]. intros state b ->.
  eapply guarded_bind; [apply guarded_unless_err, lockless_pin| |by intros e b' ->]. intros e b ->. apply guarded_commit.
Qed.
Lemma guarded_read path max_bytes : guarded false (read_private_file path max_bytes) (λ _ b, b = false).
Proof.
  unfold read_private_file.
  eapply guarded_bind; [apply guarded_quiet, calling_from_lock, quiet_parent| |by intros e b' ->]. intros parent b ->.
  eapply guarded_bind; [apply guarded_from_lock, guarded_acquire| |by intros e b' ->]. intros u b ->.
  eapply guarded_finally; [apply guarded_quiet, quiet_read|]. intros r b ->. split; [done|]. done.
Qed.
