(* ===== verification/AtomicFileSpec.v ===== *)
(** * Durable replacement: what a caller can rely on

    The guarantees of AtomicFile.v over any operating system that does what is
    documented, however calls fail and wherever the program or the machine
    stops; and a file system on which every call succeeds, to run them on. *)
From stdpp Require Import gmap prelude.
From S2P Require Import Prelude Ordering Text Config AtomicFile AtomicFileFacts.
Local Open Scope Z_scope.

(** The predecessor of a target, as [previous_path] names it. *)
Notation previous_of target := (suffixed_name target (lit ".previous")).

(** ** An undisturbed file system *)
Module Undisturbed.
Definition create (name : Name) (fs : Fs) : Result Errno nat * Fs :=
  let i := size (files fs) in
  if bool_decide (files fs !! i = None)
  then (Ok i, set_entries (<[name := i]> (entries fs)) (set_file i (mk_file true (user fs) PRIVATE_FILE_MODE [] false) fs))
  else (Err (EOTHER 28), fs).
Definition change (i : nat) (g : File → File) (fs : Fs) : Result Errno unit * Fs :=
  match files fs !! i with Some f => (Ok tt, set_file i (g f) fs) | None => (Err (EOTHER 9), fs) end.
Definition stat (i : nat) (fs : Fs) : Result Errno Stat :=
  match files fs !! i with
  | Some f => Ok (mk_stat i (regular f) (owner f) (mode f) (nlink fs i))
  | None => Err (EOTHER 5)
  end.
Definition perform {T} (call : Syscall T) (fs : Fs) : T * Fs :=
  match call in Syscall T return T * Fs with
  | OpenRoot | OpenDirAt _ => (Ok tt, fs)
  | DirMetadata => (Ok (mk_dir_stat true (user fs) 0x1c0), fs)
  | GetEuid => (user fs, fs)
  | Fstatat name => (match entries fs !! name with Some i => stat i fs | None => Err ENOENT end, fs)
  | OpenRead name => (match entries fs !! name with Some i => Ok i | None => Err ENOENT end, fs)
  | OpenLock name => match entries fs !! name with Some i => (Ok i, fs) | None => create name fs end
  | OpenExclusive name => match entries fs !! name with Some _ => (Err EEXIST, fs) | None => create name fs end
  | Fstat i => (stat i fs, fs)
  | Fchmod i m => change i (λ f, mk_file (regular f) (owner f) m (data f) (synced f)) fs
  | FlockExclusive _ => (Ok tt, set_locked true fs)
  | Unlock => (tt, set_locked false fs)
  | WriteAll i contents =>
      change i (λ f, mk_file (regular f) (owner f) (mode f) (data f ++ contents) false) fs
  | SyncFile i => change i (λ f, mk_file (regular f) (owner f) (mode f) (data f) true) fs
  | SyncDir => (Ok tt, sync_entries fs)
  | Renameat source destination =>
      match entries fs !! source with
      | Some i => (Ok tt, if bool_decide (entries fs !! destination = Some i) then fs
                          else set_entries (<[destination := i]> (delete source (entries fs))) fs)
      | None => (Err ENOENT, fs)
      end
  | Linkat source destination =>
      match entries fs !! source, entries fs !! destination with
      | Some i, None => (Ok tt, set_entries (<[destination := i]> (entries fs)) fs)
      | Some _, Some _ => (Err EEXIST, fs)
      | None, _ => (Err ENOENT, fs)
      end
  | Unlinkat name =>
      match entries fs !! name with
      | Some _ => (Ok tt, set_entries (delete name (entries fs)) fs)
      | None => (Err ENOENT, fs)
      end
  | ReadBounded i bound =>
      (match files fs !! i with Some f => Ok (take (Z.to_nat bound) (data f)) | None => Err (EOTHER 9) end, fs)
  | GetRandom => (Ok (replicate 16 171), fs)
  end.
Definition system : System := λ T call fs r fs', perform call fs = (r, fs').
Fixpoint run {A} (p : Prog A) (fs : Fs) : A * Fs :=
  match p with
  | Ret a => (a, fs)
  | Op call next => let '(r, fs') := perform call fs in run (next r) fs'
  end.
Lemma run_exec {A} (p : Prog A) fs a : (run p fs).1 = a → exec system p fs (Ret a) (run p fs).2.
Proof.
  intros <-. revert fs. induction p as [b|T call next IH]; cbn; intros fs; [by apply exec_here|].
  destruct (perform call fs) as [r fs1] eqn:Hp. eapply exec_call; [exact Hp|by apply IH].
Qed.

Lemma created_create name fs r fs' : entries fs !! name = None → create name fs = (r, fs') →
  match r with Ok i => created name i fs fs' | Err _ => fs' = fs end.
Proof.
  intros Hn. unfold create. case_bool_decide as Hf; intros [= <- <-]; [|done].
  split; [done|]. split; [done|]. by exists PRIVATE_FILE_MODE.
Qed.
Lemma changed_change i g fs r fs' : change i g fs = (r, fs') →
  match r with Ok _ => changed i g fs fs' | Err _ => fs' = fs end.
Proof. unfold change. destruct (files fs !! i) as [f|] eqn:Hf; intros [= <- <-]; [by exists f|done]. Qed.
Lemma stat_stat i fs : match stat i fs with Ok st => stat_of fs i st | Err e => e ≠ ENOENT end.
Proof. unfold stat. destruct (files fs !! i) as [f|] eqn:Hf; [by exists f|done]. Qed.

Lemma system_documented : documented system.
Proof.
  intros T call fs r fs' Hp. unfold system in Hp. destruct call; cbn in Hp |- *; try (injection Hp as <- <-; done).
  - injection Hp as <- <-. split; [done|]. pose proof (stat_stat) as Hs.
    destruct (entries fs !! name) as [i|]; [|done]. specialize (Hs i fs).
    destruct (stat i fs) as [st|[]]; [by exists i|done..].
  - injection Hp as <- <-. split; [done|]. by destruct (entries fs !! name).
  - destruct (entries fs !! name) as [i|] eqn:Hn; [injection Hp as <- <-; by left|].
    pose proof (created_create _ _ _ _ Hn Hp) as Hc. destruct r; [by right|done].
  - destruct (entries fs !! name) as [i|] eqn:Hn; [by injection Hp as <- <-|]. by apply (created_create _ _ _ _ Hn Hp).
  - injection Hp as <- <-. split; [done|]. pose proof (stat_stat fd fs) as Hs. by destruct (stat fd fs).
  - by apply changed_change.
  - apply changed_change in Hp. destruct r; [done|by left].
  - by apply changed_change.
  - destruct (entries fs !! source) as [i|] eqn:Hs; injection Hp as <- <-; [|done].
    exists i. split; [done|]. by case_bool_decide; case_decide.
  - destruct (entries fs !! source) as [i|] eqn:Hs; [|by injection Hp as <- <-].
    destruct (entries fs !! destination) as [k|] eqn:Hd; injection Hp as <- <-; [done|]. by exists i.
  - destruct (entries fs !! name) as [i|] eqn:Hn; injection Hp as <- <-; [by split; [exists i|]|by split].
  - injection Hp as <- <-. split; [done|]. destruct (files fs !! fd) as [f|] eqn:Hf; [by exists f|done].
Qed.
End Undisturbed.

(** ** The guarantees *)

(** C7. Stop an atomic write at any system call, on a machine where any call may
    fail, and crash: the target has its previous contents or exactly the new
    ones, and if the new ones, the previous are at the predecessor's name. *)
Theorem atomic_write_crash_safe sys path contents target fs p fs' image :
  documented sys → names path target → at_rest target fs →
  exec sys (atomic_write path contents) fs p fs' → crash fs' image →
  image_read image target = read_entry fs target
  ∨ image_read image target = Some contents ∧
    ∀ c, read_entry fs target = Some c → image_read image (previous_of target) = Some c.
Proof.
  intros Hsys Hn Hrest Hx Hc. destruct (fwp_exec _ _ _ _ _ _ _ Hsys (fwp_atomic_write _ contents _ _ Hn Hrest) Hx) as [Hs _].
  destruct (safe_crash target fs _ fs' image Hrest (safe_target _ _ _ _ Hs) Hc) as [?|(i0 & c0 & -> & Hi & Hnew)]; [by left|].
  right. split; [done|]. intros c Hread. destruct (safe_predecessor _ _ _ _ Hs) as [Hold|Hp]; [done|].
  destruct (held_old _ _ c Hrest Hread) as (i & Hi' & Hheld). by eapply keeps_image; [exact (Hp i Hi')|..].
Qed.

(** A write that returns without an error has replaced the contents, durably,
    and keeps the previous ones at the predecessor's name. *)
Theorem atomic_write_durable sys path contents target fs fs' image :
  documented sys → names path target → at_rest target fs →
  exec sys (atomic_write path contents) fs (Ret (Ok tt)) fs' → crash fs' image →
  read_entry fs' target = Some contents ∧ image_read image target = Some contents ∧ at_rest target fs' ∧
  ∀ c, read_entry fs target = Some c →
    read_entry fs' (previous_of target) = Some c ∧ image_read image (previous_of target) = Some c.
Proof.
  intros Hsys Hn Hrest Hx Hc. destruct (fwp_exec _ _ _ _ _ _ _ Hsys (fwp_atomic_write _ contents _ _ Hn Hrest) Hx) as [Hs Hr].
  destruct (Hr _ eq_refl eq_refl) as (j & Hset & Hd & Hprev).
  split; [by eapply read_durable_at; [apply Hset|]|]. split; [by eapply settled_image|].
  split; [by eapply settled_at_rest|]. intros c Hread.
  destruct (held_old _ _ c Hrest Hread) as (i & Hi' & Hheld). specialize (Hprev i Hi').
  pose proof (keeps_held _ _ _ _ _ (safe_target _ _ _ _ Hs) i c Hheld) as Hdi.
  split; [by eapply read_durable_at|]. eapply settled_image; [split; [apply Hset|exact Hprev]|done..].
Qed.

(** C17. The write for secrets: the same, and when it returns without an error no
    name of the directory leads to the previous file. *)
Theorem secret_write_leaves_no_copy sys path contents target fs p fs' image :
  documented sys → names path target → at_rest target fs →
  exec sys (atomic_write_without_predecessor path contents) fs p fs' → crash fs' image →
  (image_read image target = read_entry fs target ∨ image_read image target = Some contents) ∧
  (p = Ret (Ok tt) → image_read image target = Some contents ∧ at_rest target fs' ∧
    ∀ i name, entries fs !! target = Some i → image_entries image !! name ≠ Some i).
Proof.
  intros Hsys Hn Hrest Hx Hc.
  destruct (fwp_exec _ _ _ _ _ _ _ Hsys (fwp_without_predecessor _ contents _ _ Hn Hrest) Hx) as [Hs Hr].
  split; [destruct (safe_crash target fs _ fs' image Hrest Hs Hc) as [?|(i & c & -> & ? & _)]; auto|].
  intros ->. destruct (Hr _ eq_refl eq_refl) as (j & Hset & Hd & Hno).
  split; [by eapply settled_image|]. split; [by eapply settled_at_rest|].
  intros i name Hi. destruct Hc as [He _]. destruct (He name) as (e & Hin & ->).
  rewrite (proj1 Hset) in Hin. apply list_elem_of_singleton in Hin as ->. by apply Hno.
Qed.

(** A name appears, disappears or moves, and a file is written, only while the
    lock is held; and every return, with or without an error, leaves it free. *)
Theorem changes_only_under_lock sys path contents max_bytes fs fs' :
  documented sys → locked fs = false →
  (∀ p, exec sys (atomic_write path contents) fs p fs' → disciplined p fs') ∧
  (∀ p, exec sys (atomic_write_without_predecessor path contents) fs p fs' → disciplined p fs') ∧
  (∀ p, exec sys (read_private_file path max_bytes) fs p fs' → disciplined p fs').
Proof.
  intros Hsys Hl. split; [|split]; intros p Hx; eapply guarded_disciplined; try exact Hx; try done; rewrite Hl.
  - apply guarded_atomic_write.
  - apply guarded_without_predecessor.
  - apply guarded_read.
Qed.

(** What a successful write of either kind leaves is what a successful read of
    the file returns, whole and within the bound. *)
Theorem write_then_read sys path contents max_bytes target fs fs1 o fs2 :
  documented sys → names path target → at_rest target fs → max_bytes < u64_max →
  (exec sys (atomic_write path contents) fs (Ret (Ok tt)) fs1 ∨
   exec sys (atomic_write_without_predecessor path contents) fs (Ret (Ok tt)) fs1) →
  exec sys (read_private_file path max_bytes) fs1 (Ret (Ok o)) fs2 →
  o = Some contents ∧ count contents ≤ max_bytes.
Proof.
  intros Hsys Hn Hrest Hmax Hw Hr.
  assert (Hj : ∃ j, settled target j fs1 ∧ durable fs1 j contents).
  { destruct Hw as [Hw|Hw].
    - destruct (fwp_exec _ _ _ _ _ _ _ Hsys (fwp_atomic_write _ contents _ _ Hn Hrest) Hw) as [_ Hq].
      destruct (Hq _ eq_refl eq_refl) as (j & ? & ? & _). by exists j.
    - destruct (fwp_exec _ _ _ _ _ _ _ Hsys (fwp_without_predecessor _ contents _ _ Hn Hrest) Hw) as [_ Hq].
      destruct (Hq _ eq_refl eq_refl) as (j & ? & ? & _). by exists j. }
  destruct Hj as (j & Hset & Hd). pose proof (settled_at_rest _ _ _ _ Hset Hd) as Hrest1.
  destruct (fwp_exec _ _ _ _ _ _ _ Hsys (fwp_read_private _ _ path max_bytes Hmax Hn Hrest1) Hr) as [_ Hq].
  destruct (Hq _ eq_refl o eq_refl) as [-> Hlen]. rewrite (read_durable_at _ _ _ _ (proj2 Hset) Hd) in *. auto.
Qed.

(** ** Runs on the undisturbed file system *)
Module Runs.
Import Undisturbed.
Definition path : list Z := lit "/d/c".
Definition target : Name := lit "c".
Definition before : Fs :=
  mk_fs {[ target := 0%nat ]} {[ 0%nat := mk_file true 1000 PRIVATE_FILE_MODE [1; 2] true ]} [{[ target := 0%nat ]}] false 1000.
Definition image_now (fs : Fs) : Image := mk_image (entries fs) (λ i, default [] (data <$> files fs !! i)).
Lemma crash_now fs : entries fs ∈ history fs → crash fs (image_now fs).
Proof.
  intros He. split; [intros name; by exists (entries fs)|]. intros i f Hf _. cbn. by rewrite Hf.
Qed.
Definition written : Fs := (run (atomic_write path [7; 8; 9]) before).2.
Definition replaced_secret : Fs := (run (atomic_write_without_predecessor path [7; 8; 9]) before).2.
Definition read_back : Fs := (run (read_private_file path 3) written).2.
Lemma names_target : names path target.
Proof. exists [lit "d"; lit "c"]. by vm_compute. Qed.
Lemma before_at_rest : at_rest target before.
Proof.
  split; [by left|by intros e ->%list_elem_of_singleton|]. intros i Hi. exists [1; 2], (mk_file true 1000 PRIVATE_FILE_MODE [1; 2] true).
  assert (i = 0%nat) as -> by (by injection Hi). done.
Qed.
Lemma written_run : exec system (atomic_write path [7; 8; 9]) before (Ret (Ok tt)) written.
Proof. unfold written, replaced_secret, read_back. apply run_exec. by vm_compute. Qed.
Lemma secret_run :
  exec system (atomic_write_without_predecessor path [7; 8; 9]) before (Ret (Ok tt)) replaced_secret.
Proof. unfold written, replaced_secret, read_back. apply run_exec. by vm_compute. Qed.
Lemma read_run : exec system (read_private_file path 3) written (Ret (Ok (Some [7; 8; 9]))) read_back.
Proof. unfold written, replaced_secret, read_back. apply run_exec. by vm_compute. Qed.
Lemma now_synced fs : history fs = [entries fs] → entries fs ∈ history fs.
Proof. intros ->. by left. Qed.
Lemma written_now : entries written ∈ history written.
Proof. apply now_synced. vm_compute. reflexivity. Qed.
Lemma secret_now : entries replaced_secret ∈ history replaced_secret.
Proof. apply now_synced. vm_compute. reflexivity. Qed.
End Runs.

Lemma atomic_write_crash_safe_witness :
  image_read (Runs.image_now Runs.written) Runs.target = read_entry Runs.before Runs.target
  ∨ image_read (Runs.image_now Runs.written) Runs.target = Some [7; 8; 9] ∧
    ∀ c, read_entry Runs.before Runs.target = Some c →
      image_read (Runs.image_now Runs.written) (previous_of Runs.target) = Some c.
Proof.
  apply (atomic_write_crash_safe Undisturbed.system Runs.path [7; 8; 9] Runs.target Runs.before (Ret (Ok tt)) Runs.written).
  - apply Undisturbed.system_documented.
  - apply Runs.names_target.
  - apply Runs.before_at_rest.
  - apply Runs.written_run.
  - apply Runs.crash_now, Runs.written_now.
Defined.
Lemma atomic_write_durable_witness :
  read_entry Runs.written Runs.target = Some [7; 8; 9] ∧
  image_read (Runs.image_now Runs.written) Runs.target = Some [7; 8; 9] ∧ at_rest Runs.target Runs.written ∧
  ∀ c, read_entry Runs.before Runs.target = Some c →
    read_entry Runs.written (previous_of Runs.target) = Some c ∧
    image_read (Runs.image_now Runs.written) (previous_of Runs.target) = Some c.
Proof.
  apply (atomic_write_durable Undisturbed.system Runs.path [7; 8; 9] Runs.target Runs.before Runs.written).
  - apply Undisturbed.system_documented.
  - apply Runs.names_target.
  - apply Runs.before_at_rest.
  - apply Runs.written_run.
  - apply Runs.crash_now, Runs.written_now.
Defined.
Lemma secret_write_leaves_no_copy_witness :
  (image_read (Runs.image_now Runs.replaced_secret) Runs.target = read_entry Runs.before Runs.target ∨
   image_read (Runs.image_now Runs.replaced_secret) Runs.target = Some [7; 8; 9]) ∧
  (Ret (Ok tt) = Ret (Ok tt) :> Prog (Result AtomicWriteError unit) →
   image_read (Runs.image_now Runs.replaced_secret) Runs.target = Some [7; 8; 9] ∧
   at_rest Runs.target Runs.replaced_secret ∧
   ∀ i name, entries Runs.before !! Runs.target = Some i →
     image_entries (Runs.image_now Runs.replaced_secret) !! name ≠ Some i).
Proof.
  apply (secret_write_leaves_no_copy Undisturbed.system Runs.path [7; 8; 9] Runs.target Runs.before).
  - apply Undisturbed.system_documented.
  - apply Runs.names_target.
  - apply Runs.before_at_rest.
  - apply Runs.secret_run.
  - apply Runs.crash_now, Runs.secret_now.
Defined.
Lemma changes_only_under_lock_witness : disciplined (Ret (Ok tt) : Prog (Result AtomicWriteError unit)) Runs.written.
Proof.
  refine (proj1 (changes_only_under_lock Undisturbed.system Runs.path [7; 8; 9] 3 Runs.before _ _ _) _ _).
  - apply Undisturbed.system_documented.
  - reflexivity.
  - apply Runs.written_run.
Defined.
Lemma write_then_read_witness : Some [7; 8; 9] = Some [7; 8; 9] ∧ count [7; 8; 9] ≤ 3.
Proof.
  apply (write_then_read Undisturbed.system Runs.path [7; 8; 9] 3 Runs.target Runs.before Runs.written _ Runs.read_back).
  - apply Undisturbed.system_documented.
  - apply Runs.names_target.
  - apply Runs.before_at_rest.
  - reflexivity.
  - left. apply Runs.written_run.
  - apply Runs.read_run.
Defined.
