(* ===== verification/Cookie.v ===== *)
(** * Cookies: import, normalisation and request selection
      (crates/providers/src/cookie.rs)

    A cookie reaches a request only through a jar of one source and the exact
    matching rules of [header_for]; captures pasted by the user are parsed as
    data.  The [url] crate's host parser and address printing are a class; a
    [HashMap] is a finite map whose enumeration order is left open. *)
From stdpp Require Import gmap countable sorting prelude.
From S2P Require Import Prelude Ordering Text Externals Endpoint Config.
Local Open Scope Z_scope.

Definition MAX_COOKIES_PER_IMPORT : Z := 4096.
Definition MAX_COOKIE_JAR_RECORDS : Z := MAX_COOKIES_PER_IMPORT.
Definition MAX_COOKIE_JAR_BYTES : Z := 8 * 1024 * 1024.
Definition MAX_COOKIE_HEADER_BYTES : Z := 64 * 1024.
Definition MAX_IMPORT_SOURCES : Z := 64.
Definition MAX_CAPTURE_BYTES : Z := 128 * 1024.
Definition MAX_CAPTURE_PAIRS : Z := 512.
Definition MAX_CAPTURE_TOKENS : Z := 512.
Definition MAX_COOKIE_NAME_BYTES : Z := 256.
Definition MAX_COOKIE_VALUE_BYTES : Z := 16 * 1024.
Definition MAX_DOMAIN_INPUT_BYTES : Z := 1024.
Definition MAX_DOMAIN_BYTES : Z := 253.
Definition MAX_PATH_BYTES : Z := 4 * 1024.
Definition MAX_REQUEST_URL_BYTES : Z := 16 * 1024.

Inductive CookieError :=
| InvalidRecord
| JarTooLarge
| InvalidImportOrder
| InvalidRequestUrl
| HeaderTooLarge.
#[global] Instance CookieError_eq_dec : EqDecision CookieError.
Proof. solve_decision. Defined.

(** [url::Host::parse], the addresses' [to_string], and [Url::as_str]. *)
Class CookieHosts `{UrlCrate} := {
  url_as_str : Url → str;
  host_parse : str → option Host;
  ipv4_to_string : Ipv4Addr → str;
  ipv6_to_string : Ipv6Addr → str;
}.

(** ** Strings *)

(** [s.get(..n)] with the rest: none inside a character. *)
Fixpoint str_split_at (n : Z) (s : str) : option (str * str) :=
  if n =? 0 then Some ([], s) else
  match s with
  | [] => None
  | c :: s =>
      if n <? len_utf8 c then None else
      '(before, after) ← str_split_at (n - len_utf8 c) s; Some (c :: before, after)
  end.
Definition strip_suffix (suffix s : str) : option str :=
  reverse <$> strip_prefix (reverse suffix) (reverse s).
Definition starts_with (c : Z) (s : str) : bool := bool_decide (head s = Some c).
Definition ends_with (c : Z) (s : str) : bool := bool_decide (last s = Some c).
(** [u8::is_ascii_whitespace], [char::is_ascii_whitespace] *)
Definition is_ascii_whitespace (c : Z) : bool :=
  (c =? 32) || (c =? 9) || (c =? 10) || (c =? 12) || (c =? 13).
(** [s.split_ascii_whitespace().next()] *)
Fixpoint until_whitespace (s : str) : str :=
  match s with
  | [] => []
  | c :: s => if is_ascii_whitespace c then [] else c :: until_whitespace s
  end.
Fixpoint first_word (s : str) : option str :=
  match s with
  | [] => None
  | c :: s' => if is_ascii_whitespace c then first_word s' else Some (until_whitespace s)
  end.

Definition QUOTES : list Z := [34; 39].
Definition strip_outer_quotes (raw : str) : str :=
  if (2 <=? str_len raw)
     && ((starts_with 34 raw && ends_with 34 raw) || (starts_with 39 raw && ends_with 39 raw))
  then removelast (tail raw) else raw.
Definition strip_ascii_case_prefix (value prefix : str) : option str :=
  '(candidate, rest) ← str_split_at (str_len prefix) value;
  if eq_ignore_ascii_case candidate prefix then Some (trim rest) else None.
Definition owned_nonempty (value : str) : Result CookieError str :=
  let value := trim (strip_outer_quotes (trim value)) in
  if is_empty value then Err InvalidRecord else Ok value.

(** ** Validation *)

Definition NAME_SEPARATORS : list Z := lit "()<>@,;:\/[]?={}" ++ [34].
Definition name_byte (byte : Z) : bool :=
  (0x21 <=? byte) && (byte <=? 0x7e) && negb (bool_decide (byte ∈ NAME_SEPARATORS)).
Definition validate_cookie_name (name : str) : Result CookieError unit :=
  if is_empty name || (MAX_COOKIE_NAME_BYTES <? str_len name) || negb (forallb name_byte (as_bytes name))
  then Err InvalidRecord else Ok tt.
Definition value_byte (byte : Z) : bool :=
  (byte =? 0x21) || ((0x23 <=? byte) && (byte <=? 0x2b)) || ((0x2d <=? byte) && (byte <=? 0x3a))
  || ((0x3c <=? byte) && (byte <=? 0x5b)) || ((0x5d <=? byte) && (byte <=? 0x7e)).
Definition validate_cookie_value (value : str) : Result CookieError unit :=
  if (MAX_COOKIE_VALUE_BYTES <? str_len value) || negb (forallb value_byte (as_bytes value))
  then Err InvalidRecord else Ok tt.
Definition validate_cookie_path (path : str) : Result CookieError unit :=
  if is_empty path || (MAX_PATH_BYTES <? str_len path) || negb (starts_with 47 path)
     || negb (forallb (λ c, c <? 128) path)
     || existsb (λ byte, is_ascii_whitespace byte || bool_decide (byte ∈ lit ";?#\")) (as_bytes path)
  then Err InvalidRecord else Ok tt.

Definition label_ok (label : str) : bool :=
  negb (is_empty label || (63 <? str_len label)
        || negb (forallb (λ byte, is_ascii_alphanumeric byte || (byte =? 45)) (as_bytes label))
        || starts_with 45 label || ends_with 45 label).
Definition validate_canonical_domain (domain : str) : Result CookieError unit :=
  if is_empty domain || (MAX_DOMAIN_BYTES <? str_len domain) || negb (forallb (λ c, c <? 128) domain)
     || starts_with DOT domain || ends_with DOT domain || existsb (λ label, negb (label_ok label)) (split_bytes DOT domain)
  then Err InvalidRecord else Ok tt.

Definition PRIVATE_OR_MULTI_LABEL_SUFFIXES : list str :=
  [lit "appspot.com"; lit "azurewebsites.net"; lit "cloudfront.net"; lit "firebaseapp.com"; lit "github.io";
   lit "gitlab.io"; lit "herokuapp.com"; lit "netlify.app"; lit "pages.dev"; lit "vercel.app"].
Definition CCTLD_SECOND_LEVELS : list str :=
  [lit "ac"; lit "co"; lit "com"; lit "edu"; lit "firm"; lit "gen"; lit "go"; lit "gov"; lit "id"; lit "ind";
   lit "lg"; lit "mil"; lit "ne"; lit "net"; lit "or"; lit "org"; lit "sch"].
Definition looks_like_public_suffix (domain : str) : bool :=
  let labels := split_bytes DOT domain in
  if (count labels <? 2) || bool_decide (domain ∈ PRIVATE_OR_MULTI_LABEL_SUFFIXES) then true else
  match labels with
  | [second; top] => (str_len top =? 2) && bool_decide (second ∈ CCTLD_SECOND_LEVELS)
  | _ => false
  end.

Inductive CookieDomainKind := HostOnly | DomainCookie.
#[global] Instance CookieDomainKind_eq_dec : EqDecision CookieDomainKind.
Proof. solve_decision. Defined.

Definition host_is_loopback (h : Host) : bool :=
  match h with
  | Domain domain => eq_ignore_ascii_case domain (lit "localhost")
  | HostIpv4 address => Ipv4.is_loopback address
  | HostIpv6 address => Ipv6.is_loopback address
  end.

Section hosts.
Context `{CookieHosts}.
Definition canonical_cookie_domain (raw : str) (kind : CookieDomainKind) : Result CookieError str :=
  if is_empty raw || (MAX_DOMAIN_INPUT_BYTES <? str_len raw) || existsb is_control raw
     || existsb is_whitespace raw || bool_decide (37 ∈ raw) || ends_with DOT raw
  then Err InvalidRecord else
  domain ← match kind with
           | HostOnly => if starts_with DOT raw then Err InvalidRecord else Ok raw
           | DomainCookie => Ok (default raw (strip_prefix [DOT] raw))
           end;
  if is_empty domain || starts_with DOT domain then Err InvalidRecord else
  h ← ok_or (host_parse domain) InvalidRecord;
  match h with
  | Domain domain =>
      validate_canonical_domain domain ;;
      if bool_decide (kind = DomainCookie) && looks_like_public_suffix domain
      then Err InvalidRecord else Ok domain
  | HostIpv4 address =>
      if bool_decide (kind = DomainCookie) then Err InvalidRecord else Ok (ipv4_to_string address)
  | HostIpv6 address =>
      if bool_decide (kind = DomainCookie) then Err InvalidRecord else Ok (ipv6_to_string address)
  end.
Definition canonical_request_host (h : Host) : Result CookieError (str * bool) :=
  match h with
  | Domain domain => map_err (λ _, InvalidRequestUrl) (validate_canonical_domain domain) ;; Ok (domain, false)
  | HostIpv4 address => Ok (ipv4_to_string address, true)
  | HostIpv6 address => Ok (ipv6_to_string address, true)
  end.
End hosts.

(** ** Records and imports *)

Record CookieIdentity := mk_identity {
  name : str;
  domain : str;
  domain_kind : CookieDomainKind;
  cookie_path : str;
}.
Record CookieData := mk_data {
  value : str;
  secure : bool;
  expires_at : option Z;
}.
Record CookieRecord := mk_record { identity : CookieIdentity; cookie_data : CookieData }.
#[global] Instance CookieIdentity_eq_dec : EqDecision CookieIdentity.
Proof. solve_decision. Defined.
#[global] Instance CookieDomainKind_countable : Countable CookieDomainKind.
Proof.
  apply (inj_countable' (λ k, match k with HostOnly => true | DomainCookie => false end)
    (λ b, if b : bool then HostOnly else DomainCookie)). by intros [].
Defined.
#[global] Instance CookieIdentity_countable : Countable CookieIdentity.
Proof.
  apply (inj_countable' (λ i, (name i, domain i, domain_kind i, cookie_path i))
    (λ t, mk_identity t.1.1.1 t.1.1.2 t.1.2 t.2)). by intros [].
Defined.

(** [CookieRecord::new] *)
Definition cookie_record_new `{CookieHosts} (name value domain : str) (kind : CookieDomainKind) (path : str)
    (secure : bool) (expires_at : option Z) : Result CookieError CookieRecord :=
  validate_cookie_name name ;;
  validate_cookie_value value ;;
  validate_cookie_path path ;;
  domain ← canonical_cookie_domain domain kind;
  Ok (mk_record (mk_identity name domain kind path) (mk_data value secure expires_at)).
Definition byte_len (r : CookieRecord) : Result CookieError Z :=
  let i := identity r in
  ok_or (t ← checked_add usize_max (str_len (name i)) (str_len (value (cookie_data r)));
         t ← checked_add usize_max t (str_len (domain i));
         checked_add usize_max t (str_len (cookie_path i))) JarTooLarge.

(** [CookieSourceId] is a [u16]. *)
Notation CookieSourceId := Z (only parsing).
Definition MANUAL : CookieSourceId := 0.
Record CookieImportOrder := mk_order { sources : list CookieSourceId }.
Definition import_order_new (l : list CookieSourceId) : Result CookieError CookieImportOrder :=
  if is_empty l || (MAX_IMPORT_SOURCES <? count l) then Err InvalidImportOrder else
  if negb (bool_decide (NoDup l)) then Err InvalidImportOrder else Ok (mk_order l).
(** [Iterator::position] *)
Fixpoint position (source : CookieSourceId) (l : list CookieSourceId) : option Z :=
  match l with
  | [] => None
  | candidate :: l => if candidate =? source then Some 0 else Z.succ <$> position source l
  end.
Definition rank (order : CookieImportOrder) (source : CookieSourceId) : option Z := position source (sources order).

Record CookieImport := mk_import { import_source : CookieSourceId; records : list CookieRecord; import_bytes : Z }.
Fixpoint sum_bytes (total : Z) (l : list CookieRecord) : Result CookieError Z :=
  match l with
  | [] => Ok total
  | r :: l => bytes ← byte_len r; total ← ok_or (checked_add usize_max total bytes) JarTooLarge; sum_bytes total l
  end.
Definition import_new (source : CookieSourceId) (l : list CookieRecord) : Result CookieError CookieImport :=
  if MAX_COOKIES_PER_IMPORT <? count l then Err JarTooLarge else
  bytes ← sum_bytes 0 l;
  if MAX_COOKIE_JAR_BYTES <? bytes then Err JarTooLarge else Ok (mk_import source l bytes).

(** ** Request URLs *)

Inductive CookieUrlPolicy := HttpsOnly | LoopbackHttp.
#[global] Instance CookieUrlPolicy_eq_dec : EqDecision CookieUrlPolicy.
Proof. solve_decision. Defined.

Record ValidatedCookieUrl `{UrlCrate} := mk_validated {
  target_url : Url;
  target_host : str;
  host_is_ip : bool;
  target_secure : bool;
}.

Section urls.
Context `{CookieHosts}.
(** [ValidatedCookieUrl::new] and [parse] *)
Definition validated_url_new (url : Url) (policy : CookieUrlPolicy) : Result CookieError ValidatedCookieUrl :=
  if (MAX_REQUEST_URL_BYTES <? str_len (url_as_str url)) || negb (is_empty (username url))
     || bool_decide (is_Some (password url)) || bool_decide (is_Some (fragment url))
  then Err InvalidRequestUrl else
  h ← ok_or (host url) InvalidRequestUrl;
  secure ← (if is_https (scheme url) then Ok true
            else if is_http (scheme url) && bool_decide (policy = LoopbackHttp) && host_is_loopback h
            then Ok false else Err InvalidRequestUrl);
  '(host, host_is_ip) ← canonical_request_host h;
  Ok (mk_validated _ url host host_is_ip secure).
Definition validated_url_parse (raw : str) (policy : CookieUrlPolicy) : Result CookieError ValidatedCookieUrl :=
  if is_empty raw || (MAX_REQUEST_URL_BYTES <? str_len raw) || existsb is_control raw
  then Err InvalidRequestUrl else
  url ← ok_or (url_parse raw) InvalidRequestUrl;
  validated_url_new url policy.
End urls.

(** ** The jar *)

Record CookieJar := mk_jar {
  jar_entries : gmap CookieIdentity CookieData;
  record_count : Z;
  byte_count : Z;
}.
Definition jar_is_empty (jar : CookieJar) : bool := record_count jar =? 0.

(** The check of the batches: known sources, each once. *)
Fixpoint check_batches (order : CookieImportOrder) (seen : list CookieSourceId) (imports : list CookieImport) :
    Result CookieError unit :=
  match imports with
  | [] => Ok tt
  | i :: imports =>
      if negb (bool_decide (is_Some (rank order (import_source i)))) || bool_decide (import_source i ∈ seen)
      then Err InvalidImportOrder else check_batches order (import_source i :: seen) imports
  end.
Definition rank_key (order : CookieImportOrder) (i : CookieImport) : Z :=
  default usize_max (rank order (import_source i)).
(** [Iterator::find] *)
Fixpoint find_import (p : CookieImport → bool) (l : list CookieImport) : option CookieImport :=
  match l with
  | [] => None
  | i :: l => if p i then Some i else find_import p l
  end.
Definition insert_records (l : list CookieRecord) : gmap CookieIdentity CookieData :=
  foldl (λ entries r, <[identity r := cookie_data r]> entries) ∅ l.
Definition from_imports (order : CookieImportOrder) (imports : list CookieImport) : Result CookieError CookieJar :=
  if count (sources order) <? count imports then Err InvalidImportOrder else
  check_batches order [] imports ;;
  let imports := sort_by_key (rank_key order) imports in
  match find_import (λ i, negb (is_empty (records i))) imports with
  | None => Ok (mk_jar ∅ 0 0)
  | Some selected =>
      let record_count := count (records selected) in
      let byte_count := import_bytes selected in
      if (MAX_COOKIE_JAR_RECORDS <? record_count) || (MAX_COOKIE_JAR_BYTES <? byte_count)
      then Err JarTooLarge else
      Ok (mk_jar (insert_records (records selected)) record_count byte_count)
  end.

Definition path_matches (cookie_path request_path : str) : bool :=
  bool_decide (request_path = cookie_path)
  || match strip_prefix cookie_path request_path with
     | Some suffix => ends_with 47 cookie_path || starts_with 47 suffix
     | None => false
     end.
Definition domain_kind_rank (kind : CookieDomainKind) : Z :=
  match kind with HostOnly => 0 | DomainCookie => 1 end.

(** The order of [header_for]: longest path first, host-only before domain,
    longest domain first, then path, name and domain. *)
Definition selection_key (e : CookieIdentity * CookieData) :
    Reverse Z * Z * Reverse Z * list Z * list Z * list Z :=
  let i := e.1 in
  (mk_reverse (str_len (cookie_path i)), domain_kind_rank (domain_kind i), mk_reverse (str_len (domain i)),
   as_bytes (cookie_path i), as_bytes (name i), as_bytes (domain i)).

(** The pass that sizes the header. *)
Fixpoint header_size (first : bool) (total : Z) (l : list (CookieIdentity * CookieData)) : Result CookieError Z :=
  match l with
  | [] => Ok total
  | (i, d) :: l =>
      appended ← ok_or (size ← checked_add usize_max (str_len (name i)) 1;
                        size ← checked_add usize_max size (str_len (value d));
                        checked_add usize_max size (if first then 0 else 2)) HeaderTooLarge;
      total ← ok_or (size ← checked_add usize_max total appended;
                     if size <=? MAX_COOKIE_HEADER_BYTES then Some size else None) HeaderTooLarge;
      header_size false total l
  end.
Fixpoint header_text (first : bool) (l : list (CookieIdentity * CookieData)) : str :=
  match l with
  | [] => []
  | (i, d) :: l => (if first then [] else lit "; ") ++ name i ++ lit "=" ++ value d ++ header_text false l
  end.

Section selection.
Context `{UrlCrate}.
(** [CookieIdentity::matches_host] *)
Definition matches_host (i : CookieIdentity) (target : ValidatedCookieUrl) : bool :=
  match domain_kind i with
  | HostOnly => bool_decide (domain i = target_host target)
  | DomainCookie =>
      if host_is_ip target then false else
      bool_decide (target_host target = domain i)
      || match strip_suffix (domain i) (target_host target) with
         | Some prefix => ends_with DOT prefix
         | None => false
         end
  end.
Definition selects (target : ValidatedCookieUrl) (now : Z) (e : CookieIdentity * CookieData) : bool :=
  negb (negb (matches_host e.1 target)
        || negb (path_matches (cookie_path e.1) (path (target_url target)))
        || (secure e.2 && negb (target_secure target))
        || match expires_at e.2 with Some expires_at => expires_at <=? now | None => false end).
(** [header_for] on the entries in the order the map yields them. *)
Definition header_of (entries : list (CookieIdentity * CookieData)) (target : ValidatedCookieUrl) (now : Z) :
    Result CookieError (option str) :=
  let selected := sort_by_key selection_key (filter (λ e, selects target now e = true) entries) in
  if is_empty selected then Ok None else
  header_size true 0 selected ;;
  Ok (Some (header_text true selected)).
Definition header_for (jar : CookieJar) (target : ValidatedCookieUrl) (now : Z) : Result CookieError (option str) :=
  header_of (map_to_list (jar_entries jar)) target now.
End selection.

(** ** Captures *)

Record Shell := mk_shell { tokens : list str; current : str; quote : option Z; escaped : bool }.
Definition push_shell_token (s : Shell) : Result CookieError Shell :=
  if MAX_CAPTURE_TOKENS <=? count (tokens s) then Err JarTooLarge
  else Ok (mk_shell (tokens s ++ [current s]) [] (quote s) (escaped s)).
Definition push_char (c : Z) (s : Shell) : Shell := mk_shell (tokens s) (current s ++ [c]) (quote s) false.
Definition set_quote (q : option Z) (s : Shell) : Shell := mk_shell (tokens s) (current s) q false.
Definition shell_step (c : Z) (s : Shell) : Result CookieError Shell :=
  if escaped s then Ok (push_char c s) else
  if (c =? 92) && negb (bool_decide (quote s = Some 39))
  then Ok (mk_shell (tokens s) (current s) (quote s) true) else
  if bool_decide (c ∈ QUOTES) then
    Ok (if bool_decide (quote s = Some c) then set_quote None s
        else if bool_decide (quote s = None) then set_quote (Some c) s
        else push_char c s)
  else if is_ascii_whitespace c && bool_decide (quote s = None) then
    if is_empty (current s) then Ok s else push_shell_token s
  else Ok (push_char c s).
Fixpoint shell_run (raw : str) (s : Shell) : Result CookieError Shell :=
  match raw with
  | [] => Ok s
  | c :: raw => s ← shell_step c s; shell_run raw s
  end.
Definition shell_tokens (raw : str) : Result CookieError (list str) :=
  s ← shell_run raw (mk_shell [] [] None false);
  if escaped s || bool_decide (is_Some (quote s)) then Err InvalidRecord else
  s ← (if is_empty (current s) then Ok s else push_shell_token s);
  Ok (tokens s).

Definition COOKIE_HEADER : str := lit "cookie:".
(** The first pass over the tokens, for a header. *)
Fixpoint header_token (tokens : list str) : option str :=
  match tokens with
  | [] => None
  | token :: rest =>
      if bool_decide (token = lit "-H") || bool_decide (token = lit "--header") then
        match next ← head rest; strip_ascii_case_prefix next COOKIE_HEADER with
        | Some value => Some value
        | None => header_token rest
        end
      else
        match header ← strip_prefix (lit "-H") token; strip_ascii_case_prefix header COOKIE_HEADER with
        | Some value => Some value
        | None =>
            match header ← strip_prefix (lit "--header=") token; strip_ascii_case_prefix header COOKIE_HEADER with
            | Some value => Some value
            | None =>
                match strip_ascii_case_prefix token COOKIE_HEADER with
                | Some value => Some value
                | None => header_token rest
                end
            end
        end
  end.
(** The second pass, for a cookie option. *)
Fixpoint cookie_token (tokens : list str) : Result CookieError str :=
  match tokens with
  | [] => Err InvalidRecord
  | token :: rest =>
      if bool_decide (token = lit "-b") || bool_decide (token = lit "--cookie") then
        value ← ok_or (head rest) InvalidRecord; owned_nonempty value
      else
        match strip_prefix (lit "-b") token with
        | Some (c :: value) => owned_nonempty (c :: value)
        | _ =>
            match strip_prefix (lit "--cookie=") token with
            | Some value => owned_nonempty value
            | None => cookie_token rest
            end
        end
  end.
Definition extract_cookie_capture (raw : str) : Result CookieError str :=
  let direct := strip_outer_quotes (trim raw) in
  match strip_ascii_case_prefix direct COOKIE_HEADER with
  | Some value => owned_nonempty value
  | None =>
      if bool_decide (61 ∈ direct) && negb (starts_with 45 direct)
         && negb match first_word direct with Some first => eq_ignore_ascii_case first (lit "curl") | None => false end
      then owned_nonempty direct else
      tokens ← shell_tokens raw;
      match header_token tokens with
      | Some value => owned_nonempty value
      | None => cookie_token tokens
      end
  end.

Notation CookiePair := (str * str)%type.
Fixpoint parse_parts (parts : list str) (pairs : list CookiePair) (total : Z) : Result CookieError (list CookiePair) :=
  match parts with
  | [] => Ok pairs
  | part :: parts =>
      '(name, value) ← ok_or (split_once (lit "=") (trim part)) InvalidRecord;
      let name := trim name in
      let value := trim value in
      validate_cookie_name name ;;
      validate_cookie_value value ;;
      total ← ok_or (size ← checked_add usize_max total (str_len name); checked_add usize_max size (str_len value))
                    JarTooLarge;
      if (MAX_CAPTURE_PAIRS <=? count pairs) || (MAX_COOKIE_HEADER_BYTES <? total) then Err JarTooLarge else
      parse_parts parts (pairs ++ [(name, value)]) total
  end.
Definition parse_cookie_pairs (raw : str) : Result CookieError (list CookiePair) :=
  let raw := trim (strip_outer_quotes (trim raw)) in
  if is_empty raw then Err InvalidRecord else parse_parts (split_bytes 59 raw) [] 0.

(** [CookieHeaderNormalizer::normalize] and [filtered] *)
Definition normalize (raw : option str) : Result CookieError (option (list CookiePair)) :=
  match raw with
  | None => Ok None
  | Some raw =>
      let raw := trim raw in
      if is_empty raw then Ok None else
      if (MAX_CAPTURE_BYTES <? str_len raw) || existsb (λ c, is_control c && negb (c =? 9)) raw
      then Err InvalidRecord else
      candidate ← extract_cookie_capture raw;
      Some <$> parse_cookie_pairs candidate
  end.
Definition filtered (raw : option str) (allowed_names : list str) : Result CookieError (option (list CookiePair)) :=
  if is_empty allowed_names || existsb (λ name, negb (is_ok (validate_cookie_name name))) allowed_names
  then Err InvalidRecord else
  normalized ← normalize raw;
  match normalized with
  | None => Ok None
  | Some pairs =>
      let pairs := filter (λ p, p.1 ∈ allowed_names) pairs in
      Ok (if is_empty pairs then None else Some pairs)
  end.

Section captures.
Context `{CookieHosts}.
Definition host_only_record (target : ValidatedCookieUrl) (expires_at : option Z) (pair : CookiePair) : CookieRecord :=
  mk_record (mk_identity pair.1 (target_host target) HostOnly (lit "/"))
    (mk_data pair.2 (target_secure target) expires_at).
Definition from_normalized_host_only (source : CookieSourceId) (pairs : list CookiePair)
    (target : ValidatedCookieUrl) (expires_at : option Z) : Result CookieError CookieImport :=
  import_new source (host_only_record target expires_at <$> pairs).
Definition from_host_only_capture (source : CookieSourceId) (raw : str) (target : ValidatedCookieUrl)
    (expires_at : option Z) : Result CookieError CookieImport :=
  normalized ← normalize (Some raw);
  pairs ← ok_or normalized InvalidRecord;
  from_normalized_host_only source pairs target expires_at.
End captures.
