(* ===== verification/CookieFacts.v ===== *)
(** * Cookies: which requests they reach

    The selection of [header_for] against its declarative meaning, whatever
    order the map is enumerated in; the jar as the first source that has
    anything; and captures, from the pasted text to the header they become. *)
From stdpp Require Import gmap countable sorting prelude.
From S2P Require Import Prelude Ordering Text Externals Endpoint Config Cookie.
Local Open Scope Z_scope.

(** ** Strings *)

Lemma strip_prefix_Some prefix s rest : strip_prefix prefix s = Some rest ↔ s = prefix ++ rest.
Proof.
  revert s. induction prefix as [|p prefix IH]; intros s; cbn; [naive_solver|].
  destruct s as [|c s]; [naive_solver|]. destruct (Z.eqb_spec p c) as [->|Hp]; [rewrite IH|]; naive_solver.
Qed.
Lemma strip_suffix_Some suffix s before : strip_suffix suffix s = Some before ↔ s = before ++ suffix.
Proof.
  unfold strip_suffix. rewrite fmap_Some. split.
  - intros (r & Hr%strip_prefix_Some & ->). by rewrite <-(reverse_involutive s), Hr, reverse_app, reverse_involutive.
  - intros ->. exists (reverse before). rewrite strip_prefix_Some, reverse_app, reverse_involutive. done.
Qed.
Lemma ends_with_spec c s : ends_with c s = true ↔ ∃ k, s = k ++ [c].
Proof.
  unfold ends_with. rewrite bool_decide_eq_true, last_Some. done.
Qed.
Lemma starts_with_spec c s : starts_with c s = true ↔ ∃ k, s = c :: k.
Proof. unfold starts_with. rewrite bool_decide_eq_true. destruct s; naive_solver. Qed.

(** ** Selection *)

(** The path of a cookie covers that of a request. *)
Definition covers (cookie_path request_path : str) : Prop :=
  request_path = cookie_path ∨
  ∃ rest, request_path = cookie_path ++ rest ∧ ((∃ k, cookie_path = k ++ [47]) ∨ ∃ k, rest = 47 :: k).
Lemma path_matches_spec c r : path_matches c r = true ↔ covers c r.
Proof.
  unfold path_matches, covers. rewrite orb_true_iff, bool_decide_eq_true.
  destruct (strip_prefix c r) as [rest|] eqn:Hs.
  - rewrite orb_true_iff, ends_with_spec, starts_with_spec. apply strip_prefix_Some in Hs.
    split; [naive_solver|]. intros [?|(k & Hk & ?)]; [by left|right]. by assert (k = rest) as -> by (apply (app_inv_head c); congruence).
  - split; [naive_solver|]. intros [?|(k & Hk & _)]; [by left|]. apply strip_prefix_Some in Hk. congruence.
Qed.

Section selection.
Context `{UrlCrate}.
(** A cookie belongs to a host: its own, or below its domain. *)
Definition belongs (i : CookieIdentity) (target : ValidatedCookieUrl) : Prop :=
  match domain_kind i with
  | HostOnly => target_host target = domain i
  | DomainCookie => host_is_ip target = false ∧
      (target_host target = domain i ∨ ∃ sub, target_host target = sub ++ DOT :: domain i)
  end.
(** A cookie may be sent with a request, at a time. *)
Record Sendable (target : ValidatedCookieUrl) (now : Z) (i : CookieIdentity) (d : CookieData) : Prop := {
  sendable_host : belongs i target;
  sendable_path : covers (cookie_path i) (path (target_url target));
  sendable_secure : secure d = true → target_secure target = true;
  sendable_expiry : ∀ e, expires_at d = Some e → now < e;
}.

Lemma matches_host_spec i target : matches_host i target = true ↔ belongs i target.
Proof.
  unfold matches_host, belongs. destruct (domain_kind i).
  { rewrite bool_decide_eq_true. naive_solver. }
  destruct (host_is_ip target); [naive_solver|]. rewrite orb_true_iff, bool_decide_eq_true.
  destruct (strip_suffix (domain i) (target_host target)) as [before|] eqn:Hs.
  - rewrite ends_with_spec. apply strip_suffix_Some in Hs. split.
    + intros [?|[k ->]]; [auto|]. split; [done|]. right. exists k. by rewrite Hs, <-app_assoc.
    + intros [_ [?|[sub Hsub]]]; [by left|right]. exists sub. rewrite Hs in Hsub.
      eapply (app_inv_tail (domain i)). by rewrite Hsub, <-app_assoc.
  - split; [naive_solver|]. intros [_ [?|[sub Hsub]]]; [by left|].
    assert (strip_suffix (domain i) (target_host target) = Some (sub ++ [DOT])) by (apply strip_suffix_Some; by rewrite Hsub, <-app_assoc).
    congruence.
Qed.
Lemma selects_spec target now e : selects target now e = true ↔ Sendable target now e.1 e.2.
Proof.
  unfold selects. rewrite negb_true_iff, !orb_false_iff, !negb_false_iff, matches_host_spec, path_matches_spec, andb_false_iff, negb_false_iff.
  split.
  - intros [[[Hh Hp] Hs] He]. split; [done|done| |].
    + intros Hsec. destruct Hs as [Hs|Hs]; [congruence|done].
    + intros x Hx. rewrite Hx in He. by apply Z.leb_gt.
  - intros [Hh Hp Hs He]. split; [split; [done|]|].
    + destruct (secure e.2); [right; by apply Hs|by left].
    + destruct (expires_at e.2) as [x|]; [|done]. by apply Z.leb_gt, He.
Qed.
End selection.

(** The strings of a jar are Rust strings. *)
Definition rust_strings (i : CookieIdentity) : Prop :=
  Forall is_scalar (name i) ∧ Forall is_scalar (domain i) ∧ Forall is_scalar (cookie_path i).
Lemma selection_key_inj e1 e2 : rust_strings e1.1 → rust_strings e2.1 →
  selection_key e1 = selection_key e2 → e1.1 = e2.1.
Proof.
  intros (Hn1 & Hd1 & Hp1) (Hn2 & Hd2 & Hp2). destruct e1 as [[n1 d1 k1 p1] x1], e2 as [[n2 d2 k2 p2] x2].
  unfold selection_key. cbn in *. intros [= _ Hk _ Hp Hn Hd].
  apply as_bytes_inj in Hp, Hn, Hd; [|done..]. subst. f_equal. by destruct k1, k2.
Qed.
Lemma selection_keys_NoDup (l : list (CookieIdentity * CookieData)) :
  Forall (λ e, rust_strings e.1) l → NoDup l.*1 → NoDup (selection_key <$> l).
Proof.
  induction 1 as [|e l He Hl IH]; cbn; [constructor|]. intros [Hnin Hnd]%NoDup_cons. constructor; [|by apply IH].
  intros (e' & Hk & He')%list_elem_of_fmap. apply Hnin. rewrite Forall_forall in Hl.
  rewrite (selection_key_inj e e'); [by apply list_elem_of_fmap_2|done|by apply Hl|done].
Qed.

(** The size pass says when the text is too long. *)
Lemma header_size_spec first total l : 0 ≤ total ≤ MAX_COOKIE_HEADER_BYTES →
  header_size first total l =
    if total + str_len (header_text first l) <=? MAX_COOKIE_HEADER_BYTES
    then Ok (total + str_len (header_text first l)) else Err HeaderTooLarge.
Proof.
  revert first total. induction l as [|[i d] l IH]; intros first total Ht.
  { cbn [header_size header_text str_len]. rewrite Z.add_0_r. by destruct (Z.leb_spec total MAX_COOKIE_HEADER_BYTES); [|lia]. }
  cbn [header_size header_text]. rewrite !str_len_app.
  set (sep := str_len (if first then [] else lit "; ")). assert (Hsep : sep = if first then 0 else 2) by (by destruct first).
  rewrite <-Hsep. assert (0 ≤ sep) by (rewrite Hsep; by destruct first). change (str_len (lit "=")) with 1.
  pose proof (str_len_nonneg (name i)). pose proof (str_len_nonneg (value d)).
  pose proof (str_len_nonneg (header_text false l)). set (rest := str_len (header_text false l)) in *.
  set (a := str_len (name i)) in *. set (b := str_len (value d)) in *.
  assert (MAX_COOKIE_HEADER_BYTES < usize_max) by done.
  destruct (Z.leb_spec (total + (sep + (a + (1 + (b + rest))))) MAX_COOKIE_HEADER_BYTES) as [Hle|Hgt].
  - unfold checked_add.
    repeat (match goal with |- context [?x <=? ?y] => rewrite (proj2 (Z.leb_le x y)) by lia end;
      cbn [ok_or mbind Result_bind option_bind]).
    rewrite IH by lia. fold rest. rewrite (proj2 (Z.leb_le _ MAX_COOKIE_HEADER_BYTES)) by lia. f_equal. lia.
  - destruct (size ← checked_add usize_max a 1; size ← checked_add usize_max size b; checked_add usize_max size sep)
      as [appended|] eqn:Happ; [|done].
    apply bind_Some in Happ as (s1 & [-> _]%checked_add_Some & Happ).
    apply bind_Some in Happ as (s2 & [-> _]%checked_add_Some & [-> _]%checked_add_Some).
    cbn [ok_or mbind Result_bind]. unfold checked_add.
    destruct (Z.leb_spec (total + (a + 1 + b + sep)) usize_max); [|done]. cbn [option_bind mbind].
    destruct (Z.leb_spec (total + (a + 1 + b + sep)) MAX_COOKIE_HEADER_BYTES); [|done]. cbn [ok_or mbind Result_bind].
    rewrite IH by lia. fold rest. by rewrite (proj2 (Z.leb_gt _ MAX_COOKIE_HEADER_BYTES)) by lia.
Qed.

Lemma sublist_map {A B} (f : A → B) l k : l `sublist_of` k → f <$> l `sublist_of` f <$> k.
Proof. induction 1; cbn; by constructor. Qed.

Section header.
Context `{UrlCrate}.
Definition header_result (l : list (CookieIdentity * CookieData)) : Result CookieError (option str) :=
  if is_empty l then Ok None
  else if str_len (header_text true l) <=? MAX_COOKIE_HEADER_BYTES then Ok (Some (header_text true l))
  else Err HeaderTooLarge.
Definition chosen (entries : list (CookieIdentity * CookieData)) target now :=
  sort_by_key selection_key (filter (λ e, selects target now e = true) entries).

Lemma header_of_result entries target now : header_of entries target now = header_result (chosen entries target now).
Proof.
  unfold header_of, header_result. fold (chosen entries target now). destruct (is_empty _); [done|].
  rewrite header_size_spec by done. rewrite Z.add_0_l. by destruct (_ <=? _).
Qed.
Lemma chosen_perm entries target now : chosen entries target now ≡ₚ filter (λ e, selects target now e = true) entries.
Proof. apply sort_by_key_perm. Qed.
Lemma jar_keys_NoDup (m : gmap CookieIdentity CookieData) target now :
  (∀ i d, m !! i = Some d → rust_strings i) →
  let l := filter (λ e, selects target now e = true) (map_to_list m) in
  NoDup l.*1 ∧ NoDup (selection_key <$> l).
Proof.
  intros Hm l. assert (Hnd : NoDup l.*1).
  { eapply sublist_NoDup; [apply (NoDup_fst_map_to_list m)|]. apply sublist_map, sublist_filter. }
  split; [done|]. apply selection_keys_NoDup; [|done]. apply Forall_forall. intros [i d] [_ Hin]%list_elem_of_filter.
  apply elem_of_map_to_list in Hin. by eapply Hm.
Qed.
End header.

(** ** The jar *)

Lemma position_Some s l : is_Some (position s l) ↔ s ∈ l.
Proof.
  induction l as [|c l IH]; cbn; [by split; [intros []|intros ?%elem_of_nil]|].
  rewrite elem_of_cons. destruct (Z.eqb_spec c s) as [->|Hc]; [split; [by left|by eexists]|].
  rewrite fmap_is_Some, IH. naive_solver.
Qed.
Lemma check_batches_spec order seen imports u : check_batches order seen imports = Ok u ↔
  NoDup (import_source <$> imports) ∧
  ∀ i, i ∈ imports → import_source i ∈ sources order ∧ import_source i ∉ seen.
Proof.
  destruct u. revert seen. induction imports as [|i l IH]; intros seen; cbn.
  { split; [intros _|done]. split; [constructor|]. by intros i ?%elem_of_nil. }
  rewrite NoDup_cons. case_bool_decide as Hr; unfold rank in Hr; rewrite position_Some in Hr; cbn.
  2:{ split; [done|]. intros [_ Hall]. destruct Hr. apply (Hall i). by left. }
  case_bool_decide as Hs.
  { split; [done|]. intros [_ Hall]. exfalso. apply (Hall i); [by left|done]. }
  rewrite IH. split.
  - intros [Hnd Hall]. split; [split; [|done]|].
    + intros (j & Hj & Hin)%list_elem_of_fmap. apply (Hall j Hin). rewrite <-Hj. by left.
    + intros j [->|Hj]%elem_of_cons; [done|]. destruct (Hall j Hj) as [? Hn]. split; [done|].
      intros ?. apply Hn. by right.
  - intros [[Hnin Hnd] Hall]. split; [done|]. intros j Hj. destruct (Hall j) as [? Hn]; [by right|]. split; [done|].
    intros [He|?]%elem_of_cons; [|done]. apply Hnin. rewrite <-He. by apply list_elem_of_fmap_2.
Qed.
Lemma find_import_Some p l i : find_import p l = Some i →
  ∃ before after, l = before ++ i :: after ∧ p i = true ∧ Forall (λ j, p j = false) before.
Proof.
  induction l as [|j l IH]; cbn; [done|]. destruct (p j) eqn:Hp.
  - intros [= ->]. by exists [], l.
  - intros Hf. destruct (IH Hf) as (b & a & -> & Hi & Hb). exists (j :: b), a. split; [done|]. split; [done|]. by constructor.
Qed.
Lemma find_import_None p l : find_import p l = None ↔ Forall (λ j, p j = false) l.
Proof.
  induction l as [|j l IH]; cbn; [by split; [constructor|]|]. rewrite Forall_cons. destruct (p j); naive_solver.
Qed.
Lemma insert_records_lookup l i :
  insert_records l !! i = cookie_data <$> last (filter (λ r, identity r = i) l).
Proof.
  induction l as [|r l IH] using rev_ind; [done|]. unfold insert_records in *. rewrite foldl_app, filter_app. cbn [foldl].
  destruct (decide (identity r = i)) as [<-|Hi].
  - rewrite lookup_insert_eq, filter_cons_True by done. by rewrite filter_nil, last_snoc.
  - rewrite lookup_insert_ne, IH by done. rewrite filter_cons_False by done. by rewrite filter_nil, app_nil_r.
Qed.

(** Imports as [import_new] makes them. *)
Definition import_wf (i : CookieImport) : Prop := import_new (import_source i) (records i) = Ok i.
Lemma import_wf_bounds i : import_wf i → count (records i) ≤ MAX_COOKIES_PER_IMPORT ∧ import_bytes i ≤ MAX_COOKIE_JAR_BYTES.
Proof.
  unfold import_wf, import_new. destruct (Z.ltb_spec MAX_COOKIES_PER_IMPORT (count (records i))); [done|].
  intros (b & _ & Hb)%bind_Ok. destruct (Z.ltb_spec MAX_COOKIE_JAR_BYTES b); [done|]. injection Hb as Hb. rewrite <-Hb. done.
Qed.

(** The batches of a valid set: of known sources, one each. *)
Definition batches_ok (order : CookieImportOrder) (imports : list CookieImport) : Prop :=
  NoDup (import_source <$> imports) ∧ ∀ i, i ∈ imports → import_source i ∈ sources order.
(** The first batch in the order that has a record. *)
Definition first_batch (order : CookieImportOrder) (imports : list CookieImport) (i : CookieImport) : Prop :=
  i ∈ imports ∧ records i ≠ [] ∧ ∀ j, j ∈ imports → records j ≠ [] → rank_key order i ≤ rank_key order j.
Definition jar_of (i : CookieImport) : CookieJar :=
  mk_jar (insert_records (records i)) (count (records i)) (import_bytes i).

Lemma le_by_Z {A} (f : A → Z) x y : le_by (cmp_on f) x y = true → f x ≤ f y.
Proof.
  intros [Hc|Hc]%le_by_cases; [|lia]. apply Z.lt_le_incl. exact (proj1 (Z.compare_lt_iff _ _) Hc).
Qed.
Lemma sorted_first order imports before i after :
  sort_by_key (rank_key order) imports = before ++ i :: after →
  Forall (λ j, negb (is_empty (records j)) = false) before → records i ≠ [] → first_batch order imports i.
Proof.
  intros Hs Hb Hi. pose proof (sort_by_key_perm (rank_key order) imports) as Hp.
  pose proof (sort_by_key_sorted (rank_key order) imports) as Hsort. rewrite Hs in Hp, Hsort.
  split; [rewrite <-Hp; apply elem_of_app; right; by left|]. split; [done|]. intros j Hj Hne.
  rewrite <-Hp in Hj. apply elem_of_app in Hj as [Hj|[->|Hj]%elem_of_cons]; [|done|].
  - rewrite Forall_forall in Hb. specialize (Hb j Hj). by destruct (records j).
  - apply StronglySorted_app in Hsort as (_ & _ & Hsort). apply StronglySorted_inv in Hsort as [_ Ha].
    rewrite Forall_forall in Ha. by apply le_by_Z, Ha.
Qed.

(** ** Captures *)

(** The bytes of a text that are all below 127 are its characters. *)
Lemma forallb_bytes (p : Z → bool) s : (∀ b, p b = true → b < 127) →
  forallb p (as_bytes s) = true → Forall (λ c, p c = true) s.
Proof.
  intros Hp. induction s as [|c s IH]; [constructor|].
  unfold as_bytes. rewrite bind_cons, forallb_app, andb_true_iff. intros [Hc Hs]. constructor; [|by apply IH].
  unfold utf8_char in Hc. repeat case_match; cbn in Hc; rewrite ?andb_true_iff in Hc; try tauto;
    destruct Hc as [Hc _]; apply Hp in Hc; repeat match goal with H : (_ <? _) = false |- _ => apply Z.ltb_ge in H end;
    Z.to_euclidean_division_equations; lia.
Qed.
Lemma forallb_chars (p : Z → bool) s : (∀ b, p b = true → b < 127) →
  Forall (λ c, p c = true) s → forallb p (as_bytes s) = true.
Proof.
  intros Hp Hs. rewrite as_bytes_ascii; [by apply forallb_Forall_eq|].
  eapply Forall_impl; [exact Hs|]. intros c Hc. cbn in Hc. apply Hp in Hc. lia.
Qed.
Lemma name_byte_graphic b : name_byte b = true → 33 ≤ b ≤ 126 ∧ b ∉ NAME_SEPARATORS.
Proof.
  unfold name_byte. rewrite !andb_true_iff, negb_true_iff, bool_decide_eq_false, !Z.leb_le. lia || tauto.
Qed.
Lemma value_byte_graphic b : value_byte b = true → 33 ≤ b ≤ 126 ∧ b ≠ 59 ∧ b ≠ 34.
Proof.
  unfold value_byte. rewrite !orb_true_iff, !andb_true_iff, !Z.leb_le, Z.eqb_eq. lia.
Qed.
Lemma cookie_name_chars n u : validate_cookie_name n = Ok u → n ≠ [] ∧ Forall (λ c, name_byte c = true) n.
Proof.
  unfold validate_cookie_name. destruct n as [|c n]; [done|]. cbn [is_empty orb].
  destruct (_ <? _); [done|]. cbn [orb]. destruct (forallb _ _) eqn:Hf; [|done]. intros _. split; [done|].
  eapply forallb_bytes; [|exact Hf]. intros b Hb%name_byte_graphic. lia.
Qed.
Lemma cookie_value_chars v u : validate_cookie_value v = Ok u → Forall (λ c, value_byte c = true) v.
Proof.
  unfold validate_cookie_value. destruct (_ <? _); [done|]. cbn [orb]. destruct (forallb _ _) eqn:Hf; [|done]. intros _.
  eapply forallb_bytes; [|exact Hf]. intros b Hb%value_byte_graphic. lia.
Qed.

Definition valid_pair (p : str * str) : Prop :=
  validate_cookie_name p.1 = Ok tt ∧ validate_cookie_value p.2 = Ok tt.
Definition pair_text (p : str * str) : str := p.1 ++ lit "=" ++ p.2.
Fixpoint pairs_text (first : bool) (l : list (str * str)) : str :=
  match l with
  | [] => []
  | p :: l => (if first then [] else lit "; ") ++ pair_text p ++ pairs_text false l
  end.
Definition pair_of (e : CookieIdentity * CookieData) : str * str := (name e.1, value e.2).
Lemma header_text_pairs first l : header_text first l = pairs_text first (pair_of <$> l).
Proof.
  revert first. induction l as [|[i d] l IH]; intros first; [done|]. unfold pair_text. cbn [header_text pairs_text fmap list_fmap pair_of].
  unfold pair_text. cbn [fst snd]. by rewrite IH, <-!app_assoc.
Qed.

(** What the text of a pair is made of. *)
Definition pair_char (c : Z) : Prop := 33 ≤ c ≤ 126 ∧ c ≠ 59 ∧ c ≠ 34.
Lemma separators_no c : c ∉ NAME_SEPARATORS → c ≠ 59 ∧ c ≠ 34 ∧ c ≠ 61 ∧ c ≠ 58.
Proof.
  intros Hc. split; [|split; [|split]]; intros ->; apply Hc; by_decide.
Qed.
Lemma pair_name_chars p : valid_pair p → p.1 ≠ [] ∧ Forall (λ c, pair_char c ∧ c ≠ 61 ∧ c ≠ 58) p.1.
Proof.
  intros [Hn%cookie_name_chars _]. destruct Hn as [Hne Hf]. split; [done|]. eapply Forall_impl; [exact Hf|].
  intros c [Hr Hs]%name_byte_graphic. apply separators_no in Hs. unfold pair_char. tauto.
Qed.
Lemma pair_value_chars p : valid_pair p → Forall pair_char p.2.
Proof.
  intros [_ Hv%cookie_value_chars]. eapply Forall_impl; [exact Hv|]. intros c Hc%value_byte_graphic. exact Hc.
Qed.
Lemma pair_text_chars p : valid_pair p → pair_text p ≠ [] ∧ Forall pair_char (pair_text p).
Proof.
  intros Hp. destruct (pair_name_chars p Hp) as [Hne Hn]. unfold pair_text. split; [by destruct p.1|].
  rewrite !Forall_app. split; [eapply Forall_impl; [exact Hn|]; naive_solver|]. split; [|by apply pair_value_chars].
  change (lit "=") with [61]. constructor; [|constructor]. unfold pair_char. lia.
Qed.
Lemma pair_char_graphic c : pair_char c → is_ascii_graphic c = true.
Proof. unfold pair_char, is_ascii_graphic. rewrite andb_true_iff, !Z.leb_le. lia. Qed.
Lemma trim_part s : Forall pair_char s → s ≠ [] → trim s = s ∧ trim (32 :: s) = s.
Proof.
  intros Hs Hne. assert (Hg : trim s = s).
  { apply trim_ascii_graphic. eapply Forall_impl; [exact Hs|]. apply pair_char_graphic. }
  split; [done|]. unfold trim in *. exact Hg.
Qed.
Lemma split_once_cons e c s : c ≠ e →
  split_once [e] (c :: s) = ('(before, after) ← split_once [e] s; Some (c :: before, after)).
Proof. intros Hc. cbn. by rewrite (proj2 (Z.eqb_neq e c)) by congruence. Qed.
Lemma split_pair p : valid_pair p → split_once (lit "=") (pair_text p) = Some p.
Proof.
  intros Hp. destruct (pair_name_chars p Hp) as [_ Hn]. destruct p as [n v]. unfold pair_text. cbn [fst snd] in *.
  clear Hp. change (lit "=") with [61]. induction Hn as [|c n [_ [Hc _]] Hn IH]; [done|].
  change ((c :: n) ++ [61] ++ v) with (c :: (n ++ [61] ++ v)). by rewrite split_once_cons, IH.
Qed.

(** The parts of the text of pairs. *)
Definition later_part (p : str * str) : str := 32 :: pair_text p.
Lemma pairs_text_concat p l :
  pairs_text true (p :: l) = tail (concat (cons 59 <$> pair_text p :: (later_part <$> l))).
Proof.
  cbn [pairs_text fmap list_fmap concat app tail]. f_equal. induction l as [|q l IH]; [done|].
  cbn [pairs_text fmap list_fmap concat app]. by rewrite IH.
Qed.
Lemma pairs_text_split p l : Forall valid_pair (p :: l) →
  split_bytes 59 (pairs_text true (p :: l)) = pair_text p :: (later_part <$> l).
Proof.
  intros Hv. rewrite pairs_text_concat. apply split_bytes_unique; [done|]. apply Forall_cons in Hv as [Hp Hl].
  assert (Hno : ∀ q, valid_pair q → 59 ∉ pair_text q).
  { intros q Hq Hin. destruct (pair_text_chars q Hq) as [_ Hc]. rewrite Forall_forall in Hc.
    apply Hc in Hin. unfold pair_char in Hin. lia. }
  constructor; [by apply Hno|]. apply Forall_fmap. eapply Forall_impl; [exact Hl|]. intros q Hq.
  unfold compose, later_part. intros [?|?]%elem_of_cons; [done|by apply (Hno q)].
Qed.

Definition pair_len (p : str * str) : Z := str_len p.1 + str_len p.2.
Fixpoint pairs_len (l : list (str * str)) : Z := match l with [] => 0 | p :: l => pair_len p + pairs_len l end.
Lemma pair_len_nonneg p : 0 ≤ pair_len p.
Proof. unfold pair_len. pose proof (str_len_nonneg p.1). pose proof (str_len_nonneg p.2). lia. Qed.
Lemma pairs_len_nonneg l : 0 ≤ pairs_len l.
Proof. induction l as [|p l IH]; cbn; [lia|]. pose proof (pair_len_nonneg p). lia. Qed.
Lemma pairs_len_text first l : pairs_len l ≤ str_len (pairs_text first l).
Proof.
  revert first. induction l as [|p l IH]; intros first; [done|]. cbn [pairs_len pairs_text].
  unfold pair_text, pair_len. rewrite !str_len_app. specialize (IH false).
  pose proof (str_len_nonneg (if first then [] else lit "; ")). pose proof (str_len_nonneg (lit "=")). lia.
Qed.
Lemma parse_part_step part p parts acc total :
  valid_pair p → trim part = pair_text p → 0 ≤ total → total + pair_len p ≤ MAX_COOKIE_HEADER_BYTES →
  count acc < MAX_CAPTURE_PAIRS →
  parse_parts (part :: parts) acc total = parse_parts parts (acc ++ [p]) (total + pair_len p).
Proof.
  intros Hv Ht H0 Htot Hacc. cbn [parse_parts]. rewrite Ht, split_pair by done. destruct p as [n v].
  pose proof Hv as [Hn Hval]. cbn [fst snd] in Hn, Hval.
  assert (Htn : trim n = n).
  { apply trim_ascii_graphic. destruct (pair_name_chars _ Hv) as [_ Hc]. eapply Forall_impl; [exact Hc|].
    intros c [Hg _]. by apply pair_char_graphic. }
  assert (Htv : trim v = v).
  { apply trim_ascii_graphic. eapply Forall_impl; [apply (pair_value_chars _ Hv)|]. apply pair_char_graphic. }
  cbn [ok_or mbind Result_bind]. rewrite Htn, Htv, Hn, Hval. cbn [mbind Result_bind].
  unfold pair_len in *. cbn [fst snd] in *. pose proof (str_len_nonneg n). pose proof (str_len_nonneg v).
  assert (MAX_COOKIE_HEADER_BYTES < usize_max) by done. unfold checked_add.
  repeat (match goal with |- context [?x <=? usize_max] => rewrite (proj2 (Z.leb_le x usize_max)) by lia end;
    cbn [ok_or mbind Result_bind option_bind]).
  rewrite (proj2 (Z.leb_gt MAX_CAPTURE_PAIRS (count acc))) by lia.
  rewrite (proj2 (Z.ltb_ge MAX_COOKIE_HEADER_BYTES _)) by lia. cbn [orb]. by rewrite Z.add_assoc.
Qed.
Lemma parse_parts_later l acc total :
  Forall valid_pair l → 0 ≤ total → total + pairs_len l ≤ MAX_COOKIE_HEADER_BYTES →
  count acc + count l ≤ MAX_CAPTURE_PAIRS → parse_parts (later_part <$> l) acc total = Ok (acc ++ l).
Proof.
  intros Hl. revert acc total. induction Hl as [|p l Hp Hl IH]; intros acc total H0 Htot Hn; [by rewrite app_nil_r|].
  cbn [pairs_len] in Htot. pose proof (pairs_len_nonneg l). pose proof (pair_len_nonneg p). unfold count in Hn. cbn [length] in Hn.
  cbn [fmap list_fmap]. destruct (pair_text_chars p Hp) as [Hne Hc].
  rewrite (parse_part_step _ p); [|done|by apply trim_part|lia|lia|unfold count; lia].
  rewrite IH; [by rewrite <-app_assoc|lia|lia|]. unfold count in *. rewrite length_app. cbn [length]. lia.
Qed.

(** The text is trimmed, unless its ends are quotes also unquoted, and starts
    with neither a dash nor the name of a header. *)
Definition plain (l : list (str * str)) : Prop :=
  starts_with 45 (pairs_text true l) = false ∧
  starts_with 39 (pairs_text true l) && ends_with 39 (pairs_text true l) = false.
Lemma pairs_text_last first l : l ≠ [] → Forall valid_pair l → ∃ k c, pairs_text first l = k ++ [c] ∧ pair_char c.
Proof.
  revert first. induction l as [|p l IH]; intros first Hne; [done|]. intros [Hp Hl]%Forall_cons. cbn [pairs_text].
  destruct l as [|q l].
  - destruct (pair_text_chars p Hp) as [Hpt Hc]. cbn [pairs_text]. rewrite app_nil_r.
    destruct (exists_last Hpt) as (k & c & Hk). exists ((if first then [] else lit "; ") ++ k), c.
    rewrite Hk in *. split; [by rewrite app_assoc|]. apply Forall_app in Hc as [_ Hc]. by apply Forall_cons in Hc as [Hc _].
  - destruct (IH false ltac:(done) Hl) as (k & c & Hk & Hc). exists ((if first then [] else lit "; ") ++ pair_text p ++ k), c.
    rewrite Hk, <-!app_assoc. done.
Qed.
Lemma pairs_text_head p l : Forall valid_pair (p :: l) → ∃ c k, pairs_text true (p :: l) = c :: k ∧ pair_char c.
Proof.
  intros [Hp _]%Forall_cons. destruct (pair_text_chars p Hp) as [Hne Hc]. cbn [pairs_text app].
  destruct (pair_text p) as [|c t]; [done|]. apply Forall_cons in Hc as [Hc _]. by exists c, (t ++ pairs_text false l).
Qed.
Lemma pairs_text_trim p l : Forall valid_pair (p :: l) → trim (pairs_text true (p :: l)) = pairs_text true (p :: l).
Proof.
  intros Hv. apply trim_graphic.
  - intros c k Hk. destruct (pairs_text_head p l Hv) as (c' & k' & Hk' & Hc). rewrite Hk' in Hk. injection Hk as -> _.
    by apply graphic_not_whitespace, pair_char_graphic.
  - intros c k Hk. destruct (pairs_text_last true (p :: l) ltac:(done) Hv) as (k' & c' & Hk' & Hc). rewrite Hk' in Hk.
    apply app_inj_tail in Hk as [_ ->]. by apply graphic_not_whitespace, pair_char_graphic.
Qed.
Lemma pairs_text_unquoted p l : Forall valid_pair (p :: l) → plain (p :: l) →
  strip_outer_quotes (pairs_text true (p :: l)) = pairs_text true (p :: l).
Proof.
  intros Hv [_ Hq]. unfold strip_outer_quotes. rewrite Hq, orb_false_r.
  destruct (pairs_text_head p l Hv) as (c & k & Hk & Hc).
  replace (starts_with 34 (pairs_text true (p :: l))) with false; [by rewrite andb_false_r|].
  rewrite Hk. unfold starts_with. symmetry. apply bool_decide_eq_false. cbn [head]. intros [= ->]. unfold pair_char in Hc. lia.
Qed.
Lemma parse_pairs_text p l : Forall valid_pair (p :: l) → plain (p :: l) →
  str_len (pairs_text true (p :: l)) ≤ MAX_COOKIE_HEADER_BYTES → count (p :: l) ≤ MAX_CAPTURE_PAIRS →
  parse_cookie_pairs (pairs_text true (p :: l)) = Ok (p :: l).
Proof.
  intros Hv Hplain Hlen Hn. unfold parse_cookie_pairs.
  rewrite pairs_text_trim, pairs_text_unquoted, pairs_text_trim by done.
  destruct (pairs_text_head p l Hv) as (c & k & Hk & _). rewrite Hk. cbn [is_empty]. rewrite <-Hk.
  rewrite pairs_text_split by done. pose proof (pairs_len_text true (p :: l)) as Hpl. cbn [pairs_len] in Hpl.
  apply Forall_cons in Hv as [Hp Hl]. pose proof (pairs_len_nonneg l). unfold count in Hn. cbn [length] in Hn.
  destruct (pair_text_chars p Hp) as [Hne Hc].
  rewrite (parse_part_step _ p); [|done|by apply trim_part|lia|lia|done].
  rewrite parse_parts_later; [done|done|pose proof (pair_len_nonneg p); lia|lia|unfold count; cbn [length app]; lia].
Qed.

Lemma str_split_at_app n s a b : str_split_at n s = Some (a, b) → s = a ++ b.
Proof.
  revert n a. induction s as [|c s IH]; intros n a; cbn.
  { destruct (n =? 0); [by intros [= <- <-]|done]. }
  destruct (n =? 0); [by intros [= <- <-]|]. destruct (_ <? _); [done|]. intros ([a' b'] & Ha & [= <- <-])%bind_Some. by rewrite (IH _ _ Ha).
Qed.
Lemma lower_elem e s : is_ascii_alphabetic e = false → e ∈ s ↔ e ∈ to_ascii_lowercase s.
Proof.
  intros He. unfold to_ascii_lowercase. rewrite list_elem_of_fmap. split.
  - intros Hin. exists e. split; [|done]. unfold is_ascii_alphabetic in He. apply orb_false_iff in He as [_ He].
    unfold to_ascii_lower. by rewrite He.
  - intros (c & Hc & Hin). unfold to_ascii_lower in Hc. destruct (is_ascii_upper c) eqn:Hu; [|by rewrite Hc].
    exfalso. revert He Hc. unfold is_ascii_alphabetic, is_ascii_lower, is_ascii_upper in *.
    rewrite andb_true_iff, !Z.leb_le in Hu. rewrite orb_false_iff, !andb_false_iff, !Z.leb_gt. lia.
Qed.
Lemma not_a_header n t : Forall (λ c, c ≠ 58) n → strip_ascii_case_prefix (n ++ 61 :: t) COOKIE_HEADER = None.
Proof.
  intros Hn. unfold strip_ascii_case_prefix. destruct (str_split_at _ _) as [[a b]|] eqn:Hs; [|done].
  apply str_split_at_app in Hs. cbn [mbind option_bind]. unfold eq_ignore_ascii_case. case_bool_decide as Hl; [|done].
  exfalso. assert (H58 : 58 ∈ a). { apply lower_elem; [done|]. rewrite Hl. by_decide. }
  assert (H61 : 61 ∉ a). { rewrite lower_elem, Hl by done. by_decide. }
  apply app_eq_inv in Hs as [(k & Hk & _)|(k & Hk & Hb)].
  - rewrite Hk in Hn. apply Forall_app in Hn as [Hn _]. rewrite Forall_forall in Hn. by apply (Hn 58).
  - destruct k as [|c k]; cbn in Hb.
    + rewrite app_nil_r in Hk. subst a. rewrite Forall_forall in Hn. by apply (Hn 58).
    + injection Hb as <- _. apply H61. rewrite Hk. apply elem_of_app. right. by left.
Qed.
Lemma word_has_equals n t : Forall (λ c, is_ascii_whitespace c = false) n → 61 ∈ until_whitespace (n ++ 61 :: t).
Proof. induction 1 as [|c n Hc Hn IH]; cbn; [by left|]. rewrite Hc. by right. Qed.
Lemma graphic_not_ascii_whitespace c : 33 ≤ c → is_ascii_whitespace c = false.
Proof. intros Hc. unfold is_ascii_whitespace. repeat rewrite orb_false_iff. rewrite !Z.eqb_neq. lia. Qed.

Lemma extract_pairs_text p l : Forall valid_pair (p :: l) → plain (p :: l) →
  extract_cookie_capture (pairs_text true (p :: l)) = Ok (pairs_text true (p :: l)).
Proof.
  intros Hv Hplain. unfold extract_cookie_capture. rewrite pairs_text_trim, pairs_text_unquoted by done.
  assert (Hs : ∃ t, pairs_text true (p :: l) = p.1 ++ 61 :: t).
  { exists (p.2 ++ pairs_text false l). unfold pairs_text; fold pairs_text. unfold pair_text. by rewrite <-!app_assoc. }
  destruct Hs as [t Ht]. pose proof (Forall_inv Hv) as Hp. destruct (pair_name_chars p Hp) as [Hne Hn].
  rewrite Ht, not_a_header; [|eapply Forall_impl; [exact Hn|]; by intros c (_ & _ & Hc)]. rewrite <-Ht.
  rewrite (bool_decide_eq_true_2 (61 ∈ _)).
  2:{ rewrite Ht. apply elem_of_app. right. by left. }
  destruct Hplain as [Hd Hq]. rewrite Hd. cbn [negb andb].
  assert (Hw : Forall (λ c, is_ascii_whitespace c = false) p.1).
  { eapply Forall_impl; [exact Hn|]. intros c [Hc _]. apply graphic_not_ascii_whitespace. unfold pair_char in Hc. lia. }
  pose proof (word_has_equals p.1 t Hw) as Hword. rewrite <-Ht in Hword.
  assert (Hf : first_word (pairs_text true (p :: l)) = Some (until_whitespace (pairs_text true (p :: l)))).
  { rewrite Ht. destruct p.1 as [|c n]; [done|]. cbn [app first_word]. by rewrite (Forall_inv Hw). }
  rewrite Hf. unfold eq_ignore_ascii_case. rewrite bool_decide_eq_false_2.
  2:{ intros He. apply lower_elem in Hword; [|done]. rewrite He in Hword. revert Hword. by_decide. }
  cbn [negb]. unfold owned_nonempty. rewrite pairs_text_trim, pairs_text_unquoted, pairs_text_trim by (done || by split).
  destruct (pairs_text_head p l Hv) as (c & k & -> & _). done.
Qed.
Lemma pairs_text_printable first l : Forall valid_pair l → Forall (λ c, 32 ≤ c ≤ 126) (pairs_text first l).
Proof.
  intros Hv. revert first. induction Hv as [|p l Hp Hl IH]; intros first; [constructor|]. cbn [pairs_text].
  rewrite !Forall_app. split; [destruct first; [constructor|by_decide]|]. split; [|apply IH].
  eapply Forall_impl; [apply (pair_text_chars p Hp)|]. unfold pair_char. lia.
Qed.
Lemma normalize_pairs_text p l : Forall valid_pair (p :: l) → plain (p :: l) →
  str_len (pairs_text true (p :: l)) ≤ MAX_COOKIE_HEADER_BYTES → count (p :: l) ≤ MAX_CAPTURE_PAIRS →
  normalize (Some (pairs_text true (p :: l))) = Ok (Some (p :: l)).
Proof.
  intros Hv Hplain Hlen Hn. unfold normalize. rewrite pairs_text_trim by done.
  destruct (pairs_text_head p l Hv) as (c & k & Hk & _). rewrite Hk. cbn [is_empty]. rewrite <-Hk.
  assert (MAX_COOKIE_HEADER_BYTES < MAX_CAPTURE_BYTES) by done. rewrite (proj2 (Z.ltb_ge _ _)) by lia.
  replace (existsb _ (pairs_text true (p :: l))) with false.
  2:{ symmetry. apply existsb_false. eapply Forall_impl; [by apply pairs_text_printable|]. intros d Hd.
      by rewrite graphic_not_control. }
  cbn [orb]. rewrite extract_pairs_text by done. cbn [mbind Result_bind]. by rewrite parse_pairs_text.
Qed.

(** ** What the component promises *)

Section promises.
Context `{CookieHosts}.

Lemma chosen_elem (m : gmap CookieIdentity CookieData) target now i d :
  (i, d) ∈ chosen (map_to_list m) target now ↔ m !! i = Some d ∧ Sendable target now i d.
Proof.
  rewrite chosen_perm, list_elem_of_filter, elem_of_map_to_list, selects_spec. cbn. tauto.
Qed.
Lemma header_some (m : gmap CookieIdentity CookieData) target now h :
  header_of (map_to_list m) target now = Ok (Some h) →
  h = pairs_text true (pair_of <$> chosen (map_to_list m) target now) ∧
  chosen (map_to_list m) target now ≠ [] ∧ str_len h ≤ MAX_COOKIE_HEADER_BYTES.
Proof.
  rewrite header_of_result. unfold header_result. destruct (chosen _ _ _) as [|e l] eqn:Hl; [done|]. cbn [is_empty].
  destruct (Z.leb_spec (str_len (header_text true (e :: l))) MAX_COOKIE_HEADER_BYTES); [|done].
  intros Hh. assert (h = header_text true (e :: l)) as -> by congruence. split; [apply header_text_pairs|done].
Qed.

(** The order in which cookies are sent: the longer path first; of equally long
    ones a host-only cookie before one of a domain; of those the longer domain; and
    what is still tied by the bytes of the path, the name and the domain. *)
Definition bytes_before (l k : list Z) : Prop :=
  (∃ x t, k = l ++ x :: t) ∨ ∃ p x y l' k', l = p ++ x :: l' ∧ k = p ++ y :: k' ∧ x < y.
Inductive sent_before (e e' : CookieIdentity * CookieData) : Prop :=
| before_path : str_len (cookie_path e'.1) < str_len (cookie_path e.1) → sent_before e e'
| before_kind : str_len (cookie_path e.1) = str_len (cookie_path e'.1) →
    domain_kind e.1 = HostOnly → domain_kind e'.1 = DomainCookie → sent_before e e'
| before_domain : str_len (cookie_path e.1) = str_len (cookie_path e'.1) → domain_kind e.1 = domain_kind e'.1 →
    str_len (domain e'.1) < str_len (domain e.1) → sent_before e e'
| before_bytes : str_len (cookie_path e.1) = str_len (cookie_path e'.1) → domain_kind e.1 = domain_kind e'.1 →
    str_len (domain e.1) = str_len (domain e'.1) →
    bytes_before (as_bytes (cookie_path e.1)) (as_bytes (cookie_path e'.1)) ∨
    as_bytes (cookie_path e.1) = as_bytes (cookie_path e'.1) ∧
      (bytes_before (as_bytes (name e.1)) (as_bytes (name e'.1)) ∨
       as_bytes (name e.1) = as_bytes (name e'.1) ∧ bytes_before (as_bytes (domain e.1)) (as_bytes (domain e'.1))) → sent_before e e'.
Lemma bytes_Lt (l k : list Z) : cmp l k = Lt → bytes_before l k.
Proof.
  revert k. induction l as [|x l IH]; intros [|y k]; try done; [left; by exists y, k|]. intros [Hx|[->%cmp_eq Hl]]%then_Lt.
  - right. exists [], x, y, l, k. by apply Z.compare_lt_iff in Hx.
  - destruct (IH k Hl) as [(z & t & ->)|(p & x & z & l' & k' & -> & -> & Hlt)]; [left; by exists z, t|].
    right. by exists (y :: p), x, z, l', k'.
Qed.
Lemma pair_Lt {A B} `{CmpLaws A, Cmp B} (x y : A * B) : cmp x y = Lt → cmp x.1 y.1 = Lt ∨ x.1 = y.1 ∧ cmp x.2 y.2 = Lt.
Proof. intros [H'|[H'%cmp_eq ?]]%then_Lt; [by left|by right]. Qed.
Lemma selection_key_Lt e e' : cmp (selection_key e) (selection_key e') = Lt → sent_before e e'.
Proof.
  intros [[[[[Hp|[Hp Hk]]%pair_Lt|[Hpk Hd]]%pair_Lt|[Hpkd Hb]]%pair_Lt|[Hpkdb Hb]]%pair_Lt|[Hall Hb]]%pair_Lt;
    cbn [selection_key fst snd] in *.
  - by apply before_path, Z.compare_lt_iff.
  - injection Hp as Hp. by apply before_kind; destruct (domain_kind e.1), (domain_kind e'.1).
  - injection Hpk as Hp Hk. apply before_domain; [done|by destruct (domain_kind e.1), (domain_kind e'.1)|by apply Z.compare_lt_iff].
  - injection Hpkd as Hp Hk Hd. apply before_bytes; [done|by destruct (domain_kind e.1), (domain_kind e'.1)|done|].
    left. by apply bytes_Lt.
  - injection Hpkdb as Hp Hk Hd Hpath. apply before_bytes; [done|by destruct (domain_kind e.1), (domain_kind e'.1)|done|].
    right. split; [done|]. left. by apply bytes_Lt.
  - injection Hall as Hp Hk Hd Hpath Hn. apply before_bytes; [done|by destruct (domain_kind e.1), (domain_kind e'.1)|done|].
    right. split; [done|]. right. split; [done|]. by apply bytes_Lt.
Qed.
Lemma sent_in_order l : NoDup (selection_key <$> l) → StronglySorted sent_before (sort_by_key selection_key l).
Proof.
  intros Hl%sort_by_key_strict. induction Hl as [|e k _ IH He]; constructor; [done|].
  eapply Forall_impl; [exact He|]. intros e'. apply selection_key_Lt.
Qed.
(** The header of those cookies, in that order. *)
Definition sent_header (l : list (CookieIdentity * CookieData)) : Result CookieError (option str) :=
  if is_empty l then Ok None else
  let text := pairs_text true (pair_of <$> l) in
  if str_len text <=? MAX_COOKIE_HEADER_BYTES then Ok (Some text) else Err HeaderTooLarge.
Lemma header_result_sent l : header_result l = sent_header l.
Proof. unfold header_result, sent_header. by rewrite header_text_pairs. Qed.

(** C27. The cookies of a request are exactly those that may be sent with it, the
    most specific first (the longer path, then the host's own before its domain's,
    then the longer domain, then by their bytes), whatever order the map yields; the
    header joins their names and values, and is refused only when it is too long. *)
Theorem header_for_exact jar target now :
  (∀ i d, jar_entries jar !! i = Some d → rust_strings i) →
  ∃ l, NoDup l.*1 ∧ StronglySorted sent_before l ∧
    (∀ i d, (i, d) ∈ l ↔ jar_entries jar !! i = Some d ∧ Sendable target now i d) ∧
    header_for jar target now = sent_header l ∧
    ∀ entries, entries ≡ₚ map_to_list (jar_entries jar) → header_of entries target now = sent_header l.
Proof.
  intros Hm. destruct (jar_keys_NoDup _ target now Hm) as [Hnd Hkeys].
  assert (Hany : ∀ entries, entries ≡ₚ map_to_list (jar_entries jar) →
    header_of entries target now = sent_header (chosen (map_to_list (jar_entries jar)) target now)).
  { intros entries Hp. rewrite header_of_result, <-header_result_sent. f_equal. symmetry. apply sort_by_key_unique; [done|]. by rewrite Hp. }
  exists (chosen (map_to_list (jar_entries jar)) target now).
  split; [by rewrite chosen_perm|]. split; [by apply sent_in_order|].
  split; [intros i d; apply chosen_elem|]. split; [by apply Hany|exact Hany].
Qed.

(** A jar holds the records of one batch only, the first in the order that has
    any, the last of equal records winning; the order of the batches does not
    matter, and unknown or repeated sources are refused. *)
Theorem jar_from_first_source order imports :
  NoDup (sources order) → Forall import_wf imports →
  match from_imports order imports with
  | Ok jar => batches_ok order imports ∧
      ((∃ i, first_batch order imports i ∧ jar = jar_of i ∧
         ∀ id, jar_entries jar !! id = cookie_data <$> last (filter (λ r, identity r = id) (records i)))
       ∨ (∀ i, i ∈ imports → records i = []) ∧ jar = mk_jar ∅ 0 0)
  | Err e => e = InvalidImportOrder ∧ ¬ batches_ok order imports
  end.
Proof.
  intros Ho Hwf. unfold from_imports.
  destruct (Z.ltb_spec (count (sources order)) (count imports)) as [Hlt|_].
  { split; [done|]. intros [Hnd Hall]. assert (length (import_source <$> imports) ≤ length (sources order))%nat.
    { apply NoDup_length_le; [done|]. intros s (i & -> & Hi)%list_elem_of_fmap. by apply Hall. }
    unfold count in Hlt. rewrite length_fmap in *. lia. }
  destruct (check_batches order [] imports) as [[]|e] eqn:Hc.
  2:{ assert (Hno : ¬ batches_ok order imports).
      { intros [Hnd Hall]. assert (Hc' : check_batches order [] imports = Ok tt).
        { apply check_batches_spec. split; [done|]. intros i Hi. split; [by apply Hall|apply not_elem_of_nil]. }
        congruence. }
      split; [|done]. clear -Hc. revert Hc. generalize (@nil Z). induction imports as [|i l IH]; intros seen; cbn; [done|].
      destruct (_ || _); [by intros [= <-]|apply IH]. }
  apply check_batches_spec in Hc as [Hnd Hall]. cbn [mbind Result_bind].
  assert (Hok : batches_ok order imports) by (split; [done|]; intros i Hi; by apply Hall).
  destruct (find_import _ _) as [i|] eqn:Hf.
  - apply find_import_Some in Hf as (before & after & Hs & Hi & Hb).
    assert (Hne : records i ≠ []) by (by destruct (records i)).
    pose proof (sorted_first _ _ _ _ _ Hs Hb Hne) as Hfirst. pose proof Hfirst as [Hin _].
    rewrite Forall_forall in Hwf. destruct (import_wf_bounds i (Hwf i Hin)) as [Hn Hbytes].
    unfold MAX_COOKIE_JAR_RECORDS. rewrite !(proj2 (Z.ltb_ge _ _)) by lia. cbn [orb].
    split; [done|]. left. exists i. split; [done|]. split; [done|]. intros id. apply insert_records_lookup.
  - apply find_import_None in Hf. split; [done|]. right. split; [|done]. intros i Hi. rewrite Forall_forall in Hf.
    specialize (Hf i). rewrite sort_by_key_perm in Hf. specialize (Hf Hi). by destruct (records i).
Qed.

Lemma captured_filter target expires_at n (captured : list (str * str)) :
  filter (λ r, identity r = mk_identity n (target_host target) HostOnly (lit "/"))
    (host_only_record target expires_at <$> captured) =
  host_only_record target expires_at <$> filter (λ q, q.1 = n) captured.
Proof.
  induction captured as [|[m v] l IH]; [done|]. cbn [fmap list_fmap]. destruct (decide (m = n)) as [->|Hm].
  - rewrite !filter_cons_True by done. cbn [fmap list_fmap]. f_equal. exact IH.
  - rewrite !filter_cons_False; [exact IH|done|]. cbn. congruence.
Qed.
Lemma capture_jar_lookup target expires_at (captured : list (str * str)) i d :
  insert_records (host_only_record target expires_at <$> captured) !! i = Some d ↔
  ∃ p, last (filter (λ q, q.1 = p.1) captured) = Some p ∧
    i = mk_identity p.1 (target_host target) HostOnly (lit "/") ∧ d = mk_data p.2 (target_secure target) expires_at.
Proof.
  rewrite insert_records_lookup. split.
  - intros (r & Hr & ->)%fmap_Some. pose proof Hr as Hin%last_Some_elem_of.
    apply list_elem_of_filter in Hin as [Hi (q & -> & _)%list_elem_of_fmap]. cbn in Hi. subst i.
    rewrite captured_filter, fmap_last in Hr. apply fmap_Some in Hr as (p & Hp & Hpr).
    pose proof Hp as Hin%last_Some_elem_of. apply list_elem_of_filter in Hin as [Hi _].
    exists p. rewrite Hi. split; [done|]. split; [done|]. by rewrite Hpr.
  - intros (p & Hp & -> & ->). by rewrite captured_filter, fmap_last, Hp.
Qed.

Lemma import_new_Ok source l i : import_new source l = Ok i → ∃ bytes, i = mk_import source l bytes.
Proof.
  unfold import_new. destruct (_ <? _); [done|]. intros (b & _ & Hb)%bind_Ok. destruct (_ <? _); [done|].
  injection Hb as <-. by exists b.
Qed.
Lemma from_one_import order i jar : from_imports order [i] = Ok jar → jar_entries jar = insert_records (records i).
Proof.
  unfold from_imports. destruct (_ <? _); [done|]. intros (u & _ & Hj)%bind_Ok. cbn in Hj.
  destruct (records i) as [|r l] eqn:Hr; cbn in Hj; [by injection Hj as <-|]. rewrite Hr in Hj.
  destruct (_ || _); [done|]. by injection Hj as <-.
Qed.

(** C28. A pasted capture goes to requests of the host it was bound to, not to less
    secure ones nor after its expiry; the header carries the captured pairs,
    the last of each name. *)
Theorem capture_stays_with_host source raw target expires_at import order jar target' now h :
  from_host_only_capture source raw target expires_at = Ok import →
  from_imports order [import] = Ok jar → header_for jar target' now = Ok (Some h) →
  target_host target' = target_host target ∧ (target_secure target = true → target_secure target' = true) ∧
  (∀ e, expires_at = Some e → now < e) ∧
  ∃ captured sent, normalize (Some raw) = Ok (Some captured) ∧ h = pairs_text true sent ∧
    ∀ p, p ∈ sent ↔ last (filter (λ q, q.1 = p.1) captured) = Some p.
Proof.
  intros Hcap Hjar Hh. unfold from_host_only_capture in Hcap.
  apply bind_Ok in Hcap as ([captured|] & Hnorm & Hcap); [|done]. cbn [ok_or mbind Result_bind] in Hcap.
  assert (Hent : jar_entries jar = insert_records (host_only_record target expires_at <$> captured)).
  { apply import_new_Ok in Hcap as [bytes ->]. by apply (from_one_import order (mk_import source _ bytes)). }
  apply header_some in Hh as (-> & Hne & _). rewrite Hent in *.
  set (l := chosen _ target' now) in *.
  assert (Hl : ∀ i d, (i, d) ∈ l ↔ _) by (intros i d; apply chosen_elem).
  destruct l as [|[i d] k] eqn:Hk; [done|]. destruct (proj1 (Hl i d)) as [Hi Hs]; [by left|].
  apply capture_jar_lookup in Hi as (p & Hp & -> & ->). pose proof Hs as [Hhost Hpath Hsec Hexp]. cbn in *.
  split; [exact Hhost|]. split; [done|]. split; [done|].
  exists captured, (pair_of <$> (mk_identity p.1 (target_host target) HostOnly (lit "/"),
    mk_data p.2 (target_secure target) expires_at) :: k).
  split; [done|]. split; [done|]. intros q. split.
  - intros ([i d] & -> & Hin)%list_elem_of_fmap. apply Hl in Hin as [Hin _].
    apply capture_jar_lookup in Hin as (p' & Hp' & -> & ->). by destruct p'.
  - intros Hq. apply list_elem_of_fmap. exists (mk_identity q.1 (target_host target) HostOnly (lit "/"),
      mk_data q.2 (target_secure target) expires_at). split; [by destruct q|]. apply Hl. split.
    + apply capture_jar_lookup. by exists q.
    + by split.
Qed.

(** A header normalizes back to the pairs it joins, unless it could be taken
    for a command line or a quoted text. *)
Theorem header_normalizes_back jar target now h :
  header_for jar target now = Ok (Some h) →
  (∀ i d, jar_entries jar !! i = Some d → valid_pair (name i, value d)) →
  starts_with 45 h = false → starts_with 39 h && ends_with 39 h = false →
  count (map_to_list (jar_entries jar)) ≤ MAX_CAPTURE_PAIRS →
  ∃ pairs, normalize (Some h) = Ok (Some pairs) ∧
    ∀ p, p ∈ pairs ↔ ∃ i d, jar_entries jar !! i = Some d ∧ Sendable target now i d ∧ p = (name i, value d).
Proof.
  intros Hh Hv Hdash Hquote Hn. apply header_some in Hh as (-> & Hne & Hlen).
  set (l := chosen _ target now) in *. exists (pair_of <$> l).
  assert (Hall : Forall valid_pair (pair_of <$> l)).
  { apply Forall_fmap, Forall_forall. intros [i d] [Hi _]%chosen_elem. by apply Hv. }
  assert (Hcount : count l ≤ MAX_CAPTURE_PAIRS).
  { etrans; [|exact Hn]. unfold count, l. rewrite chosen_perm. apply inj_le, length_filter. }
  split.
  - destruct l as [|e l']; [done|]. apply normalize_pairs_text; [done|by split|done|].
    change (count (pair_of <$> e :: l') ≤ MAX_CAPTURE_PAIRS). unfold count. by rewrite length_fmap.
  - intros p. rewrite list_elem_of_fmap. split.
    + intros ([i d] & -> & [Hi Hs]%chosen_elem). by exists i, d.
    + intros (i & d & Hi & Hs & ->). exists (i, d). split; [done|]. by apply chosen_elem.
Qed.
End promises.

(** ** Witnesses *)

Module CookieExample.
(** Requests to one path of a host given by its name. *)
#[local] Instance crate : UrlCrate := {|
  Url := str;
  username _ := [];
  password _ := None;
  query _ := None;
  fragment _ := None;
  path _ := lit "/v1/usage";
  scheme _ := lit "https";
  host u := Some (Domain u);
  host_str u := Some u;
  port_or_known_default _ := Some 443;
  query_pairs _ := [];
  url_parse s := strip_prefix (lit "https://") s;
  url_join u _ := Some u;
|}.
#[local] Instance hosts : CookieHosts := {|
  url_as_str u := lit "https://" ++ u;
  host_parse s := Some (Domain s);
  ipv4_to_string _ := lit "127.0.0.1";
  ipv6_to_string _ := lit "::1";
|}.
Definition target : ValidatedCookieUrl := mk_validated _ (lit "api.example.com") (lit "api.example.com") false true.
Definition session : CookieIdentity := mk_identity (lit "session") (lit "example.com") DomainCookie (lit "/v1/").
Definition record : CookieRecord := mk_record session (mk_data (lit "s3cr3t") true (Some 10)).
Definition batch : CookieImport := mk_import 7 [record] 28.
Definition jar : CookieJar := jar_of batch.
Definition capture : str := lit "curl https://api.example.com -H 'Cookie: a=1; b=2; a=3'".
Definition pasted : CookieImport :=
  mk_import 0 (host_only_record target None <$> [(lit "a", lit "1"); (lit "b", lit "2"); (lit "a", lit "3")]) 54.

Lemma jar_entry i d : jar_entries jar !! i = Some d → i = session ∧ d = cookie_data record.
Proof.
  unfold jar, jar_of. cbn [jar_entries]. rewrite insert_records_lookup. intros (r & Hr & ->)%fmap_Some.
  apply last_Some_elem_of, list_elem_of_filter in Hr as [<- Hr]. by apply list_elem_of_singleton in Hr as ->.
Qed.
Definition wide : CookieIdentity := mk_identity (lit "theme") (lit "example.com") DomainCookie (lit "/").
Definition two : CookieJar := jar_of (mk_import 7 [mk_record wide (mk_data (lit "dark") true None); record] 40).
Lemma two_entry i d : jar_entries two !! i = Some d → i = session ∨ i = wide.
Proof.
  unfold two, jar_of. cbn [jar_entries]. rewrite insert_records_lookup. intros (r & Hr & _)%fmap_Some.
  apply last_Some_elem_of, list_elem_of_filter in Hr as [<- Hr]. apply elem_of_cons in Hr as [->|Hr%list_elem_of_singleton]; [by right|by left; subst].
Qed.
Lemma two_header : header_for two target 5 = Ok (Some (lit "session=s3cr3t; theme=dark")).
Proof. by vm_compute. Qed.
Lemma header_for_exact_witness : ∃ l, StronglySorted sent_before l ∧ sent_header l = Ok (Some (lit "session=s3cr3t; theme=dark")).
Proof.
  destruct (header_for_exact two target 5) as (l & _ & Hs & _ & Hl & _).
  - intros i d Hi. unfold rust_strings, is_scalar. destruct (two_entry i d Hi) as [-> | ->]; (split; [by_decide|split; by_decide]).
  - exists l. split; [exact Hs|]. rewrite <-Hl. exact two_header.
Defined.
Lemma jar_from_first_source_witness :
  from_imports (mk_order [3; 7]) [batch; mk_import 3 [] 0] = Ok jar ∧ batches_ok (mk_order [3; 7]) [batch; mk_import 3 [] 0].
Proof.
  assert (Hj : from_imports (mk_order [3; 7]) [batch; mk_import 3 [] 0] = Ok jar) by reflexivity. split; [exact Hj|].
  pose proof (jar_from_first_source (mk_order [3; 7]) [batch; mk_import 3 [] 0]) as Hf. rewrite Hj in Hf. apply Hf.
  - by_decide.
  - by repeat constructor.
Defined.
Lemma capture_import : from_host_only_capture 0 capture target None = Ok pasted.
Proof. vm_compute. reflexivity. Qed.
Lemma capture_jar : from_imports (mk_order [0]) [pasted] = Ok (jar_of pasted).
Proof. reflexivity. Qed.
Lemma capture_header : header_for (jar_of pasted) target 0 = Ok (Some (lit "a=3; b=2")).
Proof. vm_compute. reflexivity. Qed.
Lemma capture_stays_with_host_witness : ∃ captured sent,
  normalize (Some capture) = Ok (Some captured) ∧ lit "a=3; b=2" = pairs_text true sent.
Proof.
  destruct (capture_stays_with_host _ _ _ _ _ _ _ _ _ _ capture_import capture_jar capture_header)
    as (_ & _ & _ & captured & sent & Hn & Ht & _).
  exists captured, sent. split; [exact Hn|exact Ht].
Defined.
Lemma header_normalizes_back_witness : ∃ pairs, normalize (Some (lit "session=s3cr3t")) = Ok (Some pairs).
Proof.
  destruct (header_normalizes_back jar target 5 (lit "session=s3cr3t")) as (pairs & Hp & _).
  - by vm_compute.
  - intros i d Hi. destruct (jar_entry i d Hi) as [-> ->]. by vm_compute.
  - by vm_compute.
  - by vm_compute.
  - by vm_compute.
  - by exists pairs.
Defined.
End CookieExample.
