(* ===== verification/ManualCapture.v ===== *)
(** * Manual captures: pasted Cookie and Authorization headers and cURL commands
      (crates/providers/src/manual_capture.rs)

    A pasted command is tokenized by a small grammar that expands nothing and is
    never given to a shell; a policy says which credential headers, metadata
    headers and hosts a capture may carry.  [Zeroizing] text is its text.  The
    address parsers of the standard library and the parts of the [url] crate
    used only here are a class. *)
From stdpp Require Import sorting prelude.
From S2P Require Import Prelude Ordering Text Externals Endpoint Config Cookie.
Local Open Scope Z_scope.

Definition MAX_INPUT_BYTES : Z := 64 * 1024.
Definition MAX_TOKEN_BYTES : Z := 32 * 1024.
Definition MAX_SECRET_BYTES : Z := 32 * 1024.
Definition MAX_TOKENS : Z := 256.
Definition MAX_HEADERS : Z := 32.
Definition MAX_HOSTS : Z := 32.
Definition MAX_FORWARDED_HEADERS : Z := 32.
Definition MAX_FORWARDED_VALUE_BYTES : Z := 16 * 1024.
Definition MAX_HEADER_NAME_BYTES : Z := 128.
Definition MAX_QUOTE_TRANSITIONS : Z := 512.

Inductive ManualCaptureError :=
| InputTooLarge
| InvalidPolicy
| InvalidSyntax
| UnsafeSyntax
| UnsafeOption
| TooManyTokens
| TooManyHeaders
| InvalidSecret
| DuplicateSecret
| ConflictingHeader
| DisallowedHeader
| DisallowedUrl
| MissingSecret.
#[global] Instance ManualCaptureError_eq_dec : EqDecision ManualCaptureError.
Proof. solve_decision. Defined.

(** [Url::port], [Url::set_query(None)] and [str::parse] of the two addresses. *)
Class CaptureUrls `{UrlCrate} := {
  url_port : Url → option Z;
  without_query : Url → Url;
  ipv4_parse : str → option Ipv4Addr;
  ipv6_parse : str → option Ipv6Addr;
}.
(** Removing the query changes nothing else the policy reads. *)
Class CaptureUrlLaws `{CaptureUrls} : Prop := {
  without_query_query url : query (without_query url) = None;
  without_query_username url : username (without_query url) = username url;
  without_query_password url : password (without_query url) = password url;
  without_query_fragment url : fragment (without_query url) = fragment url;
  without_query_scheme url : scheme (without_query url) = scheme url;
  without_query_host url : host (without_query url) = host url;
  without_query_port url : port_or_known_default (without_query url) = port_or_known_default url;
}.

(** ** Text *)

(** [trim_matches(is_ascii_whitespace)]; [trim_zeroizing] is the same in place. *)
Fixpoint trim_ascii_start (s : str) : str :=
  match s with
  | c :: s' => if is_ascii_whitespace c then trim_ascii_start s' else s
  | [] => []
  end.
Definition trim_ascii (s : str) : str := reverse (trim_ascii_start (reverse (trim_ascii_start s))).

Definition validate_input_bound (raw : str) : Result ManualCaptureError unit :=
  if MAX_INPUT_BYTES <? str_len raw then Err InputTooLarge else Ok tt.
Definition validate_no_controls (raw : str) : Result ManualCaptureError unit :=
  if existsb is_control raw then Err UnsafeSyntax else Ok tt.
Definition starts_with_curl_command (raw : str) : bool :=
  match strip_prefix (lit "curl") (trim_start raw) with
  | Some (c :: _) => is_whitespace c
  | _ => false
  end.
Definition strip_header_prefix (raw name : str) : option str :=
  '(candidate, value) ← split_once [58] raw;
  if eq_ignore_ascii_case (trim candidate) name then Some (trim_ascii value) else None.
Definition strip_matching_quotes (raw : str) : Result ManualCaptureError str :=
  if (2 <=? str_len raw)
     && ((starts_with 39 raw && ends_with 39 raw) || (starts_with 34 raw && ends_with 34 raw))
  then Ok (trim_ascii (removelast (tail raw))) else
  if starts_with 39 raw || starts_with 34 raw || ends_with 39 raw || ends_with 34 raw
  then Err InvalidSyntax else Ok raw.

Definition header_byte (byte : Z) : bool :=
  is_ascii_alphanumeric byte || bool_decide (byte ∈ lit "!#$%&'*+-.^_`|~").
Definition valid_header_name (name : str) : bool :=
  negb (is_empty name) && (str_len name <=? MAX_HEADER_NAME_BYTES) && forallb header_byte (as_bytes name).
Definition RESERVED_FORWARDED_HEADERS : list str :=
  [lit "authorization"; lit "cookie"; lit "host"; lit "proxy-authorization"; lit "proxy-authenticate";
   lit "www-authenticate"; lit "set-cookie"; lit "x-api-key"; lit "api-key"; lit "x-auth-token";
   lit "x-access-token"; lit "connection"; lit "keep-alive"; lit "proxy-connection"; lit "te"; lit "trailer";
   lit "transfer-encoding"; lit "upgrade"; lit "content-length"].
Definition is_reserved_forwarded_header (name : str) : bool :=
  bool_decide (to_ascii_lowercase name ∈ RESERVED_FORWARDED_HEADERS).

(** One pair of a cookie header. *)
Definition valid_pair (pair : str) : bool :=
  match split_once [61] (trim_ascii pair) with
  | None => false
  | Some (name, _) =>
      let name := trim_ascii name in
      negb (is_empty name) && forallb header_byte (as_bytes name)
  end.
(** [str::split] yields at least one part, so [found] is set. *)
Definition valid_cookie (value : str) : bool := forallb valid_pair (split_bytes 59 value).

(** ** Secrets and captures *)

Inductive CaptureHeader := CookieHeader | AuthorizationHeader.
#[global] Instance CaptureHeader_eq_dec : EqDecision CaptureHeader.
Proof. solve_decision. Defined.

(** An array of two that a [CaptureHeader] indexes. *)
Record Slots (A : Type) := mk_slots { cookie_slot : A; authorization_slot : A }.
Arguments mk_slots {_} _ _.
Arguments cookie_slot {_} _.
Arguments authorization_slot {_} _.
Definition slot {A} (s : Slots A) (h : CaptureHeader) : A :=
  match h with CookieHeader => cookie_slot s | AuthorizationHeader => authorization_slot s end.
Definition set_slot {A} (h : CaptureHeader) (a : A) (s : Slots A) : Slots A :=
  match h with
  | CookieHeader => mk_slots a (authorization_slot s)
  | AuthorizationHeader => mk_slots (cookie_slot s) a
  end.

Record CaptureSecret := mk_secret { expose : str }.
Definition secret_new (value : str) (header : CaptureHeader) : Result ManualCaptureError CaptureSecret :=
  let value := trim_ascii value in
  if is_empty value || (MAX_SECRET_BYTES <? str_len value) then Err InvalidSecret else
  validate_no_controls value ;;
  if bool_decide (header = CookieHeader) && negb (valid_cookie value) then Err InvalidSecret else
  Ok (mk_secret value).

Record ForwardedHeader := mk_forwarded { forwarded_name : str; forwarded_value : str }.

Section capture.
Context `{CookieHosts} `{!CaptureUrls}.

Record ManualCapture := mk_capture {
  secrets : Slots (option CaptureSecret);
  capture_forwarded : list ForwardedHeader;
  capture_url : option Url;
}.
Definition capture_empty : ManualCapture := mk_capture (mk_slots None None) [] None.
Definition set_secret (h : CaptureHeader) (s : CaptureSecret) (c : ManualCapture) : ManualCapture :=
  mk_capture (set_slot h (Some s) (secrets c)) (capture_forwarded c) (capture_url c).
Definition header (c : ManualCapture) (h : CaptureHeader) : option str := expose <$> slot (secrets c) h.

(** [binary_search_by] and [Vec::insert]: the entries are sorted by name. *)
Fixpoint insert_entry (name value : str) (l : list ForwardedHeader) :
    Result ManualCaptureError (list ForwardedHeader) :=
  match l with
  | [] => Ok [mk_forwarded name value]
  | entry :: l' =>
      match cmp name (forwarded_name entry) with
      | Lt => Ok (mk_forwarded name value :: l)
      | Eq => if bool_decide (forwarded_value entry = value) then Ok l else Err ConflictingHeader
      | Gt => cons entry <$> insert_entry name value l'
      end
  end.
Definition insert_forwarded (name value : str) (c : ManualCapture) : Result ManualCaptureError ManualCapture :=
  if is_empty value || (MAX_FORWARDED_VALUE_BYTES <? str_len value) then Err InvalidSecret else
  validate_no_controls value ;;
  l ← insert_entry name value (capture_forwarded c);
  Ok (mk_capture (secrets c) l (capture_url c)).

(** ** Policies *)

Record ManualCapturePolicy := mk_policy {
  https_hosts : list str;
  loopback_hosts : list str;
  allowed_headers : Slots bool;
  policy_forwarded : list str;
  ignore_url_query : bool;
}.

Definition is_loopback_name (host : str) : bool :=
  eq_ignore_ascii_case host (lit "localhost")
  || match ipv4_parse host with Some a => Ipv4.is_loopback a | None => false end
  || match ipv6_parse host with Some a => Ipv6.is_loopback a | None => false end.
Definition canonical_url_host (url : Url) : option str :=
  h ← host url;
  Some match h with
       | Domain domain => to_ascii_lowercase domain
       | HostIpv4 address => ipv4_to_string address
       | HostIpv6 address => ipv6_to_string address
       end.
Definition normalize_host (raw : str) : Result ManualCaptureError str :=
  if is_empty raw || (253 <? str_len raw) || existsb is_control raw || bool_decide (42 ∈ raw)
  then Err InvalidPolicy else
  url ← ok_or (url_parse (lit "https://" ++ raw ++ lit "/")) InvalidPolicy;
  if negb (is_https (scheme url)) || negb (is_empty (username url)) || bool_decide (is_Some (password url))
     || bool_decide (is_Some (url_port url)) || negb (bool_decide (path url = lit "/"))
     || bool_decide (is_Some (query url)) || bool_decide (is_Some (fragment url))
  then Err InvalidPolicy else
  h ← ok_or (host url) InvalidPolicy;
  let '(host, reconstructed) :=
    match h with
    | Domain domain => let host := to_ascii_lowercase domain in (host, host)
    | HostIpv4 address => let host := ipv4_to_string address in (host, host)
    | HostIpv6 address => let host := ipv6_to_string address in (host, lit "[" ++ host ++ lit "]")
    end in
  if negb (eq_ignore_ascii_case raw reconstructed) then Err InvalidPolicy else Ok host.

Record LoopbackCaptureHost := mk_loopback { loopback_host : str }.
Definition loopback_host_new (raw : str) : Result ManualCaptureError LoopbackCaptureHost :=
  host ← normalize_host raw;
  if negb (is_loopback_name host) then Err InvalidPolicy else Ok (mk_loopback host).

(** [Vec::dedup] *)
Fixpoint dedup_after (last : str) (l : list str) : list str :=
  match l with
  | [] => []
  | s :: l => if bool_decide (s = last) then dedup_after last l else s :: dedup_after s l
  end.
Definition dedup (l : list str) : list str :=
  match l with [] => [] | s :: l => s :: dedup_after s l end.
Definition sorted_set (l : list str) : list str := dedup (sort_by_key id l).

Fixpoint collect_hosts (raw : list str) (hosts : list str) : Result ManualCaptureError (list str) :=
  match raw with
  | [] => Ok hosts
  | h :: raw =>
      if count hosts =? MAX_HOSTS then Err InvalidPolicy else
      host ← normalize_host h;
      if is_loopback_name host then Err InvalidPolicy else collect_hosts raw (hosts ++ [host])
  end.
Fixpoint collect_headers (headers : list CaptureHeader) (header_count : Z) (allowed : Slots bool) :
    Result ManualCaptureError (Slots bool) :=
  match headers with
  | [] => Ok allowed
  | h :: headers =>
      if (header_count =? 2) || slot allowed h then Err InvalidPolicy
      else collect_headers headers (header_count + 1) (set_slot h true allowed)
  end.
(** [ManualCapturePolicy::new] *)
Definition policy_new (hosts : list str) (headers : list CaptureHeader) :
    Result ManualCaptureError ManualCapturePolicy :=
  hosts ← collect_hosts hosts [];
  let hosts := sorted_set hosts in
  if is_empty hosts then Err InvalidPolicy else
  allowed ← collect_headers headers 0 (mk_slots false false);
  if negb (cookie_slot allowed || authorization_slot allowed) then Err InvalidPolicy else
  Ok (mk_policy hosts [] allowed [] false).
Definition with_ignored_url_query (p : ManualCapturePolicy) : ManualCapturePolicy :=
  mk_policy (https_hosts p) (loopback_hosts p) (allowed_headers p) (policy_forwarded p) true.
Fixpoint collect_forwarded (headers forwarded : list str) : Result ManualCaptureError (list str) :=
  match headers with
  | [] => Ok forwarded
  | h :: headers =>
      if count forwarded =? MAX_FORWARDED_HEADERS then Err InvalidPolicy else
      if negb (valid_header_name h) || is_reserved_forwarded_header h then Err InvalidPolicy
      else collect_forwarded headers (forwarded ++ [to_ascii_lowercase h])
  end.
Definition with_forwarded_headers (headers : list str) (p : ManualCapturePolicy) :
    Result ManualCaptureError ManualCapturePolicy :=
  forwarded ← collect_forwarded headers [];
  Ok (mk_policy (https_hosts p) (loopback_hosts p) (allowed_headers p) (sorted_set forwarded) (ignore_url_query p)).
Definition with_loopback_host (h : LoopbackCaptureHost) (p : ManualCapturePolicy) :
    Result ManualCaptureError ManualCapturePolicy :=
  if count (https_hosts p) + count (loopback_hosts p) =? MAX_HOSTS then Err InvalidPolicy else
  Ok (mk_policy (https_hosts p) (sorted_set (loopback_hosts p ++ [loopback_host h])) (allowed_headers p)
        (policy_forwarded p) (ignore_url_query p)).
End capture.

(** ** The tokenizer *)

Inductive QuoteState := Unquoted | Single | Double | AnsiSingle.
#[global] Instance QuoteState_eq_dec : EqDecision QuoteState.
Proof. solve_decision. Defined.

Record Tokenizer := mk_tokenizer {
  finished : list str;
  token : str;
  state : QuoteState;
  token_started : bool;
  transitions : Z;
}.
Definition finish_token (t : Tokenizer) : Result ManualCaptureError Tokenizer :=
  if negb (token_started t) then Ok t else
  if count (finished t) =? MAX_TOKENS then Err TooManyTokens else
  Ok (mk_tokenizer (finished t ++ [token t]) [] (state t) false (transitions t)).
Definition transition (next : QuoteState) (t : Tokenizer) : Result ManualCaptureError Tokenizer :=
  let transitions := transitions t + 1 in
  if MAX_QUOTE_TRANSITIONS <? transitions then Err InvalidSyntax else
  Ok (mk_tokenizer (finished t) (token t) next (token_started t) transitions).
Definition push_char (value : Z) (t : Tokenizer) : Result ManualCaptureError Tokenizer :=
  if MAX_TOKEN_BYTES <? str_len (token t) + len_utf8 value then Err InputTooLarge else
  Ok (mk_tokenizer (finished t) (token t ++ [value]) (state t) (token_started t) (transitions t)).
Definition start_token (t : Tokenizer) : Tokenizer :=
  mk_tokenizer (finished t) (token t) (state t) true (transitions t).

Definition CR : Z := 13.
Definition LF : Z := 10.
Definition SINGLE_QUOTE : Z := 39.
Definition DOUBLE_QUOTE : Z := 34.
Definition BACKSLASH : Z := 92.
Definition DOLLAR : Z := 36.
Definition BACKTICK : Z := 96.
(** Expansion and control characters of a shell. *)
Definition UNSAFE_CHARACTERS : str := lit "$`|&;<>()#*?[]{}~".
(** [if chars.peek() == Some(&c) { chars.next(); }] *)
Definition skip_char (c : Z) (chars : str) : str :=
  match chars with
  | d :: rest => if d =? c then rest else chars
  | [] => chars
  end.

Definition peeks (c : Z) (chars : str) : bool :=
  match chars with d :: _ => d =? c | [] => false end.

(** The loop of [tokenize], with [consume_ansi_character]. *)
Fixpoint tokenize_loop (chars : str) (t : Tokenizer) : Result ManualCaptureError Tokenizer :=
  match chars with
  | [] => Ok t
  | character :: rest =>
      match state t with
      | Unquoted =>
          if is_ascii_whitespace character then
            t ← finish_token t;
            tokenize_loop (if character =? CR then skip_char LF rest else rest) t
          else if character =? SINGLE_QUOTE then
            t ← transition Single t; tokenize_loop rest (start_token t)
          else if character =? DOUBLE_QUOTE then
            t ← transition Double t; tokenize_loop rest (start_token t)
          else if (character =? DOLLAR) && peeks SINGLE_QUOTE rest then
            t ← transition AnsiSingle t; tokenize_loop (skip_char SINGLE_QUOTE rest) (start_token t)
          else if bool_decide (character ∈ UNSAFE_CHARACTERS) then Err UnsafeSyntax
          else if character =? BACKSLASH then
            match rest with
            | [] => Err InvalidSyntax
            | escaped :: rest =>
                if escaped =? CR then tokenize_loop (skip_char LF rest) t
                else if escaped =? LF then tokenize_loop rest t
                else t ← push_char escaped t; tokenize_loop rest (start_token t)
            end
          else if is_control character then Err UnsafeSyntax
          else t ← push_char character t; tokenize_loop rest (start_token t)
      | Single =>
          if character =? SINGLE_QUOTE then t ← transition Unquoted t; tokenize_loop rest t
          else if is_control character then Err UnsafeSyntax
          else t ← push_char character t; tokenize_loop rest t
      | Double =>
          if character =? DOUBLE_QUOTE then t ← transition Unquoted t; tokenize_loop rest t
          else if (character =? DOLLAR) || (character =? BACKTICK) then Err UnsafeSyntax
          else if character =? BACKSLASH then
            match rest with
            | [] => Err InvalidSyntax
            | escaped :: rest =>
                if escaped =? CR then tokenize_loop (skip_char LF rest) t
                else if escaped =? LF then tokenize_loop rest t
                else if negb ((escaped =? DOUBLE_QUOTE) || (escaped =? BACKSLASH)) then Err UnsafeSyntax
                else t ← push_char escaped t; tokenize_loop rest t
            end
          else if is_control character then Err UnsafeSyntax
          else t ← push_char character t; tokenize_loop rest t
      | AnsiSingle =>
          if character =? SINGLE_QUOTE then t ← transition Unquoted t; tokenize_loop rest t
          else if character =? BACKSLASH then
            match rest with
            | [] => Err InvalidSyntax
            | escaped :: rest =>
                if negb ((escaped =? BACKSLASH) || (escaped =? SINGLE_QUOTE) || (escaped =? DOUBLE_QUOTE))
                then Err UnsafeSyntax
                else t ← push_char escaped t; tokenize_loop rest t
            end
          else if is_control character then Err UnsafeSyntax
          else t ← push_char character t; tokenize_loop rest t
      end
  end.
Definition tokenize (raw : str) : Result ManualCaptureError (list str) :=
  validate_input_bound raw ;;
  t ← tokenize_loop raw (mk_tokenizer [] [] Unquoted false 0);
  if negb (bool_decide (state t = Unquoted)) then Err InvalidSyntax else
  t ← finish_token t;
  Ok (finished t).

(** ** The parser *)

Definition set_url (url : option str) (value : str) : Result ManualCaptureError (option str) :=
  if is_empty value || starts_with 64 value || bool_decide (is_Some url) then Err InvalidSyntax
  else Ok (Some value).
Definition increment_headers (n : Z) : Result ManualCaptureError Z :=
  let next := n + 1 in if MAX_HEADERS <? next then Err TooManyHeaders else Ok next.
Definition SAFE_FLAGS : list str :=
  [lit "--compressed"; lit "--fail"; lit "--fail-with-body"; lit "--globoff"; lit "--no-progress-meter";
   lit "--show-error"; lit "--silent"].
Definition is_safe_flag (token : str) : bool :=
  bool_decide (token ∈ SAFE_FLAGS)
  || match strip_prefix (lit "-") token with
     | Some flags => negb (is_empty flags) && forallb (λ byte, bool_decide (byte ∈ lit "fgsS")) (as_bytes flags)
     | None => false
     end.
(** [token.starts_with(prefix) && token.len() > 2], then [token[2..]]. *)
Definition attached (prefix token : str) : option str :=
  value ← strip_prefix prefix token; if is_empty value then None else Some value.

Section parse.
Context `{CookieHosts} `{!CaptureUrls} (p : ManualCapturePolicy).

Definition capture_header (field : str) (c : ManualCapture) : Result ManualCaptureError ManualCapture :=
  if starts_with 64 field then Err UnsafeOption else
  validate_no_controls field ;;
  '(before, after) ← ok_or (split_once [58] field) InvalidSyntax;
  let name := trim_ascii before in
  if negb (valid_header_name name) then Err InvalidSyntax else
  let header := if eq_ignore_ascii_case name (lit "cookie") then Some CookieHeader
                else if eq_ignore_ascii_case name (lit "authorization") then Some AuthorizationHeader
                else None in
  match header with
  | Some h =>
      if negb (slot (allowed_headers p) h) then Ok c else
      if bool_decide (is_Some (expose <$> slot (secrets c) h)) then Err DuplicateSecret else
      secret ← secret_new (trim_ascii after) h;
      Ok (set_secret h secret c)
  | None =>
      let normalized_name := to_ascii_lowercase name in
      if negb (bool_decide (normalized_name ∈ policy_forwarded p)) then Ok c
      else insert_forwarded normalized_name (trim_ascii after) c
  end.
Definition capture_cookie (value : str) (c : ManualCapture) : Result ManualCaptureError ManualCapture :=
  if starts_with 64 value then Err UnsafeOption else
  if negb (slot (allowed_headers p) CookieHeader) then Ok c else
  if bool_decide (is_Some (expose <$> slot (secrets c) CookieHeader)) then Err DuplicateSecret else
  secret ← secret_new (trim_ascii value) CookieHeader;
  Ok (set_secret CookieHeader secret c).

Definition validate_url (raw : str) : Result ManualCaptureError Url :=
  validate_no_controls raw ;;
  url ← ok_or (url_parse raw) DisallowedUrl;
  if negb (is_empty (username url)) || bool_decide (is_Some (password url))
     || (bool_decide (is_Some (query url)) && negb (ignore_url_query p)) || bool_decide (is_Some (fragment url))
  then Err DisallowedUrl else
  host ← ok_or (canonical_url_host url) DisallowedUrl;
  if bool_decide (host ∈ loopback_hosts p) then
    if negb (is_http (scheme url) || is_https (scheme url)) then Err DisallowedUrl else Ok (without_query url)
  else if negb (is_https (scheme url)) || negb (bool_decide (port_or_known_default url = Some 443))
          || negb (bool_decide (host ∈ https_hosts p))
  then Err DisallowedUrl else Ok (without_query url).

(** What the loop over the arguments has so far. *)
Record Arguments_ := mk_arguments {
  captured : ManualCapture;
  raw_url : option str;
  header_count : Z;
  positional_only : bool;
}.
Definition take_header (value : str) (a : Arguments_) : Result ManualCaptureError Arguments_ :=
  n ← increment_headers (header_count a);
  c ← capture_header value (captured a);
  Ok (mk_arguments c (raw_url a) n (positional_only a)).
Definition take_cookie (value : str) (a : Arguments_) : Result ManualCaptureError Arguments_ :=
  n ← increment_headers (header_count a);
  c ← capture_cookie value (captured a);
  Ok (mk_arguments c (raw_url a) n (positional_only a)).
Definition take_url (value : str) (a : Arguments_) : Result ManualCaptureError Arguments_ :=
  url ← set_url (raw_url a) value;
  Ok (mk_arguments (captured a) url (header_count a) (positional_only a)).
(** What one token says, options before positional arguments. *)
Inductive Meaning :=
| EndOfOptions
| TakesNext (take : str → Arguments_ → Result ManualCaptureError Arguments_)
| Inline (take : str → Arguments_ → Result ManualCaptureError Arguments_) (value : str)
| SafeFlag
| Refused (e : ManualCaptureError)
| Positional.
(** [--name=value] with a value. *)
Definition inline_value (take : str → Arguments_ → Result ManualCaptureError Arguments_) (value : str) : Meaning :=
  if is_empty value then Refused InvalidSyntax else Inline take value.
Definition meaning (positional_only : bool) (token : str) : Meaning :=
  if positional_only then Positional else
  if bool_decide (token = lit "--") then EndOfOptions else
  if bool_decide (token ∈ [lit "-H"; lit "--header"]) then TakesNext take_header else
  match strip_prefix (lit "--header=") token with Some value => inline_value take_header value | None =>
  match attached (lit "-H") token with Some value => Inline take_header value | None =>
  if bool_decide (token ∈ [lit "-b"; lit "--cookie"]) then TakesNext take_cookie else
  match strip_prefix (lit "--cookie=") token with Some value => inline_value take_cookie value | None =>
  match attached (lit "-b") token with Some value => Inline take_cookie value | None =>
  if bool_decide (token = lit "--url") then TakesNext take_url else
  match strip_prefix (lit "--url=") token with Some value => inline_value take_url value | None =>
  if is_safe_flag token then SafeFlag
  else if starts_with 45 token then Refused UnsafeOption
  else Positional
  end end end end end.
(** The loop over the tokens; [take_following] refuses an option as a value. *)
Fixpoint parse_arguments (tokens : list str) (a : Arguments_) : Result ManualCaptureError Arguments_ :=
  match tokens with
  | [] => Ok a
  | token :: rest =>
      match meaning (positional_only a) token with
      | EndOfOptions => parse_arguments rest (mk_arguments (captured a) (raw_url a) (header_count a) true)
      | TakesNext take =>
          match rest with
          | [] => Err InvalidSyntax
          | next :: rest =>
              if starts_with 45 next then Err InvalidSyntax else a ← take next a; parse_arguments rest a
          end
      | Inline take value => a ← take value a; parse_arguments rest a
      | SafeFlag => parse_arguments rest a
      | Refused e => Err e
      | Positional => a ← take_url token a; parse_arguments rest a
      end
  end.
Definition parse_curl (raw : str) : Result ManualCaptureError ManualCapture :=
  tokens ← tokenize raw;
  match tokens with
  | command :: rest =>
      if negb (bool_decide (command = lit "curl")) then Err InvalidSyntax else
      a ← parse_arguments rest (mk_arguments capture_empty None 0 false);
      url ← traverse_option validate_url (raw_url a);
      let c := mk_capture (secrets (captured a)) (capture_forwarded (captured a)) url in
      if bool_decide (header c CookieHeader = None) && bool_decide (header c AuthorizationHeader = None)
      then Err MissingSecret else Ok c
  | [] => Err InvalidSyntax
  end.
Definition parse_raw (raw : str) : Result ManualCaptureError ManualCapture :=
  validate_no_controls raw ;;
  let raw := trim_ascii raw in
  if is_empty raw then Err MissingSecret else
  '(h, value) ← match strip_header_prefix raw (lit "cookie") with
                | Some value => Ok (CookieHeader, value)
                | None =>
                    match strip_header_prefix raw (lit "authorization") with
                    | Some value => Ok (AuthorizationHeader, value)
                    | None => value ← strip_matching_quotes raw; Ok (CookieHeader, value)
                    end
                end;
  value ← strip_matching_quotes value;
  if negb (slot (allowed_headers p) h) then Err DisallowedHeader else
  secret ← secret_new value h;
  Ok (set_secret h secret capture_empty).
Definition parse (raw : str) : Result ManualCaptureError ManualCapture :=
  validate_input_bound raw ;;
  if starts_with_curl_command raw then parse_curl raw else parse_raw raw.
End parse.
