(* ===== verification/ManualCaptureFacts.v ===== *)
(** * Manual captures: what the tokenizer accepts, and what a policy lets in
      (crates/providers/src/manual_capture.rs)

    The tokenizer accepts exactly the texts of a small grammar of words without
    expansions; a capture carries nothing its policy does not grant; and what a
    browser writes for a shell is read back. *)
From stdpp Require Import sorting prelude.
From S2P Require Import Prelude Ordering Text Externals Endpoint Config Cookie ManualCapture.
Local Open Scope Z_scope.

(** ** The grammar *)

Inductive EndOfLine := Lf | Cr | CrLf.
Definition eol_text (e : EndOfLine) : str :=
  match e with Lf => [LF] | Cr => [CR] | CrLf => [CR; LF] end.
Inductive DoublePiece := DoubleChar (c : Z) | DoubleEscape (c : Z) | DoubleContinue (e : EndOfLine).
Inductive AnsiPiece := AnsiChar (c : Z) | AnsiEscape (c : Z).
Inductive Item :=
| Blank (c : Z)
| Plain (c : Z)
| Escape (c : Z)
| Continue (e : EndOfLine)
| SingleQuoted (s : str)
| DoubleQuoted (l : list DoublePiece)
| AnsiQuoted (l : list AnsiPiece).

(** How an item is written, and what it contributes to its word. *)
Definition double_render (d : DoublePiece) : str :=
  match d with DoubleChar c => [c] | DoubleEscape c => [BACKSLASH; c] | DoubleContinue e => BACKSLASH :: eol_text e end.
Definition double_text (d : DoublePiece) : str :=
  match d with DoubleChar c | DoubleEscape c => [c] | DoubleContinue _ => [] end.
Definition ansi_render (a : AnsiPiece) : str :=
  match a with AnsiChar c => [c] | AnsiEscape c => [BACKSLASH; c] end.
Definition ansi_text (a : AnsiPiece) : str := match a with AnsiChar c | AnsiEscape c => [c] end.
Definition item_render (i : Item) : str :=
  match i with
  | Blank c | Plain c => [c]
  | Escape c => [BACKSLASH; c]
  | Continue e => BACKSLASH :: eol_text e
  | SingleQuoted s => SINGLE_QUOTE :: s ++ [SINGLE_QUOTE]
  | DoubleQuoted l => DOUBLE_QUOTE :: (l ≫= double_render) ++ [DOUBLE_QUOTE]
  | AnsiQuoted l => DOLLAR :: SINGLE_QUOTE :: (l ≫= ansi_render) ++ [SINGLE_QUOTE]
  end.
Definition render (l : list Item) : str := l ≫= item_render.
Definition append_text (s : str) (current : option str) : option str := Some (default [] current ++ s).
Fixpoint words_from (current : option str) (l : list Item) : list str :=
  match l with
  | [] => option_list current
  | Blank _ :: l => option_list current ++ words_from None l
  | Plain c :: l | Escape c :: l => words_from (append_text [c] current) l
  | Continue _ :: l => words_from current l
  | SingleQuoted s :: l => words_from (append_text s current) l
  | DoubleQuoted d :: l => words_from (append_text (d ≫= double_text) current) l
  | AnsiQuoted a :: l => words_from (append_text (a ≫= ansi_text) current) l
  end.
Definition words_of (l : list Item) : list str := words_from None l.
Definition is_quoted (i : Item) : bool :=
  match i with SingleQuoted _ | DoubleQuoted _ | AnsiQuoted _ => true | _ => false end.
Fixpoint quotes (l : list Item) : Z :=
  match l with [] => 0 | i :: l => (if is_quoted i then 2 else 0) + quotes l end.

(** The characters each kind of item may hold. *)
Definition plain_char (c : Z) : bool :=
  negb (is_ascii_whitespace c || (c =? SINGLE_QUOTE) || (c =? DOUBLE_QUOTE)
        || bool_decide (c ∈ UNSAFE_CHARACTERS) || (c =? BACKSLASH) || is_control c).
Definition single_char (c : Z) : bool := negb ((c =? SINGLE_QUOTE) || is_control c).
Definition double_piece (d : DoublePiece) : bool :=
  match d with
  | DoubleChar c => negb ((c =? DOUBLE_QUOTE) || (c =? DOLLAR) || (c =? BACKTICK) || (c =? BACKSLASH) || is_control c)
  | DoubleEscape c => (c =? DOUBLE_QUOTE) || (c =? BACKSLASH)
  | DoubleContinue _ => true
  end.
Definition ansi_piece (a : AnsiPiece) : bool :=
  match a with
  | AnsiChar c => negb ((c =? SINGLE_QUOTE) || (c =? BACKSLASH) || is_control c)
  | AnsiEscape c => (c =? BACKSLASH) || (c =? SINGLE_QUOTE) || (c =? DOUBLE_QUOTE)
  end.
Definition item_ok (i : Item) : bool :=
  match i with
  | Blank c => is_ascii_whitespace c
  | Plain c => plain_char c
  | Escape c => negb ((c =? CR) || (c =? LF))
  | Continue _ => true
  | SingleQuoted s => forallb single_char s
  | DoubleQuoted l => forallb double_piece l
  | AnsiQuoted l => forallb ansi_piece l
  end.
(** A line continued by CR alone is not followed by LF. *)
Fixpoint layout_ok (l : list Item) : bool :=
  match l with
  | [] => true
  | i :: l =>
      item_ok i && match i with Continue Cr => negb (peeks LF (render l)) | _ => true end && layout_ok l
  end.

(** ** The tokenizer's state between items *)

Definition open_token (t : Tokenizer) : option str := if token_started t then Some (token t) else None.
Record tokenizer_ok (t : Tokenizer) : Prop := {
  ok_finished : count (finished t) ≤ MAX_TOKENS;
  ok_words : Forall (λ w, str_len w ≤ MAX_TOKEN_BYTES) (finished t);
  ok_token : str_len (token t) ≤ MAX_TOKEN_BYTES;
  ok_fresh : token_started t = false → token t = [];
  ok_quoted : state t ≠ Unquoted → token_started t = true;
  ok_transitions : transitions t ≤ MAX_QUOTE_TRANSITIONS;
}.

Lemma finish_token_Ok t t' : finish_token t = Ok t' → tokenizer_ok t → state t = Unquoted →
  tokenizer_ok t' ∧ finished t' = finished t ++ option_list (open_token t) ∧ open_token t' = None ∧
  state t' = Unquoted ∧ transitions t' = transitions t.
Proof.
  unfold finish_token, open_token. intros E Hok Hs. pose proof Hok as [Hf Hw Ht Hn Hq Htr].
  destruct (token_started t) eqn:Est; cbn in E.
  - destruct (Z.eqb_spec (count (finished t)) MAX_TOKENS); [done|]. injection E as <-. split_and!; try done.
    split; cbn; try done.
    + unfold count in *. rewrite length_app. cbn. lia.
    + apply Forall_app. by repeat constructor.
  - injection E as <-. rewrite Est. cbn. by rewrite app_nil_r.
Qed.
Lemma transition_Ok next t t' : transition next t = Ok t' →
  t' = mk_tokenizer (finished t) (token t) next (token_started t) (transitions t + 1) ∧
  transitions t + 1 ≤ MAX_QUOTE_TRANSITIONS.
Proof. unfold transition. destruct (Z.ltb_spec MAX_QUOTE_TRANSITIONS (transitions t + 1)); [done|]. by intros [= <-]. Qed.
Lemma push_char_Ok c t t' : push_char c t = Ok t' →
  t' = mk_tokenizer (finished t) (token t ++ [c]) (state t) (token_started t) (transitions t) ∧
  str_len (token t ++ [c]) ≤ MAX_TOKEN_BYTES.
Proof.
  unfold push_char. destruct (Z.ltb_spec MAX_TOKEN_BYTES (str_len (token t) + len_utf8 c)); [done|].
  intros [= <-]. split; [done|]. rewrite str_len_app. cbn. lia.
Qed.

(** ** Whatever is accepted is written in the grammar *)

Definition reads (t t' : Tokenizer) (current : option str) (opened : Z) (l : list Item) : Prop :=
  finished t' ++ option_list (open_token t') = finished t ++ words_from current l ∧
  transitions t' = transitions t + opened + quotes l.
Definition sound (chars : str) (t t' : Tokenizer) : Prop :=
  tokenize_loop chars t = Ok t' → state t' = Unquoted → tokenizer_ok t → tokenizer_ok t' ∧
  match state t with
  | Unquoted => ∃ l, layout_ok l = true ∧ chars = render l ∧ reads t t' (open_token t) 0 l
  | Single => ∃ s l, forallb single_char s = true ∧ layout_ok l = true ∧
      chars = s ++ SINGLE_QUOTE :: render l ∧ reads t t' (Some (token t ++ s)) 1 l
  | Double => ∃ d l, forallb double_piece d = true ∧ layout_ok l = true ∧
      chars = (d ≫= double_render) ++ DOUBLE_QUOTE :: render l ∧ reads t t' (Some (token t ++ (d ≫= double_text))) 1 l
  | AnsiSingle => ∃ a l, forallb ansi_piece a = true ∧ layout_ok l = true ∧
      chars = (a ≫= ansi_render) ++ SINGLE_QUOTE :: render l ∧ reads t t' (Some (token t ++ (a ≫= ansi_text))) 1 l
  end.

(** The texts shorter than [chars] are done. *)
Definition shorter (chars : str) : Prop := ∀ rest t t', (length rest < length chars)%nat → sound rest t t'.

(** A character of a token: the state it leaves. *)
Lemma pushed_ok c t t1 : push_char c t = Ok t1 → tokenizer_ok t →
  tokenizer_ok (start_token t1) ∧ (state t ≠ Unquoted → tokenizer_ok t1 ∧ t1 = start_token t1) ∧
  open_token (start_token t1) = append_text [c] (open_token t) ∧ token t1 = token t ++ [c] ∧
  state t1 = state t ∧ finished t1 = finished t ∧ transitions t1 = transitions t.
Proof.
  intros [-> Hl]%push_char_Ok [Hf Hw Ht Hn Hq Htr]. unfold start_token, open_token, append_text; cbn.
  split_and!; try done.
  - intros Hs. rewrite (Hq Hs). done.
  - destruct (token_started t) eqn:E; [done|]. by rewrite Hn.
Qed.
Lemma opened_ok q t t1 : transition q t = Ok t1 → tokenizer_ok t → state t = Unquoted → q ≠ Unquoted →
  tokenizer_ok (start_token t1) ∧ state t1 = q ∧ finished t1 = finished t ∧ transitions t1 = transitions t + 1 ∧
  ∀ s, Some (token t1 ++ s) = append_text s (open_token t).
Proof.
  intros [-> Hl]%transition_Ok [Hf Hw Ht Hn Hq Htr] Hs Hne. unfold open_token, append_text; cbn.
  split_and!; try done. intros s. destruct (token_started t) eqn:E; [done|]. by rewrite Hn.
Qed.
Lemma closed_ok t t1 : transition Unquoted t = Ok t1 → tokenizer_ok t → state t ≠ Unquoted →
  tokenizer_ok t1 ∧ state t1 = Unquoted ∧ finished t1 = finished t ∧ transitions t1 = transitions t + 1 ∧
  open_token t1 = Some (token t).
Proof.
  intros [-> Hl]%transition_Ok [Hf Hw Ht Hn Hq Htr] Hs. unfold open_token; cbn. rewrite Hq by done. by split_and!.
Qed.

(** A quoted part ends, goes on with a written character, or goes on without. *)
Lemma sound_close chars rest t t1 t' q : shorter chars → transition Unquoted t = Ok t1 → tokenize_loop rest t1 = Ok t' → state t' = Unquoted →
  tokenizer_ok t → state t ≠ Unquoted → chars = q :: rest →
  tokenizer_ok t' ∧ ∃ l, layout_ok l = true ∧ chars = q :: render l ∧ reads t t' (Some (token t)) 1 l.
Proof.
  intros IH E1 E Hs' Hok Hs Hc. destruct (closed_ok _ _ E1 Hok Hs) as (Hok1 & Hs1 & Hf1 & Ht1 & Ho1).
  destruct (IH rest t1 t' ltac:(rewrite Hc; cbn; lia) E Hs' Hok1) as [Hok' H]. split; [done|]. rewrite Hs1 in H.
  destruct H as (l & Hl & -> & Hr & Hq). exists l. rewrite Ho1, Hf1 in Hr. rewrite Ht1 in Hq.
  split_and!; try done. split; [done|lia].
Qed.
Lemma sound_push chars rest t t1 t' c : shorter chars → push_char c t = Ok t1 → tokenize_loop rest t1 = Ok t' → state t' = Unquoted →
  tokenizer_ok t → state t ≠ Unquoted → (length rest < length chars)%nat →
  token t1 = token t ++ [c] ∧ state t1 = state t ∧ sound rest t1 t' ∧ tokenizer_ok t1 ∧
  ∀ current l, reads t1 t' current 1 l → reads t t' current 1 l.
Proof.
  intros IH E1 E Hs' Hok Hs Hl. destruct (pushed_ok _ _ _ E1 Hok) as (_ & Hq1 & _ & Hk1 & Hs1 & Hf1 & Ht1).
  destruct Hq1 as [Hok1 _]; [done|]. split_and!; try done; [by apply IH|].
  intros current l [Hr Hq]. split; [by rewrite <-Hf1|by rewrite <-Ht1].
Qed.

Ltac closes IH E Hs' Hok :=
  let l := fresh "l" in let t1 := fresh "t1" in let E1 := fresh "E1" in
  apply bind_Ok in E as (t1 & E1 & E);
  destruct (sound_close _ _ _ _ _ _ IH E1 E Hs' Hok ltac:(congruence) eq_refl) as (? & l & ? & Hrest & ?);
  injection Hrest as Hrest; rewrite Hrest;
  split; [done|]; exists [], l; rewrite app_nil_r; done.
Ltac pushes IH E Hs Hs' Hok :=
  let t1 := fresh "t1" in let E1 := fresh "E1" in
  apply bind_Ok in E as (t1 & E1 & E);
  destruct (sound_push _ _ _ _ _ _ IH E1 E Hs' Hok ltac:(congruence) ltac:(cbn; lia))
    as (Hk1 & Hs1 & HS & Hok1 & Hr1);
  destruct (HS E Hs' Hok1) as [? H]; split; [done|]; rewrite Hs1, Hs in H;
  destruct H as (s & l & Hin & Hl & -> & Hr%Hr1); rewrite Hk1, <-app_assoc in Hr.

Lemma sound_single chars t t' : shorter chars → state t = Single → sound chars t t'.
Proof.
  unfold sound. intros IH Hs E Hs' Hok. rewrite Hs. destruct chars as [|c rest]; cbn in E; [injection E as ->; congruence|].
  rewrite Hs in E. destruct (Z.eqb_spec c SINGLE_QUOTE) as [->|Hc]; [closes IH E Hs' Hok|].
  destruct (is_control c) eqn:Ec; [done|]. pushes IH E Hs Hs' Hok.
  exists (c :: s), l. split_and!; try done. cbn. unfold single_char at 1. by rewrite (proj2 (Z.eqb_neq _ _) Hc), Ec.
Qed.
Lemma sound_double chars t t' : shorter chars → state t = Double → sound chars t t'.
Proof.
  unfold sound. intros IH Hs E Hs' Hok. rewrite Hs. destruct chars as [|c rest]; cbn in E; [injection E as ->; congruence|].
  rewrite Hs in E. destruct (Z.eqb_spec c DOUBLE_QUOTE) as [->|Hq]; [closes IH E Hs' Hok|].
  destruct ((c =? DOLLAR) || (c =? BACKTICK)) eqn:Ed; [done|].
  destruct (Z.eqb_spec c BACKSLASH) as [->|Hb].
  - destruct rest as [|e rest]; [done|]. destruct (Z.eqb_spec e CR) as [->|Hcr].
    + destruct (peeks LF rest) eqn:El.
      * destruct rest as [|d rest]; [done|]. cbn in El, E. rewrite El in E. apply Z.eqb_eq in El as ->.
        destruct (IH rest t t' ltac:(cbn; lia) E Hs' Hok) as [Hok' H]. split; [done|]. rewrite Hs in H.
        destruct H as (d & l & Hd & Hl & -> & Hr). exists (DoubleContinue CrLf :: d), l. by split_and!.
      * assert (skip_char LF rest = rest) as Hskip.
        { destruct rest as [|d rest]; [done|]. cbn in El |- *. by rewrite El. }
        rewrite Hskip in E.
        destruct (IH rest t t' ltac:(cbn; lia) E Hs' Hok) as [Hok' H]. split; [done|]. rewrite Hs in H.
        destruct H as (d & l & Hd & Hl & -> & Hr). exists (DoubleContinue Cr :: d), l. by split_and!.
    + destruct (Z.eqb_spec e LF) as [->|Hlf].
      * destruct (IH rest t t' ltac:(cbn; lia) E Hs' Hok) as [Hok' H]. split; [done|]. rewrite Hs in H.
        destruct H as (d & l & Hd & Hl & -> & Hr). exists (DoubleContinue Lf :: d), l. by split_and!.
      * destruct ((e =? DOUBLE_QUOTE) || (e =? BACKSLASH)) eqn:Ee; [|done]. cbn in E. pushes IH E Hs Hs' Hok.
        exists (DoubleEscape e :: s), l. split_and!; try done. cbn. by rewrite Ee.
  - destruct (is_control c) eqn:Ec; [done|]. pushes IH E Hs Hs' Hok.
    exists (DoubleChar c :: s), l. split_and!; try done. cbn. apply orb_false_iff in Ed as [-> ->].
    by rewrite (proj2 (Z.eqb_neq _ _) Hq), (proj2 (Z.eqb_neq _ _) Hb), Ec.
Qed.
Lemma sound_ansi chars t t' : shorter chars → state t = AnsiSingle → sound chars t t'.
Proof.
  unfold sound. intros IH Hs E Hs' Hok. rewrite Hs. destruct chars as [|c rest]; cbn in E; [injection E as ->; congruence|].
  rewrite Hs in E. destruct (Z.eqb_spec c SINGLE_QUOTE) as [->|Hq]; [closes IH E Hs' Hok|].
  destruct (Z.eqb_spec c BACKSLASH) as [->|Hb].
  - destruct rest as [|e rest]; [done|].
    destruct ((e =? BACKSLASH) || (e =? SINGLE_QUOTE) || (e =? DOUBLE_QUOTE)) eqn:Ee; [|done]. cbn in E.
    pushes IH E Hs Hs' Hok. exists (AnsiEscape e :: s), l. split_and!; try done. cbn. by rewrite Ee.
  - destruct (is_control c) eqn:Ec; [done|]. pushes IH E Hs Hs' Hok.
    exists (AnsiChar c :: s), l. split_and!; try done. cbn.
    by rewrite (proj2 (Z.eqb_neq _ _) Hq), (proj2 (Z.eqb_neq _ _) Hb), Ec.
Qed.

Lemma skip_char_cases c rest :
  (∃ k, rest = c :: k ∧ skip_char c rest = k ∧ peeks c rest = true) ∨ (skip_char c rest = rest ∧ peeks c rest = false).
Proof. destruct rest as [|d k]; [by right|]. cbn. destruct (Z.eqb_spec d c) as [->|]; [left; by exists k|by right]. Qed.

Lemma sound_blank c rest t t1 t' : shorter (c :: rest) → is_ascii_whitespace c = true → finish_token t = Ok t1 →
  tokenize_loop (if c =? CR then skip_char LF rest else rest) t1 = Ok t' → state t' = Unquoted → tokenizer_ok t →
  state t = Unquoted → tokenizer_ok t' ∧ ∃ l, layout_ok l = true ∧ c :: rest = render l ∧ reads t t' (open_token t) 0 l.
Proof.
  intros IH Hc E1 E Hs' Hok Hs. destruct (finish_token_Ok _ _ E1 Hok Hs) as (Hok1 & Hf & Ho & Hs1 & Ht).
  assert (∀ k, (length k < length (c :: rest))%nat → tokenize_loop k t1 = Ok t' →
    tokenizer_ok t' ∧ ∃ l, layout_ok l = true ∧ k = render l ∧ reads t t' (open_token t) 0 (Blank c :: l)) as Hk.
  { intros k Hk Ek. destruct (IH k t1 t' Hk Ek Hs' Hok1) as [Hok' H]. split; [done|]. rewrite Hs1 in H.
    destruct H as (l & Hl & -> & Hr & Hq). exists l. split_and!; try done. rewrite Hf, Ho, <-app_assoc in Hr.
    split; [done|]. cbn. lia. }
  destruct (Z.eqb_spec c CR) as [->|Hne].
  - destruct (skip_char_cases LF rest) as [(k & -> & Hskip & _)|[Hskip _]]; rewrite Hskip in E.
    + destruct (Hk k ltac:(cbn; lia) E) as (? & l & Hl & -> & Hr). split; [done|].
      exists (Blank CR :: Blank LF :: l). split_and!; try done.
    + destruct (Hk rest ltac:(cbn; lia) E) as (? & l & Hl & -> & Hr). split; [done|].
      exists (Blank CR :: l). split_and!; try done.
  - destruct (Hk rest ltac:(cbn; lia) E) as (? & l & Hl & -> & Hr). split; [done|].
    exists (Blank c :: l). split_and!; try done. cbn. by rewrite Hc, Hl.
Qed.

(** An opening quote: what follows belongs to the token. *)
Lemma sound_open q rest t t1 t' chars : shorter chars → transition q t = Ok t1 →
  tokenize_loop rest (start_token t1) = Ok t' → state t' = Unquoted → tokenizer_ok t → state t = Unquoted →
  q ≠ Unquoted → (length rest < length chars)%nat →
  tokenizer_ok t' ∧ state (start_token t1) = q ∧ sound rest (start_token t1) t' ∧ tokenizer_ok (start_token t1) ∧
  ∀ s l, reads (start_token t1) t' (Some (token (start_token t1) ++ s)) 1 l →
    finished t' ++ option_list (open_token t') = finished t ++ words_from (append_text s (open_token t)) l ∧
    transitions t' = transitions t + 0 + (2 + quotes l).
Proof.
  intros IH E1 E Hs' Hok Hs Hq Hl. destruct (opened_ok _ _ _ E1 Hok Hs Hq) as (Hok1 & Hs1 & Hf1 & Ht1 & Ha).
  split_and!; try done; [by destruct (IH rest (start_token t1) t' Hl E Hs' Hok1)|by apply IH|].
  intros s l [Hr Htr]. cbn in Hr, Htr. rewrite Ha, Hf1 in Hr. split; [done|]. lia.
Qed.
(** A character of an unquoted word. *)
Lemma sound_bare c rest t t1 t' chars : shorter chars → push_char c t = Ok t1 →
  tokenize_loop rest (start_token t1) = Ok t' → state t' = Unquoted → tokenizer_ok t → state t = Unquoted →
  (length rest < length chars)%nat → tokenizer_ok t' ∧ ∃ l, layout_ok l = true ∧ rest = render l ∧
    reads t t' (append_text [c] (open_token t)) 0 l.
Proof.
  intros IH E1 E Hs' Hok Hs Hl. destruct (pushed_ok _ _ _ E1 Hok) as (Hok1 & _ & Ha & _ & Hs1 & Hf1 & Ht1).
  destruct (IH rest (start_token t1) t' Hl E Hs' Hok1) as [Hok' H]. split; [done|].
  change (state (start_token t1)) with (state t1) in H. rewrite Hs1, Hs in H.
  destruct H as (l & Hlok & -> & Hr & Htr). exists l. split_and!; try done. rewrite Ha in Hr. cbn in Hr, Htr.
  rewrite Hf1 in Hr. rewrite Ht1 in Htr. by split.
Qed.

Lemma sound_backslash rest t t' : shorter (BACKSLASH :: rest) →
  match rest with
  | [] => Err InvalidSyntax
  | escaped :: rest =>
      if escaped =? CR then tokenize_loop (skip_char LF rest) t
      else if escaped =? LF then tokenize_loop rest t
      else t ← push_char escaped t; tokenize_loop rest (start_token t)
  end = Ok t' → state t' = Unquoted → tokenizer_ok t → state t = Unquoted →
  tokenizer_ok t' ∧ ∃ l, layout_ok l = true ∧ BACKSLASH :: rest = render l ∧ reads t t' (open_token t) 0 l.
Proof.
  intros IH E Hs' Hok Hs. destruct rest as [|e rest]; [done|].
  assert (∀ k, (length k < length (BACKSLASH :: e :: rest))%nat → tokenize_loop k t = Ok t' →
    tokenizer_ok t' ∧ ∃ l, layout_ok l = true ∧ k = render l ∧ reads t t' (open_token t) 0 l) as Hk.
  { intros k Hk Ek. destruct (IH k t t' Hk Ek Hs' Hok) as [Hok' H]. split; [done|]. by rewrite Hs in H. }
  destruct (Z.eqb_spec e CR) as [->|Hcr].
  - destruct (skip_char_cases LF rest) as [(k & -> & Hskip & _)|[Hskip Hp]]; rewrite Hskip in E.
    + destruct (Hk k ltac:(cbn; lia) E) as (? & l & Hl & -> & Hr). split; [done|].
      exists (Continue CrLf :: l). by split_and!.
    + destruct (Hk rest ltac:(cbn; lia) E) as (? & l & Hl & -> & Hr). split; [done|].
      exists (Continue Cr :: l). split_and!; try done. cbn. by rewrite Hp, Hl.
  - destruct (Z.eqb_spec e LF) as [->|Hlf].
    + destruct (Hk rest ltac:(cbn; lia) E) as (? & l & Hl & -> & Hr). split; [done|].
      exists (Continue Lf :: l). by split_and!.
    + apply bind_Ok in E as (t1 & E1 & E).
      destruct (sound_bare _ _ _ _ _ _ IH E1 E Hs' Hok Hs ltac:(cbn; lia)) as (? & l & Hl & -> & Hr). split; [done|].
      exists (Escape e :: l). split_and!; try done. cbn.
      by rewrite (proj2 (Z.eqb_neq _ _) Hcr), (proj2 (Z.eqb_neq _ _) Hlf), Hl.
Qed.

Ltac opens IH E Hs' Hok Hs :=
  let t1 := fresh "t1" in let E1 := fresh "E1" in
  apply bind_Ok in E as (t1 & E1 & E);
  destruct (sound_open _ _ _ _ _ _ IH E1 E Hs' Hok Hs ltac:(done) ltac:(cbn; lia)) as (Hok' & Hs1 & HS & Hok1 & Hr1);
  destruct (HS E Hs' Hok1) as [_ H]; split; [done|]; rewrite Hs1 in H;
  destruct H as (s & l & Hin & Hl & -> & Hr%Hr1).
Lemma sound_unquoted chars t t' : shorter chars → state t = Unquoted → sound chars t t'.
Proof.
  unfold sound. intros IH Hs E Hs' Hok. rewrite Hs. destruct chars as [|c rest]; cbn [tokenize_loop] in E.
  { injection E as ->. split; [done|]. exists []. split_and!; try done. split; [done|]. cbn. lia. }
  rewrite Hs in E. destruct (is_ascii_whitespace c) eqn:Ew.
  { apply bind_Ok in E as (t1 & E1 & E). by eapply sound_blank. }
  destruct (Z.eqb_spec c SINGLE_QUOTE) as [->|Hsq].
  { opens IH E Hs' Hok Hs. exists (SingleQuoted s :: l). split_and!; try done; [cbn; by rewrite Hin|].
    cbn. by rewrite <-app_assoc. }
  destruct (Z.eqb_spec c DOUBLE_QUOTE) as [->|Hdq].
  { opens IH E Hs' Hok Hs. exists (DoubleQuoted s :: l). split_and!; try done; [cbn; by rewrite Hin|].
    cbn. by rewrite <-app_assoc. }
  destruct ((c =? DOLLAR) && peeks SINGLE_QUOTE rest) eqn:Ed.
  { apply andb_true_iff in Ed as [->%Z.eqb_eq Hp].
    destruct (skip_char_cases SINGLE_QUOTE rest) as [(k & -> & Hskip & _)|[_ Hp']]; [|congruence]. rewrite Hskip in E.
    opens IH E Hs' Hok Hs. exists (AnsiQuoted s :: l). split_and!; try done; [cbn; by rewrite Hin|].
    cbn. by rewrite <-app_assoc. }
  destruct (bool_decide (c ∈ UNSAFE_CHARACTERS)) eqn:Eu; [done|].
  destruct (Z.eqb_spec c BACKSLASH) as [->|Hb]; [by apply sound_backslash|].
  destruct (is_control c) eqn:Ec; [done|]. apply bind_Ok in E as (t1 & E1 & E).
  destruct (sound_bare _ _ _ _ _ _ IH E1 E Hs' Hok Hs ltac:(cbn; lia)) as (? & l & Hl & -> & Hr). split; [done|].
  exists (Plain c :: l). split_and!; try done. cbn [layout_ok item_ok]. unfold plain_char.
  by rewrite Ew, (proj2 (Z.eqb_neq _ _) Hsq), (proj2 (Z.eqb_neq _ _) Hdq), Eu, (proj2 (Z.eqb_neq _ _) Hb), Ec, Hl.
Qed.

Lemma tokenize_loop_sound chars t t' : sound chars t t'.
Proof.
  remember (length chars) as n eqn:Hn. revert chars t t' Hn. induction (lt_wf n) as [n _ IHn]. intros chars t t' ->.
  assert (shorter chars) as IH by (intros rest u u' Hl; by eapply IHn).
  destruct (state t) eqn:Es; [by apply sound_unquoted|by apply sound_single|by apply sound_double|by apply sound_ansi].
Qed.

(** ** Whatever the grammar writes is accepted *)

Definition extended (s : str) (t : Tokenizer) : Tokenizer :=
  mk_tokenizer (finished t) (token t ++ s) (state t) (token_started t) (transitions t).
Lemma extended_app s k t : extended k (extended s t) = extended (s ++ k) t.
Proof. unfold extended; cbn. by rewrite <-app_assoc. Qed.
Lemma extended_nil t : extended [] t = t.
Proof. unfold extended. rewrite app_nil_r. by destruct t. Qed.
Lemma push_char_extended c t : str_len (token t ++ [c]) ≤ MAX_TOKEN_BYTES → push_char c t = Ok (extended [c] t).
Proof.
  intros Hl. unfold push_char. rewrite str_len_app in Hl. cbn in Hl. by rewrite (proj2 (Z.ltb_ge _ _)) by lia.
Qed.
Lemma transition_next q t : transitions t + 1 ≤ MAX_QUOTE_TRANSITIONS →
  transition q t = Ok (mk_tokenizer (finished t) (token t) q (token_started t) (transitions t + 1)).
Proof. intros Hl. unfold transition. by rewrite (proj2 (Z.ltb_ge _ _)) by lia. Qed.
Lemma fits_prefix s k t : str_len (token t ++ s ++ k) ≤ MAX_TOKEN_BYTES → str_len (token t ++ s) ≤ MAX_TOKEN_BYTES.
Proof. rewrite !str_len_app. pose proof (str_len_nonneg k). lia. Qed.

(** The text between two quotes is read piece by piece. *)
Definition reads_piece {A} (q : QuoteState) (piece_render piece_text : A → str) (ok : A → bool) : Prop :=
  ∀ a k t, ok a = true → state t = q → str_len (token t ++ piece_text a) ≤ MAX_TOKEN_BYTES →
    (q = Double → peeks LF k = false) →
    tokenize_loop (piece_render a ++ k) t = tokenize_loop k (extended (piece_text a) t).
Lemma reads_pieces {A} q (piece_render piece_text : A → str) ok :
  reads_piece q piece_render piece_text ok →
  (q = Double → ∀ a k, ok a = true → peeks LF (piece_render a ++ k) = false) →
  ∀ l k t, forallb ok l = true → state t = q → str_len (token t ++ (l ≫= piece_text)) ≤ MAX_TOKEN_BYTES →
    (q = Double → peeks LF k = false) →
    tokenize_loop ((l ≫= piece_render) ++ k) t = tokenize_loop k (extended (l ≫= piece_text) t).
Proof.
  intros Hone Hlf l. induction l as [|a l IH]; intros k t Hok Hs Hl Hk; cbn in *; [by rewrite extended_nil|].
  apply andb_true_iff in Hok as [Ha Hok]. rewrite <-app_assoc, Hone; [|done|done|by eapply fits_prefix|].
  - rewrite IH, extended_app; [done|done|done|cbn; by rewrite <-app_assoc|done].
  - intros Hq. destruct l as [|b l]; cbn; [by apply Hk|]. rewrite <-app_assoc. apply Hlf; [done|].
    cbn in Hok. by apply andb_true_iff in Hok as [Hb _].
Qed.

Lemma control_LF : is_control LF = true.
Proof. done. Qed.
Lemma single_reads : reads_piece Single (λ c, [c]) (λ c, [c]) single_char.
Proof.
  intros c k t Hc Hs Hl _. unfold single_char in Hc. apply negb_true_iff, orb_false_iff in Hc as [Hq Hc].
  cbn. rewrite Hs, Hq, Hc, push_char_extended by done. done.
Qed.
Lemma double_reads : reads_piece Double double_render double_text double_piece.
Proof.
  intros d k t Hd Hs Hl Hk. destruct d as [c|c|e]; cbn in *.
  - repeat rewrite negb_true_iff, ?orb_false_iff in Hd. destruct Hd as ((((Hq & Hx) & Ht) & Hb) & Hc).
    rewrite Hs, Hq, Hx, Ht, Hb, Hc, push_char_extended by done. done.
  - rewrite Hs. apply orb_true_iff in Hd as [->%Z.eqb_eq| ->%Z.eqb_eq]; cbn; by rewrite push_char_extended.
  - rewrite Hs, extended_nil. destruct e; cbn; try done.
    destruct k as [|x k]; [done|]. cbn. specialize (Hk eq_refl). cbn in Hk. by rewrite Hk.
Qed.
Lemma ansi_reads : reads_piece AnsiSingle ansi_render ansi_text ansi_piece.
Proof.
  intros a k t Ha Hs Hl _. destruct a as [c|c]; cbn in *; rewrite Hs.
  - apply negb_true_iff in Ha. rewrite !orb_false_iff in Ha. destruct Ha as ((Hq & Hb) & Hc).
    rewrite Hq, Hb, Hc, push_char_extended by done. done.
  - rewrite !orb_true_iff in Ha. destruct Ha as [[->%Z.eqb_eq| ->%Z.eqb_eq]| ->%Z.eqb_eq]; cbn; by rewrite push_char_extended.
Qed.
Lemma double_not_LF d k : double_piece d = true → peeks LF (double_render d ++ k) = false.
Proof.
  destruct d as [c|c|e]; cbn; try done. intros Hd. destruct (Z.eqb_spec c LF) as [->|]; [|done].
  rewrite control_LF, !orb_true_r in Hd. done.
Qed.
Lemma bind_singletons (s : str) : s ≫= (λ c, [c]) = s.
Proof. induction s as [|c s IH]; [done|]. cbn. by rewrite IH. Qed.

(** A quoted item as a whole. *)
Definition closed (s : str) (t : Tokenizer) : Tokenizer :=
  mk_tokenizer (finished t) (token t ++ s) Unquoted true (transitions t + 2).
Lemma reads_quoted q s body k t : state t = Unquoted → transitions t + 2 ≤ MAX_QUOTE_TRANSITIONS →
  (∀ u, state u = q → str_len (token u ++ s) ≤ MAX_TOKEN_BYTES →
     tokenize_loop body u = (u' ← transition Unquoted (extended s u); tokenize_loop k u')) →
  str_len (token t ++ s) ≤ MAX_TOKEN_BYTES →
  (u ← transition q t; tokenize_loop body (start_token u)) = tokenize_loop k (closed s t).
Proof.
  intros Hs Htr Hbody Hl. rewrite transition_next by lia. cbn. rewrite Hbody by done.
  rewrite transition_next by (cbn; lia). unfold closed, extended, start_token; cbn. do 2 f_equal. lia.
Qed.

(** The word being read is completed by what follows. *)
Lemma words_from_first l w : ∃ s ws, words_from (Some w) l = (w ++ s) :: ws.
Proof.
  revert w. induction l as [|i l IH]; intros w; [exists [], []; by rewrite app_nil_r|].
  assert (∀ k, ∃ s ws, words_from (append_text k (Some w)) l = (w ++ s) :: ws) as Hk.
  { intros k. destruct (IH (w ++ k)) as (s & ws & E). exists (k ++ s), ws.
    change (append_text k (Some w)) with (Some (w ++ k)). by rewrite E, <-app_assoc. }
  destruct i; cbn [words_from]; auto. exists [], (words_from None l). by rewrite app_nil_r.
Qed.
Definition fits (w : str) : Prop := str_len w ≤ MAX_TOKEN_BYTES.
Lemma first_fits w l : Forall fits (words_from (Some w) l) → fits w.
Proof.
  destruct (words_from_first l w) as (s & ws & ->). intros [H _]%Forall_cons. unfold fits in *.
  rewrite str_len_app in H. pose proof (str_len_nonneg s). lia.
Qed.
Lemma open_token_text t s : tokenizer_ok t → append_text s (open_token t) = Some (token t ++ s).
Proof. intros Hok. unfold open_token, append_text. destruct (token_started t) eqn:E; [done|]. by rewrite (ok_fresh _ Hok). Qed.

Definition room (t : Tokenizer) (l : list Item) : Prop :=
  count (finished t ++ words_from (open_token t) l) ≤ MAX_TOKENS ∧ Forall fits (words_from (open_token t) l) ∧
  transitions t + quotes l ≤ MAX_QUOTE_TRANSITIONS.
Definition completes (l : list Item) (t : Tokenizer) : Prop :=
  ∃ t', tokenize_loop (render l) t = Ok t' ∧ state t' = Unquoted ∧ tokenizer_ok t' ∧
    finished t' ++ option_list (open_token t') = finished t ++ words_from (open_token t) l.
Definition completable (l : list Item) : Prop :=
  ∀ t, state t = Unquoted → tokenizer_ok t → layout_ok l = true → room t l → completes l t.

Lemma quotes_nonneg l : 0 ≤ quotes l.
Proof. induction l as [|i l IH]; cbn; [lia|]. destruct (is_quoted i); lia. Qed.

Lemma completes_grown l t u s n : completable l → tokenizer_ok t → layout_ok l = true →
  u = mk_tokenizer (finished t) (token t ++ s) Unquoted true n → n + quotes l ≤ MAX_QUOTE_TRANSITIONS →
  count (finished t ++ words_from (append_text s (open_token t)) l) ≤ MAX_TOKENS →
  Forall fits (words_from (append_text s (open_token t)) l) →
  ∃ t', tokenize_loop (render l) u = Ok t' ∧ state t' = Unquoted ∧ tokenizer_ok t' ∧
    finished t' ++ option_list (open_token t') = finished t ++ words_from (append_text s (open_token t)) l.
Proof.
  intros Hc Hok Hl -> Hn Hcount Hfits. rewrite open_token_text in * by done. pose proof (quotes_nonneg l).
  apply (Hc (mk_tokenizer (finished t) (token t ++ s) Unquoted true n)); try done.
  destruct Hok as [Hf Hw Ht Hfr Hq Htr]. split; try done; cbn; [|lia]. by eapply first_fits.
Qed.

Lemma finish_token_blank t : state t = Unquoted → tokenizer_ok t →
  count (finished t ++ option_list (open_token t)) ≤ MAX_TOKENS →
  ∃ t1, finish_token t = Ok t1 ∧ finish_token t1 = Ok t1.
Proof.
  intros Hs Hok Hc. unfold finish_token. destruct (token_started t) eqn:E; cbn; [|by exists t; rewrite E].
  unfold open_token, count in *. rewrite E in Hc. rewrite length_app in Hc. cbn in Hc.
  rewrite (proj2 (Z.eqb_neq _ _)) by (unfold count; lia). by eexists.
Qed.
Lemma complete_blank c l : completable l → completable (Blank c :: l).
Proof.
  intros IH t Hs Hok Hl (Hc & Hf & Hq). cbn in Hl. rewrite andb_true_r in Hl. apply andb_true_iff in Hl as [Hw Hl].
  cbn in Hc, Hf, Hq.
  destruct (finish_token_blank t Hs Hok) as (t1 & E1 & E2).
  { revert Hc. rewrite app_assoc. unfold count. rewrite length_app. lia. }
  destruct (finish_token_Ok _ _ E1 Hok Hs) as (Hok1 & Hf1 & Ho1 & Hs1 & Ht1).
  destruct (IH t1 Hs1 Hok1 Hl) as (t' & E & Hs' & Hok' & Hw').
  { split_and!.
    - rewrite Hf1, Ho1, <-app_assoc. done.
    - rewrite Ho1. apply Forall_app in Hf. tauto.
    - rewrite Ht1. lia. }
  exists t'. split_and!; try done.
  2: { rewrite Hw', Hf1, Ho1, <-app_assoc. done. }
  cbn. rewrite Hs, Hw, E1. cbn. destruct (Z.eqb_spec c CR) as [->|]; [|done].
  destruct (skip_char_cases LF (render l)) as [(k & Hk & Hskip & _)|[Hskip _]]; fold (render l); rewrite Hskip; [|done].
  rewrite Hk in E. cbn in E. rewrite Hs1, E2 in E. done.
Qed.

(** An item that adds text to the word. *)
Lemma complete_text i s l : completable l →
  (∀ k t, state t = Unquoted → item_ok i = true → fits (token t ++ s) →
     transitions t + (if is_quoted i then 2 else 0) ≤ MAX_QUOTE_TRANSITIONS →
     tokenize_loop (item_render i ++ k) t = tokenize_loop k
       (mk_tokenizer (finished t) (token t ++ s) Unquoted true (transitions t + (if is_quoted i then 2 else 0)))) →
  (∀ current, words_from current (i :: l) = words_from (append_text s current) l) →
  completable (i :: l).
Proof.
  intros IH Hread Hwords t Hs Hok Hl (Hc & Hf & Hq). cbn [layout_ok] in Hl. rewrite !andb_true_iff in Hl.
  destruct Hl as [[Hi _] Hl]. unfold completes. rewrite Hwords in *. cbn [quotes] in Hq. pose proof (quotes_nonneg l).
  change (render (i :: l)) with (item_render i ++ render l).
  rewrite Hread; [eapply completes_grown; eauto; lia|done|done| |lia].
  rewrite open_token_text in Hf by done. by eapply first_fits.
Qed.

Lemma read_plain c k t : state t = Unquoted → plain_char c = true → fits (token t ++ [c]) →
  tokenize_loop (c :: k) t = tokenize_loop k (mk_tokenizer (finished t) (token t ++ [c]) Unquoted true (transitions t + 0)).
Proof.
  intros Hs Hc Hf. unfold plain_char in Hc. apply negb_true_iff in Hc. rewrite !orb_false_iff in Hc.
  destruct Hc as (((((Hw & Hsq) & Hdq) & Hu) & Hb) & Hx).
  assert ((c =? DOLLAR) = false) as Hd.
  { apply Z.eqb_neq. intros ->. vm_compute in Hu. discriminate Hu. }
  cbn [tokenize_loop]. rewrite Hs, Hw, Hsq, Hdq, Hd, Hu, Hb, Hx, push_char_extended by done.
  unfold extended, start_token; cbn. by rewrite Hs, Z.add_0_r.
Qed.
Lemma read_escape c k t : state t = Unquoted → item_ok (Escape c) = true → fits (token t ++ [c]) →
  tokenize_loop (BACKSLASH :: c :: k) t =
  tokenize_loop k (mk_tokenizer (finished t) (token t ++ [c]) Unquoted true (transitions t + 0)).
Proof.
  intros Hs Hc Hf. cbn in Hc. apply negb_true_iff in Hc. rewrite !orb_false_iff in Hc. destruct Hc as [Hcr Hlf].
  cbn. rewrite Hs. cbn. rewrite Hcr, Hlf, push_char_extended by done. unfold extended, start_token; cbn.
  by rewrite Hs, Z.add_0_r.
Qed.
Lemma read_single s k t : state t = Unquoted → forallb single_char s = true → fits (token t ++ s) →
  transitions t + 2 ≤ MAX_QUOTE_TRANSITIONS →
  tokenize_loop (SINGLE_QUOTE :: s ++ SINGLE_QUOTE :: k) t = tokenize_loop k (closed s t).
Proof.
  intros Hs Hok Hf Hq. rewrite <-(reads_quoted Single s (s ++ SINGLE_QUOTE :: k)); try done; [cbn; by rewrite Hs|].
  intros u Hu Hl. rewrite <-(bind_singletons s) in Hl |- * at 1.
  rewrite (reads_pieces Single _ _ _ single_reads ltac:(done) s); [|done|done|by rewrite bind_singletons in *|done].
  cbn. by rewrite Hu, bind_singletons.
Qed.
Lemma read_double d k t : state t = Unquoted → forallb double_piece d = true → fits (token t ++ (d ≫= double_text)) →
  transitions t + 2 ≤ MAX_QUOTE_TRANSITIONS →
  tokenize_loop (DOUBLE_QUOTE :: (d ≫= double_render) ++ DOUBLE_QUOTE :: k) t =
  tokenize_loop k (closed (d ≫= double_text) t).
Proof.
  intros Hs Hok Hf Hq. rewrite <-(reads_quoted Double _ ((d ≫= double_render) ++ DOUBLE_QUOTE :: k)); try done; [cbn; by rewrite Hs|].
  intros u Hu Hl. rewrite (reads_pieces Double _ _ _ double_reads); try done; [cbn; by rewrite Hu|].
  intros _ a k' Ha. by apply double_not_LF.
Qed.
Lemma read_ansi a k t : state t = Unquoted → forallb ansi_piece a = true → fits (token t ++ (a ≫= ansi_text)) →
  transitions t + 2 ≤ MAX_QUOTE_TRANSITIONS →
  tokenize_loop (DOLLAR :: SINGLE_QUOTE :: (a ≫= ansi_render) ++ SINGLE_QUOTE :: k) t =
  tokenize_loop k (closed (a ≫= ansi_text) t).
Proof.
  intros Hs Hok Hf Hq. rewrite <-(reads_quoted AnsiSingle _ ((a ≫= ansi_render) ++ SINGLE_QUOTE :: k)); try done; [cbn; by rewrite Hs|].
  intros u Hu Hl. rewrite (reads_pieces AnsiSingle _ _ _ ansi_reads); try done. cbn. by rewrite Hu.
Qed.
Lemma complete_continue e l : completable l → completable (Continue e :: l).
Proof.
  intros IH t Hs Hok Hl Hr. cbn [layout_ok item_ok] in Hl. rewrite !andb_true_iff in Hl. destruct Hl as [[_ He] Hl].
  destruct (IH t Hs Hok Hl Hr) as (t' & E & H'). exists t'. split; [|exact H'].
  rewrite <-E. cbn. rewrite Hs. destruct e; cbn; try done. fold (render l).
  destruct (skip_char_cases LF (render l)) as [(k & _ & _ & Hp)|[-> _]]; [|done].
  by rewrite Hp in He.
Qed.

Lemma tokenize_loop_complete l : completable l.
Proof.
  induction l as [|i l IH].
  { intros t Hs Hok _ _. exists t. by split_and!. }
  destruct i as [c|c|c|e|s|d|a].
  - by apply complete_blank.
  - apply (complete_text (Plain c) [c]); [done|intros; by apply read_plain|done].
  - apply (complete_text (Escape c) [c]); [done|intros; by apply read_escape|done].
  - by apply complete_continue.
  - apply (complete_text (SingleQuoted s) s); [done| |done]. intros k t Hs Hi Hf Hq. cbn [item_render is_quoted] in *.
    cbn [app]. rewrite <-app_assoc. by apply read_single.
  - apply (complete_text (DoubleQuoted d) (d ≫= double_text)); [done| |done]. intros k t Hs Hi Hf Hq.
    cbn [item_render is_quoted] in *. cbn [app]. rewrite <-app_assoc. by apply read_double.
  - apply (complete_text (AnsiQuoted a) (a ≫= ansi_text)); [done| |done]. intros k t Hs Hi Hf Hq.
    cbn [item_render is_quoted] in *. cbn [app]. rewrite <-app_assoc. by apply read_ansi.
Qed.

(** What is accepted, exactly. *)
Definition fresh : Tokenizer := mk_tokenizer [] [] Unquoted false 0.
Lemma fresh_capture_ok : tokenizer_ok fresh.
Proof. split; cbn; try done. Qed.
Definition written (words : list str) (raw : str) : Prop :=
  ∃ l, layout_ok l = true ∧ raw = render l ∧ words = words_of l ∧ quotes l ≤ MAX_QUOTE_TRANSITIONS.

Lemma tokenize_exact raw words :
  tokenize raw = Ok words ↔
  str_len raw ≤ MAX_INPUT_BYTES ∧ written words raw ∧ count words ≤ MAX_TOKENS ∧ Forall fits words.
Proof.
  unfold tokenize, validate_input_bound. destruct (Z.ltb_spec MAX_INPUT_BYTES (str_len raw)); cbn.
  { split; [done|]. intros [? _]. lia. }
  fold fresh. split.
  - intros (t & E & H')%bind_Ok. destruct (bool_decide (state t = Unquoted)) eqn:Es; [|done]. cbn in H'.
    apply bool_decide_eq_true in Es. apply bind_Ok in H' as (u & Eu & [= <-]).
    destruct (tokenize_loop_sound raw fresh t E Es fresh_capture_ok) as [Hok (l & Hl & -> & Hr & Hq)].
    destruct (finish_token_Ok _ _ Eu Hok Es) as (Hok' & Hf & _). cbn in Hr, Hq.
    split; [lia|]. split; [|split; [apply (ok_finished _ Hok')|apply (ok_words _ Hok')]].
    exists l. split_and!; try done; [by rewrite Hf, Hr|]. pose proof (ok_transitions _ Hok). lia.
  - intros (_ & (l & Hl & -> & -> & Hq) & Hc & Hf).
    destruct (tokenize_loop_complete l fresh eq_refl fresh_capture_ok Hl) as (t & E & Hs & Hok & Hw); [by split_and!|].
    rewrite E. cbn. rewrite Hs. cbn in Hw |- *. unfold words_of in *. rewrite <-Hw in *.
    unfold finish_token, open_token in *. destruct (token_started t); cbn in *.
    + unfold count in Hc. rewrite length_app in Hc. cbn in Hc.
      rewrite (proj2 (Z.eqb_neq _ _)) by (unfold count; lia). done.
    + by rewrite app_nil_r.
Qed.

(** C31. The tokenizer accepts a text exactly when it is within the size bound and is
    written in the grammar of words, escapes, line continuations and the three
    kinds of quotes, with at most 256 words of at most 32 KiB and 512 quotation
    marks; and then its words are the ones the grammar gives them.  So nothing
    with an expansion, a substitution, a redirection or a second command is ever
    read as words. *)
Theorem tokenizer_accepts_grammar raw words :
  tokenize raw = Ok words ↔
  str_len raw ≤ MAX_INPUT_BYTES ∧ written words raw ∧ count words ≤ MAX_TOKENS ∧ Forall fits words.
Proof. apply tokenize_exact. Qed.

(** ** What a capture may carry *)

Definition no_controls (s : str) : Prop := existsb is_control s = false.
Lemma validate_no_controls_Ok s u : validate_no_controls s = Ok u ↔ no_controls s.
Proof. unfold validate_no_controls, no_controls. destruct (existsb is_control s), u; naive_solver. Qed.

Record credible (h : CaptureHeader) (s : str) : Prop := {
  credible_nonempty : s ≠ [];
  credible_size : str_len s ≤ MAX_SECRET_BYTES;
  credible_line : no_controls s;
  credible_cookie : h = CookieHeader → valid_cookie s = true;
}.
Lemma secret_new_Ok value h s : secret_new value h = Ok s → expose s = trim_ascii value ∧ credible h (expose s).
Proof.
  unfold secret_new. destruct (is_empty (trim_ascii value)) eqn:Ee; [done|]. cbn.
  destruct (Z.ltb_spec MAX_SECRET_BYTES (str_len (trim_ascii value))); [done|].
  intros (u & Hu%validate_no_controls_Ok & E)%bind_Ok.
  destruct (bool_decide (h = CookieHeader) && negb (valid_cookie (trim_ascii value))) eqn:Ec; [done|].
  injection E as <-. split; [done|]. cbn. split; [by intros E; rewrite E in Ee|lia|done|].
  intros ->. rewrite bool_decide_eq_true_2 in Ec by done. cbn in Ec. by apply negb_false_iff in Ec.
Qed.

Definition metadata_ok (v : str) : Prop := v ≠ [] ∧ str_len v ≤ MAX_FORWARDED_VALUE_BYTES ∧ no_controls v.
Lemma insert_entry_Ok name value l l' : insert_entry name value l = Ok l' → strictly_sorted forwarded_name l →
  strictly_sorted forwarded_name l' ∧
  ∀ e, e ∈ l' → e ∈ l ∨ e = mk_forwarded name value.
Proof.
  unfold strictly_sorted. revert l'. induction l as [|e l IH]; intros l'; cbn.
  { intros [= <-] _. split; [by repeat constructor|]. intros e. rewrite list_elem_of_singleton. by right. }
  intros E Hs. destruct (cmp name (forwarded_name e)) eqn:Ec.
  - destruct (bool_decide _); [|done]. injection E as <-. split; [done|]. by left.
  - injection E as <-. split.
    + constructor; [done|]. constructor; [done|]. apply StronglySorted_inv in Hs as [_ Hs].
      eapply Forall_impl; [exact Hs|]. cbn. intros x. by apply cmp_trans.
    + intros x. rewrite elem_of_cons. intros [->|Hx]; [by right|by left].
  - apply fmap_Ok in E as (l2 & E & <-). apply StronglySorted_inv in Hs as [Hs He].
    destruct (IH _ E Hs) as [Hs2 Hin]. split.
    + constructor; [done|]. apply Forall_forall. intros x Hx. destruct (Hin x Hx) as [Hx'| ->].
      * rewrite Forall_forall in He. by apply He.
      * cbn. by apply cmp_Gt_Lt.
    + intros x. rewrite !elem_of_cons. intros [->|Hx]; [by left; left|]. destruct (Hin x Hx); [by left; right|by right].
Qed.

Lemma elem_of_dedup_after x last l : x ∈ dedup_after last l → x ∈ l.
Proof.
  revert last. induction l as [|s l IH]; intros last; cbn; [done|]. rewrite elem_of_cons.
  destruct (bool_decide (s = last)); [by right; eapply IH|]. rewrite elem_of_cons. intros [->|Hx]; [by left|right; by eapply IH].
Qed.
Lemma elem_of_sorted_set x l : x ∈ sorted_set l → x ∈ l.
Proof.
  unfold sorted_set. rewrite <-(sort_by_key_perm id l) at 2. destruct (sort_by_key id l) as [|s k]; [done|]. cbn.
  rewrite !elem_of_cons. intros [->|Hx]; [by left|right; by eapply elem_of_dedup_after].
Qed.
Lemma sorted_set_Forall P l : Forall P l → Forall P (sorted_set l).
Proof. rewrite !Forall_forall. intros H x Hx. by apply H, elem_of_sorted_set. Qed.

Lemma lower_not_reserved name : is_reserved_forwarded_header name = false →
  is_reserved_forwarded_header (to_ascii_lowercase name) = false.
Proof. unfold is_reserved_forwarded_header. by rewrite to_ascii_lowercase_idemp. Qed.

Section policies.
Context `{CookieHosts} `{!CaptureUrls}.

(** The policies a provider can declare. *)
Inductive built : ManualCapturePolicy → Prop :=
| built_new hosts headers p : policy_new hosts headers = Ok p → built p
| built_query p : built p → built (with_ignored_url_query p)
| built_forwarded headers p p' : built p → with_forwarded_headers headers p = Ok p' → built p'
| built_loopback raw h p p' :
    built p → loopback_host_new raw = Ok h → with_loopback_host h p = Ok p' → built p'.
Record grants_only (p : ManualCapturePolicy) : Prop := {
  no_loopback : Forall (λ h, is_loopback_name h = false) (https_hosts p);
  only_loopback : Forall (λ h, is_loopback_name h = true) (loopback_hosts p);
  no_credentials : Forall (λ n, is_reserved_forwarded_header n = false) (policy_forwarded p);
}.
Lemma collect_hosts_Ok raw hosts l : collect_hosts raw hosts = Ok l →
  Forall (λ h, is_loopback_name h = false) hosts → Forall (λ h, is_loopback_name h = false) l.
Proof.
  revert hosts. induction raw as [|h raw IH]; intros hosts; cbn; [by intros [= ->]|].
  destruct (_ =? _); [done|]. intros (host & Hh & E)%bind_Ok Hf. destruct (is_loopback_name host) eqn:El; [done|].
  apply (IH _ E). apply Forall_app. by repeat constructor.
Qed.
Lemma collect_forwarded_Ok headers forwarded l : collect_forwarded headers forwarded = Ok l →
  Forall (λ n, is_reserved_forwarded_header n = false) forwarded →
  Forall (λ n, is_reserved_forwarded_header n = false) l.
Proof.
  revert forwarded. induction headers as [|h headers IH]; intros forwarded; cbn; [by intros [= ->]|].
  destruct (_ =? _); [done|]. destruct (negb (valid_header_name h) || is_reserved_forwarded_header h) eqn:E; [done|].
  apply orb_false_iff in E as [_ E]. intros El Hf. apply (IH _ El). apply Forall_app. repeat constructor; [done|].
  by apply lower_not_reserved.
Qed.
Lemma built_grants p : built p → grants_only p.
Proof.
  induction 1 as [hosts headers p E|p _ [Hn Ho Hc]|headers p p' _ [Hn Ho Hc] E|raw h p p' _ [Hn Ho Hc] Eh E]; [|done| |].
  - unfold policy_new in E. apply bind_Ok in E as (l & El & E). destruct (is_empty (sorted_set l)); [done|].
    apply bind_Ok in E as (allowed & _ & E). destruct (negb _); [done|]. injection E as <-. split; cbn; [|constructor..].
    apply sorted_set_Forall. by eapply collect_hosts_Ok.
  - unfold with_forwarded_headers in E. apply bind_Ok in E as (l & El & [= <-]). split; cbn; try done.
    apply sorted_set_Forall. by eapply collect_forwarded_Ok.
  - unfold with_loopback_host in E. destruct (_ =? _); [done|]. injection E as <-. split; cbn; try done.
    apply sorted_set_Forall, Forall_app. split; [done|]. unfold loopback_host_new in Eh.
    apply bind_Ok in Eh as (host & _ & Eh). destruct (is_loopback_name host) eqn:El; [|done]. injection Eh as <-. by repeat constructor.
Qed.

(** ** Captures keep to their policy *)

(** A URL of an approved host, without user, query or fragment. *)
Definition granted_url (p : ManualCapturePolicy) (url : Url) : Prop :=
  username url = [] ∧ password url = None ∧ query url = None ∧ fragment url = None ∧
  ∃ h, canonical_url_host url = Some h ∧
    ((h ∈ loopback_hosts p ∧ (is_http (scheme url) = true ∨ is_https (scheme url) = true)) ∨
     (h ∈ https_hosts p ∧ is_https (scheme url) = true ∧ port_or_known_default url = Some 443)).
Record within (p : ManualCapturePolicy) (c : ManualCapture) : Prop := {
  within_secret h s : header c h = Some s → slot (allowed_headers p) h = true ∧ credible h s;
  within_sorted : strictly_sorted forwarded_name (capture_forwarded c);
  within_forwarded : Forall (λ e, forwarded_name e ∈ policy_forwarded p ∧ metadata_ok (forwarded_value e)) (capture_forwarded c);
  within_url : capture_url c = None;
}.
Context (p : ManualCapturePolicy).

Lemma header_set_secret h s c h' :
  header (set_secret h s c) h' = if bool_decide (h = h') then Some (expose s) else header c h'.
Proof. by destruct h, h'. Qed.
Lemma within_empty : within p capture_empty.
Proof. split; cbn; try done; [by intros []|constructor]. Qed.
Lemma within_set_secret h value s c : within p c → slot (allowed_headers p) h = true →
  secret_new value h = Ok s → within p (set_secret h s c).
Proof.
  intros [Hs Hso Hf Hu] Ha [_ Hc]%secret_new_Ok. split; [|done..]. intros h' s'. rewrite header_set_secret.
  case_bool_decide as Eh; [subst h'; intros [= <-]; by split|by apply Hs].
Qed.
Lemma within_capture_header field c c' : capture_header p field c = Ok c' → within p c → within p c'.
Proof.
  unfold capture_header. intros E Hw. destruct (starts_with 64 field); [done|].
  apply bind_Ok in E as (u & _ & E). apply bind_Ok in E as ([before after] & _ & E). cbn zeta in E.
  destruct (negb _); [done|]. destruct (if eq_ignore_ascii_case _ _ then _ else _) as [h|].
  - destruct (slot (allowed_headers p) h) eqn:Ea; cbn in E; [|by injection E as <-].
    destruct (bool_decide _); [done|]. apply bind_Ok in E as (s & Es & [= <-]). by eapply within_set_secret.
  - destruct (bool_decide (_ ∈ policy_forwarded p)) eqn:Ef; cbn in E; [|by injection E as <-].
    apply bool_decide_eq_true in Ef. unfold insert_forwarded in E.
    destruct (is_empty (trim_ascii after)) eqn:Ee; [done|]. cbn in E.
    destruct (Z.ltb_spec MAX_FORWARDED_VALUE_BYTES (str_len (trim_ascii after))) as [|Hl]; [done|].
    apply bind_Ok in E as (u' & Hn%validate_no_controls_Ok & E). apply bind_Ok in E as (l & El & [= <-]).
    destruct Hw as [Hs Hso Hf Hu]. destruct (insert_entry_Ok _ _ _ _ El Hso) as [Hso' Hin]. split; cbn; try done.
    apply Forall_forall. intros e He. rewrite Forall_forall in Hf. destruct (Hin e He) as [| ->]; [by apply Hf|].
    cbn. split; [done|]. split_and!; try done. intros Et. by rewrite Et in Ee.
Qed.
Lemma within_capture_cookie value c c' : capture_cookie p value c = Ok c' → within p c → within p c'.
Proof.
  unfold capture_cookie. intros E Hw. destruct (starts_with 64 value); [done|].
  destruct (slot (allowed_headers p) CookieHeader) eqn:Ea; cbn in E; [|by injection E as <-].
  destruct (bool_decide _); [done|]. apply bind_Ok in E as (s & Es & [= <-]). by eapply within_set_secret.
Qed.

Definition safe_take (take : str → Arguments_ → Result ManualCaptureError Arguments_) : Prop :=
  ∀ value a a', take value a = Ok a' → within p (captured a) → within p (captured a').
Lemma take_header_safe : safe_take (take_header p).
Proof.
  intros value a a' E Hw. apply bind_Ok in E as (n & _ & E). apply bind_Ok in E as (c & Ec & [= <-]).
  by eapply within_capture_header.
Qed.
Lemma take_cookie_safe : safe_take (take_cookie p).
Proof.
  intros value a a' E Hw. apply bind_Ok in E as (n & _ & E). apply bind_Ok in E as (c & Ec & [= <-]).
  by eapply within_capture_cookie.
Qed.
Lemma take_url_safe : safe_take take_url.
Proof. intros value a a' E Hw. apply bind_Ok in E as (url & _ & [= <-]). done. Qed.
Lemma meaning_safe positional token :
  match meaning p positional token with
  | TakesNext take | Inline take _ => safe_take take
  | _ => True
  end.
Proof.
  unfold meaning, inline_value. pose proof take_header_safe. pose proof take_cookie_safe. pose proof take_url_safe.
  by repeat case_match; simplify_eq.
Qed.
Lemma parse_arguments_within n tokens a a' : (length tokens ≤ n)%nat →
  parse_arguments p tokens a = Ok a' → within p (captured a) → within p (captured a').
Proof.
  revert tokens a. induction n as [|n IH]; intros tokens a Hn; (destruct tokens as [|token rest]; cbn in Hn; [by intros [= ->]|]); [lia|].
  cbn [parse_arguments]. pose proof (meaning_safe (positional_only a) token) as Hsafe.
  destruct (meaning p (positional_only a) token) as [|take|take value| |e|]; try done.
  - intros E Hw. eapply IH; [|exact E|exact Hw]. lia.
  - destruct rest as [|next rest]; [done|]. destruct (starts_with 45 next); [done|].
    intros (a1 & E1 & E)%bind_Ok Hw. eapply IH; [|exact E|by eapply Hsafe]. cbn in Hn. lia.
  - intros (a1 & E1 & E)%bind_Ok Hw. eapply IH; [|exact E|by eapply Hsafe]. lia.
  - apply IH. lia.
  - intros (a1 & E1 & E)%bind_Ok Hw. eapply IH; [|exact E|by eapply take_url_safe]. lia.
Qed.

Context `{!CaptureUrlLaws}.
Lemma validate_url_granted raw url : validate_url p raw = Ok url → granted_url p url.
Proof.
  unfold validate_url. intros (u & _ & E)%bind_Ok. apply bind_Ok in E as (parsed & _ & E).
  destruct (negb (is_empty (username parsed)) || _ || _ || _) eqn:Eb; [done|]. rewrite !orb_false_iff in Eb.
  destruct Eb as [[[Hu%negb_false_iff Hpw%bool_decide_eq_false] _] Hf%bool_decide_eq_false].
  apply bind_Ok in E as (h & Hh%ok_or_Ok & E). unfold granted_url.
  assert (url = without_query parsed ∧
    ((h ∈ loopback_hosts p ∧ (is_http (scheme parsed) = true ∨ is_https (scheme parsed) = true)) ∨
     (h ∈ https_hosts p ∧ is_https (scheme parsed) = true ∧ port_or_known_default parsed = Some 443))) as [-> Hg].
  { destruct (bool_decide (h ∈ loopback_hosts p)) eqn:El.
    - apply bool_decide_eq_true in El. destruct (is_http (scheme parsed) || is_https (scheme parsed)) eqn:Es; [|done].
      cbn in E. injection E as <-. apply orb_true_iff in Es. tauto.
    - destruct (negb (is_https (scheme parsed)) || _ || _) eqn:Eg; [done|]. injection E as <-. split; [done|]. right.
      rewrite !orb_false_iff, !negb_false_iff, !bool_decide_eq_true in Eg. tauto. }
  rewrite without_query_username, without_query_password, without_query_query, without_query_fragment,
    without_query_scheme, without_query_port.
  unfold canonical_url_host in *. rewrite without_query_host.
  split_and!; [by destruct (username parsed)|by apply eq_None_not_Some|done|by apply eq_None_not_Some|by exists h].
Qed.

(** What a successful parse returns. *)
Record kept (c : ManualCapture) : Prop := {
  kept_secret h s : header c h = Some s → slot (allowed_headers p) h = true ∧ credible h s;
  kept_some : ∃ h, is_Some (header c h);
  kept_sorted : strictly_sorted forwarded_name (capture_forwarded c);
  kept_forwarded : Forall (λ e, forwarded_name e ∈ policy_forwarded p ∧ metadata_ok (forwarded_value e)) (capture_forwarded c);
  kept_url url : capture_url c = Some url → granted_url p url;
}.
Lemma parse_curl_kept raw c : parse_curl p raw = Ok c → kept c.
Proof.
  unfold parse_curl. intros (tokens & _ & E)%bind_Ok. destruct tokens as [|command rest]; [done|].
  destruct (negb _); [done|]. apply bind_Ok in E as (a & Ea & E). apply bind_Ok in E as (url & Eu & E). cbn zeta in E.
  destruct (parse_arguments_within _ _ _ _ (le_n _) Ea within_empty) as [Hs Hso Hf Hu].
  destruct (bool_decide (header _ CookieHeader = None) && _) eqn:En; [done|]. injection E as <-. split; try done.
  - apply andb_false_iff in En as [En|En]; apply bool_decide_eq_false, not_eq_None_Some in En; by eexists.
  - intros v Ev. cbn in Ev. subst url. apply traverse_option_Ok in Eu as [[_ Eu]|(r & v' & _ & Hv & [= <-])]; [done|].
    by eapply validate_url_granted.
Qed.
Lemma parse_raw_kept raw c : parse_raw p raw = Ok c → kept c.
Proof.
  unfold parse_raw. intros (u & _ & E)%bind_Ok. destruct (is_empty (trim_ascii raw)); [done|].
  apply bind_Ok in E as ([h value] & _ & E). apply bind_Ok in E as (v & _ & E).
  destruct (slot (allowed_headers p) h) eqn:Ea; [|done]. cbn in E. apply bind_Ok in E as (s & Es & [= <-]).
  destruct (within_set_secret h v s capture_empty within_empty Ea Es) as [Hs Hso Hf _].
  split; try done. exists h. rewrite header_set_secret, bool_decide_eq_true_2 by done. by eexists.
Qed.
Lemma parse_kept raw c : parse p raw = Ok c → kept c.
Proof.
  unfold parse. intros (u & _ & E)%bind_Ok. destruct (starts_with_curl_command raw); [by eapply parse_curl_kept|by eapply parse_raw_kept].
Qed.
End policies.

(** C30. A capture holds what its policy granted and nothing else: at least one secret,
    each of an accepted header class, on one line and within its bound; metadata
    headers only under granted names, none of which can carry a credential or
    change the connection; and a URL only of an approved host, over HTTPS on port
    443 unless the host is a loopback host that was granted as one, stripped of its
    query. *)
Theorem capture_keeps_to_policy `{CookieHosts, !CaptureUrls, !CaptureUrlLaws} p raw c : built p → parse p raw = Ok c →
  (∃ h, is_Some (header c h)) ∧
  (∀ h s, header c h = Some s → slot (allowed_headers p) h = true ∧ credible h s) ∧
  strictly_sorted forwarded_name (capture_forwarded c) ∧
  (∀ e, e ∈ capture_forwarded c → forwarded_name e ∈ policy_forwarded p ∧ metadata_ok (forwarded_value e) ∧
     is_reserved_forwarded_header (forwarded_name e) = false) ∧
  (∀ url, capture_url c = Some url →
     username url = [] ∧ password url = None ∧ query url = None ∧ fragment url = None ∧
     ∃ h, canonical_url_host url = Some h ∧
       ((h ∈ loopback_hosts p ∧ is_loopback_name h = true) ∨
        (h ∈ https_hosts p ∧ is_loopback_name h = false ∧ is_https (scheme url) = true ∧
         port_or_known_default url = Some 443))).
Proof.
  intros [Hn Ho Hc]%built_grants E. destruct (parse_kept p raw c E) as [Hs Hsome Hso Hf Hu]. rewrite Forall_forall in Hn, Ho, Hc. rewrite Forall_forall in Hf.
  split_and!; try done.
  - intros e He. destruct (Hf e He). split_and!; auto.
  - intros url Eu. destruct (Hu url Eu) as (? & ? & ? & ? & h & Hh & Hg). split_and!; try done. exists h. split; [done|].
    destruct Hg as [[? _]|(? & ? & ?)]; [left|right]; split_and!; auto.
Qed.

(** ** What a browser copies is read back *)

(** A word as a browser writes it for a shell: single quotes around it, each of
    its own single quotes written outside of them. *)
Definition quoted_char (c : Z) : str :=
  if c =? SINGLE_QUOTE then [SINGLE_QUOTE; BACKSLASH; SINGLE_QUOTE; SINGLE_QUOTE] else [c].
Definition shell_quote (w : str) : str := SINGLE_QUOTE :: (w ≫= quoted_char) ++ [SINGLE_QUOTE].
Definition curl_command (arguments : list str) : str := lit "curl" ++ (arguments ≫= λ w, 32 :: shell_quote w).

Fixpoint quoted_items (start w : str) : list Item :=
  match w with
  | [] => [SingleQuoted start]
  | c :: w =>
      if c =? SINGLE_QUOTE then SingleQuoted start :: Escape c :: quoted_items [] w
      else quoted_items (start ++ [c]) w
  end.
Definition quoted_parts (w : str) : Z := 1 + count (filter (λ c, c = SINGLE_QUOTE) w).
Definition all_parts (words : list str) : Z := foldr (λ w n, quoted_parts w + n) 0 words.

Lemma quoted_items_render start w k :
  render (quoted_items start w ++ k) = SINGLE_QUOTE :: start ++ (w ≫= quoted_char) ++ SINGLE_QUOTE :: render k.
Proof.
  revert start. induction w as [|c w IH]; intros start; cbn; [by rewrite <-app_assoc|].
  unfold quoted_char at 1. destruct (Z.eqb_spec c SINGLE_QUOTE) as [->|Hc].
  - cbn. fold (render (quoted_items [] w ++ k)). rewrite IH, <-app_assoc. done.
  - rewrite IH, <-app_assoc. done.
Qed.
Lemma quoted_items_words start w k current :
  words_from current (quoted_items start w ++ k) = words_from (append_text (start ++ w) current) k.
Proof.
  assert (∀ s s' cur, append_text s' (append_text s cur) = append_text (s ++ s') cur) as Happ.
  { intros s s' cur. unfold append_text. cbn. by rewrite app_assoc. }
  revert start current. induction w as [|c w IH]; intros start current; cbn; [by rewrite app_nil_r|].
  destruct (Z.eqb_spec c SINGLE_QUOTE) as [->|Hc].
  - cbn [app words_from]. rewrite IH, !Happ. done.
  - rewrite IH, <-app_assoc. done.
Qed.
Lemma quoted_items_ok start w k : no_controls w → forallb single_char start = true → layout_ok k = true →
  layout_ok (quoted_items start w ++ k) = true.
Proof.
  intros Hw Hs Hk. revert start Hs. unfold no_controls in Hw.
  induction w as [|c w IH]; intros start Hs; cbn in *; [by rewrite Hs, Hk|]. apply orb_false_iff in Hw as [Hc Hw].
  destruct (Z.eqb_spec c SINGLE_QUOTE) as [->|Hne].
  - cbn. rewrite Hs. cbn. by apply IH.
  - apply IH; [done|]. rewrite forallb_app, Hs. cbn. unfold single_char. by rewrite (proj2 (Z.eqb_neq _ _) Hne), Hc.
Qed.
Lemma quoted_items_quotes start w k : quotes (quoted_items start w ++ k) = 2 * quoted_parts w + quotes k.
Proof.
  unfold quoted_parts. revert start. induction w as [|c w IH]; intros start; cbn [quoted_items app quotes is_quoted]; [done|].
  destruct (Z.eqb_spec c SINGLE_QUOTE) as [->|Hc].
  - rewrite filter_cons_True by done. cbn [app quotes is_quoted]. rewrite IH. unfold count. cbn [length]. lia.
  - rewrite filter_cons_False by done. apply IH.
Qed.

Definition curl_items (arguments : list str) : list Item :=
  (Plain <$> lit "curl") ++ (arguments ≫= λ w, Blank 32 :: quoted_items [] w).
Lemma argument_items arguments current : Forall no_controls arguments →
  let l := arguments ≫= λ w, Blank 32 :: quoted_items [] w in
  layout_ok l = true ∧ render l = (arguments ≫= λ w, 32 :: shell_quote w) ∧
  words_from (Some current) l = current :: arguments ∧ quotes l = 2 * all_parts arguments.
Proof.
  intros Hw. revert current. induction Hw as [|w arguments Hw _ IH]; intros current; cbn zeta; [done|].
  destruct (IH w) as (Hl & Hr & Hws & Hq). cbn [mbind list_bind]. fold (arguments ≫= λ w, Blank 32 :: quoted_items [] w).
  split_and!.
  - cbn. by apply quoted_items_ok.
  - cbn. fold (render (quoted_items [] w ++ (arguments ≫= λ w, Blank 32 :: quoted_items [] w))).
    rewrite quoted_items_render. cbn in Hr. rewrite Hr. unfold shell_quote. cbn. by rewrite <-app_assoc.
  - cbn. f_equal. rewrite quoted_items_words. cbn [append_text app default]. exact Hws.
  - cbn [quotes is_quoted app]. rewrite quoted_items_quotes, Hq.
    change (all_parts (w :: arguments)) with (quoted_parts w + all_parts arguments). lia.
Qed.

(** Quoting any words the way a browser does and tokenizing gives them back. *)
Lemma curl_command_tokens arguments :
  Forall no_controls arguments → Forall fits arguments → str_len (curl_command arguments) ≤ MAX_INPUT_BYTES →
  count arguments < MAX_TOKENS → 2 * all_parts arguments ≤ MAX_QUOTE_TRANSITIONS →
  tokenize (curl_command arguments) = Ok (lit "curl" :: arguments).
Proof.
  intros Hw Hf Hl Hc Hq. apply tokenize_exact. split; [done|].
  destruct (argument_items arguments (lit "curl") Hw) as (Hok & Hr & Hws & Hqs).
  split_and!.
  - exists (curl_items arguments). split_and!.
    + exact Hok.
    + unfold curl_items, curl_command, render in *. rewrite bind_app, Hr. done.
    + unfold words_of, curl_items. rewrite <-Hws. done.
    + unfold curl_items. change (quotes (arguments ≫= λ w, Blank 32 :: quoted_items [] w) ≤ MAX_QUOTE_TRANSITIONS). lia.
  - unfold count in *. cbn [length]. lia.
  - constructor; [|done]. vm_compute. discriminate.
Qed.

Definition header_text (h : CaptureHeader) : str :=
  match h with CookieHeader => lit "cookie" | AuthorizationHeader => lit "authorization" end.
(** The request of one header, copied as a command. *)
Definition copied_request (url : str) (h : CaptureHeader) (value : str) : list str :=
  [url; lit "-H"; header_text h ++ lit ": " ++ value].

Lemma strip_prefix_dash k token : starts_with 45 token = false → strip_prefix (45 :: k) token = None.
Proof.
  unfold starts_with. intros Hc%bool_decide_eq_false. destruct token as [|c token]; [done|].
  cbn [strip_prefix]. destruct (Z.eqb_spec 45 c) as [<-|]; [|done]. by destruct Hc.
Qed.
Lemma dash_free token k : starts_with 45 token = false → token ≠ 45 :: k.
Proof. unfold starts_with. intros H%bool_decide_eq_false ->. by apply H. Qed.
Section roundtrip.
Context `{CookieHosts} `{!CaptureUrls} (p : ManualCapturePolicy).

Lemma meaning_positional token : starts_with 45 token = false → meaning p false token = Positional.
Proof.
  intros Hd. pose proof (λ k, strip_prefix_dash k token Hd) as Hp. pose proof (λ k, dash_free token k Hd) as Hn.
  assert (Forall (λ f, starts_with 45 f = true) SAFE_FLAGS) as Hsafe by (vm_compute; repeat constructor).
  unfold meaning, attached, is_safe_flag.
  rewrite (bool_decide_eq_false_2 (token = lit "--")) by apply Hn.
  rewrite (bool_decide_eq_false_2 (token ∈ [lit "-H"; lit "--header"])).
  2: { rewrite !elem_of_cons, elem_of_nil. intros [E|[E|[]]]; by eapply Hn. }
  assert (strip_prefix (lit "--header=") token = None) as -> by apply Hp.
  assert (strip_prefix (lit "-H") token = None) as -> by apply Hp. cbn [mbind option_bind].
  rewrite (bool_decide_eq_false_2 (token ∈ [lit "-b"; lit "--cookie"])).
  2: { rewrite !elem_of_cons, elem_of_nil. intros [E|[E|[]]]; by eapply Hn. }
  assert (strip_prefix (lit "--cookie=") token = None) as -> by apply Hp.
  assert (strip_prefix (lit "-b") token = None) as -> by apply Hp. cbn [mbind option_bind].
  rewrite (bool_decide_eq_false_2 (token = lit "--url")) by apply Hn.
  assert (strip_prefix (lit "--url=") token = None) as -> by apply Hp.
  assert (strip_prefix (lit "-") token = None) as -> by apply Hp.
  rewrite bool_decide_eq_false_2, Hd; [done|]. intros Hin. rewrite Forall_forall in Hsafe.
  specialize (Hsafe _ Hin). congruence.
Qed.

Lemma trim_ascii_space value : trim_ascii (32 :: value) = trim_ascii value.
Proof. done. Qed.
Lemma captured_header h value : slot (allowed_headers p) h = true → secret_new value h = Ok (mk_secret value) →
  capture_header p (header_text h ++ lit ": " ++ value) capture_empty =
  Ok (set_secret h (mk_secret value) capture_empty).
Proof.
  intros Ha Hs. destruct (secret_new_Ok _ _ _ Hs) as [Ht Hc]. cbn [expose] in Ht, Hc.
  unfold capture_header.
  assert (existsb is_control (header_text h ++ lit ": " ++ value) = false) as Hn.
  { rewrite !existsb_app. rewrite (credible_line _ _ Hc). by destruct h. }
  unfold validate_no_controls. rewrite Hn.
  assert (split_once [58] (header_text h ++ lit ": " ++ value) = Some (header_text h, 32 :: value)) as -> by by destruct h.
  cbn [mbind Result_bind ok_or].
  assert (starts_with 64 (header_text h ++ lit ": " ++ value) = false) as -> by by destruct h.
  assert (trim_ascii (header_text h) = header_text h) as -> by by destruct h.
  assert (valid_header_name (header_text h) = true) as -> by by destruct h.
  assert ((if eq_ignore_ascii_case (header_text h) (lit "cookie") then Some CookieHeader
           else if eq_ignore_ascii_case (header_text h) (lit "authorization") then Some AuthorizationHeader
           else None) = Some h) as -> by by destruct h.
  cbn [negb]. rewrite Ha. assert (bool_decide (is_Some (expose <$> slot (secrets capture_empty) h)) = false) as -> by by destruct h.
  cbn [negb]. by rewrite trim_ascii_space, <-Ht, Hs.
Qed.

Lemma arguments_positional token rest c n : token ≠ [] → starts_with 45 token = false → starts_with 64 token = false →
  parse_arguments p (token :: rest) (mk_arguments c None n false) =
  parse_arguments p rest (mk_arguments c (Some token) n false).
Proof.
  intros Hne Hd Hat. cbn [parse_arguments positional_only]. rewrite meaning_positional by done.
  unfold take_url, set_url. cbn [raw_url captured header_count positional_only]. rewrite Hat. by destruct token.
Qed.
Lemma arguments_header h value rest url : slot (allowed_headers p) h = true → secret_new value h = Ok (mk_secret value) →
  parse_arguments p (lit "-H" :: (header_text h ++ lit ": " ++ value) :: rest) (mk_arguments capture_empty url 0 false) =
  parse_arguments p rest (mk_arguments (set_secret h (mk_secret value) capture_empty) url 1 false).
Proof.
  intros Ha Hs. cbn [parse_arguments positional_only].
  change (meaning p false (lit "-H")) with (TakesNext (take_header p)). cbn iota.
  assert (starts_with 45 (header_text h ++ lit ": " ++ value) = false) as -> by by destruct h.
  unfold take_header. cbn [header_count captured raw_url positional_only].
  change (increment_headers 0) with (@Ok ManualCaptureError Z 1). cbn [mbind Result_bind]. by rewrite captured_header.
Qed.

(** The command a browser copies for one request, pasted: the header's value is
    the captured secret, and the URL is the request's. *)
Theorem copied_request_read_back url parsed h value :
  slot (allowed_headers p) h = true → secret_new value h = Ok (mk_secret value) →
  validate_url p url = Ok parsed → url ≠ [] → starts_with 45 url = false → starts_with 64 url = false →
  Forall fits (copied_request url h value) → str_len (curl_command (copied_request url h value)) ≤ MAX_INPUT_BYTES →
  all_parts (copied_request url h value) ≤ 256 →
  ∃ c, parse p (curl_command (copied_request url h value)) = Ok c ∧
    header c h = Some value ∧ (∀ h', h' ≠ h → header c h' = None) ∧
    capture_forwarded c = [] ∧ capture_url c = Some parsed.
Proof.
  intros Ha Hs Hu Hne Hd Hat Hf Hl Hq.
  assert (Forall no_controls (copied_request url h value)) as Hw.
  { apply Forall_cons. split; [|apply Forall_cons; split; [done|apply Forall_cons; split; [|by constructor]]].
    - unfold validate_url in Hu. apply bind_Ok in Hu as (u & Hu & _). by apply validate_no_controls_Ok in Hu.
    - destruct (secret_new_Ok _ _ _ Hs) as [_ Hc]. cbn in Hc. unfold no_controls.
      rewrite !existsb_app, (credible_line _ _ Hc). by destruct h. }
  pose proof (curl_command_tokens _ Hw Hf Hl ltac:(vm_compute; done) ltac:(unfold MAX_QUOTE_TRANSITIONS; lia)) as Ht.
  unfold parse, validate_input_bound. rewrite (proj2 (Z.ltb_ge _ _)) by lia. cbn [mbind Result_bind].
  assert (starts_with_curl_command (curl_command (copied_request url h value)) = true) as -> by done.
  unfold parse_curl. rewrite Ht. cbn [mbind Result_bind]. rewrite bool_decide_eq_true_2 by done. cbn [negb].
  unfold copied_request. rewrite arguments_positional, arguments_header by done.
  cbn [parse_arguments mbind Result_bind raw_url traverse_option captured]. rewrite Hu. cbn zeta.
  exists (mk_capture (set_slot h (Some (mk_secret value)) (mk_slots None None)) [] (Some parsed)).
  destruct h; (split; [reflexivity|]); split_and!; try done; by intros [].
Qed.
End roundtrip.

(** ** Witnesses *)

Module CaptureExample.
(** URLs of the form [https://host/path], without a query. *)
#[local] Instance crate : UrlCrate := {|
  Url := str;
  username _ := [];
  password _ := None;
  query _ := None;
  fragment _ := None;
  path u := drop (length (before_char 47 u)) u;
  scheme _ := lit "https";
  host u := Some (Domain (before_char 47 u));
  host_str u := Some (before_char 47 u);
  port_or_known_default _ := Some 443;
  query_pairs _ := [];
  url_parse s := strip_prefix (lit "https://") s;
  url_join u _ := Some u;
|}.
#[local] Instance hosts : CookieHosts := {|
  url_as_str u := lit "https://" ++ u;
  host_parse s := Some (Domain s);
  ipv4_to_string _ := lit "127.0.0.1";
  ipv6_to_string _ := lit "::1";
|}.
#[local] Instance urls : CaptureUrls := {|
  url_port _ := None;
  without_query u := u;
  ipv4_parse _ := None;
  ipv6_parse _ := None;
|}.
#[local] Instance url_laws : CaptureUrlLaws.
Proof. by split. Qed.
Definition usage : Url := lit "api.example.com/usage".
Definition policy : ManualCapturePolicy :=
  mk_policy [lit "api.example.com"] [] (mk_slots true false) [lit "user-agent"] false.
Lemma policy_built : built policy.
Proof.
  apply (built_forwarded [lit "User-Agent"] (mk_policy [lit "api.example.com"] [] (mk_slots true false) [] false)); [|by vm_compute].
  apply (built_new [lit "api.example.com"] [CookieHeader]). by vm_compute.
Qed.
Definition pasted : str :=
  lit "curl 'https://api.example.com/usage' -H 'Cookie: a=1; b=2' -H 'user-agent: x' -H 'accept: */*' --compressed".
Definition capture : ManualCapture :=
  mk_capture (mk_slots (Some (mk_secret (lit "a=1; b=2"))) None) [mk_forwarded (lit "user-agent") (lit "x")]
    (Some usage).
Lemma pasted_parses : parse policy pasted = Ok capture.
Proof. vm_compute. reflexivity. Qed.
Lemma capture_keeps_to_policy_witness :
  header capture CookieHeader = Some (lit "a=1; b=2") ∧ ∃ h, canonical_url_host usage = Some h ∧ h ∈ https_hosts policy.
Proof.
  destruct (capture_keeps_to_policy policy pasted capture policy_built pasted_parses) as (_ & _ & _ & _ & Hu).
  split; [reflexivity|]. destruct (Hu _ eq_refl) as (_ & _ & _ & _ & h & Hh & [[Hin _]|[Hin _]]); [by apply elem_of_nil in Hin|].
  by exists h.
Defined.
Lemma copied_request_read_back_witness :
  ∃ c, parse policy (curl_command (copied_request (lit "https://api.example.com/usage") CookieHeader (lit "a=it's; b=2"))) = Ok c ∧
    header c CookieHeader = Some (lit "a=it's; b=2").
Proof.
  destruct (copied_request_read_back policy (lit "https://api.example.com/usage") usage CookieHeader
    (lit "a=it's; b=2")) as (c & Hc & Hs & _).
  1-3: vm_compute; reflexivity.
  1: discriminate.
  1-2: vm_compute; reflexivity.
  - repeat constructor; vm_compute; discriminate.
  - vm_compute. discriminate.
  - vm_compute. discriminate.
  - exists c. split; [exact Hc|exact Hs].
Defined.
End CaptureExample.
