(* ===== verification/MonitorEvents.v ===== *)
(** * The Hyprland event witness  (crates/app/src/hyprland_events.rs)

    The helper process that forwards only the two event lines naming one
    monitor, and the canonical base64 its name arrives in.  The pipes and the
    compositor's socket are a list of reads with how it ends; the output is any
    writer. *)
From stdpp Require Import list prelude.
From S2P Require Import Prelude Text Config.
Local Open Scope Z_scope.

Definition MAX_EVENT_LINE_BYTES : Z := 64 * 1024.
Definition MAX_MONITOR_NAME_BYTES : Z := 4 * 1024.
Definition MONITOR_ADDED_PREFIX : list Z := lit "monitoradded>>".
Definition MONITOR_REMOVED_PREFIX : list Z := lit "monitorremoved>>".
Definition NEWLINE : Z := 10.

Inductive EventWitnessError :=
| InvalidSocketPath
| InvalidMonitorName
| ParentLifecycle
| ProcessPrivacy
| Authorization
| Connect
| Authenticate
| Input
| Output
| LineTooLong
| PartialLine
| Poisoned.
#[global] Instance EventWitnessError_eq_dec : EqDecision EventWitnessError.
Proof. solve_decision. Defined.

(** ** The line decoder *)

(** [io::Write] of an output: whether the call succeeded. *)
Class Writer (W : Type) := {
  write_all : list Z → W → W * bool;
  flush : W → W * bool;
}.

Record EventLineDecoder := mk_decoder {
  monitor_added : list Z;
  monitor_removed : list Z;
  line : list Z;
  poisoned : bool;
}.
Definition decoder_new (monitor_name : list Z) : EventLineDecoder :=
  mk_decoder (MONITOR_ADDED_PREFIX ++ monitor_name) (MONITOR_REMOVED_PREFIX ++ monitor_name) [] false.
Definition set_line (l : list Z) (d : EventLineDecoder) : EventLineDecoder :=
  mk_decoder (monitor_added d) (monitor_removed d) l (poisoned d).
(** [clear_line] and [poison] *)
Definition clear_line : EventLineDecoder → EventLineDecoder := set_line [].
Definition poison (d : EventLineDecoder) : EventLineDecoder :=
  mk_decoder (monitor_added d) (monitor_removed d) [] true.

(** [iter().position(|b| *b == c)] *)
Fixpoint position (c : Z) (l : list Z) : option nat :=
  match l with
  | [] => None
  | b :: l => if b =? c then Some O else S <$> position c l
  end.
Definition evidence_of (d : EventLineDecoder) : option (list Z) :=
  if bool_decide (line d = monitor_added d) then Some (monitor_added d)
  else if bool_decide (line d = monitor_removed d) then Some (monitor_removed d) else None.

Section decoder.
Context {W : Type} `{Writer W}.
(** A decoder and the output it is given. *)
Notation M := (SE (EventLineDecoder * W) EventWitnessError).
Definition decoder_gets {A} (f : EventLineDecoder → A) : M A := se_gets (λ s, f s.1).
Definition decoder_modify (f : EventLineDecoder → EventLineDecoder) : M unit := se_modify (λ s, (f s.1, s.2)).
(** A call on the output, its error mapped to [Output]. *)
Definition put (call : W → W * bool) : M unit := λ s,
  let '(o, ok) := call s.2 in ((s.1, o), if ok : bool then Ok tt else Err Output).
Definition emit_line : M unit :=
  evidence ← decoder_gets evidence_of;
  match evidence with
  | Some evidence => put (write_all evidence) ;; put (write_all [NEWLINE]) ;; put flush
  | None => mret tt
  end.
(** [if let Err(error) = m { self.poison(); return Err(error) }] *)
Definition or_poison {A} (m : M A) : M A := λ s,
  match m s with
  | (s', Ok a) => (s', Ok a)
  | (s', Err e) => ((poison s'.1, s'.2), Err e)
  end.
Fixpoint feed_loop (fuel : nat) (input : list Z) : M unit :=
  match fuel with
  | O => mret tt
  | S fuel =>
      if is_empty input then mret tt else
      let newline := position NEWLINE input in
      let segment := match newline with Some p => take p input | None => input end in
      line ← decoder_gets line;
      match n ← checked_add usize_max (count line) (count segment); if n <=? MAX_EVENT_LINE_BYTES then Some n else None with
      | None => decoder_modify poison ;; se_fail LineTooLong
      | Some _ =>
          decoder_modify (set_line (line ++ segment)) ;;
          match newline with
          | None => mret tt
          | Some p => or_poison emit_line ;; decoder_modify clear_line ;; feed_loop fuel (drop (S p) input)
          end
      end
  end.
Definition feed (input : list Z) : M unit :=
  p ← decoder_gets poisoned;
  if p : bool then se_fail Poisoned else feed_loop (S (length input)) input.
Definition finish : M unit :=
  p ← decoder_gets poisoned;
  if p : bool then se_fail Poisoned else
  line ← decoder_gets line;
  if is_empty line then mret tt else decoder_modify poison ;; se_fail PartialLine.

(** The reads of [forward_events], and how they end. *)
Inductive Ending := Eof | ReadError.
Fixpoint forward_loop (reads : list (list Z)) (ending : Ending) : M unit :=
  match reads with
  | [] => match ending with Eof => finish | ReadError => se_fail Input end
  | chunk :: reads => if is_empty chunk then finish else feed chunk ;; forward_loop reads ending
  end.
Definition forward_events (monitor_name : list Z) (reads : list (list Z)) (ending : Ending) (output : W) :
    W * Result EventWitnessError unit :=
  let '((_, output), r) := forward_loop reads ending (decoder_new monitor_name, output) in (output, r).
End decoder.

(** ** The monitor's name *)

(** [u8::trailing_zeros] and [<<] on [u8] *)
Fixpoint trailing_zeros_from (bits : nat) (x : Z) : Z :=
  match bits with
  | O => 0
  | S bits => if Z.odd x then 0 else 1 + trailing_zeros_from bits (Z.shiftr x 1)
  end.
Definition trailing_zeros : Z → Z := trailing_zeros_from 8.
Definition shl_u8 (x n : Z) : Z := Z.land (Z.shiftl x n) 255.

Definition EQUALS : Z := 61.
Definition decode_base64_digit (byte : Z) : option Z :=
  if is_ascii_upper byte then Some (byte - 65)
  else if is_ascii_lower byte then Some (byte - 97 + 26)
  else if is_ascii_digit byte then Some (byte - 48 + 52)
  else if byte =? 43 then Some 62
  else if byte =? 47 then Some 63
  else None.
Definition digit (byte : Z) : Result EventWitnessError Z := ok_or (decode_base64_digit byte) InvalidMonitorName.
Definition byte_1 (first second : Z) : Z := Z.lor (shl_u8 first 2) (Z.shiftr second 4).
Definition byte_2 (second third : Z) : Z := Z.lor (shl_u8 second 4) (Z.shiftr third 2).
Definition byte_3 (third fourth : Z) : Z := Z.lor (shl_u8 third 6) fourth.
(** The loop over groups of four. *)
Fixpoint decode_groups (input : list Z) : Result EventWitnessError (list Z) :=
  match input with
  | g0 :: g1 :: g2 :: g3 :: rest =>
      let last_group := is_empty rest in
      first ← digit g0;
      second ← digit g1;
      if (g2 =? EQUALS) && (g3 =? EQUALS) && last_group && (4 <=? trailing_zeros second) then
        rest ← decode_groups rest;
        Ok (byte_1 first second :: rest)
      else if (g3 =? EQUALS) && last_group then
        third ← digit g2;
        if trailing_zeros third <? 2 then Err InvalidMonitorName else
        rest ← decode_groups rest;
        Ok (byte_1 first second :: byte_2 second third :: rest)
      else if negb (g2 =? EQUALS) && negb (g3 =? EQUALS) then
        third ← digit g2;
        fourth ← digit g3;
        rest ← decode_groups rest;
        Ok (byte_1 first second :: byte_2 second third :: byte_3 third fourth :: rest)
      else Err InvalidMonitorName
  | _ => Ok []
  end.
Definition padding (input : list Z) : Z :=
  match reverse input with
  | a :: b :: _ => if a =? EQUALS then if b =? EQUALS then 2 else 1 else 0
  | [a] => if a =? EQUALS then 1 else 0
  | [] => 0
  end.
Definition decode_monitor_name (input : list Z) : Result EventWitnessError (list Z) :=
  let maximum_encoded_length := (MAX_MONITOR_NAME_BYTES + 2) / 3 * 4 in
  if is_empty input || (maximum_encoded_length <? count input) || negb (count input mod 4 =? 0)
  then Err InvalidMonitorName else
  let decoded_length := count input / 4 * 3 - padding input in
  if (decoded_length =? 0) || (MAX_MONITOR_NAME_BYTES <? decoded_length) then Err InvalidMonitorName else
  decoded ← decode_groups input;
  if negb (count decoded =? decoded_length) || existsb (λ byte, bool_decide (byte ∈ [0; 10; 13])) decoded
  then Err InvalidMonitorName else Ok decoded.
