(* ===== verification/MonitorEventsFacts.v ===== *)
(** * The event witness forwards exactly the lines of its monitor

    However the stream is cut into reads; and the names it is given are
    canonical base64 of bytes that cannot break a line. *)
From stdpp Require Import list prelude.
From S2P Require Import Prelude Text Config MonitorEvents.
Local Open Scope Z_scope.

(** ** Lines *)

(** An output that takes everything. *)
#[global] Instance Sink : Writer (list Z) := {
  write_all l out := (out ++ l, true);
  flush out := (out, true);
}.

Section lines.
Context (monitor_name : list Z).
Definition witnessed (l : list Z) : Prop :=
  l = MONITOR_ADDED_PREFIX ++ monitor_name ∨ l = MONITOR_REMOVED_PREFIX ++ monitor_name.
#[global] Instance witnessed_dec l : Decision (witnessed l).
Proof. unfold witnessed. apply _. Defined.
Definition line_text (l : list Z) : list Z := l ++ [NEWLINE].
Definition unlines (ls : list (list Z)) : list Z := concat (line_text <$> ls).
(** What is to be forwarded of some lines. *)
Definition evidence (ls : list (list Z)) : list Z := unlines (filter witnessed ls).
Definition fits (l : list Z) : Prop := count l ≤ MAX_EVENT_LINE_BYTES.
Definition line_ok (l : list Z) : Prop := NEWLINE ∉ l ∧ fits l.

(** The decoder, a byte at a time: the output and the unfinished line. *)
Fixpoint scan (line out input : list Z) : list Z * option (list Z) :=
  match input with
  | [] => (out, Some line)
  | b :: input =>
      if b =? NEWLINE then scan [] (out ++ evidence [line]) input
      else if MAX_EVENT_LINE_BYTES <? count line + 1 then (out, None)
      else scan (line ++ [b]) out input
  end.
Lemma scan_app line out a b :
  scan line out (a ++ b) =
  match scan line out a with (o, Some l) => scan l o b | (o, None) => (o, None) end.
Proof.
  revert line out. induction a as [|c a IH]; intros line out; [done|]. cbn [app scan].
  destruct (c =? NEWLINE); [apply IH|]. destruct (_ <? _); [done|]. apply IH.
Qed.
Lemma count_app {A} (l k : list A) : count (l ++ k) = count l + count k.
Proof. unfold count. rewrite length_app. lia. Qed.
Lemma count_nonneg {A} (l : list A) : 0 ≤ count l.
Proof. unfold count. lia. Qed.
Lemma scan_segment line out segment : NEWLINE ∉ segment → fits line →
  scan line out segment =
    if count line + count segment <=? MAX_EVENT_LINE_BYTES then (out, Some (line ++ segment)) else (out, None).
Proof.
  unfold fits. revert line. induction segment as [|b s IH]; intros line Hn Hl; cbn [scan].
  - change (count []) with 0. rewrite app_nil_r, Z.add_0_r. by rewrite (proj2 (Z.leb_le _ _)).
  - apply not_elem_of_cons in Hn as [Hb Hn]. rewrite (proj2 (Z.eqb_neq b NEWLINE)) by congruence.
    assert (Hc : count (b :: s) = 1 + count s) by (unfold count; cbn [length]; lia). pose proof (count_nonneg s).
    destruct (Z.ltb_spec MAX_EVENT_LINE_BYTES (count line + 1)) as [Hlt|Hge].
    + by rewrite (proj2 (Z.leb_gt _ _)) by lia.
    + rewrite IH by (done || (rewrite count_app; exact Hge)). rewrite count_app, <-app_assoc, Hc.
      change (count [b]) with 1. by rewrite Z.add_assoc.
Qed.
Lemma scan_newline line out input : scan line out (NEWLINE :: input) = scan [] (out ++ evidence [line]) input.
Proof. done. Qed.
Lemma evidence_app l k : evidence (l ++ k) = evidence l ++ evidence k.
Proof. unfold evidence, unlines. by rewrite filter_app, fmap_app, concat_app. Qed.
Lemma scan_lines out ls rest : Forall line_ok ls → scan [] out (unlines ls ++ rest) = scan [] (out ++ evidence ls) rest.
Proof.
  intros Hls. revert out. induction Hls as [|l ls [Hn Hf] Hls IH]; intros out; [by rewrite app_nil_r|].
  change (unlines (l :: ls)) with (line_text l ++ unlines ls). unfold line_text.
  rewrite <-!app_assoc, scan_app, scan_segment; [|done|unfold fits; done].
  rewrite (proj2 (Z.leb_le _ _)) by (change (count []) with 0; unfold fits in Hf; lia).
  cbn [app]. rewrite scan_newline, IH, <-app_assoc, <-evidence_app. done.
Qed.

(** ** The decoder against the scan *)

Definition decoding (l : list Z) : EventLineDecoder := set_line l (decoder_new monitor_name).
Definition spent : EventLineDecoder := poison (decoder_new monitor_name).
Definition outcome (r : list Z * option (list Z)) : (EventLineDecoder * list Z) * Result EventWitnessError unit :=
  match r with
  | (out, Some l) => ((decoding l, out), Ok tt)
  | (out, None) => ((spent, out), Err LineTooLong)
  end.
Lemma position_None c l : position c l = None → c ∉ l.
Proof.
  induction l as [|b l IH]; cbn; [intros _; apply not_elem_of_nil|]. destruct (Z.eqb_spec b c) as [|Hb]; [done|].
  intros Hp%fmap_None. apply not_elem_of_cons. split; [congruence|by apply IH].
Qed.
Lemma position_Some_split c l p : position c l = Some p → l = take p l ++ c :: drop (S p) l ∧ c ∉ take p l.
Proof.
  revert p. induction l as [|b l IH]; cbn; intros p; [done|]. destruct (Z.eqb_spec b c) as [->|Hb].
  - intros [= <-]. split; [done|apply not_elem_of_nil].
  - intros (q & Hq & ->)%fmap_Some. destruct (IH q Hq) as [He Hn]. cbn. split; [by f_equal|].
    apply not_elem_of_cons. split; [congruence|done].
Qed.
Lemma emit_line_sink l out : emit_line (decoding l, out) = ((decoding l, out ++ evidence [l]), Ok tt).
Proof.
  unfold emit_line. cbv beta iota delta [mbind SE_bind decoder_gets se_gets fst snd].
  assert (He : evidence_of (decoding l) = if decide (witnessed l) then Some l else None).
  { unfold evidence_of, decoding, set_line, decoder_new. cbn [line monitor_added monitor_removed].
    case_bool_decide as Ha; [|case_bool_decide as Hr]; case_decide as Hw; try done.
    - by rewrite Ha.
    - destruct Hw. by left.
    - by rewrite Hr.
    - destruct Hw. by right.
    - by destruct Hw. }
  rewrite He. unfold evidence. case_decide as Hw.
  - rewrite filter_cons_True, filter_nil by done. unfold put, unlines, line_text. cbn -[NEWLINE].
    by rewrite app_nil_r, <-app_assoc.
  - rewrite filter_cons_False, filter_nil by done. unfold unlines. cbn. by rewrite app_nil_r.
Qed.
Lemma checked_fits a b : count (A:=Z) a + count (A:=Z) b ≤ MAX_EVENT_LINE_BYTES →
  option_bind _ _ (λ n, if n <=? MAX_EVENT_LINE_BYTES then Some n else None) (checked_add usize_max (count a) (count b))
  = Some (count a + count b).
Proof.
  intros Hle. assert (MAX_EVENT_LINE_BYTES < usize_max) by done. unfold checked_add.
  rewrite (proj2 (Z.leb_le _ usize_max)) by lia. cbn. by rewrite (proj2 (Z.leb_le _ _)).
Qed.
Lemma checked_long a b : MAX_EVENT_LINE_BYTES < count (A:=Z) a + count (A:=Z) b →
  option_bind _ _ (λ n, if n <=? MAX_EVENT_LINE_BYTES then Some n else None) (checked_add usize_max (count a) (count b))
  = None.
Proof.
  intros Hgt. unfold checked_add. destruct (_ <=? usize_max); [|done]. cbn. by rewrite (proj2 (Z.leb_gt _ _)).
Qed.
Lemma feed_loop_scan fuel l out input : (length input < fuel)%nat → fits l →
  feed_loop fuel input (decoding l, out) = outcome (scan l out input).
Proof.
  revert l out input. induction fuel as [|fuel IH]; intros l out input Hfuel Hl; [lia|].
  destruct input as [|b input']; [done|]. set (input := b :: input') in *.
  unfold feed_loop; fold (@feed_loop (list Z) Sink). cbn [is_empty input].
  cbv beta iota delta [mbind SE_bind decoder_gets se_gets fst snd].
  change (line (decoding l)) with l. fold input.
  destruct (position NEWLINE input) as [p|] eqn:Hp.
  - apply position_Some_split in Hp as [Hin Hn]. 
    assert (Hscan : scan l out input = scan l out (take p input ++ NEWLINE :: drop (S p) input)) by (by rewrite <-Hin).
    rewrite Hscan, scan_app, scan_segment by done.
    destruct (Z.leb_spec (count l + count (take p input)) MAX_EVENT_LINE_BYTES) as [Hle|Hgt].
    + rewrite checked_fits by done. cbn [decoder_modify se_modify fst snd]. unfold or_poison.
      change (set_line (l ++ take p input) (decoding l)) with (decoding (l ++ take p input)).
      rewrite emit_line_sink. cbn [fst snd]. rewrite scan_newline.
      change (clear_line (decoding (l ++ take p input))) with (decoding []). apply IH; [|done].
      rewrite length_drop. unfold input in *. cbn [length] in *. lia.
    + rewrite checked_long by done. done.
  - apply position_None in Hp. rewrite scan_segment by done.
    destruct (Z.leb_spec (count l + count input) MAX_EVENT_LINE_BYTES) as [Hle|Hgt];
      [rewrite checked_fits by done|rewrite checked_long by done]; done.
Qed.
End lines.

Section forward.
Context (monitor_name : list Z).
Lemma scan_fits l out a o l' : fits l → scan monitor_name l out a = (o, Some l') → fits l'.
Proof.
  revert l out. induction a as [|b a IH]; intros l out Hl; cbn [scan]; [by intros [= _ <-]|].
  destruct (b =? NEWLINE); [by apply IH|]. destruct (Z.ltb_spec MAX_EVENT_LINE_BYTES (count l + 1)); [done|].
  apply IH. unfold fits. rewrite count_app. exact H.
Qed.
Definition ending_result (ending : Ending) (rest : list Z) : Result EventWitnessError unit :=
  match ending with
  | ReadError => Err Input
  | Eof => if is_empty rest then Ok tt else Err PartialLine
  end.
Lemma forward_loop_scan reads ending l out : Forall (λ chunk, chunk ≠ []) reads → fits l →
  let '((_, o), r) := forward_loop reads ending (decoding monitor_name l, out) in
  (o, r) = match scan monitor_name l out (concat reads) with
           | (o, Some l') => (o, ending_result ending l')
           | (o, None) => (o, Err LineTooLong)
           end.
Proof.
  intros Hreads. revert l out. induction Hreads as [|chunk reads Hne Hreads IH]; intros l out Hl.
  { destruct ending; [|done]. cbn. unfold finish. cbv beta iota delta [mbind SE_bind decoder_gets se_gets fst snd].
    cbn [poisoned decoding set_line decoder_new line]. by destruct l. }
  cbn [forward_loop concat]. destruct chunk as [|b chunk]; [done|]. cbn [is_empty]. rewrite scan_app.
  cbv beta iota delta [mbind SE_bind]. unfold feed at 1.
  cbv beta iota delta [mbind SE_bind decoder_gets se_gets fst snd]. change (poisoned (decoding monitor_name l)) with false.
  cbv iota. rewrite feed_loop_scan by (done || lia).
  destruct (scan monitor_name l out (b :: chunk)) as [o [l'|]] eqn:Hs; cbn [outcome]; [|done].
  apply IH. by eapply scan_fits.
Qed.

(** However the stream is cut into reads, the output receives exactly the lines
    of the monitor among the lines that have arrived; the first line above the
    limit, a failed read and an unfinished line end it with their error. *)
Theorem forwards_exactly_its_lines reads ending out lines rest :
  Forall (λ chunk, chunk ≠ []) reads → Forall line_ok lines → concat reads = unlines lines ++ rest →
  (NEWLINE ∉ rest → fits rest →
     forward_events monitor_name reads ending out = (out ++ evidence monitor_name lines, ending_result ending rest)) ∧
  (∀ long tail, rest = long ++ tail → NEWLINE ∉ long → ¬ fits long →
     forward_events monitor_name reads ending out = (out ++ evidence monitor_name lines, Err LineTooLong)).
Proof.
  intros Hreads Hlines Hin. unfold forward_events.
  pose proof (forward_loop_scan reads ending [] out Hreads ltac:(done)) as Hf.
  change (decoding monitor_name []) with (decoder_new monitor_name) in Hf.
  destruct (forward_loop reads ending (decoder_new monitor_name, out)) as [[d o] r]. rewrite Hf, Hin, scan_lines by done.
  split.
  - intros Hn Hfit. rewrite scan_segment by done. change (count []) with 0. rewrite Z.add_0_l.
    unfold fits in Hfit. by rewrite (proj2 (Z.leb_le _ _)).
  - intros long tail -> Hn Hlong. rewrite scan_app, scan_segment by done. change (count []) with 0. rewrite Z.add_0_l.
    unfold fits in Hlong. by rewrite (proj2 (Z.leb_gt _ _)) by lia.
Qed.
End forward.

(** ** Base64 *)

Definition encode_digit (d : Z) : Z :=
  if d <? 26 then 65 + d else if d <? 52 then 71 + d else if d <? 62 then d - 4 else if d =? 62 then 43 else 47.
(** RFC 4648 with padding. *)
Fixpoint encode_base64 (l : list Z) : list Z :=
  match l with
  | a :: b :: c :: rest =>
      encode_digit (a / 4) :: encode_digit (a mod 4 * 16 + b / 16) :: encode_digit (b mod 16 * 4 + c / 64)
      :: encode_digit (c mod 64) :: encode_base64 rest
  | [a; b] => [encode_digit (a / 4); encode_digit (a mod 4 * 16 + b / 16); encode_digit (b mod 16 * 4); EQUALS]
  | [a] => [encode_digit (a / 4); encode_digit (a mod 4 * 16); EQUALS; EQUALS]
  | [] => []
  end.
Definition is_byte (b : Z) : Prop := 0 ≤ b < 256.

Lemma digit_Ok byte d : digit byte = Ok d ↔ 0 ≤ d < 64 ∧ byte = encode_digit d.
Proof.
  unfold digit. rewrite ok_or_Ok. unfold decode_base64_digit, encode_digit, is_ascii_upper, is_ascii_lower, is_ascii_digit.
  split.
  - repeat match goal with |- context [if ?b then _ else _] => destruct b eqn:? end; intros [= <-];
      rewrite ?andb_true_iff, ?Z.leb_le, ?Z.eqb_eq, ?Z.ltb_lt, ?Z.ltb_ge, ?Z.eqb_neq in *; lia.
  - intros [Hd ->]. destruct (Z.ltb_spec d 26); [|destruct (Z.ltb_spec d 52); [|destruct (Z.ltb_spec d 62);
      [|destruct (Z.eqb_spec d 62) as [->|]]]];
      repeat match goal with |- context [if ?b then _ else _] => destruct b eqn:? end;
      rewrite ?andb_true_iff, ?andb_false_iff, ?Z.leb_le, ?Z.leb_gt, ?Z.eqb_eq, ?Z.eqb_neq in *; try (f_equal; lia); lia.
Qed.
Lemma encode_digit_not_equals d : 0 ≤ d < 64 → encode_digit d ≠ EQUALS.
Proof.
  intros Hd. unfold encode_digit, EQUALS. destruct (Z.ltb_spec d 26); [lia|]. destruct (Z.ltb_spec d 52); [lia|].
  destruct (Z.ltb_spec d 62); [lia|]. destruct (Z.eqb_spec d 62); lia.
Qed.
(** Facts about pairs of digits, by checking them all. *)
Lemma digits_forall (p : Z → Z → bool) :
  forallb (λ x, forallb (p x) (seqZ 0 64)) (seqZ 0 64) = true → ∀ x y, 0 ≤ x < 64 → 0 ≤ y < 64 → p x y = true.
Proof.
  rewrite forallb_Forall_eq, Forall_forall. intros Hp x y Hx Hy. specialize (Hp x).
  rewrite forallb_Forall_eq, Forall_forall in Hp. apply Hp; apply elem_of_seqZ; lia.
Qed.
Ltac by_digits p := apply Z.eqb_eq; revert_digits p
with revert_digits p := apply (digits_forall p); [vm_compute; reflexivity|lia|lia].
Lemma byte_1_eq x y : 0 ≤ x < 64 → 0 ≤ y < 64 → byte_1 x y = x * 4 + y / 16.
Proof. intros Hx Hy. by_digits (λ x y, byte_1 x y =? x * 4 + y / 16). Qed.
Lemma byte_2_eq x y : 0 ≤ x < 64 → 0 ≤ y < 64 → byte_2 x y = x mod 16 * 16 + y / 4.
Proof. intros Hx Hy. by_digits (λ x y, byte_2 x y =? x mod 16 * 16 + y / 4). Qed.
Lemma byte_3_eq x y : 0 ≤ x < 64 → 0 ≤ y < 64 → byte_3 x y = x mod 4 * 64 + y.
Proof. intros Hx Hy. by_digits (λ x y, byte_3 x y =? x mod 4 * 64 + y). Qed.
Lemma zeros_4 x : 0 ≤ x < 64 → (4 <=? trailing_zeros x) = (x mod 16 =? 0).
Proof. intros Hx. apply eqb_prop. apply (digits_forall (λ x _, eqb (4 <=? trailing_zeros x) (x mod 16 =? 0)) ltac:(vm_compute; reflexivity) x 0); lia. Qed.
Lemma zeros_2 x : 0 ≤ x < 64 → (trailing_zeros x <? 2) = negb (x mod 4 =? 0).
Proof. intros Hx. apply eqb_prop. apply (digits_forall (λ x _, eqb (trailing_zeros x <? 2) (negb (x mod 4 =? 0))) ltac:(vm_compute; reflexivity) x 0); lia. Qed.

Lemma triple_ind {A} (P : list A → Prop) :
  P [] → (∀ a, P [a]) → (∀ a b, P [a; b]) → (∀ a b c l, P l → P (a :: b :: c :: l)) → ∀ l, P l.
Proof.
  intros H0 H1 H2 H3. fix IH 1. intros [|a [|b [|c l]]]; [exact H0|apply H1|apply H2|apply H3, IH].
Qed.
Lemma quad_ind {A} (P : list A → Prop) :
  P [] → (∀ a, P [a]) → (∀ a b, P [a; b]) → (∀ a b c, P [a; b; c]) → (∀ a b c d l, P l → P (a :: b :: c :: d :: l)) →
  ∀ l, P l.
Proof.
  intros H0 H1 H2 H3 H4. fix IH 1. intros [|a [|b [|c [|d l]]]]; [exact H0|apply H1|apply H2|apply H3|apply H4, IH].
Qed.
Lemma digit_encode d : 0 ≤ d < 64 → digit (encode_digit d) = Ok d.
Proof. intros Hd. by apply digit_Ok. Qed.
Lemma digit_equals d : 0 ≤ d < 64 → (encode_digit d =? EQUALS) = false.
Proof. intros Hd. by apply Z.eqb_neq, encode_digit_not_equals. Qed.
(** A side condition on the digits of bytes. *)
Ltac digit_range := unfold is_byte in *; Z.to_euclidean_division_equations; lia.

Lemma decode_encode l : Forall is_byte l → decode_groups (encode_base64 l) = Ok l.
Proof.
  induction l as [|a|a b|a b c l IH] using triple_ind; intros Hl; [done|..];
    rewrite ?Forall_cons in Hl; destruct_and? Hl; cbn [encode_base64 decode_groups is_empty];
    rewrite !digit_encode by digit_range; cbn [mbind Result_bind].
  - rewrite Z.eqb_refl. cbn [andb]. rewrite zeros_4 by digit_range.
    rewrite (proj2 (Z.eqb_eq _ _)) by digit_range. rewrite byte_1_eq by digit_range. do 2 f_equal. digit_range.
  - rewrite digit_equals by digit_range. rewrite Z.eqb_refl. cbn [andb mbind Result_bind]. rewrite zeros_2 by digit_range. rewrite (proj2 (Z.eqb_eq _ _)) by digit_range. cbn [negb].
    rewrite byte_1_eq, byte_2_eq by digit_range. do 2 f_equal; [digit_range|]. f_equal. digit_range.
  - rewrite !digit_equals by digit_range. cbn [andb negb mbind Result_bind]. rewrite IH by done. cbn [mbind Result_bind].
    rewrite byte_1_eq, byte_2_eq, byte_3_eq by digit_range.
    do 2 f_equal; [digit_range|]. f_equal; [digit_range|]. f_equal. digit_range.
Qed.
Lemma encode_decode s : count s mod 4 = 0 → ∀ l, decode_groups s = Ok l → s = encode_base64 l ∧ Forall is_byte l.
Proof.
  induction s as [|a|a b|a b c|g0 g1 g2 g3 s IH] using quad_ind; intros Hn l; try done.
  { by intros [= <-]. }
  assert (Hs : count s mod 4 = 0).
  { replace (count (g0 :: g1 :: g2 :: g3 :: s)) with (count s + 1 * 4) in Hn by (unfold count; cbn [length]; lia).
    by rewrite Z.mod_add in Hn. }
  cbn [decode_groups]. intros (x & [Hx ->]%digit_Ok & Hl)%bind_Ok. apply bind_Ok in Hl as (y & [Hy ->]%digit_Ok & Hl).
  rewrite zeros_4 in Hl by done.
  destruct ((g2 =? EQUALS) && (g3 =? EQUALS) && is_empty s && (y mod 16 =? 0)) eqn:H1.
  { rewrite !andb_true_iff, !Z.eqb_eq in H1. destruct H1 as [[[-> ->] Hempty] Hz]. destruct s; [|done].
    injection Hl as <-. rewrite byte_1_eq by done. cbn [encode_base64]. split; [|constructor; [digit_range|constructor]].
    repeat f_equal; digit_range. }
  destruct ((g3 =? EQUALS) && is_empty s) eqn:H2.
  { rewrite andb_true_iff, Z.eqb_eq in H2. destruct H2 as [-> Hempty]. destruct s; [|done].
    apply bind_Ok in Hl as (z & [Hz ->]%digit_Ok & Hl). rewrite zeros_2 in Hl by done.
    destruct (Z.eqb_spec (z mod 4) 0); [|done]. injection Hl as <-. rewrite byte_1_eq, byte_2_eq by done.
    cbn [encode_base64]. split; [|repeat constructor; digit_range]. repeat f_equal; digit_range. }
  destruct (negb (g2 =? EQUALS) && negb (g3 =? EQUALS)); [|done].
  apply bind_Ok in Hl as (z & [Hz ->]%digit_Ok & Hl). apply bind_Ok in Hl as (w & [Hw ->]%digit_Ok & Hl).
  apply bind_Ok in Hl as (rest & Hrest & [= <-]). destruct (IH Hs rest Hrest) as [-> Hb].
  rewrite byte_1_eq, byte_2_eq, byte_3_eq by done. cbn [encode_base64].
  split; [|constructor; [digit_range|constructor; [digit_range|constructor; [digit_range|done]]]].
  do 3 (f_equal; [f_equal; digit_range|]). f_equal. f_equal. digit_range.
Qed.

Lemma padding_app l k : (2 ≤ length k)%nat → padding (l ++ k) = padding k.
Proof.
  intros Hk. unfold padding. rewrite reverse_app. rewrite <-length_reverse in Hk.
  destruct (reverse k) as [|x [|y r]]; cbn in Hk; [lia|lia|done].
Qed.
Lemma encode_count l : count (encode_base64 l) = (count l + 2) / 3 * 4.
Proof.
  induction l as [|a|a b|a b c l IH] using triple_ind; try done. cbn [encode_base64]. unfold count in *. cbn [length].
  rewrite !Nat2Z.inj_succ, IH. Z.to_euclidean_division_equations. lia.
Qed.
Lemma padding_encode l : Forall is_byte l → padding (encode_base64 l) = (count l + 2) / 3 * 3 - count l.
Proof.
  induction l as [|a|a b|a b c l IH] using triple_ind; intros Hl; [done|done|..]; rewrite ?Forall_cons in Hl; destruct_and? Hl.
  - unfold padding. cbn [encode_base64]. change (reverse _) with [EQUALS; encode_digit (b mod 16 * 4);
      encode_digit (a mod 4 * 16 + b / 16); encode_digit (a / 4)]. cbn match. rewrite Z.eqb_refl, digit_equals by digit_range. done.
  - assert (Hc : count (a :: b :: c :: l) = count l + 3) by (unfold count; cbn [length]; lia). rewrite Hc.
    destruct l as [|d l'].
    + unfold padding. cbn [encode_base64]. change (reverse _) with [encode_digit (c mod 64); encode_digit (b mod 16 * 4 + c / 64);
        encode_digit (a mod 4 * 16 + b / 16); encode_digit (a / 4)]. cbn match. by rewrite digit_equals by digit_range.
    + specialize (IH ltac:(done)). set (l := d :: l') in *.
      change (encode_base64 (a :: b :: c :: l)) with ([encode_digit (a / 4); encode_digit (a mod 4 * 16 + b / 16);
        encode_digit (b mod 16 * 4 + c / 64); encode_digit (c mod 64)] ++ encode_base64 l).
      rewrite padding_app, IH; [Z.to_euclidean_division_equations; lia|].
      pose proof (encode_count l) as He. assert (1 ≤ count l) by (unfold count, l; cbn [length]; lia).
      unfold count in He at 1. apply Nat2Z.inj_le. rewrite He. Z.to_euclidean_division_equations. lia.
Qed.

(** A name is accepted exactly when it is the canonical base64 of at most 4096
    bytes, none of which ends a line or a string. *)
Theorem monitor_name_canonical input name :
  decode_monitor_name input = Ok name ↔
  input = encode_base64 name ∧ Forall is_byte name ∧ name ≠ [] ∧ count name ≤ MAX_MONITOR_NAME_BYTES ∧
  Forall (λ byte, byte ∉ [0; NEWLINE; 13]) name.
Proof.
  unfold decode_monitor_name. split.
  - destruct (_ || _ || _) eqn:H1; [done|]. rewrite !orb_false_iff, negb_false_iff, Z.eqb_eq in H1. destruct H1 as [_ Hmod].
    destruct (_ || _) eqn:H2; [done|]. rewrite orb_false_iff, Z.eqb_neq, Z.ltb_ge in H2. destruct H2 as [H0 Hmax].
    intros (l & Hl & Hr)%bind_Ok. destruct (_ || _) eqn:H3; [done|]. injection Hr as ->.
    rewrite orb_false_iff, negb_false_iff, Z.eqb_eq, existsb_false in H3. destruct H3 as [Hc Hf].
    destruct (encode_decode _ Hmod _ Hl) as [-> Hb]. split; [done|]. split; [done|]. split; [by intros ->|]. split; [lia|].
    eapply Forall_impl; [exact Hf|]. intros b Hbd. by apply bool_decide_eq_false in Hbd.
  - intros (-> & Hb & Hne & Hmax & Hf). assert (Hpos : 1 ≤ count name) by (unfold count; destruct name; [done|cbn [length]; lia]).
    pose proof (encode_count name) as Hc. pose proof (padding_encode name Hb) as Hpad.
    replace (is_empty (encode_base64 name)) with false.
    2:{ destruct (encode_base64 name); [|done]. change (count []) with 0 in Hc. exfalso. revert Hc. Z.to_euclidean_division_equations. lia. }
    rewrite Hc, Z.mod_mul, Z.div_mul, Hpad, Z.eqb_refl by lia. cbn [negb orb]. rewrite orb_false_r.
    unfold MAX_MONITOR_NAME_BYTES in *. rewrite (proj2 (Z.ltb_ge _ _)) by (Z.to_euclidean_division_equations; lia).
    replace ((count name + 2) / 3 * 3 - ((count name + 2) / 3 * 3 - count name)) with (count name) by lia.
    rewrite (proj2 (Z.eqb_neq _ _)), (proj2 (Z.ltb_ge _ _)) by lia. cbn [orb].
    rewrite decode_encode by done. cbn [mbind Result_bind]. rewrite Z.eqb_refl. cbn [negb orb].
    replace (existsb _ name) with false; [done|]. symmetry. apply existsb_false. eapply Forall_impl; [exact Hf|].
    intros b Hnb. by apply bool_decide_eq_false_2.
Qed.

(** ** Witnesses *)

Definition reads_example : list (list Z) :=
  [lit "fullscreen>>1" ++ [NEWLINE] ++ lit "monitorad"; lit "ded>>DP-1" ++ [NEWLINE]].
Lemma forwards_exactly_its_lines_witness :
  forward_events (lit "DP-1") reads_example Eof [] = (lit "monitoradded>>DP-1" ++ [NEWLINE], Ok tt).
Proof.
  destruct (forwards_exactly_its_lines (lit "DP-1") reads_example Eof []
    [lit "fullscreen>>1"; lit "monitoradded>>DP-1"] []) as [Hf _].
  - by repeat constructor.
  - constructor; [|constructor; [|constructor]]; (split; [by_decide|unfold fits; by_decide]).
  - reflexivity.
  - rewrite Hf; [reflexivity|by_decide|unfold fits; by_decide].
Defined.
