(* ===== verification/Credentials.v ===== *)
(** * Credentials  (crates/auth/src/secret_store.rs, credential_slot.rs,
      precedence.rs, protected_file.rs, redaction.rs; crates/storage/src/privacy.rs)

    Keys and values of stored credentials, the slots they are named by, which
    source wins, and the protected-file store: a JSON document replaced with
    AtomicFile.v.  serde_json is a class; the other stores are external and only
    their contract ([SecretStore]) appears. *)
From stdpp Require Import gmap countable sorting prelude.
From S2P Require Import Prelude Ordering Text Externals Scope Config AtomicFile.
Local Open Scope Z_scope.

(** ** secret_store.rs *)

Definition MAX_SECRET_BYTES : Z := 16 * 1024.
Definition MAX_KEY_FIELD_BYTES : Z := 256.
Definition MAX_BATCH_KEYS : Z := 256.
Definition MAX_BATCH_ITEMS : Z := 512.
Definition APPLICATION_ATTRIBUTE : str := lit "omarchy-ai-bar".

Record SecretKey := mk_key { provider : str; account : str; purpose : str }.
#[global] Instance SecretKey_eq_dec : EqDecision SecretKey.
Proof. solve_decision. Defined.
#[global] Instance SecretKey_countable : Countable SecretKey.
Proof.
  apply (inj_countable' (λ k, (provider k, account k, purpose k)) (λ t, mk_key t.1.1 t.1.2 t.2)). by intros [].
Defined.

Inductive SecretKeyError := KeyEmpty | KeyTooLarge | KeyControlCharacter.
Definition checked_key_field (value : str) : Result SecretKeyError str :=
  if is_empty value then Err KeyEmpty else
  if MAX_KEY_FIELD_BYTES <? str_len value then Err KeyTooLarge else
  if existsb is_control value then Err KeyControlCharacter else Ok value.
Definition secret_key_new (provider account purpose : str) : Result SecretKeyError SecretKey :=
  provider ← checked_key_field provider;
  account ← checked_key_field account;
  purpose ← checked_key_field purpose;
  Ok (mk_key provider account purpose).
Definition attributes (key : SecretKey) : list (str * str) :=
  [(lit "application", APPLICATION_ATTRIBUTE); (lit "provider", provider key);
   (lit "account", account key); (lit "purpose", purpose key)].

Inductive SecretValueError := SecretEmpty | SecretTooLarge.
Record SecretValue := mk_secret { expose_secret : list Z }.
Definition secret_value_new (value : list Z) : Result SecretValueError SecretValue :=
  if is_empty value then Err SecretEmpty else
  if MAX_SECRET_BYTES <? count value then Err SecretTooLarge else Ok (mk_secret value).

Inductive SecretStoreError := Unavailable | Locked | InvalidData | Operation.

(** The Secret Service behind [get_many]: its items, each call of which may fail. *)
Record KeyringItem := mk_item {
  item_unlock : bool;
  item_attributes : option (list (str * str));
  item_secret : option (list Z);
}.
Definition attribute (name : str) (l : list (str * str)) : option str :=
  snd <$> head (filter (λ a, a.1 = name) l).
Definition item_matches (l : list (str * str)) (key : SecretKey) : bool :=
  bool_decide (attribute (lit "application") l = Some APPLICATION_ATTRIBUTE)
  && bool_decide (attribute (lit "provider") l = Some (provider key))
  && bool_decide (attribute (lit "account") l = Some (account key))
  && bool_decide (attribute (lit "purpose") l = Some (purpose key)).
Fixpoint batch_items (keys : list SecretKey) (seen : list SecretKey) (values : list (SecretKey * SecretValue))
    (items : list KeyringItem) : Result SecretStoreError (list (SecretKey * SecretValue)) :=
  match items with
  | [] => Ok values
  | item :: items =>
      ensure (item_unlock item) Locked ;;
      attributes ← ok_or (item_attributes item) Operation;
      match head (filter (λ key, item_matches attributes key = true) keys) with
      | None => batch_items keys seen values items
      | Some key =>
          if bool_decide (key ∈ seen) then Err InvalidData else
          secret ← ok_or (item_secret item) Operation;
          value ← map_err (λ _, InvalidData) (secret_value_new secret);
          batch_items keys (key :: seen) (values ++ [(key, value)]) items
      end
  end.
Definition get_many (keys : list SecretKey) (search : option (list KeyringItem)) :
    Result SecretStoreError (list (SecretKey * SecretValue)) :=
  if (MAX_BATCH_KEYS <? count keys) || negb (bool_decide (NoDup keys)) then Err InvalidData else
  items ← ok_or search Operation;
  if MAX_BATCH_ITEMS <? count items then Err InvalidData else
  batch_items keys [] [] items.
Definition service_get (search : option (list KeyringItem)) : Result SecretStoreError (option SecretValue) :=
  items ← ok_or search Operation;
  match items with
  | [] => Ok None
  | [item] =>
      ensure (item_unlock item) Locked ;;
      secret ← ok_or (item_secret item) Operation;
      Some <$> map_err (λ _, InvalidData) (secret_value_new secret)
  | _ => Err InvalidData
  end.

(** ** credential_slot.rs *)

Definition MAX_CREDENTIAL_SLOT_NAME_BYTES : Z := 64.
Definition SLOT_PURPOSE_PREFIX : str := lit "credential-slot/v1/".
Inductive CredentialSlotIdError :=
| SlotEmpty
| SlotTooLarge
| NonCanonical
| Encoding (source : SecretKeyError).
Record CredentialSlotId := mk_slot { scope : AccountScope; slot : str; secret_key : SecretKey }.
Definition validate_slot_name (value : str) : Result CredentialSlotIdError unit :=
  if is_empty value then Err SlotEmpty else
  if MAX_CREDENTIAL_SLOT_NAME_BYTES <? str_len value then Err SlotTooLarge else
  if existsb (λ component, is_empty component
       || negb (forallb (λ byte, is_ascii_lower byte || is_ascii_digit byte) (as_bytes component)))
     (split_bytes 45 value)
  then Err NonCanonical else Ok tt.
Definition slot_new (scope : AccountScope) (slot : str) : Result CredentialSlotIdError CredentialSlotId :=
  validate_slot_name slot ;;
  let purpose := SLOT_PURPOSE_PREFIX ++ ProviderInstanceId.as_str (AccountScope.instance scope) ++ lit "/" ++ slot in
  secret_key ← map_err Encoding (secret_key_new (ProviderId.as_str (AccountScope.provider scope))
                                   (AccountKey.as_str (AccountScope.account scope)) purpose);
  Ok (mk_slot scope slot secret_key).

(** ** precedence.rs *)

Inductive CredentialSource :=
| OneShotOverride | Environment | SecretService | ProviderOwnedFile | BrowserSession | ProviderCli.
#[global] Instance CredentialSource_eq_dec : EqDecision CredentialSource.
Proof. solve_decision. Defined.
Definition source_rank (s : CredentialSource) : Z :=
  match s with
  | OneShotOverride => 0 | Environment => 1 | SecretService => 2 | ProviderOwnedFile => 3
  | BrowserSession => 4 | ProviderCli => 5
  end.
Inductive CredentialPersistence := Persistable | Ephemeral.
#[global] Instance CredentialPersistence_eq_dec : EqDecision CredentialPersistence.
Proof. solve_decision. Defined.
Record CredentialCandidate := mk_candidate { source : CredentialSource; secret : SecretValue }.
Definition from_environment (value : option str) : Result SecretValueError (option CredentialCandidate) :=
  (λ secret : option SecretValue, mk_candidate Environment <$> secret)
  <$> traverse_option (λ v, secret_value_new (as_bytes v)) value.
Record ResolvedCredential := mk_resolved {
  resolved_source : CredentialSource;
  persistence : CredentialPersistence;
  resolved_secret : SecretValue;
}.
(** [Iterator::min_by_key]: the first of the least. *)
Definition min_by_rank (candidates : list CredentialCandidate) : option CredentialCandidate :=
  match candidates with
  | [] => None
  | c :: rest => Some (foldl (λ best c, if source_rank (source c) <? source_rank (source best) then c else best) c rest)
  end.
Definition resolve (candidates : list CredentialCandidate) : option ResolvedCredential :=
  (λ c, mk_resolved (source c)
          (if bool_decide (source c = Environment) then Ephemeral else Persistable) (secret c))
  <$> min_by_rank candidates.

Inductive CredentialPersistenceError := EphemeralSource | StoreError (source : SecretStoreError).
(** [put] is the store's. *)
Definition persist_resolved {S} (put : SecretKey → SecretValue → S → S * Result SecretStoreError unit)
    (key : SecretKey) (credential : ResolvedCredential) (s : S) : S * Result CredentialPersistenceError unit :=
  if bool_decide (persistence credential = Ephemeral) then (s, Err EphemeralSource) else
  let '(s, r) := put key (resolved_secret credential) s in (s, map_err StoreError r).

(** ** redaction.rs *)

Definition REDACTION_MARKER : str := lit "[REDACTED]".
(** [str::replace] of a non-empty needle. *)
Fixpoint replace (fuel : nat) (needle marker text : str) : str :=
  match fuel with
  | O => text
  | S fuel =>
      match split_once needle text with
      | None => text
      | Some (before, after) => before ++ marker ++ replace fuel needle marker after
      end
  end.
(** [str::from_utf8]: the text whose bytes these are. *)
Class Utf8 := from_utf8 : list Z → option str.
Definition redact_text `{Utf8} (text : str) (secrets : list SecretValue) : str :=
  foldl (λ redacted s, match from_utf8 (expose_secret s) with
    | Some needle => replace (S (length redacted)) needle REDACTION_MARKER redacted
    | None => redacted
    end) text secrets.

(** ** protected_file.rs *)

Definition PROTECTED_FILE_NAME : str := lit "protected-credentials.json".
Definition DOCUMENT_VERSION : Z := 1.
Definition MAX_DOCUMENT_BYTES : Z := 8 * 1024 * 1024.
Definition MAX_ENTRIES : Z := 64.

Inductive ProtectedFileError :=
| DedicatedNameRequired
| InvalidDocument
| TooManyEntries
| OperationPoisoned
| Storage (source : AtomicWriteError).
Record ProtectedEntry := mk_entry {
  entry_provider : str;
  entry_account : str;
  entry_purpose : str;
  entry_secret : list Z;
}.
Record ProtectedDocument := mk_document { version : Z; document_entries : list ProtectedEntry }.
Definition document_default : ProtectedDocument := mk_document DOCUMENT_VERSION [].
(** [serde_json::to_vec] and [from_slice] of the document. *)
Class DocumentJson := {
  document_to_vec : ProtectedDocument → option (list Z);
  document_from_slice : list Z → option ProtectedDocument;
}.

Definition entry_matches (key : SecretKey) (e : ProtectedEntry) : bool :=
  bool_decide (entry_provider e = provider key) && bool_decide (entry_account e = account key)
  && bool_decide (entry_purpose e = purpose key).
Definition same_identity (e other : ProtectedEntry) : bool :=
  bool_decide (entry_provider e = entry_provider other) && bool_decide (entry_account e = entry_account other)
  && bool_decide (entry_purpose e = entry_purpose other).
Definition entry_validate (e : ProtectedEntry) : Result ProtectedFileError unit :=
  map_err (λ _, InvalidDocument) (secret_key_new (entry_provider e) (entry_account e) (entry_purpose e)) ;;
  map_err (λ _, InvalidDocument) (secret_value_new (entry_secret e)) ;;
  Ok tt.
Fixpoint validate_entries (previous l : list ProtectedEntry) : Result ProtectedFileError unit :=
  match l with
  | [] => Ok tt
  | e :: l =>
      entry_validate e ;;
      if existsb (λ p, same_identity p e) previous then Err InvalidDocument
      else validate_entries (previous ++ [e]) l
  end.
Definition document_validate (d : ProtectedDocument) : Result ProtectedFileError unit :=
  if negb (version d =? DOCUMENT_VERSION) || (MAX_ENTRIES <? count (document_entries d)) then Err InvalidDocument
  else validate_entries [] (document_entries d).

Definition entry_order (e : ProtectedEntry) : list Z * list Z * list Z :=
  (as_bytes (entry_provider e), as_bytes (entry_account e), as_bytes (entry_purpose e)).

Section store.
Context `{DocumentJson}.
Notation PF := (IO ProtectedFileError).
Definition from_storage {A} (m : IO AtomicWriteError A) : PF A := io_map_err Storage m.
Definition pf_result {A} (r : Result ProtectedFileError A) : PF A := Ret r.

(** [ProtectedFileStore::open]; [file_name] is what [Path::file_name] gives. *)
Definition protected_open (path : list Z) (file_name : option (list Z)) : Result ProtectedFileError (list Z) :=
  if negb (is_absolute path) || negb (bool_decide (file_name = Some PROTECTED_FILE_NAME))
  then Err DedicatedNameRequired else Ok path.
Definition load (path : list Z) : PF ProtectedDocument :=
  contents ← from_storage (read_private_file path MAX_DOCUMENT_BYTES);
  match contents with
  | None => mret document_default
  | Some contents =>
      document ← pf_result (ok_or (document_from_slice contents) InvalidDocument);
      pf_result (document_validate document) ;;
      mret document
  end.
Definition save (path : list Z) (document : ProtectedDocument) : PF unit :=
  let document := mk_document (version document) (sort_by_key entry_order (document_entries document)) in
  contents ← pf_result (ok_or (document_to_vec document) InvalidDocument);
  if MAX_DOCUMENT_BYTES <? count contents then io_fail TooManyEntries else
  from_storage (atomic_write_without_predecessor path contents).

(** [find] and the replacement of the first match. *)
Fixpoint replace_secret (key : SecretKey) (secret : list Z) (l : list ProtectedEntry) : option (list ProtectedEntry) :=
  match l with
  | [] => None
  | e :: l =>
      if entry_matches key e
      then Some (mk_entry (entry_provider e) (entry_account e) (entry_purpose e) secret :: l)
      else cons e <$> replace_secret key secret l
  end.
(** [poisoned]: whether an earlier panic poisoned the mutex. *)
Definition with_operation {A} (poisoned : bool) (m : PF A) : PF A :=
  if poisoned then io_fail OperationPoisoned else m.
Definition get_sync (poisoned : bool) (path : list Z) (key : SecretKey) : PF (option SecretValue) :=
  with_operation poisoned (
    document ← load path;
    match head (filter (λ e, entry_matches key e = true) (document_entries document)) with
    | None => mret None
    | Some e => pf_result (Some <$> map_err (λ _, InvalidDocument) (secret_value_new (entry_secret e)))
    end).
Definition put_entries (key : SecretKey) (secret : SecretValue) (l : list ProtectedEntry) :
    Result ProtectedFileError (list ProtectedEntry) :=
  match replace_secret key (expose_secret secret) l with
  | Some l => Ok l
  | None =>
      if MAX_ENTRIES <=? count l then Err TooManyEntries
      else Ok (l ++ [mk_entry (provider key) (account key) (purpose key) (expose_secret secret)])
  end.
Definition put_sync (poisoned : bool) (path : list Z) (key : SecretKey) (secret : SecretValue) : PF unit :=
  with_operation poisoned (
    document ← load path;
    entries ← pf_result (put_entries key secret (document_entries document));
    save path (mk_document (version document) entries)).
Definition delete_sync (poisoned : bool) (path : list Z) (key : SecretKey) : PF unit :=
  with_operation poisoned (
    document ← load path;
    let kept := filter (λ e, entry_matches key e = false) (document_entries document) in
    if negb (count kept =? count (document_entries document))
    then save path (mk_document (version document) kept) else mret tt).
(** [impl SecretStore for ProtectedFileStore] *)
Definition get_error (error : ProtectedFileError) : SecretStoreError :=
  match error with InvalidDocument => InvalidData | _ => Operation end.
Definition store_get (poisoned : bool) (path : list Z) (key : SecretKey) : IO SecretStoreError (option SecretValue) :=
  io_map_err get_error (get_sync poisoned path key).
Definition store_put (poisoned : bool) (path : list Z) (key : SecretKey) (secret : SecretValue) : IO SecretStoreError unit :=
  io_map_err (λ _, Operation) (put_sync poisoned path key secret).
Definition store_delete (poisoned : bool) (path : list Z) (key : SecretKey) : IO SecretStoreError unit :=
  io_map_err (λ _, Operation) (delete_sync poisoned path key).
End store.
