(* ===== verification/CredentialsFacts.v ===== *)
(** * Credentials: what the stores and the resolution promise

    The protected-file store as a durable map from keys to secrets, over any
    documented operating system; the credential that wins; slots and their
    keys; the batch read of the Secret Service. *)
From stdpp Require Import gmap countable sorting prelude.
From S2P Require Import Prelude Ordering Text Externals Scope Config AtomicFile AtomicFileFacts AtomicFileSpec Credentials.
Local Open Scope Z_scope.

(** ** The document as a map *)

Definition key_of (e : ProtectedEntry) : SecretKey :=
  mk_key (entry_provider e) (entry_account e) (entry_purpose e).
Definition secrets_of (l : list ProtectedEntry) : gmap SecretKey (list Z) :=
  list_to_map ((λ e, (key_of e, entry_secret e)) <$> l).
(** Entries a document may hold. *)
Record entry_ok (e : ProtectedEntry) : Prop := {
  ok_key : secret_key_new (entry_provider e) (entry_account e) (entry_purpose e) = Ok (key_of e);
  ok_secret : secret_value_new (entry_secret e) = Ok (mk_secret (entry_secret e));
}.
Record entries_ok (l : list ProtectedEntry) : Prop := {
  ok_count : count l ≤ MAX_ENTRIES;
  ok_each : Forall entry_ok l;
  ok_distinct : NoDup (key_of <$> l);
}.

Lemma secret_key_new_Ok p a q k : secret_key_new p a q = Ok k → k = mk_key p a q.
Proof.
  assert (Hf : ∀ v w, checked_key_field v = Ok w → w = v).
  { intros v w. unfold checked_key_field. destruct (is_empty v); [done|]. destruct (_ <? _); [done|].
    destruct (existsb _ _); [done|]. by intros [= <-]. }
  unfold secret_key_new. intros H. result_inv. apply Hf in Hm, Hm0, Hm1. by subst.
Qed.
Lemma secret_value_new_Ok v s : secret_value_new v = Ok s → s = mk_secret v.
Proof. unfold secret_value_new. destruct (is_empty v); [done|]. destruct (_ <? _); [done|]. by intros [= <-]. Qed.
Lemma entry_validate_Ok e u : entry_validate e = Ok u ↔ entry_ok e.
Proof.
  unfold entry_validate. split.
  - intros H. result_inv. pose proof (secret_key_new_Ok _ _ _ _ Hm) as ->. pose proof (secret_value_new_Ok _ _ Hm0) as ->.
    by split.
  - intros [-> ->]. by destruct u.
Qed.
Lemma same_identity_true e e' : same_identity e e' = true ↔ key_of e = key_of e'.
Proof.
  unfold same_identity, key_of. rewrite !andb_true_iff, !bool_decide_eq_true.
  split; [by intros [[-> ->] ->]|by intros [= -> -> ->]].
Qed.
Lemma entry_matches_true k e : entry_matches k e = true ↔ key_of e = k.
Proof.
  unfold entry_matches, key_of. rewrite !andb_true_iff, !bool_decide_eq_true. destruct k; cbn.
  split; [by intros [[-> ->] ->]|by intros [= -> -> ->]].
Qed.
Lemma validate_entries_Ok previous l u :
  validate_entries previous l = Ok u ↔
  Forall entry_ok l ∧ NoDup (key_of <$> l) ∧ ∀ p e, p ∈ previous → e ∈ l → key_of p ≠ key_of e.
Proof.
  revert previous. induction l as [|e l IH]; intros previous; cbn.
  { split; [|by destruct u]. intros _. split; [done|]. split; [constructor|]. by intros p e _ ?%elem_of_nil. }
  assert (Hx : existsb (λ p, same_identity p e) previous = false ↔ ∀ p, p ∈ previous → key_of p ≠ key_of e).
  { rewrite existsb_false, Forall_forall. split; intros Hp p Hin.
    - rewrite <-same_identity_true. by rewrite (Hp p Hin).
    - apply not_true_is_false. rewrite same_identity_true. by apply Hp. }
  split.
  - intros (v & Hv & Hl)%bind_Ok. destruct (existsb _ _) eqn:He; [done|]. apply IH in Hl as (Hall & Hnd & Hp).
    apply entry_validate_Ok in Hv. split; [by constructor|]. split.
    + constructor; [|done]. intros (e' & Hk & Hin)%list_elem_of_fmap. apply (Hp e e'); [set_solver|done|done].
    + intros p e' Hin [->|Hl]%elem_of_cons; [by apply Hx|]. apply Hp; [set_solver|done].
  - intros (Hall & Hnd & Hp). apply Forall_cons in Hall as [Hok Hall]. apply NoDup_cons in Hnd as [Hn Hnd].
    rewrite (proj2 (entry_validate_Ok e tt) Hok). cbn.
    rewrite (proj2 Hx); [|intros p Hin; apply Hp; [done|by left]].
    apply IH. split; [done|]. split; [done|]. intros p e' [Hin| ->%list_elem_of_singleton]%elem_of_app Hl.
    + apply Hp; [done|by right].
    + intros Hk. apply Hn. rewrite Hk. by apply list_elem_of_fmap_2.
Qed.
Lemma document_validate_Ok d u : document_validate d = Ok u ↔ version d = DOCUMENT_VERSION ∧ entries_ok (document_entries d).
Proof.
  unfold document_validate. destruct (Z.eqb_spec (version d) DOCUMENT_VERSION) as [Hv|Hv]; cbn; [|naive_solver].
  destruct (Z.ltb_spec MAX_ENTRIES (count (document_entries d))) as [Hc|Hc].
  { split; [done|]. intros [_ [? _ _]]. lia. }
  rewrite validate_entries_Ok. split.
  - intros (? & ? & _). by split.
  - intros [_ [_ ? ?]]. split; [done|]. split; [done|]. by intros p e ?%elem_of_nil.
Qed.

Lemma secrets_of_cons e l : secrets_of (e :: l) = <[key_of e := entry_secret e]> (secrets_of l).
Proof. done. Qed.
Lemma secrets_of_None k l : k ∉ key_of <$> l → secrets_of l !! k = None.
Proof.
  intros Hk. apply not_elem_of_list_to_map. intros Hin. apply Hk.
  by rewrite <-list_fmap_compose in Hin.
Qed.
Lemma secrets_of_perm l l' : NoDup (key_of <$> l) → l ≡ₚ l' → secrets_of l = secrets_of l'.
Proof.
  intros Hnd Hp. apply list_to_map_proper; [|by rewrite Hp]. by rewrite <-list_fmap_compose.
Qed.
Lemma entries_ok_perm l l' : l ≡ₚ l' → entries_ok l → entries_ok l'.
Proof. intros Hp [Hc He Hd]. split; [|by rewrite <-Hp|by rewrite <-Hp]. unfold count in *. by rewrite <-Hp. Qed.

(** ** Lookup, replacement and removal of an entry *)

Lemma find_entry k l : NoDup (key_of <$> l) →
  entry_secret <$> head (filter (λ e, entry_matches k e = true) l) = secrets_of l !! k.
Proof.
  induction l as [|e l IH]; intros Hnd; [done|]. apply NoDup_cons in Hnd as [Hn Hnd]. rewrite secrets_of_cons.
  destruct (decide (key_of e = k)) as [<-|Hne].
  - rewrite filter_cons_True by by apply entry_matches_true. by rewrite lookup_insert_eq.
  - rewrite filter_cons_False by (by rewrite entry_matches_true). rewrite lookup_insert_ne by done. by apply IH.
Qed.
Lemma replace_secret_Some k v l l' : NoDup (key_of <$> l) → replace_secret k v l = Some l' →
  key_of <$> l' = key_of <$> l ∧ length l' = length l ∧ secrets_of l' = <[k := v]> (secrets_of l) ∧
  ∀ e, e ∈ l' → e ∈ l ∨ key_of e = k ∧ entry_secret e = v.
Proof.
  revert l'. induction l as [|e l IH]; intros l' Hnd Hr; [done|]. apply NoDup_cons in Hnd as [Hn Hnd]. cbn in Hr.
  destruct (entry_matches k e) eqn:He.
  - apply entry_matches_true in He as <-. injection Hr as <-. rewrite !secrets_of_cons, !insert_insert_eq.
    split; [done|]. split; [done|]. split; [done|]. intros e' [->|?]%elem_of_cons; [by right|left; by right].
  - assert (key_of e ≠ k) as Hne by (rewrite <-entry_matches_true; by rewrite He).
    apply fmap_Some in Hr as (l1 & H1 & ->). destruct (IH l1 Hnd H1) as (Hk & Hl & Hm & Hin).
    rewrite !fmap_cons, Hk, !secrets_of_cons, Hm. split; [done|]. split; [cbn; by rewrite Hl|].
    split; [by rewrite insert_insert_ne|].
    intros e' [->|He']%elem_of_cons; [left; by left|]. destruct (Hin e' He'); [left; by right|by right].
Qed.
Lemma replace_secret_None k v l : replace_secret k v l = None → k ∉ key_of <$> l.
Proof.
  induction l as [|e l IH]; [intros _; apply not_elem_of_nil|]. cbn. destruct (entry_matches k e) eqn:He; [done|].
  intros Hr%fmap_None. apply not_elem_of_cons. split; [|by apply IH].
  intros ->. by rewrite (proj2 (entry_matches_true _ e) eq_refl) in He.
Qed.
Lemma put_entries_ok k s l l' : secret_key_new (provider k) (account k) (purpose k) = Ok k →
  secret_value_new (expose_secret s) = Ok s → entries_ok l → put_entries k s l = Ok l' →
  entries_ok l' ∧ secrets_of l' = <[k := expose_secret s]> (secrets_of l).
Proof.
  intros Hk Hs [Hc He Hd] Hp. unfold put_entries in Hp.
  assert (Hok : ∀ e, key_of e = k → entry_secret e = expose_secret s → entry_ok e).
  { intros e Hke Hse. split; [|rewrite Hse, Hs; by destruct s].
    rewrite Hke. by rewrite <-Hk, <-Hke. }
  destruct (replace_secret k (expose_secret s) l) as [l1|] eqn:Hr.
  - injection Hp as <-. destruct (replace_secret_Some _ _ _ _ Hd Hr) as (Hks & Hl & Hm & Hin).
    split; [|done]. split; [unfold count in *; by rewrite Hl| |by rewrite Hks].
    apply Forall_forall. intros e [Hel|[Hke Hse]]%Hin; [|by apply Hok]. by eapply Forall_forall in He.
  - apply replace_secret_None in Hr. destruct (Z.leb_spec MAX_ENTRIES (count l)) as [|Hlt]; [done|].
    injection Hp as <-. set (e := mk_entry _ _ _ _). assert (Hke : key_of e = k) by (by destruct k).
    split; [|].
    + split.
      * unfold count in *. rewrite length_app. cbn. lia.
      * apply Forall_app. split; [done|]. apply Forall_singleton. by apply Hok.
      * rewrite fmap_app. cbn. rewrite Hke. apply NoDup_app. split; [done|].
        split; [|apply NoDup_singleton]. intros x Hx ->%list_elem_of_singleton. done.
    + rewrite <-Hke at 1. rewrite <-(secrets_of_cons e). apply secrets_of_perm.
      * rewrite fmap_app. cbn. rewrite Hke. apply NoDup_app. split; [done|].
        split; [|apply NoDup_singleton]. intros x Hx ->%list_elem_of_singleton. done.
      * by rewrite Permutation_app_comm.
Qed.
Lemma delete_entries_ok k l : entries_ok l →
  entries_ok (filter (λ e, entry_matches k e = false) l) ∧
  secrets_of (filter (λ e, entry_matches k e = false) l) = delete k (secrets_of l).
Proof.
  intros [Hc He Hd]. split.
  - split.
    + unfold count in *. pose proof (length_filter (λ e, entry_matches k e = false) l). lia.
    + apply Forall_forall. intros e [_ Hin]%list_elem_of_filter. by eapply Forall_forall in He.
    + eapply sublist_NoDup; [exact Hd|]. apply fmap_sublist, sublist_filter.
  - clear Hc He. induction l as [|e l IH]; [symmetry; apply delete_empty|]. apply NoDup_cons in Hd as [Hn Hd].
    rewrite secrets_of_cons. destruct (entry_matches k e) eqn:Hm.
    + rewrite filter_cons_False by by rewrite Hm. apply entry_matches_true in Hm as <-.
      rewrite delete_insert_eq. by apply IH.
    + rewrite filter_cons_True by done. rewrite secrets_of_cons, IH by done.
      rewrite delete_insert_ne; [done|]. intros Hke. by rewrite (proj2 (entry_matches_true k e) (eq_sym Hke)) in Hm.
Qed.

(** ** The file *)

Section store.
Context `{DocumentJson}.
(** [from_slice] reads back what [to_vec] writes. *)
Context (Hjson : ∀ d l, document_to_vec d = Some l → document_from_slice l = Some d).

(** What [load] makes of the file's contents, and the secrets it then has. *)
Definition document_of (o : option (list Z)) : Result ProtectedFileError ProtectedDocument :=
  match o with
  | None => Ok document_default
  | Some contents =>
      if MAX_DOCUMENT_BYTES <? count contents then Err InvalidDocument else
      document ← ok_or (document_from_slice contents) InvalidDocument;
      document_validate document ;;
      Ok document
  end.
Definition holds (o : option (list Z)) (m : gmap SecretKey (list Z)) : Prop :=
  ∃ d, document_of o = Ok d ∧ secrets_of (document_entries d) = m.
(** A store at rest with the secrets [m]. *)
Definition stored (target : Name) (fs : Fs) (m : gmap SecretKey (list Z)) : Prop :=
  at_rest target fs ∧ holds (read_entry fs target) m.
Definition sorted_document (d : ProtectedDocument) : ProtectedDocument :=
  mk_document (version d) (sort_by_key entry_order (document_entries d)).
Definition saved (d : ProtectedDocument) (contents : list Z) : Prop :=
  document_to_vec (sorted_document d) = Some contents ∧ count contents ≤ MAX_DOCUMENT_BYTES.

Lemma document_of_ok o d : document_of o = Ok d → version d = DOCUMENT_VERSION ∧ entries_ok (document_entries d).
Proof.
  destruct o as [c|]; cbn.
  - destruct (_ <? _); [done|]. intros (d' & _ & (u & Hu & [= <-])%bind_Ok)%bind_Ok. by eapply document_validate_Ok.
  - intros [= <-]. split; [done|]. split; [done|by constructor|constructor].
Qed.
Lemma saved_holds d c : version d = DOCUMENT_VERSION → entries_ok (document_entries d) → saved d c →
  holds (Some c) (secrets_of (document_entries d)).
Proof.
  intros Hv Hok [Hc Hl]. exists (sorted_document d). pose proof (sort_by_key_perm entry_order (document_entries d)) as Hp.
  split.
  - cbn. destruct (Z.ltb_spec MAX_DOCUMENT_BYTES (count c)); [lia|]. rewrite (Hjson _ _ Hc). cbn.
    rewrite (proj2 (document_validate_Ok _ tt)); [done|]. split; [done|]. by eapply entries_ok_perm.
  - symmetry. apply secrets_of_perm; [apply Hok|by symmetry].
Qed.

Section at_rest.
Context (path : list Z) (T : Name) (fs0 : Fs).
Context (Hpath : names path T) (Hrest : at_rest T fs0).
Local Notation Kept fresh := (Keeps T (entries fs0 !! T) (held0 T fs0) fresh).

Lemma fwp_load : fwp (Kept (λ _ _, False)) (load path)
  (λ r _, ∀ d, r = Ok d → document_of (read_entry fs0 T) = Ok d) fs0.
Proof.
  unfold load. eapply (fwp_step _ _ _ (λ r _, ∀ o, r = Ok o → o = read_entry fs0 T ∧ ∀ l, o = Some l → count l ≤ MAX_DOCUMENT_BYTES)).
  { apply fwp_map_err. eapply fwp_mono; [by apply (fwp_read_private T fs0 path MAX_DOCUMENT_BYTES)|].
    intros r fs' _ Hr o Ho%map_err_Ok. by apply Hr. }
  2:{ intros e fs' _ _ d [=]. }
  intros o fs1 HJ Ho. destruct (Ho o eq_refl) as [<- Hlen]. destruct o as [c|]; [|by apply fwp_ret; [|by intros d [= <-]]].
  unfold document_of. specialize (Hlen c eq_refl). destruct (Z.ltb_spec MAX_DOCUMENT_BYTES (count c)); [lia|].
  destruct (document_from_slice c) as [d|]; cbn; [|by split].
  destruct (document_validate d) as [u|e]; cbn; [|by split]. split; [done|]. by intros d' [= <-].
Qed.
Lemma fwp_save d : fwp (Kept (λ _ c, saved d c)) (save path d)
  (λ r fs', r = Ok tt → ∃ c, saved d c ∧ at_rest T fs' ∧ read_entry fs' T = Some c) fs0.
Proof.
  assert (HJ : ∀ fresh, Kept fresh fs0).
  { intros fresh. destruct (keeps_initial _ _ Hrest) as [Hn Hu Hh]. split; [done| |done].
    intros e He. destruct (Hu e He) as [?|(i & c & _ & [] & _)]. by left. }
  unfold save. change (mk_document _ _) with (sorted_document d).
  destruct (document_to_vec (sorted_document d)) as [c|] eqn:Hc; cbn -[from_storage]; [|by split].
  destruct (Z.ltb_spec MAX_DOCUMENT_BYTES (count c)) as [|Hl]; [by split|].
  apply fwp_map_err. eapply fwp_mono.
  - eapply fwp_weaken; [|by apply (fwp_without_predecessor T c fs0 path)].
    intros fs [Hn Hu Hh]. split; [done| |done]. intros e He. destruct (Hu e He) as [?|(i & c' & Hi & -> & Hd)]; [by left|].
    right. by exists i, c.
  - intros r fs' _ Hr Hok. destruct r as [[]|e]; [|done]. destruct (Hr eq_refl) as (j & Hset & Hd & _). exists c.
    split; [done|]. split; [by eapply settled_at_rest|]. eapply read_durable_at; [apply Hset|done].
Qed.
End at_rest.

(** An operation that loads the document, and fails, stops or saves another. *)
Section update.
Context (path : list Z) (T : Name) (k : ProtectedDocument → IO ProtectedFileError unit).
Context (g : gmap SecretKey (list Z) → gmap SecretKey (list Z)).
Definition updates (d : ProtectedDocument) : Prop :=
  (∃ e, k d = Ret (Err e)) ∨ (k d = Ret (Ok tt) ∧ g (secrets_of (document_entries d)) = secrets_of (document_entries d)) ∨
  ∃ d', k d = save path d' ∧ version d' = DOCUMENT_VERSION ∧ entries_ok (document_entries d') ∧
        secrets_of (document_entries d') = g (secrets_of (document_entries d)).
Context (Hk : ∀ d, version d = DOCUMENT_VERSION → entries_ok (document_entries d) → updates d).

Lemma fwp_update fs0 m : names path T → stored T fs0 m →
  fwp (Keeps T (entries fs0 !! T) (held0 T fs0) (λ _ c, holds (Some c) (g m))) (load path ≫= k)
    (λ r fs', r = Ok tt → stored T fs' (g m)) fs0.
Proof.
  intros Hpath [Hrest (d & Hd & <-)]. destruct (document_of_ok _ _ Hd) as [Hv Hok].
  assert (Hw : ∀ fs, Keeps T (entries fs0 !! T) (held0 T fs0) (λ _ _, False) fs →
    Keeps T (entries fs0 !! T) (held0 T fs0) (λ _ c, holds (Some c) (g (secrets_of (document_entries d)))) fs).
  { intros fs [Hn Hu Hh]. split; [done| |done]. intros e He. destruct (Hu e He) as [?|(i & c & _ & [] & _)]. by left. }
  eapply fwp_step.
  { eapply fwp_weaken; [exact Hw|]. eapply fwp_mono; [by apply (fwp_load path T fs0)|].
    intros r fs' HJ Hr. exact (conj HJ Hr). }
  2:{ done. }
  intros d' fs1 _ [HJ Hd']. specialize (Hd' d' eq_refl). assert (d' = d) as -> by congruence.
  destruct (keeps_at_rest _ _ _ Hrest HJ) as [Hrest1 Hread].
  destruct (Hk d Hv Hok) as [[e ->]|[[-> Hg]|(d1 & -> & Hv1 & Hok1 & Hs1)]].
  - by apply fwp_ret; [apply Hw|].
  - apply fwp_ret; [by apply Hw|]. intros _. split; [done|]. rewrite Hread, Hg. by exists d.
  - eapply fwp_mono; [eapply fwp_weaken; [|by apply (fwp_save path T fs1)]|].
    + intros fs HK. eapply keeps_later in HK; [|done]. destruct HK as [Hn Hu Hh]. split; [done| |done].
      intros e He. destruct (Hu e He) as [?|(i & c & Hi & Hsv & Hdur)]; [by left|]. right. exists i, c.
      split; [done|]. split; [|done]. rewrite <-Hs1. by apply saved_holds.
    + intros r fs' _ Hr Hrok. destruct (Hr Hrok) as (c & Hsv & Hrest' & Hread'). split; [done|].
      rewrite Hread', <-Hs1. by apply saved_holds.
Qed.
Lemma update_spec sys fs0 m p fs : documented sys → names path T → stored T fs0 m →
  exec sys (load path ≫= k) fs0 p fs →
  (p = Ret (Ok tt) → stored T fs (g m)) ∧
  ∀ image, crash fs image → holds (image_read image T) m ∨ holds (image_read image T) (g m).
Proof.
  intros Hsys Hpath Hst Hx. destruct (fwp_exec _ _ _ _ _ _ _ Hsys (fwp_update _ _ Hpath Hst) Hx) as [HI HQ].
  split; [intros ->; by apply (HQ _ eq_refl)|]. intros image Hc. destruct Hst as [Hrest Hm].
  destruct (safe_crash _ _ _ _ _ Hrest HI Hc) as [->|(i & c & Hh & -> & _)]; [by left|by right].
Qed.
End update.
End store.
