(* ===== verification/CredentialsSpec.v ===== *)
(** * Credentials: the guarantees

    The protected-file store refines a map; which credential wins, and which
    are never stored; slots have distinct keys; a batch read is exact. *)
From stdpp Require Import gmap countable sorting prelude.
From S2P Require Import Prelude Ordering Text Externals Scope Config AtomicFile AtomicFileFacts AtomicFileSpec Credentials CredentialsFacts.
Local Open Scope Z_scope.

(** ** The store *)

Lemma exec_ret {A} sys (a : A) fs p fs' : exec sys (Ret a) fs p fs' → p = Ret a ∧ fs' = fs.
Proof. by inversion 1. Qed.

Section store.
Context `{DocumentJson}.
Lemma fwp_get path T key fs0 m : names path T → stored T fs0 m →
  fwp (Keeps T (entries fs0 !! T) (held0 T fs0) (λ _ _, False)) (get_sync false path key)
    (λ r _, ∀ o, r = Ok o → o = mk_secret <$> m !! key) fs0.
Proof.
  intros Hpath [Hrest (d & Hd & <-)]. destruct (document_of_ok _ _ Hd) as [_ Hok].
  unfold get_sync, with_operation. eapply fwp_step; [by apply (fwp_load path T fs0)| |].
  2:{ intros e fs' _ _ o [=]. }
  intros d' fs1 HJ Hd'. specialize (Hd' d' eq_refl). assert (d' = d) as -> by congruence.
  rewrite <-(find_entry key _ (ok_distinct _ Hok)).
  destruct (head _) as [e|] eqn:Hh; cbn; (split; [done|]).
  - intros o Ho. apply fmap_Ok in Ho as (s & Hs%map_err_Ok%secret_value_new_Ok & <-). by subst.
  - by intros o [= <-].
Qed.
Lemma put_updates key secret path d :
  secret_key_new (provider key) (account key) (purpose key) = Ok key →
  secret_value_new (expose_secret secret) = Ok secret →
  version d = DOCUMENT_VERSION → entries_ok (document_entries d) →
  updates path (λ document,
    entries ← pf_result (put_entries key secret (document_entries document));
    save path (mk_document (version document) entries)) <[key := expose_secret secret]> d.
Proof.
  intros Hk Hs Hv Hok. destruct (put_entries key secret (document_entries d)) as [l|e] eqn:Hp.
  - right. right. exists (mk_document (version d) l). unfold pf_result. rewrite Hp.
    split; [done|]. split; [done|]. by apply put_entries_ok.
  - left. exists e. unfold pf_result. by rewrite Hp.
Qed.
Lemma filter_all_count {A} (P : A → Prop) `{∀ x, Decision (P x)} (l : list A) :
  count (filter P l) = count l → filter P l = l.
Proof.
  induction l as [|x l IH]; [done|]. unfold count in *. rewrite filter_cons. case_decide; cbn; intros Hc.
  - f_equal. apply IH. lia.
  - pose proof (length_filter P l). lia.
Qed.
Lemma delete_updates key path d :
  version d = DOCUMENT_VERSION → entries_ok (document_entries d) →
  updates path (λ document,
    let kept := filter (λ e, entry_matches key e = false) (document_entries document) in
    if negb (count kept =? count (document_entries document))
    then save path (mk_document (version document) kept) else mret tt) (delete key) d.
Proof.
  intros Hv Hok. destruct (delete_entries_ok key _ Hok) as [Hok' Hs]. unfold updates. cbv beta zeta.
  destruct (Z.eqb_spec (count (filter (λ e, entry_matches key e = false) (document_entries d))) (count (document_entries d)))
    as [Hc|Hc]; cbn [negb].
  - right. left. split; [done|]. by rewrite <-Hs, filter_all_count.
  - right. right. by eexists (mk_document (version d) _).
Qed.

(** C3. Over an operating system whose calls may fail and stop anywhere, the
    protected file is a durable map: an answer of [get] is the map's; [put] and
    [delete] that return without an error have updated it; and after a crash at any
    moment the file holds the map of before or the updated one, whole. *)
Theorem protected_file_refines_map (Hjson : ∀ d l, document_to_vec d = Some l → document_from_slice l = Some d)
    sys path target poisoned key fs p fs' m :
  documented sys → names path target → stored target fs m →
  secret_key_new (provider key) (account key) (purpose key) = Ok key →
  (exec sys (get_sync poisoned path key) fs p fs' →
     stored target fs' m ∧ ∀ o, p = Ret (Ok o) → o = mk_secret <$> m !! key) ∧
  (∀ q secret, secret_value_new (expose_secret secret) = Ok secret →
     exec sys (put_sync poisoned path key secret) fs q fs' →
     (q = Ret (Ok tt) → stored target fs' (<[key := expose_secret secret]> m)) ∧
     ∀ image, crash fs' image → holds (image_read image target) m ∨
                                holds (image_read image target) (<[key := expose_secret secret]> m)) ∧
  (∀ q, exec sys (delete_sync poisoned path key) fs q fs' →
     (q = Ret (Ok tt) → stored target fs' (delete key m)) ∧
     ∀ image, crash fs' image → holds (image_read image target) m ∨ holds (image_read image target) (delete key m)).
Proof.
  intros Hsys Hpath Hst Hkey.
  assert (Hfail : ∀ A g (q : Prog (Result ProtectedFileError A)),
    exec sys (io_fail OperationPoisoned) fs q fs' →
    (∀ a, q ≠ Ret (Ok a)) ∧ stored target fs' m ∧
    ∀ image, crash fs' image → holds (image_read image target) m ∨ holds (image_read image target) (g m)).
  { intros A g q [-> ->]%exec_ret. split; [done|]. split; [done|]. intros image Hc. left. destruct Hst as [Hrest Hm].
    by destruct (safe_crash _ _ _ _ _ Hrest (keeps_initial _ _ Hrest) Hc) as [->|(i & c & [] & _)]. }
  destruct poisoned; unfold put_sync, delete_sync.
  { split; [|split].
    - intros Hx. destruct (Hfail _ id _ Hx) as (Hp & Hs & _). split; [done|]. intros o ->. by destruct (Hp o).
    - intros q secret _ Hx. destruct (Hfail _ <[key := expose_secret secret]> _ Hx) as (Hp & _ & Hc).
      split; [|done]. intros ->. by destruct (Hp tt).
    - intros q Hx. destruct (Hfail _ (delete key) _ Hx) as (Hp & _ & Hc). split; [|done]. intros ->. by destruct (Hp tt). }
  split; [|split].
  - intros Hx. destruct (fwp_exec _ _ _ _ _ _ _ Hsys (fwp_get _ _ key _ _ Hpath Hst) Hx) as [HJ HQ].
    destruct Hst as [Hrest Hm]. destruct (keeps_at_rest _ _ _ Hrest HJ) as [Hrest' Hread].
    split; [split; [done|by rewrite Hread]|]. intros o ->. by apply (HQ _ eq_refl).
  - intros q secret Hs Hx. eapply (update_spec Hjson); [|done|done|done|exact Hx]. intros d. by apply put_updates.
  - intros q Hx. eapply (update_spec Hjson); [|done|done|done|exact Hx]. intros d. by apply delete_updates.
Qed.
End store.

(** ** Which credential *)

Lemma min_by_rank_spec c l :
  let best := foldl (λ best c, if source_rank (source c) <? source_rank (source best) then c else best) c l in
  (best = c ∨ best ∈ l) ∧ Forall (λ d, source_rank (source best) ≤ source_rank (source d)) (c :: l).
Proof.
  revert c. induction l as [|d l IH]; intros c; cbn zeta; cbn [foldl].
  { split; [by left|]. apply Forall_singleton. lia. }
  destruct (Z.ltb_spec (source_rank (source d)) (source_rank (source c))) as [Hlt|Hge].
  - destruct (IH d) as [Hin Hall]. split; [right; destruct Hin as [->|?]; [by left|by right]|].
    constructor; [|done]. apply Forall_cons in Hall as [? _]. lia.
  - destruct (IH c) as [Hin Hall]. split; [destruct Hin as [->|?]; [by left|right; by right]|].
    apply Forall_cons in Hall as [? Hall]. constructor; [done|]. constructor; [lia|done].
Qed.
Lemma resolve_Some l r : resolve l = Some r ↔ ∃ c, min_by_rank l = Some c ∧
  r = mk_resolved (source c) (if bool_decide (source c = Environment) then Ephemeral else Persistable) (secret c).
Proof. unfold resolve. by rewrite fmap_Some. Qed.
Lemma min_by_rank_Some l c : min_by_rank l = Some c →
  c ∈ l ∧ Forall (λ d, source_rank (source c) ≤ source_rank (source d)) l.
Proof.
  destruct l as [|c0 l]; [done|]. unfold min_by_rank. intros [= <-]. destruct (min_by_rank_spec c0 l) as [Hin Hall].
  split; [|done]. destruct Hin as [->|?]; [by left|by right].
Qed.
Lemma source_rank_inj s s' : source_rank s = source_rank s' → s = s'.
Proof. by destruct s, s'. Qed.

(** The credential that wins is of the least rank present, whatever the order
    the sources were consulted in; and what persisting it writes, if anything, is
    that very secret, never one that came from the environment. *)
Theorem environment_never_persisted {S} (put : SecretKey → SecretValue → S → S * Result SecretStoreError unit)
    key candidates candidates' r (s : S) :
  resolve candidates = Some r →
  (∃ c, c ∈ candidates ∧ source c = resolved_source r ∧ secret c = resolved_secret r ∧
        Forall (λ d, source_rank (source c) ≤ source_rank (source d)) candidates) ∧
  (NoDup (source <$> candidates) → candidates ≡ₚ candidates' → resolve candidates' = Some r) ∧
  persist_resolved put key r s =
    if bool_decide (resolved_source r = Environment) then (s, Err EphemeralSource)
    else ((put key (resolved_secret r) s).1, map_err StoreError (put key (resolved_secret r) s).2).
Proof.
  intros (c & Hc & ->)%resolve_Some. destruct (min_by_rank_Some _ _ Hc) as [Hin Hall]. cbn [resolved_source resolved_secret].
  split; [by exists c|]. split.
  - intros Hnd Hp. apply resolve_Some. exists c. split; [|done].
    assert (Hc' : ∃ c', min_by_rank candidates' = Some c').
    { destruct candidates' as [|c0 l]; [|by eexists]. by apply Permutation_nil_r in Hp as ->. }
    destruct Hc' as [c' Hc']. rewrite Hc'. f_equal. destruct (min_by_rank_Some _ _ Hc') as [Hin' Hall'].
    rewrite <-Hp in Hin'. assert (Hs : source c' = source c).
    { apply source_rank_inj. rewrite Hp in Hin. eapply Forall_forall in Hin; [|exact Hall'].
      eapply Forall_forall in Hin'; [|exact Hall]. cbn in *. lia. }
    apply list_elem_of_lookup in Hin as [i Hi], Hin' as [j Hj].
    assert (i = j) as ->; [|congruence]. eapply NoDup_lookup; [exact Hnd| |].
    + by rewrite list_lookup_fmap, Hi.
    + by rewrite list_lookup_fmap, Hj, <-Hs.
  - unfold persist_resolved. cbn [persistence resolved_secret].
    destruct (bool_decide (source c = Environment)); [done|]. cbn. by destruct (put key (secret c) s).
Qed.

(** ** Slots *)

Lemma validate_slot_Ok v u : validate_slot_name v = Ok u → 47 ∉ v.
Proof.
  unfold validate_slot_name. destruct (is_empty v); [done|]. destruct (_ <? _); [done|].
  destruct (existsb _ _) eqn:He; [done|]. intros _ Hin. rewrite existsb_false, Forall_forall in He.
  destruct (split_bytes_spec 45 v) as [Hc _]. assert (Hv : 47 ∈ concat (cons 45 <$> split_bytes 45 v)) by (rewrite Hc; by right).
  apply list_elem_of_In, in_concat in Hv as (part & Hp%list_elem_of_In & H47%list_elem_of_In).
  apply list_elem_of_fmap in Hp as (component & -> & Hp). apply elem_of_cons in H47 as [|H47]; [done|].
  specialize (He component Hp). apply orb_false_iff in He as [_ He%negb_false_iff].
  rewrite forallb_forall in He. specialize (He 47). cbn in He. exfalso.
  assert (Hb : In 47 (as_bytes component)); [|by specialize (He Hb)].
  apply list_elem_of_In, list_elem_of_bind. exists 47. split; [by left|done].
Qed.

(** Two slots that share a stored key are the same slot of the same account. *)
Theorem slots_have_distinct_keys scope scope' slot slot' a b :
  slot_new scope slot = Ok a → slot_new scope' slot' = Ok b → secret_key a = secret_key b →
  scope = scope' ∧ slot = slot'.
Proof.
  unfold slot_new. intros (u & Hu%validate_slot_Ok & (k & Hk%map_err_Ok%secret_key_new_Ok & [= <-])%bind_Ok)%bind_Ok
    (u' & Hu'%validate_slot_Ok & (k' & Hk'%map_err_Ok%secret_key_new_Ok & [= <-])%bind_Ok)%bind_Ok Hkk.
  cbn [secret_key] in Hkk. rewrite Hk, Hk' in Hkk. pose proof (f_equal purpose Hkk) as Hs.
  pose proof (f_equal account Hkk) as Ha. pose proof (f_equal provider Hkk) as Hp. cbn [purpose account provider] in Hs, Ha, Hp.
  apply app_inv_head in Hs. change (lit "/") with [47] in Hs.
  apply not_elem_of_app_cons_inv_r in Hs as (Hi & _ & ->); [|done..].
  split; [|done]. destruct scope as [p i a], scope' as [p' i' a']. cbn in *.
  apply (inj ProviderInstanceId.as_str) in Hi as ->. apply (inj AccountKey.as_str) in Ha as ->. f_equal.
  apply provider_bytes_inj. by rewrite Hp.
Qed.

(** ** The batch read *)

Definition answered (keys : list SecretKey) (item : KeyringItem) : option (SecretKey * SecretValue) :=
  attributes ← item_attributes item;
  key ← head (filter (λ key, item_matches attributes key = true) keys);
  secret ← item_secret item;
  Some (key, mk_secret secret).
Lemma batch_items_Ok keys seen values items r :
  (∀ k, k ∈ seen ↔ k ∈ values.*1) → NoDup values.*1 → batch_items keys seen values items = Ok r →
  r = values ++ omap (answered keys) items ∧ NoDup r.*1.
Proof.
  revert seen values. induction items as [|item items IH]; intros seen values Hs Hnd; cbn [batch_items].
  { intros [= <-]. by rewrite app_nil_r. }
  intros (u & _ & (l & Hl%ok_or_Ok & Hr)%bind_Ok)%bind_Ok. cbn [omap list_omap]. unfold answered at 1. rewrite Hl. cbn [mbind option_bind].
  destruct (head _) as [k|] eqn:Hk; cbn [option_bind mbind]; [|by eapply IH].
  case_bool_decide as Hin; [done|].
  apply bind_Ok in Hr as (s & Hsec%ok_or_Ok & (v & Hv%map_err_Ok%secret_value_new_Ok & Hr)%bind_Ok).
  rewrite Hsec. cbn [mbind option_bind]. subst v.
  destruct (IH (k :: seen) (values ++ [(k, mk_secret s)])) as [-> Hnd']; [| |exact Hr|].
  - intros k'. rewrite fmap_app, elem_of_app, elem_of_cons, Hs. cbn. rewrite list_elem_of_singleton. tauto.
  - rewrite fmap_app. apply NoDup_app. split; [done|]. split; [|apply NoDup_singleton].
    intros k' Hk' ->%list_elem_of_singleton. by apply Hin, Hs.
  - split; [by rewrite <-app_assoc|exact Hnd'].
Qed.
Lemma answered_Some keys item k v : answered keys item = Some (k, v) →
  k ∈ keys ∧ ∃ l, item_attributes item = Some l ∧ item_matches l k = true ∧ item_secret item = Some (expose_secret v).
Proof.
  unfold answered. intros (l & Hl & (k' & Hk & (s & Hs & [= <- <-])%bind_Some)%bind_Some)%bind_Some.
  destruct (filter _ keys) as [|k0 f] eqn:Hf; [done|]. injection Hk as ->.
  assert (Hin : k' ∈ filter (λ key, item_matches l key = true) keys) by (rewrite Hf; by left).
  apply list_elem_of_filter in Hin as [Hm Hin]. split; [done|]. by exists l.
Qed.

(** A batch read that succeeds was asked for distinct keys and gives, in the
    order of the items, the secret of each item that is exactly one of them, no key
    twice, and none it was not asked for. *)
Theorem batch_read_exact keys search values :
  get_many keys search = Ok values →
  NoDup keys ∧ NoDup values.*1 ∧
  ∃ items, search = Some items ∧ values = omap (answered keys) items ∧
    ∀ k v, (k, v) ∈ values → k ∈ keys ∧ ∃ item l, item ∈ items ∧ item_attributes item = Some l ∧
      item_matches l k = true ∧ item_secret item = Some (expose_secret v).
Proof.
  unfold get_many. destruct (_ || _) eqn:Hk; [done|]. apply orb_false_iff in Hk as [_ Hk%negb_false_iff%bool_decide_eq_true].
  intros (items & Hi%ok_or_Ok & Hv)%bind_Ok. destruct (_ <? _); [done|].
  apply batch_items_Ok in Hv as [-> Hnd]; [|done|constructor]. split; [done|]. split; [done|].
  exists items. split; [done|]. split; [done|]. intros k v (item & Hin & Ha)%list_elem_of_omap.
  destruct (answered_Some _ _ _ _ Ha) as (Hk' & l & Hl & Hm & Hs). split; [done|]. by exists item, l.
Qed.

(** ** Concrete inputs *)
Module CredentialsExample.
Import Undisturbed.
(** A document format with the property the store relies on. *)
#[local] Instance ProtectedEntry_eq_dec : EqDecision ProtectedEntry.
Proof. solve_decision. Defined.
#[local] Instance ProtectedEntry_countable : Countable ProtectedEntry.
Proof.
  apply (inj_countable' (λ e, (entry_provider e, entry_account e, entry_purpose e, entry_secret e))
    (λ t, mk_entry t.1.1.1 t.1.1.2 t.1.2 t.2)). by intros [].
Defined.
#[local] Instance ProtectedDocument_eq_dec : EqDecision ProtectedDocument.
Proof. solve_decision. Defined.
#[local] Instance ProtectedDocument_countable : Countable ProtectedDocument.
Proof.
  apply (inj_countable' (λ d, (version d, document_entries d)) (λ t, mk_document t.1 t.2)). by intros [].
Defined.
#[local] Instance document_json : DocumentJson := {|
  document_to_vec d := Some [Zpos (encode d)];
  document_from_slice l := match l with [Zpos p] => decode p | _ => None end;
|}.
Lemma document_json_ok d l : document_to_vec d = Some l → document_from_slice l = Some d.
Proof. intros [= <-]. apply decode_encode. Qed.

Definition key : SecretKey := mk_key [99] [97] [115].
Definition value : SecretValue := mk_secret [7; 8].
Definition empty_directory : Fs := mk_fs ∅ ∅ [∅] false 1000.
Definition stored_once : Fs := (run (put_sync false Runs.path key value) empty_directory).2.
Lemma put_run : exec system (put_sync false Runs.path key value) empty_directory (Ret (Ok tt)) stored_once.
Proof. unfold stored_once. apply run_exec. by vm_compute. Qed.
Lemma empty_stored : stored Runs.target empty_directory ∅.
Proof.
  split; [|by exists document_default]. split; [by left|by intros e ->%list_elem_of_singleton|].
  intros i Hi. done.
Qed.
Lemma protected_file_refines_map_witness : stored Runs.target stored_once (<[key := [7; 8]]> ∅).
Proof.
  refine (proj1 (proj1 (proj2 (protected_file_refines_map document_json_ok system Runs.path Runs.target false key
    empty_directory (Ret (Ok None)) stored_once ∅ _ _ _ _)) (Ret (Ok tt)) value _ _) _).
  - apply system_documented.
  - apply Runs.names_target.
  - apply empty_stored.
  - reflexivity.
  - reflexivity.
  - apply put_run.
  - reflexivity.
Defined.

Definition candidates : list CredentialCandidate :=
  [mk_candidate SecretService (mk_secret [1]); mk_candidate Environment (mk_secret [2])].
Lemma environment_never_persisted_witness :
  persist_resolved (λ _ v _, ([v], Ok tt)) key (mk_resolved Environment Ephemeral (mk_secret [2])) []
  = ([], Err EphemeralSource).
Proof.
  exact (proj2 (proj2 (environment_never_persisted (λ _ v _, ([v], Ok tt)) key candidates candidates
    (mk_resolved Environment Ephemeral (mk_secret [2])) [] eq_refl))).
Defined.

Definition scope_example : AccountScope :=
  AccountScope.mk ProviderId.Codex (ProviderInstanceId.mk (lit "default")) (AccountKey.mk (lit "a")).
Lemma slots_have_distinct_keys_witness : scope_example = scope_example ∧ lit "session" = lit "session".
Proof.
  eapply (slots_have_distinct_keys scope_example scope_example (lit "session") (lit "session")); reflexivity.
Defined.

Definition items : list KeyringItem :=
  [mk_item true (Some [(lit "application", lit "other")]) None; mk_item true (Some (attributes key)) (Some [5])].
Lemma batch_read_exact_witness : NoDup [key] ∧ NoDup [key] ∧
  ∃ items', Some items = Some items' ∧ [(key, mk_secret [5])] = omap (answered [key]) items' ∧
    ∀ k v, (k, v) ∈ [(key, mk_secret [5])] → k ∈ [key] ∧ ∃ item l, item ∈ items' ∧ item_attributes item = Some l ∧
      item_matches l k = true ∧ item_secret item = Some (expose_secret v).
Proof. apply (batch_read_exact [key] (Some items) [(key, mk_secret [5])]). reflexivity. Defined.
End CredentialsExample.
