(* ===== verification/Registry.v ===== *)
(** * Descriptors and the provider registry
      (crates/providers/src/descriptor.rs, capability.rs, registry.rs, context.rs)

    The sources and capabilities of the 69 providers as the bit sets the code
    keeps them in, the closed registry and its lookup, and the fail-soft result
    of a fetch. *)
From stdpp Require Import prelude.
From S2P Require Import Prelude Text Scope Errors.
Local Open Scope Z_scope.

(** ** Sources *)

Inductive ProviderSource :=
| ApiKey | ConfigurableEndpoint | ManualCookie | BrowserSession | OAuth | Cli | LocalData | CloudCredentials.
#[global] Instance ProviderSource_eq_dec : EqDecision ProviderSource.
Proof. solve_decision. Defined.
(** [source as u16] *)
Definition source_bit (s : ProviderSource) : Z :=
  match s with
  | ApiKey => Z.shiftl 1 0 | ConfigurableEndpoint => Z.shiftl 1 1 | ManualCookie => Z.shiftl 1 2
  | BrowserSession => Z.shiftl 1 3 | OAuth => Z.shiftl 1 4 | Cli => Z.shiftl 1 5
  | LocalData => Z.shiftl 1 6 | CloudCredentials => Z.shiftl 1 7
  end.
Definition ALL_SOURCES : list ProviderSource :=
  [ApiKey; ConfigurableEndpoint; ManualCookie; BrowserSession; OAuth; Cli; LocalData; CloudCredentials].
Definition source_label (s : ProviderSource) : str :=
  match s with
  | ApiKey => lit "API key"
  | ConfigurableEndpoint => lit "Approved endpoint"
  | ManualCookie => lit "Manual session"
  | BrowserSession => lit "Browser session"
  | OAuth => lit "OAuth"
  | Cli => lit "Provider CLI"
  | LocalData => lit "Local provider data"
  | CloudCredentials => lit "Cloud credentials"
  end.

Record SourceSet := mk_sources { source_bits : Z }.
Definition one (s : ProviderSource) : SourceSet := mk_sources (source_bit s).
Definition source_with (set : SourceSet) (s : ProviderSource) : SourceSet :=
  mk_sources (Z.lor (source_bits set) (source_bit s)).
Definition has_source (set : SourceSet) (s : ProviderSource) : bool :=
  negb (Z.land (source_bits set) (source_bit s) =? 0).
Definition no_source (set : SourceSet) : bool := source_bits set =? 0.
Definition source_iter (set : SourceSet) : list ProviderSource :=
  filter (λ s, has_source set s = true) ALL_SOURCES.

(** ** Capabilities *)

Inductive ProviderCapability :=
| Usage | Credits | CostHistory | Status | Sessions | BrowserAuth | StorageReport | LoginAction.
#[global] Instance ProviderCapability_eq_dec : EqDecision ProviderCapability.
Proof. solve_decision. Defined.
Definition capability_bit (c : ProviderCapability) : Z :=
  match c with
  | Usage => Z.shiftl 1 0 | Credits => Z.shiftl 1 1 | CostHistory => Z.shiftl 1 2 | Status => Z.shiftl 1 3
  | Sessions => Z.shiftl 1 4 | BrowserAuth => Z.shiftl 1 5 | StorageReport => Z.shiftl 1 6 | LoginAction => Z.shiftl 1 7
  end.
Definition ALL_CAPABILITIES : list ProviderCapability :=
  [Usage; Credits; CostHistory; Status; Sessions; BrowserAuth; StorageReport; LoginAction].
Record CapabilitySet := mk_capabilities { capability_bits : Z }.
Definition EMPTY : CapabilitySet := mk_capabilities 0.
Definition USAGE : CapabilitySet := mk_capabilities (capability_bit Usage).
Definition capability_with (set : CapabilitySet) (c : ProviderCapability) : CapabilitySet :=
  mk_capabilities (Z.lor (capability_bits set) (capability_bit c)).
Definition has_capability (set : CapabilitySet) (c : ProviderCapability) : bool :=
  negb (Z.land (capability_bits set) (capability_bit c) =? 0).
Definition no_capability (set : CapabilitySet) : bool := capability_bits set =? 0.
Definition capability_iter (set : CapabilitySet) : list ProviderCapability :=
  filter (λ c, has_capability set c = true) ALL_CAPABILITIES.

(** ** Descriptors *)

Inductive DefaultBehavior := Detect | Disabled | Fallback.
Record ProviderDescriptor := mk_descriptor { descriptor_id : ProviderId; display_name : str }.

Definition default_behavior_for (id : ProviderId) : DefaultBehavior :=
  match id with
  | ProviderId.Codex => Fallback
  | ProviderId.Claude | ProviderId.Gemini | ProviderId.Antigravity => Detect
  | _ => Disabled
  end.

Section tables.
Import ProviderId.
Definition sources_for (id : ProviderId) : SourceSet :=
  match id with
  | OpenAi | Fireworks | DeepInfra | Warp | AiAnd | IbmBob | ClinePass | Moonshot | Synthetic |
    Crof | Venice | Poe | ZenMux | Xai =>
      one ApiKey
  | AzureOpenAi | ElevenLabs | Deepgram | Chutes | Neuralwatt | OpenRouter | LlmProxy |
    LiteLlm | ClawRouter | Sub2Api =>
      source_with (one ConfigurableEndpoint) ApiKey
  | Wayfinder =>
      one ConfigurableEndpoint
  | Copilot =>
      one OAuth
  | Bedrock | VertexAi =>
      one CloudCredentials
  | Doubao =>
      source_with (source_with (one CloudCredentials) ApiKey) Cli
  | Codebuff =>
      source_with (one ApiKey) LocalData
  | Amp =>
      source_with (source_with (source_with (one ApiKey) ManualCookie) BrowserSession) Cli
  | Kilo =>
      source_with (one ApiKey) Cli
  | Kiro =>
      one Cli
  | JetBrains =>
      one LocalData
  | T3Chat | QwenCloud | OpenCode | Devin | Manus | Mistral | CommandCode | Qoder | Perplexity |
    LongCat | ZoomMate | Notion | Abacus =>
      source_with (one ManualCookie) BrowserSession
  | Alibaba | MiniMax | DeepSeek | Groq =>
      source_with (source_with (one ApiKey) ManualCookie) BrowserSession
  | AlibabaTokenPlan =>
      source_with (source_with (one ManualCookie) BrowserSession) Cli
  | Mimo =>
      source_with (source_with (one ManualCookie) BrowserSession) LocalData
  | Grok =>
      source_with (source_with (source_with (source_with (one Cli) OAuth) ManualCookie) BrowserSession) LocalData
  | Sakana | StepFun =>
      one ManualCookie
  | Kimi =>
      source_with (source_with (source_with (source_with (source_with (one ApiKey) ConfigurableEndpoint) ManualCookie) BrowserSession) Cli) LocalData
  | Codex =>
      source_with (source_with (source_with (source_with (one ApiKey) OAuth) Cli) LocalData) BrowserSession
  | Claude =>
      source_with (source_with (source_with (one OAuth) Cli) LocalData) BrowserSession
  | Gemini | Antigravity =>
      source_with (source_with (one OAuth) Cli) LocalData
  | Zai | OpenCodeGo =>
      source_with (source_with (one ConfigurableEndpoint) ApiKey) LocalData
  | Factory =>
      source_with (source_with (one ApiKey) OAuth) BrowserSession
  | Ollama =>
      source_with (source_with (one ApiKey) ConfigurableEndpoint) BrowserSession
  | Zed =>
      source_with (one LocalData) ApiKey
  | Augment | Cursor | Windsurf =>
      source_with (source_with (source_with (one Cli) LocalData) ManualCookie) BrowserSession
  end.

(** Adds [l] under a condition. *)
Definition capability_when (condition : bool) (l : list ProviderCapability) (set : CapabilitySet) : CapabilitySet :=
  if condition then foldl capability_with set l else set.
Definition capabilities_for (id : ProviderId) : CapabilitySet :=
  let sources := sources_for id in
  let capabilities := USAGE in
  let capabilities := capability_when
    (has_source sources ManualCookie || has_source sources BrowserSession
     || match id with Copilot => true | _ => false end) [BrowserAuth] capabilities in
  let capabilities := capability_when
    (has_source sources OAuth || has_source sources Cli
     || match id with VertexAi => true | _ => false end) [LoginAction] capabilities in
  let capabilities := capability_when (has_source sources LocalData) [StorageReport] capabilities in
  let capabilities := match id with
    | Codex | OpenAi | Claude | Gemini | OpenRouter => capability_when true [Credits; CostHistory] capabilities
    | Bedrock | Mistral | MiniMax => capability_with capabilities CostHistory
    | _ => capabilities
    end in
  let capabilities := match id with
    | Amp | Codebuff | Mimo | CommandCode | ZoomMate => capability_with capabilities Credits
    | _ => capabilities
    end in
  let capabilities := match id with
    | Codex | Claude | Gemini | Grok => capability_with capabilities Sessions
    | _ => capabilities
    end in
  match id with
  | Cursor | Factory | Augment => capability_with capabilities Status
  | _ => capabilities
  end.
End tables.
Definition descriptor_sources (d : ProviderDescriptor) : SourceSet := sources_for (descriptor_id d).
Definition descriptor_capabilities (d : ProviderDescriptor) : CapabilitySet := capabilities_for (descriptor_id d).
Definition default_behavior (d : ProviderDescriptor) : DefaultBehavior := default_behavior_for (descriptor_id d).

(** ** registry.rs *)

Definition PROVIDERS : list ProviderDescriptor :=
  [mk_descriptor ProviderId.Codex (lit "Codex");
   mk_descriptor ProviderId.OpenAi (lit "OpenAI");
   mk_descriptor ProviderId.AzureOpenAi (lit "Azure OpenAI");
   mk_descriptor ProviderId.Claude (lit "Claude");
   mk_descriptor ProviderId.ClinePass (lit "ClinePass");
   mk_descriptor ProviderId.Cursor (lit "Cursor");
   mk_descriptor ProviderId.OpenCode (lit "OpenCode");
   mk_descriptor ProviderId.OpenCodeGo (lit "OpenCode Go");
   mk_descriptor ProviderId.Alibaba (lit "Alibaba Coding Plan");
   mk_descriptor ProviderId.AlibabaTokenPlan (lit "Alibaba Token Plan");
   mk_descriptor ProviderId.QwenCloud (lit "Qwen Cloud");
   mk_descriptor ProviderId.Factory (lit "Droid");
   mk_descriptor ProviderId.Fireworks (lit "Fireworks");
   mk_descriptor ProviderId.Gemini (lit "Gemini");
   mk_descriptor ProviderId.Antigravity (lit "Antigravity");
   mk_descriptor ProviderId.Copilot (lit "Copilot");
   mk_descriptor ProviderId.Devin (lit "Devin");
   mk_descriptor ProviderId.Zai (lit "z.ai");
   mk_descriptor ProviderId.MiniMax (lit "MiniMax");
   mk_descriptor ProviderId.Manus (lit "Manus");
   mk_descriptor ProviderId.Kimi (lit "Kimi Code");
   mk_descriptor ProviderId.Kilo (lit "Kilo");
   mk_descriptor ProviderId.Kiro (lit "Kiro");
   mk_descriptor ProviderId.VertexAi (lit "Vertex AI");
   mk_descriptor ProviderId.Augment (lit "Augment");
   mk_descriptor ProviderId.JetBrains (lit "JetBrains AI");
   mk_descriptor ProviderId.Moonshot (lit "Moonshot");
   mk_descriptor ProviderId.Amp (lit "Amp");
   mk_descriptor ProviderId.T3Chat (lit "T3 Chat");
   mk_descriptor ProviderId.Ollama (lit "Ollama");
   mk_descriptor ProviderId.Synthetic (lit "Synthetic");
   mk_descriptor ProviderId.OpenRouter (lit "OpenRouter");
   mk_descriptor ProviderId.ElevenLabs (lit "ElevenLabs");
   mk_descriptor ProviderId.Warp (lit "Warp");
   mk_descriptor ProviderId.Windsurf (lit "Windsurf");
   mk_descriptor ProviderId.Zed (lit "Zed");
   mk_descriptor ProviderId.Perplexity (lit "Perplexity");
   mk_descriptor ProviderId.Mimo (lit "Xiaomi MiMo");
   mk_descriptor ProviderId.Doubao (lit "Doubao");
   mk_descriptor ProviderId.Sakana (lit "Sakana AI");
   mk_descriptor ProviderId.Abacus (lit "Abacus AI");
   mk_descriptor ProviderId.Mistral (lit "Mistral");
   mk_descriptor ProviderId.DeepSeek (lit "DeepSeek");
   mk_descriptor ProviderId.DeepInfra (lit "DeepInfra");
   mk_descriptor ProviderId.Codebuff (lit "Codebuff");
   mk_descriptor ProviderId.Crof (lit "Crof");
   mk_descriptor ProviderId.Venice (lit "Venice");
   mk_descriptor ProviderId.CommandCode (lit "Command Code");
   mk_descriptor ProviderId.Qoder (lit "Qoder");
   mk_descriptor ProviderId.StepFun (lit "StepFun");
   mk_descriptor ProviderId.Bedrock (lit "AWS Bedrock");
   mk_descriptor ProviderId.Grok (lit "Grok");
   mk_descriptor ProviderId.Groq (lit "Groq");
   mk_descriptor ProviderId.LlmProxy (lit "LLM Proxy");
   mk_descriptor ProviderId.LiteLlm (lit "LiteLLM");
   mk_descriptor ProviderId.Deepgram (lit "Deepgram");
   mk_descriptor ProviderId.Poe (lit "Poe");
   mk_descriptor ProviderId.Chutes (lit "Chutes");
   mk_descriptor ProviderId.Neuralwatt (lit "Neuralwatt");
   mk_descriptor ProviderId.ClawRouter (lit "ClawRouter");
   mk_descriptor ProviderId.LongCat (lit "LongCat");
   mk_descriptor ProviderId.Sub2Api (lit "sub2api");
   mk_descriptor ProviderId.Wayfinder (lit "Wayfinder");
   mk_descriptor ProviderId.ZenMux (lit "ZenMux");
   mk_descriptor ProviderId.AiAnd (lit "ai&");
   mk_descriptor ProviderId.ZoomMate (lit "ZoomMate");
   mk_descriptor ProviderId.Xai (lit "xAI");
   mk_descriptor ProviderId.Notion (lit "Notion AI");
   mk_descriptor ProviderId.IbmBob (lit "IBM Bob")].
(** The [expect] is [None]. *)
Definition descriptor_for (id : ProviderId) : option ProviderDescriptor :=
  find (λ descriptor, bool_decide (descriptor_id descriptor = id)) PROVIDERS.
(** The sources of a provider's descriptor, as the rest of the crate asks for them. *)
Definition supports (id : ProviderId) (s : ProviderSource) : bool :=
  match descriptor_for id with Some d => has_source (descriptor_sources d) s | None => false end.

(** ** context.rs *)

Inductive FetchOutcome (T : Type) :=
| Fresh (value : T)
| Retained (last_good : T) (error : ClassifiedError)
| Unavailable (error : ClassifiedError).
Arguments Fresh {_} _.
Arguments Retained {_} _ _.
Arguments Unavailable {_} _.
Definition preserve_last_good {T} (previous : option T) (result : Result ClassifiedError T) : FetchOutcome T :=
  match previous, result with
  | _, Ok value => Fresh value
  | Some last_good, Err error => Retained last_good error
  | None, Err error => Unavailable error
  end.

(** ** Facts *)

Lemma source_bit_spec set s t :
  has_source (source_with set s) t = has_source set t || bool_decide (s = t).
Proof.
  unfold has_source, source_with. cbn [source_bits]. rewrite Z.land_lor_distr_l.
  destruct (Z.eqb_spec (Z.land (source_bits set) (source_bit t)) 0) as [->|Hn].
  - rewrite Z.lor_0_l. by destruct s, t.
  - cbn. destruct (Z.eqb_spec (Z.lor (Z.land (source_bits set) (source_bit t)) (Z.land (source_bit s) (source_bit t))) 0)
      as [[? _]%Z.lor_eq_0_iff|]; done.
Qed.
Lemma capability_bit_spec set c d :
  has_capability (capability_with set c) d = has_capability set d || bool_decide (c = d).
Proof.
  unfold has_capability, capability_with. cbn [capability_bits]. rewrite Z.land_lor_distr_l.
  destruct (Z.eqb_spec (Z.land (capability_bits set) (capability_bit d)) 0) as [->|Hn].
  - rewrite Z.lor_0_l. by destruct c, d.
  - cbn. destruct (Z.eqb_spec (Z.lor (Z.land (capability_bits set) (capability_bit d)) (Z.land (capability_bit c) (capability_bit d))) 0)
      as [[? _]%Z.lor_eq_0_iff|]; done.
Qed.
Lemma source_iter_spec set s : s ∈ source_iter set ↔ has_source set s = true.
Proof. unfold source_iter. rewrite list_elem_of_filter. split; [by intros []|]. intros H. split; [done|]. by destruct s; by_decide. Qed.
Lemma descriptor_for_id id d : descriptor_for id = Some d → descriptor_id d = id.
Proof. intros [_ Hd%bool_decide_eq_true]%find_some. done. Qed.
Lemma descriptor_for_Some id : is_Some (descriptor_for id).
Proof. by destruct id; eexists. Qed.
Lemma supports_spec id s : supports id s = has_source (sources_for id) s.
Proof.
  unfold supports. destruct (descriptor_for_Some id) as [d Hd]. rewrite Hd. by rewrite <-(descriptor_for_id _ _ Hd).
Qed.

(** The registry is total and in declaration order: the lookup never panics, every
    provider has one entry, a display name of its own, a source and the usage
    capability; browser sign-in is offered exactly to those with a cookie source
    (and Copilot), a login action to those with a command line or OAuth (and Vertex). *)
Theorem registry_total :
  descriptor_id <$> PROVIDERS = ProviderId.ALL ∧ NoDup (display_name <$> PROVIDERS) ∧
  ∀ id, ∃ d, descriptor_for id = Some d ∧ descriptor_id d = id ∧
    source_iter (descriptor_sources d) ≠ [] ∧
    has_capability (descriptor_capabilities d) Usage = true ∧
    has_capability (descriptor_capabilities d) BrowserAuth =
      (supports id ManualCookie || supports id BrowserSession || bool_decide (id = ProviderId.Copilot)) ∧
    has_capability (descriptor_capabilities d) LoginAction =
      (supports id OAuth || supports id Cli || bool_decide (id = ProviderId.VertexAi)) ∧
    has_capability (descriptor_capabilities d) StorageReport = supports id LocalData.
Proof.
  split; [reflexivity|]. split; [apply (bool_decide_unpack _); by vm_compute|].
  intros id. destruct id; (eexists; split; [reflexivity|]; by_decide).
Qed.
