(* ===== verification/ProviderRefresh.v ===== *)
(** * Refresh sources of configured providers  (crates/app/src/provider_refresh.rs)

    The bridge from a provider adapter to a required fetch: the exact account and
    source it is bound to, the browser session it may fall back on, and the local
    history with its cache.  The methods are programs of calls on the outside
    world (the adapters, the browser profiles and their keyring, the clock, the
    cancellation token, the history scanners and the shared cache), whose answers
    are arbitrary; [run] relates a program to the calls it makes. *)
From stdpp Require Import prelude.
From S2P Require Import Prelude Ordering Text Percentage Externals Scope Errors RateWindow CostUsage Snapshot Scheduler RuntimePolicy Actor Registry.
Local Open Scope Z_scope.

(** [ClassifiedError::new] of a kind. *)
Notation classified kind := (ClassifiedError.new kind).

Inductive BrowserKind := Chromium | GoogleChrome | Brave | BraveOrigin | MicrosoftEdge.
Inductive BrowserSafeStorageProduct :=
| ProductGoogleChrome | ProductChromium | ProductBrave | ProductMicrosoftEdge.
Inductive BrowserKeyringAccess := KeyringDisabled | KeyringEnabled.
(** The secrets [set_v11_secret] was called with. *)
Definition Decryptor : Type := list (BrowserKind * list Z).

(** A [Box<dyn ProviderAdapter>]: its descriptor, and which object it is. *)
Record Adapter := mk_adapter { adapter_descriptor : ProviderDescriptor; adapter_object : nat }.
Record ProviderContext := mk_context {
  context_scope : AccountScope;
  context_source : ProviderSource;
  provider_cache_bypass : bool;
}.
#[global] Instance ProviderContext_eq_dec : EqDecision ProviderContext.
Proof. solve_decision. Defined.
Definition context_new (scope : AccountScope) (source : ProviderSource) : ProviderContext :=
  mk_context scope source false.
Definition with_provider_cache_bypass (c : ProviderContext) : ProviderContext :=
  mk_context (context_scope c) (context_source c) true.

(** The calendar date of an instant in UTC. *)
Definition date (t : Timestamp) : Z := Timestamp.nanos t / (86400 * NANOS_PER_SECOND).

Section refresh.
Context `{DecimalCrate}.
Notation Fallible A := (Result ClassifiedError A).

(** The history roots of the scanners. *)
Inductive HistoryRoot :=
| HistoryPath (root : list Z) (provider : ProviderId)
| AntigravityRoots (roots : list (list Z)).

(** The calls on the outside world.  The keyring load is one call: the secrets it
    read of the products, in order, before it ended or its time was up, or [None]
    when cancellation came first.  A lock answers [None] when it is poisoned, a
    scan when its thread panicked. *)
Inductive RefreshCall : Type → Type :=
| IsCancelled : RefreshCall bool
| BuildAdapter (scope : AccountScope) : RefreshCall (Fallible Adapter)
| FetchAdapter (adapter : Adapter) (context : ProviderContext) : RefreshCall (Fallible UsageSample)
| DiscoverProfiles : RefreshCall bool
| LoadKeyring (products : list BrowserSafeStorageProduct) : RefreshCall (option (list (option (list Z))))
| SystemTimestamp : RefreshCall (Fallible Timestamp)
| BuildBrowserAdapter (scope : AccountScope) (decryptor : Decryptor) (now : Timestamp) : RefreshCall (Fallible Adapter)
| CacheGet : RefreshCall (option (option (Z * CostUsageSnapshot)))
| Elapsed (since : Z) : RefreshCall Duration
| ScanHistory (root : HistoryRoot) (updated_at : Timestamp) : RefreshCall (option (Fallible (option CostUsageSnapshot)))
| InstantNow : RefreshCall Z
| CachePut (entry : Z * CostUsageSnapshot) : RefreshCall unit.

Inductive Task (A : Type) : Type :=
| Done (a : A)
| Call {T} (call : RefreshCall T) (next : T → Task A).
Arguments Done {_} _.
Arguments Call {_ _} _ _.
Fixpoint task_bind {A B} (p : Task A) (k : A → Task B) : Task B :=
  match p with
  | Done a => k a
  | Call call next => Call call (λ r, task_bind (next r) k)
  end.
(** A fallible task, and [?]. *)
Definition Async (A : Type) : Type := Task (Fallible A).
#[global] Instance Async_ret : MRet Async := λ A a, Done (Ok a).
#[global] Instance Async_bind : MBind Async := λ A B k m,
  task_bind m (λ r, match r with Ok a => k a | Err e => Done (Err e) end).
Definition fail {A} (kind : ErrorKind) : Async A := Done (Err (classified kind)).
(** [call.await?], a call that cannot fail, and [if token.is_cancelled() { return .. }]. *)
Definition await {A} (call : RefreshCall (Fallible A)) : Async A := Call call Done.
Definition ask {A} (call : RefreshCall A) : Async A := Call call (λ a, Done (Ok a)).
Definition unless_cancelled {A} (m : Async A) : Async A :=
  cancelled ← ask IsCancelled; if cancelled : bool then fail Network else m.
(** [match m.await { Ok(v) => Ok(v), Err(e) => k(e) }] *)
Definition or_else_async {A} (m : Async A) (k : ClassifiedError → Async A) : Async A :=
  task_bind m (λ r, match r with Ok a => Done (Ok a) | Err e => k e end).

(** ** The lazily built source *)

Definition BROWSER_KEYRING_TIMEOUT : Duration := from_secs 3.
Definition history_lifetime : Duration := from_mins 15.

Inductive ProviderRefreshBuildError := ProviderMismatch | UnsupportedSource.
Record LazyProviderRefreshSource := mk_lazy {
  lazy_scope : AccountScope;
  lazy_source : ProviderSource;
  browser_fallback : bool;
  browser_keyring_access : BrowserKeyringAccess;
  lazy_grok_root : option (list Z);
  copilot_history_root : option (list Z);
  opencodego_history_root : option (list Z);
  vertex_history_root : option (list Z);
  cursor_history_root : option (list Z);
  antigravity_history_roots : option (list (list Z));
}.
Definition lazy_new (scope : AccountScope) (source : ProviderSource) :
    Result ProviderRefreshBuildError LazyProviderRefreshSource :=
  if negb (supports (AccountScope.provider scope) source) then Err UnsupportedSource else
  Ok (mk_lazy scope source false KeyringEnabled None None None None None None).
Definition with_browser_fallback (self : LazyProviderRefreshSource) :
    Result ProviderRefreshBuildError LazyProviderRefreshSource :=
  if negb (supports (AccountScope.provider (lazy_scope self)) BrowserSession) then Err UnsupportedSource else
  Ok (mk_lazy (lazy_scope self) (lazy_source self) true (browser_keyring_access self) (lazy_grok_root self)
        (copilot_history_root self) (opencodego_history_root self) (vertex_history_root self)
        (cursor_history_root self) (antigravity_history_roots self)).

(** [BrowserRuntime::prepare] *)
Definition KEYRING_PRODUCTS : list (BrowserSafeStorageProduct * list BrowserKind) :=
  [(ProductGoogleChrome, [GoogleChrome]); (ProductChromium, [Chromium]);
   (ProductBrave, [Brave; BraveOrigin]); (ProductMicrosoftEdge, [MicrosoftEdge])].
Definition install_browser_secret (browsers : list BrowserKind) (secret : option (list Z)) : Decryptor :=
  match secret with Some secret => (λ b, (b, secret)) <$> browsers | None => [] end.
Definition install_secrets (secrets : list (option (list Z))) : Decryptor :=
  concat (zip_with install_browser_secret KEYRING_PRODUCTS.*2 secrets).
Definition prepare (keyring_access : BrowserKeyringAccess) : Async Decryptor :=
  discovered ← ask DiscoverProfiles;
  if negb discovered then fail MissingCredential else
  match keyring_access with
  | KeyringDisabled => mret []
  | KeyringEnabled =>
      loaded ← ask (LoadKeyring KEYRING_PRODUCTS.*1);
      match loaded with
      | None => fail Network
      | Some secrets => mret (install_secrets secrets)
      end
  end.

Definition fetch_lazy_adapter (adapter : Fallible Adapter) (scope : AccountScope) (source : ProviderSource) :
    Async UsageSample :=
  adapter ← (Done adapter : Async Adapter);
  if negb (bool_decide (descriptor_id (adapter_descriptor adapter) = AccountScope.provider scope))
     || negb (has_source (descriptor_sources (adapter_descriptor adapter)) source)
  then fail Api else
  unless_cancelled (await (FetchAdapter adapter (context_new scope source))).

Definition should_try_browser_fallback (error : ClassifiedError) : bool :=
  match ClassifiedError.kind error with MissingCredential | AuthenticationExpired => true | _ => false end.
Definition resolve_fallback_error (primary_error fallback_error : ClassifiedError) : ClassifiedError :=
  if bool_decide (ClassifiedError.kind primary_error = MissingCredential) then fallback_error else primary_error.

(** What follows a failed primary fetch. *)
Definition browser_attempt (self : LazyProviderRefreshSource) (scope : AccountScope)
    (primary_error : ClassifiedError) : Async UsageSample :=
  let resolve {A} (m : Async A) : Async A :=
    or_else_async m (λ e, Done (Err (resolve_fallback_error primary_error e))) in
  decryptor ← resolve (prepare (browser_keyring_access self));
  unless_cancelled (
    now ← resolve (await SystemTimestamp);
    fallback ← ask (BuildBrowserAdapter scope decryptor now);
    task_bind (fetch_lazy_adapter fallback scope BrowserSession) (λ fallback,
      unless_cancelled (Done (map_err (resolve_fallback_error primary_error) fallback)))).
Definition lazy_fetch_required (self : LazyProviderRefreshSource) (scope : AccountScope) : Async UsageSample :=
  if negb (bool_decide (scope = lazy_scope self)) then fail Api else
  unless_cancelled (
    adapter ← ask (BuildAdapter scope);
    or_else_async (fetch_lazy_adapter adapter scope (lazy_source self)) (λ primary_error,
      if negb (browser_fallback self) then Done (Err primary_error) else
      unless_cancelled (
        if negb (should_try_browser_fallback primary_error) then Done (Err primary_error)
        else browser_attempt self scope primary_error))).

(** A scan whose result is remembered, with the moment it was made. *)
Definition scan_and_cache (root : HistoryRoot) (updated_at : Timestamp) : Async (option CostUsageSnapshot) :=
  joined ← ask (ScanHistory root updated_at);
  result ← (Done (match joined with Some r => r | None => Err (classified ProviderUnavailable) end) : Async _);
  match result with
  | Some snapshot => now ← ask InstantNow; ask (CachePut (now, snapshot))
  | None => mret tt
  end ;;
  mret result.
(** The cached snapshot, if it may answer. *)
Definition cached_within (fits : CostUsageSnapshot → bool) : Async (option CostUsageSnapshot) :=
  guard ← ask CacheGet;
  match guard with
  | Some (Some (cached_at, snapshot)) =>
      elapsed ← ask (Elapsed cached_at);
      mret (if (elapsed <? history_lifetime) && fits snapshot then Some snapshot else None)
  | _ => mret None
  end.
Definition lazy_history (self : LazyProviderRefreshSource) : option HistoryRoot :=
  let path provider (root : option (list Z)) := (λ r, HistoryPath r provider) <$> root in
  RateWindow.or_else (path ProviderId.Grok (lazy_grok_root self))
    (RateWindow.or_else (path ProviderId.Copilot (copilot_history_root self))
      (RateWindow.or_else (path ProviderId.OpenCodeGo (opencodego_history_root self))
        (RateWindow.or_else (path ProviderId.VertexAi (vertex_history_root self))
          (RateWindow.or_else (path ProviderId.Cursor (cursor_history_root self))
            (AntigravityRoots <$> antigravity_history_roots self))))).
Definition lazy_fetch_optional (self : LazyProviderRefreshSource) (required : UsageSample) :
    Async (option CostUsageSnapshot) :=
  match lazy_history self with
  | None => mret None
  | Some root =>
      cached ← cached_within (λ _, true);
      match cached with
      | Some snapshot => mret (Some snapshot)
      | None => scan_and_cache root (UsageSample.fetched_at required)
      end
  end.

(** ** The source of a configured adapter *)

Record ProviderRefreshSource := mk_bound {
  bound_scope : AccountScope;
  bound_source : ProviderSource;
  bound_adapter : Adapter;
  claude_history_root : option (list Z);
  grok_history_root : option (list Z);
}.
(** [scope] and [source] are what the adapter is bound to. *)
Definition bound_new (adapter : Adapter) (scope : AccountScope) (source : ProviderSource) :
    Result ProviderRefreshBuildError ProviderRefreshSource :=
  if negb (bool_decide (AccountScope.provider scope = descriptor_id (adapter_descriptor adapter))) then Err ProviderMismatch else
  if negb (has_source (descriptor_sources (adapter_descriptor adapter)) source) then Err UnsupportedSource else
  Ok (mk_bound scope source adapter None None).
(** [fetch_required] is the case of no trigger. *)
Definition fetch_required (self : ProviderRefreshSource) (scope : AccountScope) (trigger : option RefreshTrigger) :
    Async UsageSample :=
  if negb (bool_decide (scope = bound_scope self)) then fail Api else
  unless_cancelled (
    let context := context_new scope (bound_source self) in
    let context := match trigger with Some ManualTrigger => with_provider_cache_bypass context | _ => context end in
    await (FetchAdapter (bound_adapter self) context)).
Definition bound_history_scope (self : ProviderRefreshSource) : option LocalHistoryScope :=
  if bool_decide (is_Some (claude_history_root self)) || bool_decide (is_Some (grok_history_root self))
  then Some MachineHistory else None.
Definition bound_history (self : ProviderRefreshSource) : option HistoryRoot :=
  RateWindow.or_else ((λ r, HistoryPath r ProviderId.Claude) <$> claude_history_root self)
    ((λ r, HistoryPath r ProviderId.Grok) <$> grok_history_root self).
(** [fetch_local_history], also that of [CodexRefreshSource]. *)
Definition fetch_local_history (root : option HistoryRoot) (updated_at : Timestamp) (manual : bool) :
    Async (option CostUsageSnapshot) :=
  match root with
  | None => mret None
  | Some root =>
      cached ← (if manual then mret None
                else cached_within (λ s, date (CostUsageSnapshot.updated_at s) =? date updated_at));
      match cached with
      | Some snapshot => mret (Some snapshot)
      | None => scan_and_cache root updated_at
      end
  end.

(** ** Codex *)

Record CodexRefreshSource := mk_codex {
  history_scope : LocalHistoryScope;
  codex_scope : AccountScope;
  codex_history_root : option (list Z);
}.
Definition codex_new (scope : AccountScope) : Result ProviderRefreshBuildError CodexRefreshSource :=
  if negb (bool_decide (AccountScope.provider scope = ProviderId.Codex)) then Err ProviderMismatch else
  Ok (mk_codex AccountHistory scope None).
Definition codex_history_scope (self : CodexRefreshSource) : option LocalHistoryScope :=
  (λ _, history_scope self) <$> codex_history_root self.
Definition codex_history (self : CodexRefreshSource) : option HistoryRoot :=
  (λ r, HistoryPath r ProviderId.Codex) <$> codex_history_root self.

(** ** Runs *)

(** A call and its answer. *)
Inductive Event :=
| Answered {T} (call : RefreshCall T) (answer : T).
Inductive run {A} : Task A → list Event → A → Prop :=
| run_done a : run (Done a) [] a
| run_call {T} (call : RefreshCall T) next answer events a :
    run (next answer) events a → run (Call call next) (Answered call answer :: events) a.
End refresh.
Arguments Done {_ _} _.
Arguments Call {_ _ _} _ _.
