(* ===== verification/ProviderRefreshFacts.v ===== *)
(** * What a refresh may do and answer

    For every answer the outside world may give to the programs of
    ProviderRefresh.v: when the browser is touched, whose account and source an
    adapter is asked for, what a cancellation does, which error is reported, and
    when a remembered history answers. *)
From stdpp Require Import prelude.
From S2P Require Import Prelude Ordering Text Percentage Externals Scope Errors RateWindow CostUsage Snapshot Scheduler RuntimePolicy Actor Registry ProviderRefresh.
Local Open Scope Z_scope.

Section facts.
Context `{DecimalCrate}.

(** [Q] holds of every run of [p]. *)
Fixpoint always {A} (p : Task A) (Q : list Event → A → Prop) : Prop :=
  match p with
  | Done a => Q [] a
  | Call call next => ∀ answer, always (next answer) (λ events a, Q (Answered call answer :: events) a)
  end.
Lemma always_run {A} (p : Task A) Q events a : run p events a → always p Q → Q events a.
Proof.
  intros Hr. revert Q. induction Hr as [a|T call next answer events a _ IH]; intros Q; cbn; [done|].
  intros Hq. apply (IH _ (Hq answer)).
Qed.
Lemma always_mono {A} (p : Task A) (Q Q' : list Event → A → Prop) :
  always p Q → (∀ events a, Q events a → Q' events a) → always p Q'.
Proof.
  revert Q Q'. induction p as [a|T call next IH]; intros Q Q' Hp HQ; cbn in *; [by apply HQ|].
  intros answer. eapply IH; [apply Hp|]. intros events a. apply HQ.
Qed.
Lemma always_bind {A B} (p : Task A) (k : A → Task B) Q :
  always p (λ events a, always (k a) (λ more b, Q (events ++ more) b)) → always (task_bind p k) Q.
Proof. revert Q. induction p as [a|T call next IH]; intros Q; cbn; [done|]. intros Hp answer. by apply IH, Hp. Qed.

(** The steps of a program. *)
Lemma always_ask {A B} (call : RefreshCall A) (k : A → Async B) Q :
  (∀ a, always (k a) (λ events b, Q (Answered call a :: events) b)) → always (ask call ≫= k) Q.
Proof. done. Qed.
Lemma always_async_bind {A B} (m : Async A) (k : A → Async B) (Q : list Event → Result ClassifiedError B → Prop) :
  always m (λ events r, match r with
    | Ok a => always (k a) (λ more b, Q (events ++ more) b)
    | Err e => Q events (Err e)
    end) → always (m ≫= k) Q.
Proof.
  intros Hm. apply always_bind. eapply always_mono; [exact Hm|]. intros events [a|e] Hr; [done|].
  cbn. by rewrite app_nil_r.
Qed.
Lemma always_or_else {A} (m : Async A) (k : ClassifiedError → Async A) Q :
  always m (λ events r, match r with
    | Ok a => Q events (Ok a)
    | Err e => always (k e) (λ more b, Q (events ++ more) b)
    end) → always (or_else_async m k) Q.
Proof.
  intros Hm. apply always_bind. eapply always_mono; [exact Hm|]. intros events [a|e] Hr; [|done].
  cbn. by rewrite app_nil_r.
Qed.
Lemma always_unless_cancelled {A} (m : Async A) Q :
  Q [Answered IsCancelled true] (Err (classified Network)) →
  always m (λ events r, Q (Answered IsCancelled false :: events) r) → always (unless_cancelled m) Q.
Proof. intros Hc Hm. by intros [|]. Qed.

(** ** The vocabulary *)

Definition touches_browser (e : Event) : Prop :=
  match e with
  | Answered call _ => match call with
      | DiscoverProfiles | LoadKeyring _ | BuildBrowserAdapter _ _ _ => True
      | _ => False
      end
  end.
(** The error an event reports of the primary source, and the first there is. *)
Definition failure_of (self : LazyProviderRefreshSource) (e : Event) : option ClassifiedError :=
  match e with
  | Answered call answer =>
      match call in RefreshCall T return T → option ClassifiedError with
      | BuildAdapter scope => λ r, match r with Err e => Some e | Ok _ => None end
      | FetchAdapter _ context => λ r,
          if bool_decide (context = context_new (lazy_scope self) (lazy_source self))
          then match r with Err e => Some e | Ok _ => None end else None
      | _ => λ _, None
      end answer
  end.
Definition primary_error (self : LazyProviderRefreshSource) (events : list Event) : option ClassifiedError :=
  head (omap (failure_of self) events).
(** What the token answered, if an event is a look at it. *)
Definition token_answer (e : Event) : option bool :=
  match e with
  | Answered call answer =>
      match call in RefreshCall T return T → option bool with IsCancelled => Some | _ => λ _, None end answer
  end.
Definition tokens (events : list Event) : list bool := omap token_answer events.
(** A cancelled token stays cancelled. *)
Fixpoint monotone (l : list bool) : Prop :=
  match l with
  | [] => True
  | b :: l => (b = true → Forall (λ c, c = true) l) ∧ monotone l
  end.
(** A sample fetched for the exact account with a source its provider has. *)
Definition fetched (scope : AccountScope) (source : ProviderSource) (events : list Event) (sample : UsageSample) : Prop :=
  ∃ adapter, Answered (FetchAdapter adapter (context_new scope source)) (Ok sample) ∈ events ∧
    descriptor_id (adapter_descriptor adapter) = AccountScope.provider scope ∧
    has_source (descriptor_sources (adapter_descriptor adapter)) source = true.
Definition auth_failure (error : ClassifiedError) : Prop :=
  ClassifiedError.kind error = MissingCredential ∨ ClassifiedError.kind error = AuthenticationExpired.
(** What may precede a touch of the browser, and a run all of whose touches were
    so preceded. *)
Definition may_touch (self : LazyProviderRefreshSource) (before : list Event) : Prop :=
  browser_fallback self = true ∧ true ∉ tokens before ∧
  ∃ error, primary_error self before = Some error ∧ auth_failure error.
Fixpoint careful (self : LazyProviderRefreshSource) (before events : list Event) : Prop :=
  match events with
  | [] => True
  | e :: events => (touches_browser e → may_touch self before) ∧ careful self (before ++ [e]) events
  end.
Lemma careful_split self b before e after : careful self b (before ++ e :: after) → touches_browser e →
  may_touch self (b ++ before).
Proof.
  revert b. induction before as [|x before IH]; intros b; cbn.
  - intros [Hm _]. by rewrite app_nil_r.
  - intros [_ Hc] He. specialize (IH _ Hc He). by rewrite <-app_assoc in IH.
Qed.

Lemma should_try_spec error : should_try_browser_fallback error = true ↔ auth_failure error.
Proof. unfold should_try_browser_fallback, auth_failure. destruct (ClassifiedError.kind error); naive_solver. Qed.

(** A fetch through an adapter: the look at the token, then the one fetch. *)
Lemma always_fetch_lazy (adapter : Result ClassifiedError Adapter) scope source (Q : list Event → Result ClassifiedError UsageSample → Prop) :
  (∀ e, adapter = Err e → Q [] (Err e)) →
  (∀ a, adapter = Ok a → Q [] (Err (classified Api)) ∧ Q [Answered IsCancelled true] (Err (classified Network))) →
  (∀ a r, adapter = Ok a → descriptor_id (adapter_descriptor a) = AccountScope.provider scope →
    has_source (descriptor_sources (adapter_descriptor a)) source = true →
    Q [Answered IsCancelled false; Answered (FetchAdapter a (context_new scope source)) r] r) →
  always (fetch_lazy_adapter adapter scope source) Q.
Proof.
  intros He Hstop Hf. unfold fetch_lazy_adapter. destruct adapter as [a|e]; cbn; [|by apply He].
  destruct (Hstop a eq_refl) as [Hapi Hc].
  destruct (bool_decide _) eqn:Hid; cbn; [|done]. apply bool_decide_eq_true in Hid.
  destruct (has_source _ source) eqn:Hs; cbn; [|done].
  intros [|]; cbn; [done|]. intros r. by apply Hf.
Qed.

(** [always] of the browser's preparation: what it answers, and in which events. *)
Definition prepared (events : list Event) : Prop :=
  Forall touches_browser events.
Lemma always_prepare access (Q : list Event → Result ClassifiedError Decryptor → Prop) :
  (∀ events r, prepared events → Q events r) → always (prepare access) Q.
Proof.
  intros HQ. unfold prepare. apply always_ask. intros d. unfold prepared in HQ.
  destruct d; cbn [negb]; [|by apply HQ; repeat constructor].
  destruct access; [by apply HQ; repeat constructor|].
  apply always_ask. intros [l|]; by apply HQ; repeat constructor.
Qed.

Lemma tokens_app l k : tokens (l ++ k) = tokens l ++ tokens k.
Proof. apply omap_app. Qed.
Lemma tokens_prepared events : prepared events → tokens events = [].
Proof.
  unfold prepared. induction 1 as [|[T call answer] events He _ IH]; [done|]. cbn. by destruct call.
Qed.
Lemma primary_error_app self l k e : primary_error self l = Some e → primary_error self (l ++ k) = Some e.
Proof. unfold primary_error. rewrite omap_app. by destruct (omap _ l). Qed.
Lemma may_touch_app self l k : may_touch self l → true ∉ tokens k → may_touch self (l ++ k).
Proof.
  intros (Hf & Ht & e & He & Ha) Hk. split; [done|]. split; [rewrite tokens_app; set_solver|].
  exists e. by split; [apply primary_error_app|].
Qed.
Lemma careful_app self b l k : careful self b (l ++ k) ↔ careful self b l ∧ careful self (b ++ l) k.
Proof.
  revert b. induction l as [|e l IH]; intros b; cbn; [by rewrite app_nil_r; tauto|].
  rewrite IH, <-app_assoc. cbn. tauto.
Qed.
(** A stretch in which every touch is after looks at a live token only. *)
Lemma careful_touched self b l : may_touch self b → true ∉ tokens l → careful self b l.
Proof.
  revert b. induction l as [|e l IH]; intros b Hb Hl; [done|]. cbn. split; [done|].
  assert (He : true ∉ tokens [e] ∧ true ∉ tokens l).
  { change (e :: l) with ([e] ++ l) in Hl. rewrite tokens_app in Hl. set_solver. }
  apply IH; [|apply He]. apply may_touch_app; [done|apply He].
Qed.
Lemma careful_untouched self b l : Forall (λ e, ¬ touches_browser e) l → careful self b l.
Proof. intros Hl. revert b. induction Hl as [|e l He _ IH]; intros b; cbn; [done|]. split; [done|apply IH]. Qed.

(** A live look last means no dead look before. *)
Lemma monotone_live_end l : monotone (tokens (l ++ [Answered IsCancelled false])) →
  true ∉ tokens (l ++ [Answered IsCancelled false]).
Proof.
  rewrite tokens_app. cbn. induction (tokens l) as [|b k IH]; cbn.
  - intros _. set_solver.
  - intros [Hb Hm] [<-|Hin]%elem_of_cons; [|by apply IH].
    specialize (Hb eq_refl). rewrite Forall_forall in Hb. specialize (Hb false). cbn in Hb. set_solver.
Qed.

Section lawful.
Context (self : LazyProviderRefreshSource).
Record lawful (events : list Event) (r : Result ClassifiedError UsageSample) : Prop := {
  lawful_careful : careful self [] events;
  lawful_sample : ∀ sample, r = Ok sample →
    fetched (lazy_scope self) (lazy_source self) events sample ∨ fetched (lazy_scope self) BrowserSession events sample;
  lawful_cancel : true ∈ tokens events → monotone (tokens events) → r = Err (classified Network);
  lawful_error : ∀ error e, primary_error self events = Some error → r = Err e → true ∉ tokens events →
    ClassifiedError.kind error ≠ MissingCredential → e = error;
}.
(** The end of a run whose primary source failed with [e]. *)
Lemma lawful_stop pre more e e' : careful self [] (pre ++ more) → primary_error self pre = Some e →
  (true ∈ tokens (pre ++ more) → monotone (tokens (pre ++ more)) → e' = classified Network) →
  (true ∉ tokens (pre ++ more) → ClassifiedError.kind e ≠ MissingCredential → e' = e) →
  lawful (pre ++ more) (Err e').
Proof.
  intros Hc He Hcan Herr. split; [done|done| |].
  - intros Ht Hm. by rewrite Hcan.
  - intros error e1 Hp [= <-] Ht Hk. rewrite (primary_error_app _ _ _ _ He) in Hp. injection Hp as <-. by apply Herr.
Qed.
Lemma resolve_other e e' : ClassifiedError.kind e ≠ MissingCredential → resolve_fallback_error e e' = e.
Proof. unfold resolve_fallback_error. intros Hk. by rewrite bool_decide_false. Qed.
Lemma always_browser pre e : careful self [] pre → may_touch self pre → primary_error self pre = Some e →
  always (browser_attempt self (lazy_scope self) e) (λ more r, lawful (pre ++ more) r).
Proof.
  intros Hc Hm He. pose proof Hm as (_ & Hlive & _). unfold browser_attempt.
  assert (Hstop : ∀ more e', true ∉ tokens more → (ClassifiedError.kind e ≠ MissingCredential → e' = e) →
    lawful (pre ++ more) (Err e')).
  { intros more e' Ht Hr. eapply lawful_stop; [|exact He| |].
    - apply careful_app. split; [done|]. by apply careful_touched.
    - rewrite tokens_app. set_solver.
    - done. }
  apply always_async_bind, always_or_else, always_prepare. intros ev1 r1 Hev1. pose proof (tokens_prepared _ Hev1) as Ht1.
  assert (Hcancel : ∀ more tail, true ∉ tokens more → Forall (λ e, ¬ touches_browser e) tail → true ∈ tokens tail →
    lawful (pre ++ more ++ tail) (Err (classified Network))).
  { intros more tail Ht Hu Hin. eapply lawful_stop; [|exact He|done|].
    - apply careful_app. split; [done|]. apply careful_app. split; [by apply careful_touched|by apply careful_untouched].
    - rewrite !tokens_app. set_solver. }
  destruct r1 as [decryptor|e1].
  2:{ cbn. rewrite app_nil_r. apply Hstop; [by rewrite Ht1; apply not_elem_of_nil|]. apply resolve_other. }
  apply always_unless_cancelled.
  { apply Hcancel; [by rewrite Ht1; apply not_elem_of_nil|by repeat constructor; auto|by left]. }
  apply always_async_bind, always_or_else. intros r2. set (ev2 := ev1 ++ [Answered IsCancelled false; Answered SystemTimestamp r2]).
  assert (Ht2 : true ∉ tokens ev2). { unfold ev2. rewrite tokens_app, Ht1. cbn. set_solver. }
  assert (Hev2 : ∀ l, pre ++ ev1 ++ Answered IsCancelled false :: Answered SystemTimestamp r2 :: l = pre ++ ev2 ++ l).
  { intros l. unfold ev2. by rewrite <-app_assoc. }
  destruct r2 as [now|e2]; cbn [always app]; rewrite ?Hev2.
  2:{ rewrite app_nil_r. apply Hstop; [done|]. apply resolve_other. }
  apply always_ask. intros built. apply always_bind.
  set (ev3 := ev2 ++ [Answered (BuildBrowserAdapter (lazy_scope self) decryptor now) built]).
  assert (Ht3 : true ∉ tokens ev3). { unfold ev3. rewrite tokens_app. cbn. set_solver. }
  (* the last look at the token, whatever the fetch answered *)
  assert (Hlast : ∀ tail r, Forall (λ e, ¬ touches_browser e) tail →
    (∀ sample, r = Ok sample → fetched (lazy_scope self) BrowserSession (pre ++ ev3 ++ tail ++ [Answered IsCancelled false]) sample) →
    always (unless_cancelled (Done (map_err (resolve_fallback_error e) r)))
      (λ more b, lawful (pre ++ ev3 ++ tail ++ more) b)).
  { intros tail r Hu Hr. apply always_unless_cancelled.
    { apply Hcancel; [done|by apply Forall_app; split; [done|repeat constructor; auto]|]. rewrite tokens_app. set_solver. }
    assert (Hcar : careful self [] (pre ++ ev3 ++ tail ++ [Answered IsCancelled false])).
    { apply careful_app. split; [done|]. apply careful_app. split; [by apply careful_touched|].
      apply careful_untouched, Forall_app. split; [done|repeat constructor; auto]. }
    cbn. destruct r as [sample|e3]; cbn.
    - split; [done| | |done].
      + intros s [= <-]. right. by apply Hr.
      + intros Hin Hmono. exfalso. rewrite !app_assoc in Hin, Hmono. by apply monotone_live_end in Hmono.
    - eapply lawful_stop; [done|exact He| |].
      + intros Hin Hmono. exfalso. rewrite !app_assoc in Hin, Hmono. by apply monotone_live_end in Hmono.
      + intros _. apply resolve_other. }
  assert (Hev3 : ∀ l, pre ++ ev1 ++ Answered IsCancelled false :: Answered SystemTimestamp (Ok now) ::
    Answered (BuildBrowserAdapter (lazy_scope self) decryptor now) built :: l = pre ++ ev3 ++ l).
  { intros l. unfold ev3, ev2. by rewrite <-!app_assoc. }
  assert (Hfin : ∀ tail r, Forall (λ e, ¬ touches_browser e) tail →
    (∀ sample, r = Ok sample → ∃ a, Answered (FetchAdapter a (context_new (lazy_scope self) BrowserSession)) r ∈ tail ∧
       descriptor_id (adapter_descriptor a) = AccountScope.provider (lazy_scope self) ∧
       has_source (descriptor_sources (adapter_descriptor a)) BrowserSession = true) →
    always (unless_cancelled (Done (map_err (resolve_fallback_error e) r)))
      (λ more b, lawful (pre ++ ev1 ++ Answered IsCancelled false :: Answered SystemTimestamp (Ok now) ::
        Answered (BuildBrowserAdapter (lazy_scope self) decryptor now) built :: tail ++ more) b)).
  { intros tail r Hu Hr. eapply always_mono; [apply (Hlast tail r Hu)|intros more b Hb; by rewrite Hev3].
    intros sample ->. destruct (Hr sample eq_refl) as (a & Hin & Ha). exists a. split; [|done].
    rewrite !elem_of_app. auto. }
  apply always_fetch_lazy; [intros e3 _|intros a _; split|intros a r -> Hid Hsrc].
  - by apply (Hfin []).
  - by apply (Hfin []).
  - apply (Hfin [Answered IsCancelled true]); [repeat constructor; auto|done].
  - apply (Hfin [Answered IsCancelled false; Answered (FetchAdapter a _) r]); [repeat constructor; auto|].
    intros sample ->. exists a. split; [|done]. right. by left.
Qed.
Lemma always_lazy : always (lazy_fetch_required self (lazy_scope self)) lawful.
Proof.
  unfold lazy_fetch_required. rewrite bool_decide_true by done. cbn [negb].
  apply always_unless_cancelled; [split; try done|].
  apply always_ask. intros adapter. apply always_or_else.
  set (pre := [Answered IsCancelled false; Answered (BuildAdapter (lazy_scope self)) adapter]).
  assert (Hpre : Forall (λ e, ¬ touches_browser e) pre) by (repeat constructor; auto).
  assert (Hplain : ∀ events e, Forall (λ e, ¬ touches_browser e) events →
    (true ∈ tokens events → monotone (tokens events) → e = classified Network) →
    (∀ error, primary_error self events = Some error → true ∉ tokens events → e = error) → lawful events (Err e)).
  { intros events e Hu Hcan Herr. split; [by apply careful_untouched|done| |].
    - intros Ht Hm. by rewrite Hcan.
    - intros error e' Hp [= <-] Ht _. by apply Herr. }
  (* the handler of a failed fetch *)
  assert (Hfail : ∀ tail e, Forall (λ e, ¬ touches_browser e) tail →
    (true ∈ tokens tail → e = classified Network) →
    (∀ error, primary_error self (pre ++ tail) = Some error → e = error) →
    (auth_failure e → primary_error self (pre ++ tail) = Some e) →
    always (if negb (browser_fallback self) then Done (Err e) else
            unless_cancelled (if negb (should_try_browser_fallback e) then Done (Err e)
                              else browser_attempt self (lazy_scope self) e))
      (λ more b, lawful (pre ++ tail ++ more) b)).
  { intros tail e Hu Hcan Herr Hauth.
    assert (Hu' : ∀ more, Forall (λ e, ¬ touches_browser e) more → Forall (λ e, ¬ touches_browser e) (pre ++ tail ++ more)).
    { intros more Hm. by rewrite !Forall_app. }
    assert (Ht : ∀ more, true ∈ tokens (pre ++ tail ++ more) → true ∈ tokens tail ∨ true ∈ tokens more).
    { intros more. rewrite !tokens_app, !elem_of_app. change (tokens pre) with [false]. intros [Hin|?]; [|done].
      by apply list_elem_of_singleton in Hin. }
    assert (Hlate : ∀ more, true ∉ tokens (pre ++ tail ++ more) → true ∉ tokens tail).
    { intros more Hn Hin. apply Hn. rewrite !tokens_app, !elem_of_app. auto. }
    assert (Hend : ∀ more, Forall (λ e, ¬ touches_browser e) more → tokens more = [] ∨ more = [Answered IsCancelled false] →
      (∀ error, primary_error self (pre ++ tail ++ more) = Some error → e = error) → lawful (pre ++ tail ++ more) (Err e)).
    { intros more Hm Hmt He. apply Hplain; [by apply Hu'| |auto]. intros Hin _. apply Hcan. destruct (Ht _ Hin) as [?|Hin']; [done|].
      destruct Hmt as [Hmt| ->]; [rewrite Hmt in Hin'; by apply not_elem_of_nil in Hin'|by apply list_elem_of_singleton in Hin']. }
    destruct (browser_fallback self) eqn:Hf; cbn [negb].
    2:{ apply Hend; [constructor|by left|]. rewrite app_nil_r. apply Herr. }
    apply always_unless_cancelled.
    { apply Hplain; [apply Hu'; repeat constructor; auto|done|]. intros error _ Hn. exfalso. apply Hn.
      rewrite !tokens_app, !elem_of_app. right. right. by left. }
    destruct (should_try_browser_fallback e) eqn:Hs; cbn [negb].
    - apply should_try_spec in Hs. specialize (Hauth Hs).
      assert (Hlive : true ∉ tokens tail). { intros Hin. rewrite (Hcan Hin) in Hs. by destruct Hs. }
      set (pre' := pre ++ tail ++ [Answered IsCancelled false]).
      assert (He : primary_error self pre' = Some e).
      { unfold pre'. rewrite app_assoc. by apply primary_error_app. }
      eapply always_mono; [apply (always_browser pre' e)|].
      + apply careful_untouched, Hu'. repeat constructor; auto.
      + split; [done|]. split; [|by exists e]. intros Hin. destruct (Ht _ Hin) as [?|Hin']; [done|].
        by apply list_elem_of_singleton in Hin'.
      + done.
      + intros more b. unfold pre'. by rewrite <-!app_assoc.
    - apply (Hend [Answered IsCancelled false]); [repeat constructor; auto|by right|].
      intros error. rewrite app_assoc. unfold primary_error. rewrite omap_app. cbn. rewrite app_nil_r. apply Herr. }
  apply always_fetch_lazy; [intros e ->|intros a ->; split|intros a r -> Hid Hsrc].
  - apply (Hfail []); [done|by intros ?%not_elem_of_nil|by intros error [= <-]|done].
  - apply (Hfail []); [done|by intros ?%not_elem_of_nil|done|by intros []].
  - apply (Hfail [Answered IsCancelled true]); [repeat constructor; auto|done|done|by intros []].
  - set (tail := [Answered IsCancelled false; Answered (FetchAdapter a (context_new (lazy_scope self) (lazy_source self))) r]).
    assert (Hpe : primary_error self (pre ++ tail) = match r with Err e => Some e | Ok _ => None end).
    { unfold primary_error, pre, tail. cbn. rewrite bool_decide_true by done. by destruct r. }
    assert (Hu : Forall (λ e, ¬ touches_browser e) tail) by (repeat constructor; auto).
    destruct r as [sample|e].
    + change (lawful (pre ++ tail) (Ok sample)). split; [by apply careful_untouched, Forall_app| |intros Hin; cbn in Hin; set_solver|done].
      intros s [= <-]. left. exists a. split; [|done]. unfold tail. rewrite elem_of_app, !elem_of_cons. auto.
    + apply (Hfail tail); [done| | |done]; rewrite ?Hpe.
      * intros Hin. by apply list_elem_of_singleton in Hin.
      * by intros error [= ->].
Qed.
End lawful.

(** C26. A lazily built source asks nothing for another account; touches browser
    profiles or the keyring only with a browser fallback, after its primary source
    failed for want of valid credentials and while no look at the token has found it
    cancelled; returns only samples an adapter of the account's provider fetched for
    that account; reports a cancellation it saw as such, and otherwise keeps the
    primary error unless that was a missing credential. *)
Theorem browser_only_after_auth_failure self scope events r :
  run (lazy_fetch_required self scope) events r →
  (scope ≠ lazy_scope self → events = [] ∧ r = Err (classified Api)) ∧
  (∀ before e after, events = before ++ e :: after → touches_browser e → may_touch self before) ∧
  (∀ sample, r = Ok sample → fetched scope (lazy_source self) events sample ∨ fetched scope BrowserSession events sample) ∧
  (true ∈ tokens events → monotone (tokens events) → r = Err (classified Network)) ∧
  (∀ error e, primary_error self events = Some error → r = Err e → true ∉ tokens events →
     ClassifiedError.kind error ≠ MissingCredential → e = error).
Proof.
  intros Hrun. destruct (decide (scope = lazy_scope self)) as [->|Hne].
  - destruct (always_run _ _ _ _ Hrun (always_lazy self)) as [Hc Hs Ht He]. split; [done|]. split; [|done].
    intros before e after -> Hb. exact (careful_split _ [] _ _ _ Hc Hb).
  - assert (Ha : always (lazy_fetch_required self scope) (λ events r, events = [] ∧ r = Err (classified Api))).
    { unfold lazy_fetch_required. by rewrite bool_decide_false. }
    destruct (always_run _ _ _ _ Hrun Ha) as [-> ->]. split; [done|]. split; [by intros []|].
    split; [done|]. split; [by intros ?%not_elem_of_nil|done].
Qed.

(** ** The history cache *)

(** What the calls before a scan found of the cache. *)
Inductive cache_miss (updated_at : Timestamp) : list Event → Prop :=
| miss_empty guard : guard = None ∨ guard = Some None → cache_miss updated_at [Answered CacheGet guard]
| miss_unfit cached_at s elapsed :
    history_lifetime ≤ elapsed ∨ date (CostUsageSnapshot.updated_at s) ≠ date updated_at →
    cache_miss updated_at [Answered CacheGet (Some (Some (cached_at, s))); Answered (Elapsed cached_at) elapsed].
Definition scan_result (joined : option (Result ClassifiedError (option CostUsageSnapshot))) :=
  match joined with Some r => r | None => Err (classified ProviderUnavailable) end.
(** What a scan leaves in the cache. *)
Inductive remembered (joined : option (Result ClassifiedError (option CostUsageSnapshot))) : list Event → Prop :=
| remembered_snapshot s now : joined = Some (Ok (Some s)) →
    remembered joined [Answered InstantNow now; Answered (CachePut (now, s)) tt]
| remembered_nothing : (∀ s, joined ≠ Some (Ok (Some s))) → remembered joined [].
Lemma always_scan root updated_at :
  always (scan_and_cache root updated_at) (λ events r, ∃ joined after,
    events = Answered (ScanHistory root updated_at) joined :: after ∧ r = scan_result joined ∧ remembered joined after).
Proof.
  intros joined. destruct joined as [[[s|]|e]|]; cbn.
  - intros now []. eexists _, _. split; [done|]. split; [done|]. by apply (remembered_snapshot _ s).
  - eexists _, _. split; [done|]. split; [done|]. by apply remembered_nothing.
  - eexists _, _. split; [done|]. split; [done|]. by apply remembered_nothing.
  - eexists _, _. split; [done|]. split; [done|]. by apply remembered_nothing.
Qed.

(** The remembered history answers exactly when the refresh is not manual, it is
    less than fifteen minutes old and of the same day; otherwise there is one scan,
    whose result is the answer and, when it found a history, is remembered. *)
Theorem history_cache_exact root updated_at manual events r :
  run (fetch_local_history (Some root) updated_at manual) events r →
  (∃ cached_at s elapsed, manual = false ∧
     events = [Answered CacheGet (Some (Some (cached_at, s))); Answered (Elapsed cached_at) elapsed] ∧
     elapsed < history_lifetime ∧ date (CostUsageSnapshot.updated_at s) = date updated_at ∧ r = Ok (Some s)) ∨
  (∃ before joined after, events = before ++ Answered (ScanHistory root updated_at) joined :: after ∧
     (if manual : bool then before = [] else cache_miss updated_at before) ∧
     r = scan_result joined ∧ remembered joined after).
Proof.
  intros Hrun. refine (always_run _ (λ events r, _ ∨ _) _ _ Hrun _). clear Hrun. unfold fetch_local_history.
  destruct manual; cbn [mbind].
  { eapply always_mono; [apply always_scan|]. intros ev b (joined & after & -> & -> & Hr). right.
    by exists [], joined, after. }
  assert (Hscan : ∀ before, cache_miss updated_at before → always (scan_and_cache root updated_at) (λ more b,
    (∃ cached_at s elapsed, false = false ∧
       before ++ more = [Answered CacheGet (Some (Some (cached_at, s))); Answered (Elapsed cached_at) elapsed] ∧
       elapsed < history_lifetime ∧ date (CostUsageSnapshot.updated_at s) = date updated_at ∧ b = Ok (Some s)) ∨
    (∃ before' joined after, before ++ more = before' ++ Answered (ScanHistory root updated_at) joined :: after ∧
       cache_miss updated_at before' ∧ b = scan_result joined ∧ remembered joined after))).
  { intros before Hm. eapply always_mono; [apply always_scan|]. intros ev b (joined & after & -> & -> & Hr). right.
    by exists before, joined, after. }
  intros [[[cached_at s]|]|]; cbn.
  - intros elapsed. destruct (Z.ltb_spec elapsed history_lifetime) as [Hl|Hl]; cbn.
    + destruct (Z.eqb_spec (date (CostUsageSnapshot.updated_at s)) (date updated_at)) as [Hd|Hd]; cbn.
      * left. by exists cached_at, s, elapsed.
      * apply (Hscan [_; _]). by apply miss_unfit; right.
    + apply (Hscan [_; _]). by apply miss_unfit; left.
  - apply (Hscan [_]). by apply miss_empty; right.
  - apply (Hscan [_]). by apply miss_empty; left.
Qed.
End facts.

(** ** Concrete inputs *)
Module RefreshExample.
#[local] Existing Instance Reference.decimal.
Definition scope : AccountScope :=
  AccountScope.mk ProviderId.Amp (ProviderInstanceId.mk (lit "default")) (AccountKey.mk (lit "a")).
Definition source : LazyProviderRefreshSource :=
  mk_lazy scope ApiKey true KeyringEnabled None None None None None None.
Definition missing : ClassifiedError := classified MissingCredential.
Definition before : list Event :=
  [Answered IsCancelled false; Answered (BuildAdapter scope) (Err missing); Answered IsCancelled false].
Definition events : list Event := before ++ [Answered DiscoverProfiles false].
Lemma run_example : run (lazy_fetch_required source scope) events (Err missing).
Proof. repeat (apply run_call || apply run_done). Qed.
Lemma browser_only_after_auth_failure_witness : may_touch source before.
Proof.
  refine (proj1 (proj2 (browser_only_after_auth_failure source scope events (Err missing) run_example))
    before (Answered DiscoverProfiles false) [] _ _); [reflexivity|exact I].
Defined.
Definition root : HistoryRoot := HistoryPath (lit "/h") ProviderId.Claude.
Definition history_events : list Event :=
  [Answered CacheGet (Some None); Answered (ScanHistory root (Timestamp.mk 0)) (Some (Ok None))].
Lemma run_history : run (fetch_local_history (Some root) (Timestamp.mk 0) false) history_events (Ok None).
Proof. repeat (apply run_call || apply run_done). Qed.
Lemma history_cache_exact_witness :
  (∃ cached_at s elapsed, false = false ∧
     history_events = [Answered CacheGet (Some (Some (cached_at, s))); Answered (Elapsed cached_at) elapsed] ∧
     elapsed < history_lifetime ∧ date (CostUsageSnapshot.updated_at s) = date (Timestamp.mk 0) ∧ Ok None = Ok (Some s) :> Result ClassifiedError _) ∨
  (∃ before joined after, history_events = before ++ Answered (ScanHistory root (Timestamp.mk 0)) joined :: after ∧
     cache_miss (Timestamp.mk 0) before ∧ Ok None = scan_result joined ∧ remembered joined after).
Proof. exact (history_cache_exact root (Timestamp.mk 0) false history_events (Ok None) run_history). Defined.
End RefreshExample.
