(* ===== verification/FixedApi.v ===== *)
(** * API-key clients and configured endpoints
      (crates/providers/src/fixed_api.rs, configured_endpoint.rs)

    The key of an account as the environment gives it, the client that attaches
    it to requests of one origin and one account, and the parsing of configured
    base URLs.  The transport is Transport.v's; [Url::origin], the path-segment
    editor and [serde_json] are classes. *)
From stdpp Require Import gmap sorting prelude.
From S2P Require Import Prelude Ordering Text Percentage Externals Scope Errors Scheduler Endpoint Transport Config Registry ProviderRefresh.
Local Open Scope Z_scope.

(** ** Keys *)

Definition MAX_API_KEY_BYTES : Z := 16 * 1024.
Definition QUOTE : Z := 34.
Definition APOSTROPHE : Z := 39.

(** [starts_with] and [ends_with] of one character. *)
Definition begins (c : Z) (s : str) : bool := bool_decide (head s = Some c).
Definition ends (c : Z) (s : str) : bool := bool_decide (last s = Some c).
Definition is_quoted (value : str) : bool :=
  (begins QUOTE value && ends QUOTE value) || (begins APOSTROPHE value && ends APOSTROPHE value).
(** [&value[1..value.len() - 1]] *)
Definition inner (value : str) : str := removelast (tail value).
Definition clean_secret (raw : str) : option str :=
  let value := trim raw in
  let value := if (2 <=? str_len value) && is_quoted value then inner value else value in
  let value := trim value in
  if is_empty value then None else Some value.
(** Positions are in characters. *)
Definition trim_owned_string (value : str) : str :=
  let start := Z.max 0 (count value - count (trim_start value)) in
  let stop := count (trim_end value) in
  if stop <=? start then [] else drop (Z.to_nat start) (take (Z.to_nat stop) value).
Definition clean_owned_secret (value : str) : option str :=
  let value := trim_owned_string value in
  let value := if (2 <=? str_len value) && is_quoted value then removelast (tail value) else value in
  let value := trim_owned_string value in
  if is_empty value then None else Some value.

Record ApiKeyCredential := mk_credential { credential_value : str }.
Definition from_cleaned (value : str) : Result ClassifiedError ApiKeyCredential :=
  if (MAX_API_KEY_BYTES <? str_len value) || bool_decide (13 ∈ value) || bool_decide (10 ∈ value)
  then Err (classified MissingCredential) else Ok (mk_credential value).
Definition credential_new (value : str) : Result ClassifiedError ApiKeyCredential :=
  match clean_secret value with None => Err (classified MissingCredential) | Some value => from_cleaned value end.
Definition from_zeroizing (value : str) : Result ClassifiedError ApiKeyCredential :=
  match clean_owned_secret value with None => Err (classified MissingCredential) | Some value => from_cleaned value end.
Definition resolve (environment : gmap str str) (keys : list str) : Result ClassifiedError ApiKeyCredential :=
  ok_or (value ← head (omap clean_secret (omap (λ key, environment !! key) keys)); result_ok (from_cleaned value))
    (classified MissingCredential).

(** ** JSON web tokens *)

Definition decode_digit (byte : Z) : option Z :=
  if is_ascii_upper byte then Some (byte - 65)
  else if is_ascii_lower byte then Some (byte - 97 + 26)
  else if is_ascii_digit byte then Some (byte - 48 + 52)
  else if (byte =? 45) || (byte =? 43) then Some 62
  else if (byte =? 95) || (byte =? 47) then Some 63
  else None.
(** The loop, its [u32] accumulator and bit count. *)
Fixpoint decode_bits (bytes : list Z) (accumulator bits : Z) : option (list Z * Z * Z) :=
  match bytes with
  | [] => Some ([], accumulator, bits)
  | byte :: bytes =>
      digit ← decode_digit byte;
      let accumulator := Z.lor (Z.land (Z.shiftl accumulator 6) u32_max) digit in
      let bits := bits + 6 in
      let '(byte, bits) := if 8 <=? bits then (Some (Z.land (Z.shiftr accumulator (bits - 8)) 0xff), bits - 8)
                           else (None, bits) in
      let accumulator := Z.land accumulator (if bits =? 0 then 0 else Z.shiftl 1 bits - 1) in
      '(decoded, accumulator, bits) ← decode_bits bytes accumulator bits;
      Some (option_list byte ++ decoded, accumulator, bits)
  end.
Fixpoint before_padding (value : list Z) : list Z :=
  match value with
  | [] => []
  | byte :: value => if byte =? 61 then [] else byte :: before_padding value
  end.
Definition decode_base64_url (value : list Z) : option (list Z) :=
  let unpadded := before_padding value in
  let unpadded_length := count unpadded in
  let padding := Z.max 0 (count value - unpadded_length) in
  let remainder := unpadded_length mod 4 in
  if existsb (λ byte, negb (byte =? 61)) (drop (length unpadded) value)
     || (2 <? padding) || (remainder =? 1)
     || ((0 <? padding) && negb (padding =? (4 - remainder) mod 4))
  then None else
  '(decoded, accumulator, bits) ← decode_bits unpadded 0 0;
  if (0 <? bits) && negb (Z.land accumulator (Z.shiftl 1 bits - 1) =? 0) then None else Some decoded.

(** [serde_json::from_slice] of a value that is an object. *)
Class JsonObjects := is_json_object : list Z → bool.
(** [split(|byte| *byte == b'.')] *)
Fixpoint split_dots (value : list Z) : list (list Z) :=
  match value with
  | [] => [[]]
  | byte :: value =>
      let parts := split_dots value in
      if byte =? 46 then [] :: parts else match parts with part :: parts => (byte :: part) :: parts | [] => [[byte]] end
  end.
Definition jwt_payload_is_object `{JsonObjects} (value : list Z) : bool :=
  match split_dots value with
  | [_; payload; _] =>
      if is_empty payload then false else
      match decode_base64_url payload with Some decoded => is_json_object decoded | None => false end
  | _ => false
  end.
Definition is_structured_jwt `{JsonObjects} (self : ApiKeyCredential) : bool :=
  jwt_payload_is_object (as_bytes (credential_value self)).

(** ** The client *)

(** [Url::origin]: its serialization, and equality of the origins of two URLs. *)
Class UrlOrigin `{UrlCrate} := {
  origin_serialization : Url → str;
  same_origin : Url → Url → bool;
}.
(** What the crate documents: two origins are the same when scheme, host and port
    are, and a serialized origin parses to a URL of that origin. *)
Class UrlOriginLaws `{UrlOrigin} : Prop := {
  origin_parses u o : url_parse (origin_serialization u) = Some o →
    scheme o = scheme u ∧ host_str o = host_str u ∧ port_or_known_default o = port_or_known_default u;
  same_origin_spec u v : same_origin u v = true →
    scheme u = scheme v ∧ host_str u = host_str v ∧ port_or_known_default u = port_or_known_default v;
}.
(** Whether reqwest builds its client. *)
Class ClientBuilder := client_builds : TransportConfig → bool.

Inductive ApiKeyAuthentication :=
| BearerKey
| SchemeKey (scheme : str)
| HeaderKey (header : str).
Inductive OptionalRequestError :=
| OptionalStatus (status : Z)
| OptionalTimeout
| OptionalOther (kind : ErrorKind).

Section client.
Context `{UrlOrigin} `{HttpCrate} `{TimeCrate} `{!CloudSigning} `{ClientBuilder}.

Record FixedApiClient := mk_client {
  client_scope : AccountScope;
  client_source : ProviderSource;
  base_url : Url;
  client_authentication : ApiKeyAuthentication;
  client_credential : ApiKeyCredential;
  client_config : TransportConfig;
  client_transport : HttpTransport;
}.

(** [error.classified()] *)
Definition classify {A} (r : Result TransportError A) : Result ClassifiedError A :=
  map_err TransportError.classified r.
Definition authenticate (credential : ApiKeyCredential) (a : ApiKeyAuthentication) : Result ClassifiedError Authentication :=
  classify match a with
  | BearerKey => auth_bearer (credential_value credential)
  | SchemeKey scheme => auth_authorization_scheme scheme (credential_value credential)
  | HeaderKey header => auth_api_key header (credential_value credential)
  end.
Definition transport_new (endpoints : EndpointPolicy) (config : TransportConfig) : Result TransportError HttpTransport :=
  if client_builds config then Ok (mk_transport endpoints config) else Err TransportError.InvalidConfiguration.
Definition build (scope : AccountScope) (base_url : Url) (endpoints : EndpointPolicy)
    (authentication : ApiKeyAuthentication) (credential : ApiKeyCredential) (config : TransportConfig) :
    Result ClassifiedError FixedApiClient :=
  transport ← classify (transport_new endpoints config);
  Ok (mk_client scope ApiKey base_url authentication credential config transport).
(** The one-origin policy of a base URL, which the URL itself must satisfy. *)
Definition exact_origin (base_url : Url) (endpoint_class : EndpointClass) : Result ClassifiedError EndpointPolicy :=
  endpoints ← map_err (λ _, classified Api) (policy_new [(origin_serialization base_url, endpoint_class)]);
  map_err (λ _, classified Api) (validate endpoints base_url) ;;
  Ok endpoints.
Definition client_new (scope : AccountScope) (base_url : Url) (endpoint_class : EndpointClass) (header : str)
    (credential : ApiKeyCredential) (config : TransportConfig) : Result ClassifiedError FixedApiClient :=
  endpoints ← exact_origin base_url endpoint_class;
  header ← ok_or (header_name header) (classified Api);
  authenticate credential (HeaderKey header) ;;
  build scope base_url endpoints (HeaderKey header) credential config.
Definition new_bearer (scope : AccountScope) (base_url : Url) (endpoint_class : EndpointClass)
    (credential : ApiKeyCredential) (config : TransportConfig) : Result ClassifiedError FixedApiClient :=
  endpoints ← exact_origin base_url endpoint_class;
  authenticate credential BearerKey ;;
  build scope base_url endpoints BearerKey credential config.
Definition new_authorization_scheme (scope : AccountScope) (base_url : Url) (endpoint_class : EndpointClass)
    (scheme : str) (credential : ApiKeyCredential) (config : TransportConfig) : Result ClassifiedError FixedApiClient :=
  endpoints ← exact_origin base_url endpoint_class;
  authenticate credential (SchemeKey scheme) ;;
  build scope base_url endpoints (SchemeKey scheme) credential config.
Definition set_source (source : ProviderSource) (self : FixedApiClient) : FixedApiClient :=
  mk_client (client_scope self) source (base_url self) (client_authentication self) (client_credential self)
    (client_config self) (client_transport self).
Definition with_source (self : FixedApiClient) (source : ProviderSource) : Result ClassifiedError FixedApiClient :=
  if negb (supports (AccountScope.provider (client_scope self)) source) then Err (classified Api)
  else Ok (set_source source self).
Definition rebind (self : FixedApiClient) (base_url : Url) (endpoint_class : EndpointClass) :
    Result ClassifiedError FixedApiClient :=
  endpoints ← exact_origin base_url endpoint_class;
  client ← build (client_scope self) base_url endpoints (client_authentication self) (client_credential self)
             (client_config self);
  Ok (set_source (client_source self) client).

Definition DOTDOT : str := [46; 46].
Definition url (self : FixedApiClient) (relative_path : str) : Result ClassifiedError Url :=
  if begins 47 relative_path || bool_decide (63 ∈ relative_path) || bool_decide (35 ∈ relative_path)
     || existsb (λ component, bool_decide (component = DOTDOT)) (Config.split_bytes 47 relative_path)
     || bool_decide (is_Some (url_parse relative_path))
  then Err (classified Api) else
  url ← ok_or (url_join (base_url self) relative_path) (classified Api);
  if negb (same_origin url (base_url self)) || negb (is_empty (username url)) || bool_decide (is_Some (password url))
  then Err (classified Api) else Ok url.

Definition matches_context (self : FixedApiClient) (context : ProviderContext) : bool :=
  bool_decide (context_scope context = client_scope self) && bool_decide (context_source context = client_source self).

(** A request in a given world: what went out, and the result.  [transport.send]
    ends with a response or a transport error. *)
Definition Sent (E A : Type) : Type := list SentRequest * Result E A.
Definition nothing_sent {E A} (e : E) : Sent E A := ([], Err e).
Definition stop_error (stop : Stop) : TransportError :=
  match stop with
  | Failed e => e
  | Interrupted ByDeadline | OutOfFuel => TransportError.Timeout
  | Interrupted ByCancellation => TransportError.Cancelled
  end.
Definition transport_send (w : World) (self : FixedApiClient) (request : HttpRequest) : Sent TransportError HttpResponse :=
  let '(t, r) := send w (client_transport self) request in (sent t, map_err stop_error r).
(** Checks the context and the credentials, then sends and maps the error. *)
Definition authenticated {E A} (w : World) (self : FixedApiClient) (context : ProviderContext) (request : HttpRequest)
    (refuse : ClassifiedError → E) (answer : Result TransportError HttpResponse → Result E A) : Sent E A :=
  if negb (matches_context self context) then nothing_sent (refuse (classified Api)) else
  match authenticate (client_credential self) (client_authentication self) with
  | Err e => nothing_sent (refuse e)
  | Ok authentication =>
      let '(wires, r) := transport_send w self (with_authentication request authentication) in (wires, answer r)
  end.

Definition get (w : World) (self : FixedApiClient) (context : ProviderContext) (url : Url) : Sent ClassifiedError HttpResponse :=
  authenticated w self context (request_get url) id classify.
Definition send_with_status_map (w : World) (self : FixedApiClient) (context : ProviderContext) (request : HttpRequest)
    (status_map : Z → option ErrorKind) : Sent ClassifiedError HttpResponse :=
  authenticated w self context request id (map_err (λ error,
    match status ← TransportError.http_status error; status_map status with
    | Some kind => TransportError.classified_as error kind
    | None => TransportError.classified error
    end)).
Definition client_send (w : World) (self : FixedApiClient) (context : ProviderContext) (request : HttpRequest) :
    Sent ClassifiedError HttpResponse :=
  send_with_status_map w self context request (λ _, None).
Definition get_json (w : World) (self : FixedApiClient) (context : ProviderContext) (url : Url) :
    Sent ClassifiedError HttpResponse :=
  client_send w self context (request_get_json url).
Definition get_json_with_status_map (w : World) (self : FixedApiClient) (context : ProviderContext) (url : Url)
    (status_map : Z → option ErrorKind) : Sent ClassifiedError HttpResponse :=
  send_with_status_map w self context (request_get_json url) status_map.
Definition get_json_optional_diagnostic (w : World) (self : FixedApiClient) (context : ProviderContext) (url : Url) :
    Sent OptionalRequestError HttpResponse :=
  authenticated w self context (request_get_json url) (λ e, OptionalOther (ClassifiedError.kind e)) (map_err (λ error,
    match TransportError.http_status error with
    | Some status => OptionalStatus status
    | None =>
        match error with
        | TransportError.Timeout | TransportError.RequestTimeout => OptionalTimeout
        | _ => OptionalOther (ClassifiedError.kind (TransportError.classified error))
        end
    end)).
Fixpoint with_public_headers (request : HttpRequest) (headers : list (str * str)) : Result ClassifiedError HttpRequest :=
  match headers with
  | [] => Ok request
  | (name, value) :: headers =>
      request ← classify (with_public_header request name value);
      with_public_headers request headers
  end.
(** A request that is still to be completed. *)
Definition sent_when {A} (request : Result ClassifiedError HttpRequest) (k : HttpRequest → Sent ClassifiedError A) :
    Sent ClassifiedError A :=
  match request with Ok request => k request | Err e => nothing_sent e end.
Definition get_json_with_public_headers (w : World) (self : FixedApiClient) (context : ProviderContext) (url : Url)
    (headers : list (str * str)) : Sent ClassifiedError HttpResponse :=
  sent_when (with_public_headers (empty_json_content_type (request_get_json url)) headers) (client_send w self context).
Definition get_json_with_public_headers_and_status_map (w : World) (self : FixedApiClient) (context : ProviderContext)
    (url : Url) (headers : list (str * str)) (status_map : Z → option ErrorKind) : Sent ClassifiedError HttpResponse :=
  sent_when (with_public_headers (request_get_json url) headers)
    (λ request, send_with_status_map w self context request status_map).
Definition get_optional_json (w : World) (self : FixedApiClient) (context : ProviderContext) (url : Url) :
    Sent ClassifiedError (option HttpResponse) :=
  authenticated w self context (request_get_json url) id (λ r,
    match r with
    | Ok response => Ok (Some response)
    | Err (TransportError.Api 404) => Ok None
    | Err error => Err (TransportError.classified error)
    end).
Definition post_json (w : World) (self : FixedApiClient) (context : ProviderContext) (url : Url) (body : list Z) :
    Sent ClassifiedError HttpResponse :=
  sent_when (classify (request_post_json url body)) (client_send w self context).
Definition post_json_with_public_headers (w : World) (self : FixedApiClient) (context : ProviderContext) (url : Url)
    (body : list Z) (headers : list (str * str)) : Sent ClassifiedError HttpResponse :=
  sent_when (request ← classify (request_post_json url body); with_public_headers request headers)
    (client_send w self context).
End client.

(** ** configured_endpoint.rs *)

Definition MAX_PATH_SEGMENTS : Z := 32.
Definition MAX_PATH_SEGMENT_BYTES : Z := 1024.
Inductive ConfiguredHttpPolicy := HttpsOnly | LoopbackHttp | PrivateNetworkHttp.
#[global] Instance ConfiguredHttpPolicy_eq_dec : EqDecision ConfiguredHttpPolicy.
Proof. solve_decision. Defined.

(** [Url::path_segments] and the URL with other segments ([path_segments_mut]). *)
Class UrlSegments `{UrlCrate} := {
  path_segments : Url → option (list str);
  set_segments : Url → list str → option Url;
}.

Definition clean_setting : str → option str := clean_secret.
(** [find(':')] *)
Fixpoint before_colon (s : str) : option str :=
  match s with
  | [] => None
  | c :: s => if c =? 58 then Some [] else (λ k, c :: k) <$> before_colon s
  end.
Definition has_explicit_scheme (raw : str) : bool :=
  match before_colon raw with
  | None => false
  | Some scheme =>
      match as_bytes scheme with
      | [] => false
      | first :: rest =>
          is_ascii_alphabetic first
          && forallb (λ byte, is_ascii_alphanumeric byte || bool_decide (byte ∈ [43; 45; 46])) rest
      end
  end.
Definition is_loopback (host : Host) : bool :=
  match host with
  | Domain domain => eq_ignore_ascii_case domain (lit "localhost")
  | HostIpv4 a => Ipv4.is_loopback a
  | HostIpv6 a => Ipv6.is_loopback a
  end.
Definition is_private_network (host : Host) : bool :=
  match host with
  | Domain domain =>
      match suffix_after_last_dot (trim_end_dots domain) with
      | Some suffix => eq_ignore_ascii_case suffix (lit "local")
      | None => false
      end
  | HostIpv4 a => Ipv4.is_private a || Ipv4.is_link_local a
  | HostIpv6 a => (Z.land (s0 a) 0xfe00 =? 0xfc00) || (Z.land (s0 a) 0xffc0 =? 0xfe80)
  end.

Section configured.
Context `{UrlSegments}.
Record ConfiguredEndpoint := mk_configured { configured_url : Url; configured_class : EndpointClass }.
Definition classify_http_endpoint (url : Url) (policy : ConfiguredHttpPolicy) : Result ClassifiedError EndpointClass :=
  host ← ok_or (host url) (classified Api);
  if is_loopback host then
    match policy with HttpsOnly => Err (classified Api) | LoopbackHttp | PrivateNetworkHttp => Ok LoopbackDevelopment end
  else if bool_decide (policy = PrivateNetworkHttp) && is_private_network host then Ok PrivateHttp
  else Err (classified Api).
Definition configured_parse (raw : str) (policy : ConfiguredHttpPolicy) : Result ClassifiedError ConfiguredEndpoint :=
  raw ← ok_or (clean_setting raw) (classified Api);
  if negb (has_explicit_scheme raw) then Err (classified Api) else
  url ← ok_or (url_parse raw) (classified Api);
  if negb (is_empty (username url)) || bool_decide (is_Some (password url)) || bool_decide (host_str url = None)
     || bool_decide (is_Some (query url)) || bool_decide (is_Some (fragment url))
  then Err (classified Api) else
  class ← (if is_https (scheme url) then map_err (λ _, classified Api) (classify_https_endpoint url)
           else if is_http (scheme url) then classify_http_endpoint url policy
           else Err (classified Api));
  Ok (mk_configured url class).

Definition pop_if_empty (segments : list str) : list str :=
  match last segments with Some [] => removelast segments | _ => segments end.
(** [rfind(|value| !value.is_empty())] *)
Definition last_nonempty (segments : list str) : option str :=
  last (filter (λ s, is_empty s = false) segments).
Definition bad_segment (segment : str) : bool :=
  is_empty segment || (MAX_PATH_SEGMENT_BYTES <? str_len segment)
  || bool_decide (segment ∈ [[46]; DOTDOT]) || existsb (λ c, bool_decide (c ∈ segment)) [47; 92; 63; 35].
Definition configured_path (self : ConfiguredEndpoint) (strip_terminal : option str) (segments : list str) :
    Result ClassifiedError Url :=
  if is_empty segments || (MAX_PATH_SEGMENTS <? count segments) || existsb bad_segment segments
  then Err (classified Api) else
  let url := configured_url self in
  let should_strip := match strip_terminal with
    | Some terminal => bool_decide ((values ← path_segments url; last_nonempty values) = Some terminal)
    | None => false
    end in
  base ← ok_or (path_segments url) (classified Api);
  let base := pop_if_empty base in
  let base := if should_strip then removelast base else base in
  ok_or (set_segments url (base ++ segments)) (classified Api).
End configured.
