(* ===== verification/FixedApiFacts.v ===== *)
(** * API-key clients: where a key may go

    The invariant every constructed client has, and with the transport's loop
    the requests it can send; the two cleaners of keys; the class of a
    configured endpoint. *)
From stdpp Require Import gmap sorting prelude.
From S2P Require Import Prelude Ordering Text Percentage Externals Scope Errors Scheduler Endpoint Transport Config Registry ProviderRefresh FixedApi.
Local Open Scope Z_scope.

(** ** Cleaning *)

Lemma trim_start_app a b : trim_start a ≠ [] → trim_start (a ++ b) = trim_start a ++ b.
Proof. induction a as [|c a IH]; cbn; [done|]. destruct (is_whitespace c); [apply IH|done]. Qed.
Lemma trim_end_app a b : trim_end b ≠ [] → trim_end (a ++ b) = a ++ trim_end b.
Proof.
  intros Hb. unfold trim_end in *. rewrite reverse_app, trim_start_app, reverse_app, reverse_involutive; [done|].
  intros He. rewrite He in Hb. done.
Qed.
Lemma trim_end_solid c k : is_whitespace c = false → trim_end (c :: k) ≠ [].
Proof.
  intros Hc He. destruct (trim_end_prefix (c :: k)) as (p & Hp & Hw). rewrite He in Hp. cbn in Hp. rewrite <-Hp in Hw.
  apply Forall_cons in Hw as [Hw _]. congruence.
Qed.
Lemma trim_end_blank s : Forall (λ c, is_whitespace c = true) s → trim_end s = [].
Proof.
  intros Hs. unfold trim_end. apply Forall_reverse in Hs. induction Hs as [|c l Hc _ IH]; [done|]. cbn. by rewrite Hc.
Qed.
(** Cutting the owned text at the two positions is trimming it. *)
Lemma trim_owned_trim s : trim_owned_string s = trim s.
Proof.
  unfold trim_owned_string, trim. destruct (trim_start_suffix s) as (p & Hp & Hw).
  destruct (trim_start s) as [|c k] eqn:Hs.
  - rewrite app_nil_r in Hp. subst p. rewrite (trim_end_blank s) by done. unfold count. cbn.
    by rewrite (proj2 (Z.leb_le _ _)) by lia.
  - pose proof (trim_start_head _ _ _ Hs) as Hc. pose proof (trim_end_solid c k Hc) as Hne.
    destruct (trim_end_prefix (c :: k)) as (w & Hk & _). set (t := trim_end (c :: k)) in *.
    rewrite Hp, trim_end_app by done. fold t. rewrite Hk. unfold count. rewrite !length_app.
    assert (length t ≠ 0%nat) by (by destruct t).
    rewrite (proj2 (Z.leb_gt _ _)) by lia.
    replace (Z.to_nat (Z.of_nat (length p + length t))) with (length (p ++ t)) by (rewrite length_app; lia).
    rewrite app_assoc, take_app_length.
    replace (Z.to_nat _) with (length p) by lia. by rewrite drop_app_length.
Qed.

(** The two cleaners, of a borrowed and of an owned key, agree. *)
Theorem cleaners_agree raw : clean_owned_secret raw = clean_secret raw.
Proof. unfold clean_owned_secret, clean_secret, inner. by rewrite !trim_owned_trim. Qed.

(** ** Clients *)

Section client.
Context `{UrlOriginLaws} `{HttpCrate} `{TimeCrate} `{!CloudSigning} `{ClientBuilder}.

(** Clients as the constructors make them. *)
Inductive constructed : FixedApiClient → Prop :=
| constructed_header scope url class header credential config c :
    client_new scope url class header credential config = Ok c → constructed c
| constructed_bearer scope url class credential config c :
    new_bearer scope url class credential config = Ok c → constructed c
| constructed_scheme scope url class scheme credential config c :
    new_authorization_scheme scope url class scheme credential config = Ok c → constructed c
| constructed_source c source c' : constructed c → with_source c source = Ok c' → constructed c'
| constructed_rebound c url class c' : constructed c → rebind c url class = Ok c' → constructed c'.

(** The transport of a client knows one origin: its base URL's. *)
Definition one_origin (c : FixedApiClient) : Prop :=
  ∃ class, policy_new [(origin_serialization (base_url c), class)] = Ok (endpoints (client_transport c)) ∧
    config (client_transport c) = client_config c.
Lemma exact_origin_Ok base class p :
  exact_origin base class = Ok p → policy_new [(origin_serialization base, class)] = Ok p.
Proof. unfold exact_origin. intros H'. result_inv. Qed.
Lemma build_Ok scope base p a credential config c : build scope base p a credential config = Ok c →
  base_url c = base ∧ endpoints (client_transport c) = p ∧ Transport.config (client_transport c) = config ∧
  client_config c = config ∧ client_scope c = scope.
Proof.
  unfold build, transport_new, classify. destruct (client_builds config); cbn; [|done]. by intros [= <-].
Qed.
Lemma constructed_one_origin c : constructed c → one_origin c.
Proof.
  assert (Hb : ∀ scope base class p a credential config c, exact_origin base class = Ok p →
    build scope base p a credential config = Ok c → one_origin c).
  { intros ???????? Hp%exact_origin_Ok Hc%build_Ok. destruct Hc as (E1 & E2 & E3 & E4 & _). exists class. split; congruence. }
  induction 1 as [??????? Hc|?????? Hc|??????? Hc|c source c' _ IH Hc|c url class c' _ IH Hc].
  - unfold client_new in Hc. result_inv. by eapply Hb.
  - unfold new_bearer in Hc. result_inv. by eapply Hb.
  - unfold new_authorization_scheme in Hc. result_inv. by eapply Hb.
  - unfold with_source in Hc. destruct (negb _); [done|]. injection Hc as <-. exact IH.
  - unfold rebind in Hc. apply bind_Ok in Hc as (p & Hp & (c1 & Hc1 & [= <-])%bind_Ok).
    destruct (Hb _ _ _ _ _ _ _ _ Hp Hc1) as (class' & ? & ?). by exists class'.
Qed.
Lemma one_origin_validate c u v : one_origin c → validate (endpoints (client_transport c)) u = Ok v →
  scheme u = scheme (base_url c) ∧ port_or_known_default u = port_or_known_default (base_url c) ∧
  ∃ h b, host_str u = Some h ∧ host_str (base_url c) = Some b ∧ eq_ignore_ascii_case h b = true.
Proof.
  intros (class & Hp & _) (_ & _ & _ & h & port & o & Hh & Hport & Hf & _)%validate_Ok.
  unfold policy_new in Hp. apply bind_Ok in Hp as (parsed & Hparse & Hp). destruct (is_empty parsed); [done|].
  injection Hp as Hp. rewrite <-Hp in Hf. cbn [origins] in Hf.
  rewrite (policy_find _ _ _ _ _ Hparse) in Hf.
  apply parse_origins_Ok in Hparse as (l & -> & Hl). inversion Hl as [|d o' ds os (url & Hu & Ho) Hn]; subst. inversion Hn; subst.
  cbn in Hf. destruct (matches_origin _ _ _ o') eqn:Hm; [|done].
  apply approved_origin_parse_Ok in Ho as (_ & _ & Hs & _ & (b & Hb & Hob) & Hpo).
  destruct (origin_parses _ _ Hu) as (Es & Eh & Ep).
  unfold matches_origin in Hm. rewrite !andb_true_iff, bool_decide_eq_true, Z.eqb_eq in Hm. destruct Hm as [[Ms Mh] Mp].
  split; [congruence|]. split; [congruence|]. exists h, b. split; [done|]. split; [congruence|].
  rewrite Hob in Mh. unfold eq_ignore_ascii_case in *. rewrite bool_decide_eq_true in *.
  rewrite to_ascii_lowercase_idemp in Mh. congruence.
Qed.

(** The transport's configuration came through its constructor. *)
Definition configured (c : FixedApiClient) : Prop :=
  ∃ connect_timeout request_timeout max_response_bytes max_redirects policy,
    config_new connect_timeout request_timeout max_response_bytes max_redirects policy = Ok (client_config c) ∧
    0 ≤ max_redirects ∧ max_retries policy ≤ u8_max.

(** What went out of a call of a client. *)
Inductive requested (w : World) (c : FixedApiClient) (context : ProviderContext) : list SentRequest → Prop :=
| requested_get url : requested w c context (get w c context url).1
| requested_send request status_map : requested w c context (send_with_status_map w c context request status_map).1
| requested_get_json url : requested w c context (get_json w c context url).1
| requested_diagnostic url : requested w c context (get_json_optional_diagnostic w c context url).1
| requested_headers url headers : requested w c context (get_json_with_public_headers w c context url headers).1
| requested_headers_map url headers status_map :
    requested w c context (get_json_with_public_headers_and_status_map w c context url headers status_map).1
| requested_optional url : requested w c context (get_optional_json w c context url).1
| requested_post url body : requested w c context (post_json w c context url body).1
| requested_post_headers url body headers :
    requested w c context (post_json_with_public_headers w c context url body headers).1.

(** A request the client's transport approved, under the client's key. *)
Definition under_key (c : FixedApiClient) (wire : SentRequest) : Prop :=
  ∃ a request, authenticate (client_credential c) (client_authentication c) = Ok a ∧
    approved (client_transport c) (with_authentication request a) wire.
(** Requests of the client, and none out of its context. *)
Definition allowed (c : FixedApiClient) (context : ProviderContext) (wires : list SentRequest) : Prop :=
  (wires ≠ [] → matches_context c context = true) ∧ Forall (under_key c) wires.
Lemma allowed_nil c context : allowed c context [].
Proof. by split. Qed.
Lemma authenticated_allowed {E A} w c context request (refuse : ClassifiedError → E)
    (answer : Result TransportError HttpResponse → Result E A) : one_origin c → configured c →
  allowed c context (authenticated w c context request refuse answer).1.
Proof.
  intros (class & _ & Hcfg) (ct & rt & mb & mr & policy & Hnew & Hmr & Hmax). unfold authenticated.
  destruct (matches_context c context) eqn:Hm; cbn [negb]; [|apply allowed_nil].
  destruct (authenticate _ _) as [a|e] eqn:Ha; [|apply allowed_nil].
  unfold transport_send. destruct (send w _ _) as [t x] eqn:Hs. cbn [fst]. split; [done|].
  rewrite <-Hcfg in Hnew.
  destruct (send_outcome _ _ _ _ _ _ _ _ _ _ Hnew Hmr Hmax Hs) as (wires & errors & pauses & -> & _ & _ & Hw & _).
  cbn [sent app]. eapply Forall_impl; [exact Hw|]. intros wire Hwire. by exists a, request.
Qed.
Lemma sent_when_allowed {A} c context (request : Result ClassifiedError HttpRequest)
    (k : HttpRequest → Sent ClassifiedError A) :
  (∀ request, allowed c context (k request).1) → allowed c context (sent_when request k).1.
Proof. intros Hk. destruct request; [apply Hk|apply allowed_nil]. Qed.
Lemma requested_allowed w c context wires : one_origin c → configured c → requested w c context wires →
  allowed c context wires.
Proof.
  intros Ho Hc. assert (∀ E A request (refuse : ClassifiedError → E) (answer : _ → Result E A),
    allowed c context (authenticated w c context request refuse answer).1) as Ha
    by (intros; by apply authenticated_allowed).
  assert (∀ request, allowed c context (client_send w c context request).1) as Hs by (intros; apply Ha).
  destruct 1; solve [apply Ha | apply Hs | apply sent_when_allowed; intros; first [apply Hs | apply Ha]].
Qed.

(** A request under the client's own key to the scheme, the port and the host of
    its base URL, without user information. *)
Definition own_request (c : FixedApiClient) (wire : SentRequest) : Prop :=
  (∃ a request endpoint now, authenticate (client_credential c) (client_authentication c) = Ok a ∧
    build_request (with_authentication request a) endpoint now = Ok wire) ∧
  scheme (sent_url wire) = scheme (base_url c) ∧
  port_or_known_default (sent_url wire) = port_or_known_default (base_url c) ∧
  (∃ h b, host_str (sent_url wire) = Some h ∧ host_str (base_url c) = Some b ∧ eq_ignore_ascii_case h b = true) ∧
  username (sent_url wire) = [] ∧ password (sent_url wire) = None.
Lemma under_key_own c wire : one_origin c → under_key c wire → own_request c wire.
Proof.
  intros Hc (a & request & Ha & endpoint & now & Hv & Hb).
  pose proof (build_request_Ok _ _ _ _ Hb) as (Hu & _). unfold own_request. rewrite Hu. rewrite <-Hu in *.
  split; [by exists a, request, endpoint, now|].
  destruct (one_origin_validate _ _ _ Hc Hv) as (? & ? & ?). apply validate_Ok in Hv as (_ & Hcomp & Hclass & _).
  destruct (request_checks_Ok _ _ Hcomp Hclass) as ((? & ? & _) & _). by split_and!.
Qed.
Lemma allowed_own c context wires : one_origin c → allowed c context wires →
  (wires ≠ [] → context_scope context = client_scope c ∧ context_source context = client_source c) ∧
  Forall (own_request c) wires.
Proof.
  intros Hc [Hm Hw]. split.
  { intros Hne%Hm. unfold matches_context in Hne. by apply andb_true_iff in Hne as [?%bool_decide_eq_true ?%bool_decide_eq_true]. }
  eapply Forall_impl; [exact Hw|]. intros wire. by apply under_key_own.
Qed.

(** C13. Whatever a client is asked and whatever the network answers, redirects
    included, its key goes to one place: every request that leaves a call
    carries the client's own authentication, and its URL has the scheme, the
    port and the host of the client's base URL and no user information; and
    nothing leaves unless the caller's account and source are the client's. *)
Theorem key_stays_with_origin w c context wires : constructed c → configured c → requested w c context wires →
  (wires ≠ [] → context_scope context = client_scope c ∧ context_source context = client_source c) ∧
  Forall (own_request c) wires.
Proof. intros Hc%constructed_one_origin Hcfg Hw. apply allowed_own; [done|]. by eapply requested_allowed. Qed.
End client.

(** ** Configured endpoints *)

(** The two readings of a private-network host agree where the second grants it. *)
Lemma private_network_host h : is_private_network h = true → is_private_http_host h = true.
Proof.
  destruct h as [d|a|a]; [|done|done]. cbn. unfold ends_with_dns_label.
  destruct (trim_end_dots d) as [|x t]; [done|]. cbn [is_empty negb andb].
  destruct (suffix_after_last_dot _) as [suffix|]; [|done]. done.
Qed.
Lemma loopback_host h : is_loopback h = true → is_loopback_host h = true.
Proof. destruct h as [d|a|a]; [|done|done]. cbn. by intros ->. Qed.
Section configured.
Context `{UrlSegments}.

(** What a setting's policy allows over plain HTTP. *)
Definition policy_grants (policy : ConfiguredHttpPolicy) (class : EndpointClass) : Prop :=
  match policy with
  | HttpsOnly => False
  | LoopbackHttp => class = LoopbackDevelopment
  | PrivateNetworkHttp => class = LoopbackDevelopment ∨ class = PrivateHttp
  end.
Lemma classify_http_Ok u policy class : classify_http_endpoint u policy = Ok class → is_http (scheme u) = true →
  validate_host_class u class = Ok tt ∧ policy_grants policy class.
Proof.
  unfold classify_http_endpoint, validate_host_class. intros (h & Hh%ok_or_Ok & Hc)%bind_Ok Hs.
  rewrite Hh. unfold validate_scheme. rewrite Hs, orb_true_r.
  destruct (is_loopback h) eqn:Hl.
  - apply loopback_host in Hl. destruct policy; [done| |]; injection Hc as <-; cbn; rewrite Hl; auto.
  - destruct (bool_decide _ && _) eqn:Hp; [|done]. apply andb_true_iff in Hp as [->%bool_decide_eq_true Hp].
    injection Hc as <-. cbn. rewrite (private_network_host _ Hp). auto.
Qed.
Lemma classify_https_Ok u class : classify_https_endpoint u = Ok class →
  is_https (scheme u) = true ∧ validate_host_class u class = Ok tt.
Proof.
  unfold classify_https_endpoint. destruct (_ || _) eqn:Hbad; [done|].
  rewrite !orb_false_iff, !negb_false_iff in Hbad. destruct Hbad as [_ Hs]. intros (h & Hh & Hc)%bind_Ok. split; [done|].
  unfold validate_host_class. rewrite Hh. unfold validate_scheme.
  destruct (is_loopback_host h) eqn:Hl; [|destruct (is_public_host h) eqn:Hp]; injection Hc as <-; cbn;
    rewrite ?Hs; cbn; rewrite ?Hl, ?Hp; done.
Qed.

(** An accepted endpoint setting names a URL without user information,
    query and fragment, and its class is one the endpoint policy itself grants
    that URL; over plain HTTP it is one the setting's policy allows. *)
Theorem configured_class_granted raw policy e : configured_parse raw policy = Ok e →
  username (configured_url e) = [] ∧ password (configured_url e) = None ∧
  query (configured_url e) = None ∧ fragment (configured_url e) = None ∧
  validate_host_class (configured_url e) (configured_class e) = Ok tt ∧
  (is_https (scheme (configured_url e)) = true ∨
   (is_http (scheme (configured_url e)) = true ∧ policy_grants policy (configured_class e))).
Proof.
  unfold configured_parse. intros (s & _ & Hp)%bind_Ok. destruct (negb _); [done|].
  apply bind_Ok in Hp as (u & _ & Hp). destruct (_ || _) eqn:Hbad; [done|].
  rewrite !orb_false_iff, negb_false_iff, !bool_decide_eq_false in Hbad. destruct Hbad as ((((Hu & Hpw) & _) & Hq) & Hf).
  apply bind_Ok in Hp as (class & Hc & [= <-]). cbn [configured_url configured_class].
  assert (username u = []) as -> by by destruct (username u).
  rewrite !eq_None_not_Some. do 4 (split; [done|]).
  destruct (is_https (scheme u)) eqn:Hs.
  - apply map_err_Ok in Hc. apply classify_https_Ok in Hc as [_ ?]. auto.
  - destruct (is_http (scheme u)) eqn:Hh; [|done]. destruct (classify_http_Ok _ _ _ Hc Hh). auto.
Qed.
End configured.

(** ** Witnesses *)

Module FixedApiExample.
(** URLs of public hosts alone; a request that is redirected to another host. *)
Definition prefix_example : str := lit "https://".
Definition parse_example (s : str) : option str :=
  if bool_decide (take 8 s = prefix_example) then Some (drop 8 s) else None.
#[local] Instance host_crate : UrlCrate := {|
  Url := str;
  username _ := [];
  password _ := None;
  query _ := None;
  fragment _ := None;
  path _ := [47];
  scheme _ := lit "https";
  host u := Some (Domain u);
  host_str u := Some u;
  port_or_known_default _ := Some 443;
  query_pairs _ := [];
  url_parse := parse_example;
  url_join u s := match parse_example s with Some v => Some v | None => Some u end;
|}.
#[local] Existing Instance TransportExample.http_example.
#[local] Existing Instance Reference.time.
#[local] Instance signing_example : CloudSigning := {|
  AwsSigV4Signer := unit;
  AwsCredentials := unit;
  VolcengineCredentials := unit;
  aws_headers _ _ _ _ _ _ _ := None;
  volcengine_headers _ _ _ _ _ _ := None;
|}.
#[local] Instance origin_example : UrlOrigin := {|
  origin_serialization u := prefix_example ++ u;
  same_origin u v := bool_decide (u = v);
|}.
#[local] Instance origin_laws : UrlOriginLaws.
Proof.
  split.
  - intros u o Ho. cbn in Ho. unfold parse_example in Ho. destruct (bool_decide _); [|done].
    injection Ho as <-. done.
  - intros u v ->%bool_decide_eq_true. done.
Qed.
#[local] Instance builder_example : ClientBuilder := λ _, true.
#[local] Instance segments_example : UrlSegments := {|
  path_segments _ := Some [[]];
  set_segments u _ := Some u;
|}.

Definition scope_example : AccountScope :=
  AccountScope.mk ProviderId.Poe (ProviderInstanceId.mk (lit "default")) (AccountKey.mk (lit "a")).
Definition base_example : str := lit "api.example.com".
Definition client_example : Result ClassifiedError FixedApiClient :=
  new_bearer scope_example base_example PublicHttps (mk_credential (lit "token")) TransportExample.config_example.
Definition context_example : ProviderContext := context_new scope_example ApiKey.
Definition redirecting : World :=
  mk_world
    (λ requests, match requests with
      | [_] => Responded (mk_response 302 [(LOCATION, lit "/usage")] None [])
      | _ => Responded (mk_response 302 [(LOCATION, lit "https://evil.example.com")] None [])
      end)
    (λ _, false) (λ _, false) (λ _, 0) (λ _, 0).
Definition wires_example : list SentRequest :=
  match client_example with Ok c => (get redirecting c context_example base_example).1 | Err _ => [] end.
Lemma wires_example_length : length wires_example = 2%nat.
Proof. vm_compute. reflexivity. Qed.
Lemma key_stays_with_origin_witness : ∃ c, client_example = Ok c ∧
  Forall (λ wire, ∃ h, host_str (sent_url wire) = Some h ∧ eq_ignore_ascii_case h base_example = true) wires_example.
Proof.
  eexists. split; [reflexivity|].
  refine (Forall_impl _ _ _ (proj2 (key_stays_with_origin redirecting _ context_example wires_example
    (constructed_bearer scope_example base_example PublicHttps (mk_credential (lit "token"))
      TransportExample.config_example _ eq_refl) _ (requested_get _ _ _ base_example))) _).
  - exists (from_secs 5), (from_secs 20), 1024, 3, (retry_one (from_secs 1) (from_secs 60)).
    split; [reflexivity|]. split; [lia|]. vm_compute. discriminate.
  - intros wire (_ & _ & _ & (h & b & Hh & [= <-] & He) & _). by exists h.
Defined.

Definition endpoint_example : Result ClassifiedError ConfiguredEndpoint :=
  configured_parse (lit " 'https://api.example.com' ") HttpsOnly.
Lemma configured_class_granted_witness : ∃ e, endpoint_example = Ok e ∧
  configured_url e = base_example ∧ validate_host_class (configured_url e) (configured_class e) = Ok tt.
Proof.
  eexists. split; [reflexivity|]. split; [reflexivity|].
  refine (proj1 (proj2 (proj2 (proj2 (proj2 (configured_class_granted (lit " 'https://api.example.com' ") HttpsOnly _ _)))))).
  reflexivity.
Defined.
End FixedApiExample.
