(* ===== verification/Floats.v ===== *)
(** * [f64] arithmetic, rounding and formatting; text helpers of providers

    The operations of the standard library the provider modules use on [f64]:
    arithmetic, rounding to integers, casts, parsing and formatting with a fixed
    number of digits; the decimal text of [i64]; words, joining and the case of
    characters, whose Unicode tables are a class. *)
From stdpp Require Import prelude.
From Stdlib Require Import Floats.SpecFloat.
From S2P Require Import Prelude Ordering Text Percentage.
Local Open Scope Z_scope.

(** ** Arithmetic *)

Definition f64_add : f64 → f64 → f64 := SFadd f64_prec f64_emax.
Definition f64_mul : f64 → f64 → f64 := SFmul f64_prec f64_emax.
Definition f64_div : f64 → f64 → f64 := SFdiv f64_prec f64_emax.
Definition f64_abs : f64 → f64 := SFabs.
Definition f64_gt (x y : f64) : bool := f64_lt y x.
Definition f64_ge (x y : f64) : bool := f64_le y x.

(** ** Rounding to an integer *)

(** The finite float [m · 2^e] with [e < 0] is [m / 2^-e]; above, it is whole.  A
    zero result keeps the sign. *)
Definition signed_zero_or (s : bool) (n : Z) : f64 := if n =? 0 then S754_zero s else f64_of_Z n.
Definition f64_round_by (quotient : Z → Z → Z) (x : f64) : f64 :=
  match x with
  | S754_finite s m e => if 0 <=? e then x else signed_zero_or s (quotient (cond_Zopp s (Zpos m)) (2 ^ (- e)))
  | _ => x
  end.
Definition f64_floor : f64 → f64 := f64_round_by Z.div.
Definition f64_trunc : f64 → f64 := f64_round_by Z.quot.
(** [f64::round]: ties away from zero. *)
Definition f64_round : f64 → f64 :=
  f64_round_by (λ n d, Z.sgn n * ((2 * Z.abs n + d) / (2 * d))).
Definition f64_fract (x : f64) : f64 := f64_sub x (f64_trunc x).

(** [as i64] and [as u64] saturate; NaN is zero. *)
Definition f64_to_Z (x : f64) : Z :=
  match x with
  | S754_finite s m e =>
      let n := if 0 <=? e then Zpos m * 2 ^ e else Zpos m / 2 ^ (- e) in cond_Zopp s n
  | _ => 0
  end.
Definition f64_as_int (low high : Z) (x : f64) : Z :=
  match x with
  | S754_infinity true => low
  | S754_infinity false => high
  | _ => Z.max low (Z.min high (f64_to_Z x))
  end.
Definition f64_as_i64 : f64 → Z := f64_as_int i64_min i64_max.
Definition f64_as_u64 : f64 → Z := f64_as_int 0 u64_max.

(** ** Formatting *)

Definition show_nat (n : Z) : str := show_digits (S (Z.to_nat (Z.log2 n))) n [].
(** [to_string] of an [i64]. *)
Definition show_i64 (n : Z) : str := (if n <? 0 then lit "-" else []) ++ show_nat (Z.abs n).
(** [n / d] to the nearest integer, ties to even. *)
Definition nearest_even (n d : Z) : Z :=
  let q := n / d in
  match 2 * (n mod d) ?= d with
  | Lt => q
  | Gt => q + 1
  | Eq => if Z.even q then q else q + 1
  end.
Fixpoint pad_left (n : nat) (s : str) : str :=
  match n with
  | O => s
  | S n => if (length s <=? n)%nat then 48 :: pad_left n s else s
  end.
(** [{:.precision$}] of [f64]: the exact value, rounded once. *)
Definition format_fixed (precision : nat) (x : f64) : str :=
  let fixed (s : bool) (n : Z) :=
    let unit := 10 ^ Z.of_nat precision in
    (if s then lit "-" else []) ++ show_nat (n / unit)
    ++ match precision with
       | O => []
       | _ => lit "." ++ pad_left precision (show_nat (n mod unit))
       end in
  match x with
  | S754_nan => lit "NaN"
  | S754_infinity s => (if s then lit "-" else []) ++ lit "inf"
  | S754_zero s => fixed s 0
  | S754_finite s m e =>
      let scaled := Zpos m * 10 ^ Z.of_nat precision in
      fixed s (if 0 <=? e then scaled * 2 ^ e else nearest_even scaled (2 ^ (- e)))
  end.

(** ** Parsing: [str::parse::<f64>] *)

(** The float nearest to [m · 10^k]. *)
Definition f64_of_decimal (s : bool) (m : Z) (k : Z) : f64 :=
  match m with
  | Zpos p =>
      if 0 <=? k then
        binary_round f64_prec f64_emax s (p * Z.to_pos (10 ^ k)) 0
      else
        let '(mz, ez, lz) := SFdiv_core_binary f64_prec f64_emax (Zpos p) 0 (10 ^ (- k)) 0 in
        binary_round_aux f64_prec f64_emax s mz ez lz
  | _ => S754_zero s
  end.
(** The leading digits of a text, and what follows. *)
Fixpoint take_digits (s : str) : str * str :=
  match s with
  | c :: r => if is_ascii_digit c then let '(d, r) := take_digits r in (c :: d, r) else ([], s)
  | [] => ([], [])
  end.
Definition take_sign (s : str) : bool * str :=
  match s with
  | c :: r => if c =? 45 then (true, r) else if c =? 43 then (false, r) else (false, s)
  | [] => (false, s)
  end.
Definition equals_ignoring_case (s k : str) : bool :=
  bool_decide (to_ascii_uppercase <$> s = to_ascii_uppercase <$> k).
Definition f64_parse (s : str) : option f64 :=
  let '(negative, s) := take_sign s in
  if equals_ignoring_case s (lit "nan") then Some S754_nan
  else if equals_ignoring_case s (lit "inf") || equals_ignoring_case s (lit "infinity")
  then Some (S754_infinity negative) else
  let '(whole, s) := take_digits s in
  let '(fraction, s) := match s with
    | c :: r => if c =? 46 then take_digits r else ([], s)
    | [] => ([], s)
    end in
  if is_empty whole && is_empty fraction then None else
  let finish k := Some (f64_of_decimal negative (digits_value (whole ++ fraction)) (k - Z.of_nat (length fraction))) in
  match s with
  | [] => finish 0
  | c :: r =>
      if (c =? 101) || (c =? 69) then
        let '(down, r) := take_sign r in
        let '(power, r) := take_digits r in
        if is_empty power || negb (is_empty r) then None
        else finish (if down then - digits_value power else digits_value power)
      else None
  end.

(** ** Words *)

(** [char::to_uppercase] and [char::to_lowercase]. *)
Class CharCase := {
  char_upper : Z → str;
  char_lower : Z → str;
}.
(** [str::split_whitespace] *)
Fixpoint words_from (s word : str) : list str :=
  match s with
  | [] => if is_empty word then [] else [word]
  | c :: s => if is_whitespace c then (if is_empty word then [] else [word]) ++ words_from s []
              else words_from s (word ++ [c])
  end.
Definition split_whitespace (s : str) : list str := words_from s [].
(** [slice::join] *)
Fixpoint join (separator : str) (parts : list str) : str :=
  match parts with
  | [] => []
  | [part] => part
  | part :: parts => part ++ separator ++ join separator parts
  end.
Definition capitalized `{CharCase} (word : str) : str :=
  match word with
  | [] => []
  | first :: rest => char_upper first ++ (rest ≫= char_lower)
  end.
(** The helper several provider modules define. *)
Definition title_case `{CharCase} (value : str) : str :=
  join (lit " ") (capitalized <$> split_whitespace value).
(** [str::replace] of one character. *)
Definition replace_char (c : Z) (replacement s : str) : str :=
  s ≫= λ d, if d =? c then replacement else [d].
(** [s.trim()], unless nothing is left. *)
Definition non_blank (s : str) : option str := let s := trim s in if is_empty s then None else Some s.
(** [trim_end_matches] of one character. *)
Fixpoint trim_start_char (c : Z) (s : str) : str :=
  match s with
  | d :: r => if d =? c then trim_start_char c r else s
  | [] => []
  end.
Definition trim_end_char (c : Z) (s : str) : str := reverse (trim_start_char c (reverse s)).
Example format_fixed_examples :
  format_fixed 2 (f64_div (f64_of_Z 5) (f64_of_Z 2)) = lit "2.50" ∧
  format_fixed 0 (f64_div (f64_of_Z 5) (f64_of_Z 2)) = lit "2" ∧
  format_fixed 1 (f64_div (f64_of_Z (-1)) (f64_of_Z 100)) = lit "-0.0" ∧
  (format_fixed 3 <$> f64_parse (lit "1234.5678e-1")) = Some (lit "123.457") ∧
  (format_fixed 2 ∘ f64_round <$> f64_parse (lit "-2.5")) = Some (lit "-3.00") ∧
  f64_parse (lit "1.") = Some (f64_of_Z 1) ∧ f64_parse (lit ".") = None ∧
  (f64_as_i64 <$> f64_parse (lit "-1.9e0")) = Some (-1).
Proof. split_and!; vm_compute; reflexivity. Qed.

(** ** Facts *)

Lemma f64_mul_not_nan x y : is_finite x = true → is_finite y = true → is_nan (f64_mul x y) = false.
Proof.
  destruct x as [[]| | |[] mx ex], y as [[]| | |[] my ey]; try done; intros _ _; by apply binary_round_aux_not_nan.
Qed.
Lemma f64_clamp_range x lo hi : is_nan x = false → is_nan lo = false → is_nan hi = false → f64_le lo hi = true →
  f64_le lo (f64_clamp x lo hi) = true ∧ f64_le (f64_clamp x lo hi) hi = true.
Proof.
  intros Hx Hl Hh Hle. unfold f64_clamp.
  destruct (f64_lt x lo) eqn:E; [split; [|done]; rewrite f64_le_key by done; apply cmp_le_refl|].
  destruct (f64_lt hi x) eqn:E2; [split; [done|]; rewrite f64_le_key by done; apply cmp_le_refl|].
  split; by apply f64_not_lt_le.
Qed.
Lemma f64_clamp_finite x lo hi : is_nan x = false → is_finite lo = true → is_finite hi = true →
  is_finite (f64_clamp x lo hi) = true.
Proof.
  intros Hx Hl Hh. unfold f64_clamp. destruct (f64_lt x lo) eqn:E1; [done|]. destruct (f64_lt hi x) eqn:E2; [done|].
  destruct x as [[]|[]| |]; try done; by destruct lo as [[]| | |[]], hi as [[]| | |[]].
Qed.
