(* ===== verification/RequestSigning.v ===== *)
(** * Cloud request signing  (crates/providers/src/cloud_signing.rs, transport.rs)

    AWS Signature Version 4 and Volcengine's V4 over one exact request: what is
    canonicalized, hashed and sent is the same method, URL, headers and body.
    SHA-256, HMAC and the calendar of the [time] crate are classes; at the end,
    the two signers as the transport uses them. *)
From stdpp Require Import sorting prelude.
From S2P Require Import Prelude Ordering Text Percentage Externals Errors Scheduler Endpoint Transport Config Cookie ManualCapture Floats.
Local Open Scope Z_scope.

Definition MAX_URL_BYTES : Z := 8 * 1024.
Definition MAX_BODY_BYTES : Z := 8 * 1024 * 1024.
Definition MAX_HEADER_COUNT : Z := 64.
Definition MAX_HEADER_VALUE_BYTES : Z := 16 * 1024.
Definition MAX_TOTAL_HEADER_BYTES : Z := 64 * 1024.
Definition MAX_ACCESS_KEY_BYTES : Z := 256.
Definition MAX_SECRET_KEY_BYTES : Z := 4 * 1024.
Definition MAX_SESSION_TOKEN_BYTES : Z := 16 * 1024.
Definition MAX_SCOPE_COMPONENT_BYTES : Z := 128.
Definition AWS_ALGORITHM : str := lit "AWS4-HMAC-SHA256".
Definition AWS_TERMINATOR : str := lit "aws4_request".
Definition VOLCENGINE_ALGORITHM : str := lit "HMAC-SHA256".
Definition VOLCENGINE_SERVICE : str := lit "ark".
Definition VOLCENGINE_TERMINATOR : str := lit "request".
Definition VOLCENGINE_SIGNED_HEADERS : str := lit "content-type;host;x-content-sha256;x-date".
Definition DEFAULT_VOLCENGINE_CONTENT_TYPE : str := lit "application/x-www-form-urlencoded; charset=utf-8".
Definition HOST : str := lit "host".

Module SigningError.
Inductive t :=
| InvalidCredential
| InvalidScope
| InvalidUrl
| InvalidMethod
| BodyTooLarge
| InvalidHeaders
| InvalidTimestamp
| SigningFailed.
#[global] Instance eq_dec : EqDecision t.
Proof. solve_decision. Defined.
End SigningError.
Notation SigningError := SigningError.t.

(** [Sha256::digest]; [Hmac::new_from_slice], [update] and [finalize]. *)
Class DigestCrate := {
  sha256 : list Z → list Z;
  hmac_sha256 : list Z → list Z → option (list Z);
}.
Class DigestCrateLaws `{DigestCrate} : Prop := {
  sha256_length m : length (sha256 m) = 32%nat;
  sha256_bytes m : Forall (λ b, 0 ≤ b < 256) (sha256 m);
  hmac_length k m d : hmac_sha256 k m = Some d → length d = 32%nat;
  hmac_bytes k m d : hmac_sha256 k m = Some d → Forall (λ b, 0 ≤ b < 256) d;
}.
(** [time::OffsetDateTime], as the fields its accessors return. *)
Record OffsetDateTime := mk_datetime {
  offset_is_utc : bool;
  year : Z;
  month : Z;
  day : Z;
  hour : Z;
  minute : Z;
  second : Z;
}.

(** ** Credentials and scopes *)

Record AwsCredentials := mk_aws { access_key_id : str; secret_access_key : str; session_token : option str }.
Record VolcengineCredentials := mk_volcengine { volcengine_key_id : str; volcengine_secret : str; region : str }.
Definition validate_credential (value : str) (maximum : Z) : Result SigningError unit :=
  if is_empty value || (maximum <? str_len value) || negb (forallb is_ascii_graphic (as_bytes value))
  then Err SigningError.InvalidCredential else Ok tt.
Definition scope_byte (byte : Z) : bool := is_ascii_lower byte || is_ascii_digit byte || (byte =? 45).
Definition validate_scope_component (value : str) : Result SigningError unit :=
  if is_empty value || (MAX_SCOPE_COMPONENT_BYTES <? str_len value) || negb (forallb scope_byte (as_bytes value))
  then Err SigningError.InvalidScope else Ok tt.
Definition aws_credentials_new (access_key_id secret_access_key : str) (session_token : option str) :
    Result SigningError AwsCredentials :=
  validate_credential access_key_id MAX_ACCESS_KEY_BYTES ;;
  validate_credential secret_access_key MAX_SECRET_KEY_BYTES ;;
  traverse_option (λ token, validate_credential token MAX_SESSION_TOKEN_BYTES) session_token ;;
  Ok (mk_aws access_key_id secret_access_key session_token).
Definition volcengine_credentials_new (access_key_id secret_access_key region : str) :
    Result SigningError VolcengineCredentials :=
  validate_credential access_key_id MAX_ACCESS_KEY_BYTES ;;
  validate_credential secret_access_key MAX_SECRET_KEY_BYTES ;;
  validate_scope_component region ;;
  Ok (mk_volcengine access_key_id secret_access_key region).
Record AwsSigV4Signer := mk_signer { signer_region : str; service : str }.
Definition aws_signer_new (region service : str) : Result SigningError AwsSigV4Signer :=
  validate_scope_component region ;;
  validate_scope_component service ;;
  Ok (mk_signer region service).

(** ** Bytes as text *)

Definition hex_digit (n : Z) : Z := if n <? 10 then 48 + n else 87 + n.
Definition hex_byte (byte : Z) : str := [hex_digit (Z.shiftr byte 4); hex_digit (Z.land byte 15)].
Definition hex (bytes : list Z) : str := bytes ≫= hex_byte.
Definition upper_hex_digit (n : Z) : Z := if n <? 10 then 48 + n else 55 + n.
Definition unreserved (byte : Z) : bool := is_ascii_alphanumeric byte || bool_decide (byte ∈ lit "-._~").
Definition encode_rfc3986_byte (byte : Z) : str :=
  if unreserved byte then [byte]
  else [37; upper_hex_digit (Z.shiftr byte 4); upper_hex_digit (Z.land byte 15)].
Definition from_hex (byte : Z) : option Z :=
  if (48 <=? byte) && (byte <=? 57) then Some (byte - 48)
  else if (97 <=? byte) && (byte <=? 102) then Some (byte - 97 + 10)
  else if (65 <=? byte) && (byte <=? 70) then Some (byte - 65 + 10)
  else None.
Fixpoint normalize_percent_encoded (preserve_slash : bool) (input : list Z) : Result SigningError str :=
  match input with
  | [] => Ok []
  | byte :: rest =>
      if (byte =? 47) && preserve_slash then cons 47 <$> normalize_percent_encoded preserve_slash rest
      else if byte =? 37 then
        match rest with
        | h :: l :: rest =>
            high ← ok_or (from_hex h) SigningError.InvalidUrl;
            low ← ok_or (from_hex l) SigningError.InvalidUrl;
            app (encode_rfc3986_byte (Z.lor (Z.shiftl high 4) low)) <$> normalize_percent_encoded preserve_slash rest
        | _ => Err SigningError.InvalidUrl
        end
      else app (encode_rfc3986_byte byte) <$> normalize_percent_encoded preserve_slash rest
  end.

(** [split_ascii_whitespace] *)
Fixpoint ascii_words_from (s word : str) : list str :=
  match s with
  | [] => if is_empty word then [] else [word]
  | c :: s =>
      if is_ascii_whitespace c then
        if is_empty word then ascii_words_from s [] else word :: ascii_words_from s []
      else ascii_words_from s (word ++ [c])
  end.
Definition fold_header_whitespace (value : str) : str := join (lit " ") (ascii_words_from value []).
Definition safe_header_byte (byte : Z) : bool := (byte =? 9) || ((32 <=? byte) && (byte <=? 126)).
Definition is_safe_header_value (value : str) : bool := forallb safe_header_byte (as_bytes value).

Definition pad (width : nat) (n : Z) : str := pad_left width (show_u64 n).
Definition format_timestamp (t : OffsetDateTime) : Result SigningError (str * str) :=
  if negb (offset_is_utc t) || negb ((1 <=? year t) && (year t <=? 9999)) then Err SigningError.InvalidTimestamp else
  let date := pad 4 (year t) ++ pad 2 (month t) ++ pad 2 (day t) in
  Ok (date, date ++ lit "T" ++ pad 2 (hour t) ++ pad 2 (minute t) ++ pad 2 (second t) ++ lit "Z").

(** ** Headers *)

Record SignedHeader := mk_header { header_name_of : str; header_value_of : str }.
Definition sort_headers : list SignedHeader → list SignedHeader := sort_by_key header_name_of.
Definition reject_managed_headers (headers : list SignedHeader) (managed : list str) : Result SigningError unit :=
  if existsb (λ h, bool_decide (header_name_of h ∈ managed)) headers then Err SigningError.InvalidHeaders else Ok tt.
(** The fold over the lengths. *)
Definition add_header_size (size : option Z) (h : SignedHeader) : option Z :=
  size ← size;
  size ← checked_add usize_max size (str_len (header_name_of h));
  checked_add usize_max size (str_len (header_value_of h)).
Definition validate_output_headers (headers : list SignedHeader) : Result SigningError unit :=
  if MAX_HEADER_COUNT <? count headers then Err SigningError.InvalidHeaders else
  match foldl add_header_size (Some 0) headers with
  | None => Err SigningError.InvalidHeaders
  | Some size => if MAX_TOTAL_HEADER_BYTES <? size then Err SigningError.InvalidHeaders else Ok tt
  end.

(** The [BTreeMap] of values by name, in the order of the names. *)
Fixpoint push_value (name value : str) (groups : list (str * list str)) : list (str * list str) :=
  match groups with
  | [] => [(name, [value])]
  | (key, values) :: rest =>
      match cmp name key with
      | Lt => (name, [value]) :: groups
      | Eq => (key, values ++ [value]) :: rest
      | Gt => (key, values) :: push_value name value rest
      end
  end.
Definition grouped (headers : list SignedHeader) : list (str * list str) :=
  foldl (λ groups h, push_value (header_name_of h) (header_value_of h) groups) [] headers.
Record CanonicalHeaders := mk_canonical { block : str; names : str }.
Definition header_line (group : str * list str) : str := group.1 ++ lit ":" ++ join (lit ",") group.2.
Definition canonical_headers (headers : list SignedHeader) : Result SigningError CanonicalHeaders :=
  let groups := grouped headers in
  if is_empty groups then Err SigningError.InvalidHeaders else
  Ok (mk_canonical (groups ≫= λ group, header_line group ++ [LF]) (join (lit ";") groups.*1)).

Section signing.
Context `{CookieHosts} `{!CaptureUrls} `{HttpCrate}.

(** [SignedHeader::new] *)
Definition signed_header_new (name value : str) : Result SigningError SignedHeader :=
  if (MAX_HEADER_VALUE_BYTES <? str_len value) || negb (is_safe_header_value value)
  then Err SigningError.InvalidHeaders else
  let value := fold_header_whitespace value in
  ok_or (header_value value) SigningError.InvalidHeaders ;;
  Ok (mk_header name value).

(** ** The canonical URL *)

Definition canonical_host (url : Url) : Result SigningError str :=
  h ← ok_or (host url) SigningError.InvalidUrl;
  let host := match h with
              | Domain domain => domain
              | HostIpv4 address => ipv4_to_string address
              | HostIpv6 address => lit "[" ++ ipv6_to_string address ++ lit "]"
              end in
  Ok match url_port url with Some port => host ++ lit ":" ++ show_u64 port | None => host end.
Definition canonical_uri (url : Url) : Result SigningError str :=
  if is_empty (path url) then Ok (lit "/") else normalize_percent_encoded true (as_bytes (path url)).
Definition component_pair (component : str) : Result SigningError (str * str) :=
  let '(key, value) := default (component, []) (split_once [61] component) in
  key ← normalize_percent_encoded false (as_bytes key);
  value ← normalize_percent_encoded false (as_bytes value);
  Ok (key, value).
Definition pair_text (pair : str * str) : str := pair.1 ++ lit "=" ++ pair.2.
Definition canonical_query (url : Url) : Result SigningError str :=
  match query url with
  | None => Ok []
  | Some query =>
      if is_empty query then Ok [] else
      pairs ← traverse_list component_pair (split_bytes 38 query);
      Ok (join (lit "&") (pair_text <$> sort_by_key id pairs))
  end.

Definition method_byte (byte : Z) : bool :=
  is_ascii_alphabetic byte || is_ascii_digit byte || bool_decide (byte ∈ lit "!#$%&'*+-.^_`|~").
Definition validate_method (method : str) : Result SigningError unit :=
  if is_empty method || (32 <? str_len method) || negb (forallb method_byte (as_bytes method))
  then Err SigningError.InvalidMethod else Ok tt.
Definition validate_url (url : Url) (permits_loopback_http : bool) : Result SigningError unit :=
  let scheme_is_allowed := is_https (scheme url) || (permits_loopback_http && is_http (scheme url)) in
  if (MAX_URL_BYTES <? str_len (url_as_str url)) || negb scheme_is_allowed || bool_decide (host url = None)
     || negb (is_empty (username url)) || bool_decide (is_Some (password url)) || bool_decide (is_Some (fragment url))
  then Err SigningError.InvalidUrl else
  canonical_host url ;; canonical_uri url ;; canonical_query url ;; Ok tt.

(** ** Requests *)

Record SigningRequest := mk_signing {
  signing_method : str;
  signing_url : Url;
  signing_headers : list SignedHeader;
  signing_body : list Z;
  total_header_bytes : Z;
}.
Definition new_inner (method : str) (url : Url) (body : list Z) (permits_loopback_http : bool) :
    Result SigningError SigningRequest :=
  validate_method method ;;
  validate_url url permits_loopback_http ;;
  if MAX_BODY_BYTES <? count body then Err SigningError.BodyTooLarge else Ok (mk_signing method url [] body 0).
Definition signing_new (method : str) (url : Url) (body : list Z) : Result SigningError SigningRequest :=
  new_inner method url body false.
Definition for_validated_endpoint (method : str) (endpoint : ValidatedEndpoint) (body : list Z) :
    Result SigningError SigningRequest :=
  let permits_loopback_http :=
    bool_decide (endpoint_class endpoint = LoopbackDevelopment) && is_http (scheme (endpoint_url endpoint)) in
  new_inner method (endpoint_url endpoint) body permits_loopback_http.
Definition with_header (name value : str) (r : SigningRequest) : Result SigningError SigningRequest :=
  if MAX_HEADER_COUNT <=? count (signing_headers r) then Err SigningError.InvalidHeaders else
  name ← ok_or (header_name name) SigningError.InvalidHeaders;
  if bool_decide (name = AUTHORIZATION) || bool_decide (name = HOST) then Err SigningError.InvalidHeaders else
  next_total ← ok_or (size ← checked_add usize_max (total_header_bytes r) (str_len name);
                      checked_add usize_max size (str_len value)) SigningError.InvalidHeaders;
  if MAX_TOTAL_HEADER_BYTES <? next_total then Err SigningError.InvalidHeaders else
  h ← signed_header_new name value;
  Ok (mk_signing (signing_method r) (signing_url r) (signing_headers r ++ [h]) (signing_body r) next_total).

Record SignedRequest := mk_signed {
  signed_method : str;
  signed_url : Url;
  signed_headers : list SignedHeader;
  signed_body : list Z;
  canonical_request_hash : list Z;
}.
Context `{DigestCrate}.

Fixpoint derive_key (key : list Z) (scope : list (list Z)) : Result SigningError (list Z) :=
  match scope with
  | [] => Ok key
  | part :: scope => key ← ok_or (hmac_sha256 key part) SigningError.SigningFailed; derive_key key scope
  end.
Definition aws_signature (secret : list Z) (date_stamp region service : str) (string_to_sign : list Z) :
    Result SigningError (list Z) :=
  signing_key ← derive_key (as_bytes (lit "AWS4") ++ secret)
    [as_bytes date_stamp; as_bytes region; as_bytes service; as_bytes AWS_TERMINATOR];
  ok_or (hmac_sha256 signing_key string_to_sign) SigningError.SigningFailed.
Definition volcengine_signature (secret : list Z) (date_stamp region : str) (string_to_sign : list Z) :
    Result SigningError (list Z) :=
  signing_key ← derive_key secret
    [as_bytes date_stamp; as_bytes region; as_bytes VOLCENGINE_SERVICE; as_bytes VOLCENGINE_TERMINATOR];
  ok_or (hmac_sha256 signing_key string_to_sign) SigningError.SigningFailed.

(** ** AWS Signature Version 4 *)

(** The headers of the request and the ones the signer adds, before the
    authorization. *)
Definition aws_signed_headers (r : SigningRequest) (credentials : AwsCredentials) (timestamp : str) :
    Result SigningError (list SignedHeader) :=
  host ← canonical_host (signing_url r);
  host ← signed_header_new HOST host;
  content ← signed_header_new (lit "x-amz-content-sha256") (hex (sha256 (signing_body r)));
  date ← signed_header_new (lit "x-amz-date") timestamp;
  token ← traverse_option (signed_header_new (lit "x-amz-security-token")) (session_token credentials);
  Ok (sort_headers (signing_headers r ++ [host; content; date] ++ option_list token)).
(** The canonical request: what is hashed. *)
Definition aws_canonical_request (r : SigningRequest) (headers : list SignedHeader) :
    Result SigningError (str * str) :=
  canonical ← canonical_headers headers;
  uri ← canonical_uri (signing_url r);
  query ← canonical_query (signing_url r);
  Ok (signing_method r ++ [LF] ++ uri ++ [LF] ++ query ++ [LF] ++ block canonical ++ [LF] ++ names canonical ++ [LF]
        ++ hex (sha256 (signing_body r)), names canonical).
Definition aws_sign (signer : AwsSigV4Signer) (r : SigningRequest) (credentials : AwsCredentials)
    (time : OffsetDateTime) : Result SigningError SignedRequest :=
  '(date_stamp, timestamp) ← format_timestamp time;
  reject_managed_headers (signing_headers r)
    [lit "x-amz-content-sha256"; lit "x-amz-date"; lit "x-amz-security-token"] ;;
  headers ← aws_signed_headers r credentials timestamp;
  '(canonical_request, names) ← aws_canonical_request r headers;
  let canonical_request_hash := sha256 (as_bytes canonical_request) in
  let credential_scope := date_stamp ++ lit "/" ++ signer_region signer ++ lit "/" ++ service signer ++ lit "/" ++ AWS_TERMINATOR in
  let string_to_sign := AWS_ALGORITHM ++ [LF] ++ timestamp ++ [LF] ++ credential_scope ++ [LF] ++ hex canonical_request_hash in
  signature ← aws_signature (as_bytes (secret_access_key credentials)) date_stamp (signer_region signer) (service signer)
    (as_bytes string_to_sign);
  authorization ← signed_header_new AUTHORIZATION
    (AWS_ALGORITHM ++ lit " Credential=" ++ access_key_id credentials ++ lit "/" ++ credential_scope
     ++ lit ", SignedHeaders=" ++ names ++ lit ", Signature=" ++ hex signature);
  let headers := sort_headers (headers ++ [authorization]) in
  validate_output_headers headers ;;
  Ok (mk_signed (signing_method r) (signing_url r) headers (signing_body r) canonical_request_hash).

(** ** Volcengine V4 *)

Definition is_content_type (h : SignedHeader) : bool := bool_decide (header_name_of h = CONTENT_TYPE).
Definition volcengine_canonical_request (r : SigningRequest) (content_type host timestamp : str) :
    Result SigningError str :=
  uri ← canonical_uri (signing_url r);
  query ← canonical_query (signing_url r);
  let payload := hex (sha256 (signing_body r)) in
  Ok (signing_method r ++ [LF] ++ uri ++ [LF] ++ query ++ [LF] ++ lit "content-type:" ++ content_type ++ [LF]
        ++ lit "host:" ++ host ++ [LF] ++ lit "x-content-sha256:" ++ payload ++ [LF] ++ lit "x-date:" ++ timestamp ++ [LF]
        ++ [LF] ++ VOLCENGINE_SIGNED_HEADERS ++ [LF] ++ payload).
(** The headers of the request and the ones the signer adds. *)
Definition volcengine_output_headers (r : SigningRequest) (host timestamp authorization : str) :
    Result SigningError (list SignedHeader) :=
  content_type ← (if existsb is_content_type (signing_headers r) then Ok []
                  else h ← signed_header_new CONTENT_TYPE DEFAULT_VOLCENGINE_CONTENT_TYPE; Ok [h]);
  host ← signed_header_new HOST host;
  content ← signed_header_new (lit "x-content-sha256") (hex (sha256 (signing_body r)));
  date ← signed_header_new (lit "x-date") timestamp;
  authorization ← signed_header_new AUTHORIZATION authorization;
  Ok (sort_headers (signing_headers r ++ content_type ++ [host; content; date; authorization])).
Definition volcengine_sign (r : SigningRequest) (credentials : VolcengineCredentials) (time : OffsetDateTime) :
    Result SigningError SignedRequest :=
  '(date_stamp, timestamp) ← format_timestamp time;
  reject_managed_headers (signing_headers r) [lit "x-content-sha256"; lit "x-date"] ;;
  if 1 <? count (filter (λ h, is_content_type h = true) (signing_headers r)) then Err SigningError.InvalidHeaders else
  host ← canonical_host (signing_url r);
  let content_type := match find is_content_type (signing_headers r) with
                      | Some h => header_value_of h
                      | None => DEFAULT_VOLCENGINE_CONTENT_TYPE
                      end in
  if is_empty content_type then Err SigningError.InvalidHeaders else
  canonical_request ← volcengine_canonical_request r content_type host timestamp;
  let canonical_request_hash := sha256 (as_bytes canonical_request) in
  let credential_scope := date_stamp ++ lit "/" ++ region credentials ++ lit "/" ++ VOLCENGINE_SERVICE ++ lit "/" ++ VOLCENGINE_TERMINATOR in
  let string_to_sign := VOLCENGINE_ALGORITHM ++ [LF] ++ timestamp ++ [LF] ++ credential_scope ++ [LF] ++ hex canonical_request_hash in
  signature ← volcengine_signature (as_bytes (volcengine_secret credentials)) date_stamp (region credentials)
    (as_bytes string_to_sign);
  headers ← volcengine_output_headers r host timestamp
    (VOLCENGINE_ALGORITHM ++ lit " Credential=" ++ volcengine_key_id credentials ++ lit "/" ++ credential_scope
     ++ lit ", SignedHeaders=" ++ VOLCENGINE_SIGNED_HEADERS ++ lit ", Signature=" ++ hex signature);
  validate_output_headers headers ;;
  Ok (mk_signed (signing_method r) (signing_url r) headers (signing_body r) canonical_request_hash).

(** ** The signers of the transport  (transport.rs) *)

Definition method_as_str (m : Method) : str :=
  match m with GET => lit "GET" | HEAD => lit "HEAD" | POST => lit "POST" end.
Fixpoint with_public_headers (headers : HeaderMap) (r : SigningRequest) : option SigningRequest :=
  match headers with
  | [] => Some r
  | (name, value) :: headers =>
      value ← header_to_str value;
      r ← result_ok (with_header name value r);
      with_public_headers headers r
  end.
Fixpoint with_sensitive_headers (headers : list (str * str)) (r : SigningRequest) : option SigningRequest :=
  match headers with
  | [] => Some r
  | (name, value) :: headers => r ← result_ok (with_header name value r); with_sensitive_headers headers r
  end.
(** [signing_request]; every failure is the same [InvalidConfiguration]. *)
Definition signing_request (m : Method) (endpoint : ValidatedEndpoint) (metadata : Metadata) (body : list Z) :
    option SigningRequest :=
  r ← result_ok (for_validated_endpoint (method_as_str m) endpoint body);
  r ← match metadata_accept metadata with
      | Some accept => result_ok (with_header ACCEPT (accept_as_str accept) r)
      | None => Some r
      end;
  r ← match metadata_content_type metadata with
      | Some content_type => result_ok (with_header CONTENT_TYPE (content_type_as_str content_type) r)
      | None => Some r
      end;
  r ← with_public_headers (metadata_public metadata) r;
  with_sensitive_headers (metadata_sensitive metadata) r.
(** [transport_signed_header_value]; [None] stands for its [expect]. *)
Definition transport_signed_header_value (h : SignedHeader) : option (str * list Z) :=
  value ← header_value (header_value_of h); Some (header_name_of h, value).
Definition wire_headers (signed : SignedRequest) : option HeaderMap :=
  mapM transport_signed_header_value (signed_headers signed).

(** [OffsetDateTime::from] of an instant in the calendar's range. *)
Context (datetime_of : Z → OffsetDateTime).
Definition cloud_signers : CloudSigning := {|
  Transport.AwsSigV4Signer := AwsSigV4Signer;
  Transport.AwsCredentials := AwsCredentials;
  Transport.VolcengineCredentials := VolcengineCredentials;
  aws_headers signer credentials m endpoint metadata body now :=
    r ← signing_request m endpoint metadata body;
    signed ← result_ok (aws_sign signer r credentials (datetime_of now));
    wire_headers signed;
  volcengine_headers credentials m endpoint metadata body now :=
    r ← signing_request m endpoint metadata body;
    signed ← result_ok (volcengine_sign r credentials (datetime_of now));
    wire_headers signed;
|}.
End signing.
