(* ===== verification/RequestSigningFacts.v ===== *)
(** * Cloud request signing: what a signature covers
      (crates/providers/src/cloud_signing.rs)

    The canonical request determines the method, the decoded path, the decoded
    query, the headers and the digest of the body it was made from, and a signed
    request is sent exactly as it was signed. *)
From stdpp Require Import sorting prelude.
From S2P Require Import Prelude Ordering Text Percentage Externals Errors Scheduler CostUsage Endpoint Transport Config Cookie CookieFacts ManualCapture Floats RequestSigning.
Local Open Scope Z_scope.

(** ** Percent-encoding *)

(** A path or a query component without its encoding: slashes kept as such, and bytes. *)
Inductive Symbol := Slash | Octet (b : Z).
Fixpoint decode (preserve_slash : bool) (input : list Z) : option (list Symbol) :=
  match input with
  | [] => Some []
  | byte :: rest =>
      if (byte =? 47) && preserve_slash then cons Slash <$> decode preserve_slash rest
      else if byte =? 37 then
        match rest with
        | h :: l :: rest =>
            high ← from_hex h; low ← from_hex l; cons (Octet (16 * high + low)) <$> decode preserve_slash rest
        | _ => None
        end
      else cons (Octet byte) <$> decode preserve_slash rest
  end.
Definition symbol_text (y : Symbol) : str := match y with Slash => [47] | Octet b => encode_rfc3986_byte b end.
Definition is_byte (b : Z) : Prop := 0 ≤ b < 256.
Definition symbol_ok (preserve_slash : bool) (y : Symbol) : Prop :=
  match y with Slash => preserve_slash = true | Octet b => is_byte b end.

(** Facts about the 256 bytes are checked one by one. *)
Lemma every_byte (P : Z → bool) : forallb (λ n, P (Z.of_nat n)) (seq 0 256) = true → ∀ b, is_byte b → P b = true.
Proof.
  intros Hall b [H0 H1]. rewrite forallb_Forall_eq, Forall_forall in Hall.
  specialize (Hall (Z.to_nat b)). rewrite Z2Nat.id in Hall by lia. apply Hall. apply elem_of_seq. lia.
Qed.
Lemma from_hex_range h n : from_hex h = Some n → 0 ≤ n < 16.
Proof.
  unfold from_hex. destruct (Z.leb_spec 48 h), (Z.leb_spec h 57); cbn; try (intros [= <-]; lia);
    destruct (Z.leb_spec 97 h), (Z.leb_spec h 102); cbn; try (intros [= <-]; lia);
    destruct (Z.leb_spec 65 h), (Z.leb_spec h 70); cbn; try (intros [= <-]; lia); done.
Qed.
Lemma nibbles h l : 0 ≤ h < 16 → 0 ≤ l < 16 → Z.lor (Z.shiftl h 4) l = 16 * h + l.
Proof.
  intros Hh Hl.
  assert (forallb (λ n, (Z.lor (Z.shiftl (Z.of_nat n / 16) 4) (Z.of_nat n mod 16) =? Z.of_nat n)) (seq 0 256) = true) as Hall by by vm_compute.
  pose proof (every_byte (λ b, Z.lor (Z.shiftl (b / 16) 4) (b mod 16) =? b) Hall (16 * h + l) ltac:(unfold is_byte; lia)) as H.
  apply Z.eqb_eq in H. rewrite (Z.mul_comm 16), Z.div_add_l, Z.div_small, Z.add_0_r in H by lia.
  rewrite (Z.add_comm (h * 16)), Z.mod_add, Z.mod_small in H by lia. lia.
Qed.
(** An encoded byte is read back, and starts with none of the special characters. *)
Definition reads_back (b : Z) : bool :=
  match encode_rfc3986_byte b with
  | [c] => (c =? b) && negb (c =? 47) && negb (c =? 37)
  | [p; h; l] => (p =? 37) && bool_decide (from_hex h = Some (b / 16)) && bool_decide (from_hex l = Some (b mod 16))
  | _ => false
  end.
Lemma encode_reads_back b : is_byte b → reads_back b = true.
Proof. apply every_byte. by vm_compute. Qed.
Definition canonical_char (c : Z) : bool := unreserved c || (c =? 37).
Lemma encode_chars b : is_byte b → forallb canonical_char (encode_rfc3986_byte b) = true.
Proof. revert b. apply every_byte. by vm_compute. Qed.

Lemma percent_decode_encode preserve_slash ys : Forall (symbol_ok preserve_slash) ys →
  decode preserve_slash (ys ≫= symbol_text) = Some ys.
Proof.
  induction 1 as [|y ys Hy _ IH]; [done|]. destruct y as [|b]; cbn [mbind list_bind symbol_text]; fold (ys ≫= symbol_text).
  - cbn in Hy |- *. rewrite Hy. cbn. by rewrite <-Hy, IH.
  - pose proof (encode_reads_back b Hy) as Hb. unfold reads_back in Hb.
    destruct (encode_rfc3986_byte b) as [|c [|h [|l [|? ?]]]]; try done.
    + rewrite !andb_true_iff, !negb_true_iff in Hb. destruct Hb as [[->%Z.eqb_eq Hs] Hp]. cbn. by rewrite Hs, Hp, IH.
    + rewrite !andb_true_iff, !bool_decide_eq_true in Hb. destruct Hb as [[->%Z.eqb_eq Hh] Hl]. cbn. rewrite Hh, Hl. cbn.
      rewrite IH. cbn. do 3 f_equal. pose proof (Z.div_mod b 16 ltac:(lia)). lia.
Qed.
Lemma encode_inj preserve_slash ys zs : Forall (symbol_ok preserve_slash) ys → Forall (symbol_ok preserve_slash) zs →
  ys ≫= symbol_text = zs ≫= symbol_text → ys = zs.
Proof.
  intros Hy Hz E. apply (inj Some). by rewrite <-(percent_decode_encode _ ys Hy), <-(percent_decode_encode _ zs Hz), E.
Qed.
(** Normalization is decoding and encoding again. *)
Lemma normalize_decode preserve_slash input out : Forall is_byte input →
  normalize_percent_encoded preserve_slash input = Ok out →
  ∃ ys, decode preserve_slash input = Some ys ∧ out = ys ≫= symbol_text ∧ Forall (symbol_ok preserve_slash) ys.
Proof.
  remember (length input) as n eqn:Hn. revert input out Hn. induction (lt_wf n) as [n _ IH]. intros input out -> Hb E.
  destruct input as [|byte rest]; [injection E as <-; by exists []|]. apply Forall_cons in Hb as [Hbyte Hb].
  cbn [normalize_percent_encoded decode] in *. destruct ((byte =? 47) && preserve_slash) eqn:Es.
  - apply fmap_Ok in E as (k & E & <-). destruct (IH (length rest) ltac:(cbn; lia) rest k eq_refl Hb E) as (ys & -> & -> & Hok).
    apply andb_true_iff in Es as [_ Es]. exists (Slash :: ys). split_and!; try done. by constructor.
  - destruct (Z.eqb_spec byte 37) as [->|Hp].
    + destruct rest as [|h [|l rest]]; try done. apply Forall_cons in Hb as [_ Hb]. apply Forall_cons in Hb as [_ Hb].
      apply bind_Ok in E as (high & Hh%ok_or_Ok & E). apply bind_Ok in E as (low & Hl%ok_or_Ok & E).
      apply fmap_Ok in E as (k & E & <-). destruct (IH (length rest) ltac:(cbn; lia) rest k eq_refl Hb E) as (ys & -> & -> & Hok).
      rewrite Hh, Hl. cbn. pose proof (from_hex_range _ _ Hh). pose proof (from_hex_range _ _ Hl).
      exists (Octet (16 * high + low) :: ys). split_and!; [done|by rewrite nibbles|].
      constructor; [|done]. cbn. unfold is_byte. lia.
    + apply fmap_Ok in E as (k & E & <-). destruct (IH (length rest) ltac:(cbn; lia) rest k eq_refl Hb E) as (ys & -> & -> & Hok).
      exists (Octet byte :: ys). split_and!; try done. by constructor.
Qed.
Lemma encoded_chars preserve_slash ys : Forall (symbol_ok preserve_slash) ys →
  Forall (λ c, canonical_char c = true ∨ (c = 47 ∧ preserve_slash = true)) (ys ≫= symbol_text).
Proof.
  induction 1 as [|y ys Hy _ IH]; [constructor|]. cbn [mbind list_bind]. apply Forall_app. split; [|exact IH].
  destruct y as [|b]; cbn in Hy |- *; [constructor; [by right|constructor]|].
  pose proof (encode_chars b Hy) as Hc. apply forallb_Forall_eq in Hc. eapply Forall_impl; [exact Hc|]. by left.
Qed.
Lemma canonical_not c : c ∈ [LF; 38; 61; 58; 59; 44] → canonical_char c = false.
Proof. intros H. repeat (apply elem_of_cons in H as [->|H]; [by vm_compute|]). by apply elem_of_nil in H. Qed.

(** ** Joined texts *)

Lemma join_tail c parts : parts ≠ [] → join [c] parts = tail (concat (cons c <$> parts)).
Proof.
  intros Hne. destruct parts as [|part parts]; [done|]. clear Hne. revert part.
  induction parts as [|next parts IH]; intros part; [cbn; by rewrite app_nil_r|].
  change (join [c] (part :: next :: parts)) with (part ++ [c] ++ join [c] (next :: parts)). rewrite IH. done.
Qed.
Lemma split_join c parts : parts ≠ [] → Forall (λ part, c ∉ part) parts → split_bytes c (join [c] parts) = parts.
Proof. intros Hne Hf. rewrite join_tail by done. by apply split_bytes_unique. Qed.
Lemma join_inj c l k : l ≠ [] → k ≠ [] → Forall (λ part, c ∉ part) l → Forall (λ part, c ∉ part) k →
  join [c] l = join [c] k → l = k.
Proof. intros Hl Hk Fl Fk E. by rewrite <-(split_join c l), <-(split_join c k), E. Qed.
Lemma join_elem c x parts : x ∈ join [c] parts → x = c ∨ ∃ part, part ∈ parts ∧ x ∈ part.
Proof.
  induction parts as [|part parts IH]; [intros H; by apply elem_of_nil in H|]. destruct parts as [|next parts].
  - cbn. intros H. right. exists part. split; [left|done].
  - change (join [c] (part :: next :: parts)) with (part ++ c :: join [c] (next :: parts)).
    rewrite elem_of_app, elem_of_cons. intros [H|[H|H]]; [right; exists part; split; [left|done]|by left|].
    destruct (IH H) as [?|(p & Hp & Hx)]; [by left|]. right. exists p. split; [by right|done].
Qed.
(** The text before the first separator. *)
Lemma split_unique (c : Z) (s k s' k' : str) : c ∉ s → c ∉ s' → s ++ c :: k = s' ++ c :: k' → s = s' ∧ k = k'.
Proof.
  revert s'. induction s as [|x s IH]; intros [|y s'] Hs Hs' E; cbn in E; simplify_eq; [done| | |].
  - rewrite elem_of_cons in Hs'. tauto.
  - rewrite elem_of_cons in Hs. tauto.
  - apply not_elem_of_cons in Hs as [_ Hs]. apply not_elem_of_cons in Hs' as [_ Hs']. by destruct (IH s' Hs Hs' H0) as [-> ->].
Qed.

(** ** Requests as they can be made *)

(** [url::Url]: paths and queries are ASCII, everything else percent-encoded. *)
Class SigningUrlLaws `{UrlCrate} : Prop := {
  path_ascii url : Forall (λ c, 0 ≤ c < 128) (path url);
  query_ascii url q : query url = Some q → Forall (λ c, 0 ≤ c < 128) q;
}.
(** [http::HeaderName]: a name is a token. *)
Class HeaderNameLaws `{HttpCrate} : Prop := {
  header_name_token s name : header_name s = Some name → name ≠ [] ∧ Forall (λ c, is_http_token_byte c = true) name;
}.

Definition value_char (c : Z) : Prop := safe_header_byte c = true.
Record header_ok (h : SignedHeader) : Prop := {
  name_nonempty : header_name_of h ≠ [];
  name_token : Forall (λ c, is_http_token_byte c = true) (header_name_of h);
  value_line : Forall value_char (header_value_of h);
}.

Lemma ascii_words_chars s word : Forall value_char s → Forall value_char word →
  Forall (Forall value_char) (ascii_words_from s word).
Proof.
  revert word. induction s as [|c s IH]; intros word Hs Hw; cbn.
  - destruct (is_empty word); repeat constructor; done.
  - apply Forall_cons in Hs as [Hc Hs]. destruct (is_ascii_whitespace c).
    + destruct (is_empty word); [by apply IH|]. constructor; [done|by apply IH].
    + apply IH; [done|]. apply Forall_app. by repeat constructor.
Qed.
Lemma fold_whitespace_chars value : Forall value_char value → Forall value_char (fold_header_whitespace value).
Proof.
  intros Hv. apply Forall_forall. intros c [->|(part & Hp & Hc)]%join_elem; [by vm_compute|].
  pose proof (ascii_words_chars value [] Hv ltac:(constructor)) as Hw. rewrite Forall_forall in Hw.
  specialize (Hw part Hp). rewrite Forall_forall in Hw. by apply Hw.
Qed.
(** A predicate of ASCII bytes on the bytes of a text holds of its characters. *)
Lemma bytes_chars (P : Z → bool) s : (∀ c, P c = true → c < 128) → forallb P (as_bytes s) = true → Forall (λ c, P c = true) s.
Proof.
  intros HP Hb. apply forallb_Forall_eq in Hb.
  assert (Forall (λ b, b < 128) (as_bytes s)) as Ha by (eapply Forall_impl; [exact Hb|exact HP]).
  by rewrite (ascii_bytes s Ha) in Hb.
Qed.
Lemma safe_header_ascii c : safe_header_byte c = true → c < 128.
Proof. unfold safe_header_byte. rewrite orb_true_iff, andb_true_iff, !Z.leb_le, Z.eqb_eq. lia. Qed.
Lemma alphanumeric_ascii c : is_ascii_alphanumeric c = true → 48 ≤ c < 128.
Proof.
  unfold is_ascii_alphanumeric, is_ascii_alphabetic, is_ascii_lower, is_ascii_upper, is_ascii_digit.
  rewrite !orb_true_iff, !andb_true_iff, !Z.leb_le. lia.
Qed.
Lemma in_list_bound (l : list Z) lo hi c : forallb (λ x, (lo <=? x) && (x <? hi)) l = true → c ∈ l → lo ≤ c < hi.
Proof.
  intros Hl Hc. apply forallb_Forall_eq in Hl. rewrite Forall_forall in Hl. specialize (Hl c Hc).
  apply andb_true_iff in Hl as [?%Z.leb_le ?%Z.ltb_lt]. lia.
Qed.
Lemma method_byte_range c : method_byte c = true → 33 ≤ c < 128.
Proof.
  unfold method_byte. rewrite !orb_true_iff. intros [[H|H]|H%bool_decide_eq_true].
  - pose proof (alphanumeric_ascii c). unfold is_ascii_alphanumeric in *. rewrite H in *. specialize (H0 eq_refl). lia.
  - pose proof (alphanumeric_ascii c). unfold is_ascii_alphanumeric in *. rewrite H, orb_true_r in *. specialize (H0 eq_refl). lia.
  - by apply (in_list_bound (lit "!#$%&'*+-.^_`|~") 33 128); [vm_compute|].
Qed.
Lemma token_byte_range c : is_http_token_byte c = true → 33 ≤ c < 128 ∧ c ≠ 58 ∧ c ≠ 59.
Proof.
  intros Hc. split; [|split; intros ->; by vm_compute in Hc].
  unfold is_http_token_byte in Hc. apply orb_true_iff in Hc as [H|H%bool_decide_eq_true].
  - pose proof (alphanumeric_ascii c H). lia.
  - by apply (in_list_bound (lit "!#$%&'*+-.^_`|~") 33 128); [vm_compute|].
Qed.

Section facts.
Context `{CookieHosts} `{!CaptureUrls} `{HttpCrate} `{!SigningUrlLaws} `{!HeaderNameLaws}.

Lemma signed_header_ok name value h : signed_header_new name value = Ok h →
  name ≠ [] → Forall (λ c, is_http_token_byte c = true) name →
  header_ok h ∧ header_name_of h = name ∧ is_Some (header_value (header_value_of h)).
Proof.
  unfold signed_header_new. intros E Hne Ht. destruct (MAX_HEADER_VALUE_BYTES <? str_len value); [done|]. cbn in E.
  destruct (is_safe_header_value value) eqn:Es; [|done]. cbn in E.
  apply bind_Ok in E as (bytes & Hb%ok_or_Ok & [= <-]). split; [|by split; [|eexists]].
  split; cbn; try done. apply fold_whitespace_chars. apply bytes_chars; [apply safe_header_ascii|exact Es].
Qed.

(** The requests [new], [for_validated_endpoint] and [with_header] can make. *)
Inductive made : SigningRequest → Prop :=
| made_new m url body http r : new_inner m url body http = Ok r → made r
| made_header name value r r' : made r → with_header name value r = Ok r' → made r'.
Record request_ok (r : SigningRequest) : Prop := {
  ok_method : Forall (λ c, method_byte c = true) (signing_method r);
  ok_headers : Forall header_ok (signing_headers r);
  ok_reserved : Forall (λ h, header_name_of h ≠ AUTHORIZATION ∧ header_name_of h ≠ HOST) (signing_headers r);
  ok_values : Forall (λ h, is_Some (header_value (header_value_of h))) (signing_headers r);
  ok_body : count (signing_body r) ≤ MAX_BODY_BYTES;
}.
Lemma made_ok r : made r → request_ok r.
Proof.
  induction 1 as [m url body http r E|name value r r' _ [Hm Hh Hr Hv Hb] E].
  - unfold new_inner in E. apply bind_Ok in E as (u & Em & E). apply bind_Ok in E as (u' & _ & E).
    destruct (Z.ltb_spec MAX_BODY_BYTES (count body)); [done|]. injection E as <-. split; cbn; [|constructor..|lia].
    unfold validate_method in Em. destruct (is_empty m || (32 <? str_len m) || negb (forallb method_byte (as_bytes m))) eqn:Ev; [done|].
    rewrite !orb_false_iff, negb_false_iff in Ev. destruct Ev as [_ Ev]. apply bytes_chars; [|done].
    intros c Hc. pose proof (method_byte_range c Hc). lia.
  - unfold with_header in E. destruct (MAX_HEADER_COUNT <=? count (signing_headers r)); [done|].
    apply bind_Ok in E as (n & Hn%ok_or_Ok & E).
    destruct (bool_decide (n = AUTHORIZATION) || bool_decide (n = HOST)) eqn:Er; [done|].
    apply orb_false_iff in Er as [Ha%bool_decide_eq_false Ho%bool_decide_eq_false].
    apply bind_Ok in E as (total & _ & E). destruct (MAX_TOTAL_HEADER_BYTES <? total); [done|].
    apply bind_Ok in E as (h & Hnew & [= <-]). destruct (header_name_token _ _ Hn) as [Hne Ht].
    destruct (signed_header_ok _ _ _ Hnew Hne Ht) as (Hok & Hname & Hval). 
    split; cbn; try done; apply Forall_app; (split; [done|]); (apply Forall_cons; split; [|constructor]); try done.
    by rewrite Hname.
Qed.

(** ** The URL, decoded *)

Definition path_symbols (url : Url) : option (list Symbol) :=
  if is_empty (path url) then Some [Slash] else decode true (as_bytes (path url)).
Definition component_symbols (component : str) : option (list Symbol * list Symbol) :=
  let '(key, value) := default (component, []) (split_once [61] component) in
  key ← decode false (as_bytes key); value ← decode false (as_bytes value); Some (key, value).
Definition query_symbols (url : Url) : option (list (list Symbol * list Symbol)) :=
  match query url with
  | None => Some []
  | Some query => if is_empty query then Some [] else mapM component_symbols (split_bytes 38 query)
  end.
Definition encode_pair (pair : list Symbol * list Symbol) : str * str :=
  (pair.1 ≫= symbol_text, pair.2 ≫= symbol_text).
Definition pair_ok (pair : list Symbol * list Symbol) : Prop :=
  Forall (symbol_ok false) pair.1 ∧ Forall (symbol_ok false) pair.2.

Lemma ascii_is_byte s : Forall (λ c, 0 ≤ c < 128) s → Forall is_byte (as_bytes s).
Proof.
  intros Hs. rewrite as_bytes_ascii by (eapply Forall_impl; [exact Hs|]; cbn; lia).
  eapply Forall_impl; [exact Hs|]. unfold is_byte. cbn. lia.
Qed.
Lemma canonical_uri_symbols url u : canonical_uri url = Ok u →
  ∃ ys, path_symbols url = Some ys ∧ u = ys ≫= symbol_text ∧ Forall (symbol_ok true) ys.
Proof.
  unfold canonical_uri, path_symbols. destruct (is_empty (path url)).
  - intros [= <-]. exists [Slash]. by repeat constructor.
  - apply normalize_decode. apply ascii_is_byte, path_ascii.
Qed.
Lemma split_once_chars s k v : default (s, []) (split_once [61] s) = (k, v) → ∀ c, c ∈ k ∨ c ∈ v → c ∈ s.
Proof.
  revert k v. induction s as [|d s IH]; intros k v; [intros [= <- <-]; tauto|].
  destruct (decide (d = 61)) as [->|Hd].
  - intros [= <- <-] c [Hc|Hc]; [by apply elem_of_nil in Hc|by right].
  - rewrite split_once_cons by done. destruct (split_once [61] s) as [[b a]|]; cbn in *; intros [= <- <-] c.
    + rewrite !elem_of_cons. intros [[->|Hc]|Hc]; [by left|right..]; apply (IH b a eq_refl); tauto.
    + rewrite elem_of_nil, elem_of_cons. tauto.
Qed.
Lemma split_chars c l part x : part ∈ split_bytes c l → x ∈ part → x ∈ l.
Proof.
  intros Hp Hx. destruct (split_bytes_spec c l) as [Hc Hn]. rewrite Forall_forall in Hn.
  assert (x ∈ c :: l) as Hin.
  { rewrite <-Hc. apply list_elem_of_In, in_concat. exists (c :: part). split; [|by apply list_elem_of_In; right].
    by apply list_elem_of_In, list_elem_of_fmap_2. }
  apply elem_of_cons in Hin as [->|]; [by destruct (Hn part Hp)|done].
Qed.
Lemma component_pair_symbols component pair : Forall (λ c, 0 ≤ c < 128) component → component_pair component = Ok pair →
  ∃ ps, component_symbols component = Some ps ∧ pair = encode_pair ps ∧ pair_ok ps.
Proof.
  unfold component_pair, component_symbols. intros Ha E.
  destruct (default (component, []) (split_once [61] component)) as [k v] eqn:Es.
  pose proof (split_once_chars _ _ _ Es) as Hin. rewrite Forall_forall in Ha.
  apply bind_Ok in E as (k' & Ek & E). apply bind_Ok in E as (v' & Ev & [= <-]).
  destruct (normalize_decode false (as_bytes k) k') as (ks & -> & -> & Hk); [|done|].
  { apply ascii_is_byte, Forall_forall. auto. }
  destruct (normalize_decode false (as_bytes v) v') as (vs & -> & -> & Hv); [|done|].
  { apply ascii_is_byte, Forall_forall. auto. }
  exists (ks, vs). by split_and!.
Qed.
Lemma components_symbols components pairs : Forall (Forall (λ c, 0 ≤ c < 128)) components →
  traverse_list component_pair components = Ok pairs →
  ∃ ps, mapM component_symbols components = Some ps ∧ pairs = encode_pair <$> ps ∧ Forall pair_ok ps.
Proof.
  intros Ha E%traverse_list_Ok. revert Ha. induction E as [|component pair components pairs E _ IH]; intros Ha.
  { by exists []. }
  apply Forall_cons in Ha as [Hc Ha]. destruct (component_pair_symbols _ _ Hc E) as (p & Hp & -> & Hok).
  destruct (IH Ha) as (ps & Hps & -> & Hoks). exists (p :: ps). cbn. rewrite Hp, Hps. split_and!; [done..|by constructor].
Qed.
Definition query_text (ps : list (list Symbol * list Symbol)) : str :=
  join [38] (pair_text <$> sort_by_key id (encode_pair <$> ps)).
Lemma canonical_query_symbols url q : canonical_query url = Ok q →
  ∃ ps, query_symbols url = Some ps ∧ q = query_text ps ∧ Forall pair_ok ps.
Proof.
  unfold canonical_query, query_symbols. destruct (query url) as [text|] eqn:Eq; [|intros [= <-]; by exists []].
  destruct (is_empty text); [intros [= <-]; by exists []|]. intros (pairs & Ep & [= <-])%bind_Ok.
  destruct (components_symbols (split_bytes 38 text) pairs) as (ps & Hps & -> & Hok); [|done|by exists ps].
  pose proof (query_ascii _ _ Eq) as Ha. rewrite Forall_forall in Ha. apply Forall_forall. intros part Hp.
  apply Forall_forall. intros c Hc. by eapply Ha, split_chars.
Qed.

(** The order of the pairs and the way they were encoded are all a canonical query forgets. *)
Lemma pair_component_chars pair c : pair_ok pair → canonical_char c = false →
  c ∉ (encode_pair pair).1 ∧ c ∉ (encode_pair pair).2.
Proof.
  intros [Hk Hv] Hc. cbn. split; intros Hin.
  - pose proof (encoded_chars _ _ Hk) as H'. rewrite Forall_forall in H'. destruct (H' c Hin) as [?|[_ ?]]; congruence.
  - pose proof (encoded_chars _ _ Hv) as H'. rewrite Forall_forall in H'. destruct (H' c Hin) as [?|[_ ?]]; congruence.
Qed.
Definition decode_pair (pair : str * str) : option (list Symbol * list Symbol) :=
  k ← decode false pair.1; v ← decode false pair.2; Some (k, v).
Lemma decode_pairs ps : Forall pair_ok ps → omap decode_pair (encode_pair <$> ps) = ps.
Proof.
  induction 1 as [|p ps [Hk Hv] _ IH]; [done|]. rewrite fmap_cons.
  assert (decode_pair (encode_pair p) = Some p) as Hp.
  { unfold decode_pair, encode_pair. cbn. rewrite !percent_decode_encode by done. by destruct p. }
  cbn [omap list_omap]. by rewrite Hp, IH.
Qed.
Lemma query_text_perm ps qs : Forall pair_ok ps → Forall pair_ok qs → query_text ps = query_text qs → ps ≡ₚ qs.
Proof.
  intros Hp Hq E. unfold query_text in E.
  assert (∀ rs, Forall pair_ok rs → Forall (λ part, 38 ∉ part) (pair_text <$> sort_by_key id (encode_pair <$> rs)) ∧
    Forall (λ part, part ≠ []) (pair_text <$> sort_by_key id (encode_pair <$> rs)) ∧
    Forall (λ pair, 61 ∉ pair.1) (sort_by_key id (encode_pair <$> rs))) as Hparts.
  { intros rs Hr. assert (Forall (λ pair, ∃ r, pair = encode_pair r ∧ pair_ok r) (sort_by_key id (encode_pair <$> rs))) as Hs.
    { rewrite sort_by_key_perm. apply Forall_fmap. eapply Forall_impl; [exact Hr|]. intros r ?. by exists r. }
    rewrite !Forall_fmap. split_and!; eapply Forall_impl; try exact Hs; intros pair (r & -> & Hok); unfold compose.
    - destruct (pair_component_chars r 38 Hok (canonical_not 38 ltac:(set_solver))) as [Hk Hv].
      unfold pair_text. change (lit "=") with [61]. rewrite !elem_of_app, list_elem_of_singleton. intuition congruence.
    - unfold pair_text. by destruct (encode_pair r).1.
    - apply (pair_component_chars r 61 Hok (canonical_not 61 ltac:(set_solver))). }
  destruct (Hparts ps Hp) as (Hp1 & Hp2 & Hp3). destruct (Hparts qs Hq) as (Hq1 & Hq2 & Hq3).
  assert (sort_by_key id (encode_pair <$> ps) = sort_by_key id (encode_pair <$> qs)) as Hs.
  { assert (pair_text <$> sort_by_key id (encode_pair <$> ps) = pair_text <$> sort_by_key id (encode_pair <$> qs)) as Ht.
    { assert (∀ l : list str, Forall (λ part, part ≠ []) l → join [38] l = [] → l = []) as Hnil.
      { intros l Hl Ej. destruct l as [|a [|b l]]; [done|by apply Forall_cons in Hl as [? _]|]. by destruct a. }
      destruct (pair_text <$> sort_by_key id (encode_pair <$> ps)) as [|a l] eqn:El.
      - symmetry. apply Hnil; [done|]. by rewrite <-E.
      - destruct (pair_text <$> sort_by_key id (encode_pair <$> qs)) as [|b k] eqn:Ek; [by apply Hnil in E|].
        by apply (join_inj 38). }
    revert Ht Hp3 Hq3. generalize (sort_by_key id (encode_pair <$> ps)) (sort_by_key id (encode_pair <$> qs)).
    induction l as [|[k v] l IH]; intros [|[k' v'] l'] Ht Hl Hl'; try done. injection Ht as Ht Ht'.
    apply Forall_cons in Hl as [Hk Hl]. apply Forall_cons in Hl' as [Hk' Hl'].
    destruct (split_unique 61 k v k' v' Hk Hk' Ht) as [-> ->]. f_equal. by apply IH. }
  rewrite <-(decode_pairs ps Hp), <-(decode_pairs qs Hq).
  by rewrite <-(sort_by_key_perm id (encode_pair <$> ps)), Hs, sort_by_key_perm.
Qed.

(** ** Headers by name *)

Definition group_ok (g : str * list str) : Prop :=
  g.1 ≠ [] ∧ Forall (λ c, is_http_token_byte c = true) g.1 ∧ Forall (Forall value_char) g.2.
Lemma push_value_ok name value groups : name ≠ [] → Forall (λ c, is_http_token_byte c = true) name →
  Forall value_char value → Forall group_ok groups → Forall group_ok (push_value name value groups).
Proof.
  intros Hne Ht Hv. assert (group_ok (name, [value])) as Hone by by repeat constructor.
  induction 1 as [|[key values] groups Hg Hgs IH]; cbn; [by constructor|].
  destruct (cmp name key) eqn:E.
  - apply cmp_eq in E as ->. constructor; [|done]. destruct Hg as (? & ? & ?). split_and!; try done.
    apply Forall_app. by repeat constructor.
  - constructor; [done|by constructor].
  - by constructor.
Qed.
Lemma grouped_ok hs : Forall header_ok hs → Forall group_ok (grouped hs).
Proof.
  intros Hh. unfold grouped. assert (Forall group_ok []) as Hnil by constructor. revert Hnil.
  generalize (@nil (str * list str)). induction Hh as [|h hs [Hn Ht Hv] _ IH]; intros groups Hg; [done|].
  apply IH. by apply push_value_ok.
Qed.
Definition joined (g : str * list str) : str * str := (g.1, join (lit ",") g.2).
Lemma token_not c name : Forall (λ c, is_http_token_byte c = true) name → c ∈ [LF; 58; 59] → c ∉ name.
Proof.
  intros Ht Hc Hin. rewrite Forall_forall in Ht. specialize (Ht c Hin). apply token_byte_range in Ht.
  revert Hc. unfold LF. rewrite !elem_of_cons, elem_of_nil. lia.
Qed.
Lemma group_line g : group_ok g → LF ∉ header_line g ∧ header_line g ≠ [].
Proof.
  intros (Hne & Ht & Hv). unfold header_line. split; [|by destruct g.1].
  change (lit ":") with [58]. rewrite !elem_of_app, list_elem_of_singleton.
  intros [H'|[H'|H']]; [by apply (token_not LF g.1 Ht) in H'; [|set_solver]|done|].
  apply join_elem in H' as [H'|(v & Hin & H')]; [done|]. rewrite Forall_forall in Hv. specialize (Hv v Hin).
  rewrite Forall_forall in Hv. specialize (Hv LF H'). by vm_compute in Hv.
Qed.
Lemma header_lines_inj gs hs : Forall group_ok gs → Forall group_ok hs → header_line <$> gs = header_line <$> hs →
  joined <$> gs = joined <$> hs.
Proof.
  intros Hg. revert hs. induction Hg as [|g gs (_ & Ht & _) _ IH]; intros [|h hs] Hh E; try done.
  injection E as E1 E2. apply Forall_cons in Hh as [(_ & Ht' & _) Hh]. unfold header_line in E1. change (lit ":") with [58] in E1.
  destruct (split_unique 58 g.1 (join (lit ",") g.2) h.1 (join (lit ",") h.2)) as [Hn Hv]; [| |exact E1|].
  1-2: apply token_not; [done|set_solver].
  cbn. f_equal; [|by apply IH]. unfold joined. by rewrite Hn, Hv.
Qed.

(** ** The canonical request *)

Definition canonical_lines (m u q : str) (groups : list (str * list str)) (digest : str) : list str :=
  [m; u; q] ++ (header_line <$> groups) ++ [[]; join [59] groups.*1; digest].
Lemma join_cons c p parts : parts ≠ [] → join [c] (p :: parts) = p ++ [c] ++ join [c] parts.
Proof. by destruct parts. Qed.
Lemma canonical_text m u q groups digest :
  m ++ [LF] ++ u ++ [LF] ++ q ++ [LF] ++ (groups ≫= λ group, header_line group ++ [LF]) ++ [LF]
    ++ join (lit ";") groups.*1 ++ [LF] ++ digest = join [LF] (canonical_lines m u q groups digest).
Proof.
  unfold canonical_lines. cbn [app]. rewrite !join_cons by (try done; by destruct groups). do 6 f_equal.
  change (lit ";") with [59]. generalize (join [59] groups.*1). intros names. induction groups as [|g groups IH]; [done|].
  cbn [fmap list_fmap mbind list_bind app]. rewrite join_cons by (by destruct groups).
  rewrite <-!app_assoc. do 2 f_equal. exact IH.
Qed.

Lemma hex_chars bytes : Forall is_byte bytes → LF ∉ hex bytes.
Proof.
  unfold hex. induction 1 as [|b bytes Hb _ IH]; [apply not_elem_of_nil|]. cbn [mbind list_bind].
  rewrite elem_of_app. intros [H'|H']; [|done]. revert H'.
  assert (negb (bool_decide (LF ∈ hex_byte b)) = true) as Hn.
  { revert b Hb. apply every_byte. by vm_compute. }
  apply negb_true_iff, bool_decide_eq_false in Hn. done.
Qed.
Lemma hex_inj a b : Forall is_byte a → Forall is_byte b → hex a = hex b → a = b.
Proof.
  intros Ha. revert b. induction Ha as [|x a Hx _ IH]; intros [|y b] Hb E; try done.
  apply Forall_cons in Hb as [Hy Hb]. cbn in E. injection E as E1 E2 E.
  assert (∀ z, is_byte z → from_hex (hex_digit (Z.shiftr z 4)) = Some (z / 16) ∧ from_hex (hex_digit (Z.land z 15)) = Some (z mod 16)) as Hd.
  { intros z Hz. pose proof (every_byte (λ z, bool_decide (from_hex (hex_digit (Z.shiftr z 4)) = Some (z / 16))
      && bool_decide (from_hex (hex_digit (Z.land z 15)) = Some (z mod 16))) ltac:(by vm_compute) z Hz) as H'.
    by rewrite andb_true_iff, !bool_decide_eq_true in H'. }
  f_equal; [|by apply IH]. destruct (Hd x Hx) as [X1 X2], (Hd y Hy) as [Y1 Y2]. rewrite E1 in X1. rewrite E2 in X2.
  assert (x / 16 = y / 16) by congruence. assert (x mod 16 = y mod 16) by congruence.
  rewrite (Z.div_mod x 16), (Z.div_mod y 16) by done. congruence.
Qed.

Lemma canonical_lines_ok `{DigestCrateLaws} m u q groups body :
  Forall (λ c, method_byte c = true) m → LF ∉ u → LF ∉ q → Forall group_ok groups →
  Forall (λ line, LF ∉ line) (canonical_lines m u q groups (hex (sha256 body))).
Proof.
  intros Hm Hu Hq Hg. unfold canonical_lines. apply Forall_app. split; [|apply Forall_app; split].
  - repeat constructor; try done. intros Hin. rewrite Forall_forall in Hm. specialize (Hm LF Hin). by vm_compute in Hm.
  - apply Forall_fmap. eapply Forall_impl; [exact Hg|]. intros g ?. by apply group_line.
  - constructor; [apply not_elem_of_nil|]. constructor.
    + intros [Hc|(part & Hp & Hc)]%join_elem; [done|]. apply list_elem_of_fmap in Hp as (g & -> & Hin).
      rewrite Forall_forall in Hg. destruct (Hg g Hin) as (_ & Ht & _). by apply (token_not LF g.1 Ht) in Hc; [|set_solver].
    + constructor; [|constructor]. apply hex_chars. eapply Forall_impl; [apply sha256_bytes|done].
Qed.
Lemma canonical_lines_inj m u q gs d m' u' q' hs d' :
  canonical_lines m u q gs d = canonical_lines m' u' q' hs d' →
  m = m' ∧ u = u' ∧ q = q' ∧ header_line <$> gs = header_line <$> hs ∧ d = d'.
Proof.
  unfold canonical_lines. cbn [app]. intros E. injection E as -> -> -> E.
  apply app_inj_2 in E as [E1 E2]; [|done]. injection E2 as _ E2. done.
Qed.

(** What the signer canonicalizes is fine. *)
Lemma hash_header_ok `{DigestCrate} r credentials timestamp hs : request_ok r →
  aws_signed_headers r credentials timestamp = Ok hs →
  Forall header_ok hs ∧ Forall (λ h, is_Some (header_value (header_value_of h))) hs.
Proof.
  intros [Hm Hh Hr Hv Hb] E. unfold aws_signed_headers in E.
  apply bind_Ok in E as (host & _ & E). apply bind_Ok in E as (h1 & E1 & E). apply bind_Ok in E as (h2 & E2 & E).
  apply bind_Ok in E as (h3 & E3 & E). apply bind_Ok in E as (token & E4 & [= <-]).
  assert (∀ name value h, signed_header_new name value = Ok h → name ≠ [] → forallb is_http_token_byte name = true →
    header_ok h ∧ is_Some (header_value (header_value_of h))) as Hnew.
  { intros name value h Eh Hne Ht. apply forallb_Forall_eq in Ht. by destruct (signed_header_ok name value h Eh Hne Ht) as (? & _ & ?). }
  assert (Forall (λ h, header_ok h ∧ is_Some (header_value (header_value_of h))) (signing_headers r ++ [h1; h2; h3] ++ option_list token)) as Hall.
  { apply Forall_app. split; [by apply Forall_and|]. repeat (apply Forall_cons; split; [by eapply Hnew|]).
    apply traverse_option_Ok in E4 as [[_ ->]|(t & h & _ & E4 & ->)]; [constructor|]. constructor; [by eapply Hnew|constructor]. }
  apply Forall_and. unfold sort_headers. by rewrite sort_by_key_perm.
Qed.

(** ** The signers *)

Lemma push_value_keys name value groups key :
  key ∈ (push_value name value groups).*1 ↔ key = name ∨ key ∈ groups.*1.
Proof.
  induction groups as [|[k values] groups IH]; cbn [push_value].
  { cbn. rewrite elem_of_cons. done. }
  destruct (cmp name k) eqn:E; cbn; rewrite ?elem_of_cons, ?IH; [|tauto..].
  apply cmp_eq in E as ->. tauto.
Qed.
Lemma push_value_sorted name value groups : strictly_sorted fst groups → strictly_sorted fst (push_value name value groups).
Proof.
  unfold strictly_sorted. induction 1 as [|[k values] groups Hs IH Hk]; cbn [push_value]; [by repeat constructor|].
  destruct (cmp name k) eqn:E.
  - by constructor.
  - constructor; [by constructor|]. constructor; [done|]. eapply Forall_impl; [exact Hk|]. intros g. by apply cmp_trans.
  - constructor; [done|]. rewrite Forall_forall in *. intros g Hg.
    assert (g.1 ∈ (push_value name value groups).*1) as Hin by by apply list_elem_of_fmap_2.
    apply push_value_keys in Hin as [->|Hin]; [by apply cmp_Gt_Lt|].
    apply list_elem_of_fmap in Hin as (g' & -> & Hg'). by apply Hk.
Qed.
Lemma grouped_from hs groups : strictly_sorted fst groups →
  let l := foldl (λ groups h, push_value (header_name_of h) (header_value_of h) groups) groups hs in
  strictly_sorted fst l ∧ ∀ key, key ∈ l.*1 ↔ key ∈ groups.*1 ∨ key ∈ header_name_of <$> hs.
Proof.
  revert groups. induction hs as [|h hs IH]; intros groups Hs; cbn.
  - split; [done|]. intros key. rewrite elem_of_nil. tauto.
  - destruct (IH _ (push_value_sorted (header_name_of h) (header_value_of h) groups Hs)) as [Hl Hk]. split; [done|].
    intros key. rewrite Hk, push_value_keys, elem_of_cons. tauto.
Qed.
Lemma grouped_keys hs : strictly_sorted fst (grouped hs) ∧ ∀ key, key ∈ (grouped hs).*1 ↔ key ∈ header_name_of <$> hs.
Proof.
  destruct (grouped_from hs [] ltac:(constructor)) as [Hs Hk]. split; [exact Hs|]. intros key. rewrite Hk. cbn. set_solver.
Qed.

Context `{DigestCrate} `{!DigestCrateLaws}.

Lemma canonical_request_lines r hs text names : request_ok r → Forall header_ok hs →
  aws_canonical_request r hs = Ok (text, names) →
  ∃ ys ps, path_symbols (signing_url r) = Some ys ∧ query_symbols (signing_url r) = Some ps ∧
    Forall (symbol_ok true) ys ∧ Forall pair_ok ps ∧ names = join (lit ";") (grouped hs).*1 ∧
    text = join [LF] (canonical_lines (signing_method r) (ys ≫= symbol_text) (query_text ps) (grouped hs) (hex (sha256 (signing_body r)))) ∧
    Forall (λ line, LF ∉ line) (canonical_lines (signing_method r) (ys ≫= symbol_text) (query_text ps) (grouped hs) (hex (sha256 (signing_body r)))).
Proof.
  intros Hr Hh E. unfold aws_canonical_request in E. apply bind_Ok in E as (c & Ec & E). apply bind_Ok in E as (u & Eu & E).
  apply bind_Ok in E as (q & Eq & [= <- <-]). unfold canonical_headers in Ec. destruct (is_empty (grouped hs)); [done|].
  injection Ec as <-. cbn [block RequestSigning.names].
  destruct (canonical_uri_symbols _ _ Eu) as (ys & Hys & -> & Hy). destruct (canonical_query_symbols _ _ Eq) as (ps & Hps & -> & Hp).
  exists ys, ps. split_and!; try done; [apply canonical_text|]. apply canonical_lines_ok; [by apply ok_method| | |by apply grouped_ok].
  - intros Hin. pose proof (encoded_chars _ _ Hy) as H'. rewrite Forall_forall in H'. destruct (H' LF Hin) as [Hc|[Hc _]]; by vm_compute in Hc.
  - unfold query_text. intros [Hc|(part & Hin & Hc)]%join_elem; [done|]. apply list_elem_of_fmap in Hin as (pair & -> & Hin).
    rewrite sort_by_key_perm in Hin. apply list_elem_of_fmap in Hin as (p & -> & Hin). rewrite Forall_forall in Hp.
    destruct (pair_component_chars p LF (Hp p Hin) (canonical_not LF ltac:(set_solver))) as [Hk Hv].
    unfold pair_text in Hc. change (lit "=") with [61] in Hc. rewrite !elem_of_app, list_elem_of_singleton in Hc.
    destruct Hc as [?|[?|?]]; done.
Qed.

(** C25. The text that is hashed and signed determines the request: its method, its
    path and its query as they decode, its headers by name, the signer's own among
    them, and the digest of its body.  The order of query parameters and the way a
    byte was written are all it leaves open. *)
Theorem canonical_request_identifies r r' credentials credentials' timestamp timestamp' hs hs' text names names' :
  made r → made r' →
  aws_signed_headers r credentials timestamp = Ok hs → aws_signed_headers r' credentials' timestamp' = Ok hs' →
  aws_canonical_request r hs = Ok (text, names) → aws_canonical_request r' hs' = Ok (text, names') →
  signing_method r = signing_method r' ∧
  path_symbols (signing_url r) = path_symbols (signing_url r') ∧
  (∃ ps ps', query_symbols (signing_url r) = Some ps ∧ query_symbols (signing_url r') = Some ps' ∧ ps ≡ₚ ps') ∧
  joined <$> grouped hs = joined <$> grouped hs' ∧ names = names' ∧
  sha256 (signing_body r) = sha256 (signing_body r').
Proof.
  intros Hr%made_ok Hr'%made_ok Eh Eh' Et Et'.
  destruct (hash_header_ok _ _ _ _ Hr Eh) as [Hh _]. destruct (hash_header_ok _ _ _ _ Hr' Eh') as [Hh' _].
  destruct (canonical_request_lines _ _ _ _ Hr Hh Et) as (ys & ps & -> & -> & Hy & Hp & Hn & -> & Hl).
  destruct (canonical_request_lines _ _ _ _ Hr' Hh' Et') as (zs & qs & -> & -> & Hz & Hq & Hn' & E & Hl').
  apply join_inj in E; try done. apply canonical_lines_inj in E as (Em & Eu & Eq & Eg & Ed).
  apply header_lines_inj in Eg; [|by apply grouped_ok..]. apply hex_inj in Ed; [|apply sha256_bytes..].
  split_and!; try done.
  - f_equal. by eapply encode_inj.
  - exists ps, qs. split_and!; try done. by apply query_text_perm.
  - assert ((grouped hs).*1 = (grouped hs').*1) as Hk; [|by rewrite Hn, Hn', Hk].
    apply (f_equal (fmap fst)) in Eg. by rewrite <-!list_fmap_compose in Eg.
Qed.

(** Whatever was signed goes out: no header of a signed request is refused. *)
Lemma wire_headers_total s : Forall (λ h, is_Some (header_value (header_value_of h))) (signed_headers s) → is_Some (wire_headers s).
Proof.
  unfold wire_headers. generalize (signed_headers s). intros l Hl. apply mapM_is_Some_2. eapply Forall_impl; [exact Hl|].
  intros h [v Hv]. unfold compose, transport_signed_header_value. rewrite Hv. by eexists.
Qed.

Definition named (name : str) (hs : list SignedHeader) : list SignedHeader := filter (λ h, header_name_of h = name) hs.
Lemma named_none name hs : Forall (λ h, header_name_of h ≠ name) hs → named name hs = [].
Proof. unfold named. intros Hn. induction Hn as [|h hs Hh _ IH]; [done|]. by rewrite filter_cons_False. Qed.
Lemma signed_header_name name value h : signed_header_new name value = Ok h → header_name_of h = name.
Proof. unfold signed_header_new. destruct (_ || _); [done|]. by intros (? & _ & [= <-])%bind_Ok. Qed.
Lemma managed_Ok headers managed u : reject_managed_headers headers managed = Ok u →
  Forall (λ h, header_name_of h ∉ managed) headers.
Proof.
  unfold reject_managed_headers. destruct (existsb _ headers) eqn:E; [done|]. intros _. apply existsb_false in E.
  eapply Forall_impl; [exact E|]. cbn. intros h. apply bool_decide_eq_false.
Qed.
Lemma validate_output_Ok headers u : validate_output_headers headers = Ok u → count headers ≤ MAX_HEADER_COUNT.
Proof. unfold validate_output_headers. destruct (Z.ltb_spec MAX_HEADER_COUNT (count headers)); [done|lia]. Qed.
(** The headers that are signed: each managed name once. *)
Lemma aws_headers_named r credentials timestamp hs :
  aws_signed_headers r credentials timestamp = Ok hs →
  (∃ h1 h2 h3 token, hs ≡ₚ signing_headers r ++ [h1; h2; h3] ++ option_list token ∧ header_name_of h1 = HOST ∧
    header_name_of h2 = lit "x-amz-content-sha256" ∧ header_name_of h3 = lit "x-amz-date" ∧
    Forall (λ h, header_name_of h = lit "x-amz-security-token") (option_list token)).
Proof.
  intros E. unfold aws_signed_headers in E.
  apply bind_Ok in E as (host & _ & E). apply bind_Ok in E as (h1 & E1 & E). apply bind_Ok in E as (h2 & E2 & E).
  apply bind_Ok in E as (h3 & E3 & E). apply bind_Ok in E as (token & E4 & [= <-]).
  exists h1, h2, h3, token. unfold sort_headers. split_and!; [apply sort_by_key_perm|by eapply signed_header_name..|].
  apply traverse_option_Ok in E4 as [[_ ->]|(t & h & _ & E4 & ->)]; [constructor|]. constructor; [by eapply signed_header_name|constructor].
Qed.
Lemma aws_names_once r credentials timestamp hs : made r →
  reject_managed_headers (signing_headers r) [lit "x-amz-content-sha256"; lit "x-amz-date"; lit "x-amz-security-token"] = Ok tt →
  aws_signed_headers r credentials timestamp = Ok hs →
  named AUTHORIZATION hs = [] ∧ length (named HOST hs) = 1%nat ∧ length (named (lit "x-amz-content-sha256") hs) = 1%nat ∧
  length (named (lit "x-amz-date") hs) = 1%nat.
Proof.
  intros Hm Hr E. destruct (aws_headers_named _ _ _ _ E) as (h1 & h2 & h3 & token & Hp & N1 & N2 & N3 & N4).
  pose proof (ok_reserved _ (made_ok _ Hm)) as Hres. apply managed_Ok in Hr.
  assert (∀ name, Forall (λ h, header_name_of h ≠ name) (signing_headers r) → name ≠ lit "x-amz-security-token" →
    named name hs ≡ₚ named name [h1; h2; h3]) as Hnamed.
  { intros name Hn Ht. unfold named. rewrite Hp, !filter_app. fold (named name (signing_headers r)) (named name (option_list token)).
    rewrite named_none by done. rewrite (named_none name (option_list token)), app_nil_r; [done|].
    eapply Forall_impl; [exact N4|]. intros h Hh Hx. apply Ht. by rewrite <-Hx, Hh. }
  assert (∀ name, name ∈ [lit "x-amz-content-sha256"; lit "x-amz-date"] → Forall (λ h, header_name_of h ≠ name) (signing_headers r)) as Hman.
  { intros name Hin. eapply Forall_impl; [exact Hr|]. intros h Hn Hx. apply Hn. rewrite Hx. revert Hin. rewrite !elem_of_cons. tauto. }
  split_and!.
  - apply Permutation_nil. rewrite Hnamed; [|by eapply Forall_impl; [exact Hres|]; intros h [? _]|done].
    unfold named. by rewrite !filter_cons_False by (by rewrite ?N1, ?N2, ?N3).
  - rewrite Hnamed; [|by eapply Forall_impl; [exact Hres|]; intros h [_ ?]|done].
    unfold named. rewrite filter_cons_True by done. by rewrite !filter_cons_False by (by rewrite ?N2, ?N3).
  - rewrite Hnamed; [|apply Hman; set_solver|done].
    unfold named. rewrite filter_cons_False by by rewrite N1. rewrite filter_cons_True by done. by rewrite filter_cons_False by by rewrite N3.
  - rewrite Hnamed; [|apply Hman; set_solver|done].
    unfold named. rewrite !filter_cons_False by (by rewrite ?N1, ?N2). by rewrite filter_cons_True by done.
Qed.

(** A signed request is the request that was given, method, URL and body alike,
    with the signed headers and the authorization over exactly them: its
    signature is over the canonical request of those headers, its list of signed
    names is theirs without omission, the managed headers occur once each, and
    none of its headers is refused when the transport builds the request. *)
Theorem aws_signs_what_it_sends signer r credentials time s :
  made r → aws_sign signer r credentials time = Ok s →
  signed_method s = signing_method r ∧ signed_url s = signing_url r ∧ signed_body s = signing_body r ∧
  is_Some (wire_headers s) ∧ count (signed_headers s) ≤ MAX_HEADER_COUNT ∧
  ∃ date timestamp hs text keys authorization signature,
    format_timestamp time = Ok (date, timestamp) ∧ aws_signed_headers r credentials timestamp = Ok hs ∧
    aws_canonical_request r hs = Ok (text, join (lit ";") keys) ∧ canonical_request_hash s = sha256 (as_bytes text) ∧
    strictly_sorted id keys ∧ (∀ name, name ∈ keys ↔ name ∈ header_name_of <$> hs) ∧
    signed_headers s ≡ₚ authorization :: hs ∧ header_name_of authorization = AUTHORIZATION ∧
    header_value_of authorization = fold_header_whitespace
      (AWS_ALGORITHM ++ lit " Credential=" ++ access_key_id credentials ++ lit "/" ++ (date ++ lit "/" ++ signer_region signer ++ lit "/" ++ service signer ++ lit "/" ++ AWS_TERMINATOR)
       ++ lit ", SignedHeaders=" ++ join (lit ";") keys ++ lit ", Signature=" ++ hex signature) ∧
    named AUTHORIZATION hs = [] ∧ length (named HOST hs) = 1%nat ∧ length (named (lit "x-amz-content-sha256") hs) = 1%nat ∧
    length (named (lit "x-amz-date") hs) = 1%nat.
Proof.
  intros Hm E. pose proof (made_ok _ Hm) as Hok. unfold aws_sign in E. apply bind_Ok in E as ([date timestamp] & Ef & E). apply bind_Ok in E as ([] & Er & E).
  apply bind_Ok in E as (hs & Eh & E). apply bind_Ok in E as ([text names] & Ec & E). cbn zeta in E.
  apply bind_Ok in E as (signature & _ & E). apply bind_Ok in E as (authorization & Ea & E).
  apply bind_Ok in E as (u & Ev & [= <-]). cbn [signed_method signed_url signed_body signed_headers canonical_request_hash].
  destruct (hash_header_ok _ _ _ _ Hok Eh) as [Hh Hv]. destruct (canonical_request_lines _ _ _ _ Hok Hh Ec) as (_ & _ & _ & _ & _ & _ & -> & _).
  destruct (signed_header_ok _ _ _ Ea) as (_ & Hn & Hav); [done|by apply forallb_Forall_eq|].
  assert (header_value_of authorization = fold_header_whitespace (AWS_ALGORITHM ++ lit " Credential=" ++ access_key_id credentials ++ lit "/" ++ (date ++ lit "/" ++ signer_region signer ++ lit "/" ++ service signer ++ lit "/" ++ AWS_TERMINATOR)
       ++ lit ", SignedHeaders=" ++ join (lit ";") (grouped hs).*1 ++ lit ", Signature=" ++ hex signature)) as Hval.
  { unfold signed_header_new in Ea. destruct (_ || _) in Ea; [done|]. by apply bind_Ok in Ea as (? & _ & [= <-]). }
  pose proof (aws_names_once _ _ _ _ Hm Er Eh) as Hnames. destruct (grouped_keys hs) as [Hs Hk].
  split_and!; try done.
  - apply wire_headers_total. cbn [signed_headers]. unfold sort_headers. rewrite sort_by_key_perm. apply Forall_app. by repeat constructor.
  - by apply validate_output_Ok in Ev.
  - exists date, timestamp, hs, text, (grouped hs).*1, authorization, signature. split_and!; try done; try tauto.
    + unfold strictly_sorted in *. clear -Hs. induction Hs as [|g gs _ IH Hf]; [constructor|]. constructor; [exact IH|].
      apply Forall_fmap. exact Hf.
    + unfold sort_headers. rewrite sort_by_key_perm. by rewrite Permutation_app_comm.
Qed.

(** ** The signers in the transport *)

Lemma with_header_same name value r r' : with_header name value r = Ok r' →
  signing_method r' = signing_method r ∧ signing_url r' = signing_url r ∧ signing_body r' = signing_body r.
Proof.
  unfold with_header. destruct (_ <=? _); [done|]. intros (n & _ & E)%bind_Ok. destruct (_ || _); [done|].
  apply bind_Ok in E as (t & _ & E). destruct (_ <? _); [done|]. by apply bind_Ok in E as (h & _ & [= <-]).
Qed.
Definition same_request (r r' : SigningRequest) : Prop :=
  (made r → made r') ∧ signing_method r' = signing_method r ∧ signing_url r' = signing_url r ∧ signing_body r' = signing_body r.
Lemma with_header_step name value r r' : result_ok (with_header name value r) = Some r' → same_request r r'.
Proof.
  destruct (with_header name value r) as [r1|] eqn:E; [|done]. intros [= <-].
  split; [intros Hm; by eapply made_header|by eapply with_header_same].
Qed.
Lemma same_request_trans r r1 r2 : same_request r r1 → same_request r1 r2 → same_request r r2.
Proof. unfold same_request. intros (? & -> & -> & ->) (? & -> & -> & ->). tauto. Qed.
Lemma same_request_refl r : same_request r r.
Proof. by split_and!. Qed.
Lemma public_headers_step headers r r' : with_public_headers headers r = Some r' → same_request r r'.
Proof.
  revert r. induction headers as [|[name value] headers IH]; intros r; cbn; [intros [= <-]; apply same_request_refl|].
  intros (v & _ & (r1 & E1 & E)%bind_Some)%bind_Some. eapply same_request_trans; [by eapply with_header_step|by apply IH].
Qed.
Lemma sensitive_headers_step headers r r' : with_sensitive_headers headers r = Some r' → same_request r r'.
Proof.
  revert r. induction headers as [|[name value] headers IH]; intros r; cbn; [intros [= <-]; apply same_request_refl|].
  intros (r1 & E1 & E)%bind_Some. eapply same_request_trans; [by eapply with_header_step|by apply IH].
Qed.
Lemma optional_header_step {A} name (text : A → str) (o : option A) r r' :
  match o with Some a => result_ok (with_header name (text a) r) | None => Some r end = Some r' → same_request r r'.
Proof. destruct o as [a|]; [apply with_header_step|intros [= <-]; apply same_request_refl]. Qed.
Lemma signing_request_made m endpoint metadata body r : signing_request m endpoint metadata body = Some r →
  made r ∧ signing_method r = method_as_str m ∧ signing_url r = endpoint_url endpoint ∧ signing_body r = body.
Proof.
  unfold signing_request. intros (r0 & E0 & (r1 & E1 & (r2 & E2 & (r3 & E3 & E4)%bind_Some)%bind_Some)%bind_Some)%bind_Some.
  apply optional_header_step in E1. apply optional_header_step in E2. apply public_headers_step in E3. apply sensitive_headers_step in E4.
  assert (same_request r0 r) as (Hmade & -> & -> & ->).
  { eapply same_request_trans; [exact E1|]. eapply same_request_trans; [exact E2|]. by eapply same_request_trans. }
  unfold for_validated_endpoint in E0. destruct (new_inner _ _ _ _) as [r4|] eqn:En; [|done]. injection E0 as <-.
  split; [apply Hmade; by eapply made_new|]. unfold new_inner in En. apply bind_Ok in En as (? & _ & En).
  apply bind_Ok in En as (? & _ & En). destruct (_ <? _); [done|]. by injection En as <-.
Qed.
Lemma aws_sign_same signer r credentials time s : aws_sign signer r credentials time = Ok s →
  signed_url s = signing_url r ∧ signed_body s = signing_body r.
Proof.
  unfold aws_sign. intros ([date timestamp] & _ & E)%bind_Ok. apply bind_Ok in E as (_ & _ & E).
  apply bind_Ok in E as (hs & _ & E). apply bind_Ok in E as ([text names] & _ & E). cbn zeta in E.
  apply bind_Ok in E as (signature & _ & E). apply bind_Ok in E as (authorization & _ & E).
  by apply bind_Ok in E as (u & _ & [= <-]).
Qed.
(** With the signers of this file, what the transport sends under AWS
    authentication is a signed request as the theorem above describes it. *)
Lemma transport_sends_the_signed_request datetime_of signer credentials (r : @HttpRequest _ (cloud_signers datetime_of))
    endpoint now wire :
  sign_cloud_request (@AwsSigV4 _ (cloud_signers datetime_of) signer credentials) r endpoint now = Ok (Some wire) →
  ∃ request s, signing_request (method r) endpoint (signing_metadata r) (body r) = Some request ∧ made request ∧
    aws_sign signer request credentials (datetime_of now) = Ok s ∧ wire_headers s = Some (sent_headers wire) ∧
    signed_url s = sent_url wire ∧ signed_body s = sent_body wire.
Proof.
  unfold sign_cloud_request. cbn [aws_headers cloud_signers]. intros (headers & Eh%ok_or_Ok & [= <-])%bind_Ok.
  apply bind_Some in Eh as (request & Er & Eh). apply bind_Some in Eh as (s & Es & Eh).
  destruct (aws_sign signer request credentials (datetime_of now)) as [s'|] eqn:E; [|done]. injection Es as ->.
  destruct (signing_request_made _ _ _ _ _ Er) as (Hm & _ & Hu & Hb).
  destruct (aws_sign_same _ _ _ _ _ E) as [Hsu Hsb]. exists request, s. split_and!; try done; cbn; congruence.
Qed.
End facts.

(** ** Witnesses *)

Module SigningExample.
(** Two ways to write one URL, and digests of constant bytes. *)
#[local] Instance crate : UrlCrate := {|
  Url := bool;
  username _ := [];
  password _ := None;
  query u := Some (if u then lit "b=2&a=%31&b=1" else lit "a=1&b=1&b=2");
  fragment _ := None;
  path u := if u then lit "/model/~x/invoke" else lit "/model/%7Ex/invoke";
  scheme _ := lit "https";
  host _ := Some (Domain (lit "bedrock.example.com"));
  host_str _ := Some (lit "bedrock.example.com");
  port_or_known_default _ := Some 443;
  query_pairs _ := [];
  url_parse _ := Some true;
  url_join u _ := Some u;
|}.
#[local] Instance hosts : CookieHosts := {|
  url_as_str _ := lit "https://bedrock.example.com/model/~x/invoke?b=2&a=%31&b=1";
  host_parse s := Some (Domain s);
  ipv4_to_string _ := lit "127.0.0.1";
  ipv6_to_string _ := lit "::1";
|}.
#[local] Instance urls : CaptureUrls := {|
  url_port _ := None;
  without_query u := u;
  ipv4_parse _ := None;
  ipv6_parse _ := None;
|}.
#[local] Instance http : HttpCrate := {|
  header_name s :=
    let s := to_ascii_lowercase s in
    if negb (is_empty s) && forallb is_http_token_byte s then Some s else None;
  header_value s := Some s;
  header_to_str v := Some v;
  parse_http_date _ := None;
|}.
#[local] Instance digests : DigestCrate := {|
  sha256 m := replicate 32 (Z.of_nat (length m) mod 256);
  hmac_sha256 k m := Some (replicate 32 (Z.of_nat (length k + length m) mod 256));
|}.
#[local] Instance url_laws : SigningUrlLaws.
Proof.
  split; [intros u|intros u q [= <-]]; apply Forall_forall; intros c; apply in_list_bound; by destruct u; vm_compute.
Qed.
#[local] Instance name_laws : HeaderNameLaws.
Proof.
  split. intros s name. cbn. destruct (to_ascii_lowercase s) as [|c k]; [done|].
  destruct (forallb is_http_token_byte (c :: k)) eqn:E; [|done]. intros [= <-]. split; [done|]. by apply forallb_Forall_eq.
Qed.
#[local] Instance digest_laws : DigestCrateLaws.
Proof.
  assert (∀ n, Forall (λ b, 0 ≤ b < 256) (replicate 32 (n mod 256))) as Hr.
  { intros n. apply Forall_replicate, Z.mod_pos_bound. lia. }
  split; [done|intros m; apply Hr|by intros k m d [= <-]|intros k m d [= <-]; apply Hr].
Qed.
Definition signer : AwsSigV4Signer := mk_signer (lit "us-east-1") (lit "bedrock").
Definition credentials : AwsCredentials := mk_aws (lit "AKIDEXAMPLE") (lit "secret") None.
Definition time : OffsetDateTime := mk_datetime true 2026 7 9 12 0 5.
Definition written (u : Url) : SigningRequest :=
  mk_signing (lit "POST") u [mk_header (lit "accept") (lit "application/json")] [123; 125] 22.
Definition request : SigningRequest := written true.
Lemma written_made u : made (written u).
Proof.
  apply (made_header (lit "Accept") (lit "application/json") (mk_signing (lit "POST") u [] [123; 125] 0)); [|by destruct u; vm_compute].
  apply (made_new (lit "POST") u [123; 125] false). by destruct u; vm_compute.
Qed.
Lemma signs : is_ok (aws_sign signer request credentials time) = true.
Proof. vm_compute. reflexivity. Qed.
Definition canonical (u : Url) : Result SigningError (str * str) :=
  hs ← aws_signed_headers (written u) credentials (lit "20260709T120005Z"); aws_canonical_request (written u) hs.
Lemma canonicalizes : canonical true = canonical false ∧ is_ok (canonical true) = true.
Proof. split; vm_compute; reflexivity. Qed.
Lemma aws_signs_what_it_sends_witness :
  match aws_sign signer request credentials time with
  | Ok s => signed_body s = [123; 125] ∧ is_Some (wire_headers s)
  | Err _ => False
  end.
Proof.
  pose proof signs as Hs. destruct (aws_sign signer request credentials time) as [s|] eqn:E; [|discriminate Hs].
  destruct (aws_signs_what_it_sends signer request credentials time s (written_made true) E) as (_ & _ & Hb & Hw & _).
  split; [exact Hb|exact Hw].
Defined.
Lemma canonical_request_identifies_witness :
  path_symbols true = path_symbols false ∧
  ∃ ps ps', query_symbols true = Some ps ∧ query_symbols false = Some ps' ∧ ps ≡ₚ ps'.
Proof.
  destruct canonicalizes as [Hsame Hok]. destruct (canonical true) as [[text names]|] eqn:E1; [|discriminate Hok].
  symmetry in Hsame. unfold canonical in E1, Hsame.
  destruct (aws_signed_headers (written true) credentials (lit "20260709T120005Z")) as [hs|] eqn:Eh; [|discriminate E1].
  destruct (aws_signed_headers (written false) credentials (lit "20260709T120005Z")) as [hs'|] eqn:Eh'; [|discriminate Hsame].
  destruct (canonical_request_identifies (written true) (written false) credentials credentials _ _ hs hs' text names names
    (written_made true) (written_made false) Eh Eh' E1 Hsame) as (_ & Hp & Hq & _).
  split; [exact Hp|exact Hq].
Defined.
End SigningExample.
