(* ===== verification/Normalize.v ===== *)
(** * Normalization of provider answers  (crates/providers/src/normalize.rs)

    Counts as percentages and text, and the builder every provider module ends
    with.  [rust_decimal]'s arithmetic is a class: its checked operations answer
    [None] on overflow and on a zero divisor, which is when the operators of the
    same name panic. *)
From stdpp Require Import prelude.
From S2P Require Import Prelude Ordering Text Percentage Externals Scope Errors RateWindow Money Status Credits CostUsage Detail Snapshot Registry ProviderRefresh Floats.
Local Open Scope Z_scope.

(** ** Failures, and panics apart from them *)

Inductive Fault := Refused (e : ClassifiedError) | Panic.
Notation Checked A := (Result Fault A).
Definition checked {A} (r : Result ClassifiedError A) : Checked A := map_err Refused r.
Definition refuse {A} (kind : ErrorKind) : Checked A := Err (Refused (classified kind)).
(** An operator that panics where its checked form has no answer. *)
Definition or_panic {A} (o : option A) : Checked A := ok_or o Panic.
(** [.map_err(|_| ClassifiedError::new(ErrorKind::Parse))] *)
Definition or_parse {E A} (r : Result E A) : Result ClassifiedError A := map_err (λ _, classified Parse) r.
Definition some_or_parse {A} (o : option A) : Result ClassifiedError A := ok_or o (classified Parse).

Class DecimalArith `{DecimalCrate} := {
  decimal_of_Z : Z → Decimal;
  checked_decimal_add : Decimal → Decimal → option Decimal;
  checked_decimal_mul : Decimal → Decimal → option Decimal;
  checked_decimal_div : Decimal → Decimal → option Decimal;
  decimal_neg : Decimal → Decimal;
  decimal_fract : Decimal → Decimal;
  decimal_round_dp : Z → Decimal → Decimal;
  decimal_to_f64 : Decimal → option f64;
  decimal_from_scientific : str → option Decimal;
  decimal_fixed : nat → Decimal → str;
}.
(** What the crate documents: whole numbers within its 96 bits multiply exactly,
    a quotient by a whole number fits, and a decimal is never converted to NaN. *)
Class DecimalArithLaws `{DecimalArith} : Prop := {
  decimal_whole_mul a b : Z.abs (a * b) < 2 ^ 96 →
    checked_decimal_mul (decimal_of_Z a) (decimal_of_Z b) = Some (decimal_of_Z (a * b));
  decimal_whole_div d b : b ≠ 0 → is_Some (checked_decimal_div d (decimal_of_Z b));
  decimal_f64 d x : decimal_to_f64 d = Some x → is_nan x = false;
}.

(** [Ord::max]: the second when they compare equal. *)
Definition decimal_max `{DecimalCrate} (d e : Decimal) : Decimal := if cmp_lt e d then d else e.
Definition decimal_positive `{DecimalCrate} (d : Decimal) : bool := cmp_lt decimal_zero d.
(** A usage of a known percentage. *)
Definition known_percent (value : f64) : Result ClassifiedError WindowUsage :=
  Known <$> or_parse (UsagePercent.new value).

(** ** Time *)

(** [SystemTime::now] in whole seconds since the Unix epoch, if it is after it. *)
Definition timestamp_from_unix `{TimeCrate} (seconds : Z) : Result ClassifiedError Timestamp :=
  or_parse (Timestamp.from_unix_timestamp seconds).
Definition system_timestamp `{TimeCrate} (now : option Z) : Result ClassifiedError Timestamp :=
  seconds ← ok_or now (classified Api);
  if i64_max <? seconds then Err (classified Api) else timestamp_from_unix seconds.

(** ** Counts *)

Section counts.
Context `{DecimalArith}.

Definition count_percent (used limit : Z) : Checked UsagePercent :=
  value ← (if 0 <? limit then
             product ← or_panic (checked_decimal_mul (decimal_of_Z used) (decimal_of_Z 100));
             quotient ← or_panic (checked_decimal_div product (decimal_of_Z limit));
             value ← checked (some_or_parse (decimal_to_f64 quotient));
             Ok (f64_clamp value f64_zero f64_hundred)
           else Ok f64_zero);
  checked (or_parse (UsagePercent.new value)).
(** A lane without a length: a usage, a reset and a description. *)
Definition described_window (usage : WindowUsage) (duration : option WindowDuration) (resets_at : option Timestamp)
    (description : option str) : Result ClassifiedError RateWindow :=
  description ← or_parse (traverse_option BoundedText.new description);
  or_parse (RateWindow.new usage duration resets_at description None false).
Definition count_window (used limit : Z) (resets_at : option Timestamp) (description : option str) : Checked RateWindow :=
  description ← checked (or_parse (traverse_option BoundedText.new description));
  percent ← count_percent used limit;
  checked (or_parse (RateWindow.new (Known percent) None resets_at description None false)).
End counts.

(** A comma before every third digit from the end. *)
Fixpoint group_digits (digits : str) : str :=
  match digits with
  | [] => []
  | [digit] => [digit]
  | digit :: digits =>
      digit :: (if (length digits mod 3 =? 0)%nat then lit "," else []) ++ group_digits digits
  end.
Definition format_integer (value : Z) : str :=
  let value := show_i64 value in
  match value with
  | c :: digits => if c =? 45 then [c] ++ group_digits digits else group_digits value
  | [] => []
  end.

(** ** [UsageSampleBuilder] *)
Module UsageSampleBuilder.
Section builder.
Context `{DecimalCrate}.
Record t := mk {
  scope : AccountScope;
  fetched_at : Timestamp;
  primary : option RateWindow;
  secondary : option RateWindow;
  tertiary : option RateWindow;
  extra_windows : list NamedRateWindow;
  credits : option CreditsSnapshot;
  provider_account_id : option (BoundedText 256);
  email : option (BoundedText 256);
  organization : option (BoundedText 256);
  login_method : option (BoundedText 256);
  balance : option Money;
  cost : option CostSummary;
  cost_usage : option CostUsageSnapshot;
  subscription_renews_at : option Timestamp;
  subscription_expires_at : option Timestamp;
  detail_sections : list DetailSection;
  extensions : list ProviderExtension;
  provenance : list Provenance;
  confidence : DataConfidence;
}.

Definition new (scope : AccountScope) (fetched_at : Timestamp) : t :=
  mk scope fetched_at None None None [] None None None None None None None None None None [] [] [] Exact.
Definition with_primary (value : RateWindow) (self : t) : t :=
  mk (scope self) (fetched_at self) (Some value) (secondary self) (tertiary self) (extra_windows
    self) (credits self) (provider_account_id self) (email self) (organization self) (login_method
    self) (balance self) (cost self) (cost_usage self) (subscription_renews_at self)
    (subscription_expires_at self) (detail_sections self) (extensions self) (provenance self)
    (confidence self).
Definition with_secondary (value : RateWindow) (self : t) : t :=
  mk (scope self) (fetched_at self) (primary self) (Some value) (tertiary self) (extra_windows self)
    (credits self) (provider_account_id self) (email self) (organization self) (login_method self)
    (balance self) (cost self) (cost_usage self) (subscription_renews_at self)
    (subscription_expires_at self) (detail_sections self) (extensions self) (provenance self)
    (confidence self).
Definition with_tertiary (value : RateWindow) (self : t) : t :=
  mk (scope self) (fetched_at self) (primary self) (secondary self) (Some value) (extra_windows
    self) (credits self) (provider_account_id self) (email self) (organization self) (login_method
    self) (balance self) (cost self) (cost_usage self) (subscription_renews_at self)
    (subscription_expires_at self) (detail_sections self) (extensions self) (provenance self)
    (confidence self).
Definition with_credits (value : CreditsSnapshot) (self : t) : t :=
  mk (scope self) (fetched_at self) (primary self) (secondary self) (tertiary self) (extra_windows
    self) (Some value) (provider_account_id self) (email self) (organization self) (login_method
    self) (balance self) (cost self) (cost_usage self) (subscription_renews_at self)
    (subscription_expires_at self) (detail_sections self) (extensions self) (provenance self)
    (confidence self).
Definition with_balance (value : Money) (self : t) : t :=
  mk (scope self) (fetched_at self) (primary self) (secondary self) (tertiary self) (extra_windows
    self) (credits self) (provider_account_id self) (email self) (organization self) (login_method
    self) (Some value) (cost self) (cost_usage self) (subscription_renews_at self)
    (subscription_expires_at self) (detail_sections self) (extensions self) (provenance self)
    (confidence self).
Definition with_cost (value : CostSummary) (self : t) : t :=
  mk (scope self) (fetched_at self) (primary self) (secondary self) (tertiary self) (extra_windows
    self) (credits self) (provider_account_id self) (email self) (organization self) (login_method
    self) (balance self) (Some value) (cost_usage self) (subscription_renews_at self)
    (subscription_expires_at self) (detail_sections self) (extensions self) (provenance self)
    (confidence self).
Definition with_cost_usage (value : CostUsageSnapshot) (self : t) : t :=
  mk (scope self) (fetched_at self) (primary self) (secondary self) (tertiary self) (extra_windows
    self) (credits self) (provider_account_id self) (email self) (organization self) (login_method
    self) (balance self) (cost self) (Some value) (subscription_renews_at self)
    (subscription_expires_at self) (detail_sections self) (extensions self) (provenance self)
    (confidence self).
Definition with_extra_windows (value : list NamedRateWindow) (self : t) : t :=
  mk (scope self) (fetched_at self) (primary self) (secondary self) (tertiary self) value (credits
    self) (provider_account_id self) (email self) (organization self) (login_method self) (balance
    self) (cost self) (cost_usage self) (subscription_renews_at self) (subscription_expires_at self)
    (detail_sections self) (extensions self) (provenance self) (confidence self).
Definition with_detail_sections (value : list DetailSection) (self : t) : t :=
  mk (scope self) (fetched_at self) (primary self) (secondary self) (tertiary self) (extra_windows
    self) (credits self) (provider_account_id self) (email self) (organization self) (login_method
    self) (balance self) (cost self) (cost_usage self) (subscription_renews_at self)
    (subscription_expires_at self) value (extensions self) (provenance self) (confidence self).
Definition with_extensions (value : list ProviderExtension) (self : t) : t :=
  mk (scope self) (fetched_at self) (primary self) (secondary self) (tertiary self) (extra_windows
    self) (credits self) (provider_account_id self) (email self) (organization self) (login_method
    self) (balance self) (cost self) (cost_usage self) (subscription_renews_at self)
    (subscription_expires_at self) (detail_sections self) value (provenance self) (confidence self).
Definition with_confidence (value : DataConfidence) (self : t) : t :=
  mk (scope self) (fetched_at self) (primary self) (secondary self) (tertiary self) (extra_windows
    self) (credits self) (provider_account_id self) (email self) (organization self) (login_method
    self) (balance self) (cost self) (cost_usage self) (subscription_renews_at self)
    (subscription_expires_at self) (detail_sections self) (extensions self) (provenance self) value.
Definition with_subscription_renews_at (value : option Timestamp) (self : t) : t :=
  mk (scope self) (fetched_at self) (primary self) (secondary self) (tertiary self) (extra_windows
    self) (credits self) (provider_account_id self) (email self) (organization self) (login_method
    self) (balance self) (cost self) (cost_usage self) value (subscription_expires_at self)
    (detail_sections self) (extensions self) (provenance self) (confidence self).
Definition with_subscription_expires_at (value : option Timestamp) (self : t) : t :=
  mk (scope self) (fetched_at self) (primary self) (secondary self) (tertiary self) (extra_windows
    self) (credits self) (provider_account_id self) (email self) (organization self) (login_method
    self) (balance self) (cost self) (cost_usage self) (subscription_renews_at self) value
    (detail_sections self) (extensions self) (provenance self) (confidence self).
Definition with_provider_account_id (value : option str) (self : t) : Result ClassifiedError t :=
  value ← or_parse (traverse_option BoundedText.new value);
  Ok (mk (scope self) (fetched_at self) (primary self) (secondary self) (tertiary self) (extra_windows
    self) (credits self) value (email self) (organization self) (login_method self) (balance self)
    (cost self) (cost_usage self) (subscription_renews_at self) (subscription_expires_at self)
    (detail_sections self) (extensions self) (provenance self) (confidence self)).
Definition with_email (value : option str) (self : t) : Result ClassifiedError t :=
  value ← or_parse (traverse_option BoundedText.new value);
  Ok (mk (scope self) (fetched_at self) (primary self) (secondary self) (tertiary self) (extra_windows
    self) (credits self) (provider_account_id self) value (organization self) (login_method self)
    (balance self) (cost self) (cost_usage self) (subscription_renews_at self)
    (subscription_expires_at self) (detail_sections self) (extensions self) (provenance self)
    (confidence self)).
Definition with_organization (value : option str) (self : t) : Result ClassifiedError t :=
  value ← or_parse (traverse_option BoundedText.new value);
  Ok (mk (scope self) (fetched_at self) (primary self) (secondary self) (tertiary self) (extra_windows
    self) (credits self) (provider_account_id self) (email self) value (login_method self) (balance
    self) (cost self) (cost_usage self) (subscription_renews_at self) (subscription_expires_at self)
    (detail_sections self) (extensions self) (provenance self) (confidence self)).
Definition with_login_method (value : option str) (self : t) : Result ClassifiedError t :=
  value ← or_parse (traverse_option BoundedText.new value);
  Ok (mk (scope self) (fetched_at self) (primary self) (secondary self) (tertiary self) (extra_windows
    self) (credits self) (provider_account_id self) (email self) (organization self) value (balance
    self) (cost self) (cost_usage self) (subscription_renews_at self) (subscription_expires_at self)
    (detail_sections self) (extensions self) (provenance self) (confidence self)).
Definition with_provenance (source strategy : str) (self : t) : Result ClassifiedError t :=
  entry ← map_err (λ _, classified Api) (Provenance.new source strategy);
  Ok (mk (scope self) (fetched_at self) (primary self) (secondary self) (tertiary self) (extra_windows
    self) (credits self) (provider_account_id self) (email self) (organization self) (login_method
    self) (balance self) (cost self) (cost_usage self) (subscription_renews_at self)
    (subscription_expires_at self) (detail_sections self) (extensions self) (provenance self ++
    [entry]) (confidence self)).
Definition build (self : t) : Result ClassifiedError UsageSample :=
  let identity := IdentitySnapshot.new (scope self) (provider_account_id self) (email self) (organization self)
                    None None (login_method self) in
  status ← or_parse (ProviderStatus.new Operational None (Some (fetched_at self)) []);
  sample ← or_parse (UsageSample.new (scope self) identity (fetched_at self) (primary self) (secondary self)
             (tertiary self) (extra_windows self) (credits self) (balance self) (cost self)
             (subscription_renews_at self) (subscription_expires_at self) None (detail_sections self)
             (extensions self) [] (provenance self) (confidence self) status);
  Ok match cost_usage self with
     | Some cost_usage => UsageSample.with_cost_usage sample cost_usage
     | None => sample
     end.
End builder.
End UsageSampleBuilder.
