(* ===== verification/Json.v ===== *)
(** * JSON values as the provider modules read them

    [serde_json::Value] is [Config.Value]; these are its accessors, and what the
    modules ask of a number. *)
From stdpp Require Import prelude.
From S2P Require Import Prelude Ordering Text Percentage Externals Config Floats.
Local Open Scope Z_scope.

Class JsonNumbers `{JsonNumber} := {
  number_as_i64 : Number → option Z;
  number_as_f64 : Number → option f64;
  number_to_string : Number → str;
}.

Section json.
Context `{JsonNumbers}.
Definition as_str (v : Value) : option str := match v with String s => Some s | _ => None end.
Definition as_array (v : Value) : option (list Value) := match v with Array l => Some l | _ => None end.
Definition as_object (v : Value) : option (list (str * Value)) := match v with Object fields => Some fields | _ => None end.
Definition as_bool (v : Value) : option bool := match v with Bool b => Some b | _ => None end.
Definition as_f64 (v : Value) : option f64 := match v with Num n => number_as_f64 n | _ => None end.
Definition as_i64 (v : Value) : option Z := match v with Num n => number_as_i64 n | _ => None end.
(** [Value::get] of a key; [Map::get] is the same on the object. *)
Definition get (key : str) (v : Value) : option Value := get_field key v.
(** [Value::pointer] of a path without escapes and indices. *)
Definition pointer (path : list str) (v : Value) : option Value := foldl (λ v key, v ≫= get key) (Some v) path.
End json.
