(* ===== verification/Adapter.v ===== *)
(** * What every provider adapter has in common
      (crates/providers/src/context.rs, normalize.rs, fixed_api.rs, transport.rs)

    A fetch makes requests through its client and ends with a sample, a
    classified error or a panic; the world of the n-th request is an argument.
    [ApiAdapter] is the object behind [Box<dyn ProviderAdapter>], [Lawful] the
    contract the refresh sources rely on, and the rules below are how the
    adapters of the provider modules discharge it. *)
From stdpp Require Import gmap sorting prelude.
From S2P Require Import Prelude Ordering Text Percentage Externals Scope Errors RateWindow Money Status Credits CostUsage Detail Snapshot Scheduler Endpoint Transport Config Registry ProviderRefresh FixedApi FixedApiFacts Floats Normalize.
Local Open Scope Z_scope.

(** [Duration::from_millis] *)
Definition from_millis (millis : Z) : Duration := millis * 1000000.
(** [serde_json::from_slice] of a deserializable type. *)
Class JsonDecode (T : Type) := from_slice : list Z → option T.
(** URLs with an edited query or path, and as text. *)
Class UrlEdit `{UrlCrate} := {
  append_pair : Url → str → str → Url;
  set_query : Url → option str → Url;
  set_path : Url → str → Url;
  set_fragment : Url → option str → Url;
  url_as_str : Url → str;
}.

Section adapter.
Context `{UrlOrigin} `{HttpCrate} `{TimeCrate} `{!CloudSigning} `{ClientBuilder} `{DecimalCrate}.

Definition Fetch (A : Type) : Type := Sent Fault A.
#[global] Instance Fetch_ret : MRet Fetch := λ A a, ([], Ok a).
#[global] Instance Fetch_bind : MBind Fetch := λ A B k m,
  match m with
  | (wires, Ok a) => let '(more, r) := k a in (wires ++ more, r)
  | (wires, Err e) => (wires, Err e)
  end.
Definition lift {A} (r : Checked A) : Fetch A := ([], r).
Definition call {A} (s : Sent ClassifiedError A) : Fetch A := (s.1, checked s.2).
(** The result of a call, without [?]. *)
Definition try_call {A} (s : Sent ClassifiedError A) : Fetch (Result ClassifiedError A) := (s.1, Ok s.2).
(** [HttpResponse::json] *)
Definition json {T} `{JsonDecode T} (response : HttpResponse) : Result ClassifiedError T :=
  some_or_parse (from_slice (response_body response)).
(** [client.get_json(context, url).await?.json()?] *)
Definition get_decoded {T} `{JsonDecode T} (w : World) (client : FixedApiClient) (context : ProviderContext) (url : Url) :
    Fetch T :=
  response ← call (get_json w client context url);
  lift (checked (json response)).

(** [Box<dyn ProviderAdapter>] over an API client. *)
Record ApiAdapter := mk_api_adapter {
  adapter_provider : ProviderId;
  adapter_client : FixedApiClient;
  adapter_fetch_at : (nat → World) → ProviderContext → Timestamp → Fetch UsageSample;
}.
(** [fetch]: the system clock, then [fetch_at]. *)
Definition adapter_fetch (a : ApiAdapter) (now : option Z) (ws : nat → World) (context : ProviderContext) :
    Fetch UsageSample :=
  fetched_at ← lift (checked (system_timestamp now));
  adapter_fetch_at a ws context fetched_at.
(** [from_client]: the client must belong to the provider. *)
Definition client_of (id : ProviderId) (client : FixedApiClient) : Result ClassifiedError FixedApiClient :=
  if negb (bool_decide (AccountScope.provider (client_scope client) = id)) then Err (classified Api) else Ok client.

(** ** The contract *)

(** A sample of one account and one moment. *)
Definition sample_of (scope : AccountScope) (now : Timestamp) (s : UsageSample) : Prop :=
  UsageSample.scope s = scope ∧ IdentitySnapshot.scope (UsageSample.identity s) = scope ∧
  UsageSample.fetched_at s = now.
(** A client as production code makes it. *)
Definition sound_client (c : FixedApiClient) : Prop := constructed c ∧ configured c.
(** Whatever the worlds answer, only the client's own requests leave, no panic,
    and a sample is one of the client's account, made in its context. *)
Class Lawful (a : ApiAdapter) : Prop := {
  lawful_client : sound_client (adapter_client a);
  lawful_provider : AccountScope.provider (client_scope (adapter_client a)) = adapter_provider a;
  lawful_fetch ws context now :
    allowed (adapter_client a) context (adapter_fetch_at a ws context now).1 ∧
    (adapter_fetch_at a ws context now).2 ≠ Err Panic ∧
    ∀ s, (adapter_fetch_at a ws context now).2 = Ok s →
      matches_context (adapter_client a) context = true ∧ sample_of (context_scope context) now s;
}.

(** ** Rules *)

(** A computation without requests that does not panic. *)
Definition produces {A} (m : Checked A) (P : A → Prop) : Prop := m ≠ Err Panic ∧ ∀ a, m = Ok a → P a.
Lemma produces_Ok {A} (a : A) (P : A → Prop) : P a → produces (Ok a) P.
Proof. intros Ha. split; [done|]. by intros ? [= <-]. Qed.
Lemma produces_refuse {A} kind (P : A → Prop) : produces (refuse kind) P.
Proof. by split. Qed.
Lemma produces_checked {A} (r : Result ClassifiedError A) (P : A → Prop) :
  (∀ a, r = Ok a → P a) → produces (checked r) P.
Proof. intros Hr. destruct r as [a|e]; [by apply produces_Ok, Hr|by split]. Qed.
Lemma produces_bind {A B} (m : Checked A) (k : A → Checked B) (P : A → Prop) (Q : B → Prop) :
  produces m P → (∀ a, P a → produces (k a) Q) → produces (m ≫= k) Q.
Proof.
  intros [Hm Ha] Hk. destruct m as [a|e]; [by apply Hk, Ha|]. split; [|done]. intros [= ->]. done.
Qed.
Lemma produces_or_panic {A} (o : option A) (P : A → Prop) :
  (∃ a, o = Some a ∧ P a) → produces (or_panic o) P.
Proof. intros (a & -> & Ha). by apply produces_Ok. Qed.
Lemma produces_if {A} (b : bool) (m n : Checked A) (P : A → Prop) :
  (b = true → produces m P) → (b = false → produces n P) → produces (if b then m else n) P.
Proof. destruct b; auto. Qed.
Lemma produces_mono {A} (m : Checked A) (P Q : A → Prop) : (∀ a, P a → Q a) → produces m P → produces m Q.
Proof. intros HPQ [Hm Ha]. split; [done|]. intros a E. by apply HPQ, Ha. Qed.

Section rules.
Context (c : FixedApiClient) (context : ProviderContext) (Hc : sound_client c).

Definition good {A} (m : Fetch A) (P : A → Prop) : Prop := allowed c context m.1 ∧ produces m.2 P.
Lemma good_lift {A} (r : Checked A) (P : A → Prop) : produces r P → good (lift r) P.
Proof. intros Hr. split; [apply allowed_nil|exact Hr]. Qed.
Lemma good_ret {A} (a : A) (P : A → Prop) : P a → good (mret a) P.
Proof. intros Ha. split; [apply allowed_nil|by apply produces_Ok]. Qed.
Lemma allowed_app wires more : allowed c context wires → allowed c context more → allowed c context (wires ++ more).
Proof.
  intros [Hm Hw] [Hm' Hw']. split; [|by apply Forall_app].
  intros Hne. destruct wires; [by apply Hm'|by apply Hm].
Qed.
Lemma good_bind {A B} (m : Fetch A) (k : A → Fetch B) (P : A → Prop) (Q : B → Prop) :
  good m P → (∀ a, P a → good (k a) Q) → good (m ≫= k) Q.
Proof.
  destruct m as [wires [a|e]]; cbn; intros (Ha & Hn & Hp) Hk.
  - destruct (Hk a (Hp a eq_refl)) as [Ha' Hq]. destruct (k a) as [more r]. split; [|exact Hq]. by apply allowed_app.
  - split; [done|]. split; [|done]. intros [= ->]. done.
Qed.
Lemma good_mono {A} (m : Fetch A) (P Q : A → Prop) : (∀ a, P a → Q a) → good m P → good m Q.
Proof. intros HPQ [Ha Hp]. split; [done|]. by eapply produces_mono. Qed.
Lemma good_if {A} (b : bool) (m n : Fetch A) (P : A → Prop) :
  (b = true → good m P) → (b = false → good n P) → good (if b then m else n) P.
Proof. destruct b; auto. Qed.

(** A client's call: its requests are allowed, and it answers in its context only. *)
Ltac answers :=
  intros ?; unfold get, get_json, get_optional_json, client_send, send_with_status_map, authenticated;
  destruct (matches_context c context).
Lemma sent_when_answers {A} (r : Result ClassifiedError HttpRequest) (k : HttpRequest → Sent ClassifiedError A) a (P : Prop) :
  (∀ request, (k request).2 = Ok a → P) → (sent_when r k).2 = Ok a → P.
Proof. destruct r; cbn; [intros Hk; apply Hk|done]. Qed.
Lemma sound_requested w wires : requested w c context wires → allowed c context wires.
Proof. destruct Hc. apply requested_allowed; [by apply constructed_one_origin|done]. Qed.
Lemma good_call {A} w (s : Sent ClassifiedError A) : requested w c context s.1 →
  (∀ a, s.2 = Ok a → matches_context c context = true) → good (call s) (λ _, matches_context c context = true).
Proof. intros Hw Ha. split; [by eapply sound_requested|]. by apply produces_checked. Qed.
Lemma good_try_call {A} w (s : Sent ClassifiedError A) : requested w c context s.1 →
  (∀ a, s.2 = Ok a → matches_context c context = true) →
  good (try_call s) (λ r, is_ok r = true → matches_context c context = true).
Proof.
  intros Hw Ha. split; [by eapply sound_requested|]. apply produces_Ok. destruct s.2 as [a|]; [|done]. intros _. by eapply Ha.
Qed.
Lemma good_get w url : good (call (get w c context url)) (λ _, matches_context c context = true).
Proof. eapply good_call; [apply requested_get|]. by answers. Qed.
Lemma good_get_json w url : good (call (get_json w c context url)) (λ _, matches_context c context = true).
Proof. eapply good_call; [apply requested_get_json|]. by answers. Qed.
Lemma good_try_get_json w url :
  good (try_call (get_json w c context url)) (λ r, is_ok r = true → matches_context c context = true).
Proof. eapply good_try_call; [apply requested_get_json|]. by answers. Qed.
Lemma good_get_optional_json w url :
  good (call (get_optional_json w c context url)) (λ _, matches_context c context = true).
Proof. eapply good_call; [apply requested_optional|]. by answers. Qed.
Lemma good_get_decoded {T} `{JsonDecode T} w url :
  good (get_decoded w c context url) (λ _ : T, matches_context c context = true).
Proof.
  eapply good_bind; [apply good_get_json|]. intros response Hm. by apply good_lift, produces_checked.
Qed.
End rules.

(** ** Builders *)

Definition building (scope : AccountScope) (now : Timestamp) (b : UsageSampleBuilder.t) : Prop :=
  UsageSampleBuilder.scope b = scope ∧ UsageSampleBuilder.fetched_at b = now.
Lemma build_sample scope now b s : building scope now b → UsageSampleBuilder.build b = Ok s → sample_of scope now s.
Proof.
  intros [<- <-]. unfold UsageSampleBuilder.build. intros (status & _ & (sample & Hs%map_err_Ok & [= <-])%bind_Ok)%bind_Ok.
  assert (sample_of (UsageSampleBuilder.scope b) (UsageSampleBuilder.fetched_at b) sample) as Hof.
  { unfold UsageSample.new in Hs. result_inv. }
  by destruct (UsageSampleBuilder.cost_usage b).
Qed.
Lemma building_set {A} scope now (set : A → UsageSampleBuilder.t → Result ClassifiedError UsageSampleBuilder.t) v b b' :
  (∀ v b b', set v b = Ok b' → UsageSampleBuilder.scope b' = UsageSampleBuilder.scope b ∧
    UsageSampleBuilder.fetched_at b' = UsageSampleBuilder.fetched_at b) →
  building scope now b → set v b = Ok b' → building scope now b'.
Proof. intros Hset [<- <-] Hb. by apply Hset in Hb. Qed.
Lemma building_login scope now v b b' :
  building scope now b → UsageSampleBuilder.with_login_method v b = Ok b' → building scope now b'.
Proof. apply building_set. intros ???. unfold UsageSampleBuilder.with_login_method. intros Hb. result_inv. Qed.
Lemma building_email scope now v b b' :
  building scope now b → UsageSampleBuilder.with_email v b = Ok b' → building scope now b'.
Proof. apply building_set. intros ???. unfold UsageSampleBuilder.with_email. intros Hb. result_inv. Qed.
Lemma building_organization scope now v b b' :
  building scope now b → UsageSampleBuilder.with_organization v b = Ok b' → building scope now b'.
Proof. apply building_set. intros ???. unfold UsageSampleBuilder.with_organization. intros Hb. result_inv. Qed.
Lemma building_account scope now v b b' :
  building scope now b → UsageSampleBuilder.with_provider_account_id v b = Ok b' → building scope now b'.
Proof. apply building_set. intros ???. unfold UsageSampleBuilder.with_provider_account_id. intros Hb. result_inv. Qed.
Lemma building_provenance scope now source strategy b b' :
  building scope now b → UsageSampleBuilder.with_provenance source strategy b = Ok b' → building scope now b'.
Proof. intros [<- <-]. unfold UsageSampleBuilder.with_provenance. intros Hb. result_inv. Qed.

(** ** Constructors *)

Lemma client_of_Ok id c c' : client_of id c = Ok c' → c' = c ∧ AccountScope.provider (client_scope c) = id.
Proof. unfold client_of. destruct (bool_decide_reflect (AccountScope.provider (client_scope c) = id)); [|done]. by intros [= <-]. Qed.
Lemma build_config scope base p a credential config c :
  FixedApi.build scope base p a credential config = Ok c → client_config c = config.
Proof. by intros (_ & _ & _ & E & _)%build_Ok. Qed.
(** A valid configuration: [TransportConfig::new] succeeded. *)
Definition valid_config (config : TransportConfig) : Prop :=
  ∃ connect_timeout request_timeout max_response_bytes max_redirects policy,
    config_new connect_timeout request_timeout max_response_bytes max_redirects policy = Ok config ∧
    0 ≤ max_redirects ∧ max_retries policy ≤ u8_max.
Lemma new_bearer_sound scope base class credential config c :
  valid_config config → new_bearer scope base class credential config = Ok c → sound_client c.
Proof.
  intros Hv Hn. split; [by eapply constructed_bearer|].
  unfold new_bearer in Hn. apply bind_Ok in Hn as (p & _ & (a & _ & Hb)%bind_Ok).
  unfold configured. by rewrite (build_config _ _ _ _ _ _ _ Hb).
Qed.
Lemma client_new_sound scope base class header credential config c :
  valid_config config → client_new scope base class header credential config = Ok c → sound_client c.
Proof.
  intros Hv Hn. split; [by eapply constructed_header|].
  unfold client_new in Hn. apply bind_Ok in Hn as (p & _ & (h & _ & (a & _ & Hb)%bind_Ok)%bind_Ok).
  unfold configured. by rewrite (build_config _ _ _ _ _ _ _ Hb).
Qed.
Lemma new_scheme_sound scope base class scheme credential config c :
  valid_config config → new_authorization_scheme scope base class scheme credential config = Ok c → sound_client c.
Proof.
  intros Hv Hn. split; [by eapply constructed_scheme|].
  unfold new_authorization_scheme in Hn. apply bind_Ok in Hn as (p & _ & (a & _ & Hb)%bind_Ok).
  unfold configured. by rewrite (build_config _ _ _ _ _ _ _ Hb).
Qed.
Lemma with_source_sound c source c' : sound_client c → with_source c source = Ok c' → sound_client c'.
Proof.
  intros [Hc Hv] Hs. split; [by eapply constructed_source|].
  unfold with_source in Hs. destruct (negb _); [done|]. injection Hs as <-. exact Hv.
Qed.
End adapter.
