(* ===== verification/BalanceProviders.v ===== *)
(** * Providers that report a balance or what was spent
      (crates/providers/src/providers/deepseek.rs, moonshot.rs, deepinfra.rs,
      aiand.rs, fireworks.rs)

    One Module per provider: its settings, the requests of [fetch_at] and the
    normalization of its answers, whose decoding by [serde_json] is a class
    instance per answer type. *)
From stdpp Require Import gmap sorting prelude.
From S2P Require Import Prelude Ordering Text Percentage Externals Scope Errors RateWindow Money Status Credits CostUsage Detail Snapshot Scheduler Endpoint Transport Config Registry ProviderRefresh FixedApi FixedApiFacts Floats Normalize Adapter.
Local Open Scope Z_scope.

(** [TransportConfig::new(..).map_err(|error| error.classified())] *)
Definition provider_config `{UrlCrate} (connect_timeout request_timeout : Duration) (max_response_bytes max_redirects : Z)
    (policy : RetryPolicy) : Result ClassifiedError TransportConfig :=
  classify (config_new connect_timeout request_timeout max_response_bytes max_redirects policy).
(** The retry policy most providers use. *)
Definition usual_retry : RetryPolicy := retry_one (from_millis 250) (from_secs 30).
(** [Url::parse(API_ORIGIN).map_err(|_| ClassifiedError::new(ErrorKind::Api))] *)
Definition parse_origin `{UrlCrate} (origin : str) : Result ClassifiedError Url := ok_or (url_parse origin) (classified Api).
Definition usd : Result ClassifiedError CurrencyCode := map_err (λ _, classified Api) (CurrencyCode.new (lit "USD")).
(** ["… · …"] *)
Definition DOT_SEPARATOR : str := [32; 183; 32].
(** A fixed text as [Option<String>]. *)
Definition text (s : str) : option str := Some s.

(** ** deepseek.rs *)
Module DeepSeek.
Definition API_ORIGIN : str := lit "https://api.deepseek.com".
Definition KEY_NAMES : list str := [lit "DEEPSEEK_API_KEY"].
Definition MAX_RESPONSE_BYTES : Z := 1024 * 1024.
Record BalanceInfo := mk_info { currency : str; total_balance : str }.
Record BalanceEnvelope := mk_envelope { is_available : bool; balance_infos : list BalanceInfo }.

Section deepseek.
Context `{UrlOrigin} `{HttpCrate} `{TimeCrate} `{!CloudSigning} `{ClientBuilder} `{DecimalArith} `{!JsonDecode BalanceEnvelope}.
Definition transport_config : Result ClassifiedError TransportConfig :=
  provider_config (from_secs 5) (from_secs 20) MAX_RESPONSE_BYTES 3 usual_retry.
Definition resolve_credential (environment : gmap str str) : Result ClassifiedError ApiKeyCredential :=
  FixedApi.resolve environment KEY_NAMES.
Definition normalize (scope : AccountScope) (fetched_at : Timestamp) (payload : BalanceEnvelope) :
    Result ClassifiedError UsageSample :=
  selected ← some_or_parse (head (balance_infos payload));
  balance ← some_or_parse (decimal_from_str (total_balance selected));
  if decimal_is_sign_negative balance then Err (classified Parse) else
  currency ← or_parse (CurrencyCode.new (to_ascii_uppercase <$> currency selected));
  let status :=
    if is_available payload
    then CurrencyCode.as_str currency ++ lit " " ++ decimal_to_string (decimal_round_dp 2 balance) ++ lit " available"
    else lit "API balance unavailable" in
  usage ← known_percent (if is_available payload && decimal_positive balance then f64_zero else f64_hundred);
  primary ← described_window usage None None (text status);
  b ← UsageSampleBuilder.with_provenance (lit "deepseek") (lit "api")
        (UsageSampleBuilder.with_balance (mk_money (ExactDecimal.new balance) currency)
          (UsageSampleBuilder.with_primary primary (UsageSampleBuilder.new scope fetched_at)));
  UsageSampleBuilder.build b.
Definition fetch_at (client : FixedApiClient) (ws : nat → World) (context : ProviderContext) (fetched_at : Timestamp) :
    Fetch UsageSample :=
  url ← lift (checked (FixedApi.url client (lit "user/balance")));
  payload ← get_decoded (ws 0%nat) client context url;
  lift (checked (normalize (context_scope context) fetched_at payload)).
Definition from_client (client : FixedApiClient) : Result ClassifiedError ApiAdapter :=
  client ← client_of ProviderId.DeepSeek client;
  Ok (mk_api_adapter ProviderId.DeepSeek client (fetch_at client)).
Definition new (scope : AccountScope) (credential : ApiKeyCredential) : Result ClassifiedError ApiAdapter :=
  base ← parse_origin API_ORIGIN;
  config ← transport_config;
  client ← new_bearer scope base PublicHttps credential config;
  from_client client.
End deepseek.
End DeepSeek.

(** ** moonshot.rs *)
Module Moonshot.
Definition KEY_NAMES : list str := [lit "MOONSHOT_API_KEY"; lit "MOONSHOT_KEY"].
Definition REGION_KEY : str := lit "MOONSHOT_REGION".
Definition MAX_RESPONSE_BYTES : Z := 2 * 1024 * 1024.
Inductive MoonshotRegion := International | China.
#[global] Instance MoonshotRegion_eq_dec : EqDecision MoonshotRegion.
Proof. solve_decision. Defined.
Definition from_environment (environment : gmap str str) : MoonshotRegion :=
  match to_ascii_lowercase <$> (value ← environment !! REGION_KEY; clean_setting value) with
  | Some region => if bool_decide (region = lit "china") then China else International
  | None => International
  end.
Definition api_origin (region : MoonshotRegion) : str :=
  match region with
  | International => lit "https://api.moonshot.ai"
  | China => lit "https://api.moonshot.cn"
  end.
Record MoonshotSettings := mk_settings { region : MoonshotRegion; credential : ApiKeyCredential }.
Definition resolve_for_region (region : MoonshotRegion) (environment : gmap str str) :
    Result ClassifiedError MoonshotSettings :=
  if negb (bool_decide (from_environment environment = region)) then Err (classified MissingCredential) else
  credential ← FixedApi.resolve environment KEY_NAMES;
  Ok (mk_settings region credential).
Definition resolve (environment : gmap str str) : Result ClassifiedError MoonshotSettings :=
  resolve_for_region (from_environment environment) environment.
Record BalanceData := mk_data { available : f64; voucher : f64; cash : f64 }.
Record BalanceResponse := mk_response { code : Z; data : BalanceData; scode : str; status : bool }.

Definition format_usd (value : f64) : str :=
  lit "$" ++ format_fixed 2 (f64_div (f64_round (f64_mul value f64_hundred)) f64_hundred).
(** [&text[1..]] *)
Definition after_first_byte (text : str) : Checked str :=
  match text with
  | c :: text => if c <? 128 then Ok text else Err Panic
  | [] => Err Panic
  end.

Section moonshot.
Context `{UrlOrigin} `{HttpCrate} `{TimeCrate} `{!CloudSigning} `{ClientBuilder} `{DecimalArith} `{!JsonDecode BalanceResponse}.
Definition transport_config : Result ClassifiedError TransportConfig :=
  provider_config (from_secs 5) (from_secs 15) MAX_RESPONSE_BYTES 3 usual_retry.
Definition normalize (scope : AccountScope) (fetched_at : Timestamp) (response : BalanceResponse) : Checked UsageSample :=
  if negb (code response =? 0) || negb (status response) || negb (is_finite (available (data response)))
     || negb (is_finite (voucher (data response))) || negb (is_finite (cash (data response)))
  then refuse Api else
  let balance := format_usd (f64_abs (available (data response))) in
  balance ← (if f64_lt (available (data response)) f64_zero
             then digits ← after_first_byte balance; Ok (lit "-$" ++ digits) else Ok balance);
  let login_method :=
    lit "Balance: " ++ balance
    ++ (if f64_lt (cash (data response)) f64_zero
        then DOT_SEPARATOR ++ format_usd (f64_abs (cash (data response))) ++ lit " in deficit" else []) in
  b ← checked (UsageSampleBuilder.with_login_method (text login_method) (UsageSampleBuilder.new scope fetched_at));
  b ← checked (UsageSampleBuilder.with_provenance (lit "moonshot") (lit "api") b);
  checked (UsageSampleBuilder.build b).
Definition fetch_at (client : FixedApiClient) (ws : nat → World) (context : ProviderContext) (fetched_at : Timestamp) :
    Fetch UsageSample :=
  url ← lift (checked (FixedApi.url client (lit "v1/users/me/balance")));
  response ← get_decoded (ws 0%nat) client context url;
  lift (normalize (context_scope context) fetched_at response).
Definition from_client (client : FixedApiClient) : Result ClassifiedError ApiAdapter :=
  client ← client_of ProviderId.Moonshot client;
  Ok (mk_api_adapter ProviderId.Moonshot client (fetch_at client)).
Definition new (scope : AccountScope) (settings : MoonshotSettings) : Result ClassifiedError ApiAdapter :=
  base ← parse_origin (api_origin (region settings));
  config ← transport_config;
  client ← new_bearer scope base PublicHttps (credential settings) config;
  from_client client.
End moonshot.
End Moonshot.

(** ** deepinfra.rs *)
Module DeepInfra.
Definition API_ORIGIN : str := lit "https://api.deepinfra.com".
Definition KEY_NAMES : list str := [lit "DEEPINFRA_API_KEY"; lit "DEEPINFRA_TOKEN"].
Definition MAX_RESPONSE_BYTES : Z := 2 * 1024 * 1024.

Section answers.
Context `{DecimalArith}.
Record ChecklistResponse := mk_checklist {
  stripe_balance : Decimal;
  recent : Decimal;
  limit : option Decimal;
  suspended : bool;
  suspend_reason : option str;
}.
(** The [total_cost] of each month, in cents. *)
Record UsageMonth := mk_month { period : str; total_cost_cents : Decimal }.
Record UsageResponse := mk_usage { months : list UsageMonth; initial_month : option str }.
Definition format_usd (value : Decimal) : str := lit "$" ++ decimal_fixed 2 (decimal_round_dp 2 value).
End answers.

Section deepinfra.
Context `{UrlOrigin} `{!UrlEdit} `{HttpCrate} `{TimeCrate} `{!CloudSigning} `{ClientBuilder} `{DecimalArith}
  `{!JsonDecode ChecklistResponse} `{!JsonDecode UsageResponse}.
Definition transport_config : Result ClassifiedError TransportConfig :=
  provider_config (from_secs 5) (from_secs 30) MAX_RESPONSE_BYTES 3 usual_retry.
Definition resolve_credential (environment : gmap str str) : Result ClassifiedError ApiKeyCredential :=
  FixedApi.resolve environment KEY_NAMES.
Definition detail_text (checklist : ChecklistResponse) (balance_text spending_text : str) : str :=
  let rest := balance_text ++ DOT_SEPARATOR ++ spending_text in
  if suspended checklist then
    match suspend_reason checklist ≫= non_blank with
    | Some reason => lit "Suspended: " ++ reason ++ DOT_SEPARATOR ++ rest
    | None => lit "Suspended" ++ DOT_SEPARATOR ++ rest
    end
  else rest.
Definition normalize (scope : AccountScope) (fetched_at : Timestamp) (checklist : ChecklistResponse)
    (usage : UsageResponse) : Checked UsageSample :=
  let recent := decimal_max (recent checklist) decimal_zero in
  current_month ← match last (months usage) with
    | None => Ok recent
    | Some month => cost ← or_panic (checked_decimal_div (total_cost_cents month) (decimal_of_Z 100));
                    Ok (decimal_max cost decimal_zero)
    end;
  net_balance ← checked (some_or_parse (checked_decimal_add (stripe_balance checklist) recent));
  let available := decimal_max (decimal_neg net_balance) decimal_zero in
  let owed := decimal_max net_balance decimal_zero in
  let limit := l ← limit checklist; if decimal_positive l then Some l else None in
  let used_percent := if suspended checklist || decimal_positive owed || negb (decimal_positive available)
                      then f64_hundred else f64_zero in
  let balance_text := if decimal_positive owed then format_usd owed ++ lit " owed"
                      else format_usd available ++ lit " available" in
  let spending_text := format_usd current_month ++ lit " spent this month" in
  window_usage ← checked (known_percent used_percent);
  primary ← checked (described_window window_usage None None (text (detail_text checklist balance_text spending_text)));
  usd ← checked usd;
  let b := UsageSampleBuilder.with_balance (mk_money (ExactDecimal.new available) usd)
             (UsageSampleBuilder.with_primary primary (UsageSampleBuilder.new scope fetched_at)) in
  b ← match limit with
      | None => Ok b
      | Some limit =>
          cost ← checked (or_parse (CostSummary.new
            (cost_amount_of_money (mk_money (ExactDecimal.new recent) usd)) (ExactDecimal.new limit)
            (text (lit "Billing cycle")) None None None (Some (ExactDecimal.new available)) fetched_at None None VendorMetered));
          Ok (UsageSampleBuilder.with_cost cost b)
      end;
  b ← checked (UsageSampleBuilder.with_provenance (lit "deepinfra") (lit "api") b);
  checked (UsageSampleBuilder.build b).
Definition fetch_at (client : FixedApiClient) (ws : nat → World) (context : ProviderContext) (fetched_at : Timestamp) :
    Fetch UsageSample :=
  checklist_url ← lift (checked (FixedApi.url client (lit "payment/checklist")));
  checklist ← get_decoded (ws 0%nat) client context (append_pair checklist_url (lit "compute_owed") (lit "true"));
  usage_url ← lift (checked (FixedApi.url client (lit "payment/usage")));
  usage ← get_decoded (ws 1%nat) client context (append_pair usage_url (lit "from") (lit "current"));
  lift (normalize (context_scope context) fetched_at checklist usage).
Definition from_client (client : FixedApiClient) : Result ClassifiedError ApiAdapter :=
  client ← client_of ProviderId.DeepInfra client;
  Ok (mk_api_adapter ProviderId.DeepInfra client (fetch_at client)).
Definition new (scope : AccountScope) (credential : ApiKeyCredential) : Result ClassifiedError ApiAdapter :=
  base ← parse_origin API_ORIGIN;
  config ← transport_config;
  client ← new_bearer scope base PublicHttps credential config;
  from_client client.
End deepinfra.
End DeepInfra.

(** ** aiand.rs *)
Module AiAnd.
Definition API_ORIGIN : str := lit "https://api.aiand.com/".
Definition KEY_NAMES : list str := [lit "AIAND_API_KEY"].
Definition PAGE_LIMIT : Z := 100.
Definition MAX_PAGES : nat := 10.
Definition MAX_CURSOR_BYTES : Z := 1024.
Definition MAX_RESPONSE_BYTES : Z := 4 * 1024 * 1024.
Definition LOOKBACK_SECONDS : Z := 30 * 24 * 60 * 60.
Record LogRow := mk_row { cost : option str; currency : option str }.
Record LogsEnvelope := mk_logs {
  data : list LogRow;
  has_more : option bool;
  next_after : option str;
  next_after_id : option str;
}.
Definition hex_digit (n : Z) : Z := if n <? 10 then 48 + n else 55 + n.
Definition encode_byte (byte : Z) : str :=
  if is_ascii_alphanumeric byte || bool_decide (byte ∈ [45; 46; 58; 95; 126]) then [byte]
  else [37; hex_digit (Z.shiftr byte 4); hex_digit (Z.land byte 15)].
Definition encode_query_component (value : str) : str := as_bytes value ≫= encode_byte.
Definition validate_cursor (cursor : str) : Result ClassifiedError unit :=
  if is_empty cursor || (MAX_CURSOR_BYTES <? str_len cursor) || existsb is_control cursor
  then Err (classified Parse) else Ok tt.

Section summary.
Context `{DecimalArith}.
Record SpendSummary := mk_summary { summary_currency : option str; total : Decimal }.
Definition empty_summary : SpendSummary := mk_summary None decimal_zero.
(** One row: a row without a cost, a currency or a parsable cost is passed over,
    as is one of another currency than the first. *)
Definition add_row (self : SpendSummary) (row : LogRow) : Result ClassifiedError SpendSummary :=
  match cost row, currency row with
  | Some raw_cost, Some raw_currency =>
      match decimal_from_str raw_cost with
      | None => Ok self
      | Some cost =>
          let currency := to_ascii_lowercase (trim raw_currency) in
          if is_empty currency then Ok self else
          let selected := default currency (summary_currency self) in
          if negb (bool_decide (selected = currency)) then Ok self else
          total ← some_or_parse (checked_decimal_add (total self) cost);
          Ok (mk_summary (Some selected) total)
      end
  | _, _ => Ok self
  end.
Fixpoint add_rows (self : SpendSummary) (rows : list LogRow) : Result ClassifiedError SpendSummary :=
  match rows with
  | [] => Ok self
  | row :: rows => self ← add_row self row; add_rows self rows
  end.
End summary.

Section aiand.
Context `{UrlOrigin} `{!UrlEdit} `{HttpCrate} `{TimeCrate} `{!CloudSigning} `{ClientBuilder} `{DecimalArith}
  `{!JsonDecode LogsEnvelope}.
Definition transport_config : Result ClassifiedError TransportConfig :=
  provider_config (from_secs 5) (from_secs 15) MAX_RESPONSE_BYTES 3 retry_none.
Definition resolve_credential (environment : gmap str str) : Result ClassifiedError ApiKeyCredential :=
  FixedApi.resolve environment KEY_NAMES.
Definition logs_query (cursor : option (str * str)) : str :=
  lit "range=30days&limit=" ++ show_nat PAGE_LIMIT
  ++ match cursor with
     | Some (after, after_id) =>
         lit "&after=" ++ encode_query_component after ++ lit "&after_id=" ++ encode_query_component after_id
     | None => []
     end.
Definition logs_url (base_url : Url) (after after_id : option str) : Result ClassifiedError Url :=
  cursor ← match after, after_id with
    | Some after, Some after_id => Ok (Some (after, after_id))
    | None, None => Ok None
    | _, _ => Err (classified Api)
    end;
  url ← ok_or (url_join base_url (lit "logs")) (classified Api);
  Ok (set_query url (Some (logs_query cursor))).
Definition checked_i64 (value : Z) : option Z :=
  if (i64_min <=? value) && (value <=? i64_max) then Some value else None.
Definition normalize (scope : AccountScope) (fetched_at : Timestamp) (summary : SpendSummary) (is_complete : bool) :
    Result ClassifiedError UsageSample :=
  let b := UsageSampleBuilder.with_confidence (if is_complete then Exact else Estimated)
             (UsageSampleBuilder.new scope fetched_at) in
  b ← match summary_currency summary with
      | None => Ok b
      | Some currency =>
          currency ← or_parse (CurrencyCode.new currency);
          start ← some_or_parse (checked_i64 (Timestamp.unix_timestamp fetched_at - LOOKBACK_SECONDS));
          period_start ← timestamp_from_unix start;
          let period := if is_complete then lit "Last 30 days" else lit "Last 30 days (partial)" in
          cost ← or_parse (CostSummary.new
            (cost_amount_of_money (mk_money (ExactDecimal.new (total summary)) currency)) (ExactDecimal.new decimal_zero)
            (text period) None None None None fetched_at (Some period_start) (Some fetched_at) VendorMetered);
          Ok (UsageSampleBuilder.with_cost cost b)
      end;
  b ← UsageSampleBuilder.with_provenance (lit "aiand") (lit "api") b;
  UsageSampleBuilder.build b.
(** The pages still to ask for, the next one in the i-th world. *)
Fixpoint fetch_pages (client : FixedApiClient) (ws : nat → World) (context : ProviderContext) (remaining i : nat)
    (after after_id : option str) (summary : SpendSummary) : Fetch (SpendSummary * bool) :=
  match remaining with
  | O => mret (summary, false)
  | S remaining =>
      url ← lift (checked (logs_url (base_url client) after after_id));
      page ← get_decoded (ws i) client context url;
      summary ← lift (checked (add_rows summary (data page)));
      if negb (default false (has_more page)) then mret (summary, true) else
      match next_after page, next_after_id page with
      | Some next_after, Some next_after_id =>
          _ ← lift (checked (validate_cursor next_after));
          _ ← lift (checked (validate_cursor next_after_id));
          fetch_pages client ws context remaining (S i) (Some next_after) (Some next_after_id) summary
      | _, _ => mret (summary, false)
      end
  end.
Definition fetch_at (client : FixedApiClient) (ws : nat → World) (context : ProviderContext) (fetched_at : Timestamp) :
    Fetch UsageSample :=
  '(summary, is_complete) ← fetch_pages client ws context MAX_PAGES 0 None None empty_summary;
  lift (checked (normalize (context_scope context) fetched_at summary is_complete)).
Definition from_client (client : FixedApiClient) : Result ClassifiedError ApiAdapter :=
  client ← client_of ProviderId.AiAnd client;
  Ok (mk_api_adapter ProviderId.AiAnd client (fetch_at client)).
Definition new (scope : AccountScope) (credential : ApiKeyCredential) : Result ClassifiedError ApiAdapter :=
  base ← parse_origin API_ORIGIN;
  config ← transport_config;
  client ← new_bearer scope base PublicHttps credential config;
  from_client client.
End aiand.
End AiAnd.

(** ** fireworks.rs *)
Module Fireworks.
Definition API_ORIGIN : str := lit "https://api.fireworks.ai".
Definition API_KEY_NAMES : list str := [lit "FIREWORKS_API_KEY"; lit "FIREWORKS_KEY"].
Definition ACCOUNT_SLUG_NAMES : list str := [lit "FIREWORKS_ACCOUNT_SLUG"].
Definition MAX_RESPONSE_BYTES : Z := 4 * 1024 * 1024.
Definition MAX_ACCOUNT_SLUG_BYTES : Z := 160.
Definition MAX_PAGE_TOKEN_BYTES : Z := 2048.
Definition MAX_ACCOUNT_PAGES : nat := 100.
Definition LOOKBACK_SECONDS : Z := 30 * 24 * 60 * 60.
Record FireworksMoney := mk_fireworks_money { currency_code : option str; nanos : option Z; units : option str }.
Record LineItem := mk_item { total_cost : option FireworksMoney }.
Record BillingSummaryResponse := mk_billing { line_items : option (list LineItem) }.
Record FireworksAccount := mk_account { name : option str; account_id : option str; id : option str }.
Record AccountsResponse := mk_accounts { accounts : option (list FireworksAccount); next_page_token : option str }.
(** [rsplit('/').next()] *)
Definition after_last_slash (s : str) : str := default [] (last (Config.split_bytes 47 s)).
Definition slug (self : FireworksAccount) : option str :=
  after_last_slash <$> head (omap clean_setting (omap (λ v, v) [account_id self; id self; name self])).
Definition validate_account_slug (value : str) : Result ClassifiedError str :=
  if is_empty value || (MAX_ACCOUNT_SLUG_BYTES <? str_len value)
     || negb (forallb (λ byte, is_ascii_alphanumeric byte || bool_decide (byte ∈ [46; 95; 45])) (as_bytes value))
  then Err (classified Api) else
  map_err (λ _, classified Api) (BoundedText.as_str <$> BoundedText.new (MAX_BYTES := MAX_ACCOUNT_SLUG_BYTES) value).
Record FireworksCredential := mk_fireworks { key : ApiKeyCredential; account_slug : option str }.
Definition resolve (environment : gmap str str) : Result ClassifiedError FireworksCredential :=
  key ← FixedApi.resolve environment API_KEY_NAMES;
  slug ← traverse_option validate_account_slug
           (head (omap clean_setting (omap (λ name, environment !! name) ACCOUNT_SLUG_NAMES)));
  Ok (mk_fireworks key slug).
Definition credential_new (key : ApiKeyCredential) (account_slug : option str) : Result ClassifiedError FireworksCredential :=
  slug ← traverse_option validate_account_slug (account_slug ≫= clean_setting);
  Ok (mk_fireworks key slug).
Definition single_account (accounts : gset str) : Result ClassifiedError str :=
  if negb (bool_decide (size accounts = 1%nat)) then Err (classified Api)
  else ok_or (head (elements accounts)) (classified Api).

Section billing.
Context `{DecimalArith}.
Record BillingSummary := mk_billing_summary { spend : option ExactDecimal; currency : option CurrencyCode }.
(** One line item: the currency selected so far and the total. *)
Definition add_item (state : option str * Decimal) (item : LineItem) : Checked (option str * Decimal) :=
  let '(selected, total) := state in
  match total_cost item with
  | None => Ok state
  | Some cost =>
      match units cost, nanos cost, currency_code cost ≫= clean_setting with
      | Some units, Some nanos, Some currency =>
          units ← checked (some_or_parse (decimal_from_str (trim units)));
          let selected := default currency selected in
          if negb (bool_decide (selected = currency)) then Ok (Some selected, total) else
          nanos ← or_panic (checked_decimal_div (decimal_of_Z nanos) (decimal_of_Z 1000000000));
          total ← checked (some_or_parse (value ← checked_decimal_add total units; checked_decimal_add value nanos));
          Ok (Some selected, total)
      | _, _, _ => Ok state
      end
  end.
Fixpoint add_items (state : option str * Decimal) (items : list LineItem) : Checked (option str * Decimal) :=
  match items with
  | [] => Ok state
  | item :: items => state ← add_item state item; add_items state items
  end.
Definition parse_summary (response : BillingSummaryResponse) : Checked BillingSummary :=
  '(selected, total) ← add_items (None, decimal_zero) (default [] (line_items response));
  currency ← checked (or_parse (traverse_option CurrencyCode.new selected));
  Ok (mk_billing_summary ((λ _, ExactDecimal.new total) <$> currency) currency).
End billing.

Section fireworks.
Context `{UrlOrigin} `{!UrlEdit} `{HttpCrate} `{TimeCrate} `{!CloudSigning} `{ClientBuilder} `{DecimalArith}
  `{!JsonDecode BillingSummaryResponse} `{!JsonDecode AccountsResponse}.
Definition transport_config : Result ClassifiedError TransportConfig :=
  provider_config (from_secs 5) (from_secs 15) MAX_RESPONSE_BYTES 3 retry_none.
Definition period_start (fetched_at : Timestamp) : Result ClassifiedError Timestamp :=
  start ← some_or_parse (AiAnd.checked_i64 (Timestamp.unix_timestamp fetched_at - LOOKBACK_SECONDS));
  timestamp_from_unix start.
Definition fetch_summary (client : FixedApiClient) (w : World) (context : ProviderContext) (account_slug : str)
    (fetched_at : Timestamp) : Fetch (option BillingSummary) :=
  url ← lift (checked (start ← some_or_parse (AiAnd.checked_i64 (Timestamp.unix_timestamp fetched_at - LOOKBACK_SECONDS));
                       url ← FixedApi.url client (lit "v1/accounts/" ++ account_slug ++ lit "/billing/summary");
                       start ← timestamp_from_unix start;
                       Ok (append_pair (append_pair url (lit "startTime") (Timestamp.to_string start))
                             (lit "endTime") (Timestamp.to_string fetched_at))));
  response ← call (get_optional_json w client context url);
  match response with
  | None => mret None
  | Some response =>
      summary ← lift (response ← checked (json response); parse_summary response);
      mret (Some summary)
  end.
Definition insert_account (accounts : gset str) (account : FireworksAccount) : gset str :=
  match slug account ≫= (λ slug, result_ok (validate_account_slug slug)) with
  | Some slug => {[slug]} ∪ accounts
  | None => accounts
  end.
(** The pages still to ask for, the next one in the i-th world. *)
Fixpoint list_pages (client : FixedApiClient) (ws : nat → World) (context : ProviderContext) (remaining i : nat)
    (page_token : option str) (seen_tokens accounts : gset str) : Fetch (gset str) :=
  match remaining with
  | O => lift (refuse Parse)
  | S remaining =>
      url ← lift (checked (FixedApi.url client (lit "v1/accounts")));
      let url := match page_token with Some token => append_pair url (lit "pageToken") token | None => url end in
      page ← get_decoded (ws i) client context url;
      let accounts := foldl insert_account accounts (default [] (Fireworks.accounts page)) in
      match next_page_token page ≫= clean_setting with
      | None => mret accounts
      | Some token =>
          if (MAX_PAGE_TOKEN_BYTES <? str_len token) || bool_decide (token ∈ seen_tokens)
          then lift (refuse Parse)
          else if (remaining =? 0)%nat then lift (refuse Parse)
          else list_pages client ws context remaining (S i) (Some token) ({[token]} ∪ seen_tokens) accounts
      end
  end.
Definition list_accounts (client : FixedApiClient) (ws : nat → World) (context : ProviderContext) : Fetch (gset str) :=
  list_pages client ws context MAX_ACCOUNT_PAGES 0 None ∅ ∅.
Definition normalize (scope : AccountScope) (fetched_at : Timestamp) (summary : BillingSummary) (discovered : bool) :
    Result ClassifiedError UsageSample :=
  let b := UsageSampleBuilder.new scope fetched_at in
  b ← match spend summary, currency summary with
      | Some spend, Some currency =>
          period_start ← period_start fetched_at;
          cost ← or_parse (CostSummary.new (cost_amount_of_money (mk_money spend currency)) (ExactDecimal.new decimal_zero)
            (text (lit "Last 30 days")) None None None None fetched_at (Some period_start) (Some fetched_at) VendorMetered);
          Ok (UsageSampleBuilder.with_cost cost b)
      | _, _ => Ok b
      end;
  b ← UsageSampleBuilder.with_provenance (lit "fireworks") (if discovered then lit "api-auto-discovered" else lit "api") b;
  UsageSampleBuilder.build b.
(** The only account the key lists, with its summary in the world after the pages. *)
Definition discover (client : FixedApiClient) (ws : nat → World) (context : ProviderContext) (fetched_at : Timestamp) :
    Fetch (str * BillingSummary) :=
  accounts ← list_accounts client ws context;
  discovered ← lift (checked (single_account accounts));
  summary ← fetch_summary client (ws MAX_ACCOUNT_PAGES) context discovered fetched_at;
  summary ← lift (checked (ok_or summary (classified Api)));
  mret (discovered, summary).
Definition fetch_at (client : FixedApiClient) (account_slug : option str) (ws : nat → World) (context : ProviderContext)
    (fetched_at : Timestamp) : Fetch UsageSample :=
  '(summary, discovered) ← match account_slug with
    | Some configured =>
        found ← fetch_summary client (ws 0%nat) context configured fetched_at;
        match found with
        | Some summary =>
            if bool_decide (is_Some (spend summary)) then mret (summary, false) else
            accounts ← list_accounts client (ws ∘ S) context;
            if negb (bool_decide (configured ∈ accounts)) then lift (refuse Api) else mret (summary, false)
        | None =>
            '(discovered, summary) ← discover client (ws ∘ S) context fetched_at;
            mret (summary, negb (bool_decide (discovered = configured)))
        end
    | None =>
        '(_, summary) ← discover client ws context fetched_at;
        mret (summary, true)
    end;
  lift (checked (normalize (context_scope context) fetched_at summary discovered)).
Definition from_client (client : FixedApiClient) (account_slug : option str) : Result ClassifiedError ApiAdapter :=
  client ← client_of ProviderId.Fireworks client;
  account_slug ← traverse_option validate_account_slug account_slug;
  Ok (mk_api_adapter ProviderId.Fireworks client (fetch_at client account_slug)).
Definition new (scope : AccountScope) (credential : FireworksCredential) : Result ClassifiedError ApiAdapter :=
  base ← parse_origin API_ORIGIN;
  config ← transport_config;
  client ← new_bearer scope base PublicHttps (key credential) config;
  from_client client (account_slug credential).
End fireworks.
End Fireworks.
