(* ===== verification/QuotaProviders.v ===== *)
(** * Providers that report quotas or rates
      (crates/providers/src/providers/clinepass.rs, ollama.rs, elevenlabs.rs,
      zed.rs, zenmux.rs, groq.rs)

    One Module per provider, as in [BalanceProviders.v]. *)
From stdpp Require Import gmap sorting prelude.
From S2P Require Import Prelude Ordering Text Percentage Externals Scope Errors RateWindow Money Status Credits CostUsage Detail Snapshot Scheduler Endpoint Transport Config Registry ProviderRefresh FixedApi FixedApiFacts Floats Normalize Json Adapter BalanceProviders.
Local Open Scope Z_scope.

Definition provider_minutes (minutes : Z) : Result ClassifiedError WindowDuration :=
  or_parse (WindowDuration.from_provider_minutes minutes).
(** The setters for lanes that may be missing. *)
Definition with_lane `{DecimalCrate} (set : RateWindow → UsageSampleBuilder.t → UsageSampleBuilder.t)
    (lane : option RateWindow) (b : UsageSampleBuilder.t) : UsageSampleBuilder.t :=
  match lane with Some window => set window b | None => b end.

(** ** clinepass.rs *)
Module ClinePass.
Definition API_ORIGIN : str := lit "https://api.cline.bot".
Definition KEY_NAMES : list str := [lit "CLINE_API_KEY"; lit "CLINEPASS_API_KEY"].
Definition MAX_RESPONSE_BYTES : Z := 2 * 1024 * 1024.
Definition MAX_LIMITS : Z := 1024.

Section answers.
Context `{JsonNumbers}.
Record UsageLimitsData := mk_data { limits : list Value }.
Record UsageLimitsResponse := mk_response { success : bool; data : UsageLimitsData }.
Inductive Lane := FiveHour | Weekly | Monthly.
Definition lane_of (kind : str) : option (Z * Lane) :=
  if bool_decide (kind = lit "five_hour") then Some (5 * 60, FiveHour)
  else if bool_decide (kind = lit "weekly") then Some (7 * 24 * 60, Weekly)
  else if bool_decide (kind = lit "monthly") then Some (30 * 24 * 60, Monthly)
  else None.
Record Lanes := mk_lanes { five_hour : option RateWindow; weekly : option RateWindow; monthly : option RateWindow }.
Definition set_lane (lane : Lane) (window : RateWindow) (lanes : Lanes) : Lanes :=
  match lane with
  | FiveHour => mk_lanes (Some window) (weekly lanes) (monthly lanes)
  | Weekly => mk_lanes (five_hour lanes) (Some window) (monthly lanes)
  | Monthly => mk_lanes (five_hour lanes) (weekly lanes) (Some window)
  end.
Definition resets_at `{TimeCrate} (value : option Value) : Result ClassifiedError (option Timestamp) :=
  match value with
  | None | Some Null => Ok None
  | Some (String value) => Some <$> or_parse (Timestamp.parse value)
  | Some _ => Err (classified Parse)
  end.
(** One entry of the list; one of an unknown kind is passed over. *)
Definition add_limit `{TimeCrate} (lanes : Lanes) (raw : Value) : Result ClassifiedError Lanes :=
  _ ← some_or_parse (as_object raw);
  kind ← some_or_parse (get (lit "type") raw ≫= as_str);
  match lane_of kind with
  | None => Ok lanes
  | Some (minutes, lane) =>
      percent ← some_or_parse (value ← get (lit "percentUsed") raw ≫= as_f64; if is_finite value then Some value else None);
      resets_at ← resets_at (get (lit "resetsAt") raw);
      usage ← known_percent (f64_clamp percent f64_zero f64_hundred);
      duration ← provider_minutes minutes;
      window ← described_window usage (Some duration) resets_at None;
      Ok (set_lane lane window lanes)
  end.
Fixpoint add_limits `{TimeCrate} (lanes : Lanes) (limits : list Value) : Result ClassifiedError Lanes :=
  match limits with
  | [] => Ok lanes
  | raw :: limits => lanes ← add_limit lanes raw; add_limits lanes limits
  end.
End answers.

Section clinepass.
Context `{UrlOrigin} `{HttpCrate} `{TimeCrate} `{!CloudSigning} `{ClientBuilder} `{DecimalCrate} `{JsonNumbers}
  `{!JsonDecode UsageLimitsResponse}.
Definition transport_config : Result ClassifiedError TransportConfig :=
  provider_config (from_secs 5) (from_secs 15) MAX_RESPONSE_BYTES 3 usual_retry.
Definition resolve_credential (environment : gmap str str) : Result ClassifiedError ApiKeyCredential :=
  FixedApi.resolve environment KEY_NAMES.
Definition normalize (scope : AccountScope) (fetched_at : Timestamp) (payload : UsageLimitsResponse) :
    Result ClassifiedError UsageSample :=
  if negb (success payload) || (MAX_LIMITS <? count (limits (data payload))) then Err (classified Parse) else
  lanes ← add_limits (mk_lanes None None None) (limits (data payload));
  b ← UsageSampleBuilder.with_login_method (text (lit "API key"))
        (with_lane UsageSampleBuilder.with_tertiary (monthly lanes)
          (with_lane UsageSampleBuilder.with_secondary (weekly lanes)
            (with_lane UsageSampleBuilder.with_primary (five_hour lanes) (UsageSampleBuilder.new scope fetched_at))));
  b ← UsageSampleBuilder.with_provenance (lit "clinepass") (lit "api") b;
  UsageSampleBuilder.build b.
(** A denied key counts as an expired one. *)
Definition denied_is_expired (error : ClassifiedError) : ClassifiedError :=
  if bool_decide (ClassifiedError.kind error = PermissionDenied) then classified AuthenticationExpired else error.
Definition expiring {A} (s : Sent ClassifiedError A) : Sent ClassifiedError A := (s.1, map_err denied_is_expired s.2).
Definition fetch_at (client : FixedApiClient) (ws : nat → World) (context : ProviderContext) (fetched_at : Timestamp) :
    Fetch UsageSample :=
  url ← lift (checked (FixedApi.url client (lit "api/v1/users/me/plan/usage-limits")));
  response ← call (expiring (get_json (ws 0%nat) client context url));
  payload ← lift (checked (json response));
  lift (checked (normalize (context_scope context) fetched_at payload)).
Definition from_client (client : FixedApiClient) : Result ClassifiedError ApiAdapter :=
  client ← client_of ProviderId.ClinePass client;
  Ok (mk_api_adapter ProviderId.ClinePass client (fetch_at client)).
Definition new (scope : AccountScope) (credential : ApiKeyCredential) : Result ClassifiedError ApiAdapter :=
  base ← parse_origin API_ORIGIN;
  config ← transport_config;
  client ← new_bearer scope base PublicHttps credential config;
  from_client client.
End clinepass.
End ClinePass.

(** ** ollama.rs *)
Module Ollama.
Definition DEFAULT_ORIGIN : str := lit "https://ollama.com".
Definition API_KEY : str := lit "OLLAMA_API_KEY".
Definition API_URL : str := lit "OLLAMA_API_URL".
Definition MAX_RESPONSE_BYTES : Z := 4 * 1024 * 1024.
Definition MAX_MODELS : Z := 10000.

Section settings.
Context `{UrlSegments} `{!UrlEdit}.
Record OllamaSettings := mk_settings { credential : ApiKeyCredential; endpoint : ConfiguredEndpoint }.
Definition normalize_endpoint (raw : str) : Result ClassifiedError ConfiguredEndpoint :=
  let normalized := if contains (lit "://") raw then raw else lit "https://" ++ raw in
  url ← ok_or (url_parse normalized) (classified Api);
  if negb (bool_decide (path url = [47])) && negb (is_empty (path url)) then Err (classified Api)
  else configured_parse normalized LoopbackHttp.
Definition resolve (environment : gmap str str) : Result ClassifiedError OllamaSettings :=
  credential ← FixedApi.resolve environment [API_KEY];
  let endpoint := default DEFAULT_ORIGIN (value ← environment !! API_URL; clean_setting value) in
  endpoint ← normalize_endpoint endpoint;
  Ok (mk_settings credential endpoint).
Definition source (self : OllamaSettings) : ProviderSource :=
  if bool_decide (url_as_str (configured_url (endpoint self)) = lit "https://ollama.com/") then ApiKey else ConfigurableEndpoint.
End settings.

Section ollama.
Context `{UrlOrigin} `{!UrlSegments} `{!UrlEdit} `{HttpCrate} `{TimeCrate} `{!CloudSigning} `{ClientBuilder} `{DecimalCrate}
  `{JsonNumber}.
Record TagsEnvelope := mk_tags { models : list Value }.
Context `{!JsonDecode TagsEnvelope}.
Definition transport_config : Result ClassifiedError TransportConfig :=
  provider_config (from_secs 5) (from_secs 20) MAX_RESPONSE_BYTES 3 usual_retry.
Definition normalize (scope : AccountScope) (fetched_at : Timestamp) (payload : TagsEnvelope) :
    Result ClassifiedError UsageSample :=
  if MAX_MODELS <? count (models payload) then Err (classified Parse) else
  let description := lit "API key verified" ++ DOT_SEPARATOR ++ show_nat (count (models payload)) ++ lit " models" in
  primary ← described_window UnknownUsage None None (text description);
  b ← UsageSampleBuilder.with_provenance (lit "ollama") (lit "api")
        (UsageSampleBuilder.with_primary primary (UsageSampleBuilder.new scope fetched_at));
  UsageSampleBuilder.build b.
Definition fetch_at (client : FixedApiClient) (ws : nat → World) (context : ProviderContext) (fetched_at : Timestamp) :
    Fetch UsageSample :=
  url ← lift (checked (FixedApi.url client (lit "api/tags")));
  payload ← get_decoded (ws 0%nat) client context url;
  lift (checked (normalize (context_scope context) fetched_at payload)).
Definition from_client (client : FixedApiClient) : Result ClassifiedError ApiAdapter :=
  client ← client_of ProviderId.Ollama client;
  Ok (mk_api_adapter ProviderId.Ollama client (fetch_at client)).
Definition new (scope : AccountScope) (settings : OllamaSettings) : Result ClassifiedError ApiAdapter :=
  let source := source settings in
  config ← transport_config;
  client ← new_bearer scope (configured_url (endpoint settings)) (configured_class (endpoint settings))
             (credential settings) config;
  client ← with_source client source;
  from_client client.
End ollama.
End Ollama.

(** ** elevenlabs.rs *)
Module ElevenLabs.
Definition API_ORIGIN : str := lit "https://api.elevenlabs.io".
Definition MAX_RESPONSE_BYTES : Z := 1024 * 1024.
Record Overage := mk_overage { amount : option str; currency : option str }.
Record SubscriptionResponse := mk_subscription {
  tier : option str;
  character_count : Z;
  character_limit : Z;
  voice_slots_used : option Z;
  professional_voice_slots_used : option Z;
  voice_limit : option Z;
  professional_voice_limit : option Z;
  current_overage : option Overage;
  status : option str;
  next_character_count_reset_unix : option Z;
}.
Definition display_tier `{CharCase} (tier status : option str) : option str :=
  let tier := tier ≫= non_blank in
  let status := status ≫= non_blank in
  match tier with
  | None => status
  | Some tier =>
      let display := title_case (replace_char 95 (lit " ") tier) in
      Some match status with
           | Some status => if eq_ignore_ascii_case status (lit "active") then display else display ++ DOT_SEPARATOR ++ status
           | None => display
           end
  end.
Section windows.
Context `{DecimalArith}.
Definition voice_window (id title : str) (used limit : option Z) : Checked (list NamedRateWindow) :=
  match used, limit with
  | Some used, Some limit =>
      if limit <=? 0 then Ok [] else
      window ← count_window used limit None (text (show_i64 used ++ lit " / " ++ show_i64 limit));
      id ← checked (map_err (λ _, classified Api) (BoundedText.new id));
      title ← checked (map_err (λ _, classified Api) (BoundedText.new title));
      Ok [NamedRateWindow.mk id title window]
  | _, _ => Ok []
  end.
End windows.
Section subscription_url.
Context `{UrlEdit}.
Definition subscription_url (base_url : Url) : Url :=
  let base_path := trim_end_char 47 (path base_url) in
  let tail := match rsplit_once 47 base_path with Some (_, tail) => tail | None => base_path end in
  let suffix := if eq_ignore_ascii_case tail (lit "v1") then lit "user/subscription" else lit "v1/user/subscription" in
  let path := if is_empty base_path then lit "/" ++ suffix else base_path ++ lit "/" ++ suffix in
  set_fragment (set_query (set_path base_url path) None) None.
End subscription_url.

Section elevenlabs.
Context `{UrlOrigin} `{!UrlEdit} `{HttpCrate} `{TimeCrate} `{!CloudSigning} `{ClientBuilder} `{DecimalArith} `{CharCase}
  `{!JsonDecode SubscriptionResponse}.
Definition transport_config : Result ClassifiedError TransportConfig :=
  provider_config (from_secs 5) (from_secs 15) MAX_RESPONSE_BYTES 3 retry_none.
Definition parse_usage (bytes : list Z) (scope : AccountScope) (fetched_at : Timestamp) : Checked UsageSample :=
  response ← checked (some_or_parse (from_slice bytes));
  resets_at ← checked (traverse_option timestamp_from_unix (next_character_count_reset_unix response));
  let summary := format_integer (character_count response) ++ lit " / " ++ format_integer (character_limit response)
                 ++ lit " credits" in
  primary ← count_window (character_count response) (character_limit response) resets_at (text summary);
  voices ← voice_window (lit "voice-slots") (lit "Voice slots") (voice_slots_used response) (voice_limit response);
  professional ← voice_window (lit "professional-voices") (lit "Professional voices")
                   (professional_voice_slots_used response) (professional_voice_limit response);
  b ← checked (UsageSampleBuilder.with_login_method (display_tier (tier response) (status response))
        (UsageSampleBuilder.with_extra_windows (voices ++ professional)
          (UsageSampleBuilder.with_primary primary (UsageSampleBuilder.new scope fetched_at))));
  b ← checked (UsageSampleBuilder.with_provenance (lit "elevenlabs") (lit "api") b);
  checked (UsageSampleBuilder.build b).
Definition fetch_at (client : FixedApiClient) (ws : nat → World) (context : ProviderContext) (fetched_at : Timestamp) :
    Fetch UsageSample :=
  response ← call (FixedApi.get (ws 0%nat) client context (subscription_url (base_url client)));
  lift (parse_usage (response_body response) (context_scope context) fetched_at).
Definition from_client (client : FixedApiClient) : Result ClassifiedError ApiAdapter :=
  client ← client_of ProviderId.ElevenLabs client;
  Ok (mk_api_adapter ProviderId.ElevenLabs client (fetch_at client)).
Definition new (scope : AccountScope) (credential : ApiKeyCredential) : Result ClassifiedError ApiAdapter :=
  base ← parse_origin API_ORIGIN;
  config ← transport_config;
  client ← client_new scope base PublicHttps (lit "xi-api-key") credential config;
  from_client client.
End elevenlabs.
End ElevenLabs.

(** ** zed.rs *)
Module Zed.
Definition API_ORIGIN : str := lit "https://cloud.zed.dev".
Definition USER_ID_ENV : str := lit "ZED_USER_ID".
Definition ACCESS_TOKEN_ENV : str := lit "ZED_ACCESS_TOKEN".
Definition MAX_RESPONSE_BYTES : Z := 1024 * 1024.
(** [trim_matches] of the two quote characters. *)
Fixpoint trim_start_quotes (s : str) : str :=
  match s with
  | c :: r => if (c =? QUOTE) || (c =? APOSTROPHE) then trim_start_quotes r else s
  | [] => []
  end.
Definition trim_quotes (s : str) : str := reverse (trim_start_quotes (reverse (trim_start_quotes s))).
Record ZedSettings := mk_settings { user_id : str; access_token : ApiKeyCredential }.
Definition resolve (environment : gmap str str) : Result ClassifiedError ZedSettings :=
  user_id ← ok_or (value ← environment !! USER_ID_ENV;
                   let value := trim_quotes (trim value) in
                   if negb (is_empty value) && negb (existsb is_whitespace value) then Some value else None)
              (classified MissingCredential);
  access_token ← FixedApi.resolve environment [ACCESS_TOKEN_ENV];
  Ok (mk_settings user_id access_token).
Record User := mk_user { id : Z; github_login : str; name : option str }.
Record SubscriptionPeriod := mk_period { started_at : Timestamp; ended_at : Timestamp }.
Inductive UsageLimit := Limited (limit : Z) | LimitObject (limited : Z) | LimitText (text : str).
Record EditPredictions := mk_predictions { used : Z; limit : UsageLimit }.
Record Plan := mk_plan {
  kind : str;
  subscription_period : option SubscriptionPeriod;
  edit_predictions : EditPredictions;
  has_overdue_invoices : bool;
}.
Record AccountResponse := mk_account { user : User; plan : Plan }.
(** A blank text is none; the others are kept as they are. *)
Definition non_empty (value : str) : option str := if is_empty (trim value) then None else Some value.
Definition display_plan_name `{CharCase} (value : str) : str :=
  join (lit " ") (capitalized <$> filter (λ part, is_empty part = false) (Config.split_bytes 95 value)).

Section windows.
Context `{DecimalArith}.
Definition ratio_percent (numerator denominator : Z) : Checked f64 :=
  if denominator <=? 0 then refuse Parse else
  product ← or_panic (checked_decimal_mul (decimal_of_Z numerator) (decimal_of_Z 100));
  quotient ← or_panic (checked_decimal_div product (decimal_of_Z denominator));
  checked (some_or_parse (value ← decimal_to_f64 quotient; if is_finite value then Some value else None)).
Definition prediction_usage (usage : EditPredictions) : Checked (f64 * str) :=
  let limited (limit : Z) :=
    if 0 <? limit then
      let used := Z.max 0 (Z.min limit (used usage)) in
      percent ← ratio_percent used limit;
      Ok (percent, show_i64 used ++ lit " / " ++ show_i64 limit ++ lit " predictions")
    else refuse Parse in
  match limit usage with
  | Limited limit | LimitObject limit => limited limit
  | LimitText value =>
      if eq_ignore_ascii_case value (lit "unlimited") then Ok (f64_zero, lit "Unlimited") else refuse Parse
  end.
Definition prediction_window (usage : EditPredictions) : Checked RateWindow :=
  '(percent, description) ← prediction_usage usage;
  usage ← checked (known_percent percent);
  checked (described_window usage None None (text description)).
Definition saturating_sub_i64 (a b : Z) : Z := Z.max i64_min (Z.min i64_max (a - b)).
(** [end - start] cannot overflow: both ends are years of four digits. *)
Definition billing_window (fetched_at : Timestamp) (period : SubscriptionPeriod) : Checked RateWindow :=
  let start := Timestamp.unix_timestamp (started_at period) in
  let stop := Timestamp.unix_timestamp (ended_at period) in
  if stop <=? start then refuse Parse else
  let elapsed := saturating_sub_i64 (Timestamp.unix_timestamp fetched_at) start in
  ratio ← ratio_percent elapsed (stop - start);
  usage ← checked (known_percent (f64_clamp ratio f64_zero f64_hundred));
  checked (described_window usage None (Some (ended_at period)) None).
End windows.

Section zed.
Context `{UrlOrigin} `{HttpCrate} `{TimeCrate} `{!CloudSigning} `{ClientBuilder} `{DecimalArith} `{CharCase}
  `{!JsonDecode AccountResponse}.
Definition transport_config : Result ClassifiedError TransportConfig :=
  provider_config (from_secs 5) (from_secs 20) MAX_RESPONSE_BYTES 3 usual_retry.
Definition overdue_windows (has_overdue_invoices : bool) : Result ClassifiedError (list NamedRateWindow) :=
  if has_overdue_invoices then
    warning ← described_window UnknownUsage None None (text (lit "Overdue invoices"));
    id ← or_parse (BoundedText.new (lit "zed.overdue-invoices"));
    title ← or_parse (BoundedText.new (lit "Billing"));
    Ok [NamedRateWindow.mk id title warning]
  else Ok [].
Definition normalize (scope : AccountScope) (fetched_at : Timestamp) (payload : AccountResponse) : Checked UsageSample :=
  primary ← prediction_window (edit_predictions (plan payload));
  secondary ← traverse_option (billing_window fetched_at) (subscription_period (plan payload));
  extra_windows ← checked (overdue_windows (has_overdue_invoices (plan payload)));
  b ← checked (UsageSampleBuilder.with_provider_account_id (text (show_i64 (id (user payload))))
        (UsageSampleBuilder.with_extra_windows extra_windows
          (UsageSampleBuilder.with_primary primary (UsageSampleBuilder.new scope fetched_at))));
  b ← checked (UsageSampleBuilder.with_email (non_empty (github_login (user payload))) b);
  b ← checked (UsageSampleBuilder.with_organization (name (user payload) ≫= non_empty) b);
  b ← checked (UsageSampleBuilder.with_login_method (text (display_plan_name (kind (plan payload)))) b);
  let b := with_lane UsageSampleBuilder.with_secondary secondary
             (UsageSampleBuilder.with_subscription_renews_at (ended_at <$> subscription_period (plan payload)) b) in
  b ← checked (UsageSampleBuilder.with_provenance (lit "zed") (lit "cloud-api") b);
  checked (UsageSampleBuilder.build b).
Definition fetch_at (client : FixedApiClient) (ws : nat → World) (context : ProviderContext) (fetched_at : Timestamp) :
    Fetch UsageSample :=
  url ← lift (checked (FixedApi.url client (lit "client/users/me")));
  payload ← get_decoded (ws 0%nat) client context url;
  lift (normalize (context_scope context) fetched_at payload).
Definition from_client (client : FixedApiClient) : Result ClassifiedError ApiAdapter :=
  client ← client_of ProviderId.Zed client;
  Ok (mk_api_adapter ProviderId.Zed client (fetch_at client)).
Definition new (scope : AccountScope) (settings : ZedSettings) : Result ClassifiedError ApiAdapter :=
  base ← parse_origin API_ORIGIN;
  config ← transport_config;
  client ← new_authorization_scheme scope base PublicHttps (user_id settings) (access_token settings) config;
  from_client client.
End zed.
End Zed.

(** ** zenmux.rs *)
Module ZenMux.
Definition API_ORIGIN : str := lit "https://zenmux.ai/api/v1/management/".
Definition KEY_NAMES : list str := [lit "ZENMUX_MANAGEMENT_API_KEY"].
Definition MAX_RESPONSE_BYTES : Z := 2 * 1024 * 1024.

Section answers.
Context `{DecimalArith}.
Record Plan := mk_plan { tier : str; expires_at : option str }.
Record Quota := mk_quota {
  usage_percentage : Decimal;
  resets_at : option str;
  max_flows : Decimal;
  used_flows : Decimal;
  remaining_flows : Decimal;
}.
Record SubscriptionData := mk_subscription_data {
  plan : Plan;
  account_status : str;
  quota_5_hour : Quota;
  quota_7_day : Quota;
}.
Record SubscriptionEnvelope := mk_subscription { success : bool; data : SubscriptionData }.
Record BalanceData := mk_balance_data { currency : str; total_credits : Decimal }.
Record BalanceEnvelope := mk_balance { balance_success : bool; balance_data : BalanceData }.
Record ParsedQuota := mk_parsed_quota {
  usage_fraction : Decimal;
  parsed_resets_at : option Timestamp;
  parsed_max_flows : Decimal;
  parsed_used_flows : Decimal;
}.
Record ParsedSubscription := mk_parsed {
  plan_tier : str;
  parsed_expires_at : option Timestamp;
  parsed_status : str;
  five_hour : ParsedQuota;
  weekly : ParsedQuota;
}.
Definition parse_optional_date `{TimeCrate} (raw : option str) : option Timestamp :=
  value ← raw; result_ok (Timestamp.parse value).
Definition parsed_quota `{TimeCrate} (quota : Quota) : ParsedQuota :=
  mk_parsed_quota (usage_percentage quota) (parse_optional_date (resets_at quota)) (max_flows quota) (used_flows quota).
Definition parse `{TimeCrate} (response : SubscriptionEnvelope) : Result ClassifiedError ParsedSubscription :=
  if negb (success response) then Err (classified Parse) else
  Ok (mk_parsed (tier (plan (data response))) (parse_optional_date (expires_at (plan (data response))))
        (account_status (data response)) (parsed_quota (quota_5_hour (data response)))
        (parsed_quota (quota_7_day (data response)))).
Definition parse_balance (response : BalanceEnvelope) : option Decimal :=
  if balance_success response && eq_ignore_ascii_case (trim (currency (balance_data response))) (lit "usd")
  then Some (total_credits (balance_data response)) else None.
Definition format_flows (value : Decimal) : str :=
  decimal_fixed (if bool_decide (cmp (decimal_fract value) decimal_zero = Eq) then 0 else 2) value.
Definition quota_window (quota : ParsedQuota) (minutes : Z) : Result ClassifiedError RateWindow :=
  percent ← some_or_parse (value ← checked_decimal_mul (usage_fraction quota) (decimal_of_Z 100);
                           value ← decimal_to_f64 value; Some (f64_clamp value f64_zero f64_hundred));
  let description := format_flows (parsed_used_flows quota) ++ lit " / " ++ format_flows (parsed_max_flows quota)
                     ++ lit " flows" in
  usage ← known_percent percent;
  duration ← map_err (λ _, classified Api) (WindowDuration.from_provider_minutes minutes);
  described_window usage (Some duration) (parsed_resets_at quota) (text description).
Definition balance_cost (balance : Decimal) (fetched_at : Timestamp) : Result ClassifiedError CostSummary :=
  currency ← usd;
  or_parse (CostSummary.new (cost_amount_of_money (mk_money (ExactDecimal.new balance) currency))
    (ExactDecimal.new decimal_zero) (text (lit "ZenMux PAYG balance")) None None None None fetched_at None None
    VendorMetered).
Definition login_method `{CharCase} (subscription : ParsedSubscription) : option str :=
  let plan := (λ tier, title_case tier ++ lit " plan") <$> non_blank (plan_tier subscription) in
  let status := non_blank (parsed_status subscription) in
  if match status with None => true | Some status => eq_ignore_ascii_case status (lit "healthy") end
  then plan
  else Some (join DOT_SEPARATOR (omap (λ part, part) [plan; title_case <$> status])).
End answers.

Section zenmux.
Context `{UrlOrigin} `{HttpCrate} `{TimeCrate} `{!CloudSigning} `{ClientBuilder} `{DecimalArith} `{CharCase}
  `{!JsonDecode SubscriptionEnvelope} `{!JsonDecode BalanceEnvelope}.
Definition transport_config : Result ClassifiedError TransportConfig :=
  provider_config (from_secs 5) (from_secs 15) MAX_RESPONSE_BYTES 3 (retry_one (from_millis 250) (from_secs 15)).
Definition resolve_credential (environment : gmap str str) : Result ClassifiedError ApiKeyCredential :=
  FixedApi.resolve environment KEY_NAMES.
Definition normalize (scope : AccountScope) (fetched_at : Timestamp) (subscription : ParsedSubscription)
    (balance : option Decimal) : Result ClassifiedError UsageSample :=
  primary ← quota_window (five_hour subscription) 300;
  secondary ← quota_window (weekly subscription) 10080;
  let b := UsageSampleBuilder.with_subscription_expires_at (parsed_expires_at subscription)
             (UsageSampleBuilder.with_secondary secondary
               (UsageSampleBuilder.with_primary primary (UsageSampleBuilder.new scope fetched_at))) in
  b ← match balance with
      | Some balance => cost ← balance_cost balance fetched_at; Ok (UsageSampleBuilder.with_cost cost b)
      | None => Ok b
      end;
  b ← UsageSampleBuilder.with_login_method (login_method subscription) b;
  b ← UsageSampleBuilder.with_provenance (lit "zenmux") (lit "api") b;
  UsageSampleBuilder.build b.
Definition authenticated_get (client : FixedApiClient) (w : World) (context : ProviderContext) (url : Url) :
    Sent ClassifiedError HttpResponse :=
  ClinePass.expiring (get_json w client context url).
Definition fetch_at (client : FixedApiClient) (ws : nat → World) (context : ProviderContext) (fetched_at : Timestamp) :
    Fetch UsageSample :=
  subscription_url ← lift (checked (FixedApi.url client (lit "subscription/detail")));
  response ← call (authenticated_get client (ws 0%nat) context subscription_url);
  subscription ← lift (checked (json response));
  parsed ← lift (checked (parse subscription));
  balance_url ← lift (checked (FixedApi.url client (lit "payg/balance")));
  answer ← try_call (authenticated_get client (ws 1%nat) context balance_url);
  balance ← lift match answer with
    | Ok response => Ok (envelope ← result_ok (json response); parse_balance envelope)
    | Err error => if bool_decide (ClassifiedError.kind error = AuthenticationExpired) then Err (Refused error) else Ok None
    end;
  lift (checked (normalize (context_scope context) fetched_at parsed balance)).
Definition from_client (client : FixedApiClient) : Result ClassifiedError ApiAdapter :=
  client ← client_of ProviderId.ZenMux client;
  Ok (mk_api_adapter ProviderId.ZenMux client (fetch_at client)).
Definition new (scope : AccountScope) (credential : ApiKeyCredential) : Result ClassifiedError ApiAdapter :=
  base ← parse_origin API_ORIGIN;
  config ← transport_config;
  client ← new_bearer scope base PublicHttps credential config;
  from_client client.
End zenmux.
End ZenMux.

(** ** groq.rs *)
Module Groq.
Definition DEFAULT_API_BASE : str := lit "https://api.groq.com/v1".
Definition API_KEY : str := lit "GROQ_API_KEY".
Definition API_URL : str := lit "GROQ_API_URL".
Definition MAX_RESPONSE_BYTES : Z := 1024 * 1024.

Section settings.
Context `{UrlEdit}.
Record GroqSettings := mk_settings { credential : ApiKeyCredential; base : Url }.
Definition resolve (environment : gmap str str) : Result ClassifiedError GroqSettings :=
  credential ← FixedApi.resolve environment [API_KEY];
  let base_url := default DEFAULT_API_BASE (value ← environment !! API_URL; clean_setting value) in
  base_url ← ok_or (url_parse (if contains (lit "://") base_url then base_url else lit "https://" ++ base_url))
               (classified Api);
  _ ← map_err (λ _, classified Api) (classify_https_endpoint base_url);
  if negb (is_empty (username base_url)) || bool_decide (is_Some (password base_url))
     || bool_decide (is_Some (query base_url)) || bool_decide (is_Some (fragment base_url))
  then Err (classified Api) else
  Ok (mk_settings credential (set_query base_url None)).
End settings.

Section scalars.
Context `{JsonNumbers}.
Definition query_value (payload : Value) : option Value :=
  rows ← pointer [lit "data"; lit "result"] payload ≫= as_array;
  row ← head rows;
  values ← get (lit "value") row ≫= as_array;
  values !! 1%nat.
Definition parse_scalar (payload : Value) : Result ClassifiedError f64 :=
  if negb (bool_decide ((get (lit "status") payload ≫= as_str) = Some (lit "success"))) then Err (classified Api) else
  let scalar := match query_value payload with
    | None => Some f64_zero
    | Some (Num n) => number_as_f64 n
    | Some (String value) => f64_parse value
    | Some _ => None
    end in
  some_or_parse (value ← scalar; if is_finite value && f64_ge value f64_zero then Some value else None).
Definition format_rate (value : f64) (unit : str) : str :=
  format_fixed (if f64_ge value f64_hundred then 0 else if f64_ge value (f64_of_Z 10) then 1 else 2) value
  ++ lit " " ++ unit.
Definition metric_window (description : str) : Result ClassifiedError RateWindow :=
  usage ← known_percent f64_zero;
  duration ← provider_minutes 5;
  described_window usage (Some duration) None (text description).
End scalars.

Section groq.
Context `{UrlOrigin} `{!UrlEdit} `{HttpCrate} `{TimeCrate} `{!CloudSigning} `{ClientBuilder} `{DecimalCrate} `{JsonNumbers}
  `{!JsonDecode Value}.
Definition transport_config : Result ClassifiedError TransportConfig :=
  provider_config (from_secs 5) (from_secs 20) MAX_RESPONSE_BYTES 3 usual_retry.
Definition per_minute (value : f64) (unit : str) : Result ClassifiedError RateWindow :=
  metric_window (format_rate (f64_mul value (f64_of_Z 60)) unit).
Definition normalize (scope : AccountScope) (fetched_at : Timestamp)
    (requests_per_second tokens_per_second cache_per_second : f64) : Result ClassifiedError UsageSample :=
  primary ← per_minute requests_per_second (lit "req/min");
  secondary ← per_minute tokens_per_second (lit "tok/min");
  let b := UsageSampleBuilder.with_secondary secondary
             (UsageSampleBuilder.with_primary primary (UsageSampleBuilder.new scope fetched_at)) in
  b ← (if f64_gt cache_per_second f64_zero
       then tertiary ← per_minute cache_per_second (lit "cache/min"); Ok (UsageSampleBuilder.with_tertiary tertiary b)
       else Ok b);
  b ← UsageSampleBuilder.with_provenance (lit "groq") (lit "prometheus") b;
  UsageSampleBuilder.build b.
Definition metric_query (client : FixedApiClient) (w : World) (context : ProviderContext) (query : str) : Fetch f64 :=
  url ← lift (checked (FixedApi.url client (lit "metrics/prometheus/api/v1/query")));
  payload ← get_decoded w client context (append_pair url (lit "query") query);
  lift (checked (parse_scalar payload)).
Definition QUERIES : list str :=
  [lit "sum(model_project_id_status_code:requests:rate5m)"; lit "sum(model_project_id:tokens_in:rate5m)";
   lit "sum(model_project_id:tokens_out:rate5m)"; lit "sum(model_project_id:prompt_cache_hits:rate5m)"].
(** [tokio::try_join!]: every query may send its requests; all succeed, or the
    error of one that failed, which of them being the runtime's choice. *)
Definition failures {A} (tasks : list (Fetch A)) : list Fault :=
  omap (λ t : Fetch A, match t.2 with Err e => Some e | Ok _ => None end) tasks.
Definition try_join {A} (choice : nat) (tasks : list (Fetch A)) : Fetch (list A) :=
  (concat tasks.*1,
   match failures tasks with
   | [] => Ok (omap (λ t : Fetch A, result_ok t.2) tasks)
   | first :: others => Err (default first (others !! choice))
   end).
Definition fetch_at (choice : nat) (client : FixedApiClient) (ws : nat → World) (context : ProviderContext)
    (fetched_at : Timestamp) : Fetch UsageSample :=
  values ← try_join choice (imap (λ i query, metric_query client (ws i) context query) QUERIES);
  match values with
  | [requests; input; output; cache] =>
      lift (checked (normalize (context_scope context) fetched_at requests (f64_add input output) cache))
  | _ => lift (Err Panic)
  end.
Definition from_client (choice : nat) (client : FixedApiClient) : Result ClassifiedError ApiAdapter :=
  client ← client_of ProviderId.Groq client;
  Ok (mk_api_adapter ProviderId.Groq client (fetch_at choice client)).
Definition new (choice : nat) (scope : AccountScope) (settings : GroqSettings) : Result ClassifiedError ApiAdapter :=
  class ← map_err (λ _, classified Api) (classify_https_endpoint (base settings));
  config ← transport_config;
  client ← new_bearer scope (base settings) class (credential settings) config;
  from_client choice client.
End groq.
End Groq.
