(* ===== verification/Crof.v ===== *)
(** * Crof's daily quota and Chicago's midnight
      (crates/providers/src/providers/crof.rs)

    The quota resets at midnight in Chicago, which the module computes from the
    rules of daylight saving time.  Dates are numbers of days from 1970-01-01;
    the calendar is [time]'s, a class. *)
From stdpp Require Import gmap sorting prelude.
From S2P Require Import Prelude Ordering Text Percentage Externals Scope Errors RateWindow Money Status Credits CostUsage Detail Snapshot Scheduler Endpoint Transport Config Registry ProviderRefresh FixedApi FixedApiFacts Floats Normalize Json Adapter BalanceProviders QuotaProviders.
Local Open Scope Z_scope.

(** [time::Date]: its range, years and weekdays, counted from Sunday. *)
Class DateCrate := {
  date_min : Z;
  date_max : Z;
  calendar_date : Z → Z → Z → option Z;
  year_of_date : Z → Z;
  weekday_from_sunday : Z → Z;
}.
Class DateCrateLaws `{DateCrate} : Prop := {
  weekday_range d : 0 ≤ weekday_from_sunday d < 7;
  weekday_cycle d k : weekday_from_sunday (d + k) = (weekday_from_sunday d + k) mod 7;
}.

Definition DAY : Z := 86400 * NANOS_PER_SECOND.
Definition HOUR : Z := 3600 * NANOS_PER_SECOND.
Definition SUNDAY : Z := 0.
Definition MARCH : Z := 3.
Definition NOVEMBER : Z := 11.

Module Crof.
Definition API_ORIGIN : str := lit "https://crof.ai".
Definition KEY_NAMES : list str := [lit "CROF_API_KEY"; lit "CROFAI_API_KEY"].
Definition MAX_RESPONSE_BYTES : Z := 2 * 1024 * 1024.

Section calendar.
Context `{TimeCrate} `{DateCrate}.
(** [Date::checked_add] and [next_day]; [OffsetDateTime::checked_add] and [checked_sub]. *)
Definition add_days (date days : Z) : option Z :=
  let date := date + days in if (date_min <=? date) && (date <=? date_max) then Some date else None.
Definition shift (instant duration : Z) : option Z :=
  let instant := instant + duration in if (odt_min <=? instant) && (instant <=? odt_max) then Some instant else None.
Definition nth_weekday (year month weekday occurrence : Z) : Result ClassifiedError Z :=
  first ← some_or_parse (calendar_date year month 1);
  let leading := Z.rem (7 + weekday - weekday_from_sunday first) 7 in
  some_or_parse (add_days first (leading + 7 * (occurrence - 1))).
Definition chicago_dst_dates (year : Z) : Result ClassifiedError (Z * Z) :=
  start ← nth_weekday year MARCH SUNDAY 2;
  stop ← nth_weekday year NOVEMBER SUNDAY 1;
  Ok (start, stop).
Definition chicago_dst_transition_instants (year : Z) : Result ClassifiedError (Z * Z) :=
  '(start, stop) ← chicago_dst_dates year;
  start ← some_or_parse (shift (start * DAY + 2 * HOUR) (6 * HOUR));
  stop ← some_or_parse (shift (stop * DAY + 2 * HOUR) (5 * HOUR));
  Ok (start, stop).
Definition next_chicago_midnight (fetched_at : Timestamp) : Result ClassifiedError Timestamp :=
  let utc := Timestamp.nanos fetched_at in
  '(start, stop) ← chicago_dst_transition_instants (year_of_date (utc / DAY));
  let current_offset_hours := if (start <=? utc) && (utc <? stop) then -5 else -6 in
  local ← some_or_parse (shift utc (current_offset_hours * HOUR));
  next_date ← some_or_parse (add_days (local / DAY) 1);
  '(start_date, end_date) ← chicago_dst_dates (year_of_date next_date);
  let midnight_offset_hours := if (start_date <? next_date) && (next_date <=? end_date) then -5 else -6 in
  utc_midnight ← some_or_parse (shift (next_date * DAY) (- (midnight_offset_hours * HOUR)));
  or_parse (Timestamp.new utc_midnight).
End calendar.

Section answers.
Context `{JsonNumbers}.
Record CrofResponse := mk_response { credits : Value; requests_plan : option Value; usable_requests : option Value }.
Definition required_number (value : Value) : Result ClassifiedError f64 :=
  some_or_parse (number ← as_f64 value; if is_finite number then Some number else None).
Definition optional_number (value : option Value) : Result ClassifiedError (option f64) :=
  match value with
  | None | Some Null => Ok None
  | Some value => Some <$> required_number value
  end.
Definition credits_window (credits : f64) : Result ClassifiedError RateWindow :=
  let floored := f64_div (f64_floor (f64_mul credits f64_hundred)) f64_hundred in
  usage ← known_percent (if f64_gt credits f64_zero then f64_zero else f64_hundred);
  described_window usage None None (text (lit "$" ++ format_fixed 2 floored)).
Definition format_fixed_two (value : f64) : str :=
  format_fixed 2 (f64_div (f64_round (f64_mul value f64_hundred)) f64_hundred).
Definition request_text (displayed_requests : f64) : str :=
  if f64_eq (f64_fract displayed_requests) f64_zero then format_fixed 0 displayed_requests
  else format_fixed_two displayed_requests.
Definition requests_window `{TimeCrate, DateCrate} (fetched_at : Timestamp) (plan usable : f64) :
    Result ClassifiedError RateWindow :=
  let clamped_remaining := f64_clamp usable f64_zero (f64_max plan f64_zero) in
  let remaining_percent :=
    if f64_gt plan f64_zero
    then f64_clamp (f64_floor (f64_mul (f64_div clamped_remaining plan) f64_hundred)) f64_zero f64_hundred
    else f64_zero in
  usage ← known_percent (f64_sub f64_hundred remaining_percent);
  duration ← provider_minutes (24 * 60);
  midnight ← next_chicago_midnight fetched_at;
  described_window usage (Some duration) (Some midnight)
    (text (request_text (f64_max usable f64_zero) ++ lit " requests left")).
End answers.

Section crof.
Context `{UrlOrigin} `{HttpCrate} `{TimeCrate} `{DateCrate} `{!CloudSigning} `{ClientBuilder} `{DecimalCrate} `{JsonNumbers}
  `{!JsonDecode CrofResponse}.
Definition transport_config : Result ClassifiedError TransportConfig :=
  provider_config (from_secs 5) (from_secs 30) MAX_RESPONSE_BYTES 3 usual_retry.
Definition resolve_credential (environment : gmap str str) : Result ClassifiedError ApiKeyCredential :=
  FixedApi.resolve environment KEY_NAMES.
Definition normalize (scope : AccountScope) (fetched_at : Timestamp) (response : CrofResponse) :
    Result ClassifiedError UsageSample :=
  credits ← required_number (credits response);
  let credits := f64_max credits f64_zero in
  requests_plan ← optional_number (requests_plan response);
  usable_requests ← optional_number (usable_requests response);
  credits_window ← credits_window credits;
  '(primary, secondary) ← match requests_plan, usable_requests with
    | Some plan, Some usable => primary ← requests_window fetched_at plan usable; Ok (primary, Some credits_window)
    | _, _ => Ok (credits_window, None)
    end;
  b ← UsageSampleBuilder.with_login_method (text (lit "API key"))
        (with_lane UsageSampleBuilder.with_secondary secondary
          (UsageSampleBuilder.with_primary primary (UsageSampleBuilder.new scope fetched_at)));
  b ← UsageSampleBuilder.with_provenance (lit "crof") (lit "api") b;
  UsageSampleBuilder.build b.
Definition fetch_at (client : FixedApiClient) (ws : nat → World) (context : ProviderContext) (fetched_at : Timestamp) :
    Fetch UsageSample :=
  url ← lift (checked (FixedApi.url client (lit "usage_api/")));
  payload ← get_decoded (ws 0%nat) client context url;
  lift (checked (normalize (context_scope context) fetched_at payload)).
Definition from_client (client : FixedApiClient) : Result ClassifiedError ApiAdapter :=
  client ← client_of ProviderId.Crof client;
  Ok (mk_api_adapter ProviderId.Crof client (fetch_at client)).
Definition new (scope : AccountScope) (credential : ApiKeyCredential) : Result ClassifiedError ApiAdapter :=
  base ← parse_origin API_ORIGIN;
  config ← transport_config;
  client ← new_bearer scope base PublicHttps credential config;
  from_client client.
End crof.
End Crof.

(** ** Midnight *)

Section midnight.
Context `{TimeCrate} `{DateCrateLaws}.

(** The [n]-th Sunday of a month. *)
Definition nth_sunday (year month n date : Z) : Prop :=
  ∃ first, calendar_date year month 1 = Some first ∧ first + 7 * (n - 1) ≤ date < first + 7 * n ∧
    weekday_from_sunday date = SUNDAY.
(** Chicago's offset in hours at an instant: daylight saving time runs from two
    o'clock standard time on the second Sunday of March to two o'clock daylight
    time on the first Sunday of November. *)
Definition chicago_offset (instant offset : Z) : Prop :=
  ∃ start stop, nth_sunday (year_of_date (instant / DAY)) MARCH 2 start ∧
    nth_sunday (year_of_date (instant / DAY)) NOVEMBER 1 stop ∧
    ((offset = -5 ∧ start * DAY + 8 * HOUR ≤ instant < stop * DAY + 7 * HOUR) ∨
     (offset = -6 ∧ ¬ (start * DAY + 8 * HOUR ≤ instant < stop * DAY + 7 * HOUR))).
Definition chicago_midnight (instant : Z) : Prop :=
  ∃ offset, chicago_offset instant offset ∧ (instant + offset * HOUR) mod DAY = 0.

Lemma nth_sunday_unique year month n d e : nth_sunday year month n d → nth_sunday year month n e → d = e.
Proof.
  intros (a & Ha & Hd & Wd) (b & Hb & He & We). assert (b = a) as -> by congruence. unfold SUNDAY in *.
  pose proof (weekday_cycle d (e - d)) as Hc. replace (d + (e - d)) with e in Hc by lia. rewrite Wd, We in Hc.
  symmetry in Hc. rewrite Z.add_0_l in Hc. apply Z.mod_divide in Hc as [k Hk]; [|lia]. nia.
Qed.
Lemma nth_weekday_sunday year month n date : 1 ≤ n →
  Crof.nth_weekday year month SUNDAY n = Ok date → nth_sunday year month n date.
Proof.
  intros Hn. unfold Crof.nth_weekday, SUNDAY. intros (first & Hf%ok_or_Ok & Hd%ok_or_Ok)%bind_Ok.
  unfold Crof.add_days in Hd. destruct (_ && _); [|done]. injection Hd as <-.
  pose proof (weekday_range first) as Hw. rewrite Z.rem_mod_nonneg by lia.
  set (w := weekday_from_sunday first) in *. exists first. split; [done|].
  pose proof (Z.mod_pos_bound (7 + 0 - w) 7 ltac:(lia)). split; [lia|].
  rewrite weekday_cycle. fold w. unfold SUNDAY.
  replace (w + ((7 + 0 - w) mod 7 + 7 * (n - 1))) with ((w + (7 + 0 - w) mod 7) + (n - 1) * 7) by lia.
  rewrite Z.mod_add, Zplus_mod_idemp_r by lia. replace (w + (7 + 0 - w)) with 7 by lia. done.
Qed.
Lemma dst_dates_spec year start stop : Crof.chicago_dst_dates year = Ok (start, stop) →
  nth_sunday year MARCH 2 start ∧ nth_sunday year NOVEMBER 1 stop.
Proof.
  unfold Crof.chicago_dst_dates. intros (s & Hs & (e & He & [= <- <-])%bind_Ok)%bind_Ok.
  split; by apply nth_weekday_sunday.
Qed.
Lemma shift_Some a d b : Crof.shift a d = Some b → b = a + d.
Proof. unfold Crof.shift. destruct (_ && _); [|done]. by intros [= <-]. Qed.
Lemma transition_instants_spec year start stop : Crof.chicago_dst_transition_instants year = Ok (start, stop) →
  ∃ s e, nth_sunday year MARCH 2 s ∧ nth_sunday year NOVEMBER 1 e ∧
    start = s * DAY + 8 * HOUR ∧ stop = e * DAY + 7 * HOUR.
Proof.
  unfold Crof.chicago_dst_transition_instants. intros ([s e] & Hd & Hr)%bind_Ok.
  apply bind_Ok in Hr as (a & Ha%ok_or_Ok%shift_Some & (b & Hb%ok_or_Ok%shift_Some & [= <- <-])%bind_Ok).
  apply dst_dates_spec in Hd as [Hs He]. exists s, e. split_and!; [done..|lia|lia].
Qed.
Lemma timestamp_new_Ok v t : Timestamp.new v = Ok t → Timestamp.nanos t = v.
Proof. unfold Timestamp.new. destruct (rfc3339_format v); [|done]. by intros [= <-]. Qed.

Lemma day_of n h : 0 ≤ h < DAY → (n * DAY + h) / DAY = n.
Proof. intros Hh. rewrite Z.div_add_l by (unfold DAY, NANOS_PER_SECOND; lia). rewrite Z.div_small by done. lia. Qed.
Lemma chicago_offset_range u o : chicago_offset u o → o = -5 ∨ o = -6.
Proof. intros (? & ? & _ & _ & [[-> _]|[-> _]]); auto. Qed.

(** What the offset is at the instant of a local midnight of [n]. *)
Lemma offset_at_midnight n start stop : nth_sunday (year_of_date n) MARCH 2 start →
  nth_sunday (year_of_date n) NOVEMBER 1 stop →
  let o := if (start <? n) && (n <=? stop) then -5 else -6 in
  chicago_offset (n * DAY - o * HOUR) o.
Proof.
  intros Hs He o. assert (DAY = 24 * HOUR ∧ 0 < HOUR) as [HD HH] by done.
  assert ((n * DAY - o * HOUR) / DAY = n) as Hn.
  { subst o. destruct (_ && _); [replace (n * DAY - -5 * HOUR) with (n * DAY + 5 * HOUR) by lia
    |replace (n * DAY - -6 * HOUR) with (n * DAY + 6 * HOUR) by lia]; apply day_of; lia. }
  exists start, stop. rewrite Hn. do 2 (split; [done|]). subst o.
  destruct (Z.ltb_spec start n), (Z.leb_spec n stop); cbn; [left|right..]; (split; [done|]); nia.
Qed.

Lemma offset_unique u v o p (s : Prop) : chicago_offset u o → chicago_offset v p → u / DAY = v / DAY →
  (∀ start stop, ((o = -5 ∧ start * DAY + 8 * HOUR ≤ u < stop * DAY + 7 * HOUR) ∨
     (o = -6 ∧ ¬ (start * DAY + 8 * HOUR ≤ u < stop * DAY + 7 * HOUR))) →
   ((p = -5 ∧ start * DAY + 8 * HOUR ≤ v < stop * DAY + 7 * HOUR) ∨
     (p = -6 ∧ ¬ (start * DAY + 8 * HOUR ≤ v < stop * DAY + 7 * HOUR))) → s) → s.
Proof.
  intros (a & b & Ha & Hb & Hu) (a' & b' & Ha' & Hb' & Hv) E Hs. rewrite <-E in *.
  rewrite (nth_sunday_unique _ _ _ _ _ Ha' Ha), (nth_sunday_unique _ _ _ _ _ Hb' Hb) in Hv. by apply (Hs a b).
Qed.
Ltac hours :=
  change DAY with (24 * HOUR) in *; change HOUR with 3600000000000 in *.
Lemma day_bounds u : u / DAY * DAY ≤ u < u / DAY * DAY + DAY.
Proof. pose proof (Z.div_mod u DAY ltac:(done)). pose proof (Z.mod_pos_bound u DAY ltac:(done)). lia. Qed.
Lemma same_day u v n : n * DAY ≤ u < n * DAY + DAY → n * DAY ≤ v < n * DAY + DAY → u / DAY = v / DAY.
Proof. intros Hu Hv. pose proof (day_bounds u). pose proof (day_bounds v). hours. lia. Qed.

(** The midnight of the day after the local one comes next, within 25 hours. *)
Lemma midnight_after u o n p : chicago_offset u o → n = (u + o * HOUR) / DAY + 1 →
  chicago_offset (n * DAY - p * HOUR) p → u < n * DAY - p * HOUR ≤ u + 25 * HOUR.
Proof.
  intros Hu -> Hm. pose proof (day_bounds (u + o * HOUR)) as Hd. set (d := (u + o * HOUR) / DAY) in *.
  pose proof (chicago_offset_range _ _ Hu) as [->| ->]; pose proof (chicago_offset_range _ _ Hm) as [->| ->];
    [hours; lia..| |hours; lia].
  destruct (Z.lt_ge_cases u ((d + 1) * DAY - -5 * HOUR)) as [Hlt|Hge]; [hours; lia|exfalso].
  eapply (offset_unique _ _ _ _ _ Hu Hm); [apply (same_day _ _ (d + 1)); hours; lia|]. intros start stop. hours. lia.
Qed.
Lemma no_midnight_between u o n p v q : chicago_offset u o → n = (u + o * HOUR) / DAY + 1 →
  chicago_offset (n * DAY - p * HOUR) p → chicago_offset v q → (v + q * HOUR) mod DAY = 0 →
  u < v → v < n * DAY - p * HOUR → False.
Proof.
  intros Hu -> Hm Hv Hz Huv Hvm. pose proof (day_bounds (u + o * HOUR)) as Hd. set (d := (u + o * HOUR) / DAY) in *.
  apply Z.mod_divide in Hz as [k Hk]; [|done].
  pose proof (chicago_offset_range _ _ Hu) as Ho. pose proof (chicago_offset_range _ _ Hm) as Hp.
  pose proof (chicago_offset_range _ _ Hv) as Hq.
  destruct (Z.le_gt_cases k d) as [Hkd|Hkd].
  - assert (o = -5 ∧ q = -6 ∧ k = d) as (-> & -> & ->) by (hours; lia).
    eapply (offset_unique _ _ _ _ _ Hu Hv); [apply (same_day _ _ d); hours; lia|]. intros start stop. hours. lia.
  - assert (p = -6 ∧ q = -5 ∧ k = d + 1) as (-> & -> & ->) by (hours; lia).
    eapply (offset_unique _ _ _ _ _ Hm Hv); [apply (same_day _ _ (d + 1)); hours; lia|]. intros start stop. hours. lia.
Qed.

(** The reset time of Crof's daily quota is the next midnight in Chicago: it
    lies after the sample and at most 25 hours away, local time there is
    midnight by the rules of daylight saving time, and no midnight comes
    between. *)
Theorem reset_at_next_midnight fetched_at midnight :
  Crof.next_chicago_midnight fetched_at = Ok midnight →
  Timestamp.nanos fetched_at < Timestamp.nanos midnight ≤ Timestamp.nanos fetched_at + 25 * HOUR ∧
  chicago_midnight (Timestamp.nanos midnight) ∧
  ∀ u, Timestamp.nanos fetched_at < u < Timestamp.nanos midnight → ¬ chicago_midnight u.
Proof.
  unfold Crof.next_chicago_midnight. set (utc := Timestamp.nanos fetched_at).
  intros ([start stop] & (s & e & Hs & He & -> & ->)%transition_instants_spec & Hn)%bind_Ok.
  apply bind_Ok in Hn as (local & Hl%ok_or_Ok%shift_Some & (next & Hnext%ok_or_Ok & ([a b] & Hd & Hn)%bind_Ok)%bind_Ok).
  apply bind_Ok in Hn as (m & Hm%ok_or_Ok%shift_Some & Ht%map_err_Ok%timestamp_new_Ok).
  set (o := if _ && _ then -5 else -6) in Hl. set (p := if _ && _ then -5 else -6) in Hm.
  unfold Crof.add_days in Hnext. destruct (_ && _) in Hnext; [|done]. injection Hnext as <-.
  set (n := local / DAY + 1) in *.
  assert (chicago_offset utc o) as Ho.
  { exists s, e. do 2 (split; [done|]). subst o. destruct (Z.leb_spec (s * DAY + 8 * HOUR) utc), (Z.ltb_spec utc (e * DAY + 7 * HOUR));
      cbn; [left|right..]; (split; [done|]); lia. }
  apply dst_dates_spec in Hd as [Ha Hb].
  assert (chicago_offset (n * DAY - p * HOUR) p) as Hp by by apply offset_at_midnight.
  rewrite Ht, Hm, Z.add_opp_r. subst n local. split; [by eapply midnight_after|]. split.
  - exists p. split; [done|]. rewrite Z.sub_add. by rewrite Z_mod_mult.
  - intros u [Hu Hum] (q & Hq & Hz). exact (no_midnight_between utc o _ p u q Ho eq_refl Hp Hq Hz Hu Hum).
Qed.
End midnight.
