(* ===== verification/ProvidersFacts.v ===== *)
(** * The provider adapters keep their contract

    Counts and their text, and with the rules of [Adapter.v] that every modelled
    provider is [Lawful]: its requests go nowhere but to its own origin under its
    own key, its sample is of the account it was asked for, and no arithmetic
    panics. *)
From stdpp Require Import gmap sorting prelude.
From S2P Require Import Prelude Ordering Text Percentage Externals Scope Errors RateWindow Money Status Credits CostUsage Detail Snapshot Scheduler Endpoint Transport Config Registry ProviderRefresh FixedApi FixedApiFacts Floats Normalize Json Adapter BalanceProviders QuotaProviders Crof.
Local Open Scope Z_scope.

(** ** Panics *)

Lemma checked_panic {A} (r : Result ClassifiedError A) : checked r = Err Panic → False.
Proof. by destruct r. Qed.
(** Walks through a run that is said to panic; what remains is the operators. *)
Ltac panics H :=
  repeat lazymatch type of H with
  | (_ ≫= _) = Err Panic => let E := fresh "E" in apply bind_Err in H as [H|(? & E & H)]
  | checked _ = Err Panic => destruct (checked_panic _ H)
  | refuse _ = Err Panic => discriminate H
  | Ok _ = Err Panic => discriminate H
  | (if ?b then _ else _) = Err Panic => destruct b eqn:?
  | match ?x with _ => _ end = Err Panic => destruct x eqn:?
  end.
(** Walks through a run that answers. *)
Ltac answers_step H :=
  lazymatch type of H with
  | (_ ≫= _) = Ok _ => let E := fresh "E" in apply bind_Ok in H as (? & E & H)
  | checked _ = Ok _ => apply map_err_Ok in H
  | refuse _ = Ok _ => discriminate H
  | Err _ = Ok _ => discriminate H
  | (if ?b then _ else _) = Ok _ => destruct b eqn:?
  | match ?x with _ => _ end = Ok _ => destruct x eqn:?
  end.
Ltac answered H := repeat answers_step H.

(** The builder of a sample is of its account and moment, step by step. *)
Ltac builders :=
  repeat lazymatch goal with
  | E : checked _ = Ok ?b |- building _ _ ?b => apply map_err_Ok in E
  | E : UsageSampleBuilder.with_login_method _ _ = Ok ?b |- building _ _ ?b => refine (building_login _ _ _ _ _ _ E)
  | E : UsageSampleBuilder.with_email _ _ = Ok ?b |- building _ _ ?b => refine (building_email _ _ _ _ _ _ E)
  | E : UsageSampleBuilder.with_organization _ _ = Ok ?b |- building _ _ ?b => refine (building_organization _ _ _ _ _ _ E)
  | E : UsageSampleBuilder.with_provider_account_id _ _ = Ok ?b |- building _ _ ?b => refine (building_account _ _ _ _ _ _ E)
  | E : UsageSampleBuilder.with_provenance _ _ _ = Ok ?b |- building _ _ ?b => refine (building_provenance _ _ _ _ _ _ _ E)
  | E : Ok _ = Ok ?b |- building _ _ ?b => injection E as <-
  | E : _ = Ok ?b |- building _ _ ?b => answers_step E
  | |- building ?s ?n (with_lane _ ?lane ?b) => cut (building s n b); [let Hb := fresh in destruct lane; intros Hb; exact Hb|]
  | |- building _ _ (UsageSampleBuilder.new _ _) => split; reflexivity
  | |- building ?s ?n (?set _ ?b) => change (building s n b)
  end.
Ltac sampled H := answered H; refine (build_sample _ _ _ _ _ H); builders.

(** ** Counts *)

Section counts.
Context `{DecimalArithLaws}.

Definition is_i64 (n : Z) : Prop := i64_min ≤ n ≤ i64_max.
Lemma whole_percent n : is_i64 n → checked_decimal_mul (decimal_of_Z n) (decimal_of_Z 100) = Some (decimal_of_Z (n * 100)).
Proof. intros Hn. apply decimal_whole_mul. unfold is_i64, i64_min, i64_max in Hn. lia. Qed.
Lemma count_percent_no_panic used limit : is_i64 used → count_percent used limit ≠ Err Panic.
Proof.
  intros Hu Hp. unfold count_percent in Hp. destruct (Z.ltb_spec 0 limit) as [Hl|]; panics Hp.
  - rewrite whole_percent in Hp by done. discriminate Hp.
  - destruct (decimal_whole_div x limit ltac:(lia)) as [q Hq]. rewrite Hq in Hp. discriminate Hp.
Qed.
Lemma count_window_no_panic used limit resets_at description : is_i64 used →
  count_window used limit resets_at description ≠ Err Panic.
Proof. intros Hu Hp. unfold count_window in Hp. panics Hp. by eapply count_percent_no_panic. Qed.
Lemma ratio_percent_no_panic n d : is_i64 n → Zed.ratio_percent n d ≠ Err Panic.
Proof.
  intros Hn Hp. unfold Zed.ratio_percent in Hp. destruct (Z.leb_spec d 0) as [|Hd]; panics Hp.
  - rewrite whole_percent in Hp by done. discriminate Hp.
  - destruct (decimal_whole_div x d ltac:(lia)) as [q Hq]. rewrite Hq in Hp. discriminate Hp.
Qed.

(** The percentage of a count never panics and lies between zero and one
    hundred; without a limit it is zero. *)
Theorem count_percent_in_range used limit : is_i64 used →
  count_percent used limit ≠ Err Panic ∧
  (limit ≤ 0 → count_percent used limit = Ok (UsagePercent.mk f64_zero)) ∧
  ∀ p, count_percent used limit = Ok p →
    f64_le f64_zero (UsagePercent.get p) = true ∧ f64_le (UsagePercent.get p) f64_hundred = true.
Proof.
  intros Hu. split; [by apply count_percent_no_panic|]. unfold count_percent. split.
  { intros Hl. by rewrite (proj2 (Z.ltb_ge _ _) Hl). }
  intros p. destruct (0 <? limit); [|by intros [= <-]]. intros Hp. answered Hp.
  apply map_err_Ok in Hp. apply bind_Ok in E as (product & _ & (quotient & _ & (value & Hv & [= <-])%bind_Ok)%bind_Ok).
  apply map_err_Ok, ok_or_Ok, decimal_f64 in Hv. destruct (f64_clamp_range value f64_zero f64_hundred Hv eq_refl eq_refl eq_refl) as [Hlo Hhi].
  unfold UsagePercent.new in Hp. destruct (is_finite _); [|done]. injection Hp as <-. cbn [UsagePercent.get].
  unfold canonical_zero. by destruct (f64_eq _ _).
Qed.
End counts.

(** ** Text of counts *)

Lemma group_digits_cons d e digits : group_digits (d :: e :: digits) =
  d :: (if (length (e :: digits) mod 3 =? 0)%nat then lit "," else []) ++ group_digits (e :: digits).
Proof. reflexivity. Qed.
Definition with_commas (first : str) (groups : list str) : str := first ++ concat ((λ g, 44 :: g) <$> groups).
Lemma group_digits_groups digits : digits ≠ [] → ∃ first groups,
  group_digits digits = with_commas first groups ∧ digits = first ++ concat groups ∧
  length first = S ((length digits - 1) mod 3) ∧ Forall (λ g : str, length g = 3%nat) groups.
Proof.
  induction digits as [|d [|e digits] IH]; intros Hd; [done| |].
  { exists [d], []. unfold with_commas. cbn -[Nat.modulo]. split_and!; done. }
  destruct IH as (first & groups & Hg & Hs & Hf & Hl); [done|]. rewrite group_digits_cons, Hg.
  cbn [length] in Hf |- *. rewrite !Nat.sub_succ, !Nat.sub_0_r in *.
  pose proof (Nat.mod_upper_bound (length digits) 3 ltac:(done)).
  pose proof (Nat.mod_upper_bound (S (length digits)) 3 ltac:(done)).
  pose proof (Nat.div_mod_eq (length digits) 3). pose proof (Nat.div_mod_eq (S (length digits)) 3).
  destruct (Nat.eqb_spec (S (length digits) mod 3) 0) as [Hz|Hz].
  - exists [d], (first :: groups). unfold with_commas. cbn -[Nat.modulo]. rewrite Hs. split_and!; [done..| |].
    + rewrite Hz. done.
    + constructor; [lia|done].
  - exists (d :: first), groups. unfold with_commas. cbn -[Nat.modulo]. rewrite Hs. split_and!; [done..|lia|done].
Qed.

(** The text of a count is its decimal text, cut by commas into groups of three
    digits from the end, the first group of one to three. *)
Theorem format_integer_groups value : ∃ first groups,
  format_integer value = (if value <? 0 then lit "-" else []) ++ with_commas first groups ∧
  first ++ concat groups = show_nat (Z.abs value) ∧ (1 ≤ length first ≤ 3)%nat ∧ Forall (λ g : str, length g = 3%nat) groups.
Proof.
  assert (show_nat (Z.abs value) ≠ []) as Hne by apply show_digits_nonempty.
  destruct (group_digits_groups _ Hne) as (first & groups & Hg & Hs & Hf & Hl).
  pose proof (Nat.mod_upper_bound (length (show_nat (Z.abs value)) - 1) 3 ltac:(done)).
  exists first, groups. split; [|split_and!; [done|lia|lia|done]]. rewrite <-Hg. unfold format_integer, show_i64.
  destruct (value <? 0); [done|]. cbn [app]. destruct (show_nat (Z.abs value)) as [|c s] eqn:E; [done|].
  destruct (Z.eqb_spec c 45) as [->|]; [|done].
  pose proof (show_digits_digits (S (Z.to_nat (Z.log2 (Z.abs value)))) (Z.abs value)) as Hd. fold (show_nat (Z.abs value)) in Hd.
  rewrite E in Hd. by apply Forall_cons in Hd as [Hd _].
Qed.

(** ** Adapters *)

(** What the type of a decoded answer says of its integers. *)
Class Decodes (T : Type) `{JsonDecode T} (P : T → Prop) : Prop := decodes bytes v : from_slice bytes = Some v → P v.

Section adapters.
Context `{UrlOriginLaws} `{!UrlEdit} `{!UrlSegments} `{HttpCrate} `{TimeCrate} `{!CloudSigning} `{ClientBuilder}
  `{DecimalArithLaws} `{CharCase} `{JsonNumbers} `{DateCrateLaws}.

Lemma provider_config_valid ct rt mb mr policy config : provider_config ct rt mb mr policy = Ok config →
  0 ≤ mr → max_retries policy ≤ u8_max → valid_config config.
Proof. intros Hc%map_err_Ok ??. by exists ct, rt, mb, mr, policy. Qed.
(** What a fetch of a client's own context comes to. *)
Definition own_sample (client : FixedApiClient) (context : ProviderContext) (now : Timestamp) (s : UsageSample) : Prop :=
  matches_context client context = true ∧ sample_of (context_scope context) now s.
Lemma lawful_intro id client fetch : sound_client client → AccountScope.provider (client_scope client) = id →
  (∀ ws context now, good client context (fetch ws context now) (own_sample client context now)) →
  Lawful (mk_api_adapter id client fetch).
Proof.
  intros Hs Hid Hf. split; [done..|]. intros ws context now. destruct (Hf ws context now) as [Ha [Hp Ho]]. split; [done|].
  by split.
Qed.

Section fetch.
Context (client : FixedApiClient) (context : ProviderContext) (now : Timestamp) (Hc : sound_client client).

Lemma good_decoded {T} `{JsonDecode T} (P : T → Prop) `{!Decodes T P} w url :
  good client context (get_decoded w client context url) (λ v, matches_context client context = true ∧ P v).
Proof.
  eapply good_bind; [by apply good_get_json|]. intros response Hm.
  apply good_lift, produces_checked. intros v Hv%ok_or_Ok%decodes. done.
Qed.
(** A step that asks nothing and decides nothing. *)
Lemma good_then {A B} (r : Result ClassifiedError A) (k : A → Fetch B) (Q : B → Prop) :
  (∀ a, good client context (k a) Q) → good client context (lift (checked r) ≫= k) Q.
Proof. intros Hk. apply (good_bind _ _ _ _ (λ _, True)); [by apply good_lift, produces_checked|]. intros a _. apply Hk. Qed.
(** The last step, in the client's context. *)
Lemma good_finish (n : Checked UsageSample) : matches_context client context = true →
  produces n (sample_of (context_scope context) now) → good client context (lift n) (own_sample client context now).
Proof. intros Hm Hn. apply good_lift. eapply produces_mono; [|exact Hn]. by split. Qed.
(** One request, decoded and normalized. *)
Lemma good_single {T} `{JsonDecode T} (P : T → Prop) `{!Decodes T P} w (r : Result ClassifiedError Url) (edit : Url → Url)
    (n : T → Checked UsageSample) :
  (∀ v, P v → produces (n v) (sample_of (context_scope context) now)) →
  good client context (url ← lift (checked r); v ← get_decoded w client context (edit url); lift (n v))
    (own_sample client context now).
Proof.
  intros Hn. apply good_then. intros url. eapply good_bind; [by apply good_decoded|].
  intros v [Hm Hv]. apply good_finish; auto.
Qed.
End fetch.
#[global] Instance decodes_any T `{JsonDecode T} : Decodes T (λ _, True).
Proof. by intros ???. Qed.

(** The constructors: a configured client of the provider. *)
Lemma client_lawful id fetch client a : sound_client client →
  (∀ client, sound_client client → ∀ ws context now, good client context (fetch client ws context now) (own_sample client context now)) →
  (client ← client_of id client; Ok (mk_api_adapter id client (fetch client))) = Ok a → Lawful a.
Proof.
  intros Hs Hf (c & [-> Hid]%client_of_Ok & [= <-])%bind_Ok. apply lawful_intro; [done..|]. by apply Hf.
Qed.
Lemma bearer_lawful id fetch scope base class credential ct rt mb mr policy a :
  0 ≤ mr → max_retries policy ≤ u8_max →
  (∀ client, sound_client client → ∀ ws context now, good client context (fetch client ws context now) (own_sample client context now)) →
  (base ← base; config ← provider_config ct rt mb mr policy; client ← new_bearer scope base class credential config;
   client ← client_of id client; Ok (mk_api_adapter id client (fetch client))) = Ok a → Lawful a.
Proof.
  intros Hmr Hp Hf (base' & _ & (config & Hc & (client & Hn & Ha)%bind_Ok)%bind_Ok)%bind_Ok.
  eapply client_lawful; [|exact Hf|exact Ha]. eapply new_bearer_sound, Hn. by eapply provider_config_valid.
Qed.

Ltac new_bearer_lawful H :=
  eapply bearer_lawful; [| | |exact H]; [by vm_compute|by vm_compute|];
  let client := fresh "client" in intros client Hclient ws context now.

(** *** DeepSeek, Moonshot *)

Lemma deepseek_sample scope now payload s : DeepSeek.normalize scope now payload = Ok s → sample_of scope now s.
Proof. unfold DeepSeek.normalize. intros Hs. sampled Hs. Qed.
Lemma deepseek_lawful `{!JsonDecode DeepSeek.BalanceEnvelope} scope credential a :
  DeepSeek.new scope credential = Ok a → Lawful a.
Proof.
  intros Ha. new_bearer_lawful Ha. apply (good_single _ _ _ Hclient (λ _, True) _ _ id). intros v _.
  apply produces_checked. intros s. apply deepseek_sample.
Qed.
Lemma moonshot_sample scope now payload s : Moonshot.normalize scope now payload = Ok s → sample_of scope now s.
Proof. unfold Moonshot.normalize. intros Hs. sampled Hs. Qed.
(** The dollar sign that is cut off is one byte. *)
Lemma moonshot_no_panic scope now payload : Moonshot.normalize scope now payload ≠ Err Panic.
Proof. unfold Moonshot.normalize. intros Hp. panics Hp. discriminate Hp. Qed.
Lemma moonshot_lawful `{!JsonDecode Moonshot.BalanceResponse} scope settings a :
  Moonshot.new scope settings = Ok a → Lawful a.
Proof.
  intros Ha. new_bearer_lawful Ha. apply (good_single _ _ _ Hclient (λ _, True) _ _ id). intros v _.
  split; [apply moonshot_no_panic|]. intros s. apply moonshot_sample.
Qed.

(** *** DeepInfra, ai& *)

Lemma deepinfra_produces scope now checklist usage :
  produces (DeepInfra.normalize scope now checklist usage) (sample_of scope now).
Proof.
  split; [|intros s Hs; unfold DeepInfra.normalize in Hs; sampled Hs].
  intros Hp. unfold DeepInfra.normalize in Hp. panics Hp.
  destruct (decimal_whole_div (DeepInfra.total_cost_cents u) 100 ltac:(done)) as [q Hq]. rewrite Hq in Hp. discriminate Hp.
Qed.
Lemma deepinfra_lawful `{!JsonDecode DeepInfra.ChecklistResponse} `{!JsonDecode DeepInfra.UsageResponse} scope credential a :
  DeepInfra.new scope credential = Ok a → Lawful a.
Proof.
  intros Ha. new_bearer_lawful Ha. apply good_then. intros url.
  eapply good_bind; [by apply (good_decoded _ _ Hclient (λ _, True))|]. intros checklist _.
  apply (good_single _ _ _ Hclient (λ _, True) _ _ (λ url, append_pair url (lit "from") (lit "current"))). intros usage _.
  apply deepinfra_produces.
Qed.
Lemma aiand_sample scope now summary is_complete s :
  AiAnd.normalize scope now summary is_complete = Ok s → sample_of scope now s.
Proof. unfold AiAnd.normalize. intros Hs. sampled Hs. Qed.
Lemma aiand_pages `{!JsonDecode AiAnd.LogsEnvelope} client context ws n i after after_id summary : sound_client client →
  good client context (AiAnd.fetch_pages client ws context n i after after_id summary)
    (λ _, n = O ∨ matches_context client context = true).
Proof.
  intros Hc. revert i after after_id summary. induction n as [|n IH]; intros; cbn [AiAnd.fetch_pages].
  { by apply good_ret; left. }
  apply good_then. intros url. eapply good_bind; [by apply (good_decoded _ _ Hc (λ _, True))|]. intros page [Hm _].
  apply good_then. intros summary'. apply good_if; intros _; [by apply good_ret; right|].
  destruct (AiAnd.next_after page); [|by apply good_ret; right].
  destruct (AiAnd.next_after_id page); [|by apply good_ret; right].
  do 2 (apply good_then; intros _). eapply good_mono; [|apply IH]. intros _ _. by right.
Qed.
Lemma aiand_lawful `{!JsonDecode AiAnd.LogsEnvelope} scope credential a : AiAnd.new scope credential = Ok a → Lawful a.
Proof.
  intros Ha. new_bearer_lawful Ha. eapply good_bind; [by apply aiand_pages|]. intros [summary is_complete] [|Hm]; [done|].
  apply good_finish; [done|]. apply produces_checked. intros s. apply aiand_sample.
Qed.

(** *** Fireworks *)

Lemma fireworks_sample scope now summary discovered s :
  Fireworks.normalize scope now summary discovered = Ok s → sample_of scope now s.
Proof. unfold Fireworks.normalize. intros Hs. sampled Hs. Qed.
Lemma fireworks_item state item : Fireworks.add_item state item ≠ Err Panic.
Proof.
  unfold Fireworks.add_item. destruct state as [selected total]. intros Hp. panics Hp.
  destruct (decimal_whole_div (decimal_of_Z z) 1000000000 ltac:(done)) as [q Hq]. rewrite Hq in Hp. discriminate Hp.
Qed.
Lemma fireworks_summary response : Fireworks.parse_summary response ≠ Err Panic.
Proof.
  unfold Fireworks.parse_summary. generalize (@None str, decimal_zero). induction (default [] _) as [|item items IH]; intros state Hp;
    cbn [Fireworks.add_items] in Hp; [panics Hp|].
  apply bind_Err in Hp as [Hp|(r & E & Hp)]; [|panics Hp].
  apply bind_Err in Hp as [Hp|(state' & _ & Hp)]; [by eapply fireworks_item|]. apply (IH state'). rewrite Hp. done.
Qed.
Section fireworks.
Context `{!JsonDecode Fireworks.BillingSummaryResponse} `{!JsonDecode Fireworks.AccountsResponse}.
Context (client : FixedApiClient) (context : ProviderContext) (Hc : sound_client client).
Notation in_context := (λ _, matches_context client context = true).
Lemma fireworks_fetch_summary w slug now : good client context (Fireworks.fetch_summary client w context slug now) in_context.
Proof.
  apply good_then. intros url. eapply good_bind; [by apply good_get_optional_json|]. intros [response|] Hm; [|by apply good_ret].
  eapply good_bind; [|intros; by apply good_ret]. apply (good_lift _ _ _ (λ _, True)). split; [|done].
  intros Hp. panics Hp. by eapply fireworks_summary.
Qed.
Lemma fireworks_pages ws n i token seen accounts :
  good client context (Fireworks.list_pages client ws context n i token seen accounts) in_context.
Proof.
  revert i token seen accounts. induction n as [|n IH]; intros; cbn [Fireworks.list_pages]; [by apply good_lift, produces_refuse|].
  apply good_then. intros url. eapply good_bind; [by apply (good_decoded _ _ Hc (λ _, True))|]. intros page [Hm _].
  destruct (Fireworks.next_page_token page ≫= clean_setting); [|by apply good_ret].
  apply good_if; intros _; [by apply good_lift, produces_refuse|].
  apply good_if; intros _; [by apply good_lift, produces_refuse|]. apply IH.
Qed.
Lemma fireworks_discover ws now : good client context (Fireworks.discover client ws context now) in_context.
Proof.
  eapply good_bind; [apply fireworks_pages|]. intros accounts _. apply good_then. intros slug.
  eapply good_bind; [apply fireworks_fetch_summary|]. intros summary Hm. apply good_then. intros found. by apply good_ret.
Qed.
Lemma fireworks_fetch slug ws now :
  good client context (Fireworks.fetch_at client slug ws context now) (own_sample client context now).
Proof.
  eapply (good_bind _ _ _ _ in_context).
  - destruct slug as [slug|].
    + eapply good_bind; [apply fireworks_fetch_summary|]. intros [summary|] Hm.
      * apply good_if; intros _; [by apply good_ret|]. eapply good_bind; [apply fireworks_pages|]. intros accounts _.
        apply good_if; intros _; [by apply good_lift, produces_refuse|by apply good_ret].
      * eapply good_bind; [apply fireworks_discover|]. intros [found summary] _. by apply good_ret.
    + eapply good_bind; [apply fireworks_discover|]. intros [found summary] Hm. by apply good_ret.
  - intros [summary discovered] Hm. apply good_finish; [done|]. apply produces_checked. intros s. apply fireworks_sample.
Qed.
End fireworks.
Lemma fireworks_lawful `{!JsonDecode Fireworks.BillingSummaryResponse} `{!JsonDecode Fireworks.AccountsResponse}
    scope credential a : Fireworks.new scope credential = Ok a → Lawful a.
Proof.
  unfold Fireworks.new, Fireworks.from_client. intros (base & _ & (config & Hconfig & (client & Hn & Ha)%bind_Ok)%bind_Ok)%bind_Ok.
  apply bind_Ok in Ha as (c & [-> Hid]%client_of_Ok & (slug & _ & [= <-])%bind_Ok).
  assert (sound_client client) as Hc.
  { eapply new_bearer_sound, Hn. eapply provider_config_valid; [exact Hconfig|done|by vm_compute]. }
  apply lawful_intro; [done..|]. intros. by apply fireworks_fetch.
Qed.

(** *** ClinePass, Ollama, ElevenLabs *)

Lemma clinepass_sample scope now payload s : ClinePass.normalize scope now payload = Ok s → sample_of scope now s.
Proof. unfold ClinePass.normalize. intros Hs. sampled Hs. Qed.
(** Renaming an error keeps the requests and the answers. *)
Lemma good_expiring client context w url : sound_client client →
  good client context (call (ClinePass.expiring (get_json w client context url))) (λ _, matches_context client context = true).
Proof.
  intros Hc. destruct (good_get_json client context Hc w url) as [Ha [Hn Hp]]. split; [exact Ha|].
  apply produces_checked. intros r Hr%map_err_Ok. apply (Hp r). cbn. by rewrite Hr.
Qed.
Lemma good_try_expiring client context w url : sound_client client →
  good client context (try_call (ClinePass.expiring (get_json w client context url))) (λ _, True).
Proof.
  intros Hc. destruct (good_get_json client context Hc w url) as [Ha _]. split; [exact Ha|]. by apply produces_Ok.
Qed.
Lemma clinepass_lawful `{!JsonDecode ClinePass.UsageLimitsResponse} scope credential a :
  ClinePass.new scope credential = Ok a → Lawful a.
Proof.
  intros Ha. new_bearer_lawful Ha. apply good_then. intros url. eapply good_bind; [by apply good_expiring|].
  intros response Hm. apply good_then. intros payload. apply good_finish; [done|].
  apply produces_checked. intros s. apply clinepass_sample.
Qed.
Lemma ollama_sample scope now payload s : Ollama.normalize scope now payload = Ok s → sample_of scope now s.
Proof. unfold Ollama.normalize. intros Hs. sampled Hs. Qed.
Lemma ollama_lawful `{!JsonDecode Ollama.TagsEnvelope} scope settings a : Ollama.new scope settings = Ok a → Lawful a.
Proof.
  unfold Ollama.new. intros (config & Hconfig & (client & Hn & (client' & Hw & Ha)%bind_Ok)%bind_Ok)%bind_Ok.
  eapply client_lawful; [| |exact Ha].
  - eapply with_source_sound, Hw. eapply new_bearer_sound, Hn.
    eapply provider_config_valid; [exact Hconfig|done|by vm_compute].
  - intros c Hc ws context now. apply (good_single _ _ _ Hc (λ _, True) _ _ id). intros v _.
    apply produces_checked. intros s. apply ollama_sample.
Qed.
Definition subscription_i64 (r : ElevenLabs.SubscriptionResponse) : Prop :=
  is_i64 (ElevenLabs.character_count r) ∧
  (∀ n, ElevenLabs.voice_slots_used r = Some n → is_i64 n) ∧
  (∀ n, ElevenLabs.professional_voice_slots_used r = Some n → is_i64 n).
Lemma voice_window_no_panic id title used limit : (∀ n, used = Some n → is_i64 n) →
  ElevenLabs.voice_window id title used limit ≠ Err Panic.
Proof.
  intros Hu Hp. unfold ElevenLabs.voice_window in Hp. panics Hp. by eapply count_window_no_panic; [apply Hu|].
Qed.
Lemma elevenlabs_produces `{!JsonDecode ElevenLabs.SubscriptionResponse}
    `{!Decodes ElevenLabs.SubscriptionResponse subscription_i64} bytes scope now :
  produces (ElevenLabs.parse_usage bytes scope now) (sample_of scope now).
Proof.
  split; [|intros s Hs; unfold ElevenLabs.parse_usage in Hs; sampled Hs].
  intros Hp. unfold ElevenLabs.parse_usage in Hp. apply bind_Err in Hp as [Hp|(r & Hr & Hp)]; [panics Hp|].
  apply map_err_Ok, ok_or_Ok, decodes in Hr as (Hc & Hv & Hpv). panics Hp.
  - exact (count_window_no_panic _ _ _ _ Hc Hp).
  - exact (voice_window_no_panic _ _ _ _ Hv Hp).
  - exact (voice_window_no_panic _ _ _ _ Hpv Hp).
Qed.
Lemma elevenlabs_lawful `{!JsonDecode ElevenLabs.SubscriptionResponse}
    `{!Decodes ElevenLabs.SubscriptionResponse subscription_i64} scope credential a :
  ElevenLabs.new scope credential = Ok a → Lawful a.
Proof.
  unfold ElevenLabs.new. intros (base & _ & (config & Hconfig & (client & Hn & Ha)%bind_Ok)%bind_Ok)%bind_Ok.
  eapply client_lawful; [| |exact Ha].
  - eapply client_new_sound, Hn. eapply provider_config_valid; [exact Hconfig|done|by vm_compute].
  - intros c Hc ws context now. eapply good_bind; [by apply good_get|]. intros response Hm.
    apply good_finish; [done|]. apply elevenlabs_produces.
Qed.

(** *** Zed, ZenMux, Crof *)

Definition limit_i64 (r : Zed.AccountResponse) : Prop :=
  match Zed.limit (Zed.edit_predictions (Zed.plan r)) with
  | Zed.Limited n | Zed.LimitObject n => is_i64 n
  | Zed.LimitText _ => True
  end.
Lemma zed_predictions usage : match Zed.limit usage with Zed.Limited n | Zed.LimitObject n => is_i64 n | Zed.LimitText _ => True end →
  Zed.prediction_window usage ≠ Err Panic.
Proof.
  intros Hl Hp. unfold Zed.prediction_window, Zed.prediction_usage in Hp. destruct (Zed.limit usage) as [n|n|t]; panics Hp;
    (eapply ratio_percent_no_panic; [|exact Hp]); unfold is_i64 in *; unfold i64_min, i64_max in *; lia.
Qed.
Lemma zed_billing now period : Zed.billing_window now period ≠ Err Panic.
Proof.
  intros Hp. unfold Zed.billing_window in Hp. panics Hp. eapply ratio_percent_no_panic; [|exact Hp].
  unfold Zed.saturating_sub_i64, is_i64, i64_min, i64_max. lia.
Qed.
Lemma zed_produces scope now payload : limit_i64 payload → produces (Zed.normalize scope now payload) (sample_of scope now).
Proof.
  intros Hl. split; [|intros s Hs; unfold Zed.normalize in Hs; sampled Hs].
  intros Hp. unfold Zed.normalize in Hp. apply bind_Err in Hp as [Hp|(primary & _ & Hp)]; [by eapply zed_predictions|].
  apply bind_Err in Hp as [Hp|(secondary & _ & Hp)]; [|panics Hp].
  destruct (Zed.subscription_period (Zed.plan payload)) as [period|]; [|done]. cbn in Hp.
  destruct (Zed.billing_window now period) eqn:E; [done|]. injection Hp as ->. by eapply zed_billing.
Qed.
Lemma zed_lawful `{!JsonDecode Zed.AccountResponse} `{!Decodes Zed.AccountResponse limit_i64} scope settings a :
  Zed.new scope settings = Ok a → Lawful a.
Proof.
  unfold Zed.new. intros (base & _ & (config & Hconfig & (client & Hn & Ha)%bind_Ok)%bind_Ok)%bind_Ok.
  eapply client_lawful; [| |exact Ha].
  - eapply new_scheme_sound, Hn. eapply provider_config_valid; [exact Hconfig|done|by vm_compute].
  - intros c Hc ws context now. apply (good_single _ _ _ Hc limit_i64 _ _ id). intros v Hv. by apply zed_produces.
Qed.
Lemma zenmux_sample scope now subscription balance s :
  ZenMux.normalize scope now subscription balance = Ok s → sample_of scope now s.
Proof. unfold ZenMux.normalize. intros Hs. sampled Hs. Qed.
Lemma zenmux_lawful `{!JsonDecode ZenMux.SubscriptionEnvelope} `{!JsonDecode ZenMux.BalanceEnvelope} scope credential a :
  ZenMux.new scope credential = Ok a → Lawful a.
Proof.
  intros Ha. new_bearer_lawful Ha. apply good_then. intros url. eapply good_bind; [by apply good_expiring|].
  intros response Hm. apply good_then. intros subscription. apply good_then. intros parsed. apply good_then. intros url'.
  eapply good_bind; [by apply good_try_expiring|]. intros answer _. eapply (good_bind _ _ _ _ (λ _, True)).
  - apply good_lift. split; [|done]. intros Hp. panics Hp. discriminate Hp.
  - intros balance _. apply good_finish; [done|]. apply produces_checked. intros s. apply zenmux_sample.
Qed.
Lemma crof_sample scope now response s : Crof.normalize scope now response = Ok s → sample_of scope now s.
Proof. unfold Crof.normalize. intros Hs. sampled Hs. Qed.
Lemma crof_lawful `{!JsonDecode Crof.CrofResponse} scope credential a : Crof.new scope credential = Ok a → Lawful a.
Proof.
  intros Ha. new_bearer_lawful Ha. apply (good_single _ _ _ Hclient (λ _, True) _ _ id). intros v _.
  apply produces_checked. intros s. apply crof_sample.
Qed.

(** *** Groq: four queries at once *)

Lemma failures_nil {A} (tasks : list (Fetch A)) : Groq.failures tasks = [] →
  length (omap (λ t : Fetch A, result_ok t.2) tasks) = length tasks.
Proof.
  induction tasks as [|[w [a|e]] tasks IH]; [done| |done]. intros Hf. cbn. f_equal. by apply IH.
Qed.
Lemma good_try_join {A} client context choice (tasks : list (Fetch A)) :
  Forall (λ t, good client context t (λ _, matches_context client context = true)) tasks → tasks ≠ [] →
  good client context (Groq.try_join choice tasks)
    (λ values, length values = length tasks ∧ matches_context client context = true).
Proof.
  intros Ht Hne. split.
  { clear Hne. unfold Groq.try_join. cbn [fst]. induction Ht as [|t tasks [Ha _] _ IH]; [apply allowed_nil|].
    cbn [fmap list_fmap concat]. by apply allowed_app. }
  unfold Groq.try_join. cbn [snd]. destruct (Groq.failures tasks) as [|first errors] eqn:Hf.
  - apply produces_Ok. split; [by apply failures_nil|]. destruct Ht as [|[w [a|e]] tasks [_ [_ Hp]] _]; [done|by eapply Hp|done].
  - split; [|done]. intros [= He]. assert (Panic ∈ Groq.failures tasks) as Hin.
    { rewrite Hf. destruct (errors !! choice) as [e|] eqn:El; cbn in He; subst.
      - right. by eapply list_elem_of_lookup_2.
      - by left. }
    unfold Groq.failures in Hin. apply list_elem_of_omap in Hin as (t & Hin & He').
    eapply Forall_forall in Ht as [_ [Hn _]]; [|exact Hin]. destruct t.2 as [|e]; [done|]. injection He' as ->. done.
Qed.
Lemma groq_sample scope now r t c s : Groq.normalize scope now r t c = Ok s → sample_of scope now s.
Proof. unfold Groq.normalize. intros Hs. sampled Hs. Qed.
Lemma groq_query `{!JsonDecode Value} client context w query : sound_client client →
  good client context (Groq.metric_query client w context query) (λ _, matches_context client context = true).
Proof.
  intros Hc. apply good_then. intros url. eapply good_bind; [by apply (good_decoded _ _ Hc (λ _, True))|].
  intros payload [Hm _]. by apply good_lift, produces_checked.
Qed.
Lemma groq_lawful `{!JsonDecode Value} choice scope settings a : Groq.new choice scope settings = Ok a → Lawful a.
Proof.
  intros Ha. unfold Groq.new in Ha. apply bind_Ok in Ha as (class & _ & (config & Hconfig & (client & Hn & Ha)%bind_Ok)%bind_Ok).
  eapply (client_lawful _ (Groq.fetch_at choice)); [| |exact Ha].
  - eapply new_bearer_sound, Hn. eapply provider_config_valid; [exact Hconfig|done|by vm_compute].
  - intros c Hc ws context now. eapply good_bind.
    { apply good_try_join; [|done]. repeat constructor; by apply groq_query. }
    intros values [Hl Hm]. destruct values as [|r [|i [|o [|k [|]]]]]; try done.
    apply good_finish; [done|]. apply produces_checked. intros s. apply groq_sample.
Qed.

(** ** The contract *)

(** The adapters as production code makes them. *)
Context `{!JsonDecode DeepSeek.BalanceEnvelope} `{!JsonDecode Moonshot.BalanceResponse}
  `{!JsonDecode DeepInfra.ChecklistResponse} `{!JsonDecode DeepInfra.UsageResponse} `{!JsonDecode AiAnd.LogsEnvelope}
  `{!JsonDecode Fireworks.BillingSummaryResponse} `{!JsonDecode Fireworks.AccountsResponse}
  `{!JsonDecode ClinePass.UsageLimitsResponse} `{!JsonDecode Ollama.TagsEnvelope}
  `{!JsonDecode ElevenLabs.SubscriptionResponse} `{!Decodes ElevenLabs.SubscriptionResponse subscription_i64}
  `{!JsonDecode Zed.AccountResponse} `{!Decodes Zed.AccountResponse limit_i64}
  `{!JsonDecode ZenMux.SubscriptionEnvelope} `{!JsonDecode ZenMux.BalanceEnvelope} `{!JsonDecode Crof.CrofResponse}
  `{!JsonDecode Value}.
Inductive production (scope : AccountScope) : ApiAdapter → Prop :=
| production_deepseek credential a : DeepSeek.new scope credential = Ok a → production scope a
| production_moonshot settings a : Moonshot.new scope settings = Ok a → production scope a
| production_deepinfra credential a : DeepInfra.new scope credential = Ok a → production scope a
| production_aiand credential a : AiAnd.new scope credential = Ok a → production scope a
| production_fireworks credential a : Fireworks.new scope credential = Ok a → production scope a
| production_clinepass credential a : ClinePass.new scope credential = Ok a → production scope a
| production_ollama settings a : Ollama.new scope settings = Ok a → production scope a
| production_elevenlabs credential a : ElevenLabs.new scope credential = Ok a → production scope a
| production_zed settings a : Zed.new scope settings = Ok a → production scope a
| production_zenmux credential a : ZenMux.new scope credential = Ok a → production scope a
| production_groq choice settings a : Groq.new choice scope settings = Ok a → production scope a
| production_crof credential a : Crof.new scope credential = Ok a → production scope a.
Lemma production_lawful scope a : production scope a → Lawful a.
Proof.
  destruct 1; [by eapply deepseek_lawful|by eapply moonshot_lawful|by eapply deepinfra_lawful|by eapply aiand_lawful
    |by eapply fireworks_lawful|by eapply clinepass_lawful|by eapply ollama_lawful|by eapply elevenlabs_lawful
    |by eapply zed_lawful|by eapply zenmux_lawful|by eapply groq_lawful|by eapply crof_lawful].
Qed.

End adapters.

(** ** Witnesses *)

Module ProviderExample.
#[local] Existing Instance FixedApiExample.host_crate.
#[local] Existing Instance FixedApiExample.origin_example.
#[local] Existing Instance FixedApiExample.origin_laws.
#[local] Existing Instance FixedApiExample.signing_example.
#[local] Existing Instance FixedApiExample.builder_example.
#[local] Existing Instance FixedApiExample.segments_example.
#[local] Existing Instance TransportExample.http_example.
#[local] Existing Instance Reference.time.
#[local] Existing Instance Reference.decimal.
#[local] Instance edit_example : UrlEdit := {|
  append_pair u _ _ := u;
  set_query u _ := u;
  set_path u _ := u;
  set_fragment u _ := u;
  url_as_str u := FixedApiExample.prefix_example ++ u;
|}.
#[local] Instance arith_example : DecimalArith := {|
  decimal_of_Z n := n;
  checked_decimal_add a b := Some (a + b);
  checked_decimal_mul a b := Some (a * b);
  checked_decimal_div a b := if b =? 0 then None else Some (a / b);
  decimal_neg a := - a;
  decimal_fract _ := 0;
  decimal_round_dp _ a := a;
  decimal_to_f64 a := Some (f64_of_Z a);
  decimal_from_scientific := Reference.ref_from_str;
  decimal_fixed _ a := Reference.ref_show_Z a;
|}.
#[local] Instance arith_laws : DecimalArithLaws.
Proof.
  split.
  - done.
  - intros d b Hb. cbn. rewrite (proj2 (Z.eqb_neq b 0) Hb). by eexists.
  - intros d x [= <-]. apply binary_normalize_not_nan.
Qed.
#[local] Instance case_example : CharCase := {| char_upper c := [to_ascii_uppercase c]; char_lower c := [to_ascii_lower c] |}.
#[local] Instance number_example : JsonNumber := {| Number := Z; as_u64 n := Some n |}.
#[local] Instance numbers_example : JsonNumbers := {|
  number_as_i64 n := Some n;
  number_as_f64 n := Some (f64_of_Z n);
  number_to_string n := show_i64 n;
|}.
(** The year 2026. *)
#[local] Instance dates_example : DateCrate := {|
  date_min := 20454;
  date_max := 20818;
  calendar_date _ month day :=
    if (month =? 3) && (day =? 1) then Some 20513 else if (month =? 11) && (day =? 1) then Some 20758 else None;
  year_of_date _ := 2026;
  weekday_from_sunday d := (d + 4) mod 7;
|}.
#[local] Instance dates_laws : DateCrateLaws.
Proof.
  split; cbn.
  - intros d. by apply Z.mod_pos_bound.
  - intros d k. rewrite Zplus_mod_idemp_l. f_equal. lia.
Qed.

(** Noon UTC of the day the clocks go forward: the next midnight is in daylight
    time. *)
Definition change_day : Timestamp := Timestamp.mk (1772971200 * NANOS_PER_SECOND).
Lemma midnight_example : Crof.next_chicago_midnight change_day = Ok (Timestamp.mk (1773032400 * NANOS_PER_SECOND)).
Proof. vm_compute. reflexivity. Qed.
Lemma reset_at_next_midnight_witness : chicago_midnight (1773032400 * NANOS_PER_SECOND).
Proof. exact (proj1 (proj2 (reset_at_next_midnight change_day _ midnight_example))). Defined.

Lemma count_percent_in_range_witness : count_percent 250 200 ≠ Err Panic ∧ count_percent 7 0 = Ok (UsagePercent.mk f64_zero).
Proof.
  split.
  - apply (count_percent_in_range 250 200). split; vm_compute; discriminate.
  - apply (count_percent_in_range 7 0); [split; vm_compute; discriminate|lia].
Defined.

(** Any answer is the balance below; the other types are never decoded here. *)
#[local] Instance no_answer T : JsonDecode T | 10 := λ _, None.
#[local] Instance balance_answer : JsonDecode Moonshot.BalanceResponse := λ _,
  Some (Moonshot.mk_response 0 (Moonshot.mk_data (f64_of_Z (-12)) f64_zero (f64_of_Z (-3))) (lit "0x0") true).
#[local] Instance no_subscription : Decodes ElevenLabs.SubscriptionResponse subscription_i64.
Proof. by intros ??. Qed.
#[local] Instance no_account : Decodes Zed.AccountResponse limit_i64.
Proof. by intros ??. Qed.
Definition scope_example : AccountScope :=
  AccountScope.mk ProviderId.Moonshot (ProviderInstanceId.mk (lit "default")) (AccountKey.mk (lit "a")).
Definition adapter_example : Result ClassifiedError ApiAdapter :=
  Moonshot.new scope_example (Moonshot.mk_settings Moonshot.China (mk_credential (lit "token"))).
Definition answering : World :=
  mk_world (λ _, Responded (mk_response 200 [] (Some 2) [Chunk [123; 125]])) (λ _, false) (λ _, false) (λ _, 0) (λ _, 0).
Definition fetched_example (a : ApiAdapter) : Fetch UsageSample :=
  adapter_fetch a (Some 1772971200) (λ _, answering) (context_new scope_example ApiKey).
Lemma fetched_wires : ∃ a, adapter_example = Ok a ∧ length (fetched_example a).1 = 1%nat ∧
  (BoundedText.as_str <$> (s ← result_ok (fetched_example a).2; IdentitySnapshot.login_method (UsageSample.identity s)))
  = Some (lit "Balance: -$12.00" ++ DOT_SEPARATOR ++ lit "$3.00 in deficit").
Proof. eexists. split; [reflexivity|]. split; vm_compute; reflexivity. Qed.
Lemma adapter_made : is_ok adapter_example = true.
Proof. vm_compute. reflexivity. Qed.
End ProviderExample.
