(* ===== verification/Settings.v ===== *)
(** * Settings metadata of the flagship providers
      (crates/providers/src/settings_descriptor.rs)

    Which controls a settings page may show for a provider, what each depends on,
    and which are connected to anything in this build.  The constants are the
    source's, in its order; a Rust struct is a Module whose [mk] takes the fields in
    the order of their declaration. *)
From stdpp Require Import prelude.
From S2P Require Import Prelude Text Scope.
Local Open Scope Z_scope.

Module ProviderSettingId.
Inductive t :=
| CodexUsageSource
| CodexCookieSource
| CodexCookieHeader
| CodexLocalSessionCostLedger
| CodexHistoricalTracking
| CodexSparkUsageVisible
| CodexOpenAiWebExtras
| CodexExternalOauthSources
| CodexOpenAiWebBatterySaver
| ClaudeUsageSource
| ClaudeKeychainPromptPolicy
| ClaudeCookieSource
| ClaudeAdminApiKey
| ClaudeSwapExecutablePath
| ClaudeModelScopedWeeklyUsageVisible
| ClaudeDailyRoutinesUsageVisible
| ClaudeOauthDirectKeychainRead
| ClaudeOauthPromptFreeCredentials
| ClaudeSwapAccounts
| ClaudeSwapShowSingleAccount
| GrokUsageSource
| GrokCookieSource
| GrokCookieHeader
| CopilotIconSecondaryWindow
| CopilotBudgetCookieSource
| CopilotBudgetCookieHeader
| CopilotEnterpriseHost
| CopilotBudgetExtras
| ZaiApiRegion
| ZaiApiKey.
#[global] Instance eq_dec : EqDecision t.
Proof. solve_decision. Defined.
Definition as_str (x : t) : str :=
  match x with
  | CodexUsageSource => lit "codex-usage-source"
  | CodexCookieSource => lit "codex-cookie-source"
  | CodexCookieHeader => lit "codex-cookie-header"
  | CodexLocalSessionCostLedger => lit "codex-local-session-cost-ledger"
  | CodexHistoricalTracking => lit "codex-historical-tracking"
  | CodexSparkUsageVisible => lit "codex-spark-usage-visible"
  | CodexOpenAiWebExtras => lit "codex-openai-web-extras"
  | CodexExternalOauthSources => lit "codex-external-oauth-sources"
  | CodexOpenAiWebBatterySaver => lit "codex-openai-web-battery-saver"
  | ClaudeUsageSource => lit "claude-usage-source"
  | ClaudeKeychainPromptPolicy => lit "claude-keychain-prompt-policy"
  | ClaudeCookieSource => lit "claude-cookie-source"
  | ClaudeAdminApiKey => lit "claude-admin-api-key"
  | ClaudeSwapExecutablePath => lit "claude-swap-executable-path"
  | ClaudeModelScopedWeeklyUsageVisible => lit "claude-model-scoped-weekly-usage-visible"
  | ClaudeDailyRoutinesUsageVisible => lit "claude-daily-routines-usage-visible"
  | ClaudeOauthDirectKeychainRead => lit "claude-oauth-direct-keychain-read"
  | ClaudeOauthPromptFreeCredentials => lit "claude-oauth-prompt-free-credentials"
  | ClaudeSwapAccounts => lit "claude-swap-accounts"
  | ClaudeSwapShowSingleAccount => lit "claude-swap-show-single-account"
  | GrokUsageSource => lit "grok-usage-source"
  | GrokCookieSource => lit "grok-cookie-source"
  | GrokCookieHeader => lit "grok-cookie"
  | CopilotIconSecondaryWindow => lit "copilot-icon-secondary-window"
  | CopilotBudgetCookieSource => lit "copilot-budget-cookie-source"
  | CopilotBudgetCookieHeader => lit "copilot-budget-cookie-header"
  | CopilotEnterpriseHost => lit "copilot-enterprise-host"
  | CopilotBudgetExtras => lit "copilot-budget-extras"
  | ZaiApiRegion => lit "zai-api-region"
  | ZaiApiKey => lit "zai-api-key"
  end.
End ProviderSettingId.

Module ProviderSettingChoice.
Inductive t :=
| Auto
| Pat
| Oauth
| Cli
| Api
| Web
| Manual
| Off
| Never
| OnlyOnUserAction
| Always
| Global
| BigModelCn
| Chat.
#[global] Instance eq_dec : EqDecision t.
Proof. solve_decision. Defined.
Definition as_str (x : t) : str :=
  match x with
  | Auto => lit "auto"
  | Pat => lit "pat"
  | Oauth => lit "oauth"
  | Cli => lit "cli"
  | Api => lit "api"
  | Web => lit "web"
  | Manual => lit "manual"
  | Off => lit "off"
  | Never => lit "never"
  | OnlyOnUserAction => lit "onlyOnUserAction"
  | Always => lit "always"
  | Global => lit "global"
  | BigModelCn => lit "bigmodel-cn"
  | Chat => lit "chat"
  end.
End ProviderSettingChoice.

Module ProviderSecretSlot.
Inductive t :=
| CodexWebCookie
| ClaudeAdminApiKey
| GrokWebCookie
| CopilotBudgetCookie
| ZaiApiKey.
#[global] Instance eq_dec : EqDecision t.
Proof. solve_decision. Defined.
Definition as_str (x : t) : str :=
  match x with
  | CodexWebCookie => lit "codex-web-cookie"
  | ClaudeAdminApiKey => lit "claude-admin-api-key"
  | GrokWebCookie => lit "grok-web-cookie"
  | CopilotBudgetCookie => lit "copilot-budget-cookie"
  | ZaiApiKey => lit "zai-api-key"
  end.
End ProviderSecretSlot.

Module ProviderSettingsActionId.
Inductive t :=
| AddCodexAccount
| OpenGrokUsage
| OpenGrokTokenFile
| RefreshCopilotBudgets
| AddCopilotAccount
| OpenZaiApiKeys.
#[global] Instance eq_dec : EqDecision t.
Proof. solve_decision. Defined.
Definition as_str (x : t) : str :=
  match x with
  | AddCodexAccount => lit "add-codex-account"
  | OpenGrokUsage => lit "grok-open-usage"
  | OpenGrokTokenFile => lit "grok-open-token-file"
  | RefreshCopilotBudgets => lit "refresh-copilot-budget-cookie"
  | AddCopilotAccount => lit "copilot-add-account-action"
  | OpenZaiApiKeys => lit "zai-open-api-keys"
  end.
End ProviderSettingsActionId.

Module ProviderSettingsGap.
Inductive t :=
| ConfigurableCostLedger
| ConfigurableHistoryTracking
| DisplayFiltering
| OpenAiWebExtras
| ManagedAccountLifecycle
| DesktopWidgets
| MacOsKeychainPolicy
| ClaudeSwap
| ClaudeAdminApi
| ClaudeSourceSelection
| ClaudeWebUsage
| ClaudeCliUsage
| BrowserCookieUsage
| ExplicitGrokSourceSelection
| CopilotBudgetConfiguration
| CopilotEnterpriseLogin
| MenuBarMetricSelection
| RegionalCredentialPageAction
| ProviderOwnedFileAction
| MultiAccountLifecycle.
#[global] Instance eq_dec : EqDecision t.
Proof. solve_decision. Defined.
Definition as_str (x : t) : str :=
  match x with
  | ConfigurableCostLedger => lit "configurable-cost-ledger"
  | ConfigurableHistoryTracking => lit "configurable-history-tracking"
  | DisplayFiltering => lit "display-filtering"
  | OpenAiWebExtras => lit "openai-web-extras"
  | ManagedAccountLifecycle => lit "managed-account-lifecycle"
  | DesktopWidgets => lit "desktop-widgets"
  | MacOsKeychainPolicy => lit "macos-keychain-policy"
  | ClaudeSwap => lit "claude-swap"
  | ClaudeAdminApi => lit "claude-admin-api"
  | ClaudeSourceSelection => lit "claude-source-selection"
  | ClaudeWebUsage => lit "claude-web-usage"
  | ClaudeCliUsage => lit "claude-cli-usage"
  | BrowserCookieUsage => lit "browser-cookie-usage"
  | ExplicitGrokSourceSelection => lit "explicit-grok-source-selection"
  | CopilotBudgetConfiguration => lit "copilot-budget-configuration"
  | CopilotEnterpriseLogin => lit "copilot-enterprise-login"
  | MenuBarMetricSelection => lit "menu-bar-metric-selection"
  | RegionalCredentialPageAction => lit "regional-credential-page-action"
  | ProviderOwnedFileAction => lit "provider-owned-file-action"
  | MultiAccountLifecycle => lit "multi-account-lifecycle"
  end.
End ProviderSettingsGap.

Module ProviderSettingsFeature.
Inductive t :=
| OptionalCreditsAndExtraUsage
| KeychainAccess.
#[global] Instance eq_dec : EqDecision t.
Proof. solve_decision. Defined.
Definition as_str (x : t) : str :=
  match x with
  | OptionalCreditsAndExtraUsage => lit "optional-credits-and-extra-usage"
  | KeychainAccess => lit "keychain-access"
  end.
End ProviderSettingsFeature.

Module ProviderSettingsRuntimeFact.
Inductive t :=
| ConfiguredAccountsPresent.
#[global] Instance eq_dec : EqDecision t.
Proof. solve_decision. Defined.
Definition as_str (x : t) : str :=
  match x with
  | ConfiguredAccountsPresent => lit "configured-accounts-present"
  end.
End ProviderSettingsRuntimeFact.

Module ProviderSettingsRuntimeHint.
Inductive t :=
| ResolvedSource
| ImportedBrowserSession
| ClaudeKeychainPolicy
| ClaudeSwapStatus
| CopilotBudgetStatus
| CopilotBudgetOptions.
#[global] Instance eq_dec : EqDecision t.
Proof. solve_decision. Defined.
Definition as_str (x : t) : str :=
  match x with
  | ResolvedSource => lit "resolved-source"
  | ImportedBrowserSession => lit "imported-browser-session"
  | ClaudeKeychainPolicy => lit "claude-keychain-policy"
  | ClaudeSwapStatus => lit "claude-swap-status"
  | CopilotBudgetStatus => lit "copilot-budget-status"
  | CopilotBudgetOptions => lit "copilot-budget-options"
  end.
End ProviderSettingsRuntimeHint.

Module ProviderSettingsAvailability.
Inductive t :=
| Implemented
| Unavailable (gap : ProviderSettingsGap.t).
#[global] Instance eq_dec : EqDecision t.
Proof. solve_decision. Defined.
End ProviderSettingsAvailability.

Module ProviderSettingsCondition.
Inductive t :=
| Always
| All (conditions : list t)
| Any (conditions : list t)
| Choice (setting : ProviderSettingId.t) (choice : ProviderSettingChoice.t)
| Toggle (setting : ProviderSettingId.t) (enabled : bool)
| Feature (feature : ProviderSettingsFeature.t) (enabled : bool)
| RuntimeFact (fact : ProviderSettingsRuntimeFact.t).
End ProviderSettingsCondition.

Module ProviderSettingsSection.
Inductive t :=
| MenuBar
| Connection
| Credentials
| Options.
#[global] Instance eq_dec : EqDecision t.
Proof. solve_decision. Defined.
End ProviderSettingsSection.

Module ProviderSettingsItemMetadata.
Record t := mk {
  id : ProviderSettingId.t;
  title : str;
  subtitle : str;
  section : ProviderSettingsSection.t;
  visible_when : ProviderSettingsCondition.t;
  enabled_when : ProviderSettingsCondition.t;
  availability : ProviderSettingsAvailability.t;
  runtime_hint : option ProviderSettingsRuntimeHint.t;
}.
End ProviderSettingsItemMetadata.

Module ProviderSettingsPickerOption.
Record t := mk {
  choice : ProviderSettingChoice.t;
  title : str;
  availability : ProviderSettingsAvailability.t;
}.
End ProviderSettingsPickerOption.

Module ProviderSettingsDynamicOptions.
Inductive t :=
| CopilotBudgetWindows.
#[global] Instance eq_dec : EqDecision t.
Proof. solve_decision. Defined.
End ProviderSettingsDynamicOptions.

Module ProviderSettingsPickerDescriptor.
Record t := mk {
  item : ProviderSettingsItemMetadata.t;
  options : list ProviderSettingsPickerOption.t;
  dynamic_options : option ProviderSettingsDynamicOptions.t;
  actions : list ProviderSettingsActionId.t;
}.
End ProviderSettingsPickerDescriptor.

Module ProviderSettingsToggleDescriptor.
Record t := mk {
  item : ProviderSettingsItemMetadata.t;
  actions : list ProviderSettingsActionId.t;
}.
End ProviderSettingsToggleDescriptor.

Module ProviderSettingsPlainOptionDescriptor.
Record t := mk {
  item : ProviderSettingsItemMetadata.t;
  placeholder : option str;
  actions : list ProviderSettingsActionId.t;
}.
End ProviderSettingsPlainOptionDescriptor.

Module ProviderSettingsSecretSlotDescriptor.
Record t := mk {
  item : ProviderSettingsItemMetadata.t;
  slot : ProviderSecretSlot.t;
  placeholder : option str;
  actions : list ProviderSettingsActionId.t;
}.
End ProviderSettingsSecretSlotDescriptor.

Module ProviderSettingsControlDescriptor.
Inductive t :=
| Picker (descriptor : ProviderSettingsPickerDescriptor.t)
| Toggle (descriptor : ProviderSettingsToggleDescriptor.t)
| PlainOption (descriptor : ProviderSettingsPlainOptionDescriptor.t)
| SecretSlot (descriptor : ProviderSettingsSecretSlotDescriptor.t).
End ProviderSettingsControlDescriptor.

Module ProviderSettingsActionStyle.
Inductive t :=
| Bordered
| Link.
#[global] Instance eq_dec : EqDecision t.
Proof. solve_decision. Defined.
End ProviderSettingsActionStyle.

Module ProviderSettingsActionTarget.
Inductive t :=
| Login
| AddManagedAccount
| OpenUsageDashboard
| OpenTokenFile
| RefreshProvider
| OpenRegionalCredentialPage.
#[global] Instance eq_dec : EqDecision t.
Proof. solve_decision. Defined.
End ProviderSettingsActionTarget.

Module ProviderSettingsActionDescriptor.
Record t := mk {
  id : ProviderSettingsActionId.t;
  title : str;
  style : ProviderSettingsActionStyle.t;
  section : ProviderSettingsSection.t;
  standalone : bool;
  target : ProviderSettingsActionTarget.t;
  visible_when : ProviderSettingsCondition.t;
  availability : ProviderSettingsAvailability.t;
}.
End ProviderSettingsActionDescriptor.

Module ProviderAccountCredentialKind.
Inductive t :=
| Oauth
| PersonalAccessToken
| WebSession
| AdminApiKey
| ApiKey
| GrokBearer.
#[global] Instance eq_dec : EqDecision t.
Proof. solve_decision. Defined.
End ProviderAccountCredentialKind.

Module ProviderAccountFieldMode.
Inductive t :=
| Hidden
| Optional
| RequiredInTeamMode.
#[global] Instance eq_dec : EqDecision t.
Proof. solve_decision. Defined.
End ProviderAccountFieldMode.

Module ProviderAccountSupportDescriptor.
Record t := mk {
  title : str;
  subtitle : str;
  placeholder : str;
  credential_kinds : list ProviderAccountCredentialKind.t;
  organization_field : ProviderAccountFieldMode.t;
  workspace_field : ProviderAccountFieldMode.t;
  requires_manual_cookie_source : bool;
  primary_action : option ProviderSettingsActionId.t;
  token_file_action : option ProviderSettingsActionId.t;
  visible_when : ProviderSettingsCondition.t;
  availability : ProviderSettingsAvailability.t;
}.
End ProviderAccountSupportDescriptor.

Module ProviderSettingsDescriptor.
Record t := mk {
  schema_version : Z;
  provider : ProviderId;
  controls : list ProviderSettingsControlDescriptor.t;
  actions : list ProviderSettingsActionDescriptor.t;
  accounts : option ProviderAccountSupportDescriptor.t;
}.
End ProviderSettingsDescriptor.

Definition is_implemented (self : ProviderSettingsAvailability.t) : bool :=
  match self with ProviderSettingsAvailability.Implemented => true | _ => false end.
Definition item (self : ProviderSettingsControlDescriptor.t) : ProviderSettingsItemMetadata.t :=
  match self with
  | ProviderSettingsControlDescriptor.Picker descriptor => ProviderSettingsPickerDescriptor.item descriptor
  | ProviderSettingsControlDescriptor.Toggle descriptor => ProviderSettingsToggleDescriptor.item descriptor
  | ProviderSettingsControlDescriptor.PlainOption descriptor => ProviderSettingsPlainOptionDescriptor.item descriptor
  | ProviderSettingsControlDescriptor.SecretSlot descriptor => ProviderSettingsSecretSlotDescriptor.item descriptor
  end.
Definition control_is_implemented (self : ProviderSettingsControlDescriptor.t) : bool :=
  is_implemented (ProviderSettingsItemMetadata.availability (item self)).
Definition control (self : ProviderSettingsDescriptor.t) (id : ProviderSettingId.t) :
    option ProviderSettingsControlDescriptor.t :=
  find (λ control, bool_decide (ProviderSettingsItemMetadata.id (item control) = id))
    (ProviderSettingsDescriptor.controls self).
Definition action (self : ProviderSettingsDescriptor.t) (id : ProviderSettingsActionId.t) :
    option ProviderSettingsActionDescriptor.t :=
  find (λ action, bool_decide (ProviderSettingsActionDescriptor.id action = id))
    (ProviderSettingsDescriptor.actions self).
Definition unavailable (gap : ProviderSettingsGap.t) : ProviderSettingsAvailability.t :=
  ProviderSettingsAvailability.Unavailable gap.

Definition IMPLEMENTED : ProviderSettingsAvailability.t := ProviderSettingsAvailability.Implemented.
Definition ALWAYS : ProviderSettingsCondition.t := ProviderSettingsCondition.Always.
Definition NO_ACTIONS : list ProviderSettingsActionId.t := [].
(** [item] and [option] of the source: the constructors of the two records. *)
Notation item_ := ProviderSettingsItemMetadata.mk (only parsing).
Notation option_ := ProviderSettingsPickerOption.mk (only parsing).
Definition CODEX_WEB_EXTRAS_ON : ProviderSettingsCondition.t :=
  ProviderSettingsCondition.Toggle ProviderSettingId.CodexOpenAiWebExtras true.
Definition CODEX_COOKIE_MANUAL : ProviderSettingsCondition.t :=
  ProviderSettingsCondition.Choice ProviderSettingId.CodexCookieSource ProviderSettingChoice.Manual.
Definition OPTIONAL_EXTRAS_ON : ProviderSettingsCondition.t :=
  ProviderSettingsCondition.Feature ProviderSettingsFeature.OptionalCreditsAndExtraUsage true.
Definition CODEX_USAGE_OPTIONS : list ProviderSettingsPickerOption.t :=
  [option_ ProviderSettingChoice.Auto (lit "Auto") IMPLEMENTED;
   option_ ProviderSettingChoice.Pat (lit "PAT") IMPLEMENTED;
   option_ ProviderSettingChoice.Oauth (lit "OAuth API") IMPLEMENTED;
   option_ ProviderSettingChoice.Cli (lit "CLI (RPC/PTY)") IMPLEMENTED].
Definition CODEX_WEB_UNAVAILABLE : ProviderSettingsAvailability.t := unavailable ProviderSettingsGap.OpenAiWebExtras.
Definition CODEX_COOKIE_OPTIONS : list ProviderSettingsPickerOption.t :=
  [option_ ProviderSettingChoice.Auto (lit "Auto") CODEX_WEB_UNAVAILABLE;
   option_ ProviderSettingChoice.Manual (lit "Manual") CODEX_WEB_UNAVAILABLE;
   option_ ProviderSettingChoice.Off (lit "Off") CODEX_WEB_UNAVAILABLE].
Definition CODEX_CONTROLS : list ProviderSettingsControlDescriptor.t :=
  [ProviderSettingsControlDescriptor.Toggle
     (ProviderSettingsToggleDescriptor.mk
       (item_ ProviderSettingId.CodexLocalSessionCostLedger (lit "Use this machine's Codex history")
         (lit "Shows native Codex activity beside every account's quota. When off, managed accounts keep their own local history. Costs use bundled estimates; models without prices still show tokens.")
         ProviderSettingsSection.Options ALWAYS ALWAYS IMPLEMENTED None) NO_ACTIONS);
   ProviderSettingsControlDescriptor.Toggle
     (ProviderSettingsToggleDescriptor.mk
       (item_ ProviderSettingId.CodexHistoricalTracking (lit "Historical tracking")
         (lit "Stores local Codex usage history to personalize pace predictions.")
         ProviderSettingsSection.Options ALWAYS ALWAYS
         (unavailable ProviderSettingsGap.ConfigurableHistoryTracking) None) NO_ACTIONS);
   ProviderSettingsControlDescriptor.Toggle
     (ProviderSettingsToggleDescriptor.mk
       (item_ ProviderSettingId.CodexSparkUsageVisible (lit "Show Codex Spark usage")
         (lit "Shows Codex Spark quota rows in the menu and provider preview. Does not change quota collection or your Codex CLI account.")
         ProviderSettingsSection.Options ALWAYS ALWAYS IMPLEMENTED None) NO_ACTIONS);
   ProviderSettingsControlDescriptor.Toggle
     (ProviderSettingsToggleDescriptor.mk
       (item_ ProviderSettingId.CodexOpenAiWebExtras (lit "OpenAI web extras")
         (lit "Optional. Turn this on to show code review, usage breakdown, and credits history through chatgpt.com.")
         ProviderSettingsSection.Options ALWAYS ALWAYS CODEX_WEB_UNAVAILABLE None) NO_ACTIONS);
   ProviderSettingsControlDescriptor.Toggle
     (ProviderSettingsToggleDescriptor.mk
       (item_ ProviderSettingId.CodexExternalOauthSources (lit "External Codex OAuth sources")
         (lit "Explicitly allow read-only fallback to legacy Codex and OpenCode OAuth files. Omarchy AI Bar never refreshes or writes those external credentials.")
         ProviderSettingsSection.Options ALWAYS ALWAYS IMPLEMENTED None) NO_ACTIONS);
   ProviderSettingsControlDescriptor.Toggle
     (ProviderSettingsToggleDescriptor.mk
       (item_ ProviderSettingId.CodexOpenAiWebBatterySaver (lit "OpenAI web battery saver")
         (lit "Limits background chatgpt.com refreshes to reduce battery and network usage. Dashboard extras may stay stale until manually refreshed.")
         ProviderSettingsSection.Options CODEX_WEB_EXTRAS_ON ALWAYS CODEX_WEB_UNAVAILABLE None)
       NO_ACTIONS);
   ProviderSettingsControlDescriptor.Picker
     (ProviderSettingsPickerDescriptor.mk
       (item_ ProviderSettingId.CodexUsageSource (lit "Quota usage source")
         (lit "Controls live session and weekly quota fetching only. Local session cost estimates work independently.")
         ProviderSettingsSection.Connection ALWAYS ALWAYS IMPLEMENTED
         (Some ProviderSettingsRuntimeHint.ResolvedSource)) CODEX_USAGE_OPTIONS None
       NO_ACTIONS);
   ProviderSettingsControlDescriptor.Picker
     (ProviderSettingsPickerDescriptor.mk
       (item_ ProviderSettingId.CodexCookieSource (lit "OpenAI cookies")
         (lit "Automatic imports browser cookies for dashboard extras.")
         ProviderSettingsSection.Connection CODEX_WEB_EXTRAS_ON ALWAYS CODEX_WEB_UNAVAILABLE
         (Some ProviderSettingsRuntimeHint.ImportedBrowserSession)) CODEX_COOKIE_OPTIONS None
       NO_ACTIONS);
   ProviderSettingsControlDescriptor.SecretSlot
     (ProviderSettingsSecretSlotDescriptor.mk
       (item_ ProviderSettingId.CodexCookieHeader [] [] ProviderSettingsSection.Credentials
         CODEX_COOKIE_MANUAL ALWAYS CODEX_WEB_UNAVAILABLE None)
       ProviderSecretSlot.CodexWebCookie (Some (lit "Cookie: " ++ [8230])) NO_ACTIONS)].
Definition CODEX_ACTIONS : list ProviderSettingsActionDescriptor.t :=
  [ProviderSettingsActionDescriptor.mk ProviderSettingsActionId.AddCodexAccount (lit "Add Account")
     ProviderSettingsActionStyle.Bordered ProviderSettingsSection.Connection false
     ProviderSettingsActionTarget.AddManagedAccount ALWAYS IMPLEMENTED].
Definition CODEX_ACCOUNT_CREDENTIALS : list ProviderAccountCredentialKind.t := [ProviderAccountCredentialKind.Oauth].
Definition CODEX_ACCOUNTS : ProviderAccountSupportDescriptor.t :=
  ProviderAccountSupportDescriptor.mk (lit "Codex accounts")
    (lit "Add and switch application-managed Codex OAuth accounts.")
    (lit "Sign in with Codex OAuth" ++ [8230]) CODEX_ACCOUNT_CREDENTIALS
    ProviderAccountFieldMode.Hidden ProviderAccountFieldMode.Hidden false
    (Some ProviderSettingsActionId.AddCodexAccount) None ALWAYS IMPLEMENTED.
Definition CODEX_SETTINGS : ProviderSettingsDescriptor.t :=
  ProviderSettingsDescriptor.mk 1 ProviderId.Codex CODEX_CONTROLS CODEX_ACTIONS (Some CODEX_ACCOUNTS).
Definition KEYCHAIN_ACCESS_ON : ProviderSettingsCondition.t :=
  ProviderSettingsCondition.Feature ProviderSettingsFeature.KeychainAccess true.
Definition CLAUDE_SWAP_ON : ProviderSettingsCondition.t :=
  ProviderSettingsCondition.Toggle ProviderSettingId.ClaudeSwapAccounts true.
Definition CLAUDE_COOKIE_MANUAL : ProviderSettingsCondition.t :=
  ProviderSettingsCondition.Choice ProviderSettingId.ClaudeCookieSource ProviderSettingChoice.Manual.
Definition CLAUDE_ACCOUNT_VISIBILITY_OPERANDS : list ProviderSettingsCondition.t :=
  [ProviderSettingsCondition.RuntimeFact ProviderSettingsRuntimeFact.ConfiguredAccountsPresent;
   CLAUDE_COOKIE_MANUAL].
Definition CLAUDE_ACCOUNTS_VISIBLE : ProviderSettingsCondition.t :=
  ProviderSettingsCondition.Any CLAUDE_ACCOUNT_VISIBILITY_OPERANDS.
Definition CLAUDE_USAGE_OPTIONS : list ProviderSettingsPickerOption.t :=
  [option_ ProviderSettingChoice.Auto (lit "Auto") IMPLEMENTED;
   option_ ProviderSettingChoice.Api (lit "API (Admin key)") (unavailable ProviderSettingsGap.ClaudeAdminApi);
   option_ ProviderSettingChoice.Oauth (lit "OAuth API") IMPLEMENTED;
   option_ ProviderSettingChoice.Web (lit "Web API (cookies)") (unavailable ProviderSettingsGap.ClaudeWebUsage);
   option_ ProviderSettingChoice.Cli (lit "CLI") IMPLEMENTED].
Definition CLAUDE_KEYCHAIN_OPTIONS : list ProviderSettingsPickerOption.t :=
  [option_ ProviderSettingChoice.Never (lit "Never prompt") (unavailable ProviderSettingsGap.MacOsKeychainPolicy);
   option_ ProviderSettingChoice.OnlyOnUserAction (lit "Only on user action")
     (unavailable ProviderSettingsGap.MacOsKeychainPolicy);
   option_ ProviderSettingChoice.Always (lit "Always allow prompts")
     (unavailable ProviderSettingsGap.MacOsKeychainPolicy)].
Definition CLAUDE_COOKIE_OPTIONS : list ProviderSettingsPickerOption.t :=
  [option_ ProviderSettingChoice.Auto (lit "Auto") (unavailable ProviderSettingsGap.ClaudeWebUsage);
   option_ ProviderSettingChoice.Manual (lit "Manual") (unavailable ProviderSettingsGap.ClaudeWebUsage)].
Definition CLAUDE_CONTROLS : list ProviderSettingsControlDescriptor.t :=
  [ProviderSettingsControlDescriptor.Toggle
     (ProviderSettingsToggleDescriptor.mk
       (item_ ProviderSettingId.ClaudeModelScopedWeeklyUsageVisible
         (lit "Show model-specific weekly usage in widgets")
         (lit "Shows model-specific Claude quotas, such as Fable, in desktop widgets.")
         ProviderSettingsSection.Options ALWAYS ALWAYS
         (unavailable ProviderSettingsGap.DesktopWidgets) None) NO_ACTIONS);
   ProviderSettingsControlDescriptor.Toggle
     (ProviderSettingsToggleDescriptor.mk
       (item_ ProviderSettingId.ClaudeDailyRoutinesUsageVisible (lit "Show Daily Routines usage")
         (lit "Shows the Daily Routines quota row in the menu and provider preview. Requires optional credits and extra usage in Display settings.")
         ProviderSettingsSection.Options ALWAYS OPTIONAL_EXTRAS_ON IMPLEMENTED None)
       NO_ACTIONS);
   ProviderSettingsControlDescriptor.Toggle
     (ProviderSettingsToggleDescriptor.mk
       (item_ ProviderSettingId.ClaudeOauthDirectKeychainRead (lit "Allow reading Claude Code's credentials")
         (lit "Reads Claude Code's Keychain item for OAuth usage; macOS may ask for permission. This policy is not applicable to the Linux credential-file reader.")
         ProviderSettingsSection.Options ALWAYS KEYCHAIN_ACCESS_ON
         (unavailable ProviderSettingsGap.MacOsKeychainPolicy) None) NO_ACTIONS);
   ProviderSettingsControlDescriptor.Toggle
     (ProviderSettingsToggleDescriptor.mk
       (item_ ProviderSettingId.ClaudeOauthPromptFreeCredentials (lit "Avoid Keychain prompts")
         (lit "Never allow Claude OAuth credential reads to show macOS Keychain prompts.")
         ProviderSettingsSection.Options ALWAYS KEYCHAIN_ACCESS_ON
         (unavailable ProviderSettingsGap.MacOsKeychainPolicy) None) NO_ACTIONS);
   ProviderSettingsControlDescriptor.Toggle
     (ProviderSettingsToggleDescriptor.mk
       (item_ ProviderSettingId.ClaudeSwapAccounts (lit "Read accounts from claude-swap")
         (lit "Shows usage and lets you switch accounts through `cswap`. Credentials stay managed by claude-swap; Omarchy AI Bar never reads them.")
         ProviderSettingsSection.Options ALWAYS ALWAYS (unavailable ProviderSettingsGap.ClaudeSwap)
         (Some ProviderSettingsRuntimeHint.ClaudeSwapStatus)) NO_ACTIONS);
   ProviderSettingsControlDescriptor.Toggle
     (ProviderSettingsToggleDescriptor.mk
       (item_ ProviderSettingId.ClaudeSwapShowSingleAccount
         (lit "Show account card when only one account is available")
         (lit "Prefer claude-swap over the ambient Claude account presentation.")
         ProviderSettingsSection.Options CLAUDE_SWAP_ON ALWAYS
         (unavailable ProviderSettingsGap.ClaudeSwap) None) NO_ACTIONS);
   ProviderSettingsControlDescriptor.Picker
     (ProviderSettingsPickerDescriptor.mk
       (item_ ProviderSettingId.ClaudeUsageSource (lit "Usage source")
         (lit "Auto falls back to the next source if the preferred one fails.")
         ProviderSettingsSection.Connection ALWAYS ALWAYS IMPLEMENTED
         (Some ProviderSettingsRuntimeHint.ResolvedSource)) CLAUDE_USAGE_OPTIONS None
       NO_ACTIONS);
   ProviderSettingsControlDescriptor.Picker
     (ProviderSettingsPickerDescriptor.mk
       (item_ ProviderSettingId.ClaudeKeychainPromptPolicy (lit "Keychain prompt policy")
         (lit "Controls when Claude OAuth may ask macOS for Keychain access.")
         ProviderSettingsSection.Connection ALWAYS KEYCHAIN_ACCESS_ON
         (unavailable ProviderSettingsGap.MacOsKeychainPolicy)
         (Some ProviderSettingsRuntimeHint.ClaudeKeychainPolicy)) CLAUDE_KEYCHAIN_OPTIONS None
       NO_ACTIONS);
   ProviderSettingsControlDescriptor.Picker
     (ProviderSettingsPickerDescriptor.mk
       (item_ ProviderSettingId.ClaudeCookieSource (lit "Claude cookies")
         (lit "Automatic imports browser cookies for the web API.")
         ProviderSettingsSection.Connection ALWAYS ALWAYS
         (unavailable ProviderSettingsGap.ClaudeWebUsage)
         (Some ProviderSettingsRuntimeHint.ImportedBrowserSession)) CLAUDE_COOKIE_OPTIONS None
       NO_ACTIONS);
   ProviderSettingsControlDescriptor.SecretSlot
     (ProviderSettingsSecretSlotDescriptor.mk
       (item_ ProviderSettingId.ClaudeAdminApiKey (lit "Admin API key")
         (lit "Requires an Anthropic Admin API key.") ProviderSettingsSection.Credentials ALWAYS
         ALWAYS (unavailable ProviderSettingsGap.ClaudeAdminApi) None)
       ProviderSecretSlot.ClaudeAdminApiKey (Some (lit "sk-ant-admin...")) NO_ACTIONS);
   ProviderSettingsControlDescriptor.PlainOption
     (ProviderSettingsPlainOptionDescriptor.mk
       (item_ ProviderSettingId.ClaudeSwapExecutablePath (lit "claude-swap executable")
         (lit "Path to the cswap executable (github.com/realiti4/claude-swap).")
         ProviderSettingsSection.Credentials CLAUDE_SWAP_ON ALWAYS
         (unavailable ProviderSettingsGap.ClaudeSwap) None) (Some (lit "~/.local/bin/cswap"))
       NO_ACTIONS)].
Definition CLAUDE_ACTIONS : list ProviderSettingsActionDescriptor.t := [].
Definition CLAUDE_ACCOUNT_CREDENTIALS : list ProviderAccountCredentialKind.t :=
  [ProviderAccountCredentialKind.WebSession;
   ProviderAccountCredentialKind.Oauth;
   ProviderAccountCredentialKind.AdminApiKey].
Definition CLAUDE_ACCOUNTS : ProviderAccountSupportDescriptor.t :=
  ProviderAccountSupportDescriptor.mk (lit "Claude credentials")
    (lit "Store Claude sessionKey cookies, OAuth tokens, or Anthropic Admin API keys.")
    (lit "Paste sessionKey, OAuth token, or sk-ant-admin" ++ [8230]) CLAUDE_ACCOUNT_CREDENTIALS
    ProviderAccountFieldMode.Optional ProviderAccountFieldMode.Hidden true None None
    CLAUDE_ACCOUNTS_VISIBLE (unavailable ProviderSettingsGap.MultiAccountLifecycle).
Definition CLAUDE_SETTINGS : ProviderSettingsDescriptor.t :=
  ProviderSettingsDescriptor.mk 1 ProviderId.Claude CLAUDE_CONTROLS CLAUDE_ACTIONS (Some CLAUDE_ACCOUNTS).
Definition GROK_SOURCE_AUTO : ProviderSettingsCondition.t :=
  ProviderSettingsCondition.Choice ProviderSettingId.GrokUsageSource ProviderSettingChoice.Auto.
Definition GROK_SOURCE_WEB : ProviderSettingsCondition.t :=
  ProviderSettingsCondition.Choice ProviderSettingId.GrokUsageSource ProviderSettingChoice.Web.
Definition GROK_COOKIE_SOURCE_VISIBILITY_OPERANDS : list ProviderSettingsCondition.t :=
  [GROK_SOURCE_AUTO; GROK_SOURCE_WEB].
Definition GROK_COOKIE_SOURCE_VISIBLE : ProviderSettingsCondition.t :=
  ProviderSettingsCondition.Any GROK_COOKIE_SOURCE_VISIBILITY_OPERANDS.
Definition GROK_COOKIE_MANUAL : ProviderSettingsCondition.t :=
  ProviderSettingsCondition.Choice ProviderSettingId.GrokCookieSource ProviderSettingChoice.Manual.
Definition GROK_COOKIE_HEADER_VISIBILITY_OPERANDS : list ProviderSettingsCondition.t :=
  [GROK_COOKIE_SOURCE_VISIBLE; GROK_COOKIE_MANUAL].
Definition GROK_COOKIE_HEADER_VISIBLE : ProviderSettingsCondition.t :=
  ProviderSettingsCondition.All GROK_COOKIE_HEADER_VISIBILITY_OPERANDS.
Definition GROK_USAGE_OPTIONS : list ProviderSettingsPickerOption.t :=
  [option_ ProviderSettingChoice.Auto (lit "Auto") IMPLEMENTED;
   option_ ProviderSettingChoice.Cli (lit "Grok CLI") IMPLEMENTED;
   option_ ProviderSettingChoice.Oauth (lit "SuperGrok OAuth") IMPLEMENTED;
   option_ ProviderSettingChoice.Web (lit "Browser cookies") IMPLEMENTED].
Definition GROK_COOKIE_OPTIONS : list ProviderSettingsPickerOption.t :=
  [option_ ProviderSettingChoice.Auto (lit "Auto") IMPLEMENTED;
   option_ ProviderSettingChoice.Manual (lit "Manual") IMPLEMENTED;
   option_ ProviderSettingChoice.Off (lit "Off") IMPLEMENTED].
Definition GROK_OPEN_USAGE_ACTION : list ProviderSettingsActionId.t := [ProviderSettingsActionId.OpenGrokUsage].
Definition GROK_CONTROLS : list ProviderSettingsControlDescriptor.t :=
  [ProviderSettingsControlDescriptor.Picker
     (ProviderSettingsPickerDescriptor.mk
       (item_ ProviderSettingId.GrokUsageSource (lit "Usage source")
         (lit "Auto tries the Grok CLI, read-only SuperGrok OAuth billing proxy, then an enabled manual or isolated Linux browser session. Bearer gRPC enrichment remains disabled.")
         ProviderSettingsSection.Connection ALWAYS ALWAYS IMPLEMENTED
         (Some ProviderSettingsRuntimeHint.ResolvedSource)) GROK_USAGE_OPTIONS None NO_ACTIONS);
   ProviderSettingsControlDescriptor.Picker
     (ProviderSettingsPickerDescriptor.mk
       (item_ ProviderSettingId.GrokCookieSource (lit "Cookie source")
         (lit "Automatic imports isolated grok.com sessions from supported Linux browser profiles.")
         ProviderSettingsSection.Connection GROK_COOKIE_SOURCE_VISIBLE ALWAYS IMPLEMENTED
         (Some ProviderSettingsRuntimeHint.ImportedBrowserSession)) GROK_COOKIE_OPTIONS None
       NO_ACTIONS);
   ProviderSettingsControlDescriptor.SecretSlot
     (ProviderSettingsSecretSlotDescriptor.mk
       (item_ ProviderSettingId.GrokCookieHeader [] [] ProviderSettingsSection.Credentials
         GROK_COOKIE_HEADER_VISIBLE ALWAYS IMPLEMENTED None) ProviderSecretSlot.GrokWebCookie
       (Some (lit "Cookie: " ++ [8230])) GROK_OPEN_USAGE_ACTION)].
Definition GROK_ACTIONS : list ProviderSettingsActionDescriptor.t :=
  [ProviderSettingsActionDescriptor.mk ProviderSettingsActionId.OpenGrokUsage
     (lit "Open grok.com usage") ProviderSettingsActionStyle.Link ProviderSettingsSection.Credentials
     false ProviderSettingsActionTarget.OpenUsageDashboard ALWAYS IMPLEMENTED;
   ProviderSettingsActionDescriptor.mk ProviderSettingsActionId.OpenGrokTokenFile
     (lit "Open token file") ProviderSettingsActionStyle.Link ProviderSettingsSection.Credentials
     false ProviderSettingsActionTarget.OpenTokenFile ALWAYS IMPLEMENTED].
Definition GROK_ACCOUNT_CREDENTIALS : list ProviderAccountCredentialKind.t :=
  [ProviderAccountCredentialKind.GrokBearer;
   ProviderAccountCredentialKind.WebSession].
Definition GROK_ACCOUNTS : ProviderAccountSupportDescriptor.t :=
  ProviderAccountSupportDescriptor.mk (lit "SuperGrok tokens")
    (lit "Paste a SuperGrok bearer or grok.com cookie.")
    (lit "Bearer " ++ [8230] ++ lit " or Cookie: " ++ [8230]) GROK_ACCOUNT_CREDENTIALS
    ProviderAccountFieldMode.Hidden ProviderAccountFieldMode.Hidden false None
    (Some ProviderSettingsActionId.OpenGrokTokenFile) ALWAYS
    (unavailable ProviderSettingsGap.MultiAccountLifecycle).
Definition GROK_SETTINGS : ProviderSettingsDescriptor.t :=
  ProviderSettingsDescriptor.mk 1 ProviderId.Grok GROK_CONTROLS GROK_ACTIONS (Some GROK_ACCOUNTS).
Definition COPILOT_BUDGET_EXTRAS_ON : ProviderSettingsCondition.t :=
  ProviderSettingsCondition.Toggle ProviderSettingId.CopilotBudgetExtras true.
Definition COPILOT_BUDGET_COOKIE_MANUAL : ProviderSettingsCondition.t :=
  ProviderSettingsCondition.Choice ProviderSettingId.CopilotBudgetCookieSource ProviderSettingChoice.Manual.
Definition COPILOT_BUDGET_COOKIE_VISIBILITY_OPERANDS : list ProviderSettingsCondition.t :=
  [COPILOT_BUDGET_EXTRAS_ON; COPILOT_BUDGET_COOKIE_MANUAL].
Definition COPILOT_BUDGET_COOKIE_VISIBLE : ProviderSettingsCondition.t :=
  ProviderSettingsCondition.All COPILOT_BUDGET_COOKIE_VISIBILITY_OPERANDS.
Definition COPILOT_AUTO_BUDGET_UNAVAILABLE : ProviderSettingsAvailability.t :=
  unavailable ProviderSettingsGap.CopilotBudgetConfiguration.
Definition COPILOT_SECONDARY_OPTIONS : list ProviderSettingsPickerOption.t :=
  [option_ ProviderSettingChoice.Chat (lit "Chat") (unavailable ProviderSettingsGap.MenuBarMetricSelection)].
Definition COPILOT_COOKIE_OPTIONS : list ProviderSettingsPickerOption.t :=
  [option_ ProviderSettingChoice.Auto (lit "Auto") COPILOT_AUTO_BUDGET_UNAVAILABLE;
   option_ ProviderSettingChoice.Manual (lit "Manual") IMPLEMENTED].
Definition COPILOT_REFRESH_BUDGET_ACTION : list ProviderSettingsActionId.t :=
  [ProviderSettingsActionId.RefreshCopilotBudgets].
Definition COPILOT_CONTROLS : list ProviderSettingsControlDescriptor.t :=
  [ProviderSettingsControlDescriptor.Toggle
     (ProviderSettingsToggleDescriptor.mk
       (item_ ProviderSettingId.CopilotBudgetExtras (lit "Budget extras")
         (lit "Optional. Turn this on to fetch configured GitHub Copilot budget limits and show them as extra bars.")
         ProviderSettingsSection.Options ALWAYS ALWAYS IMPLEMENTED
         (Some ProviderSettingsRuntimeHint.CopilotBudgetStatus)) NO_ACTIONS);
   ProviderSettingsControlDescriptor.Picker
     (ProviderSettingsPickerDescriptor.mk
       (item_ ProviderSettingId.CopilotIconSecondaryWindow (lit "Menu bar secondary metric")
         (lit "Choose the second meter shown in the menu bar icon.") ProviderSettingsSection.MenuBar
         COPILOT_BUDGET_EXTRAS_ON ALWAYS (unavailable ProviderSettingsGap.MenuBarMetricSelection)
         (Some ProviderSettingsRuntimeHint.CopilotBudgetOptions)) COPILOT_SECONDARY_OPTIONS
       (Some ProviderSettingsDynamicOptions.CopilotBudgetWindows) NO_ACTIONS);
   ProviderSettingsControlDescriptor.Picker
     (ProviderSettingsPickerDescriptor.mk
       (item_ ProviderSettingId.CopilotBudgetCookieSource (lit "GitHub cookies")
         (lit "Use a manually stored GitHub Cookie header for optional budget extras.")
         ProviderSettingsSection.Connection COPILOT_BUDGET_EXTRAS_ON ALWAYS IMPLEMENTED
         (Some ProviderSettingsRuntimeHint.ImportedBrowserSession)) COPILOT_COOKIE_OPTIONS
       None NO_ACTIONS);
   ProviderSettingsControlDescriptor.SecretSlot
     (ProviderSettingsSecretSlotDescriptor.mk
       (item_ ProviderSettingId.CopilotBudgetCookieHeader (lit "Manual GitHub Cookie header")
         (lit "Paste a github.com Cookie header. Treat this value like a password.")
         ProviderSettingsSection.Credentials COPILOT_BUDGET_COOKIE_VISIBLE ALWAYS IMPLEMENTED None)
       ProviderSecretSlot.CopilotBudgetCookie (Some (lit "Cookie: ..."))
       COPILOT_REFRESH_BUDGET_ACTION);
   ProviderSettingsControlDescriptor.PlainOption
     (ProviderSettingsPlainOptionDescriptor.mk
       (item_ ProviderSettingId.CopilotEnterpriseHost (lit "Enterprise host")
         (lit "Optional. Enter your GitHub Enterprise host, for example octocorp.ghe.com. Leave blank for github.com.")
         ProviderSettingsSection.Credentials ALWAYS ALWAYS IMPLEMENTED None)
       (Some (lit "github.com")) NO_ACTIONS)].
Definition COPILOT_ACTIONS : list ProviderSettingsActionDescriptor.t :=
  [ProviderSettingsActionDescriptor.mk ProviderSettingsActionId.RefreshCopilotBudgets
     (lit "Refresh budgets") ProviderSettingsActionStyle.Bordered ProviderSettingsSection.Credentials
     false ProviderSettingsActionTarget.RefreshProvider ALWAYS IMPLEMENTED;
   ProviderSettingsActionDescriptor.mk ProviderSettingsActionId.AddCopilotAccount (lit "GitHub Login")
     ProviderSettingsActionStyle.Bordered ProviderSettingsSection.Connection true
     ProviderSettingsActionTarget.Login ALWAYS IMPLEMENTED].
Definition COPILOT_ACCOUNT_CREDENTIALS : list ProviderAccountCredentialKind.t := [ProviderAccountCredentialKind.Oauth].
Definition COPILOT_ACCOUNTS : ProviderAccountSupportDescriptor.t :=
  ProviderAccountSupportDescriptor.mk (lit "GitHub accounts")
    (lit "Sign in with multiple GitHub accounts via OAuth.") (lit "Paste GitHub token" ++ [8230])
    COPILOT_ACCOUNT_CREDENTIALS ProviderAccountFieldMode.Hidden ProviderAccountFieldMode.Hidden false
    (Some ProviderSettingsActionId.AddCopilotAccount) None ALWAYS
    (unavailable ProviderSettingsGap.MultiAccountLifecycle).
Definition COPILOT_SETTINGS : ProviderSettingsDescriptor.t :=
  ProviderSettingsDescriptor.mk 1 ProviderId.Copilot COPILOT_CONTROLS COPILOT_ACTIONS (Some COPILOT_ACCOUNTS).
Definition ZAI_REGION_OPTIONS : list ProviderSettingsPickerOption.t :=
  [option_ ProviderSettingChoice.Global (lit "Global (api.z.ai)") IMPLEMENTED;
   option_ ProviderSettingChoice.BigModelCn (lit "BigModel CN (open.bigmodel.cn)") IMPLEMENTED].
Definition ZAI_OPEN_KEYS_ACTION : list ProviderSettingsActionId.t := [ProviderSettingsActionId.OpenZaiApiKeys].
Definition ZAI_CONTROLS : list ProviderSettingsControlDescriptor.t :=
  [ProviderSettingsControlDescriptor.Picker
     (ProviderSettingsPickerDescriptor.mk
       (item_ ProviderSettingId.ZaiApiRegion (lit "API region")
         (lit "Global uses api.z.ai. China mainland uses open.bigmodel.cn with a BigModel/GLM key; the two key families are not interchangeable.")
         ProviderSettingsSection.Connection ALWAYS ALWAYS IMPLEMENTED None) ZAI_REGION_OPTIONS
       None NO_ACTIONS);
   ProviderSettingsControlDescriptor.SecretSlot
     (ProviderSettingsSecretSlotDescriptor.mk
       (item_ ProviderSettingId.ZaiApiKey (lit "API key")
         (lit "Use a key issued for the selected region. China also supports the standard BigModel and GLM credential discovery paths.")
         ProviderSettingsSection.Credentials ALWAYS ALWAYS IMPLEMENTED None)
       ProviderSecretSlot.ZaiApiKey (Some (lit "Paste z.ai / GLM API key" ++ [8230]))
       ZAI_OPEN_KEYS_ACTION)].
Definition ZAI_ACTIONS : list ProviderSettingsActionDescriptor.t :=
  [ProviderSettingsActionDescriptor.mk ProviderSettingsActionId.OpenZaiApiKeys
     (lit "Open regional API keys") ProviderSettingsActionStyle.Link
     ProviderSettingsSection.Credentials false
     ProviderSettingsActionTarget.OpenRegionalCredentialPage ALWAYS IMPLEMENTED].
Definition ZAI_ACCOUNT_CREDENTIALS : list ProviderAccountCredentialKind.t := [ProviderAccountCredentialKind.ApiKey].
Definition ZAI_ACCOUNTS : ProviderAccountSupportDescriptor.t :=
  ProviderAccountSupportDescriptor.mk (lit "API tokens")
    (lit "Store regional z.ai or BigModel API tokens.") (lit "Paste token" ++ [8230])
    ZAI_ACCOUNT_CREDENTIALS ProviderAccountFieldMode.RequiredInTeamMode
    ProviderAccountFieldMode.RequiredInTeamMode false None None ALWAYS
    (unavailable ProviderSettingsGap.MultiAccountLifecycle).
Definition ZAI_SETTINGS : ProviderSettingsDescriptor.t :=
  ProviderSettingsDescriptor.mk 1 ProviderId.Zai ZAI_CONTROLS ZAI_ACTIONS (Some ZAI_ACCOUNTS).

(** Metadata exists for five providers. *)
Definition settings_for (provider : ProviderId) : option ProviderSettingsDescriptor.t :=
  match provider with
  | ProviderId.Codex => Some CODEX_SETTINGS
  | ProviderId.Claude => Some CLAUDE_SETTINGS
  | ProviderId.Grok => Some GROK_SETTINGS
  | ProviderId.Copilot => Some COPILOT_SETTINGS
  | ProviderId.Zai => Some ZAI_SETTINGS
  | _ => None
  end.

(** ** What a page resolves: the meaning of a condition *)

(** The state of the page: what each picker and toggle has, and the public facts. *)
Record PageState := mk_page {
  chosen : ProviderSettingId.t → option ProviderSettingChoice.t;
  toggled : ProviderSettingId.t → bool;
  feature_on : ProviderSettingsFeature.t → bool;
  fact_holds : ProviderSettingsRuntimeFact.t → bool;
}.
Fixpoint holds (page : PageState) (c : ProviderSettingsCondition.t) : bool :=
  match c with
  | ProviderSettingsCondition.Always => true
  | ProviderSettingsCondition.All conditions => forallb (holds page) conditions
  | ProviderSettingsCondition.Any conditions => existsb (holds page) conditions
  | ProviderSettingsCondition.Choice setting choice => bool_decide (chosen page setting = Some choice)
  | ProviderSettingsCondition.Toggle setting enabled => eqb (toggled page setting) enabled
  | ProviderSettingsCondition.Feature feature enabled => eqb (feature_on page feature) enabled
  | ProviderSettingsCondition.RuntimeFact fact => fact_holds page fact
  end.

Definition control_id (c : ProviderSettingsControlDescriptor.t) : ProviderSettingId.t :=
  ProviderSettingsItemMetadata.id (item c).
Definition offered (p : ProviderSettingsPickerDescriptor.t) (choice : ProviderSettingChoice.t) : option ProviderSettingsPickerOption.t :=
  find (λ o, bool_decide (ProviderSettingsPickerOption.choice o = choice)) (ProviderSettingsPickerDescriptor.options p).
(** A condition asks a picker of the same schema for a choice it offers, or a
    toggle of it for its state. *)
Fixpoint refers_within (d : ProviderSettingsDescriptor.t) (c : ProviderSettingsCondition.t) : bool :=
  match c with
  | ProviderSettingsCondition.All conditions | ProviderSettingsCondition.Any conditions => forallb (refers_within d) conditions
  | ProviderSettingsCondition.Choice setting choice =>
      match control d setting with
      | Some (ProviderSettingsControlDescriptor.Picker p) => bool_decide (is_Some (offered p choice))
      | _ => false
      end
  | ProviderSettingsCondition.Toggle setting _ =>
      match control d setting with Some (ProviderSettingsControlDescriptor.Toggle _) => true | _ => false end
  | _ => true
  end.
Definition control_actions (c : ProviderSettingsControlDescriptor.t) : list ProviderSettingsActionId.t :=
  match c with
  | ProviderSettingsControlDescriptor.Picker p => ProviderSettingsPickerDescriptor.actions p
  | ProviderSettingsControlDescriptor.Toggle t => ProviderSettingsToggleDescriptor.actions t
  | ProviderSettingsControlDescriptor.PlainOption o => ProviderSettingsPlainOptionDescriptor.actions o
  | ProviderSettingsControlDescriptor.SecretSlot s => ProviderSettingsSecretSlotDescriptor.actions s
  end.
(** Every action a control or the account editor shows. *)
Definition shown_actions (d : ProviderSettingsDescriptor.t) : list ProviderSettingsActionId.t :=
  (ProviderSettingsDescriptor.controls d ≫= control_actions) ++
  match ProviderSettingsDescriptor.accounts d with
  | Some a => option_list (ProviderAccountSupportDescriptor.primary_action a)
              ++ option_list (ProviderAccountSupportDescriptor.token_file_action a)
  | None => []
  end.
(** The conditions a page resolves for a schema. *)
Definition conditions (d : ProviderSettingsDescriptor.t) : list ProviderSettingsCondition.t :=
  (ProviderSettingsDescriptor.controls d ≫= λ c,
     [ProviderSettingsItemMetadata.visible_when (item c); ProviderSettingsItemMetadata.enabled_when (item c)])
  ++ (ProviderSettingsActionDescriptor.visible_when <$> ProviderSettingsDescriptor.actions d)
  ++ match ProviderSettingsDescriptor.accounts d with
     | Some a => [ProviderAccountSupportDescriptor.visible_when a]
     | None => []
     end.

(** A state the page can be brought to: only what is implemented was touched. *)
Definition admissible (d : ProviderSettingsDescriptor.t) (page : PageState) : Prop :=
  (∀ id c, chosen page id = Some c → ∃ p o, control d id = Some (ProviderSettingsControlDescriptor.Picker p) ∧
     is_implemented (ProviderSettingsItemMetadata.availability (ProviderSettingsPickerDescriptor.item p)) = true ∧
     offered p c = Some o ∧ is_implemented (ProviderSettingsPickerOption.availability o) = true) ∧
  (∀ id, toggled page id = true → ∃ t, control d id = Some (ProviderSettingsControlDescriptor.Toggle t) ∧
     is_implemented (ProviderSettingsItemMetadata.availability (ProviderSettingsToggleDescriptor.item t)) = true).

(** Every implemented toggle on; in every picker "manual" where that is
    implemented, and otherwise its first implemented option. *)
Definition usable (p : ProviderSettingsPickerDescriptor.t) (choice : ProviderSettingChoice.t) : bool :=
  match offered p choice with Some o => is_implemented (ProviderSettingsPickerOption.availability o) | None => false end.
Definition everything_on (d : ProviderSettingsDescriptor.t) : PageState := {|
  chosen id :=
    match control d id with
    | Some (ProviderSettingsControlDescriptor.Picker p) =>
        if is_implemented (ProviderSettingsItemMetadata.availability (ProviderSettingsPickerDescriptor.item p)) then
          find (usable p) (ProviderSettingChoice.Manual ::
            (ProviderSettingsPickerOption.choice <$> ProviderSettingsPickerDescriptor.options p))
        else None
    | _ => None
    end;
  toggled id :=
    match control d id with
    | Some (ProviderSettingsControlDescriptor.Toggle t) =>
        is_implemented (ProviderSettingsItemMetadata.availability (ProviderSettingsToggleDescriptor.item t))
    | _ => false
    end;
  feature_on _ := true;
  fact_holds _ := true;
|}.
Lemma everything_on_admissible d : admissible d (everything_on d).
Proof.
  split.
  - intros id c. unfold everything_on. cbn [chosen]. destruct (control d id) as [[p|t|o|s]|]; try done.
    destruct (is_implemented _) eqn:Hi; [|done]. intros [_ Hu]%find_some. exists p. unfold usable in Hu.
    destruct (offered p c) as [o|] eqn:Ho; [|done]. by exists o.
  - intros id. unfold everything_on. cbn [toggled]. destruct (control d id) as [[p|t|o|s]|]; try done. intros Hi. by exists t.
Qed.

(** ** The schema *)

Definition schema_closed (d : ProviderSettingsDescriptor.t) : bool :=
  bool_decide (NoDup (control_id <$> ProviderSettingsDescriptor.controls d))
  && bool_decide (NoDup (ProviderSettingsActionDescriptor.id <$> ProviderSettingsDescriptor.actions d))
  && forallb (refers_within d) (conditions d)
  && forallb (λ a, bool_decide (is_Some (action d a))) (shown_actions d).
Definition all_reachable (d : ProviderSettingsDescriptor.t) : bool :=
  forallb (λ c, negb (control_is_implemented c)
                || (holds (everything_on d) (ProviderSettingsItemMetadata.visible_when (item c))
                    && holds (everything_on d) (ProviderSettingsItemMetadata.enabled_when (item c))))
    (ProviderSettingsDescriptor.controls d).
Lemma settings_for_cases provider d : settings_for provider = Some d →
  d ∈ [CODEX_SETTINGS; CLAUDE_SETTINGS; GROK_SETTINGS; COPILOT_SETTINGS; ZAI_SETTINGS].
Proof. unfold settings_for. destruct provider; intros [= <-]; set_solver. Qed.
Lemma schemas_checked provider d : settings_for provider = Some d →
  schema_closed d = true ∧ all_reachable d = true ∧ ProviderSettingsDescriptor.provider d = provider.
Proof. unfold settings_for. destruct provider; intros [= <-]; (split; [vm_compute; reflexivity|split; vm_compute; reflexivity]). Qed.
(** Which provider's page shows a control. *)
Definition owner (id : ProviderSettingId.t) : list ProviderId :=
  ProviderSettingsDescriptor.provider <$>
  filter (λ d, is_Some (control d id)) [CODEX_SETTINGS; CLAUDE_SETTINGS; GROK_SETTINGS; COPILOT_SETTINGS; ZAI_SETTINGS].
Lemma one_owner id : (length (owner id) <= 1)%nat.
Proof. destruct id; vm_compute; lia. Qed.
Lemma as_str_inj : Inj (=) (=) ProviderSettingId.as_str.
Proof. intros i j. destruct i, j; intros E; first [reflexivity|discriminate E]. Qed.

Lemma control_found d c : NoDup (control_id <$> ProviderSettingsDescriptor.controls d) →
  c ∈ ProviderSettingsDescriptor.controls d → control d (control_id c) = Some c.
Proof.
  unfold control. generalize (ProviderSettingsDescriptor.controls d). intros l. induction l as [|x l IH]; [by intros _ ?%elem_of_nil|].
  rewrite fmap_cons. intros [Hn Hd]%NoDup_cons [->|Hin]%elem_of_cons; cbn [find].
  - by rewrite bool_decide_eq_true_2.
  - rewrite bool_decide_eq_false_2; [by apply IH|]. intros E. apply Hn. unfold control_id at 1. rewrite E. by apply list_elem_of_fmap_2.
Qed.
Lemma control_owner provider d c : settings_for provider = Some d → c ∈ ProviderSettingsDescriptor.controls d →
  provider ∈ owner (control_id c).
Proof.
  intros Hs Hc. destruct (schemas_checked provider d Hs) as (Hok & _ & <-). apply list_elem_of_fmap_2, list_elem_of_filter.
  split; [|by eapply settings_for_cases]. unfold schema_closed in Hok. rewrite !andb_true_iff, bool_decide_eq_true in Hok.
  rewrite control_found by tauto. by eexists.
Qed.

(** What a settings page can rely on: every control, action and condition names
    something of the same provider's schema, a control's public id names it among
    all providers, and whatever is announced as implemented can be made visible and
    enabled by choices that are themselves implemented. *)
Theorem settings_schema_sound provider d : settings_for provider = Some d →
  ProviderSettingsDescriptor.provider d = provider ∧
  (∀ a, a ∈ shown_actions d → is_Some (action d a)) ∧
  (∀ condition, condition ∈ conditions d → refers_within d condition = true) ∧
  (∀ c, c ∈ ProviderSettingsDescriptor.controls d →
     control d (control_id c) = Some c ∧
     (∀ p' d' c', settings_for p' = Some d' → c' ∈ ProviderSettingsDescriptor.controls d' →
        ProviderSettingId.as_str (control_id c') = ProviderSettingId.as_str (control_id c) → p' = provider ∧ c' = c) ∧
     (control_is_implemented c = true → ∃ page, admissible d page ∧
        holds page (ProviderSettingsItemMetadata.visible_when (item c)) = true ∧
        holds page (ProviderSettingsItemMetadata.enabled_when (item c)) = true)).
Proof.
  intros Hs. destruct (schemas_checked provider d Hs) as (Hok & Hr & Hp). split; [done|].
  unfold schema_closed in Hok. rewrite !andb_true_iff, !bool_decide_eq_true, !forallb_forall in Hok.
  destruct Hok as [[[Hnd _] Href] Hact]. split; [intros a Ha; eapply bool_decide_eq_true; by apply Hact, list_elem_of_In|].
  split; [intros k Hk; by apply Href, list_elem_of_In|]. intros c Hc. split; [by apply control_found|]. split.
  - intros p' d' c' Hs' Hc' E%as_str_inj. pose proof (control_owner _ _ _ Hs Hc) as H1. pose proof (control_owner _ _ _ Hs' Hc') as H2.
    rewrite E in H2. pose proof (one_owner (control_id c)) as Hl. destruct (owner (control_id c)) as [|x [|y l]]; cbn in Hl; [set_solver| |lia].
    apply list_elem_of_singleton in H1 as <-, H2 as ->. split; [done|]. assert (d' = d) as -> by congruence.
    pose proof (control_found d c' Hnd Hc') as F. rewrite E, (control_found d c Hnd Hc) in F. congruence.
  - intros Hi. exists (everything_on d). split; [apply everything_on_admissible|]. unfold all_reachable in Hr.
    rewrite forallb_forall in Hr. specialize (Hr c (proj1 (list_elem_of_In _ _) Hc)). rewrite Hi in Hr. by apply andb_true_iff in Hr.
Qed.
Lemma settings_schema_sound_witness : ProviderSettingsDescriptor.provider GROK_SETTINGS = ProviderId.Grok.
Proof. apply (settings_schema_sound ProviderId.Grok GROK_SETTINGS). reflexivity. Defined.
