(* ===== verification/Environment.v ===== *)
(** * What the adapters are given to read  (crates/app/src/credentials.rs,
      provider_config.rs, and from provider_bootstrap.rs and wiring.rs the parts
      that write and read the same names)

    The process environment, filled below what is explicit in it: first with the
    credentials of the Secret Service, then with the options of the configured
    routes.  The keyring is [Credentials.get_many]'s; a [BTreeMap] of variables is a
    [gmap]. *)
From stdpp Require Import gmap countable prelude.
From S2P Require Import Prelude Ordering Text Externals Scope Endpoint Config AtomicFile Credentials Settings.
Local Open Scope Z_scope.

Notation Environment := (gmap str str).
(** A variable that is absent or blank. *)
Definition is_blank (environment : Environment) (name : str) : bool :=
  match environment !! name with None => true | Some value => is_empty (trim value) end.

(** ** credentials.rs *)

Definition MANUAL_SESSION_PURPOSE : str := lit "manual-session".
Definition COPILOT_TOKEN_ENVIRONMENT : str := lit "COPILOT_API_TOKEN".
Definition COPILOT_BUDGET_COOKIE_ENVIRONMENT : str := lit "OMARCHY_AI_BAR_COPILOT_BUDGET_COOKIE".
Definition GROK_WEB_COOKIE_ENVIRONMENT : str := lit "OMARCHY_AI_BAR_GROK_COOKIE".
Definition COPILOT_CREDENTIAL_OWNER_ENVIRONMENT : str := lit "OMARCHY_AI_BAR_COPILOT_CREDENTIAL_OWNER".
Definition COPILOT_CREDENTIAL_OWNER_APPLICATION : str := lit "application".
Definition COPILOT_CREDENTIAL_OWNER_EXPLICIT_ENVIRONMENT : str := lit "environment".
Definition COPILOT_OAUTH_PURPOSE : str := lit "oauth-token".
Definition COPILOT_OAUTH_ACCOUNT : str := lit "ambient".

Record ManualCredential := mk_manual { manual_provider : str; manual_environment : str }.
Definition manual (provider environment : String.string) : ManualCredential := mk_manual (lit provider) (lit environment).
Arguments manual (_ _)%_string_scope.
Definition MANUAL_CREDENTIALS : list ManualCredential :=
  [manual "abacus" "OMARCHY_AI_BAR_ABACUS_COOKIE";
   manual "aiand" "AIAND_API_KEY";
   manual "alibaba" "OMARCHY_AI_BAR_ALIBABA_COOKIE";
   manual "amp" "AMP_API_KEY";
   manual "azureopenai" "AZURE_OPENAI_API_KEY";
   manual "chutes" "CHUTES_API_KEY";
   manual "clawrouter" "CLAWROUTER_API_KEY";
   manual "clinepass" "CLINEPASS_API_KEY";
   manual "codebuff" "CODEBUFF_API_KEY";
   manual "commandcode" "OMARCHY_AI_BAR_COMMANDCODE_COOKIE";
   manual "crof" "CROF_API_KEY";
   manual "cursor" "OMARCHY_AI_BAR_CURSOR_COOKIE";
   manual "deepgram" "DEEPGRAM_API_KEY";
   manual "deepinfra" "DEEPINFRA_API_KEY";
   manual "deepseek" "DEEPSEEK_API_KEY";
   manual "devin" "OMARCHY_AI_BAR_DEVIN_TOKEN";
   manual "doubao" "DOUBAO_API_KEY";
   manual "elevenlabs" "ELEVENLABS_API_KEY";
   manual "factory" "FACTORY_API_KEY";
   manual "fireworks" "FIREWORKS_API_KEY";
   manual "groq" "GROQ_API_KEY";
   manual "ibmbob" "BOBSHELL_API_KEY";
   manual "kimi" "KIMI_MANUAL_COOKIE";
   manual "kilo" "KILO_API_KEY";
   manual "litellm" "LITELLM_API_KEY";
   manual "longcat" "OMARCHY_AI_BAR_LONGCAT_COOKIE";
   manual "llmproxy" "LLM_PROXY_API_KEY";
   manual "manus" "OMARCHY_AI_BAR_MANUS_COOKIE";
   manual "mimo" "OMARCHY_AI_BAR_MIMO_COOKIE";
   manual "minimax" "MINIMAX_COOKIE";
   manual "mistral" "OMARCHY_AI_BAR_MISTRAL_COOKIE";
   manual "moonshot" "MOONSHOT_API_KEY";
   manual "neuralwatt" "NEURALWATT_API_KEY";
   manual "notion" "OMARCHY_AI_BAR_NOTION_COOKIE";
   manual "ollama" "OLLAMA_API_KEY";
   manual "openai" "OPENAI_API_KEY";
   manual "opencode" "OMARCHY_AI_BAR_OPENCODE_COOKIE";
   manual "opencodego" "OPENCODE_API_KEY";
   manual "openrouter" "OPENROUTER_API_KEY";
   manual "perplexity" "OMARCHY_AI_BAR_PERPLEXITY_COOKIE";
   manual "poe" "POE_API_KEY";
   manual "qoder" "OMARCHY_AI_BAR_QODER_COOKIE";
   manual "qwencloud" "OMARCHY_AI_BAR_QWENCLOUD_COOKIE";
   manual "sakana" "OMARCHY_AI_BAR_SAKANA_COOKIE";
   manual "stepfun" "OMARCHY_AI_BAR_STEPFUN_COOKIE";
   manual "sub2api" "SUB2API_API_KEY";
   manual "synthetic" "SYNTHETIC_API_KEY";
   manual "t3chat" "OMARCHY_AI_BAR_T3CHAT_COOKIE";
   manual "venice" "VENICE_API_KEY";
   manual "warp" "WARP_API_KEY";
   manual "xai" "XAI_MANAGEMENT_API_KEY";
   manual "zoommate" "OMARCHY_AI_BAR_ZOOMMATE_COOKIE";
   manual "zai" "Z_AI_API_KEY";
   manual "zenmux" "ZENMUX_MANAGEMENT_API_KEY"].

Definition credential_for (provider : str) : option ManualCredential :=
  find (λ entry, bool_decide (manual_provider entry = provider)) MANUAL_CREDENTIALS.
Definition copilot_oauth_key : Result SecretKeyError SecretKey :=
  secret_key_new (lit "copilot") COPILOT_OAUTH_ACCOUNT COPILOT_OAUTH_PURPOSE.

(** The slot of the default instance's ambient account. *)
Definition ambient_slot (provider : ProviderId) (name : str) : option SecretKey :=
  instance ← result_ok (ProviderInstanceId.new (lit "default"));
  account ← result_ok (AccountKey.new (lit "ambient"));
  secret_key <$> result_ok (slot_new (AccountScope.mk provider instance account) name).
Definition zai_api_key_slot : option SecretKey := ambient_slot ProviderId.Zai (lit "zai-api-key").
Definition copilot_budget_cookie_slot : option SecretKey := ambient_slot ProviderId.Copilot (lit "copilot-budget-cookie").
Definition grok_web_cookie_slot : option SecretKey := ambient_slot ProviderId.Grok (lit "grok-web-cookie").
Definition named_slot_when_environment_is_empty (environment : Environment) (environment_name : str)
    (slot : option SecretKey) : option SecretKey :=
  if is_blank environment environment_name then slot else None.
Definition valid_copilot_token (value : str) : bool :=
  let token := trim value in
  negb (is_empty token) && (str_len token <=? MAX_SECRET_BYTES)
  && negb (existsb (λ c, (c =? 13) || (c =? 10)) token).

Definition named_zai_key (environment : Environment) : option SecretKey :=
  named_slot_when_environment_is_empty environment (lit "Z_AI_API_KEY") zai_api_key_slot.
Definition named_copilot_budget_key (environment : Environment) : option SecretKey :=
  named_slot_when_environment_is_empty environment COPILOT_BUDGET_COOKIE_ENVIRONMENT copilot_budget_cookie_slot.
Definition named_grok_web_key (environment : Environment) : option SecretKey :=
  named_slot_when_environment_is_empty environment GROK_WEB_COOKIE_ENVIRONMENT grok_web_cookie_slot.
Definition manual_keys (environment : Environment) : list SecretKey :=
  omap (λ entry, result_ok (secret_key_new (manual_provider entry) (lit "ambient") MANUAL_SESSION_PURPOSE))
    (filter (λ entry, is_empty (default [] (environment !! manual_environment entry)) = true) MANUAL_CREDENTIALS).
Definition requested_keys (explicit_copilot_token : bool) (environment : Environment) : list SecretKey :=
  manual_keys environment
  ++ (if explicit_copilot_token then [] else option_list (result_ok copilot_oauth_key))
  ++ option_list (named_zai_key environment) ++ option_list (named_copilot_budget_key environment)
  ++ option_list (named_grok_web_key environment).

Section hydrate.
Context `{Utf8}.
(** One round of the loop over the answers: the variables it pushes. *)
Definition hydrated_values (environment : Environment) (answer : SecretKey * SecretValue) : list (str * str) :=
  let '(key, secret) := answer in
  match from_utf8 (expose_secret secret) with
  | None => []
  | Some value =>
      if bool_decide (provider key = lit "copilot") && bool_decide (account key = COPILOT_OAUTH_ACCOUNT)
         && bool_decide (purpose key = COPILOT_OAUTH_PURPOSE) then
        if valid_copilot_token value
        then [(COPILOT_TOKEN_ENVIRONMENT, value); (COPILOT_CREDENTIAL_OWNER_ENVIRONMENT, COPILOT_CREDENTIAL_OWNER_APPLICATION)]
        else []
      else if bool_decide (named_zai_key environment = Some key) then [(lit "Z_AI_API_KEY", value)]
      else if bool_decide (named_copilot_budget_key environment = Some key) then [(COPILOT_BUDGET_COOKIE_ENVIRONMENT, value)]
      else if bool_decide (named_grok_web_key environment = Some key) then [(GROK_WEB_COOKIE_ENVIRONMENT, value)]
      else match credential_for (provider key) with
           | None => []
           | Some entry =>
               if bool_decide (account key = lit "ambient") && bool_decide (purpose key = MANUAL_SESSION_PURPOSE)
               then [(manual_environment entry, value)] else []
           end
  end.
(** [environment.extend(values)]: a later value replaces an earlier one. *)
Definition extend (environment : Environment) (values : list (str * str)) : Environment :=
  foldl (λ environment entry, <[entry.1 := entry.2]> environment) environment values.
(** The owner marker is application-owned: never an ambient value. *)
Definition explicit_copilot_token (environment : Environment) : bool := negb (is_blank environment COPILOT_TOKEN_ENVIRONMENT).
Definition with_owner (environment : Environment) : Environment :=
  let environment := delete COPILOT_CREDENTIAL_OWNER_ENVIRONMENT environment in
  if explicit_copilot_token environment
  then <[COPILOT_CREDENTIAL_OWNER_ENVIRONMENT := COPILOT_CREDENTIAL_OWNER_EXPLICIT_ENVIRONMENT]> environment
  else environment.
(** [runtime]: whether a Tokio runtime could be built; [service]: what the Secret
    Service answers the search with, if it could be reached within the timeout. *)
Definition hydrate_environment (runtime : bool) (service : option (option (list KeyringItem))) (environment : Environment) :
    Environment :=
  let environment := with_owner environment in
  if bool_decide (environment !! lit "DBUS_SESSION_BUS_ADDRESS" = None) then environment else
  if negb runtime then environment else
  match service with
  | None => environment
  | Some search =>
      match get_many (requested_keys (explicit_copilot_token environment) environment) search with
      | Err _ => environment
      | Ok answers => extend environment (answers ≫= hydrated_values environment)
      end
  end.
End hydrate.

(** ** provider_config.rs *)

Definition endpoint_environment (provider : ProviderId) : option str :=
  match provider with
  | ProviderId.AzureOpenAi => Some (lit "AZURE_OPENAI_ENDPOINT")
  | ProviderId.Kimi => Some (lit "KIMI_CODE_BASE_URL")
  | ProviderId.Ollama => Some (lit "OLLAMA_API_URL")
  | ProviderId.Groq => Some (lit "GROQ_API_URL")
  | ProviderId.ClawRouter => Some (lit "CLAWROUTER_BASE_URL")
  | ProviderId.OpenRouter => Some (lit "OPENROUTER_API_URL")
  | ProviderId.Wayfinder => Some (lit "WAYFINDER_GATEWAY_URL")
  | ProviderId.Sub2Api => Some (lit "SUB2API_BASE_URL")
  | ProviderId.LlmProxy => Some (lit "LLM_PROXY_BASE_URL")
  | ProviderId.LiteLlm => Some (lit "LITELLM_BASE_URL")
  | ProviderId.Neuralwatt => Some (lit "NEURALWATT_API_URL")
  | ProviderId.Codebuff => Some (lit "CODEBUFF_API_URL")
  | ProviderId.Chutes => Some (lit "CHUTES_API_URL")
  | ProviderId.Deepgram => Some (lit "DEEPGRAM_API_URL")
  | _ => None
  end.
Definition supports_provider_endpoint (provider : ProviderId) : bool := bool_decide (is_Some (endpoint_environment provider)).
Definition insert_below_explicit_environment (environment : Environment) (name value : str) : Environment :=
  if is_blank environment name then <[name := value]> environment else environment.
(** [BTreeMap::get] on the ordered association list of a document. *)
Definition btree_get {V} (key : str) (l : list (str * V)) : option V :=
  snd <$> find (λ entry, bool_decide (entry.1 = key)) l.

Section routes.
Context `{JsonNumber}.
Definition cookie_source_text (s : ProviderCookieSource) : str :=
  match s with CookieAuto => lit "auto" | CookieManual => lit "manual" | CookieOff => lit "off" end.
Definition bool_text (b : bool) : str := if b then lit "true" else lit "false".
(** [for (name, value) in settings { insert_below_explicit_environment(..) }]: each
    route's settings as the list of what it inserts, in order. *)
Definition zai_settings (options : ProviderOptions) : list (str * str) :=
  (match region options with Some region => [(lit "Z_AI_REGION", region)] | None => [] end)
  ++ (match organization options with Some organization => [(lit "Z_AI_ORGANIZATION", organization)] | None => [] end)
  ++ (match project options with Some project => [(lit "Z_AI_PROJECT", project)] | None => [] end)
  ++ match btree_get (lit "usage_scope") (extensions options) with
     | Some (OptionText scope) => [(lit "Z_AI_USAGE_SCOPE", scope)]
     | _ => if bool_decide (is_Some (organization options)) && bool_decide (is_Some (project options))
            then [(lit "Z_AI_USAGE_SCOPE", lit "team")] else []
     end.
Definition endpoint_setting (route : ProviderConfig) : list (str * str) :=
  match endpoint_environment (provider_id route), trim <$> endpoint route with
  | Some name, Some endpoint => if is_empty endpoint then [] else [(name, endpoint)]
  | _, _ => []
  end.
Definition grok_source_text (s : ProviderSourceMode) : option str :=
  match s with
  | SourceAuto => Some (lit "auto") | SourceCli => Some (lit "cli")
  | SourceOauth => Some (lit "oauth") | SourceWeb => Some (lit "web")
  | _ => None
  end.
(** A source that Grok does not have ends the round ([continue]). *)
Definition grok_settings (options : ProviderOptions) : list (str * str) :=
  let cookie := match cookie_source options with
                | Some s => [(lit "OMARCHY_AI_BAR_GROK_COOKIE_SOURCE", cookie_source_text s)]
                | None => []
                end in
  match Config.source options with
  | Some s =>
      match grok_source_text s with
      | Some text => (lit "OMARCHY_AI_BAR_GROK_USAGE_SOURCE", text) :: cookie
      | None => []
      end
  | None => cookie
  end.
Definition copilot_settings (options : ProviderOptions) : list (str * str) :=
  (match enterprise_host options with Some host => [(lit "OMARCHY_AI_BAR_COPILOT_ENTERPRISE_HOST", host)] | None => [] end)
  ++ (match extras_enabled options with
      | Some enabled => [(lit "OMARCHY_AI_BAR_COPILOT_BUDGET_EXTRAS", bool_text enabled)]
      | None => []
      end)
  ++ match cookie_source options with
     | Some s => [(lit "OMARCHY_AI_BAR_COPILOT_BUDGET_COOKIE_SOURCE", cookie_source_text s)]
     | None => []
     end.
Definition is_default_instance (route : ProviderConfig) : bool :=
  bool_decide (ProviderInstanceId.as_str (instance_id route) = lit "default").
Definition route_settings (route : ProviderConfig) : list (str * str) :=
  if negb (is_default_instance route) then [] else
  endpoint_setting route ++
  match provider_id route with
  | ProviderId.Grok => grok_settings (options route)
  | ProviderId.Copilot => copilot_settings (options route)
  | ProviderId.Zai => zai_settings (options route)
  | _ => []
  end.
Definition insert_settings (environment : Environment) (settings : list (str * str)) : Environment :=
  foldl (λ environment entry, insert_below_explicit_environment environment entry.1 entry.2) environment settings.
Definition apply_provider_route_environment (config : option AppConfig) (environment : Environment) : Environment :=
  match config with
  | None => environment
  | Some config => foldl (λ environment route, insert_settings environment (route_settings route)) environment (providers config)
  end.

Definition default_route (config : option AppConfig) (provider : ProviderId) : option ProviderConfig :=
  config ← config;
  find (λ route, bool_decide (provider_id route = provider) && is_default_instance route) (providers config).
Definition provider_source (config : option AppConfig) (provider : ProviderId) : option ProviderSourceMode :=
  route ← default_route config provider; Config.source (options route).
Definition provider_toggle (config : option AppConfig) (provider : ProviderId) (key : str) : option bool :=
  route ← default_route config provider;
  value ← btree_get key (extensions (options route));
  match value with OptionBoolean value => Some value | _ => None end.

(** ** provider_bootstrap.rs *)

(** The environment [discover] gives the adapters. *)
Definition adapter_environment `{Utf8} (runtime : bool) (service : option (option (list KeyringItem)))
    (config : option AppConfig) (environment : Environment) : Environment :=
  apply_provider_route_environment config (hydrate_environment runtime service environment).

Inductive ProviderBootstrapError := Coordinator | ClaudeError | GrokError.
Inductive CodexSourceMode := CodexAuto | CodexPat | CodexOAuth | CodexCli.
Inductive ClaudeSourceMode := ClaudeAuto | ClaudeOAuth | ClaudeCli.
Inductive GrokSourceMode := GrokAuto | GrokCli | GrokOAuth | GrokWeb.
Inductive GrokCookieSource := GrokCookieAuto | GrokCookieManual | GrokCookieOff.
Definition resolve_codex_source (source : option ProviderSourceMode) : Result ProviderBootstrapError CodexSourceMode :=
  match default SourceAuto source with
  | SourceAuto => Ok CodexAuto
  | SourcePat => Ok CodexPat
  | SourceOauth | SourceApi | SourceApiKey => Ok CodexOAuth
  | SourceCli => Ok CodexCli
  | SourceWeb | SourceConfigurableEndpoint | SourceManualCookie | SourceBrowserSession | SourceLocal
  | SourceCloudCredentials => Err Coordinator
  end.
Definition resolve_claude_source (source : option ProviderSourceMode) : Result ProviderBootstrapError ClaudeSourceMode :=
  match default SourceAuto source with
  | SourceAuto => Ok ClaudeAuto
  | SourceOauth => Ok ClaudeOAuth
  | SourceCli => Ok ClaudeCli
  | _ => Err ClaudeError
  end.
Definition validate_grok_source (source : option ProviderSourceMode) : Result ProviderBootstrapError unit :=
  match source with
  | None | Some (SourceAuto | SourceCli | SourceOauth | SourceWeb) => Ok tt
  | _ => Err GrokError
  end.
Definition grok_source_mode (environment : Environment) : GrokSourceMode :=
  match environment !! lit "OMARCHY_AI_BAR_GROK_USAGE_SOURCE" with
  | Some source =>
      if bool_decide (source = lit "cli") then GrokCli
      else if bool_decide (source = lit "oauth") then GrokOAuth
      else if bool_decide (source = lit "web") then GrokWeb else GrokAuto
  | None => GrokAuto
  end.
Definition grok_cookie_source (environment : Environment) : GrokCookieSource :=
  match environment !! lit "OMARCHY_AI_BAR_GROK_COOKIE_SOURCE" with
  | Some source =>
      if bool_decide (source = lit "manual") then GrokCookieManual
      else if bool_decide (source = lit "off") then GrokCookieOff else GrokCookieAuto
  | None => GrokCookieAuto
  end.
Definition copilot_budget_extras_enabled (environment : Environment) : bool :=
  match environment !! lit "OMARCHY_AI_BAR_COPILOT_BUDGET_EXTRAS" with
  | Some value => bool_decide (value ∈ [lit "1"; lit "true"; lit "yes"; lit "on"])
  | None => false
  end.
(** Whether a provider's registrations are kept. *)
Definition provider_enabled (config : option AppConfig) (provider : ProviderId) (detected : bool) : bool :=
  match default_route config provider with Some route => enabled route | None => detected end.
End routes.

(** ** wiring.rs: where the command line stores a credential *)

Definition manual_secret_key (provider account : str) : option SecretKey :=
  credential_for provider ;;
  result_ok (secret_key_new provider account MANUAL_SESSION_PURPOSE).
Definition slot_supported (settings : ProviderSettingsDescriptor.t) (slot : str) : bool :=
  existsb (λ control, match control with
    | ProviderSettingsControlDescriptor.SecretSlot descriptor =>
        is_implemented (ProviderSettingsItemMetadata.availability (ProviderSettingsSecretSlotDescriptor.item descriptor))
        && bool_decide (ProviderSecretSlot.as_str (ProviderSettingsSecretSlotDescriptor.slot descriptor) = slot)
    | _ => false
    end) (ProviderSettingsDescriptor.controls settings).
Definition credential_secret_key (provider account : str) (slot : option str) : option SecretKey :=
  match slot with
  | None => manual_secret_key provider account
  | Some slot =>
      provider ← result_ok (ProviderId.from_str provider);
      let supported := match settings_for provider with Some settings => slot_supported settings slot | None => false end in
      if negb supported then None else
      if bool_decide (provider = ProviderId.Zai) && bool_decide (slot = lit "zai-api-key")
      then manual_secret_key (ProviderId.as_str provider) account else
      instance ← result_ok (ProviderInstanceId.new (lit "default"));
      account ← result_ok (AccountKey.new account);
      secret_key <$> result_ok (slot_new (AccountScope.mk provider instance account) slot)
  end.
