(* ===== verification/EnvironmentFacts.v ===== *)
(** * What the adapters are given to read: the guarantees

    Where each variable of the adapters' environment comes from, that nothing
    explicit is replaced, and that a credential stored on the command line is the
    one its adapter reads. *)
From stdpp Require Import gmap countable prelude.
From S2P Require Import Prelude Ordering Text Externals Scope Endpoint Config AtomicFile Credentials CredentialsSpec Settings Environment.
Local Open Scope Z_scope.

Notation OWNER := COPILOT_CREDENTIAL_OWNER_ENVIRONMENT.
Definition explicit (environment : Environment) (name : str) : Prop := is_blank environment name = false.
Lemma explicit_Some environment name : explicit environment name ↔ ∃ v, environment !! name = Some v ∧ is_empty (trim v) = false.
Proof. unfold explicit, is_blank. destruct (environment !! name); naive_solver. Qed.
Lemma is_blank_insert_ne environment name name' v : name ≠ name' → is_blank (<[name := v]> environment) name' = is_blank environment name'.
Proof. intros Hn. unfold is_blank. by rewrite lookup_insert_ne. Qed.
Lemma is_blank_lookup (e e' : Environment) name : e !! name = e' !! name → is_blank e name = is_blank e' name.
Proof. unfold is_blank. by intros ->. Qed.

(** ** Adding variables *)

Lemma extend_lookup environment values name :
  (name ∉ values.*1 ∧ extend environment values !! name = environment !! name) ∨
  ∃ v, (name, v) ∈ values ∧ extend environment values !! name = Some v.
Proof.
  revert environment. unfold extend. induction values as [|[n v] values IH]; intros environment; cbn [foldl fst snd].
  { left. split; [apply not_elem_of_nil|done]. }
  destruct (IH (<[n := v]> environment)) as [[Hn ->]|(w & Hw & ->)].
  - destruct (decide (n = name)) as [->|Hne].
    + right. exists v. split; [by left|]. by rewrite lookup_insert_eq.
    + left. split; [rewrite fmap_cons; by apply not_elem_of_cons|]. by rewrite lookup_insert_ne.
  - right. exists w. split; [by right|done].
Qed.
Lemma insert_below_keeps environment name value n v :
  environment !! n = Some v → is_empty (trim v) = false → insert_below_explicit_environment environment name value !! n = Some v.
Proof.
  intros Hn Hv. unfold insert_below_explicit_environment. destruct (is_blank environment name) eqn:Hb; [|done].
  rewrite lookup_insert_ne; [done|]. intros ->. unfold is_blank in Hb. rewrite Hn in Hb. congruence.
Qed.
Lemma insert_below_lookup environment name value n v :
  insert_below_explicit_environment environment name value !! n = Some v → environment !! n = Some v ∨ (n = name ∧ v = value).
Proof.
  unfold insert_below_explicit_environment. destruct (is_blank environment name); [|by left].
  destruct (decide (name = n)) as [->|Hne]; [rewrite lookup_insert_eq; intros [= <-]; by right|rewrite lookup_insert_ne by done; by left].
Qed.
Lemma insert_settings_keeps settings environment n v :
  environment !! n = Some v → is_empty (trim v) = false → insert_settings environment settings !! n = Some v.
Proof.
  intros Hn Hv. revert environment Hn. unfold insert_settings. induction settings as [|s settings IH]; intros environment Hn; [done|].
  cbn [foldl]. by apply IH, insert_below_keeps.
Qed.
Lemma insert_settings_lookup settings environment n v :
  insert_settings environment settings !! n = Some v → environment !! n = Some v ∨ (n, v) ∈ settings.
Proof.
  revert environment. unfold insert_settings. induction settings as [|[n' v'] settings IH]; intros environment Hn; cbn [foldl fst snd] in Hn; [by left|].
  destruct (IH _ Hn) as [[?|[-> ->]]%insert_below_lookup|?]; [by left|right; by left|right; by right].
Qed.

Section routes.
Context `{JsonNumber}.
Lemma routes_keep config environment n v :
  environment !! n = Some v → is_empty (trim v) = false → apply_provider_route_environment config environment !! n = Some v.
Proof.
  destruct config as [config|]; [|done]. cbn [apply_provider_route_environment]. intros Hn Hv. revert environment Hn.
  induction (providers config) as [|r l IH]; intros environment Hn; [done|]. cbn [foldl]. by apply IH, insert_settings_keeps.
Qed.
Lemma routes_lookup config environment n v :
  apply_provider_route_environment config environment !! n = Some v →
  environment !! n = Some v ∨ ∃ c route, config = Some c ∧ route ∈ providers c ∧ (n, v) ∈ route_settings route.
Proof.
  destruct config as [config|]; [|by left]. cbn [apply_provider_route_environment].
  assert (∀ l environment, foldl (λ environment route, insert_settings environment (route_settings route)) environment l !! n = Some v →
    environment !! n = Some v ∨ ∃ route, route ∈ l ∧ (n, v) ∈ route_settings route) as Hl.
  { induction l as [|r l IH]; intros e Hn; cbn [foldl] in Hn; [by left|].
    destruct (IH _ Hn) as [[?|?]%insert_settings_lookup|(route & Hin & ?)]; [by left|right; exists r; split; [by left|done]|].
    right. exists route. split; [by right|done]. }
  intros [?|(route & ? & ?)]%Hl; [by left|right; by exists config, route].
Qed.
(** The names a route can set: none is a credential's. *)
Definition endpoint_names : list str := omap endpoint_environment ProviderId.ALL.
Definition option_names : list str :=
  [lit "Z_AI_REGION"; lit "Z_AI_ORGANIZATION"; lit "Z_AI_PROJECT"; lit "Z_AI_USAGE_SCOPE";
   lit "OMARCHY_AI_BAR_GROK_USAGE_SOURCE"; lit "OMARCHY_AI_BAR_GROK_COOKIE_SOURCE";
   lit "OMARCHY_AI_BAR_COPILOT_ENTERPRISE_HOST"; lit "OMARCHY_AI_BAR_COPILOT_BUDGET_EXTRAS";
   lit "OMARCHY_AI_BAR_COPILOT_BUDGET_COOKIE_SOURCE"].
Lemma all_providers p : p ∈ ProviderId.ALL.
Proof. destruct p; vm_compute; repeat first [apply list_elem_of_here|apply list_elem_of_further]. Qed.
Definition named (settings : list (str * str)) : Prop := Forall (λ e, e.1 ∈ option_names) settings.
Lemma named_nil : named [].
Proof. by apply Forall_nil. Qed.
Lemma named_cons name v l : bool_decide (name ∈ option_names) = true → named l → named ((name, v) :: l).
Proof. intros Hn%bool_decide_eq_true_1 Hl. by apply Forall_cons. Qed.
Lemma named_app l k : named l → named k → named (l ++ k).
Proof. intros ? ?. by apply Forall_app. Qed.
Ltac name_settings :=
  repeat case_match; repeat apply named_app; repeat (apply named_cons; [vm_compute; reflexivity|]); apply named_nil.
Lemma grok_named o : named (grok_settings o).
Proof. unfold grok_settings. name_settings. Qed.
Lemma copilot_named o : named (copilot_settings o).
Proof. unfold copilot_settings. name_settings. Qed.
Lemma zai_named o : named (zai_settings o).
Proof. unfold zai_settings. name_settings. Qed.
Lemma own_settings_named route : named match provider_id route with
  | ProviderId.Grok => grok_settings (options route)
  | ProviderId.Copilot => copilot_settings (options route)
  | ProviderId.Zai => zai_settings (options route)
  | _ => []
  end.
Proof.
  destruct (provider_id route);
    lazymatch goal with
    | |- named [] => apply named_nil
    | |- named (grok_settings _) => apply grok_named
    | |- named (copilot_settings _) => apply copilot_named
    | |- named (zai_settings _) => apply zai_named
    end.
Qed.
Lemma endpoint_setting_names route n v : (n, v) ∈ endpoint_setting route → n ∈ endpoint_names.
Proof.
  unfold endpoint_setting. destruct (endpoint_environment (provider_id route)) as [name|] eqn:E; [|by intros ?%elem_of_nil].
  destruct (trim <$> endpoint route) as [e|]; [|by intros ?%elem_of_nil]. destruct (is_empty e); [by intros ?%elem_of_nil|].
  intros [= -> ->]%list_elem_of_singleton. apply list_elem_of_omap. exists (provider_id route). split; [apply all_providers|done].
Qed.
Lemma route_settings_names route n v : (n, v) ∈ route_settings route → n ∈ endpoint_names ++ option_names.
Proof.
  unfold route_settings. destruct (negb _); [by intros ?%elem_of_nil|]. intros [He|Ho]%elem_of_app; apply elem_of_app.
  - left. by eapply endpoint_setting_names.
  - right. exact (proj1 (Forall_forall _ _) (own_settings_named route) (n, v) Ho).
Qed.
Lemma owner_not_a_setting route v : (OWNER, v) ∉ route_settings route.
Proof. intros Hin%route_settings_names. revert Hin. apply (bool_decide_eq_false_1 (OWNER ∈ endpoint_names ++ option_names)). vm_compute. reflexivity. Qed.
End routes.

(** ** The keys of the batch read *)

Definition manual_key (entry : ManualCredential) : SecretKey := mk_key (manual_provider entry) (lit "ambient") MANUAL_SESSION_PURPOSE.
Definition oauth_key : SecretKey := mk_key (lit "copilot") COPILOT_OAUTH_ACCOUNT COPILOT_OAUTH_PURPOSE.
Definition slot_key (provider slot : str) : SecretKey := mk_key provider (lit "ambient") (lit "credential-slot/v1/default/" ++ slot).
Definition zai_key : SecretKey := slot_key (lit "zai") (lit "zai-api-key").
Definition budget_key : SecretKey := slot_key (lit "copilot") (lit "copilot-budget-cookie").
Definition grok_key : SecretKey := slot_key (lit "grok") (lit "grok-web-cookie").
Lemma oauth_key_new : copilot_oauth_key = Ok oauth_key.
Proof. vm_compute. reflexivity. Qed.
Lemma zai_slot_is : zai_api_key_slot = Some zai_key.
Proof. vm_compute. reflexivity. Qed.
Lemma budget_slot_is : copilot_budget_cookie_slot = Some budget_key.
Proof. vm_compute. reflexivity. Qed.
Lemma grok_slot_is : grok_web_cookie_slot = Some grok_key.
Proof. vm_compute. reflexivity. Qed.

#[local] Instance ManualCredential_eq_dec : EqDecision ManualCredential.
Proof. solve_decision. Defined.
(** What the table of managed credentials is like: each entry makes a key, is found
    by its provider, and has a variable of its own. *)
Lemma manual_table : Forall (λ e,
  secret_key_new (manual_provider e) (lit "ambient") MANUAL_SESSION_PURPOSE = Ok (manual_key e) ∧
  credential_for (manual_provider e) = Some e) MANUAL_CREDENTIALS ∧
  NoDup (manual_environment <$> MANUAL_CREDENTIALS).
Proof.
  split; [|apply (bool_decide_eq_true_1 _); vm_compute; reflexivity].
  assert (forallb (λ e, bool_decide (result_ok (secret_key_new (manual_provider e) (lit "ambient") MANUAL_SESSION_PURPOSE) = Some (manual_key e))
     && bool_decide (credential_for (manual_provider e) = Some e)) MANUAL_CREDENTIALS = true) as H by (vm_compute; reflexivity).
  rewrite forallb_forall in H. apply Forall_forall. intros e He%list_elem_of_In.
  apply H, andb_true_iff in He as [H1%bool_decide_eq_true H2%bool_decide_eq_true].
  split; [|done]. by destruct (secret_key_new _ _ _); cbn in H1; simplify_eq.
Qed.
Lemma credential_for_Some p e : credential_for p = Some e ↔ e ∈ MANUAL_CREDENTIALS ∧ manual_provider e = p.
Proof.
  split.
  - intros [Hin Hp%bool_decide_eq_true]%find_some. by apply list_elem_of_In in Hin.
  - intros [Hin <-]. destruct manual_table as [Ht _]. by destruct (proj1 (Forall_forall _ _) Ht e Hin).
Qed.

Definition unset (environment : Environment) (name : str) : Prop := is_empty (default [] (environment !! name)) = true.
Lemma unset_blank environment name : unset environment name → is_blank environment name = true.
Proof. unfold unset, is_blank. by destruct (environment !! name) as [[|c l]|]. Qed.
Lemma named_slot_elem environment name slot key k : slot = Some key →
  k ∈ option_list (named_slot_when_environment_is_empty environment name slot) ↔ is_blank environment name = true ∧ k = key.
Proof. intros ->. unfold named_slot_when_environment_is_empty. destruct (is_blank environment name); set_solver. Qed.
Lemma requested_cases explicit_token environment k : k ∈ requested_keys explicit_token environment ↔
  (∃ e, e ∈ MANUAL_CREDENTIALS ∧ unset environment (manual_environment e) ∧ k = manual_key e) ∨
  (explicit_token = false ∧ k = oauth_key) ∨
  (is_blank environment (lit "Z_AI_API_KEY") = true ∧ k = zai_key) ∨
  (is_blank environment COPILOT_BUDGET_COOKIE_ENVIRONMENT = true ∧ k = budget_key) ∨
  (is_blank environment GROK_WEB_COOKIE_ENVIRONMENT = true ∧ k = grok_key).
Proof.
  unfold requested_keys, named_zai_key, named_copilot_budget_key, named_grok_web_key. rewrite !elem_of_app.
  rewrite (named_slot_elem _ _ _ _ _ zai_slot_is), (named_slot_elem _ _ _ _ _ budget_slot_is), (named_slot_elem _ _ _ _ _ grok_slot_is).
  apply Morphisms_Prop.or_iff_morphism; [|apply Morphisms_Prop.or_iff_morphism; [|done]].
  - unfold manual_keys. rewrite list_elem_of_omap. destruct manual_table as [Ht _]. split.
    + intros (e & [Hu He]%list_elem_of_filter & Hk). destruct (proj1 (Forall_forall _ _) Ht e He) as [Hn _].
      rewrite Hn in Hk. injection Hk as <-. by exists e.
    + intros (e & He & Hu & ->). exists e. split; [by apply list_elem_of_filter|].
      destruct (proj1 (Forall_forall _ _) Ht e He) as [Hn _]. by rewrite Hn.
  - rewrite oauth_key_new. destruct explicit_token; cbn; [|rewrite list_elem_of_singleton; naive_solver].
    split; [by intros ?%elem_of_nil|by intros [? _]].
Qed.

(** ** What an answer sets *)

(** The variable a stored credential is for. *)
Definition credential_variable (key : SecretKey) : option str :=
  if bool_decide (key = oauth_key) then Some COPILOT_TOKEN_ENVIRONMENT
  else if bool_decide (key = zai_key) then Some (lit "Z_AI_API_KEY")
  else if bool_decide (key = budget_key) then Some COPILOT_BUDGET_COOKIE_ENVIRONMENT
  else if bool_decide (key = grok_key) then Some GROK_WEB_COOKIE_ENVIRONMENT
  else if bool_decide (account key = lit "ambient") && bool_decide (purpose key = MANUAL_SESSION_PURPOSE)
       then manual_environment <$> credential_for (provider key) else None.
(** No variable of a credential is one that a route can set. *)
Definition credential_names : list str :=
  [COPILOT_TOKEN_ENVIRONMENT; lit "Z_AI_API_KEY"; COPILOT_BUDGET_COOKIE_ENVIRONMENT; GROK_WEB_COOKIE_ENVIRONMENT]
  ++ (manual_environment <$> MANUAL_CREDENTIALS).
Lemma credential_variable_names key name : credential_variable key = Some name → name ∈ credential_names.
Proof.
  unfold credential_variable, credential_names. rewrite elem_of_app. do 4 (case_bool_decide; [intros [= <-]; left; set_solver|]).
  destruct (_ && _); [|done]. intros (e & [He _]%credential_for_Some & ->)%fmap_Some. right. by apply list_elem_of_fmap_2.
Qed.
Lemma credential_names_apart : Forall (λ name, name ∉ credential_names) (endpoint_names ++ option_names).
Proof. apply (bool_decide_eq_true_1 _). vm_compute. reflexivity. Qed.
Lemma route_not_credential `{JsonNumber} route name value key : (name, value) ∈ route_settings route → credential_variable key ≠ Some name.
Proof.
  intros Hin%route_settings_names Hk%credential_variable_names. by apply (proj1 (Forall_forall _ _) credential_names_apart name Hin).
Qed.
Lemma key_differs k k' : bool_decide (purpose k = purpose k') = false → k ≠ k'.
Proof. by intros Hn%bool_decide_eq_false ->. Qed.
Lemma variable_manual e : e ∈ MANUAL_CREDENTIALS → credential_variable (manual_key e) = Some (manual_environment e).
Proof.
  intros He. unfold credential_variable.
  rewrite !bool_decide_eq_false_2 by (apply key_differs; vm_compute; reflexivity). cbn [purpose account provider manual_key].
  rewrite !bool_decide_eq_true_2 by done. cbn [andb].
  by rewrite (proj2 (credential_for_Some (manual_provider e) e)).
Qed.

Section hydrate.
Context `{Utf8}.
Definition pushed (key : SecretKey) (secret : SecretValue) (name : str) : list (str * str) :=
  match from_utf8 (expose_secret secret) with
  | None => []
  | Some value => [(name, value)]
  end.
Lemma oauth_test key : bool_decide (provider key = lit "copilot") && bool_decide (account key = COPILOT_OAUTH_ACCOUNT)
  && bool_decide (purpose key = COPILOT_OAUTH_PURPOSE) = bool_decide (key = oauth_key).
Proof.
  apply eq_true_iff_eq. rewrite !andb_true_iff, !bool_decide_eq_true. destruct key as [p a q]. unfold oauth_key. cbn [provider account purpose].
  split; [by intros [[-> ->] ->]|]. intros E. injection E as E1 E2 E3. subst. done.
Qed.
Lemma hydrated_values_eq environment key secret :
  hydrated_values environment (key, secret) =
  match from_utf8 (expose_secret secret) with
  | None => []
  | Some value =>
      if bool_decide (key = oauth_key) then
        if valid_copilot_token value
        then [(COPILOT_TOKEN_ENVIRONMENT, value); (OWNER, COPILOT_CREDENTIAL_OWNER_APPLICATION)] else []
      else if is_blank environment (lit "Z_AI_API_KEY") && bool_decide (zai_key = key) then [(lit "Z_AI_API_KEY", value)]
      else if is_blank environment COPILOT_BUDGET_COOKIE_ENVIRONMENT && bool_decide (budget_key = key) then [(COPILOT_BUDGET_COOKIE_ENVIRONMENT, value)]
      else if is_blank environment GROK_WEB_COOKIE_ENVIRONMENT && bool_decide (grok_key = key) then [(GROK_WEB_COOKIE_ENVIRONMENT, value)]
      else match credential_for (provider key) with
           | None => []
           | Some entry =>
               if bool_decide (account key = lit "ambient") && bool_decide (purpose key = MANUAL_SESSION_PURPOSE)
               then [(manual_environment entry, value)] else []
           end
  end.
Proof.
  assert (∀ name slot k, slot = Some k →
    bool_decide (named_slot_when_environment_is_empty environment name slot = Some key)
    = is_blank environment name && bool_decide (k = key)) as Hslot.
  { intros name slot k ->. unfold named_slot_when_environment_is_empty. destruct (is_blank environment name); cbn [andb];
      [|by apply bool_decide_eq_false_2]. apply bool_decide_ext. split; [by intros [= ->]|by intros ->]. }
  unfold hydrated_values. destruct (from_utf8 (expose_secret secret)) as [value|]; [|done].
  rewrite oauth_test. unfold named_zai_key, named_copilot_budget_key, named_grok_web_key.
  by rewrite (Hslot _ _ _ zai_slot_is), (Hslot _ _ _ budget_slot_is), (Hslot _ _ _ grok_slot_is).
Qed.
(** The answer for a requested key sets the key's variable, which was unset or
    blank, to the credential, and nothing else but the owner marker. *)
Lemma hydrated_requested explicit_token environment key secret : key ∈ requested_keys explicit_token environment →
  ∃ name, credential_variable key = Some name ∧ (key ≠ oauth_key → is_blank environment name = true) ∧
    hydrated_values environment (key, secret) =
    match from_utf8 (expose_secret secret) with
    | None => []
    | Some value =>
        if bool_decide (key = oauth_key) then
          if valid_copilot_token value then [(name, value); (OWNER, COPILOT_CREDENTIAL_OWNER_APPLICATION)] else []
        else [(name, value)]
    end.
Proof.
  rewrite hydrated_values_eq. intros [(e & He & Hu & ->)|[[_ ->]|[[Hb ->]|[[Hb ->]|[Hb ->]]]]]%requested_cases.
  - exists (manual_environment e). split; [by apply variable_manual|]. split; [intros _; by apply unset_blank|].
    destruct (from_utf8 _) as [value|]; [|done].
    rewrite !(bool_decide_eq_false_2 (_ = manual_key e)) by (apply key_differs; vm_compute; reflexivity).
    rewrite (bool_decide_eq_false_2 (manual_key e = oauth_key)) by (apply key_differs; vm_compute; reflexivity).
    rewrite !andb_false_r. change (provider (manual_key e)) with (manual_provider e).
    by rewrite (proj2 (credential_for_Some (manual_provider e) e)).
  - exists COPILOT_TOKEN_ENVIRONMENT. by split.
  - exists (lit "Z_AI_API_KEY"). split; [vm_compute; reflexivity|]. split; [done|]. destruct (from_utf8 _) as [value|]; [|done].
    rewrite (bool_decide_eq_false_2 (zai_key = oauth_key)) by (apply key_differs; vm_compute; reflexivity).
    by rewrite Hb, (bool_decide_eq_true_2 (zai_key = zai_key)).
  - exists COPILOT_BUDGET_COOKIE_ENVIRONMENT. split; [vm_compute; reflexivity|]. split; [done|]. destruct (from_utf8 _) as [value|]; [|done].
    rewrite (bool_decide_eq_false_2 (budget_key = oauth_key)) by (apply key_differs; vm_compute; reflexivity).
    rewrite (bool_decide_eq_false_2 (zai_key = budget_key)) by (apply key_differs; vm_compute; reflexivity).
    by rewrite Hb, (bool_decide_eq_true_2 (budget_key = budget_key)), andb_false_r.
  - exists GROK_WEB_COOKIE_ENVIRONMENT. split; [vm_compute; reflexivity|]. split; [done|]. destruct (from_utf8 _) as [value|]; [|done].
    rewrite (bool_decide_eq_false_2 (grok_key = oauth_key)) by (apply key_differs; vm_compute; reflexivity).
    rewrite (bool_decide_eq_false_2 (zai_key = grok_key)) by (apply key_differs; vm_compute; reflexivity).
    rewrite (bool_decide_eq_false_2 (budget_key = grok_key)) by (apply key_differs; vm_compute; reflexivity).
    by rewrite Hb, (bool_decide_eq_true_2 (grok_key = grok_key)), !andb_false_r.
Qed.
End hydrate.

(** ** The environment of the adapters *)

Section adapters.
Context `{JsonNumber, Utf8}.
(** A credential of the Secret Service: an item with exactly the key's attributes. *)
Definition stored_credential (service : option (option (list KeyringItem))) (key : SecretKey) (value : str) : Prop :=
  ∃ items item l secret, service = Some (Some items) ∧ item ∈ items ∧ item_attributes item = Some l ∧
    item_matches l key = true ∧ item_secret item = Some secret ∧ from_utf8 secret = Some value.
Lemma with_owner_ne environment name : name ≠ OWNER → with_owner environment !! name = environment !! name.
Proof.
  intros Hn. unfold with_owner. destruct (explicit_copilot_token _); [rewrite lookup_insert_ne by done|]; by rewrite lookup_delete_ne.
Qed.
Lemma token_not_owner : COPILOT_TOKEN_ENVIRONMENT ≠ OWNER.
Proof. apply (bool_decide_eq_false_1 _). vm_compute. reflexivity. Qed.
Lemma blank_with_owner environment name : name ≠ OWNER → is_blank (with_owner environment) name = is_blank environment name.
Proof. intros Hn. by apply is_blank_lookup, with_owner_ne. Qed.
Lemma token_with_owner environment : explicit_copilot_token (with_owner environment) = explicit_copilot_token environment.
Proof. unfold explicit_copilot_token. by rewrite blank_with_owner by apply token_not_owner. Qed.
Lemma owner_marker environment : with_owner environment !! OWNER =
  if explicit_copilot_token environment then Some COPILOT_CREDENTIAL_OWNER_EXPLICIT_ENVIRONMENT else None.
Proof.
  unfold with_owner. assert (explicit_copilot_token (delete OWNER environment) = explicit_copilot_token environment) as ->.
  { unfold explicit_copilot_token. f_equal. apply is_blank_lookup. by rewrite lookup_delete_ne by (apply not_eq_sym, token_not_owner). }
  destruct (explicit_copilot_token environment); [by rewrite lookup_insert_eq|by rewrite lookup_delete_eq].
Qed.

(** Hydration leaves the environment, or adds what the answers push. *)
Lemma hydrate_cases runtime service environment :
  hydrate_environment runtime service environment = with_owner environment ∨
  ∃ items answers, service = Some (Some items) ∧
    get_many (requested_keys (explicit_copilot_token environment) (with_owner environment)) (Some items) = Ok answers ∧
    hydrate_environment runtime service environment
    = extend (with_owner environment) (answers ≫= hydrated_values (with_owner environment)).
Proof.
  unfold hydrate_environment. case_bool_decide; [by left|]. destruct runtime; [|by left]. cbn [negb].
  destruct service as [search|]; [|by left]. rewrite token_with_owner.
  destruct (get_many _ search) as [answers|] eqn:Hg; [|by left]. right.
  destruct search as [items|]; [by exists items, answers|]. unfold get_many in Hg. by destruct (_ || _) in Hg.
Qed.
Lemma credential_variable_oauth : credential_variable oauth_key = Some COPILOT_TOKEN_ENVIRONMENT.
Proof. unfold credential_variable. by rewrite bool_decide_eq_true_2. Qed.
Lemma oauth_not_requested environment : oauth_key ∉ requested_keys true environment.
Proof.
  intros [(e & _ & _ & E)|[[E _]|[[_ E]|[[_ E]|[_ E]]]]]%requested_cases; [|done|..]; revert E; apply key_differs; vm_compute; reflexivity.
Qed.
Lemma not_manual name p : name ∈ [COPILOT_TOKEN_ENVIRONMENT; OWNER] → manual_environment <$> credential_for p ≠ Some name.
Proof.
  intros Hn (e & [He _]%credential_for_Some & E)%fmap_Some.
  assert (forallb (λ e, negb (bool_decide (manual_environment e ∈ [COPILOT_TOKEN_ENVIRONMENT; OWNER]))) MANUAL_CREDENTIALS = true) as Hall
    by (vm_compute; reflexivity).
  rewrite forallb_forall in Hall. apply list_elem_of_In, Hall in He. rewrite <-E, bool_decide_eq_true_2 in He; done.
Qed.
(** Only the OAuth key is for the token's variable. *)
Lemma only_oauth_is_token key : credential_variable key = Some COPILOT_TOKEN_ENVIRONMENT → key = oauth_key.
Proof.
  unfold credential_variable. case_bool_decide; [done|].
  do 3 (case_bool_decide; [intros E; exfalso; revert E; apply (bool_decide_eq_false_1 _); vm_compute; reflexivity|]).
  destruct (_ && _); [|done]. intros E. apply not_manual in E; [done|by left].
Qed.
(** What is pushed: the credential of a requested key, under the key's variable. *)
Lemma pushed_cases explicit_token environment items answers name value :
  get_many (requested_keys explicit_token environment) (Some items) = Ok answers →
  (name, value) ∈ answers ≫= hydrated_values environment →
  ∃ key, key ∈ requested_keys explicit_token environment ∧
    ((∃ v, name = OWNER ∧ value = COPILOT_CREDENTIAL_OWNER_APPLICATION ∧ key = oauth_key ∧
        (COPILOT_TOKEN_ENVIRONMENT, v) ∈ answers ≫= hydrated_values environment) ∨
     (credential_variable key = Some name ∧ stored_credential (Some (Some items)) key value ∧
        (key ≠ oauth_key → is_blank environment name = true) ∧ (key = oauth_key → valid_copilot_token value = true))).
Proof.
  intros Hg ((key & secret) & Hv & Hin)%list_elem_of_bind.
  destruct (batch_read_exact _ _ _ Hg) as (_ & _ & items' & [= <-] & _ & Hall).
  destruct (Hall key secret Hin) as (Hk & item & l & Hitem & Hl & Hm & Hs). exists key. split; [done|].
  destruct (hydrated_requested explicit_token environment key secret Hk) as (n & Hn & Hb & Heq). rewrite Heq in Hv.
  destruct (from_utf8 (expose_secret secret)) as [v|] eqn:Hu; [|by apply elem_of_nil in Hv].
  assert (stored_credential (Some (Some items)) key v) as Hst by (by exists items, item, l, (expose_secret secret)).
  case_bool_decide as Hko.
  - destruct (valid_copilot_token v) eqn:Hvalid; [|by apply elem_of_nil in Hv].
    apply elem_of_cons in Hv as [[= -> ->]|[= -> ->]%list_elem_of_singleton]; [by right|]. left. exists v.
    split_and!; [done..|]. apply list_elem_of_bind. exists (key, secret). split; [|done]. rewrite Heq.
    subst key.
    rewrite credential_variable_oauth in Hn. injection Hn as <-. by left.
  - apply list_elem_of_singleton in Hv as [= -> ->]. by right.
Qed.

Lemma variable_not_owner key : credential_variable key ≠ Some OWNER.
Proof.
  unfold credential_variable. do 4 (case_bool_decide; [apply (bool_decide_eq_false_1 _); vm_compute; reflexivity|]).
  destruct (_ && _); [|done]. apply not_manual. right. by left.
Qed.
Lemma hydrate_owner runtime service environment :
  let hydrated := hydrate_environment runtime service environment in
  if explicit_copilot_token environment then hydrated !! OWNER = Some COPILOT_CREDENTIAL_OWNER_EXPLICIT_ENVIRONMENT
  else hydrated !! OWNER = None ∨
       hydrated !! OWNER = Some COPILOT_CREDENTIAL_OWNER_APPLICATION ∧
       ∃ token, hydrated !! COPILOT_TOKEN_ENVIRONMENT = Some token ∧ stored_credential service oauth_key token ∧
         valid_copilot_token token = true.
Proof.
  cbv zeta. pose proof (owner_marker environment) as Hm.
  destruct (hydrate_cases runtime service environment) as [->|(items & answers & -> & Hg & ->)].
  { destruct (explicit_copilot_token environment); [done|by left]. }
  set (values := answers ≫= _).
  destruct (extend_lookup (with_owner environment) values OWNER) as [[_ ->]|(v & Hin & ->)].
  { destruct (explicit_copilot_token environment); [done|by left]. }
  destruct (pushed_cases _ _ _ _ _ _ Hg Hin) as (key & Hk & [(w & _ & -> & -> & Ht)|(Hvar & _)]); [|by apply variable_not_owner in Hvar].
  destruct (explicit_copilot_token environment); [by apply oauth_not_requested in Hk|]. right. split; [done|].
  destruct (extend_lookup (with_owner environment) values COPILOT_TOKEN_ENVIRONMENT) as [[Hno _]|(u & Hu & ->)].
  { destruct Hno. apply list_elem_of_fmap. by exists (COPILOT_TOKEN_ENVIRONMENT, w). }
  exists u. split; [done|]. destruct (pushed_cases _ _ _ _ _ _ Hg Hu) as (key & _ & [(w' & E & _)|(Hvar & Hst & _ & Hvalid)]).
  - by apply token_not_owner in E.
  - pose proof (only_oauth_is_token key Hvar). subst key. split; [done|by apply Hvalid].
Qed.

(** What the Copilot adapter can use as its token. *)
Definition usable_token (value : str) : Prop :=
  trim value ≠ [] ∧ str_len (trim value) ≤ MAX_SECRET_BYTES ∧ 13 ∉ trim value ∧ 10 ∉ trim value.
Lemma valid_token_usable value : valid_copilot_token value = true → usable_token value.
Proof.
  unfold valid_copilot_token, usable_token. rewrite !andb_true_iff, !negb_true_iff, Z.leb_le, existsb_false.
  intros [[He Hl] Hall]. rewrite Forall_forall in Hall. split_and!; [by destruct (trim value)|done|..];
    intros Hin; specialize (Hall _ Hin); by apply orb_false_iff in Hall as [? ?].
Qed.

(** C20. Nothing explicit is replaced: a variable of the process that is not blank
    reaches the adapters as it is. Every other variable they see has one of three
    origins: the process; the Secret Service's item for exactly that credential, which
    for Copilot is a usable token (not blank, not too long, one line); or a default
    route of the configuration, whose variables are never those of a credential. The
    owner marker is never an ambient value, and says where the Copilot token came from. *)
Theorem adapter_environment_provenance runtime service config environment :
  let final := adapter_environment runtime service config environment in
  (∀ name value, name ≠ OWNER → environment !! name = Some value → is_empty (trim value) = false → final !! name = Some value) ∧
  (∀ name value, name ≠ OWNER → final !! name = Some value →
     environment !! name = Some value ∨
     (∃ key, credential_variable key = Some name ∧ stored_credential service key value ∧
        (name = COPILOT_TOKEN_ENVIRONMENT → usable_token value)) ∨
     ∃ c route, config = Some c ∧ route ∈ providers c ∧ is_default_instance route = true ∧ (name, value) ∈ route_settings route ∧
       ∀ key, credential_variable key ≠ Some name) ∧
  (final !! OWNER = Some COPILOT_CREDENTIAL_OWNER_EXPLICIT_ENVIRONMENT ↔ explicit environment COPILOT_TOKEN_ENVIRONMENT) ∧
  (final !! OWNER ≠ Some COPILOT_CREDENTIAL_OWNER_EXPLICIT_ENVIRONMENT → ∀ owner, final !! OWNER = Some owner →
     owner = COPILOT_CREDENTIAL_OWNER_APPLICATION ∧
     ∃ token, final !! COPILOT_TOKEN_ENVIRONMENT = Some token ∧ stored_credential service oauth_key token ∧ usable_token token).
Proof.
  cbv zeta. unfold adapter_environment.
  assert (∀ v, apply_provider_route_environment config (hydrate_environment runtime service environment) !! OWNER = Some v →
    hydrate_environment runtime service environment !! OWNER = Some v) as Hroutes.
  { intros v [?|(c & route & _ & _ & Hin)]%routes_lookup; [done|]. by apply owner_not_a_setting in Hin. }
  split; [|split; [|split]].
  - intros name value Hn Hv Ht. apply routes_keep; [|done]. destruct (hydrate_cases runtime service environment) as [->|(items & answers & -> & Hg & ->)].
    { by rewrite with_owner_ne. }
    destruct (extend_lookup (with_owner environment) (answers ≫= hydrated_values (with_owner environment)) name) as [[_ ->]|(v & Hin & _)];
      [by rewrite with_owner_ne|]. exfalso.
    destruct (pushed_cases _ _ _ _ _ _ Hg Hin) as (key & Hk & [(w & -> & _)|(Hvar & _ & Hb & _)]); [done|].
    assert (is_blank (with_owner environment) name = false) as Hexp by (rewrite blank_with_owner by done; unfold is_blank; by rewrite Hv).
    destruct (decide (key = oauth_key)) as [->|Hne]; [|by rewrite Hb in Hexp].
    rewrite credential_variable_oauth in Hvar. injection Hvar as <-.
    unfold explicit_copilot_token in Hk. rewrite <- (blank_with_owner environment) in Hk by done. rewrite Hexp in Hk.
    by apply oauth_not_requested in Hk.
  - intros name value Hn [Hv|(c & route & -> & Hr & Hin)]%routes_lookup.
    + destruct (hydrate_cases runtime service environment) as [E|(items & answers & -> & Hg & E)]; rewrite E in Hv.
      { left. by rewrite with_owner_ne in Hv. }
      destruct (extend_lookup (with_owner environment) (answers ≫= hydrated_values (with_owner environment)) name) as [[_ E']|(v & Hin & E')];
        rewrite E' in Hv; [left; by rewrite with_owner_ne in Hv|]. injection Hv as ->.
      destruct (pushed_cases _ _ _ _ _ _ Hg Hin) as (key & Hk & [(w & -> & _)|(Hvar & Hst & _ & Hvalid)]); [done|]. right. left. exists key.
      split_and!; [done..|]. intros ->. by apply valid_token_usable, Hvalid, only_oauth_is_token.
    + right. right. exists c, route. split_and!; try done. 2:{ intros key. by eapply route_not_credential. }
      unfold route_settings in Hin. destruct (is_default_instance route); [done|]. by apply elem_of_nil in Hin.
  - pose proof (hydrate_owner runtime service environment) as Ho. unfold explicit. fold (explicit_copilot_token environment).
    cbv zeta in Ho. unfold explicit_copilot_token in Ho at 1. destruct (is_blank environment COPILOT_TOKEN_ENVIRONMENT); cbn [negb] in Ho.
    + split; [|done]. intros Hv%Hroutes. destruct Ho as [E|[E _]]; rewrite E in Hv; [done|]. exfalso. revert Hv.
      apply (bool_decide_eq_false_1 _). vm_compute. reflexivity.
    + split; [done|]. intros _. by apply routes_keep; [|vm_compute].
  - intros Hne owner Hv. pose proof (hydrate_owner runtime service environment) as Ho. cbv zeta in Ho. pose proof (Hroutes _ Hv) as Hh.
    destruct (explicit_copilot_token environment); [rewrite Ho in Hh; congruence|].
    destruct Ho as [E|[E (token & Ht & Hst & Hvalid%valid_token_usable)]]; [congruence|]. split; [congruence|]. exists token.
    split_and!; [|done..]. apply routes_keep; [done|]. destruct Hvalid as [Hne' _]. by destruct (trim token).
Qed.
End adapters.

(** ** Where the command line stores a credential *)

Definition implemented_slots (d : ProviderSettingsDescriptor.t) : list str :=
  omap (λ control, match control with
    | ProviderSettingsControlDescriptor.SecretSlot s =>
        if is_implemented (ProviderSettingsItemMetadata.availability (ProviderSettingsSecretSlotDescriptor.item s))
        then Some (ProviderSecretSlot.as_str (ProviderSettingsSecretSlotDescriptor.slot s)) else None
    | _ => None
    end) (ProviderSettingsDescriptor.controls d).
Lemma slot_supported_spec d slot : slot_supported d slot = true ↔ slot ∈ implemented_slots d.
Proof.
  unfold slot_supported, implemented_slots. rewrite existsb_exists, list_elem_of_omap.
  split; intros (c & Hc & Hs); exists c; (split; [by apply list_elem_of_In|]); destruct c as [p|t|o|s]; try done.
  - apply andb_true_iff in Hs as [-> ->%bool_decide_eq_true]. done.
  - destruct (is_implemented _); [|done]. injection Hs as <-. by rewrite bool_decide_eq_true_2.
Qed.
Definition SLOTS : list (ProviderId * str) :=
  [(ProviderId.Copilot, lit "copilot-budget-cookie"); (ProviderId.Grok, lit "grok-web-cookie"); (ProviderId.Zai, lit "zai-api-key")].
Lemma supported_slots provider d slot : settings_for provider = Some d → slot_supported d slot = true → (provider, slot) ∈ SLOTS.
Proof.
  intros Hd Hs%slot_supported_spec.
  assert (forallb (λ p, match settings_for p with
     | Some d => forallb (λ s, bool_decide ((p, s) ∈ SLOTS)) (implemented_slots d) | None => true end) ProviderId.ALL = true) as Hall
    by (vm_compute; reflexivity).
  rewrite forallb_forall in Hall. specialize (Hall provider (proj1 (list_elem_of_In _ _) (all_providers provider))). rewrite Hd in Hall.
  rewrite forallb_forall in Hall. by eapply bool_decide_eq_true, Hall, list_elem_of_In.
Qed.
Lemma result_ok_Some {E A} (r : Result E A) a : result_ok r = Some a ↔ r = Ok a.
Proof. destruct r; cbn; split; congruence. Qed.

(** The two forms of a key: a provider's managed credential, or a named slot. *)
Lemma credential_key_cases p a slot key : credential_secret_key p a slot = Some key →
  (∃ e, credential_for p = Some e ∧ key = mk_key p a MANUAL_SESSION_PURPOSE ∧
     (slot = None ∨ p = lit "zai" ∧ slot = Some (lit "zai-api-key"))) ∨
  (∃ q s, (q, s) ∈ SLOTS ∧ q ≠ ProviderId.Zai ∧ p = ProviderId.as_str q ∧ slot = Some s ∧
     key = mk_key p a (lit "credential-slot/v1/default/" ++ s)).
Proof.
  assert (∀ p a key, manual_secret_key p a = Some key → ∃ e, credential_for p = Some e ∧ key = mk_key p a MANUAL_SESSION_PURPOSE) as Hm.
  { intros p' a' k (e & He & Hk%result_ok_Some%CredentialsFacts.secret_key_new_Ok)%bind_Some. by exists e. }
  unfold credential_secret_key. destruct slot as [s|].
  2:{ intros (e & He & ->)%Hm. left. exists e. split_and!; [done..|by left]. }
  intros (q & ->%result_ok_Some%from_str_Ok & Hk)%bind_Some. cbv zeta in Hk.
  destruct (settings_for q) as [d|] eqn:Hd; [|done]. destruct (slot_supported d s) eqn:Hs; [|done]. cbn [negb] in Hk.
  pose proof (supported_slots q d s Hd Hs) as Hin.
  destruct (decide (q = ProviderId.Zai)) as [->|Hq].
  - assert (s = lit "zai-api-key") as ->.
    { unfold SLOTS in Hin. apply elem_of_cons in Hin as [E|[E|[= ->]%list_elem_of_singleton]%elem_of_cons]; [discriminate (f_equal fst E)..|done]. }
    rewrite !bool_decide_eq_true_2 in Hk by done. apply Hm in Hk as (e & He & ->). left. exists e. split_and!; [done..|by right].
  - rewrite (bool_decide_eq_false_2 (q = ProviderId.Zai)) in Hk by done. cbn [andb] in Hk.
    apply bind_Some in Hk as (i & Hi%result_ok_Some & (acc & Ha%result_ok_Some & (sl & Hsl%result_ok_Some & ->)%fmap_Some)%bind_Some).
    right. exists q, s. split_and!; [done..|]. unfold slot_new in Hsl.
    apply bind_Ok in Hsl as (u & _ & (k & ->%map_err_Ok%CredentialsFacts.secret_key_new_Ok & E)%bind_Ok). injection E as <-. cbn [secret_key].
    apply bind_Ok in Ha as (u1 & _ & Ha). injection Ha as <-. apply bind_Ok in Hi as (u2 & _ & Hi). injection Hi as <-. done.
Qed.

Lemma slot_variable q s : (q, s) ∈ SLOTS → q ≠ ProviderId.Zai →
  (q = ProviderId.Copilot ∧ slot_key (ProviderId.as_str q) s = budget_key) ∨ (q = ProviderId.Grok ∧ slot_key (ProviderId.as_str q) s = grok_key).
Proof.
  intros Hin Hq. unfold SLOTS in Hin.
  apply elem_of_cons in Hin as [E|[E|E%list_elem_of_singleton]%elem_of_cons]; injection E as -> ->; [by left|by right|done].
Qed.
(** A stored credential of the ambient account is requested when its variable is not set. *)
Lemma stored_requested environment p slot key : credential_secret_key p (lit "ambient") slot = Some key →
  ∃ name, credential_variable key = Some name ∧
    (slot = None → ∃ e, credential_for p = Some e ∧ name = manual_environment e) ∧
    (∀ t, environment !! name = None → key ∈ requested_keys t environment).
Proof.
  intros [(e & He & -> & _)|(q & s & Hin & Hq & -> & -> & ->)]%credential_key_cases.
  - pose proof (proj1 (credential_for_Some _ _) He) as [Hm <-]. exists (manual_environment e).
    split; [by apply variable_manual|]. split; [intros _; by exists e|]. intros t Hn. apply requested_cases. left. exists e.
    split; [done|]. split; [|done]. unfold unset. by rewrite Hn.
  - change (mk_key (ProviderId.as_str q) (lit "ambient") (lit "credential-slot/v1/default/" ++ s)) with (slot_key (ProviderId.as_str q) s).
    destruct (slot_variable q s Hin Hq) as [[-> ->]|[-> ->]].
    + exists COPILOT_BUDGET_COOKIE_ENVIRONMENT. split; [vm_compute; reflexivity|]. split; [done|]. intros t Hn. apply requested_cases.
      do 3 right. left. unfold is_blank. by rewrite Hn.
    + exists GROK_WEB_COOKIE_ENVIRONMENT. split; [vm_compute; reflexivity|]. split; [done|]. intros t Hn. apply requested_cases.
      do 4 right. unfold is_blank. by rewrite Hn.
Qed.

Lemma purposes_differ s : MANUAL_SESSION_PURPOSE ≠ lit "credential-slot/v1/default/" ++ s.
Proof. intros E%(f_equal head). discriminate E. Qed.
Lemma credential_key_not_oauth p a slot : credential_secret_key p a slot ≠ Some oauth_key.
Proof.
  intros [(e & _ & E & _)|(q & s & _ & _ & _ & _ & E)]%credential_key_cases; apply (f_equal (head ∘ purpose)) in E; discriminate E.
Qed.
Lemma credential_keys_distinct p p' a slot slot' key : credential_secret_key p a slot = Some key → credential_secret_key p' a slot' = Some key →
  p' = p ∧ (slot' = slot ∨ p = lit "zai").
Proof.
  intros [(e & _ & -> & Hs)|(q & s & _ & _ & -> & -> & ->)]%credential_key_cases
         [(e' & _ & E & Hs')|(q' & s' & _ & _ & -> & -> & E)]%credential_key_cases;
    pose proof (f_equal provider E) as E1; pose proof (f_equal purpose E) as E2; cbn [provider purpose] in E1, E2.
  - split; [done|]. destruct Hs as [->|[-> _]]; [|by right]. destruct Hs' as [->|[-> _]]; [by left|by right].
  - by apply purposes_differ in E2.
  - by apply eq_sym, purposes_differ in E2.
  - split; [done|]. apply app_inv_head in E2 as ->. by left.
Qed.
Lemma credential_key_account p a slot key : credential_secret_key p a slot = Some key → account key = a.
Proof. by intros [(e & _ & -> & _)|(q & s & _ & _ & _ & _ & ->)]%credential_key_cases. Qed.
Lemma requested_ambient explicit_token environment key : key ∈ requested_keys explicit_token environment → account key = lit "ambient".
Proof. by intros [(e & _ & _ & ->)|[[_ ->]|[[_ ->]|[[_ ->]|[_ ->]]]]]%requested_cases. Qed.
Lemma NoDup_fst_unique {A B} (l : list (A * B)) a b c : NoDup l.*1 → (a, b) ∈ l → (a, c) ∈ l → b = c.
Proof.
  induction l as [|[x y] l IH]; [by intros _ ?%elem_of_nil|]. rewrite fmap_cons. intros [Hn Hd]%NoDup_cons.
  assert (∀ z, (x, z) ∈ l → False) as Hx by (intros z Hz; apply Hn, list_elem_of_fmap; by exists (x, z)).
  intros [E1|Hb]%elem_of_cons [E2|Hc]%elem_of_cons; simplify_eq; [done|by apply Hx in Hc|by apply Hx in Hb|by apply IH].
Qed.

Section stored.
Context `{JsonNumber, Utf8}.
Lemma hydrate_stored environment name key items answers secret value :
  is_Some (environment !! lit "DBUS_SESSION_BUS_ADDRESS") → credential_variable key = Some name → name ≠ OWNER → key ≠ oauth_key →
  get_many (requested_keys (explicit_copilot_token environment) (with_owner environment)) (Some items) = Ok answers →
  (key, secret) ∈ answers → from_utf8 (expose_secret secret) = Some value →
  (∀ k s, (k, s) ∈ answers → credential_variable k = Some name → k = key) →
  hydrate_environment true (Some (Some items)) environment !! name = Some value.
Proof.
  intros [bus Hd] Hvar Hno Hko Hg Ha Hu Hother. destruct (batch_read_exact _ _ _ Hg) as (_ & Hnd & items' & _ & _ & Hall).
  unfold hydrate_environment. rewrite with_owner_ne, Hd by (apply (bool_decide_eq_false_1 _); vm_compute; reflexivity).
  rewrite bool_decide_eq_false_2 by done. cbn [negb]. rewrite token_with_owner, Hg. set (values := answers ≫= _).
  assert (∀ k s, (k, s) ∈ answers → ∀ v, (name, v) ∈ hydrated_values (with_owner environment) (k, s) ↔ (k, s) = (key, secret) ∧ v = value) as Hpush.
  { intros k s Hin v. destruct (Hall k s Hin) as (Hk & _).
    destruct (hydrated_requested _ _ k s Hk) as (n & Hn & _ & ->). split.
    - intros Hin'. assert (k = key) as ->.
      { apply (Hother k s Hin). destruct (from_utf8 (expose_secret s)) as [w|]; [|by apply elem_of_nil in Hin'].
        case_bool_decide as Hk'; [|by apply list_elem_of_singleton in Hin' as [= <- _]].
        destruct (valid_copilot_token w); [|by apply elem_of_nil in Hin'].
        by apply elem_of_cons in Hin' as [[= <- _]|[= ? _]%list_elem_of_singleton]. }
      assert (s = secret) as -> by (by eapply NoDup_fst_unique). split; [done|]. rewrite Hu, bool_decide_eq_false_2 in Hin' by done.
      by apply list_elem_of_singleton in Hin' as [= _ ->].
    - intros [[= -> ->] ->]. rewrite Hu, bool_decide_eq_false_2 by done. assert (n = name) as -> by congruence. by left. }
  destruct (extend_lookup (with_owner environment) values name) as [[Hnot _]|(v & Hin & ->)].
  - destruct Hnot. apply list_elem_of_fmap. exists (name, value). split; [done|]. apply list_elem_of_bind. exists (key, secret).
    split; [|done]. by apply Hpush.
  - apply list_elem_of_bind in Hin as ((k & s) & Hv & Hin). by apply Hpush in Hv as [_ ->].
Qed.

(** C36. A credential that the command line stores for the account [ambient] is looked
    up at start-up whenever its variable is not set; and, if there is a runtime and a
    session bus, the Secret Service answers it with text that is not blank, and no other credential
    for the same variable is answered, its adapter reads exactly that value.  Different
    commands store under different keys, but for the one slot that is kept as
    z.ai's managed credential.  A credential stored for any other account is never
    looked up, whatever the environment. *)
Theorem stored_credential_reaches_adapter p slot key :
  credential_secret_key p (lit "ambient") slot = Some key →
  (∃ name, credential_variable key = Some name ∧
     (slot = None → ∃ e, credential_for p = Some e ∧ name = manual_environment e) ∧
     ∀ environment config, environment !! name = None → is_Some (environment !! lit "DBUS_SESSION_BUS_ADDRESS") →
       let keys := requested_keys (explicit_copilot_token environment) (with_owner environment) in
       key ∈ keys ∧
       ∀ items answers secret value,
         get_many keys (Some items) = Ok answers → (key, secret) ∈ answers → from_utf8 (expose_secret secret) = Some value →
         is_empty (trim value) = false → (∀ k s, (k, s) ∈ answers → credential_variable k = Some name → k = key) →
         adapter_environment true (Some (Some items)) config environment !! name = Some value) ∧
  (∀ p' slot' key', credential_secret_key p' (lit "ambient") slot' = Some key' → key' = key →
     p' = p ∧ (slot' = slot ∨ p = lit "zai")) ∧
  (∀ p' account slot' key', credential_secret_key p' account slot' = Some key' → account ≠ lit "ambient" →
     ∀ explicit_token environment, key' ∉ requested_keys explicit_token environment).
Proof.
  intros Hkey. split; [|split].
  - destruct (stored_requested ∅ p slot key Hkey) as (name & Hvar & Hslot & _). exists name. split; [done|]. split; [done|].
    intros environment config Hn Hd keys. assert (name ≠ OWNER) as Hno by (intros ->; by apply variable_not_owner in Hvar).
    assert (key ∈ keys) as Hk.
    { destruct (stored_requested (with_owner environment) p slot key Hkey) as (name' & Hvar' & _ & Hr). assert (name' = name) as -> by congruence.
      apply Hr. by rewrite with_owner_ne. }
    split; [done|]. intros items answers secret value Hg Ha Hu Hv Hother. unfold adapter_environment. apply routes_keep; [|done].
    eapply hydrate_stored; try done. intros ->. rewrite credential_variable_oauth in Hvar. by apply credential_key_not_oauth in Hkey.
  - intros p' slot' key' Hkey' ->. by eapply credential_keys_distinct.
  - intros p' a slot' key' Hkey' Ha explicit_token environment Hin%requested_ambient. by rewrite (credential_key_account _ _ _ _ Hkey') in Hin.
Qed.
End stored.

(** ** Concrete inputs *)
Module EnvironmentExample.
#[local] Instance number : JsonNumber := {| Number := Z; as_u64 := Some |}.
#[local] Instance utf8 : Utf8 := Some.
Definition process : Environment :=
  <[lit "DBUS_SESSION_BUS_ADDRESS" := lit "unix:path=/run/user/1000/bus"]> (<[lit "AIAND_API_KEY" := lit "explicit"]> ∅).
Definition groq_key : SecretKey := mk_key (lit "groq") (lit "ambient") MANUAL_SESSION_PURPOSE.
Definition keyring : list KeyringItem := [mk_item true (Some (attributes groq_key)) (Some (lit "stored"))].
Definition hydrated : Environment := adapter_environment true (Some (Some keyring)) None process.
Lemma explicit_is_kept : hydrated !! lit "AIAND_API_KEY" = Some (lit "explicit").
Proof. vm_compute. reflexivity. Qed.
Lemma adapter_environment_provenance_witness : hydrated !! lit "AIAND_API_KEY" = Some (lit "explicit").
Proof.
  apply (proj1 (adapter_environment_provenance true (Some (Some keyring)) None process)).
  - apply (bool_decide_eq_false_1 _). vm_compute. reflexivity.
  - vm_compute. reflexivity.
  - vm_compute. reflexivity.
Defined.
Definition answers : list (SecretKey * SecretValue) := [(groq_key, mk_secret (lit "stored"))].
Lemma groq_stored : credential_secret_key (lit "groq") (lit "ambient") None = Some groq_key.
Proof. vm_compute. reflexivity. Qed.
Lemma keyring_answers :
  get_many (requested_keys (explicit_copilot_token process) (with_owner process)) (Some keyring) = Ok answers.
Proof. vm_compute. reflexivity. Qed.
Lemma groq_unset name : credential_variable groq_key = Some name → process !! name = None.
Proof. intros [= <-]. vm_compute. reflexivity. Qed.
Lemma only_groq name k s : (k, s) ∈ answers → credential_variable k = Some name → k = groq_key.
Proof. by intros [= -> _]%list_elem_of_singleton. Qed.
Lemma stored_credential_reaches_adapter_witness :
  ∃ name, credential_variable groq_key = Some name ∧ hydrated !! name = Some (lit "stored").
Proof.
  destruct (stored_credential_reaches_adapter (lit "groq") None groq_key groq_stored) as [(name & Hname & _ & H) _].
  exists name. split; [exact Hname|].
  refine (proj2 (H process None (groq_unset name Hname) _) keyring answers (mk_secret (lit "stored")) (lit "stored") keyring_answers _ _ _ (only_groq name)).
  - eexists. vm_compute. reflexivity.
  - left.
  - reflexivity.
  - vm_compute. reflexivity.
Defined.
End EnvironmentExample.
