(* ===== verification/ConfigCommands.v ===== *)
(** * The commands that change the configuration  (crates/app/src/wiring.rs, and
      from crates/providers/src/providers/copilot.rs the enterprise host)

    Setting an option, an endpoint or the order, enabling a provider, and the first
    document: each reads the configuration under its lock, changes one thing and
    writes the whole document back, as programs of system calls over
    [AtomicFile].  The printed messages are left out; what a command returns is its
    exit code. *)
From stdpp Require Import gmap countable prelude.
From S2P Require Import Prelude Ordering Text Externals Scope Errors Scheduler Endpoint Transport Config AtomicFile Settings Environment FixedApi.
Local Open Scope Z_scope.

(** Of [AppExitCode], success is [Ok]. *)
Inductive AppExitCode := Usage | GuardDenied | Unavailable | Internal | Authentication.

(** ** copilot.rs: the enterprise host *)

Definition DEFAULT_HOST : str := lit "github.com".
Definition MAX_HOST_BYTES : Z := 512.
Definition COPILOT_MAX_RESPONSE_BYTES : Z := 2 * 1024 * 1024.
(** [Url::port]: the port a URL names. *)
Class UrlPort `{UrlCrate} := url_port : Url → option Z.

Section host.
Context `{UrlOrigin} `{!UrlPort} `{HttpCrate} `{TimeCrate} `{!CloudSigning} `{ClientBuilder}.
(** [u8::is_ascii_whitespace] *)
Definition is_blank_byte (byte : Z) : bool := (byte =? 32) || (byte =? 9) || (byte =? 10) || (byte =? 12) || (byte =? 13).
(** [trim_matches('.')] *)
Definition trim_dots (s : str) : str := trim_end_dots (reverse (trim_end_dots (reverse s))).
Definition normalize_enterprise_host (raw : option str) : Result ClassifiedError str :=
  let raw := match trim <$> raw with Some value => if is_empty value then None else Some value | None => None end in
  match raw with
  | None => Ok DEFAULT_HOST
  | Some raw =>
      if MAX_HOST_BYTES <? str_len raw then Err (ClassifiedError.new Api) else
      let candidate := if contains (lit "://") raw then raw else lit "https://" ++ raw in
      url ← ok_or (url_parse candidate) (ClassifiedError.new Api);
      if negb (is_http (scheme url) || is_https (scheme url)) || negb (is_empty (username url))
         || bool_decide (is_Some (password url))
      then Err (ClassifiedError.new Api) else
      host ← ok_or (host ← (λ host, to_ascii_lowercase (trim_dots host)) <$> host_str url;
                    if is_empty host then None else Some host) (ClassifiedError.new Api);
      if existsb is_blank_byte (as_bytes host) then Err (ClassifiedError.new Api) else
      Ok (match url_port url with None => host | Some port => host ++ lit ":" ++ show_u64 port end)
  end.
Definition device_base_url (enterprise_host : option str) : Result ClassifiedError Url :=
  host ← normalize_enterprise_host enterprise_host;
  ok_or (url_parse (lit "https://" ++ host ++ lit "/")) (ClassifiedError.new Api).
Definition device_transport_config : Result ClassifiedError TransportConfig :=
  classify (config_new (from_secs 5) (from_secs 30) COPILOT_MAX_RESPONSE_BYTES 0 retry_none).
Record CopilotDeviceFlow := mk_flow {
  flow_transport : HttpTransport;
  device_code_url : Url;
  access_token_url : Url;
}.
Definition device_flow_build (base_url : Url) (transport : HttpTransport) : Result ClassifiedError CopilotDeviceFlow :=
  if bool_decide (host_str base_url = None) || negb (is_http (scheme base_url) || is_https (scheme base_url))
     || negb (is_empty (username base_url)) || bool_decide (is_Some (password base_url))
     || negb (bool_decide (path base_url = lit "/")) || bool_decide (is_Some (query base_url))
     || bool_decide (is_Some (fragment base_url))
  then Err (ClassifiedError.new Api) else
  device_code_url ← ok_or (url_join base_url (lit "login/device/code")) (ClassifiedError.new Api);
  access_token_url ← ok_or (url_join base_url (lit "login/oauth/access_token")) (ClassifiedError.new Api);
  Ok (mk_flow transport device_code_url access_token_url).
Definition device_flow_new (enterprise_host : option str) : Result ClassifiedError CopilotDeviceFlow :=
  base_url ← device_base_url enterprise_host;
  endpoint_class ← map_err (λ _, ClassifiedError.new Api) (classify_https_endpoint base_url);
  if bool_decide (endpoint_class = LoopbackDevelopment) then Err (ClassifiedError.new Api) else
  endpoints ← map_err (λ _, ClassifiedError.new Api) (policy_new [(origin_serialization base_url, endpoint_class)]);
  config ← device_transport_config;
  transport ← classify (transport_new endpoints config);
  device_flow_build base_url transport.
Definition parse_copilot_enterprise_host (value : str) : option str :=
  host ← result_ok (normalize_enterprise_host (Some value));
  result_ok (device_flow_new (Some host)) ;;
  Some host.
End host.

(** ** Options *)

Section commands.
Context `{JsonNumber}.

Inductive ProviderOptionUpdate :=
| UpdateSource (value : option ProviderSourceMode)
| UpdateExternalOauthSources (value : option bool)
| UpdateCodexSparkVisible (value : option bool)
| UpdateDisplayToggle (key : str) (value : option bool)
| UpdateExtrasEnabled (value : option bool)
| UpdateCookieSource (value : option ProviderCookieSource)
| UpdateEnterpriseHost (value : option str)
| UpdateRegion (value : option str).

(** [None] stands for the messages. *)
Definition parse_boolean (value : str) : option bool :=
  if bool_decide (value = lit "true") then Some true
  else if bool_decide (value = lit "false") then Some false else None.
Definition parse_codex_source (value : str) : option ProviderSourceMode :=
  if bool_decide (value = lit "auto") then Some SourceAuto
  else if bool_decide (value = lit "pat") then Some SourcePat
  else if bool_decide (value = lit "oauth") then Some SourceOauth
  else if bool_decide (value = lit "cli") then Some SourceCli else None.
Definition parse_claude_source (value : str) : option ProviderSourceMode :=
  if bool_decide (value = lit "auto") then Some SourceAuto
  else if bool_decide (value = lit "oauth") then Some SourceOauth
  else if bool_decide (value = lit "cli") then Some SourceCli else None.
Definition parse_grok_source (value : str) : option ProviderSourceMode :=
  if bool_decide (value = lit "auto") then Some SourceAuto
  else if bool_decide (value = lit "cli") then Some SourceCli
  else if bool_decide (value = lit "oauth") then Some SourceOauth
  else if bool_decide (value = lit "web") then Some SourceWeb else None.
Definition parse_grok_cookie_source (value : str) : option ProviderCookieSource :=
  if bool_decide (value = lit "auto") then Some CookieAuto
  else if bool_decide (value = lit "manual") then Some CookieManual
  else if bool_decide (value = lit "off") then Some CookieOff else None.
Definition parse_copilot_cookie_source (value : str) : option ProviderCookieSource :=
  if bool_decide (value = lit "manual") then Some CookieManual else None.

(** [value.map(parse).transpose()] *)
Definition transpose {A B} (parse : A → option B) (value : option A) : option (option B) :=
  match value with None => Some None | Some value => Some <$> parse value end.

Definition validate_provider_option_value (control : ProviderSettingsControlDescriptor.t) (value : option str) : option unit :=
  match value with
  | None => Some tt
  | Some value =>
      match control with
      | ProviderSettingsControlDescriptor.Picker picker =>
          choice ← find (λ o, bool_decide (ProviderSettingChoice.as_str (ProviderSettingsPickerOption.choice o) = value))
                     (ProviderSettingsPickerDescriptor.options picker);
          if is_implemented (ProviderSettingsPickerOption.availability choice) then Some tt else None
      | ProviderSettingsControlDescriptor.Toggle _ => (λ _, tt) <$> parse_boolean value
      | ProviderSettingsControlDescriptor.PlainOption _ =>
          if is_empty value || negb (bool_decide (trim value = value)) || existsb is_control value then None else Some tt
      | ProviderSettingsControlDescriptor.SecretSlot _ => None
      end
  end.

(** The host parser is [parse_copilot_enterprise_host]; it is named so that the
    rest does not depend on the crates behind it. *)
Definition provider_option_update (parse_host : str → option str) (provider : ProviderId) (key : str) (value : option str) :
    option ProviderOptionUpdate :=
  descriptor ← settings_for provider;
  control ← find (λ control, bool_decide (ProviderSettingId.as_str (ProviderSettingsItemMetadata.id (item control)) = key))
    (ProviderSettingsDescriptor.controls descriptor);
  if negb (is_implemented (ProviderSettingsItemMetadata.availability (item control))) then None else
  validate_provider_option_value control value ;;
  match ProviderSettingsItemMetadata.id (item control) with
  | ProviderSettingId.CodexUsageSource => UpdateSource <$> transpose parse_codex_source value
  | ProviderSettingId.ClaudeUsageSource => UpdateSource <$> transpose parse_claude_source value
  | ProviderSettingId.GrokUsageSource => UpdateSource <$> transpose parse_grok_source value
  | ProviderSettingId.GrokCookieSource => UpdateCookieSource <$> transpose parse_grok_cookie_source value
  | ProviderSettingId.CodexLocalSessionCostLedger =>
      UpdateDisplayToggle (lit "local_session_cost_ledger") <$> transpose parse_boolean value
  | ProviderSettingId.ClaudeDailyRoutinesUsageVisible =>
      UpdateDisplayToggle (lit "daily_routines_usage_visible") <$> transpose parse_boolean value
  | ProviderSettingId.CodexSparkUsageVisible => UpdateCodexSparkVisible <$> transpose parse_boolean value
  | ProviderSettingId.CodexExternalOauthSources => UpdateExternalOauthSources <$> transpose parse_boolean value
  | ProviderSettingId.CopilotBudgetExtras => UpdateExtrasEnabled <$> transpose parse_boolean value
  | ProviderSettingId.CopilotBudgetCookieSource => UpdateCookieSource <$> transpose parse_copilot_cookie_source value
  | ProviderSettingId.CopilotEnterpriseHost => UpdateEnterpriseHost <$> transpose parse_host value
  | ProviderSettingId.ZaiApiRegion => Some (UpdateRegion value)
  | _ => None
  end.

(** [BTreeMap::insert] and [remove] on the ordered association list. *)
Fixpoint btree_insert {V} (key : str) (value : V) (l : list (str * V)) : list (str * V) :=
  match l with
  | [] => [(key, value)]
  | (k, v) :: l' =>
      match cmp key k with
      | Lt => (key, value) :: l
      | Eq => (key, value) :: l'
      | Gt => (k, v) :: btree_insert key value l'
      end
  end.
Definition btree_remove {V} (key : str) (l : list (str * V)) : list (str * V) :=
  filter (λ entry, bool_decide (entry.1 = key) = false) l.

Definition with_source (value : option ProviderSourceMode) (o : ProviderOptions) : ProviderOptions :=
  mk_options value (cookie_source o) (extras_enabled o) (region o) (workspace o) (project o) (organization o) (team o)
    (enterprise_host o) (deployment o) (extensions o).
Definition with_cookie_source (value : option ProviderCookieSource) (o : ProviderOptions) : ProviderOptions :=
  mk_options (Config.source o) value (extras_enabled o) (region o) (workspace o) (project o) (organization o) (team o)
    (enterprise_host o) (deployment o) (extensions o).
Definition with_extras_enabled (value : option bool) (o : ProviderOptions) : ProviderOptions :=
  mk_options (Config.source o) (cookie_source o) value (region o) (workspace o) (project o) (organization o) (team o)
    (enterprise_host o) (deployment o) (extensions o).
Definition with_region (value : option str) (o : ProviderOptions) : ProviderOptions :=
  mk_options (Config.source o) (cookie_source o) (extras_enabled o) value (workspace o) (project o) (organization o) (team o)
    (enterprise_host o) (deployment o) (extensions o).
Definition with_enterprise_host (value : option str) (o : ProviderOptions) : ProviderOptions :=
  mk_options (Config.source o) (cookie_source o) (extras_enabled o) (region o) (workspace o) (project o) (organization o) (team o)
    value (deployment o) (extensions o).
Definition with_toggle (key : str) (value : option bool) (o : ProviderOptions) : ProviderOptions :=
  mk_options (Config.source o) (cookie_source o) (extras_enabled o) (region o) (workspace o) (project o) (organization o) (team o)
    (enterprise_host o) (deployment o)
    (match value with
     | Some value => btree_insert key (OptionBoolean value) (extensions o)
     | None => btree_remove key (extensions o)
     end).
Definition update_options (update : ProviderOptionUpdate) (o : ProviderOptions) : ProviderOptions :=
  match update with
  | UpdateDisplayToggle key value => with_toggle key value o
  | UpdateSource value => with_source value o
  | UpdateExternalOauthSources value => with_toggle (lit "external_oauth_sources") value o
  | UpdateCodexSparkVisible value => with_toggle (lit "spark_usage_visible") value o
  | UpdateExtrasEnabled value => with_extras_enabled value o
  | UpdateCookieSource value => with_cookie_source value o
  | UpdateEnterpriseHost value => with_enterprise_host value o
  | UpdateRegion value => with_region value o
  end.
Definition with_options (f : ProviderOptions → ProviderOptions) (r : ProviderConfig) : ProviderConfig :=
  mk_provider (provider_id r) (instance_id r) (enabled r) (endpoint r) (config_path r) (f (options r)) (accounts r).
Definition apply_provider_option_update (update : ProviderOptionUpdate) (route : ProviderConfig) : ProviderConfig :=
  with_options (update_options update) route.
Definition with_enabled (enabled : bool) (r : ProviderConfig) : ProviderConfig :=
  mk_provider (provider_id r) (instance_id r) enabled (endpoint r) (config_path r) (options r) (accounts r).
Definition with_endpoint (endpoint : option str) (r : ProviderConfig) : ProviderConfig :=
  mk_provider (provider_id r) (instance_id r) (enabled r) endpoint (config_path r) (options r) (accounts r).

(** ** Edits of a configuration *)

Definition default_instance : ProviderInstanceId := ProviderInstanceId.mk (lit "default").
Definition options_default : ProviderOptions := mk_options None None None None None None None None None None [].
(** The route that a command inserts. *)
Definition new_route (provider : ProviderId) (enabled : bool) : ProviderConfig :=
  mk_provider provider default_instance enabled None None options_default [].
Definition empty_config : AppConfig := mk_config CURRENT_SCHEMA_VERSION [] [].
Definition is_default_route (provider : ProviderId) (route : ProviderConfig) : bool :=
  bool_decide (provider_id route = provider) && bool_decide (instance_id route = default_instance).
(** The first default route of the provider, changed in place. *)
Fixpoint change_default (provider : ProviderId) (f : ProviderConfig → ProviderConfig) (routes : list ProviderConfig) :
    option (list ProviderConfig) :=
  match routes with
  | [] => None
  | route :: routes =>
      if is_default_route provider route then Some (f route :: routes)
      else cons route <$> change_default provider f routes
  end.
(** Found and changed, or inserted (disabled) and changed, and listed in the order. *)
Definition edit_route (provider : ProviderId) (f : ProviderConfig → ProviderConfig) (config : AppConfig) : AppConfig :=
  match change_default provider f (providers config) with
  | Some routes => mk_config (schema_version config) routes (provider_order config)
  | None =>
      mk_config (schema_version config) (providers config ++ [f (new_route provider false)])
        (if bool_decide (provider ∈ provider_order config) then provider_order config
         else provider_order config ++ [provider])
  end.
Definition edit_option (provider : ProviderId) (update : ProviderOptionUpdate) : AppConfig → AppConfig :=
  edit_route provider (apply_provider_option_update update).
Definition edit_enabled (provider : ProviderId) (enabled : bool) : AppConfig → AppConfig :=
  edit_route provider (with_enabled enabled).
Definition edit_endpoint (provider : ProviderId) (endpoint : option str) : AppConfig → AppConfig :=
  edit_route provider (with_endpoint endpoint).

(** The loop over the requested names; [seen] is the set of what it has. *)
Fixpoint requested_order (seen : list ProviderId) (names : list str) : option (list ProviderId) :=
  match names with
  | [] => Some []
  | name :: names =>
      provider ← result_ok (ProviderId.from_str name);
      if bool_decide (provider ∈ seen) then None else cons provider <$> requested_order (provider :: seen) names
  end.
Definition parse_order (names : list str) : option (list ProviderId) :=
  requested ← requested_order [] names;
  if is_empty requested || (count ProviderId.ALL <? count requested) then None else Some requested.
Fixpoint insert_missing (requested : list ProviderId) (routes : list ProviderConfig) : list ProviderConfig :=
  match requested with
  | [] => routes
  | provider :: requested =>
      insert_missing requested
        (if existsb (λ route, bool_decide (provider_id route = provider)) routes then routes
         else routes ++ [new_route provider true])
  end.
Definition edit_order (requested : list ProviderId) (config : AppConfig) : AppConfig :=
  mk_config (schema_version config) (insert_missing requested (providers config))
    (requested ++ filter (λ provider, provider ∉ requested) (provider_order config)).

(** ** The programs *)

(** serde_json's pretty printing of the document. *)
Class ConfigWriter := config_to_vec_pretty : AppConfig → option (list Z).
Context `{!ConfigJson, UrlCrate, ConfigWriter}.
Notation Command := (IO AppExitCode).
Definition command_result {A} (r : Result AppExitCode A) : Command A := Ret r.

Definition read_config (path : list Z) : Command AppConfig :=
  contents ← io_map_err (λ _, Internal) (read_private_file path MAX_CONFIG_BYTES);
  match contents with
  | Some bytes => command_result (map_err (λ _, Usage) (load_config_bytes bytes))
  | None => mret empty_config
  end.
Definition write_config (path : list Z) (config : AppConfig) : Command unit :=
  bytes ← command_result (ok_or (config_to_vec_pretty config) Internal);
  io_map_err (λ _, Internal) (atomic_write path (bytes ++ [10])).
Definition validated (config : AppConfig) : Command unit := command_result (map_err (λ _, Usage) (validate_config config)).
Definition parsed_provider (provider : str) : Command ProviderId :=
  command_result (map_err (λ _, Usage) (ProviderId.from_str provider)).
(** [paths.create_private_directories()], whose outcome is given. *)
Definition private_directories (created : bool) : Command unit := command_result (ensure created Internal).

Definition set_provider_option (parse_host : str → option str) (created : bool) (path : list Z) (provider key : str)
    (value : option str) : Command unit :=
  provider ← parsed_provider provider;
  update ← command_result (ok_or (provider_option_update parse_host provider key value) Usage);
  private_directories created ;;
  config ← read_config path;
  let config := edit_option provider update config in
  validated config ;;
  write_config path config.
Definition set_provider_enabled (created : bool) (path : list Z) (provider : str) (enabled : bool) : Command unit :=
  provider ← parsed_provider provider;
  private_directories created ;;
  config ← read_config path;
  write_config path (edit_enabled provider enabled config).
Definition set_provider_order (created : bool) (path : list Z) (names : list str) : Command unit :=
  requested ← command_result (ok_or (parse_order names) Usage);
  private_directories created ;;
  config ← read_config path;
  let config := edit_order requested config in
  validated config ;;
  write_config path config.
Definition set_provider_endpoint (created : bool) (path : list Z) (provider : str) (endpoint : option str) : Command unit :=
  provider ← parsed_provider provider;
  if negb (supports_provider_endpoint provider) then io_fail Usage else
  private_directories created ;;
  config ← read_config path;
  let config := edit_endpoint provider endpoint config in
  validated config ;;
  write_config path config.
Definition initialize_config (created : bool) (path : list Z) (force : bool) : Command unit :=
  private_directories created ;;
  (if force then mret tt else
     contents ← io_map_err (λ _, Internal) (read_private_file path MAX_CONFIG_BYTES);
     match contents with Some _ => io_fail Usage | None => mret tt end) ;;
  write_config path empty_config.
End commands.
Arguments ConfigWriter {_}.
