(* ===== verification/ConfigCommandsFacts.v ===== *)
(** * The commands that change the configuration: the guarantees

    Which options are accepted and what each one changes, what the adapters then
    read, and that a command replaces the document atomically by a valid one that
    loads again. *)
From stdpp Require Import gmap countable prelude.
From S2P Require Import Prelude Ordering Text Externals Scope Errors Endpoint Config AtomicFile AtomicFileFacts AtomicFileSpec Settings Environment EnvironmentFacts ConfigCommands.
Local Open Scope Z_scope.

(** ** Which options are accepted *)

Section options.
Context `{JsonNumber}.
(** What the schema offers for a control: a listed choice that is implemented, a
    Boolean, a well-formed text, or to clear it; never a secret. *)
Definition offers (parse_host : str → option str) (c : ProviderSettingsControlDescriptor.t) (value : option str) : Prop :=
  match c, value with
  | ProviderSettingsControlDescriptor.SecretSlot _, _ => False
  | _, None => True
  | ProviderSettingsControlDescriptor.Picker p, Some v =>
      ∃ o, o ∈ ProviderSettingsPickerDescriptor.options p ∧ is_implemented (ProviderSettingsPickerOption.availability o) = true ∧
        ProviderSettingChoice.as_str (ProviderSettingsPickerOption.choice o) = v
  | ProviderSettingsControlDescriptor.Toggle _, Some v => v = lit "true" ∨ v = lit "false"
  | ProviderSettingsControlDescriptor.PlainOption _, Some v =>
      v ≠ [] ∧ trim v = v ∧ Forall (λ c, is_control c = false) v ∧ is_Some (parse_host v)
  end.

Lemma schemas_distinct provider d : settings_for provider = Some d →
  NoDup (control_id <$> ProviderSettingsDescriptor.controls d).
Proof.
  intros Hs. destruct (schemas_checked provider d Hs) as (Hok & _). unfold schema_closed in Hok.
  rewrite !andb_true_iff, !bool_decide_eq_true in Hok. tauto.
Qed.
Definition by_key (d : ProviderSettingsDescriptor.t) (key : str) : option ProviderSettingsControlDescriptor.t :=
  find (λ control, bool_decide (ProviderSettingId.as_str (ProviderSettingsItemMetadata.id (item control)) = key))
    (ProviderSettingsDescriptor.controls d).
Lemma by_key_Some provider d key c : settings_for provider = Some d →
  by_key d key = Some c ↔ c ∈ ProviderSettingsDescriptor.controls d ∧ ProviderSettingId.as_str (control_id c) = key.
Proof.
  intros Hs. pose proof (schemas_distinct provider d Hs) as Hnd. split.
  - intros [Hin Hk%bool_decide_eq_true]%find_some. by apply list_elem_of_In in Hin.
  - intros [Hin <-]. unfold by_key. revert Hnd Hin. generalize (ProviderSettingsDescriptor.controls d). intros l.
    induction l as [|x l IH]; [by intros _ ?%elem_of_nil|]. rewrite fmap_cons.
    intros [Hn Hd]%NoDup_cons [->|Hin]%elem_of_cons; cbn [find]; [by rewrite bool_decide_eq_true_2|].
    rewrite bool_decide_eq_false_2; [by apply IH|]. intros E%as_str_inj. apply Hn. unfold control_id at 1. rewrite E.
    by apply list_elem_of_fmap_2.
Qed.

(** The table agrees with the handler: for each implemented control that is not a
    secret, clearing it and every offered choice is connected to an update. *)
Definition connected (provider : ProviderId) (c : ProviderSettingsControlDescriptor.t) (value : option str) : bool :=
  bool_decide (is_Some (provider_option_update (λ _, None) provider (ProviderSettingId.as_str (control_id c)) value)).
Definition wired (provider : ProviderId) (c : ProviderSettingsControlDescriptor.t) : bool :=
  negb (control_is_implemented c) ||
  match c with
  | ProviderSettingsControlDescriptor.Picker p =>
      connected provider c None &&
      forallb (λ o, negb (is_implemented (ProviderSettingsPickerOption.availability o))
                    || connected provider c (Some (ProviderSettingChoice.as_str (ProviderSettingsPickerOption.choice o))))
        (ProviderSettingsPickerDescriptor.options p)
  | ProviderSettingsControlDescriptor.Toggle _ =>
      connected provider c None && connected provider c (Some (lit "true")) && connected provider c (Some (lit "false"))
  | ProviderSettingsControlDescriptor.PlainOption _ =>
      connected provider c None && bool_decide (control_id c = ProviderSettingId.CopilotEnterpriseHost)
  | ProviderSettingsControlDescriptor.SecretSlot _ => negb (connected provider c None)
  end.
Lemma tables_wired provider d : settings_for provider = Some d → forallb (wired provider) (ProviderSettingsDescriptor.controls d) = true.
Proof. unfold settings_for. destruct provider; intros [= <-]; vm_compute; reflexivity. Qed.
Definition update_for (parse_host : str → option str) (id : ProviderSettingId.t) (value : option str) : option ProviderOptionUpdate :=
  match id with
  | ProviderSettingId.CodexUsageSource => UpdateSource <$> transpose parse_codex_source value
  | ProviderSettingId.ClaudeUsageSource => UpdateSource <$> transpose parse_claude_source value
  | ProviderSettingId.GrokUsageSource => UpdateSource <$> transpose parse_grok_source value
  | ProviderSettingId.GrokCookieSource => UpdateCookieSource <$> transpose parse_grok_cookie_source value
  | ProviderSettingId.CodexLocalSessionCostLedger =>
      UpdateDisplayToggle (lit "local_session_cost_ledger") <$> transpose parse_boolean value
  | ProviderSettingId.ClaudeDailyRoutinesUsageVisible =>
      UpdateDisplayToggle (lit "daily_routines_usage_visible") <$> transpose parse_boolean value
  | ProviderSettingId.CodexSparkUsageVisible => UpdateCodexSparkVisible <$> transpose parse_boolean value
  | ProviderSettingId.CodexExternalOauthSources => UpdateExternalOauthSources <$> transpose parse_boolean value
  | ProviderSettingId.CopilotBudgetExtras => UpdateExtrasEnabled <$> transpose parse_boolean value
  | ProviderSettingId.CopilotBudgetCookieSource => UpdateCookieSource <$> transpose parse_copilot_cookie_source value
  | ProviderSettingId.CopilotEnterpriseHost => UpdateEnterpriseHost <$> transpose parse_host value
  | ProviderSettingId.ZaiApiRegion => Some (UpdateRegion value)
  | _ => None
  end.
Lemma update_unfold parse_host provider d key value c : settings_for provider = Some d → by_key d key = Some c →
  provider_option_update parse_host provider key value =
  if negb (control_is_implemented c) then None
  else validate_provider_option_value c value ;; update_for parse_host (control_id c) value.
Proof. intros Hd Hk. unfold provider_option_update. rewrite Hd. cbn [mbind option_bind]. unfold by_key in Hk. by rewrite Hk. Qed.
Lemma update_None parse_host provider key value : 
  (settings_for provider = None ∨ ∃ d, settings_for provider = Some d ∧ by_key d key = None) →
  provider_option_update parse_host provider key value = None.
Proof.
  intros [Hd|(d & Hd & Hk)]; unfold provider_option_update; rewrite Hd; [done|]. cbn [mbind option_bind]. unfold by_key in Hk. by rewrite Hk.
Qed.
Lemma update_for_host parse_host parse_host' id value : id ≠ ProviderSettingId.CopilotEnterpriseHost →
  update_for parse_host id value = update_for parse_host' id value.
Proof. by destruct id. Qed.
(** A connection that needs no host parser is one with any; clearing needs none. *)
Lemma update_for_any parse_host id value : is_Some (update_for (λ _, None) id value) → is_Some (update_for parse_host id value).
Proof.
  destruct (decide (id = ProviderSettingId.CopilotEnterpriseHost)) as [->|Hn]; [|by rewrite (update_for_host _ parse_host)].
  cbn [update_for]. destruct value as [v|]; [|by eexists]. intros [u Hu]. by apply fmap_Some in Hu as (? & Hx & _).
Qed.
Lemma update_for_clear parse_host id : update_for parse_host id None = update_for (λ _, None) id None.
Proof. by destruct id. Qed.
Lemma connected_any parse_host provider d c value : settings_for provider = Some d → c ∈ ProviderSettingsDescriptor.controls d →
  connected provider c value = true →
  is_Some (provider_option_update parse_host provider (ProviderSettingId.as_str (control_id c)) value).
Proof.
  intros Hd Hc. assert (by_key d (ProviderSettingId.as_str (control_id c)) = Some c) as Hk by (by apply (by_key_Some provider d)).
  unfold connected. rewrite bool_decide_eq_true, !(update_unfold _ _ _ _ _ _ Hd Hk). destruct (negb _); [done|].
  destruct (validate_provider_option_value c value) as [[]|]; [|done]. apply update_for_any.
Qed.
Lemma connected_clear parse_host provider d c : settings_for provider = Some d → c ∈ ProviderSettingsDescriptor.controls d →
  is_Some (provider_option_update parse_host provider (ProviderSettingId.as_str (control_id c)) None) → connected provider c None = true.
Proof.
  intros Hd Hc. assert (by_key d (ProviderSettingId.as_str (control_id c)) = Some c) as Hk by (by apply (by_key_Some provider d)).
  unfold connected. rewrite bool_decide_eq_true, !(update_unfold _ _ _ _ _ _ Hd Hk). by rewrite update_for_clear.
Qed.
Lemma parse_boolean_Some v b : parse_boolean v = Some b → v = bool_text b.
Proof. unfold parse_boolean. repeat case_bool_decide; intros [= <-]; done. Qed.

(** What the schema offers is what the command accepts. *)
Lemma update_accepted parse_host provider d c value : settings_for provider = Some d → c ∈ ProviderSettingsDescriptor.controls d →
  is_Some (provider_option_update parse_host provider (ProviderSettingId.as_str (control_id c)) value) ↔
  control_is_implemented c = true ∧ offers parse_host c value.
Proof.
  intros Hd Hc. assert (by_key d (ProviderSettingId.as_str (control_id c)) = Some c) as Hk by (by apply (by_key_Some provider d)).
  pose proof (tables_wired provider d Hd) as Hw. rewrite forallb_forall in Hw. specialize (Hw c (proj1 (list_elem_of_In _ _) Hc)).
  unfold wired in Hw.
  destruct (control_is_implemented c) eqn:Hi; cbn [negb orb] in Hw.
  2:{ rewrite (update_unfold _ _ _ _ _ _ Hd Hk), Hi. split; [intros []|intros []]; done. }
  split.
  - intros Hs. split; [done|]. pose proof Hs as [u Hu]. rewrite (update_unfold _ _ _ _ _ _ Hd Hk), Hi in Hu. cbn [negb] in Hu.
    apply bind_Some in Hu as ([] & Hv & Hu). destruct c as [p|t|o|s], value as [v|]; cbn [offers]; cbn in Hv; try done.
    + apply bind_Some in Hv as (o & [Hin%list_elem_of_In Ho%bool_decide_eq_true]%find_some & Hv).
      exists o. split; [done|]. by destruct (is_implemented (ProviderSettingsPickerOption.availability o)).
    + apply fmap_Some in Hv as (b & ->%parse_boolean_Some & _). by destruct b; [left|right].
    + apply andb_true_iff in Hw as [_ Hid%bool_decide_eq_true]. rewrite Hid in Hu. cbn [update_for] in Hu.
      apply fmap_Some in Hu as (h & Hh & _). cbn in Hh. apply fmap_Some in Hh as (h' & Hh & _).
      destruct (is_empty v) eqn:He; [done|]. destruct (bool_decide (trim v = v)) eqn:Ht; [|done]. apply bool_decide_eq_true in Ht.
      destruct (existsb is_control v) eqn:Hctl; [done|]. split; [by destruct v|]. split; [done|]. split; [by apply existsb_false|by exists h'].
    + by rewrite (connected_clear parse_host provider d _ Hd Hc Hs) in Hw.
  - intros [_ Ho]. destruct c as [p|t|o|s], value as [v|]; cbn [offers] in Ho; try done;
      try (apply (connected_any parse_host provider d); [done|done|by repeat apply andb_true_iff in Hw as [Hw _]]).
    + apply andb_true_iff in Hw as [_ Hall]. destruct Ho as (o & Hin & Ho & <-). rewrite forallb_forall in Hall.
      specialize (Hall o (proj1 (list_elem_of_In _ _) Hin)). rewrite Ho in Hall. by apply (connected_any parse_host provider d).
    + apply andb_true_iff in Hw as [[_ Ht]%andb_true_iff Hf]. destruct Ho as [->| ->]; by apply (connected_any parse_host provider d).
    + apply andb_true_iff in Hw as [_ Hid%bool_decide_eq_true]. destruct Ho as (Hn & Ht & Hc' & h & Hh).
      rewrite (update_unfold _ _ _ _ _ _ Hd Hk), Hi, Hid. cbn [negb update_for transpose validate_provider_option_value].
      destruct v as [|x v]; [done|]. cbn [is_empty]. rewrite bool_decide_eq_true_2 by done. rewrite (proj2 (existsb_false _ _) Hc'). cbn [negb orb].
      rewrite Hh. by eexists.
Qed.

(** ** What an option changes *)

(** The options of a provider's default route; none, where there is no route. *)
Definition options_of (config : AppConfig) (provider : ProviderId) : ProviderOptions :=
  match default_route (Some config) provider with Some route => options route | None => options_default end.
Definition source_text (s : ProviderSourceMode) : str :=
  match s with SourcePat => lit "pat" | _ => default [] (grok_source_text s) end.
Definition toggle_text (key : str) (o : ProviderOptions) : option str :=
  match btree_get key (extensions o) with Some (OptionBoolean b) => Some (bool_text b) | _ => None end.
(** A setting as the command's text: which provider's options hold it, and where. *)
Definition setting_owner (id : ProviderSettingId.t) : ProviderId :=
  match id with
  | ProviderSettingId.CodexUsageSource | ProviderSettingId.CodexLocalSessionCostLedger
  | ProviderSettingId.CodexSparkUsageVisible | ProviderSettingId.CodexExternalOauthSources => ProviderId.Codex
  | ProviderSettingId.ClaudeUsageSource | ProviderSettingId.ClaudeDailyRoutinesUsageVisible => ProviderId.Claude
  | ProviderSettingId.GrokUsageSource | ProviderSettingId.GrokCookieSource => ProviderId.Grok
  | ProviderSettingId.ZaiApiRegion => ProviderId.Zai
  | _ => ProviderId.Copilot
  end.
Definition setting_in (id : ProviderSettingId.t) (o : ProviderOptions) : option str :=
  match id with
  | ProviderSettingId.CodexUsageSource | ProviderSettingId.ClaudeUsageSource | ProviderSettingId.GrokUsageSource =>
      source_text <$> Config.source o
  | ProviderSettingId.GrokCookieSource | ProviderSettingId.CopilotBudgetCookieSource => cookie_source_text <$> cookie_source o
  | ProviderSettingId.CodexLocalSessionCostLedger => toggle_text (lit "local_session_cost_ledger") o
  | ProviderSettingId.ClaudeDailyRoutinesUsageVisible => toggle_text (lit "daily_routines_usage_visible") o
  | ProviderSettingId.CodexSparkUsageVisible => toggle_text (lit "spark_usage_visible") o
  | ProviderSettingId.CodexExternalOauthSources => toggle_text (lit "external_oauth_sources") o
  | ProviderSettingId.CopilotBudgetExtras => bool_text <$> extras_enabled o
  | ProviderSettingId.CopilotEnterpriseHost => enterprise_host o
  | ProviderSettingId.ZaiApiRegion => region o
  | _ => None
  end.
Definition setting (config : AppConfig) (id : ProviderSettingId.t) : option str :=
  setting_in id (options_of config (setting_owner id)).

Lemma bool_decide_sym {A} `{EqDecision A} (x y : A) : bool_decide (x = y) = bool_decide (y = x).
Proof. apply bool_decide_ext. split; congruence. Qed.
Lemma btree_get_insert {V} key (v : V) l k : btree_get k (btree_insert key v l) = if bool_decide (k = key) then Some v else btree_get k l.
Proof.
  unfold btree_get. induction l as [|[k0 v0] l IH]; cbn [btree_insert].
  { cbn [find fst]. rewrite (bool_decide_sym key k). by case_bool_decide. }
  destruct (cmp key k0) eqn:Hc; cbn [find fst].
  - apply cmp_eq in Hc as ->. rewrite (bool_decide_sym k0 k). by case_bool_decide.
  - rewrite (bool_decide_sym key k). by case_bool_decide.
  - destruct (decide (k0 = k)) as [->|Hne].
    + rewrite (bool_decide_eq_true_2 (k = k)) by done. rewrite bool_decide_eq_false_2; [done|].
      intros ->. rewrite (proj2 (cmp_eq key key) eq_refl) in Hc. done.
    + by rewrite (bool_decide_eq_false_2 (k0 = k)).
Qed.
Lemma btree_get_remove {V} key (l : list (str * V)) k : btree_get k (btree_remove key l) = if bool_decide (k = key) then None else btree_get k l.
Proof.
  unfold btree_get, btree_remove. induction l as [|[k0 v0] l IH]; [by case_bool_decide|]. rewrite filter_cons. cbn [fst].
  destruct (decide (k0 = key)) as [->|Hne].
  - rewrite decide_False by (by rewrite bool_decide_eq_true_2). rewrite IH. cbn [find fst].
    rewrite (bool_decide_sym key k). by case_bool_decide.
  - rewrite decide_True by (by apply bool_decide_eq_false_2). cbn [find fst]. destruct (decide (k0 = k)) as [->|Hk].
    + rewrite (bool_decide_eq_true_2 (k = k)) by done. by rewrite (bool_decide_eq_false_2 (k = key)).
    + by rewrite (bool_decide_eq_false_2 (k0 = k)).
Qed.
Lemma toggle_text_with key value o k :
  toggle_text k (with_toggle key value o) = if bool_decide (k = key) then bool_text <$> value else toggle_text k o.
Proof.
  unfold toggle_text, with_toggle. cbn [extensions]. destruct value as [b|].
  - rewrite btree_get_insert. by case_bool_decide.
  - rewrite btree_get_remove. by case_bool_decide.
Qed.

(** The default routes of an edited configuration. *)
Lemma default_instance_is route : is_default_instance route = bool_decide (instance_id route = default_instance).
Proof.
  unfold is_default_instance. apply bool_decide_ext. destruct (instance_id route) as [i]. cbn. unfold default_instance.
  split; [by intros ->|by intros [= ->]].
Qed.
Lemma default_route_find config provider : default_route (Some config) provider = find (is_default_route provider) (providers config).
Proof.
  unfold default_route. cbn [mbind option_bind]. induction (providers config) as [|r l IH]; [done|]. cbn [find]. rewrite default_instance_is.
  unfold is_default_route. by destruct (_ && _).
Qed.
(** A change that leaves a route where it is. *)
Definition in_place (f : ProviderConfig → ProviderConfig) : Prop :=
  ∀ r, provider_id (f r) = provider_id r ∧ instance_id (f r) = instance_id r.
Lemma is_default_in_place f p r : in_place f → is_default_route p (f r) = is_default_route p r.
Proof. intros Hf. unfold is_default_route. by destruct (Hf r) as [-> ->]. Qed.
Lemma change_default_find p f l : in_place f →
  match change_default p f l with
  | Some l' => ∃ r, find (is_default_route p) l = Some r ∧ ∀ q, find (is_default_route q) l' =
                 if bool_decide (q = p) then Some (f r) else find (is_default_route q) l
  | None => find (is_default_route p) l = None
  end.
Proof.
  intros Hf. induction l as [|r l IH]; [done|]. cbn [change_default find]. destruct (is_default_route p r) eqn:Hr.
  - exists r. split; [done|]. intros q. cbn [find]. rewrite is_default_in_place by done. case_bool_decide as Hq.
    + subst. by rewrite Hr.
    + assert (is_default_route q r = false) as ->; [|done]. unfold is_default_route in *.
      apply andb_true_iff in Hr as [->%bool_decide_eq_true _]. by rewrite bool_decide_eq_false_2 by congruence.
  - destruct (change_default p f l) as [l'|]; cbn [fmap option_fmap option_map]; [|done].
    destruct IH as (r' & Hr' & Hq). exists r'. split; [done|]. intros q. cbn [find]. destruct (is_default_route q r) eqn:Hqr.
    + case_bool_decide; [|done]. subst. congruence.
    + apply Hq.
Qed.
Lemma find_app {A} (f : A → bool) l k : find f (l ++ k) = match find f l with Some x => Some x | None => find f k end.
Proof. induction l as [|x l IH]; [done|]. cbn. by destruct (f x). Qed.
Lemma edit_route_default p f config q : in_place f →
  default_route (Some (edit_route p f config)) q =
  if bool_decide (q = p) then Some (f (default (new_route p false) (default_route (Some config) p))) else default_route (Some config) q.
Proof.
  intros Hf. rewrite !default_route_find. unfold edit_route. pose proof (change_default_find p f (providers config) Hf) as Hc.
  destruct (change_default p f (providers config)) as [l|].
  - destruct Hc as (r & -> & Hq). cbn [providers]. by rewrite Hq.
  - rewrite Hc. cbn [providers default]. rewrite find_app. cbn [find]. rewrite is_default_in_place by done. unfold is_default_route at 2.
    cbn [new_route provider_id instance_id]. rewrite (bool_decide_eq_true_2 (default_instance = _)), andb_true_r by done.
    rewrite (bool_decide_sym p q). case_bool_decide; [subst; by rewrite Hc|]. by destruct (find (is_default_route q) (providers config)).
Qed.
Lemma options_in_place g : in_place (with_options g).
Proof. by intros r. Qed.
Lemma edit_option_options p u config q :
  options_of (edit_option p u config) q = if bool_decide (q = p) then update_options u (options_of config p) else options_of config q.
Proof.
  unfold options_of, edit_option, apply_provider_option_update. rewrite edit_route_default by apply options_in_place.
  case_bool_decide; [|done]. subst. by destruct (default_route (Some config) p).
Qed.
Lemma transpose_text {A} (parse : str → option A) (text : A → str) value v :
  (∀ s m, parse s = Some m → s = text m) → transpose parse value = Some v → text <$> v = value.
Proof.
  intros Hp. destruct value as [s|]; cbn; [|by intros [= <-]]. intros (m & Hm & ->)%fmap_Some. cbn. by rewrite <-(Hp s m Hm).
Qed.
Ltac parse_text := let s := fresh in let m := fresh in intros s m; repeat (case_bool_decide; [subst; by intros [= <-]|]); done.
Lemma codex_source_text s m : parse_codex_source s = Some m → s = source_text m.
Proof. unfold parse_codex_source. revert s m. parse_text. Qed.
Lemma claude_source_text s m : parse_claude_source s = Some m → s = source_text m.
Proof. unfold parse_claude_source. revert s m. parse_text. Qed.
Lemma grok_source_text' s m : parse_grok_source s = Some m → s = source_text m.
Proof. unfold parse_grok_source. revert s m. parse_text. Qed.
Lemma grok_cookie_text s m : parse_grok_cookie_source s = Some m → s = cookie_source_text m.
Proof. unfold parse_grok_cookie_source. revert s m. parse_text. Qed.
Lemma copilot_cookie_text s m : parse_copilot_cookie_source s = Some m → s = cookie_source_text m.
Proof. unfold parse_copilot_cookie_source. revert s m. parse_text. Qed.

(** The setting an update is for, as a text, and what it leaves alone. *)
Definition new_text (parse_host : str → option str) (id : ProviderSettingId.t) (value : option str) : option str :=
  match id with ProviderSettingId.CopilotEnterpriseHost => value ≫= parse_host | _ => value end.
Ltac decide_constants :=
  repeat match goal with
  | |- context [bool_decide (?a = ?b)] =>
      first [rewrite (bool_decide_eq_true_2 (a = b)) by reflexivity
            |rewrite (bool_decide_eq_false_2 (a = b)) by (apply (bool_decide_eq_false_1 _); vm_compute; reflexivity)]
  end.
Lemma update_setting parse_host id value u id' o : update_for parse_host id value = Some u → setting_owner id' = setting_owner id →
  setting_in id' (update_options u o) = if bool_decide (id' = id) then new_text parse_host id value else setting_in id' o.
Proof.
  intros Hu Ho. destruct id; cbn [update_for] in Hu; try discriminate Hu;
    try (apply fmap_Some in Hu as (v & Hv & ->));
    destruct id'; cbn [setting_owner] in Ho; try discriminate Ho; cbn [setting_in update_options];
    rewrite ?toggle_text_with; decide_constants; cbn [new_text]; try reflexivity.
  all: try (by apply (transpose_text _ _ _ _ parse_boolean_Some)).
  - by apply (transpose_text _ _ _ _ codex_source_text).
  - by apply (transpose_text _ _ _ _ claude_source_text).
  - by apply (transpose_text _ _ _ _ grok_source_text').
  - by apply (transpose_text _ _ _ _ grok_cookie_text).
  - by apply (transpose_text _ _ _ _ copilot_cookie_text).
  - destruct value as [s|]; cbn in Hv |- *; [|by injection Hv as <-]. by apply fmap_Some in Hv as (h & -> & ->).
  - by injection Hu as <-.
Qed.
Lemma setting_owned parse_host provider d c value u : settings_for provider = Some d → c ∈ ProviderSettingsDescriptor.controls d →
  update_for parse_host (control_id c) value = Some u → setting_owner (control_id c) = provider.
Proof.
  intros Hd Hc Hu. pose proof (control_owner provider d c Hd Hc) as Ho. revert Hu Ho. generalize (control_id c). intros id.
  destruct id; cbn [update_for]; try discriminate; intros _ Ho;
    match type of Ho with _ ∈ owner ?i => assert (owner i = [setting_owner i]) as E by (vm_compute; reflexivity) end;
    rewrite E in Ho; by apply list_elem_of_singleton in Ho as ->.
Qed.
Lemma update_changes parse_host provider key value u : provider_option_update parse_host provider key value = Some u →
  ∃ id, ProviderSettingId.as_str id = key ∧ setting_owner id = provider ∧ ∀ config id',
    setting (edit_option provider u config) id' = if bool_decide (id' = id) then new_text parse_host id value else setting config id'.
Proof.
  intros Hu. destruct (settings_for provider) as [d|] eqn:Hd; [|rewrite update_None in Hu; [done|by left]].
  destruct (by_key d key) as [c|] eqn:Hk; [|rewrite update_None in Hu; [done|right; by exists d]].
  rewrite (update_unfold _ _ _ _ _ _ Hd Hk) in Hu. destruct (negb _); [done|]. apply bind_Some in Hu as (_ & _ & Hu).
  apply (by_key_Some provider d) in Hk as [Hc <-]; [|done]. pose proof (setting_owned _ _ _ _ _ _ Hd Hc Hu) as Ho.
  exists (control_id c). split; [done|]. split; [done|]. intros config id'. unfold setting. rewrite edit_option_options.
  destruct (decide (setting_owner id' = provider)) as [Hid|Hid].
  - rewrite (bool_decide_eq_true_2 (_ = provider)) by done. rewrite Hid. apply (update_setting _ _ _ _ _ _ Hu). congruence.
  - rewrite (bool_decide_eq_false_2 (_ = provider)) by done. rewrite bool_decide_eq_false_2; [done|]. intros ->. congruence.
Qed.

(** C37. Setting an option is accepted for exactly the implemented controls of the
    provider's page and what the page offers there (every implemented choice is
    connected, no secret is), and then changes that setting, to that value, and no
    setting of any other control or provider. *)
Theorem option_command_exact parse_host provider key value :
  (is_Some (provider_option_update parse_host provider key value) ↔
   ∃ d c, settings_for provider = Some d ∧ c ∈ ProviderSettingsDescriptor.controls d ∧ ProviderSettingId.as_str (control_id c) = key ∧
     control_is_implemented c = true ∧ offers parse_host c value) ∧
  ∀ u, provider_option_update parse_host provider key value = Some u →
    ∃ id, ProviderSettingId.as_str id = key ∧ setting_owner id = provider ∧ ∀ config,
      setting (edit_option provider u config) id = new_text parse_host id value ∧
      ∀ id', id' ≠ id → setting (edit_option provider u config) id' = setting config id'.
Proof.
  split.
  - split.
    + intros Hs. pose proof Hs as [u Hu]. destruct (settings_for provider) as [d|] eqn:Hd; [|rewrite update_None in Hu; [done|by left]].
      destruct (by_key d key) as [c|] eqn:Hk; [|rewrite update_None in Hu; [done|right; by exists d]].
      apply (by_key_Some provider d) in Hk as [Hc <-]; [|done]. apply (update_accepted _ _ d) in Hs as [Hi Ho]; [|done..]. by exists d, c.
    + intros (d & c & Hd & Hc & <- & Hi & Ho). by apply (update_accepted _ _ d).
  - intros u Hu. destruct (update_changes _ _ _ _ _ Hu) as (id & Hk & Ho & Hset). exists id. split; [done|]. split; [done|].
    intros config. split; [by rewrite Hset, bool_decide_eq_true_2|]. intros id' Hne. by rewrite Hset, bool_decide_eq_false_2.
Qed.
End options.

Module ConfigOptionExample.
#[local] Instance number : JsonNumber := ConfigExample.number.
Lemma web_accepted :
  provider_option_update (λ _, None) ProviderId.Grok (lit "grok-usage-source") (Some (lit "web")) = Some (UpdateSource (Some SourceWeb)).
Proof. vm_compute. reflexivity. Qed.
Lemma option_command_exact_witness : ∃ id, ProviderSettingId.as_str id = lit "grok-usage-source" ∧ setting_owner id = ProviderId.Grok ∧
  ∀ config, setting (edit_option ProviderId.Grok (UpdateSource (Some SourceWeb)) config) id = new_text (λ _, None) id (Some (lit "web")) ∧
    ∀ id', id' ≠ id → setting (edit_option ProviderId.Grok (UpdateSource (Some SourceWeb)) config) id' = setting config id'.
Proof.
  exact (proj2 (option_command_exact (λ _, None) ProviderId.Grok (lit "grok-usage-source") (Some (lit "web"))) _ web_accepted).
Defined.
End ConfigOptionExample.
