(* ===== verification/ConfigCommandsSpec.v ===== *)
(** * The commands that change the configuration: what they leave on disk

    Over any documented operating system, stopped and crashed at any moment, a
    command leaves the document as it was or as it edits it, whole; and the edited
    configuration is one that the loader accepts. *)
From stdpp Require Import gmap countable prelude.
From S2P Require Import Prelude Ordering Text Externals Scope Errors Scheduler Endpoint Transport Config AtomicFile AtomicFileFacts AtomicFileSpec Settings Environment FixedApi EnvironmentFacts ConfigCommands ConfigCommandsFacts.
Local Open Scope Z_scope.

Section commands.
Context `{ConfigJson, UrlCrate} `{!ConfigWriter}.

Inductive ConfigCommand :=
| SetOption (parse_host : str → option str) (provider key : str) (value : option str)
| SetEnabled (provider : str) (value : bool)
| SetOrder (names : list str)
| SetEndpoint (provider : str) (value : option str)
| Initialize (force : bool).
Definition run_command (created : bool) (path : list Z) (command : ConfigCommand) : IO AppExitCode unit :=
  match command with
  | SetOption parse_host provider key value => set_provider_option parse_host created path provider key value
  | SetEnabled provider value => set_provider_enabled created path provider value
  | SetOrder names => set_provider_order created path names
  | SetEndpoint provider value => set_provider_endpoint created path provider value
  | Initialize force => initialize_config created path force
  end.

(** ** What a command makes of the document *)

(** The configuration in a file's contents: an empty one where there is no file,
    and none that can be used where it does not load. *)
Definition document (o : option (list Z)) : option AppConfig :=
  match o with None => Some empty_config | Some bytes => result_ok (load_config_bytes bytes) end.
Definition valid_only (config : AppConfig) : option AppConfig :=
  match validate_config config with Ok _ => Some config | Err _ => None end.
(** The edit that a command's arguments stand for; [None] where they are refused. *)
Definition edit_of (command : ConfigCommand) : option (AppConfig → option AppConfig) :=
  match command with
  | SetOption parse_host provider key value =>
      provider ← result_ok (ProviderId.from_str provider);
      update ← provider_option_update parse_host provider key value;
      Some (λ config, valid_only (edit_option provider update config))
  | SetEnabled provider value =>
      provider ← result_ok (ProviderId.from_str provider);
      Some (λ config, Some (edit_enabled provider value config))
  | SetOrder names =>
      requested ← parse_order names;
      Some (λ config, valid_only (edit_order requested config))
  | SetEndpoint provider value =>
      provider ← result_ok (ProviderId.from_str provider);
      if supports_provider_endpoint provider then Some (λ config, valid_only (edit_endpoint provider value config)) else None
  | Initialize _ => Some (λ _, Some empty_config)
  end.
Definition edited (command : ConfigCommand) (o : option (list Z)) : option AppConfig :=
  edit ← edit_of command;
  match command with
  | Initialize force => if force || bool_decide (o = None) then Some empty_config else None
  | _ => document o ≫= edit
  end.
(** The contents written for a configuration. *)
Definition written_as (config : option AppConfig) (contents : list Z) : Prop :=
  ∃ c bytes, config = Some c ∧ config_to_vec_pretty c = Some bytes ∧ contents = bytes ++ [10].

Section at_rest.
Context (path : list Z) (T : Name) (fs0 : Fs) (Hpath : names path T) (Hrest : at_rest T fs0).
Local Notation Kept fresh := (Keeps T (entries fs0 !! T) (held0 T fs0) fresh).
(** Done: the new contents are there, and on disk. *)
Definition replaced_by (config : option AppConfig) (r : Result AppExitCode unit) (fs : Fs) : Prop :=
  r = Ok tt → ∃ contents, written_as config contents ∧ at_rest T fs ∧ read_entry fs T = Some contents.

Lemma kept_weaken (fresh : nat → list Z → Prop) fs : Kept (λ _ _, False) fs → Kept fresh fs.
Proof.
  intros [Hn Hu Hh]. split; [done| |done]. intros e He. destruct (Hu e He) as [?|(i & c & _ & [] & _)]. by left.
Qed.
Lemma kept_start fresh : Kept fresh fs0.
Proof. by apply kept_weaken, keeps_initial. Qed.
Lemma fwp_refused fresh e config : fwp (Kept fresh) (Ret (Err e)) (replaced_by config) fs0.
Proof. apply fwp_ret; [apply kept_start|done]. Qed.
(** Writing, after other steps that kept the document. *)
Lemma fwp_write_config c fs1 : Kept (λ _ _, False) fs1 →
  fwp (Kept (λ _, written_as (Some c))) (write_config path c) (replaced_by (Some c)) fs1.
Proof.
  intros HJ. destruct (keeps_at_rest _ _ _ Hrest HJ) as [Hrest1 _]. unfold write_config, command_result.
  destruct (config_to_vec_pretty c) as [b|] eqn:Hb; [|by apply fwp_ret; [apply kept_weaken|]].
  change (fwp (Kept (λ _, written_as (Some c))) (io_map_err (λ _, Internal) (atomic_write path (b ++ [10]))) (replaced_by (Some c)) fs1).
  assert (written_as (Some c) (b ++ [10])) as Hw by (by exists c, b).
  apply fwp_map_err. eapply fwp_mono; [eapply fwp_weaken; [|by apply (fwp_atomic_write T (b ++ [10]) fs1)]|].
  - intros fs Hs%safe_target. eapply keeps_later in Hs; [|done]. destruct Hs as [Hn Hu Hh]. split; [done| |done].
    intros e He. destruct (Hu e He) as [?|(i & c' & Hi & -> & Hd)]; [by left|]. right. by exists i, (b ++ [10]).
  - intros r fs _ Hr Hok. destruct r as [[]|e]; [|done]. destruct (Hr eq_refl) as (j & Hset & Hd & _). exists (b ++ [10]).
    split; [done|]. split; [by eapply settled_at_rest|]. by eapply read_durable_at; [apply Hset|].
Qed.
Lemma fwp_read_config :
  fwp (Kept (λ _ _, False)) (read_config path) (λ r _, ∀ c, r = Ok c → document (read_entry fs0 T) = Some c) fs0.
Proof.
  unfold read_config. eapply (fwp_step _ _ _ (λ r _, ∀ o, r = Ok o → o = read_entry fs0 T)).
  { apply fwp_map_err. eapply fwp_mono; [by apply (fwp_read_private T fs0 path MAX_CONFIG_BYTES)|].
    intros r fs' _ Hr o Ho%map_err_Ok. by apply Hr. }
  2:{ done. }
  intros o fs1 HJ Ho. rewrite <-(Ho o eq_refl). destruct o as [bytes|]; apply fwp_ret; try done.
  - intros c Hc%map_err_Ok. cbn [document]. by rewrite Hc.
  - by intros c [= <-].
Qed.
(** A command that reads, edits and writes. *)
Definition edits (edit : AppConfig → option AppConfig) (k : AppConfig → IO AppExitCode unit) : Prop :=
  ∀ c, match edit c with Some c' => k c = write_config path c' | None => ∃ e, k c = Ret (Err e) end.
Lemma edits_valid f : edits (λ c, valid_only (f c)) (λ c, validated (f c) ;; write_config path (f c)).
Proof. intros c. unfold valid_only, validated. destruct (validate_config (f c)) as [u|e]; [done|by eexists]. Qed.
Lemma fwp_edits edit k : edits edit k →
  fwp (Kept (λ _, written_as (document (read_entry fs0 T) ≫= edit))) (read_config path ≫= k)
    (replaced_by (document (read_entry fs0 T) ≫= edit)) fs0.
Proof.
  intros Hk. eapply fwp_step.
  { eapply fwp_weaken; [apply kept_weaken|]. eapply fwp_mono; [apply fwp_read_config|].
    intros r fs' HJ Hr. exact (conj HJ Hr). }
  2:{ done. }
  intros c fs1 _ [HJ Hc]. rewrite (Hc c eq_refl). cbn [mbind option_bind]. specialize (Hk c).
  destruct (edit c) as [c'|]; [rewrite Hk; by apply fwp_write_config|]. destruct Hk as [e ->].
  apply fwp_ret; [by apply kept_weaken|done].
Qed.
(** A check of what is given, before anything is read. *)
Lemma fwp_checked {A} (r : Result AppExitCode A) (k : A → IO AppExitCode unit) fresh config :
  (∀ a, r = Ok a → fwp (Kept fresh) (k a) (replaced_by config) fs0) →
  fwp (Kept fresh) (command_result r ≫= k) (replaced_by config) fs0.
Proof. destruct r as [a|e]; [intros Hk; by apply (Hk a)|intros _; apply fwp_refused]. Qed.
Lemma fwp_initialize created force :
  fwp (Kept (λ _, written_as (edited (Initialize force) (read_entry fs0 T)))) (initialize_config created path force)
    (replaced_by (edited (Initialize force) (read_entry fs0 T))) fs0.
Proof.
  unfold initialize_config, private_directories, edited. cbn [edit_of]. cbn [mbind option_bind]. apply fwp_checked. intros [] _.
  destruct force; cbn [orb]; [by apply (fwp_write_config empty_config), keeps_initial|].
  eapply (fwp_step _ _ _ (λ r fs, Kept (λ _ _, False) fs ∧ (r = Ok tt → read_entry fs0 T = None))).
  2:{ intros [] fs1 _ [HJ Hr]. rewrite bool_decide_eq_true_2 by (by apply Hr). by apply fwp_write_config. }
  2:{ done. }
  eapply (fwp_step _ _ _ (λ r fs, Kept (λ _ _, False) fs ∧ ∀ o, r = Ok o → o = read_entry fs0 T)).
  { eapply fwp_weaken; [apply kept_weaken|]. apply fwp_map_err.
    eapply fwp_mono; [by apply (fwp_read_private T fs0 path MAX_CONFIG_BYTES)|].
    intros r fs' HJ Hr. split; [done|]. intros o Ho%map_err_Ok. by apply Hr. }
  2:{ intros e fs1 _ [HJ _]. by split. }
  intros o fs1 _ [HJ Ho]. rewrite <-(Ho o eq_refl). destruct o; (apply fwp_ret; [by apply kept_weaken|by split]).
Qed.
Lemma fwp_run_command created command :
  fwp (Kept (λ _, written_as (edited command (read_entry fs0 T)))) (run_command created path command)
    (replaced_by (edited command (read_entry fs0 T))) fs0.
Proof.
  destruct command as [parse_host p key value|p value|l|p value|force]; [..|apply fwp_initialize]; unfold edited; cbn [run_command edit_of].
  - apply fwp_checked. intros provider Hp%map_err_Ok. rewrite Hp. apply fwp_checked. intros u Hu%ok_or_Ok. cbn [result_ok mbind option_bind].
    unfold mbind in Hu |- *. rewrite Hu. apply fwp_checked. intros [] _. apply (fwp_edits (λ c, valid_only (edit_option provider u c))), edits_valid.
  - apply fwp_checked. intros provider Hp%map_err_Ok. rewrite Hp. apply fwp_checked. intros [] _.
    by apply (fwp_edits (λ c, Some (edit_enabled provider value c))).
  - apply fwp_checked. intros requested Hp%ok_or_Ok. rewrite Hp. apply fwp_checked. intros [] _.
    apply (fwp_edits (λ c, valid_only (edit_order requested c))), edits_valid.
  - apply fwp_checked. intros provider Hp%map_err_Ok. rewrite Hp. cbn [result_ok mbind option_bind].
    destruct (supports_provider_endpoint provider); [|apply fwp_refused]. apply fwp_checked. intros [] _.
    apply (fwp_edits (λ c, valid_only (edit_endpoint provider value c))), edits_valid.
Qed.
End at_rest.

(** C16. Whatever the system calls answer and wherever the program is stopped, after a
    crash the document is the previous one or, whole, the one the command edits it
    into; and a command that succeeds has put that one there, durably.  What it
    edits is the document it read under the lock: an unreadable one, or arguments
    that are refused, are never written over. *)
Theorem config_commands_durable sys path target created command fs p fs' :
  documented sys → names path target → at_rest target fs → exec sys (run_command created path command) fs p fs' →
  (∀ image, crash fs' image → image_read image target = read_entry fs target ∨
     ∃ contents, image_read image target = Some contents ∧ written_as (edited command (read_entry fs target)) contents) ∧
  (p = Ret (Ok tt) → ∃ contents, written_as (edited command (read_entry fs target)) contents ∧
     at_rest target fs' ∧ read_entry fs' target = Some contents ∧ ∀ image, crash fs' image → image_read image target = Some contents).
Proof.
  intros Hsys Hpath Hrest Hx. destruct (fwp_exec _ _ _ _ _ _ _ Hsys (fwp_run_command _ _ _ Hpath Hrest created command) Hx) as [HI HQ].
  split.
  - intros image Hc. destruct (safe_crash _ _ _ _ _ Hrest HI Hc) as [->|(i & c & Hw & -> & _)]; [by left|]. right. by exists c.
  - intros ->. destruct (HQ _ eq_refl eq_refl) as (contents & Hw & Hrest' & Hread). exists contents.
    split; [done|]. split; [done|]. split; [done|]. intros image Hc.
    destruct (safe_crash _ _ (λ _ _, False) _ _ Hrest' (keeps_initial _ _ Hrest') Hc) as [->|(i & c & [] & _)]. done.
Qed.
End commands.

(** ** Edits keep a configuration valid *)

Section validity.
Context `{JsonNumber, UrlCrate}.
(** A change of a route that validation cannot refuse. *)
Definition harmless (f : ProviderConfig → ProviderConfig) : Prop :=
  in_place f ∧ ∀ r, valid_provider r → valid_provider (f r) ∧ count (accounts (f r)) = count (accounts r).
Lemma change_default_Some p f l l' : change_default p f l = Some l' → ∃ l1 r l2, l = l1 ++ r :: l2 ∧ l' = l1 ++ f r :: l2.
Proof.
  revert l'. induction l as [|r l IH]; intros l'; cbn [change_default]; [done|]. destruct (is_default_route p r).
  - intros [= <-]. by exists [], r, l.
  - intros (l0 & Hl & ->)%fmap_Some. destruct (IH _ Hl) as (l1 & x & l2 & -> & ->). by exists (r :: l1), x, l2.
Qed.
Lemma change_default_None p f l : change_default p f l = None → (p, lit "default") ∉ route <$> l.
Proof.
  induction l as [|r l IH]; [intros _ []%elem_of_nil|]. cbn [change_default]. destruct (is_default_route p r) eqn:Hr; [done|].
  intros Hc%fmap_None. rewrite fmap_cons. intros [Heq|Hin]%elem_of_cons; [|by apply IH].
  unfold route in Heq. injection Heq as Hp Hi. unfold is_default_route in Hr. rewrite bool_decide_eq_true_2 in Hr by done.
  rewrite bool_decide_eq_true_2 in Hr; [done|]. apply (inj ProviderInstanceId.as_str). by rewrite <-Hi.
Qed.
Lemma valid_new_route p b : valid_provider (new_route p b).
Proof.
  split; cbn [new_route accounts endpoint config_path options route provider_id instance_id fmap list_fmap snd]; try done; by constructor.
Qed.
Lemma total_app {A} (f : A → Z) l k : total f (l ++ k) = total f l + total f k.
Proof. unfold total. induction l as [|x l IH]; cbn in *; [done|]. lia. Qed.
Lemma valid_listed config p : valid_config config → p ∈ provider_order config ↔ p ∈ provider_id <$> providers config.
Proof. intros Hv. apply Hv. Qed.
Lemma count_append {A} (l k : list A) : count (l ++ k) = count l + count k.
Proof. unfold count. rewrite length_app. lia. Qed.
(** A route added at the end, and its group. *)
Lemma valid_added config r order : valid_config config → valid_provider r → accounts r = [] → route r ∉ route <$> providers config →
  count (providers config) < MAX_PROVIDER_INSTANCES → NoDup order → (∀ q, q ∈ order ↔ q ∈ provider_order config ∨ q = provider_id r) →
  valid_config (mk_config (schema_version config) (providers config ++ [r]) order).
Proof.
  intros [Hver Hcount Hps Hroutes Htotal Hnd Hgroups] Hr Ha Hnew Hc Hod Ho.
  split; cbn [schema_version providers provider_order]; [done|rewrite count_append; unfold count at 2; cbn; lia|..].
  - by apply Forall_app_2; [|apply Forall_singleton].
  - rewrite fmap_app. apply NoDup_app. split; [done|]. split; [|by apply NoDup_singleton]. by intros x Hx ->%list_elem_of_singleton.
  - rewrite total_app. cbn [total foldr]. rewrite Ha. change (count (@nil AccountConfig)) with 0. lia.
  - done.
  - intros q. rewrite Ho, fmap_app, elem_of_app, Hgroups. cbn [fmap list_fmap]. by rewrite list_elem_of_singleton.
Qed.
Lemma valid_edit_route p f config : harmless f → valid_config config →
  count (providers (edit_route p f config)) ≤ MAX_PROVIDER_INSTANCES → valid_config (edit_route p f config).
Proof.
  intros [Hf Hvf] Hv. unfold edit_route. destruct (change_default p f (providers config)) as [l|] eqn:Hc.
  - intros _. destruct (change_default_Some _ _ _ _ Hc) as (l1 & r & l2 & El & ->). destruct Hv as [Hver Hcount Hps Hroutes Htotal Hnd Hgroups].
    rewrite El in *. destruct (Hf r) as [Hp Hi]. apply Forall_app in Hps as [H1 [Hr H2]%Forall_cons]. destruct (Hvf r Hr) as [Hfr Hfa].
    assert (route (f r) = route r) as Er by (unfold route; by rewrite Hp, Hi).
    split; cbn [schema_version providers provider_order]; [done|by rewrite count_append in *|..].
    + apply Forall_app. split; [done|]. by constructor.
    + rewrite fmap_app, fmap_cons in *. by rewrite Er.
    + rewrite total_app in *. cbn [total foldr] in *. by rewrite Hfa.
    + done.
    + intros q. rewrite Hgroups, !fmap_app, !fmap_cons. by rewrite Hp.
  - cbn [providers]. rewrite count_append. change (count [_]) with 1. intros Hroom. pose proof (change_default_None _ _ _ Hc) as Hn.
    destruct (Hvf _ (valid_new_route p false)) as [Hfr Hfa]. destruct (Hf (new_route p false)) as [Hp Hi]. cbn [new_route provider_id instance_id] in Hp, Hi.
    apply valid_added; try done; [|by unfold route; rewrite Hp, Hi|lia|..].
    + cbn [new_route accounts] in Hfa. by destruct (accounts (f _)).
    + case_bool_decide; [apply Hv|]. apply NoDup_app. split; [apply Hv|]. split; [by intros x Hx ->%list_elem_of_singleton|apply NoDup_singleton].
    + intros q. rewrite Hp. case_bool_decide; [|by rewrite elem_of_app, list_elem_of_singleton]. split; [by left|]. by intros [?| ->].
Qed.
Lemma harmless_enabled b : harmless (with_enabled b).
Proof. split; [done|]. intros r Hr. split; [|done]. by destruct Hr. Qed.
Lemma empty_valid : valid_config empty_config.
Proof. split; cbn; try done; try by constructor. Qed.
Lemma valid_only_Some config c : valid_only config = Some c ↔ c = config ∧ valid_config config.
Proof.
  unfold valid_only. rewrite <-validate_config_Ok. destruct (validate_config config) as [[]|e]; split; try done.
  - by intros [= <-].
  - by intros [-> _].
  - by intros [_ [=]].
Qed.
End validity.

(** ** What is written is accepted *)

(** What serde_json makes of a number and of a path's bytes. *)
Class ConfigValues `{JsonNumber} := {
  number_of : Z → Number;
  path_text : list Z → str;
}.
Section values.
Context `{ConfigValues}.
(** A field that is skipped where there is nothing in it. *)
Definition field (name : str) (value : option Value) : list (str * Value) :=
  match value with Some value => [(name, value)] | None => [] end.
Definition source_mode_name (s : ProviderSourceMode) : str :=
  match s with
  | SourceAuto => lit "auto" | SourceWeb => lit "web" | SourceCli => lit "cli" | SourceOauth => lit "oauth" | SourceApi => lit "api"
  | SourcePat => lit "pat" | SourceApiKey => lit "api_key" | SourceConfigurableEndpoint => lit "configurable_endpoint"
  | SourceManualCookie => lit "manual_cookie" | SourceBrowserSession => lit "browser_session" | SourceLocal => lit "local"
  | SourceCloudCredentials => lit "cloud_credentials"
  end.
Fixpoint option_value (v : ProviderOptionValue) : Value :=
  match v with
  | OptionBoolean b => Bool b
  | OptionNumber n => Num n
  | OptionText s => String s
  | OptionArray values => Array (option_value <$> values)
  | OptionObject fields => Object ((λ f, (f.1, option_value f.2)) <$> fields)
  end.
Definition extensions_is_empty (o : ProviderOptions) : bool := is_empty (extensions o).
Definition options_is_empty (o : ProviderOptions) : bool :=
  bool_decide (Config.source o = None) && bool_decide (cookie_source o = None) && bool_decide (extras_enabled o = None)
  && bool_decide (region o = None) && bool_decide (workspace o = None) && bool_decide (project o = None)
  && bool_decide (organization o = None) && bool_decide (team o = None) && bool_decide (enterprise_host o = None)
  && bool_decide (deployment o = None) && extensions_is_empty o.
Definition options_value (o : ProviderOptions) : Value :=
  Object (field (lit "source") (String ∘ source_mode_name <$> Config.source o)
    ++ field (lit "cookie_source") (String ∘ cookie_source_text <$> cookie_source o)
    ++ field (lit "extras_enabled") (Bool <$> extras_enabled o)
    ++ field (lit "region") (String <$> region o)
    ++ field (lit "workspace") (String <$> workspace o)
    ++ field (lit "project") (String <$> project o)
    ++ field (lit "organization") (String <$> organization o)
    ++ field (lit "team") (String <$> team o)
    ++ field (lit "enterprise_host") (String <$> enterprise_host o)
    ++ field (lit "deployment") (String <$> deployment o)
    ++ field (lit "provider_options")
         (if extensions_is_empty o then None else Some (Object ((λ f, (f.1, option_value f.2)) <$> extensions o)))).
Definition account_value (a : AccountConfig) : Value :=
  Object [(lit "id", String (AccountKey.as_str (account_id a))); (lit "enabled", Bool (account_enabled a))].
Definition provider_value (p : ProviderConfig) : Value :=
  Object ([(lit "id", String (ProviderId.as_str (provider_id p)));
           (lit "instance_id", String (ProviderInstanceId.as_str (instance_id p)));
           (lit "enabled", Bool (enabled p))]
    ++ field (lit "endpoint") (String <$> endpoint p)
    ++ field (lit "config_path") (String ∘ path_text <$> config_path p)
    ++ field (lit "options") (if options_is_empty (options p) then None else Some (options_value (options p)))
    ++ [(lit "accounts", Array (account_value <$> accounts p))]).
Definition config_value (c : AppConfig) : Value :=
  Object [(lit "schema_version", Num (number_of (schema_version c)));
          (lit "providers", Array (provider_value <$> providers c));
          (lit "provider_order", Array ((λ p, String (ProviderId.as_str p)) <$> provider_order c))].

(** No object of it names a secret-like field. *)
Definition clean (fields : list (str * Value)) : Prop :=
  existsb (λ field, secret_like_key field.1 || contains_secret_like_field field.2) fields = false.
Lemma clean_app l k : clean l → clean k → clean (l ++ k).
Proof. unfold clean. intros Hl Hk. by rewrite existsb_app, Hl, Hk. Qed.
Lemma clean_cons name v l : secret_like_key name = false → contains_secret_like_field v = false → clean l → clean ((name, v) :: l).
Proof. unfold clean. cbn [existsb fst snd]. by intros -> -> ->. Qed.
Lemma clean_field name (o : option Value) : secret_like_key name = false → (∀ v, o = Some v → contains_secret_like_field v = false) →
  clean (field name o).
Proof. intros Hn Hv. destruct o as [v|]; [|done]. apply clean_cons; [done|by apply Hv|done]. Qed.
Lemma clean_array {A} (f : A → Value) l : (∀ x, x ∈ l → contains_secret_like_field (f x) = false) →
  contains_secret_like_field (Array (f <$> l)) = false.
Proof.
  intros Hf. cbn [contains_secret_like_field]. apply existsb_false. apply Forall_fmap, Forall_forall. intros x Hx. by apply Hf.
Qed.
Lemma clean_options {A} (f : A → Value) (o : option A) v : (∀ x, contains_secret_like_field (f x) = false) →
  f <$> o = Some v → contains_secret_like_field v = false.
Proof. intros Hf (x & _ & ->)%fmap_Some. apply Hf. Qed.
Lemma key_ok_clean key : key_ok key = true → secret_like_key key = false.
Proof.
  unfold key_ok. rewrite !andb_true_iff. intros [[_ Hk%negb_true_iff] _]. unfold secret_like_key. by case_bool_decide.
Qed.
Lemma clean_fields (vok : Z → ProviderOptionValue → bool) depth fields : fields_ok vok depth fields = true →
  Forall (λ f, ∀ depth, vok depth f.2 = true → contains_secret_like_field (option_value f.2) = false) fields →
  contains_secret_like_field (Object ((λ f, (f.1, option_value f.2)) <$> fields)) = false.
Proof.
  unfold fields_ok. rewrite !andb_true_iff. intros [_ Hf] Hall. rewrite forallb_forall in Hf. cbn [contains_secret_like_field].
  apply existsb_false, Forall_fmap, Forall_forall. intros f Hin. rewrite Forall_forall in Hall. cbn [compose fst snd].
  specialize (Hf f (proj1 (list_elem_of_In _ _) Hin)). apply andb_true_iff in Hf as [Hk Hv].
  by rewrite (key_ok_clean _ Hk), (Hall f Hin _ Hv).
Qed.
Lemma option_value_clean v depth : value_ok depth v = true → contains_secret_like_field (option_value v) = false.
Proof.
  revert depth. induction v as [b|n|s|values IH|fields IH] using option_value_nested; intros depth; try done; cbn [value_ok option_value].
  - rewrite !andb_true_iff. intros [_ Hv]. rewrite forallb_forall in Hv. rewrite Forall_forall in IH.
    apply clean_array. intros v Hin. eapply IH; [done|]. apply Hv. by apply list_elem_of_In.
  - intros Hf. by eapply clean_fields.
Qed.
Ltac plain_field := apply clean_field; [vm_compute; reflexivity|intros v; apply clean_options; done].
Lemma options_value_clean o : valid_options o → contains_secret_like_field (options_value o) = false.
Proof.
  intros [_ Hshape _ _]. unfold options_value. cbn [contains_secret_like_field].
  repeat (apply clean_app; [plain_field|]). apply clean_field; [vm_compute; reflexivity|].
  intros v. destruct (extensions_is_empty o); [done|]. intros [= <-]. eapply clean_fields; [exact Hshape|].
  apply Forall_forall. intros f _ depth. apply option_value_clean.
Qed.
Lemma provider_value_clean `{UrlCrate} p : valid_provider p → contains_secret_like_field (provider_value p) = false.
Proof.
  intros Hp. unfold provider_value. cbn [contains_secret_like_field].
  apply clean_app; [do 3 (apply clean_cons; [vm_compute; reflexivity|done|]); done|]. do 2 (apply clean_app; [plain_field|]).
  apply clean_app.
  - apply clean_field; [vm_compute; reflexivity|]. intros v. destruct (options_is_empty _); [done|]. intros [= <-].
    apply options_value_clean, Hp.
  - apply clean_cons; [vm_compute; reflexivity| |done]. apply clean_array. intros a _. unfold account_value.
    cbn [contains_secret_like_field]. do 2 (apply clean_cons; [vm_compute; reflexivity|done|]). done.
Qed.
Lemma config_value_clean `{UrlCrate} c : valid_config c → contains_secret_like_field (config_value c) = false.
Proof.
  intros Hc. unfold config_value. cbn [contains_secret_like_field]. apply clean_cons; [vm_compute; reflexivity|done|].
  apply clean_cons; [vm_compute; reflexivity| |apply clean_cons; [vm_compute; reflexivity|by apply clean_array|done]].
  apply clean_array. intros p Hin. apply provider_value_clean. pose proof (valid_providers _ Hc) as Hall. rewrite Forall_forall in Hall.
  by apply Hall.
Qed.
End values.

Section accepted.
Context `{ConfigJson, UrlCrate} `{!ConfigValues}.
Lemma loaded_valid bytes c : load_config_bytes bytes = Ok c → valid_config c.
Proof.
  unfold load_config_bytes. case_match; [done|]. intros (value & _ & Hl)%bind_Ok. destruct (contains_secret_like_field value); [done|].
  apply bind_Ok in Hl as (_ & _ & (c' & _ & ([] & Hok & [= ->])%bind_Ok)%bind_Ok). by apply validate_config_Ok.
Qed.
Lemma document_valid o c : document o = Some c → valid_config c.
Proof.
  destruct o as [bytes|]; cbn [document].
  - destruct (load_config_bytes bytes) as [c'|] eqn:Hl; [|done]. intros [= <-]. by eapply loaded_valid.
  - intros [= <-]. apply empty_valid.
Qed.
Lemma enabled_valid p b c : valid_config c →
  valid_config (edit_enabled p b c) ∨
  count (providers c) = MAX_PROVIDER_INSTANCES ∧ (p, lit "default") ∉ route <$> providers c.
Proof.
  intros Hv. destruct (Z.le_gt_cases (count (providers (edit_enabled p b c))) MAX_PROVIDER_INSTANCES) as [Hle|Hgt].
  { left. by apply valid_edit_route; [apply harmless_enabled|..]. }
  right. pose proof (valid_count _ Hv) as Hc. revert Hgt. unfold edit_enabled, edit_route.
  destruct (change_default p (with_enabled b) (providers c)) as [l|] eqn:Hch; cbn [providers].
  - destruct (change_default_Some _ _ _ _ Hch) as (l1 & r & l2 & El & ->). rewrite El in Hc. rewrite !count_append in *.
    unfold count in *. cbn [length] in *. lia.
  - rewrite count_append. change (count [_]) with 1. intros. split; [lia|by eapply change_default_None].
Qed.

End accepted.

(** ** The limit of routes *)

(** Enabling a provider that has no route, where there are already as many as
    there may be, makes a document that never loads. *)
Lemma enabling_past_the_limit `{ConfigJson, UrlCrate} p b config bytes :
  count (providers config) = MAX_PROVIDER_INSTANCES → (p, lit "default") ∉ route <$> providers config →
  load_config_bytes bytes ≠ Ok (edit_enabled p b config).
Proof.
  intros Hcount Hn Hl%loaded_valid. destruct Hl as [_ Hc _ _ _ _ _]. revert Hc. unfold edit_enabled, edit_route.
  pose proof (change_default_find p (with_enabled b) (providers config) (λ _, conj eq_refl eq_refl)) as Hf.
  destruct (change_default p (with_enabled b) (providers config)) as [l|].
  - destruct Hf as (r & [Hin Hr]%find_some & _). destruct Hn. apply list_elem_of_fmap. exists r. apply list_elem_of_In in Hin. split; [|done].
    unfold is_default_route in Hr. apply andb_true_iff in Hr as [<-%bool_decide_eq_true Hi%bool_decide_eq_true]. unfold route. by rewrite Hi.
  - cbn [providers]. rewrite count_append, Hcount. change (count [_]) with 1. change MAX_PROVIDER_INSTANCES with 256. lia.
Qed.

(** ** A document with one route, enabled *)
Module ConfigCommandsExample.
Import AtomicFileSpec.Runs.
#[local] Instance number : JsonNumber := ConfigExample.number.
#[local] Instance url : UrlCrate := ConfigExample.url.
#[local] Instance values : ConfigValues := {| number_of n := n; path_text p := p |}.
Definition grok (b : bool) : AppConfig := mk_config 1 [new_route ProviderId.Grok b] [ProviderId.Grok].
Definition is_grok (c : AppConfig) : bool :=
  match c with
  | mk_config v [mk_provider p i e None None o []] order =>
      (v =? 1) && bool_decide (p = ProviderId.Grok) && bool_decide (i = default_instance) && e && options_is_empty o
      && bool_decide (order = [ProviderId.Grok])
  | _ => false
  end.
Lemma is_grok_true c : is_grok c = true → c = grok true.
Proof.
  destruct c as [v [|[p i e [|] [|] o [|]] [|]] order]; try done. cbn [is_grok].
  rewrite !andb_true_iff. intros [[[[[->%Z.eqb_eq ->%bool_decide_eq_true] ->%bool_decide_eq_true] ->] Ho] ->%bool_decide_eq_true].
  destruct o as [s cs x r w j g t h d e]. unfold options_is_empty, extensions_is_empty in Ho. cbn in Ho.
  rewrite !andb_true_iff, !bool_decide_eq_true in Ho. destruct e; [|by destruct Ho]. unfold grok, new_route, options_default.
  destruct Ho as [[[[[[[[[[-> ->] ->] ->] ->] ->] ->] ->] ->] ->] _]. done.
Qed.
(** [1; 2] is the document with the route disabled; [7] stands for the enabled one. *)
#[local] Instance writer : ConfigWriter := λ c, if is_grok c then Some [7] else None.
#[local] Instance json : ConfigJson := {|
  value_from_slice bytes := Some (config_value (grok (bool_decide (bytes = [7; 10]))));
  config_from_slice bytes := Some (grok (bool_decide (bytes = [7; 10])));
|}.
Definition enable : ConfigCommand := SetEnabled (lit "grok") true.
Definition enabled_fs : Fs := (Undisturbed.run (run_command true path enable) before).2.
Lemma enable_run : exec Undisturbed.system (run_command true path enable) before (Ret (Ok tt)) enabled_fs.
Proof. unfold enabled_fs. apply Undisturbed.run_exec. by vm_compute. Qed.
Lemma enable_edits : edited enable (Some [1; 2]) = Some (grok true).
Proof. by vm_compute. Qed.
Lemma config_commands_durable_witness : ∃ contents,
  written_as (edited enable (read_entry before target)) contents ∧
  at_rest target enabled_fs ∧ read_entry enabled_fs target = Some contents ∧
  ∀ image, crash enabled_fs image → image_read image target = Some contents.
Proof.
  refine (proj2 (config_commands_durable Undisturbed.system path target true enable before (Ret (Ok tt)) enabled_fs _ _ _ _) eq_refl).
  - apply Undisturbed.system_documented.
  - apply names_target.
  - apply before_at_rest.
  - apply enable_run.
Defined.
Lemma before_enable before : document (Some [1; 2]) = Some before → count (providers before) ≠ MAX_PROVIDER_INSTANCES.
Proof. intros E. vm_compute in E. injection E as <-. by vm_compute. Qed.

(** As many routes as there may be, and one more. *)
Definition full_config : AppConfig :=
  mk_config 1 ((λ i, mk_provider ProviderId.Codex (ProviderInstanceId.mk (lit "r" ++ show_u64 i)) true None None options_default [])
    <$> seqZ 0 256) [ProviderId.Codex].
Lemma full_config_valid : validate_config full_config = Ok tt.
Proof. vm_compute. reflexivity. Qed.
Lemma full_config_never_loads_again b bytes : load_config_bytes bytes ≠ Ok (edit_enabled ProviderId.Grok b full_config).
Proof.
  apply enabling_past_the_limit; [vm_compute; reflexivity|]. intros Hin. apply list_elem_of_fmap in Hin as (r & Hr & Hin).
  cbn [providers full_config] in Hin. apply list_elem_of_fmap in Hin as (i & -> & _). by injection Hr.
Qed.
End ConfigCommandsExample.
